(* ===== verification/_CoqProject ===== *)
-Q . S2P
Prelude.v
Ord.v
Clock.v
SumTree.v
SumTreeFacts.v
SeekSpec.v
Cursor.v
CursorFacts.v
SeekFacts.v
KeyedTree.v
KeyedFacts.v
TreeMap.v
TreeMapFacts.v
Locator.v
UndoMap.v
Patch.v
PatchFacts.v
Subscription.v
History.v
HistoryFacts.v
Bitmap.v
Select.v
Utf8.v
Point.v
TextSummary.v
Chunk.v
ChunkFacts.v
ChunkSummary.v
ChunkPositions.v
ChunkClip.v
Rope.v
RopeFacts.v
RopeSlices.v
RopePositions.v
Fragments.v
BufferEdit.v
EditIndex.v
Doc.v
EditFacts.v
LocalEdit.v
Buffer.v
BufferFacts.v
Anchor.v
AnchorFacts.v
BufferUndo.v
FragmentIds.v
UndoFacts.v
UndoSpec.v
UndoCorrect.v
BufferReach.v
RemoteEdit.v
Converge.v
RemoteWalk.v
RemoteSteps.v
RemoteRange.v
RemoteApply.v
Operations.v
Messages.v
Receive.v
LocalOps.v
Delivery.v
Collab.v
Session.v
Bytes.v
RelayFrame.v
NoiseSession.v
Pairing.v
PairingFlow.v
GitGraph.v
GitGraphLayout.v
RecoveryKey.v
SyncEnvelope.v
SyncClient.v
SyncFiles.v
SyncEngine.v
SyncSafety.v
SyncRotate.v
SyncSample.v
SyncExtensions.v
