(* ===== verification/Prelude.v ===== *)
(** * Zode: verification of the editor's text core, its relay protocol, its settings sync and its commit graph

    Zode is a code editor (a fork of Zed).  Everything it shows is a text buffer: a
    replicated sequence of fragments kept in a balanced tree, versioned by logical
    clocks, with an undo history and a stream of edits to those who watch it; its text
    is a rope.  This library models that core, from [src/crates/clock],
    [src/crates/sum_tree], [src/crates/rope] and [src/crates/text], and proves that it
    does what its users rely on.  It also models three parts that Zode adds and that do not
    need the core: how two devices pair and talk through a relay
    ([src/crates/remote_relay_protocol], [src/crates/remote_control/src/pairing_flow.rs]), how
    settings are synced between machines through a service that cannot read them
    ([src/crates/zode_sync]), and how the commit graph is laid out ([src/crates/git_graph_core]).

    ** How the parts fit

    - [clock]: Lamport timestamps and version vectors name operations and say what a
      replica has seen.
    - [sum_tree]: a B+ tree whose nodes carry summaries; cursors seek in any dimension
      of the summary; keyed trees, [TreeMap] and [TreeSet] are built on them.
    - [rope]: a text is a [sum_tree] of chunks of at most 128 bytes, each with bitmaps of
      its characters, UTF-16 units, newlines and tabs; summaries count bytes, characters,
      UTF-16 units, rows and the longest row, and positions of every kind convert into
      each other.
    - [text]: [Locator]s order fragments; the [UndoMap] (a keyed tree) says which
      edits are undone; [Patch]es describe how a text changed and a [Topic] composes
      them for each subscriber; the [History] groups edits into transactions, with a
      [TreeMap] for its log of operations.  A [Buffer] joins them: its fragments cut up a
      visible and a deleted rope, an index finds the fragment of a place in an insertion,
      and an [Anchor] is such a place.  Replicas send their operations to each other and
      apply those they receive.
    - [remote_relay_protocol]: bytes travel in frames, frames in encrypted messages of a
      session, sessions begin with a handshake between devices that know each other's keys,
      and devices learn the keys by pairing; [remote_control] puts a person in front of
      pairing ([PairingFlow] drives [PairingGate]).
    - [zode_sync]: one key, which a user writes down as the recovery key, seals every document in an envelope bound to
      its owner and slot; the client reads and conditionally writes documents; the engine compares them with local
      files and with [sync_state.json], and asks before it replaces either side; a rotation moves all documents to a new key.
    - [git_graph_core]: a log of commits becomes rows, lanes and lines.

    ** Files

    - [Prelude.v]: Rust's panics ([outcome]), total correctness ([ok_with]), machine
      integers, [Ordering].
    - [Ord.v]: the [Ord] trait as a class with laws and the derived instances.
    - [Clock.v]: [clock.rs].  Version vectors are lists; [observe], [join], [meet] and
      the comparisons are loops over them.
    - [SumTree.v]: the type and the operations of [sum_tree.rs] that build and search a
      tree ([append], [push_tree_recursive], [from_iter], [from_par_iter], [find],
      [update_last], ...).  [SumTreeFacts.v]: the invariant [tree_wf] and what the
      operations do to the sequence of items.  [SeekSpec.v]: the item-by-item scan that
      seeking is measured against, and [find].
    - [Cursor.v]: [cursor.rs], with the stack of the cursor, its motions, the seek loop
      and its three aggregates, [Iter] and [FilterCursor].  [CursorFacts.v]: a cursor is
      a zipper on the sequence of items.  [SeekFacts.v]: [seek], [slice], [summary] and
      [suffix] against the scan; the class [AggregateSpec] is what the loop asks of an
      aggregate.
    - [KeyedTree.v], [KeyedFacts.v]: [insert_or_replace], [remove], [edit] and [get] of
      [SumTree<T: KeyedItem>]; the class [KeyLaws] is what a key has to satisfy.
    - [TreeMap.v], [TreeMapFacts.v]: [tree_map.rs], refining finite maps.
    - [Locator.v]: [locator.rs].  [UndoMap.v]: [undo_map.rs], a client of [KeyLaws].
    - [Patch.v], [PatchFacts.v]: [patch.rs] and [Edit] of [text.rs], generic in the
      position type; the theorems are about [usize] with its wrap-around.
    - [Subscription.v]: [subscription.rs], over a heap of reference-counted patches,
      with the abstract promise of a topic and the refinement.
    - [History.v], [HistoryFacts.v]: [History] and [Transaction] of [text.rs].
    - [Bitmap.v], [Select.v], [Utf8.v]: 128-bit bitmaps, [nth_set_bit] and its branchless
      64-bit version, UTF-8 as sequences of bytes.  [Point.v]: [point.rs],
      [point_utf16.rs], [offset_utf16.rs], [unclipped.rs].  [TextSummary.v]:
      [TextSummary] of [rope.rs] and the summary a text has.
    - [Chunk.v]: [chunk.rs].  [ChunkFacts.v]: [chunk_of] and [slice_of], the chunk a text
      has, and construction, boundaries, slicing.  [ChunkSummary.v], [ChunkPositions.v],
      [ChunkClip.v]: its summary, conversions, clipping and tabs.
    - [Rope.v]: [Rope] and [Cursor] of [rope.rs], over the interface [ChunkApi] of chunks,
      with the concrete instance and one over texts.  [RopeFacts.v]: the invariant
      [rope_wf], [push], [append], [push_front].  [RopeSlices.v]: the cursor, [slice],
      [replace].  [RopePositions.v]: conversions and boundaries.
    - [Fragments.v]: [Fragment], [FragmentSummary], [InsertionFragment],
      [InsertionSlice] and [RopeBuilder] of [text.rs]; fragments with their texts
      ([pieces]).  [BufferEdit.v]: the walk of [Buffer::apply_local_edit] over the old
      fragments, with its local variables as the record [EditState].  [EditIndex.v]: the
      spans of insertions, the entries written to the index, and what an edit did to each fragment.  [EditFacts.v]: the
      invariant [inv] of the walk, step by step.  [LocalEdit.v]: the walk as a whole, with the part of the invariant
      about undo counts and insertion slices.
    - [Buffer.v], [BufferFacts.v]: [Buffer::new], [edit] and transactions; the invariant
      [buffer_wf].  [Anchor.v], [AnchorFacts.v]: [anchor.rs] and the resolution of anchors.
    - [BufferUndo.v]: undo and redo of a buffer, [apply_undo] and [fragment_ids_for_edits].
      [FragmentIds.v]: the fragments found for edits.  [UndoFacts.v], [UndoSpec.v]: the walk
      of [apply_undo] and what it shows.  [UndoCorrect.v]: transactions toggled, one or many.
      [BufferReach.v]: all uses of a buffer.
    - [RemoteEdit.v]: [apply_remote_edit], the walk over the fragments at the positions of
      another replica's version, and seeking in the dimension
      [VersionedFullOffset], which adds up along whole fragments only.  [Doc.v]: documents,
      what a buffer is to all replicas: characters with their insertions and deletions, however
      they are cut into fragments.  [Converge.v]: what an edit does to a document ([perform]),
      that concurrent edits commute, and delivering edits and undos to a document ([deliver]) in any causal order.  [RemoteWalk.v], [RemoteSteps.v], [RemoteRange.v],
      [RemoteApply.v]: the walk does to the document what [perform] says, and the buffer around it.
    - [Operations.v]: [operation_queue.rs], and [apply_ops], [apply_op] and the deferred operations
      of [text.rs].  [Messages.v]: histories of operations that are truthful about
      what their senders had seen.  [Receive.v]: a buffer that receives an operation whose past
      it has.  [LocalOps.v]: the operations that local edits, undos and redos return mean what they
      did.  [Delivery.v]: batches, with what has to wait.  [Collab.v]: replicas that
      receive the same history.  [Session.v]: sessions, a step relation in which replicas join, are edited,
      undo and redo, and receive what others sent.
    - [Bytes.v]: Rust's [Result], and bytes.  [RelayFrame.v]: [frame.rs].  [NoiseSession.v]: [noise_session.rs], over the
      classes [NoiseTransport] and [NoiseHandshake] of calls to [snow].  [Pairing.v]: [pairing.rs].
      [PairingFlow.v]: [pairing_flow.rs], with its runs.
    - [GitGraph.v]: [git_graph_core.rs] up to painting; segments as columns, the edges of a log,
      lanes and who waits for whom.  [GitGraphLayout.v]: the invariant of [GraphData] and what a view relies on.
    - [RecoveryKey.v]: [recovery_key.rs] and [dek.rs].  [SyncEnvelope.v]: [envelope.rs], over the classes [SyncCrypto] and [Rng].
      [SyncClient.v]: [client.rs] and the refusals of [plan.rs], over [HttpClient] and [WireJson]; the class [ServerLaws] is what the
      service promises.  [SyncFiles.v]: [artifact.rs], [state.rs] and [diff.rs], on a file system whose calls fail and whose machine
      stops.  [SyncEngine.v]: [sync.rs].  [SyncSafety.v]: what the operations may replace, one by one and in the life of a machine (a step
      relation).  [SyncRotate.v]: [rotate.rs], what a rotation keeps and that it completes.  [SyncSample.v]: a cipher,
      codecs and a service that keep the laws, and runs.  [SyncExtensions.v]: [extensions.rs].

    ** What the theorems show

    - Trees: every operation keeps the invariant, does not panic, and acts on the
      sequence of items as a list operation; heights are logarithmic; the parallel
      builder equals the sequential one.
    - Seeking: skipping subtrees by their summaries is equivalent to scanning items;
      slices and suffixes partition the tree; iteration and filtered iteration visit
      exactly the items they should and terminate.
    - Maps: keyed trees, [TreeMap] and [TreeSet] refine finite maps and their ordered
      queries; bulk edits with distinct keys are the sequence of single ones.
    - Clocks: version vectors are a lattice order, stay canonical, and Lamport clocks
      are monotone below the [u32] maximum.
    - Text: locators are dense; undo operations commute; patches compose as relations
      between kept characters; subscribers see the composition of all that was
      published; histories keep their books under every bracketed use.
    - Chunks: bit counting computes what scanning the text would: summaries equal
      [TextSummary::from], every conversion of a boundary is the position of the text
      before it and leads back, clipping finds the nearest position that exists.
    - Ropes: editing operations act on the text as list operations and keep the sizes of
      chunks within bounds; slicing returns exactly the characters asked for and panics
      on a bad range; conversions and boundaries are those of the whole text.
    - Buffers: an edit replaces the ranges it names and nothing else, loses no character,
      keeps fragments, ropes, index, history and subscribers in agreement (what
      [check_invariants] tests, and more).  Undoing an edit brings back the text from
      before it, redoing it the text from after it; undoing up to a transaction and redoing
      restores text and stacks.  All uses of a buffer that starts with [Buffer::new] keep
      the invariant and do not panic.  An anchor resolves to the offset it was made at.
    - Replication: an edit of another replica changes the document as that replica meant it,
      whatever was done to the text since its version; [apply_op] implements the delivery
      of an operation to a document; an operation is applied as soon as it and all it knows of
      have arrived; replicas that receive the same operations, in any batches and orders and
      with repetitions, show the same text and have nothing left to wait for.  In a session, where the
      operations are those the replicas themselves made, no permitted step panics, replicas
      that have seen the same show the same text, and one that everything has reached has seen everything.
    - Relay: frames are read as they were written and in no other way; the bytes of a stream arrive in order and
      complete; a session or handshake that fails is closed for good; prologues tell identities apart;
      keys of small order are refused, and have small order.
    - Pairing: an undisturbed exchange agrees on keys and digits; a key is trusted only after the digits of its
      own exchange were asked about, in time; three failures lock pairing until it is unlocked; the allowances per
      hour hold across restarts.
    - Sync: a recovery key is read as it was written and nothing else is read as a key; an envelope opens only for its owner, slot and
      key; a file is replaced whole or not at all, and not before its content is in the backup; whatever a machine that
      does not rotate replaces on the server, it held or its user was shown; a rotation, wherever it stops, changes no content, moves the
      documents that hold keys first, and completes when nothing is in the way.  A run shows that after a rotation a push can replace what
      nobody on the machine has seen.
    - Commit graph: exactly the lines the log asks for, each from its child to its parent without crossing
      another commit and within the lanes its rows count.
    - Some theorems show behaviour the code does not mean: [TreeMap::extend] with a
      repeated key, [seek_forward] on a cursor that [prev] moved before the first item,
      [TextSummary::add_newline], slicing a full chunk from within its last
      character, [PairingGate::confirm_digits] as a second way out of a lockout, a rotation
      that hides another machine's change, one that undercounts what is left, and a recovery key refused for its
      first letters.

    ** Conventions, bounds and fuel

    The release profile is modelled: arithmetic wraps, [debug_assert!] is skipped,
    everything else that panics is the value [Panic].  A theorem says a call returns by
    [ok_with], never "if it returns".  Loops that are not structural take fuel; each
    has a bound computed from the tree ([cost], the number of its nodes and items, or
    the lengths of the lists it consumes), and the theorems prove it is enough.  A
    [heapless::Vec] cursor stack holds 16 entries, so trees of height up to 15 are
    covered; [MAP_DEPTH] = 7 and [small] (fewer than 6^9 items) leave room for the
    trees a single edit builds on the way.  [POSITION_BOUND] = 2^62 is far above any
    text length and keeps [usize] arithmetic exact.  A summary counts in [u32]s, so the
    summary theorems hold up to 4 GiB; ropes are covered up to 2 GiB ([small]), which
    with at least 61 bytes in all chunks but the last is at most [MAX_CHUNKS] chunks and
    stays within the cursor's stack.  Buffers have fewer than 6^9 fragments, slices and
    operations, 2 GiB of visible and deleted text together, and clocks below the [u32]
    maximum ([edit_room], [toggle_room]; [capacity] for a history of operations).  Rope and buffer theorems are about the instance of [ChunkApi]
    in which a chunk is its characters and a summary is the text summarised: its
    operations are the concrete ones on the chunk of that text, and [ChunkFacts.v],
    [ChunkSummary.v] and [text_summary_homomorphism] show that chunks and summaries are
    those of their text.  Grapheme boundaries ([unicode_segmentation]) are a parameter.
    The seed-dependent order of a
    [HashMap] is an association list with distinct keys; [sort_unstable_by_key] is a
    parameter with its documented behaviour ([UnstableSortLaws]) and insertion sort as
    an instance.

    [SHA-256] and the Noise library [snow] are parameters; no theorem assumes that hashes do not collide, and
    what is assumed of [snow] ([TransportLaws]) has an instance, [Clear].  AES-GCM, base64, JSON, HTTP, the line
    diff and the sync service are parameters too; what is assumed of them ([CryptoLaws], [ServerLaws], [StateLaws], [TextLaws], [QuietServer],
    [WorkingCrypto]) has instances in [SyncSample.v].  That a sealed text opens only with its own additional data is assumed
    without the probability of a forgery.  A call of the sync engine runs without another call of the same machine in between; other machines
    write between any two requests.  Instants are numbers of
    nanoseconds that do not go back within a run.  The commit graph theorems hold for logs whose commits and
    parents together are fewer than [usize::MAX] and for a number of accent colours that is not 0 as a [u8].

    ** Not modelled

    In the crates modelled: how anchors move with edits and the edits since a version, the iterators of the
    rope ([Chunks], [Bytes], [Lines]) and its conversions by cursor, the batch resolution of
    anchors and selections; they read the structures proved here and change no state.  The channels of tasks that wait
    for edits are I/O.  Device keypairs and random nonces come from third-party cryptography; control
    messages are JSON by [serde_json]; painting the commit graph is floating point in [gpui].  Of sync, the
    session that calls the engine for the user interface, the keychain, and the protocols of env files and team vaults on top of the same client and envelopes.  The
    user interface ([gpui], [editor], [workspace],
    ...), language support, terminals, debuggers, databases, containers, git and
    networking are I/O and presentation around this core and are not modelled.
    Debug formatting, random testing helpers and benchmarks are left out everywhere. *)

From stdpp Require Export base list numbers option sorting.

(** ** The outcome of a Rust computation

    A call either returns a value or panics.  Panics come from [assert!],
    [unwrap] on [None], slice indexing out of range, [unreachable!], and pushing
    onto a full [heapless::Vec]. *)
Inductive outcome (A : Type) :=
  | Ok (a : A)
  | Panic.
Arguments Ok {_} _.
Arguments Panic {_}.

#[export] Instance outcome_ret : MRet outcome := fun _ a => Ok a.
#[export] Instance outcome_bind : MBind outcome :=
  fun _ _ f m => match m with Ok a => f a | Panic => Panic end.
#[export] Instance outcome_fmap : FMap outcome :=
  fun _ _ f m => match m with Ok a => Ok (f a) | Panic => Panic end.

(** [Option::unwrap] and [assert!]. *)
Definition unwrap {A} (o : option A) : outcome A :=
  match o with Some a => Ok a | None => Panic end.
Definition assert_that (b : bool) : outcome unit :=
  if b then Ok tt else Panic.

(** Total correctness of an outcome: it returns, with a value satisfying [Q]. *)
Definition ok_with {A} (m : outcome A) (Q : A → Prop) : Prop :=
  match m with Ok a => Q a | Panic => False end.

(** Executable tests on outcomes. *)
Definition is_panic {A} (m : outcome A) : bool :=
  match m with Panic => true | Ok _ => false end.

Section outcome_rules.
Context {A B : Type}.
Implicit Types (m : outcome A) (Q : A → Prop).

Lemma ok_with_ret (a : A) Q : Q a → ok_with (Ok a) Q.
Proof. done. Qed.

Lemma ok_with_bind m (k : A → outcome B) (Q : B → Prop) :
  ok_with m (fun a => ok_with (k a) Q) → ok_with (m ≫= k) Q.
Proof. by destruct m. Qed.

Lemma ok_with_mono m Q Q' :
  ok_with m Q → (∀ a, Q a → Q' a) → ok_with m Q'.
Proof. destruct m; simpl; auto. Qed.
Lemma ok_with_and m P Q : ok_with m P → ok_with m Q → ok_with m (fun a => P a ∧ Q a).
Proof. by destruct m. Qed.

Lemma bind_assoc {C} m (f : A → outcome B) (g : B → outcome C) : ((m ≫= f) ≫= g) = (m ≫= fun a => f a ≫= g).
Proof. by destruct m. Qed.

Lemma ok_with_inv m Q : ok_with m Q → ∃ a, m = Ok a ∧ Q a.
Proof. destruct m; simpl; [eauto|done]. Qed.

Lemma ok_with_fmap m (f : A → B) (Q : B → Prop) :
  ok_with m (fun a => Q (f a)) → ok_with (f <$> m) Q.
Proof. by destruct m. Qed.

Lemma ok_with_unwrap (o : option A) Q a : o = Some a → Q a → ok_with (unwrap o) Q.
Proof. by intros ->. Qed.

Lemma ok_with_assert b (Q : unit → Prop) :
  b = true → Q tt → ok_with (assert_that b) Q.
Proof. by intros ->. Qed.

Lemma ok_with_eq m Q a : ok_with m Q → m = Ok a → Q a.
Proof. by intros ? ->. Qed.
End outcome_rules.

Create HintDb zode.
#[export] Hint Resolve ok_with_ret : zode.

(** [ok_bind lem] runs the head of a monadic sequence with the specification
    [lem] and continues with its postcondition. *)
Ltac ok_bind lem :=
  apply ok_with_bind; eapply ok_with_mono; [eapply lem | cbn beta].

(** ** Unsigned machine integers

    A [w]-bit unsigned integer is an [N] below [2 ^ w].  The release profile
    wraps on overflow. *)
Definition u8_wrap (n : N) : N := (n `mod` 2 ^ 8)%N.
Definition u32_wrap (n : N) : N := (n `mod` 2 ^ 32)%N.
Definition u16_max : N := (2 ^ 16 - 1)%N.
Definition u32_max : N := (2 ^ 32 - 1)%N.
Definition u64_max : N := (2 ^ 64 - 1)%N.

Lemma u8_wrap_small n : (n < 256)%N → u8_wrap n = n.
Proof. intros. unfold u8_wrap. apply N.mod_small. lia. Qed.

Lemma u32_wrap_small n : (n <= u32_max)%N → u32_wrap n = n.
Proof. unfold u32_wrap, u32_max. intros. apply N.mod_small. lia. Qed.

(** ** [Ordering]: [Ordering::then_with], [is_le], [is_ge], [is_lt] *)
Definition then_with (c1 c2 : comparison) : comparison :=
  match c1 with Eq => c2 | _ => c1 end.
Definition is_lt (c : comparison) : bool :=
  match c with Lt => true | _ => false end.
Definition is_le (c : comparison) : bool :=
  match c with Gt => false | _ => true end.
Definition is_ge (c : comparison) : bool :=
  match c with Lt => false | _ => true end.

#[export] Instance comparison_eq_dec : EqDecision comparison.
Proof. solve_decision. Defined.

(** ** Lists seen from their end *)
Lemma snoc_case {A} (l : list A) : l = [] ∨ ∃ l' x, l = l' ++ [x].
Proof. induction l using rev_ind; eauto. Qed.

(** ** Lists under functions *)
Lemma sublist_fmap {A B} (f : A → B) l k : l `sublist_of` k → (f <$> l) `sublist_of` (f <$> k).
Proof. induction 1; cbn; by constructor. Qed.
Lemma NoDup_fmap_inj {A B} (f : A → B) l x y : NoDup (f <$> l) → x ∈ l → y ∈ l → f x = f y → x = y.
Proof.
  induction l as [|z l IH]; cbn; [by intros _ ?%not_elem_of_nil|]. rewrite NoDup_cons, !elem_of_cons. intros [Hz Hn] [->|Hx] [->|Hy] E.
  - done.
  - destruct Hz. rewrite E. by apply list_elem_of_fmap_2.
  - destruct Hz. rewrite <-E. by apply list_elem_of_fmap_2.
  - by apply IH.
Qed.

(** ** Filters *)
Lemma list_filter_none {A} (P : A → Prop) `{!∀ x, Decision (P x)} l : Forall (fun x => ¬ P x) l → filter P l = [].
Proof. induction 1; [done|]. by rewrite filter_cons_False. Qed.
Lemma list_filter_all {A} (P : A → Prop) `{!∀ x, Decision (P x)} l : Forall P l → filter P l = l.
Proof. induction 1 as [|x l Hx _ IH]; [done|]. by rewrite filter_cons_True, IH. Qed.
