(* ===== verification/Ord.v ===== *)
(** * The [Ord] trait

    Rust's [Ord] as a type class of comparison functions, its laws, the derived
    (lexicographic) instances the sources use, and the facts about sorted key
    sequences that the ordered containers share. *)

From S2P Require Import Prelude.

Class Ord (A : Type) := cmp : A → A → comparison.

Class OrdLaws (A : Type) `{Ord A} : Prop := {
  cmp_eq_iff : ∀ x y : A, cmp x y = Eq ↔ x = y;
  cmp_opp : ∀ x y : A, cmp y x = CompOpp (cmp x y);
  cmp_lt_trans : ∀ x y z : A, cmp x y = Lt → cmp y z = Lt → cmp x z = Lt
}.

(** [PartialOrd]'s operators and [cmp::max] / [cmp::min]. *)
Definition ltb {A} `{Ord A} (x y : A) : bool := is_lt (cmp x y).
Definition leb {A} `{Ord A} (x y : A) : bool := is_le (cmp x y).
Definition eqb {A} `{Ord A} (x y : A) : bool :=
  match cmp x y with Eq => true | _ => false end.
(** [cmp::max(a, b)] returns [b] unless [a > b]; [cmp::min(a, b)] returns [a]
    unless [a > b]. *)
Definition ord_max {A} `{Ord A} (x y : A) : A :=
  match cmp x y with Gt => x | _ => y end.
Definition ord_min {A} `{Ord A} (x y : A) : A :=
  match cmp x y with Gt => y | _ => x end.

Section laws.
Context {A : Type} `{OrdLaws A}.
Implicit Types x y z : A.

Lemma cmp_refl x : cmp x x = Eq.
Proof. by apply cmp_eq_iff. Qed.

Lemma cmp_eq x y : cmp x y = Eq → x = y.
Proof. apply cmp_eq_iff. Qed.

Lemma cmp_gt_lt x y : cmp x y = Gt ↔ cmp y x = Lt.
Proof. rewrite (cmp_opp x y). by destruct (cmp x y). Qed.

Lemma cmp_lt_irrefl x : cmp x x ≠ Lt.
Proof. by rewrite cmp_refl. Qed.

Lemma cmp_gt_trans x y z : cmp x y = Gt → cmp y z = Gt → cmp x z = Gt.
Proof. rewrite !cmp_gt_lt. eauto using cmp_lt_trans. Qed.

Lemma cmp_le_lt_trans x y z : cmp x y ≠ Gt → cmp y z = Lt → cmp x z = Lt.
Proof.
  destruct (cmp x y) eqn:E; intros; try done.
  - by apply cmp_eq in E as ->.
  - by eapply cmp_lt_trans.
Qed.

Lemma cmp_lt_le_trans x y z : cmp x y = Lt → cmp y z ≠ Gt → cmp x z = Lt.
Proof.
  destruct (cmp y z) eqn:E; intros; try done.
  - by apply cmp_eq in E as <-.
  - by eapply cmp_lt_trans.
Qed.

Lemma cmp_le_trans x y z : cmp x y ≠ Gt → cmp y z ≠ Gt → cmp x z ≠ Gt.
Proof.
  intros Hxy Hyz. destruct (cmp x y) eqn:E; try done.
  - by apply cmp_eq in E as ->.
  - by rewrite (cmp_lt_le_trans x y z).
Qed.

Lemma eqb_eq x y : eqb x y = true ↔ x = y.
Proof. unfold eqb. rewrite <-cmp_eq_iff. by destruct (cmp x y). Qed.

Lemma eqb_refl x : eqb x x = true.
Proof. by apply eqb_eq. Qed.

Lemma ltb_lt x y : ltb x y = true ↔ cmp x y = Lt.
Proof. unfold ltb, is_lt. by destruct (cmp x y). Qed.

Lemma ltb_ge x y : ltb x y = false ↔ cmp x y ≠ Lt.
Proof. unfold ltb, is_lt. by destruct (cmp x y). Qed.

Lemma ord_max_le x y : cmp x y ≠ Gt → ord_max x y = y.
Proof. unfold ord_max. by destruct (cmp x y). Qed.

Lemma ord_max_assoc x y z : ord_max x (ord_max y z) = ord_max (ord_max x y) z.
Proof.
  destruct (cmp y z) eqn:E1, (cmp x y) eqn:E2.
  1-2, 4-5: rewrite (ord_max_le y z), (ord_max_le x y) by congruence;
    rewrite (ord_max_le y z) by congruence; apply ord_max_le, (cmp_le_trans x y z); congruence.
  1-2: rewrite (ord_max_le y z) by congruence; unfold ord_max at 3; by rewrite E2.
  1-2: rewrite (ord_max_le x y) by congruence; unfold ord_max at 2 3; rewrite E1;
    apply ord_max_le; congruence.
  unfold ord_max. rewrite E1, E2. by rewrite (cmp_gt_trans x y z).
Qed.

(** Equality is decidable in any ordered type. *)
Definition ord_eq_dec : EqDecision A.
Proof.
  intros x y. destruct (cmp x y) eqn:E.
  - left. by apply cmp_eq_iff.
  - right. intros ->. by rewrite cmp_refl in E.
  - right. intros ->. by rewrite cmp_refl in E.
Defined.
End laws.

#[export] Hint Resolve cmp_refl cmp_lt_trans cmp_gt_trans : zode.

(** [ord_solve] closes goals that follow from the order laws: it turns [Gt]
    facts around, identifies equal elements, and chains [Lt] facts. *)
Ltac ord_norm :=
  repeat match goal with
  | H : cmp ?x ?y = Eq |- _ => apply cmp_eq in H; subst; try rewrite H in *
  | H : cmp ?x ?y = Gt |- _ => apply cmp_gt_lt in H
  | H : cmp ?x ?x = Lt |- _ => exfalso; exact (cmp_lt_irrefl _ H)
  | H1 : cmp ?x ?y = Lt, H2 : cmp ?y ?x = Lt |- _ =>
      exfalso; exact (cmp_lt_irrefl _ (cmp_lt_trans _ _ _ H1 H2))
  end.
Ltac ord_solve := ord_norm; eauto using cmp_lt_trans, cmp_refl; try congruence.

(** ** Instances *)
#[export] Instance N_ord : Ord N := N.compare.
#[export] Instance N_ord_laws : OrdLaws N.
Proof.
  split; unfold cmp, N_ord.
  - intros. apply N.compare_eq_iff.
  - intros. apply N.compare_antisym.
  - intros x y z. rewrite !N.compare_lt_iff. lia.
Qed.

(** [#[derive(Ord)]] on a two-field struct: lexicographic. *)
#[export] Instance prod_ord {A B} `{Ord A, Ord B} : Ord (A * B) :=
  fun p q => then_with (cmp p.1 q.1) (cmp p.2 q.2).
#[export] Instance prod_ord_laws {A B} `{OrdLaws A, OrdLaws B} : OrdLaws (A * B).
Proof.
  split; unfold cmp, prod_ord.
  - intros [a b] [a' b']; simpl. destruct (cmp a a') eqn:E; simpl.
    + apply cmp_eq in E as <-. rewrite cmp_eq_iff. naive_solver.
    + split; [done|]. intros [= <- <-]. by rewrite cmp_refl in E.
    + split; [done|]. intros [= <- <-]. by rewrite cmp_refl in E.
  - intros [a b] [a' b']; simpl. rewrite (cmp_opp a a'), (cmp_opp b b').
    by destruct (cmp a a').
  - intros [a b] [a' b'] [a'' b'']; simpl.
    destruct (cmp a a') eqn:E1, (cmp a' a'') eqn:E2; simpl; intros; try done; ord_norm.
    + rewrite cmp_refl; simpl. by eapply cmp_lt_trans.
    + by rewrite E2.
    + by rewrite E1.
    + by rewrite (cmp_lt_trans _ _ _ E1 E2).
Qed.

(** [Option<K>]: [None] is below every [Some]. *)
#[export] Instance option_ord {A} `{Ord A} : Ord (option A) :=
  fun x y => match x, y with
             | None, None => Eq
             | None, Some _ => Lt
             | Some _, None => Gt
             | Some a, Some b => cmp a b
             end.
#[export] Instance option_ord_laws {A} `{OrdLaws A} : OrdLaws (option A).
Proof.
  split; unfold cmp, option_ord.
  - intros [x|] [y|]; try done. rewrite cmp_eq_iff. naive_solver.
  - intros [x|] [y|]; try done. apply cmp_opp.
  - intros [x|] [y|] [z|]; try done. apply cmp_lt_trans.
Qed.

(** Slices and [SmallVec]s compare lexicographically, a proper prefix first. *)
#[export] Instance list_ord {A} `{Ord A} : Ord (list A) :=
  fix go l k :=
    match l, k with
    | [], [] => Eq
    | [], _ :: _ => Lt
    | _ :: _, [] => Gt
    | x :: l, y :: k => then_with (cmp x y) (go l k)
    end.
#[export] Instance list_ord_laws {A} `{OrdLaws A} : OrdLaws (list A).
Proof.
  split.
  - intros l; induction l as [|x l IH]; intros [|y k]; simpl; try done.
    unfold cmp; simpl. destruct (cmp x y) eqn:E; simpl.
    + apply cmp_eq in E as <-. specialize (IH k). unfold cmp in IH.
      rewrite IH. naive_solver.
    + split; [done|]. intros [= <- _]. by rewrite cmp_refl in E.
    + split; [done|]. intros [= <- _]. by rewrite cmp_refl in E.
  - intros l; induction l as [|x l IH]; intros [|y k]; try done.
    unfold cmp; simpl. specialize (IH k). unfold cmp in IH. rewrite IH.
    change (H x y) with (cmp x y). change (H y x) with (cmp y x).
    rewrite (cmp_opp x y). by destruct (cmp x y).
  - intros l; induction l as [|x l IH]; intros [|y k] [|z m]; try done.
    specialize (IH k m). unfold cmp in *; simpl.
    change (H x y) with (cmp x y). change (H y z) with (cmp y z).
    change (H x z) with (cmp x z).
    destruct (cmp x y) eqn:E1, (cmp y z) eqn:E2; simpl; intros; try done; ord_norm.
    + rewrite cmp_refl; simpl. auto.
    + by rewrite E2.
    + by rewrite E1.
    + by rewrite (cmp_lt_trans _ _ _ E1 E2).
Qed.

(** A struct whose [cmp] is the [cmp] of an injective view of it is ordered. *)
Lemma ord_laws_view {A B} `{Ord A, OrdLaws B} (f : A → B) :
  (∀ x y, f x = f y → x = y) → (∀ x y, cmp x y = cmp (f x) (f y)) → OrdLaws A.
Proof.
  intros Hinj Hcmp. split.
  - intros x y. rewrite Hcmp, cmp_eq_iff. split; [apply Hinj|by intros ->].
  - intros x y. rewrite !Hcmp. apply cmp_opp.
  - intros x y z. rewrite !Hcmp. apply cmp_lt_trans.
Qed.
