(* ===== verification/Clock.v ===== *)
(** * Logical clocks: [crates/clock/src/clock.rs]

    [Lamport] timestamps and the [Global] version vector.  A version vector is
    the vector of sequence numbers indexed by replica id; a replica past its end
    is unobserved, that is, at 0. *)

From stdpp Require Import countable.
From S2P Require Import Prelude Ord.

(** ** [ReplicaId] *)
Record ReplicaId := mkReplicaId { as_u16 : N }.

#[export] Instance ReplicaId_eq_dec : EqDecision ReplicaId.
Proof. solve_decision. Defined.

#[export] Instance ReplicaId_countable : Countable ReplicaId.
Proof. apply (inj_countable' as_u16 mkReplicaId). by intros []. Defined.

#[export] Instance ReplicaId_ord : Ord ReplicaId :=
  fun a b => cmp (as_u16 a) (as_u16 b).
#[export] Instance ReplicaId_ord_laws : OrdLaws ReplicaId.
Proof. apply (ord_laws_view as_u16); [|done]. intros [] []; simpl. congruence. Qed.

Definition LOCAL : ReplicaId := mkReplicaId 0.
Definition REMOTE_SERVER : ReplicaId := mkReplicaId 1.
Definition AGENT : ReplicaId := mkReplicaId 2.
Definition LOCAL_BRANCH : ReplicaId := mkReplicaId 3.
Definition FIRST_COLLAB_ID : ReplicaId := mkReplicaId 8.

Definition is_remote (self : ReplicaId) : bool :=
  bool_decide (self = REMOTE_SERVER) || negb (ltb self FIRST_COLLAB_ID).

(** ** [Lamport] *)
Record Lamport := mkLamport { value : N; replica_id : ReplicaId }.

#[export] Instance Lamport_eq_dec : EqDecision Lamport.
Proof. solve_decision. Defined.

#[export] Instance Lamport_countable : Countable Lamport.
Proof. apply (inj_countable' (fun t => (value t, replica_id t)) (fun p => mkLamport p.1 p.2)). by intros []. Defined.

#[export] Instance lamport_cmp : Ord Lamport := fun self other =>
  then_with (cmp (value self) (value other))
            (cmp (replica_id self) (replica_id other)).

#[export] Instance lamport_ord_laws : OrdLaws Lamport.
Proof.
  apply (ord_laws_view (fun t => (value t, replica_id t))); [|done].
  intros [] []; simpl. congruence.
Qed.

Definition lamport_MIN : Lamport := mkLamport 0 (mkReplicaId 0).
Definition lamport_MAX : Lamport := mkLamport u32_max (mkReplicaId u16_max).

Definition lamport_new (r : ReplicaId) : Lamport := mkLamport 1 r.

Definition lamport_as_u64 (self : Lamport) : N :=
  N.lor (N.shiftl (value self) 32) (as_u16 (replica_id self)).

(** [tick(&mut self)] returns the current timestamp and advances the clock. *)
Definition lamport_tick (self : Lamport) : Lamport * Lamport :=
  (self, mkLamport (u32_wrap (value self + 1)) (replica_id self)).

Definition lamport_observe (self timestamp : Lamport) : Lamport :=
  mkLamport (u32_wrap (N.max (value self) (value timestamp) + 1)) (replica_id self).

(** A timestamp whose fields fit their Rust types. *)
Definition lamport_wf (t : Lamport) : Prop :=
  (value t <= u32_max)%N ∧ (as_u16 (replica_id t) <= u16_max)%N.

(** ** [Global] *)
Record Global := mkGlobal { values : list N }.

#[export] Instance Global_eq_dec : EqDecision Global.
Proof. solve_decision. Defined.

Definition global_new : Global := mkGlobal [].

Definition replica_ix (r : ReplicaId) : nat := N.to_nat (as_u16 r).

Definition global_get (self : Global) (r : ReplicaId) : N :=
  default 0%N (values self !! replica_ix r).

(** [SmallVec::resize(new_len, 0)]: extend with zeros or truncate. *)
Definition vec_resize (n : nat) (l : list N) : list N :=
  take n l ++ replicate (n - length l) 0%N.

Definition global_observe (self : Global) (timestamp : Lamport) : Global :=
  if (0 <? value timestamp)%N then
    let ix := replica_ix (replica_id timestamp) in
    let new_len := S ix in
    let vs := if (length (values self) <? new_len)%nat
              then vec_resize new_len (values self) else values self in
    mkGlobal (alter (fun entry => N.max entry (value timestamp)) ix vs)
  else self.

(** [for (left, right) in self.iter_mut().zip(other)]: elements of [self] past
    the end of [other] are left alone. *)
Fixpoint zip_update (f : N → N → N) (l k : list N) : list N :=
  match l, k with
  | x :: l, y :: k => f x y :: zip_update f l k
  | l, _ => l
  end.

Definition global_join (self other : Global) : Global :=
  let vs := if (length (values self) <? length (values other))%nat
            then vec_resize (length (values other)) (values self) else values self in
  mkGlobal (zip_update N.max vs (values other)).

Definition meet_entry (left right : N) : N :=
  match left, right with
  | 0%N, _ => right
  | _, 0%N => left
  | _, _ => N.min left right
  end.

(** The [new_len] accumulated by the loop of [meet]: one past the last index,
    among those zipped with [other], whose merged entry is not 0. *)
Fixpoint meet_new_len (ix : nat) (merged other : list N) (new_len : nat) : nat :=
  match merged, other with
  | x :: merged, _ :: other =>
      meet_new_len (S ix) merged other (if (x =? 0)%N then new_len else S ix)
  | _, _ => new_len
  end.

Definition global_meet (self other : Global) : Global :=
  let vs := if (length (values self) <? length (values other))%nat
            then vec_resize (length (values other)) (values self) else values self in
  let merged := zip_update meet_entry vs (values other) in
  let new_len := meet_new_len 0 merged (values other) 0 in
  if (length (values other) =? length merged)%nat
  then mkGlobal (take new_len merged) else mkGlobal merged.

Definition global_observed (self : Global) (timestamp : Lamport) : bool :=
  (value timestamp <=? global_get self (replica_id timestamp))%N.

Definition global_iter (self : Global) : list Lamport :=
  imap (fun ix seq => mkLamport seq (mkReplicaId (N.of_nat ix))) (values self).

Definition global_observed_any (self other : Global) : bool :=
  existsb (fun '(l, r) => (0 <? value r)%N && (value r <=? value l)%N)
          (combine (global_iter self) (global_iter other)).

Definition global_observed_all (self other : Global) : bool :=
  if (length (values self) <? length (values other))%nat then false
  else forallb (fun '(l, r) => (value r <=? value l)%N)
               (combine (global_iter self) (global_iter other)).

Definition global_changed_since (self other : Global) : bool :=
  (length (values other) <? length (values self))%nat
  || existsb (fun '(l, r) => (r <? l)%N) (combine (values self) (values other)).

(** [Iterator::max_by_key] keeps the last of several maximal elements. *)
Definition global_most_recent (self : Global) : option Lamport :=
  foldl (fun best t =>
           match best with
           | None => Some t
           | Some b => if (value t <? value b)%N then Some b else Some t
           end) None (global_iter self).

Definition global_from_iter (locals : list Lamport) : Global :=
  foldl global_observe global_new locals.

(** ** Lemmas *)
Lemma lookup_vec_resize n l i :
  default 0%N (vec_resize n l !! i) =
  if decide (i < n)%nat then default 0%N (l !! i) else 0%N.
Proof.
  unfold vec_resize. case_decide.
  - destruct (decide (i < length l)%nat).
    + rewrite lookup_app_l by (rewrite length_take; lia).
      by rewrite lookup_take_lt.
    + rewrite lookup_app_r by (rewrite length_take; lia).
      rewrite length_take, (lookup_ge_None_2 l i) by lia.
      by rewrite lookup_replicate_2 by lia.
  - by rewrite lookup_ge_None_2 by (rewrite length_app, length_take, length_replicate; lia).
Qed.

Lemma length_vec_resize n l : length (vec_resize n l) = n.
Proof. unfold vec_resize. rewrite length_app, length_take, length_replicate. lia. Qed.

(** Growing never changes the entries a version vector denotes. *)
Lemma lookup_vec_grow n l i :
  default 0%N ((if (length l <? n)%nat then vec_resize n l else l) !! i) = default 0%N (l !! i).
Proof.
  destruct (Nat.ltb_spec (length l) n); [|done].
  rewrite lookup_vec_resize. case_decide; [done|].
  by rewrite (lookup_ge_None_2 l) by lia.
Qed.

Lemma length_vec_grow n l :
  length (if (length l <? n)%nat then vec_resize n l else l) = Nat.max n (length l).
Proof. destruct (Nat.ltb_spec (length l) n); rewrite ?length_vec_resize; lia. Qed.

Lemma length_zip_update f l k : length (zip_update f l k) = length l.
Proof. revert k; induction l; intros [|y k]; simpl; auto. Qed.

Lemma lookup_zip_update f l k i x :
  l !! i = Some x →
  zip_update f l k !! i = Some (match k !! i with Some y => f x y | None => x end).
Proof.
  revert k i; induction l as [|x' l IH]; intros [|y k] [|i]; simpl; try done.
  - by intros [= ->].
  - intros. by apply IH.
Qed.

(** The denotation of an entry-wise update over the zipped prefix, for a vector
    at least as long as the other and an operation with [f x 0 = x]. *)
Lemma get_zip_update f l k i :
  length k ≤ length l → (∀ x, f x 0%N = x) →
  default 0%N (zip_update f l k !! i) = f (default 0%N (l !! i)) (default 0%N (k !! i)).
Proof.
  intros Hlen Hf. destruct (l !! i) as [x|] eqn:E.
  - rewrite (lookup_zip_update _ _ _ _ _ E). simpl.
    by destruct (k !! i); simpl.
  - apply lookup_ge_None in E.
    rewrite !lookup_ge_None_2 by (rewrite ?length_zip_update; lia).
    simpl. by rewrite Hf.
Qed.

Lemma global_get_observe self t r :
  global_get (global_observe self t) r =
  if decide (r = replica_id t) then N.max (global_get self r) (value t)
  else global_get self r.
Proof.
  unfold global_observe, global_get.
  destruct (N.ltb_spec 0 (value t)) as [Hpos|Hz]; simpl; last first.
  { case_decide; [subst; lia|done]. }
  case_decide as Hr.
  - subst r. rewrite list_lookup_alter_eq.
    pose proof (lookup_vec_grow (S (replica_ix (replica_id t))) (values self)
                  (replica_ix (replica_id t))) as Hg.
    pose proof (length_vec_grow (S (replica_ix (replica_id t))) (values self)) as Hl.
    set (l := if (length (values self) <? _)%nat then _ else _) in *.
    destruct (lookup_lt_is_Some_2 l (replica_ix (replica_id t))) as [x Hx]; [lia|].
    rewrite Hx in *; simpl in *. lia.
  - assert (replica_ix (replica_id t) ≠ replica_ix r) as Hne.
    { unfold replica_ix. destruct r, (replica_id t); simpl. intros ?%N2Nat.inj. congruence. }
    by rewrite list_lookup_alter_ne, lookup_vec_grow.
Qed.

Lemma global_get_join self other r :
  global_get (global_join self other) r = N.max (global_get self r) (global_get other r).
Proof.
  unfold global_get, global_join; simpl.
  rewrite get_zip_update, lookup_vec_grow; [done| |intros; lia].
  rewrite length_vec_grow. lia.
Qed.

(** ** The canonical-form invariant

    No vector the module builds ends in an explicit 0; [observed_all] and
    [changed_since] compare lengths and rely on it. *)
Definition canonical (g : Global) : Prop := last (values g) ≠ Some 0%N.

Lemma canonical_new : canonical global_new.
Proof. done. Qed.

Lemma last_lookup_pred {A} (l : list A) : last l = l !! (length l - 1)%nat.
Proof. rewrite last_lookup. f_equal. lia. Qed.

(** A non-zero entry sits inside the vector; the last entry of a canonical one
    is such an entry. *)
Lemma canonical_last g :
  canonical g → values g ≠ [] →
  (0 < global_get g (mkReplicaId (N.of_nat (length (values g) - 1))))%N.
Proof.
  unfold canonical, global_get, replica_ix; simpl. intros Hc Hne.
  rewrite Nat2N.id, <-last_lookup_pred.
  destruct (last (values g)) as [x|] eqn:E; simpl.
  - destruct (decide (x = 0%N)); [by subst|lia].
  - by apply last_None in E.
Qed.

Lemma global_get_ge g r : (length (values g) ≤ replica_ix r)%nat → global_get g r = 0%N.
Proof. intros. unfold global_get. by rewrite lookup_ge_None_2. Qed.

Lemma global_get_nat g i :
  global_get g (mkReplicaId (N.of_nat i)) = default 0%N (values g !! i).
Proof. unfold global_get, replica_ix; simpl. by rewrite Nat2N.id. Qed.

Lemma canonical_length_le a b :
  canonical a → (∀ r, (global_get a r <= global_get b r)%N) →
  (length (values a) ≤ length (values b))%nat.
Proof.
  intros Hc Hle. destruct (decide (values a = [])) as [->|Hne]; [simpl; lia|].
  pose proof (canonical_last a Hc Hne) as Hpos.
  destruct (decide (length (values a) ≤ length (values b))%nat); [done|].
  specialize (Hle (mkReplicaId (N.of_nat (length (values a) - 1)))).
  rewrite (global_get_ge b) in Hle; [lia|]. unfold replica_ix; simpl. lia.
Qed.

(** Canonical vectors are determined by the timestamps they have observed. *)
Lemma global_ext a b :
  canonical a → canonical b → (∀ r, global_get a r = global_get b r) → a = b.
Proof.
  intros Ha Hb Hget.
  assert (length (values a) = length (values b)) as Hlen.
  { pose proof (canonical_length_le a b Ha). pose proof (canonical_length_le b a Hb).
    apply Nat.le_antisymm; [apply H|apply H0]; intros; rewrite Hget; lia. }
  destruct a as [l], b as [k]; simpl in *. f_equal. apply list_eq. intros i.
  pose proof (Hget (mkReplicaId (N.of_nat i))) as Hi.
  rewrite !global_get_nat in Hi; simpl in Hi.
  destruct (decide (i < length l)%nat).
  - destruct (lookup_lt_is_Some_2 l i) as [x Hx]; [done|].
    destruct (lookup_lt_is_Some_2 k i) as [y Hy]; [lia|].
    rewrite Hx, Hy in *; simpl in *. by subst.
  - by rewrite !lookup_ge_None_2 by lia.
Qed.

(** A canonical vector from its values: a non-zero entry at the last index. *)
Lemma canonical_intro l :
  (l ≠ [] → (0 < default 0%N (l !! (length l - 1)%nat))%N) → canonical (mkGlobal l).
Proof.
  unfold canonical; simpl. intros H E. rewrite last_lookup_pred in E.
  destruct l; [done|]. rewrite E in H. by pose proof (H ltac:(done)).
Qed.

Lemma canonical_observe g t : canonical g → canonical (global_observe g t).
Proof.
  intros Hc. unfold global_observe.
  destruct (N.ltb_spec 0 (value t)) as [Hpos|]; [|done].
  set (ix := replica_ix (replica_id t)). apply canonical_intro. intros _.
  rewrite length_alter, length_vec_grow.
  set (l := if (_ <? S ix)%nat then vec_resize (S ix) _ else _).
  assert (Hget : ∀ i, default 0%N (l !! i) = default 0%N (values g !! i))
    by (intros; apply lookup_vec_grow).
  assert (Hlen : length l = Nat.max (S ix) (length (values g))) by apply length_vec_grow.
  destruct (decide (ix = Nat.max (S ix) (length (values g)) - 1)) as [E|E].
  - rewrite <-E, list_lookup_alter_eq.
    destruct (lookup_lt_is_Some_2 l ix) as [x ->]; [lia|]. simpl. lia.
  - rewrite list_lookup_alter_ne by done. rewrite Hget.
    pose proof (canonical_last g Hc) as Hl. rewrite global_get_nat in Hl.
    replace (Nat.max (S ix) _ - 1) with (length (values g) - 1) by lia.
    apply Hl. destruct (values g); [simpl in *; lia|done].
Qed.

Lemma canonical_join a b : canonical a → canonical b → canonical (global_join a b).
Proof.
  intros Ha Hb.
  assert (Hv : values (global_join a b) =
    zip_update N.max (if (length (values a) <? length (values b))%nat
       then vec_resize (length (values b)) (values a) else values a) (values b)) by done.
  destruct (global_join a b) as [l] eqn:E. simpl in Hv. apply canonical_intro. intros Hne.
  assert (Hl : length l = Nat.max (length (values b)) (length (values a)))
    by (by rewrite Hv, length_zip_update, length_vec_grow).
  rewrite <-(global_get_nat (mkGlobal l)), <-E, global_get_join, !global_get_nat, Hl.
  pose proof (canonical_last a Ha) as Hla. pose proof (canonical_last b Hb) as Hlb.
  rewrite !global_get_nat in Hla, Hlb.
  destruct (Nat.max_spec (length (values b)) (length (values a))) as [[Hlt ->]|[Hlt ->]].
  - destruct (values a); [simpl in *; lia|]. specialize (Hla ltac:(done)). lia.
  - destruct (values b); [|specialize (Hlb ltac:(done)); lia].
    destruct l; [done|]. simpl in *. lia.
Qed.

(** [new_len] of [meet] is one past the last non-zero merged entry. *)
Lemma meet_new_len_spec ix merged other n :
  (length merged ≤ length other)%nat → (n ≤ ix)%nat →
  let k := meet_new_len ix merged other n in
  (k = n ∧ Forall (eq 0%N) merged) ∨
  (∃ j x, k = ix + S j ∧ merged !! j = Some x ∧ x ≠ 0%N ∧
          Forall (eq 0%N) (drop (S j) merged))%nat.
Proof.
  revert ix other n. induction merged as [|x merged IH]; intros ix [|y other] n Hlen Hn;
    simpl in *; try lia; [by left..|].
  destruct (IH (S ix) other (if (x =? 0)%N then n else S ix)) as [[-> Hz]|(j & z & -> & Hj & Hz & Hd)];
    [lia|case_match; lia|..].
  - destruct (N.eqb_spec x 0) as [->|Hx]; [left; by auto|].
    right. exists 0%nat, x. split; [lia|done].
  - right. exists (S j), z. split; [lia|done].
Qed.

Lemma Forall_zero_default (l : list N) i : Forall (eq 0%N) l → default 0%N (l !! i) = 0%N.
Proof.
  intros Hl. destruct (l !! i) eqn:E; [|done].
  by rewrite Forall_lookup in Hl; rewrite (Hl _ _ E).
Qed.

Lemma meet_trim merged other i :
  (length merged ≤ length other)%nat →
  default 0%N (take (meet_new_len 0 merged other 0) merged !! i) = default 0%N (merged !! i).
Proof.
  intros Hlen.
  destruct (meet_new_len_spec 0 merged other 0) as [[-> Hz]|(j & z & -> & Hj & Hz & Hd)];
    [done|done| |].
  - by rewrite take_0, lookup_nil, (Forall_zero_default merged).
  - destruct (decide (i < 0 + S j)%nat); [by rewrite lookup_take_lt|].
    rewrite lookup_take_ge by lia.
    replace i with (S j + (i - S j))%nat by lia.
    by rewrite <-lookup_drop, Forall_zero_default.
Qed.

Lemma meet_entry_0_r x : meet_entry x 0 = x.
Proof. by destruct x. Qed.

Lemma global_get_meet a b r :
  global_get (global_meet a b) r = meet_entry (global_get a r) (global_get b r).
Proof.
  unfold global_get, global_meet; simpl.
  set (l := if (_ <? _)%nat then _ else _).
  assert (Hlen : length l = Nat.max (length (values b)) (length (values a)))
    by apply length_vec_grow.
  assert (Hm : default 0%N (zip_update meet_entry l (values b) !! replica_ix r) =
    meet_entry (default 0%N (values a !! replica_ix r)) (default 0%N (values b !! replica_ix r))).
  { rewrite get_zip_update by (auto using meet_entry_0_r; lia).
    f_equal. apply lookup_vec_grow. }
  destruct (Nat.eqb_spec (length (values b)) (length (zip_update meet_entry l (values b))));
    simpl; [|done].
  rewrite meet_trim; [done|lia].
Qed.

Lemma canonical_meet a b : canonical a → canonical b → canonical (global_meet a b).
Proof.
  intros Ha Hb. unfold global_meet.
  set (l := if (_ <? _)%nat then _ else _).
  assert (Hlen : length l = Nat.max (length (values b)) (length (values a)))
    by apply length_vec_grow.
  set (m := zip_update meet_entry l (values b)).
  assert (Hm : length m = length l) by apply length_zip_update.
  destruct (Nat.eqb_spec (length (values b)) (length m)) as [E|E]; apply canonical_intro.
  - destruct (meet_new_len_spec 0 m (values b) 0) as [[-> Hz]|(j & z & -> & Hj & Hz & Hd)];
      [lia|done|by rewrite take_0|].
    intros _. rewrite length_take.
    pose proof (lookup_lt_Some _ _ _ Hj).
    replace (_ `min` _ - 1)%nat with j by lia.
    rewrite lookup_take_lt, Hj by lia. simpl. lia.
  - intros Hne. unfold m. rewrite get_zip_update by (auto using meet_entry_0_r; lia).
    fold m. rewrite (lookup_ge_None_2 (values b)) by lia. simpl. rewrite meet_entry_0_r.
    unfold l. rewrite lookup_vec_grow, Hm, Hlen, Nat.max_r by lia.
    rewrite <-global_get_nat. apply canonical_last; [done|].
    intros Ev. rewrite Ev in *; simpl in *. lia.
Qed.

Lemma canonical_from_iter ts : canonical (global_from_iter ts).
Proof.
  unfold global_from_iter. generalize canonical_new. generalize global_new.
  induction ts; simpl; auto using canonical_observe.
Qed.

(** [observed_all] and [changed_since] read as statements about [get]. *)
Lemma forallb_combine_get (f : N → N → bool) l k :
  (∀ x, f x 0%N = true) → (length k ≤ length l)%nat →
  forallb (fun '(x, y) => f x y) (combine l k) = true ↔
  ∀ i, f (default 0%N (l !! i)) (default 0%N (k !! i)) = true.
Proof.
  intros Hf. revert k; induction l as [|x l IH]; intros [|y k] Hlen; simpl in *; try lia.
  - split; [intros _ i; apply Hf|done].
  - split; [intros _ i; apply Hf|done].
  - rewrite andb_true_iff, IH by lia. split.
    + intros [Hxy Hrest] [|i]; simpl; auto.
    + intros Hall. split; [apply (Hall 0%nat)|]. intros i. apply (Hall (S i)).
Qed.

Lemma forallb_combine_imap (f g : nat → ReplicaId) l k :
  forallb (fun '(x, y) => (value y <=? value x)%N)
    (combine (imap (fun ix seq => mkLamport seq (f ix)) l)
             (imap (fun ix seq => mkLamport seq (g ix)) k)) =
  forallb (fun '(x, y) => (y <=? x)%N) (combine l k).
Proof.
  revert f g k. induction l as [|x l IH]; intros f g [|y k]; simpl; try done.
  f_equal. apply (IH (f ∘ S) (g ∘ S)).
Qed.

Lemma global_iter_combine a b :
  forallb (fun '(l, r) => (value r <=? value l)%N) (combine (global_iter a) (global_iter b)) =
  forallb (fun '(x, y) => (y <=? x)%N) (combine (values a) (values b)).
Proof. apply (forallb_combine_imap (fun ix => mkReplicaId (N.of_nat ix))). Qed.

Lemma global_observed_all_get a b :
  canonical b →
  global_observed_all a b = true ↔ ∀ r, (global_get b r <= global_get a r)%N.
Proof.
  intros Hb. unfold global_observed_all.
  destruct (Nat.ltb_spec (length (values a)) (length (values b))) as [Hlt|Hge].
  - split; [done|]. intros Hle. pose proof (canonical_length_le b a Hb Hle). lia.
  - rewrite global_iter_combine.
    rewrite (forallb_combine_get (fun x y => (y <=? x)%N)) by (try (intros; apply N.leb_le); lia).
    split.
    + intros H r. apply N.leb_le, (H (replica_ix r)).
    + intros H i. apply N.leb_le. rewrite <-!global_get_nat. apply H.
Qed.

(** [a.changed_since(b)] is exactly the negation of [b.observed_all(a)]. *)
Lemma global_changed_since_negb a b :
  global_changed_since a b = negb (global_observed_all b a).
Proof.
  unfold global_changed_since, global_observed_all.
  destruct (Nat.ltb_spec (length (values b)) (length (values a))); [done|].
  rewrite global_iter_combine. simpl. clear H.
  generalize (values b) as k. induction (values a) as [|x l IH]; intros [|y k]; simpl; try done.
  rewrite N.ltb_antisym, IH. by destruct (x <=? y)%N.
Qed.

(** ** Lamport clocks *)

(** The packed form is [value * 2^32 + replica_id]: the two fields do not
    overlap. *)
Lemma lamport_as_u64_add t :
  lamport_wf t → lamport_as_u64 t = (value t * 2 ^ 32 + as_u16 (replica_id t))%N.
Proof.
  intros [_ Hr]. unfold lamport_as_u64. unfold u16_max in Hr.
  assert (Hl : N.land (N.shiftl (value t) 32) (as_u16 (replica_id t)) = 0%N).
  { apply N.bits_inj. intros n. rewrite N.land_spec, N.bits_0.
    destruct (N.ltb_spec n 32).
    - by rewrite N.shiftl_spec_low.
    - rewrite andb_comm. destruct (decide (as_u16 (replica_id t) = 0%N)) as [->|Hz];
        [by rewrite N.bits_0|].
      rewrite N.bits_above_log2; [done|].
      assert (as_u16 (replica_id t) < 2 ^ 32)%N as Hlt by lia.
      apply N.log2_lt_pow2 in Hlt; lia. }
  rewrite <-N.lxor_lor, <-N.add_nocarry_lxor by done.
  by rewrite N.shiftl_mul_pow2.
Qed.

(** ** Correctness of the version vector *)

(** Every operation that builds or changes a version vector ([new],
    [observe], [join], [meet], [from_iter]) keeps it in canonical form, the form
    the length comparisons of [observed_all] and [changed_since] rely on. *)
Theorem global_operations_canonical (a b : Global) (t : Lamport) (ts : list Lamport) :
  canonical a → canonical b →
  canonical global_new ∧ canonical (global_observe a t) ∧
  canonical (global_join a b) ∧ canonical (global_meet a b) ∧
  canonical (global_from_iter ts).
Proof.
  intros Ha Hb. auto 6 using canonical_new, canonical_observe, canonical_join,
    canonical_meet, canonical_from_iter.
Qed.

Definition global_ex1 : Global :=
  global_from_iter [mkLamport 3 LOCAL; mkLamport 5 (mkReplicaId 2)].
Definition global_ex2 : Global := global_from_iter [mkLamport 4 REMOTE_SERVER].

Lemma global_operations_canonical_witness :
  canonical (global_join global_ex1 global_ex2) ∧
  canonical (global_meet global_ex1 global_ex2).
Proof.
  destruct (global_operations_canonical global_ex1 global_ex2 (lamport_new AGENT) [])
    as (_ & _ & Hj & Hm & _); [by vm_compute..|]. done.
Defined.

(** On canonical vectors, "has observed everything the other has" is the
    pointwise order on sequence numbers, [changed_since] is the negation of the
    converse, and two vectors that have each observed all of the other are
    equal: [observed_all] is a partial order. *)
Theorem global_observed_all_partial_order (a b : Global) :
  canonical a → canonical b →
  (global_observed_all a b = true ↔ ∀ r, (global_get b r <= global_get a r)%N) ∧
  (global_changed_since a b = true ↔ ∃ r, (global_get b r < global_get a r)%N) ∧
  (global_observed_all a b = true → global_observed_all b a = true → a = b).
Proof.
  intros Ha Hb. split; [|split].
  - by apply global_observed_all_get.
  - rewrite global_changed_since_negb, negb_true_iff. split.
    + intros Hf. destruct (decide (length (values a) ≤ length (values b))%nat) as [Hl|Hl].
      * destruct (decide (Exists (fun i => (default 0 (values b !! i) < default 0 (values a !! i))%N)
                   (seq 0 (length (values a))))) as [Hex|Hno].
        -- apply Exists_exists in Hex as (i & _ & Hi). exists (mkReplicaId (N.of_nat i)).
           by rewrite !global_get_nat.
        -- exfalso. apply not_true_iff_false in Hf. apply Hf, global_observed_all_get; [done|].
           intros r. destruct (decide (replica_ix r < length (values a))%nat) as [Hr|Hr].
           ++ rewrite <-Forall_Exists_neg, Forall_forall in Hno.
              apply N.le_ngt. apply (Hno (replica_ix r)). apply elem_of_seq. lia.
           ++ rewrite (global_get_ge a) by lia. lia.
      * exists (mkReplicaId (N.of_nat (length (values a) - 1))).
        rewrite (global_get_ge b) by (unfold replica_ix; simpl; lia).
        apply canonical_last; [done|]. intros E. rewrite E in Hl. simpl in Hl. lia.
    + intros [r Hr]. apply not_true_iff_false. rewrite global_observed_all_get by done.
      intros Hall. specialize (Hall r). lia.
  - rewrite !global_observed_all_get by done. intros H1 H2.
    apply global_ext; [done..|]. intros r. specialize (H1 r). specialize (H2 r). lia.
Qed.

Lemma global_observed_all_partial_order_witness :
  global_changed_since global_ex1 global_ex2 = true ∧
  ∃ r, (global_get global_ex2 r < global_get global_ex1 r)%N.
Proof.
  destruct (global_observed_all_partial_order global_ex1 global_ex2)
    as (_ & [Hc _] & _); [by vm_compute..|].
  split; [by vm_compute|]. apply Hc. by vm_compute.
Defined.

(** [join] is the least upper bound of two version vectors for
    [observed_all], and [observe] records exactly the observed timestamp: it is
    then observed, and an older or other timestamp is observed afterwards iff it
    was before or is subsumed. *)
Theorem global_join_lub (a b c : Global) (t : Lamport) :
  canonical a → canonical b → canonical c →
  global_observed_all (global_join a b) a = true ∧
  global_observed_all (global_join a b) b = true ∧
  (global_observed_all c a = true → global_observed_all c b = true →
   global_observed_all c (global_join a b) = true) ∧
  global_observed (global_observe a t) t = true ∧
  (∀ t', global_observed (global_observe a t) t' = true ↔
     global_observed a t' = true ∨
     (replica_id t' = replica_id t ∧ (value t' <= value t)%N)).
Proof.
  intros Ha Hb Hc. pose proof (canonical_join a b Ha Hb) as Hj.
  rewrite !global_observed_all_get by done.
  split_and!.
  - intros r. rewrite global_get_join. lia.
  - intros r. rewrite global_get_join. lia.
  - intros H1 H2 r. rewrite global_get_join. specialize (H1 r). specialize (H2 r). lia.
  - unfold global_observed. rewrite global_get_observe, decide_True by done.
    apply N.leb_le. lia.
  - intros t'. unfold global_observed. rewrite global_get_observe, !N.leb_le.
    case_decide; [split; [|naive_solver lia]|naive_solver lia].
    intros. destruct (decide (value t' <= value t)%N); [naive_solver|left; lia].
Qed.

Lemma global_join_lub_witness :
  global_observed_all (global_join global_ex1 global_ex2) global_ex2 = true.
Proof.
  destruct (global_join_lub global_ex1 global_ex2 global_ex1 (lamport_new AGENT))
    as (_ & H & _); by vm_compute.
Defined.

(** A Lamport clock below its maximum moves strictly forward: the clock after
    [tick] is above the timestamp it returned, the clock after [observe] is above
    both its old value and the observed timestamp whatever their replicas, and
    [as_u64] orders timestamps exactly as [cmp] does. *)
Theorem lamport_clock_monotone (c t : Lamport) :
  lamport_wf c → lamport_wf t → (value c < u32_max)%N → (value t < u32_max)%N →
  cmp (lamport_tick c).1 (lamport_tick c).2 = Lt ∧
  cmp c (lamport_observe c t) = Lt ∧ cmp t (lamport_observe c t) = Lt ∧
  lamport_wf (lamport_tick c).2 ∧ lamport_wf (lamport_observe c t) ∧
  cmp c t = N.compare (lamport_as_u64 c) (lamport_as_u64 t).
Proof.
  intros Hc Ht Hcm Htm.
  unfold lamport_tick, lamport_observe. rewrite !u32_wrap_small by lia.
  assert (Hlt : ∀ x y : Lamport, (value x < value y)%N → cmp x y = Lt).
  { intros x y ?. unfold cmp, lamport_cmp. by rewrite (proj2 (N.compare_lt_iff _ _)). }
  split_and!; try (apply Hlt; simpl; lia); try (destruct Hc; split; simpl; lia).
  rewrite !lamport_as_u64_add by done. symmetry.
  destruct Hc as [_ Hc], Ht as [_ Ht]. unfold u16_max in *.
  unfold cmp, lamport_cmp, cmp, ReplicaId_ord, cmp, N_ord.
  destruct (N.compare_spec (value c) (value t)) as [->|?|?]; simpl.
  - destruct (N.compare_spec (as_u16 (replica_id c)) (as_u16 (replica_id t))).
    + apply N.compare_eq_iff. lia.
    + apply N.compare_lt_iff. lia.
    + apply N.compare_gt_iff. lia.
  - apply N.compare_lt_iff. lia.
  - apply N.compare_gt_iff. lia.
Qed.

Lemma lamport_clock_monotone_witness :
  cmp (mkLamport 7 LOCAL) (lamport_observe (mkLamport 2 AGENT) (mkLamport 7 LOCAL)) = Lt.
Proof.
  destruct (lamport_clock_monotone (mkLamport 2 AGENT) (mkLamport 7 LOCAL))
    as (_ & _ & H & _); [split; by vm_compute..|by vm_compute|by vm_compute|].
  exact H.
Defined.
