(* ===== verification/SumTree.v ===== *)
(** * The B+ tree of summarised items: [crates/sum_tree/src/sum_tree.rs]

    [SumTree<T>] keeps a sequence of items in the leaves of a B+ tree; every node
    caches the summary of the items below it.  This file models the traits
    ([Item], [Summary], [Dimension], [SeekTarget]), the nodes, construction
    ([from_iter], [from_par_iter], [push], [extend]), concatenation ([append] and
    the recursive functions below it), and the updates and lookups that do not
    need a cursor.

    [Arc] and [Arc::make_mut] give value semantics (copy on write), so a tree is
    an ordinary value.  [heapless::Vec] of capacity [2 * TREE_BASE] is a list
    whose growth past the capacity panics, as [push(..).unwrap_oob()], [extend]
    and [collect] do. *)

From S2P Require Import Prelude Ord.

Definition TREE_BASE : nat := 6.

(** ** Traits *)
Class Summary (Sm Cx : Type) := {
  zero : Cx → Sm;
  add_summary : Cx → Sm → Sm → Sm
}.

Class Item (T Sm Cx : Type) := item_summary_of : Cx → T → Sm.

Class Dimension (D Sm Cx : Type) := {
  dim_zero : Cx → D;
  dim_add_summary : Cx → D → Sm → D
}.

Class SeekTarget (Tgt D Cx : Type) := target_cmp : Cx → Tgt → D → comparison.

(** What the tree relies on: summaries form a semigroup with [zero] as a left
    identity, and a dimension is an action of it.  No right identity is assumed:
    "last key" summaries do not have one. *)
Class SummaryLaws {Sm Cx} `{!Summary Sm Cx} (cx : Cx) : Prop := {
  add_summary_assoc : ∀ a b c : Sm,
    add_summary cx a (add_summary cx b c) = add_summary cx (add_summary cx a b) c;
  add_summary_zero : ∀ a : Sm, add_summary cx (zero cx) a = a
}.

Class DimensionLaws (D : Type) {Sm Cx} `{!Summary Sm Cx, !Dimension D Sm Cx} (cx : Cx) : Prop :=
  dim_add_add : ∀ (d : D) (a b : Sm),
    dim_add_summary cx (dim_add_summary cx d a) b = dim_add_summary cx d (add_summary cx a b).

(** [impl Dimension<T> for T]: a summary is a dimension of itself. *)
Definition summary_dimension {Sm Cx} `{!Summary Sm Cx} : Dimension Sm Sm Cx :=
  {| dim_zero := zero; dim_add_summary := add_summary |}.
(** [impl Dimension<T> for ()]. *)
#[export] Instance unit_dimension {Sm Cx} : Dimension unit Sm Cx :=
  {| dim_zero _ := tt; dim_add_summary _ _ _ := tt |}.
(** [Dimensions<D1, D2, D3>], with the third component left out by [()]. *)
#[export] Instance dimensions_dimension {D1 D2 D3 Sm Cx}
    `{!Dimension D1 Sm Cx, !Dimension D2 Sm Cx, !Dimension D3 Sm Cx} :
    Dimension (D1 * D2 * D3) Sm Cx :=
  {| dim_zero cx := (dim_zero cx, dim_zero cx, dim_zero cx);
     dim_add_summary cx d s :=
       (dim_add_summary cx d.1.1 s, dim_add_summary cx d.1.2 s, dim_add_summary cx d.2 s) |}.
(** [impl SeekTarget<Dimensions<D1, D2, D3>> for D1]: seek by the first one. *)
#[export] Instance dimensions_target {Tgt D1 D2 D3 Cx} `{!SeekTarget Tgt D1 Cx} :
    SeekTarget Tgt (D1 * D2 * D3) Cx :=
  fun cx t d => target_cmp cx t d.1.1.
(** [impl<D: Dimension + Ord> SeekTarget<D> for D]. *)
Definition ord_target {D Cx} `{Ord D} : SeekTarget D D Cx := fun _ t d => cmp t d.

(** ** [Bias] *)
Inductive Bias := Left | Right.

#[export] Instance Bias_eq_dec : EqDecision Bias.
Proof. solve_decision. Defined.

#[export] Instance Bias_ord : Ord Bias := fun a b =>
  match a, b with
  | Left, Left | Right, Right => Eq
  | Left, Right => Lt
  | Right, Left => Gt
  end.
#[export] Instance Bias_ord_laws : OrdLaws Bias.
Proof. split; [by intros [] []|by intros [] []|by intros [] [] []]. Qed.

Definition bias_invert (self : Bias) : Bias :=
  match self with Left => Right | Right => Left end.

(** The test the seeking loops share: the target lies beyond [pos]. *)
Definition past {Tgt D Cx} `{!SeekTarget Tgt D Cx} (cx : Cx) (t : Tgt) (bias : Bias) (pos : D) : bool :=
  match target_cmp cx t pos with
  | Gt => true
  | Eq => bool_decide (bias = Right)
  | Lt => false
  end.

(** ** Nodes *)
Inductive SumTree (T Sm : Type) :=
  | Internal (height : N) (summary : Sm) (child_summaries : list Sm)
             (child_trees : list (SumTree T Sm))
  | Leaf (summary : Sm) (items : list T) (item_summaries : list Sm).
Arguments Internal {_ _} _ _ _ _.
Arguments Leaf {_ _} _ _ _.

(** Growing a [heapless::Vec<_, { 2 * TREE_BASE }>]. *)
Definition arrayvec {A} (l : list A) : outcome (list A) :=
  if (length l <=? 2 * TREE_BASE)%nat then Ok l else Panic.

(** [vec.last_mut().unwrap()] and [vec.first_mut().unwrap()], with the update
    made through the reference. *)
Definition on_last {A B} (f : A → outcome (A * B)) : list A → outcome (list A * B) :=
  fix go l :=
    match l with
    | [] => Panic
    | x :: l' =>
        match l' with
        | [] => '(y, b) ← f x; Ok ([y], b)
        | _ :: _ => '(k, b) ← go l'; Ok (x :: k, b)
        end
    end.
Definition on_first {A B} (f : A → outcome (A * B)) (l : list A) : outcome (list A * B) :=
  match l with
  | [] => Panic
  | x :: l' => '(y, b) ← f x; Ok (y :: l', b)
  end.
Definition set_last {A} (l : list A) (a : A) : outcome (list A) :=
  fst <$> on_last (fun _ => Ok (a, tt)) l.
Definition set_first {A} (l : list A) (a : A) : outcome (list A) :=
  fst <$> on_first (fun _ => Ok (a, tt)) l.

Section sum_tree.
Context {T Sm Cx : Type} `{!Summary Sm Cx, !Item T Sm Cx} (cx : Cx).
Abbreviation tree := (SumTree T Sm).

(** [sum(iter, cx)] *)
Definition sum (l : list Sm) : Sm := foldl (add_summary cx) (zero cx) l.

Definition is_leaf (self : tree) : bool :=
  match self with Leaf _ _ _ => true | Internal _ _ _ _ => false end.

Definition height (self : tree) : N :=
  match self with Internal h _ _ _ => h | Leaf _ _ _ => 0%N end.

Definition summary (self : tree) : Sm :=
  match self with Internal _ s _ _ => s | Leaf s _ _ => s end.

Definition child_summaries (self : tree) : list Sm :=
  match self with Internal _ _ css _ => css | Leaf _ _ iss => iss end.

Definition child_trees (self : tree) : outcome (list tree) :=
  match self with Internal _ _ _ cts => Ok cts | Leaf _ _ _ => Panic end.

Definition node_items (self : tree) : outcome (list T) :=
  match self with Leaf _ its _ => Ok its | Internal _ _ _ _ => Panic end.

Definition is_underflowing (self : tree) : bool :=
  match self with
  | Internal _ _ _ cts => (length cts <? TREE_BASE)%nat
  | Leaf _ its _ => (length its <? TREE_BASE)%nat
  end.

Definition is_empty (self : tree) : bool :=
  match self with
  | Internal _ _ _ _ => false
  | Leaf _ its _ => (length its =? 0)%nat
  end.

(** ** Construction *)
Definition new : tree := Leaf (zero cx) [] [].

Definition from_summary (s : Sm) : tree := Leaf s [] [].

(** One leaf of [from_iter] / [from_par_iter]: [item_summaries[0]] panics on an
    empty chunk. *)
Definition leaf_of_items (chunk : list T) : outcome tree :=
  let item_summaries := item_summary_of cx <$> chunk in
  match item_summaries with
  | [] => Panic
  | s :: rest => Ok (Leaf (foldl (add_summary cx) s rest) chunk item_summaries)
  end.

(** [while iter.peek().is_some()]: chunks of [2 * TREE_BASE] items. *)
Fixpoint from_iter_leaves (fuel : nat) (iter : list T) : outcome (list tree) :=
  match iter, fuel with
  | [], _ => Ok []
  | _, O => Panic
  | _, S fuel =>
      leaf ← leaf_of_items (take (2 * TREE_BASE) iter);
      rest ← from_iter_leaves fuel (drop (2 * TREE_BASE) iter);
      Ok (leaf :: rest)
  end.

(** [current_parent_node.get_or_insert_with(..)] and the pushes into it. *)
Definition push_child (h : N) (current_parent_node : option tree) (child_node : tree) : outcome tree :=
  match default (Internal h (zero cx) [] []) current_parent_node with
  | Internal h s css cts =>
      let child_summary := summary child_node in
      css ← arrayvec (css ++ [child_summary]);
      cts ← arrayvec (cts ++ [child_node]);
      Ok (Internal h (add_summary cx s child_summary) css cts)
  | Leaf _ _ _ => Panic
  end.

(** [for child_node in nodes.drain(..)] *)
Fixpoint from_iter_level (h : N) (current_parent_node : option tree)
    (parent_nodes nodes : list tree) : outcome (list tree) :=
  match nodes with
  | [] => Ok (parent_nodes ++ option_list current_parent_node)
  | child_node :: nodes =>
      parent_node ← push_child h current_parent_node child_node;
      cts ← child_trees parent_node;
      if (length cts =? 2 * TREE_BASE)%nat
      then from_iter_level h None (parent_nodes ++ [parent_node]) nodes
      else from_iter_level h (Some parent_node) parent_nodes nodes
  end.

(** [while nodes.len() > 1] *)
Fixpoint from_iter_loop (fuel : nat) (h : N) (nodes : list tree) : outcome (list tree) :=
  if (1 <? length nodes)%nat then
    match fuel with
    | O => Panic
    | S fuel =>
        let h := u8_wrap (h + 1) in
        nodes ← from_iter_level h None [] nodes;
        from_iter_loop fuel h nodes
    end
  else Ok nodes.

Definition from_iter (iter : list T) : outcome tree :=
  nodes ← from_iter_leaves (length iter) iter;
  nodes ← from_iter_loop (length nodes) 0 nodes;
  match nodes with
  | [] => Ok new
  | _ => unwrap (last nodes)
  end.

(** rayon's [chunks(n)]: consecutive chunks of [n], the last one possibly
    shorter, in order. *)
Fixpoint chunks {A} (fuel n : nat) (l : list A) : list (list A) :=
  match l, fuel with
  | [], _ => []
  | _, O => []
  | _, S fuel => take n l :: chunks fuel n (drop n l)
  end.

Definition par_parent (h : N) (child_nodes : list tree) : outcome tree :=
  child_trees ← arrayvec child_nodes;
  let child_summaries := summary <$> child_trees in
  match child_summaries with
  | [] => Panic
  | s :: rest =>
      Ok (Internal h (foldl (add_summary cx) s rest) child_summaries child_trees)
  end.

Definition par_leaf (chunk : list T) : outcome tree :=
  items ← arrayvec chunk; leaf_of_items items.

Fixpoint omap_outcome {A B} (f : A → outcome B) (l : list A) : outcome (list B) :=
  match l with
  | [] => Ok []
  | x :: l => y ← f x; ys ← omap_outcome f l; Ok (y :: ys)
  end.

Fixpoint from_par_iter_loop (fuel : nat) (h : N) (nodes : list tree) : outcome (list tree) :=
  if (1 <? length nodes)%nat then
    match fuel with
    | O => Panic
    | S fuel =>
        let h := u8_wrap (h + 1) in
        nodes ← omap_outcome (par_parent h) (chunks (length nodes) (2 * TREE_BASE) nodes);
        from_par_iter_loop fuel h nodes
    end
  else Ok nodes.

Definition from_par_iter (iter : list T) : outcome tree :=
  nodes ← omap_outcome par_leaf (chunks (length iter) (2 * TREE_BASE) iter);
  nodes ← from_par_iter_loop (length nodes) 0 nodes;
  match nodes with
  | [] => Ok new
  | _ => unwrap (last nodes)
  end.

(** ** Concatenation *)
Definition from_child_trees (left right : tree) : outcome tree :=
  let h := u8_wrap (height left + 1) in
  child_summaries ← arrayvec [summary left; summary right];
  child_trees ← arrayvec [left; right];
  Ok (Internal h (sum child_summaries) child_summaries child_trees).

(** [push_tree_recursive(&mut self, other)]: the updated [self] and the split-off
    right sibling, if any. *)
Fixpoint push_tree_recursive (self other : tree) {struct self} : outcome (tree * option tree) :=
  match self with
  | Internal h s css cts =>
      let s := add_summary cx s (summary other) in
      let height_delta := u8_wrap (h + 256 - height other) in
      '(css, cts, summaries_to_append, trees_to_append) ←
        (if (height_delta =? 0)%N then
           other_trees ← child_trees other;
           summaries_to_append ← arrayvec (child_summaries other);
           trees_to_append ← arrayvec other_trees;
           Ok (css, cts, summaries_to_append, trees_to_append)
         else if (height_delta =? 1)%N && negb (is_underflowing other) then
           Ok (css, cts, [summary other], [other])
         else
           '(cts, tree_to_append) ← on_last (fun t => push_tree_recursive t other) cts;
           last_child ← unwrap (last cts);
           css ← set_last css (summary last_child);
           match tree_to_append with
           | Some split_tree => Ok (css, cts, [summary split_tree], [split_tree])
           | None => Ok (css, cts, [], [])
           end);
      let child_count := (length cts + length trees_to_append)%nat in
      if (2 * TREE_BASE <? child_count)%nat then
        let midpoint := ((child_count + child_count `mod` 2) `div` 2)%nat in
        left_summaries ← arrayvec (take midpoint (css ++ summaries_to_append));
        right_summaries ← arrayvec (drop midpoint (css ++ summaries_to_append));
        left_trees ← arrayvec (take midpoint (cts ++ trees_to_append));
        right_trees ← arrayvec (drop midpoint (cts ++ trees_to_append));
        Ok (Internal h (sum left_summaries) left_summaries left_trees,
            Some (Internal h (sum right_summaries) right_summaries right_trees))
      else
        css ← arrayvec (css ++ summaries_to_append);
        cts ← arrayvec (cts ++ trees_to_append);
        Ok (Internal h s css cts, None)
  | Leaf s items item_summaries =>
      other_items ← node_items other;
      let child_count := (length items + length other_items)%nat in
      if (2 * TREE_BASE <? child_count)%nat then
        let midpoint := ((child_count + child_count `mod` 2) `div` 2)%nat in
        left_items ← arrayvec (take midpoint (items ++ other_items));
        right_items ← arrayvec (drop midpoint (items ++ other_items));
        left_summaries ← arrayvec (take midpoint (item_summaries ++ child_summaries other));
        right_summaries ← arrayvec (drop midpoint (item_summaries ++ child_summaries other));
        Ok (Leaf (sum left_summaries) left_items left_summaries,
            Some (Leaf (sum right_summaries) right_items right_summaries))
      else
        items ← arrayvec (items ++ other_items);
        item_summaries ← arrayvec (item_summaries ++ child_summaries other);
        Ok (Leaf (add_summary cx s (summary other)) items item_summaries, None)
  end.

(** [merge_into_right(small, large: &mut)]: the updated [large], and the new left
    node when the contents did not fit. *)
Definition merge_into_right (small large : tree) : outcome (tree * option tree) :=
  match small, large with
  | Internal _ small_summary small_css small_cts, Internal h s css cts =>
      let total_child_count := (length cts + length small_cts)%nat in
      if (total_child_count <=? 2 * TREE_BASE)%nat then
        cts ← arrayvec (small_cts ++ cts);
        css ← arrayvec (small_css ++ css);
        Ok (Internal h (add_summary cx small_summary s) css cts, None)
      else
        let midpoint := ((total_child_count + 1) `div` 2)%nat in
        left_trees ← arrayvec (take midpoint (small_cts ++ cts));
        cts ← arrayvec (drop midpoint (small_cts ++ cts));
        left_summaries ← arrayvec (take midpoint (small_css ++ css));
        css ← arrayvec (drop midpoint (small_css ++ css));
        Ok (Internal h (sum css) css cts,
            Some (Internal h (sum left_summaries) left_summaries left_trees))
  | Leaf small_summary small_items small_iss, Leaf s items iss =>
      let total_child_count := (length small_items + length items)%nat in
      if (total_child_count <=? 2 * TREE_BASE)%nat then
        items ← arrayvec (small_items ++ items);
        iss ← arrayvec (small_iss ++ iss);
        Ok (Leaf (add_summary cx small_summary s) items iss, None)
      else
        let midpoint := ((total_child_count + 1) `div` 2)%nat in
        left_items ← arrayvec (take midpoint (small_items ++ items));
        items ← arrayvec (drop midpoint (small_items ++ items));
        left_summaries ← arrayvec (take midpoint (small_iss ++ iss));
        iss ← arrayvec (drop midpoint (small_iss ++ iss));
        Ok (Leaf (sum iss) items iss,
            Some (Leaf (sum left_summaries) left_items left_summaries))
  | _, _ => Panic
  end.

(** [append_large(small, large: &mut)]: the updated [large] and the tree that is
    to become its left sibling, if any. *)
Fixpoint append_large (small large : tree) {struct large} : outcome (tree * option tree) :=
  if (height small =? height large)%N then
    if negb (is_underflowing small) then Ok (large, Some small)
    else merge_into_right small large
  else
    match large with
    | Leaf _ _ _ => Panic
    | Internal h s css cts =>
        let s := add_summary cx (summary small) s in
        '(cts, res) ← on_first (fun first => append_large small first) cts;
        first ← unwrap (head cts);
        css ← set_first css (summary first);
        match res with
        | Some tree =>
            if (length cts <? 2 * TREE_BASE)%nat then
              css ← arrayvec (summary tree :: css);
              cts ← arrayvec (tree :: cts);
              Ok (Internal h s css cts, None)
            else
              (* [drain(..TREE_BASE)] panics when it is out of range *)
              _ ← assert_that (TREE_BASE <=? length css)%nat;
              new_css ← arrayvec (summary tree :: take TREE_BASE css);
              let css := drop TREE_BASE css in
              new_cts ← arrayvec (tree :: take TREE_BASE cts);
              let cts := drop TREE_BASE cts in
              Ok (Internal h (sum css) css cts,
                  Some (Internal h (sum new_css) new_css new_cts))
        | None => Ok (Internal h s css cts, None)
        end
    end.

Definition append (self other : tree) : outcome tree :=
  if is_empty self then Ok other
  else
    other_is_empty ← (if is_leaf other
                      then its ← node_items other; Ok (length its =? 0)%nat
                      else Ok false);
    if (other_is_empty : bool) then Ok self
    else if (height self <? height other)%N then
      '(other, res) ← append_large self other;
      match res with
      | Some tree => from_child_trees tree other
      | None => Ok other
      end
    else
      '(self, res) ← push_tree_recursive self other;
      match res with
      | Some split_tree => from_child_trees self split_tree
      | None => Ok self
      end.

Definition push (self : tree) (item : T) : outcome tree :=
  let s := item_summary_of cx item in
  append self (Leaf s [item] [s]).

Definition from_item (item : T) : outcome tree := push new item.

Definition extend (self : tree) (iter : list T) : outcome tree :=
  other ← from_iter iter; append self other.

Definition par_extend (self : tree) (iter : list T) : outcome tree :=
  other ← from_par_iter iter; append self other.

(** ** Ends of the tree *)
Fixpoint leftmost_leaf (self : tree) : outcome tree :=
  match self with
  | Leaf _ _ _ => Ok self
  | Internal _ _ _ cts =>
      match cts with
      | [] => Panic
      | t :: _ => leftmost_leaf t
      end
  end.

Fixpoint rightmost_leaf (self : tree) : outcome tree :=
  match self with
  | Leaf _ _ _ => Ok self
  | Internal _ _ _ cts =>
      (* [child_trees.last().unwrap().rightmost_leaf()] *)
      (fix go l :=
         match l with
         | [] => Panic
         | t :: l' => match l' with [] => rightmost_leaf t | _ :: _ => go l' end
         end) cts
  end.

Definition tree_first (self : tree) : outcome (option T) :=
  leaf ← leftmost_leaf self; items ← node_items leaf; Ok (head items).

Definition tree_last (self : tree) : outcome (option T) :=
  leaf ← rightmost_leaf self; items ← node_items leaf; Ok (last items).

Definition last_summary (self : tree) : outcome (option Sm) :=
  leaf ← rightmost_leaf self; Ok (last (child_summaries leaf)).

(** [items.last_mut().zip(item_summaries.last_mut())] *)
Fixpoint update_last_recursive (f : T → T) (self : tree) {struct self} :
    outcome (tree * option Sm) :=
  match self with
  | Internal h s css cts =>
      '(cts, res) ← on_last (update_last_recursive f) cts;
      last_summary ← unwrap res;
      css ← set_last css last_summary;
      let s := sum css in
      Ok (Internal h s css cts, Some s)
  | Leaf s items item_summaries =>
      match last items, last item_summaries with
      | Some item, Some _ =>
          let item := f item in
          items ← set_last items item;
          item_summaries ← set_last item_summaries (item_summary_of cx item);
          let s := sum item_summaries in
          Ok (Leaf s items item_summaries, Some s)
      | _, _ => Ok (self, None)
      end
  end.

Definition update_last (f : T → T) (self : tree) : outcome tree :=
  fst <$> update_last_recursive f self.

Fixpoint update_first_recursive (f : T → T) (self : tree) {struct self} :
    outcome (tree * option Sm) :=
  match self with
  | Internal h s css cts =>
      '(cts, res) ← on_first (update_first_recursive f) cts;
      first_summary ← unwrap res;
      css ← set_first css first_summary;
      let s := sum css in
      Ok (Internal h s css cts, Some s)
  | Leaf s items item_summaries =>
      match head items, head item_summaries with
      | Some item, Some _ =>
          let item := f item in
          items ← set_first items item;
          item_summaries ← set_first item_summaries (item_summary_of cx item);
          let s := sum item_summaries in
          Ok (Leaf s items item_summaries, Some s)
      | _, _ => Ok (self, None)
      end
  end.

Definition update_first (f : T → T) (self : tree) : outcome tree :=
  fst <$> update_first_recursive f self.

(** ** Lookup without a cursor *)
Section find.
Context {Tgt D : Type} `{!Dimension D Sm Cx, !SeekTarget Tgt D Cx}.

Definition extent (self : tree) : D :=
  dim_add_summary cx (dim_zero cx) (summary self).

(** [comparison == Less || (comparison == Equal && bias == Left)] *)
Definition target_in_child (target : Tgt) (bias : Bias) (child_end : D) : bool :=
  match target_cmp cx target child_end with
  | Lt => true
  | Eq => bool_decide (bias = Left)
  | Gt => false
  end.

Definition entry_found (exact : bool) (target : Tgt) (bias : Bias) (child_end : D) : bool :=
  if exact then bool_decide (target_cmp cx target child_end = Eq)
  else target_in_child target bias child_end.

(** [find_iterate::<EXACT>]: the final position and the item found with its end. *)
Fixpoint find_iterate (exact : bool) (target : Tgt) (bias : Bias) (position : D)
    (this : tree) : D * option (T * D) :=
  match this with
  | Internal _ _ css cts =>
      (fix scan position cts css :=
         match cts, css with
         | child_tree :: cts, child_summary :: css =>
             let child_end := dim_add_summary cx position child_summary in
             if target_in_child target bias child_end
             then find_iterate exact target bias position child_tree
             else scan child_end cts css
         | _, _ => (position, None)
         end) position cts css
  | Leaf _ items item_summaries =>
      (fix scan position items item_summaries :=
         match items, item_summaries with
         | item :: items, item_summary :: item_summaries =>
             let child_end := dim_add_summary cx position item_summary in
             if entry_found exact target bias child_end
             then (position, Some (item, child_end))
             else scan child_end items item_summaries
         | _, _ => (position, None)
         end) position items item_summaries
  end.

(** [find] ([EXACT = false]) and [find_exact] ([EXACT = true]). *)
Definition find_with (exact : bool) (self : tree) (target : Tgt) (bias : Bias) : D * D * option T :=
  let tree_end := dim_add_summary cx (dim_zero cx) (summary self) in
  if past cx target bias tree_end then (tree_end, tree_end, None)
  else
    match find_iterate exact target bias (dim_zero cx) self with
    | (pos, Some (item, end_)) => (pos, end_, Some item)
    | (pos, None) => (pos, pos, None)
    end.

Definition find (self : tree) (target : Tgt) (bias : Bias) : D * D * option T :=
  find_with false self target bias.

Definition find_exact (self : tree) (target : Tgt) (bias : Bias) : D * D * option T :=
  find_with true self target bias.

(** [find_with_prev_iterate::<EXACT>], also tracking the item before. *)
Fixpoint find_with_prev_iterate (exact : bool) (target : Tgt) (bias : Bias) (position : D)
    (prev : option T) (this : tree) {struct this} : outcome (D * option (option T * T * D)) :=
  match this with
  | Internal _ _ css cts =>
      (fix scan position (prev : option T) cts css {struct cts} :=
         match cts, css with
         | child_tree :: cts, child_summary :: css =>
             let child_end := dim_add_summary cx position child_summary in
             if target_in_child target bias child_end
             then find_with_prev_iterate exact target bias position prev child_tree
             else prev ← tree_last child_tree; scan child_end prev cts css
         | _, _ => Ok (position, None)
         end) position prev cts css
  | Leaf _ items item_summaries =>
      (fix scan position prev items item_summaries :=
         match items, item_summaries with
         | item :: items, item_summary :: item_summaries =>
             let child_end := dim_add_summary cx position item_summary in
             if entry_found exact target bias child_end
             then Ok (position, Some (prev, item, child_end))
             else scan child_end (Some item) items item_summaries
         | _, _ => Ok (position, None)
         end) position prev items item_summaries
  end.

Definition find_with_prev (self : tree) (target : Tgt) (bias : Bias) :
    outcome (D * D * option (option T * T)) :=
  let tree_end := dim_add_summary cx (dim_zero cx) (summary self) in
  if past cx target bias tree_end then Ok (tree_end, tree_end, None)
  else
    '(pos, res) ← find_with_prev_iterate false target bias (dim_zero cx) None self;
    match res with
    | Some (prev, item, end_) => Ok (pos, end_, Some (prev, item))
    | None => Ok (pos, pos, None)
    end.
End find.
End sum_tree.
Arguments SumTree _ _ : clear implicits.
