(* ===== verification/SumTreeFacts.v ===== *)
(** * Well-formedness of [SumTree] and the theory of [append]

    A tree denotes the sequence [tree_items] of the items in its leaves.  The
    invariant [tree_wf] says that every node's cached summaries are those of the
    items below it, that nodes are non-empty and within capacity, and that all
    leaves are at the same depth.  Every constructor and concatenation of
    [sum_tree.rs] returns a well-formed tree denoting the expected sequence, and
    does not panic. *)

From S2P Require Import Prelude Ord SumTree.

#[local] Arguments Nat.div : simpl never.
#[local] Arguments Nat.modulo : simpl never.
#[local] Arguments Nat.mul : simpl never.
#[local] Arguments Nat.ltb : simpl never.
#[local] Arguments Nat.leb : simpl never.
#[local] Arguments N.of_nat : simpl never.

(** Arithmetic on node sizes. *)
Ltac blia := unfold TREE_BASE in *; lia.

(** ** Lists *)
Lemma arrayvec_ok {A} (l : list A) : (length l ≤ 2 * TREE_BASE)%nat → arrayvec l = Ok l.
Proof. intros. unfold arrayvec. by rewrite (proj2 (Nat.leb_le _ _)). Qed.

Lemma on_last_app {A B} (f : A → outcome (A * B)) l x :
  on_last f (l ++ [x]) = ('(y, b) ← f x; Ok (l ++ [y], b)).
Proof.
  induction l as [|z l IH]; [simpl; by destruct (f x) as [[]|]|].
  change (on_last f ((z :: l) ++ [x])) with
    (match l ++ [x] with
     | [] => '(y, b) ← f z; Ok ([y], b)
     | _ :: _ => '(k, b) ← on_last f (l ++ [x]); Ok (z :: k, b)
     end).
  destruct (l ++ [x]) eqn:E; [by destruct l|]. rewrite IH.
  by destruct (f x) as [[]|].
Qed.

Lemma set_last_app {A} (l : list A) x a : set_last (l ++ [x]) a = Ok (l ++ [a]).
Proof. unfold set_last. by rewrite on_last_app. Qed.

Lemma rev_case {A} (l : list A) : l ≠ [] → ∃ k x, l = k ++ [x].
Proof. intros. destruct l using rev_ind; [done|eauto]. Qed.

(** The sizes of the two halves of an overfull node. *)
Lemma midpoint_bounds (c : nat) :
  (2 * TREE_BASE < c ≤ 4 * TREE_BASE)%nat →
  let m := ((c + c `mod` 2) `div` 2)%nat in
  (TREE_BASE ≤ m < c ∧ TREE_BASE ≤ c - m ∧ m ≤ 2 * TREE_BASE ∧ c - m ≤ 2 * TREE_BASE)%nat.
Proof.
  unfold TREE_BASE. intros.
  pose proof (Nat.mod_upper_bound c 2 ltac:(lia)). pose proof (Nat.div_mod_eq c 2).
  pose proof (Nat.div_mod_eq (c + c `mod` 2) 2).
  pose proof (Nat.mod_upper_bound (c + c `mod` 2) 2 ltac:(lia)).
  repeat split; lia.
Qed.

Lemma div_ceil_bounds (c : nat) :
  (2 * TREE_BASE < c ≤ 4 * TREE_BASE)%nat →
  let m := ((c + 1) `div` 2)%nat in
  (TREE_BASE ≤ m < c ∧ TREE_BASE ≤ c - m ∧ m ≤ 2 * TREE_BASE ∧ c - m ≤ 2 * TREE_BASE)%nat.
Proof.
  unfold TREE_BASE. intros.
  pose proof (Nat.div_mod_eq (c + 1) 2).
  pose proof (Nat.mod_upper_bound (c + 1) 2 ltac:(lia)). repeat split; lia.
Qed.

Lemma take_nonempty {A} (l : list A) n : (0 < n)%nat → l ≠ [] → take n l ≠ [].
Proof. destruct l, n; simpl; try done; lia. Qed.

Lemma drop_nonempty {A} (l : list A) n : (n < length l)%nat → drop n l ≠ [].
Proof. intros ? E. apply (f_equal length) in E. rewrite length_drop in E. simpl in E. lia. Qed.

Section facts.
Context {T Sm Cx : Type} `{!Summary Sm Cx, !Item T Sm Cx} (cx : Cx).
Context `{!SummaryLaws (Sm:=Sm) cx} (d : nat).
Abbreviation tree := (SumTree T Sm).
Implicit Types (t : tree) (l : list Sm).

(** ** Sums *)
Lemma sum_singleton a : sum cx [a] = a.
Proof. apply add_summary_zero. Qed.

Lemma foldl_add a l : l ≠ [] → foldl (add_summary cx) a l = add_summary cx a (sum cx l).
Proof.
  intros Hl. destruct l as [|b l]; [done|]. unfold sum. simpl. rewrite add_summary_zero.
  clear Hl. revert a b. induction l as [|c l IH]; intros a b; simpl; [done|].
  by rewrite (IH (add_summary cx a b)), (IH b), add_summary_assoc.
Qed.

Lemma sum_app l k : k ≠ [] → sum cx (l ++ k) = add_summary cx (sum cx l) (sum cx k).
Proof. intros. unfold sum. rewrite foldl_app. by apply foldl_add. Qed.

Lemma sum_cons a l : foldl (add_summary cx) a l = sum cx (a :: l).
Proof. unfold sum. simpl. by rewrite add_summary_zero. Qed.

Lemma sum_concat (ls : list (list Sm)) :
  Forall (.≠ []) ls → sum cx (sum cx <$> ls) = sum cx (concat ls).
Proof.
  induction ls as [|l ls IH] using rev_ind; [done|].
  rewrite Forall_app, Forall_singleton. intros [Hls Hl].
  rewrite fmap_app, concat_app; simpl. rewrite app_nil_r.
  by rewrite !sum_app, sum_singleton, IH.
Qed.

(** ** Denotation and invariant *)
Fixpoint tree_items (t : tree) : list T :=
  match t with
  | Leaf _ its _ => its
  | Internal _ _ _ cts => flat_map tree_items cts
  end.

Abbreviation summaries := (fmap (M:=list) (item_summary_of cx)).

(** Number of children or items of a node. *)
Definition node_len (t : tree) : nat :=
  match t with Internal _ _ _ cts => length cts | Leaf _ its _ => length its end.

(** [wf_at h t]: [t] is a well-formed node of height [h].  The parameter [d] says
    from which height on the B-tree occupancy bound is guaranteed: nodes of
    height [d] or more, other than the root, are at least half full.  Trees built
    by [push] and [append] have it from height 0; [from_iter] may leave a sparse
    right spine. *)
Fixpoint wf_at (h : nat) (t : tree) : Prop :=
  match h, t with
  | O, Leaf s its iss =>
      its ≠ [] ∧ (length its ≤ 2 * TREE_BASE)%nat ∧ iss = summaries its ∧ s = sum cx iss
  | S h, Internal ht s css cts =>
      ht = N.of_nat (S h) ∧ cts ≠ [] ∧ (length cts ≤ 2 * TREE_BASE)%nat ∧
      css = summary <$> cts ∧ s = sum cx css ∧
      Forall (fun c => wf_at h c ∧ ((d ≤ h)%nat → (TREE_BASE ≤ node_len c)%nat)) cts
  | _, _ => False
  end.

(** A child of a node of height [S h]. *)
Definition child_ok (h : nat) (c : tree) : Prop :=
  wf_at h c ∧ ((d ≤ h)%nat → (TREE_BASE ≤ node_len c)%nat).

Definition tree_wf (t : tree) : Prop := t = new cx ∨ ∃ h, (h < 256)%nat ∧ wf_at h t.

Lemma wf_leaf its :
  its ≠ [] → (length its ≤ 2 * TREE_BASE)%nat →
  wf_at 0 (Leaf (sum cx (summaries its)) its (summaries its)).
Proof. done. Qed.

Lemma wf_internal h ht cts :
  ht = N.of_nat (S h) → cts ≠ [] → (length cts ≤ 2 * TREE_BASE)%nat → Forall (child_ok h) cts →
  wf_at (S h) (Internal ht (sum cx (summary <$> cts)) (summary <$> cts) cts).
Proof. by intros -> ???. Qed.

Lemma wf_height h t : wf_at h t → height t = N.of_nat h.
Proof. destruct h, t; simpl; naive_solver. Qed.

Lemma wf_is_leaf h t : wf_at h t → is_leaf t = (h =? 0)%nat.
Proof. destruct h, t; simpl; naive_solver. Qed.

Lemma child_ok_wf h c : child_ok h c → wf_at h c.
Proof. by intros []. Qed.

Lemma is_underflowing_len t : is_underflowing t = (node_len t <? TREE_BASE)%nat.
Proof. by destruct t. Qed.

Lemma not_underflowing_child_ok h c :
  wf_at h c → is_underflowing c = false → child_ok h c.
Proof. rewrite is_underflowing_len. intros Hc Hu%Nat.ltb_ge. by split. Qed.

(** The summary of a list of children is that of the items below them. *)
Lemma children_sum (P : tree → Prop) cts :
  (∀ t, P t → tree_items t ≠ [] ∧ summary t = sum cx (summaries (tree_items t))) →
  Forall P cts → sum cx (summary <$> cts) = sum cx (summaries (flat_map tree_items cts)).
Proof.
  intros HP Hcs.
  assert (summary <$> cts = sum cx <$> ((fun t => summaries (tree_items t)) <$> cts)) as ->.
  { rewrite <-list_fmap_compose. apply list_fmap_ext. intros i c Hi.
    rewrite Forall_lookup in Hcs. by destruct (HP c (Hcs i c Hi)). }
  rewrite sum_concat.
  - f_equal. clear. induction cts as [|c cts IH]; [done|].
    simpl. rewrite fmap_app. f_equal. apply IH.
  - apply Forall_fmap. eapply Forall_impl; [exact Hcs|].
    intros c Hc. destruct (HP c Hc) as [Hne _]. simpl. by destruct (tree_items c).
Qed.

Lemma wf_items_summary h t :
  wf_at h t → tree_items t ≠ [] ∧ summary t = sum cx (summaries (tree_items t)).
Proof.
  revert t; induction h as [|h IH]; intros [ht s css cts|s its iss]; simpl; try done.
  - intros (? & _ & -> & ->). done.
  - intros (-> & Hne & _ & -> & -> & Hf). split.
    2: { eapply children_sum; [|exact Hf]. intros t [Ht _]. by apply IH. }
    destruct cts as [|c cts]; [done|]. apply Forall_cons in Hf as [[Hc _] _].
    apply IH in Hc as [Hc _]. simpl. by destruct (tree_items c).
Qed.

Lemma wf_items_nonempty h t : wf_at h t → tree_items t ≠ [].
Proof. intros. by eapply wf_items_summary. Qed.

Lemma wf_summary h t : wf_at h t → summary t = sum cx (summaries (tree_items t)).
Proof. intros. by eapply wf_items_summary. Qed.

Lemma wf_not_empty h t : wf_at h t → is_empty t = false.
Proof. destruct h, t as [| ? []]; simpl; naive_solver. Qed.

Lemma wf_new : tree_wf (new cx).
Proof. by left. Qed.

Lemma tree_wf_empty t : tree_wf t → is_empty t = true → t = new cx.
Proof. intros [?|(h & _ & Hw)]; [done|]. by rewrite (wf_not_empty h). Qed.

Lemma tree_wf_summary t : tree_wf t → summary t = sum cx (summaries (tree_items t)).
Proof. intros [->|(h & _ & Hw)]; [done|by eapply wf_summary]. Qed.

Lemma flat_map_snoc (cts : list tree) t :
  flat_map tree_items (cts ++ [t]) = flat_map tree_items cts ++ tree_items t.
Proof. by rewrite flat_map_app; simpl; rewrite app_nil_r. Qed.

Lemma wf_children_sum h cts :
  Forall (child_ok h) cts → sum cx (summary <$> cts) = sum cx (summaries (flat_map tree_items cts)).
Proof. apply children_sum. intros t []. by eapply wf_items_summary. Qed.

(** ** [push_tree_recursive] *)

(** What [push_tree_recursive] and [append_large] promise: one node of height [h],
    or two adjacent ones, denoting [its].  [n] is the size of the node before, and
    [q] the condition under which the right of two nodes is half full. *)
Definition push_post (h n : nat) (its : list T) (r : tree * option tree) : Prop :=
  wf_at h r.1 ∧
  match r.2 with
  | None => tree_items r.1 = its ∧ (n ≤ node_len r.1)%nat
  | Some rt => wf_at h rt ∧ tree_items r.1 ++ tree_items rt = its ∧
               (TREE_BASE ≤ node_len r.1)%nat ∧ (TREE_BASE ≤ node_len rt)%nat
  end.
Definition prepend_post (h n : nat) (q : Prop) (its : list T) (r : tree * option tree) : Prop :=
  wf_at h r.1 ∧
  match r.2 with
  | None => tree_items r.1 = its ∧ (n ≤ node_len r.1)%nat
  | Some lt => wf_at h lt ∧ tree_items lt ++ tree_items r.1 = its ∧
               (TREE_BASE ≤ node_len lt)%nat ∧ (q → (TREE_BASE ≤ node_len r.1)%nat)
  end.

(** Cutting an overfull list of children in two gives two well-formed nodes. *)
Lemma wf_internal_cut h ht cts m :
  ht = N.of_nat (S h) → Forall (child_ok h) cts →
  (0 < m < length cts)%nat → (m ≤ 2 * TREE_BASE)%nat → (length cts - m ≤ 2 * TREE_BASE)%nat →
  wf_at (S h) (Internal ht (sum cx (take m (summary <$> cts))) (take m (summary <$> cts)) (take m cts)) ∧
  wf_at (S h) (Internal ht (sum cx (drop m (summary <$> cts))) (drop m (summary <$> cts)) (drop m cts)) ∧
  flat_map tree_items (take m cts) ++ flat_map tree_items (drop m cts) = flat_map tree_items cts.
Proof.
  intros Hht Hf Hm Hl Hr. rewrite <-fmap_take, <-fmap_drop. split; [|split].
  - apply wf_internal; auto using Forall_take.
    + apply take_nonempty; [lia|]. by destruct cts; simpl in *; [lia|].
    + rewrite length_take. lia.
  - apply wf_internal; auto using Forall_drop.
    + apply drop_nonempty. lia.
    + rewrite length_drop. lia.
  - by rewrite <-flat_map_app, take_drop.
Qed.

Lemma wf_leaf_cut its m :
  (0 < m < length its)%nat → (m ≤ 2 * TREE_BASE)%nat → (length its - m ≤ 2 * TREE_BASE)%nat →
  wf_at 0 (Leaf (sum cx (take m (summaries its))) (take m its) (take m (summaries its))) ∧
  wf_at 0 (Leaf (sum cx (drop m (summaries its))) (drop m its) (drop m (summaries its))).
Proof.
  intros Hm Hl Hr. rewrite <-fmap_take, <-fmap_drop. split; apply wf_leaf.
  - apply take_nonempty; [lia|]. by destruct its; simpl in *; [lia|].
  - rewrite length_take. lia.
  - apply drop_nonempty. lia.
  - rewrite length_drop. lia.
Qed.

(** Split or extend a node with the children to append. *)
Lemma push_finish h ht s cts ta :
  ht = N.of_nat (S h) → cts ≠ [] → (length cts ≤ 2 * TREE_BASE)%nat →
  (length ta ≤ 2 * TREE_BASE)%nat → Forall (child_ok h) (cts ++ ta) →
  s = sum cx (summaries (flat_map tree_items (cts ++ ta))) →
  ok_with
    (let child_count := (length cts + length ta)%nat in
     if (2 * TREE_BASE <? child_count)%nat then
        let midpoint := ((child_count + child_count `mod` 2) `div` 2)%nat in
        left_summaries ← arrayvec (take midpoint ((summary <$> cts) ++ (summary <$> ta)));
        right_summaries ← arrayvec (drop midpoint ((summary <$> cts) ++ (summary <$> ta)));
        left_trees ← arrayvec (take midpoint (cts ++ ta));
        right_trees ← arrayvec (drop midpoint (cts ++ ta));
        Ok (Internal ht (sum cx left_summaries) left_summaries left_trees,
            Some (Internal ht (sum cx right_summaries) right_summaries right_trees))
      else
        css ← arrayvec ((summary <$> cts) ++ (summary <$> ta));
        cts ← arrayvec (cts ++ ta);
        Ok (Internal ht s css cts, None))
    (push_post (S h) (length cts) (flat_map tree_items (cts ++ ta))).
Proof.
  intros Hht Hne Hlc Hla Hf ->. cbv zeta. rewrite <-fmap_app, <-length_app.
  assert (Hlen : (length (cts ++ ta) ≤ 4 * TREE_BASE)%nat) by (rewrite length_app; blia).
  destruct (Nat.ltb_spec (2 * TREE_BASE) (length (cts ++ ta))) as [Hlt|Hle].
  - pose proof (midpoint_bounds (length (cts ++ ta))) as Hmid. cbv zeta in Hmid.
    set (m := ((_ + _) `div` 2)%nat) in *. destruct Hmid as (? & ? & ? & ?); [blia|].
    destruct (wf_internal_cut h ht (cts ++ ta) m) as (Hwl & Hwr & Heq); [done|done|blia..|].
    rewrite !arrayvec_ok by (rewrite ?length_take, ?length_drop, ?length_fmap; blia).
    split; [exact Hwl|]. split_and!; [exact Hwr|exact Heq|simpl..].
    + rewrite length_take. blia.
    + rewrite length_drop. blia.
  - rewrite !arrayvec_ok by (rewrite ?length_fmap; blia).
    split; [|simpl; split; [done|rewrite length_app; lia]].
    simpl. rewrite <-(wf_children_sum h) by done. by destruct cts.
Qed.

Lemma u8_delta (a b : nat) : (b ≤ a < 256)%nat →
  u8_wrap (N.of_nat a + 256 - N.of_nat b) = N.of_nat (a - b).
Proof.
  intros. unfold u8_wrap.
  replace (N.of_nat a + 256 - N.of_nat b)%N with (N.of_nat (a - b) + 1 * 2 ^ 8)%N by lia.
  rewrite N.Div0.mod_add. apply N.mod_small. lia.
Qed.

Lemma push_leaf_spec s o :
  wf_at 0 s → wf_at 0 o →
  ok_with (push_tree_recursive cx s o) (push_post 0 (node_len s) (tree_items s ++ tree_items o)).
Proof.
  destruct s as [|s its iss], o as [|os oits oiss]; simpl; try done.
  intros (Hne & Hl & -> & ->) (Hone & Hol & -> & ->).
  rewrite <-fmap_app, <-length_app.
  assert (Hlen : (length (its ++ oits) ≤ 4 * TREE_BASE)%nat) by (rewrite length_app; blia).
  destruct (Nat.ltb_spec (2 * TREE_BASE) (length (its ++ oits))) as [Hlt|Hle].
  - pose proof (midpoint_bounds (length (its ++ oits))) as Hmid. cbv zeta in Hmid.
    set (m := ((_ + _) `div` 2)%nat) in *. destruct Hmid as (? & ? & ? & ?); [blia|].
    destruct (wf_leaf_cut (its ++ oits) m) as (Hwl & Hwr); [blia..|].
    rewrite !arrayvec_ok by (rewrite ?length_take, ?length_drop, ?length_fmap; blia).
    split; [exact Hwl|]. split; [exact Hwr|]. simpl. rewrite length_take, length_drop.
    split; [apply take_drop|blia].
  - rewrite !arrayvec_ok by (rewrite ?length_fmap; blia).
    split; [|simpl; split; [done|rewrite length_app; lia]]. simpl. rewrite <-sum_app, <-fmap_app by (by destruct oits).
    by destruct its.
Qed.

(** Replacing the last child by what the recursive push returned. *)
Lemma last_child_replaced h (init : list tree) lc' ta its :
  Forall (child_ok h) init → child_ok h lc' → Forall (child_ok h) ta →
  (length init < 2 * TREE_BASE)%nat → (length ta ≤ 1)%nat →
  tree_items lc' ++ flat_map tree_items ta = its →
  flat_map tree_items ((init ++ [lc']) ++ ta) = flat_map tree_items init ++ its ∧
  Forall (child_ok h) ((init ++ [lc']) ++ ta) ∧
  (length (init ++ [lc']) ≤ 2 * TREE_BASE)%nat ∧ (length ta ≤ 2 * TREE_BASE)%nat ∧
  init ++ [lc'] ≠ [].
Proof.
  intros Hi Hlc Hta Hli Hlta <-. rewrite !flat_map_app; simpl. rewrite app_nil_r.
  rewrite <-app_assoc. split_and!; auto.
  - rewrite !Forall_app, Forall_singleton. done.
  - rewrite length_app. simpl. lia.
  - blia.
  - by destruct init.
Qed.

(** The last child has taken more items, and may have split. *)
Lemma last_child_pushed h (init : list tree) lc lc' split its :
  Forall (child_ok h) init → child_ok h lc → push_post h (node_len lc) its (lc', split) → (length init < 2 * TREE_BASE)%nat →
  let ta := match split with Some sp => [sp] | None => [] end in
  flat_map tree_items ((init ++ [lc']) ++ ta) = flat_map tree_items init ++ its ∧
  Forall (child_ok h) ((init ++ [lc']) ++ ta) ∧
  (length (init ++ [lc']) ≤ 2 * TREE_BASE)%nat ∧ (length ta ≤ 2 * TREE_BASE)%nat ∧
  init ++ [lc'] ≠ [].
Proof.
  intros Hfi [_ Hocc] [Hlc' Hsp] Hl. simpl in Hlc', Hsp. destruct split as [sp|]; simpl.
  - destruct Hsp as (Hsp & Heq & Hlen1 & Hlen2). apply last_child_replaced; [done|by split|by repeat constructor|done|simpl; lia|simpl; by rewrite app_nil_r].
  - destruct Hsp as [Heq Hlen1]. apply last_child_replaced; [done|split; [done|]; intros; specialize (Hocc ltac:(done)); lia
      |done|done|simpl; lia|simpl; by rewrite app_nil_r].
Qed.

Lemma push_tree_recursive_spec h s ho o :
  wf_at h s → wf_at ho o → (ho ≤ h < 256)%nat →
  ok_with (push_tree_recursive cx s o) (push_post h (node_len s) (tree_items s ++ tree_items o)).
Proof.
  revert s. induction h as [|h IH]; intros s Hs Ho Hh.
  { replace ho with 0%nat in Ho by lia. by apply push_leaf_spec. }
  pose proof (wf_summary _ _ Hs) as Hsum. pose proof (wf_summary _ _ Ho) as Hosum.
  pose proof (wf_items_nonempty _ _ Ho) as Hone.
  destruct s as [ht s css cts|]; simpl in Hs; [|done].
  destruct Hs as (-> & Hne & Hl & -> & -> & Hf).
  cbn [push_tree_recursive]. rewrite (wf_height _ _ Ho), u8_delta by lia.
  assert (Hadd : add_summary cx (sum cx (summary <$> cts)) (summary o) =
            sum cx (summaries (flat_map tree_items cts ++ tree_items o))).
  { rewrite fmap_app, sum_app by (by destruct (tree_items o)).
    rewrite (wf_children_sum h) by done. by rewrite Hosum. }
  destruct (N.eqb_spec (N.of_nat (S h - ho)) 0) as [E|E]; [|].
  - (* equal heights: the children of [other] are appended *)
    replace ho with (S h) in Ho by lia.
    destruct o as [oht os ocss octs|]; simpl in Ho; [|done].
    destruct Ho as (-> & Hone' & Hol & -> & -> & Hof). simpl.
    rewrite !arrayvec_ok by (rewrite ?length_fmap; blia). simpl.
    rewrite <-flat_map_app. apply (push_finish h); auto.
    + by apply Forall_app.
    + simpl in Hadd. by rewrite flat_map_app.
  - destruct ((N.of_nat (S h - ho) =? 1)%N && negb (is_underflowing o)) eqn:E1.
    + (* one level below and at least half full: [other] becomes a child *)
      apply andb_true_iff in E1 as [E1%N.eqb_eq Hu]. replace ho with h in Ho by lia.
      apply ok_with_bind, ok_with_ret. cbn [tree_items node_len]. rewrite <-flat_map_snoc.
      apply (push_finish h _ _ cts [o]); auto.
      * simpl. blia.
      * apply Forall_app. rewrite Forall_singleton. split; [done|].
        apply not_underflowing_child_ok; [done|]. by apply negb_true_iff.
      * by rewrite flat_map_snoc.
    + (* otherwise it goes into the last child *)
      destruct (rev_case cts Hne) as (init & lc & ->).
      apply Forall_app in Hf as [Hfi Hfl]. rewrite Forall_singleton in Hfl.
      assert (ho ≠ S h) by lia.
      rewrite on_last_app. apply ok_with_bind, ok_with_bind, ok_with_bind.
      destruct Hfl as [Hfl Hocc].
      eapply ok_with_mono; [apply (IH lc Hfl Ho); lia|].
      intros [lc' split] [Hlc' Hsp]. simpl in Hlc', Hsp.
      apply ok_with_ret. cbn beta iota. rewrite last_snoc. simpl.
      rewrite (fmap_app summary) in Hadd |- *. simpl. rewrite set_last_app. simpl.
      cbn [tree_items node_len]. rewrite flat_map_snoc in Hadd |- *.
      rewrite length_app in Hl. simpl in Hl.
      replace (length (init ++ [lc])) with (length (init ++ [lc'])) by by rewrite !length_app.
      change [summary lc'] with (summary <$> [lc']). rewrite <-fmap_app.
      rewrite <-app_assoc in Hadd |- *.
      destruct (last_child_pushed h init lc lc' split _ Hfi (conj Hfl Hocc) (conj Hlc' Hsp)) as (Hi & HF & Hl1 & Hl2 & Hn); [blia|].
      rewrite <-Hi in Hadd |- *. destruct split as [sp|]; simpl;
        [by apply (push_finish h _ _ (init ++ [lc']) [sp])|by apply (push_finish h _ _ (init ++ [lc']) [])].
Qed.

(** ** [merge_into_right] and [append_large] *)
Lemma merge_into_right_spec h q small large :
  wf_at h small → wf_at h large →
  ok_with (merge_into_right cx small large)
    (prepend_post h (node_len large) q (tree_items small ++ tree_items large)).
Proof.
  destruct h as [|h], small as [sht ss scss scts|ss sits siss],
    large as [ht s css cts|s its iss]; simpl; try done.
  - intros (Hne & Hl & -> & ->) (Hne' & Hl' & -> & ->). rewrite <-fmap_app.
    rewrite <-length_app.
    assert (Hlen : (length (sits ++ its) ≤ 4 * TREE_BASE)%nat) by (rewrite length_app; blia).
    destruct (Nat.leb_spec (length (sits ++ its)) (2 * TREE_BASE)) as [Hle|Hlt].
    + rewrite !arrayvec_ok by (rewrite ?length_fmap; blia).
      split; [|simpl; split; [done|rewrite length_app; lia]].
      simpl. rewrite <-sum_app, <-fmap_app by (by destruct its). by destruct sits.
    + pose proof (div_ceil_bounds (length (sits ++ its))) as Hmid. cbv zeta in Hmid.
      set (m := ((_ + 1) `div` 2)%nat) in *. destruct Hmid as (? & ? & ? & ?); [blia|].
      destruct (wf_leaf_cut (sits ++ its) m) as (Hwl & Hwr); [blia..|].
      rewrite !arrayvec_ok by (rewrite ?length_take, ?length_drop, ?length_fmap; blia).
      split; [exact Hwr|]. split; [exact Hwl|]. simpl. rewrite length_take, length_drop.
      split; [apply take_drop|blia].
  - intros (-> & Hne & Hl & -> & -> & Hf) (-> & Hne' & Hl' & -> & -> & Hf').
    rewrite <-fmap_app, (Nat.add_comm (length cts)), <-length_app.
    assert (Hlen : (length (scts ++ cts) ≤ 4 * TREE_BASE)%nat) by (rewrite length_app; blia).
    assert (Hff : Forall (child_ok h) (scts ++ cts)) by by apply Forall_app.
    destruct (Nat.leb_spec (length (scts ++ cts)) (2 * TREE_BASE)) as [Hle|Hlt].
    + rewrite !arrayvec_ok by (rewrite ?length_fmap; blia).
      split; [|simpl; split; [by rewrite flat_map_app|rewrite length_app; lia]]. simpl.
      rewrite <-sum_app, <-fmap_app by (by destruct cts). by destruct scts.
    + pose proof (div_ceil_bounds (length (scts ++ cts))) as Hmid. cbv zeta in Hmid.
      set (m := ((_ + 1) `div` 2)%nat) in *. destruct Hmid as (? & ? & ? & ?); [blia|].
      destruct (wf_internal_cut h (N.of_nat (S h)) (scts ++ cts) m) as (Hwl & Hwr & Heq);
        [done|done|blia..|].
      rewrite !arrayvec_ok by (rewrite ?length_take, ?length_drop, ?length_fmap; blia).
      split; [exact Hwr|]. split; [exact Hwl|]. simpl. rewrite Heq, length_take, length_drop.
      split; [by rewrite flat_map_app|blia].
Qed.

(** Prepending to a node whose first child received [small]. *)
Lemma append_large_finish hl s fc rest fc' lt its :
  Forall (child_ok hl) (lt :: fc' :: rest) →
  (S (length rest) ≤ 2 * TREE_BASE)%nat →
  tree_items lt ++ tree_items fc' = its →
  s = sum cx (summaries (its ++ flat_map tree_items rest)) →
  ok_with
    (if (S (length rest) <? 2 * TREE_BASE)%nat then
       css ← arrayvec (summary lt :: summary fc' :: (summary <$> rest));
       cts ← arrayvec (lt :: fc' :: rest);
       Ok (Internal (N.of_nat (S hl)) s css cts, None)
     else
       _ ← assert_that (TREE_BASE <=? length (summary fc' :: (summary <$> rest)))%nat;
       new_css ← arrayvec (summary lt :: take TREE_BASE (summary fc' :: (summary <$> rest)));
       let css := drop TREE_BASE (summary fc' :: (summary <$> rest)) in
       new_cts ← arrayvec (lt :: take TREE_BASE (fc' :: rest));
       let cts := drop TREE_BASE (fc' :: rest) in
       Ok (Internal (N.of_nat (S hl)) (sum cx css) css cts,
           Some (Internal (N.of_nat (S hl)) (sum cx new_css) new_css new_cts)))
    (prepend_post (S hl) (length (fc :: rest)) True (its ++ flat_map tree_items rest)).
Proof.
  intros Hf Hlc <- ->. rewrite <-app_assoc.
  destruct (Nat.ltb_spec (S (length rest)) (2 * TREE_BASE)) as [Hlen|Hlen].
  - rewrite !arrayvec_ok by (simpl; rewrite ?length_fmap; blia). simpl.
    split; [|simpl; split; [done|lia]]. split_and!; auto; try (simpl; blia).
    symmetry. by apply (wf_children_sum hl (lt :: fc' :: rest)).
  - unfold assert_that. rewrite (proj2 (Nat.leb_le _ _)) by (simpl; rewrite length_fmap; blia).
    rewrite !arrayvec_ok by (cbn [length]; rewrite ?length_take; cbn [length]; rewrite ?length_fmap; blia).
    destruct (wf_internal_cut hl (N.of_nat (S hl)) (lt :: fc' :: rest) (S TREE_BASE))
      as (Hwl & Hwr & Hcut); [done|done|simpl; blia..|].
    split; [exact Hwr|]. split; [exact Hwl|]. split; [exact Hcut|].
    cbn [node_len fst snd length]. rewrite length_take, length_drop. cbn [length]. blia.
Qed.

Lemma append_large_spec hs small hl large :
  wf_at hs small → wf_at hl large → (hs ≤ hl)%nat →
  ok_with (append_large cx small large)
    (prepend_post hl (node_len large) (hs ≠ hl ∨ (TREE_BASE ≤ node_len large)%nat)
       (tree_items small ++ tree_items large)).
Proof.
  intros Hs. revert large. induction hl as [|hl IH]; intros large Hl Hh.
  - replace hs with 0%nat in * by lia. destruct large as [|s its iss]; [done|].
    cbn [append_large]. rewrite (wf_height _ _ Hs). simpl (_ =? _)%N. cbn iota.
    rewrite is_underflowing_len. destruct (Nat.ltb_spec (node_len small) TREE_BASE); simpl.
    + by apply (merge_into_right_spec 0).
    + split; [done|]. split_and!; [done|done|done|by intros []].
  - destruct large as [ht s css cts|]; [|done].
    cbn [append_large]. rewrite (wf_height _ _ Hs), (wf_height _ _ Hl).
    destruct (N.eqb_spec (N.of_nat hs) (N.of_nat (S hl))) as [E|E].
    { replace hs with (S hl) in * by lia.
      rewrite is_underflowing_len. destruct (Nat.ltb_spec (node_len small) TREE_BASE); cbn [negb].
      - by apply merge_into_right_spec.
      - apply ok_with_ret; split; [done|]. split_and!; [done|done|done|by intros []]. }
    pose proof (wf_summary _ _ Hs) as Hssum.
    destruct Hl as (-> & Hne & Hlc & -> & -> & Hf).
    destruct cts as [|fc rest]; [done|]. pose proof Hf as Hf0.
    apply Forall_cons in Hf as [[Hfc Hocc] Hf].
    assert (Hadd : add_summary cx (summary small) (sum cx (summary <$> fc :: rest)) =
              sum cx (summaries (tree_items small ++ flat_map tree_items (fc :: rest)))).
    { rewrite (wf_children_sum hl) by done.
      assert (flat_map tree_items (fc :: rest) ≠ []).
      { simpl. pose proof (wf_items_nonempty _ _ Hfc). by destruct (tree_items fc). }
      rewrite fmap_app, sum_app by (by destruct (flat_map _ _)). by rewrite Hssum. }
    unfold on_first. apply ok_with_bind, ok_with_bind.
    eapply ok_with_mono; [apply (IH fc Hfc); lia|].
    intros [fc' res] [Hfc' Hres]. simpl in Hfc', Hres. apply ok_with_ret. cbn beta iota.
    simpl in Hadd, Hlc. cbn [tree_items flat_map]. rewrite app_assoc in Hadd |- *.
    destruct res as [lt|].
    + destruct Hres as (Hlt & Heq & Hl1 & Hl2).
      eapply ok_with_mono.
      { apply (append_large_finish hl _ fc rest fc' lt (tree_items small ++ tree_items fc));
          [|done..]. repeat constructor; auto. }
      intros r [Hr1 Hr2]. split; [done|]. destruct (r.2); [|done]. naive_solver.
    + destruct Hres as [Heq Hl1]. rewrite <-Heq in Hadd |- *.
      assert (Hf' : Forall (child_ok hl) (fc' :: rest)).
      { constructor; [|done]. split; [done|]. intros. specialize (Hocc ltac:(done)). lia. }
      split; [|simpl; split; [done|lia]]. split_and!; auto. simpl.
      rewrite Hadd. symmetry. by apply (wf_children_sum hl (fc' :: rest)).
Qed.

(** ** [append] and what is built on it *)
Lemma from_child_trees_spec h lt rt :
  wf_at h lt → wf_at h rt →
  (TREE_BASE ≤ node_len lt)%nat → (TREE_BASE ≤ node_len rt)%nat → (h < 255)%nat →
  ok_with (from_child_trees cx lt rt)
    (fun t => wf_at (S h) t ∧ tree_items t = tree_items lt ++ tree_items rt).
Proof.
  intros Hl Hr Hl1 Hl2 Hh. unfold from_child_trees.
  rewrite !arrayvec_ok by (simpl; blia). simpl. rewrite (wf_height _ _ Hl).
  rewrite u8_wrap_small by lia. split; [|by rewrite app_nil_r].
  apply (wf_internal h _ [lt; rt]); simpl; try done; [lia|blia|].
  by repeat constructor.
Qed.

(** Each node of height [d] or more below the root has at least [TREE_BASE]
    children, so the height is logarithmic in the number of items above [d]. *)
Lemma flat_map_length_ge (n : N) (cts : list tree) :
  Forall (fun c => (n <= N.of_nat (length (tree_items c)))%N) cts →
  (N.of_nat (length cts) * n <= N.of_nat (length (flat_map tree_items cts)))%N.
Proof.
  induction 1 as [|c cts Hc _ IH]; simpl; [lia|]. rewrite length_app. lia.
Qed.

Lemma child_size h c :
  child_ok h c →
  ((N.of_nat TREE_BASE) ^ (N.of_nat (S h) - N.of_nat d) <= N.of_nat (length (tree_items c)))%N.
Proof.
  revert c. induction h as [|h IH]; intros c [Hc Hocc].
  - destruct c as [|s its iss]; [done|]. simpl in *. destruct Hc as (Hne & _).
    destruct (decide (d ≤ 0)%nat) as [->%Nat.le_0_r|].
    + specialize (Hocc ltac:(lia)). replace (_ - _)%N with 1%N by lia. rewrite N.pow_1_r. lia.
    + replace (_ - _)%N with 0%N by lia. destruct its; simpl; [done|lia].
  - destruct c as [ht s css cts|]; [|done]. destruct Hc as (_ & Hne & _ & _ & _ & Hf).
    simpl in Hocc. cbn [tree_items].
    pose proof (flat_map_length_ge _ cts (Forall_impl _ _ _ Hf IH)) as Hge.
    eapply N.le_trans; [|exact Hge].
    destruct (decide (d ≤ S h)%nat) as [Hd|Hd].
    + specialize (Hocc Hd).
      replace (N.of_nat (S (S h)) - N.of_nat d)%N with (N.succ (N.of_nat (S h) - N.of_nat d)) by lia.
      rewrite N.pow_succ_r'. apply N.mul_le_mono_r. lia.
    + replace (N.of_nat (S (S h)) - N.of_nat d)%N with 0%N by lia.
      replace (N.of_nat (S h) - N.of_nat d)%N with 0%N by lia.
      rewrite N.pow_0_r. destruct cts; simpl; [done|lia].
Qed.

Lemma wf_size h t :
  wf_at h t →
  ((N.of_nat TREE_BASE) ^ (N.of_nat h - N.of_nat d) <= N.of_nat (length (tree_items t)))%N.
Proof.
  destruct h as [|h]; intros Ht.
  - replace (_ - _)%N with 0%N by lia. pose proof (wf_items_nonempty _ _ Ht).
    destruct (tree_items t); simpl; [done|lia].
  - destruct t as [ht s css cts|]; [|done]. destruct Ht as (_ & Hne & _ & _ & _ & Hf).
    destruct cts as [|c cts]; [done|]. apply Forall_cons in Hf as [Hc _].
    cbn [tree_items flat_map]. rewrite length_app.
    pose proof (child_size h c Hc). lia.
Qed.

(** A sequence short enough that a tree for it stays below height [n]. *)
Definition fits (n : nat) (its : list T) : Prop :=
  (d ≤ n)%nat ∧ (N.of_nat (length its) < (N.of_nat TREE_BASE) ^ (N.of_nat n - N.of_nat d))%N.

Lemma wf_fits_height n h t : wf_at h t → fits n (tree_items t) → (h < n)%nat.
Proof.
  intros Ht [Hd Hf]. pose proof (wf_size _ _ Ht) as Hs.
  destruct (decide (h < n)%nat); [done|]. exfalso.
  assert (N.of_nat TREE_BASE ^ (N.of_nat n - N.of_nat d) <=
          N.of_nat TREE_BASE ^ (N.of_nat h - N.of_nat d))%N.
  { apply N.pow_le_mono_r; [done|lia]. }
  lia.
Qed.

Lemma fits_app_l n (k l : list T) : fits n (k ++ l) → fits n k.
Proof. intros [? H]. split; [done|]. rewrite length_app in H. lia. Qed.
Lemma fits_app_r n (k l : list T) : fits n (k ++ l) → fits n l.
Proof. intros [? H]. split; [done|]. rewrite length_app in H. lia. Qed.
Lemma fits_length n (k l : list T) : (length k ≤ length l)%nat → fits n l → fits n k.
Proof. intros ? [? H]. split; [done|]. lia. Qed.

Lemma append_spec s o :
  tree_wf s → tree_wf o → fits 255 (tree_items s ++ tree_items o) →
  ok_with (append cx s o)
    (fun t => tree_wf t ∧ tree_items t = tree_items s ++ tree_items o).
Proof.
  intros [->|(hs & _ & Hs)] Ho Hfit; [done|].
  unfold append. rewrite (wf_not_empty _ _ Hs).
  destruct Ho as [->|(ho & _ & Ho)].
  { simpl. split; [right; exists hs; split; [|done]|by rewrite app_nil_r].
    apply fits_app_l in Hfit. pose proof (wf_fits_height _ _ _ Hs Hfit). lia. }
  pose proof (wf_fits_height _ _ _ Hs (fits_app_l _ _ _ Hfit)).
  pose proof (wf_fits_height _ _ _ Ho (fits_app_r _ _ _ Hfit)).
  apply ok_with_bind. eapply (ok_with_mono _ (fun b => b = false)).
  { pose proof (wf_not_empty _ _ Ho). by destruct o as [|? []]. }
  intros ? ->. rewrite (wf_height _ _ Hs), (wf_height _ _ Ho).
  destruct (N.ltb_spec (N.of_nat hs) (N.of_nat ho)); apply ok_with_bind.
  - eapply ok_with_mono; [apply (append_large_spec hs s ho o); auto; lia|].
    intros [o' [lt|]] [Ho' Hres]; simpl in Ho', Hres.
    + destruct Hres as (Hlt & <- & Hl1 & Hl2).
      eapply ok_with_mono; [apply (from_child_trees_spec ho); auto; apply Hl2; lia|].
      intros t [Ht ?]. split; [|done]. right. exists (S ho). split; [lia|done].
    + destruct Hres as [? _]. split; [|done]. right. exists ho. split; [lia|done].
  - eapply ok_with_mono; [apply (push_tree_recursive_spec hs s ho o); auto; lia|].
    intros [s' [rt|]] [Hs' Hres]; simpl in Hs', Hres.
    + destruct Hres as (Hrt & <- & Hl1 & Hl2).
      eapply ok_with_mono; [by apply (from_child_trees_spec hs)|].
      intros t [Ht ?]. split; [|done]. right. exists (S hs). split; [lia|done].
    + destruct Hres as [? _]. split; [|done]. right. exists hs. split; [lia|done].
Qed.

Lemma wf_push_leaf item :
  tree_wf (Leaf (item_summary_of cx item) [item] [item_summary_of cx item]).
Proof.
  right. exists 0%nat. split; [lia|]. simpl.
  split_and!; [done|blia|done|]. by rewrite sum_singleton.
Qed.

Lemma push_spec s item :
  tree_wf s → fits 255 (tree_items s ++ [item]) →
  ok_with (push cx s item)
    (fun t => tree_wf t ∧ tree_items t = tree_items s ++ [item]).
Proof. intros Hs Hn. by apply append_spec; [|apply wf_push_leaf|]. Qed.

(** ** [from_iter] and [from_par_iter] *)
Lemma chunks_nil {A} fuel n : chunks fuel n ([] : list A) = [].
Proof. by destruct fuel. Qed.

Lemma chunks_fuel {A} f g n (l : list A) :
  (0 < n)%nat → (length l ≤ f)%nat → (length l ≤ g)%nat → chunks f n l = chunks g n l.
Proof.
  intros Hn. revert g l. induction f as [|f IH]; intros g [|x l] Hf Hg; simpl in *; try lia;
    [by rewrite chunks_nil..|].
  destruct g as [|g]; [lia|]. destruct n as [|n]; [lia|]. simpl. f_equal.
  apply IH; rewrite length_drop; lia.
Qed.

Lemma omap_outcome_ok {A B} (f : A → outcome B) (P : A → B → Prop) (l : list A) :
  Forall (fun a => ok_with (f a) (P a)) l → ok_with (omap_outcome f l) (Forall2 P l).
Proof.
  induction 1 as [|a l Ha _ IH]; simpl; [done|].
  apply ok_with_bind. eapply ok_with_mono; [exact Ha|]. intros b Hb.
  apply ok_with_bind. eapply ok_with_mono; [exact IH|]. intros bs Hbs. by constructor.
Qed.

(** The facts about [chunks] used below, with enough fuel. *)
Lemma chunks_spec {A} f n (l : list A) :
  (0 < n)%nat → (length l ≤ f)%nat →
  concat (chunks f n l) = l ∧
  Forall (fun c => c ≠ [] ∧ (length c ≤ n)%nat) (chunks f n l) ∧
  (length l ≤ n * length (chunks f n l) < length l + n)%nat.
Proof.
  intros Hn. revert l. induction f as [|f IH]; intros [|x l] Hf;
    [simpl; split_and!; auto; lia|simpl in *; lia|simpl; split_and!; auto; lia|].
  assert (Hd : (length (drop n (x :: l)) ≤ f)%nat).
  { rewrite length_drop. simpl in *. lia. }
  destruct (IH _ Hd) as (Hc & Hfa & Hl1 & Hl2).
  cbn [chunks concat length]. rewrite Hc. split_and!.
  - apply take_drop.
  - constructor; [|done]. rewrite length_take. split; [by destruct n; [lia|]|lia].
  - rewrite length_drop in Hl1. simpl in *. lia.
  - rewrite length_drop in Hl1, Hl2. simpl in *.
    destruct (decide (n ≤ S (length l))%nat); [lia|].
    assert (drop n (x :: l) = []) as E by (apply drop_ge; simpl; lia).
    rewrite E, chunks_nil. simpl. lia.
Qed.

(** The parent [from_iter] is filling, given the children it has so far. *)
Definition partial_parent (h : N) (cts : list tree) : option tree :=
  match cts with
  | [] => None
  | _ => Some (Internal h (sum cx (summary <$> cts)) (summary <$> cts) cts)
  end.

Lemma push_child_partial h (cts : list tree) c :
  (length cts < 2 * TREE_BASE)%nat →
  push_child cx h (partial_parent h cts) c =
  Ok (Internal h (sum cx (summary <$> (cts ++ [c]))) (summary <$> (cts ++ [c])) (cts ++ [c])).
Proof.
  intros Hl. unfold push_child.
  assert (default (Internal h (zero cx) [] []) (partial_parent h cts) =
          Internal h (sum cx (summary <$> cts)) (summary <$> cts) cts) as -> by by destruct cts.
  rewrite !arrayvec_ok by (rewrite length_app, ?length_fmap; simpl; lia). simpl.
  rewrite fmap_app. simpl. unfold sum. by rewrite foldl_app.
Qed.

Lemma par_parent_ok h (cts : list tree) :
  cts ≠ [] → (length cts ≤ 2 * TREE_BASE)%nat →
  par_parent cx h cts = Ok (Internal h (sum cx (summary <$> cts)) (summary <$> cts) cts).
Proof.
  intros Hne Hl. unfold par_parent. rewrite arrayvec_ok by done. simpl.
  destruct cts; [done|]. simpl. by rewrite sum_cons.
Qed.

Lemma from_iter_level_chunks h (cts ps nodes : list tree) f :
  (length cts < 2 * TREE_BASE)%nat → (length (cts ++ nodes) ≤ f)%nat →
  from_iter_level cx h (partial_parent h cts) ps nodes =
  (rest ← omap_outcome (par_parent cx h) (chunks f (2 * TREE_BASE) (cts ++ nodes)); Ok (ps ++ rest)).
Proof.
  revert cts ps f. induction nodes as [|c nodes IH]; intros cts ps f Hl Hf.
  - rewrite app_nil_r in *. simpl. destruct cts as [|c cts]; [by rewrite chunks_nil|].
    destruct f as [|f]; [simpl in *; lia|]. cbn [chunks].
    rewrite take_ge, drop_ge, chunks_nil by (simpl in *; lia). simpl.
    rewrite par_parent_ok by (simpl in *; try done; lia). done.
  - cbn [from_iter_level]. rewrite push_child_partial by done. cbn [mbind outcome_bind child_trees].
    destruct (Nat.eqb_spec (length (cts ++ [c])) (2 * TREE_BASE)) as [E|E].
    + change None with (partial_parent h []).
      replace (cts ++ c :: nodes) with ((cts ++ [c]) ++ nodes) in * by by rewrite <-app_assoc.
      rewrite length_app in Hf. destruct f as [|f]; [blia|].
      rewrite (IH [] _ f) by (simpl; blia).
      assert (chunks (S f) (2 * TREE_BASE) ((cts ++ [c]) ++ nodes) =
              (cts ++ [c]) :: chunks f (2 * TREE_BASE) nodes) as ->.
      { destruct ((cts ++ [c]) ++ nodes) as [|x l] eqn:El; [by destruct cts|].
        cbn [chunks]. rewrite <-El, <-E.
        by rewrite take_app_length, drop_app_length. }
      cbn [omap_outcome]. rewrite par_parent_ok by (try lia; by destruct cts). simpl.
      destruct (omap_outcome _ _); simpl; [|done]. by rewrite <-app_assoc.
    + assert (Hlen : (length (cts ++ [c]) < 2 * TREE_BASE)%nat).
      { rewrite length_app in *. simpl in *. lia. }
      assert (Some (Internal h (sum cx (summary <$> cts ++ [c])) (summary <$> cts ++ [c]) (cts ++ [c]))
              = partial_parent h (cts ++ [c])) as -> by by destruct cts.
      rewrite (IH (cts ++ [c]) ps f) by (rewrite <-?app_assoc; done).
      by rewrite <-app_assoc.
Qed.

Lemma par_leaf_ok (c : list T) :
  (length c ≤ 2 * TREE_BASE)%nat → par_leaf cx c = leaf_of_items cx c.
Proof. intros. unfold par_leaf. by rewrite arrayvec_ok. Qed.

Lemma from_iter_leaves_chunks f its :
  (length its ≤ f)%nat →
  from_iter_leaves cx f its = omap_outcome (par_leaf cx) (chunks f (2 * TREE_BASE) its).
Proof.
  revert its. induction f as [|f IH]; intros [|x its] Hf; simpl in Hf; try done; [lia|].
  cbn [from_iter_leaves chunks omap_outcome].
  rewrite par_leaf_ok by (rewrite length_take; lia).
  by rewrite IH by (rewrite length_drop; simpl; blia).
Qed.

Lemma from_iter_loop_par f h (nodes : list tree) :
  from_iter_loop cx f h nodes = from_par_iter_loop cx f h nodes.
Proof.
  revert h nodes. induction f as [|f IH]; intros h nodes; simpl; [done|].
  destruct (1 <? length nodes)%nat; [|done].
  pose proof (from_iter_level_chunks (u8_wrap (h + 1)) [] [] nodes (length nodes)) as E.
  cbn [partial_parent] in E. rewrite E by (simpl; blia).
  simpl. destruct (omap_outcome _ _); simpl; auto.
Qed.

(** The sequential and the parallel constructions build the same tree. *)
Lemma from_iter_par its : from_iter cx its = from_par_iter cx its.
Proof.
  unfold from_iter, from_par_iter. rewrite from_iter_leaves_chunks by done.
  destruct (omap_outcome _ _) as [nodes|]; [|done]. simpl. by rewrite from_iter_loop_par.
Qed.

Lemma leaf_of_items_ok (c : list T) :
  c ≠ [] → leaf_of_items cx c = Ok (Leaf (sum cx (summaries c)) c (summaries c)).
Proof. destruct c; [done|]. intros _. unfold leaf_of_items. simpl. by rewrite sum_cons. Qed.

Lemma par_leaf_spec (c : list T) :
  c ≠ [] ∧ (length c ≤ 2 * TREE_BASE)%nat →
  ok_with (par_leaf cx c) (fun t => wf_at 0 t ∧ tree_items t = c).
Proof.
  intros [Hne Hl]. rewrite par_leaf_ok, leaf_of_items_ok by done.
  split; [by apply wf_leaf|done].
Qed.

Lemma par_parent_spec h cts :
  (h < d)%nat → (h < 255)%nat → Forall (wf_at h) cts →
  cts ≠ [] ∧ (length cts ≤ 2 * TREE_BASE)%nat →
  ok_with (par_parent cx (N.of_nat (S h)) cts)
    (fun t => wf_at (S h) t ∧ tree_items t = flat_map tree_items cts).
Proof.
  intros Hd Hh Hf [Hne Hl]. rewrite par_parent_ok by done.
  split; [|done]. apply wf_internal; auto.
  eapply Forall_impl; [exact Hf|]. intros c Hc. split; [done|lia].
Qed.

Lemma Forall2_items (cs : list (list T)) (ts : list tree) (P : tree → Prop) :
  Forall2 (fun c t => P t ∧ tree_items t = c) cs ts →
  Forall P ts ∧ flat_map tree_items ts = concat cs ∧ length ts = length cs.
Proof. induction 1 as [|c t cs ts [? <-] _ (? & ? & ?)]; simpl; split_and!; auto; congruence. Qed.

(** One round of the loop: [ceil(m / 12)] parents for [m] nodes. *)
Lemma par_level_spec h nodes :
  (h < d)%nat → (h < 255)%nat → Forall (wf_at h) nodes →
  ok_with (omap_outcome (par_parent cx (N.of_nat (S h)))
             (chunks (length nodes) (2 * TREE_BASE) nodes))
    (fun ps => Forall (wf_at (S h)) ps ∧
       flat_map tree_items ps = flat_map tree_items nodes ∧
       (length nodes ≤ 2 * TREE_BASE * length ps < length nodes + 2 * TREE_BASE)%nat).
Proof.
  intros Hd Hh Hf.
  destruct (chunks_spec (length nodes) (2 * TREE_BASE) nodes) as (Hc & Hfc & Hlen);
    [blia|done|].
  set (cs := chunks _ _ _) in *.
  assert (Hall : Forall (Forall (wf_at h)) cs) by (rewrite <-Hc in Hf; by apply Forall_concat).
  eapply ok_with_mono.
  { apply (omap_outcome_ok _ (fun c t => wf_at (S h) t ∧ tree_items t = flat_map tree_items c)).
    apply Forall_forall. intros c Hin. rewrite Forall_forall in Hfc, Hall.
    by apply par_parent_spec; auto. }
  intros ps Hps.
  assert (Hps' : Forall2 (fun c t => wf_at (S h) t ∧ tree_items t = c)
            (flat_map tree_items <$> cs) ps) by by apply Forall2_fmap_l.
  apply Forall2_items in Hps' as (HF & Hi & Hl). rewrite length_fmap in Hl.
  split; [done|]. split; [|lia]. rewrite Hi, <-Hc. clear.
  induction cs as [|c cs IH]; simpl; [done|]. by rewrite flat_map_app, <-IH.
Qed.

Lemma par_loop_spec k f h nodes :
  d = (h + k)%nat → (d < 256)%nat → Forall (wf_at h) nodes → (length nodes ≤ f)%nat →
  (N.of_nat (length nodes) <= N.of_nat (2 * TREE_BASE) ^ N.of_nat k)%N →
  ok_with (from_par_iter_loop cx f (N.of_nat h) nodes)
    (fun ns => (length ns ≤ 1)%nat ∧ flat_map tree_items ns = flat_map tree_items nodes ∧
       ∃ h', (h' ≤ d)%nat ∧ Forall (wf_at h') ns).
Proof.
  intros Hdk Hd256. revert f h nodes Hdk.
  induction k as [|k IH]; intros f h nodes Hdk Hf Hfuel Hlen.
  - rewrite N.pow_0_r in Hlen. destruct f; simpl;
      (destruct (Nat.ltb_spec 1 (length nodes)); [lia|]); simpl;
      (split; [lia|split; [done|]]; exists h; split; [lia|done]).
  - destruct f as [|f]; simpl; destruct (Nat.ltb_spec 1 (length nodes)) as [Hlt|Hge]; try lia;
      try (split; [lia|split; [done|]]; exists h; split; [lia|done]).
    rewrite u8_wrap_small by lia.
    replace (N.of_nat h + 1)%N with (N.of_nat (S h)) by lia.
    apply ok_with_bind. eapply ok_with_mono; [apply par_level_spec; [lia|lia|done]|].
    intros ps (HF & Hi & Hl1 & Hl2). rewrite <-Hi. apply IH; [lia|done|blia|].
    rewrite Nat2N.inj_succ, N.pow_succ_r' in Hlen.
    set (p := (N.of_nat (2 * TREE_BASE) ^ N.of_nat k)%N) in *.
    unfold TREE_BASE in *. lia.
Qed.

(** [from_iter] on a sequence that fits a tree of height [d]. *)
Lemma from_iter_spec its :
  (d < 256)%nat → (N.of_nat (length its) <= N.of_nat (2 * TREE_BASE) ^ N.of_nat (S d))%N →
  ok_with (from_iter cx its) (fun t => tree_wf t ∧ tree_items t = its).
Proof.
  intros Hd Hlen. rewrite from_iter_par. unfold from_par_iter.
  destruct (chunks_spec (length its) (2 * TREE_BASE) its) as (Hc & Hfc & Hl1 & Hl2);
    [blia|done|].
  set (cs := chunks _ _ _) in *. apply ok_with_bind. eapply ok_with_mono.
  { apply (omap_outcome_ok _ (fun c t => wf_at 0 t ∧ tree_items t = c)).
    eapply Forall_impl; [exact Hfc|]. apply par_leaf_spec. }
  intros nodes (HF & Hi & Hl)%Forall2_items. apply ok_with_bind. eapply ok_with_mono.
  { apply (par_loop_spec d _ 0); [lia|done|done|done|].
    rewrite Nat2N.inj_succ, N.pow_succ_r' in Hlen.
    set (p := (N.of_nat (2 * TREE_BASE) ^ N.of_nat d)%N) in *. unfold TREE_BASE in *. lia. }
  intros ns (Hn & Hi' & h' & Hh' & HF'). rewrite Hi, Hc in Hi'.
  destruct ns as [|t [|]]; simpl in *; [|rewrite app_nil_r in Hi'|lia].
  - split; [by left|done].
  - apply Forall_cons in HF' as [Ht _]. split; [|done]. right. exists h'. split; [lia|done].
Qed.

Lemma extend_spec s its :
  tree_wf s → (N.of_nat (length its) <= N.of_nat (2 * TREE_BASE) ^ N.of_nat (S d))%N →
  fits 255 (tree_items s ++ its) →
  ok_with (extend cx s its) (fun t => tree_wf t ∧ tree_items t = tree_items s ++ its).
Proof.
  intros Hs Hl Hfit. unfold extend. apply ok_with_bind. eapply ok_with_mono.
  { apply from_iter_spec; [destruct Hfit; lia|done]. }
  intros o [Ho <-]. by apply append_spec.
Qed.

(** ** Both ends of a tree *)
Lemma rightmost_leaf_snoc ht s css (init : list tree) c :
  rightmost_leaf (Internal ht s css (init ++ [c])) = rightmost_leaf c.
Proof.
  induction init as [|x init IH]; [done|]. simpl in *.
  destruct (init ++ [c]) eqn:E; [by destruct init|]. exact IH.
Qed.

Lemma rightmost_leaf_spec h t :
  wf_at h t →
  ok_with (rightmost_leaf t) (fun leaf => ∃ its s iss, leaf = Leaf s its iss ∧
     iss = summaries its ∧ its ≠ [] ∧ ∃ pre, tree_items t = pre ++ its).
Proof.
  revert t. induction h as [|h IH]; intros [ht s css cts|s its iss] Ht; try done.
  - destruct Ht as (Hne & _ & -> & _). simpl. exists its, s, (summaries its).
    split_and!; auto. by exists [].
  - destruct Ht as (_ & Hne & _ & _ & _ & Hf).
    destruct (rev_case cts Hne) as (init & c & ->). rewrite rightmost_leaf_snoc.
    apply Forall_app in Hf as [_ Hf]. rewrite Forall_singleton in Hf. destruct Hf as [Hc _].
    eapply ok_with_mono; [by apply IH|].
    intros leaf (its & s' & iss & -> & ? & ? & pre & Hp). exists its, s', iss.
    split_and!; auto. cbn [tree_items]. rewrite flat_map_snoc, Hp.
    exists (flat_map tree_items init ++ pre). by rewrite app_assoc.
Qed.

Lemma leftmost_leaf_spec h t :
  wf_at h t →
  ok_with (leftmost_leaf t) (fun leaf => ∃ its s iss, leaf = Leaf s its iss ∧
     iss = summaries its ∧ its ≠ [] ∧ ∃ post, tree_items t = its ++ post).
Proof.
  revert t. induction h as [|h IH]; intros [ht s css cts|s its iss] Ht; try done.
  - destruct Ht as (Hne & _ & -> & _). simpl. exists its, s, (summaries its).
    split_and!; auto. exists []. by rewrite app_nil_r.
  - destruct Ht as (_ & Hne & _ & _ & _ & Hf). destruct cts as [|c cts]; [done|].
    apply Forall_cons in Hf as [[Hc _] _]. cbn [leftmost_leaf].
    eapply ok_with_mono; [by apply IH|].
    intros leaf (its & s' & iss & -> & ? & ? & post & Hp). exists its, s', iss.
    split_and!; auto. cbn [tree_items]. simpl. rewrite Hp.
    exists (post ++ flat_map tree_items cts). by rewrite app_assoc.
Qed.

Lemma last_app_ne {A} (l k : list A) : k ≠ [] → last (l ++ k) = last k.
Proof. intros Hk. rewrite last_app. destruct (last k) eqn:E; [done|]. by apply last_None in E. Qed.

Lemma tree_last_at h t : wf_at h t → tree_last t = Ok (last (tree_items t)).
Proof.
  intros Ht. unfold tree_last.
  destruct (ok_with_inv _ _ (rightmost_leaf_spec h t Ht))
    as (leaf & -> & its & s & iss & -> & _ & Hne & pre & ->).
  simpl. by rewrite last_app_ne.
Qed.

Lemma tree_last_spec t : tree_wf t → tree_last t = Ok (last (tree_items t)).
Proof. intros [->|(h & _ & Ht)]; [done|by eapply tree_last_at]. Qed.

Lemma tree_first_spec t : tree_wf t → tree_first t = Ok (head (tree_items t)).
Proof.
  intros [->|(h & _ & Ht)]; [done|]. unfold tree_first.
  destruct (ok_with_inv _ _ (leftmost_leaf_spec h t Ht))
    as (leaf & -> & its & s & iss & -> & _ & Hne & post & ->).
  simpl. by destruct its.
Qed.

Lemma last_summary_spec t :
  tree_wf t → last_summary t = Ok (item_summary_of cx <$> last (tree_items t)).
Proof.
  intros [->|(h & _ & Ht)]; [done|]. unfold last_summary.
  destruct (ok_with_inv _ _ (rightmost_leaf_spec h t Ht))
    as (leaf & -> & its & s & iss & -> & -> & Hne & pre & ->).
  simpl. by rewrite last_app_ne, fmap_last.
Qed.

(** Replacing one item inside the first or last child. *)
Lemma update_last_at f h t init x :
  wf_at h t → tree_items t = init ++ [x] →
  ok_with (update_last_recursive cx f t)
    (fun r => wf_at h r.1 ∧ node_len r.1 = node_len t ∧
              tree_items r.1 = init ++ [f x] ∧ r.2 = Some (summary r.1)).
Proof.
  revert t init. induction h as [|h IH]; intros [ht s css cts|s its iss] init Ht Hi; try done.
  - destruct Ht as (Hne & Hl & -> & ->). simpl in Hi. subst its.
    cbn [update_last_recursive]. rewrite fmap_last, last_snoc. simpl.
    rewrite fmap_app. simpl. rewrite !set_last_app. simpl.
    rewrite !length_app in *. simpl in *.
    split_and!; try done; [by destruct init|by rewrite fmap_app].
  - destruct Ht as (-> & Hne & Hl & -> & -> & Hf).
    destruct (rev_case cts Hne) as (cinit & c & ->). cbn [tree_items] in Hi.
    rewrite flat_map_snoc in Hi.
    apply Forall_app in Hf as [Hfi Hf]. rewrite Forall_singleton in Hf. destruct Hf as [Hc Hocc].
    destruct (rev_case (tree_items c)) as (ci & y & Hci); [by eapply wf_items_nonempty|].
    rewrite Hci, app_assoc in Hi. apply app_inj_tail in Hi as [<- ->].
    cbn [update_last_recursive]. rewrite on_last_app.
    apply ok_with_bind, ok_with_bind. eapply ok_with_mono; [by apply (IH c ci)|].
    intros [c' res] (Hc' & Hlen & Hi' & Hres). simpl in Hc', Hlen, Hi', Hres. subst res.
    rewrite fmap_app. simpl. rewrite set_last_app. simpl.
    assert (Hs : (summary <$> cinit) ++ [summary c'] = summary <$> (cinit ++ [c']))
      by by rewrite fmap_app.
    rewrite Hs. split; [|split; [|split; [|done]]].
    + rewrite length_app in Hl. apply wf_internal; [done|by destruct cinit|by rewrite length_app|].
      apply Forall_app. split; [done|]. rewrite Forall_singleton. split; [done|]. by rewrite Hlen.
    + simpl. by rewrite !length_app.
    + cbn [tree_items fst]. by rewrite flat_map_snoc, Hi', app_assoc.
Qed.

Lemma update_first_at f h t x rest :
  wf_at h t → tree_items t = x :: rest →
  ok_with (update_first_recursive cx f t)
    (fun r => wf_at h r.1 ∧ node_len r.1 = node_len t ∧
              tree_items r.1 = f x :: rest ∧ r.2 = Some (summary r.1)).
Proof.
  revert t rest. induction h as [|h IH]; intros [ht s css cts|s its iss] rest Ht Hi; try done.
  - destruct Ht as (Hne & Hl & -> & ->). simpl in Hi. subst its. simpl. split_and!; done.
  - destruct Ht as (-> & Hne & Hl & -> & -> & Hf). destruct cts as [|c cts]; [done|].
    cbn [tree_items flat_map] in Hi. apply Forall_cons in Hf as [[Hc Hocc] Hf].
    pose proof (wf_items_nonempty _ _ Hc) as Hcne.
    destruct (tree_items c) as [|y ci] eqn:Hci; [done|]. simpl in Hi. injection Hi as -> <-.
    cbn [update_first_recursive on_first].
    apply ok_with_bind, ok_with_bind. eapply ok_with_mono; [by apply (IH c ci)|].
    intros [c' res] (Hc' & Hlen & Hi' & Hres). simpl in Hc', Hlen, Hi', Hres. subst res. simpl.
    split_and!; try done; [|by rewrite Hi'].
    constructor; [|done]. split; [done|]. by rewrite Hlen.
Qed.
End facts.

Section occupancy.
Context {T Sm Cx : Type} `{!Summary Sm Cx, !Item T Sm Cx} (cx : Cx).

(** A weaker occupancy guarantee is implied by a stronger one. *)
Lemma wf_at_mono d d' h (t : SumTree T Sm) : (d ≤ d')%nat → wf_at cx d h t → wf_at cx d' h t.
Proof.
  intros Hd. revert t. induction h as [|h IH]; intros [ht s css cts|s its iss]; simpl; try done.
  intros (? & ? & ? & ? & ? & Hf). split_and!; auto.
  eapply Forall_impl; [exact Hf|]. intros c [Hc Ho]. split; [by apply IH|].
  intros. apply Ho. lia.
Qed.

Lemma tree_wf_mono d d' (t : SumTree T Sm) : (d ≤ d')%nat → tree_wf cx d t → tree_wf cx d' t.
Proof.
  intros Hd [?|(h & ? & Ht)]; [by left|right]. exists h. split; [done|]. by eapply wf_at_mono.
Qed.

Lemma fits_mono d n n' (its : list T) : (n ≤ n')%nat → fits d n its → fits d n' its.
Proof.
  intros Hn [Hd Hl]. split; [lia|]. eapply N.lt_le_trans; [exact Hl|].
  apply N.pow_le_mono_r; [done|lia].
Qed.
End occupancy.
#[export] Hint Resolve wf_new tree_wf_mono : zode.

(** ** An instance used by the witnesses: numbers summarised by their total *)
#[export] Instance total_summary : Summary N unit :=
  {| zero _ := 0%N; add_summary _ a b := (a + b)%N |}.
#[export] Instance total_item : Item N N unit := fun _ n => n.
#[export] Instance total_laws : SummaryLaws (Sm:=N) tt.
Proof. split; intros; simpl; lia. Qed.

(** A tree of two levels: [0 .. 19]. *)
Definition ex_items (n : nat) : list N := N.of_nat <$> seq 0 n.
Definition ex_tree (n : nat) : SumTree N N :=
  match from_iter tt (ex_items n) with Ok t => t | Panic => new tt end.

Lemma ex_tree_wf n : (n ≤ 144)%nat → tree_wf tt 1 (ex_tree n) ∧ tree_items (ex_tree n) = ex_items n.
Proof.
  intros Hn. unfold ex_tree.
  destruct (ok_with_inv _ _ (from_iter_spec tt 1 (ex_items n) ltac:(lia)
    ltac:(unfold ex_items; rewrite length_fmap, length_seq; unfold TREE_BASE; lia)))
    as (t & -> & Ht). done.
Qed.

(** ** Correctness of construction and concatenation *)

(** C30: Concatenation: [append] of two well-formed trees does not panic and
    returns a well-formed tree (cached summaries right, nodes within capacity,
    all leaves at one depth, non-root nodes from height [d] on at least half full)
    whose items are those of the first followed by those of the second.  The only
    condition is that the result is not astronomically large: fewer than
    [6 ^ (255 - d)] items, so that the height fits its [u8]. *)
Theorem append_correct {T Sm Cx : Type} `{!Summary Sm Cx, !Item T Sm Cx} (cx : Cx)
    `{!SummaryLaws (Sm:=Sm) cx} (d : nat) (s o : SumTree T Sm) :
  tree_wf cx d s → tree_wf cx d o → fits d 255 (tree_items s ++ tree_items o) →
  ∃ t, append cx s o = Ok t ∧ tree_wf cx d t ∧
       tree_items t = tree_items s ++ tree_items o ∧
       summary t = sum cx (item_summary_of cx <$> tree_items s ++ tree_items o).
Proof.
  intros Hs Ho Hf. destruct (ok_with_inv _ _ (append_spec cx d s o Hs Ho Hf)) as (t & -> & Ht & Hi).
  exists t. split_and!; [done..|]. rewrite <-Hi. by eapply tree_wf_summary.
Qed.

Lemma append_correct_witness :
  ∃ t, append tt (ex_tree 20) (ex_tree 30) = Ok t ∧
       tree_items t = tree_items (ex_tree 20) ++ tree_items (ex_tree 30).
Proof.
  destruct (append_correct tt 1 (ex_tree 20) (ex_tree 30)) as (t & H1 & _ & H2 & _).
  - apply ex_tree_wf. lia.
  - apply ex_tree_wf. lia.
  - split; [lia|]. by vm_compute.
  - by exists t.
Defined.

(** Bulk construction: [from_iter] of at most [12 ^ (d + 1)] items does not
    panic and returns a well-formed tree holding exactly those items, in order;
    the while loops of both constructions terminate within the fuel they are
    given. *)
Theorem from_iter_correct {T Sm Cx : Type} `{!Summary Sm Cx, !Item T Sm Cx} (cx : Cx)
    `{!SummaryLaws (Sm:=Sm) cx} (d : nat) (its : list T) :
  (d < 256)%nat → (N.of_nat (length its) <= N.of_nat (2 * TREE_BASE) ^ N.of_nat (S d))%N →
  ∃ t, from_iter cx its = Ok t ∧ tree_wf cx d t ∧ tree_items t = its.
Proof. intros Hd Hl. exact (ok_with_inv _ _ (from_iter_spec cx d its Hd Hl)). Qed.

Lemma from_iter_correct_witness :
  ∃ t, from_iter tt (ex_items 40) = Ok t ∧ tree_items t = ex_items 40.
Proof.
  destruct (from_iter_correct tt 1 (ex_items 40)) as (t & H1 & _ & H2);
    [lia|by vm_compute|]. by exists t.
Defined.

(** The parallel construction [from_par_iter] builds exactly the tree that
    the sequential [from_iter] builds, for every input. *)
Theorem from_par_iter_equiv {T Sm Cx : Type} `{!Summary Sm Cx, !Item T Sm Cx} (cx : Cx)
    `{!SummaryLaws (Sm:=Sm) cx} (its : list T) :
  from_par_iter cx its = from_iter cx its.
Proof. symmetry. by apply from_iter_par. Qed.

Lemma from_par_iter_equiv_witness : from_par_iter tt (ex_items 30) = from_iter tt (ex_items 30).
Proof. apply (from_par_iter_equiv tt (ex_items 30)). Defined.

(** Balance: a well-formed tree with the occupancy guarantee from height [d]
    has height at most [d] plus the base-6 logarithm of its size; with [d = 0]
    (trees built by [push] and [append]) a tree of fewer than [6 ^ 16] items has
    height below 16, the capacity of a cursor's stack. *)
Theorem tree_height_logarithmic {T Sm Cx : Type} `{!Summary Sm Cx, !Item T Sm Cx} (cx : Cx)
    `{!SummaryLaws (Sm:=Sm) cx} (d : nat) (t : SumTree T Sm) :
  tree_wf cx d t → t ≠ new cx →
  (N.of_nat TREE_BASE ^ (height t - N.of_nat d) <= N.of_nat (length (tree_items t)))%N ∧
  (d = 0%nat → (N.of_nat (length (tree_items t)) < 6 ^ 16)%N → (height t < 16)%N).
Proof.
  intros [?|(h & _ & Ht)] Hne; [done|].
  rewrite (wf_height cx d _ _ Ht). split; [by eapply wf_size|].
  intros -> Hlt. assert (h < 16)%nat; [|lia].
  eapply (wf_fits_height cx 0); [exact Ht|]. split; [lia|]. exact Hlt.
Qed.

Lemma tree_height_logarithmic_witness :
  (N.of_nat TREE_BASE ^ (height (ex_tree 40) - N.of_nat 1) <=
   N.of_nat (length (tree_items (ex_tree 40))))%N.
Proof.
  apply (tree_height_logarithmic tt 1 (ex_tree 40)); [apply ex_tree_wf; lia|].
  intros E. apply (f_equal height) in E. by vm_compute in E.
Defined.

(** Editing the ends: [update_last] and [update_first] on a well-formed
    non-empty tree apply the closure to the last, respectively first, item and to
    nothing else, and restore every cached summary on the path. *)
Theorem update_ends_correct {T Sm Cx : Type} `{!Summary Sm Cx, !Item T Sm Cx} (cx : Cx)
    `{!SummaryLaws (Sm:=Sm) cx} (d : nat) (f : T → T) (t : SumTree T Sm) (x y : T) (mid : list T) :
  tree_wf cx d t → tree_items t = x :: mid ++ [y] →
  (∃ t', update_last cx f t = Ok t' ∧ tree_wf cx d t' ∧ tree_items t' = x :: mid ++ [f y]) ∧
  (∃ t', update_first cx f t = Ok t' ∧ tree_wf cx d t' ∧ tree_items t' = f x :: mid ++ [y]).
Proof.
  intros [->|(h & Hh & Ht)] Hi; [done|]. split.
  - destruct (ok_with_inv _ _ (update_last_at cx d f h t (x :: mid) y Ht Hi))
      as ([t' r] & E & Ht' & _ & Hi' & _).
    exists t'. unfold update_last. rewrite E. split_and!; [done| |done].
    right. by exists h.
  - destruct (ok_with_inv _ _ (update_first_at cx d f h t x (mid ++ [y]) Ht Hi))
      as ([t' r] & E & Ht' & _ & Hi' & _).
    exists t'. unfold update_first. rewrite E. split_and!; [done| |done].
    right. by exists h.
Qed.

Lemma update_ends_correct_witness :
  ∃ t', update_last tt (N.add 100) (ex_tree 15) = Ok t' ∧
        tree_items t' = 0%N :: (N.of_nat <$> seq 1 13) ++ [114%N].
Proof.
  destruct (update_ends_correct tt 1 (N.add 100) (ex_tree 15) 0%N 14%N (N.of_nat <$> seq 1 13))
    as [(t' & H1 & _ & H2) _]; [apply ex_tree_wf; lia|by vm_compute|].
  by exists t'.
Defined.
