(* ===== verification/SeekSpec.v ===== *)
(** * What seeking means, and the lookups that descend from the root

    The reference definition [scan] walks the items one by one and stops at the
    first whose end the target does not lie beyond.  [find], [find_exact] and
    [find_with_prev] of [sum_tree.rs], which skip whole subtrees by their cached
    summaries, are proved equal to it; the cursor is treated in the next files. *)

From S2P Require Import Prelude Ord SumTree SumTreeFacts.

Section seek.
Context {T Sm Cx : Type} `{!Summary Sm Cx, !Item T Sm Cx} (cx : Cx).
Context `{!SummaryLaws (Sm:=Sm) cx}.
Context {D : Type} `{!Dimension D Sm Cx, !DimensionLaws D (Sm:=Sm) cx}.
Abbreviation tree := (SumTree T Sm).

(** ** Positions *)

(** The position after an item, after a sequence, and after each of its items. *)
Definition item_end (pos : D) (x : T) : D := dim_add_summary cx pos (item_summary_of cx x).
Definition dim_items (pos : D) (its : list T) : D := foldl item_end pos its.
Fixpoint ends (pos : D) (its : list T) : list D :=
  match its with
  | [] => []
  | x :: its => item_end pos x :: ends (item_end pos x) its
  end.

Lemma dim_items_app pos l k : dim_items pos (l ++ k) = dim_items (dim_items pos l) k.
Proof. apply foldl_app. Qed.

Lemma ends_app pos l k : ends pos (l ++ k) = ends pos l ++ ends (dim_items pos l) k.
Proof. revert pos. induction l as [|x l IH]; intros; simpl; [done|]. f_equal. apply IH. Qed.

Lemma ends_last pos l x : last (ends pos (l ++ [x])) = Some (dim_items pos (l ++ [x])).
Proof. rewrite ends_app. simpl. by rewrite last_snoc, dim_items_app. Qed.

Lemma dim_add_sum pos (l : list Sm) :
  l ≠ [] → dim_add_summary cx pos (sum cx l) = foldl (dim_add_summary cx) pos l.
Proof.
  revert pos. induction l as [|a l IH] using rev_ind; [done|]. intros pos _.
  rewrite foldl_app. simpl. destruct (decide (l = [])) as [->|Hl].
  - simpl. by rewrite sum_singleton.
  - by rewrite sum_app, <-dim_add_add, IH, sum_singleton.
Qed.

(** A whole subtree advances a position as its items do. *)
Lemma dim_add_tree d h t pos :
  wf_at cx d h t → dim_add_summary cx pos (summary t) = dim_items pos (tree_items t).
Proof.
  intros Ht. destruct (wf_items_summary cx d h t Ht) as [Hne ->].
  rewrite dim_add_sum by (by destruct (tree_items t)).
  unfold dim_items. clear. revert pos.
  induction (tree_items t) as [|x l IH]; intros; simpl; [done|]. apply IH.
Qed.

(** ** The reference semantics of a seek *)
Section target.
Context {Tgt : Type} `{!SeekTarget Tgt D Cx} (target : Tgt) (bias : Bias).
Abbreviation past := (past (D:=D) cx target bias).

(** Skip the items whose end the target is past; the position reached and the
    items from there on. *)
Fixpoint scan (pos : D) (its : list T) : D * list T :=
  match its with
  | [] => (pos, [])
  | x :: rest => if past (item_end pos x) then scan (item_end pos x) rest else (pos, its)
  end.

(** The sequence is ordered for the target: once it is not past an end, it is not
    past any later one. *)
Definition seekable (pos : D) (its : list T) : Prop :=
  StronglySorted (fun a b => past b = true → past a = true) (ends pos its).

Lemma seekable_app pos l k :
  seekable pos (l ++ k) → seekable pos l ∧ seekable (dim_items pos l) k.
Proof.
  unfold seekable. rewrite ends_app. intros H. split.
  - by eapply StronglySorted_app_1_l.
  - by eapply StronglySorted_app_1_r.
Qed.

Lemma seekable_past pos l :
  seekable pos l → l ≠ [] → past (dim_items pos l) = true →
  Forall (fun e => past e = true) (ends pos l).
Proof.
  intros Hs Hne Hp. destruct (rev_case l Hne) as (k & x & ->).
  unfold seekable in Hs. rewrite ends_app, dim_items_app in *. simpl in *.
  apply Forall_app. split; [|by repeat constructor].
  apply Forall_forall. intros e He.
  by apply (StronglySorted_app_1_elem_of _ _ _ e _ Hs He (list_elem_of_here _ _)).
Qed.

Lemma scan_past pos l k :
  Forall (fun e => past e = true) (ends pos l) → scan pos (l ++ k) = scan (dim_items pos l) k.
Proof.
  revert pos. induction l as [|x l IH]; intros pos; simpl; [done|].
  rewrite Forall_cons. intros [-> Hl]. by apply IH.
Qed.

Lemma scan_stop pos l k :
  l ≠ [] → past (dim_items pos l) = false →
  scan pos (l ++ k) = ((scan pos l).1, (scan pos l).2 ++ k) ∧ (scan pos l).2 ≠ [].
Proof.
  revert pos. induction l as [|x l IH]; intros pos Hne Hp; [done|]. simpl in *.
  destruct (past (item_end pos x)) eqn:E; [|done].
  destruct l as [|y l]; [simpl in Hp; congruence|]. by apply IH.
Qed.

(** [scan] splits the items at the first end the target is not past. *)
Lemma scan_split pos its :
  ∃ pre, its = pre ++ (scan pos its).2 ∧ (scan pos its).1 = dim_items pos pre ∧
    Forall (fun e => past e = true) (ends pos pre) ∧
    ∀ x rest, (scan pos its).2 = x :: rest → past (item_end (scan pos its).1 x) = false.
Proof.
  revert pos. induction its as [|x its IH]; intros pos; simpl.
  - exists []. by split_and!.
  - destruct (past (item_end pos x)) eqn:E.
    + destruct (IH (item_end pos x)) as (pre & Hi & Hp & Hf & Hx). exists (x :: pre).
      split_and!; simpl; auto. by f_equal.
    + exists []. split_and!; simpl; auto. by intros ?? [= <- <-].
Qed.

(** A target past the end of everything. *)
Lemma scan_all pos its :
  seekable pos its → its ≠ [] → past (dim_items pos its) = true →
  scan pos its = (dim_items pos its, []).
Proof.
  intros Hs Hne Hp. rewrite <-(app_nil_r its) at 1.
  by rewrite scan_past by by apply seekable_past.
Qed.

(** ** [find], [find_exact], [find_with_prev] *)
Lemma target_in_child_past e : target_in_child cx target bias e = negb (past e).
Proof. unfold target_in_child, SumTree.past. by destruct (target_cmp _ _ _), bias. Qed.

Definition found (r : D * list T) : D * option (T * D) :=
  match r.2 with [] => (r.1, None) | x :: _ => (r.1, Some (x, item_end r.1 x)) end.

Lemma find_iterate_spec d h t pos :
  wf_at cx d h t → seekable pos (tree_items t) → past (dim_items pos (tree_items t)) = false →
  find_iterate cx false target bias pos t = found (scan pos (tree_items t)).
Proof.
  revert t pos. induction h as [|h IH]; intros [ht s css cts|s its iss] pos Ht Hs Hp; try done.
  - destruct Ht as (_ & _ & -> & _). simpl in *. clear Hs Hp. revert pos.
    induction its as [|x its IHi]; intros pos; [done|]. simpl.
    change (dim_add_summary cx pos (item_summary_of cx x)) with (item_end pos x).
    rewrite target_in_child_past. destruct (past (item_end pos x)) eqn:E; simpl; [|done].
    apply IHi.
  - destruct Ht as (_ & Hne & _ & -> & _ & Hf). clear Hne.
    cbn [tree_items find_iterate] in *. revert pos Hs Hp.
    induction cts as [|c cts IHc]; intros pos Hs Hp; [done|]. simpl.
    apply Forall_cons in Hf as [[Hc _] Hf].
    rewrite (dim_add_tree d h c) by done. rewrite target_in_child_past.
    pose proof (wf_items_nonempty cx d h c Hc) as Hcne.
    simpl in Hs. apply seekable_app in Hs as [Hs1 Hs2].
    destruct (past (dim_items pos (tree_items c))) eqn:E; simpl.
    + rewrite scan_past by by apply seekable_past. simpl in Hp. rewrite dim_items_app in Hp.
      by apply IHc.
    + rewrite (IH c pos) by done.
      destruct (scan_stop pos (tree_items c) (flat_map tree_items cts) Hcne E) as [-> Hr].
      unfold found. simpl. by destruct (scan pos (tree_items c)).2.
Qed.

Definition found_item (r : D * list T) : D * D * option T :=
  match r.2 with [] => (r.1, r.1, None) | x :: _ => (r.1, item_end r.1 x, Some x) end.

(** [find] agrees with the linear scan. *)
Lemma find_spec_at d h t :
  wf_at cx d h t → seekable (dim_zero cx) (tree_items t) →
  find cx t target bias = found_item (scan (dim_zero cx) (tree_items t)).
Proof.
  intros Ht Hs. unfold find, find_with. rewrite (dim_add_tree d h t) by done.
  pose proof (wf_items_nonempty cx d h t Ht) as Hne.
  destruct (past (dim_items (dim_zero cx) (tree_items t))) eqn:E.
  - by rewrite scan_all.
  - rewrite (find_iterate_spec d h) by done. unfold found, found_item.
    by destruct (scan _ _) as [p []].
Qed.

Lemma find_item_spec d t :
  tree_wf cx d t → seekable (dim_zero cx) (tree_items t) →
  (find cx t target bias).2 = head (scan (dim_zero cx) (tree_items t)).2.
Proof.
  intros [->|(h & _ & Ht)] Hs.
  - unfold find, find_with. simpl. by destruct (SumTree.past _ _ _ _).
  - rewrite (find_spec_at d h) by done. unfold found_item.
    by destruct (scan _ _) as [p []].
Qed.

(** With [EXACT], the item found is the one [find] stops at, if it compares equal. *)
Definition exact_seekable (pos : D) (its : list T) : Prop :=
  StronglySorted (fun a b => target_cmp cx target a = Lt → target_cmp cx target b = Lt) (ends pos its).

Definition found_exact (r : D * list T) : option T :=
  match r.2 with
  | [] => None
  | x :: _ => if decide (target_cmp cx target (item_end r.1 x) = Eq) then Some x else None
  end.

Lemma exact_seekable_app pos l k :
  exact_seekable pos (l ++ k) → exact_seekable pos l ∧ exact_seekable (dim_items pos l) k.
Proof.
  unfold exact_seekable. rewrite ends_app. intros H. split.
  - by eapply StronglySorted_app_1_l.
  - by eapply StronglySorted_app_1_r.
Qed.

(** Once below an end, the exact leaf loop finds nothing more. *)
Lemma exact_leaf_none (pos : D) (its : list T) :
  Forall (fun e => target_cmp cx target e = Lt) (ends pos its) →
  snd ((fix scan position items item_summaries :=
         match items, item_summaries with
         | item :: items, item_summary :: item_summaries =>
             let child_end := dim_add_summary cx position item_summary in
             if entry_found cx true target bias child_end
             then (position, Some (item, child_end))
             else scan child_end items item_summaries
         | _, _ => (position, None)
         end) pos its (item_summary_of cx <$> its)) = None.
Proof.
  revert pos. induction its as [|x its IH]; intros pos; simpl; [done|].
  rewrite Forall_cons. intros [Hx Hf]. unfold item_end in Hx. rewrite Hx.
  rewrite bool_decide_false by done. by apply IH.
Qed.

Lemma find_iterate_exact d h t pos :
  bias = Left → wf_at cx d h t → seekable pos (tree_items t) → exact_seekable pos (tree_items t) →
  past (dim_items pos (tree_items t)) = false →
  fst <$> (find_iterate cx true target bias pos t).2 = found_exact (scan pos (tree_items t)).
Proof.
  intros Hb. revert t pos.
  induction h as [|h IH]; intros [ht s css cts|s its iss] pos Ht Hs He Hp; try done.
  - destruct Ht as (_ & _ & -> & _). cbn [tree_items find_iterate] in *. clear Hs Hp. revert pos He.
    induction its as [|x its IHi]; intros pos He; [done|]. simpl.
    unfold exact_seekable in He. simpl in He. apply StronglySorted_inv in He as [He Hlt].
    change (dim_add_summary cx pos (item_summary_of cx x)) with (item_end pos x).
    unfold SumTree.past.
    destruct (target_cmp cx target (item_end pos x)) eqn:E; simpl.
    + rewrite bool_decide_false by (by rewrite Hb). unfold found_exact; simpl. by rewrite E.
    + unfold found_exact; simpl. rewrite E. simpl. rewrite exact_leaf_none; [done|].
      eapply Forall_impl; [exact Hlt|]. simpl. auto.
    + by apply IHi.
  - destruct Ht as (_ & Hne & _ & -> & _ & Hf). clear Hne.
    cbn [tree_items find_iterate] in *. revert pos Hs He Hp.
    induction cts as [|c cts IHc]; intros pos Hs He Hp; [done|]. simpl.
    apply Forall_cons in Hf as [[Hc _] Hf].
    rewrite (dim_add_tree d h c) by done. rewrite target_in_child_past.
    pose proof (wf_items_nonempty cx d h c Hc) as Hcne.
    simpl in Hs, He. apply seekable_app in Hs as [Hs1 Hs2].
    apply exact_seekable_app in He as [He1 He2].
    destruct (past (dim_items pos (tree_items c))) eqn:E; simpl.
    + rewrite scan_past by by apply seekable_past. simpl in Hp. rewrite dim_items_app in Hp.
      by apply IHc.
    + rewrite (IH c pos) by done.
      destruct (scan_stop pos (tree_items c) (flat_map tree_items cts) Hcne E) as [-> Hr].
      unfold found_exact. simpl. by destruct (scan pos (tree_items c)).2.
Qed.

Lemma find_exact_spec d t :
  bias = Left → tree_wf cx d t → seekable (dim_zero cx) (tree_items t) →
  exact_seekable (dim_zero cx) (tree_items t) →
  (find_exact cx t target bias).2 = found_exact (scan (dim_zero cx) (tree_items t)).
Proof.
  intros Hb [->|(h & _ & Ht)] Hs He; unfold find_exact, find_with.
  - simpl. by destruct (SumTree.past _ _ _ _).
  - rewrite (dim_add_tree d h t) by done.
    pose proof (wf_items_nonempty cx d h t Ht) as Hne.
    destruct (past (dim_items (dim_zero cx) (tree_items t))) eqn:E; [by rewrite scan_all|].
    rewrite <-(find_iterate_exact d h) by done.
    by destruct (find_iterate cx true target bias (dim_zero cx) t) as [p [[]|]].
Qed.

(** The item before the one a seek stops at. *)
Fixpoint scan_prev (prev : option T) (pos : D) (its : list T) : option T :=
  match its with
  | [] => prev
  | x :: rest => if past (item_end pos x) then scan_prev (Some x) (item_end pos x) rest else prev
  end.

Lemma scan_prev_past prev pos l k :
  Forall (fun e => past e = true) (ends pos l) → l ≠ [] →
  scan_prev prev pos (l ++ k) = scan_prev (last l) (dim_items pos l) k.
Proof.
  revert prev pos. induction l as [|x l IH]; intros prev pos; [done|]. simpl.
  rewrite Forall_cons. intros [-> Hl] _. destruct l as [|y l]; [done|].
  rewrite IH by done. done.
Qed.

Lemma scan_prev_stop prev pos l k :
  l ≠ [] → past (dim_items pos l) = false → scan_prev prev pos (l ++ k) = scan_prev prev pos l.
Proof.
  revert prev pos. induction l as [|x l IH]; intros prev pos Hne Hp; [done|]. simpl in *.
  destruct (past (item_end pos x)) eqn:E; [|done].
  destruct l as [|y l]; [simpl in Hp; congruence|]. by apply IH.
Qed.

Lemma scan_prev_split pos its pre :
  its = pre ++ (scan pos its).2 → Forall (fun e => past e = true) (ends pos pre) →
  (∀ x rest, (scan pos its).2 = x :: rest → past (item_end (dim_items pos pre) x) = false) →
  scan_prev None pos its = last pre.
Proof.
  intros Hi Hf Hx. rewrite Hi. destruct (decide (pre = [])) as [->|Hne].
  - simpl in *. destruct (scan pos its).2 as [|x rest]; [done|]. simpl. by rewrite (Hx x rest).
  - rewrite scan_prev_past by done. destruct (scan pos its).2 as [|x rest]; [done|].
    simpl. by rewrite (Hx x rest).
Qed.

Definition found_prev (prev : option T) (r : D * list T) : D * option (option T * T * D) :=
  match r.2 with [] => (r.1, None) | x :: _ => (r.1, Some (prev, x, item_end r.1 x)) end.

Lemma find_with_prev_iterate_spec d h t pos prev :
  wf_at cx d h t → seekable pos (tree_items t) → past (dim_items pos (tree_items t)) = false →
  find_with_prev_iterate cx false target bias pos prev t =
    Ok (found_prev (scan_prev prev pos (tree_items t)) (scan pos (tree_items t))).
Proof.
  revert t pos prev. induction h as [|h IH]; intros [ht s css cts|s its iss] pos prev Ht Hs Hp; try done.
  - destruct Ht as (_ & _ & -> & _). simpl in *. clear Hs Hp. revert pos prev.
    induction its as [|x its IHi]; intros pos prev; [done|]. simpl.
    change (dim_add_summary cx pos (item_summary_of cx x)) with (item_end pos x).
    rewrite target_in_child_past. destruct (past (item_end pos x)) eqn:E; simpl; [|done].
    apply IHi.
  - destruct Ht as (_ & Hne & _ & -> & _ & Hf). clear Hne.
    cbn [tree_items find_with_prev_iterate] in *. revert pos prev Hs Hp.
    induction cts as [|c cts IHc]; intros pos prev Hs Hp; [done|]. simpl.
    apply Forall_cons in Hf as [[Hc _] Hf].
    rewrite (dim_add_tree d h c) by done. rewrite target_in_child_past.
    pose proof (wf_items_nonempty cx d h c Hc) as Hcne.
    simpl in Hs. apply seekable_app in Hs as [Hs1 Hs2].
    destruct (past (dim_items pos (tree_items c))) eqn:E; simpl.
    + rewrite (tree_last_at cx d h c Hc). simpl.
      rewrite scan_past, scan_prev_past by (try done; by apply seekable_past).
      simpl in Hp. rewrite dim_items_app in Hp. by apply IHc.
    + rewrite (IH c pos) by done.
      destruct (scan_stop pos (tree_items c) (flat_map tree_items cts) Hcne E) as [-> Hr].
      rewrite scan_prev_stop by done.
      unfold found_prev. simpl. by destruct (scan pos (tree_items c)).2.
Qed.

Lemma find_with_prev_spec d h t :
  wf_at cx d h t → seekable (dim_zero cx) (tree_items t) →
  find_with_prev cx t target bias =
    Ok (match scan (dim_zero cx) (tree_items t) with
        | (pos, []) => (pos, pos, None)
        | (pos, x :: _) =>
            (pos, item_end pos x, Some (scan_prev None (dim_zero cx) (tree_items t), x))
        end).
Proof.
  intros Ht Hs. unfold find_with_prev. rewrite (dim_add_tree d h t) by done.
  pose proof (wf_items_nonempty cx d h t Ht) as Hne.
  destruct (past (dim_items (dim_zero cx) (tree_items t))) eqn:E.
  - by rewrite scan_all.
  - rewrite (find_with_prev_iterate_spec d h) by done. unfold found_prev. simpl.
    by destruct (scan _ _) as [p []].
Qed.
End target.
End seek.

(** ** Correctness of the lookups *)

(** Lookup: on a well-formed, non-empty tree whose items are ordered for the
    target, [find] and [find_with_prev], which skip subtrees by their summaries,
    return what a scan over the items does: with the items split as [pre ++ rest]
    where the target lies past the end of every item of [pre] and not past the
    end of the first of [rest], the position of the split, the end of that first
    item, the item, and the last item of [pre]. *)
Theorem find_correct {T Sm Cx D Tgt : Type} `{!Summary Sm Cx, !Item T Sm Cx} (cx : Cx)
    `{!SummaryLaws (Sm:=Sm) cx, !Dimension D Sm Cx, !DimensionLaws D (Sm:=Sm) cx}
    `{!SeekTarget Tgt D Cx} (target : Tgt) (bias : Bias) (d : nat) (t : SumTree T Sm) :
  tree_wf cx d t → t ≠ new cx → seekable cx target bias (dim_zero cx) (tree_items t) →
  ∃ pre rest, tree_items t = pre ++ rest ∧
    Forall (fun e => past cx target bias e = true) (ends cx (dim_zero cx) pre) ∧
    let pos := dim_items cx (dim_zero cx) pre in
    match rest with
    | [] => find cx t target bias = (pos, pos, None) ∧
            find_with_prev cx t target bias = Ok (pos, pos, None)
    | x :: _ =>
        past cx target bias (item_end cx pos x) = false ∧
        find cx t target bias = (pos, item_end cx pos x, Some x) ∧
        find_with_prev cx t target bias = Ok (pos, item_end cx pos x, Some (last pre, x))
    end.
Proof.
  intros [?|(h & _ & Ht)] Hne Hs; [done|].
  destruct (scan_split cx target bias (dim_zero cx) (tree_items t)) as (pre & Hi & Hp & Hf & Hx).
  pose proof (scan_prev_split cx target bias _ _ _ Hi Hf) as Hprev. rewrite Hp in Hx.
  exists pre, (scan cx target bias (dim_zero cx) (tree_items t)).2. split_and!; [done..|].
  rewrite (find_spec_at cx target bias d h), (find_with_prev_spec cx target bias d h) by done.
  rewrite Hprev by done. unfold found_item.
  destruct (scan cx target bias (dim_zero cx) (tree_items t)) as [p [|x rest]]; simpl in *; subst p;
    [done|]. split_and!; [by eapply Hx|done..].
Qed.

(** Numbers, seen by their running total, sought by a total. *)
#[export] Instance total_dimension : Dimension N N unit := summary_dimension.
#[export] Instance total_dimension_laws : DimensionLaws N (Sm:=N) tt.
Proof. intros d a b. simpl. lia. Qed.
#[export] Instance total_target : SeekTarget N N unit := ord_target.

Lemma find_correct_witness :
  find tt (ex_tree 20) 10%N Right = (10%N, 15%N, Some 5%N).
Proof.
  destruct (find_correct tt 10%N Right 1 (ex_tree 20)) as (pre & rest & Hi & Hf & Hr).
  - apply ex_tree_wf. lia.
  - intros E. apply (f_equal height) in E. by vm_compute in E.
  - vm_compute. repeat constructor; try done.
  - destruct rest as [|x rest]; destruct Hr as [Hr1 Hr2]; by vm_compute.
Defined.
