(* ===== verification/Cursor.v ===== *)
(** * Cursors over a [SumTree]: [crates/sum_tree/src/cursor.rs]

    A cursor keeps the path from the root to the current leaf as a stack of
    entries (tree, index of the current child, position), together with the
    position in the dimension [D] it measures.  The stack is a list with the top
    first, so Rust's [stack.last()] is the head; it is a [heapless::Vec] of
    capacity 16, and pushing a seventeenth entry panics.  References to nodes are
    the nodes themselves: a cursor borrows its tree immutably.

    The loops run on explicit fuel, [stack_fuel], computed from the trees on the
    stack; running out would be reported as a panic, and the theorems of the
    following files show that it never happens.  Filters are pure predicates on
    summaries. *)

From S2P Require Import Prelude Ord SumTree.

Definition STACK_CAPACITY : nat := 16.

Record StackEntry (T Sm D : Type) := mkEntry {
  e_tree : SumTree T Sm;
  e_index : nat;
  e_position : D
}.
Arguments mkEntry {_ _ _} _ _ _.
Arguments e_tree {_ _ _} _.
Arguments e_index {_ _ _} _.
Arguments e_position {_ _ _} _.

Record Cursor (T Sm D : Type) := mkCursor {
  c_tree : SumTree T Sm;
  c_stack : list (StackEntry T Sm D);
  c_position : D;
  c_did_seek : bool;
  c_at_end : bool
}.
Arguments mkCursor {_ _ _} _ _ _ _ _.
Arguments c_tree {_ _ _} _.
Arguments c_stack {_ _ _} _.
Arguments c_position {_ _ _} _.
Arguments c_did_seek {_ _ _} _.
Arguments c_at_end {_ _ _} _.

(** [self.stack.push(entry).unwrap_oob()] *)
Definition stack_push {T Sm D} (e : StackEntry T Sm D) (stack : list (StackEntry T Sm D)) :
    outcome (list (StackEntry T Sm D)) :=
  if (length stack <? STACK_CAPACITY)%nat then Ok (e :: stack) else Panic.

(** The slices [v[ix..]] and [v[..ix]], which panic out of range. *)
Definition slice_from {A} (l : list A) (ix : nat) : outcome (list A) :=
  if (ix <=? length l)%nat then Ok (drop ix l) else Panic.
Definition slice_to {A} (l : list A) (ix : nat) : outcome (list A) :=
  if (ix <=? length l)%nat then Ok (take ix l) else Panic.

(** An upper bound on the number of loop iterations spent in a subtree. *)
Fixpoint cost {T Sm} (t : SumTree T Sm) : nat :=
  match t with
  | Leaf _ its _ => S (length its)
  | Internal _ _ _ cts => S (list_sum (map (fun c => S (cost c)) cts))
  end.
Definition stack_fuel {T Sm D} (stack : list (StackEntry T Sm D)) : nat :=
  S (list_sum (map (fun e => cost (e_tree e)) stack)).

(** [SeekAggregate]: what a seek does with the items and subtrees it passes. *)
Record SeekAggregate (T Sm G : Type) := mkAggregate {
  begin_leaf : G → outcome G;
  end_leaf : G → outcome G;
  push_item : G → T → Sm → outcome G;
  push_tree : G → SumTree T Sm → Sm → outcome G
}.
Arguments mkAggregate {_ _ _} _ _ _ _.
Arguments begin_leaf {_ _ _} _ _.
Arguments end_leaf {_ _ _} _ _.
Arguments push_item {_ _ _} _ _ _ _.
Arguments push_tree {_ _ _} _ _ _ _.

Record SliceSeekAggregate (T Sm : Type) := mkSlice {
  s_tree : SumTree T Sm;
  leaf_items : list T;
  leaf_item_summaries : list Sm;
  leaf_summary : Sm
}.
Arguments mkSlice {_ _} _ _ _ _.
Arguments s_tree {_ _} _.
Arguments leaf_items {_ _} _.
Arguments leaf_item_summaries {_ _} _.
Arguments leaf_summary {_ _} _.

(** [End<D>]: a target past every position. *)
Inductive End_target := End_new.
#[export] Instance End_seek_target {D Cx} : SeekTarget End_target D Cx := fun _ _ _ => Gt.

Section cursor.
Context {T Sm Cx : Type} `{!Summary Sm Cx, !Item T Sm Cx} (cx : Cx).
Context {D : Type} `{!Dimension D Sm Cx}.
Abbreviation tree := (SumTree T Sm).
Abbreviation entry := (StackEntry T Sm D).
Abbreviation cursor := (Cursor T Sm D).

Definition cursor_new (t : tree) : cursor :=
  mkCursor t [] (dim_zero cx) false (is_empty t).

Definition cursor_reset (self : cursor) : cursor :=
  mkCursor (c_tree self) [] (dim_zero cx) false (is_empty (c_tree self)).

Definition cursor_start (self : cursor) : D := c_position self.

Definition assert_did_seek (self : cursor) : outcome unit := assert_that (c_did_seek self).

Definition cursor_item (self : cursor) : outcome (option T) :=
  _ ← assert_did_seek self;
  match c_stack self with
  | [] => Ok None
  | entry :: _ =>
      match e_tree entry with
      | Leaf _ items _ =>
          if (e_index entry =? length items)%nat then Ok None
          else Some <$> unwrap (items !! e_index entry)
      | Internal _ _ _ _ => Panic
      end
  end.

Definition cursor_item_summary (self : cursor) : outcome (option Sm) :=
  _ ← assert_did_seek self;
  match c_stack self with
  | [] => Ok None
  | entry :: _ =>
      match e_tree entry with
      | Leaf _ _ item_summaries =>
          if (e_index entry =? length item_summaries)%nat then Ok None
          else Some <$> unwrap (item_summaries !! e_index entry)
      | Internal _ _ _ _ => Panic
      end
  end.

Definition cursor_end (self : cursor) : outcome D :=
  s ← cursor_item_summary self;
  match s with
  | Some item_summary => Ok (dim_add_summary cx (cursor_start self) item_summary)
  | None => Ok (cursor_start self)
  end.

(** [next_leaf] / [prev_leaf] look at the entries below the top one.  The tests
    [index < len - 1] and [index == len - 1] are on [usize]; with [len = 0] the
    code goes on to index out of range. *)
Fixpoint next_leaf (below : list entry) : outcome (option tree) :=
  match below with
  | [] => Ok None
  | entry :: below =>
      cts ← child_trees (e_tree entry);
      if (length cts =? 0)%nat then Panic
      else if (S (e_index entry) <? length cts)%nat then
        t ← unwrap (cts !! S (e_index entry)); Some <$> leftmost_leaf t
      else next_leaf below
  end.

Fixpoint prev_leaf (below : list entry) : outcome (option tree) :=
  match below with
  | [] => Ok None
  | entry :: below =>
      if (e_index entry =? 0)%nat then prev_leaf below
      else
        match e_tree entry with
        | Internal _ _ _ cts =>
            t ← unwrap (cts !! (e_index entry - 1)%nat); Some <$> rightmost_leaf t
        | Leaf _ _ _ => Panic
        end
  end.

Definition cursor_next_item (self : cursor) : outcome (option T) :=
  _ ← assert_did_seek self;
  match c_stack self with
  | entry :: below =>
      items ← node_items (e_tree entry);
      if (S (e_index entry) =? length items)%nat then
        leaf ← next_leaf below;
        match leaf with
        | Some leaf => items ← node_items leaf; Some <$> unwrap (head items)
        | None => Ok None
        end
      else Some <$> unwrap (items !! S (e_index entry))
  | [] => if c_at_end self then Ok None else tree_first (c_tree self)
  end.

Definition cursor_prev_item (self : cursor) : outcome (option T) :=
  _ ← assert_did_seek self;
  match c_stack self with
  | entry :: below =>
      if (e_index entry =? 0)%nat then
        leaf ← prev_leaf below;
        match leaf with
        | Some leaf => items ← node_items leaf; Some <$> unwrap (last items)
        | None => Ok None
        end
      else
        match e_tree entry with
        | Leaf _ items _ => Some <$> unwrap (items !! (e_index entry - 1)%nat)
        | Internal _ _ _ _ => Panic
        end
  | [] => if c_at_end self then tree_last (c_tree self) else Ok None
  end.

(** ** Moving backward *)
Fixpoint search_backward_loop (fuel : nat) (filter_node : Sm → bool) (descending : bool)
    (self : cursor) : outcome cursor :=
  match c_stack self, fuel with
  | [], _ => Ok self
  | _, O => Panic
  | entry :: below, S fuel =>
      let position := match below with p :: _ => e_position p | [] => dim_zero cx end in
      if negb descending && (e_index entry =? 0)%nat then
        search_backward_loop fuel filter_node descending
          (mkCursor (c_tree self) below position (c_did_seek self) (c_at_end self))
      else
        let index := if descending then e_index entry else (e_index entry - 1)%nat in
        let summaries := child_summaries (e_tree entry) in
        before ← slice_to summaries index;
        let position := foldl (dim_add_summary cx) position before in
        let entry := mkEntry (e_tree entry) index position in
        s ← unwrap (summaries !! index);
        let descending := filter_node s in
        match e_tree entry with
        | Internal _ _ _ cts =>
            if (descending : bool) then
              t ← unwrap (cts !! index);
              stack ← stack_push (mkEntry t (length (child_summaries t) - 1)%nat (dim_zero cx))
                                 (entry :: below);
              search_backward_loop fuel filter_node descending
                (mkCursor (c_tree self) stack position (c_did_seek self) (c_at_end self))
            else
              search_backward_loop fuel filter_node descending
                (mkCursor (c_tree self) (entry :: below) position (c_did_seek self) (c_at_end self))
        | Leaf _ _ _ =>
            let self := mkCursor (c_tree self) (entry :: below) position (c_did_seek self) (c_at_end self) in
            if (descending : bool) then Ok self
            else search_backward_loop fuel filter_node descending self
        end
  end.

Definition search_backward (filter_node : Sm → bool) (self : cursor) : outcome cursor :=
  let '(did_seek, at_end) :=
    if c_did_seek self then (true, c_at_end self) else (true, true) in
  self ←
    (if (at_end : bool) then
       let t := c_tree self in
       stack ← (if is_empty t then Ok (c_stack self)
                else stack_push (mkEntry t (length (child_summaries t))
                                   (dim_add_summary cx (dim_zero cx) (summary t))) (c_stack self));
       Ok (mkCursor t stack (dim_zero cx) did_seek (is_empty t))
     else Ok (mkCursor (c_tree self) (c_stack self) (c_position self) did_seek at_end));
  search_backward_loop (stack_fuel (c_stack self)) filter_node false self.

Definition cursor_prev (self : cursor) : outcome cursor := search_backward (fun _ => true) self.

(** ** Moving forward *)

(** The inner loops over the remaining summaries of a node: skip those the filter
    rejects, advancing the index and both positions. *)
Fixpoint skip_rejected (filter_node : Sm → bool) (l : list Sm) (index : nat) (e_pos pos : D) :
    nat * D * D :=
  match l with
  | [] => (index, e_pos, pos)
  | s :: l =>
      if filter_node s then (index, e_pos, pos)
      else skip_rejected filter_node l (S index) (dim_add_summary cx e_pos s) (dim_add_summary cx pos s)
  end.

Fixpoint search_forward_loop (fuel : nat) (filter_node : Sm → bool) (descend : bool)
    (self : cursor) : outcome cursor :=
  match c_stack self, fuel with
  | [], _ => Ok (mkCursor (c_tree self) [] (c_position self) (c_did_seek self) true)
  | _, O => Panic
  | entry :: below, S fuel =>
      match e_tree entry with
      | Internal _ _ css cts =>
          let '(index, e_pos) :=
            if descend then (e_index entry, e_position entry)
            else (S (e_index entry), c_position self) in
          let '(index, e_pos, pos) :=
            skip_rejected filter_node (drop index css) index e_pos (c_position self) in
          match cts !! index with
          | Some subtree =>
              stack ← stack_push (mkEntry subtree 0 pos) (mkEntry (e_tree entry) index e_pos :: below);
              search_forward_loop fuel filter_node true
                (mkCursor (c_tree self) stack pos (c_did_seek self) (c_at_end self))
          | None =>
              search_forward_loop fuel filter_node false
                (mkCursor (c_tree self) below pos (c_did_seek self) (c_at_end self))
          end
      | Leaf _ _ item_summaries =>
          '(index, e_pos, pos) ←
            (if descend then Ok (e_index entry, e_position entry, c_position self)
             else s ← unwrap (item_summaries !! e_index entry);
                  Ok (S (e_index entry), dim_add_summary cx (e_position entry) s,
                      dim_add_summary cx (c_position self) s));
          let '(index, e_pos, pos) :=
            skip_rejected filter_node (drop index item_summaries) index e_pos pos in
          if (index <? length item_summaries)%nat then
            (* an item is accepted: return *)
            Ok (mkCursor (c_tree self) (mkEntry (e_tree entry) index e_pos :: below) pos
                         (c_did_seek self) (c_at_end self))
          else
            search_forward_loop fuel filter_node false
              (mkCursor (c_tree self) below pos (c_did_seek self) (c_at_end self))
      end
  end.

Definition search_forward (filter_node : Sm → bool) (self : cursor) : outcome cursor :=
  match c_stack self with
  | [] =>
      if c_at_end self then
        search_forward_loop 1 filter_node false
          (mkCursor (c_tree self) [] (c_position self) true (c_at_end self))
      else
        stack ← stack_push (mkEntry (c_tree self) 0 (dim_zero cx)) [];
        search_forward_loop (stack_fuel stack) filter_node true
          (mkCursor (c_tree self) stack (c_position self) true (c_at_end self))
  | _ :: _ => search_forward_loop (stack_fuel (c_stack self)) filter_node false self
  end.

Definition cursor_next (self : cursor) : outcome cursor := search_forward (fun _ => true) self.

(** [impl Iterator for Cursor]: the item returned and the cursor after it. *)
Definition cursor_iter_next (self : cursor) : outcome (option T * cursor) :=
  self ← (if c_did_seek self then Ok self else cursor_next self);
  item ← cursor_item self;
  match item with
  | Some item => self ← cursor_next self; Ok (Some item, self)
  | None => Ok (None, self)
  end.

(** Draining the iterator: a [for] loop or [collect] over the cursor. *)
Fixpoint cursor_collect (fuel : nat) (self : cursor) : outcome (list T) :=
  match fuel with
  | O => Panic
  | S fuel =>
      '(item, self) ← cursor_iter_next self;
      match item with
      | Some item => items ← cursor_collect fuel self; Ok (item :: items)
      | None => Ok []
      end
  end.

(** ** Seeking *)
Section seek.
Context {Tgt : Type} `{!SeekTarget Tgt D Cx} {G : Type} (agg : SeekAggregate T Sm G).

(** The [for] loop over the children of an internal node: the position, index,
    entry position and aggregate it ends with, and the child to descend into. *)
Fixpoint seek_children (target : Tgt) (bias : Bias) (pos e_pos : D) (index : nat) (g : G)
    (cts : list tree) (css : list Sm) : outcome (D * D * nat * G * option tree) :=
  match cts, css with
  | child_tree :: cts, child_summary :: css =>
      let child_end := dim_add_summary cx pos child_summary in
      if past cx target bias child_end then
        g ← push_tree agg g child_tree child_summary;
        seek_children target bias child_end child_end (S index) g cts css
      else Ok (pos, e_pos, index, g, Some child_tree)
  | _, _ => Ok (pos, e_pos, index, g, None)
  end.

(** The [for] loop over the items of a leaf; the flag says whether it broke out. *)
Fixpoint seek_items (target : Tgt) (bias : Bias) (pos : D) (index : nat) (g : G)
    (items : list T) (iss : list Sm) : outcome (D * nat * G * bool) :=
  match items, iss with
  | item :: items, item_summary :: iss =>
      let child_end := dim_add_summary cx pos item_summary in
      if past cx target bias child_end then
        g ← push_item agg g item item_summary;
        seek_items target bias child_end (S index) g items iss
      else Ok (pos, index, g, true)
  | _, _ => Ok (pos, index, g, false)
  end.

Fixpoint seek_loop (fuel : nat) (target : Tgt) (bias : Bias) (ascending : bool)
    (self : cursor) (g : G) : outcome (cursor * G) :=
  match c_stack self, fuel with
  | [], _ => Ok (self, g)
  | _, O => Panic
  | entry :: below, S fuel =>
      match e_tree entry with
      | Internal _ _ css cts =>
          let '(index, e_pos) :=
            if ascending then (S (e_index entry), c_position self)
            else (e_index entry, e_position entry) in
          cts ← slice_from cts index;
          css ← slice_from css index;
          '(pos, e_pos, index, g, descend) ←
            seek_children target bias (c_position self) e_pos index g cts css;
          match descend with
          | Some child_tree =>
              stack ← stack_push (mkEntry child_tree 0 pos) (mkEntry (e_tree entry) index e_pos :: below);
              seek_loop fuel target bias false
                (mkCursor (c_tree self) stack pos (c_did_seek self) (c_at_end self)) g
          | None =>
              seek_loop fuel target bias true
                (mkCursor (c_tree self) below pos (c_did_seek self) (c_at_end self)) g
          end
      | Leaf _ items iss =>
          g ← begin_leaf agg g;
          items ← slice_from items (e_index entry);
          iss ← slice_from iss (e_index entry);
          '(pos, index, g, stopped) ← seek_items target bias (c_position self) (e_index entry) g items iss;
          g ← end_leaf agg g;
          if (stopped : bool) then
            Ok (mkCursor (c_tree self) (mkEntry (e_tree entry) index (e_position entry) :: below) pos
                         (c_did_seek self) (c_at_end self), g)
          else
            seek_loop fuel target bias true
              (mkCursor (c_tree self) below pos (c_did_seek self) (c_at_end self)) g
      end
  end.

Definition seek_internal (target : Tgt) (bias : Bias) (self : cursor) (g : G) :
    outcome (cursor * G * bool) :=
  _ ← assert_that (is_ge (target_cmp cx target (c_position self)));
  stack ← (if c_did_seek self then Ok (c_stack self)
           else stack_push (mkEntry (c_tree self) 0 (dim_zero cx)) (c_stack self));
  '(self, g) ← seek_loop (stack_fuel stack) target bias false
                 (mkCursor (c_tree self) stack (c_position self) true (c_at_end self)) g;
  let self := mkCursor (c_tree self) (c_stack self) (c_position self) (c_did_seek self)
                (match c_stack self with [] => true | _ => false end) in
  end_ ← (if decide (bias = Left) then
            s ← cursor_item_summary self;
            match s with
            | Some s => Ok (dim_add_summary cx (c_position self) s)
            | None => Ok (c_position self)
            end
          else Ok (c_position self));
  Ok (self, g, bool_decide (target_cmp cx target end_ = Eq)).
End seek.

(** [impl SeekAggregate for ()] *)
Definition unit_aggregate : SeekAggregate T Sm unit :=
  mkAggregate Ok Ok (fun g _ _ => Ok g) (fun g _ _ => Ok g).

(** [impl SeekAggregate for SliceSeekAggregate] *)
Definition slice_aggregate : SeekAggregate T Sm (SliceSeekAggregate T Sm) :=
  mkAggregate
    Ok
    (fun g =>
       t ← append cx (s_tree g) (Leaf (leaf_summary g) (leaf_items g) (leaf_item_summaries g));
       Ok (mkSlice t [] [] (zero cx)))
    (fun g item s =>
       items ← arrayvec (leaf_items g ++ [item]);
       iss ← arrayvec (leaf_item_summaries g ++ [s]);
       Ok (mkSlice (s_tree g) items iss (add_summary cx (leaf_summary g) s)))
    (fun g t _ =>
       t ← append cx (s_tree g) t;
       Ok (mkSlice t (leaf_items g) (leaf_item_summaries g) (leaf_summary g))).

(** [impl SeekAggregate for SummarySeekAggregate<Output>] *)
Definition summary_aggregate {O} `{!Dimension O Sm Cx} : SeekAggregate T Sm O :=
  mkAggregate Ok Ok
    (fun g _ s => Ok (dim_add_summary cx g s)) (fun g _ s => Ok (dim_add_summary cx g s)).

Section seek_ops.
Context {Tgt : Type} `{!SeekTarget Tgt D Cx}.

Definition cursor_seek_forward (target : Tgt) (bias : Bias) (self : cursor) :
    outcome (cursor * bool) :=
  '(self, _, found) ← seek_internal unit_aggregate target bias self tt; Ok (self, found).

Definition cursor_seek (target : Tgt) (bias : Bias) (self : cursor) : outcome (cursor * bool) :=
  cursor_seek_forward target bias (cursor_reset self).

Definition cursor_slice (target : Tgt) (bias : Bias) (self : cursor) : outcome (cursor * tree) :=
  '(self, g, _) ← seek_internal slice_aggregate target bias self
                    (mkSlice (new cx) [] [] (zero cx));
  Ok (self, s_tree g).

Definition cursor_summary {O} `{!Dimension O Sm Cx} (target : Tgt) (bias : Bias) (self : cursor) :
    outcome (cursor * O) :=
  '(self, g, _) ← seek_internal summary_aggregate target bias self (dim_zero cx);
  Ok (self, g).
End seek_ops.

Definition cursor_suffix (self : cursor) : outcome (cursor * tree) :=
  cursor_slice End_new Right self.
End cursor.

(** ** [Iter]: the plain iterator over a tree *)
Record Iter (T Sm : Type) := mkIter {
  i_tree : SumTree T Sm;
  i_stack : list (StackEntry T Sm unit)
}.
Arguments mkIter {_ _} _ _.
Arguments i_tree {_ _} _.
Arguments i_stack {_ _} _.

Section iter.
Context {T Sm : Type}.
Abbreviation tree := (SumTree T Sm).
Abbreviation entry := (StackEntry T Sm unit).

Definition iter_new (t : tree) : Iter T Sm := mkIter t [].

Fixpoint iter_next_loop (fuel : nat) (descend : bool) (t : tree) (stack : list entry) :
    outcome (option T * Iter T Sm) :=
  match stack, fuel with
  | [], _ => Ok (None, mkIter t [])
  | _, O => Panic
  | entry :: below, S fuel =>
      let index := if descend then e_index entry else S (e_index entry) in
      let entry := mkEntry (e_tree entry) index tt in
      match e_tree entry with
      | Internal _ _ _ cts =>
          match cts !! index with
          | Some subtree =>
              stack ← stack_push (mkEntry subtree 0 tt) (entry :: below);
              iter_next_loop fuel true t stack
          | None => iter_next_loop fuel false t below
          end
      | Leaf _ items _ =>
          match items !! index with
          | Some next_item => Ok (Some next_item, mkIter t (entry :: below))
          | None => iter_next_loop fuel false t below
          end
      end
  end.

Definition iter_next (self : Iter T Sm) : outcome (option T * Iter T Sm) :=
  match i_stack self with
  | [] =>
      stack ← stack_push (mkEntry (i_tree self) 0 tt) [];
      iter_next_loop (stack_fuel stack) true (i_tree self) stack
  | stack => iter_next_loop (stack_fuel stack) false (i_tree self) stack
  end.

(** Draining the iterator from its current state. *)
Fixpoint iter_collect (fuel : nat) (self : Iter T Sm) : outcome (list T) :=
  match fuel with
  | O => Panic
  | S fuel =>
      '(item, self) ← iter_next self;
      match item with
      | Some item => items ← iter_collect fuel self; Ok (item :: items)
      | None => Ok []
      end
  end.

(** [Iterator::last] and [size_hint]. *)
Definition iter_last (self : Iter T Sm) : outcome (option T) :=
  leaf ← rightmost_leaf (i_tree self); items ← node_items leaf; Ok (last items).

Definition iter_size_hint (self : Iter T Sm) : nat :=
  match i_stack self with
  | top :: _ => (length (child_summaries (e_tree top)) - e_index top)%nat
  | [] => length (child_summaries (i_tree self))
  end.
End iter.

(** [SumTree::iter] drained, and [SumTree::items], which drains a cursor with the
    [()] dimension.  The number of items bounds the number of rounds. *)
Definition tree_iter {T Sm} (self : SumTree T Sm) : outcome (list T) :=
  iter_collect (cost self) (iter_new self).

Section items.
Context {T Sm Cx : Type} `{!Summary Sm Cx, !Item T Sm Cx} (cx : Cx).

Fixpoint items_loop (fuel : nat) (c : Cursor T Sm unit) : outcome (list T) :=
  match fuel with
  | O => Panic
  | S fuel =>
      item ← cursor_item c;
      match item with
      | Some item =>
          c ← cursor_next cx c;
          items ← items_loop fuel c;
          Ok (item :: items)
      | None => Ok []
      end
  end.

Definition items (self : SumTree T Sm) : outcome (list T) :=
  c ← cursor_next cx (cursor_new cx self);
  items_loop (cost self) c.
End items.

(** ** [FilterCursor] *)
Record FilterCursor (T Sm D : Type) := mkFilterCursor {
  f_cursor : Cursor T Sm D;
  f_filter_node : Sm → bool
}.
Arguments mkFilterCursor {_ _ _} _ _.
Arguments f_cursor {_ _ _} _.
Arguments f_filter_node {_ _ _} _.

Section filter_cursor.
Context {T Sm Cx : Type} `{!Summary Sm Cx, !Item T Sm Cx} (cx : Cx).
Context {D : Type} `{!Dimension D Sm Cx}.

Definition filter_cursor_new (t : SumTree T Sm) (filter_node : Sm → bool) : FilterCursor T Sm D :=
  mkFilterCursor (cursor_new cx t) filter_node.

Definition filter_cursor_start (self : FilterCursor T Sm D) : D := cursor_start (f_cursor self).
Definition filter_cursor_end (self : FilterCursor T Sm D) : outcome D := cursor_end cx (f_cursor self).
Definition filter_cursor_item (self : FilterCursor T Sm D) : outcome (option T) :=
  cursor_item (f_cursor self).
Definition filter_cursor_item_summary (self : FilterCursor T Sm D) : outcome (option Sm) :=
  cursor_item_summary (f_cursor self).

Definition filter_cursor_next (self : FilterCursor T Sm D) : outcome (FilterCursor T Sm D) :=
  c ← search_forward cx (f_filter_node self) (f_cursor self);
  Ok (mkFilterCursor c (f_filter_node self)).

Definition filter_cursor_prev (self : FilterCursor T Sm D) : outcome (FilterCursor T Sm D) :=
  c ← search_backward cx (f_filter_node self) (f_cursor self);
  Ok (mkFilterCursor c (f_filter_node self)).

Definition filter_cursor_iter_next (self : FilterCursor T Sm D) :
    outcome (option T * FilterCursor T Sm D) :=
  self ← (if c_did_seek (f_cursor self) then Ok self else filter_cursor_next self);
  item ← filter_cursor_item self;
  match item with
  | Some item => self ← filter_cursor_next self; Ok (Some item, self)
  | None => Ok (None, self)
  end.

(** Draining a filter cursor. *)
Fixpoint filter_cursor_collect (fuel : nat) (self : FilterCursor T Sm D) : outcome (list T) :=
  match fuel with
  | O => Panic
  | S fuel =>
      '(item, self) ← filter_cursor_iter_next self;
      match item with
      | Some item => items ← filter_cursor_collect fuel self; Ok (item :: items)
      | None => Ok []
      end
  end.
End filter_cursor.
