(* ===== verification/CursorFacts.v ===== *)
(** * The theory of cursors

    [frames] describes the stack of a cursor as a path through a well-formed
    tree, [cursor_at c before after] says that cursor [c] stands between the
    items [before] and [after] of its tree.  Every cursor operation is specified
    by how it moves that split; the loops are shown to terminate within their
    fuel and the stack to stay within its capacity for trees of height at most
    15. *)

From S2P Require Import Prelude Ord SumTree SumTreeFacts SeekSpec Cursor.

#[local] Arguments Nat.ltb : simpl never.
#[local] Arguments Nat.leb : simpl never.
#[local] Arguments Nat.eqb : simpl never.
#[local] Arguments stack_push : simpl never.

(** What skipping a subtree relies on: when a subtree is skipped at a position, its summary
    advances the position as its items do.  This holds of every skip in a dimension that adds
    up, and of some skips in one that does not. *)
Class SkipSums {T Sm Cx D : Type} `{!Summary Sm Cx, !Item T Sm Cx, !Dimension D Sm Cx} (cx : Cx) (d : nat)
    (skipped : D → Sm → Prop) : Prop :=
  skip_sums : ∀ h (t : SumTree T Sm) pos,
    wf_at cx d h t → skipped pos (summary t) → dim_add_summary cx pos (summary t) = dim_items cx pos (tree_items t).
#[export] Instance skip_sums_all {T Sm Cx D : Type} `{!Summary Sm Cx, !Item T Sm Cx, !Dimension D Sm Cx} (cx : Cx) (d : nat)
    `{!SummaryLaws (Sm:=Sm) cx, !DimensionLaws D (Sm:=Sm) cx} (skipped : D → Sm → Prop) : SkipSums (T:=T) cx d skipped.
Proof. intros h t pos Ht _. by apply (dim_add_tree cx d h). Qed.

Section frames.
Context {T Sm Cx : Type} `{!Summary Sm Cx, !Item T Sm Cx} (cx : Cx).
Context `{!SummaryLaws (Sm:=Sm) cx}.
Context {D : Type} `{!Dimension D Sm Cx} (d : nat).
Abbreviation tree := (SumTree T Sm).
Abbreviation entry := (StackEntry T Sm D).
Abbreviation cursor := (Cursor T Sm D).
Abbreviation wf := (wf_at cx d).
Abbreviation dims := (dim_items cx (dim_zero (D:=D) cx)).

(** ** The stack as a path *)

(** [frames root h hole stack pre post]: [stack] holds the ancestors of the node
    [hole] of height [h] in [root], the closest first, each pointing at the child
    on the path; [pre] and [post] are the items of [root] before and after it. *)
Inductive frames (root : tree) : nat → tree → list entry → list T → list T → Prop :=
  | frames_nil h : wf h root → frames root h root [] [] []
  | frames_cons h hole ht s css cl cr pos below pre post :
      wf (S h) (Internal ht s css (cl ++ hole :: cr)) →
      frames root (S h) (Internal ht s css (cl ++ hole :: cr)) below pre post →
      pos = dims (pre ++ flat_map tree_items cl) →
      frames root h hole
        (mkEntry (Internal ht s css (cl ++ hole :: cr)) (length cl) pos :: below)
        (pre ++ flat_map tree_items cl) (flat_map tree_items cr ++ post).

Lemma wf_child h ht s css cl c cr : wf (S h) (Internal ht s css (cl ++ c :: cr)) → wf h c.
Proof.
  intros (_ & _ & _ & _ & _ & Hf). apply Forall_app in Hf as [_ Hf].
  by apply Forall_cons in Hf as [[Hc _] _].
Qed.

Lemma wf_children h ht s css cts :
  wf (S h) (Internal ht s css cts) → css = summary <$> cts ∧ Forall (wf h) cts.
Proof.
  intros (_ & _ & _ & -> & _ & Hf). split; [done|].
  eapply Forall_impl; [exact Hf|]. by intros c [].
Qed.

Lemma frames_wf root h hole stack pre post : frames root h hole stack pre post → wf h hole.
Proof. destruct 1; [done|by eapply wf_child]. Qed.

Lemma frames_items root h hole stack pre post :
  frames root h hole stack pre post → tree_items root = pre ++ tree_items hole ++ post.
Proof.
  induction 1 as [|h hole ht s css cl cr pos below pre post Hw Hf IH Hpos].
  - by rewrite app_nil_r.
  - rewrite IH. cbn [tree_items]. rewrite flat_map_app. simpl. by rewrite <-!app_assoc.
Qed.

Lemma frames_height root h hole stack pre post H :
  wf H root → frames root h hole stack pre post → (h + length stack = H)%nat.
Proof.
  intros Hr. induction 1 as [h Hh|h hole ht s css cl cr pos below pre post Hw Hf IH Hpos]; simpl.
  - pose proof (wf_height cx d _ _ Hr). pose proof (wf_height cx d _ _ Hh). lia.
  - lia.
Qed.

(** ** Cursor states *)

(** The cursor stands before [after], at its first item if there is one. *)
Definition at_leaf (root : tree) (stack : list entry) (before after : list T) : Prop :=
  ∃ s its i pos below pre post,
    stack = mkEntry (Leaf s its (item_summary_of cx <$> its)) i pos :: below ∧
    frames root 0 (Leaf s its (item_summary_of cx <$> its)) below pre post ∧
    (i < length its)%nat ∧
    before = pre ++ take i its ∧ after = drop i its ++ post.

Definition cursor_at (c : cursor) (before after : list T) : Prop :=
  c_did_seek c = true ∧ tree_items (c_tree c) = before ++ after ∧
  c_position c = dims before ∧
  match after with
  | [] => c_stack c = [] ∧ c_at_end c = true
  | _ :: _ => at_leaf (c_tree c) (c_stack c) before after ∧ c_at_end c = false
  end.

(** A cursor that has not moved yet, or has moved back past the first item. *)
Definition cursor_fresh (c : cursor) : Prop :=
  c_stack c = [] ∧ c_position c = dim_zero cx ∧ c_at_end c = is_empty (c_tree c).

Lemma cursor_new_fresh t : cursor_fresh (cursor_new cx t).
Proof. done. Qed.

Lemma drop_lookup_cons {A} (l : list A) i :
  (i < length l)%nat → ∃ x, l !! i = Some x ∧ drop i l = x :: drop (S i) l.
Proof.
  intros Hi. destruct (lookup_lt_is_Some_2 l i Hi) as [x Hx]. exists x. split; [done|].
  by apply drop_S.
Qed.

(** Reading the current item. *)
Lemma cursor_item_spec c before after :
  cursor_at c before after → cursor_item c = Ok (head after).
Proof.
  intros (Hs & Hi & Hp & Hst). unfold cursor_item, assert_did_seek. rewrite Hs. simpl.
  destruct after as [|x after]; [by destruct Hst as [-> _]|].
  destruct Hst as [(s & its & i & pos & below & pre & post & -> & Hf & Hlt & -> & Ha) _].
  simpl. destruct (Nat.eqb_spec i (length its)); [lia|].
  destruct (drop_lookup_cons its i Hlt) as (y & -> & Hd). simpl.
  rewrite Hd in Ha. by injection Ha as -> _.
Qed.

Lemma cursor_item_summary_spec c before after :
  cursor_at c before after →
  cursor_item_summary c = Ok (item_summary_of cx <$> head after).
Proof.
  intros (Hs & Hi & Hp & Hst). unfold cursor_item_summary, assert_did_seek. rewrite Hs. simpl.
  destruct after as [|x after]; [by destruct Hst as [-> _]|].
  destruct Hst as [(s & its & i & pos & below & pre & post & -> & Hf & Hlt & -> & Ha) _].
  simpl. rewrite length_fmap. destruct (Nat.eqb_spec i (length its)); [lia|].
  destruct (drop_lookup_cons its i Hlt) as (y & Hy & Hd). rewrite list_lookup_fmap, Hy. simpl.
  rewrite Hd in Ha. by injection Ha as -> _.
Qed.

Lemma cursor_end_spec c before after :
  cursor_at c before after →
  cursor_end cx c = Ok (match after with [] => dims before | x :: _ => dims (before ++ [x]) end).
Proof.
  intros Hc. unfold cursor_end. rewrite (cursor_item_summary_spec _ _ _ Hc). simpl.
  destruct Hc as (_ & _ & Hp & _). unfold cursor_start. rewrite Hp.
  destruct after; simpl; [done|]. by rewrite dim_items_app.
Qed.

(** ** Fuel *)

(** Iterations left, with the top entry's child at its index still to be
    processed ([cur_cost]) or already done ([asc_cost]). *)
Definition children_cost (cts : list tree) : nat := list_sum (map (fun c => S (cost c)) cts).
Definition cur_cost (e : entry) : nat :=
  match e_tree e with
  | Leaf _ _ _ => 1
  | Internal _ _ _ cts => S (children_cost (drop (e_index e) cts))
  end.
Definition asc_cost (e : entry) : nat :=
  match e_tree e with
  | Leaf _ _ _ => 1
  | Internal _ _ _ cts => S (children_cost (drop (S (e_index e)) cts))
  end.
Definition below_cost (stack : list entry) : nat := list_sum (map asc_cost stack).

Lemma below_cost_cons e stack : below_cost (e :: stack) = (asc_cost e + below_cost stack)%nat.
Proof. done. Qed.

Lemma children_cost_app l k : children_cost (l ++ k) = (children_cost l + children_cost k)%nat.
Proof. unfold children_cost. by rewrite map_app, list_sum_app. Qed.

Lemma children_cost_drop n l : (children_cost (drop n l) ≤ children_cost l)%nat.
Proof. rewrite <-(take_drop n l) at 2. rewrite children_cost_app. lia. Qed.

Lemma cost_entry e :
  (cur_cost e ≤ cost (e_tree e))%nat ∧ (asc_cost e ≤ cost (e_tree e))%nat.
Proof.
  unfold cur_cost, asc_cost. destruct (e_tree e) as [ht s css cts|]; simpl; [|lia].
  fold (children_cost cts).
  pose proof (children_cost_drop (e_index e) cts).
  pose proof (children_cost_drop (S (e_index e)) cts). lia.
Qed.

Lemma below_cost_fuel stack : (S (below_cost stack) ≤ stack_fuel stack)%nat.
Proof.
  unfold stack_fuel, below_cost. induction stack as [|e stack IH]; simpl; [done|].
  pose proof (cost_entry e). lia.
Qed.

Lemma loop_cost_fuel e below :
  (S (cur_cost e + below_cost below) ≤ stack_fuel (e :: below))%nat ∧
  (S (asc_cost e + below_cost below) ≤ stack_fuel (e :: below))%nat.
Proof.
  pose proof (below_cost_fuel below). pose proof (cost_entry e).
  unfold stack_fuel in *. simpl. lia.
Qed.

(** Entering child [c] of an internal node costs less than having it to do. *)
Lemma enter_child_cost ht s css cl c cr pos pos' :
  (cur_cost (mkEntry c 0 pos') +
   asc_cost (mkEntry (Internal ht s css (cl ++ c :: cr)) (length cl) pos) <
   S (children_cost (c :: cr)))%nat.
Proof.
  unfold asc_cost at 1. cbn [e_tree e_index].
  replace (drop (S (length cl)) (cl ++ c :: cr)) with cr.
  2: { replace (cl ++ c :: cr) with ((cl ++ [c]) ++ cr) by by rewrite <-app_assoc.
       replace (S (length cl)) with (length (cl ++ [c])) by (rewrite length_app; simpl; lia).
       by rewrite drop_app_length. }
  pose proof (cost_entry (mkEntry c 0 pos')) as [Hc _]. simpl in Hc.
  unfold children_cost. simpl. lia.
Qed.

Lemma stack_push_ok (e : entry) stack :
  (length stack < STACK_CAPACITY)%nat → stack_push e stack = Ok (e :: stack).
Proof. intros. unfold stack_push. by rewrite (proj2 (Nat.ltb_lt _ _)). Qed.

(** ** [search_forward] *)
Section forward.
Context (f : Sm → bool).
Abbreviation rejects := (SkipSums (T:=T) (D:=D) cx d (fun _ s => f s = false)).

(** The filter never rejects a subtree that holds an accepted item. *)
Definition filter_sound : Prop :=
  ∀ h t x, wf h t → x ∈ tree_items t → f (item_summary_of cx x) = true → f (summary t) = true.

Fixpoint take_rejected (its : list T) : list T :=
  match its with
  | [] => []
  | x :: its => if f (item_summary_of cx x) then [] else x :: take_rejected its
  end.
Fixpoint drop_rejected (its : list T) : list T :=
  match its with
  | [] => []
  | x :: rest => if f (item_summary_of cx x) then its else drop_rejected rest
  end.

Lemma take_drop_rejected its : take_rejected its ++ drop_rejected its = its.
Proof. induction its as [|x its IH]; simpl; [done|]. case_match; simpl; congruence. Qed.

Lemma take_rejected_rejected its :
  Forall (fun x => f (item_summary_of cx x) = false) (take_rejected its).
Proof. induction its as [|x its IH]; simpl; [done|]. case_match; auto. Qed.

Lemma drop_rejected_head its x rest :
  drop_rejected its = x :: rest → f (item_summary_of cx x) = true.
Proof. induction its as [|y its IH]; simpl; [done|]. case_match; [|done]. by intros [= -> _]. Qed.

Lemma rejected_app l k :
  Forall (fun x => f (item_summary_of cx x) = false) l →
  take_rejected (l ++ k) = l ++ take_rejected k ∧ drop_rejected (l ++ k) = drop_rejected k.
Proof. induction 1 as [|x l Hx _ [IH1 IH2]]; simpl; [done|]. rewrite Hx, IH1, IH2. done. Qed.

Lemma rejected_tree h t :
  filter_sound → wf h t → f (summary t) = false →
  Forall (fun x => f (item_summary_of cx x) = false) (tree_items t).
Proof.
  intros Hs Ht Hf. apply Forall_forall. intros x Hx.
  destruct (f (item_summary_of cx x)) eqn:E; [|done]. by rewrite (Hs h t x) in Hf.
Qed.

(** The loop over the summaries of the remaining children. *)
Lemma skip_rejected_children `{Hsums : !rejects} h cr index e_pos pos :
  filter_sound → Forall (wf h) cr →
  ∃ cl' rest, cr = cl' ++ rest ∧
    skip_rejected cx f (summary <$> cr) index e_pos pos =
      ((index + length cl')%nat, dim_items cx e_pos (flat_map tree_items cl'),
       dim_items cx pos (flat_map tree_items cl')) ∧
    Forall (fun x => f (item_summary_of cx x) = false) (flat_map tree_items cl') ∧
    match rest with [] => True | c :: _ => f (summary c) = true end.
Proof.
  intros Hs. revert index e_pos pos. induction cr as [|c cr IH]; intros index e_pos pos Hw.
  - exists [], []. simpl. split_and!; auto. by rewrite Nat.add_0_r.
  - apply Forall_cons in Hw as [Hc Hw]. simpl. destruct (f (summary c)) eqn:E.
    + exists [], (c :: cr). simpl. split_and!; auto. by rewrite Nat.add_0_r.
    + destruct (IH (S index) (dim_add_summary cx e_pos (summary c))
                   (dim_add_summary cx pos (summary c)) Hw) as (cl' & rest & -> & Hsk & Hr & Hrest).
      exists (c :: cl'), rest. split_and!; [done| | |done].
      * etransitivity; [exact Hsk|]. cbn [length flat_map].
        rewrite !(skip_sums h c), !dim_items_app by done.
        by rewrite <-plus_n_Sm.
      * simpl. apply Forall_app. split; [by eapply rejected_tree|done].
Qed.

(** The loop over the summaries of the remaining items of a leaf. *)
Lemma skip_rejected_items its index e_pos pos :
  skip_rejected cx f (item_summary_of cx <$> its) index e_pos pos =
    ((index + length (take_rejected its))%nat, dim_items cx e_pos (take_rejected its),
     dim_items cx pos (take_rejected its)).
Proof.
  revert index e_pos pos. induction its as [|x its IH]; intros; simpl.
  - by rewrite Nat.add_0_r.
  - destruct (f (item_summary_of cx x)); simpl; [by rewrite Nat.add_0_r|].
    etransitivity; [apply IH|]. by rewrite <-plus_n_Sm.
Qed.

(** Where a forward loop stands: about to enter the top entry's tree, or done with
    the child it points at. *)
Definition fwd_state (root : tree) (descend : bool) (stack : list entry)
    (before after : list T) : Prop :=
  if descend then
    ∃ h t below post, stack = mkEntry t 0 (dims before) :: below ∧
      frames root h t below before post ∧ after = tree_items t ++ post
  else
    ∃ h hole pre, frames root h hole stack pre after ∧ before = pre ++ tree_items hole.

Definition fwd_cost (descend : bool) (stack : list entry) : nat :=
  match stack with
  | [] => 0
  | e :: below => ((if descend then cur_cost e else asc_cost e) + below_cost below)%nat
  end.

Lemma fwd_cost_false stack : fwd_cost false stack = below_cost stack.
Proof. by destruct stack. Qed.

Definition fwd_post (root : tree) (before after : list T) (c : cursor) : Prop :=
  c_tree c = root ∧ cursor_at c (before ++ take_rejected after) (drop_rejected after).

Lemma fwd_at_end root stack before after :
  stack = [] → fwd_state root false stack before after → after = [] ∧ tree_items root = before.
Proof.
  intros -> (h & hole & pre & Hf & ->). inversion Hf; subst. done.
Qed.

(** Ending in a leaf. *)
Lemma fwd_leaf_found root s its i pos below pre post before after idx :
  frames root 0 (Leaf s its (item_summary_of cx <$> its)) below pre post →
  before = pre ++ take i its → after = drop i its ++ post → (i ≤ length its)%nat →
  idx = (i + length (take_rejected (drop i its)))%nat → (idx < length its)%nat →
  fwd_post root before after
    (mkCursor root (mkEntry (Leaf s its (item_summary_of cx <$> its)) idx pos :: below)
       (dim_items cx (dims before) (take_rejected (drop i its))) true false).
Proof.
  intros Hf -> -> Hi -> Hlt. set (tr := take_rejected (drop i its)) in *.
  pose proof (take_drop_rejected (drop i its)) as Htd. fold tr in Htd.
  assert (Hdr : drop_rejected (drop i its) = drop (i + length tr) its).
  { rewrite <-drop_drop. rewrite <-Htd at 2. by rewrite drop_app_length. }
  assert (Htk : take i its ++ tr = take (i + length tr) its).
  { rewrite <-take_take_drop. f_equal. rewrite <-Htd. by rewrite take_app_length. }
  destruct (drop_lookup_cons its _ Hlt) as (x & Hx & Hd).
  assert (Hrej : take_rejected (drop i its ++ post) = tr ∧
                 drop_rejected (drop i its ++ post) = drop (i + length tr) its ++ post).
  { rewrite <-Htd, Hdr, Hd, <-app_assoc.
    rewrite Hd in Hdr. pose proof (drop_rejected_head _ _ _ Hdr) as Hxa.
    destruct (rejected_app tr ((x :: drop (S (i + length tr)) its) ++ post)) as [-> ->];
      [apply take_rejected_rejected|].
    simpl. by rewrite Hxa, app_nil_r. }
  destruct Hrej as [Hr1 Hr2]. unfold fwd_post. rewrite Hr1, Hr2, <-app_assoc, Htk.
  split; [done|]. split_and!; simpl; [done|..].
  - rewrite (frames_items _ _ _ _ _ _ Hf). simpl. rewrite <-!app_assoc.
    by rewrite (app_assoc (take _ _)), take_drop.
  - rewrite <-dim_items_app, <-app_assoc, Htk. done.
  - rewrite Hd. simpl. split; [|done]. rewrite app_comm_cons, <-Hd.
    exists s, its, (i + length tr)%nat, pos, below, pre, post. split_and!; auto.
Qed.

Lemma take_rejected_all its :
  length (take_rejected its) = length its →
  Forall (fun x => f (item_summary_of cx x) = false) its.
Proof.
  induction its as [|x its IH]; simpl; [done|]. case_match; simpl; [lia|]. auto.
Qed.

(** Handing a continuation a position further on, all items between rejected. *)
Lemma fwd_post_skip root before l after c :
  Forall (fun x => f (item_summary_of cx x) = false) l →
  fwd_post root (before ++ l) after c → fwd_post root before (l ++ after) c.
Proof.
  intros Hl [Ht Hc]. split; [done|].
  destruct (rejected_app l after Hl) as [-> ->]. by rewrite app_assoc.
Qed.

(** What the loop does from every state it can be in. *)
Definition fwd_loop_ok (root : tree) (fuel : nat) : Prop :=
  ∀ descend stack before after,
    fwd_state root descend stack before after → (fwd_cost descend stack < fuel)%nat →
    ok_with (search_forward_loop cx fuel f descend
               (mkCursor root stack (dims before) true false))
            (fwd_post root before after).

Section step.
Context `{Hsums : !rejects} (root : tree) (H : nat) (Hroot : wf H root) (Hcap : (H < STACK_CAPACITY)%nat).
Context (Hsound : filter_sound) (fuel : nat) (IH : fwd_loop_ok root fuel).

(** The rest of a leaf. *)
Lemma fwd_leaf_step s its i below pre post before e_pos :
  frames root 0 (Leaf s its (item_summary_of cx <$> its)) below pre post →
  before = pre ++ take i its → (i ≤ length its)%nat → (below_cost below < fuel)%nat →
  ok_with
    (let '(index, e_pos, pos) :=
       skip_rejected cx f (drop i (item_summary_of cx <$> its)) i e_pos (dims before) in
     if (index <? length (item_summary_of cx <$> its))%nat then
       Ok (mkCursor root (mkEntry (Leaf s its (item_summary_of cx <$> its)) index e_pos :: below)
                    pos true false)
     else search_forward_loop cx fuel f false (mkCursor root below pos true false))
    (fwd_post root before (drop i its ++ post)).
Proof using All.
  intros Hf Hb Hi Hc. rewrite <-fmap_drop, skip_rejected_items, length_fmap.
  destruct (Nat.ltb_spec (i + length (take_rejected (drop i its))) (length its)) as [Hlt|Hge].
  - simpl. by eapply fwd_leaf_found.
  - assert (Hall : Forall (fun x => f (item_summary_of cx x) = false) (drop i its)).
    { apply take_rejected_all. pose proof (take_drop_rejected (drop i its)) as E.
      apply (f_equal length) in E. rewrite length_app in E.
      rewrite length_drop in *. lia. }
    destruct (rejected_app (drop i its) [] Hall) as [Ht _]. rewrite app_nil_r in Ht.
    rewrite Ht. simpl. rewrite app_nil_r, <-dim_items_app.
    eapply ok_with_mono; [apply (IH false _ (before ++ drop i its) post)|].
    + exists 0%nat, (Leaf s its (item_summary_of cx <$> its)), pre. split; [done|].
      by rewrite Hb, <-app_assoc, take_drop.
    + by destruct below.
    + intros c. by apply fwd_post_skip.
Qed.

(** The rest of an internal node: children [cl] are done, [cr] remain. *)
Lemma fwd_children_step h ht s css cl cr below pre post before :
  frames root (S h) (Internal ht s css (cl ++ cr)) below pre post →
  before = pre ++ flat_map tree_items cl →
  (children_cost cr + below_cost below < fuel)%nat →
  ok_with
    (let '(index, e_pos, pos) :=
       skip_rejected cx f (drop (length cl) css) (length cl) (dims before) (dims before) in
     match (cl ++ cr) !! index with
     | Some subtree =>
         stack ← stack_push (mkEntry subtree 0 pos)
                   (mkEntry (Internal ht s css (cl ++ cr)) index e_pos :: below);
         search_forward_loop cx fuel f true (mkCursor root stack pos true false)
     | None => search_forward_loop cx fuel f false (mkCursor root below pos true false)
     end)
    (fwd_post root before (flat_map tree_items cr ++ post)).
Proof using All.
  intros Hf Hb Hc. pose proof (frames_wf _ _ _ _ _ _ Hf) as Hw.
  destruct (wf_children _ _ _ _ _ Hw) as [-> Hws]. apply Forall_app in Hws as [_ Hwr].
  rewrite <-fmap_drop, drop_app_length.
  destruct (skip_rejected_children h cr (length cl) (dims before) (dims before) Hsound Hwr)
    as (cl' & rest & -> & Hsk & Hrej & _). rewrite Hsk. clear Hsk.
  rewrite <-!dim_items_app. replace (length cl + length cl')%nat with (length (cl ++ cl'))
    by by rewrite length_app.
  rewrite (app_assoc cl) in *. rewrite flat_map_app, <-(app_assoc (flat_map _ cl')).
  rewrite children_cost_app in Hc.
  assert (Hb' : before ++ flat_map tree_items cl' = pre ++ flat_map tree_items (cl ++ cl'))
    by by rewrite Hb, flat_map_app, app_assoc.
  destruct rest as [|c rest].
  - rewrite app_nil_r in *. rewrite lookup_ge_None_2 by done.
    eapply ok_with_mono; [apply (IH false _ (before ++ flat_map tree_items cl') post)|].
    + eexists (S h), _, pre. split; [exact Hf|done].
    + rewrite fwd_cost_false. lia.
    + intros c. simpl. by apply fwd_post_skip.
  - rewrite list_lookup_middle by done.
    pose proof (frames_height _ _ _ _ _ _ _ Hroot Hf).
    rewrite stack_push_ok by (simpl; lia). simpl.
    eapply ok_with_mono; [eapply (IH true _ (before ++ flat_map tree_items cl'))|].
    + exists h, c. eexists _, _. split; [done|]. split; [|reflexivity].
      rewrite Hb'. constructor; [done|done|]. done.
    + pose proof (enter_child_cost ht s (summary <$> (cl ++ cl') ++ c :: rest) (cl ++ cl') c rest
        (dims (before ++ flat_map tree_items cl')) (dims (before ++ flat_map tree_items cl'))) as He.
      cbn [fwd_cost]. rewrite below_cost_cons. lia.
    + intros c'. simpl. rewrite <-app_assoc. by apply fwd_post_skip.
Qed.
End step.

Lemma search_forward_loop_ok `{Hsums : !rejects} root H fuel :
  wf H root → (H < STACK_CAPACITY)%nat → filter_sound → fwd_loop_ok root fuel.
Proof.
  intros Hroot Hcap Hs. induction fuel as [|fuel IH]; intros descend stack before after Hst Hc; [lia|].
  destruct descend; simpl in Hst.
  - destruct Hst as (h & t & below & post & -> & Hf & ->). simpl.
    pose proof (frames_wf _ _ _ _ _ _ Hf) as Hw. destruct h, t as [ht s css cts|s its iss]; try done.
    + destruct Hw as (_ & _ & -> & _). simpl in Hc.
      apply (fwd_leaf_step root H Hroot Hcap Hs fuel IH s its 0 below before post); auto; [by rewrite app_nil_r|lia|lia].
    + cbn [e_tree e_index e_position c_position c_tree c_did_seek c_at_end tree_items].
      apply (fwd_children_step root H Hroot Hcap Hs fuel IH h ht s css [] cts below before post before);
        auto; [by rewrite app_nil_r|].
      simpl in Hc. rewrite drop_0 in Hc. lia.
  - destruct Hst as (h & hole & pre & Hf & ->).
    destruct Hf as [h Hh|h hole ht s css cl cr pos below pre post Hw Hf ->]; simpl.
    + split; [done|]. unfold cursor_at; simpl. by rewrite !app_nil_r.
    + cbn [e_tree e_index e_position c_position c_tree c_did_seek c_at_end tree_items].
      rewrite (cons_middle hole cl cr), app_assoc in Hf |- *.
      replace (S (length cl)) with (length (cl ++ [hole])) by (rewrite length_app; simpl; lia).
      rewrite <-app_assoc, <-flat_map_snoc.
      apply (fwd_children_step root H Hroot Hcap Hs fuel IH h ht s css (cl ++ [hole]) cr below pre post);
        auto. simpl in Hc. unfold asc_cost in Hc. simpl in Hc.
      rewrite cons_middle, app_assoc in Hc.
      replace (S (length cl)) with (length (cl ++ [hole])) in Hc by (rewrite length_app; simpl; lia).
      rewrite drop_app_length in Hc. lia.
Qed.

(** [search_forward] moves to the first accepted item: from the start of the tree, *)
Lemma search_forward_fresh `{Hsums : !rejects} c :
  filter_sound → tree_wf cx d (c_tree c) → (N.to_nat (height (c_tree c)) < STACK_CAPACITY)%nat →
  cursor_fresh c →
  ok_with (search_forward cx f c) (fun c' => c_tree c' = c_tree c ∧
    cursor_at c' (take_rejected (tree_items (c_tree c))) (drop_rejected (tree_items (c_tree c)))).
Proof.
  destruct c as [t stack pos ds ae]; unfold cursor_fresh; simpl. intros Hs Ht Hcap (-> & -> & ->).
  unfold search_forward; cbn [c_stack c_at_end c_tree c_position].
  destruct Ht as [->|(h & _ & Ht)]; [done|].
  rewrite (wf_not_empty cx d h t Ht), stack_push_ok by (simpl; unfold STACK_CAPACITY; lia).
  cbn [mbind outcome_bind]. rewrite (wf_height cx d h t Ht), Nat2N.id in Hcap.
  pose proof (loop_cost_fuel (mkEntry t 0 (dim_zero cx)) []) as [Hfuel _].
  eapply (ok_with_mono _ (fwd_post t [] (tree_items t))); [|by intros c' [??]].
  apply (search_forward_loop_ok t h _ Ht Hcap Hs true _ [] (tree_items t)).
  - exists h, t, [], []. split_and!; [done|by constructor|by rewrite app_nil_r].
  - simpl in *. lia.
Qed.

(** and from an item, past it. *)
Lemma search_forward_at `{Hsums : !rejects} c before after :
  filter_sound → tree_wf cx d (c_tree c) → (N.to_nat (height (c_tree c)) < STACK_CAPACITY)%nat →
  cursor_at c before after →
  ok_with (search_forward cx f c) (fun c' => c_tree c' = c_tree c ∧
    cursor_at c' (before ++ take 1 after ++ take_rejected (drop 1 after)) (drop_rejected (drop 1 after))).
Proof.
  destruct c as [t stack pos ds ae]; simpl. intros Hs Ht Hcap Hat.
  unfold cursor_at in Hat; simpl in Hat.
  destruct Hat as (-> & Hi & -> & Hst). unfold search_forward; cbn [c_stack c_at_end c_tree c_position].
  destruct after as [|x after].
  { destruct Hst as [-> ->]. simpl. split; [done|]. unfold cursor_at; simpl. by rewrite !app_nil_r in *. }
  destruct Hst as [(s & its & i & pos & below & pre & post & -> & Hf & Hlt & -> & Ha) ->].
  destruct Ht as [->|(h & _ & Ht)]; [by destruct pre, (take i its)|].
  rewrite (wf_height cx d h t Ht), Nat2N.id in Hcap.
  pose proof (loop_cost_fuel (mkEntry (Leaf s its (item_summary_of cx <$> its)) i pos) below) as [_ Hfuel].
  destruct (stack_fuel _) as [|fuel]; [lia|]. simpl. rewrite list_lookup_fmap.
  destruct (drop_lookup_cons its i Hlt) as (y & Hy & Hd). rewrite Hy. simpl.
  rewrite Hd in Ha. injection Ha as <- ->. simpl. rewrite drop_0.
  eapply (ok_with_mono _ (fwd_post t ((pre ++ take i its) ++ [x]) (drop (S i) its ++ post))).
  2: { intros c' [? Hc]. split; [done|]. by rewrite <-(app_assoc _ [x]) in Hc. }
  replace (dim_add_summary cx (dims (pre ++ take i its)) (item_summary_of cx x))
    with (dims ((pre ++ take i its) ++ [x])) by by rewrite dim_items_app.
  assert (Htk : take i its ++ [x] = take (S i) its) by by erewrite take_S_r.
  apply (fwd_leaf_step t h Ht Hcap Hs fuel (search_forward_loop_ok t h fuel Ht Hcap Hs) s its (S i) below pre post);
    auto; [by rewrite <-app_assoc, Htk|]. simpl in Hfuel. lia.
Qed.
End forward.

(** ** [cursor_next] and draining a cursor *)
Lemma true_filter_sound : filter_sound (fun _ => true).
Proof. done. Qed.

#[export] Instance true_filter_sums : SkipSums (T:=T) (D:=D) cx d (fun _ s => (fun _ => true) s = false).
Proof. done. Qed.

Lemma true_filter its :
  take_rejected (fun _ => true) its = [] ∧ drop_rejected (fun _ => true) its = its.
Proof. by destruct its. Qed.

Lemma cursor_next_fresh c :
  tree_wf cx d (c_tree c) → (N.to_nat (height (c_tree c)) < STACK_CAPACITY)%nat →
  cursor_fresh c →
  ok_with (cursor_next cx c) (fun c' => c_tree c' = c_tree c ∧
    cursor_at c' [] (tree_items (c_tree c))).
Proof.
  intros. eapply ok_with_mono; [by apply (search_forward_fresh _ (Hsums:=true_filter_sums)); first apply true_filter_sound|].
  by destruct (true_filter (tree_items (c_tree c))) as [-> ->].
Qed.

Lemma cursor_next_at c before after :
  tree_wf cx d (c_tree c) → (N.to_nat (height (c_tree c)) < STACK_CAPACITY)%nat →
  cursor_at c before after →
  ok_with (cursor_next cx c) (fun c' => c_tree c' = c_tree c ∧
    cursor_at c' (before ++ take 1 after) (drop 1 after)).
Proof.
  intros. eapply ok_with_mono; [by apply (search_forward_at _ (Hsums:=true_filter_sums)); first apply true_filter_sound|].
  destruct (true_filter (drop 1 after)) as [-> ->]. by rewrite app_nil_r.
Qed.

Lemma cost_items (t : tree) : (length (tree_items t) < cost t)%nat.
Proof.
  revert t. fix IH 1. intros [ht s css cts|s its iss]; simpl; [|lia].
  induction cts as [|c cts IHc]; simpl; [lia|]. rewrite length_app. pose proof (IH c). lia.
Qed.

(** The [Iterator] of a cursor yields the items in order, whatever its state. *)
Lemma cursor_collect_at fuel c before after :
  tree_wf cx d (c_tree c) → (N.to_nat (height (c_tree c)) < STACK_CAPACITY)%nat →
  cursor_at c before after → (length after < fuel)%nat →
  cursor_collect cx fuel c = Ok after.
Proof.
  intros Ht Hh. revert c before after Ht Hh.
  induction fuel as [|fuel IH]; intros c before after Ht Hh Hc Hl; [lia|]. simpl.
  unfold cursor_iter_next. assert (c_did_seek c = true) as -> by apply Hc. simpl.
  rewrite (cursor_item_spec _ _ _ Hc). simpl. destruct after as [|x after]; simpl; [done|].
  destruct (ok_with_inv _ _ (cursor_next_at c before (x :: after) Ht Hh Hc)) as (c' & -> & Hct & Hc').
  simpl in *. rewrite (IH c' (before ++ [x]) after); [done|by rewrite Hct|by rewrite Hct|done|lia].
Qed.

Lemma cursor_collect_new t :
  tree_wf cx d t → (N.to_nat (height t) < STACK_CAPACITY)%nat →
  cursor_collect cx (cost t) (cursor_new cx t : cursor) = Ok (tree_items t).
Proof.
  intros Ht Hh. pose proof (cost_items t) as Hc. destruct (cost t) as [|fuel]; [lia|]. simpl.
  unfold cursor_iter_next. simpl.
  destruct (ok_with_inv _ _ (cursor_next_fresh (cursor_new cx t) Ht Hh (cursor_new_fresh t)))
    as (c & -> & Hct & Hat). simpl in *. rewrite (cursor_item_spec _ _ _ Hat). simpl.
  destruct (tree_items t) as [|x after]; simpl in *; [done|]. rewrite <-Hct in Ht, Hh.
  destruct (ok_with_inv _ _ (cursor_next_at c [] (x :: after) Ht Hh Hat)) as (c' & -> & Hct' & Hat').
  simpl in *. rewrite <-Hct' in Ht, Hh.
  rewrite (cursor_collect_at fuel c' [x] after); [done|done|done|done|lia].
Qed.

(** ** [search_backward] *)
Lemma foldl_children `{!DimensionLaws D (Sm:=Sm) cx} h cts pos :
  Forall (wf h) cts →
  foldl (dim_add_summary (D:=D) cx) pos (summary <$> cts) = dim_items cx pos (flat_map tree_items cts).
Proof.
  intros Hw. revert pos. induction Hw as [|c cts Hc Hw IH]; intros pos; simpl; [done|].
  rewrite (dim_add_tree cx d h c) by done. rewrite dim_items_app. apply IH.
Qed.

Lemma foldl_items (its : list T) pos :
  foldl (dim_add_summary (D:=D) cx) pos (item_summary_of cx <$> its) = dim_items cx pos its.
Proof. revert pos. induction its as [|x its IH]; intros pos; simpl; [done|]. apply IH. Qed.

(** The position kept by the parent is where the node starts. *)
Lemma frames_position root h hole below pre post :
  frames root h hole below pre post →
  match below with p :: _ => e_position p | [] => dim_zero cx end = dims pre.
Proof. by destruct 1. Qed.

Section backward.
Context `{HD : !DimensionLaws D (Sm:=Sm) cx} (f : Sm → bool).
Abbreviation rejected := (Forall (fun x => f (item_summary_of cx x) = false)).

(** The items under the first [j] children of a node, and under the others. *)
Definition items_to (j : nat) (t : tree) : list T :=
  match t with
  | Leaf _ its _ => take j its
  | Internal _ _ _ cts => flat_map tree_items (take j cts)
  end.
Definition items_from (j : nat) (t : tree) : list T :=
  match t with
  | Leaf _ its _ => drop j its
  | Internal _ _ _ cts => flat_map tree_items (drop j cts)
  end.

Lemma items_to_from j t : items_to j t ++ items_from j t = tree_items t.
Proof. destruct t; simpl; [rewrite <-flat_map_app|]; by rewrite take_drop. Qed.

Lemma items_to_all t : items_to (node_len t) t = tree_items t ∧ items_from (node_len t) t = [].
Proof. by destruct t as [ht s css cts|s its iss]; simpl; rewrite firstn_all, drop_all. Qed.

(** The number of children of the top node still to be visited, backward. *)
Definition bwd_left (descending : bool) (e : entry) : nat :=
  if descending then S (e_index e) else e_index e.

Definition bwd_state (root : tree) (descending : bool) (stack : list entry) (pos : D)
    (before after : list T) : Prop :=
  match stack with
  | [] => before = [] ∧ pos = dim_zero cx
  | e :: below => ∃ h pre post, frames root h (e_tree e) below pre post ∧
      (bwd_left descending e ≤ node_len (e_tree e))%nat ∧
      before = pre ++ items_to (bwd_left descending e) (e_tree e) ∧
      after = items_from (bwd_left descending e) (e_tree e) ++ post
  end.

Definition left_cost (j : nat) (t : tree) : nat :=
  match t with
  | Leaf _ _ _ => S j
  | Internal _ _ _ cts => S (children_cost (take j cts))
  end.
Definition bwd_cost (descending : bool) (stack : list entry) : nat :=
  match stack with
  | [] => 0
  | e :: below => (left_cost (bwd_left descending e) (e_tree e) +
                   list_sum (map (fun e => left_cost (e_index e) (e_tree e)) below))%nat
  end.

(** The cursor ends at the last accepted item before it, or before all items. *)
Definition bwd_post (root : tree) (before after : list T) (c : cursor) : Prop :=
  c_tree c = root ∧ c_did_seek c = true ∧
  match drop_rejected f (reverse before) with
  | [] => cursor_fresh c
  | x :: r => cursor_at c (reverse r) (x :: reverse (take_rejected f (reverse before)) ++ after)
  end.

Lemma bwd_post_skip root before l after c :
  rejected l → bwd_post root before (l ++ after) c → bwd_post root (before ++ l) after c.
Proof.
  intros Hl. unfold bwd_post. rewrite reverse_app.
  destruct (rejected_app f (reverse l) (reverse before)) as [-> ->];
    [by rewrite Forall_reverse|].
  by rewrite reverse_app, reverse_involutive, <-app_assoc.
Qed.

Definition bwd_loop_ok (root : tree) (fuel : nat) : Prop :=
  ∀ descending stack pos before after,
    bwd_state root descending stack pos before after → (bwd_cost descending stack < fuel)%nat →
    ok_with (search_backward_loop cx fuel f descending (mkCursor root stack pos true false))
            (bwd_post root before after).

(** One round of the loop with [S k] children left. *)
Lemma bwd_unfold fuel descending root t i ep below pos k :
  bwd_left descending (mkEntry t i ep) = S k →
  search_backward_loop cx (S fuel) f descending (mkCursor root (mkEntry t i ep :: below) pos true false) =
    (prev ← slice_to (child_summaries t) k;
     let position := foldl (dim_add_summary cx)
                       (match below with p :: _ => e_position p | [] => dim_zero cx end) prev in
     s ← unwrap (child_summaries t !! k);
     match t with
     | Internal _ _ _ cts =>
         if f s then
           c ← unwrap (cts !! k);
           stack ← stack_push (mkEntry c (length (child_summaries c) - 1)%nat (dim_zero cx))
                              (mkEntry t k position :: below);
           search_backward_loop cx fuel f true (mkCursor root stack position true false)
         else search_backward_loop cx fuel f false
                (mkCursor root (mkEntry t k position :: below) position true false)
     | Leaf _ _ _ =>
         if f s then Ok (mkCursor root (mkEntry t k position :: below) position true false)
         else search_backward_loop cx fuel f false
                (mkCursor root (mkEntry t k position :: below) position true false)
     end).
Proof.
  unfold bwd_left; simpl. destruct descending; intros E.
  - injection E as ->. simpl. destruct (slice_to _ _); [|done]. simpl.
    destruct (unwrap _) as [s|]; [|done]. simpl. by destruct (f s), t.
  - subst i. simpl. rewrite Nat.sub_0_r. destruct (slice_to _ _); [|done]. simpl.
    destruct (unwrap _) as [s|]; [|done]. simpl. by destruct (f s), t.
Qed.

Lemma middle_split {A} (l : list A) x r :
  take (length l) (l ++ x :: r) = l ∧ take (S (length l)) (l ++ x :: r) = l ++ [x] ∧
  drop (length l) (l ++ x :: r) = x :: r ∧ drop (S (length l)) (l ++ x :: r) = r ∧
  (l ++ x :: r) !! length l = Some x.
Proof.
  split_and!; [by rewrite take_app_length| |by rewrite drop_app_length| |by apply list_lookup_middle].
  - rewrite cons_middle, app_assoc.
    replace (S (length l)) with (length (l ++ [x])) by (rewrite length_app; simpl; lia).
    by rewrite take_app_length.
  - rewrite cons_middle, app_assoc.
    replace (S (length l)) with (length (l ++ [x])) by (rewrite length_app; simpl; lia).
    by rewrite drop_app_length.
Qed.

Lemma split_at {A} (l : list A) k : (k < length l)%nat → ∃ a x b, l = a ++ x :: b ∧ length a = k.
Proof.
  intros Hk. destruct (drop_lookup_cons l k Hk) as (x & _ & Hd).
  exists (take k l), x, (drop (S k) l). rewrite <-Hd, take_drop, length_take. split; [done|lia].
Qed.

Lemma slice_to_middle {A} (l r : list A) k : length l = k → slice_to (l ++ r) k = Ok l.
Proof.
  intros <-. unfold slice_to. rewrite (proj2 (Nat.leb_le _ _)) by (rewrite length_app; lia).
  by rewrite take_app_length.
Qed.

Lemma wf_len h c : wf h c → length (child_summaries c) = node_len c ∧ node_len c ≠ 0%nat.
Proof.
  destruct h, c as [ht s css cts|s its iss]; simpl; try done.
  - intros (Hne & _ & -> & _). rewrite length_fmap. by destruct its.
  - intros (_ & Hne & _ & -> & _). rewrite length_fmap. by destruct cts.
Qed.

(** Popping a finished node. *)
Lemma bwd_pop root h t below pre post :
  frames root h t below pre post →
  bwd_state root false below (dims pre) pre (tree_items t ++ post) ∧
  match below with p :: _ => e_position p | [] => dim_zero cx end = dims pre.
Proof.
  intros Hf. split; [|by eapply frames_position].
  destruct Hf as [|h hole ht s css cl cr pos below pre post Hw Hf ->]; [done|].
  exists (S h), pre, post. unfold bwd_left. cbn [e_tree e_index items_to items_from node_len].
  destruct (middle_split cl hole cr) as (-> & _ & -> & _). split_and!; [done| |done|].
  - rewrite length_app. lia.
  - simpl. by rewrite <-app_assoc.
Qed.

Section bstep.
Context (root : tree) (H : nat) (Hroot : wf H root) (Hcap : (H < STACK_CAPACITY)%nat).
Context (Hsound : filter_sound f) (fuel : nat) (IH : bwd_loop_ok root fuel).

Lemma bwd_leaf_step descending s l x r i ep below pre post pos :
  let its := l ++ x :: r in
  let t := Leaf s its (item_summary_of cx <$> its) in
  frames root 0 t below pre post →
  bwd_left descending (mkEntry t i ep) = S (length l) →
  (bwd_cost descending (mkEntry t i ep :: below) < S fuel)%nat →
  ok_with (search_backward_loop cx (S fuel) f descending
             (mkCursor root (mkEntry t i ep :: below) pos true false))
          (bwd_post root (pre ++ l ++ [x]) (r ++ post)).
Proof using All.
  intros its t Hf Hj Hc. rewrite (bwd_unfold _ _ _ _ _ _ _ _ _ Hj).
  rewrite (frames_position _ _ _ _ _ _ Hf). cbn [child_summaries t].
  unfold its at 1 2. rewrite fmap_app, fmap_cons.
  rewrite slice_to_middle by by rewrite length_fmap. simpl.
  rewrite list_lookup_middle by by rewrite length_fmap. simpl.
  rewrite foldl_items, <-dim_items_app.
  destruct (middle_split l x r) as (Htk & _ & Hdr & _).
  destruct (f (item_summary_of cx x)) eqn:E; simpl.
  - rewrite !app_assoc. unfold bwd_post; simpl. rewrite !reverse_app, reverse_singleton. simpl.
    rewrite E. simpl. rewrite <-reverse_app, reverse_involutive. split_and!; try done.
    unfold cursor_at; simpl. split_and!; try done.
    + rewrite (frames_items _ _ _ _ _ _ Hf). simpl. unfold its. by rewrite <-!app_assoc.
    + exists s, its, (length l). eexists _, below, pre, post. unfold its.
      rewrite Htk, Hdr. split_and!; try done. rewrite length_app. simpl. lia.
  - rewrite !app_assoc. apply ok_with_mono with (Q := bwd_post root (pre ++ l) ([x] ++ (r ++ post))).
    2: { intros c. apply bwd_post_skip. by constructor. }
    apply IH.
    + exists 0%nat, pre, post. unfold bwd_left. cbn [e_tree e_index items_to items_from node_len t].
      unfold its. rewrite Htk, Hdr. split_and!; try done. rewrite length_app. simpl. lia.
    + unfold bwd_cost in *. rewrite Hj in Hc. unfold bwd_left. simpl in *. lia.
Qed.

Lemma bwd_children_step descending h ht s css cl c cr i ep below pre post pos :
  let t := Internal ht s css (cl ++ c :: cr) in
  frames root (S h) t below pre post →
  bwd_left descending (mkEntry t i ep) = S (length cl) →
  (bwd_cost descending (mkEntry t i ep :: below) < S fuel)%nat →
  ok_with (search_backward_loop cx (S fuel) f descending
             (mkCursor root (mkEntry t i ep :: below) pos true false))
          (bwd_post root (pre ++ flat_map tree_items (cl ++ [c])) (flat_map tree_items cr ++ post)).
Proof using All.
  intros t Hf Hj Hc. rewrite (bwd_unfold _ _ _ _ _ _ _ _ _ Hj).
  rewrite (frames_position _ _ _ _ _ _ Hf). cbn [child_summaries t].
  pose proof (frames_wf _ _ _ _ _ _ Hf) as Hw. pose proof (frames_height _ _ _ _ _ _ _ Hroot Hf).
  destruct (wf_children _ _ _ _ _ Hw) as [Hcss Hws]. pose proof (wf_child _ _ _ _ _ _ _ Hw) as Hwc.
  apply Forall_app in Hws as [Hwl _]. rewrite Hcss, fmap_app, fmap_cons.
  rewrite slice_to_middle by by rewrite length_fmap. simpl.
  rewrite (list_lookup_middle (summary <$> cl)) by by rewrite length_fmap. simpl.
  rewrite (foldl_children h) by done. rewrite <-dim_items_app.
  unfold bwd_cost in Hc. rewrite Hj in Hc. cbn [e_tree left_cost t] in Hc.
  destruct (middle_split cl c cr) as (Htk & HtkS & Hdr & HdrS & Hlk).
  rewrite HtkS, children_cost_app in Hc. rewrite flat_map_snoc.
  destruct (f (summary c)) eqn:E; simpl.
  - rewrite Hlk. simpl. rewrite stack_push_ok by (simpl; lia). simpl.
    assert (Hlen : S (length (child_summaries c) - 1) = node_len c)
      by (pose proof (wf_len _ _ Hwc); lia).
    apply IH.
    + exists h. eexists _, _. unfold bwd_left at 1 2 3. cbn [e_tree e_index]. rewrite Hlen.
      destruct (items_to_all c) as [-> ->].
      split_and!; [by constructor|done| |]; simpl; by rewrite <-?app_assoc.
    + unfold bwd_cost, bwd_left. cbn [e_tree e_index map list_sum left_cost t]. rewrite Hlen, Htk.
      assert (left_cost (node_len c) c ≤ cost c)%nat.
      { destruct c; simpl; [rewrite firstn_all; fold children_cost|]; done. }
      unfold children_cost in *. simpl in *. lia.
  - rewrite app_assoc.
    apply ok_with_mono with (Q := bwd_post root (pre ++ flat_map tree_items cl)
                                    (tree_items c ++ (flat_map tree_items cr ++ post))).
    2: { intros c'. apply bwd_post_skip. by eapply rejected_tree. }
    apply IH.
    + exists (S h), pre, post. unfold bwd_left. cbn [e_tree e_index items_to items_from node_len t].
      rewrite Htk, Hdr. simpl. rewrite <-app_assoc. split_and!; try done. rewrite length_app. lia.
    + unfold bwd_cost, bwd_left. cbn [e_tree e_index left_cost t]. rewrite Htk.
      unfold children_cost in *. simpl in *. lia.
Qed.
End bstep.

Lemma search_backward_loop_ok root H fuel :
  wf H root → (H < STACK_CAPACITY)%nat → filter_sound f → bwd_loop_ok root fuel.
Proof.
  intros Hroot Hcap Hs. induction fuel as [|fuel IH];
    intros descending stack pos before after Hst Hc; [lia|].
  destruct stack as [|[t i ep] below].
  { destruct Hst as [-> ->]. simpl. split_and!; try done.
    split_and!; try done. simpl. by rewrite (wf_not_empty cx d H). }
  destruct Hst as (h & pre & post & Hf & Hj & -> & ->). cbn [e_tree e_index] in *.
  destruct (bwd_left descending (mkEntry t i ep)) as [|k] eqn:Ej.
  - destruct descending; [done|]. unfold bwd_left in Ej; simpl in Ej. subst i.
    destruct (bwd_pop _ _ _ _ _ _ Hf) as [Hst Hpos].
    simpl. rewrite Hpos. rewrite <-(items_to_from 0 t) in Hst.
    assert (items_to 0 t = []) as E by by destruct t. rewrite E in Hst |- *. rewrite app_nil_r.
    apply IH; [done|]. revert Hc. clear. destruct below as [|e below]; simpl.
    + unfold bwd_left; simpl. destruct t; simpl; lia.
    + unfold bwd_left; simpl. destruct t; simpl; lia.
  - pose proof (frames_wf _ _ _ _ _ _ Hf) as Hw.
    destruct t as [ht s css cts|s its iss]; cbn [node_len items_to items_from] in *;
      destruct (split_at _ k Hj) as (l & x & r & -> & <-);
      destruct (middle_split l x r) as (_ & -> & _ & -> & _); destruct h as [|h]; try done.
    + by apply (bwd_children_step root H Hroot Hcap Hs fuel IH _ h).
    + destruct Hw as (_ & _ & -> & _). by apply (bwd_leaf_step root H Hroot Hcap Hs fuel IH).
Qed.

Lemma left_cost_le j t : (j ≤ node_len t)%nat → (left_cost j t ≤ cost t)%nat.
Proof.
  destruct t as [ht s css cts|s its iss]; simpl; [|lia]. intros _.
  fold (children_cost cts). pose proof (children_cost_app (take j cts) (drop j cts)).
  rewrite take_drop in *. lia.
Qed.

Lemma frames_left_cost root h t below pre post :
  frames root h t below pre post →
  (list_sum (map (fun e => left_cost (e_index e) (e_tree e)) below) ≤
   list_sum (map (fun e => cost (e_tree e)) below))%nat.
Proof.
  induction 1 as [|h hole ht s css cl cr pos below pre post Hw Hf IH Hpos]; [done|].
  cbn [map list_sum e_index e_tree].
  pose proof (left_cost_le (length cl) (Internal ht s css (cl ++ hole :: cr))) as Hl.
  unfold list_sum in *. simpl in *. rewrite length_app in Hl. lia.
Qed.

Lemma bwd_cost_fuel root stack pos before after :
  bwd_state root false stack pos before after → (bwd_cost false stack < stack_fuel stack)%nat.
Proof.
  unfold stack_fuel. destruct stack as [|e below]; simpl; [lia|].
  intros (h & pre & post & Hf & Hj & _). apply frames_left_cost in Hf.
  pose proof (left_cost_le _ _ Hj). unfold bwd_left in *. lia.
Qed.

(** [search_backward] from the end of the tree, *)
Lemma search_backward_from_end c :
  filter_sound f → tree_wf cx d (c_tree c) → (N.to_nat (height (c_tree c)) < STACK_CAPACITY)%nat →
  c_stack c = [] → c_did_seek c = false ∨ c_at_end c = true →
  ok_with (search_backward cx f c) (bwd_post (c_tree c) (tree_items (c_tree c)) []).
Proof.
  destruct c as [t stack pos ds ae]; simpl. intros Hs Ht Hcap -> Hend. unfold search_backward.
  cbn [c_did_seek c_at_end c_stack c_tree c_position].
  assert (E : (if ds then (true, ae) else (true, true)) = (true, true)).
  { by destruct Hend as [->| ->]; [|destruct ds]. }
  rewrite E. destruct Ht as [->|(h & _ & Ht)]; [by simpl|].
  rewrite (wf_not_empty cx d h t Ht), stack_push_ok by (unfold STACK_CAPACITY; simpl; lia).
  cbn [mbind outcome_bind c_stack]. rewrite (wf_height cx d h t Ht), Nat2N.id in Hcap.
  set (stack := [mkEntry _ _ _]).
  assert (Hst : bwd_state t false stack (dim_zero cx) (tree_items t) []).
  { exists h, [], []. unfold bwd_left; simpl. destruct (wf_len _ _ Ht) as [-> _].
    destruct (items_to_all t) as [-> ->]. split_and!; [by constructor|done..]. }
  eapply (search_backward_loop_ok t h _ Ht Hcap Hs false stack); [done|by eapply bwd_cost_fuel].
Qed.

(** and from a position in it. *)
Lemma search_backward_at c before after :
  filter_sound f → tree_wf cx d (c_tree c) → (N.to_nat (height (c_tree c)) < STACK_CAPACITY)%nat →
  cursor_at c before after →
  ok_with (search_backward cx f c) (bwd_post (c_tree c) before after).
Proof.
  intros Hs Ht Hcap Hat. pose proof Hat as (Hds & Hi & Hp & Hst).
  destruct after as [|x after].
  { destruct Hst as [Hst Hae]. rewrite app_nil_r in Hi. rewrite <-Hi.
    apply search_backward_from_end; auto. }
  destruct Hst as [(s & its & i & ep & below & pre & post & Hst & Hf & Hlt & -> & Ha) Hae].
  destruct c as [t stack pos ds ae]; simpl in *; subst.
  destruct Ht as [->|(h & _ & Ht)]; [by destruct pre, (take i its)|].
  rewrite (wf_height cx d h t Ht), Nat2N.id in Hcap.
  unfold search_backward. cbn [c_did_seek c_at_end c_stack c_tree c_position mbind outcome_bind].
  assert (Hst : bwd_state t false
            (mkEntry (Leaf s its (item_summary_of cx <$> its)) i ep :: below)
            (dims (pre ++ take i its)) (pre ++ take i its) (x :: after)).
  { exists 0%nat, pre, post. unfold bwd_left; simpl. split_and!; auto. lia. }
  eapply (search_backward_loop_ok t h _ Ht Hcap Hs false); [done|by eapply bwd_cost_fuel].
Qed.

(** Before the first item there is nothing to find. *)
Lemma search_backward_start c :
  tree_wf cx d (c_tree c) → c_did_seek c = true → cursor_fresh c →
  ok_with (search_backward cx f c) (fun c' => c_tree c' = c_tree c ∧ c_did_seek c' = true ∧ cursor_fresh c').
Proof.
  destruct c as [t stack pos ds ae]; unfold cursor_fresh; simpl. intros Ht -> (-> & -> & ->).
  unfold search_backward; simpl. destruct (is_empty t) eqn:E; by simpl.
Qed.
End backward.

(** [cursor_prev] moves to the item before. *)
Lemma cursor_prev_at `{!DimensionLaws D (Sm:=Sm) cx} c before after :
  tree_wf cx d (c_tree c) → (N.to_nat (height (c_tree c)) < STACK_CAPACITY)%nat →
  cursor_at c before after →
  ok_with (cursor_prev cx c) (fun c' => c_tree c' = c_tree c ∧ c_did_seek c' = true ∧
    match reverse before with
    | [] => cursor_fresh c'
    | x :: r => cursor_at c' (reverse r) (x :: after)
    end).
Proof.
  intros Ht Hh Hat.
  eapply ok_with_mono; [by apply search_backward_at; first apply true_filter_sound|].
  unfold bwd_post. intros c'. destruct (true_filter (reverse before)) as [-> ->].
  by destruct (reverse before).
Qed.

(** ** Peeking at the neighbours *)
Lemma next_leaf_spec root h hole below pre post :
  frames root h hole below pre post →
  ok_with (next_leaf below) (fun o =>
    match o with
    | None => post = []
    | Some leaf => ∃ s its iss, leaf = Leaf s its iss ∧ its ≠ [] ∧ head its = head post
    end).
Proof.
  induction 1 as [|h hole ht s css cl cr pos below pre post Hw Hf IH Hpos]; [done|]. simpl.
  rewrite length_app. simpl.
  destruct (Nat.eqb_spec (length cl + S (length cr)) 0); [lia|].
  destruct cr as [|c cr]; simpl.
  { destruct (Nat.ltb_spec (S (length cl)) (length cl + 1)); [lia|]. exact IH. }
  destruct (Nat.ltb_spec (S (length cl)) (length cl + S (S (length cr)))); [|lia].
  assert ((cl ++ hole :: c :: cr) !! S (length cl) = Some c) as ->.
  { rewrite lookup_app_r by lia. by replace (S (length cl) - length cl)%nat with 1%nat by lia. }
  rewrite (cons_middle hole), app_assoc in Hw. apply wf_child in Hw. simpl.
  apply ok_with_fmap. eapply ok_with_mono; [by apply (leftmost_leaf_spec cx d h)|].
  intros leaf (its & s' & iss & -> & _ & Hne & k & Hk). exists s', its, iss. split_and!; [done..|].
  simpl. rewrite Hk. by destruct its.
Qed.

Lemma prev_leaf_spec root h hole below pre post :
  frames root h hole below pre post →
  ok_with (prev_leaf below) (fun o =>
    match o with
    | None => pre = []
    | Some leaf => ∃ s its iss, leaf = Leaf s its iss ∧ its ≠ [] ∧ last its = last pre
    end).
Proof.
  induction 1 as [|h hole ht s css cl cr pos below pre post Hw Hf IH Hpos]; [done|]. simpl.
  destruct (decide (cl = [])) as [->|Hcl].
  { simpl. by rewrite app_nil_r. }
  destruct (rev_case cl Hcl) as (cl' & c & ->). rewrite length_app. simpl.
  destruct (Nat.eqb_spec (length cl' + 1) 0); [lia|].
  rewrite <-app_assoc in Hw |- *. simpl in *.
  rewrite list_lookup_middle by lia. apply wf_child in Hw.
  apply ok_with_fmap. eapply ok_with_mono; [by apply (rightmost_leaf_spec cx d h)|].
  intros leaf (its & s' & iss & -> & _ & Hne & k & Hk). exists s', its, iss. split_and!; [done..|].
  rewrite flat_map_snoc, Hk, !app_assoc. symmetry. by apply last_app_ne.
Qed.

Lemma cursor_next_item_spec c before after :
  tree_wf cx d (c_tree c) → cursor_at c before after →
  cursor_next_item c = Ok (head (drop 1 after)).
Proof.
  intros Ht (Hs & Hi & Hp & Hst). unfold cursor_next_item, assert_did_seek. rewrite Hs. simpl.
  destruct after as [|x after]; [by destruct Hst as [-> ->]|].
  destruct Hst as [(s & its & i & pos & below & pre & post & -> & Hf & Hlt & -> & Ha) _]. simpl.
  destruct (drop_lookup_cons its i Hlt) as (y & Hy & Hd). rewrite Hd in Ha. injection Ha as <- ->.
  rewrite drop_0. destruct (Nat.eqb_spec (S i) (length its)) as [E|Hn].
  - rewrite drop_ge by lia. simpl.
    destruct (ok_with_inv _ _ (next_leaf_spec _ _ _ _ _ _ Hf)) as ([leaf|] & -> & Hl); simpl;
      [|by rewrite Hl].
    destruct Hl as (s' & its' & iss & -> & Hne & <-). simpl. by destruct its'.
  - destruct (drop_lookup_cons its (S i)) as (z & -> & ->); [lia|]. done.
Qed.

Lemma cursor_prev_item_spec c before after :
  tree_wf cx d (c_tree c) → cursor_at c before after →
  cursor_prev_item c = Ok (last before).
Proof.
  intros Ht (Hs & Hi & Hp & Hst). unfold cursor_prev_item, assert_did_seek. rewrite Hs. simpl.
  destruct after as [|x after].
  { destruct Hst as [-> ->]. rewrite (tree_last_spec cx d) by done. by rewrite Hi, app_nil_r. }
  destruct Hst as [(s & its & i & pos & below & pre & post & -> & Hf & Hlt & -> & Ha) _]. simpl.
  destruct (Nat.eqb_spec i 0) as [->|Hn].
  - rewrite take_0, app_nil_r.
    destruct (ok_with_inv _ _ (prev_leaf_spec _ _ _ _ _ _ Hf)) as ([leaf|] & -> & Hl); simpl;
      [|by rewrite Hl].
    destruct Hl as (s' & its' & iss & -> & Hne & <-). simpl.
    destruct (last its') eqn:E; [done|]. by apply last_None in E.
  - destruct i as [|i]; [done|]. simpl. rewrite Nat.sub_0_r.
    destruct (drop_lookup_cons its i) as (z & Hz & _); [lia|].
    rewrite Hz, (take_S_r _ _ z) by done. by rewrite app_assoc, last_snoc.
Qed.
End frames.

(** ** [Iter] and [items] *)
#[export] Instance unit_dimension_laws {Sm Cx} `{!Summary Sm Cx} (cx : Cx) :
  DimensionLaws unit (Sm:=Sm) cx.
Proof. by intros [] a b. Qed.

Section iteration.
Context {T Sm Cx : Type} `{!Summary Sm Cx, !Item T Sm Cx} (cx : Cx).
Context `{!SummaryLaws (Sm:=Sm) cx} (d : nat).
Abbreviation tree := (SumTree T Sm).
Abbreviation entry := (StackEntry T Sm unit).

(** The iterator stands at the item it returned last, the first of [after]. *)
Definition iter_post (root : tree) (before after : list T) (r : option T * Iter T Sm) : Prop :=
  r.1 = head after ∧ i_tree r.2 = root ∧
  match after with
  | [] => i_stack r.2 = []
  | _ :: _ => at_leaf cx d root (i_stack r.2) before after
  end.

Definition iter_loop_ok (root : tree) (fuel : nat) : Prop :=
  ∀ descend (stack : list entry) before after,
    fwd_state cx d root descend stack before after → (fwd_cost descend stack < fuel)%nat →
    ok_with (iter_next_loop fuel descend root stack) (iter_post root before after).

Section step.
Context (root : tree) (H : nat) (Hroot : wf_at cx d H root) (Hcap : (H < STACK_CAPACITY)%nat).
Context (fuel : nat) (IH : iter_loop_ok root fuel).

Lemma iter_children_step h ht s css cl cr (below : list entry) pre post before :
  frames cx d root (S h) (Internal ht s css (cl ++ cr)) below pre post →
  before = pre ++ flat_map tree_items cl →
  (children_cost cr + below_cost below < fuel)%nat →
  ok_with
    (match (cl ++ cr) !! length cl with
     | Some subtree =>
         stack ← stack_push (mkEntry subtree 0 tt)
                   (mkEntry (Internal ht s css (cl ++ cr)) (length cl) tt :: below);
         iter_next_loop fuel true root stack
     | None => iter_next_loop fuel false root below
     end)
    (iter_post root before (flat_map tree_items cr ++ post)).
Proof using All.
  intros Hf -> Hc. destruct cr as [|c cr].
  - rewrite app_nil_r in *. rewrite lookup_ge_None_2 by done. simpl.
    apply (IH false).
    + eexists (S h), _, pre. split; [exact Hf|done].
    + rewrite fwd_cost_false. lia.
  - rewrite list_lookup_middle by done.
    pose proof (frames_height _ _ _ _ _ _ _ _ _ Hroot Hf).
    rewrite stack_push_ok by (simpl; lia). simpl. apply (IH true).
    + exists h, c. eexists _, _. split; [by destruct (dim_items _ _ _)|].
      split; [|by rewrite <-app_assoc].
      constructor; [by eapply frames_wf|done|]. by destruct (dim_items _ _ _).
    + pose proof (enter_child_cost ht s css cl c cr tt tt).
      cbn [fwd_cost]. rewrite below_cost_cons. lia.
Qed.

Lemma iter_leaf_step s its i (below : list entry) pre post before :
  frames cx d root 0 (Leaf s its (item_summary_of cx <$> its)) below pre post →
  before = pre ++ take i its → (i ≤ length its)%nat → (below_cost below < fuel)%nat →
  ok_with
    (match its !! i with
     | Some next_item =>
         Ok (Some next_item,
             mkIter root (mkEntry (Leaf s its (item_summary_of cx <$> its)) i tt :: below))
     | None => iter_next_loop fuel false root below
     end)
    (iter_post root before (drop i its ++ post)).
Proof using All.
  intros Hf -> Hi Hc. destruct (decide (i < length its)%nat) as [Hlt|Hge].
  - destruct (drop_lookup_cons its i Hlt) as (x & -> & Hd). simpl. rewrite Hd.
    split_and!; [done..|]. simpl. rewrite app_comm_cons, <-Hd.
    exists s, its, i, tt, below, pre, post. split_and!; auto.
  - rewrite lookup_ge_None_2, drop_ge, take_ge by lia. simpl. apply (IH false).
    + exists 0%nat, (Leaf s its (item_summary_of cx <$> its)), pre. done.
    + rewrite fwd_cost_false. lia.
Qed.
End step.

Lemma iter_next_loop_ok root H fuel :
  wf_at cx d H root → (H < STACK_CAPACITY)%nat → iter_loop_ok root fuel.
Proof.
  intros Hroot Hcap. induction fuel as [|fuel IH]; intros descend stack before after Hst Hc; [lia|].
  destruct descend; simpl in Hst.
  - destruct Hst as (h & t & below & post & -> & Hf & ->). simpl.
    pose proof (frames_wf _ _ _ _ _ _ _ _ Hf) as Hw.
    destruct h, t as [ht s css cts|s its iss]; try done.
    + destruct Hw as (_ & _ & -> & _). simpl in Hc.
      apply (iter_leaf_step root H Hroot Hcap fuel IH s its 0 below before post); auto;
        [by rewrite app_nil_r|lia|lia].
    + cbn [tree_items].
      apply (iter_children_step root H Hroot Hcap fuel IH h ht s css [] cts below before post before);
        auto; [by rewrite app_nil_r|].
      simpl in Hc. rewrite drop_0 in Hc. lia.
  - destruct Hst as (h & hole & pre & Hf & ->).
    destruct Hf as [h Hh|h hole ht s css cl cr pos below pre post Hw Hf ->]; simpl; [done|].
    rewrite (cons_middle hole cl cr), app_assoc in Hf |- *.
    simpl in Hc. unfold asc_cost in Hc. simpl in Hc. rewrite cons_middle, app_assoc in Hc.
    replace (S (length cl)) with (length (cl ++ [hole])) in Hc |- *
      by (rewrite length_app; simpl; lia).
    rewrite <-(app_assoc pre), <-flat_map_snoc. rewrite drop_app_length in Hc.
    apply (iter_children_step root H Hroot Hcap fuel IH h ht s css (cl ++ [hole]) cr below pre post);
      auto. lia.
Qed.

Lemma iter_next_at root stack before after :
  tree_wf cx d root → (N.to_nat (height root) < STACK_CAPACITY)%nat →
  after ≠ [] → at_leaf cx d root stack before after →
  ok_with (iter_next (mkIter root stack)) (iter_post root (before ++ take 1 after) (drop 1 after)).
Proof.
  intros Ht Hcap Hne (s & its & i & [] & below & pre & post & -> & Hf & Hlt & -> & ->).
  unfold iter_next. cbn [i_stack i_tree].
  destruct Ht as [->|(h & _ & Ht)].
  { exfalso. apply frames_items in Hf. simpl in Hf. destruct pre, its; simpl in *; try done; lia. }
  rewrite (wf_height cx d h root Ht), Nat2N.id in Hcap.
  pose proof (loop_cost_fuel (mkEntry (Leaf s its (item_summary_of cx <$> its)) i tt) below) as [_ Hfuel].
  destruct (stack_fuel _) as [|fuel]; [lia|]. simpl.
  destruct (drop_lookup_cons its i Hlt) as (x & Hx & Hd). rewrite Hd. simpl. rewrite drop_0.
  eapply iter_leaf_step; eauto using iter_next_loop_ok.
  - rewrite <-app_assoc. f_equal. by rewrite (take_S_r _ _ x).
  - simpl in Hfuel. lia.
Qed.

Lemma iter_collect_at fuel root stack before after :
  tree_wf cx d root → (N.to_nat (height root) < STACK_CAPACITY)%nat →
  after ≠ [] → at_leaf cx d root stack before after → (length after ≤ fuel)%nat →
  iter_collect fuel (mkIter root stack) = Ok (drop 1 after).
Proof.
  intros Ht Hcap. revert stack before after.
  induction fuel as [|fuel IH]; intros stack before after Hne Hat Hl; [by destruct after; simpl in *; [|lia]|].
  simpl. destruct (ok_with_inv _ _ (iter_next_at root stack before after Ht Hcap Hne Hat))
    as ([o [t' stack']] & -> & Ho & Htr & Hst). simpl in *. subst.
  destruct after as [|x [|y after]]; simpl in *; [done|done|].
  rewrite (IH stack' (before ++ [x]) (y :: after)); [done|done|done|simpl; lia].
Qed.

Lemma iter_next_new t h :
  wf_at cx d h t → (h < STACK_CAPACITY)%nat →
  ok_with (iter_next (iter_new t)) (iter_post t [] (tree_items t)).
Proof.
  intros Ht Hcap. unfold iter_next. cbn [iter_new i_stack i_tree].
  rewrite stack_push_ok by (simpl; unfold STACK_CAPACITY; lia). cbn [mbind outcome_bind].
  pose proof (loop_cost_fuel (mkEntry t 0 tt) []) as [Hfuel _].
  apply (iter_next_loop_ok t h _ Ht Hcap true [mkEntry t 0 tt]).
  - exists h, t, [], []. split_and!; [done|by constructor|by rewrite app_nil_r].
  - simpl in *. lia.
Qed.

Lemma tree_iter_spec t :
  tree_wf cx d t → (N.to_nat (height t) < STACK_CAPACITY)%nat → tree_iter t = Ok (tree_items t).
Proof.
  intros Ht Hcap. unfold tree_iter. pose proof (cost_items t) as Hc. pose proof Ht as Ht'.
  destruct Ht as [->|(h & _ & Ht)]; [done|]. destruct (cost t) as [|fuel]; [lia|]. simpl.
  pose proof Hcap as Hcap'. rewrite (wf_height cx d h t Ht), Nat2N.id in Hcap.
  destruct (ok_with_inv _ _ (iter_next_new t h Ht Hcap)) as ([o [t' stack']] & -> & Ho & Htr & Hst).
  simpl in *. subst. destruct (tree_items t) as [|x its]; simpl; [done|].
  rewrite (iter_collect_at fuel t stack' [] (x :: its)); [done|done..|simpl in *; lia].
Qed.

Lemma items_loop_at fuel (c : Cursor T Sm unit) before after :
  tree_wf cx d (c_tree c) → (N.to_nat (height (c_tree c)) < STACK_CAPACITY)%nat →
  cursor_at cx d c before after → (length after < fuel)%nat → items_loop cx fuel c = Ok after.
Proof.
  revert c before after. induction fuel as [|fuel IH]; intros c before after Ht Hh Hc Hl; [lia|].
  simpl. rewrite (cursor_item_spec _ _ _ _ _ Hc). simpl. destruct after as [|x after]; simpl; [done|].
  destruct (ok_with_inv _ _ (cursor_next_at cx d c before (x :: after) Ht Hh Hc)) as (c' & -> & Hct & Hc').
  simpl in *. rewrite (IH c' (before ++ [x]) after); [done|by rewrite Hct|by rewrite Hct|done|lia].
Qed.

Lemma items_spec t :
  tree_wf cx d t → (N.to_nat (height t) < STACK_CAPACITY)%nat → items cx t = Ok (tree_items t).
Proof.
  intros Ht Hh. unfold items.
  destruct (ok_with_inv _ _ (cursor_next_fresh cx d (D:=unit) (cursor_new cx t) Ht Hh (cursor_new_fresh cx t)))
    as (c & -> & Hct & Hat). simpl in *.
  apply (items_loop_at _ _ []); rewrite ?Hct; auto using cost_items.
Qed.
End iteration.

(** ** [FilterCursor] *)
Section filter_cursor.
Context {T Sm Cx : Type} `{!Summary Sm Cx, !Item T Sm Cx} (cx : Cx).
Context `{!SummaryLaws (Sm:=Sm) cx}.
Context {D : Type} `{!Dimension D Sm Cx, !DimensionLaws D (Sm:=Sm) cx} (d : nat) (f : Sm → bool).
Context (Hsound : filter_sound cx d f).
Abbreviation accepted := (List.filter (fun x => f (item_summary_of cx x))).

Lemma accepted_drop (its : list T) : accepted (drop_rejected cx f its) = accepted its.
Proof. induction its as [|x its IH]; simpl; [done|]. destruct (f _) eqn:E; simpl; by rewrite ?E. Qed.

Lemma accepted_length (its : list T) :
  (length (accepted (drop_rejected cx f its)) ≤ length its)%nat.
Proof. rewrite accepted_drop. apply List.filter_length_le. Qed.

Lemma filter_collect_at fuel (c : Cursor T Sm D) before its :
  tree_wf cx d (c_tree c) → (N.to_nat (height (c_tree c)) < STACK_CAPACITY)%nat →
  cursor_at cx d c before (drop_rejected cx f its) → (length its < fuel)%nat →
  filter_cursor_collect cx fuel (mkFilterCursor c f) = Ok (accepted its).
Proof using All.
  revert c before its. induction fuel as [|fuel IH]; intros c before its Ht Hh Hc Hl; [lia|].
  simpl. unfold filter_cursor_iter_next, filter_cursor_item. simpl.
  assert (c_did_seek c = true) as -> by apply Hc. simpl.
  rewrite (cursor_item_spec _ _ _ _ _ Hc). simpl. rewrite <-(accepted_drop its).
  destruct (drop_rejected cx f its) as [|x after] eqn:E; simpl; [done|].
  rewrite (drop_rejected_head _ _ _ _ _ E). unfold filter_cursor_next. simpl.
  destruct (ok_with_inv _ _ (search_forward_at cx d f c before (x :: after) Hsound Ht Hh Hc))
    as (c' & -> & Hct & Hc'). simpl in *. rewrite drop_0 in Hc'.
  erewrite (IH c' _ after); [done|by rewrite Hct|by rewrite Hct|exact Hc'|].
  pose proof (take_drop_rejected cx f its) as Hl'. apply (f_equal length) in Hl'.
  rewrite E, length_app in Hl'. simpl in Hl'. lia.
Qed.

Lemma filter_collect_new t :
  tree_wf cx d t → (N.to_nat (height t) < STACK_CAPACITY)%nat →
  filter_cursor_collect cx (S (cost t)) (filter_cursor_new cx t f : FilterCursor T Sm D) =
    Ok (accepted (tree_items t)).
Proof using All.
  intros Ht Hh. pose proof (cost_items t) as Hl. cbn [filter_cursor_collect].
  unfold filter_cursor_iter_next, filter_cursor_next. simpl.
  destruct (ok_with_inv _ _ (search_forward_fresh cx d f (cursor_new cx t : Cursor T Sm D)
    Hsound Ht Hh (cursor_new_fresh cx t))) as (c & -> & Hct & Hat). simpl in *.
  rewrite <-Hct in Ht, Hh.
  pose proof (filter_collect_at (S (cost t)) c _ _ Ht Hh Hat) as Hc.
  cbn [filter_cursor_collect] in Hc. unfold filter_cursor_iter_next in Hc. simpl in Hc.
  assert (c_did_seek c = true) as E by apply Hat. rewrite E in Hc. apply Hc. lia.
Qed.
End filter_cursor.

(** ** Correctness of cursors *)

(** A cursor between the items [before] and [after] of its tree behaves as a
    zipper: [item], [next_item], [prev_item], [start] and [end] read the items and
    positions around the split, [next] moves it one item to the right (staying at
    the end), and [prev] one item to the left, leaving the cursor before the first
    item when there is none.  None of them panics, on trees of height at most 15. *)
Theorem cursor_motion_correct {T Sm Cx D : Type} `{!Summary Sm Cx, !Item T Sm Cx} (cx : Cx)
    `{!SummaryLaws (Sm:=Sm) cx, !Dimension D Sm Cx, !DimensionLaws D (Sm:=Sm) cx} (d : nat)
    (c : Cursor T Sm D) (before after : list T) :
  tree_wf cx d (c_tree c) → (N.to_nat (height (c_tree c)) < STACK_CAPACITY)%nat →
  cursor_at cx d c before after →
  cursor_item c = Ok (head after) ∧
  cursor_next_item c = Ok (head (drop 1 after)) ∧
  cursor_prev_item c = Ok (last before) ∧
  cursor_start c = dim_items cx (dim_zero cx) before ∧
  cursor_end cx c = Ok (dim_items cx (dim_zero cx) (before ++ take 1 after)) ∧
  ok_with (cursor_next cx c) (fun c' => cursor_at cx d c' (before ++ take 1 after) (drop 1 after)) ∧
  ok_with (cursor_prev cx c) (fun c' =>
    match reverse before with
    | [] => cursor_fresh cx c'
    | x :: r => cursor_at cx d c' (reverse r) (x :: after)
    end).
Proof.
  intros Ht Hh Hc. split_and!.
  - by eapply cursor_item_spec.
  - by eapply cursor_next_item_spec.
  - by eapply cursor_prev_item_spec.
  - by destruct Hc as (_ & _ & Hp & _).
  - rewrite (cursor_end_spec _ _ _ _ _ Hc). destruct after; simpl; by rewrite ?app_nil_r.
  - eapply ok_with_mono; [by apply cursor_next_at|]. by intros c' [_ ?].
  - eapply ok_with_mono; [by apply cursor_prev_at|]. by intros c' (_ & _ & ?).
Qed.

(** Iteration is complete and terminates: draining [Iter], the [Iterator] of a
    fresh cursor, or calling [items], yields exactly the items of the tree in
    order. *)
Theorem iteration_correct {T Sm Cx D : Type} `{!Summary Sm Cx, !Item T Sm Cx} (cx : Cx)
    `{!SummaryLaws (Sm:=Sm) cx, !Dimension D Sm Cx, !DimensionLaws D (Sm:=Sm) cx} (d : nat)
    (t : SumTree T Sm) :
  tree_wf cx d t → (N.to_nat (height t) < STACK_CAPACITY)%nat →
  tree_iter t = Ok (tree_items t) ∧ items cx t = Ok (tree_items t) ∧
  cursor_collect cx (cost t) (cursor_new cx t : Cursor T Sm D) = Ok (tree_items t).
Proof.
  intros. split_and!; [by eapply tree_iter_spec|by eapply items_spec|by eapply cursor_collect_new].
Qed.

(** A [FilterCursor] whose node filter never rejects a subtree holding an
    accepted item yields exactly the accepted items, in order, although it skips
    whole subtrees. *)
Theorem filter_cursor_correct {T Sm Cx D : Type} `{!Summary Sm Cx, !Item T Sm Cx} (cx : Cx)
    `{!SummaryLaws (Sm:=Sm) cx, !Dimension D Sm Cx, !DimensionLaws D (Sm:=Sm) cx} (d : nat)
    (f : Sm → bool) (t : SumTree T Sm) :
  filter_sound cx d f → tree_wf cx d t → (N.to_nat (height t) < STACK_CAPACITY)%nat →
  filter_cursor_collect cx (S (cost t)) (filter_cursor_new cx t f : FilterCursor T Sm D) =
    Ok (List.filter (fun x => f (item_summary_of cx x)) (tree_items t)).
Proof. intros. by apply (filter_collect_new cx d). Qed.

(** *** On a concrete tree: numbers, measured by their total *)
Lemma ex_cursor_at :
  ∃ c : Cursor N N N, c_tree c = ex_tree 20 ∧ cursor_at tt 1 c [0%N] (drop 1 (ex_items 20)).
Proof.
  destruct (ex_tree_wf 20 ltac:(lia)) as [Hw Hi]. revert Hw Hi.
  assert (Hh : (N.to_nat (height (ex_tree 20)) < STACK_CAPACITY)%nat) by (vm_compute; lia).
  revert Hh. generalize (ex_tree 20). intros t Hh Hw Hi.
  destruct (ok_with_inv _ _ (cursor_next_fresh tt 1 (D:=N) (cursor_new tt t) Hw Hh
    (cursor_new_fresh tt _))) as (c & _ & Hct & Hat). cbn [cursor_new c_tree] in *.
  rewrite <-Hct in Hw, Hh.
  destruct (ok_with_inv _ _ (cursor_next_at tt 1 c _ _ Hw Hh Hat)) as (c' & _ & Hct' & Hat').
  exists c'. rewrite Hi in Hat'. split; [congruence|done].
Qed.

Lemma cursor_motion_correct_witness :
  ∃ c : Cursor N N N, c_tree c = ex_tree 20 ∧ cursor_item c = Ok (Some 1%N) ∧
    cursor_next_item c = Ok (Some 2%N) ∧ cursor_prev_item c = Ok (Some 0%N).
Proof.
  destruct ex_cursor_at as (c & Hct & Hat). exists c.
  destruct (cursor_motion_correct tt 1 c [0%N] (drop 1 (ex_items 20)))
    as (H1 & H2 & H3 & _); [| |exact Hat|by split_and!].
  - rewrite Hct. apply ex_tree_wf. lia.
  - rewrite Hct. vm_compute. lia.
Defined.

Lemma iteration_correct_witness :
  tree_iter (ex_tree 20) = Ok (ex_items 20) ∧ items tt (ex_tree 20) = Ok (ex_items 20).
Proof.
  destruct (ex_tree_wf 20 ltac:(lia)) as [Hw Hi].
  destruct (iteration_correct (D:=N) tt 1 (ex_tree 20) Hw) as (H1 & H2 & _); [vm_compute; lia|].
  rewrite Hi in H1, H2. exact (conj H1 H2).
Defined.

Lemma ex_filter_sound (k : N) : filter_sound (T:=N) tt 1 (fun s => (k <=? s)%N).
Proof.
  intros h t x Ht Hx Hf. rewrite (wf_summary tt 1 h t Ht). apply N.leb_le in Hf. apply N.leb_le.
  revert Hx. generalize (tree_items t). intros l Hx.
  apply list_elem_of_split in Hx as (a & b & ->). rewrite fmap_app, fmap_cons.
  rewrite (sum_app tt) by done. change (sum tt (?y :: ?l)) with (foldl (add_summary tt) (add_summary tt (zero tt) y) l).
  destruct (decide (item_summary_of tt <$> b = [])) as [->|Hb]; [simpl; lia|].
  rewrite (foldl_add tt) by done. simpl in *. lia.
Qed.

Lemma filter_cursor_correct_witness :
  filter_cursor_collect tt (S (cost (ex_tree 20)))
    (filter_cursor_new tt (ex_tree 20) (fun s => (18 <=? s)%N) : FilterCursor N N N) =
  Ok [18%N; 19%N].
Proof.
  destruct (ex_tree_wf 20 ltac:(lia)) as [Hw Hi].
  rewrite (filter_cursor_correct tt 1 (fun s => (18 <=? s)%N) (ex_tree 20) (ex_filter_sound 18) Hw);
    [rewrite Hi; vm_compute; reflexivity|vm_compute; lia].
Defined.
