(* ===== verification/SeekFacts.v ===== *)
(** * The theory of cursor seeks

    [seek_internal] is one loop shared by [seek], [seek_forward], [slice],
    [suffix] and [summary], which differ in the aggregate it feeds with the items
    and subtrees it passes.  The loop is verified once, against the reference
    [scan], for any aggregate satisfying the class [AggregateSpec]; the three
    aggregates of [cursor.rs] are its instances. *)

From S2P Require Import Prelude Ord SumTree SumTreeFacts SeekSpec Cursor CursorFacts.

#[local] Arguments Nat.ltb : simpl never.
#[local] Arguments Nat.leb : simpl never.
#[local] Arguments Nat.eqb : simpl never.
#[local] Arguments stack_push : simpl never.
#[local] Arguments slice_from : simpl never.

(** ** What the loop relies on of an aggregate

    [agg_items g p l]: aggregate [g] stands for the items [p] passed so far,
    followed by the items [l] of the leaf being traversed.  The bound [n] is the
    number of items of the whole tree. *)
Class AggregateSpec {T Sm Cx G : Type} `{!Summary Sm Cx, !Item T Sm Cx} (cx : Cx) (d n : nat)
    (agg : SeekAggregate T Sm G) := {
  agg_items : G → list T → list T → Prop;
  agg_begin g p : agg_items g p [] → ok_with (begin_leaf agg g) (fun g => agg_items g p []);
  agg_item g p l x :
    agg_items g p l → (length l < 2 * TREE_BASE)%nat →
    ok_with (push_item agg g x (item_summary_of cx x)) (fun g => agg_items g p (l ++ [x]));
  agg_end g p l :
    agg_items g p l → (length (p ++ l) ≤ n)%nat →
    ok_with (end_leaf agg g) (fun g => agg_items g (p ++ l) []);
  agg_tree g p h t :
    agg_items g p [] → wf_at cx d h t → (length (p ++ tree_items t) ≤ n)%nat →
    ok_with (push_tree agg g t (summary t)) (fun g => agg_items g (p ++ tree_items t) [])
}.

(** ** What the loop relies on of a dimension

    When the target is past the end of a subtree of a tree with the given items, the summary of
    the subtree advances the position as its items do.  Every dimension that adds up has it. *)
Class SeekSums {T Sm Cx D Tgt : Type} `{!Summary Sm Cx, !Item T Sm Cx, !Dimension D Sm Cx, !SeekTarget Tgt D Cx}
    (cx : Cx) (d : nat) (items : list T) (target : Tgt) (bias : Bias) : Prop :=
  seek_sums : ∀ h (t : SumTree T Sm) (pos : D),
    wf_at cx d h t → (∀ x, x ∈ tree_items t → x ∈ items) → past cx target bias (dim_add_summary cx pos (summary t)) = true →
    dim_add_summary cx pos (summary t) = dim_items cx pos (tree_items t).
#[export] Instance seek_sums_all {T Sm Cx D Tgt : Type} `{!Summary Sm Cx, !Item T Sm Cx, !Dimension D Sm Cx, !SeekTarget Tgt D Cx} (cx : Cx) (d : nat)
    `{!SummaryLaws (Sm:=Sm) cx, !DimensionLaws D (Sm:=Sm) cx} (items : list T) (target : Tgt) bias : SeekSums (D:=D) cx d items target bias.
Proof. intros h t pos Ht _ _. by apply (dim_add_tree cx d h). Qed.

Section seek_loop.
Context {T Sm Cx : Type} `{!Summary Sm Cx, !Item T Sm Cx} (cx : Cx).
Context `{!SummaryLaws (Sm:=Sm) cx}.
Context {D : Type} `{!Dimension D Sm Cx} (d : nat).
Context {Tgt : Type} `{!SeekTarget Tgt D Cx} (target : Tgt) (bias : Bias).
Context (whole : list T) `{Hsums : !SeekSums (D:=D) cx d whole target bias}.
Context {G : Type} (agg : SeekAggregate T Sm G) (n : nat) `{!AggregateSpec cx d n agg}.
Abbreviation tree := (SumTree T Sm).
Abbreviation entry := (StackEntry T Sm D).
Abbreviation cursor := (Cursor T Sm D).
Abbreviation dims := (dim_items cx (dim_zero (D:=D) cx)).
Abbreviation is_past := (past (D:=D) cx target bias).
Abbreviation all_past pos l := (Forall (fun e => is_past e = true) (ends cx (D:=D) pos l)).

Lemma slice_from_middle {A} (l r : list A) k : length l = k → slice_from (l ++ r) k = Ok r.
Proof.
  intros <-. unfold slice_from. rewrite (proj2 (Nat.leb_le _ _)) by (rewrite length_app; lia).
  by rewrite drop_app_length.
Qed.

(** The loop over the children left: those wholly passed are pushed. *)
Lemma seek_children_spec h cr post pos index g p :
  Forall (wf_at cx d h) cr → (∀ x, x ∈ flat_map tree_items cr → x ∈ whole) →
  seekable cx target bias pos (flat_map tree_items cr ++ post) → agg_items g p [] → (length (p ++ flat_map tree_items cr) ≤ n)%nat →
  ∃ cl' rest g', cr = cl' ++ rest ∧
    seek_children cx agg target bias pos pos index g cr (summary <$> cr) =
      Ok (dim_items cx pos (flat_map tree_items cl'), dim_items cx pos (flat_map tree_items cl'),
          (index + length cl')%nat, g', head rest) ∧
    agg_items g' (p ++ flat_map tree_items cl') [] ∧ all_past pos (flat_map tree_items cl').
Proof using All.
  intros Hw Hin. revert pos index g p. induction Hw as [|c cr Hc Hw IH]; intros pos index g p Hs Hg Hn.
  { exists [], [], g. simpl. rewrite Nat.add_0_r, app_nil_r. by split_and!. }
  simpl. destruct (is_past (dim_add_summary cx pos (summary c))) eqn:E.
  2: { exists [], (c :: cr), g. simpl. rewrite Nat.add_0_r, app_nil_r. by split_and!. }
  cbn [flat_map] in Hin. rewrite (seek_sums h c) in E |- * by (try done; intros; apply Hin, elem_of_app; by left).
  simpl in Hs, Hn. rewrite <-app_assoc in Hs. apply seekable_app in Hs as [Hs1 Hs2].
  rewrite app_assoc in Hn.
  destruct (ok_with_inv _ _ (agg_tree g p h c Hg Hc ltac:(rewrite length_app in Hn; lia)))
    as (g1 & -> & Hg1). simpl.
  destruct (IH ltac:(intros; apply Hin, elem_of_app; by right) _ (S index) g1 _ Hs2 Hg1 Hn) as (cl' & rest & g' & -> & Heq & Hg' & Hp).
  exists (c :: cl'), rest, g'. split_and!; [done| | |].
  - etransitivity; [exact Heq|]. simpl. by rewrite dim_items_app, <-plus_n_Sm.
  - simpl. by rewrite app_assoc.
  - simpl. rewrite ends_app. apply Forall_app. split; [|done].
    apply seekable_past; try done. by eapply wf_items_nonempty.
Qed.

(** The loop over the items left of a leaf. *)
Lemma seek_items_spec its pos index g p l0 :
  agg_items g p l0 → (length (l0 ++ its) ≤ 2 * TREE_BASE)%nat →
  ∃ l rest g', its = l ++ rest ∧ scan cx target bias pos its = (dim_items cx pos l, rest) ∧
    seek_items cx agg target bias pos index g its (item_summary_of cx <$> its) =
      Ok (dim_items cx pos l, (index + length l)%nat, g',
          match rest with [] => false | _ :: _ => true end) ∧
    agg_items g' p (l0 ++ l) ∧ all_past pos l.
Proof using All.
  revert pos index g l0. induction its as [|x its IH]; intros pos index g l0 Hg Hn.
  { exists [], [], g. simpl. rewrite Nat.add_0_r, app_nil_r. by split_and!. }
  simpl. fold (item_end cx pos x). destruct (is_past (item_end cx pos x)) eqn:E.
  2: { exists [], (x :: its), g. simpl. rewrite Nat.add_0_r, app_nil_r. by split_and!. }
  destruct (ok_with_inv _ _ (agg_item g p l0 x Hg ltac:(rewrite length_app in Hn; cbn [length] in Hn; lia)))
    as (g1 & -> & Hg1). simpl.
  destruct (IH (item_end cx pos x) (S index) g1 (l0 ++ [x]) Hg1) as (l & rest & g' & -> & Hsc & Heq & Hg' & Hp);
    [by rewrite <-app_assoc|].
  exists (x :: l), rest, g'. split_and!; [done|done| |by rewrite <-app_assoc in Hg'|by constructor].
  etransitivity; [exact Heq|]. simpl. by rewrite <-plus_n_Sm.
Qed.

(** ** The loop *)
Definition seek_state (root : tree) (ascending : bool) (stack : list entry)
    (before after : list T) : Prop :=
  if ascending then fwd_state cx d root false stack before after
  else ∃ h t i ep below pre post, stack = mkEntry t i ep :: below ∧
    frames cx d root h t below pre post ∧ (i ≤ node_len t)%nat ∧
    before = pre ++ items_to i t ∧ after = items_from i t ++ post ∧
    (h ≠ 0%nat → i = 0%nat ∧ ep = dims before).

Definition seek_cost (ascending : bool) (stack : list entry) : nat := fwd_cost (negb ascending) stack.

Definition seek_post (root : tree) (before p after : list T) (r : cursor * G) : Prop :=
  c_tree r.1 = root ∧ c_did_seek r.1 = true ∧
  ∃ l rest, after = l ++ rest ∧
    scan cx target bias (dims before) after = (dims (before ++ l), rest) ∧
    c_position r.1 = dims (before ++ l) ∧ agg_items r.2 (p ++ l) [] ∧
    match rest with
    | [] => c_stack r.1 = []
    | _ :: _ => at_leaf cx d root (c_stack r.1) (before ++ l) rest
    end.

Lemma seek_post_skip root before p l after r :
  all_past (dims before) l → seek_post root (before ++ l) (p ++ l) after r →
  seek_post root before p (l ++ after) r.
Proof using All.
  intros Hl (Ht & Hd & l' & rest & -> & Hsc & Hp & Hg & Hst). split_and!; [done..|].
  exists (l ++ l'), rest. rewrite (app_assoc before), (app_assoc p).
  split_and!; try done; [by rewrite app_assoc|].
  rewrite scan_past by done. by rewrite <-dim_items_app.
Qed.

Definition seek_loop_ok (root : tree) (ae : bool) (fuel : nat) : Prop :=
  ∀ ascending stack before p after g,
    seek_state root ascending stack before after → (seek_cost ascending stack < fuel)%nat →
    seekable cx target bias (dims before) after → agg_items g p [] →
    (length (p ++ after) ≤ n)%nat →
    ok_with (seek_loop cx agg fuel target bias ascending (mkCursor root stack (dims before) true ae) g)
            (seek_post root before p after).

Section step.
Context (root : tree) (H : nat) (Hroot : wf_at cx d H root) (Hcap : (H < STACK_CAPACITY)%nat).
Context (Hwhole : tree_items root = whole).
Context (ae : bool) (fuel : nat) (IH : seek_loop_ok root ae fuel).

Lemma seek_children_step h ht s css cl cr (below : list entry) pre post before p g :
  frames cx d root (S h) (Internal ht s css (cl ++ cr)) below pre post →
  before = pre ++ flat_map tree_items cl → (children_cost cr + below_cost below < fuel)%nat →
  seekable cx target bias (dims before) (flat_map tree_items cr ++ post) →
  agg_items g p [] → (length (p ++ flat_map tree_items cr ++ post) ≤ n)%nat →
  ok_with
    (cts ← slice_from (cl ++ cr) (length cl);
     css' ← slice_from css (length cl);
     '(pos, e_pos, index, g, descend) ←
       seek_children cx agg target bias (dims before) (dims before) (length cl) g cts css';
     match descend with
     | Some child_tree =>
         stack ← stack_push (mkEntry child_tree 0 pos)
                   (mkEntry (Internal ht s css (cl ++ cr)) index e_pos :: below);
         seek_loop cx agg fuel target bias false (mkCursor root stack pos true ae) g
     | None => seek_loop cx agg fuel target bias true (mkCursor root below pos true ae) g
     end)
    (seek_post root before p (flat_map tree_items cr ++ post)).
Proof using All.
  intros Hf Hb Hc Hs Hg Hn. pose proof (frames_wf _ _ _ _ _ _ _ _ Hf) as Hw.
  destruct (wf_children _ _ _ _ _ _ _ Hw) as [-> Hws]. apply Forall_app in Hws as [_ Hwr].
  rewrite slice_from_middle by done. simpl.
  rewrite fmap_app, slice_from_middle by by rewrite length_fmap. rewrite <-fmap_app.
  cbn [mbind outcome_bind].
  assert (Hin : ∀ x, x ∈ flat_map tree_items cr → x ∈ whole).
  { intros x Hx. rewrite <-Hwhole, (frames_items _ _ _ _ _ _ _ _ Hf). cbn. rewrite flat_map_app, !elem_of_app. auto. }
  destruct (seek_children_spec h cr post (dims before) (length cl) g p Hwr Hin Hs Hg)
    as (cl' & rest & g' & -> & Heq & Hg' & Hp).
  { rewrite app_assoc, length_app in Hn. lia. }
  rewrite Heq. clear Heq. cbn [mbind outcome_bind].
  rewrite <-!dim_items_app. replace (length cl + length cl')%nat with (length (cl ++ cl'))
    by by rewrite length_app.
  rewrite (app_assoc cl) in *. rewrite flat_map_app, <-(app_assoc (flat_map _ cl')) in *.
  rewrite children_cost_app in Hc. rewrite (app_assoc p) in Hn.
  apply seekable_app in Hs as [_ Hs]. rewrite <-dim_items_app in Hs.
  assert (Hb' : before ++ flat_map tree_items cl' = pre ++ flat_map tree_items (cl ++ cl'))
    by by rewrite Hb, flat_map_app, app_assoc.
  eapply ok_with_mono; [|intros r; by apply seek_post_skip].
  destruct rest as [|c rest]; simpl.
  - rewrite app_nil_r in Hf. apply (IH true); try done.
    + eexists (S h), _, pre. split; [exact Hf|done].
    + unfold seek_cost; simpl. rewrite fwd_cost_false. lia.
  - pose proof (frames_height _ _ _ _ _ _ _ _ _ Hroot Hf).
    rewrite stack_push_ok by (simpl; lia). simpl. apply (IH false); try done.
    + exists h, c, 0%nat. eexists _, _, _, _. split; [done|]. split.
      { rewrite Hb'. by constructor. }
      split_and!; [lia|by destruct c; rewrite app_nil_r| |done].
      rewrite <-app_assoc. by destruct c.
    + pose proof (enter_child_cost ht s (summary <$> (cl ++ cl') ++ c :: rest) (cl ++ cl') c rest
        (dims (before ++ flat_map tree_items cl')) (dims (before ++ flat_map tree_items cl'))) as He.
      unfold seek_cost; cbn [fwd_cost negb]. rewrite below_cost_cons. lia.
Qed.

Lemma seek_leaf_step s its i (below : list entry) pre post before p g ep :
  frames cx d root 0 (Leaf s its (item_summary_of cx <$> its)) below pre post →
  before = pre ++ take i its → (i ≤ length its)%nat → (below_cost below < fuel)%nat →
  seekable cx target bias (dims before) (drop i its ++ post) →
  agg_items g p [] → (length (p ++ drop i its ++ post) ≤ n)%nat →
  ok_with
    (g ← begin_leaf agg g;
     items ← slice_from its i;
     iss ← slice_from (item_summary_of cx <$> its) i;
     '(pos, index, g, stopped) ← seek_items cx agg target bias (dims before) i g items iss;
     g ← end_leaf agg g;
     if (stopped : bool) then
       Ok (mkCursor root (mkEntry (Leaf s its (item_summary_of cx <$> its)) index ep :: below) pos true ae, g)
     else seek_loop cx agg fuel target bias true (mkCursor root below pos true ae) g)
    (seek_post root before p (drop i its ++ post)).
Proof using All.
  intros Hf Hb Hi Hc Hs Hg Hn.
  pose proof (frames_wf _ _ _ _ _ _ _ _ Hf) as (_ & Hlen & _).
  destruct (ok_with_inv _ _ (agg_begin g p Hg)) as (g1 & -> & Hg1). simpl.
  unfold slice_from. rewrite length_fmap, (proj2 (Nat.leb_le _ _)) by done. simpl.
  rewrite <-fmap_drop.
  destruct (seek_items_spec (drop i its) (dims before) i g1 p [] Hg1)
    as (l & rest & g2 & Hd & Hsc & Heq & Hg2 & Hp).
  { rewrite length_app, length_drop. cbn [length]. lia. }
  rewrite Heq. simpl. rewrite Hd, <-app_assoc in *. rewrite (app_assoc p), length_app in Hn.
  destruct (ok_with_inv _ _ (agg_end g2 p l Hg2 ltac:(lia))) as (g3 & -> & Hg3). simpl.
  rewrite <-dim_items_app in *. apply seekable_app in Hs as [_ Hs].
  destruct rest as [|x rest].
  - eapply ok_with_mono; [|intros r; by apply seek_post_skip]. rewrite app_nil_r in Hd.
    apply (IH true); try done.
    + exists 0%nat, (Leaf s its (item_summary_of cx <$> its)), pre. split; [done|].
      by rewrite Hb, <-app_assoc, <-Hd, take_drop.
    + unfold seek_cost; simpl. by rewrite fwd_cost_false.
    + by rewrite dim_items_app.
    + by rewrite length_app.
  - simpl. unfold seek_post. split_and!; [done..|]. exists l, (x :: rest ++ post). split_and!; try done.
    + destruct (scan_split cx target bias (dims before) (l ++ x :: rest)) as (pre' & Hi' & Hp' & Hf' & Hx).
      rewrite Hsc in Hx. simpl in Hx. specialize (Hx x rest eq_refl).
      rewrite scan_past, <-dim_items_app by done. simpl. by rewrite Hx.
    + assert (Hlt : (i + length l < length its)%nat).
      { apply (f_equal length) in Hd. rewrite length_drop, length_app in Hd. simpl in Hd. lia. }
      simpl. exists s, its, (i + length l)%nat, ep, below, pre, post. split_and!; [done..| |].
      * rewrite Hb, <-app_assoc. f_equal. rewrite <-take_take_drop, Hd. by rewrite take_app_length.
      * rewrite <-drop_drop, Hd. by rewrite drop_app_length.
Qed.
End step.

Lemma seek_loop_ok_all root H ae fuel :
  wf_at cx d H root → (H < STACK_CAPACITY)%nat → tree_items root = whole → seek_loop_ok root ae fuel.
Proof using All.
  intros Hroot Hcap Hwhole. induction fuel as [|fuel IH];
    intros ascending stack before p after g Hst Hc Hs Hg Hn; [lia|].
  unfold seek_cost in Hc. destruct ascending; simpl in Hst.
  - destruct Hst as (h & hole & pre & Hf & ->).
    destruct Hf as [h Hh|h hole ht s css cl cr pos below pre post Hw Hf ->]; simpl.
    + split_and!; [done..|]. exists [], []. simpl. rewrite !app_nil_r. by split_and!.
    + cbn [e_tree e_index e_position c_position c_tree c_did_seek c_at_end].
      rewrite (cons_middle hole cl cr), app_assoc in Hf |- *.
      simpl in Hc. unfold asc_cost in Hc. simpl in Hc. rewrite cons_middle, app_assoc in Hc.
      replace (S (length cl)) with (length (cl ++ [hole])) in Hc |- *
        by (rewrite length_app; simpl; lia).
      rewrite drop_app_length in Hc. rewrite <-(app_assoc pre), <-flat_map_snoc in Hs |- *.
      apply (seek_children_step root H Hroot Hcap Hwhole ae fuel IH h ht s css (cl ++ [hole]) cr below pre post);
        auto. lia.
  - destruct Hst as (h & t & i & ep & below & pre & post & -> & Hf & Hi & -> & -> & Hz).
    pose proof (frames_wf _ _ _ _ _ _ _ _ Hf) as Hw. simpl in Hc.
    destruct h as [|h], t as [ht s css cts|s its iss]; try done.
    + destruct Hw as (_ & _ & -> & _). simpl in *.
      apply (seek_leaf_step root H Hroot Hcap Hwhole ae fuel IH s its i below pre post); auto. lia.
    + destruct Hz as [-> ->]; [done|]. simpl in *. rewrite drop_0, ?app_nil_r in *.
      apply (seek_children_step root H Hroot Hcap Hwhole ae fuel IH h ht s css [] cts below pre post pre);
        auto; [by rewrite app_nil_r|]. unfold cur_cost in Hc. simpl in Hc. lia.
Qed.

(** ** [seek_internal] *)

(** A cursor a seek may start from: not moved yet, or standing somewhere. *)
Definition seek_ready (c : cursor) (before after : list T) : Prop :=
  (c_did_seek c = false ∧ cursor_fresh cx c ∧ before = [] ∧ after = tree_items (c_tree c)) ∨
  cursor_at cx d c before after.

(** Whether the seek landed exactly on the target. *)
Definition landed (before rest : list T) : bool :=
  bool_decide (target_cmp cx target
    (dims (before ++ if decide (bias = Left) then take 1 rest else [])) = Eq).

Definition internal_post (root : tree) (before after : list T) (r : cursor * G * bool) : Prop :=
  let '(c, g, found) := r in
  c_tree c = root ∧ ∃ l rest, after = l ++ rest ∧
    scan cx target bias (dims before) after = (dims (before ++ l), rest) ∧
    cursor_at cx d c (before ++ l) rest ∧ agg_items g l [] ∧ found = landed (before ++ l) rest.

(** The end of [seek_internal], after its loop. *)
Lemma seek_finish root before after c g :
  tree_items root = before ++ after → seek_post root before [] after (c, g) →
  ok_with
    (let self := mkCursor (c_tree c) (c_stack c) (c_position c) (c_did_seek c)
                   (match c_stack c with [] => true | _ => false end) in
     end_ ← (if decide (bias = Left) then
               s ← cursor_item_summary self;
               match s with
               | Some s => Ok (dim_add_summary cx (c_position self) s)
               | None => Ok (c_position self)
               end
             else Ok (c_position self));
     Ok (self, g, bool_decide (target_cmp cx target end_ = Eq)))
    (internal_post root before after).
Proof using All.
  destruct c as [t stack pos ds ae]. intros Hr (Ht & Hd & l & rest & -> & Hsc & Hp & Hg & Hst).
  simpl in *. subst. set (c := mkCursor _ _ _ _ _).
  assert (Hat : cursor_at cx d c (before ++ l) rest).
  { unfold cursor_at; simpl. rewrite <-app_assoc. split_and!; [done..|].
    destruct rest; [by subst|]. split; [done|].
    by destruct Hst as (?&?&?&?&?&?&?&->&_). }
  unfold internal_post, landed. destruct (decide (bias = Left)); simpl.
  - rewrite (cursor_item_summary_spec _ _ _ _ _ Hat).
    destruct rest as [|x rest]; simpl; (split; [done|]); eexists l, _; split_and!; try done.
    + by rewrite app_nil_r.
    + by rewrite (dim_items_app _ _ _ [x]).
  - split; [done|]. exists l, rest. split_and!; try done. by rewrite app_nil_r.
Qed.

Lemma seek_ready_items c before after :
  seek_ready c before after → tree_items (c_tree c) = before ++ after.
Proof. intros [(_ & _ & -> & ->)|(_ & ? & _)]; done. Qed.

Lemma seek_internal_spec c before after g :
  tree_wf cx d (c_tree c) → (N.to_nat (height (c_tree c)) < STACK_CAPACITY)%nat →
  tree_items (c_tree c) = whole → seek_ready c before after → is_ge (target_cmp cx target (dims before)) = true →
  seekable cx target bias (dims before) after → agg_items g [] [] → (length (tree_items (c_tree c)) ≤ n)%nat →
  ok_with (seek_internal cx agg target bias c g) (internal_post (c_tree c) before after).
Proof using All.
  intros Ht Hh Hwhole Hr Hge Hs Hg Hn. pose proof (seek_ready_items _ _ _ Hr) as Hi.
  assert (Hp : c_position c = dims before).
  { destruct Hr as [(_ & (_ & -> & _) & -> & _)|(_ & _ & -> & _)]; done. }
  unfold seek_internal. rewrite Hp, Hge. cbn [assert_that mbind outcome_bind].
  assert (Hna : (length ([] ++ after) ≤ n)%nat) by (rewrite Hi, length_app in Hn; simpl; lia).
  cut (ok_with
    (stack ← (if c_did_seek c then Ok (c_stack c)
              else stack_push (mkEntry (c_tree c) 0 (dim_zero cx)) (c_stack c));
     seek_loop cx agg (stack_fuel stack) target bias false
       (mkCursor (c_tree c) stack (dims before) true (c_at_end c)) g)
    (seek_post (c_tree c) before [] after)).
  { intros Hl. destruct (if c_did_seek c then _ else _) as [stack|]; [|done].
    cbn [mbind outcome_bind] in *. apply ok_with_bind. eapply ok_with_mono; [exact Hl|].
    intros [c' g'] Hpost. by apply seek_finish. }
  unfold seek_ready, cursor_at, cursor_fresh in Hr.
  destruct c as [t stack pos ds ae]. cbn [c_tree c_stack c_position c_did_seek c_at_end] in *.
  destruct Hr as [(-> & (-> & _ & _) & -> & ->)|(-> & _ & _ & Hst)]; cbn [c_tree c_stack c_at_end] in *.
  - rewrite stack_push_ok by (simpl; unfold STACK_CAPACITY; lia). cbn [mbind outcome_bind].
    destruct Ht as [->|(h & _ & Ht)].
    { simpl. destruct (ok_with_inv _ _ (agg_begin g [] Hg)) as (g1 & -> & Hg1). simpl.
      destruct (ok_with_inv _ _ (agg_end g1 [] [] Hg1 Hna)) as (g2 & -> & Hg2). simpl.
      split_and!; [done..|]. by exists [], []. }
    rewrite (wf_height cx d h t Ht), Nat2N.id in Hh.
    apply (seek_loop_ok_all t h ae _ Ht Hh Hwhole false); try done.
    + exists h, t, 0%nat. eexists _, [], [], []. split; [done|].
      split_and!; [by constructor|lia|by destruct t|by destruct t; rewrite app_nil_r|].
      intros _. split; [done|]. by destruct t.
    + pose proof (loop_cost_fuel (mkEntry t 0 (dim_zero (D:=D) cx)) []) as [Hfuel _].
      unfold seek_cost. simpl in *. lia.
  - cbn [mbind outcome_bind]. destruct after as [|x after].
    { destruct Hst as [-> _]. simpl. split_and!; [done..|]. exists [], []. simpl.
      rewrite app_nil_r. by split_and!. }
    destruct Hst as [(s & its & i & ep & below & pre & post & -> & Hf & Hlt & -> & Ha) _].
    destruct Ht as [->|(h & _ & Ht)]; [by destruct pre, (take i its)|].
    rewrite (wf_height cx d h t Ht), Nat2N.id in Hh.
    apply (seek_loop_ok_all t h ae _ Ht Hh Hwhole false); try done.
    + exists 0%nat, (Leaf s its (item_summary_of cx <$> its)), i, ep, below, pre, post.
      split_and!; simpl; auto; try lia; done.
    + pose proof (loop_cost_fuel (mkEntry (Leaf s its (item_summary_of cx <$> its)) i ep) below)
        as [Hfuel _]. unfold seek_cost. simpl in *. lia.
Qed.
End seek_loop.

(** ** The aggregates *)
Section aggregates.
Context {T Sm Cx : Type} `{!Summary Sm Cx, !Item T Sm Cx} (cx : Cx).
Context `{!SummaryLaws (Sm:=Sm) cx} (d n : nat).
Abbreviation tree := (SumTree T Sm).

#[export] Instance unit_aggregate_spec : AggregateSpec cx d n (unit_aggregate (T:=T) (Sm:=Sm)).
Proof. exists (fun _ _ _ => True); done. Defined.

#[export] Instance summary_aggregate_spec {O} `{!Dimension O Sm Cx, !DimensionLaws O (Sm:=Sm) cx} :
  AggregateSpec cx d n (summary_aggregate (T:=T) (O:=O) cx).
Proof.
  exists (fun g p l => g = dim_items cx (dim_zero cx) (p ++ l)); simpl.
  - done.
  - intros g p l x -> _. by rewrite app_assoc, (dim_items_app _ _ _ [x]).
  - intros g p l -> _. by rewrite app_nil_r.
  - intros g p h t -> Ht _. rewrite !app_nil_r, (dim_add_tree cx d h t) by done.
    by rewrite dim_items_app.
Defined.

(** A slice under construction: the tree so far, then the leaf being copied. *)
Definition slice_items (g : SliceSeekAggregate T Sm) (p l : list T) : Prop :=
  tree_wf cx d (s_tree g) ∧ tree_items (s_tree g) = p ∧
  leaf_items g = l ∧ leaf_item_summaries g = item_summary_of cx <$> l ∧
  leaf_summary g = sum cx (item_summary_of cx <$> l) ∧ (length l ≤ 2 * TREE_BASE)%nat.

Lemma slice_leaf_wf (l : list T) :
  (length l ≤ 2 * TREE_BASE)%nat →
  tree_wf cx d (Leaf (sum cx (item_summary_of cx <$> l)) l (item_summary_of cx <$> l)).
Proof.
  intros Hl. destruct l as [|x l]; [by left|]. right. exists 0%nat. split; [lia|]. by apply wf_leaf.
Qed.

Context (Hn : ∀ its : list T, (length its ≤ n)%nat → fits d 255 its).

#[export] Instance slice_aggregate_spec : AggregateSpec cx d n (slice_aggregate (T:=T) cx).
Proof using All.
  exists slice_items; cbn [begin_leaf end_leaf push_item push_tree slice_aggregate].
  - done.
  - intros g p l x (Hw & Hp & Hl & Hs & Hsum & Hlen) Hlt.
    rewrite !arrayvec_ok; rewrite ?Hl, ?Hs, ?length_app, ?length_fmap; try (cbn [length]; lia).
    simpl. split_and!; try done; simpl.
    + by rewrite fmap_app.
    + rewrite Hsum, fmap_app. unfold sum. by rewrite foldl_app.
    + rewrite length_app. unfold TREE_BASE in *. simpl in *. lia.
  - intros g p l (Hw & Hp & Hl & Hs & Hsum & Hlen) Hle. apply ok_with_bind.
    rewrite Hl, Hs, Hsum.
    eapply ok_with_mono; [apply (append_spec cx d); [done|by apply slice_leaf_wf|]|].
    + rewrite Hp. by apply Hn.
    + intros t [Ht Hi]. simpl. rewrite Hp in Hi. split_and!; simpl; try done; lia.
  - intros g p h t (Hw & Hp & Hl & Hs & Hsum & Hlen) Ht Hle. apply ok_with_bind.
    assert (Hf : fits d 255 (tree_items (s_tree g) ++ tree_items t)) by (rewrite Hp; by apply Hn).
    eapply ok_with_mono; [apply (append_spec cx d); [done| |done]|].
    + right. exists h. split; [|done].
      pose proof (wf_fits_height cx d 255 h t Ht (fits_app_r _ _ _ _ Hf)). lia.
    + intros t' [Ht' Hi]. rewrite Hp in Hi. by split_and!.
Defined.
End aggregates.

(** ** The seeking operations *)
Section seek_ops.
Context {T Sm Cx : Type} `{!Summary Sm Cx, !Item T Sm Cx} (cx : Cx).
Context `{!SummaryLaws (Sm:=Sm) cx}.
Context {D : Type} `{!Dimension D Sm Cx} (d : nat).
Abbreviation tree := (SumTree T Sm).
Abbreviation cursor := (Cursor T Sm D).
Abbreviation dims := (dim_items cx (dim_zero (D:=D) cx)).

Section target.
Context {Tgt : Type} `{!SeekTarget Tgt D Cx} (target : Tgt) (bias : Bias).
Context (c : cursor) (before after : list T).
Context `{Hsums : !SeekSums (D:=D) cx d (tree_items (c_tree c)) target bias}.
Context (Ht : tree_wf cx d (c_tree c)) (Hh : (N.to_nat (height (c_tree c)) < STACK_CAPACITY)%nat).
Context (Hr : seek_ready cx d c before after).
Context (Hge : is_ge (target_cmp cx target (dims before)) = true).
Context (Hs : seekable cx target bias (dims before) after).

(** Where a seek takes the cursor: past the items [l]. *)
Definition sought (c' : cursor) (l rest : list T) : Prop :=
  c_tree c' = c_tree c ∧ after = l ++ rest ∧
  scan cx target bias (dims before) after = (dims (before ++ l), rest) ∧
  cursor_at cx d c' (before ++ l) rest.

Lemma cursor_seek_forward_spec :
  ok_with (cursor_seek_forward cx target bias c) (fun r =>
    ∃ l rest, sought r.1 l rest ∧ r.2 = landed cx target bias (before ++ l) rest).
Proof using All.
  unfold cursor_seek_forward. apply ok_with_bind. eapply ok_with_mono.
  { eapply (seek_internal_spec cx d target bias (tree_items (c_tree c)) unit_aggregate (length (tree_items (c_tree c)))); done. }
  intros [[c' g] found] (Hc & l & rest & Ha & Hsc & Hat & _ & Hf). simpl. by exists l, rest.
Qed.

Lemma cursor_slice_spec :
  fits d 255 (tree_items (c_tree c)) →
  ok_with (cursor_slice cx target bias c) (fun r =>
    ∃ l rest, sought r.1 l rest ∧ tree_wf cx d r.2 ∧ tree_items r.2 = l).
Proof using All.
  intros Hfit. unfold cursor_slice. apply ok_with_bind.
  set (n := length (tree_items (c_tree c))).
  assert (Hn : ∀ its : list T, (length its ≤ n)%nat → fits d 255 its)
    by (intros its Hi; by eapply fits_length).
  pose (spec := slice_aggregate_spec cx d n Hn).
  eapply ok_with_mono.
  { eapply (seek_internal_spec cx d target bias (tree_items (c_tree c)) (slice_aggregate cx) n (AggregateSpec0:=spec)); try done.
    split_and!; simpl; try done; [by left|lia]. }
  intros [[c' g] found] (Hc & l & rest & Ha & Hsc & Hat & (Hw & Hi & _) & Hf). simpl. by exists l, rest.
Qed.

Lemma cursor_summary_spec {O} `{!Dimension O Sm Cx, !DimensionLaws O (Sm:=Sm) cx} :
  ok_with (cursor_summary cx target bias c) (fun r =>
    ∃ l rest, sought r.1 l rest ∧ r.2 = dim_items cx (dim_zero (D:=O) cx) l).
Proof using All.
  unfold cursor_summary. apply ok_with_bind. eapply ok_with_mono.
  { eapply (seek_internal_spec cx d target bias (tree_items (c_tree c)) (summary_aggregate cx) (length (tree_items (c_tree c)))
      (AggregateSpec0:=summary_aggregate_spec cx d _)); done. }
  intros [[c' g] found] (Hc & l & rest & Ha & Hsc & Hat & Hg & Hf). simpl in *.
  exists l, rest. by rewrite app_nil_r in Hg.
Qed.
End target.

Lemma cursor_reset_ready c : seek_ready cx d (cursor_reset cx c) [] (tree_items (c_tree c)).
Proof. by left. Qed.

(** [suffix]: everything that is left. *)
Lemma cursor_suffix_spec `{!DimensionLaws D (Sm:=Sm) cx} c before after :
  tree_wf cx d (c_tree c) → (N.to_nat (height (c_tree c)) < STACK_CAPACITY)%nat →
  seek_ready cx d c before after → fits d 255 (tree_items (c_tree c)) →
  ok_with (cursor_suffix cx c) (fun r =>
    c_tree r.1 = c_tree c ∧ cursor_at cx d r.1 (before ++ after) [] ∧
    tree_wf cx d r.2 ∧ tree_items r.2 = after).
Proof.
  intros Ht Hh Hr Hf. unfold cursor_suffix.
  assert (Hp : ∀ pos its, Forall (fun e => past cx End_new Right e = true) (ends cx (D:=D) pos its)).
  { intros pos its. by apply Forall_forall. }
  eapply ok_with_mono.
  { apply (cursor_slice_spec End_new Right c before after); try done.
    unfold seekable. generalize (ends cx (dims before) after). intros l.
    induction l; constructor; [done|]. by apply Forall_forall. }
  intros [c' t] (l & rest & (Hct & Ha & Hsc & Hat) & Hw & Hi). simpl in *.
  assert (rest = []) as ->; [|rewrite app_nil_r in Ha; by subst].
  rewrite <-(app_nil_r after) in Hsc. rewrite scan_past in Hsc by apply Hp.
  simpl in Hsc. by injection Hsc.
Qed.
End seek_ops.

(** ** [suffix] in any dimension *)
(** The target [End] lies past every position, so what [suffix] passes does not depend on the
    dimension: a cursor moves as the one that keeps no positions. *)
Section erase.
Context {T Sm Cx : Type} `{!Summary Sm Cx, !Item T Sm Cx} (cx : Cx).
Context {D : Type} `{!Dimension D Sm Cx} (d : nat).
Abbreviation tree := (SumTree T Sm).

Definition erase_entry (e : StackEntry T Sm D) : StackEntry T Sm unit := mkEntry (e_tree e) (e_index e) tt.
Definition erase (c : Cursor T Sm D) : Cursor T Sm unit :=
  mkCursor (c_tree c) (erase_entry <$> c_stack c) tt (c_did_seek c) (c_at_end c).

Section loop.
Context {G : Type} (agg : SeekAggregate T Sm G).
Definition without_positions {P : Type} (r : P * P * nat * G * option tree) : nat * G * option tree :=
  let '(_, _, index, g, descend) := r in (index, g, descend).
Definition without_position {P : Type} (r : P * nat * G * bool) : nat * G * bool :=
  let '(_, index, g, stopped) := r in (index, g, stopped).

Lemma seek_children_erase pos e_pos index g (cts : list tree) css :
  without_positions <$> seek_children (D:=D) cx agg End_new Right pos e_pos index g cts css
  = without_positions <$> seek_children (D:=unit) cx agg End_new Right tt tt index g cts css.
Proof.
  revert pos e_pos index g css. induction cts as [|t cts IH]; intros pos e_pos index g [|s css]; try done. cbn.
  destruct (push_tree agg g t s) as [g'|]; [|done]. cbn. apply IH.
Qed.

Lemma seek_items_erase pos index g (its : list T) iss :
  without_position <$> seek_items (D:=D) cx agg End_new Right pos index g its iss
  = without_position <$> seek_items (D:=unit) cx agg End_new Right tt index g its iss.
Proof.
  revert pos index g iss. induction its as [|x its IH]; intros pos index g [|s iss]; try done. cbn.
  destruct (push_item agg g x s) as [g'|]; [|done]. cbn. apply IH.
Qed.

Lemma seek_loop_erase fuel ascending (c : Cursor T Sm D) g :
  (fun r => (erase r.1, r.2)) <$> seek_loop cx agg fuel End_new Right ascending c g
  = seek_loop cx agg fuel End_new Right ascending (erase c) g.
Proof.
  revert ascending c g. induction fuel as [|fuel IH]; intros ascending [t [|[et ei ep] below] pos ds ae] g; try done.
  cbn [seek_loop c_stack e_tree e_index e_position c_position c_tree c_did_seek c_at_end erase fmap list_fmap].
  cbn [erase_entry e_tree e_index e_position]. destruct et as [h s css cts|s its iss].
  - set (ix := if ascending then (S ei, pos) else (ei, ep)). set (iy := if ascending then (S ei, tt) else (ei, tt)).
    assert (E1 : ix.1 = iy.1) by (by destruct ascending). destruct ix as [i q], iy as [j []]. cbn [fst] in E1. subst j.
    destruct (slice_from cts i) as [cts'|]; [|done]. cbn [mbind outcome_bind]. destruct (slice_from css i) as [css'|]; [|done]. cbn [mbind outcome_bind].
    pose proof (seek_children_erase pos q i g cts' css') as E.
    destruct (seek_children (D:=D) _ _ _ _ _ _ _ _ _ _) as [[[[[p e] k] g'] o]|], (seek_children (D:=unit) _ _ _ _ _ _ _ _ _ _) as [[[[[[] []] k'] g''] o']|]; try done.
    cbn in E. injection E as <- <- <-. cbn [mbind outcome_bind]. destruct o as [child|]; [|apply IH].
    unfold stack_push. cbn [length fmap list_fmap]. rewrite length_fmap. destruct (Nat.ltb _ _); [|done]. cbn [mbind outcome_bind]. apply IH.
  - destruct (begin_leaf agg g) as [g1|]; [|done]. cbn [mbind outcome_bind]. destruct (slice_from its ei) as [its'|]; [|done]. cbn [mbind outcome_bind].
    destruct (slice_from iss ei) as [iss'|]; [|done]. cbn [mbind outcome_bind].
    pose proof (seek_items_erase pos ei g1 its' iss') as E.
    destruct (seek_items (D:=D) _ _ _ _ _ _ _ _ _) as [[[[p k] g'] o]|], (seek_items (D:=unit) _ _ _ _ _ _ _ _ _) as [[[[[] k'] g''] o']|]; try done.
    cbn in E. injection E as <- <- <-. cbn [mbind outcome_bind]. destruct (end_leaf agg g') as [g3|]; [|done]. cbn [mbind outcome_bind].
    destruct o; [done|apply IH].
Qed.
End loop.

Lemma stack_fuel_erase (l : list (StackEntry T Sm D)) : stack_fuel (erase_entry <$> l) = stack_fuel l.
Proof. unfold stack_fuel. f_equal. induction l as [|e l IH]; [done|]. cbn. by f_equal. Qed.

Lemma cursor_suffix_erase (c : Cursor T Sm D) :
  (fun r => (erase r.1, r.2)) <$> cursor_suffix cx c = cursor_suffix cx (erase c).
Proof.
  unfold cursor_suffix, cursor_slice, seek_internal. cbn [target_cmp End_seek_target is_ge assert_that mbind outcome_bind].
  set (entered := if c_did_seek c then _ else _). set (entered' := if c_did_seek (erase c) then _ else _).
  assert (E : entered' = (fun l : list (StackEntry T Sm D) => erase_entry <$> l) <$> entered).
  { unfold entered, entered'. destruct c as [t st p [] ae]; [done|]. unfold stack_push. cbn. rewrite length_fmap. by destruct (Nat.ltb _ _). }
  rewrite E. clearbody entered. clear E entered'. destruct entered as [stack|]; [|done]. cbn [fmap outcome_fmap mbind outcome_bind].
  rewrite stack_fuel_erase. set (c1 := mkCursor (c_tree c) stack (c_position c) true (c_at_end c)).
  change (mkCursor (c_tree (erase c)) (erase_entry <$> stack) (c_position (erase c)) true (c_at_end (erase c))) with (erase c1).
  rewrite <-seek_loop_erase. destruct (seek_loop _ _ _ _ _ _ _ _) as [[c2 g]|]; [|done]. cbn.
  destruct c2 as [t st p ds ae]. by destruct st.
Qed.

Lemma frames_erase root h hole (stack : list (StackEntry T Sm D)) pre post :
  frames cx d root h hole stack pre post → frames cx d root h hole (erase_entry <$> stack) pre post.
Proof. induction 1 as [|h hole ht s css cl cr pos below pre post Hw Hf IH Hp]; [by constructor|]. cbn. constructor; [done|done|]. by destruct (dim_items _ _ _). Qed.

Lemma cursor_at_erase (c : Cursor T Sm D) before after : cursor_at cx d c before after → cursor_at cx d (erase c) before after.
Proof.
  destruct c as [t st p ds ae]. intros (H1 & H2 & H3 & H4). cbn in *. unfold cursor_at. cbn. split_and!; [done|done|by destruct (dim_items _ _ _)|].
  destruct after; [by destruct H4 as [-> ->]|]. destruct H4 as [(s & its & i & pos & below & pre & post & -> & Hf & Hl) Hae]. split; [|done].
  exists s, its, i, tt, (erase_entry <$> below), pre, post. split; [done|]. split; [by apply frames_erase|done].
Qed.

Context `{!SummaryLaws (Sm:=Sm) cx}.
Lemma cursor_suffix_items c before after :
  tree_wf cx d (c_tree c) → (N.to_nat (height (c_tree c)) < STACK_CAPACITY)%nat →
  cursor_at cx d c before after → fits d 255 (tree_items (c_tree c)) →
  ok_with (cursor_suffix cx c) (fun r => tree_wf cx d r.2 ∧ tree_items r.2 = after).
Proof using All.
  intros Ht Hh Hc Hf. pose proof (cursor_suffix_spec cx d (erase c) before after Ht Hh (or_intror (cursor_at_erase _ _ _ Hc)) Hf) as H.
  rewrite <-cursor_suffix_erase in H. destruct (cursor_suffix cx c) as [[c' t]|]; [|done]. cbn in *. tauto.
Qed.
End erase.

(** ** Correctness of seeks *)
Section claims.
Context {T Sm Cx D Tgt : Type} `{!Summary Sm Cx, !Item T Sm Cx} (cx : Cx).
Context `{!SummaryLaws (Sm:=Sm) cx, !Dimension D Sm Cx, !DimensionLaws D (Sm:=Sm) cx}.
Context `{!SeekTarget Tgt D Cx} (target : Tgt) (bias : Bias) (d : nat).
Abbreviation dims := (dim_items cx (dim_zero (D:=D) cx)).


(** Slicing: [slice] builds a well-formed tree of exactly the items it seeks
    past, and the [suffix] taken afterwards a well-formed tree of all the others:
    nothing is lost or duplicated. *)
Theorem slice_suffix_correct (c : Cursor T Sm D) (before after : list T) :
  tree_wf cx d (c_tree c) → (N.to_nat (height (c_tree c)) < STACK_CAPACITY)%nat →
  fits d 255 (before ++ after) → seek_ready cx d c before after →
  is_ge (target_cmp cx target (dims before)) = true →
  seekable cx target bias (dims before) after →
  ok_with ('(c, t1) ← cursor_slice cx target bias c; '(c, t2) ← cursor_suffix cx c; Ok (c, t1, t2))
    (fun '(c', t1, t2) =>
      tree_wf cx d t1 ∧ tree_wf cx d t2 ∧ after = tree_items t1 ++ tree_items t2 ∧
      scan cx target bias (dims before) after = (dims (before ++ tree_items t1), tree_items t2) ∧
      cursor_at cx d c' (before ++ after) []).
Proof.
  intros Ht Hh Hf Hr Hge Hs. pose proof (seek_ready_items _ _ _ _ _ Hr) as Hi. rewrite <-Hi in Hf.
  apply ok_with_bind.
  eapply ok_with_mono; [by apply (cursor_slice_spec cx d target bias c before after)|].
  intros [c1 t1] (l & rest & (Hct & Ha & Hsc & Hat) & Hw1 & Hi1). simpl in *. apply ok_with_bind.
  eapply ok_with_mono; [apply (cursor_suffix_spec cx d c1 (before ++ l) rest); rewrite ?Hct; try done; by right|].
  intros [c2 t2] (_ & Hat2 & Hw2 & Hi2). simpl in *. subst. rewrite <-app_assoc in Hat2. by split_and!.
Qed.

(** [summary] adds up, in any other dimension, exactly the items it seeks
    past. *)
Theorem cursor_summary_correct {O} `{!Dimension O Sm Cx, !DimensionLaws O (Sm:=Sm) cx}
    (c : Cursor T Sm D) (before after : list T) :
  tree_wf cx d (c_tree c) → (N.to_nat (height (c_tree c)) < STACK_CAPACITY)%nat →
  seek_ready cx d c before after →
  is_ge (target_cmp cx target (dims before)) = true →
  seekable cx target bias (dims before) after →
  ok_with (cursor_summary cx target bias c) (fun r =>
    ∃ l rest, after = l ++ rest ∧
      scan cx target bias (dims before) after = (dims (before ++ l), rest) ∧
      cursor_at cx d r.1 (before ++ l) rest ∧ r.2 = dim_items cx (dim_zero (D:=O) cx) l).
Proof.
  intros Ht Hh Hr Hge Hs.
  eapply ok_with_mono; [by apply (cursor_summary_spec cx d target bias c before after)|].
  intros r (l & rest & (_ & ? & ? & ?) & ?). by exists l, rest.
Qed.

(** A cursor moved before the first item by [prev] cannot seek: its stack is
    empty and [did_seek] set, so [seek_forward] skips its loop and reports the
    end of the tree at position zero, whatever the target and the items. *)
Theorem seek_forward_after_prev (c : Cursor T Sm D) :
  cursor_fresh cx c → c_did_seek c = true → is_ge (target_cmp cx target (dims [])) = true →
  ok_with (cursor_seek_forward cx target bias c) (fun r =>
    c_tree r.1 = c_tree c ∧ c_position r.1 = dims [] ∧ c_at_end r.1 = true ∧
    cursor_item r.1 = Ok None).
Proof.
  destruct c as [t stack pos ds ae]. unfold cursor_fresh; simpl. intros (-> & -> & ->) -> Hge.
  unfold cursor_seek_forward, seek_internal; simpl. rewrite Hge. simpl. by destruct (decide _).
Qed.
End claims.

Lemma ex_new_ready (n : nat) :
  (n ≤ 144)%nat → seek_ready tt 1 (cursor_new tt (ex_tree n) : Cursor N N N) [] (ex_items n).
Proof. intros Hn. left. split_and!; try done. symmetry. by apply ex_tree_wf. Qed.


Lemma slice_suffix_correct_witness :
  ok_with ('(c, t1) ← cursor_slice tt 10%N Right (cursor_new tt (ex_tree 20) : Cursor N N N);
           '(c, t2) ← cursor_suffix tt c; Ok (c, t1, t2))
    (fun '(_, t1, t2) => tree_items t1 ++ tree_items t2 = ex_items 20).
Proof.
  destruct (ex_tree_wf 20 ltac:(lia)) as [Hw Hi].
  pose proof (slice_suffix_correct tt 10%N Right 1 (cursor_new tt (ex_tree 20) : Cursor N N N) [] (ex_items 20) Hw)
    as Hs.
  eapply ok_with_mono.
  - apply Hs; [vm_compute; lia|split; [lia|vm_compute; done]|by apply ex_new_ready; lia|done|
               vm_compute; repeat constructor; done].
  - by intros [[c t1] t2] (_ & _ & <- & _).
Defined.

Lemma cursor_summary_correct_witness :
  ok_with (cursor_summary (O:=N) tt 10%N Right (cursor_new tt (ex_tree 20) : Cursor N N N)) (fun r =>
    ∃ l rest, ex_items 20 = l ++ rest ∧ r.2 = dim_items tt 0%N l).
Proof.
  destruct (ex_tree_wf 20 ltac:(lia)) as [Hw Hi].
  eapply ok_with_mono.
  - apply (cursor_summary_correct (O:=N) tt 10%N Right 1 (cursor_new tt (ex_tree 20) : Cursor N N N) [] (ex_items 20) Hw);
      [vm_compute; lia|by apply ex_new_ready; lia|done|vm_compute; repeat constructor; done].
  - intros r (l & rest & ? & _ & _ & ?). by exists l, rest.
Defined.

(** The cursor that [next] and then [prev] leave before the first of 20 items. *)
Lemma seek_forward_after_prev_witness :
  let c := mkCursor (ex_tree 20) [] 0%N true false : Cursor N N N in
  (c ← cursor_next tt (cursor_new tt (ex_tree 20)); cursor_prev tt c) = Ok c ∧
  ok_with (cursor_seek_forward tt 10%N Right c) (fun r => cursor_item r.1 = Ok None).
Proof.
  intros c. split; [vm_compute; reflexivity|].
  eapply ok_with_mono; [apply (seek_forward_after_prev tt 10%N Right c)|by intros r (_ & _ & _ & ?)].
  - split_and!; [done|done|vm_compute; reflexivity].
  - done.
  - done.
Defined.
