(* ===== verification/KeyedTree.v ===== *)
(** * Trees of keyed items: the [KeyedItem] operations of [sum_tree.rs]

    [insert_or_replace], [remove], [edit] and [get] treat a tree as a map ordered
    by [T::Key]; the key is also the dimension their cursors measure.  Values of
    [Vec::sort_unstable_by_key] are those of a parameter constrained by the
    documented behaviour of the method: some permutation sorted by key. *)

From S2P Require Import Prelude Ord SumTree Cursor.

Class KeyedItem (T K : Type) := item_key : T → K.

(** [slice::sort_unstable_by_key]. *)
Class UnstableSort :=
  sort_unstable_by_key : ∀ {A K : Type} `{Ord K}, (A → K) → list A → list A.

Class UnstableSortLaws `{UnstableSort} : Prop := {
  sort_permutation : ∀ {A K} `{OrdLaws K} (key : A → K) (l : list A),
    Permutation (sort_unstable_by_key key l) l;
  sort_sorted : ∀ {A K} `{OrdLaws K} (key : A → K) (l : list A),
    StronglySorted (fun x y => cmp (key x) (key y) ≠ Gt) (sort_unstable_by_key key l)
}.

Inductive Edit (T K : Type) :=
  | Insert (item : T)
  | Remove (key : K).
Arguments Insert {_ _} _.
Arguments Remove {_ _} _.

Definition edit_key {T K} `{!KeyedItem T K} (self : Edit T K) : K :=
  match self with Insert item => item_key item | Remove key => key end.

(** [new_tree.append(cursor.suffix(), cx)] *)
Definition append_suffix {T Sm Cx D} `{!Summary Sm Cx, !Item T Sm Cx} (cx : Cx)
    `{!Dimension D Sm Cx} (new_tree : SumTree T Sm) (c : Cursor T Sm D) : outcome (SumTree T Sm) :=
  '(_, suffix) ← cursor_suffix cx c; append cx new_tree suffix.

Section keyed.
Context {T Sm Cx K : Type} `{!Summary Sm Cx, !Item T Sm Cx} (cx : Cx).
Context `{!Dimension K Sm Cx, !Ord K, !KeyedItem T K}.
Abbreviation tree := (SumTree T Sm).
Abbreviation cursor := (Cursor T Sm K).
#[local] Instance key_target : SeekTarget K K Cx := ord_target.

(** [if let Some(item) = cursor.item() && item.key() == key]: the item taken, if
    any, and the cursor after it. *)
Definition take_item (key : K) (c : cursor) : outcome (option T * cursor) :=
  item ← cursor_item c;
  match item with
  | Some item =>
      if eqb (item_key item) key then c ← cursor_next cx c; Ok (Some item, c) else Ok (None, c)
  | None => Ok (None, c)
  end.

Definition insert_or_replace (self : tree) (item : T) : outcome (tree * option T) :=
  '(c, new_tree) ← cursor_slice cx (item_key item) Left (cursor_new cx self : cursor);
  '(replaced, c) ← take_item (item_key item) c;
  new_tree ← push cx new_tree item;
  new_tree ← append_suffix cx new_tree c;
  Ok (new_tree, replaced).

Definition remove (self : tree) (key : K) : outcome (tree * option T) :=
  '(c, new_tree) ← cursor_slice cx key Left (cursor_new cx self : cursor);
  '(removed, c) ← take_item key c;
  new_tree ← append_suffix cx new_tree c;
  Ok (new_tree, removed).

(** The body of the [for edit in edits] loop. *)
Definition edit_step (edit : Edit T K) (c : cursor) (new_tree : tree)
    (buffered_items removed : list T) : outcome (cursor * tree * list T * list T) :=
  let new_key := edit_key edit in
  old_item ← cursor_item c;
  '(c, new_tree, buffered_items) ←
    (if match old_item with Some old_item => ltb (item_key old_item) new_key | None => false end then
       new_tree ← extend cx new_tree buffered_items;
       '(c, slice) ← cursor_slice cx new_key Left c;
       new_tree ← append cx new_tree slice;
       Ok (c, new_tree, [])
     else Ok (c, new_tree, buffered_items));
  '(old_item, c) ← take_item new_key c;
  let removed := match old_item with Some old_item => removed ++ [old_item] | None => removed end in
  let buffered_items :=
    match edit with Insert item => buffered_items ++ [item] | Remove _ => buffered_items end in
  Ok (c, new_tree, buffered_items, removed).

Fixpoint edit_loop (edits : list (Edit T K)) (c : cursor) (new_tree : tree)
    (buffered_items removed : list T) : outcome (cursor * tree * list T * list T) :=
  match edits with
  | [] => Ok (c, new_tree, buffered_items, removed)
  | edit :: edits =>
      '(c, new_tree, buffered_items, removed) ← edit_step edit c new_tree buffered_items removed;
      edit_loop edits c new_tree buffered_items removed
  end.

Definition edit `{!UnstableSort} (self : tree) (edits : list (Edit T K)) : outcome (tree * list T) :=
  match edits with
  | [] => Ok (self, [])
  | _ :: _ =>
      let edits := sort_unstable_by_key edit_key edits in
      '(c, _) ← cursor_seek cx (dim_zero cx : K) Left (cursor_new cx self : cursor);
      '(c, new_tree, buffered_items, removed) ← edit_loop edits c (new cx) [] [];
      new_tree ← extend cx new_tree buffered_items;
      new_tree ← append_suffix cx new_tree c;
      Ok (new_tree, removed)
  end.

Definition get (self : tree) (key : K) : option T := (find_exact cx self key Left).2.
End keyed.

(** [impl PartialEq for SumTree]: the item sequences are compared. *)
Definition tree_eq {T Sm} `{!EqDecision T} (self other : SumTree T Sm) : outcome bool :=
  l ← tree_iter self; k ← tree_iter other; Ok (bool_decide (l = k)).

(** An executable instance of the sort: insertion sort. *)
Fixpoint insert_by_key {A K} `{Ord K} (key : A → K) (x : A) (l : list A) : list A :=
  match l with
  | [] => [x]
  | y :: l' => if leb (key x) (key y) then x :: l else y :: insert_by_key key x l'
  end.
Definition insertion_sort : UnstableSort :=
  fun A K _ key l => foldr (insert_by_key key) [] l.

Lemma insert_by_key_perm {A K} `{Ord K} (key : A → K) x l :
  Permutation (insert_by_key key x l) (x :: l).
Proof.
  induction l as [|y l IH]; simpl; [done|]. destruct (leb _ _); [done|].
  etransitivity; [by apply perm_skip|]. apply perm_swap.
Qed.

Lemma insert_by_key_sorted {A K} `{OrdLaws K} (key : A → K) x l :
  StronglySorted (fun x y => cmp (key x) (key y) ≠ Gt) l →
  StronglySorted (fun x y => cmp (key x) (key y) ≠ Gt) (insert_by_key key x l).
Proof.
  induction 1 as [|y l Hs IH Hf]; simpl; [repeat constructor|].
  unfold leb. destruct (cmp (key x) (key y)) eqn:E; simpl.
  - apply cmp_eq in E. constructor; [by constructor|]. constructor; [by rewrite E, cmp_refl|].
    by rewrite E.
  - constructor; [by constructor|]. constructor; [by rewrite E|].
    eapply Forall_impl; [exact Hf|]. intros z Hz. by rewrite (cmp_lt_le_trans _ _ _ E Hz).
  - constructor; [done|]. rewrite insert_by_key_perm. constructor; [|done].
    apply cmp_gt_lt in E. by rewrite E.
Qed.

Lemma insertion_sort_laws : @UnstableSortLaws insertion_sort.
Proof.
  split; intros A K ?? key l; unfold sort_unstable_by_key, insertion_sort.
  - induction l as [|x l IH]; simpl; [done|]. by rewrite insert_by_key_perm, IH.
  - induction l as [|x l IH]; simpl; [constructor|]. by apply insert_by_key_sorted.
Qed.
