(* ===== verification/KeyedFacts.v ===== *)
(** * The theory of keyed trees

    A tree whose items are strictly sorted by key is a finite map.  The reference
    operations on sorted sequences ([klookup], [kinsert], [kremove]) are what the
    tree operations compute; [edit] on edits with distinct keys is the sequential
    application of its edits. *)

From S2P Require Import Prelude Ord SumTree SumTreeFacts SeekSpec Cursor CursorFacts SeekFacts KeyedTree.

(** The sizes the theorems below are about: trees of fewer than [6 ^ 9] (about ten
    million) items, with the occupancy guarantee from height 7 on.  Such trees have
    height below 16, and bulk construction of such sequences stays within them. *)
Definition MAP_DEPTH : nat := 7.
Definition small {T} (its : list T) : Prop := (N.of_nat (length its) < 6 ^ 9)%N.
Definition map_wf {T Sm Cx} `{!Summary Sm Cx, !Item T Sm Cx} (cx : Cx) (t : SumTree T Sm) : Prop :=
  tree_wf cx MAP_DEPTH t ∧ small (tree_items t).

Section size.
Context {T : Type}.
Implicit Types its : list T.

Lemma small_fits its n : (16 ≤ n)%nat → small its → fits MAP_DEPTH n its.
Proof.
  intros Hn Hs. eapply fits_mono; [exact Hn|]. split; [unfold MAP_DEPTH; lia|]. exact Hs.
Qed.

Lemma small_from_iter its :
  small its → (N.of_nat (length its) <= N.of_nat (2 * TREE_BASE) ^ N.of_nat (S MAP_DEPTH))%N.
Proof.
  unfold small. intros Hs. assert (E : (6 ^ 9 <= N.of_nat (2 * TREE_BASE) ^ N.of_nat (S MAP_DEPTH))%N)
    by (vm_compute; done). lia.
Qed.

Lemma small_le its (l : list T) : (length l ≤ length its)%nat → small its → small l.
Proof. unfold small. lia. Qed.
End size.

Lemma map_wf_height {T Sm Cx} `{!Summary Sm Cx, !Item T Sm Cx} (cx : Cx)
    `{!SummaryLaws (Sm:=Sm) cx} (t : SumTree T Sm) :
  map_wf cx t → (N.to_nat (height t) < STACK_CAPACITY)%nat.
Proof.
  intros [[->|(h & _ & Ht)] Hs]; [vm_compute; lia|].
  rewrite (wf_height cx _ _ _ Ht), Nat2N.id.
  apply (wf_fits_height cx MAP_DEPTH _ _ t Ht). by apply small_fits.
Qed.

(** ** What a key promises as a dimension

    The key of an item is the position after it, wherever it is reached from a
    smaller key; [zero] is the smallest key. *)
Class KeyLaws (T K : Type) {Sm Cx} `{!Summary Sm Cx, !Item T Sm Cx, !Dimension K Sm Cx, !Ord K,
    !KeyedItem T K} (cx : Cx) : Prop := {
  key_end : ∀ (pos : K) (x : T), cmp pos (item_key x) ≠ Gt →
    dim_add_summary cx pos (item_summary_of cx x) = item_key x;
  key_zero : ∀ k : K, cmp (dim_zero cx) k ≠ Gt
}.

(** ** Sorted sequences as maps *)
Section sequences.
Context {T K : Type} `{!Ord K, !OrdLaws K, !KeyedItem T K}.
Implicit Types (its : list T) (k : K).

Definition keys_sorted its : Prop :=
  StronglySorted (fun x y => cmp (item_key x) (item_key y) = Lt) its.
Definition lts k its : list T := List.filter (fun x => ltb (item_key x) k) its.
Definition gts k its : list T := List.filter (fun x => ltb k (item_key x)) its.
Definition klookup k its : option T := List.find (fun x => eqb (item_key x) k) its.
Definition kinsert (x : T) its : list T := lts (item_key x) its ++ x :: gts (item_key x) its.
Definition kremove k its : list T := lts k its ++ gts k its.
Definition opt_list (o : option T) : list T := match o with Some x => [x] | None => [] end.

Lemma lts_none k its : Forall (fun x => cmp k (item_key x) ≠ Gt) its → lts k its = [].
Proof.
  induction 1 as [|x its Hx _ IH]; simpl; [done|]. unfold ltb. rewrite (cmp_opp k (item_key x)).
  by destruct (cmp k (item_key x)).
Qed.

Lemma gts_none k its : Forall (fun x => cmp (item_key x) k ≠ Gt) its → gts k its = [].
Proof.
  induction 1 as [|x its Hx _ IH]; simpl; [done|]. unfold ltb. rewrite (cmp_opp (item_key x) k).
  by destruct (cmp (item_key x) k).
Qed.

Lemma gts_all k its : Forall (fun x => cmp k (item_key x) = Lt) its → gts k its = its.
Proof. induction 1 as [|x its Hx _ IH]; simpl; [done|]. unfold ltb. by rewrite Hx, IH. Qed.

Lemma lts_all k its : Forall (fun x => cmp (item_key x) k = Lt) its → lts k its = its.
Proof. induction 1 as [|x its Hx _ IH]; simpl; [done|]. unfold ltb. by rewrite Hx, IH. Qed.

Lemma klookup_none k its : Forall (fun x => cmp (item_key x) k ≠ Eq) its → klookup k its = None.
Proof.
  induction 1 as [|x its Hx _ IH]; simpl; [done|]. unfold eqb. by destruct (cmp (item_key x) k).
Qed.

Lemma lts_app k l1 l2 : lts k (l1 ++ l2) = lts k l1 ++ lts k l2.
Proof. apply List.filter_app. Qed.

Lemma gts_app k l1 l2 : gts k (l1 ++ l2) = gts k l1 ++ gts k l2.
Proof. apply List.filter_app. Qed.

Lemma lts_Forall k its : Forall (fun x => cmp (item_key x) k = Lt) (lts k its).
Proof. apply Forall_forall. intros x Hx. apply list_elem_of_In, filter_In in Hx as [_ Hx]. by apply ltb_lt. Qed.

Lemma gts_Forall k its : Forall (fun x => cmp k (item_key x) = Lt) (gts k its).
Proof. apply Forall_forall. intros x Hx. apply list_elem_of_In, filter_In in Hx as [_ Hx]. by apply ltb_lt. Qed.

Lemma keys_sorted_cons x its :
  keys_sorted (x :: its) → keys_sorted its ∧ Forall (fun y => cmp (item_key x) (item_key y) = Lt) its.
Proof. by intros [? ?]%StronglySorted_inv. Qed.

Lemma keys_sorted_app l1 l2 :
  keys_sorted (l1 ++ l2) ↔ keys_sorted l1 ∧ keys_sorted l2 ∧
    Forall (fun x => Forall (fun y => cmp (item_key x) (item_key y) = Lt) l2) l1.
Proof.
  unfold keys_sorted. induction l1 as [|x l1 IH]; simpl.
  - split; [|naive_solver]. intros Hs. split_and!; [constructor|done|done].
  - split.
    + intros [Hs Hf]%StronglySorted_inv. apply IH in Hs as (H1 & H2 & H3).
      apply Forall_app in Hf as [Hf1 Hf2]. split_and!; [by constructor|done|by constructor].
    + intros ([H1 H1']%StronglySorted_inv & H2 & [H3 H3']%Forall_cons).
      constructor; [by apply IH|]. by apply Forall_app.
Qed.

(** The three parts of a sorted sequence around a key. *)
Lemma keys_split k its :
  keys_sorted its → its = lts k its ++ opt_list (klookup k its) ++ gts k its.
Proof.
  induction its as [|x its IH]; intros Hs; [done|]. apply keys_sorted_cons in Hs as [Hs Hx]. simpl.
  unfold ltb, eqb. rewrite (cmp_opp (item_key x) k).
  destruct (cmp (item_key x) k) eqn:E; simpl.
  - apply cmp_eq in E as <-. rewrite lts_none, gts_all; simpl; [done|done|].
    eapply Forall_impl; [exact Hx|]. by intros y ->.
  - f_equal. by apply IH.
  - assert (Hk : Forall (fun y => cmp k (item_key y) = Lt) its).
    { eapply Forall_impl; [exact Hx|]. intros y Hy. ord_solve. }
    rewrite lts_none, gts_all; [|done|eapply Forall_impl; [exact Hk|]; by intros y ->].
    change (List.find _ its) with (klookup k its). rewrite klookup_none; [done|].
    eapply Forall_impl; [exact Hk|]. intros y Hy He. ord_solve.
Qed.

Lemma keys_sorted_filter (P : T → bool) its : keys_sorted its → keys_sorted (List.filter P its).
Proof.
  induction 1 as [|x its Hs IH Hx]; simpl; [constructor|]. destruct (P x); [|done].
  constructor; [done|]. apply Forall_forall. intros y Hy. rewrite Forall_forall in Hx.
  apply Hx. apply list_elem_of_In. apply list_elem_of_In, filter_In in Hy. tauto.
Qed.

Lemma keys_sorted_around k its l :
  keys_sorted its → keys_sorted l → Forall (fun x => item_key x = k) l →
  keys_sorted (lts k its ++ l ++ gts k its).
Proof.
  intros Hs Hl Hk. rewrite !keys_sorted_app.
  split_and!; [by apply keys_sorted_filter|done|by apply keys_sorted_filter| |].
  - eapply Forall_impl; [exact Hk|]. intros x <-. apply gts_Forall.
  - eapply Forall_impl; [apply lts_Forall|]. intros x Hx. apply Forall_app. split.
    + eapply Forall_impl; [exact Hk|]. by intros y ->.
    + eapply Forall_impl; [apply gts_Forall|]. simpl. intros y Hy. exact (cmp_lt_trans _ _ _ Hx Hy).
Qed.

Lemma kinsert_sorted x its : keys_sorted its → keys_sorted (kinsert x its).
Proof.
  intros Hs. apply (keys_sorted_around _ _ [x]); [done|repeat constructor|by repeat constructor].
Qed.

Lemma kremove_sorted k its : keys_sorted its → keys_sorted (kremove k its).
Proof. intros Hs. by apply (keys_sorted_around _ _ []); [|constructor|]. Qed.

Lemma klookup_app k l1 l2 :
  klookup k (l1 ++ l2) = match klookup k l1 with Some x => Some x | None => klookup k l2 end.
Proof. induction l1 as [|x l1 IH]; simpl; [done|]. by destruct (eqb _ _). Qed.

Lemma klookup_filter (p : K → bool) j its :
  klookup j (List.filter (fun x => p (item_key x)) its) = if p j then klookup j its else None.
Proof.
  induction its as [|x its IH]; simpl; [by destruct (p j)|].
  destruct (eqb (item_key x) j) eqn:E.
  - apply eqb_eq in E as <-. destruct (p (item_key x)) eqn:E2; simpl; [by rewrite eqb_refl|done].
  - destruct (p (item_key x)) eqn:E2; simpl; [by rewrite E|done].
Qed.

Lemma klookup_lts j k its : klookup j (lts k its) = if ltb j k then klookup j its else None.
Proof. apply (klookup_filter (fun y => ltb y k)). Qed.

Lemma klookup_gts j k its : klookup j (gts k its) = if ltb k j then klookup j its else None.
Proof. apply (klookup_filter (fun y => ltb k y)). Qed.

Lemma klookup_kremove j k its :
  klookup j (kremove k its) = if eqb k j then None else klookup j its.
Proof.
  unfold kremove. rewrite klookup_app, klookup_lts, klookup_gts.
  unfold ltb, eqb. rewrite (cmp_opp k j). destruct (cmp k j); simpl; try done.
  by destruct (klookup j its).
Qed.

Lemma klookup_kinsert j x its :
  klookup j (kinsert x its) = if eqb (item_key x) j then Some x else klookup j its.
Proof.
  unfold kinsert. rewrite klookup_app, klookup_lts. simpl. rewrite klookup_gts.
  unfold ltb, eqb. rewrite (cmp_opp (item_key x) j). destruct (cmp (item_key x) j); simpl; try done.
  by destruct (klookup j its).
Qed.

Lemma klookup_key k its x : klookup k its = Some x → item_key x = k.
Proof. intros [_ H]%find_some. by apply eqb_eq. Qed.

Lemma kremove_length k its : (length (kremove k its) ≤ length its)%nat.
Proof.
  unfold kremove. rewrite length_app. induction its as [|x its IH]; simpl; [done|].
  unfold ltb. rewrite (cmp_opp k (item_key x)). destruct (cmp k (item_key x)); simpl; lia.
Qed.

Lemma kinsert_length x its : (length (kinsert x its) ≤ S (length its))%nat.
Proof.
  pose proof (kremove_length (item_key x) its). unfold kinsert, kremove in *.
  rewrite length_app in *. simpl. lia.
Qed.

Lemma kinsert_elem x y its : y ∈ kinsert x its → y = x ∨ y ∈ its.
Proof.
  unfold kinsert, lts, gts. rewrite elem_of_app, elem_of_cons, !list_elem_of_In, !filter_In. tauto.
Qed.
(** There are no more items than keys. *)
Lemma keys_nodup its : keys_sorted its → NoDup (item_key <$> its).
Proof.
  induction 1 as [|x its Hs IH Hx]; cbn; [constructor|]. apply NoDup_cons. split; [|done]. intros (y & E & Hy)%list_elem_of_fmap.
  rewrite Forall_forall in Hx. specialize (Hx y Hy). by rewrite E, cmp_refl in Hx.
Qed.

Lemma klookup_cons k x its :
  klookup k (x :: its) = if eqb (item_key x) k then Some x else klookup k its.
Proof. done. Qed.

Lemma klookup_head x its : klookup (item_key x) (x :: its) = Some x.
Proof. by rewrite klookup_cons, eqb_refl. Qed.

Lemma klookup_below k x its :
  keys_sorted (x :: its) → cmp k (item_key x) = Lt → klookup k (x :: its) = None.
Proof.
  intros [_ Hx]%keys_sorted_cons Hk. apply klookup_none. constructor.
  - intros E. ord_solve.
  - eapply Forall_impl; [exact Hx|]. simpl. intros y Hy E. ord_solve.
Qed.

(** The items are what lookups find. *)
Lemma klookup_elem its x : keys_sorted its → klookup (item_key x) its = Some x ↔ x ∈ its.
Proof.
  intros Hs. split.
  - intros [Hin _]%find_some. by apply list_elem_of_In.
  - intros (a & b & ->)%list_elem_of_split. apply keys_sorted_app in Hs as (_ & _ & Hab).
    rewrite klookup_app, klookup_none; [apply klookup_head|].
    eapply Forall_impl; [exact Hab|]. simpl. intros y [Hy _]%Forall_cons E. by rewrite Hy in E.
Qed.

(** Sorted sequences with the same lookups are equal. *)
Lemma klookup_ext its its' :
  keys_sorted its → keys_sorted its' → (∀ k, klookup k its = klookup k its') → its = its'.
Proof.
  revert its'. induction its as [|x its IH]; intros [|y its'] Hs Hs' He; [done|..].
  { specialize (He (item_key y)). by rewrite klookup_head in He. }
  { specialize (He (item_key x)). by rewrite klookup_head in He. }
  assert (x = y) as <-.
  { destruct (cmp (item_key x) (item_key y)) eqn:E.
    - specialize (He (item_key x)). rewrite klookup_head in He. apply cmp_eq in E.
      rewrite E, klookup_head in He. by injection He.
    - specialize (He (item_key x)). by rewrite klookup_head, klookup_below in He.
    - apply cmp_gt_lt in E. specialize (He (item_key y)). by rewrite klookup_head, klookup_below in He. }
  pose proof (keys_sorted_cons _ _ Hs) as [Hs1 Hx].
  pose proof (keys_sorted_cons _ _ Hs') as [Hs1' Hx'].
  f_equal. apply IH; [done..|]. intros k. specialize (He k). rewrite !klookup_cons in He.
  destruct (eqb (item_key x) k) eqn:E; [|done]. apply eqb_eq in E as <-.
  rewrite !klookup_none; [done| |]; (eapply Forall_impl; [eassumption|]); simpl; intros z Hz Ez; ord_solve.
Qed.
End sequences.

(** ** Seeking by key *)
Section keyed.
Context {T Sm Cx K : Type} `{!Summary Sm Cx, !Item T Sm Cx} (cx : Cx).
Context `{!SummaryLaws (Sm:=Sm) cx, !Dimension K Sm Cx, !DimensionLaws K (Sm:=Sm) cx}.
Context `{!Ord K, !OrdLaws K, !KeyedItem T K, !KeyLaws T K cx}.
Abbreviation tree := (SumTree T Sm).
Abbreviation cursor := (Cursor T Sm K).
Abbreviation dims := (dim_items cx (dim_zero (D:=K) cx)).
#[local] Existing Instance key_target.
Implicit Types (k pos : K) (its before after : list T).

Definition key_le (pos : K) (its : list T) : Prop := Forall (fun x => cmp pos (item_key x) ≠ Gt) its.

Lemma key_le_zero its : key_le (dim_zero cx) its.
Proof. apply Forall_forall. intros x _. apply (key_zero (T:=T)). Qed.

Lemma key_step pos x its :
  keys_sorted (x :: its) → key_le pos (x :: its) →
  item_end cx pos x = item_key x ∧ key_le (item_key x) its.
Proof.
  intros [_ Hx]%keys_sorted_cons [Hp _]%Forall_cons. split; [by apply key_end|].
  eapply Forall_impl; [exact Hx|]. simpl. by intros y ->.
Qed.

Lemma ends_keys pos its : keys_sorted its → key_le pos its → ends cx pos its = item_key <$> its.
Proof.
  revert pos. induction its as [|x its IH]; intros pos Hs Hp; simpl; [done|].
  destruct (key_step _ _ _ Hs Hp) as [-> Hle]. f_equal. apply IH; [|done].
  by apply keys_sorted_cons in Hs as [? _].
Qed.

Lemma dim_items_keys pos its :
  keys_sorted its → key_le pos its → dim_items cx pos its = default pos (item_key <$> last its).
Proof.
  intros Hs Hp. destruct (decide (its = [])) as [->|Hne]; [done|].
  destruct (rev_case its Hne) as (k & x & ->).
  pose proof (ends_last cx pos k x) as El. rewrite ends_keys, fmap_last in El by done.
  by rewrite El.
Qed.

Lemma key_le_app pos l r :
  keys_sorted (l ++ r) → key_le pos (l ++ r) → key_le (dim_items cx pos l) r.
Proof.
  intros Hs Hp. apply keys_sorted_app in Hs as (Hl & _ & Hlr). apply Forall_app in Hp as [Hpl Hpr].
  rewrite dim_items_keys by done. destruct (last l) as [x|] eqn:E; [|done]. simpl.
  apply last_Some in E as [l' ->]. apply Forall_app in Hlr as [_ Hx].
  rewrite Forall_singleton in Hx. eapply Forall_impl; [exact Hx|]. simpl. by intros y ->.
Qed.

Lemma key_seekable k bias pos its :
  keys_sorted its → key_le pos its → seekable cx k bias pos its.
Proof.
  intros Hs Hp. unfold seekable. rewrite ends_keys by done. clear Hp.
  induction Hs as [|x its Hs IH Hx]; simpl; constructor; [done|].
  apply Forall_fmap. eapply Forall_impl; [exact Hx|]. simpl. intros y Hy. unfold past, target_cmp, key_target, ord_target.
  destruct (cmp k (item_key y)) eqn:E; [| |]; intros Hb; try done.
  - apply cmp_eq in E as ->. by rewrite cmp_opp, Hy.
  - apply cmp_gt_lt in E. by rewrite cmp_opp, (cmp_lt_trans _ _ _ Hy E).
Qed.

Lemma key_exact_seekable k pos its :
  keys_sorted its → key_le pos its → exact_seekable cx k pos its.
Proof.
  intros Hs Hp. unfold exact_seekable. rewrite ends_keys by done. clear Hp.
  induction Hs as [|x its Hs IH Hx]; simpl; constructor; [done|].
  apply Forall_fmap. eapply Forall_impl; [exact Hx|]. simpl. intros y Hy.
  unfold target_cmp, key_target, ord_target. intros E. by eapply cmp_lt_trans.
Qed.

(** With [Bias::Left] a seek stops at the first key not below the target, with
    [Bias::Right] at the first key above it. *)
Lemma scan_left k pos its :
  keys_sorted its → key_le pos its →
  (scan cx k Left pos its).2 = opt_list (klookup k its) ++ gts k its.
Proof.
  revert pos. induction its as [|x its IH]; intros pos Hs Hp; [done|]. cbn [scan].
  destruct (key_step _ _ _ Hs Hp) as [-> Hle]. pose proof (keys_split k _ Hs) as Hsp.
  pose proof (keys_sorted_cons _ _ Hs) as [Hs1 Hx].
  unfold past, target_cmp, key_target, ord_target. destruct (cmp k (item_key x)) eqn:E.
  - rewrite lts_none in Hsp; [exact Hsp|]. apply cmp_eq in E as ->. constructor; [by rewrite cmp_refl|done].
  - rewrite lts_none in Hsp; [exact Hsp|]. constructor; [by rewrite E|].
    eapply Forall_impl; [exact Hx|]. simpl. intros y Hy. by rewrite (cmp_lt_trans _ _ _ E Hy).
  - rewrite IH by done. rewrite klookup_cons. unfold eqb, gts, ltb. simpl.
    by rewrite (cmp_opp k), E.
Qed.

Lemma scan_right k pos its :
  keys_sorted its → key_le pos its → (scan cx k Right pos its).2 = gts k its.
Proof.
  revert pos. induction its as [|x its IH]; intros pos Hs Hp; [done|]. simpl.
  destruct (key_step _ _ _ Hs Hp) as [-> Hle]. pose proof (keys_sorted_cons _ _ Hs) as [Hs1 Hx].
  unfold past, target_cmp, key_target, ord_target, ltb. destruct (cmp k (item_key x)) eqn:E; simpl.
  - by apply IH.
  - change (List.filter _ its) with (gts k its). rewrite gts_all; [done|].
    eapply Forall_impl; [exact Hx|]. simpl. intros y Hy. by eapply cmp_lt_trans.
  - by apply IH.
Qed.

(** The assertion at the start of a seek holds when the cursor is behind the key. *)
Lemma key_ge k before :
  keys_sorted before → Forall (fun x => cmp (item_key x) k ≠ Gt) before →
  is_ge (target_cmp cx k (dims before)) = true.
Proof.
  intros Hs Hk. rewrite dim_items_keys by auto using key_le_zero.
  unfold target_cmp, key_target, ord_target. rewrite cmp_opp.
  assert (Hc : cmp (default (dim_zero cx) (item_key <$> last before)) k ≠ Gt).
  { destruct (last before) as [x|] eqn:E; simpl; [|apply (key_zero (T:=T))].
    apply last_Some in E as [l ->]. apply Forall_app in Hk as [_ Hk]. by rewrite Forall_singleton in Hk. }
  by destruct (cmp _ k).
Qed.

(** ** The tree operations *)
Abbreviation at_ := (cursor_at cx MAP_DEPTH).
Abbreviation ready := (seek_ready cx MAP_DEPTH).

Lemma slice_left_spec k (c : cursor) before after :
  map_wf cx (c_tree c) → ready c before after → keys_sorted (before ++ after) →
  Forall (fun x => cmp (item_key x) k ≠ Gt) before →
  ok_with (cursor_slice cx k Left c) (fun r =>
    c_tree r.1 = c_tree c ∧ tree_wf cx MAP_DEPTH r.2 ∧ tree_items r.2 = lts k after ∧
    at_ r.1 (before ++ lts k after) (opt_list (klookup k after) ++ gts k after)).
Proof.
  intros Hw Hr Hs Hk. pose proof (map_wf_height cx _ Hw) as Hh. destruct Hw as [Ht Hsm].
  pose proof (key_le_app (dim_zero cx) before after Hs (key_le_zero _)) as Hle.
  apply keys_sorted_app in Hs as (Hs1 & Hs2 & _).
  eapply ok_with_mono.
  { apply (cursor_slice_spec cx MAP_DEPTH k Left c before after); try done.
    - by apply key_ge.
    - by apply key_seekable.
    - apply small_fits; [lia|done]. }
  intros [c' t] (l & rest & (Hct & Ha & Hsc & Hat) & Hwt & Hi). simpl in *.
  pose proof (scan_left k _ after Hs2 Hle) as Hsl. rewrite Hsc in Hsl. simpl in Hsl.
  assert (l = lts k after) as ->.
  { apply (app_inv_tail rest). rewrite <-Ha. rewrite Hsl. by apply keys_split. }
  subst rest. by split_and!.
Qed.

Lemma take_item_spec k (c : cursor) before o r :
  map_wf cx (c_tree c) → at_ c before (opt_list o ++ r) →
  (∀ x, o = Some x → item_key x = k) → Forall (fun x => cmp k (item_key x) = Lt) r →
  ok_with (take_item cx k c) (fun res =>
    res.1 = o ∧ c_tree res.2 = c_tree c ∧ at_ res.2 (before ++ opt_list o) r).
Proof.
  intros Hw Hat Ho Hr. pose proof (map_wf_height cx _ Hw) as Hh. destruct Hw as [Ht Hsm].
  unfold take_item. rewrite (cursor_item_spec _ _ _ _ _ Hat). simpl.
  destruct o as [x|]; simpl in *.
  - rewrite (Ho x eq_refl), eqb_refl. apply ok_with_bind.
    eapply ok_with_mono; [by apply (cursor_next_at cx MAP_DEPTH c before (x :: r))|].
    intros c' [Hct Hc']. simpl in *. by rewrite drop_0 in Hc'.
  - rewrite app_nil_r. destruct Hr as [|y r Hy Hr]; simpl; [done|].
    unfold eqb. rewrite (cmp_opp k), Hy. done.
Qed.

Lemma append_suffix_spec (c : cursor) before after t :
  map_wf cx (c_tree c) → at_ c before after → tree_wf cx MAP_DEPTH t →
  small (tree_items t ++ after) →
  ok_with (append_suffix cx t c) (fun t' =>
    map_wf cx t' ∧ tree_items t' = tree_items t ++ after).
Proof.
  intros Hw Hat Ht Hs. pose proof (map_wf_height cx _ Hw) as Hh. destruct Hw as [Hct Hsm].
  apply ok_with_bind. eapply ok_with_mono.
  { apply (cursor_suffix_spec cx MAP_DEPTH c before after); [done|done|by right|].
    apply small_fits; [lia|done]. }
  intros [c' suf] (_ & _ & Hws & Hi). simpl in *.
  eapply ok_with_mono; [apply (append_spec cx MAP_DEPTH t suf); [done|done|]|].
  - rewrite Hi. apply small_fits; [lia|done].
  - intros t' [Ht' Hi']. rewrite Hi in Hi'. split; [|done]. split; [done|]. by rewrite Hi'.
Qed.

Lemma insert_or_replace_spec (t : tree) (x : T) :
  map_wf cx t → keys_sorted (tree_items t) → small (x :: tree_items t) →
  ok_with (insert_or_replace cx t x) (fun r =>
    map_wf cx r.1 ∧ tree_items r.1 = kinsert x (tree_items t) ∧
    r.2 = klookup (item_key x) (tree_items t)).
Proof.
  intros Hw Hs Hsm. unfold insert_or_replace. apply ok_with_bind. eapply ok_with_mono.
  { apply (slice_left_spec (item_key x) (cursor_new cx t) [] (tree_items t)); try done. by left. }
  intros [c1 t1] (Hc1 & Hw1 & Hi1 & Hat1). cbn [fst snd] in *. apply ok_with_bind.
  change (c_tree (cursor_new cx t)) with t in Hc1. rewrite <-Hc1 in Hw.
  eapply ok_with_mono; [apply (take_item_spec _ _ _ _ _ Hw Hat1); [by intros y ->%klookup_key|apply gts_Forall]|].
  intros [o c2] (Ho & Hc2 & Hat2). simpl in Ho, Hc2, Hat2. subst o. rewrite <-Hc2 in Hw.
  assert (Hl : (length (lts (item_key x) (tree_items t) ++ [x]) ≤ length (x :: tree_items t))%nat).
  { rewrite length_app. simpl. pose proof (filter_length_le (fun y => ltb (item_key y) (item_key x)) (tree_items t)).
    unfold lts. lia. }
  apply ok_with_bind. eapply ok_with_mono; [apply (push_spec cx MAP_DEPTH t1 x Hw1)|].
  { rewrite Hi1. apply small_fits; [lia|]. by eapply small_le. }
  intros t2 [Hw2 Hi2]. rewrite Hi1 in Hi2. apply ok_with_bind.
  eapply ok_with_mono; [apply (append_suffix_spec c2 _ _ t2 Hw Hat2 Hw2)|].
  { eapply small_le; [|exact Hsm]. rewrite Hi2, <-app_assoc. apply (kinsert_length x). }
  intros t3 [Hw3 Hi3]. simpl. split_and!; [done| |done].
  by rewrite Hi3, Hi2, <-app_assoc.
Qed.

Lemma remove_spec (t : tree) k :
  map_wf cx t → keys_sorted (tree_items t) →
  ok_with (remove cx t k) (fun r =>
    map_wf cx r.1 ∧ tree_items r.1 = kremove k (tree_items t) ∧ r.2 = klookup k (tree_items t)).
Proof.
  intros Hw Hs. unfold remove. apply ok_with_bind. eapply ok_with_mono.
  { apply (slice_left_spec k (cursor_new cx t) [] (tree_items t)); try done. by left. }
  intros [c1 t1] (Hc1 & Hw1 & Hi1 & Hat1). cbn [fst snd] in *. apply ok_with_bind.
  change (c_tree (cursor_new cx t)) with t in Hc1. pose proof (proj2 Hw) as Hsm. rewrite <-Hc1 in Hw.
  eapply ok_with_mono; [apply (take_item_spec _ _ _ _ _ Hw Hat1); [by intros y ->%klookup_key|apply gts_Forall]|].
  intros [o c2] (Ho & Hc2 & Hat2). simpl in Ho, Hc2, Hat2. subst o. rewrite <-Hc2 in Hw.
  apply ok_with_bind. eapply ok_with_mono; [apply (append_suffix_spec c2 _ _ t1 Hw Hat2 Hw1)|].
  { eapply small_le; [|exact Hsm]. rewrite Hi1. apply kremove_length. }
  intros t3 [Hw3 Hi3]. simpl. split_and!; [done| |done]. by rewrite Hi3, Hi1.
Qed.

Lemma get_spec (t : tree) k :
  map_wf cx t → keys_sorted (tree_items t) → get cx t k = klookup k (tree_items t).
Proof.
  intros [Hw _] Hs. unfold get.
  pose proof (key_seekable k Left (dim_zero cx) _ Hs (key_le_zero _)).
  pose proof (key_exact_seekable k (dim_zero cx) _ Hs (key_le_zero _)).
  rewrite (find_exact_spec cx k Left MAP_DEPTH) by done.
  unfold found_exact. pose proof (scan_left k (dim_zero cx) _ Hs (key_le_zero _)) as Hsc.
  destruct (scan_split cx k Left (dim_zero cx) (tree_items t)) as (pre & Hi & Hp & _).
  destruct (scan cx k Left (dim_zero cx) (tree_items t)) as [p rest]. simpl in *. subst p.
  assert (Hend : ∀ x r, rest = x :: r → item_end cx (dims pre) x = item_key x).
  { intros x r ->. rewrite Hi in Hs. pose proof (key_le_app _ _ _ Hs (key_le_zero _)) as Hle.
    apply keys_sorted_app in Hs as (_ & Hs & _). by apply (key_step _ _ _ Hs Hle). }
  destruct rest as [|x r]; [by destruct (klookup k (tree_items t))|]. rewrite (Hend x r eq_refl).
  unfold target_cmp, key_target, ord_target.
  destruct (klookup k (tree_items t)) as [y|] eqn:E; simpl in Hsc.
  - injection Hsc as -> _. apply klookup_key in E as ->. by rewrite cmp_refl.
  - pose proof (gts_Forall k (tree_items t)) as Hg. rewrite <-Hsc in Hg.
    apply Forall_cons in Hg as [Hg _]. by rewrite Hg.
Qed.

(** ** [edit] *)
Definition apply_edit (its : list T) (e : Edit T K) : list T :=
  match e with Insert x => kinsert x its | Remove k => kremove k its end.
Definition edit_items (e : Edit T K) : list T := match e with Insert x => [x] | Remove _ => [] end.

Lemma apply_edit_around its e :
  apply_edit its e = lts (edit_key e) its ++ edit_items e ++ gts (edit_key e) its.
Proof. by destruct e. Qed.

Lemma apply_edit_sorted its e : keys_sorted its → keys_sorted (apply_edit its e).
Proof. destruct e; simpl; [apply kinsert_sorted|apply kremove_sorted]. Qed.

Lemma apply_edits_sorted its es : keys_sorted its → keys_sorted (foldl apply_edit its es).
Proof. revert its. induction es as [|e es IH]; simpl; auto using apply_edit_sorted. Qed.

(** What the loop keeps between edits: the cursor stands between [before] and
    [after], and everything in [new_tree] and [buffered_items] comes before the
    keys still to be edited. *)
Definition edit_state (k : K) (c : cursor) (before after : list T) : Prop :=
  at_ c before after ∧ keys_sorted (before ++ after) ∧
  Forall (fun x => cmp (item_key x) k ≠ Gt) before.

Lemma edit_advance k (c : cursor) before after new_tree buffered :
  map_wf cx (c_tree c) → edit_state k c before after → tree_wf cx MAP_DEPTH new_tree →
  small (tree_items new_tree ++ buffered ++ after) →
  ok_with
    (old_item ← cursor_item c;
     if match old_item with Some old_item => ltb (item_key old_item) k | None => false end then
       new_tree ← extend cx new_tree buffered;
       '(c, slice) ← cursor_slice cx k Left c;
       new_tree ← append cx new_tree slice;
       Ok (c, new_tree, [])
     else Ok (c, new_tree, buffered))
    (fun '(c', t', b') =>
      c_tree c' = c_tree c ∧
      at_ c' (before ++ lts k after) (opt_list (klookup k after) ++ gts k after) ∧
      tree_wf cx MAP_DEPTH t' ∧
      tree_items t' ++ b' = tree_items new_tree ++ buffered ++ lts k after).
Proof.
  intros Hw (Hat & Hs & Hb) Ht Hsm. rewrite (cursor_item_spec _ _ _ _ _ Hat). simpl.
  pose proof Hs as (_ & Hsa & _)%keys_sorted_app. pose proof (keys_split k after Hsa) as Hsp.
  assert (Hf : ∀ l : list T, (length l ≤ length (buffered ++ after))%nat →
            fits MAP_DEPTH 255 (tree_items new_tree ++ l)).
  { intros l Hl. apply small_fits; [lia|]. eapply small_le; [|exact Hsm].
    rewrite !length_app in *. lia. }
  destruct (match head after with Some x => ltb (item_key x) k | None => false end) eqn:E.
  - apply ok_with_bind. eapply ok_with_mono.
    { apply (extend_spec cx MAP_DEPTH new_tree buffered Ht).
      - apply small_from_iter. eapply small_le; [|exact Hsm]. rewrite !length_app. lia.
      - apply Hf. rewrite length_app. lia. }
    intros t1 [Ht1 Hi1]. apply ok_with_bind.
    eapply ok_with_mono; [apply (slice_left_spec k c before after Hw); [by right|done..]|].
    intros [c1 t2] (Hc1 & Hw2 & Hi2 & Hat2). cbn [fst snd] in *. apply ok_with_bind.
    eapply ok_with_mono; [apply (append_spec cx MAP_DEPTH t1 t2 Ht1 Hw2)|].
    { rewrite Hi1, Hi2, <-app_assoc. apply Hf. rewrite !length_app.
      pose proof (filter_length_le (fun y => ltb (item_key y) k) after). unfold lts. lia. }
    intros t3 [Hw3 Hi3]. simpl. split_and!; [done..|].
    by rewrite app_nil_r, Hi3, Hi1, Hi2, <-app_assoc.
  - assert (lts k after = []) as Hl.
    { destruct after as [|x after]; [done|]. simpl in E. apply ltb_ge in E. apply lts_none.
      apply keys_sorted_cons in Hsa as [_ Hx]. rewrite cmp_opp in E.
      constructor; [by destruct (cmp k (item_key x))|].
      eapply Forall_impl; [exact Hx|]. simpl. intros y Hy Ey. apply cmp_gt_lt in Ey.
      rewrite (cmp_opp (item_key x)) in E. by rewrite (cmp_lt_trans _ _ _ Hy Ey) in E. }
    simpl. rewrite Hl, !app_nil_r in *. simpl in Hsp. rewrite <-Hsp. by split_and!.
Qed.

Lemma edit_step_spec e (c : cursor) before after new_tree buffered removed :
  map_wf cx (c_tree c) → edit_state (edit_key e) c before after → tree_wf cx MAP_DEPTH new_tree →
  small (tree_items new_tree ++ buffered ++ after) →
  ok_with (edit_step cx e c new_tree buffered removed) (fun '(c', t', b', r') =>
    ∃ before', c_tree c' = c_tree c ∧ edit_state (edit_key e) c' before' (gts (edit_key e) after) ∧
      tree_wf cx MAP_DEPTH t' ∧
      tree_items t' ++ b' =
        tree_items new_tree ++ buffered ++ lts (edit_key e) after ++ edit_items e ∧
      r' = removed ++ opt_list (klookup (edit_key e) after)).
Proof.
  intros Hw Hst Ht Hsm. pose proof (edit_advance _ c before after new_tree buffered Hw Hst Ht Hsm) as Hadv.
  destruct Hst as (Hat & Hs & Hb). unfold edit_step.
  destruct (cursor_item c) as [oi|]; [|done]. simpl in *.
  apply ok_with_bind. eapply ok_with_mono; [exact Hadv|]. clear Hadv.
  intros [[c1 t1] b1] (Hc1 & Hat1 & Ht1 & Hi1). apply ok_with_bind. rewrite <-Hc1 in Hw.
  eapply ok_with_mono; [apply (take_item_spec _ _ _ _ _ Hw Hat1); [by intros y ->%klookup_key|apply gts_Forall]|].
  intros [o c2] (Ho & Hc2 & Hat2). simpl in Ho, Hc2, Hat2. subst o. simpl.
  pose proof Hs as (_ & Hsa & _)%keys_sorted_app.
  exists ((before ++ lts (edit_key e) after) ++ opt_list (klookup (edit_key e) after)).
  split; [congruence|]. split; [split_and!; [done| |]|split_and!; [done| |]].
  - rewrite <-!app_assoc. by rewrite <-keys_split.
  - rewrite !Forall_app. split_and!; [done| |].
    + eapply Forall_impl; [apply lts_Forall|]. simpl. by intros y ->.
    + destruct (klookup (edit_key e) after) as [y|] eqn:E; constructor; [|done].
      by rewrite (klookup_key _ _ _ E), cmp_refl.
  - destruct e; simpl in *; [|by rewrite app_nil_r].
    by rewrite !app_assoc, <-(app_assoc _ _ (lts _ _)), <-Hi1.
  - destruct (klookup (edit_key e) after); simpl; [done|by rewrite app_nil_r].
Qed.

Definition edits_sorted (es : list (Edit T K)) : Prop :=
  StronglySorted (fun e1 e2 => cmp (edit_key e1) (edit_key e2) = Lt) es.
Definition removed_by (its : list T) (es : list (Edit T K)) : list T :=
  flat_map (fun e => opt_list (klookup (edit_key e) its)) es.

Lemma removed_by_gts k its es :
  Forall (fun e => cmp k (edit_key e) = Lt) es → removed_by (gts k its) es = removed_by its es.
Proof.
  induction 1 as [|e es He _ IH]; simpl; [done|]. rewrite klookup_gts.
  unfold ltb. by rewrite He, IH.
Qed.

Lemma apply_edit_after e (l after : list T) :
  Forall (fun x => cmp (item_key x) (edit_key e) = Lt) l →
  apply_edit (l ++ after) e =
    (l ++ lts (edit_key e) after ++ edit_items e) ++ gts (edit_key e) after.
Proof.
  intros Hl. rewrite apply_edit_around, lts_app, gts_app, (lts_all _ l) by done.
  rewrite (gts_none _ l).
  - by rewrite <-!app_assoc.
  - eapply Forall_impl; [exact Hl|]. simpl. by intros x ->.
Qed.

Lemma edit_loop_spec es (c : cursor) before after new_tree buffered removed :
  map_wf cx (c_tree c) → edits_sorted es → tree_wf cx MAP_DEPTH new_tree →
  at_ c before after → keys_sorted (before ++ after) →
  Forall (fun e => Forall (fun x => cmp (item_key x) (edit_key e) = Lt)
                     (before ++ tree_items new_tree ++ buffered)) es →
  (N.of_nat (length (tree_items new_tree ++ buffered ++ after) + length es) < 6 ^ 9)%N →
  ok_with (edit_loop cx es c new_tree buffered removed) (fun '(c', t', b', r') =>
    ∃ before' after', c_tree c' = c_tree c ∧ at_ c' before' after' ∧ tree_wf cx MAP_DEPTH t' ∧
      tree_items t' ++ b' ++ after' =
        foldl apply_edit (tree_items new_tree ++ buffered ++ after) es ∧
      r' = removed ++ removed_by after es).
Proof.
  intros Hw Hes. revert c before after new_tree buffered removed Hw.
  induction Hes as [|e es Hes IH He]; intros c before after new_tree buffered removed Hw Ht Hat Hs Hb Hn.
  { simpl. exists before, after. by rewrite app_nil_r. }
  apply Forall_cons in Hb as [Hbe Hb]. apply Forall_app in Hbe as [Hbb Hbn].
  cbn [edit_loop]. apply ok_with_bind. eapply ok_with_mono.
  { apply (edit_step_spec e c before after new_tree buffered removed Hw); [|done|].
    - split_and!; [done..|]. eapply Forall_impl; [exact Hbb|]. simpl. by intros x ->.
    - unfold small. lia. }
  intros [[[c1 t1] b1] r1] (before1 & Hc1 & (Hat1 & Hs1 & Hb1) & Ht1 & Hi1 & Hr1). subst r1.
  assert (Hfold : apply_edit (tree_items new_tree ++ buffered ++ after) e =
                  tree_items t1 ++ b1 ++ gts (edit_key e) after).
  { rewrite (app_assoc _ buffered), (app_assoc _ b1), Hi1, apply_edit_after by done.
    by rewrite <-!app_assoc. }
  eapply ok_with_mono; [apply (IH c1 before1 (gts (edit_key e) after) t1 b1); rewrite ?Hc1; try done|].
  - apply Forall_forall. intros e' He'. rewrite Forall_forall in He. specialize (He e' He').
    rewrite Hi1, !Forall_app. apply Forall_app in Hbn as [Hbn1 Hbn2].
    assert (Hlt : ∀ l : list T, Forall (fun x => cmp (item_key x) (edit_key e) ≠ Gt) l →
              Forall (fun x => cmp (item_key x) (edit_key e') = Lt) l).
    { intros l Hl. eapply Forall_impl; [exact Hl|]. simpl. intros x Hx. by eapply cmp_le_lt_trans. }
    assert (Hlt' : ∀ l : list T, Forall (fun x => cmp (item_key x) (edit_key e) = Lt) l →
              Forall (fun x => cmp (item_key x) (edit_key e') = Lt) l).
    { intros l Hl. apply Hlt. eapply Forall_impl; [exact Hl|]. simpl. by intros x ->. }
    split_and!; [by apply Hlt|by apply Hlt'|by apply Hlt'|apply Hlt', lts_Forall|].
    apply Hlt. destruct e; simpl; repeat constructor. by rewrite cmp_refl.
  - rewrite <-Hfold, apply_edit_around.
    pose proof (kremove_length (edit_key e) (tree_items new_tree ++ buffered ++ after)) as Hk.
    unfold kremove in Hk. rewrite !(length_app (lts _ _)) in *. rewrite (length_app (edit_items e)).
    assert (length (edit_items e) ≤ 1)%nat by (destruct e; simpl; lia). simpl in Hn. lia.
  - intros [[[c2 t2] b2] r2] (before' & after' & Hc2 & Hat2 & Ht2 & Hi2 & Hr2).
    exists before', after'. simpl. rewrite Hfold, <-app_assoc, removed_by_gts in * by done.
    split_and!; try done. congruence.
Qed.

Lemma apply_edits_length its es :
  (length (foldl apply_edit its es) ≤ length its + length es)%nat.
Proof.
  revert its. induction es as [|e es IH]; intros its; simpl; [lia|].
  etransitivity; [apply IH|]. destruct e as [x|k]; simpl.
  - pose proof (kinsert_length x its). lia.
  - pose proof (kremove_length k its). lia.
Qed.

Lemma seek_left_spec k (t : tree) :
  map_wf cx t → keys_sorted (tree_items t) →
  ok_with (cursor_seek cx k Left (cursor_new cx t : cursor)) (fun r =>
    c_tree r.1 = t ∧
    at_ r.1 (lts k (tree_items t)) (opt_list (klookup k (tree_items t)) ++ gts k (tree_items t))).
Proof.
  intros Hw Hs. pose proof (map_wf_height cx _ Hw) as Hh. destruct Hw as [Ht Hsm].
  unfold cursor_seek. eapply ok_with_mono.
  { apply (cursor_seek_forward_spec cx MAP_DEPTH k Left
             (cursor_reset cx (cursor_new cx t)) [] (tree_items t)); try done.
    - by left.
    - apply key_ge; constructor.
    - by apply key_seekable, key_le_zero. }
  intros [c' found] (l & rest & (Hct & Ha & Hsc & Hat) & _). split; [done|].
  pose proof (scan_left k (dims []) _ Hs (key_le_zero _)) as Hsl. rewrite Hsc in Hsl. simpl in Hsl.
  rewrite <-Hsl. assert (l = lts k (tree_items t)) as <-; [|done].
  apply (app_inv_tail rest). rewrite <-Ha, Hsl. by apply keys_split.
Qed.

Lemma seek_start_spec (t : tree) :
  map_wf cx t → keys_sorted (tree_items t) →
  ok_with (cursor_seek cx (dim_zero cx : K) Left (cursor_new cx t : cursor)) (fun r =>
    c_tree r.1 = t ∧ at_ r.1 [] (tree_items t)).
Proof.
  intros Hw Hs. eapply ok_with_mono; [by apply seek_left_spec|].
  intros [c' found] [Hct Hat]. split; [done|].
  pose proof (keys_split (dim_zero cx) _ Hs) as Hsp.
  assert (lts (dim_zero cx) (tree_items t) = []) as E by apply lts_none, key_le_zero.
  rewrite E in Hat, Hsp. simpl in Hsp. by rewrite <-Hsp in Hat.
Qed.

Lemma strictly_sorted (es : list (Edit T K)) :
  StronglySorted (fun e1 e2 => cmp (edit_key e1) (edit_key e2) ≠ Gt) es →
  NoDup (edit_key <$> es) → edits_sorted es.
Proof.
  induction 1 as [|e es Hs IH He]; simpl; [constructor|]. intros [Hn Hnd]%NoDup_cons.
  constructor; [by apply IH|]. rewrite Forall_forall in *. intros e' He'. specialize (He e' He').
  destruct (cmp (edit_key e) (edit_key e')) eqn:E; [|done|done].
  apply cmp_eq in E. destruct Hn. rewrite E. by apply list_elem_of_fmap_2.
Qed.

Lemma edit_spec `{!UnstableSort, !UnstableSortLaws} (t : tree) (edits : list (Edit T K)) :
  map_wf cx t → keys_sorted (tree_items t) → NoDup (edit_key <$> edits) →
  (N.of_nat (length (tree_items t) + length edits) < 6 ^ 9)%N →
  ∃ es, Permutation es edits ∧ edits_sorted es ∧
    ok_with (edit cx t edits) (fun r => map_wf cx r.1 ∧
      tree_items r.1 = foldl apply_edit (tree_items t) es ∧
      r.2 = removed_by (tree_items t) es).
Proof.
  intros Hw Hs Hnd Hn. destruct edits as [|e edits].
  { exists []. split_and!; [done|constructor|]. by simpl. }
  pose proof (sort_permutation edit_key (e :: edits)) as Hp.
  pose proof (sort_sorted edit_key (e :: edits)) as Hss. unfold edit.
  set (es := sort_unstable_by_key _ _) in *. exists es. split; [done|].
  assert (Hes : edits_sorted es) by (apply strictly_sorted; [done|]; by rewrite Hp). split; [done|].
  apply ok_with_bind. eapply ok_with_mono; [by apply seek_start_spec|].
  intros [c1 found] [Hc1 Hat1]. simpl in Hc1, Hat1. subst t.
  assert (Hlen : length es = length (e :: edits)) by by rewrite Hp.
  apply ok_with_bind. eapply ok_with_mono.
  { apply (edit_loop_spec es c1 [] (tree_items (c_tree c1)) (new cx) [] []); try done; [by left| |].
    - by apply Forall_forall.
    - simpl in *. rewrite Hlen. simpl. lia. }
  intros [[[c2 t2] b2] r2] (before' & after' & Hc2 & Hat2 & Ht2 & Hi2 & Hr2). simpl in Hi2, Hr2.
  pose proof (apply_edits_length (tree_items (c_tree c1)) es) as Hl.
  assert (Hsm : small (tree_items t2 ++ b2 ++ after')).
  { unfold small. rewrite Hi2. simpl in *. lia. }
  apply ok_with_bind. eapply ok_with_mono.
  { apply (extend_spec cx MAP_DEPTH t2 b2 Ht2).
    - apply small_from_iter. eapply small_le; [|exact Hsm]. rewrite !length_app. lia.
    - apply small_fits; [lia|]. eapply small_le; [|exact Hsm]. rewrite !length_app. lia. }
  intros t3 [Ht3 Hi3]. apply ok_with_bind. rewrite <-Hc2 in Hw.
  eapply ok_with_mono; [apply (append_suffix_spec c2 before' after' t3); [done..|]|].
  { by rewrite Hi3, <-app_assoc. }
  intros t4 [Hw4 Hi4]. simpl. split_and!; [done| |done]. by rewrite Hi4, Hi3, <-app_assoc, Hi2.
Qed.

(** The edit that concerns a key, and what it makes of it. *)
Definition edit_for (es : list (Edit T K)) (k : K) : option (Edit T K) :=
  List.find (fun e => eqb (edit_key e) k) es.
Definition edited_lookup (its : list T) (es : list (Edit T K)) (k : K) : option T :=
  match edit_for es k with
  | Some (Insert x) => Some x
  | Some (Remove _) => None
  | None => klookup k its
  end.

Lemma edit_for_none es k : Forall (fun e => cmp (edit_key e) k ≠ Eq) es → edit_for es k = None.
Proof.
  induction 1 as [|e es He _ IH]; simpl; [done|]. unfold eqb. by destruct (cmp (edit_key e) k).
Qed.

Lemma klookup_apply_edit k its e :
  klookup k (apply_edit its e) = edited_lookup its [e] k.
Proof.
  unfold edited_lookup; simpl. destruct e as [x|j]; simpl.
  - rewrite klookup_kinsert. by destruct (eqb _ _).
  - rewrite klookup_kremove. by destruct (eqb _ _).
Qed.

Lemma klookup_apply_edits k its es :
  edits_sorted es → klookup k (foldl apply_edit its es) = edited_lookup its es k.
Proof.
  intros Hs. revert its. induction Hs as [|e es Hs IH He]; intros its; [done|]. simpl.
  rewrite IH. unfold edited_lookup. rewrite klookup_apply_edit. unfold edited_lookup. simpl.
  destruct (eqb (edit_key e) k) eqn:E; [|done]. rewrite edit_for_none; [done|].
  apply eqb_eq in E as <-. eapply Forall_impl; [exact He|]. simpl. intros e' He' E. ord_solve.
Qed.

(** Finding the edit for a key does not depend on the order of the edits. *)
Lemma edit_for_perm es es' k :
  Permutation es es' → NoDup (edit_key <$> es) → edit_for es k = edit_for es' k.
Proof.
  induction 1 as [|e es es' Hp IH|e e' es|es1 es2 es3 H1 IH1 H2 IH2]; intros Hnd; simpl; [done|..].
  - apply NoDup_cons in Hnd as [_ Hnd]. by rewrite <-IH.
  - simpl in Hnd. apply NoDup_cons in Hnd as [Hn _].
    destruct (eqb (edit_key e) k) eqn:E1, (eqb (edit_key e') k) eqn:E2; try done.
    apply eqb_eq in E1, E2. destruct Hn. rewrite E1, E2. by left.
  - rewrite IH1, IH2; [done| |done]. by rewrite <-H1.
Qed.

Lemma removed_by_sorted its es :
  edits_sorted es → keys_sorted (removed_by its es) ∧
  ∀ k, klookup k (removed_by its es) =
    match edit_for es k with Some _ => klookup k its | None => None end.
Proof.
  induction 1 as [|e es Hs [IHs IHk] He]; simpl; [split; [constructor|done]|]. split.
  - apply keys_sorted_app. split_and!; [destruct (klookup _ _); repeat constructor|done|].
    destruct (klookup (edit_key e) its) as [x|] eqn:E; constructor; [|done].
    apply klookup_key in E. rewrite E. apply Forall_forall. intros y Hy.
    unfold removed_by in Hy. apply list_elem_of_In, in_flat_map in Hy as (e' & He' & Hy).
    destruct (klookup (edit_key e') its) as [z|] eqn:E'; [|done].
    destruct Hy as [<-|[]]. rewrite (klookup_key _ _ _ E'). rewrite Forall_forall in He.
    apply He. by apply list_elem_of_In.
  - intros k. rewrite klookup_app, IHk.
    destruct (klookup (edit_key e) its) as [x|] eqn:E; simpl.
    + rewrite (klookup_key _ _ _ E). destruct (eqb (edit_key e) k) eqn:Ek; [|done].
      by apply eqb_eq in Ek as <-.
    + destruct (eqb (edit_key e) k) eqn:Ek; [|done]. apply eqb_eq in Ek as <-. rewrite E.
      by destruct (edit_for es (edit_key e)).
Qed.
End keyed.
