(* ===== verification/TreeMap.v ===== *)
(** * [TreeMap] and [TreeSet]: [crates/sum_tree/src/tree_map.rs]

    An ordered map as a [SumTree] of entries summarised by their last key.
    [MapKeyRef<'a, K>] borrows what [MapKey<K>] owns; both are [MapKey] here.
    Iterators are drained into lists. *)

From S2P Require Import Prelude Ord SumTree Cursor KeyedTree.

Record MapEntry (K V : Type) := mkMapEntry { me_key : K; me_value : V }.
Arguments mkMapEntry {_ _} _ _.
Arguments me_key {_ _} _.
Arguments me_value {_ _} _.

Record MapKey (K : Type) := mkMapKey { mk_key : option K }.
Arguments mkMapKey {_} _.
Arguments mk_key {_} _.

Definition TreeMap (K V : Type) : Type := SumTree (MapEntry K V) (MapKey K).

(** [#[derive(PartialOrd, Ord)]]: [None] is below every key. *)
#[export] Instance MapKey_ord {K} `{Ord K} : Ord (MapKey K) := fun a b => cmp (mk_key a) (mk_key b).
#[export] Instance MapKey_summary {K} : Summary (MapKey K) unit :=
  {| zero _ := mkMapKey None; add_summary _ _ s := s |}.
#[export] Instance MapKey_dimension {K} : Dimension (MapKey K) (MapKey K) unit :=
  {| dim_zero _ := mkMapKey None; dim_add_summary _ _ s := s |}.
#[export] Instance MapEntry_keyed {K V} : KeyedItem (MapEntry K V) (MapKey K) :=
  fun e => mkMapKey (Some (me_key e)).
#[export] Instance MapEntry_item {K V} : Item (MapEntry K V) (MapKey K) unit :=
  fun _ e => item_key e.

(** [MapSeekTarget] and its adaptor. *)
Class MapSeekTarget (Tgt K : Type) := cmp_cursor : Tgt → K → comparison.
#[export] Instance key_seek_target {K} `{Ord K} : MapSeekTarget K K := cmp.

Record MapSeekTargetAdaptor (Tgt : Type) := mkAdaptor { adapted : Tgt }.
Arguments mkAdaptor {_} _.
Arguments adapted {_} _.
#[export] Instance adaptor_target {Tgt K} `{!MapSeekTarget Tgt K} :
    SeekTarget (MapSeekTargetAdaptor Tgt) (MapKey K) unit :=
  fun _ self loc => match mk_key loc with Some key => cmp_cursor (adapted self) key | None => Gt end.

Section treemap.
Context {K V : Type} `{!Ord K}.
Abbreviation tree_map := (TreeMap K V).
Abbreviation cursor := (Cursor (MapEntry K V) (MapKey K) (MapKey K)).
#[local] Existing Instance key_target.

Definition entry_pair (e : MapEntry K V) : K * V := (me_key e, me_value e).
Definition pair_entry (p : K * V) : MapEntry K V := mkMapEntry p.1 p.2.

Definition map_default : tree_map := new tt.

Definition from_ordered_entries (entries : list (K * V)) : outcome tree_map :=
  from_iter tt (pair_entry <$> entries).

Definition map_is_empty (self : tree_map) : bool := is_empty self.

Definition map_get (self : tree_map) (key : K) : option V :=
  match (find tt self (mkMapKey (Some key)) Left).2 with
  | Some item =>
      if eqb (Some key) (mk_key (item_key item)) then Some (me_value item) else None
  | None => None
  end.

Definition map_contains_key (self : tree_map) (key : K) : bool :=
  match map_get self key with Some _ => true | None => false end.

Definition map_insert (self : tree_map) (key : K) (value : V) : outcome tree_map :=
  '(t, _) ← insert_or_replace tt self (mkMapEntry key value); Ok t.

Definition map_insert_or_replace (self : tree_map) (key : K) (value : V) : outcome (tree_map * option V) :=
  '(t, replaced) ← insert_or_replace tt self (mkMapEntry key value); Ok (t, option_map me_value replaced).

Definition map_extend `{!UnstableSort} (self : tree_map) (iter : list (K * V)) : outcome tree_map :=
  '(t, _) ← edit tt self ((fun p => Insert (pair_entry p)) <$> iter); Ok t.

Definition map_clear (self : tree_map) : tree_map := new tt.

Definition map_remove (self : tree_map) (key : K) : outcome (tree_map * option V) :=
  let key := mkMapKey (Some key) in
  '(c, new_tree) ← cursor_slice tt key Left (cursor_new tt self : cursor);
  end_ ← cursor_end tt c;
  '(removed, c) ←
    (if eqb key end_ then
       item ← cursor_item c; item ← unwrap item;
       c ← cursor_next tt c;
       Ok (Some (me_value item), c)
     else Ok (None, c));
  new_tree ← append_suffix tt new_tree c;
  Ok (new_tree, removed).

Definition map_remove_range {S E} `{!MapSeekTarget S K, !MapSeekTarget E K}
    (self : tree_map) (start : S) (end_ : E) : outcome tree_map :=
  '(c, new_tree) ← cursor_slice tt (mkAdaptor start) Left (cursor_new tt self : cursor);
  '(c, _) ← cursor_seek tt (mkAdaptor end_) Left c;
  append_suffix tt new_tree c.

(** The key-value pair with the greatest key less than or equal to the key. *)
Definition map_closest (self : tree_map) (key : K) : outcome (option (K * V)) :=
  '(c, _) ← cursor_seek tt (mkMapKey (Some key)) Right (cursor_new tt self : cursor);
  c ← cursor_prev tt c;
  item ← cursor_item c;
  Ok (option_map entry_pair item).

Definition map_iter_from (self : tree_map) (from : K) : outcome (list (K * V)) :=
  '(c, _) ← cursor_seek tt (mkMapKey (Some from)) Left (cursor_new tt self : cursor);
  entries ← cursor_collect tt (cost self) c;
  Ok (map entry_pair entries).

(** [update(key, f)]: the closure mutates the value and returns a result. *)
Definition map_update {R} (self : tree_map) (key : K) (f : V → V * R) : outcome (tree_map * option R) :=
  let key := mkMapKey (Some key) in
  '(c, new_tree) ← cursor_slice tt key Left (cursor_new tt self : cursor);
  end_ ← cursor_end tt c;
  '(result, new_tree, c) ←
    (if eqb key end_ then
       item ← cursor_item c; updated ← unwrap item;
       let '(value, r) := f (me_value updated) in
       new_tree ← push tt new_tree (mkMapEntry (me_key updated) value);
       c ← cursor_next tt c;
       Ok (Some r, new_tree, c)
     else Ok (None, new_tree, c));
  new_tree ← append_suffix tt new_tree c;
  Ok (new_tree, result).

Fixpoint retain_loop (fuel : nat) (predicate : K → V → bool) (c : cursor) (new_map : tree_map) :
    outcome tree_map :=
  match fuel with
  | O => Panic
  | S fuel =>
      item ← cursor_item c;
      match item with
      | Some item =>
          new_map ← (if predicate (me_key item) (me_value item) then push tt new_map item
                     else Ok new_map);
          c ← cursor_next tt c;
          retain_loop fuel predicate c new_map
      | None => Ok new_map
      end
  end.

Definition map_retain (self : tree_map) (predicate : K → V → bool) : outcome tree_map :=
  c ← cursor_next tt (cursor_new tt self : cursor);
  retain_loop (cost self) predicate c (new tt).

Definition map_iter (self : tree_map) : outcome (list (K * V)) :=
  entries ← tree_iter self; Ok (map entry_pair entries).

Definition map_values (self : tree_map) : outcome (list V) :=
  entries ← tree_iter self; Ok (map me_value entries).

Definition map_first (self : tree_map) : outcome (option (K * V)) :=
  entry ← tree_first self; Ok (option_map entry_pair entry).

Definition map_last (self : tree_map) : outcome (option (K * V)) :=
  entry ← tree_last self; Ok (option_map entry_pair entry).

Definition map_insert_tree `{!UnstableSort} (self other : tree_map) : outcome tree_map :=
  entries ← map_iter other;
  '(t, _) ← edit tt self ((fun p => Insert (pair_entry p)) <$> entries); Ok t.
End treemap.

(** ** [TreeSet] *)
Definition TreeSet (K : Type) : Type := TreeMap K unit.

Section treeset.
Context {K : Type} `{!Ord K}.

Definition set_from_ordered_entries (entries : list K) : outcome (TreeSet K) :=
  from_ordered_entries ((fun key => (key, tt)) <$> entries).
Definition set_is_empty (self : TreeSet K) : bool := map_is_empty self.
Definition set_insert (self : TreeSet K) (key : K) : outcome (TreeSet K) := map_insert self key tt.
Definition set_remove (self : TreeSet K) (key : K) : outcome (TreeSet K * bool) :=
  '(t, removed) ← map_remove self key;
  Ok (t, match removed with Some _ => true | None => false end).
Definition set_extend `{!UnstableSort} (self : TreeSet K) (iter : list K) : outcome (TreeSet K) :=
  map_extend self ((fun key => (key, tt)) <$> iter).
Definition set_contains (self : TreeSet K) (key : K) : bool :=
  match map_get self key with Some _ => true | None => false end.
Definition set_iter (self : TreeSet K) : outcome (list K) :=
  entries ← map_iter self; Ok (map fst entries).
Definition set_iter_from (self : TreeSet K) (key : K) : outcome (list K) :=
  entries ← map_iter_from self key; Ok (map fst entries).
End treeset.
