(* ===== verification/TreeMapFacts.v ===== *)
(** * [TreeMap] refines finite maps

    The abstract value of a map is the function [denote m : K → option V] together
    with the ascending list of its entries.  Every operation of [tree_map.rs]
    preserves the invariant [map_ok] (a well-formed tree with strictly ascending
    keys) and acts on the abstract value as its name says. *)

From stdpp Require Import sets.
From S2P Require Import Prelude Ord SumTree SumTreeFacts SeekSpec.
From S2P Require Import Cursor CursorFacts SeekFacts KeyedTree KeyedFacts TreeMap.

#[export] Instance MapKey_ord_laws {K} `{OrdLaws K} : OrdLaws (MapKey K).
Proof. apply (ord_laws_view mk_key); [|done]. by intros [x] [y] [= ->]. Qed.
#[export] Instance MapKey_summary_laws {K} : SummaryLaws (Sm:=MapKey K) tt.
Proof. by split. Qed.
#[export] Instance MapKey_dimension_laws {K} : DimensionLaws (MapKey K) (Sm:=MapKey K) tt.
Proof. done. Qed.
#[export] Instance MapKey_key_laws {K V} `{OrdLaws K} : KeyLaws (MapEntry K V) (MapKey K) tt.
Proof. split; [done|]. by intros [[k|]]. Qed.

Section treemap.
Context {K V : Type} `{!Ord K, !OrdLaws K}.
Abbreviation tree_map := (TreeMap K V).
Abbreviation entry := (MapEntry K V).
Abbreviation cursor := (Cursor entry (MapKey K) (MapKey K)).
#[local] Existing Instance key_target.
Implicit Types (m : tree_map) (k : K) (its : list entry).

Definition map_ok m : Prop := map_wf tt m ∧ keys_sorted (tree_items m).
Definition mkey k : MapKey K := mkMapKey (Some k).
Definition entries m : list (K * V) := entry_pair <$> tree_items m.
Definition denote m k : option V := option_map me_value (klookup (mkey k) (tree_items m)).

Lemma entry_eta (e : entry) : mkMapEntry (me_key e) (me_value e) = e.
Proof. by destruct e. Qed.

Lemma mkey_cmp k j : cmp (mkey k) (mkey j) = cmp k j.
Proof. done. Qed.

Lemma mkey_eqb k j : eqb (mkey k) (mkey j) = eqb k j.
Proof. done. Qed.

(** ** Lookup *)
Lemma map_get_spec m k : map_ok m → map_get m k = denote m k.
Proof.
  intros [[Hw _] Hs]. unfold map_get, denote. fold (mkey k).
  pose proof (key_seekable tt (mkey k) Left _ _ Hs (key_le_zero tt _)).
  rewrite (find_item_spec tt (mkey k) Left MAP_DEPTH) by done.
  rewrite (scan_left tt (mkey k) _ _ Hs (key_le_zero tt _)).
  destruct (klookup (mkey k) (tree_items m)) as [x|] eqn:E; simpl.
  - apply klookup_key in E. injection E as ->. unfold eqb. by rewrite cmp_refl.
  - pose proof (gts_Forall (mkey k) (tree_items m)) as Hg.
    destruct (gts (mkey k) (tree_items m)) as [|y r]; simpl; [done|].
    apply Forall_cons in Hg as [Hg _]. unfold eqb.
    change (cmp (Some k) (Some (me_key y))) with (cmp (mkey k) (item_key y)). by rewrite Hg.
Qed.

(** ** Single-key updates *)
Lemma small_kinsert (x : entry) its : small (x :: its) → small (kinsert x its).
Proof. apply small_le, kinsert_length. Qed.

Lemma map_insert_or_replace_spec m k v :
  map_ok m → small (mkMapEntry k v :: tree_items m) →
  ok_with (map_insert_or_replace m k v) (fun r =>
    map_ok r.1 ∧ tree_items r.1 = kinsert (mkMapEntry k v) (tree_items m) ∧ r.2 = denote m k).
Proof.
  intros [Hw Hs] Hsm. unfold map_insert_or_replace. apply ok_with_bind.
  eapply ok_with_mono; [by apply (insert_or_replace_spec tt m (mkMapEntry k v))|].
  intros [t o] (Hw' & Hi & Ho). simpl in *. subst o. split; [split; [done|]|done].
  rewrite Hi. by apply kinsert_sorted.
Qed.

(** At the end of the slice, [cursor.end()] equals the key exactly when the entry
    is there. *)
Lemma cursor_end_key (c : cursor) k before its :
  cursor_at tt MAP_DEPTH c (before ++ lts (mkey k) its)
    (opt_list (klookup (mkey k) its) ++ gts (mkey k) its) →
  before = [] → keys_sorted its →
  ∃ e, cursor_end tt c = Ok e ∧
    eqb (mkey k) e = match klookup (mkey k) its with Some _ => true | None => false end.
Proof.
  intros Hat -> Hs. rewrite (cursor_end_spec _ _ _ _ _ Hat). eexists. split; [done|].
  pose proof (lts_Forall (mkey k) its) as Hl. pose proof (gts_Forall (mkey k) its) as Hg.
  assert (Hend : ∀ (l : list entry) x, dim_items tt (dim_zero tt) (l ++ [x]) = item_key x).
  { intros l x. by rewrite dim_items_app. }
  simpl. destruct (klookup (mkey k) its) as [x|] eqn:E; simpl.
  - apply klookup_key in E. rewrite Hend, E. apply eqb_refl.
  - destruct (gts (mkey k) its) as [|y r].
    + destruct (decide (lts (mkey k) its = [])) as [->|Hne]; [done|].
      destruct (rev_case _ Hne) as (l & x & El). rewrite El in Hl |- *. rewrite Hend.
      apply Forall_app in Hl as [_ Hl]. rewrite Forall_singleton in Hl.
      unfold eqb. by rewrite cmp_opp, Hl.
    + rewrite Hend. apply Forall_cons in Hg as [Hg _]. unfold eqb. by rewrite Hg.
Qed.

(** The cursor and tree of [remove] and [update] after slicing up to the key. *)
Definition sliced m k (r : cursor * tree_map) : Prop :=
  c_tree r.1 = m ∧ tree_wf tt MAP_DEPTH r.2 ∧ tree_items r.2 = lts (mkey k) (tree_items m) ∧
  cursor_at tt MAP_DEPTH r.1 (lts (mkey k) (tree_items m))
    (opt_list (klookup (mkey k) (tree_items m)) ++ gts (mkey k) (tree_items m)).

Lemma key_slice_spec m k :
  map_ok m → ok_with (cursor_slice tt (mkey k) Left (cursor_new tt m : cursor)) (sliced m k).
Proof.
  intros [Hw Hs]. apply (slice_left_spec tt (mkey k) (cursor_new tt m) [] (tree_items m)); try done.
  by left.
Qed.

Lemma sliced_next m k c t x :
  map_ok m → sliced m k (c, t) → klookup (mkey k) (tree_items m) = Some x →
  cursor_item c = Ok (Some x) ∧
  ok_with (cursor_next tt c) (fun c' => c_tree c' = m ∧
    cursor_at tt MAP_DEPTH c' (lts (mkey k) (tree_items m) ++ [x]) (gts (mkey k) (tree_items m))).
Proof.
  intros [Hw Hs] (<- & _ & _ & Hat) E. simpl in *. rewrite E in Hat. simpl in Hat.
  split; [by rewrite (cursor_item_spec _ _ _ _ _ Hat)|].
  eapply ok_with_mono; [apply (cursor_next_at tt MAP_DEPTH c _ _ (proj1 Hw) (map_wf_height tt _ Hw) Hat)|].
  intros c2 [Hc2 Hat2]. simpl in *. by rewrite drop_0 in Hat2.
Qed.

Lemma map_remove_spec m k :
  map_ok m →
  ok_with (map_remove m k) (fun r =>
    map_ok r.1 ∧ tree_items r.1 = kremove (mkey k) (tree_items m) ∧ r.2 = denote m k).
Proof.
  intros Hm. unfold map_remove. fold (mkey k). apply ok_with_bind.
  eapply ok_with_mono; [by apply key_slice_spec|]. intros [c1 t1] Hsl.
  pose proof Hsl as (Hc1 & Hw1 & Hi1 & Hat1). pose proof Hm as [Hw Hs]. simpl in *.
  destruct (cursor_end_key c1 k [] _ Hat1 eq_refl Hs) as (e & -> & He). cbn [mbind outcome_bind].
  rewrite He. apply ok_with_bind. eapply (ok_with_mono _ (fun r =>
    r.1 = denote m k ∧ c_tree r.2 = m ∧
    cursor_at tt MAP_DEPTH r.2 (lts (mkey k) (tree_items m) ++ opt_list (klookup (mkey k) (tree_items m)))
      (gts (mkey k) (tree_items m)))).
  { pose proof (sliced_next m k c1 t1) as Hnext.
    unfold denote. destruct (klookup (mkey k) (tree_items m)) as [x|]; simpl in *.
    - destruct (Hnext x Hm Hsl eq_refl) as [-> Hn]. simpl. apply ok_with_bind.
      eapply ok_with_mono; [exact Hn|]. done.
    - by rewrite app_nil_r. }
  intros [o c2] (Ho & Hc2 & Hat2). simpl in Ho, Hc2, Hat2. subst o.
  apply ok_with_bind. pose proof (proj2 Hw) as Hsm. rewrite <-Hc2 in Hw.
  eapply ok_with_mono; [apply (append_suffix_spec tt c2 _ _ t1 Hw Hat2 Hw1)|].
  { eapply small_le; [|exact Hsm]. rewrite Hi1. apply kremove_length. }
  intros t3 [Hw3 Hi3]. simpl. rewrite Hi1 in Hi3. split; [split; [done|]|done].
  rewrite Hi3. by apply kremove_sorted.
Qed.

(** What [update] makes of the entries: the value of the key replaced in place. *)
Definition updated_items {R} (k : K) (f : V → V * R) its : list entry :=
  match klookup (mkey k) its with
  | Some x => kinsert (mkMapEntry k (f (me_value x)).1) its
  | None => its
  end.

Lemma klookup_mkey k its x : klookup (mkey k) its = Some x → me_key x = k.
Proof. intros E%klookup_key. by injection E. Qed.

Lemma klookup_length k its x :
  keys_sorted its → klookup (mkey k) its = Some x →
  length its = S (length (kremove (mkey k) its)).
Proof.
  intros Hs E. rewrite (keys_split (mkey k) its Hs) at 1. rewrite E. unfold kremove.
  rewrite !length_app. simpl. lia.
Qed.

(** [update] when the key is present. *)
Lemma update_found m k v x c1 t1 :
  map_ok m → sliced m k (c1, t1) → klookup (mkey k) (tree_items m) = Some x →
  ok_with (t ← push tt t1 (mkMapEntry k v); c ← cursor_next tt c1; append_suffix tt t c) (fun t =>
    map_ok t ∧ tree_items t = kinsert (mkMapEntry k v) (tree_items m)).
Proof.
  intros Hm Hsl E. pose proof Hsl as (_ & Hw1 & Hi1 & _). pose proof Hm as [Hw Hs]. simpl in *.
  assert (Hsz : small (kinsert (mkMapEntry k v) (tree_items m))).
  { eapply small_le; [|exact (proj2 Hw)]. rewrite (klookup_length k _ x Hs E).
    unfold kinsert, kremove. rewrite !length_app. simpl. change (item_key (mkMapEntry k v)) with (mkey k). lia. }
  apply ok_with_bind. eapply ok_with_mono; [apply (push_spec tt MAP_DEPTH t1 _ Hw1)|].
  { rewrite Hi1. apply small_fits; [lia|]. eapply small_le; [|exact Hsz].
    unfold kinsert. rewrite !length_app. simpl. change (item_key (mkMapEntry k v)) with (mkey k). lia. }
  intros t2 [Hw2 Hi2]. rewrite Hi1 in Hi2. apply ok_with_bind.
  eapply ok_with_mono; [by apply (sliced_next m k c1 t1 x)|]. intros c2 [Hc2 Hat2].
  rewrite <-Hc2 in Hw.
  eapply ok_with_mono; [apply (append_suffix_spec tt c2 _ _ t2 Hw Hat2 Hw2)|].
  { by rewrite Hi2, <-app_assoc. }
  intros t3 [Hw3 Hi3]. rewrite Hi2, <-app_assoc in Hi3. split; [|done]. split; [done|].
  rewrite Hi3. exact (kinsert_sorted (mkMapEntry k v) (tree_items m) Hs).
Qed.

Lemma map_update_spec {R} m k (f : V → V * R) :
  map_ok m →
  ok_with (map_update m k f) (fun r =>
    map_ok r.1 ∧ tree_items r.1 = updated_items k f (tree_items m) ∧
    r.2 = option_map (fun v => (f v).2) (denote m k)).
Proof.
  intros Hm. unfold map_update. fold (mkey k). apply ok_with_bind.
  eapply ok_with_mono; [by apply key_slice_spec|]. intros [c1 t1] Hsl.
  pose proof Hsl as (Hc1 & Hw1 & Hi1 & Hat1). pose proof Hm as [Hw Hs]. simpl in *.
  destruct (cursor_end_key c1 k [] _ Hat1 eq_refl Hs) as (e & -> & He). cbn [mbind outcome_bind].
  rewrite He. unfold denote, updated_items.
  destruct (klookup (mkey k) (tree_items m)) as [x|] eqn:E; simpl in *.
  - destruct (sliced_next m k c1 t1 x Hm Hsl E) as [-> _]. simpl.
    destruct (f (me_value x)) as [v r]. simpl. rewrite (klookup_mkey _ _ _ E).
    pose proof (update_found m k v x c1 t1 Hm Hsl E) as Hu.
    destruct (push tt t1 (mkMapEntry k v)) as [t2|]; [|done]. simpl in *.
    destruct (cursor_next tt c1) as [c2|]; [|done]. simpl in *. apply ok_with_bind.
    eapply ok_with_mono; [exact Hu|]. by intros t [? ?].
  - apply ok_with_bind. pose proof (proj2 Hw) as Hsm. rewrite <-Hc1 in Hw.
    eapply ok_with_mono; [apply (append_suffix_spec tt c1 _ _ t1 Hw Hat1 Hw1)|].
    { eapply small_le; [|exact Hsm]. rewrite Hi1. apply kremove_length. }
    intros t3 [Hw3 Hi3]. simpl. rewrite Hi1 in Hi3.
    pose proof (keys_split (mkey k) _ Hs) as Hsp. rewrite E in Hsp. simpl in Hsp. rewrite <-Hsp in Hi3.
    split; [split; [done|]|done]. by rewrite Hi3.
Qed.

(** ** Ordered queries *)
Definition up_to k its : list entry := List.filter (fun x => leb (me_key x) k) its.
Definition from_on k its : list entry := List.filter (fun x => negb (ltb (me_key x) k)) its.

Lemma up_to_from_on_split k its :
  keys_sorted its →
  up_to k its = lts (mkey k) its ++ opt_list (klookup (mkey k) its) ∧
  from_on k its = opt_list (klookup (mkey k) its) ++ gts (mkey k) its.
Proof.
  intros Hs.
  assert (Hl : Forall (fun x => cmp (me_key x) k = Lt) (lts (mkey k) its)) by exact (lts_Forall (mkey k) its).
  assert (Hg : Forall (fun x => cmp k (me_key x) = Lt) (gts (mkey k) its)) by exact (gts_Forall (mkey k) its).
  assert (Ho : Forall (fun x => me_key x = k) (opt_list (klookup (mkey k) its))).
  { destruct (klookup _ _) as [x|] eqn:E; constructor; [|done]. by eapply klookup_mkey. }
  assert (Hyes : ∀ (P : entry → bool) l, Forall (fun x => P x = true) l → List.filter P l = l).
  { induction 1 as [|x l Hx _ IH]; simpl; [done|]. by rewrite Hx, IH. }
  assert (Hno : ∀ (P : entry → bool) l, Forall (fun x => P x = false) l → List.filter P l = []).
  { induction 1 as [|x l Hx _ IH]; simpl; [done|]. by rewrite Hx. }
  pose proof (keys_split (mkey k) its Hs) as Hsp.
  set (a := lts (mkey k) its) in *. set (b := opt_list _) in *. set (c := gts (mkey k) its) in *.
  clearbody a b c. subst its. unfold up_to, from_on, leb, ltb. rewrite !List.filter_app.
  assert (Hc' : Forall (fun x => cmp (me_key x) k = Gt) c).
  { eapply Forall_impl; [exact Hg|]. simpl. intros x Hx. by rewrite cmp_opp, Hx. }
  assert (Hb' : Forall (fun x => cmp (me_key x) k = Eq) b).
  { eapply Forall_impl; [exact Ho|]. simpl. intros x ->. by rewrite cmp_refl. }
  split.
  - rewrite (Hyes _ a), (Hyes _ b), (Hno _ c), app_nil_r; [done|..];
      (eapply Forall_impl; [eassumption|]; simpl; by intros x ->).
  - rewrite (Hno _ a), (Hyes _ b), (Hyes _ c); [done|..];
      (eapply Forall_impl; [eassumption|]; simpl; by intros x ->).
Qed.

(** [seek] from the start of the map. *)
Lemma key_seek_spec m k bias :
  map_ok m →
  ok_with (cursor_seek tt (mkey k) bias (cursor_new tt m : cursor)) (fun r =>
    c_tree r.1 = m ∧
    match bias with
    | Left => cursor_at tt MAP_DEPTH r.1 (lts (mkey k) (tree_items m)) (from_on k (tree_items m))
    | Right => cursor_at tt MAP_DEPTH r.1 (up_to k (tree_items m)) (gts (mkey k) (tree_items m))
    end).
Proof.
  intros [Hw Hs]. pose proof (map_wf_height tt _ Hw) as Hh. destruct Hw as [Ht Hsm].
  destruct (up_to_from_on_split k _ Hs) as [Hup Hfr].
  unfold cursor_seek. eapply ok_with_mono.
  { apply (cursor_seek_forward_spec tt MAP_DEPTH (mkey k) bias
             (cursor_reset tt (cursor_new tt m)) [] (tree_items m)); try done.
    - by left.
    - exact (key_seekable tt (mkey k) bias _ _ Hs (key_le_zero tt _)). }
  intros [c' found] (l & rest & (Hct & Ha & Hsc & Hat) & _). split; [done|].
  pose proof (keys_split (mkey k) _ Hs) as Hsp.
  destruct bias.
  - pose proof (scan_left tt (mkey k) (dim_items tt (dim_zero tt) ([] : list entry)) _ Hs (key_le_zero tt _)) as Hsl. rewrite Hsc in Hsl. simpl in Hsl.
    rewrite Hfr, <-Hsl. assert (l = lts (mkey k) (tree_items m)) as <-; [|done].
    apply (app_inv_tail rest). rewrite <-Ha. by rewrite Hsl, <-Hsp.
  - pose proof (scan_right tt (mkey k) (dim_items tt (dim_zero tt) ([] : list entry)) _ Hs (key_le_zero tt _)) as Hsl. rewrite Hsc in Hsl. simpl in Hsl.
    rewrite <-Hsl. assert (l = up_to k (tree_items m)) as <-; [|done].
    apply (app_inv_tail rest). rewrite <-Ha. by rewrite Hsl, Hup, <-app_assoc, <-Hsp.
Qed.

Lemma map_closest_spec m k :
  map_ok m → map_closest m k = Ok (option_map entry_pair (last (up_to k (tree_items m)))).
Proof.
  intros Hm. pose proof Hm as [Hw Hs]. unfold map_closest. fold (mkey k).
  destruct (ok_with_inv _ _ (key_seek_spec m k Right Hm)) as ([c found] & -> & Hc & Hat). simpl in *.
  rewrite <-Hc in Hw.
  destruct (ok_with_inv _ _ (cursor_prev_at tt MAP_DEPTH c _ _ (proj1 Hw) (map_wf_height tt _ Hw) Hat))
    as (c' & -> & _ & Hds & Hp). simpl.
  destruct (reverse (up_to k (tree_items m))) as [|x r] eqn:E.
  - apply (f_equal reverse) in E. rewrite reverse_involutive in E. rewrite E.
    destruct Hp as [Hst _]. unfold cursor_item, assert_did_seek. by rewrite Hds, Hst.
  - apply (f_equal reverse) in E. rewrite reverse_involutive, reverse_cons in E. rewrite E, last_snoc.
    by rewrite (cursor_item_spec _ _ _ _ _ Hp).
Qed.

Lemma map_iter_from_spec m k :
  map_ok m → map_iter_from m k = Ok (entry_pair <$> from_on k (tree_items m)).
Proof.
  intros Hm. pose proof Hm as [Hw Hs]. unfold map_iter_from. fold (mkey k).
  destruct (ok_with_inv _ _ (key_seek_spec m k Left Hm)) as ([c found] & -> & Hc & Hat). simpl in *.
  rewrite <-Hc in Hw.
  rewrite (cursor_collect_at tt MAP_DEPTH _ c _ _ (proj1 Hw) (map_wf_height tt _ Hw) Hat); [done|].
  pose proof (cost_items m). pose proof (filter_length_le (fun x : entry => negb (ltb (me_key x) k)) (tree_items m)).
  unfold from_on. lia.
Qed.

Lemma map_iter_spec m : map_ok m → map_iter m = Ok (entries m).
Proof.
  intros [Hw _]. unfold map_iter.
  by rewrite (tree_iter_spec tt MAP_DEPTH m (proj1 Hw) (map_wf_height tt _ Hw)).
Qed.

(** ** Bulk operations *)
Lemma from_ordered_entries_spec (es : list (K * V)) :
  small es → keys_sorted (pair_entry <$> es) →
  ok_with (from_ordered_entries es) (fun m => map_ok m ∧ entries m = es).
Proof.
  intros Hsm Hs. assert (Hsm' : small (pair_entry <$> es)) by (unfold small; by rewrite length_fmap).
  eapply ok_with_mono; [apply (from_iter_spec tt MAP_DEPTH); [unfold MAP_DEPTH; lia|]|].
  - by apply small_from_iter.
  - intros m [Hw Hi]. unfold map_ok, map_wf, entries. rewrite Hi. split_and!; [done..|].
    rewrite <-list_fmap_compose. etransitivity; [|apply list_fmap_id].
    apply list_fmap_ext. by intros i [k v] _.
Qed.

Lemma retain_loop_spec (p : K → V → bool) fuel (c : cursor) before after new_map :
  map_wf tt (c_tree c) → cursor_at tt MAP_DEPTH c before after → (length after < fuel)%nat →
  tree_wf tt MAP_DEPTH new_map → small (tree_items new_map ++ after) →
  ok_with (retain_loop fuel p c new_map) (fun m =>
    tree_wf tt MAP_DEPTH m ∧
    tree_items m = tree_items new_map ++ List.filter (fun x => p (me_key x) (me_value x)) after).
Proof.
  revert c before after new_map. induction fuel as [|fuel IH]; intros c before after m Hw Hat Hl Ht Hsm; [lia|].
  simpl. rewrite (cursor_item_spec _ _ _ _ _ Hat). simpl.
  destruct after as [|x after]; simpl; [by rewrite app_nil_r|].
  apply ok_with_bind. eapply (ok_with_mono _ (fun m' => tree_wf tt MAP_DEPTH m' ∧
    tree_items m' = tree_items m ++ (if p (me_key x) (me_value x) then [x] else []))).
  { destruct (p _ _); [|by rewrite app_nil_r]. apply (push_spec tt MAP_DEPTH m x Ht).
    apply small_fits; [lia|]. eapply small_le; [|exact Hsm]. rewrite !length_app. simpl. lia. }
  intros m' [Hm' Hi']. apply ok_with_bind.
  eapply ok_with_mono; [apply (cursor_next_at tt MAP_DEPTH c _ _ (proj1 Hw) (map_wf_height tt _ Hw) Hat)|].
  intros c' [Hc' Hat']. simpl in Hat'. rewrite drop_0 in Hat'. rewrite <-Hc' in Hw.
  eapply ok_with_mono; [apply (IH c' _ after m' Hw Hat'); [simpl in *; lia|done|]|].
  - eapply small_le; [|exact Hsm]. rewrite Hi', !length_app. simpl. destruct (p _ _); simpl; lia.
  - intros m'' [Hm'' Hi'']. split; [done|]. rewrite Hi'', Hi', <-app_assoc. by destruct (p _ _).
Qed.

Lemma map_retain_spec m (p : K → V → bool) :
  map_ok m →
  ok_with (map_retain m p) (fun m' => map_ok m' ∧
    tree_items m' = List.filter (fun x => p (me_key x) (me_value x)) (tree_items m)).
Proof.
  intros [Hw Hs]. unfold map_retain. apply ok_with_bind. eapply ok_with_mono.
  { apply (cursor_next_fresh tt MAP_DEPTH (cursor_new tt m)); [apply Hw|by apply (map_wf_height tt)|done]. }
  intros c [Hc Hat]. simpl in Hc, Hat. pose proof (proj2 Hw) as Hsm. pose proof Hw as Hw'. rewrite <-Hc in Hw'.
  eapply ok_with_mono; [apply (retain_loop_spec p (cost m) c [] (tree_items m)); try done|].
  - apply cost_items.
  - by left.
  - intros m' [Hm' Hi']. simpl in Hi'. split; [|done]. split; [split; [done|]|]; rewrite Hi'.
    + eapply small_le; [|exact Hsm]. apply filter_length_le.
    + by apply keys_sorted_filter.
Qed.

(** *** [remove_range] *)
Section range.
Context {SK EK : Type} `{!MapSeekTarget SK K, !MapSeekTarget EK K}.

(** A target is past an initial segment of the keys. *)
Definition target_monotone {Tgt} `{!MapSeekTarget Tgt K} (t : Tgt) : Prop :=
  ∀ a b : K, cmp a b = Lt → cmp_cursor t b = Gt → cmp_cursor t a = Gt.
Definition is_past {Tgt} `{!MapSeekTarget Tgt K} (t : Tgt) (x : entry) : bool :=
  match cmp_cursor t (me_key x) with Gt => true | _ => false end.

Lemma adaptor_past {Tgt} `{!MapSeekTarget Tgt K} (t : Tgt) (pos : MapKey K) (x : entry) :
  past tt (mkAdaptor t) Left (item_end tt pos x) = is_past t x.
Proof. unfold past, is_past, target_cmp, adaptor_target. simpl. by destruct (cmp_cursor t (me_key x)). Qed.

Lemma adaptor_seekable {Tgt} `{!MapSeekTarget Tgt K} (t : Tgt) its :
  target_monotone t → keys_sorted its →
  seekable tt (mkAdaptor t) Left (dim_zero (D:=MapKey K) tt) its.
Proof.
  intros Hm Hs. unfold seekable. rewrite (ends_keys tt _ its Hs (key_le_zero tt _)).
  induction Hs as [|x its Hs IH Hx]; simpl; constructor; [done|].
  apply Forall_fmap. eapply Forall_impl; [exact Hx|]. simpl. intros y Hy.
  pose proof (adaptor_past t (mkMapKey None) x) as Px. pose proof (adaptor_past t (mkMapKey None) y) as Py.
  change (item_end tt (mkMapKey None) x) with (item_key x) in Px.
  change (item_end tt (mkMapKey None) y) with (item_key y) in Py. rewrite Px, Py. unfold is_past.
  destruct (cmp_cursor t (me_key y)) eqn:Ey; try done. intros _. by rewrite (Hm _ _ Hy Ey).
Qed.

Lemma not_past_rest {Tgt} `{!MapSeekTarget Tgt K} (t : Tgt) x its :
  target_monotone t → keys_sorted (x :: its) → is_past t x = false →
  Forall (fun y => is_past t y = false) its.
Proof.
  intros Hm [_ Hx]%keys_sorted_cons Hp. eapply Forall_impl; [exact Hx|]. simpl. intros y Hy.
  unfold is_past in *. destruct (cmp_cursor t (me_key y)) eqn:Ey; try done.
  by rewrite (Hm _ _ Hy Ey) in Hp.
Qed.

Lemma filter_none (P : entry → bool) l : Forall (fun x => P x = false) l → List.filter P l = [].
Proof. induction 1 as [|x l Hx _ IH]; simpl; [done|]. by rewrite Hx. Qed.

Lemma filter_same (P Q : entry → bool) l :
  Forall (fun x => P x = Q x) l → List.filter P l = List.filter Q l.
Proof. induction 1 as [|x l Hx _ IH]; simpl; [done|]. by rewrite Hx, IH. Qed.

Lemma adaptor_scan {Tgt} `{!MapSeekTarget Tgt K} (t : Tgt) (pos : MapKey K) its l rest p :
  target_monotone t → keys_sorted its →
  scan tt (mkAdaptor t) Left pos its = (p, rest) → its = l ++ rest →
  l = List.filter (is_past t) its ∧ rest = List.filter (fun x => negb (is_past t x)) its.
Proof.
  intros Hm. revert pos l. induction its as [|x its IH]; intros pos l Hs; cbn [scan].
  { intros [= _ <-] E. by destruct l. }
  rewrite adaptor_past. cbn [List.filter]. destruct (is_past t x) eqn:Ex; cbn [negb].
  - intros Hsc E. destruct l as [|y l].
    { exfalso. simpl in E. destruct (scan_split tt (mkAdaptor t) Left (item_end tt pos x) its) as (pre & Hi & _).
      rewrite Hsc in Hi. simpl in Hi. apply (f_equal length) in Hi. rewrite length_app, <-E in Hi.
      simpl in Hi. lia. }
    injection E as <- E. apply keys_sorted_cons in Hs as [Hs _].
    destruct (IH _ l Hs Hsc E) as [-> ->]. done.
  - intros [= _ <-] E. pose proof (not_past_rest _ _ _ Hm Hs Ex) as Hn.
    assert (l = []) as ->.
    { apply (f_equal length) in E. rewrite length_app in E. destruct l; simpl in *; [done|lia]. }
    rewrite filter_none by done. split; [done|]. f_equal.
    rewrite (filter_same _ (fun _ => true)).
    + clear. induction its; simpl; congruence.
    + eapply Forall_impl; [exact Hn|]. simpl. by intros y ->.
Qed.

(** The entries outside the range. *)
Lemma outside_range (start : SK) (end_ : EK) its :
  target_monotone start → keys_sorted its →
  (∀ k, cmp_cursor start k = Gt → cmp_cursor end_ k = Gt) →
  List.filter (is_past start) its ++ List.filter (fun x => negb (is_past end_ x)) its =
  List.filter (fun x => is_past start x || negb (is_past end_ x)) its.
Proof.
  intros Hm Hs Hle. induction its as [|x its IH]; [done|]. simpl.
  destruct (is_past start x) eqn:Ex; simpl.
  - assert (is_past end_ x = true) as ->.
    { unfold is_past in *. destruct (cmp_cursor start (me_key x)) eqn:Ec; try done. by rewrite (Hle _ Ec). }
    simpl. f_equal. apply IH. by apply keys_sorted_cons in Hs as [? _].
  - pose proof (not_past_rest _ _ _ Hm Hs Ex) as Hn. rewrite (filter_none (is_past start)) by done.
    simpl. rewrite (filter_same (fun y => is_past start y || negb (is_past end_ y)) (fun y => negb (is_past end_ y)));
      [done|]. eapply Forall_impl; [exact Hn|]. simpl. by intros y ->.
Qed.

Lemma map_remove_range_spec m (start : SK) (end_ : EK) :
  map_ok m → target_monotone start → target_monotone end_ →
  (∀ k, cmp_cursor start k = Gt → cmp_cursor end_ k = Gt) →
  ok_with (map_remove_range m start end_) (fun m' => map_ok m' ∧
    tree_items m' = List.filter (fun x => is_past start x || negb (is_past end_ x)) (tree_items m)).
Proof.
  intros [Hw Hs] Hms Hme Hle. pose proof (map_wf_height tt _ Hw) as Hh. pose proof Hw as [Ht Hsm].
  unfold map_remove_range. apply ok_with_bind. eapply ok_with_mono.
  { apply (cursor_slice_spec tt MAP_DEPTH (mkAdaptor start) Left (cursor_new tt m) [] (tree_items m)); try done.
    - by left.
    - by apply adaptor_seekable.
    - apply small_fits; [lia|done]. }
  intros [c1 t1] (l1 & r1 & (Hc1 & Ha1 & Hsc1 & _) & Hw1 & Hi1). cbn [fst snd] in *.
  destruct (adaptor_scan start _ _ _ _ _ Hms Hs Hsc1 Ha1) as [El _]. rewrite El in Hi1.
  change (c_tree (cursor_new tt m)) with m in Hc1.
  apply ok_with_bind. unfold cursor_seek. eapply ok_with_mono.
  { apply (cursor_seek_forward_spec tt MAP_DEPTH (mkAdaptor end_) Left (cursor_reset tt c1) [] (tree_items m)); try done.
    - cbn [cursor_reset c_tree]. by rewrite Hc1.
    - cbn [cursor_reset c_tree]. by rewrite Hc1.
    - left. rewrite <-Hc1. done.
    - by apply adaptor_seekable. }
  intros [c2 found] (l2 & r2 & (Hc2 & Ha2 & Hsc2 & Hat2) & _). cbn [fst snd] in *.
  destruct (adaptor_scan end_ _ _ _ _ _ Hme Hs Hsc2 Ha2) as [_ Er]. subst r2.
  change (c_tree (cursor_reset tt c1)) with (c_tree c1) in Hc2.
  pose proof (outside_range start end_ _ Hms Hs Hle) as Hout.
  rewrite <-Hc1, <-Hc2 in Hw.
  eapply ok_with_mono; [apply (append_suffix_spec tt c2 _ _ t1 Hw Hat2 Hw1)|].
  - rewrite Hi1, Hout. eapply small_le; [|exact Hsm]. apply filter_length_le.
  - intros t3 [Hw3 Hi3]. rewrite Hi1, Hout in Hi3. split; [|done]. split; [done|].
    rewrite Hi3. by apply keys_sorted_filter.
Qed.
End range.

(** *** [extend] and [insert_tree] *)
Definition assoc (l : list (K * V)) k : option V :=
  option_map snd (List.find (fun p => eqb p.1 k) l).

Lemma assoc_inserts (l : list (K * V)) its k :
  option_map me_value (edited_lookup its ((fun p => Insert (pair_entry p)) <$> l) (mkey k)) =
  match assoc l k with Some v => Some v | None => option_map me_value (klookup (mkey k) its) end.
Proof.
  unfold edited_lookup, assoc. induction l as [|[j v] l IH]; simpl; [done|].
  change (eqb (item_key (pair_entry (j, v))) (mkey k)) with (eqb j k).
  by destruct (eqb j k).
Qed.

Lemma extend_keys (l : list (K * V)) :
  NoDup l.*1 → NoDup (edit_key <$> ((fun p => Insert (pair_entry p)) <$> l : list (Edit entry (MapKey K)))).
Proof.
  intros Hn. rewrite <-list_fmap_compose.
  assert (Heq : (edit_key ∘ (fun p => Insert (pair_entry p))) <$> l = mkey <$> l.*1).
  { rewrite <-list_fmap_compose. done. }
  rewrite Heq. apply NoDup_fmap_2; [|done]. by intros a b [= ->].
Qed.

Lemma map_extend_spec `{!UnstableSort, !UnstableSortLaws} m (l : list (K * V)) :
  map_ok m → NoDup l.*1 → (N.of_nat (length (tree_items m) + length l) < 6 ^ 9)%N →
  ok_with (map_extend m l) (fun m' => map_ok m' ∧ ∀ k,
    denote m' k = match assoc l k with Some v => Some v | None => denote m k end).
Proof.
  intros [Hw Hs] Hn Hsz. unfold map_extend. set (es := _ <$> l).
  destruct (edit_spec tt m es Hw Hs) as (es' & Hp & Hes & Hok).
  - by apply extend_keys.
  - unfold es. by rewrite length_fmap.
  - apply ok_with_bind. eapply ok_with_mono; [exact Hok|].
    intros [m' rem] (Hw' & Hi' & _). simpl in *. split.
    + split; [done|]. rewrite Hi'. by apply apply_edits_sorted.
    + intros k. unfold denote. rewrite Hi', klookup_apply_edits by done.
      unfold edited_lookup. rewrite (edit_for_perm es' es) by
        (done || (rewrite Hp; by apply extend_keys)).
      apply assoc_inserts.
Qed.
End treemap.

(** ** Correctness of keyed trees and maps *)

(** C32: [SumTree::edit] with edits of distinct keys, in any order: the tree stays
    well-formed and strictly sorted, every edited key is mapped as its edit says
    (inserted item, or nothing) and every other key as before, and the returned
    items are exactly the old items of the edited keys, in key order. *)
Theorem edit_correct {T Sm Cx K : Type} `{!Summary Sm Cx, !Item T Sm Cx} (cx : Cx)
    `{!SummaryLaws (Sm:=Sm) cx, !Dimension K Sm Cx, !DimensionLaws K (Sm:=Sm) cx}
    `{!Ord K, !OrdLaws K, !KeyedItem T K, !KeyLaws T K cx, !UnstableSort, !UnstableSortLaws}
    (t : SumTree T Sm) (edits : list (Edit T K)) :
  map_wf cx t → keys_sorted (tree_items t) → NoDup (edit_key <$> edits) →
  (N.of_nat (length (tree_items t) + length edits) < 6 ^ 9)%N →
  ok_with (edit cx t edits) (fun '(t', removed) =>
    map_wf cx t' ∧ keys_sorted (tree_items t') ∧
    (∀ k, klookup k (tree_items t') = edited_lookup (tree_items t) edits k) ∧
    removed = List.filter (fun x => match edit_for edits (item_key x) with Some _ => true | None => false end)
                (tree_items t)).
Proof.
  intros Hw Hs Hn Hsz. destruct (edit_spec cx t edits Hw Hs Hn Hsz) as (es & Hp & Hes & Hok).
  assert (Hfor : ∀ k, edit_for es k = edit_for edits k)
    by (intros k; apply edit_for_perm; [done|by rewrite Hp]).
  eapply ok_with_mono; [exact Hok|]. intros [t' rem] (Hw' & Hi & Hr). simpl in Hw', Hi, Hr.
  split_and!; [done| | |].
  - rewrite Hi. by apply apply_edits_sorted.
  - intros k. rewrite Hi, klookup_apply_edits by done. unfold edited_lookup. by rewrite Hfor.
  - subst rem. destruct (removed_by_sorted (tree_items t) es Hes) as [Hrs Hrk].
    apply klookup_ext; [done|by apply keys_sorted_filter|]. intros k. rewrite Hrk, Hfor.
    rewrite (klookup_filter (fun j => match edit_for edits j with Some _ => true | None => false end)).
    by destruct (edit_for edits k).
Qed.

Section claims.
Context {K V : Type} `{!Ord K, !OrdLaws K}.
Implicit Types (m : TreeMap K V) (k j : K).

(** Point operations refine the abstract map: [get] and [contains_key] read
    it, [insert] and [insert_or_replace] set one key (returning the old value),
    [remove] clears it, [update] applies the closure to it, and all of them leave
    every other key alone and preserve the invariant. *)
Theorem treemap_point_operations {R} m k (v : V) (f : V → V * R) :
  map_ok m → small (mkMapEntry k v :: tree_items m) →
  (∀ j, map_get m j = denote m j ∧
        map_contains_key m j = match denote m j with Some _ => true | None => false end) ∧
  ok_with (map_insert_or_replace m k v) (fun r => map_ok r.1 ∧ r.2 = denote m k ∧
    ∀ j, denote r.1 j = if eqb k j then Some v else denote m j) ∧
  ok_with (map_remove m k) (fun r => map_ok r.1 ∧ r.2 = denote m k ∧
    ∀ j, denote r.1 j = if eqb k j then None else denote m j) ∧
  ok_with (map_update m k f) (fun r => map_ok r.1 ∧
    r.2 = option_map (fun v => (f v).2) (denote m k) ∧
    ∀ j, denote r.1 j = if eqb k j then option_map (fun v => (f v).1) (denote m j) else denote m j).
Proof.
  intros Hm Hsm. split_and!.
  - intros j. unfold map_contains_key. by rewrite map_get_spec.
  - eapply ok_with_mono; [by apply map_insert_or_replace_spec|]. intros r (Hr & Hi & ->).
    split_and!; [done..|]. intros j. unfold denote. rewrite Hi, klookup_kinsert.
    change (eqb (item_key (mkMapEntry k v)) (mkey j)) with (eqb k j). by destruct (eqb k j).
  - eapply ok_with_mono; [by apply map_remove_spec|]. intros r (Hr & Hi & ->).
    split_and!; [done..|]. intros j. unfold denote. rewrite Hi, klookup_kremove, mkey_eqb.
    by destruct (eqb k j).
  - eapply ok_with_mono; [by apply map_update_spec|]. intros r (Hr & Hi & ->).
    split_and!; [done..|]. intros j. unfold denote. rewrite Hi. unfold updated_items.
    destruct (eqb k j) eqn:E.
    + apply eqb_eq in E as <-. destruct (klookup (mkey k) (tree_items m)) as [x|] eqn:E; simpl; [|by rewrite E].
      rewrite klookup_kinsert. change (eqb (item_key _) (mkey k)) with (eqb k k). by rewrite eqb_refl.
    + destruct (klookup (mkey k) (tree_items m)) as [x|]; [|done]. rewrite klookup_kinsert.
      change (eqb (item_key _) (mkey j)) with (eqb k j). by rewrite E.
Qed.

(** Ordered queries: iteration lists exactly the mapped pairs in strictly
    ascending key order, [iter_from] those with a key at or above the bound,
    [first] and [last] the ends, and [closest] the pair with the greatest key not
    above the given one. *)
Theorem treemap_ordered_queries m k :
  map_ok m →
  map_iter m = Ok (entries m) ∧
  (∀ j v, denote m j = Some v ↔ (j, v) ∈ entries m) ∧
  StronglySorted (fun p q => cmp p.1 q.1 = Lt) (entries m) ∧
  map_iter_from m k = Ok (List.filter (fun p => negb (ltb p.1 k)) (entries m)) ∧
  map_first m = Ok (head (entries m)) ∧ map_last m = Ok (last (entries m)) ∧
  map_closest m k = Ok (last (List.filter (fun p => leb p.1 k) (entries m))).
Proof.
  intros Hm. pose proof Hm as [Hw Hs].
  assert (Hf : ∀ (P : K → bool) l, List.filter (fun p : K * V => P p.1) (entry_pair <$> l) =
            entry_pair <$> List.filter (fun e => P (me_key e)) l).
  { intros P l. induction l as [|e l IH]; [done|]. rewrite fmap_cons. cbn [List.filter].
    rewrite IH. simpl. by destruct (P (me_key e)). }
  split_and!.
  - by apply map_iter_spec.
  - intros j v. unfold denote, entries. rewrite list_elem_of_fmap. split.
    + intros E. destruct (klookup (mkey j) (tree_items m)) as [x|] eqn:Ex; [|done]. injection E as <-.
      exists x. rewrite <-(klookup_mkey _ _ _ Ex). split; [done|].
      apply klookup_elem; [done|]. by rewrite (klookup_key _ _ _ Ex).
    + intros (x & [= -> ->] & Hin%(klookup_elem _ _ Hs)).
      change (item_key x) with (mkey (me_key x)) in Hin. by rewrite Hin.
  - unfold entries. clear Hm Hw. induction Hs as [|x l Hl IH Hx]; simpl; constructor; [done|].
    apply Forall_fmap. exact Hx.
  - rewrite (map_iter_from_spec m k Hm). f_equal. symmetry. apply (Hf (fun j => negb (ltb j k))).
  - unfold map_first. rewrite (tree_first_spec tt MAP_DEPTH) by apply Hw. unfold entries. simpl.
    by destruct (tree_items m).
  - unfold map_last. rewrite (tree_last_spec tt MAP_DEPTH) by apply Hw. unfold entries. simpl.
    by rewrite fmap_last.
  - rewrite (map_closest_spec m k Hm). unfold entries. rewrite (Hf (fun j => leb j k)). by rewrite fmap_last.
Qed.

(** Bulk operations: [retain] keeps the pairs satisfying the predicate;
    [remove_range] with monotone bounds, the first not beyond the second, removes
    exactly the pairs between them; [from_ordered_entries] of a strictly ascending
    sequence is the map with those entries. *)
Theorem treemap_bulk_operations {SK EK} `{!MapSeekTarget SK K, !MapSeekTarget EK K} m
    (p : K → V → bool) (start : SK) (end_ : EK) (es : list (K * V)) :
  map_ok m → target_monotone start → target_monotone end_ →
  (∀ k, cmp_cursor start k = Gt → cmp_cursor end_ k = Gt) →
  small es → keys_sorted (pair_entry <$> es) →
  ok_with (map_retain m p) (fun m' => map_ok m' ∧
    tree_items m' = List.filter (fun x => p (me_key x) (me_value x)) (tree_items m)) ∧
  ok_with (map_remove_range m start end_) (fun m' => map_ok m' ∧
    tree_items m' = List.filter (fun x => is_past start x || negb (is_past end_ x)) (tree_items m)) ∧
  ok_with (from_ordered_entries es) (fun m' => map_ok m' ∧ entries m' = es).
Proof.
  intros. split_and!; [by apply map_retain_spec|by apply map_remove_range_spec|
                       by apply from_ordered_entries_spec].
Qed.

(** [extend] by pairs with distinct keys, and [insert_tree] of another map,
    override the mapped values and keep the invariant. *)
Theorem treemap_extend_correct `{!UnstableSort, !UnstableSortLaws} m other (l : list (K * V)) :
  map_ok m → map_ok other → NoDup l.*1 →
  (N.of_nat (length (tree_items m) + length l) < 6 ^ 9)%N →
  (N.of_nat (length (tree_items m) + length (tree_items other)) < 6 ^ 9)%N →
  ok_with (map_extend m l) (fun m' => map_ok m' ∧ ∀ k,
    denote m' k = match assoc l k with Some v => Some v | None => denote m k end) ∧
  ok_with (map_insert_tree m other) (fun m' => map_ok m' ∧ ∀ k,
    denote m' k = match denote other k with Some v => Some v | None => denote m k end).
Proof.
  intros Hm Ho Hn Hl Hlo. split; [by apply map_extend_spec|].
  unfold map_insert_tree. rewrite map_iter_spec by done. cbn [mbind outcome_bind].
  fold (map_extend m (entries other)). destruct Ho as [Hw Hs].
  eapply ok_with_mono; [apply map_extend_spec; [done| |unfold entries; by rewrite length_fmap]|].
  - unfold entries. rewrite <-list_fmap_compose. clear - Hs OrdLaws0.
    induction Hs as [|x its Hs IH Hx]; simpl; constructor; [|done].
    intros (y & E & Hy)%list_elem_of_fmap. rewrite Forall_forall in Hx. specialize (Hx y Hy).
    change (cmp (me_key x) (me_key y) = Lt) in Hx. simpl in E. rewrite E, cmp_refl in Hx. done.
  - intros m' [Hm' Hd]. split; [done|]. intros k. rewrite Hd.
    assert (assoc (entries other) k = denote other k) as ->; [|done].
    unfold assoc, denote, entries. clear. induction (tree_items other) as [|x its IH]; simpl; [done|].
    change (eqb (item_key x) (mkey k)) with (eqb (me_key x) k). by destruct (eqb (me_key x) k).
Qed.

(** [extend] does not deduplicate: two pairs with the same key are both kept,
    whichever order the unstable sort puts them in, so the result is not a map. *)
Theorem treemap_extend_duplicates `{!UnstableSort, !UnstableSortLaws} k (v1 v2 : V) :
  ok_with (map_extend map_default [(k, v1); (k, v2)]) (fun m =>
    Permutation (entries m) [(k, v1); (k, v2)] ∧ ¬ keys_sorted (tree_items m)).
Proof.
  unfold map_extend, edit. cbn [fmap list_fmap].
  set (l := [_; _]). pose proof (sort_permutation (edit_key (T:=MapEntry K V) (K:=MapKey K)) l) as Hp.
  destruct (sort_unstable_by_key edit_key l) as [|a [|b [|c r]]];
    try (apply Permutation_length in Hp; done).
  assert (Hne : ∀ x y : MapEntry K V, me_key x = me_key y → ¬ keys_sorted [x; y]).
  { intros x y E [_ [Hc _]%Forall_cons]%keys_sorted_cons.
    change (cmp (me_key x) (me_key y) = Lt) in Hc. by rewrite E, cmp_refl in Hc. }
  apply Permutation_length_2_inv in Hp. destruct Hp as [E|E]; injection E as <- <-;
    cbn; (split; [|by apply Hne]).
  - done.
  - apply perm_swap.
Qed.
End claims.

(** *** On a concrete map *)
#[local] Existing Instance insertion_sort.
#[local] Existing Instance insertion_sort_laws.

Definition ex_map : TreeMap N N :=
  match from_ordered_entries [(1, 10); (3, 30); (5, 50)]%N with Ok m => m | Panic => map_default end.

Lemma ex_map_ok : map_ok ex_map.
Proof.
  unfold ex_map.
  destruct (ok_with_inv _ _ (from_ordered_entries_spec (K:=N) (V:=N) [(1, 10); (3, 30); (5, 50)]%N
    ltac:(done) ltac:(repeat constructor))) as (m & E & Hm & _).
  by rewrite E.
Qed.

Lemma edit_correct_witness :
  ok_with (edit tt ex_map [Insert (mkMapEntry 4 40); Remove (mkMapKey (Some 1)); Insert (mkMapEntry 3 33)]%N)
    (fun '(t', removed) => removed = [mkMapEntry 1 10; mkMapEntry 3 30]%N ∧
       klookup (mkMapKey (Some 4%N)) (tree_items t') = Some (mkMapEntry 4 40)%N).
Proof.
  destruct ex_map_ok as [Hw Hs].
  eapply ok_with_mono.
  - apply (edit_correct tt ex_map _ Hw Hs); [|by vm_compute].
    simpl. repeat (constructor; [by set_solver|]). constructor.
  - intros [t' rem] (_ & _ & Hk & ->). rewrite Hk. by vm_compute.
Defined.

Lemma treemap_point_operations_witness :
  map_get ex_map 3%N = Some 30%N ∧
  ok_with (map_insert_or_replace ex_map 3%N 7%N) (fun r => r.2 = Some 30%N ∧ denote r.1 3%N = Some 7%N).
Proof.
  destruct (treemap_point_operations ex_map 3%N 7%N (fun v => (v, tt)) ex_map_ok) as (Hg & Hi & _);
    [by vm_compute|].
  split; [by destruct (Hg 3%N) as [-> _]|].
  eapply ok_with_mono; [exact Hi|]. intros r (_ & -> & Hd). split; [by vm_compute|]. by rewrite Hd.
Defined.

Lemma treemap_ordered_queries_witness :
  map_closest ex_map 4%N = Ok (Some (3, 30)%N) ∧ map_iter_from ex_map 2%N = Ok [(3, 30); (5, 50)]%N.
Proof.
  destruct (treemap_ordered_queries ex_map 4%N ex_map_ok) as (_ & _ & _ & _ & _ & _ & ->).
  split; by vm_compute.
Defined.

Lemma treemap_bulk_operations_witness :
  ok_with (map_remove_range ex_map 2%N 5%N) (fun m => entries m = [(1, 10); (5, 50)]%N).
Proof.
  destruct (treemap_bulk_operations ex_map (fun _ _ => true) 2%N 5%N [] ex_map_ok) as (_ & Hr & _).
  - intros a b Hab Hb. change (cmp 2%N b = Gt) in Hb. change (cmp 2%N a = Gt).
    apply cmp_gt_lt. apply cmp_gt_lt in Hb. by eapply cmp_lt_trans.
  - intros a b Hab Hb. change (cmp 5%N b = Gt) in Hb. change (cmp 5%N a = Gt).
    apply cmp_gt_lt. apply cmp_gt_lt in Hb. by eapply cmp_lt_trans.
  - intros k Hk. change (cmp 2%N k = Gt) in Hk. change (cmp 5%N k = Gt).
    apply cmp_gt_lt. apply cmp_gt_lt in Hk. eapply cmp_lt_trans; [exact Hk|done].
  - done.
  - constructor.
  - eapply ok_with_mono; [exact Hr|]. intros m [_ Hi]. unfold entries. rewrite Hi. by vm_compute.
Defined.

Lemma treemap_extend_correct_witness :
  ok_with (map_extend ex_map [(3, 33); (2, 20)]%N) (fun m => denote m 2%N = Some 20%N ∧ denote m 5%N = Some 50%N).
Proof.
  destruct (treemap_extend_correct ex_map ex_map [(3, 33); (2, 20)]%N ex_map_ok ex_map_ok) as [He _].
  - simpl. repeat (constructor; [by set_solver|]). constructor.
  - by vm_compute.
  - by vm_compute.
  - eapply ok_with_mono; [exact He|]. intros m [_ Hd]. rewrite !Hd. split; reflexivity.
Defined.

Lemma treemap_extend_duplicates_witness :
  ok_with (map_extend map_default [(1, 10); (1, 11)]%N) (fun m => ¬ keys_sorted (tree_items m)).
Proof.
  eapply ok_with_mono; [apply (treemap_extend_duplicates 1%N 10%N 11%N)|]. by intros m [_ ?].
Defined.
