(* ===== verification/Locator.v ===== *)
(** * Fragment locators: [crates/text/src/locator.rs]

    A locator is a non-empty sequence of [u64] digits compared lexicographically;
    [between] makes a new one strictly between two others, so that fragments can be
    inserted anywhere without renumbering.  The [for] loop over the two infinite
    iterators is run on fuel, one more than the longer locator: past both, the
    digits are [0] and [u64::MAX] and the loop breaks at once. *)

From S2P Require Import Prelude Ord SumTree.

Record Locator := mkLocator { digits : list N }.

(** [#[derive(PartialOrd, Ord)]] on the digits. *)
#[export] Instance Locator_ord : Ord Locator := fun a b => cmp (digits a) (digits b).
#[export] Instance Locator_ord_laws : OrdLaws Locator.
Proof. apply (ord_laws_view digits); [|done]. by intros [x] [y] [= ->]. Qed.

Definition locator_min : Locator := mkLocator [0%N].
Definition locator_max : Locator := mkLocator [u64_max].

(** [self.0.resize(other.0.len(), 0); self.0.copy_from_slice(&other.0)] *)
Definition resize (l : list N) (n : nat) : list N := take n l ++ replicate (n - length l) 0%N.
Definition copy_from_slice (dst src : list N) : outcome (list N) :=
  if (length dst =? length src)%nat then Ok src else Panic.
Definition locator_assign (self other : Locator) : outcome Locator :=
  l ← copy_from_slice (resize (digits self) (length (digits other))) (digits other);
  Ok (mkLocator l).

(** [iter.copied().chain(iter::repeat(d))]: the next digit and the rest. *)
Definition next_digit (d : N) (l : list N) : N * list N :=
  match l with [] => (d, []) | x :: l => (x, l) end.

(** [lhs + (rhs.saturating_sub(lhs) >> 48)]; [N] subtraction saturates. *)
Definition mid_digit (lhs rhs : N) : N := (lhs + N.shiftr (rhs - lhs) 48)%N.

Fixpoint between_loop (fuel : nat) (lhs rhs location : list N) : outcome (list N) :=
  match fuel with
  | O => Panic
  | S fuel =>
      let '(l, lhs) := next_digit 0%N lhs in
      let '(r, rhs) := next_digit u64_max rhs in
      let mid := mid_digit l r in
      let location := location ++ [mid] in
      if (l <? mid)%N then Ok location else between_loop fuel lhs rhs location
  end.

Definition between (lhs rhs : Locator) : outcome Locator :=
  l ← between_loop (S (max (length (digits lhs)) (length (digits rhs)))) (digits lhs) (digits rhs) [];
  Ok (mkLocator l).

Definition locator_len (self : Locator) : nat := length (digits self).
Definition locator_is_empty (self : Locator) : bool := (locator_len self =? 0)%nat.

(** As an item of a [SumTree], summarised by the last locator. *)
#[export] Instance Locator_summary : Summary Locator unit :=
  {| zero _ := locator_min;
     add_summary _ self s := match locator_assign self s with Ok l => l | Panic => self end |}.
#[export] Instance Locator_item : Item Locator Locator unit := fun _ l => l.

(** ** Facts *)

(** Locators in use: non-empty [u64] digits, the last one not zero. *)
Definition locator_wf (l : Locator) : Prop :=
  Forall (fun d => (d <= u64_max)%N) (digits l) ∧
  ∃ init d, digits l = init ++ [d] ∧ (0 < d)%N.

Lemma locator_assign_spec self other : locator_assign self other = Ok other.
Proof.
  unfold locator_assign, copy_from_slice, resize.
  assert (length (take (length (digits other)) (digits self) ++
          replicate (length (digits other) - length (digits self)) 0%N) = length (digits other)) as ->.
  { rewrite length_app, length_take, length_replicate. lia. }
  rewrite Nat.eqb_refl. simpl. by destruct other.
Qed.

#[export] Instance Locator_summary_laws : SummaryLaws (Sm:=Locator) tt.
Proof. split; intros; simpl; by rewrite !locator_assign_spec. Qed.

Lemma cmp_digits x y l k : cmp (x :: l) (y :: k) = then_with (x ?= y)%N (cmp l k).
Proof. done. Qed.

Lemma mid_digit_ge l r : (l <= mid_digit l r)%N.
Proof. unfold mid_digit. lia. Qed.

Lemma mid_digit_lt l r : (l < r)%N → (mid_digit l r < r)%N.
Proof.
  intros H. unfold mid_digit. rewrite N.shiftr_div_pow2.
  assert ((r - l) / 2 ^ 48 < r - l)%N; [|lia]. apply N.div_lt; lia.
Qed.

Lemma mid_digit_bound l r : (l <= u64_max)%N → (r <= u64_max)%N → (mid_digit l r <= u64_max)%N.
Proof.
  intros Hl Hr. destruct (N.lt_ge_cases l r) as [H|H].
  - pose proof (mid_digit_lt l r H). lia.
  - unfold mid_digit. replace (r - l)%N with 0%N by lia. rewrite N.shiftr_0_l. lia.
Qed.

Lemma mid_digit_full : (0 < mid_digit 0 u64_max)%N.
Proof. done. Qed.

(** The loop, digit by digit: what it appends to [location]. *)
Lemma between_loop_location fuel lhs rhs location :
  between_loop fuel lhs rhs location = app location <$> between_loop fuel lhs rhs [].
Proof.
  revert lhs rhs location. induction fuel as [|fuel IH]; intros lhs rhs location; simpl; [done|].
  destruct (next_digit 0 lhs) as [l lhs'], (next_digit u64_max rhs) as [r rhs'].
  destruct (l <? mid_digit l r)%N; [done|].
  rewrite (IH _ _ (location ++ [_])), (IH _ _ [_]).
  destruct (between_loop fuel lhs' rhs' []); simpl; [|done]. by rewrite <-app_assoc.
Qed.

Lemma between_loop_unfold fuel lhs rhs :
  between_loop (S fuel) lhs rhs [] =
    let '(l, lhs') := next_digit 0%N lhs in
    let '(r, rhs') := next_digit u64_max rhs in
    if (l <? mid_digit l r)%N then Ok [mid_digit l r]
    else cons (mid_digit l r) <$> between_loop fuel lhs' rhs' [].
Proof.
  cbn [between_loop]. destruct (next_digit 0 lhs) as [l lhs'], (next_digit u64_max rhs) as [r rhs'].
  cbn [app]. destruct (l <? mid_digit l r)%N; [done|]. apply between_loop_location.
Qed.

Lemma next_digit_bound d l :
  (d <= u64_max)%N → Forall (fun d => (d <= u64_max)%N) l →
  ((next_digit d l).1 <= u64_max)%N ∧ Forall (fun d => (d <= u64_max)%N) (next_digit d l).2.
Proof. intros Hd Hl. destruct Hl; simpl; auto. Qed.

(** Termination, and the result is above [lhs] and well-formed. *)
Lemma between_loop_above fuel lhs rhs :
  Forall (fun d => (d <= u64_max)%N) lhs → Forall (fun d => (d <= u64_max)%N) rhs →
  (max (length lhs) (length rhs) < fuel)%nat →
  ∃ m, between_loop fuel lhs rhs [] = Ok m ∧ cmp lhs m = Lt ∧
    Forall (fun d => (d <= u64_max)%N) m ∧ ∃ init d, m = init ++ [d] ∧ (0 < d)%N.
Proof.
  revert lhs rhs. induction fuel as [|fuel IH]; intros lhs rhs Hl Hr Hf; [lia|].
  rewrite between_loop_unfold.
  destruct (next_digit_bound 0%N lhs ltac:(done) Hl) as [Hl1 Hl2].
  destruct (next_digit_bound u64_max rhs ltac:(done) Hr) as [Hr1 Hr2].
  destruct (next_digit 0 lhs) as [l lhs'] eqn:El, (next_digit u64_max rhs) as [r rhs'] eqn:Er.
  simpl in *. pose proof (mid_digit_bound l r Hl1 Hr1) as Hm.
  destruct (N.ltb_spec l (mid_digit l r)) as [Hlt|Hge].
  - eexists. split; [done|]. split_and!; [|by constructor|exists [], (mid_digit l r); split; [done|lia]].
    destruct lhs as [|x lhs]; simpl in El; [done|]. injection El as <- <-.
    rewrite cmp_digits. by rewrite (proj2 (N.compare_lt_iff _ _) Hlt).
  - assert (Hne : lhs ≠ [] ∨ rhs ≠ []).
    { destruct lhs, rhs; try (by left); try (by right). injection El as <- _. injection Er as <- _.
      pose proof mid_digit_full. lia. }
    assert (Hf' : (max (length lhs') (length rhs') < fuel)%nat).
    { destruct lhs, rhs; simpl in *; injection El as _ <-; injection Er as _ <-; simpl in *;
        try lia; by destruct Hne. }
    destruct (IH lhs' rhs' Hl2 Hr2 Hf') as (m & -> & Hc & Hb & init & d & -> & Hd).
    eexists. split; [done|]. split_and!; [|by constructor|by exists (mid_digit l r :: init), d].
    assert (mid_digit l r = l) as -> by (pose proof (mid_digit_ge l r); lia).
    destruct lhs as [|x lhs]; simpl in El; [done|]. injection El as <- <-.
    rewrite cmp_digits. by rewrite N.compare_refl.
Qed.

(** [lhs] with digits equal to [rhs] so far, or already below it. *)
Lemma between_loop_below fuel lhs rhs m :
  cmp lhs rhs = Lt → (∃ init d, rhs = init ++ [d] ∧ (0 < d)%N) →
  between_loop fuel lhs rhs [] = Ok m → cmp m rhs = Lt.
Proof.
  revert lhs rhs m. induction fuel as [|fuel IH]; intros lhs rhs m Hc Hw; [done|].
  rewrite between_loop_unfold. destruct rhs as [|r rhs]; [by destruct Hw as ([] & ? & ? & _)|]. simpl.
  assert (Hstep : ∀ l m', (l < r)%N → cmp (mid_digit l r :: m') (r :: rhs) = Lt).
  { intros l m' Hlr. rewrite cmp_digits.
    by rewrite (proj2 (N.compare_lt_iff _ _) (mid_digit_lt l r Hlr)). }
  assert (Hl : ∃ l lhs', next_digit 0%N lhs = (l, lhs') ∧ ((l < r)%N ∨
             l = r ∧ cmp lhs' rhs = Lt ∧ ∃ init d, rhs = init ++ [d] ∧ (0 < d)%N)).
  { destruct Hw as (init & d & E & Hd). destruct lhs as [|l lhs]; simpl.
    - exists 0%N, []. split; [done|]. destruct (N.eq_0_gt_0_cases r) as [->|?]; [|by left].
      right. destruct init as [|i init]; simplify_eq/=; [lia|].
      split_and!; [done|by destruct init|by eauto].
    - exists l, lhs. split; [done|]. rewrite cmp_digits in Hc.
      destruct (N.compare_spec l r) as [->|Hlr|Hlr]; [|by left|done]. right.
      destruct init as [|i init]; simplify_eq/=; [by destruct lhs|].
      split_and!; [done|done|by eauto]. }
  destruct Hl as (l & lhs' & -> & Hl). destruct Hl as [Hlt|(-> & Hc' & Hw')].
  - destruct (l <? mid_digit l r)%N; [intros [= <-]; by apply Hstep|].
    destruct (between_loop fuel lhs' rhs []) as [m'|]; [|done]. intros [= <-]. by apply Hstep.
  - assert (mid_digit r r = r) as Em.
    { unfold mid_digit. rewrite N.sub_diag, N.shiftr_0_l. lia. }
    rewrite Em, N.ltb_irrefl. destruct (between_loop fuel lhs' rhs []) as [m'|] eqn:E; [|done].
    intros [= <-]. specialize (IH _ _ _ Hc' Hw' E).
    rewrite cmp_digits, N.compare_refl. exact IH.
Qed.

Lemma between_spec (lhs rhs : Locator) :
  Forall (fun d => (d <= u64_max)%N) (digits lhs) → locator_wf rhs → cmp lhs rhs = Lt →
  ok_with (between lhs rhs) (fun mid => cmp lhs mid = Lt ∧ cmp mid rhs = Lt ∧ locator_wf mid).
Proof.
  intros Hl [Hr Hw] Hc. unfold between.
  destruct (between_loop_above (S (max (length (digits lhs)) (length (digits rhs))))
              (digits lhs) (digits rhs) Hl Hr) as (m & E & Habove & Hb & Hm); [lia|].
  rewrite E. simpl. split_and!; [done| |by split].
  by apply (between_loop_below _ _ _ _ Hc Hw E).
Qed.

(** C36: Dense order: for [lhs < rhs], both of [u64] digits and [rhs] not ending in
    a zero digit, [Locator::between] terminates and returns a locator strictly
    between them, again of [u64] digits and not ending in zero, so that it can
    serve as either bound of a later call. *)
Theorem between_correct (lhs rhs : Locator) :
  Forall (fun d => (d <= u64_max)%N) (digits lhs) → locator_wf rhs → cmp lhs rhs = Lt →
  ok_with (between lhs rhs) (fun mid => cmp lhs mid = Lt ∧ cmp mid rhs = Lt ∧ locator_wf mid).
Proof. apply between_spec. Qed.

Lemma between_correct_witness :
  ok_with (between locator_min locator_max) (fun mid =>
    cmp locator_min mid = Lt ∧ cmp mid locator_max = Lt ∧ mid = mkLocator [65535%N]).
Proof.
  destruct (ok_with_inv _ _ (between_correct locator_min locator_max ltac:(by repeat constructor)
    ltac:(split; [by repeat constructor|by exists [], u64_max]) ltac:(done))) as (m & E & H1 & H2 & _).
  rewrite E. simpl. split_and!; [done|done|]. vm_compute in E. by injection E.
Defined.
