(* ===== verification/UndoMap.v ===== *)
(** * The undo map of a buffer: [crates/text/src/undo_map.rs]

    For every edit, the undo counts recorded by undo operations, keyed by (edit,
    undo operation).  An edit is undone when the greatest count recorded for it is
    odd.  A client of the keyed trees: the laws of its key discharge [KeyLaws].
    The [HashMap] of an undo operation is the association list of its iteration
    order, with distinct keys. *)

From stdpp Require Import sets.
From S2P Require Import Prelude Ord Clock SumTree SumTreeFacts SeekSpec.
From S2P Require Import Cursor CursorFacts SeekFacts KeyedTree KeyedFacts.

Record UndoMapKey := mkUndoKey { edit_id : Lamport; undo_id : Lamport }.
Record UndoMapEntry := mkUndoEntry { um_key : UndoMapKey; um_undo_count : N }.

Record UndoOperation := mkUndoOperation {
  undo_timestamp : Lamport;
  undo_version : Global;
  counts : list (Lamport * N)
}.

(** [#[derive(PartialOrd, Ord)]] *)
#[export] Instance UndoMapKey_ord : Ord UndoMapKey :=
  fun a b => cmp (edit_id a, undo_id a) (edit_id b, undo_id b).
#[export] Instance UndoMapKey_ord_laws : OrdLaws UndoMapKey.
Proof.
  apply (ord_laws_view (fun k => (edit_id k, undo_id k))); [|done]. by intros [] [] [= -> ->].
Qed.

Definition undo_key_zero : UndoMapKey := mkUndoKey lamport_MIN lamport_MIN.

#[export] Instance UndoMapKey_summary : Summary UndoMapKey unit :=
  {| zero _ := undo_key_zero; add_summary _ self s := ord_max self s |}.
#[export] Instance UndoMapEntry_item : Item UndoMapEntry UndoMapKey unit := fun _ e => um_key e.
#[export] Instance UndoMapEntry_keyed : KeyedItem UndoMapEntry UndoMapKey := um_key.
#[export] Instance UndoMapKey_dimension : Dimension UndoMapKey UndoMapKey unit := summary_dimension.

Definition UndoMap : Type := SumTree UndoMapEntry UndoMapKey.

Section undo_map.
#[local] Existing Instance key_target.
Abbreviation cursor := (Cursor UndoMapEntry UndoMapKey UndoMapKey).

Definition undo_edits (undo : UndoOperation) : list (Edit UndoMapEntry UndoMapKey) :=
  (fun p => Insert (mkUndoEntry (mkUndoKey p.1 (undo_timestamp undo)) p.2)) <$> counts undo.

Definition undo_map_insert `{!UnstableSort} (self : UndoMap) (undo : UndoOperation) : outcome UndoMap :=
  '(t, _) ← edit tt self (undo_edits undo); Ok t.

(** [for entry in cursor], breaking at the first entry of another edit. *)
Fixpoint undo_count_loop (fuel : nat) (counted : UndoMapEntry → bool) (edit : Lamport)
    (undo_count : N) (c : cursor) : outcome N :=
  match fuel with
  | O => Panic
  | S fuel =>
      '(entry, c) ← cursor_iter_next tt c;
      match entry with
      | Some entry =>
          if negb (eqb (edit_id (um_key entry)) edit) then Ok undo_count
          else undo_count_loop fuel counted edit
                 (if counted entry then N.max undo_count (um_undo_count entry) else undo_count) c
      | None => Ok undo_count
      end
  end.

Definition undo_count_by (self : UndoMap) (counted : UndoMapEntry → bool) (edit : Lamport) : outcome N :=
  '(c, _) ← cursor_seek tt (mkUndoKey edit lamport_MIN) Left (cursor_new tt self : cursor);
  undo_count_loop (cost self) counted edit 0 c.

Definition undo_count (self : UndoMap) (edit : Lamport) : outcome N :=
  undo_count_by self (fun _ => true) edit.

Definition is_undone (self : UndoMap) (edit : Lamport) : outcome bool :=
  n ← undo_count self edit; Ok (n `mod` 2 =? 1)%N.

Definition was_undone (self : UndoMap) (edit : Lamport) (version : Global) : outcome bool :=
  n ← undo_count_by self (fun entry => global_observed version (undo_id (um_key entry))) edit;
  Ok (n `mod` 2 =? 1)%N.
End undo_map.

(** ** The key as a dimension *)
Lemma lamport_MIN_le (t : Lamport) : cmp lamport_MIN t ≠ Gt.
Proof.
  unfold cmp, lamport_cmp. simpl. destruct t as [v [r]]; simpl.
  unfold cmp, N_ord, ReplicaId_ord, cmp, N_ord. simpl.
  by destruct v, r.
Qed.

Lemma undo_key_le e (k : UndoMapKey) :
  cmp (mkUndoKey e lamport_MIN) k = match cmp e (edit_id k) with Eq => cmp lamport_MIN (undo_id k) | c => c end.
Proof. unfold cmp at 1, UndoMapKey_ord, cmp at 1, prod_ord. simpl. by destruct (cmp e (edit_id k)). Qed.

Lemma undo_key_zero_le (k : UndoMapKey) : cmp undo_key_zero k ≠ Gt.
Proof.
  unfold undo_key_zero. rewrite undo_key_le. pose proof (lamport_MIN_le (edit_id k)).
  pose proof (lamport_MIN_le (undo_id k)). by destruct (cmp lamport_MIN (edit_id k)).
Qed.

#[export] Instance UndoMapKey_summary_laws : SummaryLaws (Sm:=UndoMapKey) tt.
Proof.
  split; simpl; intros.
  - apply ord_max_assoc.
  - apply ord_max_le, undo_key_zero_le.
Qed.
#[export] Instance UndoMapKey_dimension_laws : DimensionLaws UndoMapKey (Sm:=UndoMapKey) tt.
Proof. intros d a b. simpl. symmetry. apply ord_max_assoc. Qed.
#[export] Instance UndoMapKey_key_laws : KeyLaws UndoMapEntry UndoMapKey tt.
Proof.
  split.
  - intros pos x Hx. by apply ord_max_le.
  - apply undo_key_zero_le.
Qed.

(** ** Specification *)
Section spec.
#[local] Existing Instance key_target.
Abbreviation cursor := (Cursor UndoMapEntry UndoMapKey UndoMapKey).
Implicit Types (m : UndoMap) (e : Lamport) (its : list UndoMapEntry).

Definition undo_map_ok m : Prop := map_wf tt m ∧ keys_sorted (tree_items m).

(** The entries of an edit, and the greatest count among those [counted]. *)
Definition of_edit e its : list UndoMapEntry :=
  List.filter (fun x => eqb (edit_id (um_key x)) e) its.
Definition max_count (counted : UndoMapEntry → bool) its : N :=
  foldl (fun n x => if counted x then N.max n (um_undo_count x) else n) 0%N its.

Lemma of_edit_app e l1 l2 : of_edit e (l1 ++ l2) = of_edit e l1 ++ of_edit e l2.
Proof. apply List.filter_app. Qed.

Lemma of_edit_none e its :
  Forall (fun x => cmp (edit_id (um_key x)) e ≠ Eq) its → of_edit e its = [].
Proof.
  induction 1 as [|x its Hx _ IH]; simpl; [done|]. unfold eqb. by destruct (cmp _ e).
Qed.

(** Past the first entry of another edit there are no more entries of [e]. *)
Lemma of_edit_block e x its :
  keys_sorted (x :: its) → cmp e (edit_id (um_key x)) = Lt → of_edit e (x :: its) = [].
Proof.
  intros [_ Hx]%keys_sorted_cons He. apply of_edit_none. constructor; [by rewrite cmp_opp, He|].
  eapply Forall_impl; [exact Hx|]. simpl. intros y Hy.
  assert (Hle : cmp (edit_id (um_key x)) (edit_id (um_key y)) ≠ Gt).
  { unfold item_key, UndoMapEntry_keyed, cmp, UndoMapKey_ord, cmp, prod_ord in Hy. simpl in Hy.
    by destruct (cmp (edit_id (um_key x)) (edit_id (um_key y))). }
  intros E. apply cmp_eq in E. rewrite E in Hle. by rewrite cmp_opp, He in Hle.
Qed.

Lemma undo_count_loop_spec fuel counted e n (c : cursor) before after :
  map_wf tt (c_tree c) → cursor_at tt MAP_DEPTH c before after → keys_sorted after →
  Forall (fun x => cmp e (edit_id (um_key x)) ≠ Gt) after → (length after < fuel)%nat →
  undo_count_loop fuel counted e n c =
    Ok (foldl (fun n x => if counted x then N.max n (um_undo_count x) else n) n (of_edit e after)).
Proof.
  revert n c before after. induction fuel as [|fuel IH]; intros n c before after Hw Hat Hs Hle Hl; [lia|].
  cbn [undo_count_loop]. unfold cursor_iter_next. assert (c_did_seek c = true) as -> by apply Hat.
  cbn [mbind outcome_bind]. rewrite (cursor_item_spec _ _ _ _ _ Hat). simpl.
  destruct after as [|x after]; simpl; [done|].
  destruct (ok_with_inv _ _ (cursor_next_at tt MAP_DEPTH c _ _ (proj1 Hw) (map_wf_height tt _ Hw) Hat))
    as (c' & -> & Hc' & Hat'). simpl in Hat'. rewrite drop_0 in Hat'. simpl.
  apply Forall_cons in Hle as [Hx Hle].
  destruct (eqb (edit_id (um_key x)) e) eqn:E; simpl.
  - rewrite <-Hc' in Hw. rewrite (IH _ c' _ after Hw Hat'); [done| |done|simpl in *; lia].
    by apply keys_sorted_cons in Hs as [? _].
  - pose proof (of_edit_block e x after Hs) as Hb. simpl in Hb. rewrite E in Hb. rewrite Hb; [done|].
    unfold eqb in E. rewrite cmp_opp in E. by destruct (cmp e (edit_id (um_key x))).
Qed.

Lemma undo_count_by_spec m counted e :
  undo_map_ok m → undo_count_by m counted e = Ok (max_count counted (of_edit e (tree_items m))).
Proof.
  intros [Hw Hs]. unfold undo_count_by. set (k := mkUndoKey e lamport_MIN).
  destruct (ok_with_inv _ _ (seek_left_spec tt k m Hw Hs)) as ([c found] & -> & Hc & Hat). simpl in *.
  set (rest := opt_list (klookup k (tree_items m)) ++ gts k (tree_items m)) in *.
  pose proof (keys_split k _ Hs) as Hsp. fold rest in Hsp. rewrite Hsp in Hs.
  pose proof Hs as (_ & Hsr & _)%keys_sorted_app.
  assert (Hge : Forall (fun x => cmp e (edit_id (um_key x)) ≠ Gt) rest).
  { assert (Hk : Forall (fun x => cmp k (um_key x) ≠ Gt) rest).
    { apply Forall_app. split.
      - destruct (klookup k (tree_items m)) as [x|] eqn:E; constructor; [|done].
        apply klookup_key in E. change (um_key x = k) in E. by rewrite E, cmp_refl.
      - eapply Forall_impl; [apply gts_Forall|]. simpl. intros x Hx.
        change (cmp k (um_key x) = Lt) in Hx. by rewrite Hx. }
    eapply Forall_impl; [exact Hk|]. simpl. intros x Hx. unfold k in Hx. rewrite undo_key_le in Hx.
    by destruct (cmp e (edit_id (um_key x))). }
  rewrite <-Hc in Hw.
  rewrite (undo_count_loop_spec _ counted e 0%N c _ rest Hw Hat Hsr Hge).
  - rewrite Hsp, of_edit_app, (of_edit_none e (lts _ _)); [done|].
    eapply Forall_impl; [apply lts_Forall|]. simpl. intros x Hx E.
    change (cmp (um_key x) k = Lt) in Hx. rewrite cmp_opp in Hx. unfold k in Hx. rewrite undo_key_le in Hx.
    rewrite cmp_opp in E. pose proof (lamport_MIN_le (undo_id (um_key x))) as Hmin.
    destruct (cmp e (edit_id (um_key x))); try done. by destruct (cmp lamport_MIN (undo_id (um_key x))).
  - pose proof (cost_items m) as Hcost. rewrite Hsp, length_app in Hcost. lia.
Qed.
End spec.

Section insert.
#[local] Existing Instance key_target.
Context `{!UnstableSort, !UnstableSortLaws}.
Implicit Types (m : UndoMap) (u : UndoOperation) (e : Lamport).

(** The count an undo operation records for an edit. *)
Definition op_count u e : option N := option_map snd (List.find (fun p => eqb p.1 e) (counts u)).

Lemma op_edit_for u (k : UndoMapKey) :
  edit_for (undo_edits u) k =
    if eqb (undo_timestamp u) (undo_id k)
    then (fun n => Insert (mkUndoEntry k n)) <$> op_count u (edit_id k) else None.
Proof.
  unfold undo_edits, op_count. destruct k as [e t]; simpl.
  assert (Hkey : ∀ a b : Lamport, eqb (mkUndoKey a (undo_timestamp u)) (mkUndoKey b t) =
                   eqb a b && eqb (undo_timestamp u) t).
  { intros a b. unfold eqb. unfold cmp at 1, UndoMapKey_ord, cmp at 1, prod_ord. simpl.
    by destruct (cmp a b). }
  induction (counts u) as [|[a n] l IH]; simpl; [by destruct (eqb _ _)|].
  unfold item_key, UndoMapEntry_keyed. simpl. rewrite Hkey. destruct (eqb a e) eqn:Ea; simpl.
  - destruct (eqb (undo_timestamp u) t) eqn:Et.
    + apply eqb_eq in Ea as <-. by apply eqb_eq in Et as <-.
    + exact IH.
  - exact IH.
Qed.

Lemma undo_edits_nodup u : NoDup (counts u).*1 → NoDup (edit_key <$> undo_edits u).
Proof.
  intros Hn. unfold undo_edits. rewrite <-list_fmap_compose.
  assert (Heq : (edit_key ∘ (fun p => Insert (mkUndoEntry (mkUndoKey p.1 (undo_timestamp u)) p.2))) <$> counts u
                = (fun a => mkUndoKey a (undo_timestamp u)) <$> (counts u).*1).
  { rewrite <-list_fmap_compose. done. }
  rewrite Heq. apply NoDup_fmap_2; [|done]. by intros a b [= ->].
Qed.

Lemma undo_map_insert_spec m u :
  undo_map_ok m → NoDup (counts u).*1 →
  (N.of_nat (length (tree_items m) + length (counts u)) < 6 ^ 9)%N →
  ok_with (undo_map_insert m u) (fun m' => undo_map_ok m' ∧
    (length (tree_items m') ≤ length (tree_items m) + length (counts u))%nat ∧
    ∀ k, klookup k (tree_items m') =
      if eqb (undo_timestamp u) (undo_id k)
      then match op_count u (edit_id k) with Some n => Some (mkUndoEntry k n) | None => klookup k (tree_items m) end
      else klookup k (tree_items m)).
Proof.
  intros [Hw Hs] Hn Hsz. unfold undo_map_insert.
  assert (Hl : length (undo_edits u) = length (counts u)) by apply length_fmap.
  destruct (edit_spec tt m (undo_edits u) Hw Hs (undo_edits_nodup u Hn)) as (es & Hp & Hes & Hok);
    [by rewrite Hl|].
  apply ok_with_bind. eapply ok_with_mono; [exact Hok|]. intros [m' rem] (Hw' & Hi & _). simpl in *.
  split_and!; [split; [done|]|..]; rewrite Hi.
  - by apply apply_edits_sorted.
  - rewrite <-Hl, <-(Permutation_length Hp). apply apply_edits_length.
  - intros k. rewrite klookup_apply_edits by done. unfold edited_lookup.
    rewrite (edit_for_perm es (undo_edits u)), op_edit_for
      by (done || (rewrite Hp; by apply undo_edits_nodup)).
    destruct (eqb _ _); [|done]. by destruct (op_count u (edit_id k)).
Qed.

(** The greatest count of an edit, by its defining property. *)
Definition greatest (P : N → Prop) (n : N) : Prop :=
  (∀ x, P x → (x <= n)%N) ∧ (n = 0%N ∨ P n).

Lemma greatest_unique P n n' : greatest P n → greatest P n' → n = n'.
Proof.
  intros [H1 H2] [H1' H2']. destruct H2 as [->|H2], H2' as [->|H2'].
  - done.
  - pose proof (H1 _ H2'). lia.
  - pose proof (H1' _ H2). lia.
  - pose proof (H1 _ H2'). pose proof (H1' _ H2). lia.
Qed.

Lemma max_count_snoc p l x :
  max_count p (l ++ [x]) = if p x then N.max (max_count p l) (um_undo_count x) else max_count p l.
Proof. unfold max_count. by rewrite foldl_app. Qed.

Lemma max_count_greatest p l :
  greatest (fun n => ∃ x, x ∈ l ∧ p x = true ∧ um_undo_count x = n) (max_count p l).
Proof.
  induction l as [|x l [IH1 IH2]] using rev_ind.
  { split; [|by left]. intros n (x & Hx & _). by apply not_elem_of_nil in Hx. }
  rewrite max_count_snoc. split.
  - intros n (y & [Hy|Hy]%elem_of_app & Hp & <-).
    + assert (um_undo_count y <= max_count p l)%N by (apply IH1; eauto). destruct (p x); lia.
    + apply list_elem_of_singleton in Hy as ->. rewrite Hp. lia.
  - assert (Hold : max_count p l = 0%N ∨ ∃ y, y ∈ l ++ [x] ∧ p y = true ∧ um_undo_count y = max_count p l).
    { destruct IH2 as [?|(y & Hy & ?)]; [by left|]. right. exists y. rewrite elem_of_app. eauto. }
    destruct (p x) eqn:E; [|done].
    destruct (N.max_spec (max_count p l) (um_undo_count x)) as [[_ ->]|[_ ->]]; [|done].
    right. exists x. rewrite elem_of_app. split_and!; [right; by left|done|done].
Qed.

Lemma of_edit_greatest m e :
  undo_map_ok m →
  greatest (fun n => ∃ t, klookup (mkUndoKey e t) (tree_items m) = Some (mkUndoEntry (mkUndoKey e t) n))
    (max_count (fun _ => true) (of_edit e (tree_items m))).
Proof.
  intros [_ Hs]. destruct (max_count_greatest (fun _ => true) (of_edit e (tree_items m))) as [H1 H2].
  assert (Hin : ∀ t n, klookup (mkUndoKey e t) (tree_items m) = Some (mkUndoEntry (mkUndoKey e t) n) →
            mkUndoEntry (mkUndoKey e t) n ∈ of_edit e (tree_items m)).
  { intros t n Hk. apply list_elem_of_In, filter_In. split; simpl; [|apply eqb_refl].
    apply list_elem_of_In. by apply klookup_elem. }
  split.
  - intros n (t & Hk). apply H1. exists (mkUndoEntry (mkUndoKey e t) n). auto.
  - destruct H2 as [?|(x & Hx & _ & Hc)]; [by left|]. right.
    apply list_elem_of_In, filter_In in Hx as [Hx He]. apply list_elem_of_In in Hx. apply eqb_eq in He.
    apply klookup_elem in Hx; [|done]. destruct x as [[e' t] n]. simpl in *. subst. by exists t.
Qed.
End insert.

(** ** Correctness *)

(** The counting loops, which start at the first entry of the edit and stop at
    the first entry of another, return the greatest undo count recorded for the
    edit ([undo_count]), or recorded by the undo operations the version has
    observed ([was_undone]); an edit is undone when that count is odd. *)
Theorem undo_count_correct (m : UndoMap) (e : Lamport) (v : Global) :
  undo_map_ok m →
  undo_count m e = Ok (max_count (fun _ => true) (of_edit e (tree_items m))) ∧
  is_undone m e = Ok (max_count (fun _ => true) (of_edit e (tree_items m)) `mod` 2 =? 1)%N ∧
  was_undone m e v =
    Ok (max_count (fun x => global_observed v (undo_id (um_key x))) (of_edit e (tree_items m)) `mod` 2 =? 1)%N.
Proof.
  intros Hm. unfold is_undone, was_undone, undo_count. by rewrite !undo_count_by_spec.
Qed.

(** Recording a new undo operation raises the count of each of its edits to at
    least the recorded one and changes no other edit. *)
Theorem undo_insert_correct `{!UnstableSort, !UnstableSortLaws} (m : UndoMap) (u : UndoOperation) :
  undo_map_ok m → NoDup (counts u).*1 →
  (N.of_nat (length (tree_items m) + length (counts u)) < 6 ^ 9)%N →
  (∀ e, klookup (mkUndoKey e (undo_timestamp u)) (tree_items m) = None) →
  ok_with (undo_map_insert m u) (fun m' => undo_map_ok m' ∧ ∀ e,
    undo_count m' e = (fun n => N.max n (default 0%N (op_count u e))) <$> undo_count m e).
Proof.
  intros Hm Hn Hsz Hfresh. eapply ok_with_mono; [by apply undo_map_insert_spec|].
  intros m' (Hm' & _ & Hk). split; [done|]. intros e. unfold undo_count.
  rewrite !undo_count_by_spec by done. simpl. f_equal.
  pose proof (of_edit_greatest m' e Hm') as Hg'. destruct (of_edit_greatest m e Hm) as [H1 H2].
  set (n := max_count _ (of_edit e (tree_items m))) in *.
  eapply greatest_unique; [exact Hg'|]. clear Hg'.
  assert (Hlk : ∀ t x, klookup (mkUndoKey e t) (tree_items m') = Some (mkUndoEntry (mkUndoKey e t) x) ↔
            klookup (mkUndoKey e t) (tree_items m) = Some (mkUndoEntry (mkUndoKey e t) x) ∨
            t = undo_timestamp u ∧ op_count u e = Some x).
  { intros t x. rewrite Hk. simpl. destruct (eqb (undo_timestamp u) t) eqn:E.
    - apply eqb_eq in E as <-. specialize (Hfresh e).
      destruct (op_count u e) as [n'|]; rewrite Hfresh; naive_solver.
    - split; [by left|]. intros [?|[-> _]]; [done|]. by rewrite eqb_refl in E. }
  split.
  - intros x (t & [Hx|[-> Hx]]%Hlk).
    + assert (x <= n)%N by (apply H1; eauto). lia.
    + rewrite Hx. simpl. lia.
  - destruct (N.max_spec n (default 0%N (op_count u e))) as [[Hlt ->]|[_ ->]].
    + destruct (op_count u e) as [x|] eqn:E; simpl in *; [|lia]. right.
      exists (undo_timestamp u). apply Hlk. by right.
    + destruct H2 as [?|(t & Ht)]; [by left|]. right. exists t. apply Hlk. by left.
Qed.

(** Convergence: undo operations with different timestamps commute, and
    recording one twice is the same as once; replicas that receive the same undo
    operations in different orders hold the same entries. *)
Theorem undo_insert_converges `{!UnstableSort, !UnstableSortLaws} (m : UndoMap) (u1 u2 : UndoOperation) :
  undo_map_ok m → NoDup (counts u1).*1 → NoDup (counts u2).*1 →
  (N.of_nat (length (tree_items m) + 2 * (length (counts u1) + length (counts u2))) < 6 ^ 9)%N →
  undo_timestamp u1 ≠ undo_timestamp u2 →
  ∃ m1 m12 m2 m21 m11,
    undo_map_insert m u1 = Ok m1 ∧ undo_map_insert m1 u2 = Ok m12 ∧
    undo_map_insert m u2 = Ok m2 ∧ undo_map_insert m2 u1 = Ok m21 ∧
    undo_map_insert m1 u1 = Ok m11 ∧
    tree_items m12 = tree_items m21 ∧ tree_items m11 = tree_items m1.
Proof.
  intros Hm Hn1 Hn2 Hsz Hne.
  destruct (ok_with_inv _ _ (undo_map_insert_spec m u1 Hm Hn1 ltac:(lia))) as (m1 & E1 & Hm1 & Hl1 & Hk1).
  destruct (ok_with_inv _ _ (undo_map_insert_spec m u2 Hm Hn2 ltac:(lia))) as (m2 & E2 & Hm2 & Hl2 & Hk2).
  destruct (ok_with_inv _ _ (undo_map_insert_spec m1 u2 Hm1 Hn2 ltac:(lia))) as (m12 & E12 & Hm12 & _ & Hk12).
  destruct (ok_with_inv _ _ (undo_map_insert_spec m2 u1 Hm2 Hn1 ltac:(lia))) as (m21 & E21 & Hm21 & _ & Hk21).
  destruct (ok_with_inv _ _ (undo_map_insert_spec m1 u1 Hm1 Hn1 ltac:(lia))) as (m11 & E11 & Hm11 & _ & Hk11).
  exists m1, m12, m2, m21, m11. split_and!; [done..| |].
  - apply klookup_ext; [apply Hm12|apply Hm21|]. intros k. rewrite Hk12, Hk21, Hk1, Hk2.
    destruct (eqb (undo_timestamp u1) (undo_id k)) eqn:Ek1, (eqb (undo_timestamp u2) (undo_id k)) eqn:Ek2;
      try done. apply eqb_eq in Ek1, Ek2. congruence.
  - apply klookup_ext; [apply Hm11|apply Hm1|]. intros k. rewrite Hk11, !Hk1.
    destruct (eqb _ _); [|done]. by destruct (op_count u1 (edit_id k)).
Qed.

(** *** On concrete operations *)
#[local] Existing Instance insertion_sort.
#[local] Existing Instance insertion_sort_laws.

Definition ex_undo (t : N) (l : list (N * N)) : UndoOperation :=
  mkUndoOperation (mkLamport t LOCAL) global_new ((fun p => (mkLamport p.1 LOCAL, p.2)) <$> l).

Lemma ex_undo_map_ok : undo_map_ok (new tt).
Proof. split; [split; [by left|done]|constructor]. Qed.

Lemma ex_undo_nodup t a b x y : a ≠ b → NoDup (counts (ex_undo t [(a, x); (b, y)])).*1.
Proof. intros Hab. simpl. repeat (constructor; [set_solver|]). constructor. Qed.

Lemma undo_count_correct_witness :
  undo_count (new tt) (mkLamport 1 LOCAL) = Ok 0%N.
Proof. by destruct (undo_count_correct (new tt) (mkLamport 1 LOCAL) global_new ex_undo_map_ok) as [-> _]. Defined.

Lemma undo_insert_correct_witness :
  ok_with (undo_map_insert (new tt) (ex_undo 9 [(1, 1); (2, 1)]%N)) (fun m =>
    undo_count m (mkLamport 1 LOCAL) = Ok 1%N).
Proof.
  eapply ok_with_mono.
  - apply (undo_insert_correct (new tt) (ex_undo 9 [(1, 1); (2, 1)]%N) ex_undo_map_ok);
      [by apply ex_undo_nodup|done|done].
  - intros m [_ Hc]. rewrite Hc. by vm_compute.
Defined.

Lemma undo_insert_converges_witness :
  ∃ m1 m12, undo_map_insert (new tt) (ex_undo 9 [(1, 1); (2, 1)]%N) = Ok m1 ∧
    undo_map_insert m1 (ex_undo 10 [(1, 2); (3, 1)]%N) = Ok m12.
Proof.
  destruct (undo_insert_converges (new tt) (ex_undo 9 [(1, 1); (2, 1)]%N) (ex_undo 10 [(1, 2); (3, 1)]%N)
    ex_undo_map_ok) as (m1 & m12 & m2 & m21 & m11 & H1 & H2 & _);
    [by apply ex_undo_nodup|by apply ex_undo_nodup|by vm_compute|done|]. eauto.
Defined.
