(* ===== verification/Patch.v ===== *)
(** * Edit patches: [crates/text/src/patch.rs] and [Edit] of [text.rs]

    A patch is an ordered list of edits, each replacing a range of old positions by
    a range of new ones.  The operations are generic in the position type, as in
    the source: what they use of it is the class [PatchPoint]; [usize] positions,
    with the wrap-around arithmetic of the release profile, are an instance. *)

From S2P Require Import Prelude Ord.

Record Range (T : Type) := mkRange { r_start : T; r_end : T }.
Arguments mkRange {_} _ _.
Arguments r_start {_} _.
Arguments r_end {_} _.

Record TextEdit (T : Type) := mkEdit { old : Range T; new_ : Range T }.
Arguments mkEdit {_} _ _.
Arguments old {_} _.
Arguments new_ {_} _.

(** [Sub<T, Output = TDelta> + Add<TDelta, Output = T> + AddAssign<TDelta> + Default] *)
Class PatchPoint (T TDelta : Type) := {
  p_sub : T → T → TDelta;
  p_add : T → TDelta → T;
  p_default : T
}.

Definition Patch (T : Type) : Type := list (TextEdit T).

Section patch.
Context {T : Type} `{!Ord T}.
Abbreviation edit := (TextEdit T).
Abbreviation patch := (Patch T).

Definition edit_is_empty (self : edit) : bool :=
  eqb (r_start (old self)) (r_end (old self)) && eqb (r_start (new_ self)) (r_end (new_ self)).

Definition patch_empty : patch := [].
Definition patch_new (edits : list edit) : patch := edits.
Definition patch_edits (self : patch) : list edit := self.
Definition patch_invert (self : patch) : patch := (fun e => mkEdit (new_ e) (old e)) <$> self.
Definition patch_clear (self : patch) : patch := [].
Definition patch_is_empty (self : patch) : bool := match self with [] => true | _ => false end.

(** [if let Some(last) = self.0.last_mut() ..] on the list of edits. *)
Fixpoint push_maybe_empty (self : patch) (e : edit) : patch :=
  match self with
  | [] => [e]
  | [last] =>
      if leb (r_start (old e)) (r_end (old last)) then
        [mkEdit (mkRange (r_start (old last)) (r_end (old e)))
                (mkRange (r_start (new_ last)) (r_end (new_ e)))]
      else [last; e]
  | first :: self => first :: push_maybe_empty self e
  end.

Definition patch_push (self : patch) (e : edit) : patch :=
  if edit_is_empty e then self else push_maybe_empty self e.

Section dims.
Context {TDelta : Type} `{!Ord TDelta, !PatchPoint T TDelta}.

Definition old_len (self : edit) : TDelta := p_sub (r_end (old self)) (r_start (old self)).
Definition new_len (self : edit) : TDelta := p_sub (r_end (new_ self)) (r_start (new_ self)).

(** The loop variables [composed], [old_start], [new_start]. *)
Record compose_state := mkState { cs_composed : patch; cs_old : T; cs_new : T }.

(** [composed.push(Edit { old: old_start..old_end, new: new_start..new_end })],
    then [old_start = old_end; new_start = new_end]. *)
Definition emit (s : compose_state) (old_end new_end : T) : compose_state :=
  mkState (patch_push (cs_composed s) (mkEdit (mkRange (cs_old s) old_end) (mkRange (cs_new s) new_end)))
          old_end new_end.

(** [old_start += catchup; new_start += catchup] *)
Definition catch_up (s : compose_state) (catchup : TDelta) : compose_state :=
  mkState (cs_composed s) (p_add (cs_old s) catchup) (p_add (cs_new s) catchup).

Definition push_old_edit (s : compose_state) (old_edit : edit) : compose_state :=
  let s := catch_up s (p_sub (r_start (old old_edit)) (cs_old s)) in
  emit s (p_add (cs_old s) (old_len old_edit)) (p_add (cs_new s) (new_len old_edit)).

Definition push_new_edit (s : compose_state) (new_edit : edit) : compose_state :=
  let s := catch_up s (p_sub (r_start (new_ new_edit)) (cs_new s)) in
  emit s (p_add (cs_old s) (old_len new_edit)) (p_add (cs_new s) (new_len new_edit)).

(** The first half of composing intersecting edits: up to where both have begun. *)
Definition compose_heads (s : compose_state) (old_edit new_edit : edit) :
    compose_state * edit * edit :=
  if ltb (r_start (new_ old_edit)) (r_start (old new_edit)) then
    let s := catch_up s (p_sub (r_start (old old_edit)) (cs_old s)) in
    let overshoot := p_sub (r_start (old new_edit)) (r_start (new_ old_edit)) in
    let old_end := ord_min (p_add (cs_old s) overshoot) (r_end (old old_edit)) in
    let new_end := p_add (cs_new s) overshoot in
    (emit s old_end new_end,
     mkEdit (mkRange old_end (r_end (old old_edit)))
            (mkRange (p_add (r_start (new_ old_edit)) overshoot) (r_end (new_ old_edit))),
     new_edit)
  else
    let s := catch_up s (p_sub (r_start (new_ new_edit)) (cs_new s)) in
    let overshoot := p_sub (r_start (new_ old_edit)) (r_start (old new_edit)) in
    let old_end := p_add (cs_old s) overshoot in
    let new_end := ord_min (p_add (cs_new s) overshoot) (r_end (new_ new_edit)) in
    (emit s old_end new_end, old_edit,
     mkEdit (mkRange (p_add (r_start (old new_edit)) overshoot) (r_end (old new_edit)))
            (mkRange new_end (r_end (new_ new_edit)))).

Fixpoint compose_loop (fuel : nat) (olds news : list edit) (s : compose_state) : outcome patch :=
  match fuel with
  | O => Panic
  | S fuel =>
      match olds, news with
      | [], [] => Ok (cs_composed s)
      | old_edit :: olds', [] => compose_loop fuel olds' news (push_old_edit s old_edit)
      | [], new_edit :: news' => compose_loop fuel olds news' (push_new_edit s new_edit)
      | old_edit :: olds', new_edit :: news' =>
          if ltb (r_end (new_ old_edit)) (r_start (old new_edit)) then
            compose_loop fuel olds' news (push_old_edit s old_edit)
          else if ltb (r_end (old new_edit)) (r_start (new_ old_edit)) then
            compose_loop fuel olds news' (push_new_edit s new_edit)
          else
            let '(s, old_edit, new_edit) := compose_heads s old_edit new_edit in
            if ltb (r_end (old new_edit)) (r_end (new_ old_edit)) then
              let old_end := p_add (cs_old s) (ord_min (old_len old_edit) (old_len new_edit)) in
              let new_end := p_add (cs_new s) (new_len new_edit) in
              compose_loop fuel
                (mkEdit (mkRange old_end (r_end (old old_edit)))
                        (mkRange (r_end (old new_edit)) (r_end (new_ old_edit))) :: olds')
                news' (emit s old_end new_end)
            else
              let old_end := p_add (cs_old s) (old_len old_edit) in
              let new_end := p_add (cs_new s) (ord_min (new_len old_edit) (new_len new_edit)) in
              compose_loop fuel olds'
                (mkEdit (mkRange (r_end (new_ old_edit)) (r_end (old new_edit)))
                        (mkRange new_end (r_end (new_ new_edit))) :: news')
                (emit s old_end new_end)
      end
  end.

(** Every round consumes an edit. *)
Definition patch_compose (self : patch) (new_edits : list edit) : outcome patch :=
  compose_loop (S (length self + length new_edits)) self new_edits (mkState [] p_default p_default).

(** [binary_search_by(|probe| probe.old.start.cmp(&old))]: the index of a match, or
    where it would be inserted.  With strictly ascending starts, as in a patch,
    both are unique. *)
Fixpoint search_old_start (l : list edit) (pos : T) (ix : nat) : nat + nat :=
  match l with
  | [] => inr ix
  | e :: l =>
      match cmp (r_start (old e)) pos with
      | Lt => search_old_start l pos (S ix)
      | Eq => inl ix
      | Gt => inr ix
      end
  end.

(** The index both lookups go on with, if any. *)
Definition edit_index (self : patch) (pos : T) : option nat :=
  match search_old_start self pos 0 with
  | inl ix => Some ix
  | inr O => None
  | inr (S ix) => Some ix
  end.

Definition old_to_new (self : patch) (pos : T) : T :=
  match edit_index self pos with
  | None => pos
  | Some ix =>
      match self !! ix with
      | Some e =>
          if leb (r_end (old e)) pos then p_add (r_end (new_ e)) (p_sub pos (r_end (old e)))
          else r_start (new_ e)
      | None => pos
      end
  end.

Definition edit_for_old_position (self : patch) (pos : T) : edit :=
  match edit_index self pos with
  | None => mkEdit (mkRange pos pos) (mkRange pos pos)
  | Some ix =>
      match self !! ix with
      | Some e =>
          if ltb (r_end (old e)) pos then
            let translated := p_add (r_end (new_ e)) (p_sub pos (r_end (old e))) in
            mkEdit (mkRange pos pos) (mkRange translated translated)
          else e
      | None => mkEdit (mkRange pos pos) (mkRange pos pos)
      end
  end.
End dims.
End patch.

Arguments compose_state _ : clear implicits.

(** ** [usize] positions *)
Definition usize_sub (a b : N) : N := ((a + 2 ^ 64 - b) `mod` 2 ^ 64)%N.
Definition usize_add (a b : N) : N := ((a + b) `mod` 2 ^ 64)%N.
#[export] Instance usize_point : PatchPoint N N :=
  {| p_sub := usize_sub; p_add := usize_add; p_default := 0%N |}.

Lemma usize_sub_exact a b : (b <= a < 2 ^ 64)%N → usize_sub a b = (a - b)%N.
Proof.
  intros. unfold usize_sub. replace (a + 2 ^ 64 - b)%N with ((a - b) + 1 * 2 ^ 64)%N by lia.
  rewrite N.Div0.mod_add. apply N.mod_small. lia.
Qed.

Lemma usize_add_exact a b : (a + b < 2 ^ 64)%N → usize_add a b = (a + b)%N.
Proof. intros. unfold usize_add. apply N.mod_small. lia. Qed.
