(* ===== verification/PatchFacts.v ===== *)
(** * Composition and translation of patches

    A patch between two texts is read as the relation between the positions of the
    characters it keeps: position [x] of the old text and [y] of the new one hold the
    same, untouched character.  Composing patches is composing these relations. *)

From S2P Require Import Prelude Ord Patch.
Local Open Scope N_scope.

Abbreviation os e := (r_start (old e)).
Abbreviation oe e := (r_end (old e)).
Abbreviation ns e := (r_start (new_ e)).
Abbreviation ne e := (r_end (new_ e)).
Abbreviation patch := (Patch N).

(** The positions a text of less than 4 EiB has: no [usize] computation on them wraps. *)
Definition POSITION_BOUND : N := 2 ^ 62.
Definition in_bounds (p : patch) : Prop :=
  Forall (fun e => oe e <= POSITION_BOUND ∧ ne e <= POSITION_BOUND) p.

(** The edits are in order from the positions [o] (old) and [m] (new), and the text
    between them has the same length on both sides. *)
Fixpoint valid_from (o m : N) (p : patch) : Prop :=
  match p with
  | [] => True
  | e :: p =>
      (o <= os e ∧ os e <= oe e ∧ m <= ns e ∧ ns e <= ne e ∧ os e + m = ns e + o)
      ∧ valid_from (oe e) (ne e) p
  end.

(** The characters kept from the positions [o] and [m] on. *)
Fixpoint kept_from (o m : N) (p : patch) (x y : N) : Prop :=
  match p with
  | [] => o <= x ∧ x + m = y + o
  | e :: p => (o <= x ∧ x < os e ∧ x + m = y + o) ∨ kept_from (oe e) (ne e) p x y
  end.

Abbreviation valid := (valid_from 0 0).
Abbreviation kept := (kept_from 0 0).

(** What [Patch::new] asserts of consecutive edits, and that no edit is empty. *)
Fixpoint canonical (p : patch) : Prop :=
  match p with
  | [] => True
  | e :: p =>
      (os e < oe e ∨ ns e < ne e)
      ∧ match p with [] => True | e' :: _ => oe e < os e' ∧ ne e < ns e' end
      ∧ canonical p
  end.

(** ** The order on positions *)
Lemma ltb_N (x y : N) : ltb x y = (x <? y).
Proof. unfold ltb, cmp, N_ord, is_lt, N.ltb. by destruct (x ?= y). Qed.
Lemma leb_N (x y : N) : leb x y = (x <=? y).
Proof. unfold leb, cmp, N_ord, is_le, N.leb. by destruct (x ?= y). Qed.
Lemma eqb_N (x y : N) : eqb x y = (x =? y).
Proof.
  apply eq_bool_prop_intro. rewrite !Is_true_true, eqb_eq, N.eqb_eq. done.
Qed.
Lemma ord_min_N (x y : N) : ord_min x y = N.min x y.
Proof. unfold ord_min, cmp, N_ord, N.min. by destruct (x ?= y). Qed.

(** ** Kept characters *)
Lemma kept_lower p : ∀ o m x y, valid_from o m p → kept_from o m p x y → o <= x ∧ m <= y.
Proof.
  induction p as [|e p IH]; intros o m x y; simpl; [lia|].
  intros [? Hv] [?|Hk]; [lia|]. specialize (IH _ _ _ _ Hv Hk). lia.
Qed.

Lemma kept_head e p o m x y :
  os e = o → kept_from o m (e :: p) x y ↔ kept_from (oe e) (ne e) p x y.
Proof. simpl. intros. split; [intros [?|?]; [lia|done]|by right]. Qed.

(** The first position an edit touches, on either side, if there is one. *)
Definition starts_after (o m d : N) (p : patch) : Prop :=
  match p with [] => True | e :: _ => o + d <= os e ∧ m + d <= ns e end.

Lemma valid_shift p o m d : valid_from o m p → starts_after o m d p → valid_from (o + d) (m + d) p.
Proof. destruct p; simpl; [done|]. intros [? ?] ?. split; [lia|done]. Qed.

Lemma kept_shift p o m d x y :
  valid_from o m p → starts_after o m d p →
  kept_from o m p x y ↔ (o <= x ∧ x < o + d ∧ x + m = y + o) ∨ kept_from (o + d) (m + d) p x y.
Proof.
  destruct p as [|e p]; simpl; intros Hv Ha; [lia|].
  split; [intros [?|?]|intros [?|[?|?]]]; try (by auto); try lia.
Qed.

Lemma kept_shift_old p o m d x y :
  valid_from o m p → starts_after o m d p → o + d <= x →
  kept_from o m p x y ↔ kept_from (o + d) (m + d) p x y.
Proof. intros Hv Ha ?. rewrite (kept_shift _ _ _ d) by done. intuition lia. Qed.

Lemma kept_shift_new p o m d x y :
  valid_from o m p → starts_after o m d p → m + d <= y →
  kept_from o m p x y ↔ kept_from (o + d) (m + d) p x y.
Proof. intros Hv Ha ?. rewrite (kept_shift _ _ _ d) by done. intuition lia. Qed.

(** ** Appending an edit at the end *)
Fixpoint ends_from (o m : N) (p : patch) : N * N :=
  match p with [] => (o, m) | e :: p => ends_from (oe e) (ne e) p end.

Lemma ends_lower p : ∀ o m, valid_from o m p → o <= (ends_from o m p).1.
Proof.
  induction p as [|e p IH]; intros o m Hv; simpl in *; [lia|].
  specialize (IH _ _ (proj2 Hv)). lia.
Qed.

(** [p] is a patch up to the positions [o] and [n], beyond its last edit: with the
    lengths of two texts for [o] and [n], a patch between these texts. *)
Definition fits_from (a b : N) (p : patch) (o n : N) : Prop :=
  valid_from a b p ∧ (ends_from a b p).1 <= o ∧ (ends_from a b p).2 <= n
  ∧ o + (ends_from a b p).2 = n + (ends_from a b p).1.
Abbreviation fits := (fits_from 0 0).
Definition reaches (p : patch) (o n : N) : Prop := fits p o n ∧ canonical p.

Lemma push_maybe_empty_cons (e : TextEdit N) p e' :
  ∃ f p', push_maybe_empty (e :: p) e' = f :: p' ∧ os f = os e ∧ ns f = ns e.
Proof.
  destruct p as [|e2 p]; simpl; [|eauto].
  destruct (leb _ _); simpl; eexists _, _; (split; [done|]); done.
Qed.

Lemma push_edit_spec p : ∀ a b o n o' n',
  fits_from a b p o n → canonical p → o <= o' → n <= n' → o < o' ∨ n < n' →
  let p' := push_maybe_empty p (mkEdit (mkRange o o') (mkRange n n')) in
  fits_from a b p' o' n' ∧ canonical p'
  ∧ (∀ x y, (kept_from a b p' x y ∧ x < o') ↔ (kept_from a b p x y ∧ x < o)).
Proof.
  induction p as [|e p IH]; intros a b o n o' n' (Hv & H1 & H2 & H3) Hs ? ? ?.
  { unfold fits_from; simpl in *. split; [intuition lia|]. split; [by auto|]. intros; intuition lia. }
  destruct p as [|e2 p].
  { simpl in *. rewrite leb_N. destruct (N.leb_spec o (oe e)); unfold fits_from; simpl.
    - split; [intuition lia|]. split; [intuition lia|]. intros; intuition lia.
    - split; [intuition lia|]. split; [intuition lia|]. intros; intuition lia. }
  destruct Hs as (Hs0 & Hs1 & Hs), Hv as [Hv0 Hv].
  destruct (IH (oe e) (ne e) o n o' n') as ((Hv' & H1' & H2' & H3') & Hs' & Hk); try done.
  destruct (push_maybe_empty_cons e2 p (mkEdit (mkRange o o') (mkRange n n')))
    as (f & p' & Hf & Hf1 & Hf2).
  change (push_maybe_empty (e :: e2 :: p) (mkEdit (mkRange o o') (mkRange n n')))
    with (e :: push_maybe_empty (e2 :: p) (mkEdit (mkRange o o') (mkRange n n'))).
  rewrite Hf in *. cbn zeta. split; [|split].
  - exact (conj (conj Hv0 Hv') (conj H1' (conj H2' H3'))).
  - refine (conj Hs0 (conj _ Hs')). by rewrite Hf1, Hf2.
  - intros x y. specialize (Hk x y).
    assert (Hlo : kept_from (oe e) (ne e) (e2 :: p) x y → oe e <= x).
    { intros ?. by apply (kept_lower (e2 :: p) (oe e) (ne e) x y). }
    assert (os e <= o).
    { pose proof (ends_lower (e2 :: p) _ _ Hv). simpl in *. lia. }
    change (kept_from a b (e :: f :: p') x y) with
      ((a <= x ∧ x < os e ∧ x + b = y + a) ∨ kept_from (oe e) (ne e) (f :: p') x y).
    change (kept_from a b (e :: e2 :: p) x y) with
      ((a <= x ∧ x < os e ∧ x + b = y + a) ∨ kept_from (oe e) (ne e) (e2 :: p) x y).
    intuition lia.
Qed.

(** Beyond its last edit a patch only shifts. *)
Lemma kept_beyond p : ∀ a b o n x y,
  fits_from a b p o n → o <= x → kept_from a b p x y ↔ x + n = y + o.
Proof.
  induction p as [|e p IH]; intros a b o n x y (Hv & H1 & H2 & H3) Hx; [simpl in *; lia|].
  simpl in Hv |- *. rewrite <-(IH (oe e) (ne e) o n x y); [| |done].
  - pose proof (ends_lower p _ _ (proj2 Hv)). simpl in H1. intuition lia.
  - by split; [apply Hv|].
Qed.

(** A canonical patch that keeps everything from [lo] and [ln] on ends before them. *)
Lemma fits_intro p : ∀ a b lo ln,
  valid_from a b p → canonical p → (∀ d, kept_from a b p (lo + d) (ln + d)) → fits_from a b p lo ln.
Proof.
  induction p as [|e p IH]; intros a b lo ln Hv Hs Hk.
  { specialize (Hk 0). unfold fits_from. simpl in *. split_and!; lia. }
  destruct Hv as [Hv0 Hv], Hs as (Hs0 & _ & Hs).
  destruct (IH (oe e) (ne e) lo ln) as (? & ? & ? & ?); [done..| |by split].
  intros d. destruct (Hk d) as [?|?]; [exfalso|done].
  destruct (Hk (os e - lo)) as [?|Hk']; [lia|]. apply kept_lower in Hk'; [lia|done].
Qed.

Lemma ends_upper p : ∀ a b, valid_from a b p →
  Forall (fun e => oe e <= (ends_from a b p).1 ∧ ne e <= (ends_from a b p).2) p
  ∧ b <= (ends_from a b p).2.
Proof.
  induction p as [|e p IH]; intros a b Hv; simpl in *; [split; [done|lia]|].
  destruct (IH _ _ (proj2 Hv)) as [? ?]. pose proof (ends_lower _ _ _ (proj2 Hv)).
  split; [by constructor|lia].
Qed.

Lemma fits_in_bounds p lo ln :
  fits p lo ln → lo <= POSITION_BOUND → ln <= POSITION_BOUND → in_bounds p.
Proof.
  intros (Hv & ? & ? & _) ? ?. eapply Forall_impl; [exact (proj1 (ends_upper _ _ _ Hv))|].
  simpl. lia.
Qed.

(** ** The steps of [compose] *)
Lemma p_sub_exact (a b : N) : b <= a → a <= 2 ^ 63 → p_sub a b = a - b.
Proof. intros. apply usize_sub_exact. lia. Qed.
Lemma p_add_exact (a b : N) : a + b <= 2 ^ 63 → p_add a b = a + b.
Proof. intros. apply usize_add_exact. lia. Qed.

(** The characters kept by what is already composed. *)
Definition done_so_far (s : compose_state N) (x y : N) : Prop :=
  kept (cs_composed s) x y ∧ x < cs_old s.

Lemma emit_spec s o' n' :
  reaches (cs_composed s) (cs_old s) (cs_new s) → cs_old s <= o' → cs_new s <= n' →
  let s' := emit s o' n' in
  reaches (cs_composed s') o' n' ∧ cs_old s' = o' ∧ cs_new s' = n'
  ∧ (∀ x y, done_so_far s' x y ↔ done_so_far s x y).
Proof.
  intros Hr Ho Hn. unfold emit, patch_push, edit_is_empty, done_so_far.
  cbn [cs_composed cs_old cs_new old new_ r_start r_end]. rewrite !eqb_N.
  destruct Hr as [Hf Hs].
  destruct (decide (cs_old s = o' ∧ cs_new s = n')) as [[<- <-]|Hne].
  { by rewrite !N.eqb_refl. }
  destruct (push_edit_spec _ _ _ _ _ o' n' Hf Hs Ho Hn) as (? & ? & ?); [lia|].
  replace ((cs_old s =? o') && (cs_new s =? n')) with false; [by split_and!|].
  symmetry. apply andb_false_iff. rewrite !N.eqb_neq. lia.
Qed.

Lemma catch_up_spec s d :
  reaches (cs_composed s) (cs_old s) (cs_new s) →
  cs_old s + d <= 2 ^ 63 → cs_new s + d <= 2 ^ 63 →
  let s' := catch_up s d in
  reaches (cs_composed s') (cs_old s') (cs_new s')
  ∧ cs_old s' = cs_old s + d ∧ cs_new s' = cs_new s + d
  ∧ (∀ x y, done_so_far s' x y ↔
       done_so_far s x y ∨ (cs_old s <= x ∧ x < cs_old s + d ∧ x + cs_new s = y + cs_old s)).
Proof.
  intros Hr ? ?. unfold catch_up, done_so_far. cbn [cs_composed cs_old cs_new].
  rewrite !p_add_exact by done. split_and!; [|done|done|].
  { destruct Hr as [(? & ? & ? & ?) ?]. split; [|done]. split_and!; try done; lia. }
  intros x y.
  enough (cs_old s <= x → kept (cs_composed s) x y ↔ x + cs_new s = y + cs_old s) as Hk.
  { destruct (decide (cs_old s <= x)) as [Hx|]; [rewrite (Hk Hx)|]; intuition lia. }
  intros Hx. by apply (kept_beyond _ 0 0); [apply Hr|].
Qed.

(** The invariant of [compose]'s loop: [c] is the position in the middle text up to
    which both patches are composed. *)
Record loop_inv (s : compose_state N) (c : N) (P Q : patch) : Prop := {
  li_reaches : reaches (cs_composed s) (cs_old s) (cs_new s);
  li_old : valid_from (cs_old s) c P;
  li_new : valid_from c (cs_new s) Q;
  li_old_bounds : in_bounds P;
  li_new_bounds : in_bounds Q;
  li_mid : c <= POSITION_BOUND;
  li_old_mid : cs_old s <= c + POSITION_BOUND;
  li_new_mid : cs_new s <= c + POSITION_BOUND
}.

(** The characters kept by what is composed and by the composition of what is left. *)
Definition whole (s : compose_state N) (c : N) (P Q : patch) (x y : N) : Prop :=
  done_so_far s x y ∨ ∃ z, kept_from (cs_old s) c P x z ∧ kept_from c (cs_new s) Q z y.

(** A step of the loop keeps the invariant and the whole. *)
Definition step_ok s c P Q s' c' P' Q' : Prop :=
  loop_inv s' c' P' Q' ∧ ∀ x y, whole s c P Q x y ↔ whole s' c' P' Q' x y.

Lemma step_ok_trans s c P Q s1 c1 P1 Q1 s2 c2 P2 Q2 :
  step_ok s c P Q s1 c1 P1 Q1 → step_ok s1 c1 P1 Q1 s2 c2 P2 Q2 → step_ok s c P Q s2 c2 P2 Q2.
Proof. intros [_ H1] [? H2]. split; [done|]. intros x y. by rewrite H1, H2. Qed.

Lemma advance_ok s c P Q d :
  loop_inv s c P Q → starts_after (cs_old s) c d P → starts_after c (cs_new s) d Q →
  c + d <= POSITION_BOUND → step_ok s c P Q (catch_up s d) (c + d) P Q.
Proof.
  intros [Hr HP HQ ? ? Hc Ho Hn] HaP HaQ Hcd. unfold POSITION_BOUND in *.
  destruct (catch_up_spec s d Hr) as (Hr' & Ho' & Hn' & Hd); [lia|lia|]. cbn zeta in *.
  pose proof (valid_shift _ _ _ _ HP HaP) as HP'. pose proof (valid_shift _ _ _ _ HQ HaQ) as HQ'.
  rewrite <-Ho' in HP'. rewrite <-Hn' in HQ'. split.
  { split; unfold POSITION_BOUND; (done || lia). }
  intros x y. unfold whole. rewrite Hd. rewrite Ho', Hn' in *. split.
  - intros [?|(z & HkP & HkQ)]; [by auto|].
    rewrite (kept_shift _ _ _ d) in HkP by done. destruct HkP as [?|HkP].
    + rewrite (kept_shift _ _ _ d) in HkQ by done. left. right. destruct HkQ as [?|HkQ]; [lia|].
      pose proof (kept_lower _ _ _ _ _ HQ' HkQ). lia.
    + right. exists z. split; [done|]. apply kept_shift_old; try done.
      pose proof (kept_lower _ _ _ _ _ HP' HkP). lia.
  - intros [[?|?]|(z & HkP & HkQ)]; [by auto| |]; right.
    + exists (x + c - cs_old s). rewrite (kept_shift P _ _ d), (kept_shift Q _ _ d) by done. lia.
    + exists z. rewrite (kept_shift P _ _ d), (kept_shift Q _ _ d) by done. auto.
Qed.

(** Part of the head edit of one patch, or of both, at the current positions. *)
Definition rest_of (e : TextEdit N) (o m : N) : TextEdit N :=
  mkEdit (mkRange o (oe e)) (mkRange m (ne e)).

Lemma kept_rest e p o m x y :
  kept_from o m (rest_of e o m :: p) x y ↔ kept_from (oe e) (ne e) p x y.
Proof. by apply (kept_head (rest_of e o m)). Qed.

Lemma consume_old_ok s c e P Q o' c' :
  loop_inv s c (e :: P) Q → os e = cs_old s → starts_after c (cs_new s) (c' - c) Q →
  cs_old s <= o' → o' <= oe e → c <= c' → c' <= ne e →
  step_ok s c (e :: P) Q (emit s o' (cs_new s + (c' - c))) c' (rest_of e o' c' :: P) Q.
Proof.
  intros [Hr HP HQ HbP ? Hc Ho Hn] He HaQ ? ? ? ?.
  destruct (emit_spec s o' (cs_new s + (c' - c)) Hr) as (Hr' & Ho' & Hn' & Hd); [lia|lia|].
  cbn zeta in *. pose proof (valid_shift _ _ _ _ HQ HaQ) as HQ'.
  replace (c + (c' - c)) with c' in HQ' by lia.
  inversion HbP; subst. simpl in HP. split.
  - rewrite <-Ho', <-Hn' in Hr'. split; rewrite ?Ho', ?Hn'; try done.
    + simpl. split; [lia|apply HP].
    + constructor; done.
    + lia.
    + lia.
    + lia.
  - intros x y. unfold whole. rewrite Hd, Ho', Hn'. f_equiv. f_equiv. intros z.
    rewrite kept_rest, kept_head by done.
    split; intros [HkP HkQ]; (split; [done|]); revert HkQ;
      pose proof (kept_lower _ _ _ _ _ (proj2 HP) HkP);
      rewrite (kept_shift_old _ c _ (c' - c)) by (done || lia);
      by replace (c + (c' - c)) with c' by lia.
Qed.

Lemma consume_new_ok s c P f Q n' c' :
  loop_inv s c P (f :: Q) → os f = c → starts_after (cs_old s) c (c' - c) P →
  cs_new s <= n' → n' <= ne f → c <= c' → c' <= oe f →
  step_ok s c P (f :: Q) (emit s (cs_old s + (c' - c)) n') c' P (rest_of f c' n' :: Q).
Proof.
  intros [Hr HP HQ ? HbQ Hc Ho Hn] Hf HaP ? ? ? ?.
  destruct (emit_spec s (cs_old s + (c' - c)) n' Hr) as (Hr' & Ho' & Hn' & Hd); [lia|lia|].
  cbn zeta in *. pose proof (valid_shift _ _ _ _ HP HaP) as HP'.
  replace (c + (c' - c)) with c' in HP' by lia.
  inversion HbQ; subst. simpl in HQ. split.
  - rewrite <-Ho', <-Hn' in Hr'. split; rewrite ?Ho', ?Hn'; try done; try lia.
    + simpl. split; [lia|apply HQ].
    + constructor; done.
  - intros x y. unfold whole. rewrite Hd, Ho', Hn'. f_equiv. f_equiv. intros z.
    rewrite kept_rest, kept_head by done.
    split; intros [HkP HkQ]; (split; [|done]); revert HkP;
      pose proof (kept_lower _ _ _ _ _ (proj2 HQ) HkQ);
      rewrite (kept_shift_new _ (cs_old s) _ (c' - os f)) by (done || lia);
      by replace (os f + (c' - os f)) with c' by lia.
Qed.

Lemma consume_both_ok s c e P f Q o' c' n' :
  loop_inv s c (e :: P) (f :: Q) → os e = cs_old s → os f = c →
  cs_old s <= o' → o' <= oe e → c <= c' → c' <= ne e → c' <= oe f →
  cs_new s <= n' → n' <= ne f →
  step_ok s c (e :: P) (f :: Q) (emit s o' n') c' (rest_of e o' c' :: P) (rest_of f c' n' :: Q).
Proof.
  intros [Hr HP HQ HbP HbQ Hc Ho Hn] He Hf ? ? ? ? ? ? ?.
  destruct (emit_spec s o' n' Hr) as (Hr' & Ho' & Hn' & Hd); [lia|lia|]. cbn zeta in *.
  inversion HbP; inversion HbQ; subst. simpl in HP, HQ. split.
  - rewrite <-Ho', <-Hn' in Hr'. split; rewrite ?Ho', ?Hn'; try done; try lia.
    + simpl. split; [lia|apply HP].
    + simpl. split; [lia|apply HQ].
    + constructor; done.
    + constructor; done.
  - intros x y. unfold whole. rewrite Hd, Ho', Hn'. f_equiv. f_equiv. intros z.
    by rewrite !kept_rest, !kept_head.
Qed.

(** A head edit that is used up. *)
Lemma drop_old_ok s c e P Q :
  oe e = cs_old s → ne e = c → loop_inv s c (rest_of e (cs_old s) c :: P) Q →
  step_ok s c (rest_of e (cs_old s) c :: P) Q s c P Q.
Proof.
  intros Ho Hn [Hr HP HQ HbP HbQ Hc ? ?]. split.
  - simpl in HP. destruct HP as [_ HP]. rewrite Ho, Hn in HP. inversion HbP. by split.
  - intros x y. unfold whole. f_equiv. f_equiv. intros z. by rewrite kept_rest, Ho, Hn.
Qed.

Lemma drop_new_ok s c P f Q :
  oe f = c → ne f = cs_new s → loop_inv s c P (rest_of f c (cs_new s) :: Q) →
  step_ok s c P (rest_of f c (cs_new s) :: Q) s c P Q.
Proof.
  intros Ho Hn [Hr HP HQ HbP HbQ Hc ? ?]. split.
  - simpl in HQ. destruct HQ as [_ HQ]. rewrite Ho, Hn in HQ. inversion HbQ. by split.
  - intros x y. unfold whole. f_equiv. f_equiv. intros z. by rewrite kept_rest, Ho, Hn.
Qed.

(** No [usize] operation of a step wraps. *)
Ltac exact_arith :=
  unfold old_len, new_len, POSITION_BOUND in *;
  repeat first [rewrite ord_min_N | rewrite p_sub_exact by lia | rewrite p_add_exact by lia].

Lemma advance_positions s c P Q d :
  loop_inv s c P Q → c + d <= POSITION_BOUND →
  cs_old (catch_up s d) = cs_old s + d ∧ cs_new (catch_up s d) = cs_new s + d.
Proof.
  intros [? ? ? ? ? ? ? ?] ?. unfold catch_up. cbn [cs_old cs_new]. exact_arith. done.
Qed.

(** Where the edits of [P] and [Q] start is found out after catching up by [d]. *)
Ltac start_after :=
  repeat match goal with H : loop_inv _ _ _ _ |- _ => destruct H as [_ ? ? _ _ _ _ _] end;
  repeat match goal with Q : Patch N |- _ => destruct Q end;
  simpl in *; try done; lia.

Lemma push_old_edit_ok s c e P Q :
  loop_inv s c (e :: P) Q → match Q with [] => True | f :: _ => ne e <= os f end →
  step_ok s c (e :: P) Q (push_old_edit s e) (ne e) P Q.
Proof.
  intros Hinv HQe. pose proof Hinv as [Hr [HP _] HQ HbP HbQ Hc Ho Hn].
  inversion HbP as [|? ? [? ?] ?]; subst.
  unfold push_old_edit. replace (p_sub (os e) (cs_old s)) with (ns e - c) by (exact_arith; lia).
  destruct (advance_positions s c (e :: P) Q (ns e - c)) as [E1 E2]; [done|lia|].
  assert (Hadv : step_ok s c (e :: P) Q (catch_up s (ns e - c)) (ns e) (e :: P) Q).
  { replace (ns e) with (c + (ns e - c)) at 2 by lia.
    apply advance_ok; [done| | |lia]; start_after. }
  set (s1 := catch_up s (ns e - c)) in *. cbn zeta.
  replace (p_add (cs_old s1) (old_len e)) with (oe e) by (exact_arith; lia).
  replace (p_add (cs_new s1) (new_len e)) with (cs_new s1 + (ne e - ns e)) by (exact_arith; lia).
  assert (Hcon : step_ok s1 (ns e) (e :: P) Q (emit s1 (oe e) (cs_new s1 + (ne e - ns e))) (ne e)
                   (rest_of e (oe e) (ne e) :: P) Q).
  { apply consume_old_ok; try lia; [apply Hadv|]. destruct Hadv as [Hinv' _]. clear Hinv. start_after. }
  eapply step_ok_trans; [exact Hadv|]. eapply step_ok_trans; [exact Hcon|].
  by apply drop_old_ok; [..|apply Hcon].
Qed.

Lemma push_new_edit_ok s c P f Q :
  loop_inv s c P (f :: Q) → match P with [] => True | e :: _ => oe f <= ns e end →
  step_ok s c P (f :: Q) (push_new_edit s f) (oe f) P Q.
Proof.
  intros Hinv HPf. pose proof Hinv as [Hr HP [HQ _] HbP HbQ Hc Ho Hn].
  inversion HbQ as [|? ? [? ?] ?]; subst.
  unfold push_new_edit. replace (p_sub (ns f) (cs_new s)) with (os f - c) by (exact_arith; lia).
  destruct (advance_positions s c P (f :: Q) (os f - c)) as [E1 E2]; [done|lia|].
  assert (Hadv : step_ok s c P (f :: Q) (catch_up s (os f - c)) (os f) P (f :: Q)).
  { replace (os f) with (c + (os f - c)) at 2 by lia.
    apply advance_ok; [done| | |lia]; start_after. }
  set (s1 := catch_up s (os f - c)) in *. cbn zeta.
  replace (p_add (cs_old s1) (old_len f)) with (cs_old s1 + (oe f - os f)) by (exact_arith; lia).
  replace (p_add (cs_new s1) (new_len f)) with (ne f) by (exact_arith; lia).
  assert (Hcon : step_ok s1 (os f) P (f :: Q) (emit s1 (cs_old s1 + (oe f - os f)) (ne f)) (oe f)
                   P (rest_of f (oe f) (ne f) :: Q)).
  { apply consume_new_ok; try lia; [apply Hadv|]. destruct Hadv as [Hinv' _]. clear Hinv. start_after. }
  eapply step_ok_trans; [exact Hadv|]. eapply step_ok_trans; [exact Hcon|].
  by apply drop_new_ok; [..|apply Hcon].
Qed.

Lemma emit_positions s (o n : N) : cs_old (emit s o n) = o ∧ cs_new (emit s o n) = n.
Proof. done. Qed.

(** After the first half both head edits start at the current positions. *)
Lemma compose_heads_ok s c e P f Q :
  loop_inv s c (e :: P) (f :: Q) → os f <= ne e → ns e <= oe f →
  let '(s', e', f') := compose_heads s e f in
  ∃ c', step_ok s c (e :: P) (f :: Q) s' c' (e' :: P) (f' :: Q)
    ∧ os e' = cs_old s' ∧ os f' = c' ∧ ns e' = c' ∧ ns f' = cs_new s'.
Proof.
  intros Hinv Hef Hfe. pose proof Hinv as [Hr [HP _] [HQ _] HbP HbQ Hc Ho Hn].
  inversion HbP as [|? ? [? ?] ?]; inversion HbQ as [|? ? [? ?] ?]; subst.
  unfold compose_heads. rewrite ltb_N. destruct (N.ltb_spec (ns e) (os f)).
  - replace (p_sub (os e) (cs_old s)) with (ns e - c) by (exact_arith; lia).
    destruct (advance_positions s c (e :: P) (f :: Q) (ns e - c)) as [E1 E2]; [done|lia|].
    assert (Hadv : step_ok s c (e :: P) (f :: Q) (catch_up s (ns e - c)) (ns e) (e :: P) (f :: Q)).
    { replace (ns e) with (c + (ns e - c)) at 2 by lia.
      apply advance_ok; [done| | |lia]; start_after. }
    set (s1 := catch_up s (ns e - c)) in *. cbn zeta.
    replace (p_add (cs_new s1) (p_sub (os f) (ns e))) with (cs_new s1 + (os f - ns e))
      by (exact_arith; lia).
    replace (p_add (ns e) (p_sub (os f) (ns e))) with (os f) by (exact_arith; lia).
    set (o' := ord_min _ _).
    assert (Ho' : cs_old s1 <= o' ∧ o' <= oe e) by (unfold o'; exact_arith; lia).
    exists (os f). rewrite !(proj1 (emit_positions _ _ _)), !(proj2 (emit_positions _ _ _)).
    split; [|cbn [rest_of old new_ r_start r_end]; split_and!; try done; lia].
    eapply step_ok_trans; [exact Hadv|].
    apply consume_old_ok; try lia; [apply Hadv|]. start_after.
  - replace (p_sub (ns f) (cs_new s)) with (os f - c) by (exact_arith; lia).
    destruct (advance_positions s c (e :: P) (f :: Q) (os f - c)) as [E1 E2]; [done|lia|].
    assert (Hadv : step_ok s c (e :: P) (f :: Q) (catch_up s (os f - c)) (os f) (e :: P) (f :: Q)).
    { replace (os f) with (c + (os f - c)) at 2 by lia.
      apply advance_ok; [done| | |lia]; start_after. }
    set (s1 := catch_up s (os f - c)) in *. cbn zeta.
    replace (p_add (cs_old s1) (p_sub (ns e) (os f))) with (cs_old s1 + (ns e - os f))
      by (exact_arith; lia).
    replace (p_add (os f) (p_sub (ns e) (os f))) with (ns e) by (exact_arith; lia).
    set (n' := ord_min _ _).
    assert (Hn' : cs_new s1 <= n' ∧ n' <= ne f) by (unfold n'; exact_arith; lia).
    exists (ns e). rewrite !(proj1 (emit_positions _ _ _)), !(proj2 (emit_positions _ _ _)).
    split; [|cbn [rest_of old new_ r_start r_end]; split_and!; try done; lia].
    eapply step_ok_trans; [exact Hadv|].
    apply consume_new_ok; try lia; [apply Hadv|]. start_after.
Qed.

(** The second half, when the new edit ends first, and when the old one does. *)
Lemma finish_new_ok s c e P f Q :
  loop_inv s c (e :: P) (f :: Q) → os e = cs_old s → os f = c → ns e = c → ns f = cs_new s →
  oe f <= ne e →
  let o' := p_add (cs_old s) (ord_min (old_len e) (old_len f)) in
  step_ok s c (e :: P) (f :: Q) (emit s o' (p_add (cs_new s) (new_len f))) (oe f)
    (rest_of e o' (oe f) :: P) Q.
Proof.
  intros Hinv He Hf He2 Hf2 Hle. pose proof Hinv as [Hr [HP _] [HQ _] HbP HbQ Hc Ho Hn].
  inversion HbP as [|? ? [? ?] ?]; inversion HbQ as [|? ? [? ?] ?]; subst. intros o'.
  assert (Ho' : cs_old s <= o' ∧ o' <= oe e) by (unfold o'; exact_arith; lia).
  replace (p_add (cs_new s) (new_len f)) with (ne f) by (exact_arith; lia).
  assert (Hb : step_ok s (os f) (e :: P) (f :: Q) (emit s o' (ne f)) (oe f)
                 (rest_of e o' (oe f) :: P) (rest_of f (oe f) (ne f) :: Q)).
  { apply consume_both_ok; (done || lia). }
  eapply step_ok_trans; [exact Hb|]. by apply drop_new_ok; [..|apply Hb].
Qed.

Lemma finish_old_ok s c e P f Q :
  loop_inv s c (e :: P) (f :: Q) → os e = cs_old s → os f = c → ns e = c → ns f = cs_new s →
  ne e <= oe f →
  let n' := p_add (cs_new s) (ord_min (new_len e) (new_len f)) in
  step_ok s c (e :: P) (f :: Q) (emit s (p_add (cs_old s) (old_len e)) n') (ne e)
    P (rest_of f (ne e) n' :: Q).
Proof.
  intros Hinv He Hf He2 Hf2 Hle. pose proof Hinv as [Hr [HP _] [HQ _] HbP HbQ Hc Ho Hn].
  inversion HbP as [|? ? [? ?] ?]; inversion HbQ as [|? ? [? ?] ?]; subst. intros n'.
  assert (Hn' : cs_new s <= n' ∧ n' <= ne f) by (unfold n'; exact_arith; lia).
  replace (p_add (cs_old s) (old_len e)) with (oe e) by (exact_arith; lia).
  assert (Hb : step_ok s (os f) (e :: P) (f :: Q) (emit s (oe e) n') (ne e)
                 (rest_of e (oe e) (ne e) :: P) (rest_of f (ne e) n' :: Q)).
  { apply consume_both_ok; (done || lia). }
  eapply step_ok_trans; [exact Hb|]. by apply drop_old_ok; [..|apply Hb].
Qed.

Lemma whole_end s c x y : loop_inv s c [] [] → whole s c [] [] x y ↔ kept (cs_composed s) x y.
Proof.
  intros [Hr _ _ _ _ _ _ _]. unfold whole, done_so_far. simpl.
  destruct (decide (cs_old s <= x)) as [Hx|Hx].
  - rewrite (kept_beyond _ 0 0 _ _ x y (proj1 Hr) Hx). split.
    + intros [?|(z & ? & ?)]; lia.
    + intros. right. exists (x + c - cs_old s). lia.
  - split; [intros [?|(z & ? & ?)]; [tauto|lia]|]. intros. left. split; [done|lia].
Qed.

Lemma compose_loop_ok fuel : ∀ s c P Q,
  loop_inv s c P Q → (length P + length Q < fuel)%nat →
  ok_with (compose_loop fuel P Q s)
    (fun r => valid r ∧ canonical r ∧ ∀ x y, kept r x y ↔ whole s c P Q x y).
Proof.
  induction fuel as [|fuel IH]; intros s c P Q Hinv Hlen; [lia|].
  assert (Hgo : ∀ s' c' P' Q', step_ok s c P Q s' c' P' Q' → (length P' + length Q' < fuel)%nat →
    ok_with (compose_loop fuel P' Q' s')
      (fun r => valid r ∧ canonical r ∧ ∀ x y, kept r x y ↔ whole s c P Q x y)).
  { intros s' c' P' Q' [Hinv' Hw] Hlen'. eapply ok_with_mono; [by apply (IH s' c')|].
    cbn beta. intros r (? & ? & Hk). split_and!; [done..|]. intros x y. by rewrite Hk, Hw. }
  simpl. destruct P as [|e P], Q as [|f Q].
  - pose proof (li_reaches _ _ _ _ Hinv) as Hr. split; [apply Hr|]. split; [apply Hr|].
    intros x y. by rewrite whole_end.
  - eapply Hgo; [by apply push_new_edit_ok|]. simpl in *; lia.
  - eapply Hgo; [by apply push_old_edit_ok|]. simpl in *; lia.
  - rewrite (ltb_N (ne e)). destruct (N.ltb_spec (ne e) (os f)).
    { eapply Hgo; [apply push_old_edit_ok; [done|lia]|]. simpl in *; lia. }
    rewrite (ltb_N (oe f)). destruct (N.ltb_spec (oe f) (ns e)).
    { eapply Hgo; [apply push_new_edit_ok; [done|lia]|]. simpl in *; lia. }
    pose proof (compose_heads_ok s c e P f Q Hinv) as Hh.
    destruct (compose_heads s e f) as [[s' e'] f'].
    destruct Hh as (c' & Hst & He & Hf & He2 & Hf2); [done..|]. rewrite ltb_N.
    destruct (N.ltb_spec (oe f') (ne e')); (eapply Hgo; [|simpl in *; lia]);
      (eapply step_ok_trans; [exact Hst|]).
    + apply finish_new_ok; (apply Hst || done || lia).
    + apply finish_old_ok; (apply Hst || done || lia).
Qed.

Lemma compose_fits (p q : patch) (lo lm ln : N) :
  lo <= POSITION_BOUND → lm <= POSITION_BOUND → ln <= POSITION_BOUND →
  fits p lo lm → fits q lm ln →
  ok_with (patch_compose p q)
    (fun r => fits r lo ln ∧ canonical r ∧ ∀ x y, kept r x y ↔ ∃ z, kept p x z ∧ kept q z y).
Proof.
  intros ? ? ? Hp Hq. set (s := mkState [] 0 0).
  assert (Hinv : loop_inv s 0 p q).
  { split; simpl; try (unfold POSITION_BOUND; lia); [|by apply Hp|by apply Hq|by eapply fits_in_bounds..].
    by repeat split. }
  eapply ok_with_mono; [by apply (compose_loop_ok _ s 0); [|apply Nat.lt_succ_diag_r]|].
  cbn beta. intros r (Hv & Hs & Hk).
  assert (Hk' : ∀ x y, kept r x y ↔ ∃ z, kept p x z ∧ kept q z y).
  { intros x y. rewrite Hk. unfold whole, done_so_far. cbn [s cs_composed cs_old cs_new].
    split; [intros [[_ ?]|?]; [lia|done]|by right]. }
  split_and!; [|done..]. apply fits_intro; [done..|]. intros d. apply Hk'. exists (lm + d).
  split; [apply (kept_beyond p 0 0 lo lm)|apply (kept_beyond q 0 0 lm ln)]; (done || lia).
Qed.

(** C33: composing a patch from one text to a second with a patch from the second to a
    third always returns, and returns a patch from the first text to the third, with
    its edits non-empty, apart from each other and in order, that keeps exactly the
    characters that both patches keep, where the two of them take these.  No [usize]
    computation wraps as long as the texts are no longer than [POSITION_BOUND]. *)
Theorem compose_correct (p q : patch) (lo lm ln : N) :
  lo <= POSITION_BOUND → lm <= POSITION_BOUND → ln <= POSITION_BOUND →
  fits p lo lm → fits q lm ln →
  ok_with (patch_compose p q)
    (fun r => fits r lo ln ∧ canonical r ∧ ∀ x y, kept r x y ↔ ∃ z, kept p x z ∧ kept q z y).
Proof. exact (compose_fits p q lo lm ln). Qed.

(** Deleting [2..5] and inserting two characters, then replacing [1..3]. *)
Definition sample_old_patch : patch := [mkEdit (mkRange 2 5) (mkRange 2 4); mkEdit (mkRange 9 9) (mkRange 8 9)].
Definition sample_new_patch : patch := [mkEdit (mkRange 1 3) (mkRange 1 4)].

Lemma sample_fits : fits sample_old_patch 12 12 ∧ fits sample_new_patch 12 13.
Proof. unfold fits_from. simpl. lia. Defined.

Lemma compose_correct_witness :
  patch_compose sample_old_patch sample_new_patch =
    Ok [mkEdit (mkRange 1 5) (mkRange 1 5); mkEdit (mkRange 9 9) (mkRange 9 10)]
  ∧ ok_with (patch_compose sample_old_patch sample_new_patch)
      (fun r => fits r 12 13 ∧ canonical r
        ∧ ∀ x y, kept r x y ↔ ∃ z, kept sample_old_patch x z ∧ kept sample_new_patch z y).
Proof.
  split; [vm_compute; reflexivity|].
  apply (compose_correct _ _ 12 12 13); [unfold POSITION_BOUND; lia..| |]; apply sample_fits.
Defined.

(** ** Inverting a patch *)
Lemma fits_from_flip p : ∀ a b lo ln, fits_from a b p lo ln → fits_from b a (patch_invert p) ln lo.
Proof.
  induction p as [|e p IH]; intros a b lo ln (Hv & H1 & H2 & H3); unfold fits_from; simpl in *; [lia|].
  destruct (IH (oe e) (ne e) lo ln) as (? & ? & ? & ?); [by split; [apply Hv|]|].
  split_and!; try done; lia.
Qed.

Lemma canonical_flip p : canonical p → canonical (patch_invert p).
Proof.
  induction p as [|e p IH]; [done|]. intros (H1 & H2 & H3). specialize (IH H3).
  simpl. split; [tauto|]. split; [|done]. destruct p; simpl; tauto.
Qed.

Lemma kept_flip p : ∀ a b x y, valid_from a b p → kept_from b a (patch_invert p) y x ↔ kept_from a b p x y.
Proof.
  induction p as [|e p IH]; intros a b x y Hv; simpl in *; [lia|].
  rewrite (IH (oe e) (ne e)) by apply Hv. intuition lia.
Qed.

(** A position is kept at most once. *)
Lemma kept_functional p : ∀ a b x y y', valid_from a b p →
  kept_from a b p x y → kept_from a b p x y' → y = y'.
Proof.
  induction p as [|e p IH]; intros a b x y y' Hv; simpl in *; [lia|]. destruct Hv as [Hv0 Hv].
  intros [?|H1] [?|H2]; [lia|apply kept_lower in H2; [lia|done]|apply kept_lower in H1; [lia|done]|].
  by eapply IH.
Qed.

(** Inverting a patch between two texts gives a patch back, of the same form, that
    keeps the same characters in the other direction; inverting twice changes nothing. *)
Theorem invert_correct (p : patch) (lo ln : N) :
  fits p lo ln → canonical p →
  fits (patch_invert p) ln lo ∧ canonical (patch_invert p)
  ∧ (∀ x y, kept (patch_invert p) y x ↔ kept p x y) ∧ patch_invert (patch_invert p) = p.
Proof.
  intros Hf Hc. split_and!; [by apply fits_from_flip|by apply canonical_flip| |].
  - intros x y. apply kept_flip, Hf.
  - unfold patch_invert. rewrite <-list_fmap_compose. rewrite <-(list_fmap_id p) at 2.
    apply list_fmap_ext. by intros ? [[? ?] [? ?]] ?.
Qed.

Lemma invert_correct_witness :
  fits (patch_invert sample_old_patch) 12 12
  ∧ ∀ x y, kept (patch_invert sample_old_patch) y x ↔ kept sample_old_patch x y.
Proof.
  destruct (invert_correct sample_old_patch 12 12) as (H1 & _ & H2 & _).
  - apply sample_fits.
  - simpl. lia.
  - exact (conj H1 H2).
Defined.

(** ** Translating positions *)
Lemma search_shift (p : patch) x : ∀ ix,
  search_old_start p x (S ix) =
    match search_old_start p x ix with inl i => inl (S i) | inr i => inr (S i) end.
Proof. induction p as [|e p IH]; intros ix; simpl; [done|]. destruct (cmp _ _); auto. Qed.

Lemma search_head_after (p : patch) x ix :
  match p with [] => True | e :: _ => x < os e end → search_old_start p x ix = inr ix.
Proof.
  destruct p as [|e p]; simpl; [done|]. intros H. unfold cmp, N_ord.
  by replace (os e ?= x) with Gt by (symmetry; apply N.compare_gt_iff; lia).
Qed.

Lemma edit_index_cons e p x a b :
  valid_from a b (e :: p) → canonical (e :: p) →
  edit_index (e :: p) x =
    if x <? os e then None
    else Some (match edit_index p x with Some i => S i | None => 0%nat end).
Proof.
  intros [Hv _] (_ & Hc & _). unfold edit_index. simpl. unfold cmp, N_ord.
  destruct (N.ltb_spec x (os e)) as [Hlt|Hge].
  { by replace (os e ?= x) with Gt by (symmetry; apply N.compare_gt_iff; lia). }
  destruct (os e ?= x) eqn:E.
  - apply N.compare_eq_iff in E. rewrite search_head_after; [done|].
    destruct p; simpl in *; [done|lia].
  - rewrite search_shift. by destruct (search_old_start p x 0) as [?|[|?]].
  - apply N.compare_gt_iff in E. lia.
Qed.

Lemma starts_beyond p : ∀ o m,
  valid_from o m p → match p with [] => True | e :: _ => o < os e end → canonical p →
  Forall (fun e => o < os e) p.
Proof.
  induction p as [|e p IH]; [by constructor|]. intros o m [Hv0 Hv] Ho (_ & Hs1 & Hs).
  constructor; [done|].
  eapply Forall_impl; [apply (IH (oe e) (ne e)); [done| |done]|].
  - destruct p; lia.
  - simpl. lia.
Qed.

(** The edit both lookups go on with is the last one that starts at or before [x]. *)
Lemma edit_index_spec p : ∀ a b x,
  valid_from a b p → canonical p → a <= x →
  match edit_index p x with
  | None => Forall (fun e => x < os e) p ∧ kept_from a b p x (x + b - a)
  | Some i => ∃ e, p !! i = Some e ∧ os e <= x
      ∧ (∀ e', e' ∈ p → os e' <= x → x <= oe e' → e' = e)
      ∧ (oe e <= x → kept_from a b p x (ne e + (x - oe e)))
      ∧ (x < oe e → ∀ y, ¬ kept_from a b p x y)
  end.
Proof.
  induction p as [|e p IH]; intros a b x Hv Hs Hx.
  { simpl. split; [done|lia]. }
  rewrite (edit_index_cons _ _ _ _ _ Hv Hs). destruct Hv as [Hv0 Hv], Hs as (Hs0 & Hs1 & Hs).
  assert (Hup : Forall (fun e' => oe e < os e') p)
    by (eapply starts_beyond; [done| |done]; destruct p; [done|lia]).
  destruct (N.ltb_spec x (os e)) as [Hlt|Hge].
  { split; [|left; lia]. constructor; [done|]. eapply Forall_impl; [exact Hup|]. simpl. lia. }
  destruct (decide (oe e <= x)) as [Hle|Hnle].
  - specialize (IH (oe e) (ne e) x Hv Hs Hle).
    destruct (edit_index p x) as [i|]; simpl.
    + destruct IH as (f & Hf & ? & Hu & Hk & Hn). exists f. split_and!; [done..| | |].
      * intros e' [->|He']%elem_of_cons ? ?; [|by apply Hu].
        rewrite Forall_forall in Hup. apply list_elem_of_lookup_2 in Hf. specialize (Hup _ Hf). lia.
      * intros. right. by apply Hk.
      * intros ? y [?|?]; [lia|]. by eapply Hn.
    + destruct IH as [Hgt Hk]. exists e. split_and!; [done..| | |].
      * intros e' [->|He']%elem_of_cons ? ?; [done|]. rewrite Forall_forall in Hgt.
        specialize (Hgt _ He'). lia.
      * intros. right. by replace (ne e + (x - oe e)) with (x + ne e - oe e) by lia.
      * lia.
  - assert (Hnone : edit_index p x = None).
    { unfold edit_index. rewrite search_head_after; [done|].
      destruct p; [done|]. inversion Hup. lia. }
    rewrite Hnone. exists e. split_and!; [done..| |lia|].
    + intros e' [->|He']%elem_of_cons ? ?; [done|]. rewrite Forall_forall in Hup.
      specialize (Hup _ He'). lia.
    + intros _ y [?|Hk]; [lia|]. apply kept_lower in Hk; [lia|done].
Qed.

Lemma kept_upper p : ∀ a b x y lo ln, fits_from a b p lo ln → kept_from a b p x y → x <= lo → y <= ln.
Proof.
  induction p as [|e p IH]; intros a b x y lo ln (Hv & H1 & H2 & H3) Hk Hx; simpl in *; [lia|].
  destruct Hv as [Hv0 Hv], Hk as [?|Hk].
  - destruct (ends_upper _ _ _ Hv) as [_ ?]. lia.
  - by apply (IH (oe e) (ne e) x y lo ln).
Qed.

Lemma valid_lookup p : ∀ a b i e, valid_from a b p → p !! i = Some e → os e <= oe e ∧ ns e <= ne e.
Proof.
  induction p as [|e' p IH]; intros a b [|i] e Hv He; simplify_eq/=; [lia|].
  eapply IH; [apply Hv|done].
Qed.

(** [old_to_new] translates a position of the old text the way the patch moves the
    character kept there; a position inside replaced text goes to the start of its
    replacement. *)
Theorem old_to_new_correct (p : patch) (lo ln x : N) :
  lo <= POSITION_BOUND → ln <= POSITION_BOUND → fits p lo ln → canonical p → x <= lo →
  old_to_new p x <= ln
  ∧ (∀ y, kept p x y → old_to_new p x = y)
  ∧ (∀ e, e ∈ p → os e <= x → x < oe e → old_to_new p x = ns e).
Proof.
  intros Hlo Hln Hf Hc Hx. pose proof Hf as (Hv & ? & ? & ?).
  pose proof (fits_in_bounds _ _ _ Hf Hlo Hln) as Hb.
  pose proof (edit_index_spec p 0 0 x Hv Hc ltac:(lia)) as Hi. unfold old_to_new.
  destruct (edit_index p x) as [i|].
  - destruct Hi as (e & He & Hge & Hu & Hk & Hn). rewrite He, leb_N.
    pose proof (proj1 (Forall_lookup _ _) Hb _ _ He) as [? ?]. destruct (N.leb_spec (oe e) x) as [Hle|Hlt].
    + specialize (Hk Hle). pose proof (kept_upper _ _ _ _ _ _ _ Hf Hk Hx). exact_arith.
      split_and!; [done| |].
      * intros y Hy. by eapply kept_functional.
      * intros e' He' ? ?. rewrite (Hu e') in * by (done || lia). lia.
    + split_and!.
      * destruct (ends_upper _ _ _ Hv) as [Hne _].
        pose proof (proj1 (Forall_lookup _ _) Hne _ _ He) as [? ?].
        pose proof (valid_lookup _ _ _ _ _ Hv He). lia.
      * intros y Hy. by destruct (Hn Hlt y).
      * intros e' He' ? ?. by rewrite (Hu e') by (done || lia).
  - destruct Hi as [Hgt Hk]. replace (x + 0 - 0) with x in Hk by lia. split_and!.
    + by eapply kept_upper.
    + intros y Hy. by eapply kept_functional.
    + intros e He ? ?. rewrite Forall_forall in Hgt. specialize (Hgt _ He). lia.
Qed.

Lemma old_to_new_correct_witness :
  (old_to_new sample_old_patch 3 = 2 ∧ old_to_new sample_old_patch 5 = 4)
  ∧ old_to_new sample_old_patch 3 <= 12
  ∧ (∀ y, kept sample_old_patch 3 y → old_to_new sample_old_patch 3 = y)
  ∧ (∀ e, e ∈ sample_old_patch → os e <= 3 → 3 < oe e → old_to_new sample_old_patch 3 = ns e).
Proof.
  split; [split; vm_compute; reflexivity|].
  apply (old_to_new_correct _ 12 12 3); try (unfold POSITION_BOUND; lia); [apply sample_fits|].
  simpl. lia.
Defined.

(** [edit_for_old_position] returns the edit that touches the position, its end
    included, or, when there is none, the empty edit from the position to where the
    patch moves the character kept there. *)
Theorem edit_for_old_position_correct (p : patch) (lo ln x : N) :
  lo <= POSITION_BOUND → ln <= POSITION_BOUND → fits p lo ln → canonical p → x <= lo →
  (∀ e, e ∈ p → os e <= x → x <= oe e → edit_for_old_position p x = e)
  ∧ ((∀ e, e ∈ p → os e <= x → oe e < x) →
     ∃ y, kept p x y ∧ edit_for_old_position p x = mkEdit (mkRange x x) (mkRange y y)).
Proof.
  intros Hlo Hln Hf Hc Hx. pose proof Hf as (Hv & _).
  pose proof (fits_in_bounds _ _ _ Hf Hlo Hln) as Hb.
  pose proof (edit_index_spec p 0 0 x Hv Hc ltac:(lia)) as Hi. unfold edit_for_old_position.
  destruct (edit_index p x) as [i|].
  - destruct Hi as (e & He & Hge & Hu & Hk & Hn). rewrite He, ltb_N.
    pose proof (proj1 (Forall_lookup _ _) Hb _ _ He) as [? ?]. destruct (N.ltb_spec (oe e) x) as [Hlt|Hle].
    + split; [intros e' He' ? ?; rewrite (Hu e') in * by (done || lia); lia|]. intros _.
      specialize (Hk ltac:(lia)). pose proof (kept_upper _ _ _ _ _ _ _ Hf Hk Hx).
      eexists. split; [exact Hk|]. by exact_arith.
    + split; [intros e' He' ? ?; by rewrite (Hu e') by (done || lia)|].
      intros Hnt. apply list_elem_of_lookup_2 in He. specialize (Hnt _ He Hge). lia.
  - destruct Hi as [Hgt Hk]. replace (x + 0 - 0) with x in Hk by lia. split; [|by eauto].
    intros e He ? ?. rewrite Forall_forall in Hgt. specialize (Hgt _ He). lia.
Qed.

Lemma edit_for_old_position_correct_witness :
  edit_for_old_position sample_old_patch 5 = mkEdit (mkRange 2 5) (mkRange 2 4)
  ∧ (∀ e, e ∈ sample_old_patch → os e <= 5 → 5 <= oe e → edit_for_old_position sample_old_patch 5 = e).
Proof.
  split; [vm_compute; reflexivity|].
  apply (edit_for_old_position_correct _ 12 12 5); try (unfold POSITION_BOUND; lia); [apply sample_fits|].
  simpl. lia.
Defined.
