(* ===== verification/Subscription.v ===== *)
(** * Edit subscriptions: [crates/text/src/subscription.rs]

    A topic holds weak references to the patches of its subscriptions, which the
    subscribers own.  The patches live in a shared heap of [Arc]s; dropping a
    subscription frees its patch, and the topic finds out when it publishes next. *)

From stdpp Require Import gmap.
From S2P Require Import Prelude Ord Patch PatchFacts.

(** The address of an [Arc<Mutex<Patch<usize>>>]. *)
Definition ArcId : Type := nat.

(** The [Arc]s with a strong reference, and the first address never used. *)
Record Heap := mkHeap { h_arcs : gmap ArcId patch; h_next : ArcId }.

(** [Topic(Mutex<Vec<Weak<Mutex<Patch<T>>>>>)] *)
Definition Topic : Type := list ArcId.

Record World := mkWorld { w_heap : Heap; w_topic : Topic }.

Definition subscribe (w : World) : World * ArcId :=
  let id := h_next (w_heap w) in
  (mkWorld (mkHeap (<[id := []]> (h_arcs (w_heap w))) (S id)) (w_topic w ++ [id]), id).

(** [subscriptions.retain(..)]: compose the edits into the patches that can be
    upgraded, and forget the others. *)
Fixpoint publish_loop (subscriptions : Topic) (arcs : gmap ArcId patch) (edits : list (TextEdit N)) :
    outcome (Topic * gmap ArcId patch) :=
  match subscriptions with
  | [] => Ok ([], arcs)
  | id :: rest =>
      match arcs !! id with
      | Some p =>
          p' ← patch_compose p edits;
          '(kept_ids, arcs) ← publish_loop rest (<[id := p']> arcs) edits;
          Ok (id :: kept_ids, arcs)
      | None => publish_loop rest arcs edits
      end
  end.

Definition publish (w : World) (edits : list (TextEdit N)) : outcome World :=
  '(topic, arcs) ← publish_loop (w_topic w) (h_arcs (w_heap w)) edits;
  Ok (mkWorld (mkHeap arcs (h_next (w_heap w))) topic).

(** [mem::take(&mut *self.0.lock())], on a subscription its owner still holds. *)
Definition consume (w : World) (id : ArcId) : World * option patch :=
  match h_arcs (w_heap w) !! id with
  | Some p => (mkWorld (mkHeap (<[id := []]> (h_arcs (w_heap w))) (h_next (w_heap w))) (w_topic w), Some p)
  | None => (w, None)
  end.

(** The owner drops its subscription: the last strong reference goes away. *)
Definition drop_subscription (w : World) (id : ArcId) : World :=
  mkWorld (mkHeap (delete id (h_arcs (w_heap w))) (h_next (w_heap w))) (w_topic w).

(** ** What a topic promises

    Abstractly, each subscriber sees the sequence of patches published since it
    subscribed or last consumed. *)
Inductive Event :=
  | ESubscribe
  | EPublish (edits : list (TextEdit N))
  | EConsume (id : ArcId)
  | EDrop (id : ArcId).

Definition step (w : World) (ev : Event) : outcome World :=
  match ev with
  | ESubscribe => Ok (subscribe w).1
  | EPublish edits => publish w edits
  | EConsume id => Ok (consume w id).1
  | EDrop id => Ok (drop_subscription w id)
  end.

Fixpoint run (w : World) (evs : list Event) : outcome World :=
  match evs with
  | [] => Ok w
  | ev :: evs => w ← step w ev; run w evs
  end.

Definition initial : World := mkWorld (mkHeap ∅ 0) [].

(** The abstract state: the length of the text now, and of each subscriber the length
    of the text when it last looked and the patches published since. *)
Record Spec := mkSpec {
  sp_len : N;
  sp_since : gmap ArcId (N * list patch);
  sp_next : ArcId
}.

Inductive spec_step : Spec → Event → Spec → Prop :=
  | spec_subscribe len since next :
      spec_step (mkSpec len since next) ESubscribe
                (mkSpec len (<[next := (len, [])]> since) (S next))
  | spec_publish len since next edits len' :
      fits edits len len' → (len' <= POSITION_BOUND)%N →
      spec_step (mkSpec len since next) (EPublish edits)
                (mkSpec len' ((fun s => (s.1, s.2 ++ [edits])) <$> since) next)
  | spec_consume len since next id :
      spec_step (mkSpec len since next) (EConsume id)
                (mkSpec len (alter (fun _ => (len, [])) id since) next)
  | spec_drop len since next id :
      spec_step (mkSpec len since next) (EDrop id)
                (mkSpec len (delete id since) next).

Inductive spec_run : Spec → list Event → Spec → Prop :=
  | spec_run_nil sp : spec_run sp [] sp
  | spec_run_cons sp ev sp1 evs sp2 :
      spec_step sp ev sp1 → spec_run sp1 evs sp2 → spec_run sp (ev :: evs) sp2.

(** The characters a sequence of patches keeps. *)
Fixpoint kept_by (ps : list patch) (x y : N) : Prop :=
  match ps with
  | [] => x = y
  | p :: ps => ∃ z, kept p x z ∧ kept_by ps z y
  end.

(** [p] sums up the patches [ps] from a text of length [lo] to one of length [ln]. *)
Definition sums_up (p : patch) (lo : N) (ps : list patch) (ln : N) : Prop :=
  fits p lo ln ∧ canonical p ∧ (lo <= POSITION_BOUND)%N ∧ (ln <= POSITION_BOUND)%N
  ∧ ∀ x y, kept p x y ↔ kept_by ps x y.

(** The refinement relation. *)
Record refines (w : World) (sp : Spec) : Prop := {
  rf_next : h_next (w_heap w) = sp_next sp;
  rf_len : (sp_len sp <= POSITION_BOUND)%N;
  rf_fresh : ∀ id, is_Some (sp_since sp !! id) → (id < sp_next sp)%nat;
  rf_topic_fresh : ∀ id, id ∈ w_topic w → (id < sp_next sp)%nat;
  rf_topic_nodup : NoDup (w_topic w);
  rf_topic : ∀ id, is_Some (sp_since sp !! id) → id ∈ w_topic w;
  rf_patches : ∀ id,
    match h_arcs (w_heap w) !! id, sp_since sp !! id with
    | Some p, Some (lo, ps) => sums_up p lo ps (sp_len sp)
    | None, None => True
    | _, _ => False
    end
}.

Lemma kept_by_snoc ps p x y : kept_by (ps ++ [p]) x y ↔ ∃ z, kept_by ps x z ∧ kept p z y.
Proof.
  revert x. induction ps as [|q ps IH]; intros x; simpl.
  - split; [intros (z & ? & ->); eauto|intros (z & -> & ?); eauto].
  - setoid_rewrite IH. naive_solver.
Qed.

Lemma sums_up_nil l : (l <= POSITION_BOUND)%N → sums_up [] l [] l.
Proof.
  intros. unfold sums_up, fits_from. simpl. split_and!; try done; lia.
Qed.

Lemma sums_up_compose p lo ps lm edits ln :
  sums_up p lo ps lm → fits edits lm ln → (ln <= POSITION_BOUND)%N →
  ok_with (patch_compose p edits) (fun r => sums_up r lo (ps ++ [edits]) ln).
Proof.
  intros (Hf & Hc & ? & ? & Hk) He ?. eapply ok_with_mono; [by apply (compose_fits p edits lo lm ln)|].
  cbn beta. intros r (? & ? & Hkr). split_and!; try done. intros x y. rewrite Hkr, kept_by_snoc.
  f_equiv. intros z. by rewrite Hk.
Qed.

(** [publish] composes the edits into every live patch the topic knows of, and leaves
    the other patches alone. *)
Lemma publish_loop_ok subs : ∀ arcs edits (new_of : ArcId → patch → patch → Prop),
  NoDup subs →
  (∀ id p, id ∈ subs → arcs !! id = Some p → ok_with (patch_compose p edits) (new_of id p)) →
  ok_with (publish_loop subs arcs edits) (fun r =>
    r.1 = filter (fun id => is_Some (arcs !! id)) subs
    ∧ ∀ id, match arcs !! id, r.2 !! id with
            | Some p, Some p' => if decide (id ∈ subs) then new_of id p p' else p' = p
            | None, None => True
            | _, _ => False
            end).
Proof.
  induction subs as [|i subs IH]; intros arcs edits new_of Hnd Hnew.
  { split; [done|]. intros id. cbn [snd]. destruct (arcs !! id); [|done].
    destruct (decide (id ∈ [])) as [?%not_elem_of_nil|]; done. }
  apply NoDup_cons in Hnd as [Hi Hnd]. cbn [publish_loop].
  destruct (arcs !! i) as [p|] eqn:Ep.
  - ok_bind (Hnew i p); [by left|done|]. intros p' Hp'.
    ok_bind (IH (<[i := p']> arcs) edits new_of Hnd).
    { intros id q Hid. rewrite lookup_insert_ne by (intros ->; done).
      intros. apply Hnew; [by right|done]. }
    intros [ks arcs'] [Hks Harcs]. cbn [fst snd] in *. apply ok_with_ret. cbn [fst snd].
    split.
    + rewrite filter_cons_True by (by rewrite Ep). rewrite Hks. f_equal. apply list_filter_iff. intros id.
      destruct (decide (id = i)) as [->|]; [by rewrite lookup_insert_eq, Ep|by rewrite lookup_insert_ne].
    + intros id. specialize (Harcs id). destruct (decide (id = i)) as [->|Hne].
      * rewrite lookup_insert_eq in Harcs. rewrite Ep. destruct (arcs' !! i) as [q|]; [|done].
        rewrite decide_False in Harcs by done. subst. rewrite decide_True; [done|by left].
      * rewrite lookup_insert_ne in Harcs by done. destruct (arcs !! id), (arcs' !! id); try done.
        destruct (decide (id ∈ subs)).
        -- rewrite decide_True; [done|by right].
        -- rewrite decide_False; [done|]. by rewrite elem_of_cons; intros [?|?].
  - eapply ok_with_mono; [apply (IH arcs edits new_of Hnd)|].
    { intros. apply Hnew; [by right|done]. }
    cbn beta. intros [ks arcs'] [Hks Harcs]. cbn [fst snd] in *.
    rewrite filter_cons_False by (rewrite Ep; by intros [? ?]). split; [done|].
    intros id. specialize (Harcs id). destruct (arcs !! id) eqn:E, (arcs' !! id); try done.
    assert (id ≠ i) by congruence. destruct (decide (id ∈ subs)).
    + rewrite decide_True; [done|by right].
    + rewrite decide_False; [done|]. by rewrite elem_of_cons; intros [?|?].
Qed.

(** ** Every operation refines the promise *)
Lemma refines_publish w sp edits len' :
  refines w sp → fits edits (sp_len sp) len' → (len' <= POSITION_BOUND)%N →
  ok_with (publish w edits) (fun w' =>
    refines w' (mkSpec len' ((fun s => (s.1, s.2 ++ [edits])) <$> sp_since sp) (sp_next sp))
    ∧ w_topic w' = filter (fun id => is_Some (h_arcs (w_heap w) !! id)) (w_topic w)).
Proof.
  intros [Hn Hl Hf Htf Hnd Ht Hp] He Hl'.
  ok_bind (publish_loop_ok (w_topic w) (h_arcs (w_heap w)) edits
    (fun id p p' => ∀ lo ps, sp_since sp !! id = Some (lo, ps) → sums_up p' lo (ps ++ [edits]) len') Hnd).
  { intros id p _ Hid. specialize (Hp id). rewrite Hid in Hp.
    destruct (sp_since sp !! id) as [[lo ps]|]; [|done].
    eapply ok_with_mono; [by eapply sums_up_compose|]. cbn beta. by intros r ? ? ? [= <- <-]. }
  intros [topic arcs] [Htopic Harcs]. cbn [fst snd] in *. apply ok_with_ret.
  split; [|done]. split; cbn [w_heap w_topic h_arcs h_next sp_len sp_since sp_next]; try done.
  - intros id. rewrite lookup_fmap, fmap_is_Some. apply Hf.
  - intros id. rewrite Htopic. intros [_ ?]%list_elem_of_filter. by apply Htf.
  - rewrite Htopic. by apply NoDup_filter.
  - intros id. rewrite lookup_fmap, fmap_is_Some. intros Hid. rewrite Htopic, list_elem_of_filter.
    split; [|by apply Ht]. specialize (Hp id). destruct Hid as [[? ?] Hid]. rewrite Hid in Hp.
    by destruct (h_arcs (w_heap w) !! id).
  - intros id. rewrite lookup_fmap. specialize (Harcs id). specialize (Hp id).
    destruct (h_arcs (w_heap w) !! id) as [p|], (sp_since sp !! id) as [[lo ps]|] eqn:Es; try done;
      destruct (arcs !! id) as [p'|]; try done.
    rewrite decide_True in Harcs by (apply Ht; by rewrite Es). by apply Harcs.
Qed.

Lemma refines_step w sp ev sp' :
  refines w sp → spec_step sp ev sp' → ok_with (step w ev) (fun w' => refines w' sp').
Proof.
  intros Hr Hst. pose proof Hr as [Hn Hl Hf Htf Hnd Ht Hp].
  destruct Hst as [len since next|len since next edits len' He Hl'|len since next id|len since next id];
    cbn [step sp_len sp_since sp_next] in *.
  - split; cbn; rewrite ?Hn; try done.
    + intros id [<-|[_ Hid]]%lookup_insert_is_Some; [lia|]. apply Hf in Hid. lia.
    + intros id. rewrite elem_of_app, list_elem_of_singleton. intros [Hid| ->]; [apply Htf in Hid|]; lia.
    + apply NoDup_app. split_and!; [done| |apply NoDup_singleton].
      intros id Hid%Htf ->%list_elem_of_singleton. lia.
    + intros id [<-|[_ ?]]%lookup_insert_is_Some; rewrite elem_of_app, list_elem_of_singleton; auto.
    + intros id. destruct (decide (id = next)) as [->|].
      * rewrite !lookup_insert_eq. by apply sums_up_nil.
      * rewrite !lookup_insert_ne by done. apply Hp.
  - eapply ok_with_mono; [by eapply (refines_publish w _ edits len' Hr)|]. cbn beta. by intros ? [? _].
  - unfold consume. specialize (Hp id) as Hid. destruct (h_arcs (w_heap w) !! id) as [p|] eqn:Ep.
    + split; cbn; try done.
      * intros i. rewrite lookup_alter_is_Some. apply Hf.
      * intros i. rewrite lookup_alter_is_Some. apply Ht.
      * intros i. destruct (decide (i = id)) as [->|].
        -- rewrite lookup_insert_eq, lookup_alter_eq. destruct (since !! id); [|done]. by apply sums_up_nil.
        -- rewrite lookup_insert_ne, lookup_alter_ne by done. apply Hp.
    + rewrite alter_id' by (by destruct (since !! id)). done.
  - split; cbn; try done.
    + intros i [_ ?]%lookup_delete_is_Some. by apply Hf.
    + intros i [_ ?]%lookup_delete_is_Some. by apply Ht.
    + intros i. destruct (decide (i = id)) as [->|].
      * by rewrite !lookup_delete_eq.
      * rewrite !lookup_delete_ne by done. apply Hp.
Qed.

Lemma refines_run evs : ∀ w sp sp',
  refines w sp → spec_run sp evs sp' → ok_with (run w evs) (fun w' => refines w' sp').
Proof.
  induction evs as [|ev evs IH]; intros w sp sp' Hr Hrun; inversion Hrun; subst; [done|].
  cbn [run]. ok_bind (refines_step w sp ev); [done..|]. intros w1 Hr1. by eapply IH.
Qed.

Lemma refines_initial len : (len <= POSITION_BOUND)%N → refines initial (mkSpec len ∅ 0).
Proof.
  intros. split; cbn; try done.
  - intros id. rewrite lookup_empty. by intros [? ?].
  - intros id ?%not_elem_of_nil. done.
  - constructor.
  - intros id. rewrite lookup_empty. by intros [? ?].
Qed.

(** C34: after any sequence of subscribing, publishing, consuming and dropping, in
    which each published patch fits the text at that time, no operation has panicked,
    and what a subscriber consumes next is one patch, from the text it last saw to
    the current one, that keeps exactly the characters all the patches published
    since then keep; a dropped subscription has nothing to consume. *)
Theorem consume_correct (evs : list Event) (len : N) (sp : Spec) :
  (len <= POSITION_BOUND)%N → spec_run (mkSpec len ∅ 0) evs sp →
  ok_with (run initial evs) (fun w => ∀ id,
    match sp_since sp !! id with
    | Some (lo, ps) => ∃ p, (consume w id).2 = Some p ∧ fits p lo (sp_len sp) ∧ canonical p
                            ∧ ∀ x y, kept p x y ↔ kept_by ps x y
    | None => (consume w id).2 = None
    end).
Proof.
  intros Hlen Hrun. eapply ok_with_mono; [eapply refines_run; [by apply refines_initial|done]|].
  cbn beta. intros w [_ _ _ _ _ _ Hp] id. specialize (Hp id). unfold consume.
  destruct (h_arcs (w_heap w) !! id) as [p|], (sp_since sp !! id) as [[lo ps]|]; try done.
  destruct Hp as (? & ? & _ & _ & ?). by exists p.
Qed.

(** Two subscribers, of which the first consumes between two published patches and the
    second never does, and a third that is dropped. *)
Definition sample_events : list Event :=
  [ESubscribe; ESubscribe; ESubscribe; EDrop 2; EPublish sample_old_patch; EConsume 0;
   EPublish sample_new_patch].
Definition sample_spec : Spec :=
  mkSpec 13 (<[0 := (12%N, [sample_new_patch])]>
            (<[1 := (12%N, [sample_old_patch; sample_new_patch])]> ∅)) 3.

Lemma sample_spec_run : spec_run (mkSpec 12 ∅ 0) sample_events sample_spec.
Proof.
  repeat first [apply spec_run_nil | eapply spec_run_cons; [
    first [apply spec_subscribe | apply spec_drop | apply spec_consume
          | eapply spec_publish; [apply sample_fits | unfold POSITION_BOUND; lia]] |]].
Defined.

Lemma consume_correct_witness :
  (run initial sample_events ≫= fun w => Ok ((consume w 0).2, (consume w 1).2, (consume w 2).2)) =
    Ok (Some sample_new_patch,
        Some [mkEdit (mkRange 1 5) (mkRange 1 5); mkEdit (mkRange 9 9) (mkRange 9 10)], None)%N
  ∧ ok_with (run initial sample_events) (fun w => ∃ p, (consume w 1).2 = Some p ∧ fits p 12 13
      ∧ ∀ x y, kept p x y ↔ kept_by [sample_old_patch; sample_new_patch] x y).
Proof.
  split; [vm_compute; reflexivity|].
  eapply ok_with_mono; [apply (consume_correct sample_events 12 sample_spec)|].
  - unfold POSITION_BOUND. lia.
  - exact sample_spec_run.
  - intros w H. destruct (H 1) as (p & H1 & H2 & _ & H4). by exists p.
Defined.

(** A topic does not leak: right after publishing it refers to exactly the
    subscriptions that have not been dropped, each of them once. *)
Theorem publish_forgets_dropped (evs : list Event) (edits : list (TextEdit N)) (len : N) (sp : Spec) :
  (len <= POSITION_BOUND)%N → spec_run (mkSpec len ∅ 0) (evs ++ [EPublish edits]) sp →
  ok_with (run initial (evs ++ [EPublish edits])) (fun w =>
    NoDup (w_topic w) ∧ ∀ id, id ∈ w_topic w ↔ is_Some (sp_since sp !! id)).
Proof.
  intros Hlen. generalize (refines_initial len Hlen). generalize (mkSpec len ∅ 0), initial.
  induction evs as [|ev evs IH]; intros sp0 w0 Hr Hrun; inversion Hrun as [|? ? sp1 ? ? Hst Hrest]; subst.
  - inversion Hst as [|? ? ? ? len' He Hl| |]; subst. inversion Hrest; subst.
    cbn [app run step]. ok_bind (refines_publish w0 _ edits len' Hr He Hl).
    intros w [Hr' Ht]. apply ok_with_ret. split; [apply Hr'|]. intros id.
    split; [|apply Hr']. rewrite Ht. intros [Hid _]%list_elem_of_filter.
    destruct Hr as [_ _ _ _ _ _ Hp]. specialize (Hp id). cbn [sp_since] in *. rewrite lookup_fmap.
    destruct Hid as [p Hid]. rewrite Hid in Hp. destruct (since !! id); [by eexists|done].
  - cbn [app run]. ok_bind (refines_step w0 sp0 ev sp1 Hr Hst). intros w1 Hr1. by apply (IH sp1).
Qed.

Lemma publish_forgets_dropped_witness :
  ok_with (run initial sample_events) (fun w =>
    w_topic w = [0; 1] ∧ NoDup (w_topic w) ∧ ∀ id, id ∈ w_topic w ↔ is_Some (sp_since sample_spec !! id)).
Proof.
  pose proof (publish_forgets_dropped (take 6 sample_events) sample_new_patch 12 sample_spec) as H.
  cbn [take app sample_events] in H.
  pose proof (H ltac:(unfold POSITION_BOUND; lia) sample_spec_run) as Hok.
  change (run initial sample_events) with
    (run initial [ESubscribe; ESubscribe; ESubscribe; EDrop 2; EPublish sample_old_patch; EConsume 0;
                  EPublish sample_new_patch]).
  set (r := run initial _) in *. assert (Ht : (w_topic <$> r) = Ok [0; 1]) by (vm_compute; reflexivity).
  destruct r as [w|]; [|discriminate Ht]. injection Ht as Ht. exact (conj Ht Hok).
Defined.
