(* ===== verification/History.v ===== *)
(** * The undo history of a buffer: [History] of [crates/text/src/text.rs]

    Transactions group edits; the undo stack holds those that are applied, the redo
    stack those that were undone.  The text a history starts from is only stored,
    so its type is a parameter.  [Instant]s and [Duration]s are nanosecond counts;
    subtracting a later instant from an earlier one gives zero. *)

From S2P Require Import Prelude Ord Clock SumTree Cursor KeyedTree TreeMap UndoMap Patch.

Definition TransactionId : Type := Lamport.
Definition FullOffset : Type := N.
Definition Instant : Type := N.
Definition Duration : Type := N.

(** [Arc<str>]: the bytes of the text. *)
Definition Str : Type := list N.

Record EditOperation := mkEditOperation {
  eo_timestamp : Lamport;
  eo_version : Global;
  eo_ranges : list (Range FullOffset);
  eo_new_text : list Str
}.

Inductive Operation :=
  | OpEdit (edit : EditOperation)
  | OpUndo (undo : UndoOperation).

Definition operation_timestamp (self : Operation) : Lamport :=
  match self with OpEdit edit => eo_timestamp edit | OpUndo undo => undo_timestamp undo end.

Record Transaction := mkTransaction {
  tx_id : TransactionId;
  tx_edit_ids : list Lamport;
  tx_start : Global
}.

Record HistoryEntry := mkEntry {
  he_transaction : Transaction;
  he_first_edit_at : Instant;
  he_last_edit_at : Instant;
  he_suppress_grouping : bool
}.

(** [Transaction::merge_in] *)
Definition merge_in (self other : Transaction) : Transaction :=
  mkTransaction (tx_id self) (tx_edit_ids self ++ tx_edit_ids other) (tx_start self).

Definition transaction_id (self : HistoryEntry) : TransactionId := tx_id (he_transaction self).

(** ** What the history uses of [Vec] *)
Section vec.
Context {A : Type}.
Implicit Types l : list A.

(** [iter().rposition(p)] and [iter().rfind(p)] *)
Fixpoint rposition (p : A → bool) l : option nat :=
  match l with
  | [] => None
  | x :: l =>
      match rposition p l with
      | Some i => Some (S i)
      | None => if p x then Some 0%nat else None
      end
  end.
Definition rfind (p : A → bool) l : option A := rposition p l ≫= fun i => l !! i.

(** [Vec::remove] *)
Definition vec_remove (i : nat) l : outcome (list A * A) :=
  x ← unwrap (l !! i); Ok (delete i l, x).

(** [Vec::pop] *)
Definition vec_pop l : option (list A * A) :=
  match last l with Some x => Some (take (length l - 1) l, x) | None => None end.

(** Assigning through [last_mut()], when there is a last element. *)
Definition update_last_entry (f : A → A) l : list A := alter f (length l - 1)%nat l.
End vec.

Section history.
Context {Rope : Type}.

Record History := mkHistory {
  base_text : Rope;
  operations : TreeMap Lamport Operation;
  undo_stack : list HistoryEntry;
  redo_stack : list HistoryEntry;
  transaction_depth : N;
  group_interval : Duration
}.

Definition with_stacks (self : History) (undo redo : list HistoryEntry) : History :=
  mkHistory (base_text self) (operations self) undo redo (transaction_depth self) (group_interval self).
Definition with_depth (self : History) (depth : N) : History :=
  mkHistory (base_text self) (operations self) (undo_stack self) (redo_stack self) depth (group_interval self).

(** [Duration::from_millis(300)], outside tests. *)
Definition history_new (text : Rope) : History :=
  mkHistory text map_default [] [] 0%N 300000000%N.

Definition history_push (self : History) (op : Operation) : outcome History :=
  ops ← map_insert (operations self) (operation_timestamp op) op;
  Ok (mkHistory (base_text self) ops (undo_stack self) (redo_stack self) (transaction_depth self)
                (group_interval self)).

(** Pushing a transaction that has no edits yet, or is complete. *)
Definition push_entry (self : History) (transaction : Transaction) (now : Instant) : History :=
  with_stacks self (undo_stack self ++ [mkEntry transaction now now false]) (redo_stack self).

(** Returns the history, the clock and the new transaction, if there is one. *)
Definition start_transaction (self : History) (start : Global) (now : Instant) (clock : Lamport) :
    History * Lamport * option TransactionId :=
  let self := with_depth self (usize_add (transaction_depth self) 1) in
  if (transaction_depth self =? 1)%N then
    let '(id, clock) := lamport_tick clock in
    (push_entry self (mkTransaction id [] start) now, clock, Some id)
  else (self, clock, None).

Definition set_last_edit_at (now : Instant) (e : HistoryEntry) : HistoryEntry :=
  mkEntry (he_transaction e) (he_first_edit_at e) now (he_suppress_grouping e).

Definition end_transaction (self : History) (now : Instant) : outcome (History * option HistoryEntry) :=
  _ ← assert_that (negb (transaction_depth self =? 0)%N);
  let self := with_depth self (usize_sub (transaction_depth self) 1) in
  if (transaction_depth self =? 0)%N then
    entry ← unwrap (last (undo_stack self));
    match tx_edit_ids (he_transaction entry) with
    | [] => Ok (with_stacks self (take (length (undo_stack self) - 1) (undo_stack self)) (redo_stack self), None)
    | _ :: _ =>
        Ok (with_stacks self (update_last_entry (set_last_edit_at now) (undo_stack self)) [],
            Some (set_last_edit_at now entry))
    end
  else Ok (self, None).

(** What [group_trailing] does to the last entry it keeps. *)
Definition absorb (entries_to_merge : list HistoryEntry) (e : HistoryEntry) : HistoryEntry :=
  mkEntry (mkTransaction (transaction_id e)
             (tx_edit_ids (he_transaction e) ++
              flat_map (fun entry => tx_edit_ids (he_transaction entry)) entries_to_merge)
             (tx_start (he_transaction e)))
          (he_first_edit_at e)
          (match last entries_to_merge with Some entry => he_last_edit_at entry | None => he_last_edit_at e end)
          (he_suppress_grouping e).

(** [split_at_mut] panics when there are fewer than [n] entries. *)
Definition group_trailing (self : History) (n : nat) : outcome (History * option TransactionId) :=
  _ ← assert_that (n <=? length (undo_stack self))%nat;
  let new_len := (length (undo_stack self) - n)%nat in
  let undo := update_last_entry (absorb (drop new_len (undo_stack self))) (take new_len (undo_stack self)) in
  Ok (with_stacks self undo (redo_stack self), option_map transaction_id (last undo)).

(** The [while let] loop of [group], over the entries before [entry], last first. *)
Fixpoint group_loop (interval : Duration) (entry : HistoryEntry) (entries : list HistoryEntry) : nat :=
  match entries with
  | prev_entry :: entries =>
      if negb (he_suppress_grouping prev_entry)
         && (he_first_edit_at entry - he_last_edit_at prev_entry <? interval)%N
      then S (group_loop interval prev_entry entries)
      else 0%nat
  | [] => 0%nat
  end.

Definition group (self : History) : outcome (History * option TransactionId) :=
  group_trailing self
    (match rev (undo_stack self) with
     | entry :: entries => group_loop (group_interval self) entry entries
     | [] => 0%nat
     end).

(** The [for] loop of [group_until]: the number of entries to merge, if it gets to the transaction. *)
Fixpoint group_until_loop (id : TransactionId) (entries : list HistoryEntry) (count : nat) : option nat :=
  match entries with
  | entry :: entries =>
      if eqb (transaction_id entry) id then Some count
      else if he_suppress_grouping entry then None
      else group_until_loop id entries (S count)
  | [] => None
  end.

Definition group_until (self : History) (id : TransactionId) : outcome History :=
  match group_until_loop id (rev (undo_stack self)) 0 with
  | Some count => '(self, _) ← group_trailing self count; Ok self
  | None => Ok self
  end.

Definition set_suppress_grouping (e : HistoryEntry) : HistoryEntry :=
  mkEntry (he_transaction e) (he_first_edit_at e) (he_last_edit_at e) true.

Definition finalize_last_transaction (self : History) : History * option Transaction :=
  (with_stacks self (update_last_entry set_suppress_grouping (undo_stack self)) (redo_stack self),
   option_map he_transaction (last (undo_stack self))).

Definition push_transaction (self : History) (transaction : Transaction) (now : Instant) : outcome History :=
  _ ← assert_that (transaction_depth self =? 0)%N;
  Ok (push_entry self transaction now).

Definition push_empty_transaction (self : History) (start : Global) (now : Instant) (clock : Lamport) :
    outcome (History * Lamport * TransactionId) :=
  _ ← assert_that (transaction_depth self =? 0)%N;
  let '(id, clock) := lamport_tick clock in
  Ok (push_entry self (mkTransaction id [] start) now, clock, id).

Definition add_edit (op_id : Lamport) (e : HistoryEntry) : HistoryEntry :=
  mkEntry (mkTransaction (transaction_id e) (tx_edit_ids (he_transaction e) ++ [op_id])
             (tx_start (he_transaction e)))
          (he_first_edit_at e) (he_last_edit_at e) (he_suppress_grouping e).

Definition push_undo (self : History) (op_id : Lamport) : outcome History :=
  _ ← assert_that (negb (transaction_depth self =? 0)%N);
  match map_get (operations self) op_id with
  | Some (OpEdit _) =>
      _ ← unwrap (last (undo_stack self));
      Ok (with_stacks self (update_last_entry (add_edit op_id) (undo_stack self)) (redo_stack self))
  | _ => Ok self
  end.

Definition pop_undo (self : History) : outcome (History * option HistoryEntry) :=
  _ ← assert_that (transaction_depth self =? 0)%N;
  match vec_pop (undo_stack self) with
  | Some (undo, entry) => Ok (with_stacks self undo (redo_stack self ++ [entry]), Some entry)
  | None => Ok (self, None)
  end.

Abbreviation has_id id := (fun entry => eqb (transaction_id entry) id).

Definition remove_from_undo (self : History) (id : TransactionId) : outcome (History * option HistoryEntry) :=
  _ ← assert_that (transaction_depth self =? 0)%N;
  match rposition (has_id id) (undo_stack self) with
  | Some entry_ix =>
      '(undo, entry) ← vec_remove entry_ix (undo_stack self);
      Ok (with_stacks self undo (redo_stack self ++ [entry]), Some entry)
  | None => Ok (self, None)
  end.

Definition remove_from_undo_until (self : History) (id : TransactionId) :
    outcome (History * list HistoryEntry) :=
  _ ← assert_that (transaction_depth self =? 0)%N;
  match rposition (has_id id) (undo_stack self) with
  | Some entry_ix =>
      let moved := rev (drop entry_ix (undo_stack self)) in
      Ok (with_stacks self (take entry_ix (undo_stack self)) (redo_stack self ++ moved), moved)
  | None => Ok (self, [])
  end.

Definition forget (self : History) (id : TransactionId) : outcome (History * option Transaction) :=
  _ ← assert_that (transaction_depth self =? 0)%N;
  match rposition (has_id id) (undo_stack self) with
  | Some entry_ix =>
      '(undo, entry) ← vec_remove entry_ix (undo_stack self);
      Ok (with_stacks self undo (redo_stack self), Some (he_transaction entry))
  | None =>
      match rposition (has_id id) (redo_stack self) with
      | Some entry_ix =>
          '(redo, entry) ← vec_remove entry_ix (redo_stack self);
          Ok (with_stacks self (undo_stack self) redo, Some (he_transaction entry))
      | None => Ok (self, None)
      end
  end.

Definition transaction (self : History) (id : TransactionId) : option Transaction :=
  match rfind (has_id id) (undo_stack self) with
  | Some entry => Some (he_transaction entry)
  | None => option_map he_transaction (rfind (has_id id) (redo_stack self))
  end.

(** Assigning through [transaction_mut]. *)
Definition update_transaction (f : Transaction → Transaction) (e : HistoryEntry) : HistoryEntry :=
  mkEntry (f (he_transaction e)) (he_first_edit_at e) (he_last_edit_at e) (he_suppress_grouping e).
Definition transaction_mut (self : History) (id : TransactionId) (f : Transaction → Transaction) :
    option History :=
  match rposition (has_id id) (undo_stack self) with
  | Some ix => Some (with_stacks self (alter (update_transaction f) ix (undo_stack self)) (redo_stack self))
  | None =>
      match rposition (has_id id) (redo_stack self) with
      | Some ix => Some (with_stacks self (undo_stack self) (alter (update_transaction f) ix (redo_stack self)))
      | None => None
      end
  end.

Definition merge_transactions (self : History) (transaction destination : TransactionId) : outcome History :=
  '(self, transaction) ← forget self transaction;
  match transaction with
  | Some transaction => Ok (default self (transaction_mut self destination (fun t => merge_in t transaction)))
  | None => Ok self
  end.

Definition pop_redo (self : History) : outcome (History * option HistoryEntry) :=
  _ ← assert_that (transaction_depth self =? 0)%N;
  match vec_pop (redo_stack self) with
  | Some (redo, entry) => Ok (with_stacks self (undo_stack self ++ [entry]) redo, Some entry)
  | None => Ok (self, None)
  end.

Definition remove_from_redo (self : History) (id : TransactionId) : outcome (History * list HistoryEntry) :=
  _ ← assert_that (transaction_depth self =? 0)%N;
  match rposition (has_id id) (redo_stack self) with
  | Some entry_ix =>
      let moved := rev (drop entry_ix (redo_stack self)) in
      Ok (with_stacks self (undo_stack self ++ moved) (take entry_ix (redo_stack self)), moved)
  | None => Ok (self, [])
  end.
End history.
Arguments History _ : clear implicits.
