(* ===== verification/HistoryFacts.v ===== *)
(** * The undo history keeps its books

    The invariant of a history, that every use of it that respects the transaction
    brackets keeps it and never panics, and what undoing, redoing, grouping and merging do
    to the transactions. *)

From stdpp Require Import sets.
From S2P Require Import Prelude Ord Clock SumTree SumTreeFacts SeekSpec Cursor KeyedTree KeyedFacts.
From S2P Require Import TreeMap TreeMapFacts UndoMap Patch History.

(** ** [Vec] operations *)
Section vec.
Context {A : Type}.
Implicit Types (l : list A) (p : A → bool).

Lemma vec_pop_snoc l x : vec_pop (l ++ [x]) = Some (l, x).
Proof.
  unfold vec_pop. rewrite last_snoc, length_app. simpl.
  by rewrite Nat.add_sub, take_app_length.
Qed.

Lemma take_pop l x : take (length (l ++ [x]) - 1) (l ++ [x]) = l.
Proof. rewrite length_app. simpl. by rewrite Nat.add_sub, take_app_length. Qed.

Lemma update_last_snoc f l x : update_last_entry f (l ++ [x]) = l ++ [f x].
Proof.
  unfold update_last_entry. rewrite length_app. simpl. rewrite Nat.add_sub.
  rewrite <-(Nat.add_0_r (length l)). by rewrite alter_app_r.
Qed.

Lemma rposition_Some p l i : rposition p l = Some i →
  ∃ l1 x l2, l = l1 ++ x :: l2 ∧ i = length l1 ∧ p x = true ∧ Forall (fun y => p y = false) l2.
Proof.
  revert i. induction l as [|y l IH]; intros i; simpl; [done|].
  destruct (rposition p l) as [j|] eqn:E.
  - intros [= <-]. destruct (IH j eq_refl) as (l1 & x & l2 & -> & -> & ? & ?).
    by exists (y :: l1), x, l2.
  - destruct (p y) eqn:Ep; [|done]. intros [= <-]. exists [], y, l. split_and!; try done.
    clear IH Ep. induction l as [|z l IH]; [done|]. simpl in E.
    destruct (rposition p l); [done|]. destruct (p z) eqn:Ez; [done|]. auto.
Qed.

Lemma rposition_None p l : rposition p l = None ↔ Forall (fun y => p y = false) l.
Proof.
  induction l as [|z l IH]; simpl; [done|]. rewrite Forall_cons.
  destruct (rposition p l) as [j|].
  - split; [done|]. intros [_ H]. by apply IH in H.
  - destruct (p z); [by split; [|intros [? _]]|]. split; [|done]. intros _. split; [done|by apply IH].
Qed.

Lemma rposition_here p l1 x l2 :
  p x = true → Forall (fun y => p y = false) l2 → rposition p (l1 ++ x :: l2) = Some (length l1).
Proof.
  intros Hx H2. induction l1 as [|y l1 IH]; simpl.
  - apply rposition_None in H2. by rewrite H2, Hx.
  - by rewrite IH.
Qed.

Lemma vec_remove_middle l1 x l2 : vec_remove (length l1) (l1 ++ x :: l2) = Ok (l1 ++ l2, x).
Proof.
  unfold vec_remove. rewrite list_lookup_middle by done. simpl. by rewrite delete_middle.
Qed.

Lemma alter_middle f l1 x l2 : alter f (length l1) (l1 ++ x :: l2) = l1 ++ f x :: l2.
Proof. rewrite <-(Nat.add_0_r (length l1)). by rewrite alter_app_r. Qed.
End vec.

(** ** The invariant *)
Section facts.
Context {Rope : Type}.
Abbreviation history := (History Rope).
Implicit Types (h : history) (clock : Lamport) (st : list HistoryEntry).

Definition entry_edits (e : HistoryEntry) : list Lamport := tx_edit_ids (he_transaction e).
Definition stack_edits st : list Lamport := flat_map entry_edits st.
Definition all_entries h : list HistoryEntry := undo_stack h ++ redo_stack h.

(** A transaction is open only on top of the undo stack; transaction ids are distinct
    and were issued before the clock's time; no edit is in two places. *)
Record history_ok h clock : Prop := {
  ho_open : (0 < transaction_depth h)%N → undo_stack h ≠ [];
  ho_depth : (transaction_depth h < 2 ^ 64)%N;
  ho_ids : NoDup (transaction_id <$> all_entries h);
  ho_clock : Forall (fun e => value (transaction_id e) < value clock)%N (all_entries h);
  ho_edits : NoDup (stack_edits (all_entries h));
  ho_operations : map_ok (operations h)
}.

Lemma stack_edits_app st1 st2 : stack_edits (st1 ++ st2) = stack_edits st1 ++ stack_edits st2.
Proof. apply flat_map_app. Qed.

Lemma stack_edits_perm st1 st2 : st1 ≡ₚ st2 → stack_edits st1 ≡ₚ stack_edits st2.
Proof. apply Permutation_flat_map. Qed.

(** Moving entries around keeps the invariant. *)
Lemma with_stacks_ok h clock undo redo :
  history_ok h clock → undo ++ redo ≡ₚ all_entries h → (0 < transaction_depth h → undo ≠ [])%N →
  history_ok (with_stacks h undo redo) clock.
Proof.
  intros [? ? Hi Hc He ?] Hp Hu. split; cbn; try done; unfold all_entries; cbn.
  - by rewrite Hp.
  - by rewrite Hp.
  - by rewrite (stack_edits_perm _ _ Hp).
Qed.

(** Forgetting entries keeps it too. *)
Lemma with_fewer_ok h clock undo redo gone :
  history_ok h clock → gone ++ undo ++ redo ≡ₚ all_entries h →
  (0 < transaction_depth h → undo ≠ [])%N → history_ok (with_stacks h undo redo) clock.
Proof.
  intros [? ? Hi Hc He ?] Hp Hu.
  rewrite <-Hp in Hi, Hc. rewrite <-(stack_edits_perm _ _ Hp), stack_edits_app in He.
  rewrite fmap_app in Hi.
  split; cbn; try done; unfold all_entries; cbn.
  - by apply NoDup_app in Hi as (_ & _ & ?).
  - by apply Forall_app in Hc as [_ ?].
  - by apply NoDup_app in He as (_ & _ & ?).
Qed.

(** Two stacks with the same ids and edits are as good. *)
Lemma same_books_ok h clock undo redo :
  history_ok h clock →
  sublist (transaction_id <$> undo ++ redo) (transaction_id <$> all_entries h) →
  stack_edits (undo ++ redo) ≡ₚ stack_edits (all_entries h) →
  (0 < transaction_depth h → undo ≠ [])%N →
  history_ok (with_stacks h undo redo) clock.
Proof.
  intros [? ? Hi Hc He ?] Hs Hp Hu. split; cbn; try done; unfold all_entries; cbn.
  - exact (sublist_NoDup _ _ Hi Hs).
  - rewrite Forall_forall in Hc |- *. intros e He'.
    apply (list_elem_of_fmap_2 transaction_id) in He'.
    apply (elem_of_submseteq _ (transaction_id <$> all_entries h)) in He'; [|by apply sublist_submseteq].
    apply list_elem_of_fmap in He' as (e' & -> & He'). by apply Hc.
  - by rewrite Hp.
Qed.

(** ** Grouping *)
(** The condition of [group] for two neighbouring entries. *)
Definition linked (interval : Duration) (prev next : HistoryEntry) : bool :=
  negb (he_suppress_grouping prev) && (he_first_edit_at next - he_last_edit_at prev <? interval)%N.
Fixpoint linked_run (interval : Duration) (e : HistoryEntry) st : Prop :=
  match st with
  | [] => True
  | next :: st => linked interval e next = true ∧ linked_run interval next st
  end.

Lemma linked_run_snoc interval e st next :
  linked_run interval e st → linked interval (default e (last st)) next = true →
  linked_run interval e (st ++ [next]).
Proof.
  revert e. induction st as [|x st IH]; intros e; [by cbn|]. intros [? ?] Hl. split; [done|].
  apply IH; [done|]. rewrite last_cons in Hl. by destruct (last st).
Qed.

Lemma group_trailing_eq h keep e merged :
  undo_stack h = keep ++ e :: merged →
  group_trailing h (length merged) =
    Ok (with_stacks h (keep ++ [absorb merged e]) (redo_stack h), Some (transaction_id e)).
Proof.
  intros Hu. unfold group_trailing. rewrite Hu, length_app. cbn [length].
  replace (length keep + S (length merged) - length merged)%nat with (length keep + 1)%nat by lia.
  rewrite (proj2 (Nat.leb_le _ _)) by lia. cbn [assert_that mbind outcome_bind].
  rewrite (cons_middle e keep merged), app_assoc.
  rewrite take_app_length', drop_app_length' by (rewrite length_app; done).
  by rewrite update_last_snoc, last_snoc.
Qed.

Lemma group_loop_split interval entries : ∀ entry,
  ∃ keep e merged,
    rev entries ++ [entry] = keep ++ e :: merged
    ∧ group_loop interval entry entries = length merged
    ∧ linked_run interval e merged
    ∧ (∀ prev, last keep = Some prev → linked interval prev e = false).
Proof.
  induction entries as [|prev entries IH]; intros entry.
  { exists [], entry, []. by split_and!. }
  cbn [group_loop rev]. fold (linked interval prev entry).
  destruct (linked interval prev entry) eqn:El.
  - destruct (IH prev) as (keep & e & merged & Heq & Hlen & Hrun & Hmax).
    exists keep, e, (merged ++ [entry]). rewrite Heq, <-app_assoc. split_and!; try done.
    + rewrite length_app, Hlen. simpl. lia.
    + apply linked_run_snoc; [done|]. apply (f_equal last) in Heq.
      rewrite last_snoc, last_app_cons, last_cons in Heq. by destruct (last merged); simplify_eq/=.
  - exists (rev entries ++ [prev]), entry, []. split_and!; try done.
    intros prev' Hp. rewrite last_snoc in Hp. by injection Hp as <-.
Qed.

Lemma group_until_split id entries : ∀ count n,
  group_until_loop id entries count = Some n →
  ∃ keep e merged,
    rev entries = keep ++ e :: merged ∧ (n = count + length merged)%nat ∧ transaction_id e = id
    ∧ Forall (fun m => transaction_id m ≠ id ∧ he_suppress_grouping m = false) merged.
Proof.
  induction entries as [|x entries IH]; intros count n; cbn [group_until_loop rev]; [done|].
  destruct (eqb (transaction_id x) id) eqn:Ei.
  { intros [= <-]. exists (rev entries), x, []. apply eqb_eq in Ei. split_and!; [done|simpl; lia|done..]. }
  destruct (he_suppress_grouping x) eqn:Es; [done|]. intros Hl.
  destruct (IH _ _ Hl) as (keep & e & merged & -> & -> & He & Hm).
  exists keep, e, (merged ++ [x]). rewrite <-app_assoc, length_app. split_and!; [done|simpl; lia|done|].
  apply Forall_app. split; [done|]. constructor; [|done]. split; [|done].
  intros Hx%eqb_eq. congruence.
Qed.

Lemma absorb_edits merged e : entry_edits (absorb merged e) = entry_edits e ++ stack_edits merged.
Proof. done. Qed.

Lemma grouped_edits keep e merged :
  stack_edits (keep ++ [absorb merged e]) = stack_edits (keep ++ e :: merged).
Proof. rewrite !stack_edits_app. f_equal. cbn. by rewrite app_nil_r. Qed.

Lemma group_trailing_ok h clock keep e merged :
  history_ok h clock → undo_stack h = keep ++ e :: merged →
  history_ok (with_stacks h (keep ++ [absorb merged e]) (redo_stack h)) clock.
Proof.
  intros Hok Hu. apply same_books_ok; [done|..].
  - unfold all_entries. rewrite Hu, !fmap_app. apply sublist_app; [|done]. apply sublist_app; [done|].
    cbn. apply sublist_skip, sublist_nil_l.
  - unfold all_entries. by rewrite Hu, !(stack_edits_app _ (redo_stack h)), grouped_edits.
  - intros _ Hn. by apply app_nil in Hn as [_ ?].
Qed.

(** ** Using a history *)
Inductive Command :=
  | CPush (op : Operation)
  | CStart (start : Global) (now : Instant)
  | CEnd (now : Instant)
  | CGroup
  | CGroupUntil (id : TransactionId)
  | CFinalize
  | CPushTransaction (t : Transaction) (now : Instant)
  | CPushEmpty (start : Global) (now : Instant)
  | CPushUndo (op_id : Lamport)
  | CPopUndo
  | CRemoveFromUndo (id : TransactionId)
  | CRemoveFromUndoUntil (id : TransactionId)
  | CForget (id : TransactionId)
  | CMerge (id destination : TransactionId)
  | CPopRedo
  | CRemoveFromRedo (id : TransactionId).

(** The history and the buffer's clock after a command. *)
Definition exec h clock (c : Command) : outcome (history * Lamport) :=
  match c with
  | CPush op => h ← history_push h op; Ok (h, clock)
  | CStart start now => let '(h, clock, _) := start_transaction h start now clock in Ok (h, clock)
  | CEnd now => '(h, _) ← end_transaction h now; Ok (h, clock)
  | CGroup => '(h, _) ← group h; Ok (h, clock)
  | CGroupUntil id => h ← group_until h id; Ok (h, clock)
  | CFinalize => Ok ((finalize_last_transaction h).1, clock)
  | CPushTransaction t now => h ← push_transaction h t now; Ok (h, clock)
  | CPushEmpty start now => '(h, clock, _) ← push_empty_transaction h start now clock; Ok (h, clock)
  | CPushUndo op_id => h ← push_undo h op_id; Ok (h, clock)
  | CPopUndo => '(h, _) ← pop_undo h; Ok (h, clock)
  | CRemoveFromUndo id => '(h, _) ← remove_from_undo h id; Ok (h, clock)
  | CRemoveFromUndoUntil id => '(h, _) ← remove_from_undo_until h id; Ok (h, clock)
  | CForget id => '(h, _) ← forget h id; Ok (h, clock)
  | CMerge id destination => h ← merge_transactions h id destination; Ok (h, clock)
  | CPopRedo => '(h, _) ← pop_redo h; Ok (h, clock)
  | CRemoveFromRedo id => '(h, _) ← remove_from_redo h id; Ok (h, clock)
  end.

(** What a caller has to respect: transactions are closed before the stacks are used,
    edits are added inside one, and what comes from outside is new. *)
Definition allowed h clock (c : Command) : Prop :=
  match c with
  | CPush op => small (mkMapEntry (operation_timestamp op) op :: tree_items (operations h))
  | CStart _ _ => (value clock < u32_max)%N ∧ (transaction_depth h + 1 < 2 ^ 64)%N
  | CEnd _ => (0 < transaction_depth h)%N
  | CGroup | CGroupUntil _ | CFinalize => True
  | CPushTransaction t _ =>
      transaction_depth h = 0%N ∧ (value (tx_id t) < value clock)%N
      ∧ (tx_id t ∉ (transaction_id <$> all_entries h))
      ∧ NoDup (tx_edit_ids t ++ stack_edits (all_entries h))
  | CPushEmpty _ _ => transaction_depth h = 0%N ∧ (value clock < u32_max)%N
  | CPushUndo op_id => (0 < transaction_depth h)%N ∧ op_id ∉ stack_edits (all_entries h)
  | CPopUndo | CRemoveFromUndo _ | CRemoveFromUndoUntil _ | CForget _ | CMerge _ _ | CPopRedo
  | CRemoveFromRedo _ => transaction_depth h = 0%N
  end.

Inductive reachable (text : Rope) (clock0 : Lamport) : history → Lamport → Prop :=
  | reach_new : reachable text clock0 (history_new text) clock0
  | reach_step h clock c h' clock' :
      reachable text clock0 h clock → allowed h clock c → exec h clock c = Ok (h', clock') →
      reachable text clock0 h' clock'.

(** A new transaction on top of the undo stack. *)
Lemma push_entry_ok h clock clock' t now :
  history_ok h clock → (value (tx_id t) < value clock')%N → (value clock <= value clock')%N →
  tx_id t ∉ (transaction_id <$> all_entries h) →
  NoDup (tx_edit_ids t ++ stack_edits (all_entries h)) →
  history_ok (push_entry h t now) clock'.
Proof.
  intros [? ? Hi Hc He ?] Ht Hcl Hn Hnd.
  set (e := mkEntry t now now false).
  assert (Hp : all_entries (push_entry h t now) ≡ₚ e :: all_entries h).
  { unfold all_entries, push_entry. cbn. rewrite <-app_assoc. symmetry. apply Permutation_middle. }
  split; try done.
  - cbn. intros _ Hnil. by apply app_nil in Hnil as [_ ?].
  - rewrite Hp. cbn. by apply NoDup_cons.
  - rewrite Hp. constructor; [done|]. eapply Forall_impl; [done|]. cbn. lia.
  - by rewrite (stack_edits_perm _ _ Hp).
Qed.

Lemma clock_fresh h clock : history_ok h clock → clock ∉ (transaction_id <$> all_entries h).
Proof.
  intros [_ _ _ Hc _ _] (e & -> & He)%list_elem_of_fmap. rewrite Forall_forall in Hc.
  specialize (Hc _ He). cbn in Hc. lia.
Qed.

Lemma push_fresh_ok h clock start now :
  history_ok h clock → (value clock < u32_max)%N →
  history_ok (push_entry h (mkTransaction clock [] start) now) (lamport_tick clock).2.
Proof.
  intros Hok Hv. unfold lamport_tick. cbn [snd]. rewrite u32_wrap_small by lia.
  apply (push_entry_ok h clock); cbn; try lia; [done|by apply clock_fresh|]. apply Hok.
Qed.

Lemma with_depth_ok h clock d :
  history_ok h clock → (d < 2 ^ 64)%N → (0 < d → undo_stack h ≠ [])%N → history_ok (with_depth h d) clock.
Proof. intros [? ? ? ? ? ?] ? ?. by split. Qed.

Lemma history_push_ok h clock op :
  history_ok h clock → small (mkMapEntry (operation_timestamp op) op :: tree_items (operations h)) →
  ok_with (history_push h op) (fun h' => history_ok h' clock).
Proof.
  intros [? ? ? ? ? Hm] Hs. unfold history_push, map_insert.
  pose proof (map_insert_or_replace_spec _ (operation_timestamp op) op Hm Hs) as Hi.
  unfold map_insert_or_replace in Hi.
  destruct (insert_or_replace tt (operations h) _) as [[t r]|]; [|done]. cbn in *. by split; [..|apply Hi].
Qed.

Lemma start_transaction_ok h clock start now :
  history_ok h clock → (value clock < u32_max)%N → (transaction_depth h + 1 < 2 ^ 64)%N →
  let '(h', clock', _) := start_transaction h start now clock in history_ok h' clock'.
Proof.
  intros Hok Hv Hd. unfold start_transaction. cbn [transaction_depth with_depth].
  rewrite usize_add_exact by done. destruct (N.eqb_spec (transaction_depth h + 1) 1).
  - change (push_entry (with_depth h ?d) ?t now) with (with_depth (push_entry h t now) d).
    apply with_depth_ok; [by apply push_fresh_ok|done|]. cbn. intros _ Hn. by apply app_nil in Hn as [_ ?].
  - apply with_depth_ok; [done|done|]. intros _. apply Hok. lia.
Qed.

Lemma end_transaction_ok h clock now :
  history_ok h clock → (0 < transaction_depth h)%N →
  ok_with (end_transaction h now) (fun r => history_ok r.1 clock).
Proof.
  intros Hok Hd. pose proof Hok as [Ho Hl _ _ _ _]. unfold end_transaction.
  rewrite (proj2 (N.eqb_neq (transaction_depth h) 0)) by lia. cbn [negb assert_that mbind outcome_bind].
  rewrite usize_sub_exact by lia. cbn [transaction_depth with_depth undo_stack redo_stack].
  assert (Hok' : history_ok (with_depth h (transaction_depth h - 1)) clock).
  { apply with_depth_ok; [done|lia|]. auto. }
  destruct (N.eqb_spec (transaction_depth h - 1) 0) as [E|E]; [|done].
  destruct (snoc_case (undo_stack h)) as [Hn|(l & x & Hu)]; [by destruct (Ho Hd)|].
  rewrite Hu, last_snoc. cbn [unwrap mbind outcome_bind].
  destruct (tx_edit_ids (he_transaction x)).
  - rewrite take_pop. apply (with_fewer_ok _ _ _ _ [x]); [done| |cbn; lia].
    unfold all_entries. cbn. rewrite Hu, <-app_assoc. apply Permutation_middle.
  - rewrite update_last_snoc. cbn.
    apply (with_fewer_ok (with_stacks (with_depth h (transaction_depth h - 1))
      (l ++ [set_last_edit_at now x]) (redo_stack h)) _ _ _ (redo_stack h)); [|by rewrite app_nil_r, (comm app)|cbn; lia].
    apply same_books_ok; [done|..]; unfold all_entries; cbn [undo_stack redo_stack with_depth]; rewrite ?Hu.
    + by rewrite !fmap_app.
    + by rewrite !stack_edits_app.
    + cbn. lia.
Qed.

Lemma group_ok h clock : history_ok h clock → ok_with (group h) (fun r => history_ok r.1 clock).
Proof.
  intros Hok. unfold group. destruct (snoc_case (undo_stack h)) as [Hn|(l & x & Hu)].
  - rewrite Hn. cbn [rev]. unfold group_trailing. rewrite Hn. cbn.
    apply with_stacks_ok; [done|unfold all_entries; by rewrite Hn|]. intros Hd.
    by apply (ho_open _ _ Hok) in Hd.
  - rewrite Hu, rev_unit.
    destruct (group_loop_split (group_interval h) (rev l) x) as (keep & e & merged & Heq & -> & _).
    rewrite rev_involutive, <-Hu in Heq. rewrite (group_trailing_eq _ keep e merged) by done.
    by apply group_trailing_ok.
Qed.

Lemma group_until_ok h clock id :
  history_ok h clock → ok_with (group_until h id) (fun h' => history_ok h' clock).
Proof.
  intros Hok. unfold group_until. destruct (group_until_loop _ _ _) as [n|] eqn:E; [|done].
  apply group_until_split in E as (keep & e & merged & Heq & -> & _).
  rewrite rev_involutive in Heq. cbn [Nat.add]. rewrite (group_trailing_eq _ keep e merged) by done.
  by apply group_trailing_ok.
Qed.

(** Changing the last entry, but not its id. *)
Lemma update_last_ok h clock f :
  history_ok h clock → (∀ e, transaction_id (f e) = transaction_id e) →
  NoDup (stack_edits (update_last_entry f (undo_stack h) ++ redo_stack h)) →
  history_ok (with_stacks h (update_last_entry f (undo_stack h)) (redo_stack h)) clock.
Proof.
  intros [Ho ? Hi Hc He ?] Hf Hnd.
  assert (Hids : transaction_id <$> (update_last_entry f (undo_stack h) ++ redo_stack h)
                 = transaction_id <$> all_entries h).
  { unfold all_entries. rewrite !fmap_app. f_equal.
    destruct (snoc_case (undo_stack h)) as [Hn|(l & x & Hu)]; [by rewrite Hn|].
    rewrite Hu, update_last_snoc, !fmap_app. cbn. by rewrite Hf. }
  split; cbn; try done.
  - intros Hd. destruct (snoc_case (undo_stack h)) as [Hn|(l & x & Hu)]; [by destruct (Ho Hd)|].
    rewrite Hu, update_last_snoc. intros Hn. by apply app_nil in Hn as [_ ?].
  - unfold all_entries. cbn. by rewrite Hids.
  - unfold all_entries. cbn. rewrite <-(Forall_fmap transaction_id (fun i => value i < value clock)%N) in Hc |- *.
    by rewrite Hids.
Qed.

Lemma finalize_ok h clock : history_ok h clock → history_ok (finalize_last_transaction h).1 clock.
Proof.
  intros Hok. apply update_last_ok; [done|done|]. pose proof (ho_edits _ _ Hok) as He. unfold all_entries in He.
  destruct (snoc_case (undo_stack h)) as [Hn|(l & x & Hu)]; [by rewrite Hn in *|].
  rewrite Hu in *. rewrite update_last_snoc. by rewrite !stack_edits_app in *.
Qed.

Lemma push_undo_ok h clock op_id :
  history_ok h clock → (0 < transaction_depth h)%N → op_id ∉ stack_edits (all_entries h) →
  ok_with (push_undo h op_id) (fun h' => history_ok h' clock).
Proof.
  intros Hok Hd Hn. unfold push_undo.
  rewrite (proj2 (N.eqb_neq _ _)) by lia. cbn [negb assert_that mbind outcome_bind].
  destruct (map_get (operations h) op_id) as [[?|?]|]; [|done..].
  destruct (snoc_case (undo_stack h)) as [Hnil|(l & x & Hu)]; [by destruct (ho_open _ _ Hok Hd)|].
  rewrite Hu at 1. rewrite last_snoc. cbn [unwrap mbind outcome_bind ok_with].
  apply update_last_ok; [done|done|]. pose proof (ho_edits _ _ Hok) as He. unfold all_entries in *.
  rewrite Hu in *. rewrite update_last_snoc. rewrite !stack_edits_app in *. cbn in *.
  rewrite app_nil_r in *. fold (entry_edits x) in *.
  assert (Hp : (stack_edits l ++ (entry_edits x ++ [op_id])) ++ stack_edits (redo_stack h)
               ≡ₚ op_id :: (stack_edits l ++ entry_edits x) ++ stack_edits (redo_stack h)).
  { rewrite <-!app_assoc. cbn. by rewrite <-!Permutation_middle. }
  rewrite Hp. by apply NoDup_cons.
Qed.

Lemma assert_closed {B} h (k : unit → outcome B) :
  transaction_depth h = 0%N → (assert_that (transaction_depth h =? 0)%N ≫= k) = k tt.
Proof. by intros ->. Qed.

(** A closed history may be rearranged freely. *)
Lemma closed_ok h clock undo redo :
  history_ok h clock → transaction_depth h = 0%N → undo ++ redo ≡ₚ all_entries h →
  history_ok (with_stacks h undo redo) clock.
Proof. intros ? Hd ?. apply with_stacks_ok; [done..|]. lia. Qed.

Lemma pop_undo_ok h clock :
  history_ok h clock → transaction_depth h = 0%N → ok_with (pop_undo h) (fun r => history_ok r.1 clock).
Proof.
  intros Hok Hd. unfold pop_undo. rewrite assert_closed by done.
  destruct (snoc_case (undo_stack h)) as [Hn|(l & x & Hu)]; [by rewrite Hn|].
  rewrite Hu, vec_pop_snoc. apply closed_ok; [done|done|]. unfold all_entries. rewrite Hu, <-app_assoc.
  by rewrite (comm app (redo_stack h)).
Qed.

Lemma pop_redo_ok h clock :
  history_ok h clock → transaction_depth h = 0%N → ok_with (pop_redo h) (fun r => history_ok r.1 clock).
Proof.
  intros Hok Hd. unfold pop_redo. rewrite assert_closed by done.
  destruct (snoc_case (redo_stack h)) as [Hn|(l & x & Hu)]; [by rewrite Hn|].
  rewrite Hu, vec_pop_snoc. apply closed_ok; [done|done|]. unfold all_entries. rewrite Hu, <-app_assoc.
  by rewrite (comm app l).
Qed.

Lemma remove_from_undo_ok h clock id :
  history_ok h clock → transaction_depth h = 0%N →
  ok_with (remove_from_undo h id) (fun r => history_ok r.1 clock).
Proof.
  intros Hok Hd. unfold remove_from_undo. rewrite assert_closed by done.
  destruct (rposition _ _) as [i|] eqn:E; [|done].
  apply rposition_Some in E as (l1 & x & l2 & Hu & -> & _). rewrite Hu, vec_remove_middle.
  apply closed_ok; [done|done|]. unfold all_entries. rewrite Hu, <-!app_assoc. cbn.
  apply Permutation_app_head. by rewrite app_assoc, <-Permutation_cons_append.
Qed.

Lemma remove_from_undo_until_ok h clock id :
  history_ok h clock → transaction_depth h = 0%N →
  ok_with (remove_from_undo_until h id) (fun r => history_ok r.1 clock).
Proof.
  intros Hok Hd. unfold remove_from_undo_until. rewrite assert_closed by done.
  destruct (rposition _ _) as [i|] eqn:E; [|done].
  apply closed_ok; [done|done|]. unfold all_entries.
  rewrite <-(take_drop i (undo_stack h)) at 3. rewrite <-!app_assoc. apply Permutation_app_head.
  by rewrite (comm app), <-Permutation_rev.
Qed.

Lemma remove_from_redo_ok h clock id :
  history_ok h clock → transaction_depth h = 0%N →
  ok_with (remove_from_redo h id) (fun r => history_ok r.1 clock).
Proof.
  intros Hok Hd. unfold remove_from_redo. rewrite assert_closed by done.
  destruct (rposition _ _) as [i|] eqn:E; [|done].
  apply closed_ok; [done|done|]. unfold all_entries. rewrite <-!app_assoc. apply Permutation_app_head.
  rewrite <-Permutation_rev, (comm app). by rewrite take_drop.
Qed.

Lemma forget_ok h clock id :
  history_ok h clock → transaction_depth h = 0%N →
  ok_with (forget h id) (fun r => history_ok r.1 clock ∧ transaction_depth r.1 = 0%N
    ∧ match r.2 with
      | Some t => NoDup (tx_edit_ids t ++ stack_edits (all_entries r.1))
      | None => r.1 = h
      end).
Proof.
  intros Hok Hd. unfold forget. rewrite assert_closed by done.
  pose proof (ho_edits _ _ Hok) as He.
  destruct (rposition _ (undo_stack h)) as [i|] eqn:E;
    [|destruct (rposition _ (redo_stack h)) as [i|] eqn:E'; [|done]; clear E; rename E' into E];
    apply rposition_Some in E as (l1 & x & l2 & Hu & -> & _); rewrite Hu, vec_remove_middle;
    cbn [ok_with mbind outcome_bind fst snd].
  - assert (Hp : [x] ++ (l1 ++ l2) ++ redo_stack h ≡ₚ all_entries h).
    { unfold all_entries. rewrite Hu, <-!app_assoc. cbn. apply Permutation_middle. }
    rewrite <-(stack_edits_perm _ _ Hp), stack_edits_app in He. cbn in He. rewrite app_nil_r in He.
    split_and!; [|done|done]. apply (with_fewer_ok _ _ _ _ [x]); [done|done|lia].
  - assert (Hp : [x] ++ undo_stack h ++ l1 ++ l2 ≡ₚ all_entries h).
    { unfold all_entries. rewrite Hu, !(app_assoc (undo_stack h)).
      apply (Permutation_middle (undo_stack h ++ l1) l2 x). }
    rewrite <-(stack_edits_perm _ _ Hp), stack_edits_app in He. cbn in He. rewrite app_nil_r in He.
    split_and!; [|done|done]. apply (with_fewer_ok _ _ _ _ [x]); [done|done|lia].
Qed.

Lemma transaction_mut_entries h id f h' :
  transaction_mut h id f = Some h' →
  ∃ l1 x l2, all_entries h = l1 ++ x :: l2 ∧ all_entries h' = l1 ++ update_transaction f x :: l2
    ∧ transaction_id x = id
    ∧ transaction_depth h' = transaction_depth h ∧ operations h' = operations h.
Proof.
  unfold transaction_mut, all_entries. intros Hm.
  destruct (rposition _ (undo_stack h)) as [i|] eqn:E;
    [|destruct (rposition _ (redo_stack h)) as [i|] eqn:E'; [|done]; clear E; rename E' into E];
    apply rposition_Some in E as (l1 & x & l2 & Hu & -> & Hx & _); rewrite Hu, alter_middle in Hm;
    injection Hm as <-; cbn; apply eqb_eq in Hx.
  - exists l1, x, (l2 ++ redo_stack h). rewrite Hu, <-!app_assoc. by split_and!.
  - exists (undo_stack h ++ l1), x, l2. rewrite Hu, <-!app_assoc. by split_and!.
Qed.

Lemma merge_transactions_ok h clock id destination :
  history_ok h clock → transaction_depth h = 0%N →
  ok_with (merge_transactions h id destination) (fun h' => history_ok h' clock).
Proof.
  intros Hok Hd. unfold merge_transactions. ok_bind (forget_ok h clock id); [done..|].
  intros [h1 [t|]] (Hok1 & Hd1 & Ht); cbn [fst snd] in *; [|done]. apply ok_with_ret.
  destruct (transaction_mut h1 destination _) as [h2|] eqn:E; cbn [default from_option Datatypes.id]; [|done].
  apply transaction_mut_entries in E as (l1 & x & l2 & He1 & He2 & _ & Hd2 & Hop).
  destruct Hok1 as [_ ? Hi Hc _ ?]. rewrite He1 in *. split; rewrite ?Hd2, ?Hop, ?He2; try done.
  - intros Hlt. lia.
  - rewrite fmap_app in *. by cbn in *.
  - rewrite !Forall_app, !Forall_cons in *. by cbn in *.
  - rewrite !stack_edits_app in *. cbn in *. rewrite <-!app_assoc. fold (entry_edits x) in *.
    rewrite (comm app (tx_edit_ids t)) in Ht. rewrite <-!app_assoc in Ht.
    by rewrite (comm app (tx_edit_ids t) (stack_edits l2)).
Qed.

Lemma exec_ok h clock c :
  history_ok h clock → allowed h clock c → ok_with (exec h clock c) (fun r => history_ok r.1 r.2).
Proof.
  intros Hok Ha. destruct c; cbn [exec allowed] in *;
    try match goal with |- ok_with (_ ≫= _) _ =>
      apply ok_with_bind; eapply ok_with_mono;
        [first [by apply history_push_ok | by apply end_transaction_ok | by apply group_ok
               | by apply group_until_ok | by apply pop_undo_ok | by apply pop_redo_ok
               | by apply remove_from_undo_ok | by apply remove_from_undo_until_ok
               | by apply remove_from_redo_ok | by eapply forget_ok | by apply merge_transactions_ok
               | by apply push_undo_ok; [|apply Ha..]]
        | cbn beta; try (intros [h' ?] Hh'; exact Hh'); try (intros h' Hh'; exact Hh')]
    end.
  - pose proof (start_transaction_ok h clock start now Hok) as Hs.
    destruct (start_transaction h start now clock) as [[h' clock'] ?]. destruct Ha. by apply Hs.
  - by apply finalize_ok.
  - destruct Ha as (Hd & ? & ? & ?). unfold push_transaction. rewrite Hd. cbn.
    by apply (push_entry_ok h clock).
  - destruct Ha as [Hd ?]. unfold push_empty_transaction. rewrite Hd. cbn. by apply push_fresh_ok.
  - by intros [h' ?] [Hh' _].
Qed.

Lemma history_new_ok (text : Rope) clock : history_ok (history_new text) clock.
Proof.
  split; cbn; try done; try lia; try constructor.
  - split; [by left|]. by vm_compute.
  - constructor.
Qed.

Lemma with_stacks_back h undo redo :
  with_stacks (with_stacks h undo redo) (undo_stack h) (redo_stack h) = h.
Proof. by destruct h. Qed.

(** C35: starting from a new history, any sequence of operations that respects the
    transaction brackets keeps the invariant (an open transaction is on the undo
    stack, transaction ids are distinct and older than the clock, no edit is in two
    transactions), and no operation it allows next panics. *)
Theorem history_reachable_ok (text : Rope) clock0 h clock :
  reachable text clock0 h clock →
  history_ok h clock ∧ ∀ c, allowed h clock c → is_panic (exec h clock c) = false.
Proof.
  intros Hr. assert (Hok : history_ok h clock).
  { induction Hr as [|h clock c h' clock' _ IH Ha He]; [apply history_new_ok|].
    exact (ok_with_eq _ _ _ (exec_ok _ _ _ IH Ha) He). }
  split; [done|]. intros c Ha. pose proof (exec_ok _ _ _ Hok Ha). by destruct (exec h clock c).
Qed.

Lemma has_id_false l id :
  id ∉ (transaction_id <$> l) → Forall (fun e => eqb (transaction_id e) id = false) l.
Proof.
  intros Hn. apply Forall_forall. intros e He. destruct (eqb _ _) eqn:E; [|done].
  apply eqb_eq in E. subst id. by destruct Hn; apply list_elem_of_fmap_2.
Qed.

(** An id is found where its entry is, looking from the end. *)
Lemma find_entry h clock (stack other : list HistoryEntry) keep e rest :
  history_ok h clock → stack ++ other ≡ₚ all_entries h → stack = keep ++ e :: rest →
  rposition (fun x => eqb (transaction_id x) (transaction_id e)) stack = Some (length keep).
Proof.
  intros Hok Hp ->. pose proof (ho_ids _ _ Hok) as Hi. rewrite <-Hp, <-app_assoc, fmap_app in Hi. cbn in Hi.
  apply NoDup_app in Hi as (_ & _ & [Hni _]%NoDup_cons). rewrite fmap_app, elem_of_app in Hni.
  apply rposition_here; [by apply eqb_refl|apply has_id_false; tauto].
Qed.

Lemma undo_until_entry h clock keep e rest :
  history_ok h clock → transaction_depth h = 0%N → undo_stack h = keep ++ e :: rest →
  remove_from_undo_until h (transaction_id e) = Ok (with_stacks h keep (redo_stack h ++ rev (e :: rest)), rev (e :: rest)).
Proof.
  intros Hok Hd Hu. unfold remove_from_undo_until. rewrite assert_closed by done.
  rewrite (find_entry h clock _ (redo_stack h) keep e rest Hok) by done. by rewrite Hu, take_app_length, drop_app_length.
Qed.

Lemma redo_until_entry h clock keep e rest :
  history_ok h clock → transaction_depth h = 0%N → redo_stack h = keep ++ e :: rest →
  remove_from_redo h (transaction_id e) = Ok (with_stacks h (undo_stack h ++ rev (e :: rest)) keep, rev (e :: rest)).
Proof.
  intros Hok Hd Hu. unfold remove_from_redo. rewrite assert_closed by done.
  rewrite (find_entry h clock _ (undo_stack h) keep e rest Hok) by (done || apply (comm app)). by rewrite Hu, take_app_length, drop_app_length.
Qed.

Lemma remove_entry h clock keep e rest :
  history_ok h clock → transaction_depth h = 0%N → undo_stack h = keep ++ e :: rest →
  remove_from_undo h (transaction_id e) = Ok (with_stacks h (keep ++ rest) (redo_stack h ++ [e]), Some e).
Proof.
  intros Hok Hd Hu. unfold remove_from_undo. rewrite assert_closed by done.
  rewrite (find_entry h clock _ (redo_stack h) keep e rest Hok) by done. by rewrite Hu, vec_remove_middle.
Qed.

(** Undoing the last transaction and redoing it, and undoing up to a transaction and
    redoing up to the last one, return the transactions in the order they have to be
    undone or redone in, and restore the history. *)
Theorem undo_redo_roundtrip h clock keep e rest last_entry front :
  history_ok h clock → transaction_depth h = 0%N →
  undo_stack h = keep ++ e :: rest → e :: rest = front ++ [last_entry] →
  (∃ h', pop_undo h = Ok (h', Some last_entry) ∧ pop_redo h' = Ok (h, Some last_entry))
  ∧ (∃ h', remove_from_undo_until h (transaction_id e) = Ok (h', rev (e :: rest))
        ∧ undo_stack h' = keep
        ∧ remove_from_redo h' (transaction_id last_entry) = Ok (h, e :: rest)).
Proof.
  intros Hok Hd Hu Hl. split.
  - rewrite Hl, app_assoc in Hu. unfold pop_undo. rewrite assert_closed, Hu, vec_pop_snoc by done.
    eexists. split; [done|]. unfold pop_redo. rewrite assert_closed by done. cbn [redo_stack with_stacks].
    rewrite vec_pop_snoc. do 2 f_equal. cbn [undo_stack with_stacks]. rewrite <-Hu. apply with_stacks_back.
  - rewrite (undo_until_entry h clock keep e rest) by done. eexists. split; [done|]. split; [done|].
    rewrite (redo_until_entry _ clock (redo_stack h) last_entry (rev front)).
    + rewrite <-rev_unit, <-Hl, rev_involutive. do 2 f_equal. cbn [undo_stack with_stacks]. rewrite <-Hu. apply with_stacks_back.
    + apply closed_ok; [done|done|]. unfold all_entries. rewrite Hu, <-Permutation_rev, <-app_assoc. apply Permutation_app_head. apply (comm app).
    + done.
    + cbn [redo_stack with_stacks]. by rewrite Hl, rev_unit.
Qed.

Lemma linked_run_last interval e merged m l prev :
  e :: merged = l ++ [prev] → linked_run interval e (merged ++ [m]) →
  linked interval prev m = true ∧ linked_run interval e merged.
Proof.
  revert e l. induction merged as [|x merged IH]; intros e l Hl Hrun.
  - destruct l as [|? [|? ?]]; simplify_eq/=. tauto.
  - destruct l as [|? l]; [done|]. injection Hl as _ Hl. destruct Hrun as [? Hrun].
    destruct (IH _ _ Hl Hrun). by split_and!.
Qed.

(** The number of entries [group] merges is determined by the links. *)
Lemma group_loop_run interval keep e : ∀ merged entry entries,
  rev entries ++ [entry] = keep ++ e :: merged →
  linked_run interval e merged →
  (∀ prev, last keep = Some prev → linked interval prev e = false) →
  group_loop interval entry entries = length merged.
Proof.
  intros merged. induction merged as [|m merged IH] using rev_ind; intros entry entries Heq Hrun Hmax.
  - apply app_inj_tail in Heq as [Hk ->]. destruct entries as [|prev entries]; [done|].
    cbn [group_loop]. fold (linked interval prev e). rewrite Hmax; [done|].
    rewrite <-Hk. cbn. by rewrite last_snoc.
  - rewrite app_comm_cons, app_assoc in Heq. apply app_inj_tail in Heq as [Hk ->].
    destruct (snoc_case (e :: merged)) as [?|(l & prev & Hl)]; [done|].
    destruct entries as [|prev' entries].
    { by destruct keep. }
    cbn [rev] in Hk. rewrite Hl, app_assoc in Hk. apply app_inj_tail in Hk as [Hk ->].
    cbn [group_loop]. fold (linked interval prev m).
    assert (Hlink : linked interval prev m = true ∧ linked_run interval e merged).
    { by apply (linked_run_last interval e merged m l). }
    rewrite (proj1 Hlink), length_app. cbn. rewrite (IH prev entries); [lia| |apply Hlink|done].
    by rewrite Hk, <-app_assoc, <-Hl.
Qed.

(** [group] merges into one entry exactly the longest run of entries at the top of
    the undo stack each of which begins within the group interval after the one
    before and is not shielded from it by [finalize_last_transaction]; the merged
    entry has the first one's identity and beginning, the last one's end, and all
    edits in order.  Doing it again changes nothing. *)
Theorem group_correct h e0 :
  last (undo_stack h) = Some e0 →
  ∃ keep e merged h',
    undo_stack h = keep ++ e :: merged
    ∧ linked_run (group_interval h) e merged
    ∧ (∀ prev, last keep = Some prev → linked (group_interval h) prev e = false)
    ∧ group h = Ok (h', Some (transaction_id e))
    ∧ h' = with_stacks h (keep ++ [absorb merged e]) (redo_stack h)
    ∧ he_last_edit_at (absorb merged e) = he_last_edit_at e0
    ∧ stack_edits (undo_stack h') = stack_edits (undo_stack h)
    ∧ group h' = Ok (h', Some (transaction_id e)).
Proof.
  intros Hlast. destruct (snoc_case (undo_stack h)) as [Hn|(l & x & Hu)]; [by rewrite Hn in Hlast|].
  destruct (group_loop_split (group_interval h) (rev l) x) as (keep & e & merged & Heq & Hlen & Hrun & Hmax).
  rewrite rev_involutive, <-Hu in Heq.
  exists keep, e, merged, (with_stacks h (keep ++ [absorb merged e]) (redo_stack h)).
  split_and!; try done.
  - unfold group. rewrite Hu, rev_unit, Hlen. by apply group_trailing_eq.
  - rewrite Heq, last_app_cons, last_cons in Hlast. cbn. destruct (last merged); by injection Hlast as ->.
  - rewrite Heq. apply grouped_edits.
  - unfold group. cbn [undo_stack with_stacks group_interval]. rewrite rev_unit.
    rewrite (group_loop_run _ keep (absorb merged e) []); [|by rewrite rev_involutive|done|].
    + rewrite (group_trailing_eq _ keep (absorb merged e) []) by done. do 3 f_equal. cbn.
      f_equal. unfold absorb. cbn. by rewrite app_nil_r.
    + intros prev Hp. specialize (Hmax prev Hp). exact Hmax.
Qed.

(** [group_until] merges everything after the last entry of the transaction into it,
    unless one of those entries is finalized, or the transaction is not there; then it
    does nothing. *)
Theorem group_until_correct h id :
  (∀ keep e merged, undo_stack h = keep ++ e :: merged → transaction_id e = id →
     Forall (fun m => transaction_id m ≠ id ∧ he_suppress_grouping m = false) merged →
     ∃ h', group_until h id = Ok h' ∧ h' = with_stacks h (keep ++ [absorb merged e]) (redo_stack h)
       ∧ stack_edits (undo_stack h') = stack_edits (undo_stack h))
  ∧ ((∀ keep e merged, undo_stack h = keep ++ e :: merged → transaction_id e = id →
        Exists (fun m => transaction_id m = id ∨ he_suppress_grouping m = true) merged) →
     group_until h id = Ok h).
Proof.
  split.
  - intros keep e merged Hu Hid Hm. exists (with_stacks h (keep ++ [absorb merged e]) (redo_stack h)).
    split_and!; [|done|cbn; rewrite Hu; apply grouped_edits].
    unfold group_until. assert (Hl : ∀ count, group_until_loop id (rev (undo_stack h)) count
                                      = Some (count + length merged)%nat).
    { rewrite Hu. clear Hu. induction merged as [|m merged IH] using rev_ind; intros count.
      - rewrite rev_unit. cbn. rewrite Hid. rewrite (eqb_refl id). by rewrite Nat.add_0_r.
      - apply Forall_app in Hm as [Hm Hm2]. apply Forall_cons in Hm2 as [[Hne Hs] _].
        rewrite app_comm_cons, app_assoc, rev_unit. cbn. rewrite Hs.
        destruct (eqb (transaction_id m) id) eqn:E; [by apply eqb_eq in E|].
        rewrite IH by done. f_equal. rewrite length_app. cbn. lia. }
    rewrite Hl. cbn [Nat.add]. by rewrite (group_trailing_eq _ keep e merged).
  - intros Hnone. unfold group_until. destruct (group_until_loop _ _ _) as [n|] eqn:E; [|done].
    apply group_until_split in E as (keep & e & merged & Heq & _ & He & Hm).
    rewrite rev_involutive in Heq. exfalso. specialize (Hnone _ _ _ Heq He).
    apply Exists_exists in Hnone as (m & Hin & Hor). rewrite Forall_forall in Hm.
    destruct (Hm m Hin) as [? ?]. destruct Hor; [done|congruence].
Qed.

(** ** A transaction from its start to its end *)
Fixpoint push_undos h (ids : list Lamport) : outcome history :=
  match ids with
  | [] => Ok h
  | id :: ids => h ← push_undo h id; push_undos h ids
  end.

Definition is_edit h (id : Lamport) : Prop :=
  match map_get (operations h) id with Some (OpEdit _) => True | _ => False end.

Lemma push_undos_eq h st e ids :
  (0 < transaction_depth h)%N → undo_stack h = st ++ [e] → Forall (is_edit h) ids →
  push_undos h ids = Ok (with_stacks h (st ++ [mkEntry
    (mkTransaction (transaction_id e) (entry_edits e ++ ids) (tx_start (he_transaction e)))
    (he_first_edit_at e) (he_last_edit_at e) (he_suppress_grouping e)]) (redo_stack h)).
Proof.
  revert h e. induction ids as [|id ids IH]; intros h e Hd Hu Hed.
  - rewrite app_nil_r. destruct h, e as [[]]. cbn in *. by subst.
  - apply Forall_cons in Hed as [Hid Hed]. cbn [push_undos]. unfold push_undo at 1.
    rewrite (proj2 (N.eqb_neq _ _)) by lia. cbn [negb assert_that mbind outcome_bind].
    unfold is_edit in Hid. destruct (map_get (operations h) id) as [[?|?]|]; try done.
    rewrite Hu, last_snoc, update_last_snoc. cbn [unwrap mbind outcome_bind].
    rewrite (IH _ (add_edit id e)); [|done..]. cbn. unfold entry_edits. cbn. by rewrite <-app_assoc.
Qed.

(** A transaction that is started, given edits and ended at depth zero leaves one new
    entry with exactly these edits, from the version and time it was started at to the
    time it was ended at, and clears the redo stack; without any edit it leaves the
    history as it was, the redo stack included. *)
Theorem transaction_bracket h clock start now ids now' :
  transaction_depth h = 0%N → Forall (is_edit h) ids →
  let '(h1, _, id) := start_transaction h start now clock in
  id = Some clock ∧
  ok_with (h2 ← push_undos h1 ids; end_transaction h2 now') (fun r =>
    match ids with
    | [] => r = (h, None)
    | _ =>
        let entry := mkEntry (mkTransaction clock ids start) now now' false in
        r = (with_stacks h (undo_stack h ++ [entry]) [], Some entry)
    end).
Proof.
  intros Hd Hed. unfold start_transaction. rewrite Hd. cbn [with_depth transaction_depth].
  change (usize_add 0 1) with 1%N. cbn [N.eqb Pos.eqb lamport_tick]. split; [done|].
  rewrite (push_undos_eq _ (undo_stack h) (mkEntry (mkTransaction clock [] start) now now false)) by done.
  cbn [mbind outcome_bind]. unfold end_transaction. cbn [transaction_depth with_stacks push_entry with_depth].
  change (negb (1 =? 0)%N) with true. change (usize_sub 1 1) with 0%N. cbn [assert_that mbind outcome_bind N.eqb].
  cbn [undo_stack redo_stack with_depth with_stacks transaction_depth N.eqb]. rewrite last_snoc.
  cbn [unwrap mbind outcome_bind]. unfold entry_edits.
  cbn [he_transaction tx_edit_ids app]. destruct ids as [|id ids].
  - rewrite take_pop. cbn. by destruct h; cbn in *; subst.
  - rewrite update_last_snoc. cbn. unfold with_stacks, set_last_edit_at. cbn. by rewrite Hd.
Qed.

(** ** Merging transactions *)
Lemma entry_unique h e1 e2 :
  NoDup (transaction_id <$> all_entries h) → e1 ∈ all_entries h → e2 ∈ all_entries h →
  transaction_id e1 = transaction_id e2 → e1 = e2.
Proof.
  intros Hnd (i & Hi)%list_elem_of_lookup (j & Hj)%list_elem_of_lookup Heq.
  assert (i = j); [|congruence].
  eapply (NoDup_lookup _ _ _ (transaction_id e1) Hnd); rewrite list_lookup_fmap; [by rewrite Hi|].
  by rewrite Hj, Heq.
Qed.

Lemma rfind_Some st id e :
  rfind (fun e => eqb (transaction_id e) id) st = Some e → e ∈ st ∧ transaction_id e = id.
Proof.
  unfold rfind. destruct (rposition _ st) as [i|] eqn:E; [|done]. cbn.
  apply rposition_Some in E as (l1 & x & l2 & -> & -> & Hx & _).
  rewrite list_lookup_middle by done. intros [= <-]. split; [|by apply eqb_eq].
  apply elem_of_app. right. by left.
Qed.

Lemma rfind_None st id :
  rfind (fun e => eqb (transaction_id e) id) st = None → id ∉ (transaction_id <$> st).
Proof.
  unfold rfind. destruct (rposition _ st) as [i|] eqn:E; cbn.
  - apply rposition_Some in E as (l1 & x & l2 & -> & -> & _). by rewrite list_lookup_middle.
  - apply rposition_None in E. intros _ (e & -> & He)%list_elem_of_fmap.
    rewrite Forall_forall in E. specialize (E _ He). cbn in E. by rewrite eqb_refl in E.
Qed.

(** With distinct ids, [transaction] finds a transaction wherever it is. *)
Lemma transaction_spec h id t :
  NoDup (transaction_id <$> all_entries h) →
  transaction h id = Some t ↔ ∃ e, e ∈ all_entries h ∧ transaction_id e = id ∧ he_transaction e = t.
Proof.
  intros Hnd. unfold transaction.
  destruct (rfind _ (undo_stack h)) as [e|] eqn:E1.
  - apply rfind_Some in E1 as [He Hid]. assert (e ∈ all_entries h) by (apply elem_of_app; by left).
    split; [intros [= <-]; eauto|]. intros (e' & He' & Hid' & <-).
    by rewrite (entry_unique h e e') by (done || congruence).
  - apply rfind_None in E1. destruct (rfind _ (redo_stack h)) as [e|] eqn:E2; cbn.
    + apply rfind_Some in E2 as [He Hid]. assert (e ∈ all_entries h) by (apply elem_of_app; by right).
      split; [intros [= <-]; eauto|]. intros (e' & He' & Hid' & <-).
      by rewrite (entry_unique h e e') by (done || congruence).
    + apply rfind_None in E2. split; [done|]. intros (e & [He|He]%elem_of_app & <- & _).
      * by destruct E1; apply list_elem_of_fmap_2.
      * by destruct E2; apply list_elem_of_fmap_2.
Qed.

Lemma transaction_None h id :
  transaction h id = None ↔ id ∉ (transaction_id <$> all_entries h).
Proof.
  unfold transaction, all_entries. rewrite fmap_app, elem_of_app. split.
  - destruct (rfind _ (undo_stack h)) as [e|] eqn:E1; [done|].
    destruct (rfind _ (redo_stack h)) as [e|] eqn:E2; [done|].
    intros _. apply rfind_None in E1, E2. tauto.
  - intros Hn. destruct (rfind _ (undo_stack h)) as [e|] eqn:E1.
    { apply rfind_Some in E1 as [He <-]. destruct Hn. left. by apply list_elem_of_fmap_2. }
    destruct (rfind _ (redo_stack h)) as [e|] eqn:E2; [|done].
    apply rfind_Some in E2 as [He <-]. destruct Hn. right. by apply list_elem_of_fmap_2.
Qed.

Lemma forget_entries h id t :
  transaction_depth h = 0%N → transaction h id = Some t →
  ∃ h1 e, forget h id = Ok (h1, Some t) ∧ e :: all_entries h1 ≡ₚ all_entries h
    ∧ transaction_id e = id ∧ he_transaction e = t.
Proof.
  intros Hd. unfold transaction, forget, rfind. rewrite assert_closed by done.
  destruct (rposition _ (undo_stack h)) as [i|] eqn:E1; cbn [mbind option_bind].
  - apply rposition_Some in E1 as (l1 & x & l2 & Hu & -> & Hx & _).
    rewrite Hu, list_lookup_middle, vec_remove_middle by done. intros [= <-].
    eexists _, x. split; [done|]. apply eqb_eq in Hx. split_and!; [|done|done].
    unfold all_entries. cbn. rewrite Hu, <-!app_assoc. apply Permutation_middle.
  - destruct (rposition _ (redo_stack h)) as [i|] eqn:E2; cbn [mbind option_bind option_map]; [|done].
    apply rposition_Some in E2 as (l1 & x & l2 & Hu & -> & Hx & _).
    rewrite Hu, list_lookup_middle, vec_remove_middle by done. intros [= <-].
    eexists _, x. split; [done|]. apply eqb_eq in Hx. split_and!; [|done|done].
    unfold all_entries. cbn. rewrite Hu, !(app_assoc (undo_stack h)).
    apply (Permutation_middle (undo_stack h ++ l1) l2 x).
Qed.

Lemma transaction_mut_None h id f : transaction_mut h id f = None → transaction h id = None.
Proof.
  unfold transaction_mut, transaction, rfind.
  destruct (rposition _ (undo_stack h)); [done|]. by destruct (rposition _ (redo_stack h)).
Qed.

(** Merging one transaction into another, wherever the two are, removes the first and
    appends its edits to the second; every other transaction stays as it is. *)
Theorem merge_transactions_correct h clock id destination t d :
  history_ok h clock → transaction_depth h = 0%N → id ≠ destination →
  transaction h id = Some t → transaction h destination = Some d →
  ok_with (merge_transactions h id destination) (fun h' =>
    transaction h' id = None ∧ transaction h' destination = Some (merge_in d t)
    ∧ ∀ other, other ≠ id → other ≠ destination → transaction h' other = transaction h other).
Proof.
  intros Hok Hd Hne Ht Hdst. pose proof (ho_ids _ _ Hok) as Hnd.
  destruct (forget_entries h id t Hd Ht) as (h1 & e & Hf & Hp & Hid & _).
  pose proof Hnd as Hnd1. rewrite <-Hp in Hnd1. cbn in Hnd1. apply NoDup_cons in Hnd1 as [Hni Hnd1].
  unfold merge_transactions. rewrite Hf. cbn [mbind outcome_bind ok_with].
  assert (Hsame : ∀ i u, i ≠ id → transaction h1 i = Some u ↔ transaction h i = Some u).
  { intros i u Hi. rewrite !transaction_spec by done. setoid_rewrite <-Hp. setoid_rewrite elem_of_cons.
    naive_solver. }
  destruct (transaction_mut h1 destination _) as [h2|] eqn:E.
  2:{ apply transaction_mut_None in E. apply Hsame in Hdst; [congruence|done]. }
  apply transaction_mut_entries in E as (l1 & x & l2 & He1 & He2 & Hx & _). cbn [default from_option Datatypes.id].
  assert (Hids : (transaction_id <$> all_entries h2) = (transaction_id <$> all_entries h1)).
  { by rewrite He1, He2, !fmap_app. }
  assert (Hxd : he_transaction x = d).
  { apply Hsame in Hdst; [|done]. apply transaction_spec in Hdst as (y & Hy & Hyd & <-); [|done].
    rewrite (entry_unique h1 x y); try done; [|congruence]. rewrite He1. apply elem_of_app. right. by left. }
  split_and!.
  - apply transaction_None. by rewrite Hids, <-Hid.
  - apply transaction_spec; [by rewrite Hids|]. eexists. rewrite He2, elem_of_app.
    split; [right; by left|]. cbn. split; [done|]. by rewrite Hxd.
  - intros i Hi1 Hi2. apply option_eq. intros u. rewrite <-Hsame by done.
    rewrite !transaction_spec by (done || by rewrite Hids). rewrite He1, He2.
    setoid_rewrite elem_of_app. setoid_rewrite elem_of_cons.
    split; intros (y & [?|[->|?]] & ? & ?); try (exists y; naive_solver);
      unfold transaction_id in *; cbn in *; congruence.
Qed.
End facts.

(** ** Examples *)
Local Open Scope N_scope.
#[local] Instance Lamport_eq_dec : EqDecision Lamport := ord_eq_dec.

Definition ex_time (n : N) : Lamport := mkLamport n (mkReplicaId 0).
Definition ex_entry (id : N) (edits : list N) (first last : Instant) (suppress : bool) : HistoryEntry :=
  mkEntry (mkTransaction (ex_time id) (ex_time <$> edits) global_new) first last suppress.

(** Three transactions, the last two within 300 ms, and one undone. *)
Definition ex_undo_stack : list HistoryEntry :=
  [ex_entry 1 [2] 0 10 false; ex_entry 3 [4; 5] 1000000000 1100000000 false;
   ex_entry 6 [7] 1200000000 1300000000 false].
Definition ex_redo_stack : list HistoryEntry := [ex_entry 8 [9] 5000000000 5000000000 false].
Definition ex_history : History unit := mkHistory tt map_default ex_undo_stack ex_redo_stack 0 300000000.

Lemma ex_history_ok : history_ok ex_history (ex_time 10).
Proof.
  split; try done.
  - by apply (bool_decide_unpack _); vm_compute.
  - repeat (constructor; [done|]). constructor.
  - by apply (bool_decide_unpack _); vm_compute.
  - split; [split; [by left|by vm_compute]|constructor].
Defined.

Definition ex_edit (n : N) : Operation := OpEdit (mkEditOperation (ex_time n) global_new [] []).

Lemma history_reachable_ok_witness :
  ∃ h clock, reachable tt (ex_time 2) h clock
    ∧ (stack_edits (undo_stack h) = [ex_time 1] ∧ transaction_depth h = 1)
    ∧ is_panic (exec h clock (CEnd 7)) = false.
Proof.
  assert (Hr : ∃ h clock, reachable tt (ex_time 2) h clock
    ∧ (stack_edits (undo_stack h) = [ex_time 1] ∧ transaction_depth h = 1)
    ∧ allowed h clock (CEnd 7)).
  { eexists _, _. split.
    - eapply (reach_step _ _ _ _ (CPushUndo (ex_time 1))).
      + eapply (reach_step _ _ _ _ (CStart global_new 5)).
        * eapply (reach_step _ _ _ _ (CPush (ex_edit 1))); [apply reach_new|by vm_compute|].
          vm_compute. reflexivity.
        * by vm_compute.
        * vm_compute. reflexivity.
      + split; [by vm_compute|]. apply not_elem_of_nil.
      + vm_compute. reflexivity.
    - split; [by vm_compute|]. by vm_compute. }
  destruct Hr as (h & clock & Hr & Hs & Ha). exists h, clock. split; [exact Hr|]. split; [exact Hs|].
  exact (proj2 (history_reachable_ok tt (ex_time 2) h clock Hr) (CEnd 7) Ha).
Defined.

Lemma undo_redo_roundtrip_witness :
  ∃ h', remove_from_undo_until ex_history (ex_time 3)
          = Ok (h', [ex_entry 6 [7] 1200000000 1300000000 false; ex_entry 3 [4; 5] 1000000000 1100000000 false])
     ∧ remove_from_redo h' (ex_time 6) = Ok (ex_history, drop 1%nat ex_undo_stack).
Proof.
  destruct (undo_redo_roundtrip ex_history (ex_time 10) (take 1%nat ex_undo_stack)
    (ex_entry 3 [4; 5] 1000000000 1100000000 false) (drop 2%nat ex_undo_stack)
    (ex_entry 6 [7] 1200000000 1300000000 false)
    [ex_entry 3 [4; 5] 1000000000 1100000000 false] ex_history_ok eq_refl eq_refl eq_refl)
    as [_ (h' & H1 & _ & H2)].
  exists h'. exact (conj H1 H2).
Defined.

Lemma group_correct_witness :
  group ex_history = Ok (with_stacks ex_history
    [ex_entry 1 [2] 0 10 false; ex_entry 3 [4; 5; 7] 1000000000 1300000000 false] ex_redo_stack,
    Some (ex_time 3))
  ∧ ∃ h' id, group ex_history = Ok (h', Some id) ∧ stack_edits (undo_stack h') = stack_edits ex_undo_stack
      ∧ group h' = Ok (h', Some id).
Proof.
  split; [vm_compute; reflexivity|].
  destruct (group_correct ex_history (ex_entry 6 [7] 1200000000 1300000000 false) eq_refl)
    as (keep & e & merged & h' & _ & _ & _ & H1 & _ & _ & H2 & H3).
  exists h', (transaction_id e). exact (conj H1 (conj H2 H3)).
Defined.

Lemma transaction_bracket_witness :
  let h := mkHistory tt (match map_insert map_default (ex_time 1) (ex_edit 1) with Ok m => m | Panic => map_default end)
             [] ex_redo_stack 0 300000000 in
  Forall (is_edit h) [ex_time 1]
  ∧ ok_with (h2 ← push_undos (start_transaction h global_new 5 (ex_time 2)).1.1 [ex_time 1]; end_transaction h2 9)
      (fun r => r = (with_stacks h [mkEntry (mkTransaction (ex_time 2) [ex_time 1] global_new) 5 9 false] [],
                     Some (mkEntry (mkTransaction (ex_time 2) [ex_time 1] global_new) 5 9 false))).
Proof.
  intros h. assert (He : Forall (is_edit h) [ex_time 1]) by (constructor; [vm_compute; exact I|constructor]).
  split; [exact He|].
  exact (proj2 (transaction_bracket h (ex_time 2) global_new 5 [ex_time 1] 9 eq_refl He)).
Defined.

Lemma merge_transactions_correct_witness :
  ok_with (merge_transactions ex_history (ex_time 6) (ex_time 8)) (fun h' =>
    transaction h' (ex_time 6) = None
    ∧ transaction h' (ex_time 8) = Some (mkTransaction (ex_time 8) [ex_time 9; ex_time 7] global_new)).
Proof.
  eapply ok_with_mono.
  - apply (merge_transactions_correct ex_history (ex_time 10) (ex_time 6) (ex_time 8)
      (mkTransaction (ex_time 6) [ex_time 7] global_new) (mkTransaction (ex_time 8) [ex_time 9] global_new)
      ex_history_ok eq_refl ltac:(discriminate) eq_refl eq_refl).
  - intros h' (H1 & H2 & _). exact (conj H1 H2).
Defined.

Lemma group_until_correct_witness :
  ∃ h', group_until ex_history (ex_time 1) = Ok h'
    ∧ undo_stack h' = [ex_entry 1 [2; 4; 5; 7] 0 1300000000 false].
Proof.
  destruct (proj1 (group_until_correct ex_history (ex_time 1)) [] (ex_entry 1 [2] 0 10 false)
    (drop 1%nat ex_undo_stack) eq_refl eq_refl) as (h' & H1 & H2 & _).
  - repeat (constructor; [split; [discriminate|reflexivity]|]). constructor.
  - exists h'. split; [exact H1|]. rewrite H2. reflexivity.
Defined.
