(* ===== verification/Bitmap.v ===== *)
(** * [u128] bitmaps and the selection of a set bit

    What [crates/rope/src/chunk.rs] uses of [u128] and [u64], its two mask helpers, and
    [nth_set_bit] with the branchless [nth_set_bit_u64].  A bitmap is the value
    [bits_of l] of a list of bits, lowest first; on lists, masking is [take], shifting
    is [drop], and counting is counting. *)

From S2P Require Import Prelude.
Local Open Scope N_scope.

(** ** Machine operations *)
Definition u64_wrap (n : N) : N := n `mod` 2 ^ 64.
Definition u128_wrap (n : N) : N := n `mod` 2 ^ 128.
Definition u128_max : N := 2 ^ 128 - 1.
Definition BITS : N := 128.

Fixpoint pos_count_ones (p : positive) : N :=
  match p with
  | xH => 1
  | xO p => pos_count_ones p
  | xI p => 1 + pos_count_ones p
  end.
Definition count_ones (v : N) : N := match v with 0 => 0 | Npos p => pos_count_ones p end.

Fixpoint pos_trailing_zeros (p : positive) : N :=
  match p with xO p => 1 + pos_trailing_zeros p | _ => 0 end.
Definition trailing_zeros (v : N) : N := match v with 0 => BITS | Npos p => pos_trailing_zeros p end.
Definition leading_zeros (v : N) : N := BITS - N.size v.

(** [unbounded_shl], and the operators [<<] and [>>], which take the amount modulo the
    width in the release profile. *)
Definition unbounded_shl (v k : N) : N := if k <? BITS then u128_wrap (N.shiftl v k) else 0.
Definition unbounded_shr (v k : N) : N := if k <? BITS then N.shiftr v k else 0.
Definition u128_shl (v k : N) : N := u128_wrap (N.shiftl v (k `mod` BITS)).
Definition u128_shr (v k : N) : N := N.shiftr v (k `mod` BITS).
Definition u128_wrapping_sub (a b : N) : N := (a + 2 ^ 128 - b) `mod` 2 ^ 128.
Definition u128_not (v : N) : N := u128_max - v.

Definition saturating_shl_mask (offset : N) : N := u128_wrapping_sub (unbounded_shl 1 offset) 1.
Definition saturating_shr_mask (offset : N) : N := u128_not (unbounded_shr u128_max offset).

(** ** Bitmaps as lists of bits *)
Fixpoint bits_of (l : list bool) : N :=
  match l with [] => 0 | b :: l => N.b2n b + 2 * bits_of l end.

Fixpoint count_true (l : list bool) : N :=
  match l with [] => 0 | b :: l => N.b2n b + count_true l end.

(** The index of the first set bit; the length of the list without one. *)
Fixpoint first_true (l : list bool) : nat :=
  match l with [] => 0 | true :: _ => 0 | false :: l => S (first_true l) end.

(** One more than the index of the last set bit; zero without one. *)
Fixpoint after_last_true (l : list bool) : nat :=
  match l with
  | [] => 0
  | b :: l => match after_last_true l with O => if b then 1 else 0 | k => S k end
  end.

Lemma bits_of_bound l : bits_of l < 2 ^ N.of_nat (length l).
Proof.
  induction l as [|b l IH]; cbn [bits_of length]; [done|].
  rewrite Nat2N.inj_succ, N.pow_succ_r'. destruct b; cbn [N.b2n]; lia.
Qed.

Lemma bits_of_small l : (length l <= 128)%nat → bits_of l < 2 ^ 128.
Proof.
  intros. eapply N.lt_le_trans; [apply bits_of_bound|]. apply N.pow_le_mono_r; lia.
Qed.

Lemma bits_of_app l k : bits_of (l ++ k) = bits_of l + 2 ^ N.of_nat (length l) * bits_of k.
Proof.
  induction l as [|b l IH]; cbn [bits_of length app]; [lia|].
  rewrite Nat2N.inj_succ, N.pow_succ_r', IH. lia.
Qed.

Lemma bits_of_false n : bits_of (replicate n false) = 0.
Proof. induction n as [|n IH]; [done|]. simpl. by rewrite IH. Qed.

Lemma count_ones_cons b v : count_ones (N.b2n b + 2 * v) = N.b2n b + count_ones v.
Proof. by destruct b, v. Qed.

Lemma count_ones_bits l : count_ones (bits_of l) = count_true l.
Proof. induction l as [|b l IH]; [done|]. cbn [bits_of count_true]. by rewrite count_ones_cons, IH. Qed.

Lemma bits_of_zero l : bits_of l = 0 ↔ first_true l = length l.
Proof.
  induction l as [|b l IH]; [done|]. cbn [bits_of first_true length]. destruct b; cbn [N.b2n]; lia.
Qed.

Lemma trailing_zeros_bits l :
  trailing_zeros (bits_of l) =
    if decide (first_true l = length l) then BITS else N.of_nat (first_true l).
Proof.
  destruct (decide (first_true l = length l)) as [E|E]; [by apply bits_of_zero in E as ->|].
  induction l as [|b l IH]; [done|]. cbn [bits_of first_true length] in *. destruct b; cbn [N.b2n].
  - by destruct (bits_of l).
  - rewrite Nat2N.inj_succ, <-IH by congruence. destruct (bits_of l) as [|p] eqn:Eb.
    + by apply bits_of_zero in Eb; rewrite Eb in E.
    + change (1 + pos_trailing_zeros p = N.succ (pos_trailing_zeros p)). lia.
Qed.

Lemma size_cons b v : N.size (N.b2n b + 2 * v) = if v =? 0 then N.b2n b else N.succ (N.size v).
Proof. by destruct b, v. Qed.

Lemma size_bits l : N.size (bits_of l) = N.of_nat (after_last_true l).
Proof.
  assert (Hz : ∀ l, bits_of l = 0 ↔ after_last_true l = 0%nat).
  { clear. induction l as [|b l IH]; [done|]. cbn [bits_of after_last_true].
    destruct (after_last_true l), b; cbn [N.b2n]; lia. }
  induction l as [|b l IH]; [done|]. cbn [bits_of after_last_true]. rewrite size_cons.
  specialize (Hz l). destruct (N.eqb_spec (bits_of l) 0) as [E|E].
  - apply Hz in E. rewrite E. by destruct b.
  - rewrite IH. destruct (after_last_true l); [|lia]. destruct E. by apply Hz.
Qed.

Lemma leading_zeros_bits l : leading_zeros (bits_of l) = 128 - N.of_nat (after_last_true l).
Proof. unfold leading_zeros. by rewrite size_bits. Qed.

(** ** Masking and shifting *)
Lemma land_cons b v c w :
  N.land (N.b2n b + 2 * v) (N.b2n c + 2 * w) = N.b2n (b && c) + 2 * N.land v w.
Proof.
  apply N.bits_inj. intros i. rewrite !(N.add_comm (N.b2n _)), N.land_spec.
  destruct (N.zero_or_succ i) as [->|[j ->]]; [by rewrite !N.testbit_0_r|].
  by rewrite !N.testbit_succ_r, N.land_spec.
Qed.

Lemma lor_cons b v c w :
  N.lor (N.b2n b + 2 * v) (N.b2n c + 2 * w) = N.b2n (b || c) + 2 * N.lor v w.
Proof. by destruct b, c, v, w. Qed.

Lemma ones_bits n : N.ones (N.of_nat n) = bits_of (replicate n true).
Proof.
  rewrite N.ones_equiv. induction n as [|n IH]; [done|].
  cbn [replicate bits_of N.b2n]. rewrite <-IH, Nat2N.inj_succ, N.pow_succ_r'.
  pose proof (N.pow_nonzero 2 (N.of_nat n)). lia.
Qed.

Lemma land_ones_bits l n : N.land (bits_of l) (N.ones (N.of_nat n)) = bits_of (take n l).
Proof.
  rewrite ones_bits. revert n. induction l as [|b l IH]; intros [|n]; try done.
  - cbn [take replicate bits_of]. by rewrite N.land_0_r.
  - cbn [take replicate bits_of]. rewrite (land_cons b _ true), IH. by rewrite andb_true_r.
Qed.

Lemma shiftr_bits l n : N.shiftr (bits_of l) (N.of_nat n) = bits_of (drop n l).
Proof.
  revert n. induction l as [|b l IH]; intros [|n]; try done.
  - cbn [drop bits_of]. by rewrite N.shiftr_0_l.
  - cbn [drop bits_of]. rewrite Nat2N.inj_succ, <-N.add_1_l, <-N.shiftr_shiftr.
    replace (N.shiftr (N.b2n b + 2 * bits_of l) 1) with (bits_of l); [apply IH|].
    by destruct b, (bits_of l).
Qed.

Lemma shiftl_bits l n : N.shiftl (bits_of l) (N.of_nat n) = bits_of (replicate n false ++ l).
Proof. rewrite N.shiftl_mul_pow2, bits_of_app, bits_of_false, length_replicate. lia. Qed.

Lemma lor_bits_app l k :
  N.lor (bits_of l) (bits_of (replicate (length l) false ++ k)) = bits_of (l ++ k).
Proof.
  induction l as [|b l IH]; [done|].
  cbn [length replicate app bits_of]. rewrite (lor_cons b _ false), IH. by rewrite orb_false_r.
Qed.

Lemma land_bits l k : N.land (bits_of l) (bits_of k) = bits_of (zip_with andb l k).
Proof.
  revert k. induction l as [|b l IH]; intros [|c k]; try done.
  - cbn [bits_of zip_with]. by rewrite N.land_0_r.
  - cbn [bits_of zip_with]. by rewrite land_cons, IH.
Qed.

(** ** The operations on bitmaps of at most 128 bits *)
Section bitmap.
Context (l : list bool) (Hlen : (length l <= 128)%nat).

Lemma u128_wrap_small n : n < 2 ^ 128 → u128_wrap n = n.
Proof. apply N.mod_small. Qed.

Lemma shl_mask n :
  u128_wrapping_sub (unbounded_shl 1 (N.of_nat n)) 1 = N.ones (N.of_nat (n `min` 128)).
Proof.
  unfold unbounded_shl, BITS. rewrite N.ones_equiv. destruct (N.ltb_spec (N.of_nat n) 128).
  - replace (n `min` 128)%nat with n by lia. rewrite N.shiftl_1_l.
    assert (2 ^ N.of_nat n < 2 ^ 128) by (apply N.pow_lt_mono_r; lia).
    pose proof (N.pow_nonzero 2 (N.of_nat n)).
    rewrite u128_wrap_small by done. unfold u128_wrapping_sub.
    replace (2 ^ N.of_nat n + 2 ^ 128 - 1) with ((2 ^ N.of_nat n - 1) + 1 * 2 ^ 128) by lia.
    rewrite N.Div0.mod_add, N.mod_small by lia. lia.
  - by replace (n `min` 128)%nat with 128%nat by lia.
Qed.

Lemma mask_bits n :
  N.land (bits_of l) (u128_wrapping_sub (unbounded_shl 1 (N.of_nat n)) 1) = bits_of (take n l).
Proof.
  rewrite shl_mask, land_ones_bits. destruct (decide (n <= 128)%nat).
  - by replace (n `min` 128)%nat with n by lia.
  - by rewrite !take_ge by lia.
Qed.

Lemma shr_bits n : (n < 128)%nat → u128_shr (bits_of l) (N.of_nat n) = bits_of (drop n l).
Proof. intros. unfold u128_shr, BITS. rewrite N.mod_small by lia. apply shiftr_bits. Qed.

Lemma shl_bits n :
  (n < 128)%nat → (n + length l <= 128)%nat →
  u128_shl (bits_of l) (N.of_nat n) = bits_of (replicate n false ++ l).
Proof.
  intros. unfold u128_shl, BITS. rewrite (N.mod_small (N.of_nat n)), shiftl_bits by lia.
  apply u128_wrap_small, bits_of_small. rewrite length_app, length_replicate. lia.
Qed.

(** [saturating_shr_mask(newlines.leading_zeros())] selects what is after the last bit. *)
Lemma shr_mask n :
  (n <= 128)%nat → saturating_shr_mask (128 - N.of_nat n) = N.shiftl (N.ones (128 - N.of_nat n)) (N.of_nat n).
Proof.
  intros. unfold saturating_shr_mask, unbounded_shr, u128_not, BITS, u128_max.
  rewrite N.shiftl_mul_pow2, N.ones_equiv.
  assert (E : 2 ^ 128 = 2 ^ (128 - N.of_nat n) * 2 ^ N.of_nat n).
  { rewrite <-N.pow_add_r. f_equal. lia. }
  pose proof (N.pow_nonzero 2 (N.of_nat n)). pose proof (N.pow_nonzero 2 (128 - N.of_nat n)).
  destruct (N.ltb_spec (128 - N.of_nat n) 128).
  - rewrite N.shiftr_div_pow2.
    replace ((2 ^ 128 - 1) / 2 ^ (128 - N.of_nat n)) with (2 ^ N.of_nat n - 1).
    + nia.
    + apply N.div_unique with (r := 2 ^ (128 - N.of_nat n) - 1); nia.
  - replace n with 0%nat by lia. done.
Qed.

Lemma shr_mask_bits n :
  (n <= 128)%nat →
  count_ones (N.land (bits_of l) (saturating_shr_mask (128 - N.of_nat n))) = count_true (drop n l).
Proof.
  intros. rewrite shr_mask by done.
  replace (128 - N.of_nat n) with (N.of_nat (128 - n)) by lia.
  rewrite ones_bits, shiftl_bits, land_bits, count_ones_bits. clear -Hlen H.
  assert (Hk : (length l <= n + (128 - n))%nat) by lia. revert Hk. generalize (128 - n)%nat as k.
  clear. revert n. induction l as [|b l' IH]; intros [|n] k Hk; try done; cbn [length] in Hk.
  - destruct k as [|k]; [lia|]. cbn. rewrite andb_true_r. f_equal. apply (IH 0%nat). lia.
  - cbn. rewrite andb_false_r. apply IH. lia.
Qed.
End bitmap.
