(* ===== verification/Select.v ===== *)
(** * Selecting the n-th set bit: [nth_set_bit] of [crates/rope/src/chunk.rs]

    [nth_set_bit_u64] adds up bits in parallel, first in pairs, then in groups of four,
    eight and sixteen, and descends through these counts without a branch.  It is
    equivalent to scanning the bits. *)

From S2P Require Import Prelude Bitmap.
Local Open Scope N_scope.

(** ** The code *)
Fixpoint reverse_bits_loop (fuel : nat) (v acc : N) : N :=
  match fuel with
  | O => acc
  | S fuel => reverse_bits_loop fuel (N.div2 v) (N.b2n (N.odd v) + 2 * acc)
  end.
(** [u64::reverse_bits] *)
Definition reverse_bits (v : N) : N := reverse_bits_loop 64 v 0.

Definition u64_sub (a b : N) : N := (a + 2 ^ 64 - b) `mod` 2 ^ 64.
Definition u64_add (a b : N) : N := (a + b) `mod` 2 ^ 64.
Definition u64_shr (a k : N) : N := N.shiftr a (k `mod` 64).

(** One step of the branchless select: [s -= (t.wrapping_sub(n) & 256) >> k] and
    [n -= t & (t.wrapping_sub(n) >> 8)]. *)
Definition select_step (t k : N) (sn : N * N) : N * N :=
  let '(s, n) := sn in
  (u64_sub s (u64_shr (N.land (u64_sub t n) 256) k),
   u64_sub n (N.land t (u64_shr (u64_sub t n) 8))).

Definition nth_set_bit_u64 (v n : N) : N :=
  let v := reverse_bits v in
  let a := u64_sub v (N.land (u64_shr v 1) (u64_max / 3)) in
  let b := u64_add (N.land a (u64_max / 5)) (N.land (u64_shr a 2) (u64_max / 5)) in
  let c := N.land (u64_add b (u64_shr b 4)) (u64_max / 17) in
  let d := N.land (u64_add c (u64_shr c 8)) (u64_max / 257) in
  let sn := (64, n) in
  let t := u64_add (u64_shr d 32) (u64_shr d 48) in
  let sn := select_step t 3 sn in
  let t := N.land (u64_shr d (u64_sub sn.1 16)) 255 in
  let sn := select_step t 4 sn in
  let t := N.land (u64_shr c (u64_sub sn.1 8)) 15 in
  let sn := select_step t 5 sn in
  let t := N.land (u64_shr b (u64_sub sn.1 4)) 7 in
  let sn := select_step t 6 sn in
  let t := N.land (u64_shr a (u64_sub sn.1 2)) 3 in
  let sn := select_step t 7 sn in
  let t := N.land (u64_shr v (u64_sub sn.1 1)) 1 in
  let s := u64_sub sn.1 (u64_shr (N.land (u64_sub t sn.2) 256) 8) in
  u64_sub (u64_sub 65 s) 1.

Definition nth_set_bit (v n : N) : N :=
  let low := u64_wrap v in
  let high := u64_wrap (N.shiftr v 64) in
  let low_count := count_ones low in
  if low_count <? n then u64_add 64 (nth_set_bit_u64 high (u64_sub n low_count))
  else nth_set_bit_u64 low n.

(** ** Numbers as digits of [w] bits *)
Fixpoint undig (w : N) (l : list N) : N :=
  match l with [] => 0 | x :: l => x + 2 ^ w * undig w l end.

Definition digits_below (w : N) (l : list N) : Prop := Forall (fun x => x < 2 ^ w) l.

Lemma digit_testbit w x y i :
  x < 2 ^ w → N.testbit (x + 2 ^ w * y) i = if i <? w then N.testbit x i else N.testbit y (i - w).
Proof.
  intros Hx. destruct (N.ltb_spec i w).
  - rewrite <-(N.mod_pow2_bits_low _ w) by done.
    by rewrite N.mul_comm, N.Div0.mod_add, N.mod_small.
  - replace i with ((i - w) + w) at 1 by lia. rewrite <-N.div_pow2_bits. f_equal.
    rewrite N.mul_comm, N.div_add by (by apply N.pow_nonzero). by rewrite N.div_small.
Qed.

Lemma land_below w x m : x < 2 ^ w → N.land x m < 2 ^ w.
Proof.
  intros Hx. rewrite <-(N.mod_small x (2 ^ w)) by done.
  rewrite <-N.land_ones, <-N.land_assoc, (N.land_comm (N.ones w)), N.land_assoc, N.land_ones.
  apply N.mod_lt. by apply N.pow_nonzero.
Qed.

Lemma land_digit w x y m z :
  x < 2 ^ w → m < 2 ^ w →
  N.land (x + 2 ^ w * y) (m + 2 ^ w * z) = N.land x m + 2 ^ w * N.land y z.
Proof.
  intros Hx Hm. apply N.bits_inj. intros i.
  rewrite N.land_spec, !digit_testbit by (done || by apply land_below).
  destruct (i <? w); by rewrite N.land_spec.
Qed.

(** Keeping every second digit: masking with [m, 0, m, 0, ..]. *)
Fixpoint evens (l : list N) : list N :=
  match l with x :: _ :: l => x :: evens l | _ => [] end.
(** Adding up neighbours. *)
Fixpoint pair_sums (l : list N) : list N :=
  match l with x :: y :: l => (x + y) :: pair_sums l | _ => [] end.
Fixpoint every_second (n : nat) (m : N) : list N :=
  match n with O => [] | S n => m :: 0 :: every_second n m end.

Lemma pair_ind (P : list N → Prop) :
  P [] → (∀ x, P [x]) → (∀ x y l, P l → P (x :: y :: l)) → ∀ l, P l.
Proof.
  intros H0 H1 H2. fix IH 1. intros [|x [|y l]]; [done|apply H1|]. apply H2, IH.
Qed.

Lemma land_evens w n l :
  digits_below w l → length l = (2 * n)%nat →
  N.land (undig w l) (undig w (every_second n (N.ones w))) = undig (2 * w) (evens l).
Proof.
  intros Hd. revert n. induction l as [|x|x y l IH] using pair_ind; intros n Hn.
  - by destruct n.
  - cbn in Hn. lia.
  - destruct n as [|n]; [done|]. cbn [every_second undig evens].
    apply Forall_cons in Hd as [Hx Hd]. apply Forall_cons in Hd as [Hy Hd].
    pose proof (N.pow_nonzero 2 w ltac:(done)).
    rewrite land_digit by (try done; rewrite N.ones_equiv; lia).
    rewrite (land_digit w y _ 0) by (try done; lia). rewrite IH by (try done; cbn in Hn; lia).
    rewrite N.land_0_r, N.land_ones, N.mod_small by done.
    replace (2 * w) with (w + w) by lia. rewrite N.pow_add_r. lia.
Qed.

Lemma shiftr_digit w x y : x < 2 ^ w → N.shiftr (x + 2 ^ w * y) w = y.
Proof.
  intros. rewrite N.shiftr_div_pow2, N.mul_comm, N.div_add by (by apply N.pow_nonzero).
  by rewrite N.div_small.
Qed.

Lemma shiftr_undig w l k :
  digits_below w l → N.shiftr (undig w l) (w * N.of_nat k) = undig w (drop k l).
Proof.
  revert k. induction l as [|x l IH]; intros [|k] Hd; cbn [undig drop].
  - by rewrite N.shiftr_0_l.
  - by rewrite N.shiftr_0_l.
  - by rewrite N.mul_0_r, N.shiftr_0_r.
  - apply Forall_cons in Hd as [Hx Hd]. rewrite Nat2N.inj_succ.
    replace (w * N.succ (N.of_nat k)) with (w + w * N.of_nat k) by lia. rewrite <-N.shiftr_shiftr, shiftr_digit by done. by apply IH.
Qed.

Lemma undig_bound w l : digits_below w l → undig w l < 2 ^ (w * N.of_nat (length l)).
Proof.
  induction 1 as [|x l Hx Hd IH]; cbn [undig length]; [by rewrite N.mul_0_r|].
  rewrite Nat2N.inj_succ. replace (w * N.succ (N.of_nat (length l))) with (w + w * N.of_nat (length l)) by lia.
  rewrite N.pow_add_r. nia.
Qed.

(** Reading one digit, or its low bits. *)
Lemma land_low j w x y : x < 2 ^ j → j <= w → N.land (x + 2 ^ w * y) (N.ones j) = x.
Proof.
  intros Hx Hj. rewrite N.land_ones. replace w with ((w - j) + j) by lia.
  rewrite N.pow_add_r. replace (2 ^ (w - j) * 2 ^ j * y) with ((2 ^ (w - j) * y) * 2 ^ j) by lia.
  by rewrite N.Div0.mod_add, N.mod_small.
Qed.

Lemma read_digit j w l k x :
  digits_below w l → l !! k = Some x → x < 2 ^ j → j <= w →
  N.land (N.shiftr (undig w l) (w * N.of_nat k)) (N.ones j) = x.
Proof.
  intros Hd Hk Hx Hj. rewrite shiftr_undig by done. rewrite (drop_S l x k) by done. cbn [undig].
  by apply land_low.
Qed.

(** ** The parallel counts *)
Lemma evens_add w l :
  undig w (evens l) + undig w (evens (drop 1 l ++ [0])) = undig w (pair_sums l).
Proof.
  induction l as [|x|x y l IH] using pair_ind; [done|done|].
  cbn [evens pair_sums undig drop app]. rewrite <-IH. destruct l as [|z l]; [cbn; lia|].
  cbn [drop app evens undig]. rewrite drop_0. lia.
Qed.

Lemma drop_digits w l : digits_below w l → digits_below w (drop 1 l ++ [0]).
Proof.
  intros. apply Forall_app. split; [by apply Forall_drop|]. constructor; [|done].
  pose proof (N.pow_nonzero 2 w ltac:(done)). lia.
Qed.

Lemma undig_snoc_zero w l : undig w (l ++ [0]) = undig w l.
Proof. induction l as [|x l IH]; cbn [app undig]; [lia|]. by rewrite IH. Qed.

(** [(x & m) + ((x >> w) & m)] *)
Lemma pair_step w n l :
  digits_below w l → length l = (2 * n)%nat →
  N.land (undig w l) (undig w (every_second n (N.ones w)))
  + N.land (N.shiftr (undig w l) w) (undig w (every_second n (N.ones w))) = undig (2 * w) (pair_sums l).
Proof.
  intros Hd Hn. destruct (decide (l = [])) as [->|Hne]; [by rewrite N.shiftr_0_l|].
  pose proof (shiftr_undig w l 1 Hd) as Hs. rewrite N.mul_1_r in Hs. rewrite Hs.
  rewrite <-(undig_snoc_zero w (drop 1 l)). rewrite !land_evens; try done.
  - apply evens_add.
  - by apply drop_digits.
  - destruct l; [done|]. rewrite length_app. cbn in *. rewrite drop_0. lia.
Qed.

Fixpoint neighbour_sums (l : list N) : list N :=
  match l with
  | [] => []
  | x :: l => (x + match l with [] => 0 | y :: _ => y end) :: neighbour_sums l
  end.

Lemma neighbour_sums_undig w l : undig w l + undig w (drop 1 l) = undig w (neighbour_sums l).
Proof.
  induction l as [|x l IH]; [done|]. cbn [drop undig neighbour_sums]. rewrite drop_0, <-IH.
  destruct l as [|y l]; cbn [undig drop]; [lia|]. rewrite drop_0. lia.
Qed.

Lemma evens_neighbours l : evens (neighbour_sums l) = pair_sums l ∨ Nat.Odd (length l).
Proof.
  induction l as [|x|x y l IH] using pair_ind; [by left|right; by exists 0%nat|].
  destruct IH as [IH|[k Hk]].
  - left. cbn [neighbour_sums evens pair_sums]. by rewrite IH.
  - right. exists (S k). cbn. lia.
Qed.

Lemma neighbour_sums_length l : length (neighbour_sums l) = length l.
Proof. induction l as [|x l IH]; [done|]. cbn. by rewrite IH. Qed.

Lemma neighbour_sums_below w b l :
  Forall (fun x => x <= b) l → 2 * b < 2 ^ w → digits_below w (neighbour_sums l).
Proof.
  intros Hl Hb. induction Hl as [|x l Hx Hl IH]; [constructor|]. cbn. constructor; [|done].
  destruct Hl; lia.
Qed.

(** [(x + (x >> w)) & m], when neighbours do not overflow a digit *)
Lemma neighbour_step w n b l :
  Forall (fun x => x <= b) l → 2 * b < 2 ^ w → length l = (2 * n)%nat →
  N.land (undig w l + N.shiftr (undig w l) w) (undig w (every_second n (N.ones w)))
  = undig (2 * w) (pair_sums l).
Proof.
  intros Hl Hb Hn.
  assert (Hd : digits_below w l) by (eapply Forall_impl; [exact Hl|]; cbn; lia).
  pose proof (shiftr_undig w l 1 Hd) as Hs. rewrite N.mul_1_r in Hs.
  rewrite Hs, neighbour_sums_undig, land_evens.
  - destruct (evens_neighbours l) as [->|[k Hk]]; [done|lia].
  - by eapply neighbour_sums_below.
  - by rewrite neighbour_sums_length.
Qed.

Lemma pair_sums_below b l : Forall (fun x => x <= b) l → Forall (fun x => x <= 2 * b) (pair_sums l).
Proof.
  induction l as [|x|x y l IH] using pair_ind; intros Hl; try constructor.
  - apply Forall_cons in Hl as [? Hl]. apply Forall_cons in Hl as [? _]. lia.
  - apply Forall_cons in Hl as [_ Hl]. apply Forall_cons in Hl as [_ Hl]. by apply IH.
Qed.

Lemma pair_sums_length n l : length l = (2 * n)%nat → length (pair_sums l) = n.
Proof.
  revert n. induction l as [|x|x y l IH] using pair_ind; intros n Hn; cbn in *; [lia..|].
  destruct n as [|n]; [done|]. rewrite (IH n); lia.
Qed.

Lemma pair_sums_lookup l k :
  (2 * k + 1 < length l)%nat →
  pair_sums l !! k = Some (default 0 (l !! (2 * k)%nat) + default 0 (l !! (2 * k + 1)%nat)).
Proof.
  revert k. induction l as [|x|x y l IH] using pair_ind; intros k Hk; cbn in Hk; [lia..|].
  destruct k as [|k]; [done|]. change (pair_sums (x :: y :: l) !! S k) with (pair_sums l !! k).
  rewrite IH by lia. by replace (2 * S k)%nat with (S (S (2 * k))) by lia.
Qed.

(** The counts of windows of [2 ^ j] bits. *)
Definition window_count (l : list bool) (i j : nat) : N := count_true (take (j - i) (drop i l)).

Lemma count_true_app l k : count_true (l ++ k) = count_true l + count_true k.
Proof. induction l as [|b l IH]; cbn [app count_true]; [done|]. rewrite IH. lia. Qed.

Lemma window_count_split l i j k :
  (i <= j)%nat → (j <= k)%nat → window_count l i k = window_count l i j + window_count l j k.
Proof.
  intros. unfold window_count. replace (k - i)%nat with ((j - i) + (k - j))%nat by lia.
  rewrite <-take_take_drop, count_true_app, drop_drop. do 4 f_equal. lia.
Qed.

Definition bit_digits (l : list bool) : list N := N.b2n <$> l.

Lemma undig_bits l : undig 1 (bit_digits l) = bits_of l.
Proof. induction l as [|b l IH]; [done|]. cbn [undig bit_digits bits_of fmap list_fmap]. by rewrite <-IH. Qed.

(** [counts w L]: the digits of [L] are the counts of consecutive windows of [w] bits. *)
Definition is_counts (l : list bool) (w : nat) (L : list N) : Prop :=
  (length L * w = length l)%nat
  ∧ ∀ k, (k < length L)%nat → L !! k = Some (window_count l (k * w) (S k * w)).

Lemma bit_counts l : is_counts l 1 (bit_digits l).
Proof.
  unfold is_counts, bit_digits. rewrite length_fmap. split; [lia|]. intros k Hk.
  rewrite list_lookup_fmap. apply lookup_lt_is_Some_2 in Hk as [b Hb]. rewrite Hb. cbn [fmap option_fmap option_map].
  unfold window_count. replace (S k * 1 - k * 1)%nat with 1%nat by lia. rewrite Nat.mul_1_r.
  rewrite (drop_S l b k) by done. cbn. rewrite take_0. cbn. f_equal. lia.
Qed.

Lemma pair_counts l w L n :
  is_counts l w L → length L = (2 * n)%nat → is_counts l (2 * w) (pair_sums L).
Proof.
  intros [Hl HL] Hn. pose proof (pair_sums_length n L Hn) as Hp. split; [rewrite Hp; nia|].
  intros k Hk. rewrite Hp in Hk. rewrite pair_sums_lookup by lia. rewrite !HL by lia. cbn [default from_option].
  f_equal. unfold Datatypes.id. rewrite (window_count_split l (k * (2 * w)) (S (2 * k) * w) (S k * (2 * w))) by nia.
  f_equal; f_equal; nia.
Qed.

Lemma window_count_bound l i j : window_count l i j <= N.of_nat (j - i).
Proof.
  unfold window_count. generalize (drop i l), (j - i)%nat. clear. intros l n.
  revert n. induction l as [|b l IH]; intros [|n]; cbn [take count_true]; try lia.
  specialize (IH n). destruct b; cbn [N.b2n]; lia.
Qed.

Lemma is_counts_bound l w L : is_counts l w L → Forall (fun x => x <= N.of_nat w) L.
Proof.
  intros [_ HL]. apply Forall_lookup. intros k x Hk. pose proof (lookup_lt_Some _ _ _ Hk) as Hlt.
  rewrite HL in Hk by done. injection Hk as <-. etransitivity; [apply window_count_bound|].
  apply N.eq_le_incl. f_equal. nia.
Qed.

(** ** The reference: scanning for the n-th set bit *)
Fixpoint nth_true (l : list bool) (n : N) : option nat :=
  match l with
  | [] => None
  | true :: l => if n =? 1 then Some 0%nat else option_map S (nth_true l (n - 1))
  | false :: l => option_map S (nth_true l n)
  end.

Lemma nth_true_intro l i n :
  l !! i = Some true → count_true (take i l) + 1 = n → nth_true l n = Some i.
Proof.
  revert i n. induction l as [|b l IH]; intros [|i] n Hi Hn; cbn in Hi; try done.
  - injection Hi as ->. cbn in Hn. subst n. done.
  - cbn [take count_true] in Hn. cbn [nth_true]. destruct b; cbn [N.b2n] in Hn.
    + rewrite (proj2 (N.eqb_neq n 1)) by lia. by rewrite (IH i) by (done || lia).
    + by rewrite (IH i) by (done || lia).
Qed.

(** ** The descent *)
Definition sub_cases (a b : N) : N := if b <=? a then a - b else a + 2 ^ 64 - b.

Lemma u64_sub_exact a b : b <= a → a < 2 ^ 64 → u64_sub a b = a - b.
Proof.
  intros. unfold u64_sub. replace (a + 2 ^ 64 - b) with ((a - b) + 1 * 2 ^ 64) by lia.
  rewrite N.Div0.mod_add. apply N.mod_small. lia.
Qed.

Lemma u64_sub_cases a b : a < 2 ^ 64 → b < 2 ^ 64 → u64_sub a b = sub_cases a b.
Proof.
  intros. unfold sub_cases. destruct (N.leb_spec b a); [by apply u64_sub_exact|].
  unfold u64_sub. apply N.mod_small. lia.
Qed.

(** The bits of [t.wrapping_sub(n)] that the code looks at, for all the values there are. *)
Definition check_at (τ g n : N) : bool :=
  let t := τ + 65536 * g in
  let d := sub_cases t n in
  (N.land d 256 =? (if τ <? n then 256 else 0))
  && (N.land t (N.shiftr d 8) =? (if τ <? n then τ else 0)).
Definition below (n : nat) : list N := N.of_nat <$> seq 0 n.
Definition check_select : bool :=
  forallb (fun τ => forallb (fun g => forallb (check_at τ g) (below 65)) (below 17)) (below 33).

Lemma check_select_true : check_select = true.
Proof. vm_compute. reflexivity. Qed.

Lemma forallb_below f n k :
  forallb f (below n) = true → k < N.of_nat n → f k = true.
Proof.
  rewrite forallb_forall. intros Hf Hk. apply Hf. rewrite <-list_elem_of_In.
  apply list_elem_of_fmap. exists (N.to_nat k). rewrite elem_of_seq. lia.
Qed.

Lemma select_bits τ g n :
  τ <= 32 → g <= 16 → n <= 64 →
  N.land (u64_sub (τ + 65536 * g) n) 256 = (if τ <? n then 256 else 0)
  ∧ N.land (τ + 65536 * g) (u64_shr (u64_sub (τ + 65536 * g) n) 8) = (if τ <? n then τ else 0).
Proof.
  intros Ht Hg Hn. pose proof check_select_true as Hc. unfold check_select in Hc.
  apply forallb_below with (k := τ) in Hc; [|lia]. apply forallb_below with (k := g) in Hc; [|lia].
  apply forallb_below with (k := n) in Hc; [|lia]. unfold check_at in Hc.
  rewrite u64_sub_cases by lia. apply andb_true_iff in Hc as [H1 H2]. by apply N.eqb_eq in H1, H2.
Qed.

(** The n-th set bit from the top is the [n]-th one in the window of [W] bits below [s]. *)
Record in_window (r : list bool) (W s : nat) (n total : N) : Prop := {
  iw_multiple : ∃ m, s = (W * m)%nat;
  iw_pos : (W <= s)%nat;
  iw_top : (s <= 64)%nat;
  iw_n : 1 <= n;
  iw_count : n <= window_count r (s - W) s;
  iw_total : window_count r s 64 + n = total
}.

Lemma window_step r W s n total :
  (0 < W)%nat → in_window r (2 * W) s n total →
  let t := window_count r (s - W) s in
  in_window r W (if t <? n then (s - W)%nat else s) (if t <? n then n - t else n) total.
Proof.
  intros HW [[m Hm] Hp Ht Hn Hc Htot] t.
  rewrite (window_count_split r (s - 2 * W) (s - W) s) in Hc by lia. fold t in Hc.
  destruct (N.ltb_spec t n).
  - split; try lia.
    + exists (2 * m - 1)%nat. nia.
    + replace (s - W - W)%nat with (s - 2 * W)%nat by lia. lia.
    + rewrite (window_count_split r (s - W) s 64) by lia. fold t. lia.
  - split; try lia. exists (2 * m)%nat. lia.
Qed.

Lemma window_n_bound r W s n total : in_window r W s n total → n <= 64.
Proof. intros [_ ? ? _ Hc _]. pose proof (window_count_bound r (s - W) s). lia. Qed.

(** A step of the code does a step of the descent. *)
Lemma select_step_ok r W s n total g k :
  (0 < W <= 32)%nat → g <= 16 → 256 / 2 ^ k = N.of_nat W → k < 64 →
  in_window r (2 * W) s n total →
  ∃ s' n', select_step (window_count r (s - W) s + 65536 * g) k (N.of_nat s, n) = (N.of_nat s', n')
    ∧ in_window r W s' n' total.
Proof.
  intros HW Hg Hk Hk64 Hw. pose proof (window_step r W s n total ltac:(lia) Hw) as Hw'.
  pose proof (window_n_bound _ _ _ _ _ Hw). pose proof (window_count_bound r (s - W) s) as Hb.
  destruct Hw as [_ ? ? ? _ _]. set (t := window_count r (s - W) s) in *. cbn zeta in Hw'.
  eexists _, _. split; [|exact Hw']. unfold select_step.
  destruct (select_bits t g n) as [-> ->]; [lia..|]. unfold u64_shr.
  rewrite (N.mod_small k) by lia. f_equal.
  - destruct (t <? n); rewrite N.shiftr_div_pow2; [|by rewrite N.Div0.div_0_l;
      rewrite u64_sub_exact by lia; lia].
    rewrite Hk, u64_sub_exact by lia. lia.
  - destruct (N.ltb_spec t n); rewrite u64_sub_exact by lia; lia.
Qed.

(** ** Putting it together *)
Lemma reverse_bits_loop_eq l acc :
  reverse_bits_loop (length l) (bits_of l) (bits_of acc) = bits_of (rev l ++ acc).
Proof.
  revert acc. induction l as [|b l IH]; intros acc; [done|].
  cbn [length reverse_bits_loop bits_of rev].
  replace (N.odd (N.b2n b + 2 * bits_of l)) with b by (by destruct b, (bits_of l)).
  replace (N.div2 (N.b2n b + 2 * bits_of l)) with (bits_of l) by (by destruct b, (bits_of l)).
  change (N.b2n b + 2 * bits_of acc) with (bits_of (b :: acc)). rewrite IH.
  by rewrite <-app_assoc.
Qed.

Lemma regroup w l n :
  length l = (2 * n)%nat →
  undig w l = undig (2 * w) (evens l) + 2 ^ w * undig (2 * w) (evens (drop 1 l ++ [0])).
Proof.
  revert n. induction l as [|x|x y l IH] using pair_ind; intros n Hn; cbn in Hn; [cbn; lia|lia|].
  cbn [undig evens]. rewrite (IH (n - 1)%nat) by lia.
  change (drop 1 (x :: y :: l)) with (y :: l). cbn [app].
  assert (E : evens (y :: l ++ [0]) = y :: evens (drop 1 l ++ [0]) ∨ l = []).
  { destruct l as [|z l]; [by right|left]. cbn [app evens drop]. by rewrite drop_0. }
  replace (2 * w) with (w + w) by lia. destruct E as [->| ->].
  - cbn [undig]. rewrite N.pow_add_r. lia.
  - cbn. lia.
Qed.

Section counts.
Context (r : list bool) (Hr : length r = 64%nat).

Definition counts2 : list N := pair_sums (bit_digits r).
Definition counts4 : list N := pair_sums counts2.
Definition counts8 : list N := pair_sums counts4.
Definition counts16 : list N := pair_sums counts8.

Lemma counts2_ok : is_counts r 2 counts2 ∧ length counts2 = 32%nat.
Proof.
  assert (Hl : length (bit_digits r) = (2 * 32)%nat) by (unfold bit_digits; by rewrite length_fmap, Hr).
  split; [|by apply pair_sums_length]. exact (pair_counts r 1 _ 32 (bit_counts r) Hl).
Qed.
Lemma counts4_ok : is_counts r 4 counts4 ∧ length counts4 = 16%nat.
Proof. destruct counts2_ok as [H Hl]. split; [exact (pair_counts r 2 _ 16 H Hl)|by apply pair_sums_length]. Qed.
Lemma counts8_ok : is_counts r 8 counts8 ∧ length counts8 = 8%nat.
Proof. destruct counts4_ok as [H Hl]. split; [exact (pair_counts r 4 _ 8 H Hl)|by apply pair_sums_length]. Qed.
Lemma counts16_ok : is_counts r 16 counts16 ∧ length counts16 = 4%nat.
Proof. destruct counts8_ok as [H Hl]. split; [exact (pair_counts r 8 _ 4 H Hl)|by apply pair_sums_length]. Qed.

Lemma counts_below w j L : is_counts r w L → N.of_nat w < 2 ^ j → digits_below j L.
Proof. intros H Hw. eapply Forall_impl; [by eapply is_counts_bound|]. cbn. lia. Qed.

Lemma code_a : u64_sub (bits_of r) (N.land (u64_shr (bits_of r) 1) (u64_max / 3)) = undig 2 counts2.
Proof.
  assert (Hl : length (bit_digits r) = (2 * 32)%nat) by (unfold bit_digits; by rewrite length_fmap, Hr).
  assert (Hd : digits_below 1 (bit_digits r)) by (apply (counts_below 1); [apply bit_counts|done]).
  pose proof (bits_of_bound r) as Hb. rewrite Hr in Hb. change (2 ^ N.of_nat 64) with (2 ^ 64) in Hb.
  rewrite <-undig_bits in *. pose proof (shiftr_undig 1 _ 1 Hd) as Hs.
  change (u64_shr ?x 1) with (N.shiftr x (1 * N.of_nat 1)). rewrite Hs.
  rewrite <-(undig_snoc_zero 1 (drop 1 _)).
  change (u64_max / 3) with (undig 1 (every_second 32 (N.ones 1))).
  rewrite land_evens; [|by apply drop_digits|rewrite length_app, length_drop, Hl; done].
  pose proof (regroup 1 _ _ Hl) as Hg. change (2 * 1) with 2 in *. change (2 ^ 1) with 2 in Hg.
  rewrite u64_sub_exact by lia. unfold counts2. rewrite <-evens_add. lia.
Qed.

Lemma code_b :
  u64_add (N.land (undig 2 counts2) (u64_max / 5)) (N.land (u64_shr (undig 2 counts2) 2) (u64_max / 5)) = undig 4 counts4.
Proof.
  destruct counts2_ok as [H Hl]. pose proof (counts_below 2 2 _ H eq_refl) as Hd.
  pose proof (pair_step 2 16 counts2 Hd Hl) as Hp.
  change (u64_max / 5) with (undig 2 (every_second 16 (N.ones 2))).
  change (u64_shr ?x 2) with (N.shiftr x 2). unfold u64_add. rewrite Hp. apply N.mod_small.
  destruct counts4_ok as [H4 Hl4]. pose proof (undig_bound 4 counts4 (counts_below 4 4 _ H4 eq_refl)) as Hb.
  by rewrite Hl4 in Hb.
Qed.

Lemma neighbour_code w (wn : nat) L n :
  is_counts r wn L → length L = (2 * n)%nat → 2 * N.of_nat wn < 2 ^ w → w * N.of_nat (2 * n) = 64 →
  N.land (u64_add (undig w L) (N.shiftr (undig w L) w)) (undig w (every_second n (N.ones w)))
  = undig (2 * w) (pair_sums L).
Proof.
  intros H Hl Hw H64. rewrite <-(neighbour_step w n (N.of_nat wn) L) by (done || by apply (is_counts_bound r)).
  f_equal. unfold u64_add. apply N.mod_small.
  assert (Hd : digits_below w L) by (apply (counts_below wn); [done|lia]).
  pose proof (shiftr_undig w L 1 Hd) as Hs. rewrite N.mul_1_r in Hs. rewrite Hs, neighbour_sums_undig.
  rewrite <-H64, <-Hl, <-(neighbour_sums_length L). apply undig_bound.
  apply (neighbour_sums_below w (N.of_nat wn)); [by apply (is_counts_bound r)|done].
Qed.

Lemma code_c : N.land (u64_add (undig 4 counts4) (u64_shr (undig 4 counts4) 4)) (u64_max / 17) = undig 8 counts8.
Proof.
  destruct counts4_ok as [H Hl]. change (u64_max / 17) with (undig 4 (every_second 8 (N.ones 4))).
  by apply (neighbour_code 4 4 counts4 8).
Qed.

Lemma code_d : N.land (u64_add (undig 8 counts8) (u64_shr (undig 8 counts8) 8)) (u64_max / 257) = undig 16 counts16.
Proof.
  destruct counts8_ok as [H Hl]. change (u64_max / 257) with (undig 8 (every_second 4 (N.ones 8))).
  by apply (neighbour_code 8 8 counts8 4).
Qed.
End counts.

Lemma read_count r w j L s :
  is_counts r w L → digits_below (N.of_nat w) L → N.of_nat w < 2 ^ j → j <= N.of_nat w →
  length r = 64%nat → (0 < w <= s)%nat → (s <= 64)%nat → (∃ m, s = (w * m)%nat) →
  N.land (u64_shr (undig (N.of_nat w) L) (u64_sub (N.of_nat s) (N.of_nat w))) (N.ones j)
  = window_count r (s - w) s.
Proof.
  intros H Hd Hw Hj Hr Hs Hs64 [m Hm]. pose proof H as [Hl HL]. rewrite Hr in Hl.
  assert (m - 1 < length L)%nat by nia.
  rewrite u64_sub_exact by lia. unfold u64_shr. rewrite N.mod_small by lia.
  replace (N.of_nat s - N.of_nat w) with (N.of_nat w * N.of_nat (m - 1)) by nia.
  assert (Hk : L !! (m - 1)%nat = Some (window_count r (s - w) s)).
  { rewrite HL by done. do 2 f_equal; nia. }
  apply (read_digit j _ _ _ _ Hd Hk); [|done].
  pose proof (window_count_bound r (s - w) s). lia.
Qed.

Lemma window_count_drop r i : window_count r i (length r) = count_true (drop i r).
Proof. unfold window_count. by rewrite take_ge by (rewrite length_drop; lia). Qed.

Lemma count_true_rev l : count_true (rev l) = count_true l.
Proof.
  induction l as [|b l IH]; [done|]. cbn [rev count_true]. rewrite count_true_app, IH. cbn. lia.
Qed.

(** At the end of the descent the window is the bit itself. *)
Lemma window_end l s n total :
  length l = 64%nat → in_window (rev l) 1 s n total → nth_true l total = Some (64 - s)%nat.
Proof.
  intros Hl [_ Hp Ht Hn Hc Htot]. pose proof (window_count_bound (rev l) (s - 1) s).
  assert (n = 1) as -> by lia.
  assert (Hr : length (rev l) = 64%nat) by (by rewrite length_rev).
  pose proof (window_count_drop (rev l) s) as Hd. rewrite Hr in Hd. rewrite Hd in Htot.
  apply nth_true_intro.
  - unfold window_count in Hc. replace (s - (s - 1))%nat with 1%nat in Hc by lia.
    destruct (rev l !! (s - 1)%nat) as [b|] eqn:Eb; [|apply lookup_ge_None in Eb; rewrite Hr in Eb; lia].
    rewrite (drop_S _ b) in Hc by done. cbn [take count_true] in Hc. rewrite take_0 in Hc.
    destruct b; [|cbn in Hc; lia].
    rewrite rev_alt in Eb. apply reverse_lookup_Some in Eb as [Eb _]. rewrite Hl in Eb.
    by replace (64 - S (s - 1))%nat with (64 - s)%nat in Eb by lia.
  - rewrite <-Htot. f_equal. by rewrite skipn_rev, count_true_rev, Hl.
Qed.

Lemma first_count r :
  length r = 64%nat →
  ∃ g, g <= 16 ∧ u64_add (u64_shr (undig 16 (counts16 r)) 32) (u64_shr (undig 16 (counts16 r)) 48)
                 = window_count r 32 64 + 65536 * g.
Proof.
  intros Hr. destruct (counts16_ok r Hr) as [[_ HL] Hl]. rewrite Hl in HL.
  pose proof (HL 0%nat ltac:(lia)) as E0. pose proof (HL 1%nat ltac:(lia)) as E1.
  pose proof (HL 2%nat ltac:(lia)) as E2. pose proof (HL 3%nat ltac:(lia)) as E3.
  destruct (counts16 r) as [|c0 [|c1 [|c2 [|c3 [|? ?]]]]]; try done.
  change (Some c0 = Some (window_count r 0 16)) in E0. change (Some c1 = Some (window_count r 16 32)) in E1.
  change (Some c2 = Some (window_count r 32 48)) in E2. change (Some c3 = Some (window_count r 48 64)) in E3.
  injection E0 as ->. injection E1 as ->. injection E2 as ->. injection E3 as ->.
  pose proof (window_count_bound r 0 16). pose proof (window_count_bound r 16 32).
  pose proof (window_count_bound r 32 48). pose proof (window_count_bound r 48 64).
  rewrite (window_count_split r 32 48 64) by lia. cbn [Nat.sub N.of_nat] in *.
  set (c3 := window_count r 48 64) in *. set (c2 := window_count r 32 48) in *.
  set (c1 := window_count r 16 32) in *. set (c0 := window_count r 0 16) in *.
  exists c3. split; [lia|].
  assert (Hd : digits_below 16 [c0; c1; c2; c3]) by (repeat constructor; lia).
  change (u64_shr ?x 32) with (N.shiftr x (16 * N.of_nat 2)).
  change (u64_shr ?x 48) with (N.shiftr x (16 * N.of_nat 3)).
  rewrite !shiftr_undig by done. cbn [drop undig]. unfold u64_add. rewrite N.mod_small; lia.
Qed.

(** One more step: read the count of the upper half, compare, descend. *)
Lemma descend_ok r (W : nat) k j L s n total :
  length r = 64%nat → is_counts r W L → N.of_nat W < 2 ^ j → j <= N.of_nat W →
  (0 < W <= 32)%nat → 256 / 2 ^ k = N.of_nat W → k < 64 →
  in_window r (2 * W) s n total →
  let t := N.land (u64_shr (undig (N.of_nat W) L) (u64_sub (N.of_nat s) (N.of_nat W))) (N.ones j) in
  ∃ s' n', select_step t k (N.of_nat s, n) = (N.of_nat s', n') ∧ in_window r W s' n' total.
Proof.
  intros Hr HL Hj HjW HW Hk Hk64 Hw. cbn zeta.
  assert (Hd : digits_below (N.of_nat W) L).
  { eapply Forall_impl; [by eapply is_counts_bound|]. cbn. intros x Hx.
    eapply N.le_lt_trans; [exact Hx|]. by apply N.pow_gt_lin_r. }
  rewrite (read_count r); try done; [|destruct Hw; lia|by destruct Hw|].
  - rewrite <-(N.add_0_r (window_count _ _ _)). change 0 with (65536 * 0).
    by apply select_step_ok.
  - destruct Hw as [[m Hm] _ _ _ _ _]. exists (2 * m)%nat. lia.
Qed.

Lemma select_u64_ok l n :
  length l = 64%nat → 1 <= n → n <= count_true l →
  ∃ i, nth_true l n = Some i ∧ nth_set_bit_u64 (bits_of l) n = N.of_nat i ∧ (i < 64)%nat.
Proof.
  intros Hl Hn1 Hn. set (r := rev l). assert (Hr : length r = 64%nat) by (unfold r; by rewrite length_rev).
  assert (Hw : in_window r 64 64 n n).
  { split; try lia; [by exists 1%nat| |].
    - pose proof (window_count_drop r 0) as Hd. rewrite Hr, drop_0 in Hd. cbn [Nat.sub]. rewrite Hd.
      unfold r. by rewrite count_true_rev.
    - unfold window_count. rewrite Nat.sub_diag, take_0. cbn. lia. }
  destruct (counts2_ok r Hr) as [H2 L2]. destruct (counts4_ok r Hr) as [H4 L4].
  destruct (counts8_ok r Hr) as [H8 L8]. destruct (counts16_ok r Hr) as [H16 L16].
  unfold nth_set_bit_u64. unfold reverse_bits.
  pose proof (reverse_bits_loop_eq l []) as Hrev. rewrite Hl, app_nil_r in Hrev. cbn [bits_of] in Hrev.
  rewrite Hrev. fold r. rewrite (code_a r Hr), (code_b r Hr), (code_c r Hr), (code_d r Hr). cbn zeta.
  destruct (first_count r Hr) as (g & Hg & ->).
  destruct (select_step_ok r 32 64 n n g 3 ltac:(lia) Hg eq_refl ltac:(lia) Hw) as (s1 & n1 & E1 & Hw1).
  change (N.of_nat 64) with 64 in E1. change (64 - 32)%nat with 32%nat in E1. rewrite E1. cbn [fst snd].
  destruct (descend_ok r 16 4 8 _ s1 n1 n Hr H16) as (s2 & n2 & E2 & Hw2); [done|done|lia|done|done|done|].
  change (N.of_nat 16) with 16 in E2. change (N.ones 8) with 255 in E2. rewrite E2. cbn [fst snd].
  destruct (descend_ok r 8 5 4 _ s2 n2 n Hr H8) as (s3 & n3 & E3 & Hw3); [done|done|lia|done|done|done|].
  change (N.of_nat 8) with 8 in E3. change (N.ones 4) with 15 in E3. rewrite E3. cbn [fst snd].
  destruct (descend_ok r 4 6 3 _ s3 n3 n Hr H4) as (s4 & n4 & E4 & Hw4); [done|done|lia|done|done|done|].
  change (N.of_nat 4) with 4 in E4. change (N.ones 3) with 7 in E4. rewrite E4. cbn [fst snd].
  destruct (descend_ok r 2 7 2 _ s4 n4 n Hr H2) as (s5 & n5 & E5 & Hw5); [done|done|lia|done|done|done|].
  change (N.of_nat 2) with 2 in E5. change (N.ones 2) with 3 in E5. rewrite E5. cbn [fst snd].
  destruct (descend_ok r 1 8 1 _ s5 n5 n Hr (bit_counts r)) as (s6 & n6 & E6 & Hw6); [done|done|lia|done|done|done|].
  change (N.of_nat 1) with 1 in E6. change (N.ones 1) with 1 in E6. rewrite undig_bits in E6.
  apply (f_equal fst) in E6. cbn [fst select_step] in E6. rewrite E6.
  exists (64 - s6)%nat. split; [by eapply window_end|]. destruct Hw6 as [_ ? ? _ _ _].
  rewrite (u64_sub_exact 65), u64_sub_exact by lia. lia.
Qed.

Lemma nth_true_app_l l k n i : nth_true l n = Some i → nth_true (l ++ k) n = Some i.
Proof.
  revert n i. induction l as [|b l IH]; intros n i; cbn [nth_true app]; [done|].
  destruct b; [destruct (n =? 1); [done|]|].
  all: destruct (nth_true l _) eqn:E; [|done]; by rewrite (IH _ _ E).
Qed.

Lemma nth_true_app_r l k n i :
  count_true l < n → nth_true k (n - count_true l) = Some i → nth_true (l ++ k) n = Some (length l + i)%nat.
Proof.
  revert n. induction l as [|b l IH]; intros n Hn Hk; cbn [nth_true app count_true length] in *.
  - by rewrite N.sub_0_r in Hk.
  - destruct b; cbn [N.b2n] in *.
    + rewrite (proj2 (N.eqb_neq n 1)) by lia. rewrite IH; [done|lia|].
      by replace (n - 1 - count_true l) with (n - (1 + count_true l)) by lia.
    + rewrite IH; [done|lia|]. by rewrite N.add_0_l in Hk.
Qed.

(** [nth_set_bit] finds what the scan finds. *)
Lemma nth_set_bit_scan l n :
  length l = 128%nat → 1 <= n → n <= count_true l →
  ∃ i, nth_true l n = Some i ∧ nth_set_bit (bits_of l) n = N.of_nat i.
Proof.
  intros Hl Hn1 Hn. unfold nth_set_bit, u64_wrap.
  assert (Hlow : bits_of l `mod` 2 ^ 64 = bits_of (take 64 l)).
  { rewrite <-N.land_ones. apply (land_ones_bits l 64). }
  assert (Hhigh : N.shiftr (bits_of l) 64 `mod` 2 ^ 64 = bits_of (drop 64 l)).
  { change 64 with (N.of_nat 64) at 1. rewrite shiftr_bits. apply N.mod_small. pose proof (bits_of_bound (drop 64 l)) as Hb.
    by rewrite length_drop, Hl in Hb. }
  assert (Hc : count_true l = count_true (take 64 l) + count_true (drop 64 l)).
  { by rewrite <-count_true_app, take_drop. }
  rewrite Hlow, Hhigh, count_ones_bits.
  pose proof (window_count_bound l 0 64) as Hb. unfold window_count in Hb. rewrite drop_0 in Hb. cbn [Nat.sub] in Hb.
  assert (L1 : length (take 64 l) = 64%nat) by (rewrite length_take; lia).
  assert (L2 : length (drop 64 l) = 64%nat) by (rewrite length_drop; lia).
  pose proof (window_count_bound (drop 64 l) 0 64) as Hb2. unfold window_count in Hb2. rewrite drop_0 in Hb2.
  cbn [Nat.sub] in Hb2. rewrite take_ge in Hb2 by lia.
  destruct (N.ltb_spec (count_true (take 64 l)) n) as [Hlt|Hge].
  - rewrite u64_sub_exact by lia.
    destruct (select_u64_ok (drop 64 l) (n - count_true (take 64 l)) L2) as (i & Hi & E & Hi64); [lia|lia|].
    exists (64 + i)%nat. rewrite E. split.
    + rewrite <-(take_drop 64 l) at 1. replace (64 + i)%nat with (length (take 64 l) + i)%nat by lia.
      by apply nth_true_app_r.
    + unfold u64_add. rewrite N.mod_small; lia.
  - destruct (select_u64_ok (take 64 l) n L1) as (i & Hi & E & Hi64); [done|done|].
    exists i. split; [|done]. rewrite <-(take_drop 64 l). by apply nth_true_app_l.
Qed.

(** ** Any bitmap is a list of bits *)
Fixpoint to_bits (k : nat) (v : N) : list bool :=
  match k with O => [] | S k => N.odd v :: to_bits k (N.div2 v) end.

Lemma to_bits_length k v : length (to_bits k v) = k.
Proof. revert v. induction k as [|k IH]; intros v; [done|]. cbn. by rewrite IH. Qed.

Lemma bits_of_to_bits k v : v < 2 ^ N.of_nat k → bits_of (to_bits k v) = v.
Proof.
  revert v. induction k as [|k IH]; intros v Hv; cbn [to_bits bits_of].
  - change (2 ^ N.of_nat 0) with 1 in Hv. lia.
  - pose proof (N.div2_odd v) as E. rewrite Nat2N.inj_succ, N.pow_succ_r' in Hv.
    rewrite IH; [by rewrite N.add_comm|]. rewrite N.div2_div. apply N.Div0.div_lt_upper_bound. lia.
Qed.

Lemma testbit_bits l i : N.testbit (bits_of l) (N.of_nat i) = default false (l !! i).
Proof.
  revert i. induction l as [|b l IH]; intros [|i]; try done.
  - cbn [bits_of]. by rewrite N.add_comm, N.testbit_0_r.
  - cbn [bits_of]. by rewrite N.add_comm, Nat2N.inj_succ, N.testbit_succ_r, IH.
Qed.

Lemma nth_true_elim l n i :
  1 <= n → nth_true l n = Some i → l !! i = Some true ∧ count_true (take i l) + 1 = n.
Proof.
  revert n i. induction l as [|b l IH]; intros n i Hn; cbn [nth_true]; [done|].
  destruct b; [destruct (N.eqb_spec n 1) as [->|]; [by intros [= <-]|]|].
  all: destruct (nth_true l _) as [j|] eqn:E; cbn [option_map]; [|done]; intros [= <-];
    (apply IH in E as [? Hc]; [|lia]); (split; [done|]); cbn [take count_true N.b2n]; lia.
Qed.

(** C40: for every [u128] and every [n] up to the number of its set bits, the branchless
    [nth_set_bit] returns the position of the [n]-th set bit: that bit is set, and
    there are [n - 1] set bits below it. *)
Theorem nth_set_bit_correct (v n : N) :
  v < 2 ^ 128 → 1 <= n → n <= count_ones v →
  let i := nth_set_bit v n in
  i < 128 ∧ N.testbit v i = true ∧ count_ones (N.land v (N.ones i)) + 1 = n.
Proof.
  intros Hv H1 Hn. set (l := to_bits 128 v).
  assert (El : bits_of l = v) by (by apply bits_of_to_bits). rewrite <-El in *. rewrite count_ones_bits in Hn.
  destruct (nth_set_bit_scan l n (to_bits_length _ _) H1 Hn) as (i & Hi & ->). cbn zeta.
  apply nth_true_elim in Hi as [Hi Hc]; [|done].
  rewrite testbit_bits, land_ones_bits, count_ones_bits, Hi. split_and!; [|done|done].
  apply lookup_lt_Some in Hi. unfold l in Hi. rewrite to_bits_length in Hi. lia.
Qed.

Lemma nth_set_bit_correct_witness :
  nth_set_bit (2 ^ 100 + 2 ^ 64 + 12) 4 = 100
  ∧ nth_set_bit (2 ^ 100 + 2 ^ 64 + 12) 4 < 128
  ∧ N.testbit (2 ^ 100 + 2 ^ 64 + 12) (nth_set_bit (2 ^ 100 + 2 ^ 64 + 12) 4) = true
  ∧ count_ones (N.land (2 ^ 100 + 2 ^ 64 + 12) (N.ones (nth_set_bit (2 ^ 100 + 2 ^ 64 + 12) 4))) + 1 = 4.
Proof.
  split; [vm_compute; reflexivity|].
  apply (nth_set_bit_correct (2 ^ 100 + 2 ^ 64 + 12) 4); vm_compute; (reflexivity || discriminate).
Defined.
