(* ===== verification/Utf8.v ===== *)
(** * UTF-8 text

    A Rust [str] is a sequence of [char]s, kept as the bytes of their UTF-8 encoding.
    The model keeps both views: [str_of cs] are the bytes of the characters [cs].  This
    file has the encoding, character boundaries ([is_utf8_char_boundary] of
    [crates/util/src/util.rs] and [str::is_char_boundary]), and the lines of a text. *)

From S2P Require Import Prelude.
Local Open Scope N_scope.

(** A [char] is a Unicode scalar value. *)
Definition char_ok (c : N) : Prop := c < 55296 ∨ (57344 <= c ∧ c < 1114112).

(** [char::len_utf8], [char::len_utf16] and [char::encode_utf8] *)
Definition len_utf8 (c : N) : N :=
  if c <? 128 then 1 else if c <? 2048 then 2 else if c <? 65536 then 3 else 4.
Definition len_utf16 (c : N) : N := if c <? 65536 then 1 else 2.
Definition encode (c : N) : list N :=
  if c <? 128 then [c]
  else if c <? 2048 then [192 + c / 64; 128 + c `mod` 64]
  else if c <? 65536 then [224 + c / 4096; 128 + (c / 64) `mod` 64; 128 + c `mod` 64]
  else [240 + c / 262144; 128 + (c / 4096) `mod` 64; 128 + (c / 64) `mod` 64; 128 + c `mod` 64].

Definition str_of (cs : list N) : list N := flat_map encode cs.
Definition NEWLINE : N := 10.
Definition TAB : N := 9.

(** [(u8 as i8) >= -0x40] *)
Definition is_utf8_char_boundary (b : N) : bool :=
  (-64 <=? (if (b <? 128)%N then Z.of_N b else Z.of_N b - 256))%Z.

(** [str::is_char_boundary] *)
Definition is_char_boundary (s : list N) (offset : N) : bool :=
  if offset =? 0 then true
  else match s !! N.to_nat offset with
       | Some b => is_utf8_char_boundary b
       | None => offset =? N.of_nat (length s)
       end.

Lemma is_boundary_spec b : b < 256 → is_utf8_char_boundary b = (b <? 128) || (192 <=? b).
Proof.
  intros. unfold is_utf8_char_boundary.
  destruct (N.ltb_spec b 128), (N.leb_spec 192 b); cbn [orb]; (apply Z.leb_le || apply Z.leb_gt); lia.
Qed.

(** Decides equations between comparisons. *)
Ltac bool_arith :=
  repeat match goal with
  | H : context [?a `mod` ?b] |- _ => generalize dependent (a `mod` b); intros
  end;
  repeat match goal with
  | H : context [?a / ?b] |- _ => generalize dependent (a / b); intros
  end;
  repeat match goal with
  | |- context [?a <=? ?b] => destruct (N.leb_spec a b)
  | |- context [?a <? ?b] => destruct (N.ltb_spec a b)
  | |- context [?a =? ?b] => destruct (N.eqb_spec a b)
  end;
  first [done | lia | (repeat (apply Forall_cons_2; [lia|]); apply Forall_nil_2)].

(** The shape of an encoded character: a leading byte and continuation bytes. *)
Lemma encode_shape c :
  char_ok c →
  ∃ b rest, encode c = b :: rest
    ∧ is_utf8_char_boundary b = true
    ∧ Forall (fun x => 128 <= x ∧ x < 192) rest
    ∧ N.of_nat (length (encode c)) = len_utf8 c
    ∧ b < 256
    ∧ ((240 <=? b) = (65536 <=? c))
    ∧ (65536 <= c → (length rest = 3)%nat)
    ∧ ((b =? NEWLINE) = (c =? NEWLINE)) ∧ ((b =? TAB) = (c =? TAB)).
Proof.
  intros Hc. unfold encode, len_utf8, NEWLINE, TAB.
  assert (c < 1114112) by (destruct Hc; lia).
  destruct (N.ltb_spec c 128); [|destruct (N.ltb_spec c 2048); [|destruct (N.ltb_spec c 65536)]];
    eexists _, _; (split; [reflexivity|]).
  - rewrite is_boundary_spec by lia. split_and!; bool_arith.
  - assert (c / 64 < 32) by (apply N.Div0.div_lt_upper_bound; lia).
    assert (2 <= c / 64) by (apply N.div_le_lower_bound; lia).
    pose proof (N.mod_lt c 64 ltac:(done)).
    rewrite is_boundary_spec by lia. split_and!; bool_arith.
  - assert (c / 4096 < 16) by (apply N.Div0.div_lt_upper_bound; lia).
    pose proof (N.mod_lt c 64 ltac:(done)). pose proof (N.mod_lt (c / 64) 64 ltac:(done)).
    rewrite is_boundary_spec by lia. split_and!; bool_arith.
  - assert (c / 262144 < 5) by (apply N.Div0.div_lt_upper_bound; lia).
    pose proof (N.mod_lt c 64 ltac:(done)). pose proof (N.mod_lt (c / 64) 64 ltac:(done)).
    pose proof (N.mod_lt (c / 4096) 64 ltac:(done)).
    rewrite is_boundary_spec by lia. split_and!; bool_arith.
Qed.

(** ** Lines *)
(** The first line of a text and the lines after it. *)
Fixpoint split_lines (cs : list N) : list N * list (list N) :=
  match cs with
  | [] => ([], [])
  | c :: cs =>
      let '(first, rest) := split_lines cs in
      if c =? NEWLINE then ([], first :: rest) else (c :: first, rest)
  end.
Definition first_line (cs : list N) : list N := (split_lines cs).1.
Definition rest_lines (cs : list N) : list (list N) := (split_lines cs).2.
Definition lines_of (cs : list N) : list (list N) := first_line cs :: rest_lines cs.
Definition last_line (cs : list N) : list N := default (first_line cs) (last (rest_lines cs)).
Definition row_count (cs : list N) : N := N.of_nat (length (rest_lines cs)).

Lemma split_cons c cs :
  split_lines (c :: cs) =
    if c =? NEWLINE then ([], lines_of cs) else (c :: first_line cs, rest_lines cs).
Proof. cbn [split_lines]. unfold lines_of, first_line, rest_lines. by destruct (split_lines cs). Qed.

(** Joining two texts joins the last line of the one and the first of the other. *)
Lemma lines_app cs ds :
  (rest_lines cs = [] ∧ first_line (cs ++ ds) = first_line cs ++ first_line ds
     ∧ rest_lines (cs ++ ds) = rest_lines ds)
  ∨ (∃ mid, rest_lines cs = mid ++ [last_line cs] ∧ first_line (cs ++ ds) = first_line cs
     ∧ rest_lines (cs ++ ds) = mid ++ (last_line cs ++ first_line ds) :: rest_lines ds).
Proof.
  induction cs as [|c cs IH]; [by left|].
  unfold last_line, first_line, rest_lines in *. rewrite <-app_comm_cons, !split_cons.
  unfold lines_of, first_line, rest_lines in *. destruct (c =? NEWLINE); cbn [fst snd].
  - right. destruct IH as [(H1 & H2 & H3)|(mid & H1 & H2 & H3)].
    + exists []. rewrite H1, H2, H3. by split_and!.
    + exists ((split_lines cs).1 :: mid). rewrite H2, H3, last_cons.
      destruct (last (split_lines cs).2) eqn:El; cbn [default from_option] in *.
      * rewrite H1 at 1. by split_and!.
      * apply last_None in El. rewrite El in H1. by destruct mid.
  - destruct IH as [(H1 & H2 & H3)|(mid & H1 & H2 & H3)]; [left|right].
    + rewrite H1, H2, H3. by split_and!.
    + exists mid. rewrite H2, H3. destruct (last (split_lines cs).2) eqn:El; cbn [default from_option] in *.
      * by split_and!.
      * apply last_None in El. rewrite El in H1. by destruct mid.
Qed.

Lemma last_line_single cs : rest_lines cs = [] → last_line cs = first_line cs.
Proof. unfold last_line. by intros ->. Qed.

Lemma row_count_app cs ds : row_count (cs ++ ds) = row_count cs + row_count ds.
Proof.
  unfold row_count. destruct (lines_app cs ds) as [(-> & _ & ->)|(mid & -> & _ & ->)]; [cbn; lia|].
  rewrite !length_app. cbn. lia.
Qed.

Lemma first_line_app cs ds :
  first_line (cs ++ ds) = if row_count cs =? 0 then first_line cs ++ first_line ds else first_line cs.
Proof.
  unfold row_count. destruct (lines_app cs ds) as [(-> & -> & _)|(mid & -> & -> & _)]; [done|].
  rewrite length_app. cbn. bool_arith.
Qed.

Lemma last_line_app cs ds :
  last_line (cs ++ ds) = if row_count ds =? 0 then last_line cs ++ first_line ds else last_line ds.
Proof.
  unfold row_count. destruct (lines_app cs ds) as [(H1 & H2 & H3)|(mid & H1 & H2 & H3)].
  - unfold last_line at 1. rewrite H2, H3. rewrite (last_line_single cs H1).
    unfold last_line. destruct (rest_lines ds) as [|d rest]; [done|].
    destruct (last (d :: rest)) eqn:E; [done|]. by apply last_None in E.
  - assert (Hl : last_line (cs ++ ds) =
                 default (last_line cs ++ first_line ds) (last (rest_lines ds))).
    { unfold last_line at 1. rewrite H3, last_app_cons, last_cons. by destruct (last (rest_lines ds)). }
    rewrite Hl. assert (Hd : last_line ds = default (first_line ds) (last (rest_lines ds))) by done.
    rewrite Hd. destruct (rest_lines ds) as [|d rest]; [done|].
    destruct (last (d :: rest)) eqn:E; [done|]. by apply last_None in E.
Qed.

(** [str::chars]: the characters of a text. *)
Fixpoint decode (s : list N) : list N :=
  match s with
  | [] => []
  | b :: s =>
      if b <? 128 then b :: decode s
      else match s with
      | [] => []
      | x :: s =>
          if b <? 224 then ((b - 192) * 64 + (x - 128)) :: decode s
          else match s with
          | [] => []
          | y :: s =>
              if b <? 240 then ((b - 224) * 4096 + (x - 128) * 64 + (y - 128)) :: decode s
              else match s with
              | [] => []
              | z :: s => ((b - 240) * 262144 + (x - 128) * 4096 + (y - 128) * 64 + (z - 128)) :: decode s
              end
          end
      end
  end.

Lemma decode_encode c s : char_ok c → decode (encode c ++ s) = c :: decode s.
Proof.
  intros Hc. assert (c < 1114112) by (destruct Hc; lia). unfold encode.
  pose proof (N.Div0.div_mod c 64) as D1. pose proof (N.Div0.div_mod (c / 64) 64) as D2.
  pose proof (N.Div0.div_mod (c / 4096) 64) as D3.
  rewrite N.Div0.div_div in D2, D3. change (64 * 64) with 4096 in D2. change (4096 * 64) with 262144 in D3.
  pose proof (N.mod_lt c 64 ltac:(done)). pose proof (N.mod_lt (c / 64) 64 ltac:(done)).
  pose proof (N.mod_lt (c / 4096) 64 ltac:(done)).
  remember (c / 64) as q1 eqn:E1. remember (c / 4096) as q2 eqn:E2. remember (c / 262144) as q3 eqn:E3.
  remember (c `mod` 64) as m0 eqn:M0. remember (q1 `mod` 64) as m1 eqn:M1. remember (q2 `mod` 64) as m2 eqn:M2.
  clear E1 E2 E3 M0 M1 M2.
  destruct (N.ltb_spec c 128); [|destruct (N.ltb_spec c 2048); [|destruct (N.ltb_spec c 65536)]]; cbn [app decode].
  - by rewrite (proj2 (N.ltb_lt _ _)) by lia.
  - rewrite (proj2 (N.ltb_ge _ 128)), (proj2 (N.ltb_lt _ 224)) by lia. f_equal. lia.
  - rewrite (proj2 (N.ltb_ge _ 128)), (proj2 (N.ltb_ge _ 224)), (proj2 (N.ltb_lt _ 240)) by lia. f_equal. lia.
  - rewrite (proj2 (N.ltb_ge _ 128)), (proj2 (N.ltb_ge _ 224)), (proj2 (N.ltb_ge _ 240)) by lia. f_equal. lia.
Qed.

Lemma decode_str cs : Forall char_ok cs → decode (str_of cs) = cs.
Proof.
  induction 1 as [|c cs Hc Hcs IH]; [done|]. cbn [str_of flat_map]. rewrite decode_encode by done. by f_equal.
Qed.
