(* ===== verification/Point.v ===== *)
(** * Positions in a text: [crates/rope/src/point.rs], [point_utf16.rs], [offset_utf16.rs],
      [unclipped.rs]

    Rows and columns are [u32]s and wrap on overflow; UTF-16 offsets are [usize]s. *)

From S2P Require Import Prelude Ord Patch.
Local Open Scope N_scope.

Definition u32_sub (a b : N) : N := u32_wrap (a + 2 ^ 32 - b).
Definition u32_add (a b : N) : N := u32_wrap (a + b).

(** The 64-bit key both comparisons pack a row and a column into. *)
Definition packed (row column : N) : N := N.lor (N.shiftl row 32) column.

Record Point := mkPoint { row : N; column : N }.
Record PointUtf16 := mkPointUtf16 { row_utf16 : N; column_utf16 : N }.
Record OffsetUtf16 := mkOffsetUtf16 { offset_utf16 : N }.
Record Unclipped (T : Type) := mkUnclipped { unclipped : T }.
Arguments mkUnclipped {_} _.
Arguments unclipped {_} _.

(** ** [Point] *)
Definition point_MAX : Point := mkPoint u32_max u32_max.
Definition point_zero : Point := mkPoint 0 0.
Definition row_range (range : Range N) : Range Point :=
  mkRange (mkPoint (r_start range) 0) (mkPoint (r_end range) 0).
Definition point_is_zero (self : Point) : bool := (row self =? 0) && (column self =? 0).
Definition point_add (self other : Point) : Point :=
  if row other =? 0 then mkPoint (row self) (u32_add (column self) (column other))
  else mkPoint (u32_add (row self) (row other)) (column other).
Definition point_sub (self other : Point) : Point :=
  if row self =? row other then mkPoint 0 (u32_sub (column self) (column other))
  else mkPoint (u32_sub (row self) (row other)) (column self).
#[export] Instance Point_ord : Ord Point :=
  fun self other => cmp (packed (row self) (column self)) (packed (row other) (column other)).
Definition point_saturating_sub (self other : Point) : Point :=
  if ltb self other then point_zero else point_sub self other.
#[export] Instance Point_patch_point : PatchPoint Point Point :=
  {| p_sub := point_sub; p_add := point_add; p_default := point_zero |}.

(** ** [PointUtf16] *)
Definition point_utf16_MAX : PointUtf16 := mkPointUtf16 u32_max u32_max.
Definition point_utf16_zero : PointUtf16 := mkPointUtf16 0 0.
Definition point_utf16_is_zero (self : PointUtf16) : bool :=
  (row_utf16 self =? 0) && (column_utf16 self =? 0).
Definition point_utf16_add (self other : PointUtf16) : PointUtf16 :=
  if row_utf16 other =? 0
  then mkPointUtf16 (row_utf16 self) (u32_add (column_utf16 self) (column_utf16 other))
  else mkPointUtf16 (u32_add (row_utf16 self) (row_utf16 other)) (column_utf16 other).
Definition point_utf16_sub (self other : PointUtf16) : PointUtf16 :=
  if row_utf16 self =? row_utf16 other
  then mkPointUtf16 0 (u32_sub (column_utf16 self) (column_utf16 other))
  else mkPointUtf16 (u32_sub (row_utf16 self) (row_utf16 other)) (column_utf16 self).
#[export] Instance PointUtf16_ord : Ord PointUtf16 :=
  fun self other => cmp (packed (row_utf16 self) (column_utf16 self))
                        (packed (row_utf16 other) (column_utf16 other)).
Definition point_utf16_saturating_sub (self other : PointUtf16) : PointUtf16 :=
  if ltb self other then point_utf16_zero else point_utf16_sub self other.

(** ** [OffsetUtf16] *)
#[export] Instance OffsetUtf16_ord : Ord OffsetUtf16 := fun a b => cmp (offset_utf16 a) (offset_utf16 b).
Definition offset_utf16_add (self other : OffsetUtf16) : OffsetUtf16 :=
  mkOffsetUtf16 (usize_add (offset_utf16 self) (offset_utf16 other)).
Definition offset_utf16_sub (self other : OffsetUtf16) : OffsetUtf16 :=
  mkOffsetUtf16 (usize_sub (offset_utf16 self) (offset_utf16 other)).

(** ** Laws *)
Lemma u32_add_exact a b : a + b <= u32_max → u32_add a b = a + b.
Proof. intros. by apply u32_wrap_small. Qed.

Lemma u32_sub_exact a b : b <= a → a <= u32_max → u32_sub a b = a - b.
Proof.
  unfold u32_sub, u32_wrap, u32_max. intros.
  replace (a + 2 ^ 32 - b) with ((a - b) + 1 * 2 ^ 32) by lia.
  rewrite N.Div0.mod_add. apply N.mod_small. lia.
Qed.

Lemma packed_add r c : c <= u32_max → packed r c = r * 2 ^ 32 + c.
Proof.
  unfold packed, u32_max. intros. rewrite N.shiftl_mul_pow2.
  assert (Hl : N.land (r * 2 ^ 32) c = 0).
  { apply N.bits_inj_0. intros i. rewrite N.land_spec. destruct (N.ltb_spec i 32).
    - by rewrite N.mul_pow2_bits_low.
    - rewrite <-(N.mod_small c (2 ^ 32)) by lia. rewrite N.mod_pow2_bits_high by done. apply andb_false_r. }
  rewrite <-N.lxor_lor by done. by rewrite <-N.add_nocarry_lxor.
Qed.

(** Packing compares rows first, then columns. *)
Lemma packed_cmp r1 c1 r2 c2 :
  c1 <= u32_max → c2 <= u32_max → cmp (packed r1 c1) (packed r2 c2) = then_with (cmp r1 r2) (cmp c1 c2).
Proof.
  intros H1 H2. rewrite !packed_add by done. unfold u32_max in *. unfold cmp, N_ord.
  destruct (N.compare_spec r1 r2) as [->|?|?]; cbn [then_with].
  - destruct (N.compare_spec c1 c2) as [->|?|?];
      [apply N.compare_eq_iff|apply N.compare_lt_iff|apply N.compare_gt_iff]; lia.
  - apply N.compare_lt_iff. nia.
  - apply N.compare_gt_iff. nia.
Qed.

Definition point_ok (p : Point) : Prop := row p <= u32_max ∧ column p <= u32_max.

(** Points are ordered by row, then column; as long as rows and columns fit their
    width, adding a distance to a point and subtracting the point gives the distance,
    the distance from a point to a later one leads there, and the saturating distance
    back is zero. *)
Theorem point_arithmetic (p q d : Point) :
  point_ok p → point_ok q → point_ok d →
  cmp p q = then_with (cmp (row p) (row q)) (cmp (column p) (column q))
  ∧ (row p + row d <= u32_max → column p + column d <= u32_max → point_sub (point_add p d) p = d)
  ∧ (leb p q = true → point_add p (point_sub q p) = q ∧ point_saturating_sub p q = point_zero).
Proof.
  intros [Hp1 Hp2] [Hq1 Hq2] [Hd1 Hd2].
  assert (Hcmp : ∀ p q, point_ok p → point_ok q →
    cmp p q = then_with (cmp (row p) (row q)) (cmp (column p) (column q))).
  { intros ? ? [? ?] [? ?]. unfold cmp at 1, Point_ord. by apply packed_cmp. }
  split_and!.
  - by apply Hcmp.
  - intros Hr Hc. destruct p as [pr pc], d as [dr dc]. cbn in *. unfold point_add, point_sub. cbn.
    destruct (N.eqb_spec dr 0) as [->|Hn]; cbn.
    + rewrite N.eqb_refl, u32_add_exact, u32_sub_exact by lia. f_equal. lia.
    + rewrite u32_add_exact by lia. rewrite (proj2 (N.eqb_neq _ _)) by lia.
      rewrite u32_sub_exact by lia. f_equal. lia.
  - intros Hle. assert (Hlex : row p < row q ∨ (row p = row q ∧ column p <= column q)).
    { unfold leb in Hle. rewrite Hcmp in Hle by done. unfold cmp, N_ord in Hle.
      destruct (N.compare_spec (row p) (row q)), (N.compare_spec (column p) (column q)); cbn in Hle; try done; lia. }
    split.
    + destruct p as [pr pc], q as [qr qc]. cbn in *. unfold point_add, point_sub. cbn.
      destruct (N.eqb_spec qr pr) as [->|Hn]; cbn.
      * rewrite u32_sub_exact, u32_add_exact by lia. f_equal. lia.
      * rewrite u32_sub_exact by lia. rewrite (proj2 (N.eqb_neq _ _)), u32_add_exact by lia. f_equal. lia.
    + unfold point_saturating_sub, ltb. rewrite (Hcmp p q) by done. unfold cmp, N_ord.
      destruct p as [pr pc], q as [qr qc]. cbn in *.
      destruct (N.compare_spec pr qr), (N.compare_spec pc qc); cbn; try done; try lia.
      subst. unfold point_sub. cbn. rewrite N.eqb_refl, u32_sub_exact, N.sub_diag by lia. done.
Qed.

Lemma point_arithmetic_witness :
  point_sub (point_add (mkPoint 3 7) (mkPoint 2 5)) (mkPoint 3 7) = mkPoint 2 5
  ∧ point_add (mkPoint 3 7) (point_sub (mkPoint 4 1) (mkPoint 3 7)) = mkPoint 4 1.
Proof.
  destruct (point_arithmetic (mkPoint 3 7) (mkPoint 4 1) (mkPoint 2 5)) as (_ & H1 & H2);
    [split; cbn; unfold u32_max; lia..|].
  split; [apply H1; cbn; unfold u32_max; lia|]. exact (proj1 (H2 eq_refl)).
Defined.
