(* ===== verification/TextSummary.v ===== *)
(** * Summaries of text: [TextSummary] of [crates/rope/src/rope.rs]

    The summary of a text counts its bytes, characters, UTF-16 units and lines.  Ropes
    add summaries instead of looking at text; the theorem is that this is exact. *)

From S2P Require Import Prelude Ord Patch Point Utf8.
Local Open Scope N_scope.

Record TextSummary := mkTextSummary {
  ts_len : N;
  ts_chars : N;
  ts_len_utf16 : OffsetUtf16;
  ts_lines : Point;
  ts_first_line_chars : N;
  ts_last_line_chars : N;
  ts_last_line_len_utf16 : N;
  ts_longest_row : N;
  ts_longest_row_chars : N
}.

Definition text_summary_zero : TextSummary := mkTextSummary 0 0 (mkOffsetUtf16 0) (mkPoint 0 0) 0 0 0 0 0.

Definition lines_utf16 (self : TextSummary) : PointUtf16 :=
  mkPointUtf16 (row (ts_lines self)) (ts_last_line_len_utf16 self).

Definition text_summary_newline : TextSummary :=
  mkTextSummary 1 1 (mkOffsetUtf16 1) (mkPoint 1 0) 0 0 0 0 0.

Definition add_newline (self : TextSummary) : TextSummary :=
  mkTextSummary (usize_add (ts_len self) 1) (ts_chars self)
    (offset_utf16_add (ts_len_utf16 self) (mkOffsetUtf16 (usize_add (offset_utf16 (ts_len_utf16 self)) 1)))
    (point_add (ts_lines self) (mkPoint 1 0))
    (ts_first_line_chars self) 0 0 (ts_longest_row self) (ts_longest_row_chars self).

(** [impl From<&str> for TextSummary]: the loop over [text.chars()]; [len] is [text.len()]. *)
Definition summary_char (self : TextSummary) (c : N) : TextSummary :=
  let chars := usize_add (ts_chars self) 1 in
  let units := mkOffsetUtf16 (usize_add (offset_utf16 (ts_len_utf16 self)) (len_utf16 c)) in
  let '(lines, last_line_len_utf16, last_line_chars) :=
    if c =? NEWLINE then (point_add (ts_lines self) (mkPoint 1 0), 0, 0)
    else (mkPoint (row (ts_lines self)) (u32_add (column (ts_lines self)) (len_utf8 c)),
          u32_add (ts_last_line_len_utf16 self) (len_utf16 c), u32_add (ts_last_line_chars self) 1) in
  let first_line_chars := if row lines =? 0 then last_line_chars else ts_first_line_chars self in
  let '(longest_row, longest_row_chars) :=
    if ts_longest_row_chars self <? last_line_chars then (row lines, last_line_chars)
    else (ts_longest_row self, ts_longest_row_chars self) in
  mkTextSummary (ts_len self) chars units lines first_line_chars last_line_chars last_line_len_utf16
    longest_row longest_row_chars.

Definition text_summary_from (cs : list N) : TextSummary :=
  foldl summary_char
    (mkTextSummary (N.of_nat (length (str_of cs))) 0 (mkOffsetUtf16 0) (mkPoint 0 0) 0 0 0 0 0) cs.

(** [AddAssign] *)
Definition text_summary_add (self other : TextSummary) : TextSummary :=
  let joined_chars := u32_add (ts_last_line_chars self) (ts_first_line_chars other) in
  let '(longest_row, longest_row_chars) :=
    if ts_longest_row_chars self <? joined_chars then (row (ts_lines self), joined_chars)
    else (ts_longest_row self, ts_longest_row_chars self) in
  let '(longest_row, longest_row_chars) :=
    if longest_row_chars <? ts_longest_row_chars other
    then (u32_add (row (ts_lines self)) (ts_longest_row other), ts_longest_row_chars other)
    else (longest_row, longest_row_chars) in
  let first_line_chars :=
    if row (ts_lines self) =? 0 then u32_add (ts_first_line_chars self) (ts_first_line_chars other)
    else ts_first_line_chars self in
  let '(last_line_chars, last_line_len_utf16) :=
    if row (ts_lines other) =? 0
    then (u32_add (ts_last_line_chars self) (ts_first_line_chars other),
          u32_add (ts_last_line_len_utf16 self) (ts_last_line_len_utf16 other))
    else (ts_last_line_chars other, ts_last_line_len_utf16 other) in
  mkTextSummary (usize_add (ts_len self) (ts_len other)) (usize_add (ts_chars self) (ts_chars other))
    (offset_utf16_add (ts_len_utf16 self) (ts_len_utf16 other)) (point_add (ts_lines self) (ts_lines other))
    first_line_chars last_line_chars last_line_len_utf16 longest_row longest_row_chars.

(** ** The summary a text has *)
Definition byte_len (cs : list N) : N := N.of_nat (length (str_of cs)).
Definition units (cs : list N) : N := foldr (fun c n => len_utf16 c + n) 0 cs.
Definition char_len (cs : list N) : N := N.of_nat (length cs).

(** The first of the longest elements, and its length. *)
Definition is_longest (ls : list N) (k : nat) (L : N) : Prop :=
  ls !! k = Some L ∧ (∀ j x, ls !! j = Some x → x <= L) ∧ (∀ j x, (j < k)%nat → ls !! j = Some x → x < L).

Record summarises (cs : list N) (s : TextSummary) : Prop := {
  sm_len : ts_len s = byte_len cs;
  sm_chars : ts_chars s = char_len cs;
  sm_len_utf16 : offset_utf16 (ts_len_utf16 s) = units cs;
  sm_row : row (ts_lines s) = row_count cs;
  sm_column : column (ts_lines s) = byte_len (last_line cs);
  sm_first : ts_first_line_chars s = char_len (first_line cs);
  sm_last : ts_last_line_chars s = char_len (last_line cs);
  sm_last_utf16 : ts_last_line_len_utf16 s = units (last_line cs);
  sm_longest : is_longest (char_len <$> lines_of cs) (N.to_nat (ts_longest_row s)) (ts_longest_row_chars s)
}.

(** ** Counting *)
Lemma byte_len_app cs ds : byte_len (cs ++ ds) = byte_len cs + byte_len ds.
Proof. unfold byte_len, str_of. rewrite flat_map_app, length_app. lia. Qed.
Lemma char_len_app cs ds : char_len (cs ++ ds) = char_len cs + char_len ds.
Proof. unfold char_len. rewrite length_app. lia. Qed.
Lemma units_cons c cs : units (c :: cs) = len_utf16 c + units cs.
Proof. done. Qed.
Lemma units_app cs ds : units (cs ++ ds) = units cs + units ds.
Proof. induction cs as [|c cs IH]; [done|]. rewrite <-app_comm_cons, !units_cons. lia. Qed.

Lemma encode_length c : N.of_nat (length (encode c)) = len_utf8 c.
Proof. unfold encode, len_utf8. by repeat destruct (_ <? _). Qed.

Lemma byte_len_cons c cs : byte_len (c :: cs) = len_utf8 c + byte_len cs.
Proof. unfold byte_len, str_of. cbn [flat_map]. rewrite length_app, Nat2N.inj_add, encode_length. done. Qed.

Lemma len_utf8_bounds c : 1 <= len_utf16 c ∧ len_utf16 c <= len_utf8 c ∧ len_utf8 c <= 4.
Proof. unfold len_utf16, len_utf8. bool_arith. Qed.

Lemma lens_bounded cs : char_len cs <= units cs ∧ units cs <= byte_len cs.
Proof.
  induction cs as [|c cs IH]; [done|]. rewrite byte_len_cons, units_cons. pose proof (len_utf8_bounds c).
  unfold char_len in *. cbn [length]. lia.
Qed.

Lemma lines_bounded cs : byte_len (first_line cs) + row_count cs <= byte_len cs.
Proof.
  induction cs as [|c cs IH]; [done|]. rewrite byte_len_cons. pose proof (len_utf8_bounds c).
  unfold first_line, row_count, rest_lines in *. rewrite split_cons. unfold lines_of, first_line, rest_lines.
  destruct (c =? NEWLINE); cbn [fst snd length].
  - change (byte_len []) with 0. lia.
  - rewrite byte_len_cons. lia.
Qed.

Lemma last_line_bounded cs : byte_len (last_line cs) <= byte_len cs.
Proof.
  induction cs as [|c cs IH]; [done|]. rewrite byte_len_cons. pose proof (len_utf8_bounds c).
  change (c :: cs) with ([c] ++ cs). rewrite last_line_app.
  destruct (row_count cs =? 0) eqn:E; [|lia].
  apply N.eqb_eq in E. pose proof (lines_bounded cs).
  assert (Hl : byte_len (last_line [c]) <= len_utf8 c).
  { unfold last_line, first_line, rest_lines. cbn [split_lines]. destruct (c =? NEWLINE).
    - apply N.le_0_l.
    - change (byte_len [c] <= len_utf8 c). rewrite byte_len_cons. change (byte_len []) with 0. lia. }
  rewrite byte_len_app. lia.
Qed.

(** ** The longest row *)
Lemma is_longest_unique ls k1 L1 k2 L2 :
  is_longest ls k1 L1 → is_longest ls k2 L2 → k1 = k2 ∧ L1 = L2.
Proof.
  intros (H1 & M1 & B1) (H2 & M2 & B2). specialize (M1 _ _ H2) as ?. specialize (M2 _ _ H1) as ?.
  assert (L1 = L2) as -> by lia. split; [|done].
  destruct (Nat.lt_trichotomy k1 k2) as [Hlt|[?|Hlt]]; [|done|].
  - specialize (B2 _ _ Hlt H1). lia.
  - specialize (B1 _ _ Hlt H2). lia.
Qed.

Lemma is_longest_intro pre L post :
  Forall (fun x => x < L) pre → Forall (fun x => x <= L) post → is_longest (pre ++ L :: post) (length pre) L.
Proof.
  intros Hpre Hpost. rewrite Forall_lookup in Hpre, Hpost. split; [by apply list_lookup_middle|]. split.
  - intros j x Hj. apply lookup_app_Some in Hj as [Hj|[_ Hj]]; [specialize (Hpre _ _ Hj); cbn in Hpre; lia|].
    apply lookup_cons_Some in Hj as [[_ ->]|[_ Hj]]; [lia|by apply Hpost in Hj].
  - intros j x Hlt Hj. apply lookup_app_Some in Hj as [Hj|[Hge _]]; [by apply Hpre in Hj|lia].
Qed.

Lemma is_longest_elim ls k L :
  is_longest ls k L → ∃ pre post, ls = pre ++ L :: post ∧ length pre = k
    ∧ Forall (fun x => x < L) pre ∧ Forall (fun x => x <= L) post.
Proof.
  intros (Hk & HM & HB). exists (take k ls), (drop (S k) ls).
  assert (k < length ls)%nat by (by eapply lookup_lt_Some).
  split_and!.
  - by rewrite take_drop_middle.
  - rewrite length_take. lia.
  - apply Forall_lookup. intros j x Hj. apply lookup_take_Some in Hj as [Hj Hlt]. by eapply HB.
  - apply Forall_lookup. intros j x Hj. rewrite lookup_drop in Hj. by eapply HM.
Qed.

Lemma longest_join init tail l f k1 L1 k2 L2 :
  is_longest (init ++ [l]) k1 L1 → is_longest (f :: tail) k2 L2 →
  let '(k, L) := if L1 <? l + f then (length init, l + f) else (k1, L1) in
  let '(k, L) := if L <? L2 then ((length init + k2)%nat, L2) else (k, L) in
  is_longest (init ++ (l + f) :: tail) k L.
Proof.
  intros H1 H2. pose proof H1 as (_ & M1 & _). pose proof H2 as (_ & M2 & _).
  assert (Hinit : Forall (fun x => x <= L1) init).
  { apply Forall_lookup. intros j x Hj. apply (M1 j). by apply lookup_app_l_Some. }
  assert (Hl : l <= L1) by (apply (M1 (length init)); by rewrite list_lookup_middle).
  assert (Hf : f <= L2) by by apply (M2 0%nat).
  assert (Htail : Forall (fun x => x <= L2) tail).
  { apply Forall_lookup. intros j x Hj. by apply (M2 (S j)). }
  apply is_longest_elim in H1 as (pre1 & post1 & E1 & <- & P1 & Q1).
  apply is_longest_elim in H2 as (pre2 & post2 & E2 & <- & P2 & Q2).
  assert (Hwin : L1 < L2 → l + f < L2 →
    is_longest (init ++ (l + f) :: tail) (length init + length pre2) L2).
  { intros ? ?. destruct pre2 as [|f' pre2]; simplify_eq/=; [lia|]. apply Forall_cons in P2 as [_ P2].
    replace (length init + S (length pre2))%nat with (length (init ++ (l + f') :: pre2)) by (rewrite length_app; done).
    rewrite app_comm_cons, app_assoc. apply is_longest_intro; [|done].
    apply Forall_app. split; [eapply Forall_impl; [exact Hinit|]; cbn; lia|]. by constructor. }
  destruct (N.ltb_spec L1 (l + f)).
  - destruct (N.ltb_spec (l + f) L2); [apply Hwin; lia|]. apply is_longest_intro.
    + eapply Forall_impl; [exact Hinit|]. cbn. lia.
    + eapply Forall_impl; [exact Htail|]. cbn. lia.
  - destruct (N.ltb_spec L1 L2); [apply Hwin; lia|].
    destruct (snoc_case post1) as [->|(post & x & ->)].
    + apply app_inj_tail in E1 as [<- ->]. replace (L1 + f) with L1 by lia.
      apply is_longest_intro; [done|]. eapply Forall_impl; [exact Htail|]. cbn. lia.
    + rewrite app_comm_cons, app_assoc in E1. apply app_inj_tail in E1 as [-> ->].
      rewrite <-app_assoc. apply is_longest_intro; [done|]. apply Forall_app in Q1 as [Q1 _].
      apply Forall_app. split; [done|]. constructor; [done|].
      eapply Forall_impl; [exact Htail|]. cbn. lia.
Qed.

Lemma lines_join cs ds :
  ∃ init, lines_of cs = init ++ [last_line cs] ∧ N.of_nat (length init) = row_count cs
    ∧ lines_of (cs ++ ds) = init ++ (last_line cs ++ first_line ds) :: rest_lines ds.
Proof.
  unfold lines_of, row_count. destruct (lines_app cs ds) as [(H1 & H2 & H3)|(mid & H1 & H2 & H3)].
  - exists []. rewrite H1, H2, H3. unfold last_line. rewrite H1. done.
  - exists (first_line cs :: mid). rewrite H1, H2, H3, length_app. split_and!; [done|cbn; lia|done].
Qed.

(** The longest row of a concatenation, as the code finds it. *)
Lemma longest_app cs ds k1 L1 k2 L2 :
  is_longest (char_len <$> lines_of cs) (N.to_nat k1) L1 →
  is_longest (char_len <$> lines_of ds) (N.to_nat k2) L2 →
  let joined := char_len (last_line cs) + char_len (first_line ds) in
  let '(k, L) := if L1 <? joined then (row_count cs, joined) else (k1, L1) in
  let '(k, L) := if L <? L2 then (row_count cs + k2, L2) else (k, L) in
  is_longest (char_len <$> lines_of (cs ++ ds)) (N.to_nat k) L.
Proof.
  intros H1 H2. destruct (lines_join cs ds) as (init & E1 & Hr & E2). rewrite E1, fmap_app in H1.
  pose proof (longest_join (fmap (M:=list) char_len init) (fmap (M:=list) char_len (rest_lines ds)) (char_len (last_line cs))
    (char_len (first_line ds)) _ _ _ _ H1 H2) as Hj.
  rewrite E2, fmap_app, fmap_cons, char_len_app. rewrite length_fmap in Hj. cbn zeta.
  destruct (L1 <? _); destruct (_ <? L2); rewrite <-?Hr; try exact Hj.
  all: by rewrite ?N2Nat.inj_add, ?Nat2N.id.
Qed.

Lemma add_summarises cs ds s t :
  summarises cs s → summarises ds t → byte_len (cs ++ ds) <= u32_max →
  summarises (cs ++ ds) (text_summary_add s t).
Proof.
  intros [S1 S2 S3 S4 S5 S6 S7 S8 S9] [T1 T2 T3 T4 T5 T6 T7 T8 T9] Hb. rewrite byte_len_app in Hb.
  pose proof (lens_bounded cs). pose proof (lens_bounded ds). pose proof (lines_bounded cs).
  pose proof (lines_bounded ds). pose proof (last_line_bounded cs). pose proof (last_line_bounded ds).
  pose proof (lens_bounded (first_line cs)). pose proof (lens_bounded (last_line cs)).
  pose proof (lens_bounded (first_line ds)). pose proof (lens_bounded (last_line ds)).
  pose proof (longest_app cs ds _ _ _ _ S9 T9) as Hl. cbn zeta in Hl.
  assert (Hk2 : ts_longest_row t <= row_count ds).
  { destruct T9 as (Hk & _). apply lookup_lt_Some in Hk. rewrite length_fmap in Hk.
    unfold lines_of in Hk. cbn [length] in Hk. unfold row_count. lia. }
  unfold u32_max in Hb. unfold text_summary_add. rewrite S4, S6, S7, T4, T6, T7, T8.
  rewrite (u32_add_exact (char_len (last_line cs))) by (unfold u32_max; lia).
  destruct (if ts_longest_row_chars s <? _ then _ else _) as [k L].
  rewrite (u32_add_exact (row_count cs)) by (unfold u32_max; lia).
  destruct (if L <? _ then _ else _) as [k' L'].
  rewrite S8, (u32_add_exact (units (last_line cs))) by (unfold u32_max; lia).
  destruct (if row_count ds =? 0 then _ else _) as [lc lu] eqn:El.
  split; cbn [ts_len ts_chars ts_len_utf16 ts_lines ts_first_line_chars ts_last_line_chars
              ts_last_line_len_utf16 ts_longest_row ts_longest_row_chars].
  - rewrite S1, T1, byte_len_app. apply usize_add_exact. lia.
  - rewrite S2, T2, char_len_app. apply usize_add_exact. lia.
  - unfold offset_utf16_add. cbn. rewrite S3, T3, units_app. apply usize_add_exact. lia.
  - unfold point_add. rewrite T4, S4, row_count_app. destruct (N.eqb_spec (row_count ds) 0); cbn; [lia|].
    apply u32_add_exact. unfold u32_max. lia.
  - unfold point_add. rewrite T4, S5, T5, last_line_app. destruct (N.eqb_spec (row_count ds) 0) as [E|]; cbn; [|done].
    assert (Hs : last_line ds = first_line ds).
    { apply last_line_single. unfold row_count in E. by destruct (rest_lines ds). }
    rewrite Hs, byte_len_app in *. apply u32_add_exact. unfold u32_max. lia.
  - rewrite first_line_app. destruct (row_count cs =? 0); [|done]. rewrite char_len_app.
    apply u32_add_exact. unfold u32_max. lia.
  - rewrite last_line_app. destruct (row_count ds =? 0); injection El as <- <-; [by rewrite char_len_app|done].
  - rewrite last_line_app. destruct (N.eqb_spec (row_count ds) 0) as [E|]; injection El as <- <-; [|done].
    rewrite units_app. f_equal. by rewrite last_line_single by (unfold row_count in E; by destruct (rest_lines ds)).
  - exact Hl.
Qed.

(** ** The loop over the characters *)
Definition with_len (s : TextSummary) (n : N) : TextSummary :=
  mkTextSummary n (ts_chars s) (ts_len_utf16 s) (ts_lines s) (ts_first_line_chars s) (ts_last_line_chars s)
    (ts_last_line_len_utf16 s) (ts_longest_row s) (ts_longest_row_chars s).

Definition summary_of_char (c : N) : TextSummary :=
  if c =? NEWLINE then text_summary_newline
  else mkTextSummary (len_utf8 c) 1 (mkOffsetUtf16 (len_utf16 c)) (mkPoint 0 (len_utf8 c)) 1 1 (len_utf16 c) 0 1.

Lemma char_summarises c : summarises [c] (summary_of_char c).
Proof.
  unfold summary_of_char. destruct (c =? NEWLINE) eqn:E.
  - apply N.eqb_eq in E as ->. split; try done. by apply (is_longest_intro [] 0 [0]); repeat constructor.
  - split; cbn [ts_len ts_chars ts_len_utf16 ts_lines ts_first_line_chars ts_last_line_chars
                ts_last_line_len_utf16 ts_longest_row ts_longest_row_chars offset_utf16 row column].
    all: unfold last_line, first_line, row_count, lines_of, rest_lines, first_line; cbn [split_lines]; rewrite ?E;
      cbn [fst snd length last default from_option Datatypes.id].
    all: rewrite ?byte_len_cons, ?units_cons; try done; change (byte_len []) with 0; change (units []) with 0; try lia.
    by apply (is_longest_intro [] 1 []); repeat constructor.
Qed.

Lemma last_le_longest cs s : summarises cs s → ts_last_line_chars s <= ts_longest_row_chars s.
Proof.
  intros [_ _ _ _ _ _ -> _ (_ & Hm & _)]. destruct (lines_join cs []) as (init & E & _).
  rewrite E, fmap_app in Hm. apply (Hm (length init)). rewrite lookup_app_r by (by rewrite length_fmap).
  by rewrite length_fmap, Nat.sub_diag.
Qed.

Lemma summary_char_add p s c :
  summarises p s → byte_len (p ++ [c]) <= u32_max →
  with_len (summary_char s c) (byte_len (p ++ [c])) = text_summary_add s (summary_of_char c).
Proof.
  intros Hs Hb. pose proof (last_le_longest p s Hs) as Hll. destruct Hs as [S1 S2 S3 S4 S5 S6 S7 S8 S9].
  rewrite byte_len_app, byte_len_cons in *. change (byte_len []) with 0 in *. unfold u32_max in Hb.
  pose proof (lens_bounded p). pose proof (lines_bounded p). pose proof (last_line_bounded p).
  pose proof (lens_bounded (first_line p)). pose proof (lens_bounded (last_line p)).
  pose proof (len_utf8_bounds c). unfold summary_of_char, summary_char.
  destruct (N.eqb_spec c NEWLINE) as [->|Hc].
  - unfold text_summary_add, text_summary_newline, with_len. cbn [ts_len ts_chars ts_len_utf16 ts_lines
      ts_first_line_chars ts_last_line_chars ts_last_line_len_utf16 ts_longest_row ts_longest_row_chars row column].
    rewrite (u32_add_exact (ts_last_line_chars s) 0), !N.add_0_r by (unfold u32_max; lia).
    rewrite (proj2 (N.ltb_ge _ _) Hll), !(proj2 (N.ltb_ge _ 0) (N.le_0_l _)).
    cbn [ts_chars ts_len_utf16 ts_lines ts_first_line_chars ts_last_line_chars ts_last_line_len_utf16
         ts_longest_row ts_longest_row_chars].
    replace (row (point_add (ts_lines s) (mkPoint 1 0)) =? 0) with false.
    + change (byte_len [NEWLINE]) with 1 in *. change (len_utf8 NEWLINE) with 1 in *.
      rewrite S1, (usize_add_exact (byte_len p)) by lia. cbn. f_equal. destruct (row (ts_lines s) =? 0); [|done].
      rewrite (u32_add_exact _ 0), N.add_0_r by (unfold u32_max; lia). done.
    + symmetry. apply N.eqb_neq. unfold point_add. cbn. rewrite S4, u32_add_exact by (unfold u32_max; lia). lia.
  - unfold text_summary_add, with_len. cbn [ts_len ts_chars ts_len_utf16 ts_lines
      ts_first_line_chars ts_last_line_chars ts_last_line_len_utf16 ts_longest_row ts_longest_row_chars row column].
    rewrite (u32_add_exact (ts_last_line_chars s)) by (unfold u32_max; lia). rewrite S1, N.add_0_r, (usize_add_exact (byte_len p)) by lia.
    unfold point_add. cbn [row column N.eqb].
    assert (Hf : row (ts_lines s) = 0 → ts_first_line_chars s = ts_last_line_chars s).
    { rewrite S4, S6, S7. intros E. f_equal. symmetry. apply last_line_single. unfold row_count in E.
      by destruct (rest_lines p). }
    replace (if row (ts_lines s) =? 0 then u32_add (ts_first_line_chars s) 1 else ts_first_line_chars s)
      with (if row (ts_lines s) =? 0 then ts_last_line_chars s + 1 else ts_first_line_chars s).
    2:{ destruct (N.eqb_spec (row (ts_lines s)) 0) as [E|]; [|done].
        rewrite <-(Hf E). symmetry. apply u32_add_exact. unfold u32_max. lia. }
    destruct (N.ltb_spec (ts_longest_row_chars s) (ts_last_line_chars s + 1)).
    + by rewrite (proj2 (N.ltb_ge _ 1)) by lia.
    + by rewrite (proj2 (N.ltb_ge _ 1)) by lia.
Qed.

Lemma summary_char_len s c n : with_len (summary_char s c) n = summary_char (with_len s n) c.
Proof.
  unfold with_len, summary_char. cbn [ts_chars ts_len_utf16 ts_lines ts_first_line_chars ts_last_line_chars
    ts_last_line_len_utf16 ts_longest_row ts_longest_row_chars].
  destruct (c =? NEWLINE); by repeat case_match.
Qed.

Lemma from_with_len n cs : foldl summary_char (with_len text_summary_zero n) cs = with_len (text_summary_from cs) n.
Proof.
  unfold text_summary_from. generalize (N.of_nat (length (str_of cs))) as m. intros m.
  change (mkTextSummary m 0 _ _ 0 0 0 0 0) with (with_len text_summary_zero m).
  change (with_len text_summary_zero n) with (with_len (with_len text_summary_zero m) n).
  generalize (with_len text_summary_zero m) as s.
  induction cs as [|c cs IH]; intros s; [done|]. cbn [foldl]. by rewrite <-summary_char_len, IH.
Qed.

Lemma from_snoc p c :
  text_summary_from (p ++ [c]) = with_len (summary_char (text_summary_from p) c) (byte_len (p ++ [c])).
Proof.
  unfold text_summary_from at 1. fold (byte_len (p ++ [c])).
  change (mkTextSummary _ 0 _ _ 0 0 0 0 0) with (with_len text_summary_zero (byte_len (p ++ [c]))).
  rewrite foldl_app, from_with_len. cbn [foldl]. by rewrite summary_char_len.
Qed.

Lemma from_summarises cs : byte_len cs <= u32_max → summarises cs (text_summary_from cs).
Proof.
  induction cs as [|c p IH] using rev_ind; intros Hb.
  - split; try done. by apply (is_longest_intro [] 0 []).
  - assert (byte_len p <= u32_max) as Hp by (rewrite byte_len_app in Hb; lia).
    rewrite from_snoc, (summary_char_add p) by auto.
    apply add_summarises; [by apply IH|apply char_summarises|done].
Qed.

Lemma summarises_unique cs s t : summarises cs s → summarises cs t → s = t.
Proof.
  intros [S1 S2 S3 S4 S5 S6 S7 S8 S9] [T1 T2 T3 T4 T5 T6 T7 T8 T9].
  destruct (is_longest_unique _ _ _ _ _ S9 T9) as [Hk HL].
  destruct s as [? ? [?] [? ?] ? ? ? ? ?], t as [? ? [?] [? ?] ? ? ? ? ?]; simplify_eq/=. f_equal; lia.
Qed.

(** [TextSummary::from(text)] counts, for every text below 4 GiB, exactly the text's bytes,
    characters, UTF-16 units, line breaks and last, first and longest (earliest on ties) lines. *)
Theorem text_summary_from_correct cs : byte_len cs <= u32_max → summarises cs (text_summary_from cs).
Proof. apply from_summarises. Qed.

(* "aé\n𝒳yz" *)
Lemma text_summary_from_correct_witness :
  let cs := [97; 233; NEWLINE; 119987; 121; 122] in
  summarises cs (text_summary_from cs)
    ∧ text_summary_from cs = mkTextSummary 10 6 (mkOffsetUtf16 7) (mkPoint 1 6) 2 3 4 1 3.
Proof. split; [|reflexivity]. by apply text_summary_from_correct. Defined.

(** Adding summaries is summarising the concatenation: [TextSummary] is a monoid homomorphism
    from texts, on texts that together stay below 4 GiB. *)
Theorem text_summary_homomorphism cs ds :
  byte_len (cs ++ ds) <= u32_max →
  text_summary_from (cs ++ ds) = text_summary_add (text_summary_from cs) (text_summary_from ds).
Proof.
  intros Hb. pose proof Hb as Hb'. rewrite byte_len_app in Hb'.
  eapply summarises_unique; [by apply from_summarises|].
  apply add_summarises; [apply from_summarises; lia|apply from_summarises; lia|done].
Qed.

Lemma text_summary_homomorphism_witness :
  text_summary_from ([97; NEWLINE; 233] ++ [121; 122; NEWLINE])
  = text_summary_add (text_summary_from [97; NEWLINE; 233]) (text_summary_from [121; 122; NEWLINE]).
Proof. by apply text_summary_homomorphism. Defined.

(** [add_newline] is meant to add [newline()], and does not: it counts the UTF-16 units twice and
    forgets the character, on every text. *)
Theorem add_newline_wrong cs :
  byte_len cs + 1 <= u32_max →
  let s := text_summary_from cs in
  ts_chars (add_newline s) + 1 = ts_chars (text_summary_add s text_summary_newline)
  ∧ offset_utf16 (ts_len_utf16 (add_newline s))
    = offset_utf16 (ts_len_utf16 (text_summary_add s text_summary_newline)) + units cs.
Proof.
  intros Hb s. unfold u32_max in Hb. pose proof (lens_bounded cs).
  assert (summarises cs s) as [S1 S2 S3 S4 S5 S6 S7 S8 S9] by (apply from_summarises; unfold u32_max; lia).
  unfold text_summary_add, text_summary_newline, add_newline, offset_utf16_add.
  cbn [ts_chars ts_len_utf16 offset_utf16 ts_first_line_chars ts_last_line_chars ts_lines row column
       ts_last_line_len_utf16 ts_longest_row ts_longest_row_chars].
  repeat (destruct (_ <? _)); cbn [N.eqb ts_chars ts_len_utf16 offset_utf16]; rewrite S2, S3;
    rewrite !usize_add_exact; rewrite ?usize_add_exact; lia.
Qed.
