(* ===== verification/Chunk.v ===== *)
(** * Chunks of a rope: [crates/rope/src/chunk.rs]

    A chunk is at most 128 bytes of text with four bitmaps, one bit per byte: where
    characters start, which bits count UTF-16 units, where the newlines and the tabs are.
    All position arithmetic within a chunk is bit counting.  A [str] is its list of bytes;
    the slicing functions of [str] panic off character boundaries. *)

From S2P Require Import Prelude Ord SumTree Patch Bitmap Select Utf8 Point TextSummary.
Local Open Scope N_scope.

Definition MAX_BASE : N := BITS.
Definition MIN_BASE : N := MAX_BASE / 2.
Definition str_len (s : list N) : N := N.of_nat (length s).
Definition range_len (r : Range N) : N := r_end r - r_start r.

(** ** [str] *)
Definition str_split_at (s : list N) (mid : N) : outcome (list N * list N) :=
  if is_char_boundary s mid then Ok (take (N.to_nat mid) s, drop (N.to_nat mid) s) else Panic.

Definition str_index (s : list N) (range : Range N) : outcome (list N) :=
  if (r_start range <=? r_end range) && is_char_boundary s (r_start range) && is_char_boundary s (r_end range)
  then Ok (take (N.to_nat (range_len range)) (drop (N.to_nat (r_start range)) s)) else Panic.

Fixpoint floor_loop (s : list N) (i : nat) : nat :=
  match i with
  | O => O
  | S j => if default true (is_utf8_char_boundary <$> s !! i) then i else floor_loop s j
  end.
Definition str_floor_char_boundary (s : list N) (index : N) : N :=
  if str_len s <=? index then str_len s else N.of_nat (floor_loop s (N.to_nat index)).

Fixpoint ceil_loop (rest : list N) (i : N) : N :=
  match rest with
  | [] => i
  | b :: rest => if is_utf8_char_boundary b then i else ceil_loop rest (i + 1)
  end.
Definition str_ceil_char_boundary (s : list N) (index : N) : N :=
  if str_len s <=? index then str_len s else ceil_loop (drop (N.to_nat index) s) index.

(** [ArrayString::push_str], which fails beyond the capacity. *)
Definition array_push_str (buf text : list N) : option (list N) :=
  if str_len (buf ++ text) <=? MAX_BASE then Some (buf ++ text) else None.

(** [Bitmap::from_le_bytes] *)
Definition from_le_bytes (bytes : list N) : N := foldr (fun b acc => b + 256 * acc) 0 bytes.

(** ** The data *)
Record Chunk := mkChunk {
  c_chars : N; c_chars_utf16 : N; c_newlines : N; c_tabs : N; c_text : list N
}.
Record ChunkSlice := mkSlice {
  chars : N; chars_utf16 : N; newlines : N; tabs : N; text : list N
}.
Definition empty_chunk : Chunk := mkChunk 0 0 0 0 [].
Definition empty_slice : ChunkSlice := mkSlice 0 0 0 0 [].

Definition as_slice (self : Chunk) : ChunkSlice :=
  mkSlice (c_chars self) (c_chars_utf16 self) (c_newlines self) (c_tabs self) (c_text self).
Definition slice_into (self : ChunkSlice) : outcome Chunk :=
  text ← unwrap (array_push_str [] (text self));
  Ok (mkChunk (chars self) (chars_utf16 self) (newlines self) (tabs self) text).

(** ** [Chunk::new] *)
(** The four accumulators of the loop over the bytes of a group, each a [u8]. *)
Record flags := mkFlags { f_chars : N; f_newlines : N; f_tabs : N; f_chars_utf16 : N }.

Definition u8_shl (v k : N) : N := u8_wrap (N.shiftl v (k `mod` 8)).
Definition scan_byte (f : flags) (ix b : N) : flags :=
  mkFlags (N.lor (f_chars f) (u8_shl (N.b2n (is_utf8_char_boundary b)) ix))
          (N.lor (f_newlines f) (u8_shl (N.b2n (b =? NEWLINE)) ix))
          (N.lor (f_tabs f) (u8_shl (N.b2n (b =? TAB)) ix))
          (N.lor (f_chars_utf16 f) (u8_shl (N.b2n (240 <=? b)) ix)).
Fixpoint scan_group (f : flags) (ix : N) (group : list N) : flags :=
  match group with [] => f | b :: group => scan_group (scan_byte f ix b) (ix + 1) group end.

(** The arrays of one byte per group, as the loop fills them. *)
Definition set_byte (bytes : list N) (ix : nat) (b : N) : outcome (list N) :=
  if decide (ix < length bytes)%nat then Ok (<[ix := b]> bytes) else Panic.
Fixpoint new_loop (fuel : nat) (bytes : list N) (chunk_ix : nat)
    (chars_bytes newlines_bytes tabs_bytes chars_utf16_bytes : list N) :
    outcome (list N * list N * list N * list N) :=
  match fuel with
  | O => Panic
  | S fuel =>
      match bytes with
      | [] => Ok (chars_bytes, newlines_bytes, tabs_bytes, chars_utf16_bytes)
      | _ =>
          let mid := (length bytes `min` 8)%nat in
          let f := scan_group (mkFlags 0 0 0 0) 0 (take mid bytes) in
          chars_bytes ← set_byte chars_bytes chunk_ix (f_chars f);
          newlines_bytes ← set_byte newlines_bytes chunk_ix (f_newlines f);
          tabs_bytes ← set_byte tabs_bytes chunk_ix (f_tabs f);
          chars_utf16_bytes ← set_byte chars_utf16_bytes chunk_ix (f_chars_utf16 f);
          new_loop fuel (drop mid bytes) (S chunk_ix) chars_bytes newlines_bytes tabs_bytes chars_utf16_bytes
      end
  end.

Definition chunk_new (text : list N) : outcome Chunk :=
  text ← unwrap (array_push_str [] text);
  let zeros := replicate 16 0 in
  '(chars_bytes, newlines_bytes, tabs_bytes, chars_utf16_bytes) ←
    new_loop (S (length text)) text 0 zeros zeros zeros zeros;
  let chars := from_le_bytes chars_bytes in
  Ok (mkChunk chars (N.lor (u128_shl (from_le_bytes chars_utf16_bytes) 1) chars)
        (from_le_bytes newlines_bytes) (from_le_bytes tabs_bytes) text).

(** ** Editing a chunk *)
Definition slice_is_empty (self : ChunkSlice) : bool := bool_decide (text self = []).

Definition append (self : Chunk) (slice : ChunkSlice) : outcome Chunk :=
  if slice_is_empty slice then Ok self
  else
    let base_ix := str_len (c_text self) in
    let chars := N.lor (c_chars self) (u128_shl (chars slice) base_ix) in
    let chars_utf16 := N.lor (c_chars_utf16 self) (u128_shl (chars_utf16 slice) base_ix) in
    let newlines := N.lor (c_newlines self) (u128_shl (newlines slice) base_ix) in
    let tabs := N.lor (c_tabs self) (u128_shl (tabs slice) base_ix) in
    text ← unwrap (array_push_str (c_text self) (text slice));
    Ok (mkChunk chars chars_utf16 newlines tabs text).

Definition prepend (self : Chunk) (slice : ChunkSlice) : outcome Chunk :=
  if slice_is_empty slice then Ok self
  else if bool_decide (c_text self = []) then chunk_new (text slice)
  else
    let shift := str_len (text slice) in
    let chars := N.lor (chars slice) (u128_shl (c_chars self) shift) in
    let chars_utf16 := N.lor (chars_utf16 slice) (u128_shl (c_chars_utf16 self) shift) in
    let newlines := N.lor (newlines slice) (u128_shl (c_newlines self) shift) in
    let tabs := N.lor (tabs slice) (u128_shl (c_tabs self) shift) in
    new_text ← unwrap (array_push_str [] (text slice));
    new_text ← unwrap (array_push_str new_text (c_text self));
    Ok (mkChunk chars chars_utf16 newlines tabs new_text).

Definition push_str (self : Chunk) (text : list N) : outcome Chunk :=
  c ← chunk_new text; append self (as_slice c).
Definition prepend_str (self : Chunk) (text : list N) : outcome Chunk :=
  c ← chunk_new text; prepend self (as_slice c).

(** ** Boundaries *)
Definition slice_is_char_boundary (self : ChunkSlice) (offset : N) : bool :=
  negb (N.land (unbounded_shl 1 (u32_wrap offset)) (chars self) =? 0) || (offset =? str_len (text self)).
Definition chunk_is_char_boundary (self : Chunk) (offset : N) : bool :=
  negb (N.land (unbounded_shl 1 (u32_wrap offset)) (c_chars self) =? 0) || (offset =? str_len (c_text self)).
Definition chunk_floor_char_boundary (self : Chunk) (index : N) : N :=
  if str_len (c_text self) <=? index then str_len (c_text self)
  else N.of_nat (floor_loop (c_text self) (N.to_nat index)).
Definition slice_floor_char_boundary (self : ChunkSlice) (index : N) : N :=
  str_floor_char_boundary (text self) index.
(** Both versions panic when [PANIC] is set, and otherwise log and return [false]. *)
Definition slice_assert_char_boundary (PANIC : bool) (self : ChunkSlice) (offset : N) : outcome bool :=
  if slice_is_char_boundary self offset then Ok true else if PANIC then Panic else Ok false.
Definition chunk_assert_char_boundary (PANIC : bool) (self : Chunk) (offset : N) : outcome bool :=
  if chunk_is_char_boundary self offset then Ok true else if PANIC then Panic else Ok false.

(** ** Slicing *)
Definition split_at (self : ChunkSlice) (mid : N) : outcome (ChunkSlice * ChunkSlice) :=
  if mid =? MAX_BASE then Ok (self, empty_slice)
  else
    let mask := u128_wrapping_sub (u128_shl 1 mid) 1 in
    '(left_text, right_text) ← str_split_at (text self) mid;
    Ok (mkSlice (N.land (chars self) mask) (N.land (chars_utf16 self) mask)
          (N.land (newlines self) mask) (N.land (tabs self) mask) left_text,
        mkSlice (u128_shr (chars self) mid) (u128_shr (chars_utf16 self) mid)
          (u128_shr (newlines self) mid) (u128_shr (tabs self) mid) right_text).

Definition slice (self : ChunkSlice) (range : Range N) : outcome ChunkSlice :=
  if r_start range =? MAX_BASE then Ok empty_slice
  else
    at_start ← slice_assert_char_boundary false self (r_start range);
    let start := if at_start : bool then r_start range else str_ceil_char_boundary (text self) (r_start range) in
    at_end ← slice_assert_char_boundary false self (r_end range);
    let end_ :=
      if at_end : bool then r_end range
      else if r_end range <? start then start
      else str_floor_char_boundary (text self) (r_end range) in
    let mask := u128_wrapping_sub (unbounded_shl 1 (u32_wrap end_)) 1 in
    text ← str_index (text self) (mkRange start end_);
    Ok (mkSlice (u128_shr (N.land (chars self) mask) start) (u128_shr (N.land (chars_utf16 self) mask) start)
          (u128_shr (N.land (newlines self) mask) start) (u128_shr (N.land (tabs self) mask) start) text).

Definition chunk_slice (self : Chunk) (range : Range N) : outcome ChunkSlice := slice (as_slice self) range.

(** ** Summaries *)
Definition len (self : ChunkSlice) : N := str_len (text self).
Definition slice_len_utf16 (self : ChunkSlice) : OffsetUtf16 := mkOffsetUtf16 (count_ones (chars_utf16 self)).
Definition lines (self : ChunkSlice) : Point :=
  mkPoint (count_ones (newlines self))
          (u32_sub (leading_zeros (newlines self)) (u32_sub BITS (u32_wrap (str_len (text self))))).
Definition first_line_chars (self : ChunkSlice) : N :=
  count_ones (N.land (chars self) (saturating_shl_mask (trailing_zeros (newlines self)))).
Definition last_line_chars (self : ChunkSlice) : N :=
  count_ones (N.land (chars self) (saturating_shr_mask (leading_zeros (newlines self)))).
Definition last_line_len_utf16 (self : ChunkSlice) : N :=
  count_ones (N.land (chars_utf16 self) (saturating_shr_mask (leading_zeros (newlines self)))).

(** One turn per newline; at most 128 turns. *)
Fixpoint longest_row_loop (fuel : nat) (chars newlines total_chars row longest_row longest_row_chars : N) :
    outcome (N * (N * N)) :=
  match fuel with
  | O => Panic
  | S fuel =>
      if 0 <? newlines then
        let newline_ix := trailing_zeros newlines in
        let row_chars := u8_wrap (count_ones (N.land chars (u128_wrapping_sub (u128_shl 1 newline_ix) 1))) in
        let total_chars := usize_add total_chars row_chars in
        let '(longest_row, longest_row_chars) :=
          if longest_row_chars <? row_chars then (row, row_chars) else (longest_row, longest_row_chars) in
        let newlines := u128_shr (u128_shr newlines newline_ix) 1 in
        let chars := u128_shr (u128_shr chars newline_ix) 1 in
        longest_row_loop fuel chars newlines (usize_add total_chars 1) (u32_add row 1)
          longest_row longest_row_chars
      else
        let row_chars := u8_wrap (count_ones chars) in
        Ok (usize_add total_chars row_chars,
            if longest_row_chars <? row_chars then (row, row_chars) else (longest_row, longest_row_chars))
  end.
(** The total number of characters, and the longest row with its length. *)
Definition longest_row (self : ChunkSlice) : outcome (N * (N * N)) :=
  longest_row_loop 129 (chars self) (newlines self) 0 0 0 0.

Definition text_summary (self : ChunkSlice) : outcome TextSummary :=
  '(chars, (longest_row, longest_row_chars)) ← longest_row self;
  Ok (mkTextSummary (len self) chars (slice_len_utf16 self) (lines self) (first_line_chars self)
        (last_line_chars self) (last_line_len_utf16 self) longest_row longest_row_chars).

(** ** Positions *)
Definition offset_mask (offset : N) : N := u128_wrapping_sub (unbounded_shl 1 (u32_wrap offset)) 1.

Definition offset_to_point (self : ChunkSlice) (offset : N) : Point :=
  let mask := offset_mask offset in
  let row := count_ones (N.land (newlines self) mask) in
  let newline_ix := u32_sub BITS (leading_zeros (N.land (newlines self) mask)) in
  mkPoint row (u32_wrap (usize_sub offset newline_ix)).

Definition offset_range_for_row (self : ChunkSlice) (row : N) : Range N :=
  let row_start := if 0 <? row then usize_add (nth_set_bit (newlines self) row) 1 else 0 in
  let row_len :=
    if row_start =? MAX_BASE then 0
    else N.min (trailing_zeros (u128_shr (newlines self) row_start))
               (u32_wrap (usize_sub (str_len (text self)) row_start)) in
  mkRange row_start (usize_add row_start row_len).

(** [debug_panic!] only logs in the release profile. *)
Definition point_to_offset (self : ChunkSlice) (point : Point) : N :=
  if row (lines self) <? row point then len self
  else
    let row_offset_range := offset_range_for_row self (row point) in
    if u32_wrap (range_len row_offset_range) <? column point then r_end row_offset_range
    else usize_add (r_start row_offset_range) (column point).

Definition offset_to_offset_utf16 (self : ChunkSlice) (offset : N) : OffsetUtf16 :=
  mkOffsetUtf16 (count_ones (N.land (chars_utf16 self) (offset_mask offset))).

Definition point_to_offset_utf16 (self : ChunkSlice) (point : Point) : OffsetUtf16 :=
  if row (lines self) <? row point then slice_len_utf16 self
  else offset_to_offset_utf16 self (point_to_offset self point).

Definition offset_utf16_to_offset (self : ChunkSlice) (target : OffsetUtf16) : N :=
  if offset_utf16 target =? 0 then 0
  else
    let ix := usize_add (nth_set_bit (chars_utf16 self) (offset_utf16 target)) 1 in
    if ix =? MAX_BASE then MAX_BASE
    else
      let utf8_additional_len :=
        N.min (trailing_zeros (u128_shr (chars_utf16 self) ix)) (usize_sub (str_len (text self)) ix) in
      usize_add ix utf8_additional_len.

Definition offset_to_point_utf16 (self : ChunkSlice) (offset : N) : PointUtf16 :=
  let mask := saturating_shl_mask (u32_wrap offset) in
  let row := count_ones (N.land (newlines self) (saturating_shl_mask (u32_wrap offset))) in
  let newline_ix := u32_sub BITS (leading_zeros (N.land (newlines self) mask)) in
  let column :=
    if newline_ix =? MAX_BASE then 0
    else count_ones (u128_shr (N.land (chars_utf16 self) mask) newline_ix) in
  mkPointUtf16 row column.

Definition point_to_point_utf16 (self : ChunkSlice) (point : Point) : PointUtf16 :=
  offset_to_point_utf16 self (point_to_offset self point).

(** [while !text.is_char_boundary(offset) { offset -= 1 }], and the same upwards.  Going
    down meets 0 within [offset] turns, going up the length. *)
Fixpoint step_to_boundary (fuel : nat) (s : list N) (bias : Bias) (offset : N) : outcome N :=
  match fuel with
  | O => Panic
  | S fuel =>
      if is_char_boundary s offset then Ok offset
      else step_to_boundary fuel s bias
             (match bias with Left => usize_sub offset 1 | Right => usize_add offset 1 end)
  end.
Definition BOUNDARY_FUEL : nat := 130.

Definition point_utf16_to_offset (self : ChunkSlice) (point : PointUtf16) (clip : bool) : outcome N :=
  if row (lines self) <? row_utf16 point then Ok (len self)
  else
    let row_offset_range := offset_range_for_row self (row_utf16 point) in
    line ← slice self row_offset_range;
    if last_line_len_utf16 line <? column_utf16 point then Ok (r_end row_offset_range)
    else
      let offset := r_start row_offset_range in
      if 0 <? column_utf16 point then
        let offset := usize_add offset (offset_utf16_to_offset line (mkOffsetUtf16 (column_utf16 point))) in
        if is_char_boundary (text self) offset then Ok offset
        else step_to_boundary BOUNDARY_FUEL (text self) Left (usize_sub offset 1)
      else Ok offset.

Definition unclipped_point_utf16_to_point (self : ChunkSlice) (point : Unclipped PointUtf16) : outcome Point :=
  let max_point := lines self in
  let point := unclipped point in
  if row max_point <? row_utf16 point then Ok max_point
  else
    line ← slice self (offset_range_for_row self (row_utf16 point));
    if column_utf16 point =? 0 then Ok (mkPoint (row_utf16 point) 0)
    else if u32_wrap (offset_utf16 (slice_len_utf16 line)) <=? column_utf16 point
    then Ok (mkPoint (row_utf16 point) (u32_wrap (len line)))
    else
      column ← step_to_boundary BOUNDARY_FUEL (text line) Left
                 (offset_utf16_to_offset line (mkOffsetUtf16 (column_utf16 point)));
      Ok (mkPoint (row_utf16 point) (u32_wrap column)).

Definition clip_offset_utf16 (self : ChunkSlice) (target : OffsetUtf16) (bias : Bias) : outcome OffsetUtf16 :=
  if offset_utf16 target =? 0 then Ok (mkOffsetUtf16 0)
  else if offset_utf16 (slice_len_utf16 self) <=? offset_utf16 target then Ok (slice_len_utf16 self)
  else
    offset ← step_to_boundary BOUNDARY_FUEL (text self) bias (offset_utf16_to_offset self target);
    Ok (offset_to_offset_utf16 self offset).

Definition clip_point_utf16 (self : ChunkSlice) (point : Unclipped PointUtf16) (bias : Bias) : outcome PointUtf16 :=
  let max_point := lines self in
  let point := unclipped point in
  if row max_point <? row_utf16 point then Ok (mkPointUtf16 (row max_point) (last_line_len_utf16 self))
  else
    line ← slice self (offset_range_for_row self (row_utf16 point));
    column ← clip_offset_utf16 line (mkOffsetUtf16 (column_utf16 point)) bias;
    Ok (mkPointUtf16 (row_utf16 point) (u32_wrap (offset_utf16 column))).

(** [unicode_segmentation]'s [GraphemeCursor::is_boundary], on a whole text and an offset
    into it; [None] stands for its [Err]. *)
Section graphemes.
Context (grapheme_boundary : list N → N → option bool).

Fixpoint clip_loop (fuel : nat) (line : ChunkSlice) (bias : Bias) (column : N) : outcome N :=
  match fuel with
  | O => Panic
  | S fuel =>
      if slice_is_char_boundary line column && default false (grapheme_boundary (text line) column)
      then Ok column
      else clip_loop fuel line bias
             (match bias with Left => usize_sub column 1 | Right => usize_add column 1 end)
  end.

Definition clip_point (self : ChunkSlice) (point : Point) (bias : Bias) : outcome Point :=
  let max_point := lines self in
  if row max_point <? row point then Ok max_point
  else
    line ← slice self (offset_range_for_row self (row point));
    if column point =? 0 then Ok point
    else if u32_wrap (len line) <=? column point then Ok (mkPoint (row point) (u32_wrap (len line)))
    else
      let column := column point in
      before ← unwrap (text line !! N.to_nat (usize_sub column 1));
      ascii ← (if before <? 128 then after ← unwrap (text line !! N.to_nat column); Ok (after <? 128)
               else Ok false);
      if ascii : bool then Ok (mkPoint (row point) (u32_wrap column))
      else
        column ← clip_loop BOUNDARY_FUEL line bias column;
        Ok (mkPoint (row point) (u32_wrap column)).
End graphemes.

(** ** Tabs *)
Record Tabs := mkTabs { t_tabs : N; t_chars : N }.
Record TabPosition := mkTabPosition { byte_offset : N; char_offset : N }.
Definition slice_tabs (self : ChunkSlice) : Tabs := mkTabs (tabs self) (chars self).
Definition tabs_next (self : Tabs) : option TabPosition * Tabs :=
  if t_tabs self =? 0 then (None, self)
  else
    let tab_offset := trailing_zeros (t_tabs self) in
    let chars_mask := u128_wrapping_sub (u128_shl 1 tab_offset) 1 in
    let char_offset := count_ones (N.land (t_chars self) chars_mask) in
    (Some (mkTabPosition tab_offset char_offset),
     mkTabs (N.lxor (t_tabs self) (u128_shl 1 tab_offset)) (t_chars self)).
(** Running the iterator to its end. *)
Fixpoint tabs_collect (fuel : nat) (self : Tabs) : outcome (list TabPosition) :=
  match fuel with
  | O => Panic
  | S fuel =>
      match tabs_next self with
      | (None, _) => Ok []
      | (Some p, self) => rest ← tabs_collect fuel self; Ok (p :: rest)
      end
  end.

Example tabs_collect_test :
  (c ← chunk_new (str_of [233; TAB; 97; TAB]); tabs_collect 130 (slice_tabs (as_slice c)))
  = Ok [mkTabPosition 2 1; mkTabPosition 4 3].
Proof. vm_compute. reflexivity. Qed.
