(* ===== verification/ChunkFacts.v ===== *)
(** * Facts about chunks

    [slice_of cs] is the slice whose bitmaps describe the characters [cs].  Every chunk
    operation maps such slices to such slices, and computes on bitmaps what its text says. *)

From S2P Require Import Prelude Ord SumTree Patch Bitmap Select Utf8 Point TextSummary Chunk.
Local Open Scope N_scope.

(** ** The bitmaps of a text *)
(** A character's bytes, with [p] holding for the first one at most. *)
Definition lead_bits (p : N → bool) (c : N) : list bool := p c :: replicate (pred (length (encode c))) false.
Definition lead_map (p : N → bool) (cs : list N) : list bool := flat_map (lead_bits p) cs.
Definition is_char (c : N) : bool := true.
Definition unit_bits (c : N) : list bool :=
  if c <? 65536 then lead_bits is_char c else [true; true; false; false].
Definition unit_map (cs : list N) : list bool := flat_map unit_bits cs.

Definition slice_of (cs : list N) : ChunkSlice :=
  mkSlice (bits_of (lead_map is_char cs)) (bits_of (unit_map cs)) (bits_of (lead_map (N.eqb NEWLINE) cs))
    (bits_of (lead_map (N.eqb TAB) cs)) (str_of cs).
Definition chunk_of (cs : list N) : Chunk :=
  mkChunk (bits_of (lead_map is_char cs)) (bits_of (unit_map cs)) (bits_of (lead_map (N.eqb NEWLINE) cs))
    (bits_of (lead_map (N.eqb TAB) cs)) (str_of cs).

(** A text that fits a chunk. *)
Definition fits (cs : list N) : Prop := Forall char_ok cs ∧ byte_len cs <= MAX_BASE.

Lemma as_slice_of cs : as_slice (chunk_of cs) = slice_of cs.
Proof. done. Qed.

Lemma byte_len_nat cs : byte_len cs = N.of_nat (length (str_of cs)).
Proof. done. Qed.

Lemma encode_nonempty c : ∃ b rest, encode c = b :: rest.
Proof. unfold encode. repeat destruct (_ <? _); eauto. Qed.

Lemma lead_bits_length p c : length (lead_bits p c) = length (encode c).
Proof. unfold lead_bits. destruct (encode_nonempty c) as (b & rest & ->). cbn. by rewrite length_replicate. Qed.

Lemma unit_bits_length c : length (unit_bits c) = length (encode c).
Proof.
  unfold unit_bits. destruct (c <? 65536) eqn:E; [apply lead_bits_length|]. unfold encode.
  rewrite E. apply N.ltb_ge in E. rewrite !(proj2 (N.ltb_ge _ _)) by lia. done.
Qed.

Lemma flat_map_length_eq {A} (f : N → list A) cs :
  (∀ c, length (f c) = length (encode c)) → length (flat_map f cs) = length (str_of cs).
Proof.
  intros Hf. induction cs as [|c cs IH]; [done|]. cbn [flat_map str_of]. rewrite !length_app, IH, Hf. done.
Qed.
Lemma lead_map_length p cs : length (lead_map p cs) = length (str_of cs).
Proof. apply flat_map_length_eq. apply lead_bits_length. Qed.
Lemma unit_map_length cs : length (unit_map cs) = length (str_of cs).
Proof. apply flat_map_length_eq. apply unit_bits_length. Qed.

Lemma str_app cs ds : str_of (cs ++ ds) = str_of cs ++ str_of ds.
Proof. apply flat_map_app. Qed.
Lemma lead_map_app p cs ds : lead_map p (cs ++ ds) = lead_map p cs ++ lead_map p ds.
Proof. apply flat_map_app. Qed.
Lemma unit_map_app cs ds : unit_map (cs ++ ds) = unit_map cs ++ unit_map ds.
Proof. apply flat_map_app. Qed.

Lemma fits_app cs ds : fits (cs ++ ds) → fits cs ∧ fits ds.
Proof. intros [H1 H2]. apply Forall_app in H1 as []. rewrite byte_len_app in H2. repeat split; (done || lia). Qed.

Lemma chunk_fits_length cs : fits cs → (length (str_of cs) <= 128)%nat.
Proof. intros [_ H]. unfold byte_len, MAX_BASE, BITS in H. lia. Qed.

Create Rewrite HintDb chunk.
#[export] Hint Rewrite str_app lead_map_app unit_map_app @length_app lead_map_length unit_map_length : chunk.

(** ** [Chunk::new] *)
Definition flags_of (g : list N) : flags :=
  mkFlags (bits_of (is_utf8_char_boundary <$> g)) (bits_of ((fun b => b =? NEWLINE) <$> g))
    (bits_of ((fun b => b =? TAB) <$> g)) (bits_of (N.leb 240 <$> g)).

Lemma lor_bit (p : N → bool) g b :
  (length g < 8)%nat →
  N.lor (bits_of (p <$> g)) (u8_shl (N.b2n (p b)) (N.of_nat (length g))) = bits_of (p <$> g ++ [b]).
Proof.
  intros Hg. unfold u8_shl. rewrite N.mod_small by lia.
  replace (N.b2n (p b)) with (bits_of [p b]) by (cbn; lia).
  rewrite shiftl_bits, u8_wrap_small, fmap_app.
  - rewrite <-(lor_bits_app (p <$> g) [p b]). by rewrite length_fmap.
  - eapply N.lt_le_trans; [apply bits_of_bound|]. rewrite length_app, length_replicate. cbn [length].
    change 256 with (2 ^ 8). apply N.pow_le_mono_r; lia.
Qed.

Lemma scan_group_flags g pre :
  (length pre + length g <= 8)%nat →
  scan_group (flags_of pre) (N.of_nat (length pre)) g = flags_of (pre ++ g).
Proof.
  revert pre. induction g as [|b g IH]; intros pre Hl; [by rewrite app_nil_r|].
  cbn [scan_group length] in *. replace (pre ++ b :: g) with ((pre ++ [b]) ++ g) by by rewrite <-app_assoc.
  rewrite <-IH by (rewrite length_app; cbn; lia). f_equal.
  - unfold scan_byte, flags_of. cbn [f_chars f_newlines f_tabs f_chars_utf16].
    apply f_equal4; [apply (lor_bit is_utf8_char_boundary)|apply (lor_bit (fun b => b =? NEWLINE))
                    |apply (lor_bit (fun b => b =? TAB))|apply (lor_bit (N.leb 240))]; lia.
  - rewrite length_app. cbn. lia.
Qed.

(** An array of group bytes of which the first [k] are filled with the bits of [pre]. *)
Definition le_array (p : N → bool) (pre : list N) (k : nat) (arr : list N) : Prop :=
  ∃ A, arr = A ++ replicate (16 - k) 0 ∧ length A = k ∧ from_le_bytes A = bits_of (p <$> pre).

Lemma from_le_bytes_app a b : from_le_bytes (a ++ b) = from_le_bytes a + 2 ^ (8 * N.of_nat (length a)) * from_le_bytes b.
Proof.
  induction a as [|x a IH]; [change (from_le_bytes b = 0 + 1 * from_le_bytes b); lia|]. cbn [app from_le_bytes foldr length].
  fold (from_le_bytes (a ++ b)) (from_le_bytes a). rewrite IH.
  replace (8 * N.of_nat (S (length a))) with (8 + 8 * N.of_nat (length a)) by lia.
  rewrite N.pow_add_r. change (2 ^ 8) with 256. lia.
Qed.

Lemma from_le_bytes_zeros n : from_le_bytes (replicate n 0) = 0.
Proof.
  induction n as [|n IH]; [done|]. change (0 + 256 * from_le_bytes (replicate n 0) = 0). by rewrite IH.
Qed.

Lemma set_byte_array p pre k arr g :
  le_array p pre k arr → (k < 16)%nat → length pre = (8 * k)%nat →
  ok_with (set_byte arr k (bits_of (p <$> g))) (le_array p (pre ++ g) (S k)).
Proof.
  intros (A & -> & HA & Hb) Hk Hpre. unfold set_byte.
  rewrite decide_True by (rewrite length_app, length_replicate; lia). cbn [ok_with].
  exists (A ++ [bits_of (p <$> g)]). split_and!.
  - rewrite insert_app_r_alt, HA, Nat.sub_diag by lia.
    replace (16 - k)%nat with (S (16 - S k)) by lia. cbn. by rewrite <-app_assoc.
  - rewrite length_app. cbn. lia.
  - rewrite from_le_bytes_app, Hb, HA, fmap_app, bits_of_app, length_fmap, Hpre.
    cbn [from_le_bytes foldr]. rewrite N.mul_0_r, N.add_0_r. do 2 f_equal. f_equal. lia.
Qed.

Lemma le_array_value p pre k arr : le_array p pre k arr → from_le_bytes arr = bits_of (p <$> pre).
Proof. intros (A & -> & _ & <-). rewrite from_le_bytes_app, from_le_bytes_zeros. lia. Qed.

Lemma new_loop_ok fuel bytes pre k a1 a2 a3 a4 :
  (length bytes < fuel)%nat → (length pre + length bytes <= 128)%nat →
  (bytes ≠ [] → length pre = (8 * k)%nat) →
  le_array is_utf8_char_boundary pre k a1 → le_array (fun b => b =? NEWLINE) pre k a2 →
  le_array (fun b => b =? TAB) pre k a3 → le_array (N.leb 240) pre k a4 →
  ok_with (new_loop fuel bytes k a1 a2 a3 a4) (fun '(r1, r2, r3, r4) =>
    from_le_bytes r1 = bits_of (is_utf8_char_boundary <$> pre ++ bytes)
    ∧ from_le_bytes r2 = bits_of ((fun b => b =? NEWLINE) <$> pre ++ bytes)
    ∧ from_le_bytes r3 = bits_of ((fun b => b =? TAB) <$> pre ++ bytes)
    ∧ from_le_bytes r4 = bits_of (N.leb 240 <$> pre ++ bytes)).
Proof.
  revert bytes pre k a1 a2 a3 a4.
  induction fuel as [|fuel IH]; intros bytes pre k a1 a2 a3 a4 Hf Hl Hk H1 H2 H3 H4; [lia|].
  destruct bytes as [|b0 bytes']; cbn [new_loop].
  - rewrite app_nil_r. cbn. by split_and!; eapply le_array_value.
  - set (bytes := b0 :: bytes') in *. specialize (Hk ltac:(done)).
    assert (Hb : (0 < length bytes)%nat) by (cbn; lia).
    set (mid := (length bytes `min` 8)%nat). set (g := take mid bytes).
    assert (Hg : length g = mid) by (unfold g; rewrite length_take; lia).
    assert (Hs : scan_group (mkFlags 0 0 0 0) 0 g = flags_of g) by (apply (scan_group_flags g []); change (length g <= 8)%nat; lia).
    rewrite Hs. cbn [flags_of f_chars f_newlines f_tabs f_chars_utf16].
    assert (k < 16)%nat by lia.
    ok_bind set_byte_array; [done..|]. intros b1 B1. ok_bind set_byte_array; [done..|]. intros b2 B2.
    ok_bind set_byte_array; [done..|]. intros b3 B3. ok_bind set_byte_array; [done..|]. intros b4 B4.
    assert (Hpre : pre ++ bytes = (pre ++ g) ++ drop mid bytes).
    { rewrite <-app_assoc. unfold g. by rewrite take_drop. }
    rewrite Hpre. apply IH; try done; rewrite ?length_app, ?length_drop; try lia.
    intros Hne. destruct (decide (8 <= length bytes)%nat); [lia|]. destruct Hne. apply drop_ge. lia.
Qed.

(** The predicates of the loop, on encoded characters. *)
Lemma map_lead (p q : N → bool) cs :
  Forall char_ok cs →
  (∀ c b rest, char_ok c → encode c = b :: rest → p b = q c) →
  (∀ x, 128 <= x → x < 192 → p x = false) →
  p <$> str_of cs = lead_map q cs.
Proof.
  intros Hcs Hlead Hcont. induction Hcs as [|c cs Hc Hcs IH]; [done|].
  change (str_of (c :: cs)) with (encode c ++ str_of cs). rewrite fmap_app, IH.
  change (lead_map q (c :: cs)) with (lead_bits q c ++ lead_map q cs). f_equal.
  destruct (encode_shape c Hc) as (b & rest & E & _ & Hr & _). unfold lead_bits. rewrite E.
  cbn [length pred fmap list_fmap]. f_equal; [by eapply Hlead|]. clear E IH.
  induction Hr as [|x rest [] Hr IH]; [done|]. cbn. by rewrite Hcont, IH by lia.
Qed.

Lemma map_chars cs : Forall char_ok cs → is_utf8_char_boundary <$> str_of cs = lead_map is_char cs.
Proof.
  intros H. apply map_lead; [done|..].
  - intros c b rest Hc E. destruct (encode_shape c Hc) as (b' & rest' & E' & Hb & _).
    rewrite E in E'. simplify_eq. exact Hb.
  - intros x ? ?. rewrite is_boundary_spec by lia. bool_arith.
Qed.

Lemma map_newlines cs : Forall char_ok cs → (fun b => b =? NEWLINE) <$> str_of cs = lead_map (N.eqb NEWLINE) cs.
Proof.
  intros H. apply map_lead; [done|..].
  - intros c b rest Hc E. destruct (encode_shape c Hc) as (b' & rest' & E' & _ & _ & _ & _ & _ & _ & Hn & _).
    rewrite E in E'. simplify_eq. by rewrite Hn, N.eqb_sym.
  - intros x ? ?. unfold NEWLINE. bool_arith.
Qed.

Lemma map_tabs cs : Forall char_ok cs → (fun b => b =? TAB) <$> str_of cs = lead_map (N.eqb TAB) cs.
Proof.
  intros H. apply map_lead; [done|..].
  - intros c b rest Hc E. destruct (encode_shape c Hc) as (b' & rest' & E' & _ & _ & _ & _ & _ & _ & _ & Hn).
    rewrite E in E'. simplify_eq. by rewrite Hn, N.eqb_sym.
  - intros x ? ?. unfold TAB. bool_arith.
Qed.

Lemma map_wide cs : Forall char_ok cs → N.leb 240 <$> str_of cs = lead_map (N.leb 65536) cs.
Proof.
  intros H. apply map_lead; [done|..].
  - intros c b rest Hc E. destruct (encode_shape c Hc) as (b' & rest' & E' & _ & _ & _ & _ & Hw & _).
    rewrite E in E'. by simplify_eq.
  - intros x ? ?. bool_arith.
Qed.

(** Shifting the wide marks by one and adding the starts gives the UTF-16 units. *)
Definition second_bits (c : N) : list bool :=
  if c <? 65536 then replicate (length (encode c)) false else [false; true; false; false].

Lemma second_shift cs : false :: lead_map (N.leb 65536) cs = flat_map second_bits cs ++ [false].
Proof.
  induction cs as [|c cs IH]; [done|].
  change (lead_map _ (c :: cs)) with (lead_bits (N.leb 65536) c ++ lead_map (N.leb 65536) cs).
  cbn [flat_map]. rewrite <-app_assoc, <-IH. unfold lead_bits, second_bits.
  pose proof (unit_bits_length c) as Hu. unfold unit_bits in Hu. rewrite N.leb_antisym.
  destruct (c <? 65536).
  - destruct (encode_nonempty c) as (b & rest & ->). cbn [negb length pred].
    change (replicate (S (S (length rest))) false ++ lead_map (N.leb 65536) cs
            = replicate (S (length rest)) false ++ false :: lead_map (N.leb 65536) cs).
    by rewrite (replicate_S_end (S (length rest))), <-app_assoc.
  - rewrite <-Hu. done.
Qed.

Lemma zip_orb_units cs : zip_with orb (flat_map second_bits cs) (lead_map is_char cs) = unit_map cs.
Proof.
  induction cs as [|c cs IH]; [done|].
  change (lead_map _ (c :: cs)) with (lead_bits is_char c ++ lead_map is_char cs).
  cbn [flat_map unit_map]. fold (unit_map cs). pose proof (unit_bits_length c) as Hu.
  rewrite zip_with_app, IH.
  - f_equal. unfold second_bits, unit_bits, lead_bits in *. destruct (c <? 65536).
    + destruct (encode_nonempty c) as (b & rest & ->). cbn [length pred replicate zip_with]. f_equal.
      by rewrite zip_with_replicate_l, fmap_replicate by by rewrite length_replicate.
    + by rewrite <-Hu.
  - rewrite lead_bits_length. unfold second_bits, unit_bits in *. destruct (c <? 65536); [|done].
    apply length_replicate.
Qed.

Lemma lor_bits l k : length l = length k → N.lor (bits_of l) (bits_of k) = bits_of (zip_with orb l k).
Proof.
  revert k. induction l as [|b l IH]; intros [|c k] Hl; try done.
  cbn [bits_of zip_with]. by rewrite lor_cons, IH by (cbn in Hl; lia).
Qed.

Lemma second_length cs : length (flat_map second_bits cs) = length (str_of cs).
Proof.
  apply flat_map_length_eq. intros c. pose proof (unit_bits_length c) as Hu. unfold second_bits, unit_bits in *.
  destruct (c <? 65536); [apply length_replicate|done].
Qed.

Lemma units_word cs :
  (length (str_of cs) <= 128)%nat →
  N.lor (u128_shl (bits_of (lead_map (N.leb 65536) cs)) 1) (bits_of (lead_map is_char cs)) = bits_of (unit_map cs).
Proof.
  intros Hl. unfold u128_shl. change (1 `mod` BITS) with (N.of_nat 1). rewrite shiftl_bits.
  change (replicate 1 false ++ ?l) with (false :: l). rewrite second_shift, bits_of_app. cbn [bits_of N.b2n].
  rewrite N.mul_0_r, N.add_0_r, u128_wrap_small by (apply bits_of_small; by rewrite second_length).
  rewrite lor_bits by (by rewrite second_length, lead_map_length). by rewrite zip_orb_units.
Qed.

Lemma chunk_new_of cs : fits cs → chunk_new (str_of cs) = Ok (chunk_of cs).
Proof.
  intros Hfit. pose proof (chunk_fits_length _ Hfit) as Hl. destruct Hfit as [Hcs Hb].
  unfold chunk_new, array_push_str. cbn [app]. change (str_len (str_of cs)) with (byte_len cs).
  rewrite (proj2 (N.leb_le _ _) Hb). cbn [unwrap mbind outcome_bind].
  assert (Hz : ∀ p, le_array p [] 0 (replicate 16 0)) by (intros p; by exists []).
  destruct (ok_with_inv _ _ (new_loop_ok (S (length (str_of cs))) (str_of cs) [] 0 _ _ _ _
    ltac:(lia) ltac:(cbn; lia) ltac:(done) (Hz _) (Hz _) (Hz _) (Hz _))) as ([[[r1 r2] r3] r4] & -> & H1 & H2 & H3 & H4).
  cbn [app] in *. cbn [mbind outcome_bind]. rewrite H1, H2, H3, H4.
  rewrite map_chars, map_newlines, map_tabs, map_wide, units_word by done. done.
Qed.

Lemma chunk_new_panics s : MAX_BASE < str_len s → chunk_new s = Panic.
Proof. intros H. unfold chunk_new, array_push_str. cbn [app]. by rewrite (proj2 (N.leb_gt _ _) H). Qed.

(** ** Appending and prepending *)
Lemma lor_shl_app l k :
  (length l < 128)%nat → (length l + length k <= 128)%nat →
  N.lor (bits_of l) (u128_shl (bits_of k) (N.of_nat (length l))) = bits_of (l ++ k).
Proof. intros. by rewrite shl_bits, lor_bits_app by lia. Qed.

Lemma str_of_nil cs : str_of cs = [] → cs = [].
Proof.
  destruct cs as [|c cs]; [done|]. cbn [str_of flat_map]. by destruct (encode_nonempty c) as (b & rest & ->).
Qed.

Lemma str_len_app s t : str_len (s ++ t) = str_len s + str_len t.
Proof. unfold str_len. rewrite length_app. lia. Qed.

Lemma lead_shl_app p cs ds :
  fits (cs ++ ds) → ds ≠ [] →
  N.lor (bits_of (lead_map p cs)) (u128_shl (bits_of (lead_map p ds)) (byte_len cs)) = bits_of (lead_map p (cs ++ ds)).
Proof.
  intros Hf Hne. apply chunk_fits_length in Hf. rewrite str_app, length_app in Hf.
  assert (length (str_of ds) ≠ 0)%nat by (intros E; apply Hne, str_of_nil; by destruct (str_of ds)).
  rewrite lead_map_app, <-lor_shl_app; rewrite ?lead_map_length; (done || lia).
Qed.
Lemma unit_shl_app cs ds :
  fits (cs ++ ds) → ds ≠ [] →
  N.lor (bits_of (unit_map cs)) (u128_shl (bits_of (unit_map ds)) (byte_len cs)) = bits_of (unit_map (cs ++ ds)).
Proof.
  intros Hf Hne. apply chunk_fits_length in Hf. rewrite str_app, length_app in Hf.
  assert (length (str_of ds) ≠ 0)%nat by (intros E; apply Hne, str_of_nil; by destruct (str_of ds)).
  rewrite unit_map_app, <-lor_shl_app; rewrite ?unit_map_length; (done || lia).
Qed.

Lemma slice_empty_of cs : slice_is_empty (slice_of cs) = bool_decide (cs = []).
Proof.
  unfold slice_is_empty. cbn [slice_of text]. apply bool_decide_ext. split; [apply str_of_nil|by intros ->].
Qed.

Lemma append_of cs ds : fits (cs ++ ds) → append (chunk_of cs) (slice_of ds) = Ok (chunk_of (cs ++ ds)).
Proof.
  intros Hf. unfold append. rewrite slice_empty_of. case_bool_decide as E; [by rewrite E, app_nil_r|].
  cbn [chunk_of slice_of c_text c_chars c_chars_utf16 c_newlines c_tabs text chars chars_utf16 newlines tabs].
  change (str_len (str_of cs)) with (byte_len cs). rewrite !lead_shl_app, unit_shl_app by done.
  unfold array_push_str. rewrite <-str_app. change (str_len (str_of (cs ++ ds))) with (byte_len (cs ++ ds)).
  by rewrite (proj2 (N.leb_le _ _) (proj2 Hf)).
Qed.

Lemma prepend_of cs ds : fits (ds ++ cs) → prepend (chunk_of cs) (slice_of ds) = Ok (chunk_of (ds ++ cs)).
Proof.
  intros Hf. destruct (fits_app _ _ Hf) as [Hds _]. unfold prepend. rewrite slice_empty_of.
  case_bool_decide as E; [by rewrite E|].
  cbn [chunk_of slice_of c_text c_chars c_chars_utf16 c_newlines c_tabs text chars chars_utf16 newlines tabs].
  case_bool_decide as E'.
  - apply str_of_nil in E' as ->. rewrite app_nil_r. by apply chunk_new_of.
  - change (str_len (str_of ds)) with (byte_len ds).
    assert (cs ≠ []) by (by intros ->). rewrite !lead_shl_app, unit_shl_app by done.
    unfold array_push_str. cbn [app]. change (str_len (str_of ds)) with (byte_len ds).
    rewrite (proj2 (N.leb_le _ _) (proj2 Hds)). cbn [unwrap mbind outcome_bind].
    rewrite <-str_app. change (str_len (str_of (ds ++ cs))) with (byte_len (ds ++ cs)).
    by rewrite (proj2 (N.leb_le _ _) (proj2 Hf)).
Qed.

Lemma push_panics s t : MAX_BASE < str_len s + str_len t → array_push_str s t = None.
Proof. intros H. unfold array_push_str. rewrite str_len_app. by rewrite (proj2 (N.leb_gt _ _) H). Qed.

(** The chunk built from a text of at most 128 bytes, by [new] or by appending to or
    prepending one text to another, has the bitmaps of that text; beyond 128 bytes the
    operations panic rather than drop text. *)
Theorem chunk_construction cs ds :
  Forall char_ok (cs ++ ds) →
  (byte_len (cs ++ ds) <= MAX_BASE →
     chunk_new (str_of cs) = Ok (chunk_of cs)
     ∧ push_str (chunk_of cs) (str_of ds) = Ok (chunk_of (cs ++ ds))
     ∧ prepend_str (chunk_of ds) (str_of cs) = Ok (chunk_of (cs ++ ds)))
  ∧ (MAX_BASE < byte_len (cs ++ ds) → cs ≠ [] → ds ≠ [] →
     chunk_new (str_of (cs ++ ds)) = Panic
     ∧ append (chunk_of cs) (slice_of ds) = Panic
     ∧ prepend (chunk_of ds) (slice_of cs) = Panic).
Proof.
  intros Hok. split.
  - intros Hb. assert (Hf : fits (cs ++ ds)) by done. destruct (fits_app _ _ Hf) as [H1 H2].
    unfold push_str, prepend_str. rewrite !chunk_new_of by done. cbn [mbind outcome_bind].
    by rewrite !as_slice_of, append_of, prepend_of.
  - intros Hb Hc Hd. rewrite byte_len_app in Hb. split; [|split].
    + apply chunk_new_panics. rewrite str_app, str_len_app. exact Hb.
    + unfold append. rewrite slice_empty_of, bool_decide_eq_false_2 by done. cbn [chunk_of slice_of c_text text].
      by rewrite push_panics.
    + unfold prepend. rewrite slice_empty_of, bool_decide_eq_false_2 by done. cbn [chunk_of slice_of c_text text].
      rewrite bool_decide_eq_false_2 by (intros E; by apply Hd, str_of_nil).
      destruct (array_push_str [] (str_of cs)) as [t|] eqn:E; [|done]. cbn [unwrap mbind outcome_bind].
      unfold array_push_str in E. case_match; simplify_eq/=. by rewrite push_panics.
Qed.

Lemma chunk_construction_witness :
  push_str (chunk_of [97; 233]) (str_of [119987; NEWLINE]) = Ok (chunk_of [97; 233; 119987; NEWLINE]).
Proof.
  apply (chunk_construction [97; 233] [119987; NEWLINE]); [|done].
  repeat constructor; unfold char_ok, NEWLINE; lia.
Defined.

(** ** Character boundaries *)
(** The offset is where [p] ends. *)
Definition at_boundary (cs : list N) (offset : N) : Prop := ∃ p q, cs = p ++ q ∧ offset = byte_len p.
(** The offset is inside a character. *)
Definition inside_char (cs : list N) (offset : N) : Prop :=
  ∃ p c q, cs = p ++ c :: q ∧ byte_len p < offset ∧ offset < byte_len (p ++ [c]).

Lemma locate cs i : i <= byte_len cs → at_boundary cs i ∨ inside_char cs i.
Proof.
  revert i. induction cs as [|c cs IH]; intros i Hi.
  - left. exists [], []. split; [done|]. change (byte_len []) with 0 in *. lia.
  - rewrite byte_len_cons in Hi. destruct (N.eq_dec i 0) as [->|]; [left; by exists [], (c :: cs)|].
    destruct (N.le_gt_cases (len_utf8 c) i).
    + destruct (IH (i - len_utf8 c) ltac:(lia)) as [(p & q & -> & E)|(p & d & q & -> & E1 & E2)].
      * left. exists (c :: p), q. split; [done|]. rewrite byte_len_cons. lia.
      * right. exists (c :: p), d, q. split; [done|]. rewrite <-app_comm_cons, !byte_len_cons. lia.
    + right. exists [], c, cs. split; [done|]. cbn [app]. rewrite byte_len_cons. change (byte_len []) with 0. lia.
Qed.

Lemma lookup_inside {A} (f : N → list A) cs p c q i :
  (∀ c, length (f c) = length (encode c)) → cs = p ++ c :: q → byte_len p <= i → i < byte_len (p ++ [c]) →
  flat_map f cs !! N.to_nat i = f c !! N.to_nat (i - byte_len p).
Proof.
  intros Hf -> H1 H2. rewrite byte_len_app, byte_len_cons, <-encode_length in H2. change (byte_len []) with 0 in H2.
  rewrite flat_map_app. cbn [flat_map]. rewrite lookup_app_r by
    (rewrite flat_map_length_eq by done; unfold byte_len in *; lia).
  rewrite flat_map_length_eq by done.
  rewrite lookup_app_l by (rewrite Hf; unfold byte_len in *; lia).
  f_equal. unfold byte_len. lia.
Qed.

Lemma start_bit cs p c q i :
  cs = p ++ c :: q → byte_len p <= i → i < byte_len (p ++ [c]) →
  lead_map is_char cs !! N.to_nat i = Some (i =? byte_len p).
Proof.
  intros E H1 H2. unfold lead_map. rewrite (lookup_inside _ _ _ _ _ _ (lead_bits_length is_char) E H1 H2).
  unfold lead_bits. rewrite byte_len_app, byte_len_cons, <-encode_length in H2. change (byte_len []) with 0 in H2.
  destruct (N.eqb_spec i (byte_len p)) as [->|].
  - by rewrite N.sub_diag.
  - destruct (N.to_nat (i - byte_len p)) as [|k] eqn:Ek; [lia|]. cbn [lookup list_lookup].
    apply lookup_replicate. split; [done|lia].
Qed.

Lemma boundary_bit cs i :
  (at_boundary cs i ∧ (i = byte_len cs ∨ lead_map is_char cs !! N.to_nat i = Some true))
  ∨ (inside_char cs i ∧ lead_map is_char cs !! N.to_nat i = Some false)
  ∨ (byte_len cs < i ∧ lead_map is_char cs !! N.to_nat i = None).
Proof.
  destruct (N.le_gt_cases i (byte_len cs)) as [Hi|Hi].
  - destruct (locate cs i Hi) as [(p & q & E & ->)|(p & c & q & E & H1 & H2)].
    + left. split; [by exists p, q|]. destruct q as [|c q]; [left; by rewrite E, app_nil_r|right].
      rewrite (start_bit cs p c q) by (done || lia || (rewrite byte_len_app, byte_len_cons;
        pose proof (len_utf8_bounds c); lia)). by rewrite N.eqb_refl.
    + right. left. split; [by exists p, c, q|].
      rewrite (start_bit cs p c q) by (done || lia). f_equal. apply N.eqb_neq. lia.
  - right. right. split; [done|]. apply lookup_ge_None_2. rewrite lead_map_length. unfold byte_len in Hi. lia.
Qed.

Lemma boundary_not_inside cs i : at_boundary cs i → ¬ inside_char cs i.
Proof.
  intros (p & q & E & ->) (p' & c & q' & E' & H1 & H2). rewrite E in E'. clear E cs.
  revert p' E' H1 H2. induction p as [|d p IH]; intros p' E' H1 H2.
  - change (byte_len []) with 0 in *. lia.
  - destruct p' as [|d' p']; simplify_eq/=.
    + rewrite !byte_len_cons in *. change (byte_len []) with 0 in *. lia.
    + apply (IH p'); rewrite ?byte_len_cons in *; (done || lia).
Qed.

Lemma boundary_le cs i : at_boundary cs i → i <= byte_len cs.
Proof. intros (p & q & -> & ->). rewrite byte_len_app. lia. Qed.
Lemma inside_lt cs i : inside_char cs i → 0 < i ∧ i < byte_len cs.
Proof. intros (p & c & q & -> & ? & ?). rewrite !byte_len_app, !byte_len_cons in *. change (byte_len []) with 0 in *. lia. Qed.

Lemma str_boundary cs i : Forall char_ok cs → is_char_boundary (str_of cs) i = true ↔ at_boundary cs i.
Proof.
  intros Hcs. unfold is_char_boundary. destruct (N.eqb_spec i 0) as [->|Hi]; [split; [by exists [], cs|done]|].
  pose proof (map_chars cs Hcs) as Hm. apply (f_equal (fun l => l !! N.to_nat i)) in Hm. rewrite list_lookup_fmap in Hm.
  change (N.of_nat (length (str_of cs))) with (byte_len cs).
  destruct (boundary_bit cs i) as [[Hb H]|[[Hin H]|[Hgt H]]].
  - split; [done|]. intros _. destruct H as [->|H].
    + rewrite lookup_ge_None_2 by (unfold byte_len; lia). apply N.eqb_refl.
    + rewrite H in Hm. destruct (str_of cs !! N.to_nat i) as [b|]; [|done]. cbn in Hm. by simplify_eq.
  - rewrite H in Hm. destruct (str_of cs !! N.to_nat i) as [b|]; [|done]. cbn in Hm. simplify_eq. rewrite Hm.
    split; [done|]. intros Hb. by apply boundary_not_inside in Hb.
  - rewrite H in Hm. destruct (str_of cs !! N.to_nat i) as [b|]; [done|]. split.
    + intros E%N.eqb_eq. lia.
    + intros Hb%boundary_le. lia.
Qed.

Lemma slice_boundary cs i :
  fits cs → i <= u32_max → slice_is_char_boundary (slice_of cs) i = true ↔ at_boundary cs i.
Proof.
  intros Hf Hi. unfold slice_is_char_boundary. rewrite u32_wrap_small by done.
  cbn [slice_of chars text]. change (str_len (str_of cs)) with (byte_len cs).
  assert (Hl : N.land (unbounded_shl 1 i) (bits_of (lead_map is_char cs))
               = if default false (lead_map is_char cs !! N.to_nat i) then 2 ^ i else 0).
  { apply chunk_fits_length in Hf. unfold unbounded_shl, BITS. destruct (N.ltb_spec i 128) as [Hlt|Hge].
    - rewrite N.shiftl_1_l, u128_wrap_small by (apply N.pow_lt_mono_r; lia).
      rewrite <-testbit_bits, N2Nat.id. apply N.bits_inj. intros j. rewrite N.land_spec, N.pow2_bits_eqb.
      destruct (N.eqb_spec i j) as [->|Hne]; cbn [andb].
      + destruct (N.testbit _ j) eqn:Et; [by rewrite N.pow2_bits_true|by rewrite N.bits_0].
      + destruct (N.testbit _ i); [by rewrite N.pow2_bits_false|by rewrite N.bits_0].
    - rewrite lookup_ge_None_2 by (rewrite lead_map_length; lia). apply N.land_0_l. }
  rewrite Hl. pose proof (N.pow_nonzero 2 i ltac:(done)) as Hp.
  destruct (boundary_bit cs i) as [[Hb H]|[[Hin H]|[Hgt H]]].
  - split; [done|]. intros _. destruct H as [->|H]; [by rewrite N.eqb_refl, orb_true_r|].
    rewrite H. cbn [default from_option Datatypes.id]. by rewrite (proj2 (N.eqb_neq _ _) Hp).
  - rewrite H. cbn [default from_option Datatypes.id]. pose proof (inside_lt _ _ Hin).
    split; [intros E; apply N.eqb_eq in E; lia|]. intros Hb. by apply boundary_not_inside in Hb.
  - rewrite H. cbn [default from_option Datatypes.id]. split; [intros E; apply N.eqb_eq in E; lia|].
    intros Hb%boundary_le. lia.
Qed.

(** ** The nearest boundaries *)
Lemma byte_bit cs i :
  Forall char_ok cs → is_utf8_char_boundary <$> str_of cs !! i = lead_map is_char cs !! i.
Proof. intros H. by rewrite <-map_chars, list_lookup_fmap. Qed.

Lemma floor_loop_run s n k :
  (∀ j, n < j → j <= n + k → is_utf8_char_boundary <$> s !! j = Some false)%nat →
  n = 0%nat ∨ default true (is_utf8_char_boundary <$> s !! n) = true →
  floor_loop s (n + k) = n.
Proof.
  intros Hk Hn. induction k as [|k IH].
  - rewrite Nat.add_0_r. destruct n as [|n]; [done|]. cbn [floor_loop]. by destruct Hn as [?| ->].
  - rewrite Nat.add_succ_r. cbn [floor_loop]. rewrite Hk by lia. cbn. apply IH. intros j ? ?. apply Hk; lia.
Qed.

Lemma ceil_loop_run l k i :
  (∀ j, j < k → is_utf8_char_boundary <$> l !! j = Some false)%nat →
  default true (is_utf8_char_boundary <$> l !! k) = true →
  ceil_loop l i = i + N.of_nat k.
Proof.
  revert l i. induction k as [|k IH]; intros l i Hk Hn.
  - destruct l as [|b l]; cbn in *; [lia|]. rewrite Hn. lia.
  - destruct l as [|b l]; [by specialize (Hk 0%nat ltac:(lia))|]. cbn [ceil_loop].
    assert (is_utf8_char_boundary b = false) as -> by (specialize (Hk 0%nat ltac:(lia)); by simplify_eq/=).
    rewrite IH; [lia| |done]. intros j Hj. exact (Hk (S j) ltac:(lia)).
Qed.

Lemma char_end p c : byte_len (p ++ [c]) = byte_len p + len_utf8 c.
Proof. rewrite byte_len_app, byte_len_cons. change (byte_len []) with 0. lia. Qed.

Lemma str_floor_at cs i : Forall char_ok cs → at_boundary cs i → str_floor_char_boundary (str_of cs) i = i.
Proof.
  intros Hok Hb. pose proof (boundary_le _ _ Hb). unfold str_floor_char_boundary.
  change (str_len (str_of cs)) with (byte_len cs). destruct (N.leb_spec (byte_len cs) i); [lia|].
  rewrite <-(Nat.add_0_r (N.to_nat i)), (floor_loop_run _ _ 0); [lia|lia|]. right. rewrite byte_bit by done.
  destruct (boundary_bit cs i) as [[_ [->| ->]]|[[Hin _]|[Hgt _]]]; try (done || lia).
  by apply boundary_not_inside in Hb.
Qed.

Lemma str_floor_inside cs p c q i :
  Forall char_ok cs → cs = p ++ c :: q → byte_len p < i → i < byte_len (p ++ [c]) →
  str_floor_char_boundary (str_of cs) i = byte_len p.
Proof.
  intros Hok E H1 H2. assert (Hi : i < byte_len cs).
  { eapply inside_lt. by exists p, c, q. }
  unfold str_floor_char_boundary. change (str_len (str_of cs)) with (byte_len cs).
  destruct (N.leb_spec (byte_len cs) i); [lia|].
  replace (N.to_nat i) with (N.to_nat (byte_len p) + N.to_nat (i - byte_len p))%nat by lia.
  rewrite floor_loop_run; [lia|..].
  - intros j Hj1 Hj2. rewrite byte_bit by done. replace j with (N.to_nat (N.of_nat j)) by lia.
    rewrite (start_bit cs p c q) by (done || lia). f_equal. apply N.eqb_neq. lia.
  - right. rewrite byte_bit, (start_bit cs p c q) by (done || lia). cbn. by rewrite N.eqb_refl.
Qed.

Lemma str_ceil_inside cs p c q i :
  Forall char_ok cs → cs = p ++ c :: q → byte_len p < i → i < byte_len (p ++ [c]) →
  str_ceil_char_boundary (str_of cs) i = byte_len (p ++ [c]).
Proof.
  intros Hok E H1 H2. assert (Hi : i < byte_len cs).
  { eapply inside_lt. by exists p, c, q. }
  unfold str_ceil_char_boundary. change (str_len (str_of cs)) with (byte_len cs).
  destruct (N.leb_spec (byte_len cs) i); [lia|].
  rewrite (ceil_loop_run _ (N.to_nat (byte_len (p ++ [c]) - i))); [lia|..].
  - intros j Hj. rewrite lookup_drop, byte_bit by done.
    replace (N.to_nat i + j)%nat with (N.to_nat (i + N.of_nat j)) by lia.
    rewrite (start_bit cs p c q) by (done || lia). f_equal. apply N.eqb_neq. lia.
  - rewrite lookup_drop, byte_bit by done.
    replace (N.to_nat i + _)%nat with (N.to_nat (byte_len (p ++ [c]))) by lia.
    destruct (boundary_bit cs (byte_len (p ++ [c]))) as [[_ [Hl| ->]]|[[Hin _]|[Hgt _]]]; [|done|..].
    + rewrite lookup_ge_None_2; [done|]. rewrite lead_map_length, Hl. unfold byte_len. lia.
    + apply boundary_not_inside in Hin; [done|]. exists (p ++ [c]), q. by rewrite E, <-app_assoc.
    + assert (byte_len (p ++ [c]) <= byte_len cs); [|lia].
      apply boundary_le. exists (p ++ [c]), q. by rewrite E, <-app_assoc.
Qed.

(** ** Cutting bitmaps *)
Lemma take_flat_map {A} (f : N → list A) p q :
  (∀ c, length (f c) = length (encode c)) → take (N.to_nat (byte_len p)) (flat_map f (p ++ q)) = flat_map f p.
Proof.
  intros Hf. rewrite flat_map_app, take_app_length'; [done|]. rewrite flat_map_length_eq by done. unfold byte_len. lia.
Qed.
Lemma drop_flat_map {A} (f : N → list A) p q :
  (∀ c, length (f c) = length (encode c)) → drop (N.to_nat (byte_len p)) (flat_map f (p ++ q)) = flat_map f q.
Proof.
  intros Hf. rewrite flat_map_app, drop_app_length'; [done|]. rewrite flat_map_length_eq by done. unfold byte_len. lia.
Qed.

(** A bitmap with one bit per byte of its text. *)
Section bitmap_of.
Context (f : N → list bool) (Hlen : ∀ c, length (f c) = length (encode c)).
Abbreviation B cs := (bits_of (flat_map f cs)).

Lemma mask_of p q : fits (p ++ q) → N.land (B (p ++ q)) (offset_mask (byte_len p)) = B p.
Proof.
  intros Hf. destruct (fits_app _ _ Hf) as [[_ Hp] _]. apply chunk_fits_length in Hf. unfold offset_mask, MAX_BASE, BITS in *.
  rewrite u32_wrap_small by (unfold u32_max; lia). rewrite <-(N2Nat.id (byte_len p)), mask_bits.
  - f_equal. by apply take_flat_map.
  - by rewrite flat_map_length_eq.
Qed.

Lemma shr_of p q : fits (p ++ q) → byte_len p < MAX_BASE → u128_shr (B (p ++ q)) (byte_len p) = B q.
Proof.
  intros Hf Hp. apply chunk_fits_length in Hf. unfold MAX_BASE, BITS in *.
  rewrite <-(N2Nat.id (byte_len p)), shr_bits by (lia || by rewrite flat_map_length_eq).
  f_equal. by apply drop_flat_map.
Qed.
End bitmap_of.

Lemma shl_mask_offset i : i < MAX_BASE → u128_wrapping_sub (u128_shl 1 i) 1 = offset_mask i.
Proof.
  intros Hi. unfold offset_mask, MAX_BASE, BITS in *. rewrite u32_wrap_small by (unfold u32_max; lia).
  unfold u128_shl, unbounded_shl, BITS. by rewrite (proj2 (N.ltb_lt _ _) Hi), N.mod_small.
Qed.

Lemma byte_len_zero cs : byte_len cs = 0 → cs = [].
Proof. intros E. apply str_of_nil. unfold byte_len in E. by destruct (str_of cs). Qed.

Lemma split_at_of p q : fits (p ++ q) → split_at (slice_of (p ++ q)) (byte_len p) = Ok (slice_of p, slice_of q).
Proof.
  intros Hf. pose proof Hf as [Hok Hb]. unfold split_at. rewrite byte_len_app in Hb.
  destruct (N.eqb_spec (byte_len p) MAX_BASE) as [E|E].
  - rewrite (byte_len_zero q) by lia. by rewrite app_nil_r.
  - cbn [slice_of text chars chars_utf16 newlines tabs]. unfold str_split_at.
    rewrite (proj2 (str_boundary (p ++ q) (byte_len p) Hok)) by (by exists p, q). cbn [mbind outcome_bind].
    rewrite shl_mask_offset by (unfold MAX_BASE, BITS in *; lia). unfold lead_map, unit_map.
    rewrite !mask_of, !shr_of by (done || apply lead_bits_length || apply unit_bits_length || (unfold MAX_BASE, BITS in *; lia)).
    unfold str_of. by rewrite take_flat_map, drop_flat_map.
Qed.

Lemma assert_boundary P cs i : fits cs → at_boundary cs i → slice_assert_char_boundary P (slice_of cs) i = Ok true.
Proof.
  intros Hf Hb. unfold slice_assert_char_boundary.
  assert (i <= u32_max); [|by rewrite (proj2 (slice_boundary cs i Hf ltac:(done)) Hb)].
  destruct Hf as [_ Hf]. apply boundary_le in Hb. unfold MAX_BASE, BITS, u32_max in *. lia.
Qed.

(** The end of [slice], on boundaries: cut the bitmaps and the text. *)
Lemma cut_of p q r :
  fits (p ++ q ++ r) → byte_len p < MAX_BASE →
  (text ← str_index (str_of (p ++ q ++ r)) (mkRange (byte_len p) (byte_len (p ++ q)));
   let self := slice_of (p ++ q ++ r) in
   let cut m := u128_shr (N.land m (offset_mask (byte_len (p ++ q)))) (byte_len p) in
   Ok (mkSlice (cut (chars self)) (cut (chars_utf16 self)) (cut (newlines self)) (cut (tabs self)) text))
  = Ok (slice_of q).
Proof.
  intros Hf Hp. pose proof Hf as [Hok _].
  assert (H1 : at_boundary (p ++ q ++ r) (byte_len p)) by by exists p, (q ++ r).
  assert (H2 : at_boundary (p ++ q ++ r) (byte_len (p ++ q))) by (exists (p ++ q), r; by rewrite <-app_assoc).
  unfold str_index. cbn [r_start r_end]. rewrite !(proj2 (str_boundary _ _ Hok)) by done.
  rewrite (proj2 (N.leb_le _ _)) by (rewrite byte_len_app; lia). cbn [andb mbind outcome_bind].
  cbn [slice_of text chars chars_utf16 newlines tabs].
  unfold lead_map, unit_map, str_of. rewrite (app_assoc p q r) in *. cbn beta zeta.
  rewrite !mask_of by (done || apply lead_bits_length || apply unit_bits_length).
  destruct (fits_app _ _ Hf) as [Hpq _].
  rewrite !shr_of by (done || apply lead_bits_length || apply unit_bits_length).
  rewrite <-app_assoc, drop_flat_map by done. unfold range_len. cbn [r_start r_end].
  rewrite byte_len_app. replace (byte_len p + byte_len q - byte_len p) with (byte_len q) by lia.
  by rewrite take_flat_map.
Qed.

Lemma slice_of_range p q r :
  fits (p ++ q ++ r) → slice (slice_of (p ++ q ++ r)) (mkRange (byte_len p) (byte_len (p ++ q))) = Ok (slice_of q).
Proof.
  intros Hf. pose proof Hf as [Hok Hb]. rewrite !byte_len_app in Hb. unfold slice. cbn [r_start r_end].
  destruct (N.eqb_spec (byte_len p) MAX_BASE) as [E|E]; [by rewrite (byte_len_zero q) by lia|].
  assert (H1 : at_boundary (p ++ q ++ r) (byte_len p)) by by exists p, (q ++ r).
  assert (H2 : at_boundary (p ++ q ++ r) (byte_len (p ++ q))) by (exists (p ++ q), r; by rewrite <-app_assoc).
  rewrite !assert_boundary by done.
  cbn [mbind outcome_bind]. apply cut_of; [done|]. unfold MAX_BASE, BITS in *. lia.
Qed.

(** Two boundaries of a text split it. *)
Lemma boundary_split p q i :
  at_boundary (p ++ q) i → byte_len p <= i → ∃ q1 r, q = q1 ++ r ∧ i = byte_len (p ++ q1).
Proof.
  intros (p' & q' & E & ->) Hle. apply app_eq_inv in E as [(k & -> & ->)|(k & -> & ->)].
  - rewrite byte_len_app in Hle. rewrite (byte_len_zero k) by lia. exists [], q. by rewrite !app_nil_r.
  - by exists k, q'.
Qed.

Lemma not_boundary cs i :
  fits cs → i <= u32_max → slice_is_char_boundary (slice_of cs) i = false → inside_char cs i ∨ byte_len cs < i.
Proof.
  intros Hf Hi Hn. destruct (N.le_gt_cases i (byte_len cs)) as [H|H]; [|by right].
  destruct (locate cs i H) as [Hb|Hin]; [|by left].
  apply (slice_boundary cs i Hf Hi) in Hb. congruence.
Qed.

Lemma str_ceil_beyond cs i : byte_len cs < i → str_ceil_char_boundary (str_of cs) i = byte_len cs.
Proof.
  intros H. unfold str_ceil_char_boundary. change (str_len (str_of cs)) with (byte_len cs).
  by rewrite (proj2 (N.leb_le _ _)) by lia.
Qed.
Lemma str_floor_beyond cs i : byte_len cs < i → str_floor_char_boundary (str_of cs) i = byte_len cs.
Proof.
  intros H. unfold str_floor_char_boundary. change (str_len (str_of cs)) with (byte_len cs).
  by rewrite (proj2 (N.leb_le _ _)) by lia.
Qed.

Lemma inside_next cs p c q i j :
  cs = p ++ c :: q → byte_len p < i → i < byte_len (p ++ [c]) → at_boundary cs j →
  (i <= j → byte_len (p ++ [c]) <= j) ∧ (j <= i → j <= byte_len p).
Proof.
  intros E H1 H2 Hb. assert (Hn : ¬ (byte_len p < j ∧ j < byte_len (p ++ [c]))).
  { intros []. apply (boundary_not_inside cs j Hb). by exists p, c, q. }
  lia.
Qed.

(** Where [slice] starts: the first boundary from [start] on. *)
Lemma resolve_start cs start :
  fits cs → start <= u32_max →
  ∃ p q, cs = p ++ q ∧
    (if slice_is_char_boundary (slice_of cs) start then start else str_ceil_char_boundary (str_of cs) start) = byte_len p
    ∧ (∀ i, at_boundary cs i → start <= i → byte_len p <= i) ∧ (start <= byte_len p ∨ q = []).
Proof.
  intros Hf Hs. destruct (slice_is_char_boundary (slice_of cs) start) eqn:Eb.
  - apply (slice_boundary cs start Hf Hs) in Eb as (p & q & -> & ->). exists p, q. split_and!; auto with lia.
  - destruct (not_boundary _ _ Hf Hs Eb) as [(p & c & q & E & H1 & H2)|Hgt].
    + exists (p ++ [c]), q. rewrite (str_ceil_inside cs p c q) by (done || apply Hf). split_and!; try done.
      * by rewrite E, <-app_assoc.
      * intros i Hb. by eapply inside_next.
      * left. lia.
    + exists cs, []. rewrite str_ceil_beyond by done. split_and!; try done; [by rewrite app_nil_r| |by right].
      intros i Hb%boundary_le Hi. lia.
Qed.

(** Where it ends: the last boundary up to [end_], unless that is before the start. *)
Lemma resolve_end p q end_ :
  fits (p ++ q) → end_ <= u32_max → (at_boundary (p ++ q) end_ → byte_len p <= end_) →
  ∃ q1 r, q = q1 ++ r ∧
    (if slice_is_char_boundary (slice_of (p ++ q)) end_ then end_
     else if end_ <? byte_len p then byte_len p else str_floor_char_boundary (str_of (p ++ q)) end_) = byte_len (p ++ q1)
    ∧ (q1 ≠ [] → byte_len (p ++ q1) <= end_) ∧ (∀ i, at_boundary (p ++ q) i → i <= end_ → i <= byte_len (p ++ q1)).
Proof.
  intros Hf He Hle. destruct (slice_is_char_boundary (slice_of (p ++ q)) end_) eqn:Eb.
  - apply (slice_boundary _ _ Hf He) in Eb. destruct (boundary_split p q end_ Eb (Hle Eb)) as (q1 & r & -> & E).
    exists q1, r. rewrite <-E. by split_and!.
  - destruct (N.ltb_spec end_ (byte_len p)) as [Hlt|Hge].
    { exists [], q. rewrite app_nil_r. split_and!; try done. lia. }
    destruct (not_boundary _ _ Hf He Eb) as [(p' & c & q' & E & H1 & H2)|Hgt].
    + rewrite (str_floor_inside _ p' c q') by (done || apply Hf).
      assert (Hp : byte_len p <= byte_len p').
      { eapply (inside_next _ p' c q' end_); try done. by exists p, q. }
      destruct (boundary_split p q (byte_len p')) as (q1 & r & Eq & E1); [by exists p', (c :: q')|done|].
      exists q1, r. rewrite <-E1. split_and!; try done; [lia|]. intros i Hb. by eapply (inside_next _ p' c q').
    + exists q, []. rewrite app_nil_r, str_floor_beyond by done. split_and!; try done; [lia|].
      intros i Hb%boundary_le ?. done.
Qed.

(** Slicing never panics on an ordered range: it selects the characters that lie wholly
    within it, with their bitmaps.  (A full chunk has to be sliced from a boundary; see
    [slice_overflow].) *)
Theorem slice_total cs start end_ :
  fits cs → start <= end_ → end_ <= u32_max → (byte_len cs < MAX_BASE ∨ at_boundary cs start) →
  ∃ p q r, cs = p ++ q ++ r ∧ slice (slice_of cs) (mkRange start end_) = Ok (slice_of q)
    ∧ (q ≠ [] → start <= byte_len p ∧ byte_len (p ++ q) <= end_)
    ∧ (∀ i, at_boundary cs i → start <= i → i <= end_ → byte_len p <= i ∧ i <= byte_len (p ++ q)).
Proof.
  intros Hf Hse He Hfull. pose proof Hf as [Hok Hb]. unfold slice. cbn [r_start r_end].
  destruct (N.eqb_spec start MAX_BASE) as [->|Hs].
  - exists cs, [], []. rewrite !app_nil_r. split_and!; try done; intros i Hi%boundary_le; lia.
  - destruct (resolve_start cs start Hf ltac:(lia)) as (p & q0 & Ecs & Es & Hfirst & Hst).
    unfold slice_assert_char_boundary.
    destruct (resolve_end p q0 end_) as (q & r & -> & Ee & Hq & Hlast); [by rewrite <-Ecs|done| |].
    { rewrite <-Ecs. intros Hbe. apply Hfirst; [done|lia]. }
    rewrite <-Ecs in Ee, Hlast. exists p, q, r. split; [done|]. split; [|split].
    + assert (Hp : byte_len p < MAX_BASE).
      { destruct Hfull as [Hlt|Hbs].
        - rewrite Ecs, byte_len_app in Hlt. lia.
        - pose proof (boundary_le _ _ Hbs). specialize (Hfirst start Hbs). lia. }
      rewrite <-(cut_of p q r) by (done || by rewrite <-Ecs). rewrite <-Ecs.
      destruct (slice_is_char_boundary (slice_of cs) start), (slice_is_char_boundary (slice_of cs) end_);
        cbn [mbind outcome_bind]; cbn [slice_of text] in *; by rewrite ?Es, ?Ee, <-?Es, <-?Ee.
    + intros Hne. split; [|by apply Hq]. destruct Hst as [Hst|Hst]; [done|]. by destruct q.
    + intros i Hi H1 H2. auto.
Qed.

Lemma slice_total_witness :
  ∃ p q r, [97; 119987; 98] = p ++ q ++ r
    ∧ slice (slice_of [97; 119987; 98]) (mkRange 0 3) = Ok (slice_of q)
    ∧ (q ≠ [] → 0 <= byte_len p ∧ byte_len (p ++ q) <= 3)
    ∧ (∀ i, at_boundary [97; 119987; 98] i → 0 <= i → i <= 3 → byte_len p <= i ∧ i <= byte_len (p ++ q)).
Proof.
  apply slice_total; [|done|done|by left]. split; [|done]. repeat constructor; unfold char_ok; lia.
Defined.

Lemma no_boundary_inside cs i :
  fits cs → i <= u32_max → ¬ at_boundary cs i → slice_is_char_boundary (slice_of cs) i = false.
Proof.
  intros Hf Hi Hn. destruct (slice_is_char_boundary _ _) eqn:E; [|done]. by apply (slice_boundary cs i Hf Hi) in E.
Qed.

(** A full chunk sliced from inside its last character, or from beyond its end: the start
    becomes 128, the bitmaps are shifted by 128 bits, which is a shift by 0, and the result
    is an empty text with the bitmaps of the whole chunk. *)
Theorem slice_overflow p c start end_ :
  let cs := p ++ [c] in
  fits cs → byte_len cs = MAX_BASE → byte_len p < start → start ≠ MAX_BASE →
  start <= end_ → end_ <= u32_max →
  slice (slice_of cs) (mkRange start end_)
  = Ok (mkSlice (chars (slice_of cs)) (chars_utf16 (slice_of cs)) (newlines (slice_of cs)) (tabs (slice_of cs)) []).
Proof.
  intros cs Hf Hfull Hp Hs Hse He. pose proof Hf as [Hok _]. unfold slice. cbn [r_start r_end].
  rewrite (proj2 (N.eqb_neq _ _) Hs).
  assert (Hb : ∀ i, at_boundary cs i → byte_len p < i → i = MAX_BASE).
  { intros i Hi Hlt. destruct (boundary_split p [c] i Hi ltac:(lia)) as ([|d q1] & r & E & ->).
    - rewrite app_nil_r in Hlt. lia.
    - destruct q1, r; simplify_eq/=. done. }
  assert (Hstart : str_ceil_char_boundary (str_of cs) start = MAX_BASE).
  { rewrite <-Hfull. destruct (N.lt_ge_cases start MAX_BASE).
    - apply (str_ceil_inside cs p c []); (done || (fold cs; lia)).
    - apply str_ceil_beyond. lia. }
  unfold slice_assert_char_boundary. rewrite (no_boundary_inside cs start) by (done || lia || (intros Hi; by apply Hs, Hb)).
  cbn [mbind outcome_bind]. change (text (slice_of cs)) with (str_of cs). rewrite Hstart.
  assert (Hend : (if slice_is_char_boundary (slice_of cs) end_ then end_
                  else if end_ <? MAX_BASE then MAX_BASE else str_floor_char_boundary (str_of cs) end_) = MAX_BASE).
  { destruct (slice_is_char_boundary (slice_of cs) end_) eqn:E.
    - apply Hb; [by apply (slice_boundary cs end_ Hf He)|lia].
    - destruct (N.ltb_spec end_ MAX_BASE); [done|]. destruct (N.eq_dec end_ MAX_BASE) as [->|].
      + rewrite <-Hfull. apply str_floor_at; [done|]. exists cs, []. by rewrite app_nil_r.
      + rewrite <-Hfull. apply str_floor_beyond. lia. }
  destruct (slice_is_char_boundary (slice_of cs) end_); cbn [mbind outcome_bind]; rewrite Hend.
  all: assert (Hat : is_char_boundary (str_of cs) MAX_BASE = true)
    by (apply str_boundary; [done|]; exists cs, []; by rewrite app_nil_r).
  all: unfold str_index; cbn [r_start r_end]; rewrite Hat; cbn [andb]; rewrite N.leb_refl; cbn [andb mbind outcome_bind].
  all: unfold range_len; cbn [r_start r_end]; rewrite N.sub_diag; cbn [N.to_nat take].
  all: change (u128_wrapping_sub (unbounded_shl 1 (u32_wrap MAX_BASE)) 1) with (offset_mask MAX_BASE).
  all: assert (Hm : ∀ f, (∀ c, length (f c) = length (encode c)) →
    u128_shr (N.land (bits_of (flat_map f cs)) (offset_mask MAX_BASE)) MAX_BASE = bits_of (flat_map f cs))
    by (intros f Hlf; pose proof (mask_of f Hlf cs []) as Hm; rewrite app_nil_r, Hfull in Hm; rewrite Hm by done; apply N.shiftr_0_r).
  all: cbn [slice_of chars chars_utf16 newlines tabs]; unfold lead_map, unit_map;
    by rewrite !Hm by (apply lead_bits_length || apply unit_bits_length).
Qed.
