(* ===== verification/ChunkSummary.v ===== *)
(** * The summary of a chunk

    [ChunkSlice::text_summary] counts bits; the theorem is that it computes the summary
    [TextSummary::from] computes by scanning the characters. *)

From S2P Require Import Prelude Ord SumTree Patch Bitmap Select Utf8 Point TextSummary Chunk ChunkFacts.
Local Open Scope N_scope.

(** ** Counting bits *)
Lemma count_true_false n : count_true (replicate n false) = 0.
Proof. induction n as [|n IH]; [done|]. exact IH. Qed.

Lemma count_lead p c : count_true (lead_bits p c) = N.b2n (p c).
Proof. unfold lead_bits. cbn [count_true]. rewrite count_true_false. lia. Qed.
Lemma count_unit c : count_true (unit_bits c) = len_utf16 c.
Proof. unfold unit_bits, len_utf16. destruct (c <? 65536); [by rewrite count_lead|done]. Qed.

Lemma count_chars cs : count_true (lead_map is_char cs) = char_len cs.
Proof.
  induction cs as [|c cs IH]; [done|]. change (lead_map _ (c :: cs)) with (lead_bits is_char c ++ lead_map is_char cs).
  rewrite count_true_app, IH, count_lead. unfold char_len. cbn [length is_char N.b2n]. lia.
Qed.
Lemma count_units cs : count_true (unit_map cs) = units cs.
Proof.
  induction cs as [|c cs IH]; [done|]. change (unit_map (c :: cs)) with (unit_bits c ++ unit_map cs).
  by rewrite count_true_app, IH, count_unit.
Qed.
Lemma count_newlines cs : count_true (lead_map (N.eqb NEWLINE) cs) = row_count cs.
Proof.
  induction cs as [|c cs IH]; [done|].
  change (lead_map _ (c :: cs)) with (lead_bits (N.eqb NEWLINE) c ++ lead_map (N.eqb NEWLINE) cs).
  rewrite count_true_app, IH, count_lead, N.eqb_sym. unfold row_count, rest_lines. rewrite split_cons.
  unfold lines_of, rest_lines. destruct (c =? NEWLINE); cbn [N.b2n snd length]; lia.
Qed.

(** ** The ends of the first and before the last line *)
Lemma row_count_cons c cs : row_count (c :: cs) = N.b2n (c =? NEWLINE) + row_count cs.
Proof. rewrite <-!count_newlines. change (lead_map ?p (c :: cs)) with (lead_bits p c ++ lead_map p cs).
  by rewrite count_true_app, count_lead, N.eqb_sym. Qed.

Lemma first_line_split cs :
  (row_count cs = 0 ∧ first_line cs = cs)
  ∨ ∃ rest, cs = first_line cs ++ NEWLINE :: rest ∧ lines_of cs = first_line cs :: lines_of rest.
Proof.
  induction cs as [|c cs IH]; [by left|]. rewrite row_count_cons.
  unfold lines_of at 1. unfold first_line, rest_lines. rewrite split_cons.
  destruct (N.eqb_spec c NEWLINE) as [->|Hc]; [right; exists cs; split; reflexivity|]. cbn [fst snd N.b2n].
  destruct IH as [[H1 H2]|(rest & H1 & H2)].
  - left. by rewrite H1, H2.
  - right. exists rest. cbn [app]. rewrite <-H1. split; [done|]. unfold lines_of in H2. injection H2 as H2. unfold lines_of. by rewrite H2.
Qed.

Lemma last_line_split cs :
  (row_count cs = 0 ∧ last_line cs = cs) ∨ ∃ init, cs = init ++ NEWLINE :: last_line cs.
Proof.
  destruct (N.eq_dec (row_count cs) 0) as [E|E].
  - left. split; [done|]. rewrite last_line_single; [|unfold row_count in E; by destruct (rest_lines cs)].
    destruct (first_line_split cs) as [[_ ?]|(rest & E1 & E2)]; [done|].
    rewrite E1, row_count_app, row_count_cons in E. cbn in E. lia.
  - right. induction cs as [|c cs IH]; [done|]. rewrite row_count_cons in E.
    change (c :: cs) with ([c] ++ cs). rewrite last_line_app.
    destruct (N.eqb_spec (row_count cs) 0) as [E0|E0].
    + destruct (N.eqb_spec c NEWLINE) as [->|]; [|cbn in E; lia]. exists [].
      destruct (first_line_split cs) as [[_ ->]|(rest & E1 & E2)]; [done|].
      rewrite E1, row_count_app, row_count_cons in E0. cbn in E0. lia.
    + destruct (IH E0) as [init Hi]. exists (c :: init). cbn. by rewrite <-Hi.
Qed.

Lemma no_newline_bits cs : row_count cs = 0 → lead_map (N.eqb NEWLINE) cs = replicate (length (str_of cs)) false.
Proof.
  rewrite <-count_newlines, <-(lead_map_length (N.eqb NEWLINE)). induction (lead_map _ cs) as [|b l IH]; [done|].
  cbn [count_true length replicate]. destruct b; cbn [N.b2n]; [lia|]. intros H. f_equal. apply IH. lia.
Qed.

Lemma row_count_last cs : row_count (last_line cs) = 0.
Proof.
  induction cs as [|c cs IH]; [done|]. change (c :: cs) with ([c] ++ cs). rewrite last_line_app.
  destruct (N.eqb_spec (row_count cs) 0) as [E0|E0].
  - rewrite row_count_app. destruct (first_line_split cs) as [[_ ->]|(rest & E1 & E2)].
    + rewrite E0. unfold last_line, first_line, rest_lines. cbn [split_lines].
      destruct (c =? NEWLINE) eqn:Ec; cbn; [done|]. rewrite N.add_0_r, row_count_cons, Ec. done.
    + rewrite E1, row_count_app, row_count_cons in E0. cbn in E0. lia.
  - exact IH.
Qed.

Lemma row_count_first cs : row_count (first_line cs) = 0.
Proof.
  induction cs as [|c cs IH]; [done|]. unfold first_line. rewrite split_cons. destruct (c =? NEWLINE) eqn:E; [done|].
  cbn [fst]. by rewrite row_count_cons, E, IH.
Qed.

Lemma first_true_app l k : first_true (replicate l false ++ true :: k) = l.
Proof. induction l as [|l IH]; [done|]. cbn. by rewrite IH. Qed.
Lemma first_true_none l : first_true (replicate l false) = l.
Proof. induction l as [|l IH]; [done|]. cbn. by rewrite IH. Qed.
Lemma after_last_none l : after_last_true (replicate l false) = 0%nat.
Proof. induction l as [|l IH]; [done|]. cbn. by rewrite IH. Qed.
Lemma after_last_app l k : after_last_true (l ++ true :: replicate k false) = S (length l).
Proof. induction l as [|b l IH]; cbn; [by rewrite after_last_none|]. by rewrite IH. Qed.

Lemma first_newline cs : first_true (lead_map (N.eqb NEWLINE) cs) = length (str_of (first_line cs)).
Proof.
  destruct (first_line_split cs) as [[H1 ->]|(rest & E & _)].
  - by rewrite no_newline_bits, first_true_none.
  - rewrite E at 1. rewrite lead_map_app, no_newline_bits by apply row_count_first.
    change (lead_map _ (NEWLINE :: rest)) with (true :: lead_map (N.eqb NEWLINE) rest). apply first_true_app.
Qed.

Lemma after_last_newline cs :
  N.of_nat (after_last_true (lead_map (N.eqb NEWLINE) cs)) + byte_len (last_line cs) = byte_len cs.
Proof.
  destruct (last_line_split cs) as [[H1 ->]|(init & E)].
  - rewrite no_newline_bits, after_last_none by done. lia.
  - rewrite E at 1 3. rewrite lead_map_app, byte_len_app, byte_len_cons.
    change (lead_map ?p (NEWLINE :: ?r)) with (true :: lead_map p r).
    rewrite (no_newline_bits (last_line cs)) by apply row_count_last.
    rewrite after_last_app, lead_map_length. change (len_utf8 NEWLINE) with 1. unfold byte_len. lia.
Qed.

(** ** The fields *)
Lemma small_u32 n : n <= 128 → n <= u32_max.
Proof. unfold u32_max. lia. Qed.

Section fields.
Context (cs : list N) (Hfit : fits cs).

Lemma fit_len : byte_len cs <= 128.
Proof. apply Hfit. Qed.
Lemma nat_len p : (length (lead_map p cs) <= 128)%nat.
Proof. rewrite lead_map_length. by apply chunk_fits_length. Qed.

Lemma lines_of_slice : lines (slice_of cs) = mkPoint (row_count cs) (byte_len (last_line cs)).
Proof.
  unfold lines. cbn [slice_of newlines text]. change (str_len (str_of cs)) with (byte_len cs).
  pose proof fit_len. rewrite count_ones_bits, count_newlines, leading_zeros_bits, u32_wrap_small by by apply small_u32.
  pose proof (after_last_newline cs). f_equal. unfold BITS.
  rewrite (u32_sub_exact 128) by (unfold u32_max; lia). rewrite u32_sub_exact by (unfold u32_max; lia). lia.
Qed.

Lemma first_chars_of_slice : first_line_chars (slice_of cs) = char_len (first_line cs).
Proof.
  unfold first_line_chars, saturating_shl_mask. cbn [slice_of chars newlines].
  pose proof (nat_len is_char) as Hl. rewrite trailing_zeros_bits, first_newline, lead_map_length.
  destruct (decide _) as [E|E].
  - change BITS with (N.of_nat 128). rewrite mask_bits, count_ones_bits, take_ge by done.
    rewrite count_chars. destruct (first_line_split cs) as [[_ ->]|(rest & E1 & _)]; [done|].
    apply (f_equal (fun l => length (str_of l))) in E1. rewrite str_app, length_app, <-E in E1. cbn in E1. lia.
  - rewrite mask_bits, count_ones_bits by done.
    destruct (first_line_split cs) as [[_ E1]|(rest & E1 & _)]; [by rewrite E1 in E|].
    rewrite E1 at 2. rewrite lead_map_app, take_app_length' by by rewrite lead_map_length.
    apply count_chars.
Qed.

Lemma drop_last_line {A} (f : N → list A) :
  (∀ c, length (f c) = length (encode c)) →
  drop (after_last_true (lead_map (N.eqb NEWLINE) cs)) (flat_map f cs) = flat_map f (last_line cs).
Proof.
  intros Hf. pose proof (after_last_newline cs) as Ha.
  assert (Hs : ∃ init, cs = init ++ last_line cs).
  { destruct (last_line_split cs) as [[_ E]|[init E]]; [by exists []|].
    exists (init ++ [NEWLINE]). by rewrite <-app_assoc. }
  destruct Hs as [init E]. rewrite E at 2. rewrite flat_map_app, drop_app_length'; [done|].
  rewrite flat_map_length_eq by done. rewrite E, byte_len_app, <-E in Ha. unfold byte_len in Ha. lia.
Qed.

Lemma last_count_of_slice {f} : (∀ c, length (f c) = length (encode c)) →
  count_ones (N.land (bits_of (flat_map f cs)) (saturating_shr_mask (leading_zeros (newlines (slice_of cs)))))
  = count_true (flat_map f (last_line cs)).
Proof.
  intros Hf. cbn [slice_of newlines]. rewrite leading_zeros_bits.
  pose proof (after_last_newline cs). pose proof fit_len.
  rewrite shr_mask_bits, drop_last_line; [done|done| |lia]. rewrite flat_map_length_eq by done. by apply chunk_fits_length.
Qed.

Lemma last_chars_of_slice : last_line_chars (slice_of cs) = char_len (last_line cs).
Proof. rewrite <-count_chars. apply (last_count_of_slice (lead_bits_length is_char)). Qed.
Lemma last_units_of_slice : last_line_len_utf16 (slice_of cs) = units (last_line cs).
Proof. rewrite <-count_units. apply (last_count_of_slice unit_bits_length). Qed.
Lemma len_utf16_of_slice : slice_len_utf16 (slice_of cs) = mkOffsetUtf16 (units cs).
Proof. unfold slice_len_utf16. cbn [slice_of chars_utf16]. by rewrite count_ones_bits, count_units. Qed.
End fields.

(** ** The longest row *)
(** The scan over the lengths of the rows that the loop amounts to. *)
Fixpoint scan_longest (lens : list N) (row longest_row longest_row_chars : N) : N * N :=
  match lens with
  | [] => (longest_row, longest_row_chars)
  | x :: lens =>
      let '(longest_row, longest_row_chars) :=
        if longest_row_chars <? x then (row, x) else (longest_row, longest_row_chars) in
      scan_longest lens (row + 1) longest_row longest_row_chars
  end.

Lemma scan_longest_ok post pre k L :
  is_longest pre (N.to_nat k) L →
  let '(k', L') := scan_longest post (N.of_nat (length pre)) k L in
  is_longest (pre ++ post) (N.to_nat k') L'.
Proof.
  revert pre k L. induction post as [|x post IH]; intros pre k L H; [by rewrite app_nil_r|]. cbn [scan_longest].
  replace (N.of_nat (length pre) + 1) with (N.of_nat (length (pre ++ [x]))) by (rewrite length_app; cbn; lia).
  replace (pre ++ x :: post) with ((pre ++ [x]) ++ post) by by rewrite <-app_assoc.
  apply is_longest_elim in H as (a & b & -> & Hk & Ha & Hb).
  destruct (N.ltb_spec L x); apply IH.
  - rewrite Nat2N.id. apply is_longest_intro; [|done]. apply Forall_app. split; [|constructor; [done|]].
    + eapply Forall_impl; [exact Ha|]. cbn. lia.
    + eapply Forall_impl; [exact Hb|]. cbn. lia.
  - rewrite <-Hk, <-app_assoc. cbn [app]. apply is_longest_intro; [done|]. apply Forall_app. split; [done|].
    by constructor.
Qed.

Lemma scan_lines cs :
  let '(k, L) := scan_longest (char_len <$> lines_of cs) 0 0 0 in
  is_longest (char_len <$> lines_of cs) (N.to_nat k) L.
Proof.
  unfold lines_of. rewrite fmap_cons. set (x := char_len (first_line cs)). set (post := fmap _ (rest_lines cs)).
  assert (E : scan_longest (x :: post) 0 0 0 = scan_longest post (N.of_nat (length [x])) 0 x).
  { cbn [scan_longest length]. destruct (N.ltb_spec 0 x); [done|]. by replace x with 0 by lia. }
  rewrite E. apply (scan_longest_ok post [x] 0 x). apply (is_longest_intro [] x []); constructor.
Qed.

Lemma longest_loop_of fuel cs total r k L :
  fits cs → (N.to_nat (row_count cs) < fuel)%nat → total + byte_len cs <= 128 → r + byte_len cs <= 128 →
  longest_row_loop fuel (chars (slice_of cs)) (newlines (slice_of cs)) total r k L
  = Ok (total + char_len cs, scan_longest (char_len <$> lines_of cs) r k L).
Proof.
  revert cs total r k L. induction fuel as [|fuel IH]; intros cs total r k L Hf Hfuel Ht Hr; [lia|].
  cbn [longest_row_loop]. pose proof (proj2 Hf) as Hb. unfold MAX_BASE, BITS in Hb. pose proof (lens_bounded cs).
  destruct (first_line_split cs) as [[Hz Hfl]|(rest & E & El)].
  - rewrite (proj2 (N.ltb_ge _ _)).
    2:{ cbn [slice_of newlines]. rewrite no_newline_bits, bits_of_false by done. done. }
    cbn [slice_of chars]. rewrite count_ones_bits, count_chars, u8_wrap_small, usize_add_exact by lia.
    unfold row_count in Hz. unfold lines_of. rewrite Hfl. destruct (rest_lines cs); [|cbn in Hz; lia].
    cbn [fmap list_fmap scan_longest]. by destruct (L <? char_len cs).
  - assert (Hnz : (0 <? newlines (slice_of cs)) = true).
    { apply N.ltb_lt. assert (newlines (slice_of cs) ≠ 0); [|lia]. cbn [slice_of newlines].
      rewrite bits_of_zero, first_newline, lead_map_length. apply (f_equal (fun l => length (str_of l))) in E.
      rewrite str_app, length_app in E. cbn in E. lia. }
    rewrite Hnz. assert (Htz : trailing_zeros (newlines (slice_of cs)) = byte_len (first_line cs)).
    { cbn [slice_of newlines]. rewrite trailing_zeros_bits, first_newline, lead_map_length.
      rewrite decide_False; [done|]. apply (f_equal (fun l => length (str_of l))) in E.
      rewrite str_app, length_app in E. cbn in E. lia. }
    rewrite Htz, El. clear Htz Hnz El. remember (first_line cs) as p eqn:Ep. clear Ep. subst cs.
    rewrite byte_len_app, byte_len_cons in *. change (len_utf8 NEWLINE) with 1 in *. pose proof (lens_bounded p).
    pose proof (fits_app _ _ Hf) as [_ Hq]. pose proof (fits_app [NEWLINE] rest Hq) as [_ Hrest].
    rewrite shl_mask_offset by (unfold MAX_BASE, BITS; lia). cbn [slice_of chars newlines].
    unfold lead_map. rewrite mask_of by (done || apply lead_bits_length).
    fold (lead_map is_char p). rewrite count_ones_bits, count_chars, u8_wrap_small, (usize_add_exact total) by lia.
    rewrite !shr_of by (done || apply lead_bits_length || (unfold MAX_BASE, BITS; lia)).
    change (u128_shr ?m 1) with (u128_shr m (byte_len [NEWLINE])). change (NEWLINE :: rest) with ([NEWLINE] ++ rest).
    rewrite !shr_of by (done || apply lead_bits_length). rewrite usize_add_exact by lia.
    rewrite u32_add_exact by (unfold u32_max; lia).
    assert (Hrows : row_count (p ++ [NEWLINE] ++ rest) = row_count p + (1 + row_count rest)) by
      (by rewrite row_count_app, row_count_app).
    assert (Hchars : char_len (p ++ [NEWLINE] ++ rest) = char_len p + 1 + char_len rest) by
      (rewrite !char_len_app; change (char_len [NEWLINE]) with 1; lia).
    change (NEWLINE :: rest) with ([NEWLINE] ++ rest) in Hfuel. rewrite Hrows in Hfuel.
    rewrite Hchars, fmap_cons. cbn [scan_longest].
    destruct (L <? char_len p); rewrite (IH rest) by (done || lia); by rewrite !N.add_assoc.
Qed.

Lemma text_summary_of cs : fits cs → text_summary (slice_of cs) = Ok (text_summary_from cs).
Proof.
  intros Hf. pose proof (proj2 Hf) as Hb. unfold MAX_BASE, BITS in Hb. unfold text_summary, longest_row.
  pose proof (lines_bounded cs). pose proof (scan_lines cs) as Hs.
  rewrite longest_loop_of by (done || lia).
  destruct (scan_longest _ 0 0 0) as [k L]. cbn [mbind outcome_bind]. f_equal.
  apply (summarises_unique cs); [|apply from_summarises; unfold u32_max; lia].
  split; cbn [ts_len ts_chars ts_len_utf16 ts_lines ts_first_line_chars ts_last_line_chars
              ts_last_line_len_utf16 ts_longest_row ts_longest_row_chars].
  - done.
  - lia.
  - by rewrite len_utf16_of_slice.
  - by rewrite lines_of_slice.
  - by rewrite lines_of_slice.
  - by apply first_chars_of_slice.
  - by apply last_chars_of_slice.
  - by apply last_units_of_slice.
  - exact Hs.
Qed.

(** C39: the summary a chunk computes from its bitmaps is the summary of its text. *)
Theorem text_summary_correct cs : fits cs → text_summary (slice_of cs) = Ok (text_summary_from cs).
Proof. apply text_summary_of. Qed.

Lemma text_summary_correct_witness :
  text_summary (slice_of [97; NEWLINE; 119987; 98]) = Ok (text_summary_from [97; NEWLINE; 119987; 98]).
Proof. apply text_summary_correct. split; [|done]. repeat constructor; unfold char_ok, NEWLINE; lia. Defined.
