(* ===== verification/ChunkPositions.v ===== *)
(** * Positions within a chunk

    The conversions between byte offsets, points, UTF-16 offsets and UTF-16 points, each
    computed on bitmaps, against what the text before the position says; and clipping. *)

From S2P Require Import Prelude Ord SumTree Patch Bitmap Select Utf8 Point TextSummary Chunk ChunkFacts ChunkSummary.
Local Open Scope N_scope.

(** ** From offsets *)
Lemma sub_leading l :
  (after_last_true l <= 128)%nat → u32_sub BITS (leading_zeros (bits_of l)) = N.of_nat (after_last_true l).
Proof.
  intros. rewrite leading_zeros_bits. unfold BITS. rewrite u32_sub_exact by (unfold u32_max; lia). lia.
Qed.

Section from_offset.
Context (p q : list N) (Hfit : fits (p ++ q)).

Lemma prefix_fits : fits p.
Proof. by destruct (fits_app _ _ Hfit). Qed.
Lemma prefix_len : byte_len p <= 128.
Proof. apply prefix_fits. Qed.
Lemma newline_prefix_len : (after_last_true (lead_map (N.eqb NEWLINE) p) <= 128)%nat.
Proof. pose proof (after_last_newline p). pose proof prefix_len. lia. Qed.

Lemma offset_to_point_of :
  offset_to_point (slice_of (p ++ q)) (byte_len p) = mkPoint (row_count p) (byte_len (last_line p)).
Proof.
  unfold offset_to_point. cbn [slice_of newlines]. unfold lead_map.
  rewrite mask_of by (done || apply lead_bits_length). fold (lead_map (N.eqb NEWLINE) p).
  rewrite count_ones_bits, count_newlines, sub_leading by apply newline_prefix_len.
  pose proof (after_last_newline p). pose proof prefix_len.
  rewrite usize_sub_exact, u32_wrap_small by (unfold u32_max; lia). f_equal. lia.
Qed.

Lemma offset_to_offset_utf16_of :
  offset_to_offset_utf16 (slice_of (p ++ q)) (byte_len p) = mkOffsetUtf16 (units p).
Proof.
  unfold offset_to_offset_utf16. cbn [slice_of chars_utf16]. unfold unit_map.
  rewrite mask_of by (done || apply unit_bits_length). fold (unit_map p). by rewrite count_ones_bits, count_units.
Qed.

Lemma offset_to_point_utf16_of :
  offset_to_point_utf16 (slice_of (p ++ q)) (byte_len p) = mkPointUtf16 (row_count p) (units (last_line p)).
Proof.
  unfold offset_to_point_utf16. cbn [slice_of newlines chars_utf16].
  change (saturating_shl_mask (u32_wrap (byte_len p))) with (offset_mask (byte_len p)). unfold lead_map, unit_map.
  rewrite !mask_of by (done || apply lead_bits_length || apply unit_bits_length). fold (lead_map (N.eqb NEWLINE) p).
  rewrite count_ones_bits, count_newlines, sub_leading by apply newline_prefix_len. f_equal.
  pose proof (after_last_newline p). pose proof prefix_len. pose proof prefix_fits as Hp.
  destruct (N.eqb_spec (N.of_nat (after_last_true (lead_map (N.eqb NEWLINE) p))) MAX_BASE) as [E|E].
  - rewrite (byte_len_zero (last_line p)); [done|]. unfold MAX_BASE, BITS in E. lia.
  - unfold MAX_BASE, BITS in E. rewrite shr_bits, drop_last_line, count_ones_bits; [by rewrite <-count_units|apply unit_bits_length|..].
    + rewrite flat_map_length_eq by apply unit_bits_length. by apply chunk_fits_length.
    + lia.
Qed.
End from_offset.

(** ** Rows *)
(** [l] is the row of the text that starts after [P]. *)
Record is_row (P l Q : list N) : Prop := {
  row_starts : P = [] ∨ ∃ P', P = P' ++ [NEWLINE];
  row_single : row_count l = 0;
  row_ends : Q = [] ∨ ∃ Q', Q = NEWLINE :: Q'
}.

(** The row a prefix ends in. *)
Lemma row_of_prefix p q :
  ∃ P Q, p = P ++ last_line p ∧ q = first_line q ++ Q ∧ row_count P = row_count p
    ∧ is_row P (last_line p ++ first_line q) Q.
Proof.
  assert (HP : ∃ P, p = P ++ last_line p ∧ (P = [] ∨ ∃ P', P = P' ++ [NEWLINE])).
  { destruct (last_line_split p) as [[_ E]|[init E]]; [exists []; rewrite E; auto|].
    exists (init ++ [NEWLINE]). rewrite <-app_assoc. eauto. }
  assert (HQ : ∃ Q, q = first_line q ++ Q ∧ (Q = [] ∨ ∃ Q', Q = NEWLINE :: Q')).
  { destruct (first_line_split q) as [[_ E]|(rest & E & _)]; [exists []; rewrite E, app_nil_r; auto|eauto]. }
  destruct HP as (P & EP & HP), HQ as (Q & EQ & HQ). exists P, Q. split_and!; try done.
  - rewrite EP at 1. rewrite row_count_app, row_count_last. lia.
  - split; [done| |done]. rewrite row_count_app, row_count_last, row_count_first. lia.
Qed.

(** Every row of a text. *)
Lemma row_exists cs r : r <= row_count cs → ∃ P l Q, cs = P ++ l ++ Q ∧ row_count P = r ∧ is_row P l Q.
Proof.
  intros Hr. assert (Hp : ∃ p q, cs = p ++ q ∧ row_count p = r).
  { revert r Hr. induction cs as [|c cs IH]; intros r Hr.
    - exists [], []. split; [done|]. change (row_count []) with 0 in *. lia.
    - destruct (N.eq_dec r 0) as [->|]; [by exists [], (c :: cs)|]. rewrite row_count_cons in Hr.
      destruct (IH (r - N.b2n (c =? NEWLINE)) ltac:(lia)) as (p & q & -> & E).
      exists (c :: p), q. split; [done|]. rewrite row_count_cons, E. destruct (c =? NEWLINE); cbn [N.b2n] in *; lia. }
  destruct Hp as (p & q & -> & <-). destruct (row_of_prefix p q) as (P & Q & E1 & E2 & E3 & Hrow).
  exists P, (last_line p ++ first_line q), Q. split_and!; try done.
  rewrite E1, E2 at 1. by rewrite <-!app_assoc.
Qed.

(** [nth_set_bit] on a bitmap shorter than a word. *)
Lemma nth_set_bit_of l n i :
  (length l <= 128)%nat → 1 <= n → nth_true l n = Some i → nth_set_bit (bits_of l) n = N.of_nat i.
Proof.
  intros Hl Hn Hi. set (pad := l ++ replicate (128 - length l) false).
  assert (Hb : bits_of pad = bits_of l) by (unfold pad; rewrite bits_of_app, bits_of_false; lia).
  pose proof (nth_true_app_l l (replicate (128 - length l) false) n i Hi) as Hpad. fold pad in Hpad.
  destruct (nth_true_elim pad n i Hn Hpad) as [Hi' Hc].
  destruct (nth_set_bit_scan pad n) as (j & Hj & E).
  - unfold pad. rewrite length_app, length_replicate. lia.
  - done.
  - rewrite <-(take_drop i pad), count_true_app, (drop_S pad true i) by done. cbn [count_true N.b2n]. lia.
  - rewrite <-Hb, E. congruence.
Qed.

Lemma lead_map_at p q r c : p c = true → lead_map p (q ++ c :: r) !! length (str_of q) = Some true.
Proof.
  intros Hc. rewrite lead_map_app, lookup_app_r, lead_map_length, Nat.sub_diag by by rewrite lead_map_length.
  change (lead_map p (c :: r)) with (lead_bits p c ++ lead_map p r). unfold lead_bits. by rewrite Hc.
Qed.

Lemma nth_newline P Q :
  nth_true (lead_map (N.eqb NEWLINE) (P ++ NEWLINE :: Q)) (row_count P + 1) = Some (length (str_of P)).
Proof.
  apply nth_true_intro; [by apply lead_map_at|].
  rewrite lead_map_app, take_app_length' by by rewrite lead_map_length. by rewrite count_newlines.
Qed.

Lemma row_len_of l Q :
  row_count l = 0 → (Q = [] ∨ ∃ Q', Q = NEWLINE :: Q') → fits (l ++ Q) →
  N.min (trailing_zeros (bits_of (lead_map (N.eqb NEWLINE) (l ++ Q)))) (byte_len (l ++ Q)) = byte_len l.
Proof.
  intros Hl HQ Hf. rewrite trailing_zeros_bits, lead_map_length, lead_map_app, no_newline_bits by done.
  pose proof (proj2 Hf) as Hb. unfold MAX_BASE, BITS in *.
  destruct HQ as [->|(Q' & ->)].
  - rewrite !app_nil_r in *. rewrite first_true_none, decide_True by done. lia.
  - change (lead_map _ (NEWLINE :: Q')) with (true :: lead_map (N.eqb NEWLINE) Q').
    rewrite first_true_app, str_app, length_app, byte_len_app, byte_len_cons. cbn [str_of flat_map].
    change (len_utf8 NEWLINE) with 1. change (length (encode NEWLINE ++ ?k)) with (S (length k)).
    rewrite decide_False by lia. unfold byte_len. lia.
Qed.

Lemma offset_range_of P l Q :
  is_row P l Q → fits (P ++ l ++ Q) →
  offset_range_for_row (slice_of (P ++ l ++ Q)) (row_count P) = mkRange (byte_len P) (byte_len (P ++ l)).
Proof.
  intros [HP Hl HQ] Hf. pose proof (proj2 Hf) as Hb. rewrite !byte_len_app in Hb. unfold MAX_BASE, BITS in Hb.
  unfold offset_range_for_row. cbn [slice_of newlines text].
  change (str_len (str_of ?s)) with (byte_len s).
  assert (Hstart : (if 0 <? row_count P then usize_add (nth_set_bit (bits_of (lead_map (N.eqb NEWLINE) (P ++ l ++ Q))) (row_count P)) 1
                    else 0) = byte_len P).
  { destruct HP as [->|(P' & ->)]; [done|]. rewrite row_count_app. change (row_count [NEWLINE]) with 1.
    rewrite (proj2 (N.ltb_lt _ _)) by lia. rewrite <-app_assoc. cbn [app].
    rewrite (nth_set_bit_of _ _ (length (str_of P'))); [| |lia|apply nth_newline].
    - rewrite byte_len_app, byte_len_cons in *. change (len_utf8 NEWLINE) with 1 in *. change (byte_len []) with 0 in *.
      change (N.of_nat (length (str_of P'))) with (byte_len P'). rewrite usize_add_exact by lia. lia.
    - rewrite lead_map_length. apply chunk_fits_length in Hf. by rewrite <-app_assoc in Hf. }
  rewrite Hstart. f_equal. rewrite (byte_len_app P l). destruct (N.eqb_spec (byte_len P) MAX_BASE) as [E|E].
  - unfold MAX_BASE, BITS in E. rewrite (byte_len_zero l) by lia. change (byte_len []) with 0.
    apply usize_add_exact. lia.
  - unfold MAX_BASE, BITS in E. unfold lead_map.
    rewrite shr_of by (done || apply lead_bits_length || (unfold MAX_BASE, BITS; lia)). fold (lead_map (N.eqb NEWLINE) (l ++ Q)).
    rewrite usize_sub_exact, u32_wrap_small by (rewrite !byte_len_app; unfold u32_max; lia).
    replace (byte_len (P ++ l ++ Q) - byte_len P) with (byte_len (l ++ Q)) by (rewrite !byte_len_app; lia).
    destruct (fits_app _ _ Hf) as [_ Hlq]. rewrite row_len_of by done. apply usize_add_exact. lia.
Qed.

Lemma point_to_offset_of p q :
  fits (p ++ q) → point_to_offset (slice_of (p ++ q)) (mkPoint (row_count p) (byte_len (last_line p))) = byte_len p.
Proof.
  intros Hf. unfold point_to_offset. cbn [row column]. rewrite lines_of_slice by done. cbn [row].
  rewrite (proj2 (N.ltb_ge _ _)) by (rewrite row_count_app; lia).
  destruct (row_of_prefix p q) as (P & Q & E1 & E2 & E3 & Hrow).
  assert (E : p ++ q = P ++ (last_line p ++ first_line q) ++ Q) by (rewrite E1, E2 at 1; by rewrite <-!app_assoc).
  pose proof (proj2 Hf) as Hb. unfold MAX_BASE, BITS in Hb.
  rewrite E in Hb. rewrite <-E3, E, offset_range_of by (done || by rewrite <-E). unfold range_len. cbn [r_start r_end].
  rewrite !byte_len_app in *. rewrite u32_wrap_small by (unfold u32_max; lia).
  rewrite (proj2 (N.ltb_ge _ _)) by lia. rewrite usize_add_exact by lia. rewrite E1 at 2. by rewrite byte_len_app.
Qed.

(** ** From UTF-16 offsets *)
Lemma utf16_scan cs t i :
  fits cs → 1 <= t → nth_true (unit_map cs) t = Some i →
  offset_utf16_to_offset (slice_of cs) (mkOffsetUtf16 t)
  = N.of_nat (S i) + N.of_nat (first_true (drop (S i) (unit_map cs))).
Proof.
  intros Hf Ht Hi. unfold offset_utf16_to_offset. cbn [offset_utf16 slice_of chars_utf16 text].
  rewrite (proj2 (N.eqb_neq t 0)) by lia. pose proof (chunk_fits_length _ Hf) as Hl.
  destruct (nth_true_elim _ _ _ Ht Hi) as [Hlt%lookup_lt_Some _].
  rewrite (nth_set_bit_of _ _ i) by (done || by rewrite unit_map_length). rewrite unit_map_length in Hlt.
  rewrite usize_add_exact by lia. replace (N.of_nat i + 1) with (N.of_nat (S i)) by lia.
  destruct (N.eqb_spec (N.of_nat (S i)) MAX_BASE) as [E|E]; unfold MAX_BASE, BITS in E.
  - rewrite drop_ge by (rewrite unit_map_length; lia). cbn [first_true]. unfold MAX_BASE, BITS. lia.
  - rewrite shr_bits by (lia || by rewrite unit_map_length). rewrite trailing_zeros_bits, length_drop, unit_map_length.
    unfold str_len. rewrite usize_sub_exact by lia.
    assert (Hft : (first_true (drop (S i) (unit_map cs)) <= length (str_of cs) - S i)%nat).
    { rewrite <-unit_map_length, <-length_drop. generalize (drop (S i) (unit_map cs)). clear.
      induction l as [|[] l IH]; cbn; lia. }
    unfold BITS. destruct (decide _); (rewrite usize_add_exact; lia).
Qed.

Lemma first_unit q : first_true (unit_map q) = 0%nat.
Proof. destruct q as [|c q]; [done|]. cbn [unit_map flat_map]. unfold unit_bits. by destruct (c <? 65536). Qed.

Lemma first_true_run n q : first_true (replicate n false ++ unit_map q) = n.
Proof. induction n as [|n IH]; [apply first_unit|]. cbn. by rewrite IH. Qed.

(** The bits of the [k]-th unit of a character after [p]. *)
Lemma nth_unit p c q k :
  unit_bits c !! k = Some true → count_true (take k (unit_bits c)) = N.of_nat k →
  nth_true (unit_map (p ++ c :: q)) (units p + N.of_nat k + 1) = Some (length (str_of p) + k)%nat.
Proof.
  intros Hk Hc. rewrite unit_map_app. change (unit_map (c :: q)) with (unit_bits c ++ unit_map q).
  pose proof (lookup_lt_Some _ _ _ Hk). apply nth_true_intro.
  - rewrite lookup_app_r, unit_map_length by (rewrite unit_map_length; lia).
    rewrite lookup_app_l by lia. by replace (length (str_of p) + k - length (str_of p))%nat with k by lia.
  - rewrite take_app_ge by (rewrite unit_map_length; lia). rewrite unit_map_length, count_true_app, count_units.
    rewrite take_app_le by lia. replace (length (str_of p) + k - length (str_of p))%nat with k by lia. lia.
Qed.

Lemma drop_after p c q k :
  (k <= length (unit_bits c))%nat →
  drop (length (str_of p) + k) (unit_map (p ++ c :: q)) = drop k (unit_bits c) ++ unit_map q.
Proof.
  intros Hk. rewrite unit_map_app. change (unit_map (c :: q)) with (unit_bits c ++ unit_map q).
  rewrite drop_app_ge by (rewrite unit_map_length; lia). rewrite unit_map_length.
  replace (length (str_of p) + k - length (str_of p))%nat with k by lia. by rewrite drop_app_le.
Qed.

Lemma utf16_char_end p c q :
  fits (p ++ c :: q) →
  offset_utf16_to_offset (slice_of (p ++ c :: q)) (mkOffsetUtf16 (units (p ++ [c]))) = byte_len (p ++ [c]).
Proof.
  intros Hf. rewrite units_app, units_cons, char_end. change (units []) with 0. pose proof (unit_bits_length c) as Hu.
  rewrite <-encode_length. unfold byte_len. destruct (c <? 65536) eqn:Ec.
  - assert (Hub : unit_bits c = lead_bits is_char c) by (unfold unit_bits; by rewrite Ec).
    unfold len_utf16. rewrite Ec. destruct (encode_nonempty c) as (b & rest & Henc).
    replace (units p + (1 + 0)) with (units p + N.of_nat 0 + 1) by lia.
    rewrite (utf16_scan _ _ (length (str_of p) + 0)) by (done || lia || (apply nth_unit; rewrite Hub; done)).
    rewrite <-Nat.add_succ_r, drop_after by (rewrite Hu, Henc; cbn; lia).
    rewrite Hub. unfold lead_bits. rewrite Henc. cbn [drop length pred]. rewrite drop_0, first_true_run. lia.
  - assert (Hub : unit_bits c = [true; true; false; false]) by (unfold unit_bits; by rewrite Ec).
    unfold len_utf16. rewrite Ec. rewrite <-Hu, Hub. cbn [length].
    replace (units p + (2 + 0)) with (units p + N.of_nat 1 + 1) by lia.
    rewrite (utf16_scan _ _ (length (str_of p) + 1)) by (done || lia || (apply nth_unit; rewrite Hub; done)).
    rewrite <-Nat.add_succ_r, drop_after by (rewrite Hub; cbn; lia).
    rewrite Hub. cbn [drop]. rewrite ?drop_0, (first_true_run 2). lia.
Qed.

Lemma utf16_half p c q :
  fits (p ++ c :: q) → 65536 <= c →
  offset_utf16_to_offset (slice_of (p ++ c :: q)) (mkOffsetUtf16 (units p + 1)) = byte_len p + 1.
Proof.
  intros Hf Hc. assert (Hub : unit_bits c = [true; true; false; false]).
  { unfold unit_bits. by rewrite (proj2 (N.ltb_ge _ _) Hc). }
  replace (units p + 1) with (units p + N.of_nat 0 + 1) by lia. unfold byte_len.
  rewrite (utf16_scan _ _ (length (str_of p) + 0)) by (done || lia || (apply nth_unit; rewrite Hub; done)).
  rewrite <-Nat.add_succ_r, drop_after by (rewrite Hub; cbn; lia). rewrite Hub. cbn [drop app first_true]. lia.
Qed.

Lemma utf16_to_offset_of p q :
  fits (p ++ q) → offset_utf16_to_offset (slice_of (p ++ q)) (mkOffsetUtf16 (units p)) = byte_len p.
Proof.
  intros Hf. destruct (snoc_case p) as [->|(p' & c & ->)]; [done|]. rewrite <-app_assoc in *. by apply utf16_char_end.
Qed.

(** A count of UTF-16 units ends at a character or inside a surrogate pair. *)
Lemma locate_utf16 cs t :
  t <= units cs →
  (∃ p q, cs = p ++ q ∧ t = units p) ∨ (∃ p c q, cs = p ++ c :: q ∧ 65536 <= c ∧ t = units p + 1).
Proof.
  revert t. induction cs as [|c cs IH]; intros t Ht.
  - left. exists [], []. split; [done|]. change (units []) with 0 in *. lia.
  - rewrite units_cons in Ht. destruct (N.eq_dec t 0) as [->|]; [left; by exists [], (c :: cs)|].
    destruct (N.le_gt_cases (len_utf16 c) t).
    + destruct (IH (t - len_utf16 c) ltac:(lia)) as [(p & q & -> & E)|(p & d & q & -> & Hd & E)].
      * left. exists (c :: p), q. split; [done|]. rewrite units_cons. lia.
      * right. exists (c :: p), d, q. split_and!; try done. rewrite units_cons. lia.
    + right. exists [], c, cs. split; [done|]. unfold len_utf16 in *. change (units []) with 0.
      destruct (N.ltb_spec c 65536); lia.
Qed.

(** ** Walking to a boundary *)
Lemma str_boundary_false cs i : Forall char_ok cs → inside_char cs i → is_char_boundary (str_of cs) i = false.
Proof.
  intros Hok Hin. destruct (is_char_boundary (str_of cs) i) eqn:E; [|done].
  by apply (str_boundary cs i Hok), boundary_not_inside in E.
Qed.

Lemma step_at fuel cs bias i :
  Forall char_ok cs → at_boundary cs i → step_to_boundary (S fuel) (str_of cs) bias i = Ok i.
Proof. intros Hok Hb. cbn [step_to_boundary]. by rewrite (proj2 (str_boundary cs i Hok) Hb). Qed.

(** At most three steps lead out of a character. *)
Lemma step_inside fuel cs p c q bias i :
  Forall char_ok cs → byte_len cs < 2 ^ 64 → cs = p ++ c :: q → byte_len p < i → i < byte_len (p ++ [c]) →
  (5 <= fuel)%nat →
  step_to_boundary fuel (str_of cs) bias i
  = Ok (match bias with Left => byte_len p | Right => byte_len (p ++ [c]) end).
Proof.
  intros Hok Hlen E H1 H2 Hfuel.
  assert (Hends : at_boundary cs (byte_len p) ∧ at_boundary cs (byte_len (p ++ [c]))).
  { split; [by exists p, (c :: q)|exists (p ++ [c]), q; by rewrite <-app_assoc]. }
  assert (Hin : ∀ j, byte_len p < j → j < byte_len (p ++ [c]) → is_char_boundary (str_of cs) j = false).
  { intros j ? ?. apply str_boundary_false; [done|]. by exists p, c, q. }
  assert (Hle : byte_len (p ++ [c]) <= byte_len cs) by (apply boundary_le; apply Hends).
  assert (Hw : byte_len (p ++ [c]) <= byte_len p + 4) by (rewrite char_end; pose proof (len_utf8_bounds c); lia).
  assert (Hgo : ∀ k fuel i, byte_len p < i → i < byte_len (p ++ [c]) → (k < fuel)%nat →
    match bias with Left => i <= byte_len p + N.of_nat k | Right => byte_len (p ++ [c]) <= i + N.of_nat k end →
    step_to_boundary fuel (str_of cs) bias i = Ok (match bias with Left => byte_len p | Right => byte_len (p ++ [c]) end)).
  { clear i H1 H2 Hfuel fuel. induction k as [|k IH]; intros [|fuel] i H1 H2 Hk Hd; [lia|destruct bias; lia|lia|].
    cbn [step_to_boundary]. rewrite Hin by done. destruct fuel as [|fuel]; [lia|]. destruct bias.
    - rewrite usize_sub_exact by lia. destruct (N.eq_dec (i - 1) (byte_len p)) as [->|].
      + apply step_at; [done|apply Hends].
      + apply IH; lia.
    - rewrite usize_add_exact by lia. destruct (N.eq_dec (i + 1) (byte_len (p ++ [c]))) as [->|].
      + apply step_at; [done|apply Hends].
      + apply IH; lia. }
  apply (Hgo 4%nat); try lia. destruct bias; lia.
Qed.

(** ** From UTF-16 points *)
(** The row of a UTF-16 point, as the code finds it. *)
Lemma row_slice_of P l Q :
  is_row P l Q → fits (P ++ l ++ Q) →
  slice (slice_of (P ++ l ++ Q)) (offset_range_for_row (slice_of (P ++ l ++ Q)) (row_count P)) = Ok (slice_of l).
Proof. intros Hrow Hf. rewrite offset_range_of by done. by apply slice_of_range. Qed.

Lemma row_last l : row_count l = 0 → last_line l = l.
Proof. intros H. destruct (last_line_split l) as [[_ ->]|[init E]]; [done|]. rewrite E, row_count_app, row_count_cons in H. cbn in H. lia. Qed.

Lemma row_le P l Q : is_row P l Q → row_count P <= row_count (P ++ l ++ Q).
Proof. intros _. rewrite row_count_app. lia. Qed.

(** A UTF-16 point resolves to the character boundary at its column, the start of the
    character it cuts in half, or the end of its row. *)
Definition utf16_column (l : list N) (col : N) (p : list N) : Prop :=
  (∃ q, l = p ++ q ∧ col = units p) ∨ (∃ c q, l = p ++ c :: q ∧ 65536 <= c ∧ col = units p + 1) ∨ (p = l ∧ units l < col).

Lemma utf16_column_exists l col : ∃ p, utf16_column l col p.
Proof.
  unfold utf16_column. destruct (N.le_gt_cases col (units l)) as [H|H]; [|eauto].
  destruct (locate_utf16 l col H) as [(p & q & ? & ?)|(p & c & q & ? & ? & ?)]; exists p; eauto 10.
Qed.

Lemma point_utf16_to_offset_of P l Q col p clip :
  is_row P l Q → fits (P ++ l ++ Q) → utf16_column l col p →
  point_utf16_to_offset (slice_of (P ++ l ++ Q)) (mkPointUtf16 (row_count P) col) clip = Ok (byte_len (P ++ p)).
Proof.
  intros Hrow Hf Hcol. pose proof (proj2 Hf) as Hb. unfold MAX_BASE, BITS in Hb. pose proof Hf as [Hok _].
  destruct (fits_app _ _ Hf) as [_ Hlq]. destruct (fits_app _ _ Hlq) as [Hl _].
  unfold point_utf16_to_offset. cbn [row_utf16 column_utf16]. rewrite lines_of_slice by done. cbn [row].
  rewrite (proj2 (N.ltb_ge _ _)) by by apply row_le. rewrite row_slice_of by done. cbn [mbind outcome_bind].
  rewrite last_units_of_slice, row_last by (done || apply Hrow). rewrite offset_range_of by done. cbn [r_start r_end].
  rewrite !byte_len_app in Hb.
  destruct Hcol as [(q & -> & ->)|[(c & q & -> & Hc & ->)|[-> Hgt]]].
  - rewrite units_app, (proj2 (N.ltb_ge _ _)) by lia. destruct (N.ltb_spec 0 (units p)) as [Hu|Hu].
    + rewrite utf16_to_offset_of by done. rewrite byte_len_app in Hb. rewrite usize_add_exact by lia.
      rewrite <-byte_len_app. cbn [slice_of text]. rewrite (proj2 (str_boundary _ _ Hok)); [done|].
      exists (P ++ p), (q ++ Q). by rewrite <-!app_assoc.
    + pose proof (lens_bounded p). destruct p; [by rewrite app_nil_r|]. unfold char_len in *. cbn [length] in *. lia.
  - rewrite units_app, units_cons, (proj2 (N.ltb_ge _ _)).
    2:{ unfold len_utf16. destruct (N.ltb_spec c 65536); lia. }
    rewrite (proj2 (N.ltb_lt 0 _)) by lia. rewrite utf16_half by done.
    rewrite byte_len_app, byte_len_cons in Hb. assert (Hlen : 4 = len_utf8 c).
    { unfold len_utf8. rewrite !(proj2 (N.ltb_ge c _)) by lia. done. }
    rewrite usize_add_exact by lia. cbn [slice_of text].
    assert (E : P ++ (p ++ c :: q) ++ Q = (P ++ p) ++ c :: (q ++ Q)) by (by rewrite <-!app_assoc).
    rewrite E in *. rewrite str_boundary_false by (done || (exists (P ++ p), c, (q ++ Q); rewrite char_end, byte_len_app; split_and!; (done || lia))).
    rewrite usize_sub_exact by lia. replace (byte_len P + (byte_len p + 1) - 1) with (byte_len (P ++ p)) by (rewrite byte_len_app; lia).
    apply step_at; [done|]. by exists (P ++ p), (c :: q ++ Q).
  - by rewrite (proj2 (N.ltb_lt _ _)).
Qed.

Lemma split_row p q :
  ∃ P Q, p ++ q = P ++ (last_line p ++ first_line q) ++ Q ∧ p = P ++ last_line p ∧ row_count P = row_count p
    ∧ is_row P (last_line p ++ first_line q) Q.
Proof.
  destruct (row_of_prefix p q) as (P & Q & E1 & E2 & E3 & Hrow). exists P, Q. split_and!; try done.
  rewrite E1, E2 at 1. by rewrite <-!app_assoc.
Qed.

(** At every character boundary of a chunk, its byte offset, its point, its UTF-16 offset
    and its UTF-16 point, computed by bit counting, are those of the text before it, and
    each conversion leads back. *)
Theorem chunk_positions_roundtrip p q clip :
  fits (p ++ q) →
  let s := slice_of (p ++ q) in
  let offset := byte_len p in
  let point := mkPoint (row_count p) (byte_len (last_line p)) in
  let offset_utf16 := mkOffsetUtf16 (units p) in
  let point_utf16 := mkPointUtf16 (row_count p) (units (last_line p)) in
  offset_to_point s offset = point ∧ point_to_offset s point = offset
  ∧ offset_to_offset_utf16 s offset = offset_utf16 ∧ offset_utf16_to_offset s offset_utf16 = offset
  ∧ offset_to_point_utf16 s offset = point_utf16 ∧ point_utf16_to_offset s point_utf16 clip = Ok offset
  ∧ point_to_offset_utf16 s point = offset_utf16 ∧ point_to_point_utf16 s point = point_utf16.
Proof.
  intros Hf s offset point ou pu. unfold s, offset, point, ou, pu.
  unfold point_to_offset_utf16, point_to_point_utf16. cbn [row].
  rewrite point_to_offset_of, offset_to_point_of, offset_to_offset_utf16_of, offset_to_point_utf16_of,
    utf16_to_offset_of, lines_of_slice by done. cbn [row].
  rewrite (proj2 (N.ltb_ge _ _)) by (rewrite row_count_app; lia).
  split_and!; try done. destruct (split_row p q) as (P & Q & E & E1 & E2 & Hrow).
  rewrite E, <-E2. rewrite (point_utf16_to_offset_of P _ Q _ (last_line p)); [by rewrite <-E1|done|by rewrite <-E|].
  left. by exists (first_line q).
Qed.

Lemma chunk_positions_roundtrip_witness :
  let s := slice_of ([97; NEWLINE; 119987] ++ [98]) in
  offset_to_point_utf16 s 6 = mkPointUtf16 1 2 ∧ point_utf16_to_offset s (mkPointUtf16 1 2) true = Ok 6.
Proof.
  pose proof (chunk_positions_roundtrip [97; NEWLINE; 119987] [98] true) as H. cbv zeta in H.
  assert (Hf : fits ([97; NEWLINE; 119987] ++ [98])).
  { split; [|done]. repeat constructor; unfold char_ok, NEWLINE; lia. }
  specialize (H Hf). split; apply H.
Defined.
