(* ===== verification/ChunkClip.v ===== *)
(** * Clipping positions to a chunk

    [clip_offset_utf16], [clip_point_utf16], [unclipped_point_utf16_to_point] and
    [clip_point] accept positions that do not exist in the text and return the nearest one
    that does; the [Tabs] iterator lists the tabs. *)

From S2P Require Import Prelude Ord SumTree Patch Bitmap Select Utf8 Point TextSummary Chunk ChunkFacts ChunkSummary ChunkPositions.
Local Open Scope N_scope.

(** The prefix of a row that a UTF-16 column is clipped to: the one of that length, either
    side of the surrogate pair it cuts, or the whole row. *)
Definition clip_target (l : list N) (col : N) (bias : Bias) (p : list N) : Prop :=
  (∃ q, l = p ++ q ∧ col = units p)
  ∨ (∃ p' c q, l = p' ++ c :: q ∧ 65536 <= c ∧ col = units p' + 1
       ∧ p = match bias with Left => p' | Right => p' ++ [c] end)
  ∨ (p = l ∧ units l < col).

Lemma clip_target_exists l col bias : ∃ p, clip_target l col bias p.
Proof.
  unfold clip_target. destruct (N.le_gt_cases col (units l)) as [H|H]; [|eauto].
  destruct (locate_utf16 l col H) as [(p & q & ? & ?)|(p & c & q & ? & ? & ?)]; [eauto|].
  eexists. right. left. eauto 10.
Qed.

Lemma clip_target_left l col p : utf16_column l col p ↔ clip_target l col Left p.
Proof.
  unfold utf16_column, clip_target. split; (intros [?|[H|?]]; [by left| |by right; right]); right; left.
  - destruct H as (c & q & ? & ? & ?). eauto 10.
  - destruct H as (p' & c & q & ? & ? & ? & ->). eauto 10.
Qed.

Lemma wide_len c : 65536 <= c → len_utf8 c = 4 ∧ len_utf16 c = 2.
Proof. intros H. unfold len_utf8, len_utf16. by rewrite !(proj2 (N.ltb_ge c _)) by lia. Qed.

Lemma units_zero p : units p = 0 → p = [].
Proof. pose proof (lens_bounded p). destruct p; [done|]. unfold char_len in *. cbn [length] in *. lia. Qed.

Lemma clip_offset_utf16_of cs t bias p :
  fits cs → clip_target cs t bias p →
  clip_offset_utf16 (slice_of cs) (mkOffsetUtf16 t) bias = Ok (mkOffsetUtf16 (units p)).
Proof.
  intros Hf Ht. pose proof Hf as [Hok Hb]. unfold MAX_BASE, BITS in Hb.
  unfold clip_offset_utf16. cbn [offset_utf16]. rewrite len_utf16_of_slice. cbn [offset_utf16].
  destruct Ht as [(q & -> & ->)|[(p' & c & q & -> & Hc & -> & ->)|[-> Hgt]]].
  - destruct (N.eqb_spec (units p) 0) as [E|E]; [by rewrite E|]. rewrite units_app.
    destruct (N.leb_spec (units p + units q) (units p)) as [Hle|Hlt].
    + do 2 f_equal. lia.
    + rewrite utf16_to_offset_of by done. cbn [slice_of text]. unfold BOUNDARY_FUEL.
      rewrite step_at; [|done|by exists p, q]. cbn [mbind outcome_bind]. by rewrite offset_to_offset_utf16_of.
  - rewrite (proj2 (N.eqb_neq _ 0)) by lia. destruct (wide_len c Hc) as [H4 H2].
    rewrite units_app, units_cons, H2, (proj2 (N.leb_gt _ _)) by lia. rewrite utf16_half by done.
    cbn [slice_of text]. rewrite (step_inside _ _ p' c q) by
      (done || lia || (rewrite ?char_end; lia) || (unfold BOUNDARY_FUEL; lia)).
    cbn [mbind outcome_bind]. f_equal. destruct bias; [by apply offset_to_offset_utf16_of|].
    pose proof (offset_to_offset_utf16_of (p' ++ [c]) q) as H. rewrite <-app_assoc in H. by apply H.
  - rewrite (proj2 (N.eqb_neq _ 0)) by lia. by rewrite (proj2 (N.leb_le _ _)) by lia.
Qed.

Lemma clip_target_prefix l col bias p : clip_target l col bias p → ∃ q, l = p ++ q.
Proof.
  intros [(q & -> & _)|[(p' & c & q & -> & _ & _ & ->)|[-> _]]]; [eauto| |exists []; by rewrite app_nil_r].
  destruct bias; [eauto|]. exists q. by rewrite <-app_assoc.
Qed.

Lemma clip_point_utf16_of P l Q col bias p :
  is_row P l Q → fits (P ++ l ++ Q) → clip_target l col bias p →
  clip_point_utf16 (slice_of (P ++ l ++ Q)) (mkUnclipped (mkPointUtf16 (row_count P) col)) bias
  = Ok (mkPointUtf16 (row_count P) (units p)).
Proof.
  intros Hrow Hf Ht. destruct (fits_app _ _ Hf) as [_ Hlq]. destruct (fits_app _ _ Hlq) as [Hl _].
  unfold clip_point_utf16. cbn [unclipped row_utf16 column_utf16]. rewrite lines_of_slice by done. cbn [row].
  rewrite (proj2 (N.ltb_ge _ _)) by by apply row_le. rewrite row_slice_of by done. cbn [mbind outcome_bind].
  rewrite (clip_offset_utf16_of l col bias p) by done. cbn [mbind outcome_bind offset_utf16].
  rewrite u32_wrap_small; [done|]. destruct (clip_target_prefix _ _ _ _ Ht) as (q & ->).
  pose proof (lens_bounded p). destruct (fits_app _ _ Hl) as [[_ Hp] _]. unfold MAX_BASE, BITS, u32_max in *. lia.
Qed.

Lemma unclipped_to_point_of P l Q col p :
  is_row P l Q → fits (P ++ l ++ Q) → utf16_column l col p →
  unclipped_point_utf16_to_point (slice_of (P ++ l ++ Q)) (mkUnclipped (mkPointUtf16 (row_count P) col))
  = Ok (mkPoint (row_count P) (byte_len p)).
Proof.
  intros Hrow Hf Ht. destruct (fits_app _ _ Hf) as [_ Hlq]. destruct (fits_app _ _ Hlq) as [Hl _].
  pose proof Hl as [Hok Hb]. unfold MAX_BASE, BITS in Hb. pose proof (lens_bounded l).
  unfold unclipped_point_utf16_to_point. cbn [unclipped row_utf16 column_utf16]. rewrite lines_of_slice by done. cbn [row].
  rewrite (proj2 (N.ltb_ge _ _)) by by apply row_le. rewrite row_slice_of by done. cbn [mbind outcome_bind].
  rewrite len_utf16_of_slice. cbn [offset_utf16]. rewrite u32_wrap_small by (unfold u32_max; lia).
  change (len (slice_of l)) with (byte_len l). rewrite (u32_wrap_small (byte_len l)) by (unfold u32_max; lia).
  destruct Ht as [(q & -> & ->)|[(c & q & -> & Hc & ->)|[-> Hgt]]].
  - destruct (N.eqb_spec (units p) 0) as [E|E]; [by rewrite (units_zero p E)|]. rewrite units_app.
    destruct (N.leb_spec (units p + units q) (units p)) as [Hle|Hlt].
    + rewrite (units_zero q) by lia. by rewrite app_nil_r.
    + rewrite utf16_to_offset_of by done. cbn [slice_of text]. unfold BOUNDARY_FUEL.
      rewrite step_at; [|done|by exists p, q]. cbn [mbind outcome_bind].
      rewrite byte_len_app in Hb. by rewrite u32_wrap_small by (unfold u32_max; lia).
  - rewrite (proj2 (N.eqb_neq _ 0)) by lia. destruct (wide_len c Hc) as [H4 H2].
    rewrite units_app, units_cons, H2, (proj2 (N.leb_gt _ _)) by lia. rewrite utf16_half by done.
    cbn [slice_of text]. rewrite (step_inside _ _ p c q) by
      (done || lia || (rewrite ?char_end; lia) || (unfold BOUNDARY_FUEL; lia)).
    cbn [mbind outcome_bind]. rewrite byte_len_app in Hb. by rewrite u32_wrap_small by (unfold u32_max; lia).
  - rewrite (proj2 (N.eqb_neq _ 0)) by lia. by rewrite (proj2 (N.leb_le _ _)) by lia.
Qed.

Lemma beyond_rows cs r : row_count cs < r → (row_count cs <? r) = true.
Proof. apply N.ltb_lt. Qed.

(** Any UTF-16 point, whether it exists in the text or not, is resolved without a panic: a
    row beyond the text gives the end of the text; otherwise the column gives the prefix of
    the row with that many units, the character boundary on the side of [bias] (left when
    converting to an offset or a point) of a surrogate pair it cuts, or the end of the row. *)
Theorem utf16_clipping_correct cs r col bias clip :
  fits cs →
  (row_count cs < r →
     point_utf16_to_offset (slice_of cs) (mkPointUtf16 r col) clip = Ok (byte_len cs)
     ∧ unclipped_point_utf16_to_point (slice_of cs) (mkUnclipped (mkPointUtf16 r col))
       = Ok (mkPoint (row_count cs) (byte_len (last_line cs)))
     ∧ clip_point_utf16 (slice_of cs) (mkUnclipped (mkPointUtf16 r col)) bias
       = Ok (mkPointUtf16 (row_count cs) (units (last_line cs))))
  ∧ (r <= row_count cs →
     ∃ P l Q p pc, cs = P ++ l ++ Q ∧ row_count P = r ∧ is_row P l Q
       ∧ clip_target l col Left p ∧ clip_target l col bias pc
       ∧ point_utf16_to_offset (slice_of cs) (mkPointUtf16 r col) clip = Ok (byte_len (P ++ p))
       ∧ unclipped_point_utf16_to_point (slice_of cs) (mkUnclipped (mkPointUtf16 r col)) = Ok (mkPoint r (byte_len p))
       ∧ clip_point_utf16 (slice_of cs) (mkUnclipped (mkPointUtf16 r col)) bias = Ok (mkPointUtf16 r (units pc))).
Proof.
  intros Hf. split.
  - intros Hr. unfold point_utf16_to_offset, unclipped_point_utf16_to_point, clip_point_utf16.
    cbn [unclipped row_utf16 column_utf16]. rewrite lines_of_slice, last_units_of_slice by done. cbn [row].
    by rewrite beyond_rows.
  - intros Hr. destruct (row_exists cs r Hr) as (P & l & Q & -> & <- & Hrow).
    destruct (clip_target_exists l col Left) as [p Hp]. destruct (clip_target_exists l col bias) as [pc Hpc].
    exists P, l, Q, p, pc. pose proof (proj2 (clip_target_left l col p) Hp).
    by rewrite (point_utf16_to_offset_of _ _ _ _ p), (unclipped_to_point_of _ _ _ _ p), (clip_point_utf16_of _ _ _ _ _ pc).
Qed.

Lemma utf16_clipping_correct_witness :
  point_utf16_to_offset (slice_of [97; 119987]) (mkPointUtf16 3 7) true = Ok 5.
Proof.
  apply (utf16_clipping_correct [97; 119987] 3 7 Left true); [|done].
  split; [|done]. repeat constructor; unfold char_ok; lia.
Defined.

(** ** [clip_point] *)
Section graphemes.
Context (grapheme_boundary : list N → N → option bool).
(** A text begins and ends at a boundary between grapheme clusters. *)
Hypothesis Hends : ∀ s, s ≠ [] →
  grapheme_boundary s 0 = Some true ∧ grapheme_boundary s (str_len s) = Some true.

(** A position within a row that [clip_point] accepts. *)
Definition good_column (line : ChunkSlice) (i : N) : bool :=
  slice_is_char_boundary line i && default false (grapheme_boundary (text line) i).

Lemma clip_loop_left line fuel k :
  good_column line 0 = true → (k < fuel)%nat → (k <= 128)%nat →
  ∃ j, clip_loop grapheme_boundary fuel line Left (N.of_nat k) = Ok j ∧ j <= N.of_nat k ∧ good_column line j = true
    ∧ ∀ i, j < i → i <= N.of_nat k → good_column line i = false.
Proof.
  intros H0. revert fuel. induction k as [|k IH]; intros [|fuel] Hf Hk; [lia| |lia|]; cbn [clip_loop].
  - change (slice_is_char_boundary line (N.of_nat 0) && default false (grapheme_boundary (text line) (N.of_nat 0)))
      with (good_column line 0). rewrite H0. exists 0. split_and!; try done. lia.
  - change (slice_is_char_boundary line (N.of_nat (S k)) && default false (grapheme_boundary (text line) (N.of_nat (S k))))
      with (good_column line (N.of_nat (S k))). destruct (good_column line (N.of_nat (S k))) eqn:E.
    + exists (N.of_nat (S k)). split_and!; try done. lia.
    + rewrite usize_sub_exact by lia. replace (N.of_nat (S k) - 1) with (N.of_nat k) by lia.
      destruct (IH fuel ltac:(lia) ltac:(lia)) as (j & -> & Hj & Hg & Hbet).
      exists j. split_and!; try done; [lia|]. intros i H1 H2.
      destruct (N.eq_dec i (N.of_nat (S k))) as [->|]; [done|]. apply Hbet; lia.
Qed.

Lemma clip_loop_right line e fuel d i0 :
  good_column line e = true → e = i0 + N.of_nat d → (d < fuel)%nat → e <= 128 →
  ∃ j, clip_loop grapheme_boundary fuel line Right i0 = Ok j ∧ i0 <= j ∧ good_column line j = true
    ∧ j <= e ∧ ∀ i, i0 <= i → i < j → good_column line i = false.
Proof.
  intros He. revert fuel i0. induction d as [|d IH]; intros [|fuel] i0 E Hf Hk; [lia| |lia|]; cbn [clip_loop].
  - change (slice_is_char_boundary line i0 && default false (grapheme_boundary (text line) i0))
      with (good_column line i0). replace i0 with e by lia. rewrite He. exists e. split_and!; try done. lia.
  - change (slice_is_char_boundary line i0 && default false (grapheme_boundary (text line) i0))
      with (good_column line i0). destruct (good_column line i0) eqn:Eg.
    + exists i0. split_and!; try done; lia.
    + rewrite usize_add_exact by lia.
      destruct (IH fuel (i0 + 1) ltac:(lia) ltac:(lia) ltac:(lia)) as (j & -> & Hj & Hg & Hje & Hbet).
      exists j. split_and!; try done; [lia|]. intros i H1 H2.
      destruct (N.eq_dec i i0) as [->|]; [done|]. apply Hbet; lia.
Qed.

(** Clipping a column of a row: what is returned lies on a character boundary; it is the
    column itself between two ASCII characters, and otherwise the nearest boundary
    between grapheme clusters on the side of [bias]. *)
Definition clipped_column (l : list N) (col : N) (bias : Bias) (j : N) : Prop :=
  at_boundary l j ∧
  ((col = 0 ∧ j = 0) ∨ (byte_len l <= col ∧ j = byte_len l)
   ∨ (j = col ∧ ∃ a b, str_of l !! N.to_nat (col - 1) = Some a ∧ str_of l !! N.to_nat col = Some b ∧ a < 128 ∧ b < 128)
   ∨ (grapheme_boundary (str_of l) j = Some true
      ∧ match bias with
        | Left => j <= col ∧ ∀ i, j < i → i <= col → ¬ (at_boundary l i ∧ grapheme_boundary (str_of l) i = Some true)
        | Right => col <= j ∧ ∀ i, col <= i → i < j → ¬ (at_boundary l i ∧ grapheme_boundary (str_of l) i = Some true)
        end)).

Lemma good_column_iff l i :
  fits l → i <= 128 → good_column (slice_of l) i = true ↔ at_boundary l i ∧ grapheme_boundary (str_of l) i = Some true.
Proof.
  intros Hf Hi. unfold good_column. rewrite andb_true_iff, slice_boundary by (done || (unfold u32_max; lia)).
  cbn [slice_of text]. destruct (grapheme_boundary (str_of l) i) as [[]|]; cbn; intuition congruence.
Qed.

Lemma clip_loop_of fuel l col bias :
  (128 < fuel)%nat → fits l → 0 < col → col < byte_len l →
  ok_with (clip_loop grapheme_boundary fuel (slice_of l) bias col)
    (fun j => j <= byte_len l ∧ at_boundary l j ∧ grapheme_boundary (str_of l) j = Some true
      ∧ match bias with
        | Left => j <= col ∧ ∀ i, j < i → i <= col → ¬ (at_boundary l i ∧ grapheme_boundary (str_of l) i = Some true)
        | Right => col <= j ∧ ∀ i, col <= i → i < j → ¬ (at_boundary l i ∧ grapheme_boundary (str_of l) i = Some true)
        end).
Proof.
  intros Hfuel Hf H0 Hlt. pose proof (proj2 Hf) as Hb. unfold MAX_BASE, BITS in Hb.
  assert (Hne : str_of l ≠ []) by (intros E; unfold byte_len in Hlt; rewrite E in Hlt; cbn in Hlt; lia).
  destruct (Hends _ Hne) as [Hg0 Hgn]. destruct bias.
  - destruct (clip_loop_left (slice_of l) fuel (N.to_nat col)) as (j & Hj & Hle & Hg & Hbet).
    + apply good_column_iff; [done|lia|]. split; [by exists [], l|done].
    + lia.
    + lia.
    + rewrite N2Nat.id in *. rewrite Hj. cbn [ok_with]. apply good_column_iff in Hg as [Hg1 Hg2]; [|done|lia].
      split_and!; try done; [lia|]. intros i H1 H2 Hgi. apply good_column_iff in Hgi; [|done|lia].
      rewrite Hbet in Hgi by done. done.
  - destruct (clip_loop_right (slice_of l) (byte_len l) fuel (N.to_nat (byte_len l - col)) col)
      as (j & Hj & Hle & Hg & Hje & Hbet).
    + apply good_column_iff; [done|lia|]. split; [exists l, []; by rewrite app_nil_r|done].
    + lia.
    + lia.
    + lia.
    + rewrite Hj. cbn [ok_with]. apply good_column_iff in Hg as [Hg1 Hg2]; [|done|lia].
      split_and!; try done. intros i H1 H2 Hgi. apply good_column_iff in Hgi; [|done|lia].
      rewrite Hbet in Hgi by done. done.
Qed.

Lemma ascii_boundary l i b :
  Forall char_ok l → str_of l !! N.to_nat i = Some b → b < 128 → at_boundary l i.
Proof.
  intros Hok Hb Hlt. apply str_boundary; [done|]. unfold is_char_boundary. destruct (i =? 0); [done|].
  rewrite Hb, is_boundary_spec by lia. by rewrite (proj2 (N.ltb_lt _ _) Hlt).
Qed.

Lemma clip_point_of P l Q col bias :
  is_row P l Q → fits (P ++ l ++ Q) → col <= u32_max →
  ok_with (clip_point grapheme_boundary (slice_of (P ++ l ++ Q)) (mkPoint (row_count P) col) bias)
    (fun pt => row pt = row_count P ∧ clipped_column l col bias (column pt)).
Proof.
  intros Hrow Hf Hcol. destruct (fits_app _ _ Hf) as [_ Hlq]. destruct (fits_app _ _ Hlq) as [Hl _].
  pose proof Hl as [Hok Hb]. unfold MAX_BASE, BITS in Hb.
  unfold clip_point. assert (Hfuel : (128 < BOUNDARY_FUEL)%nat) by (unfold BOUNDARY_FUEL; lia).
  revert Hfuel. generalize BOUNDARY_FUEL as fuel. intros fuel Hfuel.
  cbn [row column]. rewrite lines_of_slice by done. cbn [row].
  rewrite (proj2 (N.ltb_ge _ _)) by by apply row_le. rewrite row_slice_of by done. cbn [mbind outcome_bind].
  change (len (slice_of l)) with (byte_len l). rewrite (u32_wrap_small (byte_len l)) by (unfold u32_max; lia).
  destruct (N.eqb_spec col 0) as [->|H0].
  { cbn [ok_with row column]. split; [done|]. split; [by exists [], l|by left]. }
  destruct (N.leb_spec (byte_len l) col) as [Hge|Hlt].
  { cbn [ok_with row column]. split; [done|]. split; [exists l, []; by rewrite app_nil_r|]. right. by left. }
  rewrite usize_sub_exact by lia. change (text (slice_of l)) with (str_of l).
  destruct (str_of l !! N.to_nat (col - 1)) as [a|] eqn:Ea; [|apply lookup_ge_None in Ea; unfold byte_len in *; lia].
  destruct (str_of l !! N.to_nat col) as [b|] eqn:Ebb; [|apply lookup_ge_None in Ebb; unfold byte_len in *; lia].
  cbn [unwrap mbind outcome_bind].
  assert (Hwalk : ok_with (column ← clip_loop grapheme_boundary fuel (slice_of l) bias col;
      Ok (mkPoint (row_count P) (u32_wrap column)))
    (fun pt => row pt = row_count P ∧ clipped_column l col bias (column pt))).
  { ok_bind clip_loop_of; [done|done|lia|lia|]. intros j (Hj & H1 & H2 & H3). cbn [ok_with row column].
    rewrite u32_wrap_small by (unfold u32_max; lia). split; [done|]. split; [done|]. right. right. right. done. }
  destruct (N.ltb_spec a 128); cbn [mbind outcome_bind]; [|exact Hwalk].
  destruct (N.ltb_spec b 128); [|exact Hwalk]. cbn [ok_with row column]. rewrite u32_wrap_small by done.
  split; [done|]. split; [by eapply ascii_boundary|]. right. right. left. eauto 10.
Qed.

(** [clip_point] returns for every point, in either direction: beyond the last row the end
    of the text, and within a row a position on a character boundary, the given column
    when it is between ASCII characters and otherwise the nearest grapheme boundary. *)
Theorem clip_point_correct cs r col bias :
  fits cs → col <= u32_max →
  (row_count cs < r →
     clip_point grapheme_boundary (slice_of cs) (mkPoint r col) bias = Ok (mkPoint (row_count cs) (byte_len (last_line cs))))
  ∧ (r <= row_count cs →
     ∃ P l Q j, cs = P ++ l ++ Q ∧ row_count P = r ∧ is_row P l Q ∧ clipped_column l col bias j
       ∧ clip_point grapheme_boundary (slice_of cs) (mkPoint r col) bias = Ok (mkPoint r j)).
Proof.
  intros Hf Hcol. split.
  - intros Hr. unfold clip_point. cbn [row]. rewrite lines_of_slice by done. cbn [row]. by rewrite beyond_rows.
  - intros Hr. destruct (row_exists cs r Hr) as (P & l & Q & -> & <- & Hrow).
    destruct (ok_with_inv _ _ (clip_point_of P l Q col bias Hrow Hf Hcol)) as ([r' j] & E & H1 & H2).
    cbn [row column] in *. subst r'. by exists P, l, Q, j.
Qed.
End graphemes.

(** Instance: every character boundary separates clusters. *)
Definition char_clusters (s : list N) (i : N) : option bool := Some (is_char_boundary s i).

Lemma clip_point_correct_witness :
  clip_point char_clusters (slice_of [97; 119987]) (mkPoint 3 7) Left = Ok (mkPoint 0 5).
Proof.
  apply (clip_point_correct char_clusters); [|split; [|done]|done|done].
  - intros s Hs. unfold char_clusters. split; [done|]. f_equal. unfold is_char_boundary.
    destruct (str_len s =? 0) eqn:E; [done|]. rewrite lookup_ge_None_2 by (unfold str_len; lia). apply N.eqb_refl.
  - repeat constructor; unfold char_ok; lia.
Defined.

(** ** Tabs *)
(** The tabs of a text, with the byte and character offset of each, counted from [b] and [c]. *)
Fixpoint tab_positions (cs : list N) (b c : N) : list TabPosition :=
  match cs with
  | [] => []
  | x :: cs => (if x =? TAB then [mkTabPosition b c] else []) ++ tab_positions cs (b + len_utf8 x) (c + 1)
  end.

Lemma lxor_cons b v c w : N.lxor (N.b2n b + 2 * v) (N.b2n c + 2 * w) = N.b2n (xorb b c) + 2 * N.lxor v w.
Proof.
  apply N.bits_inj. intros i. rewrite !(N.add_comm (N.b2n _)), N.lxor_spec.
  destruct (N.zero_or_succ i) as [->|[j ->]]; [by rewrite !N.testbit_0_r|].
  by rewrite !N.testbit_succ_r, N.lxor_spec.
Qed.

Lemma clear_bit n l :
  (n + S (length l) <= 128)%nat →
  N.lxor (bits_of (replicate n false ++ true :: l)) (u128_shl 1 (N.of_nat n)) = bits_of (replicate n false ++ false :: l).
Proof.
  intros Hn. change 1 with (bits_of [true]). rewrite shl_bits by (cbn; lia). clear Hn.
  induction n as [|n IH]; cbn [replicate app bits_of].
  - rewrite lxor_cons. cbn [xorb N.b2n]. by rewrite N.lxor_0_r.
  - by rewrite (lxor_cons false _ false), IH.
Qed.

Lemma first_tab q :
  lead_map (N.eqb TAB) q = replicate (length (str_of q)) false ∧ (∀ b c, tab_positions q b c = [])
  ∨ ∃ a r, q = a ++ TAB :: r ∧ lead_map (N.eqb TAB) a = replicate (length (str_of a)) false
      ∧ ∀ b c, tab_positions q b c
               = mkTabPosition (b + byte_len a) (c + char_len a) :: tab_positions r (b + byte_len a + 1) (c + char_len a + 1).
Proof.
  induction q as [|x q IH]; [by left|].
  change (lead_map _ (x :: q)) with (lead_bits (N.eqb TAB) x ++ lead_map (N.eqb TAB) q). cbn [tab_positions].
  destruct (N.eqb_spec x TAB) as [->|Hx].
  - right. exists [], q. split; [done|]. split; [done|]. intros b c. change (byte_len []) with 0. change (char_len []) with 0.
    cbn [app]. change (len_utf8 TAB) with 1. by rewrite !N.add_0_r.
  - assert (Hlb : ∀ l, lead_bits (N.eqb TAB) x ++ replicate l false = replicate (length (encode x) + l) false).
    { intros l. unfold lead_bits. rewrite (proj2 (N.eqb_neq TAB x)) by congruence.
      destruct (encode_nonempty x) as (b & rest & ->). cbn [length pred]. by rewrite replicate_add. }
    destruct IH as [[IH1 IH2]|(a & r & -> & IH1 & IH2)].
    + left. split; [|intros b c; by rewrite IH2]. rewrite IH1, Hlb. cbn [str_of flat_map]. by rewrite length_app.
    + right. exists (x :: a), r. split; [done|]. split.
      * change (lead_map _ (x :: a)) with (lead_bits (N.eqb TAB) x ++ lead_map (N.eqb TAB) a).
        rewrite IH1, Hlb. cbn [str_of flat_map]. by rewrite length_app.
      * intros b c. cbn [app]. rewrite IH2, byte_len_cons. unfold char_len. cbn [length].
        f_equal; [f_equal; lia|]. f_equal; lia.
Qed.

Lemma tabs_collect_of fuel p q :
  fits (p ++ q) → (length (str_of q) < fuel)%nat →
  tabs_collect fuel (mkTabs (bits_of (replicate (length (str_of p)) false ++ lead_map (N.eqb TAB) q))
                            (bits_of (lead_map is_char (p ++ q))))
  = Ok (tab_positions q (byte_len p) (char_len p)).
Proof.
  revert p q. induction fuel as [|fuel IH]; intros p q Hf Hfuel; [lia|]. cbn [tabs_collect]. unfold tabs_next. cbn [t_tabs t_chars].
  pose proof (chunk_fits_length _ Hf) as Hlen. rewrite str_app, length_app in Hlen.
  destruct (first_tab q) as [[Hz Hp]|(a & r & -> & Ha & Hp)].
  - rewrite Hz, <-replicate_add, bits_of_false, Hp. done.
  - rewrite Hp. clear Hp. rewrite lead_map_app, Ha.
    change (lead_map (N.eqb TAB) (TAB :: r)) with (true :: lead_map (N.eqb TAB) r).
    rewrite app_assoc, <-replicate_add. rewrite str_app, length_app in *. cbn [str_of flat_map] in Hfuel, Hlen.
    change (length (encode TAB ++ ?k)) with (S (length k)) in *. fold (str_of r) in *.
    set (n := (length (str_of p) + length (str_of a))%nat).
    assert (Hn : N.of_nat n = byte_len (p ++ a)) by (unfold n; rewrite byte_len_app; unfold byte_len; lia).
    assert (Htz : trailing_zeros (bits_of (replicate n false ++ true :: lead_map (N.eqb TAB) r)) = N.of_nat n).
    { rewrite trailing_zeros_bits, first_true_app, length_app, length_replicate. cbn [length]. by rewrite decide_False by lia. }
    destruct (bits_of (replicate n false ++ _) =? 0) eqn:Ez.
    { apply N.eqb_eq in Ez. rewrite Ez in Htz. unfold trailing_zeros, BITS in Htz. lia. }
    rewrite Htz, clear_bit by (rewrite lead_map_length; lia). clear Htz Ez.
    assert (E : p ++ a ++ TAB :: r = (p ++ a) ++ TAB :: r) by by rewrite <-app_assoc.
    rewrite Hn, shl_mask_offset by (unfold MAX_BASE, BITS; lia).
    unfold lead_map at 1. rewrite E in *. rewrite mask_of by (done || apply lead_bits_length).
    fold (lead_map is_char (p ++ a)). rewrite count_ones_bits, count_chars.
    assert (Hrep : replicate n false ++ false :: lead_map (N.eqb TAB) r
                   = replicate (length (str_of ((p ++ a) ++ [TAB]))) false ++ lead_map (N.eqb TAB) r).
    { rewrite !str_app, !length_app, replicate_add, <-app_assoc. by fold n. }
    assert (E2 : (p ++ a) ++ TAB :: r = ((p ++ a) ++ [TAB]) ++ r) by by rewrite <-(app_assoc (p ++ a)).
    rewrite Hrep, E2, (IH ((p ++ a) ++ [TAB]) r) by (lia || by rewrite <-E2). cbn [mbind outcome_bind].
    rewrite char_end, !char_len_app, byte_len_app. change (len_utf8 TAB) with 1. change (char_len [TAB]) with 1.
    done.
Qed.

(** The iterator over a chunk's tabs ends, after listing exactly the tabs of the text in
    order, each with its byte offset and its character offset. *)
Theorem tabs_correct cs :
  fits cs → tabs_collect 129 (slice_tabs (slice_of cs)) = Ok (tab_positions cs 0 0).
Proof. intros Hf. pose proof (chunk_fits_length _ Hf). apply (tabs_collect_of 129 [] cs Hf). lia. Qed.

Lemma tabs_correct_witness :
  tabs_collect 129 (slice_tabs (slice_of [233; TAB; 97; TAB])) = Ok [mkTabPosition 2 1; mkTabPosition 4 3].
Proof. apply (tabs_correct [233; TAB; 97; TAB]). split; [|done]. repeat constructor; unfold char_ok, TAB; lia. Defined.
