(* ===== verification/Rope.v ===== *)
(** * Ropes: [crates/rope/src/rope.rs]

    A rope is a [SumTree] of chunks.  Its operations use chunks through the interface
    [ChunkApi]; the instance [Chunk_api] is the chunk with bitmaps of [chunk.rs], and
    [spec_api] the specification instance in which a chunk is its sequence of characters
    and a summary is the text summarised, from which [TextSummary::from] gives the summary
    itself.  The theorems are about the specification instance; ChunkFacts proves that the
    operations of the two correspond, and [text_summary_homomorphism] that the summaries do.
    Rows and columns wrap as [u32]s; byte offsets are added exactly, since a text in memory
    has less than 2^64 bytes. *)

From S2P Require Import Prelude Ord SumTree SumTreeFacts Cursor Patch Bitmap Utf8 Point TextSummary Chunk ChunkFacts.
Local Open Scope N_scope.

(** ** The interface of chunks *)
Class ChunkApi (C Sl Sm : Type) := {
  api_text : C → list N;
  api_new : list N → outcome C;
  api_push_str : C → list N → outcome C;
  api_prepend_str : C → list N → outcome C;
  api_append : C → Sl → outcome C;
  api_as_slice : C → Sl;
  api_slice : C → Range N → outcome Sl;
  api_is_char_boundary : C → N → bool;
  api_assert_char_boundary : bool → C → N → outcome bool;
  api_split_at : Sl → N → outcome (Sl * Sl);
  api_into : Sl → outcome C;
  (** what a slice shows: its text and bitmaps, read by the position conversions *)
  api_view : Sl → ChunkSlice;
  (** the [text] field of a [ChunkSummary] *)
  api_summary_text : Sm → TextSummary
}.

(** ** Dimensions *)
Section dimensions.
Context {C Sl Sm : Type} `{!ChunkApi C Sl Sm}.
Abbreviation summary_text := (api_summary_text (C:=C) (Sl:=Sl)).
Definition usize_dimension : Dimension N Sm unit :=
  {| dim_zero _ := 0; dim_add_summary _ d s := d + ts_len (summary_text s) |}.
Definition offset_utf16_dimension : Dimension OffsetUtf16 Sm unit :=
  {| dim_zero _ := mkOffsetUtf16 0;
     dim_add_summary _ d s := offset_utf16_add d (ts_len_utf16 (summary_text s)) |}.
Definition point_dimension : Dimension Point Sm unit :=
  {| dim_zero _ := point_zero; dim_add_summary _ d s := point_add d (ts_lines (summary_text s)) |}.
Definition point_utf16_dimension : Dimension PointUtf16 Sm unit :=
  {| dim_zero _ := point_utf16_zero;
     dim_add_summary _ d s := point_utf16_add d (lines_utf16 (summary_text s)) |}.
End dimensions.

#[export] Instance N_target : SeekTarget N N unit := ord_target.
#[export] Instance OffsetUtf16_target : SeekTarget OffsetUtf16 OffsetUtf16 unit := ord_target.
#[export] Instance Point_target : SeekTarget Point Point unit := ord_target.
#[export] Instance PointUtf16_target : SeekTarget PointUtf16 PointUtf16 unit := ord_target.

Record Rope (C Sm : Type) := mkRope { chunks : SumTree C Sm }.
Arguments mkRope {_ _} _.
Arguments chunks {_ _} _.

Section rope.
Context {C Sl Sm : Type} `{!Summary Sm unit, !Item C Sm unit, !ChunkApi C Sl Sm}.
Abbreviation rope := (Rope C Sm).
Abbreviation summary_text := (api_summary_text (C:=C) (Sl:=Sl)).
Abbreviation view := (api_view (C:=C) (Sm:=Sm)).
Abbreviation text_of := (api_text (Sl:=Sl) (Sm:=Sm)).
Abbreviation as_slice := (api_as_slice (C:=C) (Sm:=Sm)).
Local Instance usize_dim : Dimension N Sm unit := usize_dimension (C:=C) (Sl:=Sl).
Local Instance offset_utf16_dim : Dimension OffsetUtf16 Sm unit := offset_utf16_dimension (C:=C) (Sl:=Sl).
Local Instance point_dim : Dimension Point Sm unit := point_dimension (C:=C) (Sl:=Sl).
Local Instance point_utf16_dim : Dimension PointUtf16 Sm unit := point_utf16_dimension (C:=C) (Sl:=Sl).

Definition rope_new : rope := mkRope (new tt).
Definition rope_summary (self : rope) : TextSummary := summary_text (summary (chunks self)).
Definition rope_len (self : rope) : N := extent tt (chunks self).
Definition rope_is_empty (self : rope) : bool := rope_len self =? 0.
Definition max_point (self : rope) : Point := extent tt (chunks self).
Definition max_point_utf16 (self : rope) : PointUtf16 := extent tt (chunks self).

(** ** Growing a rope *)
(** Where [push] and [push_chunk] split what does not fit the last chunk. *)
Definition room_split (last_len text_len : N) (text : list N) : outcome N :=
  if last_len + text_len <=? MAX_BASE then Ok text_len
  else step_to_boundary BOUNDARY_FUEL text Right (N.min (MIN_BASE - last_len) text_len).

(** [update_last] calls its closure on the last chunk, if there is one; the closure
    returns the chunk and leaves the rest of the text behind. *)
Definition fill_last {X} (self : rope) (rest : X) (closure : C → outcome (C * X)) : outcome (rope * X) :=
  last_chunk ← tree_last (chunks self);
  match last_chunk with
  | None => Ok (self, rest)
  | Some last_chunk =>
      '(last_chunk, rest) ← closure last_chunk;
      t ← update_last tt (fun _ => last_chunk) (chunks self);
      Ok (mkRope t, rest)
  end.

(** Cutting a text into chunks: each as long as a chunk, back to a boundary. *)
Fixpoint split_chunks (fuel : nat) (text : list N) : outcome (list (list N)) :=
  match text, fuel with
  | [], _ => Ok []
  | _, O => Panic
  | _, S fuel =>
      split_ix ← step_to_boundary BOUNDARY_FUEL text Left (N.min MAX_BASE (str_len text));
      '(chunk, remainder) ← str_split_at text split_ix;
      rest ← split_chunks fuel remainder;
      Ok (chunk :: rest)
  end.

Definition NUM_CHUNKS : nat := 4.
Definition PARALLEL_THRESHOLD : nat := 84 * (2 * TREE_BASE).

Definition push_large (self : rope) (text : list N) : outcome rope :=
  new_chunks ← split_chunks (length text) text;
  cs ← omap_outcome (api_new (Sl:=Sl) (Sm:=Sm)) new_chunks;
  t ← (if (PARALLEL_THRESHOLD <=? length new_chunks)%nat then par_extend tt (chunks self) cs
       else extend tt (chunks self) cs);
  Ok (mkRope t).

(** [push], after the last chunk is filled. *)
Definition push_remainder (self : rope) (text : list N) : outcome rope :=
  if bool_decide (text = []) then Ok self
  else if N.of_nat NUM_CHUNKS * MAX_BASE - N.of_nat NUM_CHUNKS * 4 <? str_len text then push_large self text
  else
    new_chunks ← split_chunks (length text) text;
    (* [ArrayVec::push(..).unwrap()] *)
    _ ← assert_that (length new_chunks <=? NUM_CHUNKS)%nat;
    cs ← omap_outcome (api_new (Sl:=Sl) (Sm:=Sm)) new_chunks;
    t ← extend tt (chunks self) cs;
    Ok (mkRope t).

Definition rope_push (self : rope) (text : list N) : outcome rope :=
  '(self, text) ← fill_last self text (fun last_chunk =>
     split_ix ← room_split (str_len (text_of last_chunk)) (str_len text) text;
     '(suffix, remainder) ← str_split_at text split_ix;
     last_chunk ← api_push_str (Sl:=Sl) (Sm:=Sm) last_chunk suffix;
     Ok (last_chunk, remainder));
  push_remainder self text.

Definition rope_from (text : list N) : outcome rope := rope_push rope_new text.
Fixpoint rope_from_iter (self : rope) (iter : list (list N)) : outcome rope :=
  match iter with
  | [] => Ok self
  | chunk :: iter => self ← rope_push self chunk; rope_from_iter self iter
  end.

(** [while !chunk.is_char_boundary(split_ix) { split_ix += 1 }] on a slice. *)
Fixpoint slice_step (fuel : nat) (s : ChunkSlice) (split_ix : N) : outcome N :=
  match fuel with
  | O => Panic
  | S fuel => if slice_is_char_boundary s split_ix then Ok split_ix else slice_step fuel s (usize_add split_ix 1)
  end.

Definition push_chunk (self : rope) (chunk : Sl) : outcome rope :=
  '(self, chunk) ← fill_last self chunk (fun last_chunk =>
     let chunk_len := len (view chunk) in
     split_ix ←
       (if str_len (text_of last_chunk) + chunk_len <=? MAX_BASE then Ok chunk_len
        else slice_step BOUNDARY_FUEL (view chunk)
               (N.min (MIN_BASE - str_len (text_of last_chunk)) chunk_len));
     '(suffix, remainder) ← api_split_at (C:=C) (Sm:=Sm) chunk split_ix;
     last_chunk ← api_append (Sm:=Sm) last_chunk suffix;
     Ok (last_chunk, remainder));
  if slice_is_empty (view chunk) then Ok self
  else c ← api_into (Sm:=Sm) chunk; t ← push tt (chunks self) c; Ok (mkRope t).

Definition rope_append (self other : rope) : outcome rope :=
  first ← tree_first (chunks other);
  last ← tree_last (chunks self);
  match first with
  | Some chunk =>
      if (match last with Some c => str_len (text_of c) <? MIN_BASE | None => false end)
         || (str_len (text_of chunk) <? MIN_BASE)
      then
        self ← push_chunk self (as_slice chunk);
        c ← cursor_next tt (cursor_new tt (chunks other) : Cursor C Sm unit);
        c ← cursor_next tt c;
        '(_, suffix) ← cursor_suffix tt c;
        t ← SumTree.append tt (chunks self) suffix;
        Ok (mkRope t)
      else t ← SumTree.append tt (chunks self) (chunks other); Ok (mkRope t)
  | None => t ← SumTree.append tt (chunks self) (chunks other); Ok (mkRope t)
  end.

Definition push_front (self : rope) (text : list N) : outcome rope :=
  if bool_decide (text = []) then Ok self
  else if rope_is_empty self then rope_push self text
  else
    first ← tree_first (chunks self);
    match first with
    | Some c =>
        if str_len (text_of c) + str_len text <=? MAX_BASE then
          c ← api_prepend_str (Sl:=Sl) (Sm:=Sm) c text;
          t ← update_first tt (fun _ => c) (chunks self);
          Ok (mkRope t)
        else front ← rope_from text; rope_append front self
    | None => front ← rope_from text; rope_append front self
    end.

(** ** [Cursor] *)
Record RopeCursor := mkRopeCursor { rc_rope : rope; rc_chunks : Cursor C Sm N; rc_offset : N }.

Definition rope_cursor (self : rope) (offset : N) : outcome RopeCursor :=
  '(c, _) ← cursor_seek tt offset Right (cursor_new tt (chunks self));
  Ok (mkRopeCursor self c offset).

Definition rope_seek_forward (self : RopeCursor) (end_offset : N) : outcome RopeCursor :=
  _ ← assert_that (rc_offset self <=? end_offset);
  _ ← assert_that (end_offset <=? rope_len (rc_rope self));
  '(c, _) ← cursor_seek_forward tt end_offset Right (rc_chunks self);
  Ok (mkRopeCursor (rc_rope self) c end_offset).

Definition rope_cursor_slice (self : RopeCursor) (end_offset : N) : outcome (RopeCursor * rope) :=
  _ ← assert_that (rc_offset self <=? end_offset);
  _ ← assert_that (end_offset <=? rope_len (rc_rope self));
  let c := rc_chunks self in
  item ← cursor_item c;
  end_ ← cursor_end tt c;
  slice ←
    match item with
    | Some start_chunk =>
        let start_ix := usize_sub (rc_offset self) (cursor_start c) in
        let end_ix := usize_sub (N.min end_offset end_) (cursor_start c) in
        sl ← api_slice (Sm:=Sm) start_chunk (mkRange start_ix end_ix);
        push_chunk rope_new sl
    | None => Ok rope_new
    end;
  if end_ <? end_offset then
    c ← cursor_next tt c;
    '(c, t) ← cursor_slice tt end_offset Right c;
    slice ← rope_append slice (mkRope t);
    item ← cursor_item c;
    slice ←
      match item with
      | Some end_chunk =>
          let end_ix := usize_sub end_offset (cursor_start c) in
          sl ← api_slice (Sm:=Sm) end_chunk (mkRange 0 end_ix);
          push_chunk slice sl
      | None => Ok slice
      end;
    Ok (mkRopeCursor (rc_rope self) c end_offset, slice)
  else Ok (mkRopeCursor (rc_rope self) c end_offset, slice).

Definition rope_cursor_suffix (self : RopeCursor) : outcome rope :=
  '(_, r) ← rope_cursor_slice self (extent tt (chunks (rc_rope self))); Ok r.

Definition rope_slice (self : rope) (range : Range N) : outcome rope :=
  c ← rope_cursor self 0;
  c ← rope_seek_forward c (r_start range);
  '(_, r) ← rope_cursor_slice c (r_end range);
  Ok r.

Definition rope_replace (self : rope) (range : Range N) (text : list N) : outcome rope :=
  c ← rope_cursor self 0;
  '(c, before) ← rope_cursor_slice c (r_start range);
  new_rope ← rope_append rope_new before;
  c ← rope_seek_forward c (r_end range);
  new_rope ← rope_push new_rope text;
  after ← rope_cursor_suffix c;
  rope_append new_rope after.

(** ** Boundaries *)
Definition rope_is_char_boundary (self : rope) (offset : N) : bool :=
  if is_empty (chunks self) then offset =? 0
  else
    let '(start, _, item) := find (D:=N) tt (chunks self) offset Left in
    let chunk_offset := usize_sub offset start in
    match item with
    | Some chunk => api_is_char_boundary (Sl:=Sl) (Sm:=Sm) chunk chunk_offset
    | None => false
    end.

(** [assert_char_boundary::<PANIC>] *)
Definition rope_assert_char_boundary (PANIC : bool) (self : rope) (offset : N) : outcome bool :=
  if is_empty (chunks self) && (offset =? 0) then Ok true
  else
    let '(start, _, item) := find (D:=N) tt (chunks self) offset Left in
    match item with
    | Some chunk =>
        let chunk_offset := usize_sub offset start in
        api_assert_char_boundary (Sl:=Sl) (Sm:=Sm) PANIC chunk chunk_offset
    | None => if PANIC then Panic else Ok false
    end.

Definition rope_floor_char_boundary (self : rope) (index : N) : N :=
  if rope_len self <=? index then rope_len self
  else
    let '(start, _, item) := find (D:=N) tt (chunks self) index Left in
    let chunk_offset := usize_sub index start in
    match item with
    | Some chunk => start + str_floor_char_boundary (text_of chunk) chunk_offset
    | None => rope_len self
    end.

Definition rope_ceil_char_boundary (self : rope) (index : N) : N :=
  if rope_len self <? index then rope_len self
  else
    let '(start, _, item) := find (D:=N) tt (chunks self) index Left in
    let chunk_offset := usize_sub index start in
    match item with
    | Some chunk => start + str_ceil_char_boundary (text_of chunk) chunk_offset
    | None => rope_len self
    end.

Definition clip_offset (self : rope) (offset : N) (bias : Bias) : N :=
  match bias with
  | Left => rope_floor_char_boundary self offset
  | Right => rope_ceil_char_boundary self offset
  end.

(** ** Positions *)
Abbreviation dims A B := (A * B * unit)%type.

Definition rope_offset_to_offset_utf16 (self : rope) (offset : N) : OffsetUtf16 :=
  if ts_len (rope_summary self) <=? offset then ts_len_utf16 (rope_summary self)
  else
    let '(start, _, item) := find (D:=dims N OffsetUtf16) tt (chunks self) offset Left in
    let overshoot := usize_sub offset start.1.1 in
    offset_utf16_add start.1.2
      (match item with
       | Some chunk => offset_to_offset_utf16 (view (as_slice chunk)) overshoot
       | None => mkOffsetUtf16 0
       end).

Definition rope_offset_utf16_to_offset (self : rope) (offset : OffsetUtf16) : N :=
  if leb (ts_len_utf16 (rope_summary self)) offset then ts_len (rope_summary self)
  else
    let '(start, _, item) := find (D:=dims OffsetUtf16 N) tt (chunks self) offset Left in
    let overshoot := offset_utf16_sub offset start.1.1 in
    start.1.2 + match item with
                | Some chunk => offset_utf16_to_offset (view (as_slice chunk)) overshoot
                | None => 0
                end.

Definition rope_offset_to_point (self : rope) (offset : N) : Point :=
  if ts_len (rope_summary self) <=? offset then ts_lines (rope_summary self)
  else
    let '(start, _, item) := find (D:=dims N Point) tt (chunks self) offset Left in
    let overshoot := usize_sub offset start.1.1 in
    point_add start.1.2
      (match item with
       | Some chunk => offset_to_point (view (as_slice chunk)) overshoot
       | None => point_zero
       end).

Definition rope_offset_to_point_utf16 (self : rope) (offset : N) : PointUtf16 :=
  if ts_len (rope_summary self) <=? offset then lines_utf16 (rope_summary self)
  else
    let '(start, _, item) := find (D:=dims N PointUtf16) tt (chunks self) offset Left in
    let overshoot := usize_sub offset start.1.1 in
    point_utf16_add start.1.2
      (match item with
       | Some chunk => offset_to_point_utf16 (view (as_slice chunk)) overshoot
       | None => point_utf16_zero
       end).

Definition rope_point_to_point_utf16 (self : rope) (point : Point) : PointUtf16 :=
  if leb (ts_lines (rope_summary self)) point then lines_utf16 (rope_summary self)
  else
    let '(start, _, item) := find (D:=dims Point PointUtf16) tt (chunks self) point Left in
    let overshoot := point_sub point start.1.1 in
    point_utf16_add start.1.2
      (match item with
       | Some chunk => point_to_point_utf16 (view (as_slice chunk)) overshoot
       | None => point_utf16_zero
       end).

Definition rope_point_to_offset (self : rope) (point : Point) : N :=
  if leb (ts_lines (rope_summary self)) point then ts_len (rope_summary self)
  else
    let '(start, _, item) := find (D:=dims Point N) tt (chunks self) point Left in
    let overshoot := point_sub point start.1.1 in
    start.1.2 + match item with
                | Some chunk => point_to_offset (view (as_slice chunk)) overshoot
                | None => 0
                end.

Definition point_utf16_to_offset_impl (self : rope) (point : PointUtf16) (clip : bool) : outcome N :=
  if leb (lines_utf16 (rope_summary self)) point then Ok (ts_len (rope_summary self))
  else
    let '(start, _, item) := find (D:=dims PointUtf16 N) tt (chunks self) point Left in
    let overshoot := point_utf16_sub point start.1.1 in
    offset ← match item with
             | Some chunk => point_utf16_to_offset (view (as_slice chunk)) overshoot clip
             | None => Ok 0
             end;
    Ok (start.1.2 + offset).

Definition rope_point_utf16_to_offset (self : rope) (point : PointUtf16) : outcome N :=
  point_utf16_to_offset_impl self point false.
Definition rope_unclipped_point_utf16_to_offset (self : rope) (point : Unclipped PointUtf16) : outcome N :=
  point_utf16_to_offset_impl self (unclipped point) true.

Definition rope_unclipped_point_utf16_to_point (self : rope) (point : Unclipped PointUtf16) : outcome Point :=
  if leb (lines_utf16 (rope_summary self)) (unclipped point) then Ok (ts_lines (rope_summary self))
  else
    let '(start, _, item) := find (D:=dims PointUtf16 Point) tt (chunks self) (unclipped point) Left in
    let overshoot := mkUnclipped (point_utf16_sub (unclipped point) start.1.1) in
    p ← match item with
        | Some chunk => unclipped_point_utf16_to_point (view (as_slice chunk)) overshoot
        | None => Ok point_zero
        end;
    Ok (point_add start.1.2 p).

Definition slice_rows (self : rope) (range : Range N) : outcome rope :=
  let start := rope_point_to_offset self (mkPoint (r_start range) 0) in
  let end_ := rope_point_to_offset self (mkPoint (r_end range) 0) in
  rope_slice self (mkRange start end_).

Definition rope_clip_offset_utf16 (self : rope) (offset : OffsetUtf16) (bias : Bias) : outcome OffsetUtf16 :=
  let '(start, _, item) := find (D:=OffsetUtf16) tt (chunks self) offset Right in
  match item with
  | Some chunk =>
      let overshoot := offset_utf16_sub offset start in
      o ← clip_offset_utf16 (view (as_slice chunk)) overshoot bias;
      Ok (offset_utf16_add start o)
  | None => Ok (ts_len_utf16 (rope_summary self))
  end.

Definition rope_clip_point_utf16 (self : rope) (point : Unclipped PointUtf16) (bias : Bias) : outcome PointUtf16 :=
  let '(start, _, item) := find (D:=PointUtf16) tt (chunks self) (unclipped point) Right in
  match item with
  | Some chunk =>
      let overshoot := mkUnclipped (point_utf16_sub (unclipped point) start) in
      p ← clip_point_utf16 (view (as_slice chunk)) overshoot bias;
      Ok (point_utf16_add start p)
  | None => Ok (lines_utf16 (rope_summary self))
  end.

Definition rope_clip_point (grapheme_boundary : list N → N → option bool) (self : rope) (point : Point)
    (bias : Bias) : outcome Point :=
  let '(start, _, item) := find (D:=Point) tt (chunks self) point Right in
  match item with
  | Some chunk =>
      let overshoot := point_sub point start in
      p ← clip_point grapheme_boundary (view (as_slice chunk)) overshoot bias;
      Ok (point_add start p)
  | None => Ok (ts_lines (rope_summary self))
  end.

Definition line_len (grapheme_boundary : list N → N → option bool) (self : rope) (row : N) : outcome N :=
  p ← rope_clip_point grapheme_boundary self (mkPoint row u32_max) Left; Ok (column p).
End rope.

(** ** The chunks of [chunk.rs] *)
#[export] Instance text_summary_Summary : Summary TextSummary unit :=
  {| zero _ := text_summary_zero; add_summary _ := text_summary_add |}.
#[export] Instance Chunk_item : Item Chunk TextSummary unit :=
  fun _ c => match text_summary (Chunk.as_slice c) with Ok s => s | Panic => text_summary_zero end.
#[export] Instance Chunk_api : ChunkApi Chunk ChunkSlice TextSummary := {|
  api_text := c_text;
  api_new := chunk_new;
  api_push_str := push_str;
  api_prepend_str := prepend_str;
  api_append := Chunk.append;
  api_as_slice := Chunk.as_slice;
  api_slice := chunk_slice;
  api_is_char_boundary := chunk_is_char_boundary;
  api_assert_char_boundary := chunk_assert_char_boundary;
  api_split_at := split_at;
  api_into := slice_into;
  api_view := id;
  api_summary_text := id
|}.

(** ** Their specification *)
(** A chunk is its characters, a summary the text it summarises; each operation is the one
    on the chunk with these characters, and the characters of its result. *)
Definition chars_of_chunk (c : Chunk) : list N := decode (c_text c).
Definition chars_of_slice (s : ChunkSlice) : list N := decode (text s).

#[export] Instance spec_Summary : Summary (list N) unit := {| zero _ := []; add_summary _ s t := s ++ t |}.
#[export] Instance spec_item : Item (list N) (list N) unit := fun _ c => c.
#[export] Instance spec_api : ChunkApi (list N) (list N) (list N) := {|
  api_text := str_of;
  api_new s := chars_of_chunk <$> chunk_new s;
  api_push_str c s := chars_of_chunk <$> push_str (chunk_of c) s;
  api_prepend_str c s := chars_of_chunk <$> prepend_str (chunk_of c) s;
  api_append c s := chars_of_chunk <$> Chunk.append (chunk_of c) (slice_of s);
  api_as_slice c := c;
  api_slice c r := chars_of_slice <$> chunk_slice (chunk_of c) r;
  api_is_char_boundary c := chunk_is_char_boundary (chunk_of c);
  api_assert_char_boundary P c := chunk_assert_char_boundary P (chunk_of c);
  api_split_at s mid := (fun p => (chars_of_slice p.1, chars_of_slice p.2)) <$> split_at (slice_of s) mid;
  api_into s := chars_of_chunk <$> slice_into (slice_of s);
  api_view := slice_of;
  api_summary_text := text_summary_from
|}.

(** The same computation with both kinds of chunks. *)
Example rope_push_test :
  let text := str_of (concat (replicate 60 [97; 233; NEWLINE; 119987])) in
  (r ← rope_from (C:=Chunk) (Sl:=ChunkSlice) (Sm:=TextSummary) text;
   r ← rope_push (Sl:=ChunkSlice) r text;
   Ok (c_text <$> tree_items (chunks r), rope_len (Sl:=ChunkSlice) r,
       rope_offset_to_point (Sl:=ChunkSlice) r 300))
  = (r ← rope_from (C:=list N) (Sl:=list N) (Sm:=list N) text;
     r ← rope_push (Sl:=list N) r text;
     Ok (str_of <$> tree_items (chunks r), rope_len (Sl:=list N) r,
         rope_offset_to_point (Sl:=list N) r 300)).
Proof. vm_compute. reflexivity. Qed.
