(* ===== verification/RopeFacts.v ===== *)
(** * Facts about ropes: growing them

    [rope_text r] are the characters of a rope.  A well-formed rope is a well-formed tree of
    non-empty chunks of at most 128 bytes, all but the last at least 61 bytes long (the
    invariant of [check_invariants]), so that a text below 2 GiB keeps the tree within the
    cursor's stack.  [push], [append] and [push_front] keep it and concatenate the texts. *)

From S2P Require Import Prelude Ord SumTree SumTreeFacts SeekSpec Cursor CursorFacts SeekFacts Patch Bitmap Utf8 Point TextSummary Chunk ChunkFacts ChunkPositions Rope.
Local Open Scope N_scope.

Abbreviation srope := (Rope (list N) (list N)).
Abbreviation rope_items r := (tree_items (chunks r)).

Definition rope_text (r : srope) : list N := concat (rope_items r).

(** The depth up to which bulk construction may leave nodes underfull. *)
Definition ROPE_DEPTH : nat := 6.

Definition good (c : list N) : Prop := fits c ∧ c ≠ [].
Definition thick (c : list N) : Prop := MIN_BASE <= byte_len c + 3.
Definition dense (its : list (list N)) : Prop := Forall thick (removelast its).
Definition small (cs : list N) : Prop := byte_len cs <= 2 ^ 31.

Record rope_wf (r : srope) : Prop := {
  rw_tree : tree_wf tt ROPE_DEPTH (chunks r);
  rw_good : Forall good (rope_items r);
  rw_dense : dense (rope_items r)
}.

#[export] Instance spec_laws : SummaryLaws (Sm:=list N) tt.
Proof. split; intros; [apply app_assoc|done]. Qed.

(** ** The interface on texts *)
Lemma spec_new_of cs : fits cs → api_new (Sl:=list N) (Sm:=list N) (str_of cs) = Ok cs.
Proof.
  intros Hf. cbn [api_new spec_api]. rewrite chunk_new_of by done. unfold chars_of_chunk. cbn.
  by rewrite decode_str by apply Hf.
Qed.
Lemma spec_push_of c d :
  fits (c ++ d) → api_push_str (Sl:=list N) (Sm:=list N) c (str_of d) = Ok (c ++ d).
Proof.
  intros Hf. destruct (fits_app _ _ Hf) as [_ Hd]. cbn [api_push_str spec_api]. unfold push_str.
  rewrite chunk_new_of by done. cbn [mbind outcome_bind]. rewrite as_slice_of, append_of by done.
  unfold chars_of_chunk. cbn. by rewrite decode_str by apply Hf.
Qed.
Lemma spec_prepend_of c d :
  fits (d ++ c) → api_prepend_str (Sl:=list N) (Sm:=list N) c (str_of d) = Ok (d ++ c).
Proof.
  intros Hf. destruct (fits_app _ _ Hf) as [Hd _]. cbn [api_prepend_str spec_api]. unfold prepend_str.
  rewrite chunk_new_of by done. cbn [mbind outcome_bind]. rewrite as_slice_of, prepend_of by done.
  unfold chars_of_chunk. cbn. by rewrite decode_str by apply Hf.
Qed.
Lemma spec_append_of c d : fits (c ++ d) → api_append (Sm:=list N) c d = Ok (c ++ d).
Proof.
  intros Hf. cbn [api_append spec_api]. rewrite append_of by done. unfold chars_of_chunk. cbn.
  by rewrite decode_str by apply Hf.
Qed.
Lemma spec_split_of p q :
  fits (p ++ q) → api_split_at (C:=list N) (Sm:=list N) (p ++ q) (byte_len p) = Ok (p, q).
Proof.
  intros Hf. destruct (fits_app _ _ Hf) as [Hp Hq]. cbn [api_split_at spec_api]. rewrite split_at_of by done.
  unfold chars_of_slice. cbn. rewrite !decode_str by (apply Hp || apply Hq). done.
Qed.
Lemma spec_slice_of p q r :
  fits (p ++ q ++ r) →
  api_slice (C:=list N) (Sm:=list N) (p ++ q ++ r) (mkRange (byte_len p) (byte_len (p ++ q))) = Ok q.
Proof.
  intros Hf. destruct (fits_app _ _ Hf) as [_ Hqr]. destruct (fits_app _ _ Hqr) as [Hq _].
  cbn [api_slice spec_api]. unfold chunk_slice. rewrite as_slice_of, slice_of_range by done.
  unfold chars_of_slice. cbn. by rewrite decode_str by apply Hq.
Qed.
Lemma spec_into_of s : fits s → api_into (C:=list N) (Sm:=list N) s = Ok s.
Proof.
  intros Hf. cbn [api_into spec_api]. unfold slice_into, array_push_str. cbn [slice_of text app].
  change (str_len (str_of s)) with (byte_len s). rewrite (proj2 (N.leb_le _ _) (proj2 Hf)).
  unfold chars_of_chunk. cbn. by rewrite decode_str by apply Hf.
Qed.

(** ** Room in the tree *)
Lemma byte_len_concat_cons x l : byte_len (concat (x :: l)) = byte_len x + byte_len (concat l).
Proof. cbn [concat]. apply byte_len_app. Qed.

Lemma dense_count its : dense its → 61 * N.of_nat (length its) <= byte_len (concat its) + 61.
Proof.
  unfold dense. destruct (snoc_case its) as [->|(l & x & ->)]; [done|]. rewrite removelast_last. intros Hl.
  rewrite length_app, concat_app, byte_len_app. cbn [length].
  assert (61 * N.of_nat (length l) <= byte_len (concat l)); [|lia].
  induction Hl as [|y l Hy Hl IH]; [done|]. rewrite byte_len_concat_cons. cbn [length].
  unfold thick, MIN_BASE, MAX_BASE, BITS in Hy. change (128 / 2) with 64 in Hy. lia.
Qed.

Definition MAX_CHUNKS : N := 35204653.

Lemma room_fits {T} (its : list T) : N.of_nat (length its) <= MAX_CHUNKS → SumTreeFacts.fits ROPE_DEPTH 255 its.
Proof.
  intros H. split; [unfold ROPE_DEPTH; lia|]. apply (N.le_lt_trans _ MAX_CHUNKS); [done|].
  apply (N.lt_le_trans _ (6 ^ 10)); [done|]. apply N.pow_le_mono_r; [done|]. unfold ROPE_DEPTH. lia.
Qed.
Lemma room_bulk {T} (its : list T) :
  N.of_nat (length its) <= MAX_CHUNKS → N.of_nat (length its) <= N.of_nat (2 * TREE_BASE) ^ N.of_nat (S ROPE_DEPTH).
Proof. intros H. etrans; [exact H|]. done. Qed.
Lemma room_height (t : SumTree (list N) (list N)) :
  tree_wf tt ROPE_DEPTH t → N.of_nat (length (tree_items t)) <= MAX_CHUNKS →
  (N.to_nat (height t) < STACK_CAPACITY)%nat.
Proof.
  intros [->|(h & _ & Ht)] Hl; [unfold STACK_CAPACITY; cbn; lia|]. rewrite (wf_height tt _ _ _ Ht), Nat2N.id.
  eapply (wf_fits_height tt ROPE_DEPTH); [exact Ht|]. split; [unfold ROPE_DEPTH, STACK_CAPACITY; lia|].
  apply (N.le_lt_trans _ MAX_CHUNKS); [done|]. done.
Qed.

Lemma room_of l k :
  dense l → dense k → small (concat l ++ concat k) → N.of_nat (length (l ++ k)) <= MAX_CHUNKS.
Proof.
  intros Hl%dense_count Hk%dense_count Hs. unfold small in Hs. rewrite byte_len_app in Hs. rewrite length_app.
  unfold MAX_CHUNKS. lia.
Qed.

(** ** Filling the last chunk *)
Lemma fill_last_empty {X} r (rest : X) closure :
  rope_wf r → rope_items r = [] → fill_last r rest closure = Ok (r, rest).
Proof.
  intros Hr Hi. unfold fill_last. rewrite (tree_last_spec tt ROPE_DEPTH) by apply Hr. by rewrite Hi.
Qed.

Lemma fill_last_spec {X} r (rest rest' : X) closure l x y :
  rope_wf r → rope_items r = l ++ [x] → closure x = Ok (y, rest') →
  ∃ t, fill_last r rest closure = Ok (mkRope t, rest') ∧ tree_wf tt ROPE_DEPTH t ∧ tree_items t = l ++ [y].
Proof.
  intros [Ht _ _] Hi Hc. unfold fill_last. rewrite (tree_last_spec tt ROPE_DEPTH) by done. rewrite Hi, last_snoc.
  cbn [mbind outcome_bind]. rewrite Hc. cbn [mbind outcome_bind].
  destruct Ht as [E|(h & Hh & Ht)]; [rewrite E in Hi; cbn in Hi; by destruct l|].
  destruct (ok_with_inv _ _ (update_last_at tt ROPE_DEPTH (fun _ => y) h _ l x Ht Hi)) as ([t o] & E & Hw & _ & Hi' & _).
  unfold update_last. rewrite E. exists t. split; [done|]. split; [|done]. right. by exists h.
Qed.

(** ** Cutting texts *)
Lemma str_split_of p q : Forall char_ok (p ++ q) → str_split_at (str_of (p ++ q)) (byte_len p) = Ok (str_of p, str_of q).
Proof.
  intros Hok. unfold str_split_at. rewrite (proj2 (str_boundary _ _ Hok)) by (by exists p, q).
  unfold str_of. by rewrite take_flat_map, drop_flat_map.
Qed.

(** The boundary found from [i], on one side, is at most three bytes away. *)
Lemma step_boundary cs bias i :
  Forall char_ok cs → byte_len cs < 2 ^ 64 → i <= byte_len cs →
  ∃ p q, cs = p ++ q ∧ step_to_boundary BOUNDARY_FUEL (str_of cs) bias i = Ok (byte_len p)
    ∧ match bias with Left => byte_len p <= i ∧ i <= byte_len p + 3 | Right => i <= byte_len p ∧ byte_len p <= i + 3 end
    ∧ (at_boundary cs i → byte_len p = i).
Proof.
  intros Hok Hlen Hi. destruct (locate cs i Hi) as [Hb|Hin].
  - pose proof Hb as (p & q & E & Ei). exists p, q. unfold BOUNDARY_FUEL. rewrite step_at, <-Ei by done.
    split_and!; try done. destruct bias; lia.
  - pose proof Hin as (p & c & q & E & H1 & H2). pose proof (len_utf8_bounds c). rewrite char_end in H2.
    assert (Hn : at_boundary cs i → False) by (intros Hb; by apply boundary_not_inside in Hb).
    destruct bias.
    + exists p, (c :: q). rewrite (step_inside _ cs p c q Left i) by
        (done || (rewrite char_end; lia) || (unfold BOUNDARY_FUEL; lia)). split_and!; try done; lia.
    + exists (p ++ [c]), q. rewrite (step_inside _ cs p c q Right i) by
        (done || (rewrite char_end; lia) || (unfold BOUNDARY_FUEL; lia)).
      rewrite char_end. split_and!; try done; [by rewrite E, <-app_assoc|lia..].
Qed.

Lemma cut_left cs :
  Forall char_ok cs → cs ≠ [] → byte_len cs < 2 ^ 64 →
  ∃ p q, cs = p ++ q ∧ step_to_boundary BOUNDARY_FUEL (str_of cs) Left (N.min MAX_BASE (byte_len cs)) = Ok (byte_len p)
    ∧ good p ∧ (q = [] ∨ 125 <= byte_len p).
Proof.
  intros Hok Hne Hlen. destruct (step_boundary cs Left (N.min MAX_BASE (byte_len cs)) Hok Hlen ltac:(lia))
    as (p & q & -> & Hs & [H1 H2] & Hb). exists p, q. split; [done|]. split; [done|].
  apply Forall_app in Hok as [Hp _]. unfold MAX_BASE, BITS in *.
  destruct (N.le_gt_cases (byte_len (p ++ q)) 128) as [Hle|Hgt].
  - assert (E : byte_len p = byte_len (p ++ q)).
    { rewrite <-(N.min_r 128 (byte_len (p ++ q))) by done. apply Hb. rewrite N.min_r by done.
      exists (p ++ q), []. by rewrite app_nil_r. }
    rewrite byte_len_app in E. assert (q = []) as -> by (apply byte_len_zero; lia). split; [|by left].
    rewrite app_nil_r in *. split; [|done]. split; [done|]. unfold MAX_BASE, BITS. done.
  - rewrite N.min_l in * by lia. split; [|right; lia]. split; [split; [done|unfold MAX_BASE, BITS; lia]|].
    intros ->. change (byte_len []) with 0 in *. lia.
Qed.

Lemma split_chunks_of fuel cs :
  Forall char_ok cs → byte_len cs < 2 ^ 64 → (length (str_of cs) <= fuel)%nat →
  ∃ ps, split_chunks fuel (str_of cs) = Ok (str_of <$> ps) ∧ concat ps = cs ∧ Forall good ps
    ∧ Forall (fun p => 125 <= byte_len p) (removelast ps).
Proof.
  revert cs. induction fuel as [|fuel IH]; intros cs Hok Hlen Hf.
  - assert (cs = []) as -> by (apply str_of_nil; destruct (str_of cs); [done|cbn in Hf; lia]). by exists [].
  - destruct (decide (cs = [])) as [->|Hne]; [by exists []|].
    destruct (cut_left cs Hok Hne Hlen) as (p & q & E & Hs & Hp & Hthick).
    assert (Hq : ∃ b s, str_of cs = b :: s).
    { destruct (str_of cs) as [|b s] eqn:Es; [by apply str_of_nil in Es|eauto]. }
    destruct Hq as (b & s & Ebs). cbn [split_chunks]. rewrite Ebs, <-Ebs.
    change (str_len (str_of cs)) with (byte_len cs). rewrite Hs. cbn [mbind outcome_bind]. rewrite E in *.
    rewrite str_split_of by done. cbn [mbind outcome_bind]. apply Forall_app in Hok as [Hop Hoq].
    rewrite byte_len_app in Hlen. destruct (IH q) as (ps & E2 & Hc & Hg & Ht); [done|lia| |].
    { rewrite str_app, length_app in Hf. destruct Hp as [_ Hp]. destruct (str_of p) eqn:Ep; [by apply str_of_nil in Ep|].
      cbn in Hf. lia. }
    rewrite E2. exists (p :: ps). split; [done|]. split; [cbn; by rewrite Hc|]. split; [by constructor|].
    destruct ps as [|p' ps]; [constructor|]. change (removelast (p :: p' :: ps)) with (p :: removelast (p' :: ps)).
    constructor; [|done]. destruct Hthick as [->|]; [|done]. exfalso. apply Forall_cons in Hg as [[_ Hg] _].
    cbn in Hc. by destruct p'.
Qed.

Lemma new_chunks_of ps : Forall good ps → omap_outcome (api_new (Sl:=list N) (Sm:=list N)) (str_of <$> ps) = Ok ps.
Proof.
  induction 1 as [|p ps [Hp _] Hps IH]; [done|]. cbn [fmap list_fmap omap_outcome].
  rewrite spec_new_of by done. cbn [mbind outcome_bind]. by rewrite IH.
Qed.

Lemma dense_app l ps : Forall thick l → dense ps → dense (l ++ ps).
Proof.
  intros Hl Hp. unfold dense in *. destruct (snoc_case ps) as [->|(qs & x & ->)].
  - rewrite app_nil_r. destruct (snoc_case l) as [->|(l' & x & ->)]; [done|]. rewrite removelast_last.
    by apply Forall_app in Hl as [Hl _].
  - rewrite app_assoc, removelast_last in *. by apply Forall_app.
Qed.

Lemma thick_pieces ps : Forall (fun p => 125 <= byte_len p) (removelast ps) → dense ps.
Proof.
  intros H. eapply Forall_impl; [exact H|]. unfold thick, MIN_BASE, MAX_BASE, BITS. intros x Hx. cbn beta in Hx.
  change (128 / 2) with 64. lia.
Qed.

Lemma few_pieces ps :
  Forall good ps → Forall (fun p => 125 <= byte_len p) (removelast ps) → byte_len (concat ps) <= 496 → (length ps <= 4)%nat.
Proof.
  destruct (snoc_case ps) as [->|(l & x & ->)]; [cbn; lia|]. rewrite removelast_last. intros Hg Hl Hb.
  rewrite concat_app, byte_len_app in Hb. apply Forall_app in Hg as [_ Hg]. apply Forall_cons in Hg as [[_ Hx] _].
  assert (byte_len x ≠ 0) by (intros E; by apply Hx, byte_len_zero).
  assert (125 * N.of_nat (length l) <= byte_len (concat l)).
  { clear -Hl. induction Hl as [|y l Hy Hl IH]; [done|]. rewrite byte_len_concat_cons. cbn [length]. lia. }
  cbn [concat] in Hb. rewrite app_nil_r in Hb. rewrite length_app. cbn [length]. lia.
Qed.

(** ** [push] *)
Lemma small_u64 cs : small cs → byte_len cs < 2 ^ 64.
Proof. unfold small. lia. Qed.
Lemma small_app cs ds : small (cs ++ ds) → small cs ∧ small ds.
Proof. unfold small. rewrite byte_len_app. lia. Qed.

(** What is left is cut into chunks and added behind a tree of thick chunks. *)
Lemma push_remainder_spec (r : srope) q :
  tree_wf tt ROPE_DEPTH (chunks r) → Forall good (rope_items r) → Forall thick (rope_items r) →
  Forall char_ok q → q ≠ [] → small (rope_text r ++ q) →
  ok_with (push_remainder (Sl:=list N) r (str_of q)) (fun r' => rope_wf r' ∧ rope_text r' = rope_text r ++ q).
Proof.
  intros Ht Hg Hth Hq Hne Hs. pose proof (small_app _ _ Hs) as [_ Hsq]. pose proof (small_u64 _ Hsq) as Hq64.
  unfold push_remainder. rewrite bool_decide_eq_false_2 by (intros E; by apply Hne, str_of_nil).
  destruct (split_chunks_of (length (str_of q)) q Hq Hq64 ltac:(lia)) as (ps & E & Hc & Hps & H125).
  pose proof (thick_pieces _ H125) as Hdp.
  assert (Hroom : N.of_nat (length (rope_items r ++ ps)) <= MAX_CHUNKS).
  { apply room_of; [|done|by rewrite Hc]. rewrite <-(app_nil_r (rope_items r)). apply dense_app; [done|constructor]. }
  assert (Hext : ok_with (t ← extend tt (chunks r) ps; Ok (mkRope t)) (fun r' => rope_wf r' ∧ rope_text r' = rope_text r ++ q)).
  { ok_bind (extend_spec tt ROPE_DEPTH); [exact Ht|apply room_bulk; rewrite length_app in Hroom; lia|by apply room_fits|].
    intros t [Hw Hi]. cbn [ok_with]. unfold rope_text. cbn [chunks]. rewrite Hi, concat_app, Hc. split; [|done].
    split; cbn [chunks]; rewrite ?Hi; [done|by apply Forall_app|by apply dense_app]. }
  change (str_len (str_of q)) with (byte_len q). destruct (N.ltb_spec (N.of_nat NUM_CHUNKS * MAX_BASE - N.of_nat NUM_CHUNKS * 4) (byte_len q)) as [Hlt|Hge].
  - unfold push_large. rewrite E. cbn [mbind outcome_bind]. rewrite new_chunks_of by done. cbn [mbind outcome_bind].
    destruct (_ <=? _)%nat; [|done]. unfold par_extend. rewrite <-(from_iter_par tt). exact Hext.
  - rewrite E. cbn [mbind outcome_bind]. rewrite length_fmap.
    rewrite (proj2 (Nat.leb_le _ _)).
    + cbn [assert_that mbind outcome_bind]. by rewrite new_chunks_of.
    + apply few_pieces; [done|done|]. rewrite Hc. exact Hge.
Qed.

(** Where the text is split to fill a chunk of [a] bytes. *)
Definition filled (a : N) (p q : list N) : Prop :=
  a + byte_len p <= MAX_BASE
  ∧ (q = [] ∨ (MIN_BASE <= a + byte_len p ∧ (a < MIN_BASE → thick q) ∧ (MIN_BASE <= a → p = []))).

Lemma room_split_of a cs :
  Forall char_ok cs → byte_len cs < 2 ^ 64 → a <= MAX_BASE →
  ∃ p q, cs = p ++ q ∧ room_split a (byte_len cs) (str_of cs) = Ok (byte_len p) ∧ filled a p q.
Proof.
  intros Hok Hlen Ha. unfold room_split, filled, thick, MIN_BASE, MAX_BASE, BITS in *. change (128 / 2) with 64.
  destruct (N.leb_spec (a + byte_len cs) 128) as [Hle|Hgt].
  - exists cs, []. rewrite app_nil_r. split_and!; auto.
  - destruct (step_boundary cs Right (N.min (64 - a) (byte_len cs)) Hok Hlen ltac:(lia))
      as (p & q & -> & Hs & [H1 H2] & Hb). rewrite N.min_l in * by lia.
    exists p, q. split; [done|]. split; [done|]. rewrite byte_len_app in *.
    assert (64 <= a → byte_len p = 0) by (intros; rewrite Hb; [lia|]; replace (64 - a) with 0 by lia; by exists [], (p ++ q)).
    split; [lia|]. right. split_and!; [lia|lia|]. intros. apply byte_len_zero. lia.
Qed.

Lemma good_room x : good x → byte_len x <= MAX_BASE.
Proof. intros [[_ H] _]. done. Qed.

Lemma filled_good x p q : good x → Forall char_ok p → filled (byte_len x) p q → good (x ++ p).
Proof.
  intros [[Hx _] Hne] Hp [Hl _]. split; [split|].
  - by apply Forall_app.
  - by rewrite byte_len_app.
  - by destruct x.
Qed.

Lemma filled_thick x p q : filled (byte_len x) p q → q ≠ [] → thick (x ++ p).
Proof. intros [_ [->|[H _]]] Hq; [done|]. unfold thick. rewrite byte_len_app. lia. Qed.

Lemma items_snoc (r : srope) l x : rope_wf r → rope_items r = l ++ [x] → Forall good l ∧ good x ∧ Forall thick l.
Proof.
  intros [_ Hg Hd] E. rewrite E in *. apply Forall_app in Hg as [? Hx]. apply Forall_cons in Hx as [? _].
  unfold dense in Hd. by rewrite removelast_last in Hd.
Qed.

Lemma text_snoc (r : srope) l x : rope_items r = l ++ [x] → rope_text r = concat l ++ x.
Proof. intros E. unfold rope_text. rewrite E, concat_app. cbn [concat]. by rewrite app_nil_r. Qed.

Lemma rope_push_spec r cs :
  rope_wf r → Forall char_ok cs → small (rope_text r ++ cs) →
  ok_with (rope_push (Sl:=list N) r (str_of cs)) (fun r' => rope_wf r' ∧ rope_text r' = rope_text r ++ cs).
Proof.
  intros Hr Hcs Hs. unfold rope_push. destruct (snoc_case (rope_items r)) as [E|(l & x & E)].
  - rewrite fill_last_empty by done. cbn [mbind outcome_bind]. destruct (decide (cs = [])) as [->|Hne].
    + cbn. by rewrite app_nil_r.
    + apply push_remainder_spec; try done; [apply Hr|by rewrite E..].
  - destruct (items_snoc r l x Hr E) as (Hgl & Hgx & Htl). pose proof (small_app _ _ Hs) as [_ Hscs].
    destruct (room_split_of (byte_len x) cs Hcs (small_u64 _ Hscs) (good_room _ Hgx)) as (p & q & Ecs & Hsp & Hfill).
    pose proof Hcs as Hpq. rewrite Ecs in Hpq. apply Forall_app in Hpq as [Hp Hq].
    pose proof (filled_good _ _ _ Hgx Hp Hfill) as Hgxp.
    match goal with |- context [fill_last r _ ?f] =>
      destruct (fill_last_spec r (str_of cs) (str_of q) f l x (x ++ p) Hr E) as (t & Ef & Hw & Hi) end.
    { change (str_len (api_text x)) with (byte_len x). change (str_len (str_of cs)) with (byte_len cs).
      rewrite Hsp. cbn [mbind outcome_bind]. rewrite Ecs, str_split_of by by rewrite <-Ecs. cbn [mbind outcome_bind].
      by rewrite spec_push_of by apply Hgxp. }
    rewrite Ef. cbn [mbind outcome_bind].
    assert (Htext : rope_text (mkRope t) = rope_text r ++ p).
    { rewrite (text_snoc r l x E). unfold rope_text. cbn [chunks]. rewrite Hi, concat_app. cbn [concat].
      by rewrite app_nil_r, app_assoc. }
    destruct (decide (q = [])) as [->|Hne].
    + rewrite app_nil_r in Ecs. subst p. cbn. split; [|done]. split; cbn [chunks]; rewrite ?Hi; [done| |].
      * apply Forall_app. split; [done|by constructor].
      * unfold dense. by rewrite removelast_last.
    + rewrite Ecs, app_assoc, <-Htext. apply push_remainder_spec; cbn [chunks]; rewrite ?Hi; try done.
      * apply Forall_app. split; [done|by constructor].
      * apply Forall_app. split; [done|]. constructor; [by eapply filled_thick|done].
      * by rewrite Htext, <-app_assoc, <-Ecs.
Qed.

Lemma rope_new_wf : rope_wf rope_new.
Proof. split; [by left|constructor|constructor]. Qed.

(** Pushing a text onto a rope, within 2 GiB, returns a well-formed rope whose text is the
    old one followed by the new one, however the text has to be cut into chunks. *)
Theorem rope_push_correct r cs :
  rope_wf r → Forall char_ok cs → small (rope_text r ++ cs) →
  ∃ r', rope_push (Sl:=list N) r (str_of cs) = Ok r' ∧ rope_wf r' ∧ rope_text r' = rope_text r ++ cs.
Proof. intros Hr Hcs Hs. by apply ok_with_inv, rope_push_spec. Qed.

Lemma rope_push_correct_witness :
  ∃ r', rope_push (Sl:=list N) rope_new (str_of [97; 233; 119987]) = Ok r' ∧ rope_wf r' ∧ rope_text r' = [97; 233; 119987].
Proof.
  apply (rope_push_correct rope_new [97; 233; 119987] rope_new_wf); [|by vm_compute].
  repeat constructor; unfold char_ok; lia.
Defined.

(** ** [push_chunk] and [append] *)
(** Slices and their texts have the same boundaries. *)
Lemma slice_step_of fuel cs i :
  fits cs → i + N.of_nat fuel <= u32_max →
  slice_step fuel (slice_of cs) i = step_to_boundary fuel (str_of cs) Right i.
Proof.
  intros Hf. revert i. induction fuel as [|fuel IH]; intros i Hi; [done|]. cbn [slice_step step_to_boundary].
  assert (Eb : slice_is_char_boundary (slice_of cs) i = is_char_boundary (str_of cs) i).
  { apply eq_true_iff_eq. rewrite slice_boundary by (done || lia). symmetry. apply str_boundary, Hf. }
  rewrite Eb. destruct (is_char_boundary _ _); [done|]. unfold u32_max in *. rewrite usize_add_exact by lia.
  apply IH. lia.
Qed.

(** A chunk that does not fit the last one any more. *)
Lemma push_new_chunk r1 q : tree_wf tt ROPE_DEPTH (chunks r1) → Forall good (rope_items r1) → Forall thick (rope_items r1) →
  fits q → q ≠ [] → small (rope_text r1 ++ q) →
  ok_with (c ← api_into (C:=list N) (Sm:=list N) q; t ← push tt (chunks r1) c; Ok (mkRope t))
    (fun r' => rope_wf r' ∧ rope_text r' = rope_text r1 ++ q ∧ (thick q → Forall thick (rope_items r'))).
Proof.
  intros Hw Hg Ht Hq Hne Hs1. rewrite spec_into_of by done. cbn [mbind outcome_bind].
  ok_bind (push_spec tt ROPE_DEPTH); [done| |].
  - apply room_fits, room_of; [|constructor|by cbn [concat]; rewrite app_nil_r].
    rewrite <-(app_nil_r (rope_items r1)). apply dense_app; [done|constructor].
  - intros t [Hwt Hi]. cbn [ok_with]. unfold rope_text. cbn [chunks]. rewrite Hi, concat_app. cbn [concat].
    rewrite app_nil_r. split_and!; [|done|]. split; cbn [chunks]; rewrite ?Hi; [done| |].
    + apply Forall_app. split; [done|by constructor].
    + apply dense_app; [done|constructor].
    + intros. apply Forall_app. split; [done|by constructor].
Qed.

(** Adding a slice keeps all chunks thick when the slice is, so that more may follow. *)
Lemma push_chunk_spec r s :
  rope_wf r → fits s → small (rope_text r ++ s) →
  ok_with (push_chunk (C:=list N) r s) (fun r' => rope_wf r' ∧ rope_text r' = rope_text r ++ s
    ∧ (thick s → Forall thick (rope_items r'))).
Proof.
  intros Hr Hs Hsm. unfold push_chunk.
  destruct (snoc_case (rope_items r)) as [E|(l & x & E)].
  - rewrite fill_last_empty by done. cbn [mbind outcome_bind]. change (api_view s) with (slice_of s).
    rewrite slice_empty_of. case_bool_decide as Es.
    + subst s. cbn [ok_with]. rewrite app_nil_r, E. by split_and!.
    + apply push_new_chunk; try done; [apply Hr|by rewrite E..].
  - destruct (items_snoc r l x Hr E) as (Hgl & Hgx & Htl). pose proof (small_app _ _ Hsm) as [_ Hss].
    destruct (room_split_of (byte_len x) s (proj1 Hs) (small_u64 _ Hss) (good_room _ Hgx)) as (p & q & Es & Hsp & Hfill).
    pose proof Hs as Hpq. rewrite Es in Hpq. destruct (fits_app _ _ Hpq) as [Hp Hq].
    pose proof (filled_good _ _ _ Hgx (proj1 Hp) Hfill) as Hgxp.
    match goal with |- context [fill_last r _ ?f] =>
      destruct (fill_last_spec r s q f l x (x ++ p) Hr E) as (t & Ef & Hw & Hi) end.
    { change (str_len (api_text x)) with (byte_len x). change (api_view s) with (slice_of s).
      change (len (slice_of s)) with (byte_len s). cbn zeta. unfold room_split in Hsp.
      rewrite slice_step_of; [|done|].
      - rewrite Hsp. cbn [mbind outcome_bind]. rewrite Es, spec_split_of by done. cbn [mbind outcome_bind].
        by rewrite spec_append_of by apply Hgxp.
      - destruct Hs as [_ Hs]. unfold BOUNDARY_FUEL, u32_max, MAX_BASE, BITS in *. lia. }
    rewrite Ef. cbn [mbind outcome_bind]. change (api_view q) with (slice_of q). rewrite slice_empty_of.
    assert (Htext : rope_text (mkRope t) = rope_text r ++ p).
    { rewrite (text_snoc r l x E). unfold rope_text. cbn [chunks]. rewrite Hi, concat_app. cbn [concat].
      by rewrite app_nil_r, app_assoc. }
    case_bool_decide as Eq.
    + subst q. rewrite app_nil_r in Es. subst p. cbn [ok_with]. split_and!; [|done|].
      * split; cbn [chunks]; rewrite ?Hi; [done| |].
        -- apply Forall_app. split; [done|by constructor].
        -- unfold dense. by rewrite removelast_last.
      * cbn [chunks]. rewrite Hi. intros Hts. apply Forall_app. split; [done|]. constructor; [|done].
        unfold thick in *. rewrite byte_len_app. lia.
    + pose proof (filled_thick _ _ _ Hfill Eq) as Htxp. eapply ok_with_mono.
      * apply (push_new_chunk (mkRope t) q); cbn [chunks]; rewrite ?Hi; try done.
        -- apply Forall_app. split; [done|by constructor].
        -- apply Forall_app. split; [done|by constructor].
        -- by rewrite Htext, <-app_assoc, <-Es.
      * intros r' (H1 & H2 & H3). split; [done|]. split; [by rewrite H2, Htext, <-app_assoc, <-Es|].
        intros Hts. apply H3. destruct Hfill as [_ [->|(_ & Hlo & Hhi)]]; [done|].
        destruct (N.lt_ge_cases (byte_len x) MIN_BASE) as [Hlt|Hge]; [by apply Hlo|].
        rewrite (Hhi Hge) in Es. by subst s.
Qed.

Lemma dense_cons c rest : dense (c :: rest) → rest ≠ [] → thick c ∧ dense rest.
Proof. unfold dense. destruct rest as [|d rest]; [done|]. intros H _. by apply Forall_cons in H. Qed.

Lemma room_self r : rope_wf r → small (rope_text r) → N.of_nat (length (rope_items r)) <= MAX_CHUNKS.
Proof.
  intros [_ _ Hd] Hs. pose proof (room_of (rope_items r) [] Hd ltac:(constructor)) as H. rewrite !app_nil_r in H.
  by apply H.
Qed.

Lemma rope_append_spec r o :
  rope_wf r → rope_wf o → small (rope_text r ++ rope_text o) →
  ok_with (rope_append (Sl:=list N) r o) (fun r' => rope_wf r' ∧ rope_text r' = rope_text r ++ rope_text o).
Proof.
  intros Hr Ho Hs. pose proof Hr as [Htr Hgr Hdr]. pose proof Ho as [Hto Hgo Hdo].
  unfold rope_append. rewrite (tree_first_spec tt ROPE_DEPTH), (tree_last_spec tt ROPE_DEPTH) by done.
  cbn [mbind outcome_bind]. pose proof (room_of _ _ Hdr Hdo Hs) as Hroom.
  assert (Hplain : Forall thick (rope_items r) ∨ rope_items o = [] →
    ok_with (t ← SumTree.append tt (chunks r) (chunks o); Ok (mkRope t))
      (fun r' => rope_wf r' ∧ rope_text r' = rope_text r ++ rope_text o)).
  { intros Ht. ok_bind (append_spec tt ROPE_DEPTH); [done|done|by apply room_fits|]. intros t [Hw Hi].
    cbn [ok_with]. unfold rope_text. cbn [chunks]. rewrite Hi, concat_app. split; [|done].
    split; cbn [chunks]; rewrite ?Hi; [done|by apply Forall_app|]. destruct Ht as [Ht| ->].
    - by apply dense_app.
    - by rewrite app_nil_r. }
  destruct (rope_items o) as [|c rest] eqn:Eo; cbn [head]; [apply Hplain; by right|].
  apply Forall_cons in Hgo as [Hgc Hgrest].
  destruct (_ || _) eqn:Ecase.
  - assert (Eot : rope_text o = c ++ concat rest) by (unfold rope_text; by rewrite Eo).
    rewrite Eot in *. rewrite app_assoc in Hs. pose proof (small_app _ _ Hs) as [Hs1 _].
    ok_bind (push_chunk_spec r c); [done|apply Hgc|done|]. intros r1 (Hr1 & Ht1 & Hthick1).
    assert (Hheight : (N.to_nat (height (chunks o)) < STACK_CAPACITY)%nat).
    { apply room_height; [done|]. rewrite Eo. rewrite length_app in Hroom. lia. }
    ok_bind (cursor_next_fresh tt ROPE_DEPTH); [done|done|done|]. intros c1 [Et1 Hc1]. cbn [c_tree cursor_new] in *.
    rewrite Eo in Hc1. ok_bind (cursor_next_at tt ROPE_DEPTH); [by rewrite Et1|by rewrite Et1|exact Hc1|].
    intros c2 [Et2 Hc2]. cbn [app take drop] in Hc2. rewrite take_0, drop_0 in Hc2.
    ok_bind (cursor_suffix_spec tt ROPE_DEPTH); [by rewrite Et2, Et1|by rewrite Et2, Et1|by right| |].
    { rewrite Et2, Et1, Eo. apply room_fits. rewrite length_app in Hroom. lia. }
    intros [c3 suf] (_ & _ & Hwsuf & Hisuf). cbn [fst snd] in *.
    assert (Hd1 : dense rest) by (destruct rest; [constructor|by eapply dense_cons]).
    ok_bind (append_spec tt ROPE_DEPTH); [apply Hr1|done| |].
    { rewrite Hisuf. apply room_fits, room_of; [apply Hr1|done|]. fold (rope_text r1). by rewrite Ht1. }
    intros t [Hw Hi]. cbn [ok_with]. unfold rope_text at 1. cbn [chunks]. rewrite Hi, Hisuf, concat_app.
    fold (rope_text r1). rewrite Ht1, app_assoc. split; [|done].
    split; cbn [chunks]; rewrite ?Hi, ?Hisuf; [done|apply Forall_app; split; [apply Hr1|done]|].
    destruct (decide (rest = [])) as [->|Hne]; [rewrite app_nil_r; apply Hr1|].
    apply dense_app; [|done]. apply Hthick1. by eapply dense_cons.
  - apply Hplain. left. apply orb_false_iff in Ecase as [Elast _].
    destruct (snoc_case (rope_items r)) as [->|(l & x & E)]; [constructor|]. rewrite E, last_snoc in *.
    destruct (items_snoc r l x Hr E) as (_ & _ & Htl). apply Forall_app. split; [done|]. constructor; [|done].
    change (str_len (api_text x)) with (byte_len x) in Elast. apply N.ltb_ge in Elast. unfold thick. lia.
Qed.

(** Appending a rope concatenates the texts and keeps the invariant: every chunk but the
    last stays at least 61 bytes long, whether or not the chunks that meet are merged. *)
Theorem rope_append_correct r o :
  rope_wf r → rope_wf o → small (rope_text r ++ rope_text o) →
  ∃ r', rope_append (Sl:=list N) r o = Ok r' ∧ rope_wf r' ∧ rope_text r' = rope_text r ++ rope_text o.
Proof. intros Hr Ho Hs. by apply ok_with_inv, rope_append_spec. Qed.

(** A rope for the witnesses. *)
Definition ex_text : list N := [97; 233; NEWLINE; 119987].
Lemma ex_text_ok : Forall char_ok ex_text.
Proof. repeat constructor; unfold char_ok, NEWLINE; lia. Qed.
Lemma ex_rope : ∃ r, rope_from (C:=list N) (Sl:=list N) (Sm:=list N) (str_of ex_text) = Ok r ∧ rope_wf r ∧ rope_text r = ex_text.
Proof. apply ok_with_inv, (rope_push_spec rope_new); [apply rope_new_wf|apply ex_text_ok|by vm_compute]. Qed.

Lemma rope_append_correct_witness :
  ∃ r r', rope_append (Sl:=list N) r r = Ok r' ∧ rope_wf r' ∧ rope_text r' = ex_text ++ ex_text.
Proof.
  destruct ex_rope as (r & _ & Hr & Et). exists r. rewrite <-Et.
  apply (rope_append_correct r r Hr Hr). rewrite Et. by vm_compute.
Defined.

(** ** [push_front] *)
Lemma sum_items (its : list (list N)) : sum tt (item_summary_of tt <$> its) = concat its.
Proof.
  assert (E : ∀ l a, foldl (add_summary tt) a (item_summary_of tt <$> l) = a ++ concat l).
  { induction l as [|x l IH]; intros a; cbn; [by rewrite app_nil_r|]. rewrite IH. by rewrite <-app_assoc. }
  apply (E its []).
Qed.

(** The summary at the root is the one of the whole text. *)
Lemma summary_of_text r : rope_wf r → summary (chunks r) = rope_text r.
Proof. intros [Ht _ _]. by rewrite (tree_wf_summary tt ROPE_DEPTH), sum_items. Qed.

Lemma ts_len_from cs : ts_len (text_summary_from cs) = byte_len cs.
Proof.
  assert (El : ∀ cs s, ts_len (foldl summary_char s cs) = ts_len s).
  { clear. induction cs as [|c cs IH]; intros s; [done|]. cbn [foldl]. rewrite IH. unfold summary_char.
    by repeat case_match. }
  apply El.
Qed.

Lemma rope_len_of r : rope_wf r → rope_len (C:=list N) (Sl:=list N) r = byte_len (rope_text r).
Proof.
  intros Hr. unfold rope_len, extent. cbn [dim_add_summary dim_zero usize_dim usize_dimension api_summary_text spec_api].
  by rewrite summary_of_text, ts_len_from.
Qed.

Lemma good_text its : Forall good its → concat its = [] → its = [].
Proof. destruct its as [|x its]; [done|]. intros H E. apply Forall_cons in H as [[_ Hx] _]. cbn in E. by destruct x. Qed.

Lemma push_front_spec r cs :
  rope_wf r → Forall char_ok cs → small (cs ++ rope_text r) →
  ok_with (push_front (Sl:=list N) r (str_of cs)) (fun r' => rope_wf r' ∧ rope_text r' = cs ++ rope_text r).
Proof.
  intros Hr Hcs Hs. pose proof (small_app _ _ Hs) as [Hsc Hsr]. unfold push_front. case_bool_decide as Ec.
  { apply str_of_nil in Ec as ->. done. }
  assert (Hfront : ok_with (front ← rope_from (C:=list N) (Sl:=list N) (Sm:=list N) (str_of cs); rope_append (Sl:=list N) front r)
    (fun r' => rope_wf r' ∧ rope_text r' = cs ++ rope_text r)).
  { unfold rope_from. ok_bind (rope_push_spec rope_new cs); [apply rope_new_wf|done|done|].
    intros f [Hf Et]. change (rope_text rope_new) with (@nil N) in Et. cbn [app] in Et. rewrite <-Et.
    apply rope_append_spec; [done|done|by rewrite Et]. }
  unfold rope_is_empty. rewrite rope_len_of by done. destruct (N.eqb_spec (byte_len (rope_text r)) 0) as [E|E].
  - apply byte_len_zero in E. rewrite E, app_nil_r. eapply ok_with_mono; [apply rope_push_spec; try done; by rewrite E|].
    intros r' [? Et]. by rewrite E in Et.
  - pose proof Hr as [Ht Hg Hd]. rewrite (tree_first_spec tt ROPE_DEPTH) by done. cbn [mbind outcome_bind].
    destruct (rope_items r) as [|x rest] eqn:Ei; [exact Hfront|]. cbn [head].
    change (str_len (api_text x)) with (byte_len x). change (str_len (str_of cs)) with (byte_len cs).
    destruct (N.leb_spec (byte_len x + byte_len cs) MAX_BASE) as [Hle|]; [|exact Hfront].
    apply Forall_cons in Hg as [[[Hx _] Hxne] Hg].
    assert (Hfx : fits (cs ++ x)) by (split; [by apply Forall_app|rewrite byte_len_app; lia]).
    rewrite spec_prepend_of by done. cbn [mbind outcome_bind].
    destruct Ht as [En|(h & Hh & Ht)]; [by rewrite En in Ei|].
    destruct (ok_with_inv _ _ (update_first_at tt ROPE_DEPTH (fun _ => cs ++ x) h _ x rest Ht Ei)) as ([t o] & Eu & Hw & _ & Hi & _).
    unfold update_first. rewrite Eu. cbn. cbn [fst snd] in *. unfold rope_text. cbn [chunks]. rewrite Hi, Ei. cbn [concat].
    rewrite app_assoc. split; [|done]. split; cbn [chunks]; rewrite ?Hi.
    + right. by exists h.
    + constructor; [split; [done|by destruct cs]|done].
    + unfold dense in *. destruct rest as [|y rest]; [constructor|]. apply Forall_cons in Hd as [Hd1 Hd2].
      constructor; [|done]. unfold thick in *. rewrite byte_len_app. lia.
Qed.

(** [push_front] puts a text before a rope's, into the first chunk when it fits, and keeps
    the rope well-formed. *)
Theorem push_front_correct r cs :
  rope_wf r → Forall char_ok cs → small (cs ++ rope_text r) →
  ∃ r', push_front (Sl:=list N) r (str_of cs) = Ok r' ∧ rope_wf r' ∧ rope_text r' = cs ++ rope_text r.
Proof. intros Hr Hcs Hs. by apply ok_with_inv, push_front_spec. Qed.

Lemma push_front_correct_witness :
  ∃ r r', push_front (Sl:=list N) r (str_of ex_text) = Ok r' ∧ rope_wf r' ∧ rope_text r' = ex_text ++ ex_text.
Proof.
  destruct ex_rope as (r & _ & Hr & Et). exists r.
  pose proof (push_front_correct r ex_text Hr ex_text_ok) as H. rewrite Et in H. apply H. by vm_compute.
Defined.
