(* ===== verification/RopeSlices.v ===== *)
(** * Slicing ropes

    The rope cursor stands at a byte offset, within the chunk its tree cursor is at.  Moving
    it and slicing up to an offset are cutting the text: [slice], [suffix] and [replace]
    return well-formed ropes of exactly the characters asked for. *)

From S2P Require Import Prelude Ord SumTree SumTreeFacts SeekSpec Cursor CursorFacts SeekFacts Patch Bitmap Utf8 Point TextSummary Chunk ChunkFacts Rope RopeFacts.
Local Open Scope N_scope.

#[export] Existing Instance usize_dim.

(** ** Byte offsets as positions in the tree *)
#[export] Instance usize_dim_laws : DimensionLaws N (Sm:=list N) tt.
Proof.
  intros d a b. cbn [dim_add_summary usize_dim usize_dimension api_summary_text spec_api add_summary spec_Summary].
  rewrite !ts_len_from, byte_len_app. lia.
Qed.

Lemma usize_item_end pos x : item_end (D:=N) (Sm:=list N) tt pos x = pos + byte_len x.
Proof. unfold item_end. cbn [dim_add_summary usize_dim usize_dimension api_summary_text spec_api]. by rewrite ts_len_from. Qed.

Lemma usize_dims pos its : dim_items (D:=N) (Sm:=list N) tt pos its = pos + byte_len (concat its).
Proof.
  revert pos. induction its as [|x its IH]; intros pos; [change (pos = pos + 0); lia|].
  change (dim_items tt pos (x :: its)) with (dim_items (Sm:=list N) tt (item_end tt pos x) its).
  rewrite IH, usize_item_end, byte_len_concat_cons. lia.
Qed.

Lemma usize_past o bias pos : past (D:=N) tt o bias pos = match bias with Left => pos <? o | Right => pos <=? o end.
Proof.
  unfold past, target_cmp, N_target, ord_target, cmp, N_ord.
  destruct (N.compare_spec o pos) as [->|H|H], bias; cbn; symmetry;
    first [apply N.ltb_ge|apply N.leb_le|apply N.leb_gt|apply N.ltb_lt]; lia.
Qed.

Lemma usize_ends_ge pos its e : e ∈ ends (D:=N) (Sm:=list N) tt pos its → pos <= e.
Proof.
  revert pos. induction its as [|x its IH]; intros pos; cbn [ends]; [by intros ?%not_elem_of_nil|].
  rewrite elem_of_cons, usize_item_end. intros [->|H%IH]; lia.
Qed.

Lemma usize_seekable o bias pos its : seekable (D:=N) (Sm:=list N) tt o bias pos its.
Proof.
  unfold seekable. revert pos. induction its as [|x its IH]; intros pos; cbn [ends]; constructor; [apply IH|].
  apply Forall_forall. intros e He%usize_ends_ge. rewrite !usize_past, !usize_item_end in *.
  destruct bias; [rewrite !N.ltb_lt|rewrite !N.leb_le]; lia.
Qed.

Lemma usize_ge o pos : pos <= o → is_ge (target_cmp (D:=N) tt o pos) = true.
Proof.
  intros H. unfold target_cmp, N_target, ord_target, cmp, N_ord. destruct (N.compare_spec o pos); [done|lia|done].
Qed.

(** Where a seek to [o] stops. *)
Lemma usize_scan bias pos its l rest o :
  scan (D:=N) (Sm:=list N) tt o bias pos its = (dim_items tt pos l, rest) → its = l ++ rest → pos <= o →
  pos + byte_len (concat l) <= o
  ∧ ∀ y r, rest = y :: r →
      match bias with Left => o <= pos + byte_len (concat l) + byte_len y | Right => o < pos + byte_len (concat l) + byte_len y end.
Proof.
  intros Hsc Hi Hpos. destruct (scan_split tt o bias pos its) as (pre & Hp & Hd & Hf & Hx).
  rewrite Hsc in *. cbn [fst snd] in *. assert (pre = l) as -> by (rewrite Hi in Hp; by apply app_inv_tail in Hp).
  split.
  - destruct (snoc_case l) as [->|(l' & x & ->)]; [change (pos + 0 <= o); lia|]. rewrite <-usize_dims.
    assert (Hl : past tt o bias (dim_items (D:=N) (Sm:=list N) tt pos (l' ++ [x])) = true).
    { rewrite Forall_forall in Hf. apply Hf, last_Some_elem_of. apply ends_last. }
    rewrite usize_past in Hl. destruct bias; [apply N.ltb_lt in Hl; lia|by apply N.leb_le in Hl].
  - intros y r ->. specialize (Hx y r eq_refl). rewrite usize_item_end, usize_dims, usize_past in Hx.
    destruct bias; [by apply N.ltb_ge in Hx|by apply N.leb_gt in Hx].
Qed.

(** ** The cursor *)
(** The cursor splits the text into [p] and [q]; its offset may be at the end of the chunk it
    stands on. *)
Definition rc_at (r : srope) (c : RopeCursor (C:=list N) (Sm:=list N)) (p q : list N) : Prop :=
  rc_rope c = r ∧ rc_offset c = byte_len p ∧ c_tree (rc_chunks c) = chunks r ∧
  ∃ before after, cursor_at tt ROPE_DEPTH (rc_chunks c) before after ∧
    match after with
    | [] => p = concat before ∧ q = []
    | x :: rest => ∃ x1 x2, x = x1 ++ x2 ∧ p = concat before ++ x1 ∧ q = x2 ++ concat rest
    end.

Lemma prefix_unique (p q p' q' : list N) : p ++ q = p' ++ q' → byte_len p = byte_len p' → p = p' ∧ q = q'.
Proof.
  intros E Hl. apply app_eq_inv in E as [(k & -> & ->)|(k & -> & ->)]; rewrite byte_len_app in Hl;
    assert (k = []) as -> by (apply byte_len_zero; lia); by rewrite ?app_nil_r.
Qed.

Lemma prefix_split (p q p' q' : list N) : p ++ q = p' ++ q' → byte_len p <= byte_len p' → ∃ k, p' = p ++ k ∧ q = k ++ q'.
Proof.
  intros E Hl. apply app_eq_inv in E as [(k & -> & ->)|(k & -> & ->)]; [|by exists k].
  rewrite byte_len_app in Hl. assert (k = []) as -> by (apply byte_len_zero; lia). exists []. by rewrite !app_nil_r.
Qed.

(** A stop of the tree cursor gives a position of the rope cursor. *)
Lemma rc_of_stop r c p q before after :
  rope_wf r → c_tree c = chunks r → cursor_at tt ROPE_DEPTH c before after → rope_text r = p ++ q →
  byte_len (concat before) <= byte_len p →
  (∀ y rest, after = y :: rest → byte_len p <= byte_len (concat before) + byte_len y) →
  rc_at r (mkRopeCursor r c (byte_len p)) p q.
Proof.
  intros Hr Ht Hat Htext Hle Hin. split_and!; try done. exists before, after. split; [done|].
  pose proof Hat as (_ & Hi & _). cbn [rc_chunks] in Hi. rewrite Ht in Hi. unfold rope_text in Htext. rewrite Hi, concat_app in Htext.
  destruct after as [|x rest].
  - destruct (prefix_split (concat before) [] p q) as (k & -> & Ek); [done|done|].
    by destruct k, q; rewrite ?app_nil_r.
  - destruct (prefix_split _ _ _ _ Htext Hle) as (x1 & -> & Ek). cbn [concat] in Ek.
    specialize (Hin x rest eq_refl). rewrite byte_len_app in Hin.
    destruct (prefix_split x1 q x (concat rest)) as (x2 & -> & Eq); [done|lia|]. by exists x1, x2.
Qed.

Lemma rc_seek r c before after p q :
  rope_wf r → small (rope_text r) → c_tree c = chunks r → seek_ready (D:=N) tt ROPE_DEPTH c before after →
  rope_text r = p ++ q → byte_len (concat before) <= byte_len p →
  ok_with (cursor_seek_forward tt (byte_len p) Right c) (fun x => rc_at r (mkRopeCursor r x.1 (byte_len p)) p q).
Proof.
  intros Hr Hs Et Hready Htext Hle. pose proof (room_self r Hr Hs) as Hroom.
  eapply ok_with_mono.
  { apply (cursor_seek_forward_spec tt ROPE_DEPTH (byte_len p) Right c before after); rewrite ?Et;
      [apply Hr|by apply room_height; [apply Hr|]|done|rewrite usize_dims; apply usize_ge; cbn [dim_zero usize_dim usize_dimension]; lia|apply usize_seekable]. }
  intros [c' b] (l & rest & (Et' & Ha & Hsc & Hat) & _). cbn [fst] in *.
  assert (Hd : dim_items (D:=N) (Sm:=list N) tt (dim_zero (Sm:=list N) tt) before = byte_len (concat before)) by apply usize_dims.
  rewrite dim_items_app in Hsc. destruct (usize_scan _ _ _ _ _ _ Hsc Ha) as [H1 H2]; [by rewrite Hd|]. rewrite Hd in H1, H2.
  eapply rc_of_stop; [done|by rewrite Et'|exact Hat|done|rewrite concat_app, byte_len_app; lia|].
  intros y rest' E. specialize (H2 y rest' E). cbn beta iota in H2. rewrite concat_app, byte_len_app. lia.
Qed.

(** A new cursor, and one moved forward. *)
Lemma rope_cursor_spec r p q :
  rope_wf r → small (rope_text r) → rope_text r = p ++ q →
  ok_with (rope_cursor (Sl:=list N) r (byte_len p)) (fun c => rc_at r c p q).
Proof.
  intros Hr Hs Htext. unfold rope_cursor, cursor_seek. ok_bind (rc_seek r).
  - done.
  - done.
  - done.
  - apply cursor_reset_ready.
  - exact Htext.
  - change (byte_len (concat [])) with 0. lia.
  - intros [c b] H. exact H.
Qed.

Lemma rc_before r c p q : rc_at r c p q → ∃ before after,
  cursor_at tt ROPE_DEPTH (rc_chunks c) before after ∧ byte_len (concat before) <= byte_len p.
Proof.
  intros (_ & _ & _ & before & after & Hat & H). exists before, after. split; [done|].
  destruct after as [|x rest]; [by destruct H as [-> _]|]. destruct H as (x1 & x2 & _ & -> & _). rewrite byte_len_app. lia.
Qed.

Lemma rc_text r c p q : rc_at r c p q → rope_text r = p ++ q.
Proof.
  intros (_ & _ & Et & before & after & (_ & Hi & _) & H). unfold rope_text. rewrite <-Et, Hi, concat_app.
  destruct after as [|x rest]; [by destruct H as [-> ->]|]. destruct H as (x1 & x2 & -> & -> & ->).
  cbn [concat]. by rewrite <-!app_assoc.
Qed.

(** The assertions of [seek_forward] and [slice]. *)
Lemma rc_asserts r c p m q :
  rope_wf r → rc_at r c p (m ++ q) →
  (rc_offset c <=? byte_len (p ++ m)) = true ∧ (byte_len (p ++ m) <=? rope_len (C:=list N) (Sl:=list N) (rc_rope c)) = true.
Proof.
  intros Hr Hc. pose proof (rc_text _ _ _ _ Hc) as Ht. destruct Hc as (Er & Eo & _).
  rewrite Er, Eo, rope_len_of, Ht, !byte_len_app by done. split; apply N.leb_le; lia.
Qed.

Lemma rope_seek_forward_spec r c p m q :
  rope_wf r → small (rope_text r) → rc_at r c p (m ++ q) →
  ok_with (rope_seek_forward (Sl:=list N) c (byte_len (p ++ m))) (fun c' => rc_at r c' (p ++ m) q).
Proof.
  intros Hr Hs Hc. unfold rope_seek_forward. destruct (rc_asserts r c p m q Hr Hc) as [-> ->].
  cbn [assert_that mbind outcome_bind]. destruct (rc_before _ _ _ _ Hc) as (before & after & Hat & Hle).
  pose proof (rc_text _ _ _ _ Hc) as Ht. destruct Hc as (Er & Eo & Et & _). rewrite Er.
  ok_bind (rc_seek r (rc_chunks c) before after (p ++ m) q); [done..|by right|by rewrite <-app_assoc|rewrite byte_len_app; lia|].
  intros [c' b] H. exact H.
Qed.

(** ** Slicing *)
Lemma dense_prefix l b : dense (l ++ b) → dense l.
Proof.
  unfold dense. destruct (snoc_case b) as [->|(b' & y & ->)]; [by rewrite app_nil_r|].
  rewrite app_assoc, removelast_last. intros [Hl _]%Forall_app. destruct (snoc_case l) as [->|(l' & x & ->)]; [done|].
  rewrite removelast_last. by apply Forall_app in Hl as [? _].
Qed.
Lemma dense_suffix a l : dense (a ++ l) → dense l.
Proof.
  induction a as [|x a IH]; [done|]. intros H. destruct (decide (a ++ l = [])) as [E|E].
  - apply app_nil in E as [_ ->]. constructor.
  - apply IH. by eapply dense_cons.
Qed.

Lemma infix_wf r t a l b :
  rope_wf r → rope_items r = a ++ l ++ b → tree_wf tt ROPE_DEPTH t → tree_items t = l → rope_wf (mkRope t).
Proof.
  intros [_ Hg Hd] E Ht Hi. rewrite E in Hg, Hd. split; cbn [chunks]; rewrite ?Hi; [done| |].
  - apply Forall_app in Hg as [_ Hg]. by apply Forall_app in Hg as [? _].
  - by eapply dense_prefix, dense_suffix.
Qed.

(** A piece of a chunk is pushed onto a rope. *)
Lemma push_piece s x p m k :
  rope_wf s → fits x → x = p ++ m ++ k → small (rope_text s ++ m) →
  ok_with (sl ← api_slice (C:=list N) (Sl:=list N) (Sm:=list N) x (mkRange (byte_len p) (byte_len (p ++ m))); push_chunk (C:=list N) s sl)
    (fun s' => rope_wf s' ∧ rope_text s' = rope_text s ++ m).
Proof.
  intros Hs Hf -> Hsm. rewrite spec_slice_of by done. cbn [mbind outcome_bind]. eapply ok_with_mono.
  - apply push_chunk_spec; [done| |done]. by apply fits_app in Hf as [_ [? _]%fits_app].
  - by intros s' (? & ? & _).
Qed.

(** The rest of a slice that reaches beyond the first chunk. *)
Lemma slice_beyond r c s before rest m q p0 :
  rope_wf r → small (rope_text r) → rope_wf s → small (rope_text s ++ m) →
  c_tree c = chunks r → cursor_at tt ROPE_DEPTH c before rest → p0 = concat before → concat rest = m ++ q →
  ok_with ('(c, t) ← cursor_slice tt (byte_len (p0 ++ m)) Right c;
           slice ← rope_append (Sl:=list N) s (mkRope t);
           item ← cursor_item c;
           slice ← match item with
                   | Some end_chunk =>
                       let end_ix := usize_sub (byte_len (p0 ++ m)) (cursor_start c) in
                       sl ← api_slice (C:=list N) (Sl:=list N) (Sm:=list N) end_chunk (mkRange 0 end_ix);
                       push_chunk (C:=list N) slice sl
                   | None => Ok slice
                   end;
           Ok (mkRopeCursor r c (byte_len (p0 ++ m)), slice))
    (fun x => rc_at r x.1 (p0 ++ m) q ∧ rope_wf x.2 ∧ rope_text x.2 = rope_text s ++ m).
Proof.
  intros Hr Hs Hws Hss Et Hat -> Er. pose proof (room_self r Hr Hs) as Hroom.
  pose proof Hat as (_ & Hi & _). rewrite Et in Hi.
  assert (Hd : dim_items (D:=N) (Sm:=list N) tt (dim_zero (Sm:=list N) tt) before = byte_len (concat before)) by apply usize_dims.
  ok_bind (cursor_slice_spec tt ROPE_DEPTH (byte_len (concat before ++ m)) Right c before rest); rewrite ?Et;
    [apply Hr|by apply room_height; [apply Hr|]|by right|rewrite Hd; apply usize_ge; rewrite byte_len_app; lia|apply usize_seekable|by apply room_fits|].
  intros [c' t] (l & rest2 & (Et' & Ha & Hsc & Hat') & Hwt & Hit). cbn [fst snd] in *.
  rewrite dim_items_app in Hsc. destruct (usize_scan _ _ _ _ _ _ Hsc Ha) as [H1 H2]; [rewrite Hd, byte_len_app; lia|].
  rewrite Hd, byte_len_app in H1. subst rest. rewrite concat_app in Er.
  destruct (prefix_split _ _ _ _ Er ltac:(lia)) as (k & -> & Ek). rewrite app_assoc in Hss.
  pose proof (small_app _ _ Hss) as [Hss' _].
  ok_bind (rope_append_spec s (mkRope t)); [done| |unfold rope_text at 2; cbn [chunks]; by rewrite Hit|].
  { eapply (infix_wf r t before l rest2); by rewrite ?Hit. }
  intros s2 [Hw2 Ht2]. unfold rope_text at 3 in Ht2. cbn [chunks] in Ht2. rewrite Hit in Ht2.
  rewrite (cursor_item_spec _ _ _ _ _ Hat'). cbn [mbind outcome_bind].
  assert (Hstop : rc_at r (mkRopeCursor r c' (byte_len (concat before ++ concat l ++ k))) (concat before ++ concat l ++ k) q).
  { eapply rc_of_stop; [done|by rewrite Et', Et|exact Hat'| |rewrite concat_app, !byte_len_app; lia|].
    - unfold rope_text. by rewrite Hi, !concat_app, Ek, <-!app_assoc.
    - intros y r' E. specialize (H2 y r' E). cbn beta iota in H2. rewrite Hd, !byte_len_app in H2. rewrite concat_app, !byte_len_app. lia. }
  destruct rest2 as [|y rest3]; cbn [head].
  - cbn [mbind outcome_bind ok_with fst snd]. split_and!; [done|done|]. rewrite Ht2.
    cbn [concat] in Ek. symmetry in Ek. apply app_nil in Ek as [-> _]. by rewrite app_nil_r.
  - specialize (H2 y rest3 eq_refl). cbn beta iota in H2. rewrite Hd, !byte_len_app in H2. cbn [concat] in Ek.
    destruct (prefix_split k q y (concat rest3) (eq_sym Ek) ltac:(lia)) as (k2 & Ey & _).
    assert (Hcs : cursor_start c' = byte_len (concat before ++ concat l)).
    { destruct Hat' as (_ & _ & Hp & _). unfold cursor_start. rewrite Hp.
      change (dim_zero tt) with 0. by rewrite usize_dims, concat_app. }
    assert (Hfy : fits y).
    { pose proof (rw_good r Hr) as Hg. rewrite Hi in Hg. apply Forall_app in Hg as [_ Hg]. apply Forall_app in Hg as [_ Hg].
      apply Forall_cons in Hg as [[? _] _]. done. }
    rewrite Hcs. cbn zeta. rewrite app_assoc, usize_sub_exact.
    + replace (byte_len ((concat before ++ concat l) ++ k) - byte_len (concat before ++ concat l)) with (byte_len ([] ++ k))
        by (rewrite (byte_len_app (_ ++ _)); cbn [app]; lia).
      ok_bind (push_piece s2 y [] k k2); [done|done|done| |].
      { rewrite Ht2, <-app_assoc. by rewrite <-app_assoc in Hss. }
      intros s3 [Hw3 Ht3]. cbn [ok_with fst snd]. split_and!; [by rewrite app_assoc in Hstop|done|].
      by rewrite Ht3, Ht2, <-!app_assoc.
    + rewrite (byte_len_app (_ ++ _)). split; [lia|]. apply small_u64 in Hs. unfold rope_text in Hs.
      rewrite Hi, !concat_app in Hs. cbn [concat] in Hs. rewrite Ek, !byte_len_app in Hs. rewrite byte_len_app. lia.
Qed.

Lemma rope_cursor_slice_spec r c p m q :
  rope_wf r → small (rope_text r) → rc_at r c p (m ++ q) →
  ok_with (rope_cursor_slice (Sl:=list N) c (byte_len (p ++ m)))
    (fun x => rc_at r x.1 (p ++ m) q ∧ rope_wf x.2 ∧ rope_text x.2 = m).
Proof.
  intros Hr Hs Hc. unfold rope_cursor_slice. destruct (rc_asserts r c p m q Hr Hc) as [-> ->].
  cbn [assert_that mbind outcome_bind]. pose proof (rc_text _ _ _ _ Hc) as Ht. pose proof (small_u64 _ Hs) as H64.
  rewrite Ht in Hs, H64. pose proof Hs as Hsm. rewrite app_assoc in Hsm. apply small_app in Hsm as [Hsm _].
  apply small_app in Hsm as [_ Hsm]. destruct Hc as (Er & Eo & Et & before & after & Hat & Hpos). rewrite Er, Eo.
  assert (Hd : ∀ l, dim_items (D:=N) (Sm:=list N) tt (dim_zero (Sm:=list N) tt) l = byte_len (concat l)) by (intros; apply usize_dims).
  rewrite (cursor_item_spec _ _ _ _ _ Hat), (cursor_end_spec _ _ _ _ _ Hat). cbn [mbind outcome_bind].
  destruct after as [|x rest]; cbn [head].
  - destruct Hpos as [-> [-> ->]%app_nil]. rewrite Hd, app_nil_r, N.ltb_irrefl.
    cbn [mbind outcome_bind ok_with fst snd]. split_and!; [|apply rope_new_wf|done].
    split_and!; [done|done|done|]. by exists before, [].
  - destruct Hpos as (x1 & x2 & Ex & -> & Emq).
    assert (Hcs : cursor_start (rc_chunks c) = byte_len (concat before)).
    { destruct Hat as (_ & _ & Hp & _). unfold cursor_start. by rewrite Hp, Hd. }
    assert (Hfx : fits x).
    { pose proof Hat as (_ & Hi & _). pose proof (rw_good r Hr) as Hg. rewrite <-Et, Hi in Hg.
      apply Forall_app in Hg as [_ Hg]. by apply Forall_cons in Hg as [[? _] _]. }
    rewrite Hcs, Hd, concat_app. cbn [concat]. rewrite app_nil_r. cbn zeta.
    assert (Hstart : usize_sub (byte_len (concat before ++ x1)) (byte_len (concat before)) = byte_len x1).
    { rewrite usize_sub_exact; rewrite !byte_len_app in *; lia. }
    rewrite Hstart. destruct (N.le_gt_cases (byte_len m) (byte_len x2)) as [Hle|Hgt].
    + destruct (prefix_split _ _ _ _ Emq Hle) as (k & -> & Eq).
      assert (Hend : usize_sub (N.min (byte_len ((concat before ++ x1) ++ m)) (byte_len (concat before ++ x))) (byte_len (concat before))
        = byte_len (x1 ++ m)).
      { rewrite N.min_l by (rewrite Ex, !byte_len_app; lia). rewrite usize_sub_exact; rewrite !byte_len_app in *; lia. }
      rewrite Hend. ok_bind (push_piece rope_new x x1 m k); [apply rope_new_wf|done|done|done|].
      intros s [Hws Hts]. rewrite (proj2 (N.ltb_ge _ _)) by (rewrite Ex, !byte_len_app; lia).
      cbn [ok_with fst snd]. split_and!; [|done|done]. split_and!; [done|done|done|]. exists before, (x :: rest). split; [done|].
      exists (x1 ++ m), k. by rewrite <-!app_assoc.
    + destruct (prefix_split _ _ _ _ (eq_sym Emq) ltac:(lia)) as (m' & -> & Em).
      assert (Hend : usize_sub (N.min (byte_len ((concat before ++ x1) ++ x2 ++ m')) (byte_len (concat before ++ x))) (byte_len (concat before))
        = byte_len (x1 ++ x2)).
      { rewrite N.min_r by (rewrite Ex, !byte_len_app; lia). rewrite Ex, usize_sub_exact; rewrite !byte_len_app in *; lia. }
      rewrite Hend. ok_bind (push_piece rope_new x x1 x2 []); [apply rope_new_wf|done|by rewrite app_nil_r|by apply small_app in Hsm as [? _]|].
      intros s [Hws Hts]. change (rope_text rope_new) with (@nil N) in Hts. cbn [app] in Hts.
      rewrite (proj2 (N.ltb_lt _ _)) by (rewrite Ex; rewrite !byte_len_app in *; lia).
      assert (Ep : (concat before ++ x1) ++ x2 ++ m' = (concat before ++ x) ++ m') by (by rewrite Ex, <-!app_assoc).
      rewrite Ep. pose proof (room_self r Hr) as Hroom. rewrite Ht in Hroom. specialize (Hroom Hs).
      ok_bind (cursor_next_at (D:=N) tt ROPE_DEPTH (rc_chunks c) before (x :: rest)); [rewrite Et; apply Hr|rewrite Et; apply room_height; [apply Hr|done]|exact Hat|].
      intros c2 [Et2 Hat2]. cbn [take drop] in Hat2. rewrite take_0, drop_0 in Hat2.
      eapply ok_with_mono; [eapply (slice_beyond r c2 s (before ++ [x]) rest m' q); try done|].
      * by rewrite Ht.
      * by rewrite Hts.
      * by rewrite Et2.
      * rewrite concat_app. cbn [concat]. by rewrite app_nil_r.
      * intros [c3 s3]. cbn [fst snd]. by rewrite Hts.
Qed.

Lemma rope_cursor_suffix_spec r c p q :
  rope_wf r → small (rope_text r) → rc_at r c p q →
  ok_with (rope_cursor_suffix (Sl:=list N) c) (fun s => rope_wf s ∧ rope_text s = q).
Proof.
  intros Hr Hs Hc. unfold rope_cursor_suffix. pose proof (rc_text _ _ _ _ Hc) as Ht. pose proof Hc as (Er & _).
  change (extent tt (chunks (rc_rope c))) with (rope_len (C:=list N) (Sl:=list N) (rc_rope c)).
  rewrite Er, rope_len_of, Ht by done. ok_bind (rope_cursor_slice_spec r c p q []); [done..|by rewrite app_nil_r|].
  intros [c' s] (_ & ? & ?). done.
Qed.

Lemma rope_slice_spec r p m q :
  rope_wf r → small (rope_text r) → rope_text r = p ++ m ++ q →
  ok_with (rope_slice (Sl:=list N) r (mkRange (byte_len p) (byte_len (p ++ m)))) (fun s => rope_wf s ∧ rope_text s = m).
Proof.
  intros Hr Hs Ht. unfold rope_slice. cbn [r_start r_end].
  ok_bind (rope_cursor_spec r [] (p ++ m ++ q)); [done..|]. intros c Hc.
  ok_bind (rope_seek_forward_spec r c [] p (m ++ q)); [done..|]. intros c2 Hc2.
  ok_bind (rope_cursor_slice_spec r c2 p m q); [done..|]. intros [c3 s] (_ & ? & ?). done.
Qed.

Lemma rope_replace_spec r p m q new :
  rope_wf r → small (rope_text r) → rope_text r = p ++ m ++ q → Forall char_ok new → small (p ++ new ++ q) →
  ok_with (rope_replace (Sl:=list N) r (mkRange (byte_len p) (byte_len (p ++ m))) (str_of new))
    (fun r' => rope_wf r' ∧ rope_text r' = p ++ new ++ q).
Proof.
  intros Hr Hs Ht Hnew Hsm. unfold rope_replace. cbn [r_start r_end]. pose proof (small_app _ _ Hsm) as [Hsp _].
  rewrite app_assoc in Hsm. pose proof (small_app _ _ Hsm) as [Hspn _].
  ok_bind (rope_cursor_spec r [] (p ++ m ++ q)); [done..|]. intros c Hc.
  ok_bind (rope_cursor_slice_spec r c [] p (m ++ q)); [done..|]. intros [c2 s] (Hc2 & Hws & Hts). cbn [fst snd app] in *.
  ok_bind (rope_append_spec rope_new s); [apply rope_new_wf|done|by rewrite Hts|]. intros s2 [Hws2 Hts2].
  change (rope_text rope_new) with (@nil N) in Hts2. cbn [app] in Hts2. rewrite Hts in Hts2.
  ok_bind (rope_seek_forward_spec r c2 p m q); [done..|]. intros c3 Hc3.
  ok_bind (rope_push_spec s2 new); [done|done|by rewrite Hts2|]. intros s3 [Hws3 Hts3]. rewrite Hts2 in Hts3.
  ok_bind (rope_cursor_suffix_spec r c3 (p ++ m) q); [done..|]. intros s4 [Hws4 Hts4].
  rewrite <-Hts4, app_assoc, <-Hts3. apply rope_append_spec; [done|done|by rewrite Hts3, Hts4].
Qed.

(** [slice] between two character boundaries returns a well-formed rope of exactly the
    characters between them. *)
Theorem rope_slice_correct r p m q :
  rope_wf r → small (rope_text r) → rope_text r = p ++ m ++ q →
  ∃ s, rope_slice (Sl:=list N) r (mkRange (byte_len p) (byte_len (p ++ m))) = Ok s ∧ rope_wf s ∧ rope_text s = m.
Proof. intros. by eapply ok_with_inv, rope_slice_spec. Qed.

Lemma rope_slice_correct_witness :
  ∃ r s, rope_slice (Sl:=list N) r (mkRange 1 4) = Ok s ∧ rope_text s = [233; NEWLINE].
Proof.
  destruct ex_rope as (r & _ & Hr & Et). exists r.
  destruct (rope_slice_correct r [97] [233; NEWLINE] [119987] Hr) as (s & E & _ & Es); [by rewrite Et; vm_compute|done|].
  by exists s.
Defined.

(** C37: [replace] of a range between two character boundaries by a text gives the text before
    the range, the new text and the text behind it, in a well-formed rope. *)
Theorem rope_replace_correct r p m q new :
  rope_wf r → small (rope_text r) → rope_text r = p ++ m ++ q → Forall char_ok new → small (p ++ new ++ q) →
  ∃ r', rope_replace (Sl:=list N) r (mkRange (byte_len p) (byte_len (p ++ m))) (str_of new) = Ok r'
    ∧ rope_wf r' ∧ rope_text r' = p ++ new ++ q.
Proof. intros. by eapply ok_with_inv, rope_replace_spec. Qed.

Lemma rope_replace_correct_witness :
  ∃ r r', rope_replace (Sl:=list N) r (mkRange 1 4) (str_of ex_text) = Ok r' ∧ rope_text r' = [97] ++ ex_text ++ [119987].
Proof.
  destruct ex_rope as (r & _ & Hr & Et). exists r.
  destruct (rope_replace_correct r [97] [233; NEWLINE] [119987] ex_text Hr) as (s & E & _ & Es);
    [by rewrite Et; vm_compute|done|apply ex_text_ok|by vm_compute|]. by exists s.
Defined.

(** [slice] panics on a range that ends before it starts or past the end of the rope,
    wherever its ends lie in characters: it never returns a wrong piece. *)
Theorem rope_slice_out_of_range r a b :
  rope_wf r → small (rope_text r) → b < a ∨ byte_len (rope_text r) < b →
  rope_slice (Sl:=list N) r (mkRange a b) = Panic.
Proof.
  intros Hr Hs Hab. unfold rope_slice. cbn [r_start r_end].
  destruct (ok_with_inv _ _ (rope_cursor_spec r [] (rope_text r) Hr Hs eq_refl)) as (c & E & Hc).
  change (byte_len []) with 0 in E. rewrite E. cbn [mbind outcome_bind]. pose proof Hc as (Er & Eo & Et & _).
  destruct (rc_before _ _ _ _ Hc) as (before & after & Hat & Hle). change (byte_len []) with 0 in *.
  unfold rope_seek_forward. rewrite Er, Eo, rope_len_of, (proj2 (N.leb_le 0 a)) by (done || lia).
  cbn [assert_that mbind outcome_bind]. destruct (N.leb_spec a (byte_len (rope_text r))) as [Ha|Ha]; [|done].
  cbn [assert_that mbind outcome_bind].
  destruct (ok_with_inv _ _ (cursor_seek_forward_spec tt ROPE_DEPTH a Right (rc_chunks c) before after
    ltac:(rewrite Et; apply Hr) ltac:(rewrite Et; apply room_height; [apply Hr|by apply room_self])
    ltac:(by right) ltac:(rewrite usize_dims; apply usize_ge; change (dim_zero tt) with 0; lia)
    (usize_seekable _ _ _ _))) as ([c' o] & E' & _).
  rewrite E'. cbn [mbind outcome_bind]. unfold rope_cursor_slice. cbn [rc_offset rc_rope].
  destruct (N.leb_spec a b); cbn [assert_that mbind outcome_bind]; [|done].
  rewrite rope_len_of by done. by rewrite (proj2 (N.leb_gt _ _)) by lia.
Qed.

Lemma rope_slice_out_of_range_witness :
  ∃ r, rope_wf r ∧ rope_slice (Sl:=list N) r (mkRange 3 1) = Panic ∧ rope_slice (Sl:=list N) r (mkRange 1 9) = Panic.
Proof.
  destruct ex_rope as (r & _ & Hr & Et). exists r. split; [done|].
  assert (Hs : small (rope_text r)) by (rewrite Et; by vm_compute).
  split; apply rope_slice_out_of_range; try done; [left; lia|right; rewrite Et; by vm_compute].
Defined.
