(* ===== verification/RopePositions.v ===== *)
(** * Positions in ropes

    A conversion looks a position up in the tree and finishes within the chunk found there.
    The positions of a lookup, which wrap at their width, are those of the text before: the
    lookup is simulated by one over texts.  So every conversion of a boundary gives the
    position of the text before it, whichever chunks the text is cut into. *)

From S2P Require Import Prelude Ord SumTree SumTreeFacts SeekSpec Cursor CursorFacts SeekFacts Patch Bitmap Utf8 Point TextSummary Chunk ChunkFacts ChunkSummary ChunkPositions ChunkClip Rope RopeFacts RopeSlices.
Local Open Scope N_scope.

#[export] Existing Instances offset_utf16_dim point_dim point_utf16_dim.

(** ** Lookups over texts *)
(** A dimension whose value is a function [pos] of the text passed. *)
Class TextDimension {D : Type} `{!Dimension D (list N) unit} (pos : list N → D) : Prop := {
  td_zero : dim_zero tt = pos [];
  td_add : ∀ p s, small (p ++ s) → dim_add_summary tt (pos p) s = pos (p ++ s)
}.

#[export] Instance pair_text_dimension {D1 D2 : Type} `{!Dimension D1 (list N) unit, !Dimension D2 (list N) unit}
    (pos1 : list N → D1) (pos2 : list N → D2) `{!TextDimension pos1, !TextDimension pos2} :
  TextDimension (D:=D1 * D2 * unit) (fun p => (pos1 p, pos2 p, tt)).
Proof.
  split.
  - cbn. by rewrite !td_zero.
  - intros p s Hs. cbn. by rewrite !td_add.
Qed.

(** The text itself as a dimension. *)
Definition text_dim : Dimension (list N) (list N) unit := summary_dimension.
Definition text_target {Tgt D : Type} `{!SeekTarget Tgt D unit} (pos : list N → D) : SeekTarget Tgt (list N) unit :=
  fun cx t p => target_cmp cx t (pos p).

Section lookup.
Context {D Tgt : Type} `{!Dimension D (list N) unit, !SeekTarget Tgt D unit} (pos : list N → D) `{!TextDimension pos}.
Context (target : Tgt) (bias : Bias).
Abbreviation tree := (SumTree (list N) (list N)).
Local Existing Instance text_dim.
Local Existing Instance text_target.
Abbreviation find_D := (find_iterate (D:=D) tt false target bias).
Abbreviation find_T := (@find_iterate (list N) (list N) unit tt Tgt (list N) text_dim (text_target pos) false target bias).

Definition positions (r : list N * option (list N * list N)) : D * option (list N * D) :=
  (pos r.1, (fun x => (x.1, pos x.2)) <$> r.2).

Lemma find_iterate_pos h (t : tree) p :
  wf_at tt ROPE_DEPTH h t → small (p ++ concat (tree_items t)) → find_D (pos p) t = positions (find_T p t).
Proof.
  revert t p. induction h as [|h IH]; intros [ht s css cts|s its iss] p Ht Hs; try done.
  - destruct Ht as (_ & _ & -> & _). simpl in *. revert p Hs.
    induction its as [|x its IHi]; intros p Hs; [done|]. simpl in *. rewrite app_assoc in Hs.
    pose proof (small_app _ _ Hs) as [Hpx _]. change (item_summary_of tt x) with x. rewrite td_add by done.
    unfold entry_found, target_in_child, target_cmp at 2 3, text_target. cbn.
    destruct (target_cmp tt target (pos (p ++ x))), bias; try done; by apply IHi.
  - destruct Ht as (_ & _ & _ & -> & _ & Hf). cbn [tree_items find_iterate] in *. revert p Hs.
    induction cts as [|c cts IHc]; intros p Hs; [done|]. apply Forall_cons in Hf as [[Hc _] Hf]. simpl in *.
    rewrite concat_app, app_assoc in Hs. pose proof (small_app _ _ Hs) as [Hpc _].
    assert (Ec : summary c = concat (tree_items c)) by (rewrite (wf_summary tt _ _ _ Hc); apply sum_items).
    rewrite Ec, td_add by done. unfold target_in_child, target_cmp at 2 3, text_target. cbn.
    destruct (target_cmp tt target (pos (p ++ concat (tree_items c)))), bias; try (by apply IH); by apply IHc.
Qed.

Lemma text_dim_laws : DimensionLaws (list N) (Sm:=list N) tt.
Proof. intros d a b. symmetry. apply app_assoc. Qed.
Local Existing Instance text_dim_laws.
Abbreviation tfind := (@find (list N) (list N) unit tt Tgt (list N) text_dim (text_target pos)).
Abbreviation tends := (@ends (list N) (list N) unit spec_item tt (list N) text_dim).
Abbreviation tpast := (@past Tgt (list N) unit (text_target pos) tt target bias).
Abbreviation tscan := (@scan (list N) (list N) unit spec_item tt (list N) text_dim Tgt (text_target pos) target bias).

Lemma text_dims p (its : list (list N)) : @dim_items (list N) (list N) unit spec_item tt (list N) text_dim p its = p ++ concat its.
Proof.
  revert p. induction its as [|x its IH]; intros p; [by rewrite app_nil_r|].
  change (@dim_items _ _ _ spec_item tt _ text_dim (p ++ x) its = p ++ x ++ concat its). by rewrite IH, app_assoc.
Qed.

Lemma find_pos (r : srope) :
  rope_wf r → small (rope_text r) →
  find tt (chunks r) target bias = let '(a, b, item) := tfind (chunks r) target bias in (pos a, pos b, item).
Proof.
  intros Hr Hs. unfold find, find_with. rewrite td_zero, summary_of_text, td_add by done. cbn [app].
  change (@dim_add_summary _ _ _ text_dim tt (dim_zero tt) (rope_text r)) with (rope_text r).
  change (tpast (rope_text r)) with (past tt target bias (pos (rope_text r))).
  destruct (past tt target bias (pos (rope_text r))); [done|].
  assert (E : find_D (pos []) (chunks r) = positions (find_T [] (chunks r))).
  { destruct (rw_tree r Hr) as [->|(h & _ & Ht)]; [done|]. by apply (find_iterate_pos h). }
  rewrite E. change (@dim_zero _ _ _ text_dim tt) with (@nil N).
  by destruct (find_T [] (chunks r)) as [a [[x b]|]].
Qed.

Definition past_pos (p : list N) : bool := past tt target bias (pos p).
(** Passing a text implies passing its prefixes. *)
Definition monotone : Prop := ∀ a b, small (a ++ b) → past_pos (a ++ b) = true → past_pos a = true.

Lemma seekable_text p its :
  monotone → small (p ++ concat its) →
  Forall (fun e => ∃ k, e = p ++ k ∧ small e) (tends p its) ∧
  @seekable (list N) (list N) unit spec_item tt (list N) text_dim Tgt (text_target pos) target bias p its.
Proof.
  intros Hmono. unfold seekable. revert p. induction its as [|x its IH]; intros p Hp; [split; constructor|].
  cbn [concat] in Hp. rewrite app_assoc in Hp. pose proof (small_app _ _ Hp) as [Hpx _].
  destruct (IH (p ++ x) Hp) as [H1 H2]. cbn [ends]. change (@item_end _ _ _ spec_item tt _ text_dim p x) with (p ++ x).
  split; constructor; [by exists x| |done|].
  - eapply Forall_impl; [exact H1|]. intros e (k & -> & He). exists (x ++ k). by rewrite app_assoc in *.
  - eapply Forall_impl; [exact H1|]. intros e (k & -> & He). by apply Hmono.
Qed.

(** What a lookup finds. *)
Lemma find_text (r : srope) :
  rope_wf r → small (rope_text r) → rope_items r ≠ [] → monotone →
  ∃ before rest, rope_items r = before ++ rest ∧ (before ≠ [] → past_pos (concat before) = true) ∧
    match rest with
    | [] => find tt (chunks r) target bias = (pos (rope_text r), pos (rope_text r), None)
    | x :: _ => past_pos (concat before ++ x) = false
        ∧ find tt (chunks r) target bias = (pos (concat before), pos (concat before ++ x), Some x)
    end.
Proof.
  intros Hr Hs Hne Hmono. rewrite find_pos by done. destruct (rw_tree r Hr) as [E|(h & Hh & Ht)]; [by rewrite E in Hne|].
  destruct (seekable_text [] (rope_items r) Hmono Hs) as [_ Hseek].
  rewrite (@find_spec_at _ _ _ _ _ tt _ _ text_dim text_dim_laws _ (text_target pos) target bias ROPE_DEPTH h _ Ht Hseek).
  change (@dim_zero _ _ _ text_dim tt) with (@nil N).
  destruct (@scan_split _ _ _ spec_item tt _ text_dim _ (text_target pos) target bias [] (rope_items r)) as (before & Hi & Hp & Hf & Hx).
  destruct (tscan [] (rope_items r)) as [p rest] eqn:Esc. cbn [fst snd] in *. rewrite text_dims in Hp. cbn [app] in Hp. subst p.
  exists before, rest. split; [done|]. split.
  - intros Hb. destruct (snoc_case before) as [->|(l & x & ->)]; [done|]. rewrite Forall_forall in Hf.
    apply (Hf (concat (l ++ [x]))), last_Some_elem_of. rewrite ends_last. by rewrite text_dims.
  - unfold found_item. cbn [fst snd]. destruct rest as [|x rest].
    + unfold rope_text. by rewrite Hi, app_nil_r.
    + by rewrite <-(Hx x rest eq_refl).
Qed.
End lookup.

(** ** Positions of a text *)
Definition offset_utf16_of (p : list N) : OffsetUtf16 := mkOffsetUtf16 (units p).
Definition point_of (p : list N) : Point := mkPoint (row_count p) (byte_len (last_line p)).
Definition point_utf16_of (p : list N) : PointUtf16 := mkPointUtf16 (row_count p) (units (last_line p)).

Lemma row_column_bounds p :
  small p → row_count p <= u32_max / 2 + 1 ∧ byte_len (last_line p) <= u32_max / 2 + 1 ∧ units (last_line p) <= u32_max / 2 + 1.
Proof.
  unfold small. intros H. change (u32_max / 2 + 1) with (2 ^ 31).
  pose proof (lines_bounded p). pose proof (last_line_bounded p). pose proof (lens_bounded (last_line p)). lia.
Qed.

Lemma last_line_grow p s : last_line (p ++ s) = if row_count s =? 0 then last_line p ++ s else last_line s.
Proof.
  rewrite last_line_app. destruct (N.eqb_spec (row_count s) 0) as [E|E]; [|done].
  destruct (first_line_split s) as [[_ ->]|(rest & E1 & _)]; [done|].
  rewrite E1, row_count_app, row_count_cons in E. cbn in E. lia.
Qed.

Lemma summary_positions s : small s →
  ts_len_utf16 (text_summary_from s) = offset_utf16_of s ∧ ts_lines (text_summary_from s) = point_of s
  ∧ lines_utf16 (text_summary_from s) = point_utf16_of s.
Proof.
  intros Hs. destruct (from_summarises s) as [_ _ H1 H2 H3 _ _ H4 _]; [unfold small, u32_max in *; lia|].
  unfold lines_utf16, point_utf16_of, point_of, offset_utf16_of. rewrite H2, H4, <-H1, <-H2, <-H3.
  by destruct (text_summary_from s) as [? ? [] [] ? ? ? ? ?].
Qed.

Section grow.
Context (p s : list N) (Hs : small (p ++ s)).

Lemma offset_utf16_add_of : offset_utf16_add (offset_utf16_of p) (offset_utf16_of s) = offset_utf16_of (p ++ s).
Proof using Hs.
  unfold offset_utf16_add, offset_utf16_of. cbn. rewrite units_app, usize_add_exact; [done|].
  pose proof (lens_bounded (p ++ s)) as H. rewrite units_app in H. unfold small in Hs. lia.
Qed.
Lemma offset_utf16_sub_of : offset_utf16_sub (offset_utf16_of (p ++ s)) (offset_utf16_of p) = offset_utf16_of s.
Proof using Hs.
  unfold offset_utf16_sub, offset_utf16_of. cbn. pose proof (lens_bounded (p ++ s)) as H. unfold small in Hs.
  rewrite units_app in *. rewrite usize_sub_exact by lia. f_equal. lia.
Qed.

(** Points add up; a point less an earlier one is the point of the text between. *)
Lemma point_add_of : point_add (point_of p) (point_of s) = point_of (p ++ s).
Proof using Hs.
  destruct (row_column_bounds _ Hs) as (Hb1 & Hb2 & _). unfold point_add, point_of in *. cbn [row column] in *.
  rewrite last_line_grow, row_count_app in *. change (u32_max / 2 + 1) with (2 ^ 31) in *.
  revert Hb2. destruct (N.eqb_spec (row_count s) 0) as [E|E]; intros Hb2.
  - rewrite byte_len_app in *. rewrite (row_last s), u32_add_exact, E, N.add_0_r by (done || (unfold u32_max; lia)). done.
  - rewrite u32_add_exact by (unfold u32_max; lia). done.
Qed.
Lemma point_sub_of : point_sub (point_of (p ++ s)) (point_of p) = point_of s.
Proof using Hs.
  destruct (row_column_bounds _ Hs) as (Hb1 & Hb2 & _). unfold point_sub, point_of in *. cbn [row column] in *.
  rewrite last_line_grow, row_count_app in *. change (u32_max / 2 + 1) with (2 ^ 31) in *.
  revert Hb2. destruct (N.eqb_spec (row_count s) 0) as [E|E]; intros Hb2.
  - rewrite byte_len_app in *. rewrite E, N.add_0_r, N.eqb_refl, u32_sub_exact, (row_last s) by (done || (unfold u32_max; lia)).
    f_equal. lia.
  - rewrite (proj2 (N.eqb_neq _ _)), u32_sub_exact by (unfold u32_max; lia). f_equal. lia.
Qed.
Lemma point_utf16_add_of : point_utf16_add (point_utf16_of p) (point_utf16_of s) = point_utf16_of (p ++ s).
Proof using Hs.
  destruct (row_column_bounds _ Hs) as (Hb1 & _ & Hb2). unfold point_utf16_add, point_utf16_of in *. cbn [row_utf16 column_utf16] in *.
  rewrite last_line_grow, row_count_app in *. change (u32_max / 2 + 1) with (2 ^ 31) in *.
  revert Hb2. destruct (N.eqb_spec (row_count s) 0) as [E|E]; intros Hb2.
  - rewrite units_app in *. rewrite (row_last s), u32_add_exact, E, N.add_0_r by (done || (unfold u32_max; lia)). done.
  - rewrite u32_add_exact by (unfold u32_max; lia). done.
Qed.
Lemma point_utf16_sub_of : point_utf16_sub (point_utf16_of (p ++ s)) (point_utf16_of p) = point_utf16_of s.
Proof using Hs.
  destruct (row_column_bounds _ Hs) as (Hb1 & _ & Hb2). unfold point_utf16_sub, point_utf16_of in *. cbn [row_utf16 column_utf16] in *.
  rewrite last_line_grow, row_count_app in *. change (u32_max / 2 + 1) with (2 ^ 31) in *.
  revert Hb2. destruct (N.eqb_spec (row_count s) 0) as [E|E]; intros Hb2.
  - rewrite units_app in *. rewrite E, N.add_0_r, N.eqb_refl, u32_sub_exact, (row_last s) by (done || (unfold u32_max; lia)).
    f_equal. lia.
  - rewrite (proj2 (N.eqb_neq _ _)), u32_sub_exact by (unfold u32_max; lia). f_equal. lia.
Qed.
End grow.

#[export] Instance usize_text : TextDimension (D:=N) byte_len.
Proof. split; [done|]. intros p s _. cbn [dim_add_summary usize_dim usize_dimension api_summary_text spec_api]. by rewrite ts_len_from, byte_len_app. Qed.
#[export] Instance offset_utf16_text : TextDimension offset_utf16_of.
Proof.
  split; [done|]. intros p s Hs. cbn [dim_add_summary offset_utf16_dim offset_utf16_dimension api_summary_text spec_api].
  destruct (summary_positions s) as (-> & _ & _); [by apply small_app in Hs as [_ ?]|]. by apply offset_utf16_add_of.
Qed.
#[export] Instance point_text : TextDimension point_of.
Proof.
  split; [done|]. intros p s Hs. cbn [dim_add_summary point_dim point_dimension api_summary_text spec_api].
  destruct (summary_positions s) as (_ & -> & _); [by apply small_app in Hs as [_ ?]|]. by apply point_add_of.
Qed.
#[export] Instance point_utf16_text : TextDimension point_utf16_of.
Proof.
  split; [done|]. intros p s Hs. cbn [dim_add_summary point_utf16_dim point_utf16_dimension api_summary_text spec_api].
  destruct (summary_positions s) as (_ & _ & ->); [by apply small_app in Hs as [_ ?]|]. by apply point_utf16_add_of.
Qed.

(** Each orders the prefixes of a text by length. *)
Class OrderedPosition {D : Type} `{!Ord D} (pos : list N → D) := {
  op_key : D → N;
  op_cmp : ∀ a b, cmp a b = N.compare (op_key a) (op_key b);
  op_lt : ∀ p s, small (p ++ s) → s ≠ [] → op_key (pos p) < op_key (pos (p ++ s))
}.

Lemma nonempty_len s : s ≠ [] → 0 < units s ∧ 0 < byte_len s.
Proof. destruct s as [|c s]; [done|]. intros _. rewrite units_cons, byte_len_cons. pose proof (len_utf8_bounds c). lia. Qed.

Lemma packed_lt r1 c1 r2 c2 :
  c1 <= u32_max → c2 <= u32_max → r1 < r2 ∨ (r1 = r2 ∧ c1 < c2) → packed r1 c1 < packed r2 c2.
Proof. intros. rewrite !packed_add by done. unfold u32_max in *. nia. Qed.

#[export] Program Instance usize_ordered : OrderedPosition (D:=N) byte_len := {| op_key n := n |}.
Next Obligation. done. Qed.
Next Obligation. intros p s _ Hs. cbn. rewrite byte_len_app. pose proof (nonempty_len s Hs). lia. Qed.
#[export] Program Instance offset_utf16_ordered : OrderedPosition offset_utf16_of := {| op_key := offset_utf16 |}.
Next Obligation. done. Qed.
Next Obligation. intros p s _ Hs. cbn. rewrite units_app. pose proof (nonempty_len s Hs). lia. Qed.
#[export] Program Instance point_ordered : OrderedPosition point_of := {| op_key x := packed (row x) (column x) |}.
Next Obligation. done. Qed.
Next Obligation.
  intros p s Hs Hne. cbn. destruct (row_column_bounds _ Hs) as (_ & H1 & _). destruct (small_app _ _ Hs) as [Hp _].
  destruct (row_column_bounds _ Hp) as (_ & H2 & _). change (u32_max / 2 + 1) with (2 ^ 31) in *.
  apply packed_lt; [unfold u32_max; lia..|]. rewrite last_line_grow, row_count_app.
  destruct (N.eqb_spec (row_count s) 0) as [E|E]; [right|left; lia]. rewrite E, byte_len_app. pose proof (nonempty_len s Hne). lia.
Qed.
#[export] Program Instance point_utf16_ordered : OrderedPosition point_utf16_of := {| op_key x := packed (row_utf16 x) (column_utf16 x) |}.
Next Obligation. done. Qed.
Next Obligation.
  intros p s Hs Hne. cbn. destruct (row_column_bounds _ Hs) as (_ & _ & H1). destruct (small_app _ _ Hs) as [Hp _].
  destruct (row_column_bounds _ Hp) as (_ & _ & H2). change (u32_max / 2 + 1) with (2 ^ 31) in *.
  apply packed_lt; [unfold u32_max; lia..|]. rewrite last_line_grow, row_count_app.
  destruct (N.eqb_spec (row_count s) 0) as [E|E]; [right|left; lia]. rewrite E, units_app. pose proof (nonempty_len s Hne). lia.
Qed.

(** ** Looking a boundary up *)
Section at_boundary.
Context {D1 D2 : Type} `{!Dimension D1 (list N) unit, !Dimension D2 (list N) unit, !Ord D1}.
Context (pos1 : list N → D1) (pos2 : list N → D2).
Context `{!TextDimension pos1, !TextDimension pos2, !OrderedPosition pos1}.
Local Instance self_target : SeekTarget D1 D1 unit := ord_target.
Context (r : srope) (p q : list N) (Hr : rope_wf r) (Hs : small (rope_text r)) (Htext : rope_text r = p ++ q).

(** Two prefixes of a text compare as their lengths do. *)
Lemma prefix_cmp a b a' b' : a ++ b = a' ++ b' → small (a ++ b) →
  cmp (pos1 a) (pos1 a') = N.compare (byte_len a) (byte_len a').
Proof.
  intros E Hsm. rewrite op_cmp. destruct (N.le_gt_cases (byte_len a) (byte_len a')) as [Hle|Hlt].
  - destruct (prefix_split _ _ _ _ E Hle) as (k & -> & Eb). destruct (decide (k = [])) as [->|Hk].
    + by rewrite app_nil_r, !N.compare_refl.
    + pose proof (nonempty_len k Hk). rewrite !(proj2 (N.compare_lt_iff _ _)); [done|rewrite byte_len_app; lia|].
      apply op_lt; [|done]. rewrite E in Hsm. by apply small_app in Hsm as [? _].
  - destruct (prefix_split _ _ _ _ (eq_sym E) (N.lt_le_incl _ _ Hlt)) as (k & -> & Eb).
    assert (Hk : k ≠ []) by (intros ->; rewrite app_nil_r in Hlt; lia).
    rewrite !(proj2 (N.compare_gt_iff _ _)); [done|done|]. apply op_lt; [|done]. by apply small_app in Hsm as [? _].
Qed.

Lemma past_left a b : rope_text r = a ++ b →
  past (D:=D1 * D2 * unit) tt (pos1 p) Left (pos1 a, pos2 a, tt) = (byte_len a <? byte_len p).
Proof using Hs Htext OrderedPosition0.
  intros E. unfold past, target_cmp, dimensions_target, target_cmp, self_target, ord_target. cbn [fst].
  rewrite (prefix_cmp p q a b) by (by rewrite <-Htext). unfold N.ltb. rewrite N.compare_antisym. by destruct (_ ?= _).
Qed.

Lemma find_at :
  q ≠ [] →
  ∃ before x1 x2 rest e, rope_items r = before ++ (x1 ++ x2) :: rest ∧ p = concat before ++ x1
    ∧ find (D:=D1 * D2 * unit) tt (chunks r) (pos1 p) Left = ((pos1 (concat before), pos2 (concat before), tt), e, Some (x1 ++ x2)).
Proof using All.
  intros Hq. assert (Hne : rope_items r ≠ []).
  { intros E. pose proof Htext as Ht. unfold rope_text in Ht. rewrite E in Ht. by destruct p, q. }
  destruct (find_text (fun p => (pos1 p, pos2 p, tt)) (pos1 p) Left r Hr Hs Hne) as (before & rest & Hi & Hbefore & Hrest).
  { intros a b Hab. unfold past_pos, past, target_cmp, dimensions_target, target_cmp, self_target, ord_target. cbn [fst].
    rewrite !op_cmp. destruct (decide (b = [])) as [->|Hb]; [by rewrite app_nil_r|]. pose proof (op_lt _ _ Hab Hb).
    destruct (N.compare_spec (op_key (pos1 p)) (op_key (pos1 (a ++ b)))) as [| |Hgt]; try done.
    intros _. by rewrite (proj2 (N.compare_gt_iff _ _)) by lia. }
  assert (Etext : rope_text r = concat before ++ concat rest) by (unfold rope_text; by rewrite Hi, concat_app).
  assert (Hle : byte_len (concat before) <= byte_len p).
  { destruct (decide (before = [])) as [->|Hb]; [change (0 <= byte_len p); lia|].
    specialize (Hbefore Hb). unfold past_pos in Hbefore. rewrite (past_left _ (concat rest)) in Hbefore by done.
    apply N.ltb_lt in Hbefore. lia. }
  pose proof Htext as Epq. rewrite Etext in Epq. destruct (prefix_split _ _ _ _ Epq Hle) as (x1 & Ep & Eq). destruct rest as [|x rest].
  { cbn [concat] in Eq. by destruct x1, q. }
  destruct Hrest as [Hx Hfind]. cbn [concat] in Eq, Etext. unfold past_pos in Hx. rewrite (past_left _ (concat rest)) in Hx
    by (by rewrite Etext, app_assoc). apply N.ltb_ge in Hx. rewrite Ep, !byte_len_app in Hx.
  destruct (prefix_split x1 q x (concat rest) (eq_sym Eq) ltac:(lia)) as (x2 & -> & _).
  by exists before, x1, x2, rest, (pos1 (concat before ++ x1 ++ x2), pos2 (concat before ++ x1 ++ x2), tt).
Qed.
End at_boundary.

(** ** The conversions *)
Lemma rope_summary_of r : rope_wf r → rope_summary (C:=list N) (Sl:=list N) r = text_summary_from (rope_text r).
Proof. intros Hr. unfold rope_summary. by rewrite summary_of_text. Qed.

Section conversions.
Context (r : srope) (p q : list N) (Hr : rope_wf r) (Hs : small (rope_text r)) (Htext : rope_text r = p ++ q).

Lemma at_end_offset : (byte_len (rope_text r) <=? byte_len p) = bool_decide (q = []).
Proof using Htext.
  rewrite Htext, byte_len_app. case_bool_decide as Hq; [subst q; apply N.leb_le; change (byte_len []) with 0; lia|].
  pose proof (nonempty_len q Hq). apply N.leb_gt. lia.
Qed.
Lemma at_end_position {D1} `{!Ord D1} (pos1 : list N → D1) `{!OrderedPosition pos1} :
  leb (pos1 (rope_text r)) (pos1 p) = bool_decide (q = []).
Proof using Hs Htext.
  unfold leb. rewrite (prefix_cmp pos1 (rope_text r) [] p q) by (rewrite app_nil_r; done). rewrite <-at_end_offset.
  unfold N.leb. by destruct (_ ?= _).
Qed.

Lemma found_fits before x1 x2 rest :
  rope_items r = before ++ (x1 ++ x2) :: rest → p = concat before ++ x1 → fits (x1 ++ x2) ∧ small (concat before ++ x1).
Proof using Hr Hs Htext.
  intros Hi Hp. split.
  - pose proof (rw_good r Hr) as Hg. rewrite Hi in Hg. apply Forall_app in Hg as [_ Hg]. by apply Forall_cons in Hg as [[? _] _].
  - rewrite Htext in Hs. apply small_app in Hs as [? _]. by rewrite <-Hp.
Qed.

Lemma overshoot before x1 : p = concat before ++ x1 → usize_sub (byte_len p) (byte_len (concat before)) = byte_len x1.
Proof using Hs Htext.
  intros ->. rewrite Htext in Hs. apply small_app in Hs as [Hp%small_u64 _]. rewrite byte_len_app in *. rewrite usize_sub_exact by lia. lia.
Qed.
End conversions.

(** From a boundary to the chunk it is found in. *)
Ltac at_boundary r p q pos1 pos2 :=
  case_bool_decide as Hq;
  [|let before := fresh "before" in let x1 := fresh "x1" in let x2 := fresh "x2" in let rest := fresh "rest" in
    destruct (find_at pos1 pos2 r p q) as (before & x1 & x2 & rest & ? & Hi & Hp & Hfind); [done..|];
    unfold self_target in Hfind; unfold N_target, OffsetUtf16_target, Point_target, PointUtf16_target; rewrite Hfind; cbn [fst snd];
    destruct (found_fits r p q ltac:(done) ltac:(done) ltac:(done) before x1 x2 rest Hi Hp) as [Hfit Hsm]].

Section conversions.
Context (r : srope) (p q : list N) (Hr : rope_wf r) (Hs : small (rope_text r)) (Htext : rope_text r = p ++ q).

Lemma rope_offset_to_point_spec : rope_offset_to_point (C:=list N) (Sl:=list N) r (byte_len p) = point_of p.
Proof using All.
  destruct (summary_positions _ Hs) as (E1 & E2 & E3). unfold rope_offset_to_point. rewrite rope_summary_of, ts_len_from, E2 by done.
  rewrite (at_end_offset r p q) by done. at_boundary r p q (byte_len : list N → N) point_of.
  - by rewrite Htext, Hq, app_nil_r.
  - rewrite (overshoot r p q) with (x1:=x1) by done.
    cbn [api_view api_as_slice spec_api]. rewrite offset_to_point_of by done. fold (point_of x1). rewrite point_add_of by done. by rewrite Hp.
Qed.

Lemma rope_offset_to_offset_utf16_spec :
  rope_offset_to_offset_utf16 (C:=list N) (Sl:=list N) r (byte_len p) = offset_utf16_of p.
Proof using All.
  destruct (summary_positions _ Hs) as (E1 & E2 & E3). unfold rope_offset_to_offset_utf16. rewrite rope_summary_of, ts_len_from, E1 by done.
  rewrite (at_end_offset r p q) by done. at_boundary r p q (byte_len : list N → N) offset_utf16_of.
  - by rewrite Htext, Hq, app_nil_r.
  - rewrite (overshoot r p q) with (x1:=x1) by done. cbn [api_view api_as_slice spec_api].
    rewrite offset_to_offset_utf16_of by done. fold (offset_utf16_of x1). rewrite offset_utf16_add_of by done. by rewrite Hp.
Qed.

Lemma rope_offset_to_point_utf16_spec :
  rope_offset_to_point_utf16 (C:=list N) (Sl:=list N) r (byte_len p) = point_utf16_of p.
Proof using All.
  destruct (summary_positions _ Hs) as (E1 & E2 & E3). unfold rope_offset_to_point_utf16. rewrite rope_summary_of, ts_len_from, E3 by done.
  rewrite (at_end_offset r p q) by done. at_boundary r p q (byte_len : list N → N) point_utf16_of.
  - by rewrite Htext, Hq, app_nil_r.
  - rewrite (overshoot r p q) with (x1:=x1) by done. cbn [api_view api_as_slice spec_api].
    rewrite offset_to_point_utf16_of by done. fold (point_utf16_of x1). rewrite point_utf16_add_of by done. by rewrite Hp.
Qed.

Lemma rope_offset_utf16_to_offset_spec :
  rope_offset_utf16_to_offset (C:=list N) (Sl:=list N) r (offset_utf16_of p) = byte_len p.
Proof using All.
  destruct (summary_positions _ Hs) as (E1 & E2 & E3). unfold rope_offset_utf16_to_offset. rewrite rope_summary_of, ts_len_from, E1 by done.
  rewrite (at_end_position r p q Hs Htext offset_utf16_of). at_boundary r p q offset_utf16_of (byte_len : list N → N).
  - by rewrite Htext, Hq, app_nil_r.
  - rewrite Hp, offset_utf16_sub_of by done. cbn [api_view api_as_slice spec_api].
    unfold offset_utf16_of. rewrite utf16_to_offset_of by done. by rewrite byte_len_app.
Qed.

Lemma rope_point_to_offset_spec : rope_point_to_offset (C:=list N) (Sl:=list N) r (point_of p) = byte_len p.
Proof using All.
  destruct (summary_positions _ Hs) as (E1 & E2 & E3). unfold rope_point_to_offset. rewrite rope_summary_of, ts_len_from, E2 by done.
  rewrite (at_end_position r p q Hs Htext point_of). at_boundary r p q point_of (byte_len : list N → N).
  - by rewrite Htext, Hq, app_nil_r.
  - rewrite Hp, point_sub_of by done. cbn [api_view api_as_slice spec_api].
    unfold point_of. rewrite point_to_offset_of by done. by rewrite byte_len_app.
Qed.

Lemma rope_point_to_point_utf16_spec :
  rope_point_to_point_utf16 (C:=list N) (Sl:=list N) r (point_of p) = point_utf16_of p.
Proof using All.
  destruct (summary_positions _ Hs) as (E1 & E2 & E3). unfold rope_point_to_point_utf16. rewrite rope_summary_of, E2, E3 by done.
  rewrite (at_end_position r p q Hs Htext point_of). at_boundary r p q point_of point_utf16_of.
  - by rewrite Htext, Hq, app_nil_r.
  - rewrite Hp, point_sub_of by done. cbn [api_view api_as_slice spec_api].
    unfold point_to_point_utf16, point_of. rewrite point_to_offset_of, offset_to_point_utf16_of by done.
    fold (point_utf16_of x1). by rewrite point_utf16_add_of.
Qed.

Lemma chunk_point_utf16 x1 x2 clip : fits (x1 ++ x2) →
  point_utf16_to_offset (slice_of (x1 ++ x2)) (point_utf16_of x1) clip = Ok (byte_len x1)
  ∧ unclipped_point_utf16_to_point (slice_of (x1 ++ x2)) (mkUnclipped (point_utf16_of x1)) = Ok (point_of x1).
Proof.
  intros Hf. destruct (split_row x1 x2) as (P & Q & E & E1 & E2 & Hrow). rewrite E in *.
  assert (Hcol : utf16_column (last_line x1 ++ first_line x2) (units (last_line x1)) (last_line x1)) by (left; by exists (first_line x2)).
  unfold point_utf16_of, point_of. rewrite <-E2.
  rewrite (point_utf16_to_offset_of P _ Q _ (last_line x1)), (unclipped_to_point_of P _ Q _ (last_line x1)) by done.
  by rewrite <-E1.
Qed.

Lemma point_utf16_to_offset_impl_spec clip :
  point_utf16_to_offset_impl (C:=list N) (Sl:=list N) r (point_utf16_of p) clip = Ok (byte_len p).
Proof using All.
  destruct (summary_positions _ Hs) as (E1 & E2 & E3). unfold point_utf16_to_offset_impl. rewrite rope_summary_of, ts_len_from, E3 by done.
  rewrite (at_end_position r p q Hs Htext point_utf16_of). at_boundary r p q point_utf16_of (byte_len : list N → N).
  - by rewrite Htext, Hq, app_nil_r.
  - rewrite Hp, point_utf16_sub_of by done. cbn [api_view api_as_slice spec_api].
    rewrite (proj1 (chunk_point_utf16 x1 x2 clip Hfit)). cbn. by rewrite byte_len_app.
Qed.

Lemma rope_unclipped_point_utf16_to_point_spec :
  rope_unclipped_point_utf16_to_point (C:=list N) (Sl:=list N) r (mkUnclipped (point_utf16_of p)) = Ok (point_of p).
Proof using All.
  destruct (summary_positions _ Hs) as (E1 & E2 & E3). unfold rope_unclipped_point_utf16_to_point. cbn [unclipped].
  rewrite rope_summary_of, E2, E3 by done. rewrite (at_end_position r p q Hs Htext point_utf16_of). at_boundary r p q point_utf16_of point_of.
  - by rewrite Htext, Hq, app_nil_r.
  - rewrite Hp, point_utf16_sub_of by done. cbn [api_view api_as_slice spec_api].
    rewrite (proj2 (chunk_point_utf16 x1 x2 false Hfit)). cbn [mbind outcome_bind]. by rewrite point_add_of.
Qed.
End conversions.



(** ** Boundaries *)
(** The nearest boundaries of a text around an offset; past its end, the end. *)
Definition is_floor (cs : list N) (i f : N) : Prop :=
  at_boundary cs f ∧ f <= i ∧ ∀ j, at_boundary cs j → j <= i → j <= f.
Definition is_ceil (cs : list N) (i c : N) : Prop :=
  at_boundary cs c ∧ (∀ j, at_boundary cs j → i <= j → c <= j) ∧ (i <= c ∨ c = byte_len cs).

Lemma boundary_end cs : at_boundary cs (byte_len cs).
Proof. exists cs, []. by rewrite app_nil_r. Qed.
Lemma boundary_in a x b k : k <= byte_len x → at_boundary (a ++ x ++ b) (byte_len a + k) ↔ at_boundary x k.
Proof.
  intros Hk. split.
  - intros H. destruct (boundary_split a (x ++ b) _ H ltac:(lia)) as (q1 & r1 & E & Ei). rewrite byte_len_app in Ei.
    destruct (prefix_split q1 r1 x b (eq_sym E) ltac:(lia)) as (k2 & -> & _). exists q1, k2. split; [done|lia].
  - intros (p & q & -> & ->). exists (a ++ p), (q ++ b). rewrite byte_len_app. by rewrite <-!app_assoc.
Qed.

Lemma floor_in a x b k f : k <= byte_len x → is_floor x k f → is_floor (a ++ x ++ b) (byte_len a + k) (byte_len a + f).
Proof.
  intros Hk (H1 & H2 & H3). split_and!; [by apply boundary_in; [lia|]|lia|]. intros j Hj Hjk.
  destruct (N.le_gt_cases (byte_len a) j) as [Hle|]; [|lia].
  replace j with (byte_len a + (j - byte_len a)) in Hj by lia. apply boundary_in in Hj; [|lia].
  specialize (H3 _ Hj ltac:(lia)). lia.
Qed.
Lemma ceil_in a x b k c : k <= byte_len x → is_ceil x k c → is_ceil (a ++ x ++ b) (byte_len a + k) (byte_len a + c).
Proof.
  intros Hk (H1 & H2 & H3). pose proof (boundary_le _ _ H1) as Hc. split_and!; [by apply boundary_in| |lia].
  intros j Hj Hjk. destruct (N.le_gt_cases (j - byte_len a) (byte_len x)) as [Hle|]; [|lia].
  replace j with (byte_len a + (j - byte_len a)) in Hj by lia. apply boundary_in in Hj; [|done].
  specialize (H2 _ Hj ltac:(lia)). lia.
Qed.

Lemma str_floor_of cs i : Forall char_ok cs → is_floor cs i (str_floor_char_boundary (str_of cs) i).
Proof.
  intros Hok. destruct (N.le_gt_cases i (byte_len cs)) as [Hle|Hgt].
  - destruct (locate cs i Hle) as [Hb|(p & c & q & E & H1 & H2)].
    + rewrite str_floor_at by done. by split_and!.
    + rewrite (str_floor_inside cs p c q) by done. split_and!; [by exists p, (c :: q)|lia|].
      intros j Hj. by apply (inside_next cs p c q i j).
  - rewrite str_floor_beyond by done. split_and!; [apply boundary_end|lia|]. by intros j Hj%boundary_le _.
Qed.

Lemma str_ceil_of cs i : Forall char_ok cs → is_ceil cs i (str_ceil_char_boundary (str_of cs) i).
Proof.
  intros Hok. destruct (N.le_gt_cases i (byte_len cs)) as [Hle|Hgt].
  - destruct (locate cs i Hle) as [Hb|(p & c & q & E & H1 & H2)].
    + assert (str_ceil_char_boundary (str_of cs) i = i) as ->.
      { unfold str_ceil_char_boundary. change (str_len (str_of cs)) with (byte_len cs).
        destruct (N.leb_spec (byte_len cs) i); [lia|]. rewrite (ceil_loop_run _ 0); [lia|lia|].
        rewrite lookup_drop, Nat.add_0_r, byte_bit by done.
        destruct (boundary_bit cs i) as [[_ [->| ->]]|[[Hin _]|[Hgt _]]]; try (done || lia). by apply boundary_not_inside in Hb. }
      split_and!; [done|done|by left].
    + rewrite (str_ceil_inside cs p c q) by done. split_and!; [|intros j Hj; by apply (inside_next cs p c q i j)|left; lia].
      exists (p ++ [c]), q. by rewrite <-app_assoc.
  - rewrite str_ceil_beyond by done. split_and!; [apply boundary_end| |by right]. intros j Hj%boundary_le ?. lia.
Qed.

(** Where an offset is looked up. *)
Lemma find_offset (r : srope) i :
  rope_wf r → small (rope_text r) → rope_items r ≠ [] →
  (byte_len (rope_text r) < i ∧ ∃ a b, find (D:=N) tt (chunks r) i Left = (a, b, None))
  ∨ ∃ before x rest k e, rope_items r = before ++ x :: rest ∧ k <= byte_len x ∧ i = byte_len (concat before) + k
      ∧ fits x ∧ find (D:=N) tt (chunks r) i Left = (byte_len (concat before), e, Some x).
Proof.
  intros Hr Hs Hne. assert (Hp : ∀ p, past_pos (D:=N) byte_len i Left p = (byte_len p <? i)) by (intros; apply usize_past).
  destruct (find_text (D:=N) byte_len i Left r Hr Hs Hne) as (before & rest & Hi & Hb & Hrest).
  { intros a b _. rewrite !Hp, byte_len_app, !N.ltb_lt. lia. }
  rewrite Hp in Hb. assert (Hle : byte_len (concat before) <= i).
  { destruct (decide (before = [])) as [->|H]; [change (0 <= i); lia|]. specialize (Hb H). apply N.ltb_lt in Hb. lia. }
  destruct rest as [|x rest].
  - left. split; [|by eauto]. rewrite app_nil_r in Hi. rewrite Hi in Hne. specialize (Hb Hne).
    unfold rope_text. rewrite Hi. by apply N.ltb_lt.
  - right. destruct Hrest as [Hx Hf]. rewrite Hp, byte_len_app in Hx. apply N.ltb_ge in Hx.
    exists before, x, rest, (i - byte_len (concat before)), (byte_len (concat before ++ x)). split_and!; [done|lia|lia| |exact Hf].
    pose proof (rw_good r Hr) as Hg. rewrite Hi in Hg. apply Forall_app in Hg as [_ Hg]. by apply Forall_cons in Hg as [[? _] _].
Qed.

Lemma chunk_boundary cs i : fits cs → i <= byte_len cs → chunk_is_char_boundary (chunk_of cs) i = true ↔ at_boundary cs i.
Proof.
  intros Hf Hi. change (chunk_is_char_boundary (chunk_of cs) i) with (slice_is_char_boundary (slice_of cs) i).
  apply slice_boundary; [done|]. destruct Hf as [_ Hf]. unfold MAX_BASE, BITS, u32_max in *. lia.
Qed.

Lemma rope_empty r : rope_wf r → is_empty (chunks r) = bool_decide (rope_items r = []).
Proof.
  intros Hr. destruct (rw_tree r Hr) as [->|(h & _ & Ht)]; [done|].
  rewrite (wf_not_empty tt _ _ _ Ht). pose proof (wf_items_nonempty tt _ _ _ Ht). by rewrite bool_decide_eq_false_2.
Qed.

Section boundaries.
Context (r : srope) (i : N) (Hr : rope_wf r) (Hs : small (rope_text r)).

Lemma text_items : Forall char_ok (rope_text r).
Proof using Hr.
  pose proof (rw_good r Hr) as Hg. unfold rope_text. induction Hg as [|x l [[Hx _] _] Hl IH]; [constructor|]. by apply Forall_app.
Qed.
Lemma split_text before x rest : rope_items r = before ++ x :: rest → rope_text r = concat before ++ x ++ concat rest.
Proof. intros Hi. unfold rope_text. by rewrite Hi, concat_app. Qed.
Lemma found_offset before x rest k :
  rope_items r = before ++ x :: rest → k <= byte_len x → i = byte_len (concat before) + k →
  usize_sub i (byte_len (concat before)) = k.
Proof using Hs.
  intros Hi%split_text Hk ->. rewrite Hi in Hs. unfold small in Hs. rewrite !byte_len_app in Hs. rewrite usize_sub_exact by lia. lia.
Qed.

Lemma rope_is_char_boundary_spec : rope_is_char_boundary (C:=list N) (Sl:=list N) r i = true ↔ at_boundary (rope_text r) i.
Proof using All.
  unfold rope_is_char_boundary. rewrite rope_empty by done. case_bool_decide as He.
  - unfold rope_text. rewrite He, N.eqb_eq. split; [intros ->; by exists [], []|]. intros Hb%boundary_le. change (i <= 0) in Hb. lia.
  - destruct (find_offset r i Hr Hs He) as [[Hgt (a & b & E)]|(before & x & rest & k & e & Hi & Hk & Ei & Hf & E)];
      rewrite E; cbn [fst snd].
    + split; [done|]. intros Hb%boundary_le. lia.
    + rewrite (found_offset before x rest k) by done. cbn [api_is_char_boundary spec_api].
      rewrite chunk_boundary by done. rewrite (split_text before x rest), Ei by done. symmetry. by apply boundary_in.
Qed.

Lemma rope_assert_char_boundary_spec PANIC :
  rope_assert_char_boundary (C:=list N) (Sl:=list N) PANIC r i
  = if rope_is_char_boundary (C:=list N) (Sl:=list N) r i then Ok true else if PANIC then Panic else Ok false.
Proof using All.
  unfold rope_assert_char_boundary, rope_is_char_boundary. rewrite rope_empty by done. case_bool_decide as He; cbn [andb].
  - destruct (N.eqb_spec i 0) as [|Hi]; [done|]. destruct (rw_tree r Hr) as [Et|(h & _ & Ht)].
    + rewrite Et. unfold find, find_with. cbn -[past].
      by destruct (past tt i Left (0 + N.of_nat 0)), PANIC.
    + by destruct (wf_items_nonempty tt _ _ _ Ht).
  - by destruct (find tt (chunks r) i Left) as [[a b] [x|]].
Qed.

Lemma rope_floor_spec : is_floor (rope_text r) i (rope_floor_char_boundary (C:=list N) (Sl:=list N) r i).
Proof using All.
  unfold rope_floor_char_boundary. rewrite rope_len_of by done. destruct (N.leb_spec (byte_len (rope_text r)) i) as [Hle|Hlt].
  - split_and!; [apply boundary_end|done|]. by intros j Hj%boundary_le _.
  - assert (He : rope_items r ≠ []) by (intros E; unfold rope_text in Hlt; rewrite E in Hlt; change (i < 0) in Hlt; lia).
    destruct (find_offset r i Hr Hs He) as [[Hgt _]|(before & x & rest & k & e & Hi & Hk & Ei & Hf & E)]; [lia|].
    rewrite E. cbn [fst snd]. rewrite (found_offset before x rest k) by done.
    rewrite (split_text before x rest), Ei by done. apply floor_in; [done|]. apply str_floor_of, Hf.
Qed.

Lemma rope_ceil_spec : is_ceil (rope_text r) i (rope_ceil_char_boundary (C:=list N) (Sl:=list N) r i).
Proof using All.
  unfold rope_ceil_char_boundary. rewrite rope_len_of by done. destruct (N.ltb_spec (byte_len (rope_text r)) i) as [Hlt|Hle].
  - split_and!; [apply boundary_end| |by right]. intros j Hj%boundary_le ?. lia.
  - destruct (decide (rope_items r = [])) as [He|He].
    + assert (Et : rope_text r = []) by (unfold rope_text; by rewrite He). rewrite Et in *. change (i <= 0) in Hle.
      assert (i = 0) as -> by lia. destruct (rw_tree r Hr) as [E|(h & _ & Ht)]; [|by destruct (wf_items_nonempty tt _ _ _ Ht)].
      rewrite E. change (is_ceil [] 0 0). split_and!; [by exists [], []|intros; lia|by left].
    + destruct (find_offset r i Hr Hs He) as [[Hgt _]|(before & x & rest & k & e & Hi & Hk & Ei & Hf & E)]; [lia|].
      rewrite E. cbn [fst snd]. rewrite (found_offset before x rest k) by done.
      rewrite (split_text before x rest), Ei by done. apply ceil_in; [done|]. apply str_ceil_of, Hf.
Qed.
End boundaries.

(** On any offset, [is_char_boundary] tells whether it lies between two characters of the
    rope's text, [assert_char_boundary] panics (or returns [false]) exactly when not, and
    [clip_offset] moves to the nearest boundary on the side asked for, or to the end. *)
Theorem rope_boundaries_correct r i PANIC :
  rope_wf r → small (rope_text r) →
  (rope_is_char_boundary (Sl:=list N) r i = true ↔ at_boundary (rope_text r) i)
  ∧ rope_assert_char_boundary (Sl:=list N) PANIC r i
    = (if rope_is_char_boundary (Sl:=list N) r i then Ok true else if PANIC then Panic else Ok false)
  ∧ is_floor (rope_text r) i (clip_offset (Sl:=list N) r i Left)
  ∧ is_ceil (rope_text r) i (clip_offset (Sl:=list N) r i Right).
Proof.
  intros Hr Hs. split_and!.
  - by apply rope_is_char_boundary_spec.
  - by apply rope_assert_char_boundary_spec.
  - by apply rope_floor_spec.
  - by apply rope_ceil_spec.
Qed.

Lemma rope_boundaries_correct_witness :
  ∃ r, rope_text r = ex_text ∧ rope_is_char_boundary (Sl:=list N) r 3 = true
    ∧ is_floor ex_text 2 (clip_offset (Sl:=list N) r 2 Left).
Proof.
  destruct ex_rope as (r & _ & Hr & Et). exists r. split; [done|].
  assert (Hs : small (rope_text r)) by (rewrite Et; by vm_compute). split.
  - apply (rope_boundaries_correct r 3 true Hr Hs). rewrite Et. by exists [97; 233], [NEWLINE; 119987].
  - rewrite <-Et. apply (rope_boundaries_correct r 2 true Hr Hs).
Defined.
