(* ===== verification/Fragments.v ===== *)
(** * Fragments of a buffer: [crates/text/src/text.rs]

    A buffer keeps every character ever inserted, cut into fragments: runs of one
    insertion that are visible or deleted together.  The fragments lie in a [SumTree]
    in document order; the texts of the visible and of the deleted ones are two ropes.
    [RopeBuilder] rebuilds both ropes while the fragments are rewritten.

    The version vectors of fragments and their summaries are the canonical ones, the only
    ones the operations of [clock] build. *)

From S2P Require Import Prelude Ord Clock SumTree SumTreeFacts SeekSpec Cursor Locator UndoMap Patch Point TextSummary Chunk Rope KeyedTree History CursorFacts SeekFacts Bitmap Utf8 ChunkFacts RopeFacts RopeSlices.
Local Open Scope N_scope.

(** ** Canonical version vectors *)
Definition Version : Type := dsig canonical.
Definition version_new : Version := dexist global_new canonical_new.
Definition version_observe (v : Version) (t : Lamport) : Version :=
  dexist (global_observe (`v) t) (canonical_observe _ t (proj2_dsig v)).
Definition version_join (a b : Version) : Version :=
  dexist (global_join (`a) (`b)) (canonical_join _ _ (proj2_dsig a) (proj2_dsig b)).
Definition version_meet (a b : Version) : Version :=
  dexist (global_meet (`a) (`b)) (canonical_meet _ _ (proj2_dsig a) (proj2_dsig b)).

(** ** Fragments and their summaries *)
Record Fragment := mkFragment {
  f_id : Locator;
  f_timestamp : Lamport;
  f_insertion_offset : N;
  f_len : N;
  f_visible : bool;
  f_deletions : list Lamport;
  f_max_undos : Version
}.

Record FragmentTextSummary := mkFragmentText { fts_visible : N; fts_deleted : N }.
Record FragmentSummary := mkFragmentSummary {
  fs_text : FragmentTextSummary;
  fs_max_id : Locator;
  fs_max_version : Version;
  fs_min_insertion_version : Version;
  fs_max_insertion_version : Version
}.

Definition fragment_text_zero : FragmentTextSummary := mkFragmentText 0 0.
(** Byte counts are exact: the text is in memory. *)
Definition fragment_text_add (self other : FragmentTextSummary) : FragmentTextSummary :=
  mkFragmentText (fts_visible self + fts_visible other) (fts_deleted self + fts_deleted other).

Definition fragment_summary_default : FragmentSummary :=
  mkFragmentSummary fragment_text_zero locator_min version_new version_new version_new.
(** [Locator::assign] makes a copy: [locator_assign_spec]. *)
Definition fragment_summary_add (self other : FragmentSummary) : FragmentSummary :=
  mkFragmentSummary (fragment_text_add (fs_text self) (fs_text other)) (fs_max_id other)
    (version_join (fs_max_version self) (fs_max_version other))
    (version_meet (fs_min_insertion_version self) (fs_min_insertion_version other))
    (version_join (fs_max_insertion_version self) (fs_max_insertion_version other)).

Definition fragment_summary (self : Fragment) : FragmentSummary :=
  let max_version := version_observe version_new (f_timestamp self) in
  let max_version := foldl version_observe max_version (f_deletions self) in
  let max_version := version_join max_version (f_max_undos self) in
  let min_insertion_version := version_observe version_new (f_timestamp self) in
  let max_insertion_version := min_insertion_version in
  mkFragmentSummary
    (if f_visible self then mkFragmentText (f_len self) 0 else mkFragmentText 0 (f_len self))
    (f_id self) max_version min_insertion_version max_insertion_version.

(** The context of a fragment tree: [Option<clock::Global>]. *)
Abbreviation FragmentCx := (option Global).
#[export] Instance FragmentSummary_summary : Summary FragmentSummary FragmentCx :=
  {| zero _ := fragment_summary_default; add_summary _ := fragment_summary_add |}.
#[export] Instance Fragment_item : Item Fragment FragmentSummary FragmentCx := fun _ => fragment_summary.
#[export] Instance FragmentText_dimension : Dimension FragmentTextSummary FragmentSummary FragmentCx :=
  {| dim_zero _ := fragment_text_zero; dim_add_summary _ d s := fragment_text_add d (fs_text s) |}.
(** [impl SeekTarget<FragmentTextSummary> for usize] *)
#[export] Instance visible_target : SeekTarget N FragmentTextSummary FragmentCx :=
  fun _ t d => cmp t (fts_visible d).

(** [Iterator::all], which stops at the first [false]. *)
Fixpoint all_outcome {A} (p : A → outcome bool) (l : list A) : outcome bool :=
  match l with
  | [] => Ok true
  | x :: l => holds ← p x; if (holds : bool) then all_outcome p l else Ok false
  end.

Definition is_visible (self : Fragment) (undos : UndoMap) : outcome bool :=
  undone ← is_undone undos (f_timestamp self);
  if (undone : bool) then Ok false else all_outcome (is_undone undos) (f_deletions self).

Definition was_visible (self : Fragment) (version : Global) (undos : UndoMap) : outcome bool :=
  if negb (global_observed version (f_timestamp self)) then Ok false
  else
    undone ← was_undone undos (f_timestamp self) version;
    if (undone : bool) then Ok false
    else all_outcome (fun d => if negb (global_observed version d) then Ok true else was_undone undos d version)
           (f_deletions self).

(** ** The index of insertions *)
Record InsertionFragmentKey := mkInsertionKey { ik_timestamp : Lamport; ik_split_offset : N }.
Record InsertionFragment := mkInsertionFragment {
  if_timestamp : Lamport;
  if_split_offset : N;
  if_fragment_id : Locator
}.

(** [#[derive(PartialOrd, Ord)]] *)
#[export] Instance InsertionFragmentKey_ord : Ord InsertionFragmentKey :=
  fun a b => cmp (ik_timestamp a, ik_split_offset a) (ik_timestamp b, ik_split_offset b).
#[export] Instance InsertionFragmentKey_ord_laws : OrdLaws InsertionFragmentKey.
Proof. apply (ord_laws_view (fun k => (ik_timestamp k, ik_split_offset k))); [|done]. by intros [] [] [= -> ->]. Qed.

#[export] Instance InsertionFragmentKey_summary : Summary InsertionFragmentKey unit :=
  {| zero _ := mkInsertionKey lamport_MIN 0; add_summary _ _ s := s |}.
#[export] Instance InsertionFragment_item : Item InsertionFragment InsertionFragmentKey unit :=
  fun _ f => mkInsertionKey (if_timestamp f) (if_split_offset f).
#[export] Instance InsertionFragment_keyed : KeyedItem InsertionFragment InsertionFragmentKey :=
  fun f => mkInsertionKey (if_timestamp f) (if_split_offset f).
#[export] Instance InsertionFragmentKey_dimension : Dimension InsertionFragmentKey InsertionFragmentKey unit :=
  summary_dimension.

Definition insertion_fragment_new (fragment : Fragment) : InsertionFragment :=
  mkInsertionFragment (f_timestamp fragment) (f_insertion_offset fragment) (f_id fragment).
Definition insert_new (fragment : Fragment) : Edit InsertionFragment InsertionFragmentKey :=
  Insert (insertion_fragment_new fragment).

Record InsertionSlice := mkInsertionSlice {
  is_edit_id : Lamport;
  is_insertion_id : Lamport;
  is_range : Range N
}.
#[export] Instance InsertionSlice_ord : Ord InsertionSlice :=
  fun a b => then_with (cmp (is_edit_id a) (is_edit_id b))
    (then_with (cmp (is_insertion_id a) (is_insertion_id b))
      (then_with (cmp (r_start (is_range a)) (r_start (is_range b)))
                 (cmp (r_end (is_range a)) (r_end (is_range b))))).
Definition slice_from_fragment (edit_id : Lamport) (fragment : Fragment) : InsertionSlice :=
  mkInsertionSlice edit_id (f_timestamp fragment)
    (mkRange (f_insertion_offset fragment) (u32_add (f_insertion_offset fragment) (f_len fragment))).

(** ** [RopeBuilder] *)
Section rope_builder.
Context {C Sl Sm : Type} `{!Summary Sm unit, !Item C Sm unit, !ChunkApi C Sl Sm}.
Abbreviation rope := (Rope C Sm).

Record RopeBuilder := mkRopeBuilder {
  rb_old_visible_cursor : RopeCursor (C:=C) (Sm:=Sm);
  rb_old_deleted_cursor : RopeCursor (C:=C) (Sm:=Sm);
  rb_new_visible : rope;
  rb_new_deleted : rope
}.

Definition builder_new (old_visible_cursor old_deleted_cursor : RopeCursor) : RopeBuilder :=
  mkRopeBuilder old_visible_cursor old_deleted_cursor rope_new rope_new.

Definition builder_push (self : RopeBuilder) (len : N) (was_visible is_visible : bool) : outcome RopeBuilder :=
  '(self, text) ←
    (if was_visible then
       '(c, text) ← rope_cursor_slice (Sl:=Sl) (rb_old_visible_cursor self)
                      (usize_add (rc_offset (rb_old_visible_cursor self)) len);
       Ok (mkRopeBuilder c (rb_old_deleted_cursor self) (rb_new_visible self) (rb_new_deleted self), text)
     else
       '(c, text) ← rope_cursor_slice (Sl:=Sl) (rb_old_deleted_cursor self)
                      (usize_add (rc_offset (rb_old_deleted_cursor self)) len);
       Ok (mkRopeBuilder (rb_old_visible_cursor self) c (rb_new_visible self) (rb_new_deleted self), text));
  if is_visible then
    r ← rope_append (Sl:=Sl) (rb_new_visible self) text;
    Ok (mkRopeBuilder (rb_old_visible_cursor self) (rb_old_deleted_cursor self) r (rb_new_deleted self))
  else
    r ← rope_append (Sl:=Sl) (rb_new_deleted self) text;
    Ok (mkRopeBuilder (rb_old_visible_cursor self) (rb_old_deleted_cursor self) (rb_new_visible self) r).

Definition builder_append (self : RopeBuilder) (len : FragmentTextSummary) : outcome RopeBuilder :=
  self ← builder_push self (fts_visible len) true true;
  builder_push self (fts_deleted len) false false.

Definition push_fragment (self : RopeBuilder) (fragment : Fragment) (was_visible : bool) : outcome RopeBuilder :=
  builder_push self (f_len fragment) was_visible (f_visible fragment).

Definition builder_push_str (self : RopeBuilder) (text : list N) : outcome RopeBuilder :=
  r ← rope_push (Sl:=Sl) (rb_new_visible self) text;
  Ok (mkRopeBuilder (rb_old_visible_cursor self) (rb_old_deleted_cursor self) r (rb_new_deleted self)).

Definition builder_finish (self : RopeBuilder) : outcome (rope * rope) :=
  v ← rope_cursor_suffix (Sl:=Sl) (rb_old_visible_cursor self);
  new_visible ← rope_append (Sl:=Sl) (rb_new_visible self) v;
  d ← rope_cursor_suffix (Sl:=Sl) (rb_old_deleted_cursor self);
  new_deleted ← rope_append (Sl:=Sl) (rb_new_deleted self) d;
  Ok (new_visible, new_deleted).
End rope_builder.
Arguments RopeBuilder : clear implicits.

(** * Facts about fragments

    The laws of fragment summaries, the positions of fragments in the visible text, and
    what [RopeBuilder] does to the two texts. *)

(** ** Laws *)
Lemma version_ext (a b : Version) : (∀ r, global_get (`a) r = global_get (`b) r) → a = b.
Proof. intros H. apply dsig_eq. apply global_ext; [apply (proj2_dsig a)|apply (proj2_dsig b)|done]. Qed.

Lemma meet_entry_0_l b : meet_entry 0 b = b.
Proof. done. Qed.
Lemma meet_entry_pos a b : a ≠ 0 → b ≠ 0 → meet_entry a b = N.min a b.
Proof. by destruct a, b. Qed.
Lemma meet_entry_assoc a b c : meet_entry a (meet_entry b c) = meet_entry (meet_entry a b) c.
Proof.
  destruct (N.eq_dec a 0) as [->|Ha]; [by rewrite !meet_entry_0_l|].
  destruct (N.eq_dec b 0) as [->|Hb]; [by rewrite meet_entry_0_l, meet_entry_0_r|].
  destruct (N.eq_dec c 0) as [->|Hc]; [by rewrite !meet_entry_0_r|].
  rewrite (meet_entry_pos b c), (meet_entry_pos a b), !meet_entry_pos by lia. lia.
Qed.

#[export] Instance fragment_summary_laws : SummaryLaws (Sm:=FragmentSummary) (@None Global).
Proof.
  split.
  - intros [[v1 d1] i1 a1 b1 c1] [[v2 d2] i2 a2 b2 c2] [[v3 d3] i3 a3 b3 c3]. cbn.
    unfold fragment_summary_add, fragment_text_add. cbn. f_equal; [f_equal; lia|..].
    + apply version_ext. intros r. cbn. rewrite !global_get_join. lia.
    + apply version_ext. intros r. cbn. rewrite !global_get_meet. apply meet_entry_assoc.
    + apply version_ext. intros r. cbn. rewrite !global_get_join. lia.
  - intros [[v1 d1] i1 a1 b1 c1]. cbn. unfold fragment_summary_add, fragment_text_add. cbn.
    assert (E0 : ∀ r, global_get global_new r = 0) by (intros; apply global_get_ge; cbn; lia). f_equal.
    + apply version_ext. intros r. cbn. rewrite global_get_join, E0. lia.
    + apply version_ext. intros r. cbn. by rewrite global_get_meet, E0.
    + apply version_ext. intros r. cbn. rewrite global_get_join, E0. lia.
Qed.

#[export] Instance fragment_text_laws : DimensionLaws FragmentTextSummary (Sm:=FragmentSummary) (@None Global).
Proof. intros d a b. cbn. unfold fragment_text_add. cbn. f_equal; lia. Qed.

(** ** Positions *)
Definition vis_len (fs : list Fragment) : N := foldr (fun f n => (if f_visible f then f_len f else 0) + n) 0 fs.
Definition del_len (fs : list Fragment) : N := foldr (fun f n => (if f_visible f then 0 else f_len f) + n) 0 fs.
Definition text_len (fs : list Fragment) : FragmentTextSummary := mkFragmentText (vis_len fs) (del_len fs).

Lemma vis_len_app l k : vis_len (l ++ k) = vis_len l + vis_len k.
Proof. unfold vis_len. induction l as [|f l IH]; [done|]. cbn. rewrite IH. lia. Qed.
Lemma del_len_app l k : del_len (l ++ k) = del_len l + del_len k.
Proof. unfold del_len. induction l as [|f l IH]; [done|]. cbn. rewrite IH. lia. Qed.

Abbreviation fdims := (dim_items (T:=Fragment) (Sm:=FragmentSummary) (D:=FragmentTextSummary) (@None Global)).
Lemma fragment_dims pos fs : fdims pos fs = fragment_text_add pos (text_len fs).
Proof.
  revert pos. induction fs as [|f fs IH]; intros [v d].
  - cbn. unfold fragment_text_add, text_len. cbn. f_equal; lia.
  - cbn [dim_items foldl]. change (foldl (item_end None) ?a fs) with (fdims a fs). rewrite IH.
    unfold item_end, fragment_text_add, text_len, vis_len, del_len. cbn. f_equal; destruct (f_visible f); cbn; lia.
Qed.
Lemma fragment_dims0 fs : fdims (dim_zero (@None Global)) fs = text_len fs.
Proof. rewrite fragment_dims. done. Qed.

Lemma fragment_sum_text fs : fs_text (sum (@None Global) (fragment_summary <$> fs)) = text_len fs.
Proof.
  pose proof (fragment_dims fragment_text_zero fs) as H. unfold sum.
  assert (E : ∀ fs s, fs_text (foldl (add_summary (@None Global)) s (fragment_summary <$> fs)) = fdims (fs_text s) fs).
  { clear. induction fs as [|f fs IH]; intros s; [done|]. cbn [fmap list_fmap foldl]. rewrite IH. done. }
  rewrite E. cbn [zero FragmentSummary_summary fragment_summary_default fs_text]. rewrite H. done.
Qed.

Lemma fragment_sum_id fs : fs_max_id (sum (@None Global) (fragment_summary <$> fs))
  = match last fs with Some f => f_id f | None => locator_min end.
Proof.
  destruct (snoc_case fs) as [->|(l & f & ->)]; [done|]. rewrite fmap_app, last_snoc. unfold sum.
  by rewrite foldl_app.
Qed.

Lemma visible_past o d bias :
  past (D:=FragmentTextSummary) (@None Global) o bias d = match bias with Left => fts_visible d <? o | Right => fts_visible d <=? o end.
Proof.
  unfold past, target_cmp, visible_target, cmp, N_ord. destruct (N.compare_spec o (fts_visible d)) as [->|H|H], bias; cbn; symmetry;
    first [apply N.ltb_ge|apply N.leb_le|apply N.leb_gt|apply N.ltb_lt]; lia.
Qed.

Lemma fragment_ends_ge pos fs e :
  e ∈ ends (T:=Fragment) (Sm:=FragmentSummary) (D:=FragmentTextSummary) (@None Global) pos fs → fts_visible pos <= fts_visible e.
Proof.
  revert pos. induction fs as [|f fs IH]; intros pos; cbn [ends]; [by intros ?%not_elem_of_nil|].
  rewrite elem_of_cons. intros [->|H%IH]; cbn in *; destruct (f_visible f); cbn in *; lia.
Qed.

Lemma fragment_seekable o bias pos fs :
  seekable (T:=Fragment) (Sm:=FragmentSummary) (D:=FragmentTextSummary) (@None Global) o bias pos fs.
Proof.
  unfold seekable. revert pos. induction fs as [|f fs IH]; intros pos; cbn [ends]; constructor; [apply IH|].
  apply Forall_forall. intros e He%fragment_ends_ge. rewrite !visible_past.
  destruct bias; [rewrite !N.ltb_lt|rewrite !N.leb_le]; lia.
Qed.

Lemma visible_ge o d : fts_visible d <= o → is_ge (target_cmp (D:=FragmentTextSummary) (@None Global) o d) = true.
Proof. intros H. unfold target_cmp, visible_target, cmp, N_ord. destruct (N.compare_spec o (fts_visible d)); [done|lia|done]. Qed.

(** ** The texts of fragments *)
(** A fragment with its text. *)
Abbreviation pieces := (list (Fragment * list N)).
Definition vis_text (ps : pieces) : list N := flat_map (fun p => if f_visible p.1 then p.2 else []) ps.
Definition del_text (ps : pieces) : list N := flat_map (fun p => if f_visible p.1 then [] else p.2) ps.
Definition piece_ok (p : Fragment * list N) : Prop := byte_len p.2 = f_len p.1 ∧ 0 < f_len p.1.

Lemma vis_text_app l k : vis_text (l ++ k) = vis_text l ++ vis_text k.
Proof. apply flat_map_app. Qed.
Lemma del_text_app l k : del_text (l ++ k) = del_text l ++ del_text k.
Proof. apply flat_map_app. Qed.

Lemma pieces_len ps : Forall piece_ok ps →
  byte_len (vis_text ps) = vis_len ps.*1 ∧ byte_len (del_text ps) = del_len ps.*1.
Proof.
  unfold piece_ok, vis_len, del_len, vis_text, del_text. induction 1 as [|[f t] ps [Hp _] Hps [IH1 IH2]]; [done|]. cbn in *.
  rewrite !byte_len_app, IH1, IH2. destruct (f_visible f); cbn; change (byte_len []) with 0; lia.
Qed.

(** ** [RopeBuilder] *)
Abbreviation sbuilder := (RopeBuilder (list N) (list N)).

(** The builder has taken [pv] of the visible and [pd] of the deleted text and made [nv]
    and [nd] of them. *)
Record builder_at (V D : srope) (b : sbuilder) (pv qv pd qd nv nd : list N) : Prop := {
  ba_visible : rc_at V (rb_old_visible_cursor b) pv qv;
  ba_deleted : rc_at D (rb_old_deleted_cursor b) pd qd;
  ba_new_visible : rope_wf (rb_new_visible b);
  ba_visible_text : rope_text (rb_new_visible b) = nv;
  ba_new_deleted : rope_wf (rb_new_deleted b);
  ba_deleted_text : rope_text (rb_new_deleted b) = nd;
  ba_small : small (nv ++ nd ++ qv ++ qd)
}.

Lemma small_sub p q : small q → byte_len p <= byte_len q → small p.
Proof. unfold small. lia. Qed.
Ltac small_tac := eapply small_sub; [eassumption|]; rewrite !byte_len_app; lia.

Section builder.
Context (V D : srope) (HV : rope_wf V) (HD : rope_wf D) (HsV : small (rope_text V)) (HsD : small (rope_text D)).

Lemma cursor_offset r c p m q :
  small (rope_text r) → rc_at r c p (m ++ q) → usize_add (rc_offset c) (byte_len m) = byte_len (p ++ m).
Proof.
  intros Hs Hc. pose proof (rc_text _ _ _ _ Hc) as Ht. destruct Hc as (_ & -> & _). rewrite Ht in Hs. apply small_u64 in Hs.
  rewrite !byte_len_app in *. apply usize_add_exact. lia.
Qed.

(** What is taken from the visible text goes to either side. *)
Lemma builder_push_visible b pv m qv pd qd nv nd (vis : bool) :
  builder_at V D b pv (m ++ qv) pd qd nv nd →
  ok_with (builder_push (Sl:=list N) b (byte_len m) true vis)
    (fun b' => builder_at V D b' (pv ++ m) qv pd qd (if vis then nv ++ m else nv) (if vis then nd else nd ++ m)).
Proof using All.
  intros [H1 H2 H3 H4 H5 H6 H7]. unfold builder_push. rewrite (cursor_offset V _ pv m qv) by done.
  apply ok_with_bind. ok_bind (rope_cursor_slice_spec V (rb_old_visible_cursor b) pv m qv); [done..|].
  intros [c s] (Hc & Hws & Hts). cbn [fst snd] in *. cbn [ok_with mbind outcome_bind].
  destruct vis; cbn [rb_new_visible rb_new_deleted rb_old_visible_cursor rb_old_deleted_cursor].
  - ok_bind (rope_append_spec (rb_new_visible b) s); [done|done|rewrite H4, Hts; small_tac|]. intros r' [Hr' Ht'].
    cbn [ok_with]. split; cbn; try done; [by rewrite Ht', H4, Hts|small_tac].
  - ok_bind (rope_append_spec (rb_new_deleted b) s); [done|done|rewrite H6, Hts; small_tac|]. intros r' [Hr' Ht'].
    cbn [ok_with]. split; cbn; try done; [by rewrite Ht', H6, Hts|small_tac].
Qed.

Lemma builder_push_deleted b pv qv pd m qd nv nd (vis : bool) :
  builder_at V D b pv qv pd (m ++ qd) nv nd →
  ok_with (builder_push (Sl:=list N) b (byte_len m) false vis)
    (fun b' => builder_at V D b' pv qv (pd ++ m) qd (if vis then nv ++ m else nv) (if vis then nd else nd ++ m)).
Proof using All.
  intros [H1 H2 H3 H4 H5 H6 H7]. unfold builder_push. rewrite (cursor_offset D _ pd m qd) by done.
  apply ok_with_bind. ok_bind (rope_cursor_slice_spec D (rb_old_deleted_cursor b) pd m qd); [done..|].
  intros [c s] (Hc & Hws & Hts). cbn [fst snd] in *. cbn [ok_with mbind outcome_bind].
  destruct vis; cbn [rb_new_visible rb_new_deleted rb_old_visible_cursor rb_old_deleted_cursor].
  - ok_bind (rope_append_spec (rb_new_visible b) s); [done|done|rewrite H4, Hts; small_tac|]. intros r' [Hr' Ht'].
    cbn [ok_with]. split; cbn; try done; [by rewrite Ht', H4, Hts|small_tac].
  - ok_bind (rope_append_spec (rb_new_deleted b) s); [done|done|rewrite H6, Hts; small_tac|]. intros r' [Hr' Ht'].
    cbn [ok_with]. split; cbn; try done; [by rewrite Ht', H6, Hts|small_tac].
Qed.

Lemma builder_append_spec b pv m qv pd k qd nv nd :
  builder_at V D b pv (m ++ qv) pd (k ++ qd) nv nd →
  ok_with (builder_append (Sl:=list N) b (mkFragmentText (byte_len m) (byte_len k)))
    (fun b' => builder_at V D b' (pv ++ m) qv (pd ++ k) qd (nv ++ m) (nd ++ k)).
Proof using All.
  intros H. unfold builder_append. cbn [fts_visible fts_deleted].
  ok_bind (builder_push_visible b pv m qv pd (k ++ qd) nv nd true); [done|]. intros b1 H1.
  by apply (builder_push_deleted b1 (pv ++ m) qv pd k qd (nv ++ m) nd false).
Qed.

Lemma builder_push_str_spec b pv qv pd qd nv nd t :
  builder_at V D b pv qv pd qd nv nd → Forall char_ok t → small ((nv ++ t) ++ nd ++ qv ++ qd) →
  ok_with (builder_push_str (Sl:=list N) b (str_of t)) (fun b' => builder_at V D b' pv qv pd qd (nv ++ t) nd).
Proof using All.
  intros [H1 H2 H3 H4 H5 H6 H7] Ht Hs. unfold builder_push_str.
  ok_bind (rope_push_spec (rb_new_visible b) t); [done|done|rewrite H4; small_tac|]. intros r' [Hr' Ht'].
  cbn [ok_with]. split; cbn; try done. by rewrite Ht', H4.
Qed.

Lemma builder_finish_spec b pv qv pd qd nv nd :
  builder_at V D b pv qv pd qd nv nd →
  ok_with (builder_finish (Sl:=list N) b) (fun r => rope_wf r.1 ∧ rope_text r.1 = nv ++ qv ∧ rope_wf r.2 ∧ rope_text r.2 = nd ++ qd).
Proof using All.
  intros [H1 H2 H3 H4 H5 H6 H7]. unfold builder_finish.
  ok_bind (rope_cursor_suffix_spec V (rb_old_visible_cursor b) pv qv); [done..|]. intros v [Hv Etv].
  ok_bind (rope_append_spec (rb_new_visible b) v); [done|done|rewrite H4, Etv; small_tac|]. intros rv [Hrv Etrv].
  ok_bind (rope_cursor_suffix_spec D (rb_old_deleted_cursor b) pd qd); [done..|]. intros d [Hd Etd].
  ok_bind (rope_append_spec (rb_new_deleted b) d); [done|done|rewrite H6, Etd; small_tac|]. intros rd [Hrd Etrd].
  cbn [ok_with fst snd]. rewrite Etrv, Etrd, H4, H6, Etv, Etd. done.
Qed.
End builder.
