(* ===== verification/BufferEdit.v ===== *)
(** * Local edits of a buffer: [Buffer::apply_local_edit] of [crates/text/src/text.rs]

    The edits walk over the old fragments once, from left to right.  What lies between
    them is kept, tree by tree; the fragments they meet are cut, the parts inside a range
    are marked deleted and the new text becomes fragments of its own.  The two ropes are
    rebuilt alongside, and every new fragment is recorded in the index of insertions, in
    the patch for the subscribers and among the slices of the edit.

    The variables of the function that change are the record [EditState]. *)

From S2P Require Import Prelude Ord Clock SumTree Cursor Locator Patch Bitmap Utf8 Point TextSummary Chunk Rope KeyedTree TreeMap UndoMap History Fragments.
Local Open Scope N_scope.

(** Outside tests. *)
Definition MAX_INSERTION_LEN : N := u32_max.

(** [LINE_SEPARATORS_REGEX.replace_all(text, "\n")]: [\r\n] and [\r] become [\n]. *)
Fixpoint normalize_arc (text : list N) : list N :=
  match text with
  | [] => []
  | b :: rest =>
      if b =? 13 then
        NEWLINE :: match rest with
                   | b' :: rest' => if b' =? NEWLINE then normalize_arc rest' else normalize_arc rest
                   | [] => []
                   end
      else b :: normalize_arc rest
  end.

Section buffer_edit.
Context {C Sl Sm : Type} `{!Summary Sm unit, !Item C Sm unit, !ChunkApi C Sl Sm}.
Abbreviation rope := (Rope C Sm).
Abbreviation fragment_tree := (SumTree Fragment FragmentSummary).
Abbreviation fragment_cursor := (Cursor Fragment FragmentSummary FragmentTextSummary).
Abbreviation cx := (@None Global).

(** [impl ToOffset for usize], with debug assertions off. *)
Definition to_offset (visible_text : rope) (self : N) : outcome N :=
  b ← rope_assert_char_boundary (Sl:=Sl) false visible_text self;
  Ok (if b : bool then self else rope_floor_char_boundary (Sl:=Sl) visible_text self).

(** [D] is the dimension of the cursor over the old fragments. *)
Section state.
Context {D : Type}.

Record EditState := mkEditState {
  es_old_fragments : Cursor Fragment FragmentSummary D;
  es_fragment_start : N;
  es_new_fragments : fragment_tree;
  es_new_ropes : RopeBuilder C Sm;
  es_insertion_offset : N;
  es_new_insertions : list (Edit InsertionFragment InsertionFragmentKey);
  es_insertion_slices : list InsertionSlice;
  es_edits_patch : list (TextEdit N);
  es_ranges : list (Range FullOffset);
  es_new_text : list (list N)
}.

Definition with_cursor (st : EditState) (c : Cursor Fragment FragmentSummary D) (start : N) : EditState :=
  mkEditState c start (es_new_fragments st) (es_new_ropes st) (es_insertion_offset st) (es_new_insertions st)
    (es_insertion_slices st) (es_edits_patch st) (es_ranges st) (es_new_text st).
Definition with_start (st : EditState) (start : N) : EditState := with_cursor st (es_old_fragments st) start.
Definition with_edit (st : EditState) (e : TextEdit N) : EditState :=
  mkEditState (es_old_fragments st) (es_fragment_start st) (es_new_fragments st) (es_new_ropes st)
    (es_insertion_offset st) (es_new_insertions st) (es_insertion_slices st) (patch_push (es_edits_patch st) e)
    (es_ranges st) (es_new_text st).
Definition with_slice (st : EditState) (s : InsertionSlice) : EditState :=
  mkEditState (es_old_fragments st) (es_fragment_start st) (es_new_fragments st) (es_new_ropes st)
    (es_insertion_offset st) (es_new_insertions st) (es_insertion_slices st ++ [s]) (es_edits_patch st)
    (es_ranges st) (es_new_text st).
Definition with_range (st : EditState) (range : Range FullOffset) (text : list N) : EditState :=
  mkEditState (es_old_fragments st) (es_fragment_start st) (es_new_fragments st) (es_new_ropes st)
    (es_insertion_offset st) (es_new_insertions st) (es_insertion_slices st) (es_edits_patch st)
    (es_ranges st ++ [range]) (es_new_text st ++ [text]).
Definition with_ropes (st : EditState) (t : fragment_tree) (ropes : RopeBuilder C Sm) : EditState :=
  mkEditState (es_old_fragments st) (es_fragment_start st) t ropes (es_insertion_offset st) (es_new_insertions st)
    (es_insertion_slices st) (es_edits_patch st) (es_ranges st) (es_new_text st).

(** [new_insertions.push(..); new_ropes.push_fragment(..); new_fragments.push(..)] *)
Definition push_piece (st : EditState) (f : Fragment) (was_visible : bool) : outcome EditState :=
  ropes ← push_fragment (Sl:=Sl) (es_new_ropes st) f was_visible;
  t ← push cx (es_new_fragments st) f;
  Ok (mkEditState (es_old_fragments st) (es_fragment_start st) t ropes (es_insertion_offset st)
        (es_new_insertions st ++ [insert_new f]) (es_insertion_slices st) (es_edits_patch st) (es_ranges st)
        (es_new_text st)).

(** The part of a fragment from [fragment_start] up to [end_]. *)
Definition cut (f : Fragment) (start fragment_start end_ : N) : Fragment :=
  mkFragment (f_id f) (f_timestamp f)
    (u32_add (f_insertion_offset f) (u32_wrap (usize_sub fragment_start start)))
    (u32_wrap (usize_sub end_ fragment_start)) (f_visible f) (f_deletions f) (f_max_undos f).
Definition with_id (f : Fragment) (id : Locator) : Fragment :=
  mkFragment id (f_timestamp f) (f_insertion_offset f) (f_len f) (f_visible f) (f_deletions f) (f_max_undos f).
Definition with_deletion (f : Fragment) (timestamp : Lamport) : Fragment :=
  mkFragment (f_id f) (f_timestamp f) (f_insertion_offset f) (f_len f) false (f_deletions f ++ [timestamp])
    (f_max_undos f).

(** [new_ropes.append(slice.summary().text); new_fragments.append(slice)] *)
Definition append_slice (st : EditState) (slice : fragment_tree) : outcome EditState :=
  ropes ← builder_append (Sl:=Sl) (es_new_ropes st) (fs_text (summary slice));
  t ← SumTree.append cx (es_new_fragments st) slice;
  Ok (with_ropes st t ropes).

(** [push_fragments_for_insertion], up to [push_str]: the text is cut into fragments of at
    most [MAX_INSERTION_LEN] bytes.  One turn takes at least a byte. *)
Fixpoint insertion_loop (fuel : nat) (st : EditState) (new_text : list N) (timestamp : Lamport)
    (next_fragment_id : Locator) (text_offset : N) : outcome EditState :=
  if text_offset <? str_len new_text then
    match fuel with
    | O => Panic
    | S fuel =>
        let target_end := N.min (str_len new_text) (usize_add text_offset MAX_INSERTION_LEN) in
        let chunk_end := if target_end =? str_len new_text then target_end
                         else str_floor_char_boundary new_text target_end in
        if chunk_end =? text_offset then Ok st
        else
          let chunk_len := usize_sub chunk_end text_offset in
          id ← between (fs_max_id (summary (es_new_fragments st))) next_fragment_id;
          let fragment := mkFragment id timestamp (es_insertion_offset st) (u32_wrap chunk_len) true [] version_new in
          t ← push cx (es_new_fragments st) fragment;
          let st := mkEditState (es_old_fragments st) (es_fragment_start st) t (es_new_ropes st)
                      (u32_add (es_insertion_offset st) (u32_wrap chunk_len))
                      (es_new_insertions st ++ [insert_new fragment])
                      (es_insertion_slices st ++ [slice_from_fragment timestamp fragment])
                      (es_edits_patch st) (es_ranges st) (es_new_text st) in
          insertion_loop fuel st new_text timestamp next_fragment_id chunk_end
    end
  else Ok st.

Definition push_fragments_for_insertion (st : EditState) (new_text : list N) (timestamp : Lamport)
    (next_fragment_id : Locator) : outcome EditState :=
  st ← insertion_loop (length new_text) st new_text timestamp next_fragment_id 0;
  ropes ← builder_push_str (Sl:=Sl) (es_new_ropes st) new_text;
  Ok (with_ropes st (es_new_fragments st) ropes).

End state.
Abbreviation state := (EditState (D:=FragmentTextSummary)).

Definition old_start (st : state) : FragmentTextSummary := cursor_start (es_old_fragments st).

(** If the current fragment has been partially consumed, consume the rest of it and
    advance to the next fragment. *)
Definition consume_rest (st : state) (fragment_end : N) : outcome state :=
  if fts_visible (old_start st) <? es_fragment_start st then
    st ←
      (if es_fragment_start st <? fragment_end then
         item ← cursor_item (es_old_fragments st);
         f ← unwrap item;
         let suffix := cut f (fts_visible (old_start st)) (es_fragment_start st) fragment_end in
         push_piece st suffix (f_visible suffix)
       else Ok st);
    c ← cursor_next cx (es_old_fragments st);
    Ok (with_cursor st c (es_fragment_start st))
  else Ok st.

(** If the current fragment ends before this range, jump ahead to the first fragment that
    extends past the start of this range, reusing any intervening fragments. *)
Definition jump_ahead (st : state) (target : N) : outcome state :=
  e ← cursor_end cx (es_old_fragments st);
  let fragment_end := fts_visible e in
  if fragment_end <? target then
    st ← consume_rest st fragment_end;
    '(c, slice) ← cursor_slice cx target Right (es_old_fragments st);
    st ← append_slice st slice;
    Ok (with_cursor st c (fts_visible (cursor_start c)))
  else Ok st.

(** Preserve any portion of the current fragment that precedes this range. *)
Definition preserve_prefix (st : state) (target : N) : outcome state :=
  if es_fragment_start st <? target then
    item ← cursor_item (es_old_fragments st);
    f ← unwrap item;
    let prefix := cut f (fts_visible (old_start st)) (es_fragment_start st) target in
    id ← between (fs_max_id (summary (es_new_fragments st))) (f_id prefix);
    let prefix := with_id prefix id in
    st ← push_piece st prefix (f_visible prefix);
    Ok (with_start st target)
  else Ok st.

(** Insert the new text before any existing fragments within the range. *)
Definition insert_text (st : state) (new_text : list N) (timestamp : Lamport) : outcome state :=
  if bool_decide (new_text = []) then Ok st
  else
    let new_start := fts_visible (fs_text (summary (es_new_fragments st))) in
    item ← cursor_item (es_old_fragments st);
    let next_fragment_id := match item with Some old_fragment => f_id old_fragment | None => locator_max end in
    st ← push_fragments_for_insertion st new_text timestamp next_fragment_id;
    Ok (with_edit st (mkEdit (mkRange (es_fragment_start st) (es_fragment_start st))
                             (mkRange new_start (usize_add new_start (str_len new_text))))).

(** One turn of the loop over the fragments that intersect the range. *)
Definition delete_step (st : state) (timestamp : Lamport) (range_end : N) : outcome state :=
  item ← cursor_item (es_old_fragments st);
  fragment ← unwrap item;
  e ← cursor_end cx (es_old_fragments st);
  let fragment_end := fts_visible e in
  let intersection_end := N.min range_end fragment_end in
  intersection ←
    (if f_visible fragment then
       let f := cut fragment (fts_visible (old_start st)) (es_fragment_start st) intersection_end in
       id ← between (fs_max_id (summary (es_new_fragments st))) (f_id f);
       Ok (with_deletion (with_id f id) timestamp)
     else Ok fragment);
  st ←
    (if 0 <? f_len intersection then
       let st :=
         if f_visible fragment && negb (f_visible intersection) then
           let new_start := fts_visible (fs_text (summary (es_new_fragments st))) in
           with_slice
             (with_edit st (mkEdit (mkRange (es_fragment_start st) intersection_end) (mkRange new_start new_start)))
             (slice_from_fragment timestamp intersection)
         else st in
       st ← push_piece st intersection (f_visible fragment);
       Ok (with_start st intersection_end)
     else Ok st);
  if fragment_end <=? range_end then
    c ← cursor_next cx (es_old_fragments st);
    Ok (with_cursor st c (es_fragment_start st))
  else Ok st.

Fixpoint delete_loop (fuel : nat) (st : state) (timestamp : Lamport) (range_end : N) : outcome state :=
  if es_fragment_start st <? range_end then
    match fuel with
    | O => Panic
    | S fuel => st ← delete_step st timestamp range_end; delete_loop fuel st timestamp range_end
    end
  else Ok st.

(** The body of the loop over the edits. *)
Definition apply_edit (fuel : nat) (st : state) (timestamp : Lamport) (range : Range N) (new_text : list N) :
    outcome state :=
  let new_text := normalize_arc new_text in
  st ← jump_ahead st (r_start range);
  let full_range_start := r_start range + fts_deleted (old_start st) in
  st ← preserve_prefix st (r_start range);
  st ← insert_text st new_text timestamp;
  st ← delete_loop fuel st timestamp (r_end range);
  let full_range_end := r_end range + fts_deleted (old_start st) in
  Ok (with_range st (mkRange full_range_start full_range_end) new_text).

Fixpoint apply_edits (fuel : nat) (st : state) (timestamp : Lamport) (edits : list (Range N * list N)) :
    outcome state :=
  match edits with
  | [] => Ok st
  | (range, new_text) :: edits =>
      st ← apply_edit fuel st timestamp range new_text; apply_edits fuel st timestamp edits
  end.

(** Before the loop: the fragments before the first edit are kept. *)
Definition edit_start (fragments : fragment_tree) (visible_text deleted_text : rope) (first : N) : outcome state :=
  v ← rope_cursor (Sl:=Sl) visible_text 0;
  d ← rope_cursor (Sl:=Sl) deleted_text 0;
  '(c, new_fragments) ← cursor_slice cx first Right (cursor_new cx fragments : fragment_cursor);
  ropes ← builder_append (Sl:=Sl) (builder_new v d) (fs_text (summary new_fragments));
  Ok (mkEditState c (fts_visible (cursor_start c)) new_fragments ropes 0 [] [] [] [] []).

(** After the loop: so are the fragments after the last one. *)
Definition edit_finish (st : state) : outcome (state * rope * rope) :=
  e ← cursor_end cx (es_old_fragments st);
  st ← consume_rest st (fts_visible e);
  '(c, suffix) ← cursor_suffix cx (es_old_fragments st);
  st ← append_slice st suffix;
  '(visible_text, deleted_text) ← builder_finish (Sl:=Sl) (es_new_ropes st);
  Ok (with_cursor st c (es_fragment_start st), visible_text, deleted_text).

(** The fragments and the ropes after the edits. *)
Definition edit_fragments (fragments : fragment_tree) (visible_text deleted_text : rope) (timestamp : Lamport)
    (edits : list (Range N * list N)) : outcome (state * rope * rope) :=
  first ← unwrap (head edits);
  st ← edit_start fragments visible_text deleted_text (r_start (fst first));
  st ← apply_edits (S (cost fragments)) st timestamp edits;
  edit_finish st.
End buffer_edit.
Arguments EditState : clear implicits.
