(* ===== verification/EditIndex.v ===== *)
(** * The index of insertions during a local edit

    A fragment is a span of the text its insertion brought, and the index of insertions
    finds the fragment at a place of an insertion.  [index_inv] says that along the walk of
    [apply_local_edit] the spans of all fragments stay apart, and that the entries to be
    written are those of the new fragments, so that the index will be up to date. *)

From stdpp Require Import sets.
From S2P Require Import Prelude Ord Clock SumTree Locator Patch Bitmap Utf8 Point TextSummary Chunk ChunkFacts KeyedTree History Fragments BufferEdit.
Local Open Scope N_scope.

(** ** Spans *)
Record Span := mkSpan { sp_insertion : Lamport; sp_start : N; sp_end : N }.
Definition span_of (f : Fragment) : Span :=
  mkSpan (f_timestamp f) (f_insertion_offset f) (f_insertion_offset f + f_len f).
Definition apart (a b : Span) : Prop :=
  sp_insertion a ≠ sp_insertion b ∨ sp_end a <= sp_start b ∨ sp_end b <= sp_start a.
Abbreviation spans_ok := (ForallOrdPairs apart).

#[export] Instance apart_sym : Symmetric apart.
Proof. intros a b. unfold apart. intros [?|?]; [left; congruence|right; tauto]. Qed.

Lemma spans_perm l k : Permutation l k → spans_ok l → spans_ok k.
Proof.
  induction 1 as [|x l k Hp IH|x y l|l k m _ IH1 _ IH2]; intros H.
  - done.
  - inversion H as [|? ? Hf Hs]; subst. constructor; [|by apply IH]. by rewrite <-Hp.
  - inversion H as [|? ? Hf Hs]; subst. inversion Hf as [|? ? Hxy Hf']; subst. inversion Hs as [|? ? Hx Hs']; subst.
    constructor; [constructor; [by symmetry|done]|]. by constructor.
  - auto.
Qed.

Lemma spans_app_r l k : spans_ok (l ++ k) → spans_ok k.
Proof. induction l as [|x l IH]; [done|]. intros H. inversion H; subst. by apply IH. Qed.
Lemma spans_app_l l k : spans_ok (l ++ k) → spans_ok l.
Proof. intros H. eapply spans_app_r, spans_perm; [apply Permutation_app_comm|exact H]. Qed.

(** A span is cut in two. *)
Lemma spans_cut l t a m b r :
  a <= m <= b → spans_ok (l ++ mkSpan t a b :: r) → spans_ok ((l ++ [mkSpan t a m]) ++ mkSpan t m b :: r).
Proof.
  intros Hm H. eapply (spans_perm (mkSpan t a m :: mkSpan t m b :: l ++ r)); [solve_Permutation|].
  eapply (spans_perm _ (mkSpan t a b :: l ++ r)) in H; [|solve_Permutation].
  inversion H as [|? ? Hf Hs]; subst. rewrite Forall_forall in Hf.
  assert (Hsub : ∀ x y s, a <= x → y <= b → s ∈ l ++ r → apart (mkSpan t x y) s).
  { intros x y s Hx Hy Hin. destruct (Hf s Hin) as [?|[?|?]]; cbn in *; [by left|right; left|right; right]; cbn; lia. }
  constructor; [constructor|constructor; [|done]].
  - right. left. cbn. lia.
  - apply Forall_forall. intros s Hin. apply Hsub; [lia|lia|done].
  - apply Forall_forall. intros s Hin. apply Hsub; [lia|lia|done].
Qed.

(** The place of a fragment in the index. *)
Definition fragment_key (f : Fragment) : InsertionFragmentKey := mkInsertionKey (f_timestamp f) (f_insertion_offset f).

Lemma spans_keys fs : Forall (fun f => 0 < f_len f) fs → spans_ok (span_of <$> fs) → NoDup (fragment_key <$> fs).
Proof.
  induction fs as [|f fs IH]; intros Hl Hs; [constructor|]. inversion Hl as [|? ? Hf Hl']; subst. cbn in Hs. inversion Hs as [|? ? Ha Hs']; subst.
  cbn. constructor; [|by apply IH]. rewrite list_elem_of_fmap. intros (g & Hk & Hg). rewrite Forall_fmap, !Forall_forall in *.
  specialize (Ha g Hg). specialize (Hl' g Hg). unfold fragment_key in Hk. injection Hk as E1 E2. unfold apart in Ha. cbn in Ha.
  destruct Ha as [?|[?|?]]; [done|lia..].
Qed.

(** ** The invariant *)
(** The spans ahead, the first one consumed up to [x1]. *)
Definition rem (aps : pieces) (x1 : list N) : list Span :=
  match aps with
  | [] => []
  | (f, _) :: rest =>
      mkSpan (f_timestamp f) (f_insertion_offset f + byte_len x1) (f_insertion_offset f + f_len f) :: (span_of <$> rest.*1)
  end.
(** The fragments that have been met. *)
Definition met (bps aps : pieces) (x1 : list N) : list Fragment := bps.*1 ++ if decide (x1 = []) then [] else take 1 aps.*1.

Lemma rem_nil aps : rem aps [] = span_of <$> aps.*1.
Proof. destruct aps as [|[f x] rest]; [done|]. cbn. unfold span_of. by rewrite N.add_0_r. Qed.

Section index.
Context {D : Type}.
Abbreviation sstate := (EditState (list N) (list N) D).

(** Offsets are below the limit, those of this edit's insertion below [ins]. *)
Definition span_in (ts : Lamport) (ins : N) (s : Span) : Prop :=
  sp_end s <= u32_max ∧ (sp_insertion s = ts → sp_end s <= ins).

Record entries_inv (st : sstate) (bps aps nps : pieces) (x1 : list N) (pushed : list Fragment) : Prop := {
  en_insertions : es_new_insertions st = insert_new <$> pushed;
  en_new : pushed `sublist_of` nps.*1;
  en_kept : ∀ g, g ∈ nps.*1 → g ∈ pushed ∨ g ∈ bps.*1;
  en_met : ∀ f, f ∈ met bps aps x1 → f ∈ nps.*1 ∨ fragment_key f ∈ fragment_key <$> pushed
}.
Record index_inv (ts : Lamport) (ins : N) (st : sstate) (bps aps nps : pieces) (x1 : list N) : Prop := {
  xi_spans : spans_ok ((span_of <$> nps.*1) ++ rem aps x1);
  xi_bound : Forall (span_in ts ins) ((span_of <$> nps.*1) ++ rem aps x1);
  xi_offset : es_insertion_offset st = ins;
  xi_entries : ∃ pushed, entries_inv st bps aps nps x1 pushed;
  xi_slices : ∃ changed, es_insertion_slices st = slice_from_fragment ts <$> changed ∧ changed `sublist_of` nps.*1
}.

(** A piece is pushed onto the new fragments and its text moved by the builder. *)
Definition pushed (st : sstate) (f : Fragment) (t : SumTree Fragment FragmentSummary) (b : sbuilder) : sstate :=
  mkEditState (es_old_fragments st) (es_fragment_start st) t b (es_insertion_offset st)
    (es_new_insertions st ++ [insert_new f]) (es_insertion_slices st) (es_edits_patch st) (es_ranges st) (es_new_text st).

(** What a step adds to the entries and the slices. *)
Definition grows (ts : Lamport) (st st' : sstate) (gs hs : list Fragment) : Prop :=
  es_new_insertions st' = es_new_insertions st ++ (insert_new <$> gs) ∧
  es_insertion_slices st' = es_insertion_slices st ++ (slice_from_fragment ts <$> hs).

Section steps.
Context (ts : Lamport) (ins : N).
Abbreviation ix := (index_inv ts ins).

Lemma slices_grow st st' (nps : pieces) gs hs k :
  grows ts st st' gs hs → hs `sublist_of` k →
  (∃ changed, es_insertion_slices st = slice_from_fragment ts <$> changed ∧ changed `sublist_of` nps.*1) →
  ∃ changed, es_insertion_slices st' = slice_from_fragment ts <$> changed ∧ changed `sublist_of` nps.*1 ++ k.
Proof.
  intros [_ E] Hk (ch & Ec & Hc). exists (ch ++ hs). rewrite E, Ec, fmap_app. split; [done|]. by apply sublist_app.
Qed.

(** Whole fragments are taken over. *)
Lemma index_keep st st' bps lps rps nps :
  ix st bps (lps ++ rps) nps [] → grows ts st st' [] [] → es_insertion_offset st' = es_insertion_offset st →
  ix st' (bps ++ lps) rps (nps ++ lps) [].
Proof.
  intros [H1 H2 H3 (pushed & [E1 E2 E3 E4]) H5] Hg Ho. rewrite rem_nil, fmap_app in *. split; rewrite ?rem_nil, ?fmap_app.
  - by rewrite fmap_app, <-app_assoc in *.
  - by rewrite fmap_app, <-app_assoc in *.
  - by rewrite Ho.
  - exists pushed. split.
    + rewrite (proj1 Hg), E1. by rewrite app_nil_r.
    + rewrite fmap_app. by apply sublist_inserts_r.
    + intros g. rewrite !fmap_app, !elem_of_app. intros [Hin|Hin]; [destruct (E3 g Hin); auto|auto].
    + intros f. unfold met in *. rewrite !fmap_app, !elem_of_app. cbn [decide]. rewrite decide_True by done.
      intros [[Hin|Hin]|Hin%not_elem_of_nil]; [|auto|done].
      destruct (E4 f) as [?|?]; [rewrite elem_of_app; auto|auto|auto].
  - by apply (slices_grow st st' nps [] [] lps.*1 Hg); [apply sublist_nil_l|].
Qed.

(** A part of the fragment at the cursor becomes a new one. *)
Lemma index_part st st' bps f x1 m x2 rest nps g hs :
  ix st bps ((f, x1 ++ m ++ x2) :: rest) nps x1 → byte_len (x1 ++ m ++ x2) = f_len f → m ≠ [] →
  span_of g = mkSpan (f_timestamp f) (f_insertion_offset f + byte_len x1) (f_insertion_offset f + byte_len (x1 ++ m)) →
  grows ts st st' [g] hs → hs `sublist_of` [g] → es_insertion_offset st' = es_insertion_offset st →
  ix st' bps ((f, x1 ++ m ++ x2) :: rest) (nps ++ [(g, m)]) (x1 ++ m).
Proof.
  intros [H1 H2 H3 (pushed & [E1 E2 E3 E4]) H5] Hl Hm Hsp Hg Hhs Ho. rewrite !byte_len_app in Hl.
  assert (Hend : f_insertion_offset f + byte_len x1 <= f_insertion_offset f + byte_len (x1 ++ m) <= f_insertion_offset f + f_len f)
    by (rewrite byte_len_app; lia).
  split; rewrite ?fmap_app; cbn [rem fmap list_fmap fst] in *.
  - rewrite Hsp. eapply spans_cut; [exact Hend|exact H1].
  - rewrite Hsp. apply Forall_app in H2 as [H2 [(Hb1 & Hb2) Hr]%Forall_cons]. cbn in Hb1, Hb2.
    apply Forall_app. split; [apply Forall_app; split; [done|]|].
    + constructor; [|done]. split; cbn; [lia|]. intros Et. specialize (Hb2 Et). lia.
    + constructor; [|done]. by split.
  - by rewrite Ho.
  - exists (pushed ++ [g]). split.
    + by rewrite (proj1 Hg), E1, fmap_app.
    + rewrite fmap_app. by apply sublist_app.
    + intros h. rewrite !fmap_app, !elem_of_app. intros [Hin|Hin]; [destruct (E3 h Hin); auto|auto].
    + intros h Hin. rewrite !fmap_app, !elem_of_app. unfold met in *. rewrite decide_False in Hin by (by destruct x1, m).
      apply elem_of_app in Hin as [Hin|Hin].
      { destruct (E4 h) as [?|?]; [apply elem_of_app|..]; auto. }
      cbn [fmap list_fmap take fst] in Hin. rewrite take_0 in Hin. apply list_elem_of_singleton in Hin as ->.
      destruct (decide (x1 = [])) as [->|Hx].
      * right. right. cbn. apply list_elem_of_singleton. unfold fragment_key. unfold span_of in Hsp. injection Hsp as -> -> _.
        change (byte_len []) with 0. by rewrite N.add_0_r.
      * destruct (E4 f) as [?|?]; [|auto|auto]. apply elem_of_app. right. cbn. rewrite take_0. by apply list_elem_of_singleton.
  - by eapply (slices_grow st st' nps [g] hs [g]).
Qed.

(** The fragment at the cursor has been consumed. *)
Lemma index_next st st' bps f x rest nps :
  ix st bps ((f, x) :: rest) nps x → x ≠ [] → grows ts st st' [] [] → es_insertion_offset st' = es_insertion_offset st →
  ix st' (bps ++ [(f, x)]) rest nps [].
Proof.
  intros [H1 H2 H3 (pushed & [E1 E2 E3 E4]) H5] Hx Hg Ho. cbn [rem] in *. split; rewrite ?rem_nil.
  - eapply (spans_perm _ (_ :: _ ++ _)) in H1; [|symmetry; apply Permutation_middle]. by inversion H1.
  - rewrite !Forall_app, Forall_cons in *. tauto.
  - by rewrite Ho.
  - exists pushed. split.
    + rewrite (proj1 Hg), E1. by rewrite app_nil_r.
    + done.
    + intros g Hin. rewrite fmap_app, elem_of_app. destruct (E3 g Hin); auto.
    + intros h. unfold met in *. rewrite decide_True by done. rewrite decide_False in E4 by done. cbn in E4. rewrite take_0 in E4.
      rewrite app_nil_r, fmap_app. apply E4.
  - destruct (slices_grow st st' nps [] [] [] Hg ltac:(done) H5) as (ch & ? & Hch). rewrite app_nil_r in Hch. eauto.
Qed.

(** A deleted fragment is kept as it is, with an entry. *)
Lemma index_skip st st' bps f x rest nps :
  ix st bps ((f, x) :: rest) nps [] → grows ts st st' [f] [] → es_insertion_offset st' = es_insertion_offset st →
  ix st' (bps ++ [(f, x)]) rest (nps ++ [(f, x)]) [].
Proof.
  intros [H1 H2 H3 (pushed & [E1 E2 E3 E4]) H5] Hg Ho. rewrite rem_nil in *. split; rewrite ?rem_nil, ?fmap_app.
  - by rewrite <-app_assoc.
  - by rewrite <-app_assoc.
  - by rewrite Ho.
  - exists (pushed ++ [f]). split.
    + by rewrite (proj1 Hg), E1, fmap_app.
    + rewrite fmap_app. by apply sublist_app.
    + intros h. rewrite !fmap_app, !elem_of_app. intros [Hin|Hin]; [destruct (E3 h Hin); auto|auto].
    + intros h. unfold met in *. rewrite decide_True by done. rewrite decide_True in E4 by done. rewrite app_nil_r in *.
      rewrite !fmap_app, !elem_of_app. intros [Hin|Hin]; [destruct (E4 h Hin); auto|auto].
  - by apply (slices_grow st st' nps [f] [] [f] Hg); [apply sublist_nil_l|].
Qed.
End steps.

(** The new text becomes a fragment whose span follows those of this insertion. *)
Lemma index_insert ts ins st st' bps aps nps x1 g t :
  index_inv ts ins st bps aps nps x1 → f_timestamp g = ts → f_insertion_offset g = ins → f_len g = byte_len t →
  ins + byte_len t <= u32_max → grows ts st st' [g] [g] → es_insertion_offset st' = ins + byte_len t →
  index_inv ts (ins + byte_len t) st' bps aps (nps ++ [(g, t)]) x1.
Proof.
  intros [H1 H2 H3 (pushed & [E1 E2 E3 E4]) H5] Ht Hoff Hl Hle Hg Ho. split; rewrite ?fmap_app; cbn [fmap list_fmap fst].
  - eapply (spans_perm (span_of g :: _)); [rewrite <-app_assoc; apply Permutation_middle|]. constructor; [|done].
    eapply Forall_impl; [exact H2|]. intros s (_ & Hs). destruct (decide (sp_insertion s = ts)) as [E|E].
    + right. right. cbn. rewrite Hoff. by apply Hs.
    + left. cbn. congruence.
  - rewrite <-app_assoc, !Forall_app, Forall_singleton in *. destruct H2 as [H2a H2b].
    split_and!; [eapply Forall_impl; [exact H2a|]|split_and!; cbn; intros; rewrite ?Ht; lia|eapply Forall_impl; [exact H2b|]];
      intros s (? & Hs); (split; [done|]); intros E; specialize (Hs E); lia.
  - done.
  - exists (pushed ++ [g]). split.
    + by rewrite (proj1 Hg), E1, fmap_app.
    + rewrite fmap_app. by apply sublist_app.
    + intros h. rewrite !fmap_app, !elem_of_app. intros [Hin|Hin]; [destruct (E3 h Hin); auto|auto].
    + intros h Hin. rewrite !fmap_app, !elem_of_app. destruct (E4 h Hin); auto.
  - by eapply (slices_grow ts st st' nps [g] [g] [g]).
Qed.


Lemma index_same ts ins st st' bps aps nps x1 :
  index_inv ts ins st bps aps nps x1 → grows ts st st' [] [] → es_insertion_offset st' = es_insertion_offset st →
  index_inv ts ins st' bps aps nps x1.
Proof.
  intros [H1 H2 H3 (pushed & [E1 E2 E3 E4]) H5] [Hg1 Hg2] Ho. cbn in Hg1, Hg2. rewrite app_nil_r in *.
  split; try done; [by rewrite Ho|exists pushed; split; try done; by rewrite Hg1|by rewrite Hg2].
Qed.

End index.

Ltac grow_tac := split; cbn; rewrite ?app_nil_r; done.

(** * Where the fragments of a local edit come from

    [origin] says what a fragment made by an edit is: new text, a part of an older fragment,
    or a part the edit deleted.  [traced] adds, along the walk of [apply_local_edit], that
    every fragment the edit made or deleted has its slice, by which an undo will find it, and
    that without the edit the fragments would still show the old text. *)

(** [g] is a part of [f]. *)
Record part_of (g f : Fragment) : Prop := {
  pt_insertion : f_timestamp g = f_timestamp f;
  pt_start : f_insertion_offset f <= f_insertion_offset g;
  pt_end : f_insertion_offset g + f_len g <= f_insertion_offset f + f_len f
}.

Inductive origin (ts : Lamport) (fs : list Fragment) (g : Fragment) : Prop :=
  | origin_new : f_timestamp g = ts → f_deletions g = [] → f_visible g = true → origin ts fs g
  | origin_kept f : f ∈ fs → part_of g f → f_deletions g = f_deletions f → f_visible g = f_visible f → origin ts fs g
  | origin_deleted f : f ∈ fs → part_of g f → f_deletions g = f_deletions f ++ [ts] → f_visible f = true → f_visible g = false →
      origin ts fs g.

(** The same, where the deleted part may have been invisible already. *)
Inductive derived (ts : Lamport) (fs : list Fragment) (g : Fragment) : Prop :=
  | derived_new : f_timestamp g = ts → f_deletions g = [] → f_visible g = true → derived ts fs g
  | derived_kept f : f ∈ fs → part_of g f → f_deletions g = f_deletions f → f_visible g = f_visible f → derived ts fs g
  | derived_deleted f : f ∈ fs → part_of g f → f_deletions g = f_deletions f ++ [ts] → f_visible g = false → derived ts fs g.
Lemma origin_derived ts fs g : origin ts fs g → derived ts fs g.
Proof.
  intros [|f Hf Hp Hd Hv|f Hf Hp Hd _ Hv]; [by apply derived_new|by apply (derived_kept ts fs g f)|by apply (derived_deleted ts fs g f)].
Qed.

(** The edit made or deleted the fragment. *)
Definition touched (ts : Lamport) (f : Fragment) : Prop := f_timestamp f = ts ∨ ts ∈ f_deletions f.
#[export] Instance touched_dec ts f : Decision (touched ts f).
Proof. unfold touched. apply _. Defined.

(** The text a fragment shows without the edit. *)
Definition restored (ts : Lamport) (p : Fragment * list N) : list N :=
  if decide (f_timestamp p.1 = ts) then []
  else if f_visible p.1 || bool_decide (ts ∈ f_deletions p.1) then p.2 else [].
Definition restored_text (ts : Lamport) (ps : pieces) : list N := flat_map (restored ts) ps.

Lemma restored_app ts l k : restored_text ts (l ++ k) = restored_text ts l ++ restored_text ts k.
Proof. apply flat_map_app. Qed.

Abbreviation estate := (EditState (list N) (list N)).
Record traced {D : Type} (ts : Lamport) (fs : list Fragment) (st : estate D) (nps : pieces) (shown : list N) : Prop := {
  tr_origin : Forall (origin ts fs) nps.*1;
  tr_slices : ∀ g, g ∈ nps.*1 → touched ts g → slice_from_fragment ts g ∈ es_insertion_slices st;
  tr_text : restored_text ts nps = shown
}.

(** No fragment is touched before the edit begins. *)
Abbreviation untouched ts := (Forall (λ f, ¬ touched ts f)).

Lemma restored_untouched ts (ps : pieces) : untouched ts ps.*1 → restored_text ts ps = vis_text ps.
Proof.
  unfold restored_text, vis_text, touched, restored. induction ps as [|[f t] ps IH]; [done|]. cbn. intros [Hf Hps]%Forall_cons.
  rewrite IH by done. rewrite decide_False, bool_decide_eq_false_2 by tauto. by rewrite orb_false_r.
Qed.

Section trace.
Context {D : Type} (ts : Lamport) (fs : list Fragment) (Hun : untouched ts fs).

Lemma origin_self f : f ∈ fs → origin ts fs f.
Proof. intros H. by apply (origin_kept ts fs f f). Qed.

Implicit Types st : estate D.

Lemma traced_same st st' nps shown :
  traced ts fs st nps shown → es_insertion_slices st' = es_insertion_slices st → traced ts fs st' nps shown.
Proof. intros [H1 H2 H3] E. split; [done| |done]. by rewrite E. Qed.

(** A piece is added. *)
Lemma traced_push st st' nps shown g m :
  traced ts fs st nps shown → origin ts fs g → es_insertion_slices st ⊆ es_insertion_slices st' →
  (touched ts g → slice_from_fragment ts g ∈ es_insertion_slices st') →
  traced ts fs st' (nps ++ [(g, m)]) (shown ++ restored ts (g, m)).
Proof.
  intros [H1 H2 H3] Hg Hsub Hs. split.
  - rewrite fmap_app. apply Forall_app. split; [done|]. by constructor.
  - intros h. rewrite fmap_app, elem_of_app. intros [Hin|Hin] Ht; [by apply Hsub, H2|]. cbn in Hin. apply list_elem_of_singleton in Hin as ->. auto.
  - rewrite restored_app, H3. unfold restored_text. cbn [flat_map]. by rewrite app_nil_r.
Qed.

(** Parts that are kept. *)
Lemma traced_part st st' nps shown f g m :
  traced ts fs st nps shown → f ∈ fs → part_of g f → f_deletions g = f_deletions f → f_visible g = f_visible f →
  es_insertion_slices st' = es_insertion_slices st →
  traced ts fs st' (nps ++ [(g, m)]) (shown ++ if f_visible f then m else []).
Proof using All.
  intros H Hf Hp Hd Hv E. rewrite Forall_forall in Hun. specialize (Hun f Hf). unfold touched in Hun.
  assert (Hg : ¬ touched ts g) by (unfold touched; rewrite Hd, (pt_insertion _ _ Hp); done). unfold touched in Hg.
  replace (if f_visible f then m else []) with (restored ts (g, m)).
  - eapply traced_push; [done|by eapply origin_kept|by rewrite E|done].
  - unfold restored. cbn. rewrite decide_False, bool_decide_eq_false_2 by tauto. by rewrite Hv, orb_false_r.
Qed.

(** Whole fragments that are kept. *)
Lemma traced_keep st st' nps lps shown :
  traced ts fs st nps shown → lps.*1 ⊆ fs → es_insertion_slices st' = es_insertion_slices st →
  traced ts fs st' (nps ++ lps) (shown ++ vis_text lps).
Proof using All.
  intros [H1 H2 H3] Hl E. assert (Hul : untouched ts lps.*1).
  { rewrite Forall_forall in Hun. apply Forall_forall. auto. }
  split.
  - rewrite fmap_app. apply Forall_app. split; [done|]. apply Forall_forall. intros f Hf. by apply origin_self, Hl.
  - intros g. rewrite fmap_app, elem_of_app, E. intros [Hin|Hin] Ht; [by apply H2|]. rewrite Forall_forall in Hul. by destruct (Hul g Hin).
  - by rewrite restored_app, H3, restored_untouched.
Qed.

(** New text. *)
Lemma traced_insert st st' nps shown g m :
  traced ts fs st nps shown → f_timestamp g = ts → f_deletions g = [] → f_visible g = true →
  es_insertion_slices st' = es_insertion_slices st ++ [slice_from_fragment ts g] → traced ts fs st' (nps ++ [(g, m)]) shown.
Proof.
  intros H Ht Hd Hv E. rewrite <-(app_nil_r shown). replace [] with (restored ts (g, m)) by (unfold restored; cbn; by rewrite decide_True).
  eapply traced_push; [done|by apply origin_new|rewrite E; set_solver|]. intros _. rewrite E. set_solver.
Qed.

(** Parts that are deleted. *)
Lemma traced_delete st st' nps shown f g m :
  traced ts fs st nps shown → f ∈ fs → part_of g f → f_deletions g = f_deletions f ++ [ts] → f_visible f = true → f_visible g = false →
  es_insertion_slices st' = es_insertion_slices st ++ [slice_from_fragment ts g] →
  traced ts fs st' (nps ++ [(g, m)]) (shown ++ m).
Proof using All.
  intros H Hf Hp Hd Hv Hgv E. assert (Hne : f_timestamp g ≠ ts).
  { rewrite (pt_insertion _ _ Hp). rewrite Forall_forall in Hun. intros Et. apply (Hun f Hf). by left. }
  replace m with (restored ts (g, m)) at 2.
  - eapply traced_push; [done|by eapply origin_deleted|rewrite E; set_solver|]. intros _. rewrite E. set_solver.
  - unfold restored. cbn. rewrite decide_False, bool_decide_eq_true_2 by (done || (rewrite Hd; set_solver)). by rewrite orb_true_r.
Qed.
End trace.
