(* ===== verification/Doc.v ===== *)
(** * The document as a sequence of characters

    How a buffer cuts its text into fragments differs from replica to replica.  What the
    replicas share is the sequence of all characters ever inserted, each with the insertion it
    belongs to, its place in it, and the edits that deleted it: the document.  [integrate] says
    what an edit of some version does to a document; [doc_text] what a document shows. *)

From stdpp Require Import sets gmap.
From S2P Require Import Prelude Ord Clock SumTree Cursor Locator Patch Bitmap Utf8 Point TextSummary Chunk ChunkFacts SumTreeFacts KeyedTree KeyedFacts UndoMap History Fragments BufferEdit EditIndex.
Local Open Scope N_scope.

(** ** Characters *)
Record Atom := mkAtom {
  at_char : N;
  at_insertion : Lamport;
  at_offset : N;
  at_deletions : gset Lamport
}.
Abbreviation document := (list Atom).

(** The characters of a stretch of an insertion, from an offset on. *)
Fixpoint atoms (insertion : Lamport) (deletions : gset Lamport) (offset : N) (text : list N) : document :=
  match text with
  | [] => []
  | c :: text => mkAtom c insertion offset deletions :: atoms insertion deletions (offset + len_utf8 c) text
  end.

Lemma atoms_app i d o l k : atoms i d o (l ++ k) = atoms i d o l ++ atoms i d (o + byte_len l) k.
Proof.
  revert o. induction l as [|c l IH]; intros o; cbn [app atoms]; [by rewrite N.add_0_r|].
  rewrite IH, byte_len_cons. cbn. by rewrite N.add_assoc.
Qed.

Lemma atoms_chars i d o t : at_char <$> atoms i d o t = t.
Proof. revert o. induction t as [|c t IH]; intros o; cbn; [done|]. by rewrite IH. Qed.

Definition piece_atoms (p : Fragment * list N) : document :=
  atoms (f_timestamp p.1) (list_to_set (f_deletions p.1)) (f_insertion_offset p.1) p.2.
Definition doc (ps : pieces) : document := flat_map piece_atoms ps.
Lemma doc_app l k : doc (l ++ k) = doc l ++ doc k.
Proof. apply flat_map_app. Qed.
Lemma doc_cons p l : doc (p :: l) = piece_atoms p ++ doc l.
Proof. done. Qed.
Lemma doc_snoc l p : doc (l ++ [p]) = doc l ++ piece_atoms p.
Proof. rewrite doc_app. unfold doc at 2. cbn. by rewrite app_nil_r. Qed.

(** The characters of a document are those of the pieces. *)
Lemma doc_chars ps : at_char <$> doc ps = concat ps.*2.
Proof. induction ps as [|[f t] ps IH]; [done|]. rewrite doc_cons, fmap_app, IH. cbn. unfold piece_atoms. by rewrite atoms_chars. Qed.
Lemma texts_chars (ps : pieces) : vis_text ps ++ del_text ps ≡ₚ at_char <$> doc ps.
Proof.
  rewrite doc_chars. induction ps as [|p l IH]; [done|]. unfold vis_text, del_text in *. cbn. rewrite <-IH. destruct (f_visible p.1); cbn; solve_Permutation.
Qed.

(** ** What a document shows *)
(** [undone e]: the edit [e] is undone. *)
Definition atom_shown (undone : Lamport → bool) (a : Atom) : bool :=
  negb (undone (at_insertion a)) && bool_decide (set_Forall (fun e => undone e = true) (at_deletions a)).
Definition doc_text (undone : Lamport → bool) (l : document) : list N :=
  flat_map (fun a => if atom_shown undone a then [at_char a] else []) l.
Lemma doc_text_app undone l k : doc_text undone (l ++ k) = doc_text undone l ++ doc_text undone k.
Proof. apply flat_map_app. Qed.

Lemma doc_text_atoms undone i d o t :
  doc_text undone (atoms i d o t) = if negb (undone i) && bool_decide (set_Forall (fun e => undone e = true) d) then t else [].
Proof.
  revert o. induction t as [|c t IH]; intros o; cbn [atoms].
  - by destruct (negb _ && _).
  - unfold doc_text. cbn [flat_map]. fold (doc_text undone (atoms i d (o + len_utf8 c) t)). rewrite IH.
    unfold atom_shown. cbn. by destruct (negb _ && _).
Qed.

(** ** What an edit does *)
Section integrate.
Context (v : Global) (was : Atom → bool) (ts : Lamport).

(** The version had observed the character. *)
Definition observed_atom (a : Atom) : bool := global_observed v (at_insertion a).
Definition observed_bytes (l : document) : N := foldr (fun a n => (if observed_atom a then len_utf8 (at_char a) else 0) + n) 0 l.

(** [n] bytes of the text of the version, with all that lies between them. *)
Fixpoint pass (n : N) (l : document) : document * document :=
  match l with
  | [] => ([], [])
  | a :: r =>
      if n =? 0 then ([], l)
      else let '(p, q) := pass (if observed_atom a then n - len_utf8 (at_char a) else n) r in (a :: p, q)
  end.
(** What comes after the edit in the order of insertions at one place. *)
Fixpoint skip (l : document) : document * document :=
  match l with
  | [] => ([], [])
  | a :: r => if ltb ts (at_insertion a) then let '(p, q) := skip r in (a :: p, q) else ([], l)
  end.
(** The edit deletes what the version saw. *)
Definition mark (a : Atom) : Atom :=
  if observed_atom a && was a then mkAtom (at_char a) (at_insertion a) (at_offset a) ({[ts]} ∪ at_deletions a) else a.

(** The edits from position [pos] of the text of the version on; [o] bytes have been inserted. *)
Fixpoint integrate (o pos : N) (edits : list (Range N * list N)) (l : document) : document :=
  match edits with
  | [] => l
  | (range, t) :: edits =>
      let '(p, l) := pass (r_start range - pos) l in
      let '(s, l) := skip l in
      let '(d, l) := pass (r_end range - r_start range) l in
      p ++ s ++ atoms ts ∅ o t ++ (mark <$> d) ++ integrate (o + byte_len t) (r_end range) edits l
  end.

Lemma pass_0 l : pass 0 l = ([], l).
Proof. by destruct l. Qed.
Lemma observed_bytes_app l k : observed_bytes (l ++ k) = observed_bytes l + observed_bytes k.
Proof. unfold observed_bytes. induction l as [|a l IH]; [done|]. cbn [app foldr]. rewrite IH. lia. Qed.

(** Less than [n] bytes are passed as a whole. *)
Lemma pass_app n l k :
  observed_bytes l < n → pass n (l ++ k) = (l ++ (pass (n - observed_bytes l) k).1, (pass (n - observed_bytes l) k).2).
Proof.
  revert n. induction l as [|a l IH]; intros n Hn; cbn [app pass].
  - change (observed_bytes []) with 0. rewrite N.sub_0_r. by destruct (pass n k).
  - change (observed_bytes (a :: l)) with ((if observed_atom a then len_utf8 (at_char a) else 0) + observed_bytes l) in *.
    rewrite (proj2 (N.eqb_neq n 0)) by lia. rewrite IH by (destruct (observed_atom a); lia). cbn [fst snd].
    by replace ((if observed_atom a then n - len_utf8 (at_char a) else n) - observed_bytes l)
      with (n - ((if observed_atom a then len_utf8 (at_char a) else 0) + observed_bytes l)) by (destruct (observed_atom a); lia).
Qed.

Lemma atoms_observed i d o t :
  observed_bytes (atoms i d o t) = if global_observed v i then byte_len t else 0.
Proof.
  revert o. induction t as [|c t IH]; intros o; cbn [atoms].
  - by destruct (global_observed v i).
  - change (observed_bytes (?a :: ?l)) with ((if observed_atom a then len_utf8 (at_char a) else 0) + observed_bytes l).
    rewrite IH. unfold observed_atom. cbn. rewrite byte_len_cons. by destruct (global_observed v i).
Qed.

(** A stretch that has been observed is passed exactly. *)
Lemma pass_atoms i d o t l : global_observed v i = true → pass (byte_len t) (atoms i d o t ++ l) = (atoms i d o t, l).
Proof.
  intros Hi. destruct (snoc_case t) as [->|(t' & c & ->)]; [apply pass_0|]. rewrite atoms_app, <-app_assoc, byte_len_app.
  assert (Hc : 0 < byte_len [c]). { destruct (N.eq_dec (byte_len [c]) 0) as [E|E]; [by apply byte_len_zero in E|lia]. }
  rewrite byte_len_cons in *. change (byte_len []) with 0 in *.
  rewrite pass_app by (rewrite atoms_observed, Hi; lia). rewrite atoms_observed, Hi.
  replace (byte_len t' + (len_utf8 c + 0) - byte_len t') with (len_utf8 c) by lia. cbn [atoms app pass]. rewrite (proj2 (N.eqb_neq _ 0)) by lia.
  unfold observed_atom. cbn [at_insertion at_char]. rewrite Hi, N.sub_diag, pass_0. done.
Qed.

Lemma skip_atoms i d o t l : ltb ts i = true → skip (atoms i d o t ++ l) = (atoms i d o t ++ (skip l).1, (skip l).2).
Proof.
  intros Hi. revert o. induction t as [|c t IH]; intros o; cbn [atoms app skip]; [by destruct (skip l)|]. cbn. by rewrite Hi, IH.
Qed.
Lemma skip_stop i d o t l : ltb ts i = false → t ≠ [] → skip (atoms i d o t ++ l) = ([], atoms i d o t ++ l).
Proof. intros Hi Ht. destruct t as [|c t]; [done|]. cbn. by rewrite Hi. Qed.
End integrate.

(** ** What a version saw *)
Section version.
Context (v : Global) (entries : list UndoMapEntry).

(** The edit was undone at the version, by these entries of an undo map. *)
Definition undone_at (e : Lamport) : bool :=
  max_count (fun x => global_observed v (undo_id (um_key x))) (of_edit e entries) `mod` 2 =? 1.
(** The version showed the character. *)
Definition atom_was (a : Atom) : bool :=
  negb (undone_at (at_insertion a)) && bool_decide (set_Forall (fun d => negb (global_observed v d) || undone_at d = true) (at_deletions a)).

Lemma atoms_was i d o t a : a ∈ atoms i d o t → at_insertion a = i ∧ at_deletions a = d.
Proof.
  revert o. induction t as [|c t IH]; intros o; cbn [atoms]; [by intros ?%not_elem_of_nil|]. rewrite elem_of_cons. intros [->|H]; [done|by apply (IH _ H)].
Qed.

Lemma mark_unseen ts i d o t : global_observed v i = false → mark v atom_was ts <$> atoms i d o t = atoms i d o t.
Proof.
  intros Hi. rewrite <-(list_fmap_id (atoms i d o t)) at 2. apply list_fmap_ext. intros _ a Ha%list_elem_of_lookup_2. destruct (atoms_was _ _ _ _ _ Ha) as [E _].
  unfold mark, observed_atom. by rewrite E, Hi.
Qed.
Lemma mark_seen ts i (d : list Lamport) o t (b : bool) :
  global_observed v i = true → b = negb (undone_at i) && forallb (fun e => negb (global_observed v e) || undone_at e) d →
  mark v atom_was ts <$> atoms i (list_to_set d) o t = atoms i (list_to_set (if b then d ++ [ts] else d)) o t.
Proof.
  intros Hi Hb. assert (Hw : ∀ a, a ∈ atoms i (list_to_set d) o t → atom_was a = b).
  { intros a Ha. destruct (atoms_was _ _ _ _ _ Ha) as [E1 E2]. unfold atom_was. rewrite E1, E2, Hb. f_equal. apply eq_true_iff_eq.
    rewrite bool_decide_eq_true, forallb_forall. unfold set_Forall. setoid_rewrite elem_of_list_to_set. by setoid_rewrite list_elem_of_In. }
  clear Hb. revert o Hw. induction t as [|c t IH]; intros o Hw; cbn [atoms fmap list_fmap]; [done|]. f_equal.
  - unfold mark, observed_atom. rewrite Hw by (cbn [atoms]; left). cbn [at_insertion at_char at_offset at_deletions]. rewrite Hi. cbn [andb].
    destruct b; [|done]. f_equal. rewrite list_to_set_app_L. cbn. set_solver.
  - apply IH. intros a Ha. apply Hw. cbn [atoms]. by right.
Qed.
End version.

(** ** Documents while fragments are walked over *)
(** The part [x1] of the first fragment ahead. *)
Definition head_atoms (aps : pieces) (x1 : list N) : document :=
  match aps with [] => [] | (f, _) :: _ => atoms (f_timestamp f) (list_to_set (f_deletions f)) (f_insertion_offset f) x1 end.
(** What has been walked over. *)
Definition walked (bps aps : pieces) (x1 : list N) : document := doc bps ++ head_atoms aps x1.

Lemma head_atoms_nil aps : head_atoms aps [] = [].
Proof. by destruct aps as [|[f x] aps]. Qed.
Lemma walked_nil bps aps : walked bps aps [] = doc bps.
Proof. unfold walked. by rewrite head_atoms_nil, app_nil_r. Qed.
Lemma walked_next bps f x rest : walked (bps ++ [(f, x)]) rest [] = walked bps ((f, x) :: rest) x.
Proof. rewrite walked_nil, doc_snoc. done. Qed.
Lemma walked_more bps f x rest x1 m :
  walked bps ((f, x) :: rest) (x1 ++ m) = walked bps ((f, x) :: rest) x1 ++ atoms (f_timestamp f) (list_to_set (f_deletions f)) (f_insertion_offset f + byte_len x1) m.
Proof. unfold walked. cbn [head_atoms]. by rewrite atoms_app, app_assoc. Qed.
Lemma walked_keep bps lps rps : walked (bps ++ lps) rps [] = walked bps (lps ++ rps) [] ++ doc lps.
Proof. by rewrite !walked_nil, doc_app. Qed.

(** A part of a fragment that is cut out. *)
Lemma part_atoms f g x1 m e :
  span_of g = mkSpan (f_timestamp f) (f_insertion_offset f + byte_len x1) e → f_deletions g = f_deletions f →
  piece_atoms (g, m) = atoms (f_timestamp f) (list_to_set (f_deletions f)) (f_insertion_offset f + byte_len x1) m.
Proof. unfold span_of. intros [= E1 E2 _] Ed. unfold piece_atoms. cbn [fst snd]. by rewrite E1, E2, Ed. Qed.

(** A local edit deletes what is shown. *)
Definition strike (was : Atom → bool) (ts : Lamport) (a : Atom) : Atom :=
  if was a then mkAtom (at_char a) (at_insertion a) (at_offset a) ({[ts]} ∪ at_deletions a) else a.
Lemma strike_char was ts a : at_char (strike was ts a) = at_char a.
Proof. unfold strike. by destruct (was a). Qed.
Lemma strike_hidden was ts l : Forall (fun a => was a = false) l → strike was ts <$> l = l.
Proof. induction 1 as [|a l Ha _ IH]; [done|]. cbn. rewrite IH. unfold strike. by rewrite Ha. Qed.
Lemma strike_shown was ts i (d : list Lamport) o t :
  (∀ a, a ∈ atoms i (list_to_set d) o t → was a = true) → strike was ts <$> atoms i (list_to_set d) o t = atoms i (list_to_set (d ++ [ts])) o t.
Proof.
  revert o. induction t as [|c t IH]; intros o Hw; cbn [atoms fmap list_fmap]; [done|]. rewrite IH by (intros a Ha; apply Hw; cbn [atoms]; by right). f_equal.
  unfold strike. rewrite Hw by (cbn [atoms]; left). cbn. f_equal. rewrite list_to_set_app_L. cbn. set_solver.
Qed.

(** The bytes of a stretch of a document. *)
Definition doc_bytes (l : document) : N := byte_len (at_char <$> l).
Lemma doc_bytes_app l k : doc_bytes (l ++ k) = doc_bytes l + doc_bytes k.
Proof. unfold doc_bytes. by rewrite fmap_app, byte_len_app. Qed.

(** ** Changes of a document *)
(** A stretch that is kept, one that is deleted and the text put in its place. *)
Record DocChange := mkDocChange { dc_keep : document; dc_delete : document; dc_text : list N }.
Definition doc_before (cs : list DocChange) : document := flat_map (fun c => dc_keep c ++ dc_delete c) cs.
(** The document after the changes; [o] bytes have been inserted before them. *)
Fixpoint doc_after (was : Atom → bool) (ts : Lamport) (o : N) (cs : list DocChange) : document :=
  match cs with
  | [] => []
  | c :: cs => dc_keep c ++ atoms ts ∅ o (dc_text c) ++ (strike was ts <$> dc_delete c) ++ doc_after was ts (o + byte_len (dc_text c)) cs
  end.
(** The ranges of the changes among all bytes, shown or not. *)
Fixpoint doc_ranges (o : N) (cs : list DocChange) : list (Range FullOffset) :=
  match cs with
  | [] => []
  | c :: cs =>
      let start := o + doc_bytes (dc_keep c) in
      let end_ := start + doc_bytes (dc_delete c) in
      mkRange start end_ :: doc_ranges end_ cs
  end.
