(* ===== verification/EditFacts.v ===== *)
(** * Facts about local edits

    The state of the walk, as pieces of text: the fragments passed, the ones ahead and the
    new ones, each with its text.  Every step keeps [edit_inv], so that the fragments, the
    two ropes and the patch agree all along. *)

From stdpp Require Import sets gmap.
From S2P Require Import Prelude Ord Clock SumTree SumTreeFacts SeekSpec Cursor CursorFacts SeekFacts Locator Patch PatchFacts Bitmap Utf8 Point TextSummary Chunk ChunkFacts Rope RopeFacts RopeSlices KeyedTree History Fragments UndoMap BufferEdit EditIndex Doc.
Local Open Scope N_scope.

Abbreviation fragment_tree := (SumTree Fragment FragmentSummary).
Abbreviation fragment_cursor := (Cursor Fragment FragmentSummary FragmentTextSummary).
Abbreviation cx := (@None Global).
Abbreviation sstate := (EditState (list N) (list N) FragmentTextSummary).

(** ** Line endings *)
Lemma encode_high c : 128 <= c → ∃ b bs, encode c = b :: bs ∧ Forall (fun x => 128 <= x) (b :: bs).
Proof.
  intros H. unfold encode. rewrite (proj2 (N.ltb_ge _ _)) by lia.
  repeat case_match; eexists _, _; (split; [done|]);
    repeat match goal with |- context [?a `mod` ?b] => generalize (a `mod` b); intro | |- context [?a / ?b] => generalize (a / b); intro end;
    repeat (apply Forall_cons_2; [lia|]); apply Forall_nil_2.
Qed.

Lemma normalize_high (bs r : list N) : Forall (fun x => 128 <= x) bs → normalize_arc (bs ++ r) = bs ++ normalize_arc r.
Proof.
  induction 1 as [|b bs Hb Hbs IH]; [done|]. cbn [app normalize_arc]. rewrite (proj2 (N.eqb_neq _ _)) by lia. by rewrite IH.
Qed.

Lemma encode_low c : c < 128 → encode c = [c].
Proof. intros H. unfold encode. by rewrite (proj2 (N.ltb_lt _ _)). Qed.

(** On strings as on characters. *)
Lemma normalize_str cs : normalize_arc (str_of cs) = str_of (normalize_arc cs).
Proof.
  induction cs as [cs IH] using (induction_ltof1 _ (@length N)). unfold ltof in IH. destruct cs as [|c cs]; [done|].
  cbn [str_of flat_map]. fold (str_of cs). destruct (N.lt_ge_cases c 128) as [Hc|Hc].
  - rewrite encode_low by done. cbn [app normalize_arc]. destruct (N.eqb_spec c 13) as [->|Hne].
    + cbn [str_of flat_map]. change (encode NEWLINE) with [NEWLINE]. cbn [app]. f_equal. destruct cs as [|c' cs]; [done|].
      destruct (N.lt_ge_cases c' 128) as [Hc'|Hc'].
      * cbn [str_of flat_map]. rewrite (encode_low c') by done. cbn [app]. fold (str_of cs).
        destruct (N.eqb_spec c' NEWLINE) as [->|Hne'].
        -- apply IH. cbn. lia.
        -- rewrite <-IH by (cbn; lia). cbn [str_of flat_map]. by rewrite (encode_low c') by done.
      * rewrite (proj2 (N.eqb_neq c' _)) by (unfold NEWLINE; lia). rewrite <-IH by (cbn; lia). cbn [str_of flat_map].
        destruct (encode_high c' Hc') as (b & bs & -> & Hb). cbn [app].
        rewrite (proj2 (N.eqb_neq b _)); [done|]. inversion Hb. unfold NEWLINE. lia.
    + cbn [str_of flat_map]. rewrite encode_low by done. cbn [app]. f_equal. apply IH. cbn. lia.
  - destruct (encode_high c Hc) as (b & bs & E & Hb). rewrite E, normalize_high by done.
    cbn [normalize_arc]. rewrite (proj2 (N.eqb_neq c _)) by lia. cbn [str_of flat_map]. rewrite E. f_equal. apply IH. cbn. lia.
Qed.

Lemma normalize_ok cs : Forall char_ok cs → Forall char_ok (normalize_arc cs).
Proof.
  induction cs as [cs IH] using (induction_ltof1 _ (@length N)). unfold ltof in IH. destruct cs as [|c cs]; [done|].
  intros H. inversion H as [|? ? Hc Hcs]; subst. cbn [normalize_arc]. destruct (c =? 13).
  - constructor; [left; unfold NEWLINE; lia|]. destruct cs as [|c' cs]; [constructor|]. inversion Hcs; subst.
    destruct (c' =? NEWLINE); apply IH; cbn; try done; lia.
  - constructor; [done|]. apply IH; [cbn; lia|done].
Qed.

(** ** Edits as changes of the text *)
(** A stretch of text that is kept, one that is deleted and one that is put in its place. *)
Record Change := mkChange { ch_keep : list N; ch_delete : list N; ch_insert : list N }.

Definition before_changes (cs : list Change) : list N := flat_map (fun c => ch_keep c ++ ch_delete c) cs.
Definition after_changes (cs : list Change) : list N := flat_map (fun c => ch_keep c ++ normalize_arc (ch_insert c)) cs.
Definition inserted (cs : list Change) : list N := flat_map (fun c => normalize_arc (ch_insert c)) cs.
(** The edits that make the changes, from offset [o] on. *)
Fixpoint edits_at (o : N) (cs : list Change) : list (Range N * list N) :=
  match cs with
  | [] => []
  | c :: cs =>
      let start := o + byte_len (ch_keep c) in
      let end_ := start + byte_len (ch_delete c) in
      (mkRange start end_, str_of (ch_insert c)) :: edits_at end_ cs
  end.

(** ** Locators in order *)
Definition locator_lt (a b : Locator) : Prop := cmp a b = Lt.
#[export] Instance locator_lt_trans : Transitive locator_lt.
Proof. intros a b c. apply cmp_lt_trans. Qed.

(** The fragments are ordered by their locators, between the least and the greatest. *)
Definition ids_ok (fs : list Fragment) : Prop :=
  StronglySorted locator_lt (locator_min :: (f_id <$> fs) ++ [locator_max]) ∧ Forall locator_wf (f_id <$> fs).

Lemma locator_max_wf : locator_wf locator_max.
Proof. split; [by repeat constructor|by exists [], u64_max]. Qed.

Definition last_id (fs : list Fragment) : Locator := match last fs with Some f => f_id f | None => locator_min end.
Definition head_id (fs : list Fragment) : Locator := match fs with [] => locator_max | f :: _ => f_id f end.

Lemma sorted_insert (l r : list Locator) x y :
  StronglySorted locator_lt (l ++ x :: r) → (∀ a, last l = Some a → locator_lt a y) → locator_lt y x →
  StronglySorted locator_lt (l ++ y :: x :: r).
Proof.
  intros Hs Hl Hy. induction l as [|a l IH]; cbn in *.
  - constructor; [done|]. inversion Hs as [|? ? _ Hf]; subst. constructor; [done|].
    eapply Forall_impl; [exact Hf|]. intros z Hz. by etrans.
  - inversion Hs as [|? ? Hs' Hf]; subst. constructor.
    + apply IH; [done|]. intros b Hb. apply Hl. destruct l; [done|]. done.
    + rewrite Forall_app in *. destruct Hf as [Hf1 Hf2]. split; [done|]. constructor; [|done].
      destruct (last l) as [b|] eqn:E.
      * specialize (Hl b). assert (locator_lt b y) by (apply Hl; destruct l; [done|]; exact E).
        apply last_Some_elem_of in E. rewrite Forall_forall in Hf1. etrans; [by apply Hf1|done].
      * apply last_None in E as ->. by apply Hl.
Qed.

(** There is a locator between any two neighbours. *)
Lemma ids_between l r :
  ids_ok (l ++ r) →
  ∃ id, between (last_id l) (head_id r) = Ok id ∧ ∀ f, f_id f = id → ids_ok (l ++ f :: r).
Proof.
  intros [Hs Hw]. rewrite fmap_app in *. apply Forall_app in Hw as [Hwl Hwr].
  assert (Hlast : ∃ l', locator_min :: (f_id <$> l) = l' ++ [last_id l]).
  { unfold last_id. destruct (snoc_case l) as [->|(k & f & ->)]; [by exists []|].
    rewrite last_snoc, fmap_app. by exists (locator_min :: (f_id <$> k)). }
  destruct Hlast as (l' & El). assert (Hhead : ∃ r', (f_id <$> r) ++ [locator_max] = head_id r :: r').
  { destruct r as [|f r]; [by exists []|]. cbn. eauto. }
  destruct Hhead as (r' & Er). rewrite <-app_assoc, Er, app_comm_cons, El in Hs.
  assert (Hlt : locator_lt (last_id l) (head_id r)).
  { rewrite <-app_assoc in Hs. apply StronglySorted_app_1_r in Hs. cbn in Hs.
    inversion Hs as [|? ? _ Hf]; subst. by inversion Hf. }
  assert (Hdig : Forall (fun d => d <= u64_max) (digits (last_id l))).
  { unfold last_id. destruct (last l) as [f|] eqn:E; [|by repeat constructor].
    apply last_Some_elem_of in E. rewrite Forall_fmap, Forall_forall in Hwl. by apply Hwl. }
  assert (Hhw : locator_wf (head_id r)).
  { destruct r as [|f r]; [apply locator_max_wf|]. by inversion Hwr. }
  destruct (ok_with_inv _ _ (between_spec _ _ Hdig Hhw Hlt)) as (id & E & H1 & H2 & H3).
  exists id. split; [done|]. intros f Hf. split.
  - rewrite fmap_app. cbn [fmap list_fmap]. rewrite Hf, <-app_assoc. cbn [app]. rewrite Er, app_comm_cons, El.
    apply sorted_insert; [done| |done]. intros a. rewrite last_snoc. by intros [= <-].
  - rewrite fmap_app. cbn [fmap list_fmap]. rewrite Hf. apply Forall_app. by split; [|constructor].
Qed.

(** Locators may be left out, and a fragment replaced by one with the same locator. *)
Lemma ids_drop l f r : ids_ok (l ++ f :: r) → ids_ok (l ++ r).
Proof.
  intros [Hs Hw]. rewrite fmap_app in *. apply Forall_app in Hw as [Hwl Hwr]. split.
  - clear Hwl Hwr. rewrite fmap_cons, <-app_assoc in Hs. rewrite fmap_app, <-app_assoc. change (locator_min :: (f_id <$> l) ++ ?k) with ((locator_min :: (f_id <$> l)) ++ k) in *.
    induction (locator_min :: (f_id <$> l)) as [|a k IH]; cbn in *; [by inversion Hs|].
    inversion Hs as [|? ? Hs' Hf]; subst. constructor; [by apply IH|]. rewrite Forall_app in *. destruct Hf as [? Hf]. split; [done|].
    by inversion Hf.
  - rewrite fmap_app. apply Forall_app. split; [done|]. by inversion Hwr.
Qed.
Lemma ids_same l f g r : f_id g = f_id f → ids_ok (l ++ f :: r) → ids_ok (l ++ g :: r).
Proof. intros E. unfold ids_ok. rewrite !fmap_app. cbn [fmap list_fmap]. by rewrite E. Qed.

(** ** The invariant of the walk *)
(** [bps] has been passed, [aps] lies ahead, the first of it consumed up to [x1]; [qv] is
    the visible text not consumed yet and [nps] are the new fragments. *)
Record edit_core (V D : srope) (F : fragment_tree) (st : sstate) (bps aps nps : pieces) (x1 qv : list N) : Prop := {
  ei_tree : c_tree (es_old_fragments st) = F;
  ei_cursor : cursor_at cx ROPE_DEPTH (es_old_fragments st) bps.*1 aps.*1;
  ei_ahead : vis_text aps = x1 ++ qv;
  ei_head : x1 = [] ∨ ∃ f x2 rest, aps = (f, x1 ++ x2) :: rest ∧ f_visible f = true;
  ei_start : es_fragment_start st = byte_len (vis_text bps ++ x1);
  ei_new : tree_wf cx ROPE_DEPTH (es_new_fragments st);
  ei_items : tree_items (es_new_fragments st) = nps.*1;
  ei_before_ok : Forall piece_ok bps;
  ei_after_ok : Forall piece_ok aps;
  ei_new_ok : Forall piece_ok nps;
  ei_builder : builder_at V D (es_new_ropes st) (vis_text bps ++ x1) qv (del_text bps) (del_text aps)
                 (vis_text nps) (del_text nps)
}.
(** The patch so far leads from the text consumed to the new text. *)
Definition patch_inv (st : sstate) (bps nps : pieces) (x1 : list N) : Prop :=
  reaches (es_edits_patch st) (byte_len (vis_text bps ++ x1)) (byte_len (vis_text nps)).

Lemma perm_step (m a b l r : list N) : a ≡ₚ b → l ≡ₚ m ++ a → r ≡ₚ m ++ b → l ≡ₚ r.
Proof. intros H -> ->. by rewrite H. Qed.
Ltac weigh_tac m := eapply (perm_step m); [eassumption|solve_Permutation|solve_Permutation].
Lemma byte_len_perm l k : l ≡ₚ k → byte_len l = byte_len k.
Proof. induction 1 as [|x l k _ IH|x y l|l k m _ IH1 _ IH2]; [done|..|congruence]; rewrite !byte_len_cons; lia. Qed.

Lemma texts_snoc (nps : pieces) f m :
  vis_text (nps ++ [(f, m)]) = (if f_visible f then vis_text nps ++ m else vis_text nps)
  ∧ del_text (nps ++ [(f, m)]) = (if f_visible f then del_text nps else del_text nps ++ m).
Proof. rewrite vis_text_app, del_text_app. cbn. rewrite !app_nil_r. by destruct (f_visible f); rewrite ?app_nil_r. Qed.

(** The texts of the fragments, one after another, say which is whose. *)
Lemma pieces_unique (ps qs : pieces) :
  ps.*1 = qs.*1 → Forall piece_ok ps → Forall piece_ok qs → vis_text ps = vis_text qs → del_text ps = del_text qs → ps = qs.
Proof.
  assert (Hcut : ∀ a b c d : list N, byte_len a = byte_len c → a ++ b = c ++ d → a = c ∧ b = d).
  { intros a b c d El E. destruct (prefix_split a b c d E) as (g & -> & ->); [lia|]. rewrite byte_len_app in El.
    assert (g = []) as -> by (apply byte_len_zero; lia). by rewrite app_nil_r. }
  revert qs. induction ps as [|[f x] ps IH]; intros [|[g y] qs] E Hp Hq Ev Ed; [done..|]. injection E as <- E.
  apply Forall_cons in Hp as [[Hx _] Hp]. apply Forall_cons in Hq as [[Hy _] Hq]. cbn in Hx, Hy, Ev, Ed. assert (El : byte_len x = byte_len y) by congruence.
  destruct (f_visible f); [destruct (Hcut _ _ _ _ El Ev) as [-> Ev']|destruct (Hcut _ _ _ _ El Ed) as [-> Ed']]; f_equal; by apply IH.
Qed.

Lemma nonempty_bytes m : m ≠ [] → 0 < byte_len m.
Proof. intros Hm. assert (byte_len m ≠ 0) by (intros E; by apply Hm, byte_len_zero). lia. Qed.

Lemma reaches_shift p o n d : reaches p o n → reaches p (o + d) (n + d).
Proof. intros [(Hv & H1 & H2 & H3) Hc]. split; [|done]. split_and!; [done|lia..]. Qed.

Lemma reaches_push p o n o' n' :
  reaches p o n → o <= o' → n <= n' → o < o' ∨ n < n' →
  reaches (patch_push p (mkEdit (mkRange o o') (mkRange n n'))) o' n'.
Proof.
  intros [Hf Hc] H1 H2 H3. unfold patch_push.
  assert (edit_is_empty (mkEdit (mkRange o o') (mkRange n n')) = false) as ->.
  { unfold edit_is_empty. cbn. rewrite !eqb_N. apply andb_false_iff.
    destruct H3; [left|right]; apply N.eqb_neq; lia. }
  by destruct (push_edit_spec p 0 0 o n o' n' Hf Hc H1 H2 H3) as (? & ? & _).
Qed.

(** ** What the walk does to the document *)
(** It passes over a stretch of the document, and the new fragments get what [change] makes
    of it; the ranges that have been recorded stay as they are. *)
Record passes (change : document → document) (st : sstate) (bps aps : pieces) (x1 : list N) (nps : pieces)
    (st' : sstate) (bps' aps' : pieces) (x1' : list N) (nps' : pieces) : Prop := {
  pa_ranges : es_ranges st' = es_ranges st;
  pa_texts : es_new_text st' = es_new_text st;
  pa_doc : ∃ l, walked bps' aps' x1' = walked bps aps x1 ++ l ∧ doc nps' = doc nps ++ change l
}.
Abbreviation keeps := (passes (fun l => l)).

Lemma passes_none change st bps aps x1 nps st' bps' aps' x1' :
  change [] = [] → es_ranges st' = es_ranges st → es_new_text st' = es_new_text st → walked bps' aps' x1' = walked bps aps x1 →
  passes change st bps aps x1 nps st' bps' aps' x1' nps.
Proof. intros Hc E1 E2 E. split; [done|done|]. exists []. by rewrite Hc, !app_nil_r. Qed.
Lemma passes_trans (change : document → document) st bps aps x1 nps st1 bps1 aps1 x11 nps1 st2 bps2 aps2 x12 nps2 :
  (∀ l k, change (l ++ k) = change l ++ change k) → passes change st bps aps x1 nps st1 bps1 aps1 x11 nps1 →
  passes change st1 bps1 aps1 x11 nps1 st2 bps2 aps2 x12 nps2 → passes change st bps aps x1 nps st2 bps2 aps2 x12 nps2.
Proof.
  intros Hc [E1 E2 (l & Ew & Ed)] [F1 F2 (k & Fw & Fd)]. split; [congruence..|]. exists (l ++ k). by rewrite Hc, Fw, Fd, Ew, Ed, !app_assoc.
Qed.
(** A part of the fragment at the cursor. *)
Lemma passes_part change st bps f x x1 m rest nps st' g e :
  es_ranges st' = es_ranges st → es_new_text st' = es_new_text st →
  span_of g = mkSpan (f_timestamp f) (f_insertion_offset f + byte_len x1) e →
  piece_atoms (g, m) = change (atoms (f_timestamp f) (list_to_set (f_deletions f)) (f_insertion_offset f + byte_len x1) m) →
  passes change st bps ((f, x) :: rest) x1 nps st' bps ((f, x) :: rest) (x1 ++ m) (nps ++ [(g, m)]).
Proof. intros E1 E2 Es Eg. split; [done|done|]. eexists. split; [apply walked_more|]. by rewrite doc_snoc, Eg. Qed.
Lemma passes_next change st bps f x rest nps st' st'' bps0 aps0 x0 nps0 :
  es_ranges st'' = es_ranges st' → es_new_text st'' = es_new_text st' →
  passes change st bps0 aps0 x0 nps0 st' bps ((f, x) :: rest) x nps → passes change st bps0 aps0 x0 nps0 st'' (bps ++ [(f, x)]) rest [] nps.
Proof. intros E1 E2 [F1 F2 F3]. split; [congruence..|]. by rewrite walked_next. Qed.

Section walk.
Context (V D : srope) (F : fragment_tree) (ts : Lamport).
Context (HV : rope_wf V) (HD : rope_wf D) (HsV : small (rope_text V)) (HsD : small (rope_text D)).
Context (HF : tree_wf cx ROPE_DEPTH F) (HF_len : N.of_nat (length (tree_items F)) <= MAX_CHUNKS).
Abbreviation core := (edit_core V D F).

Lemma fragment_height : (N.to_nat (height F) < STACK_CAPACITY)%nat.
Proof using HF HF_len.
  destruct HF as [->|(h & _ & Ht)]; [unfold STACK_CAPACITY; cbn; lia|]. rewrite (wf_height cx _ _ _ Ht), Nat2N.id.
  eapply (wf_fits_height cx ROPE_DEPTH); [exact Ht|]. split; [unfold ROPE_DEPTH, STACK_CAPACITY; lia|].
  apply (N.le_lt_trans _ MAX_CHUNKS); [done|]. done.
Qed.

Section state.
Context (st : sstate) (bps aps nps : pieces) (x1 qv : list N) (H : core st bps aps nps x1 qv).

Lemma inv_old_start : old_start st = text_len bps.*1.
Proof using H. destruct (ei_cursor _ _ _ _ _ _ _ _ _ H) as (_ & _ & Hp & _). unfold old_start, cursor_start. rewrite Hp. apply fragment_dims0. Qed.
Lemma inv_old_visible : fts_visible (old_start st) = byte_len (vis_text bps).
Proof using H. rewrite inv_old_start. symmetry. apply pieces_len, (ei_before_ok _ _ _ _ _ _ _ _ _ H). Qed.
Lemma inv_old_deleted : fts_deleted (old_start st) = byte_len (del_text bps).
Proof using H. rewrite inv_old_start. symmetry. apply pieces_len, (ei_before_ok _ _ _ _ _ _ _ _ _ H). Qed.
Lemma inv_item : cursor_item (es_old_fragments st) = Ok (head aps.*1).
Proof using H. eapply cursor_item_spec, (ei_cursor _ _ _ _ _ _ _ _ _ H). Qed.
Lemma inv_end : ∃ e, cursor_end cx (es_old_fragments st) = Ok e
  ∧ fts_visible e = byte_len (vis_text (bps ++ take 1 aps)).
Proof using H.
  rewrite (cursor_end_spec _ _ _ _ _ (ei_cursor _ _ _ _ _ _ _ _ _ H)). eexists. split; [done|].
  pose proof (ei_before_ok _ _ _ _ _ _ _ _ _ H) as Hb. pose proof (ei_after_ok _ _ _ _ _ _ _ _ _ H) as Ha.
  rewrite (proj1 (pieces_len (bps ++ take 1 aps) ltac:(apply Forall_app; split; [done|by apply Forall_take]))).
  rewrite fmap_app. destruct aps as [|[f x] rest]; cbn [fmap list_fmap take fst]; rewrite fragment_dims0, ?app_nil_r; done.
Qed.
Lemma inv_text : rope_text V = (vis_text bps ++ x1) ++ qv.
Proof using H. apply (rc_text _ _ _ _ (ba_visible _ _ _ _ _ _ _ _ _ (ei_builder _ _ _ _ _ _ _ _ _ H))). Qed.
Lemma inv_max_id : fs_max_id (summary (es_new_fragments st)) = last_id nps.*1.
Proof using H.
  rewrite (tree_wf_summary cx ROPE_DEPTH) by apply H. rewrite (ei_items _ _ _ _ _ _ _ _ _ H). apply fragment_sum_id.
Qed.
Lemma inv_new_visible : fts_visible (fs_text (summary (es_new_fragments st))) = byte_len (vis_text nps).
Proof using H.
  rewrite (tree_wf_summary cx ROPE_DEPTH) by apply H. rewrite (ei_items _ _ _ _ _ _ _ _ _ H).
  change (item_summary_of cx <$> ?l) with (fragment_summary <$> l). rewrite fragment_sum_text. symmetry. apply pieces_len, H.
Qed.

(** The length of a part that is cut out. *)
Lemma cut_len f a m q : qv = m ++ q →
  f_len (cut f a (byte_len (vis_text bps ++ x1)) (byte_len ((vis_text bps ++ x1) ++ m))) = byte_len m.
Proof using All.
  intros E. pose proof inv_text as Ht. rewrite E in Ht. pose proof HsV as Hs. rewrite Ht in Hs. unfold small in Hs.
  cbn [cut f_len]. rewrite !byte_len_app in *.
  rewrite usize_sub_exact by lia. rewrite u32_wrap_small by (unfold u32_max; lia). lia.
Qed.
End state.

Context (Hun : untouched ts (tree_items F)) (B : N) (HB : B <= MAX_CHUNKS).
(** How many fragments there may still be. *)
Definition room (nps aps : pieces) (k : N) : Prop := N.of_nat (length nps + length aps) + k <= B.

Lemma room_push (nps aps : pieces) f m k : room nps aps (1 + k) → SumTreeFacts.fits ROPE_DEPTH 255 (nps.*1 ++ [f]) ∧ room (nps ++ [(f, m)]) aps k.
Proof using All. unfold room. intros Hr. split; [apply room_fits|]; rewrite length_app, ?length_fmap; cbn; lia. Qed.

(** A part of the visible fragment at the cursor becomes a new one, visible or not. *)
Lemma push_part st bps f x1 m x2 rest nps q g k :
  core st bps ((f, x1 ++ m ++ x2) :: rest) nps x1 (m ++ q) → f_visible f = true → m ≠ [] → f_len g = byte_len m →
  room nps ((f, x1 ++ m ++ x2) :: rest) (1 + k) →
  ok_with (push_piece (Sl:=list N) st g true) (fun st' => ∃ t b, st' = pushed st g t b ∧
    core (with_start st' (byte_len (vis_text bps ++ x1 ++ m))) bps ((f, x1 ++ m ++ x2) :: rest) (nps ++ [(g, m)]) (x1 ++ m) q).
Proof using All.
  intros H Hv Hm Hl Hr. pose proof (ei_builder _ _ _ _ _ _ _ _ _ H) as Hb. pose proof (ei_items _ _ _ _ _ _ _ _ _ H) as Hi.
  destruct (room_push _ _ g m k Hr) as [Hf _]. destruct (texts_snoc nps g m) as [Ev Ed].
  unfold push_piece, push_fragment. rewrite Hl.
  ok_bind (builder_push_visible V D HV HD HsV HsD (es_new_ropes st) _ m q _ _ _ _ (f_visible g) Hb). intros b Hb'.
  ok_bind (push_spec cx ROPE_DEPTH (es_new_fragments st) g); [apply H|by rewrite Hi|]. intros t [Ht Eit].
  cbn [ok_with]. exists t, b. split; [done|]. destruct H. split; cbn [with_start with_cursor pushed es_old_fragments es_fragment_start es_new_fragments es_new_ropes]; try done.
  - by rewrite ei_ahead0, app_assoc.
  - right. exists f, x2, rest. by rewrite <-app_assoc.
  - by rewrite Eit, Hi, fmap_app.
  - apply Forall_app. split; [done|]. constructor; [|done]. split; cbn; [done|]. rewrite Hl. by apply nonempty_bytes.
  - rewrite Ev, Ed, app_assoc. exact Hb'.
Qed.

(** A deleted fragment is kept as it is. *)
Lemma push_deleted st bps f m rest nps qv k :
  core st bps ((f, m) :: rest) nps [] qv → f_visible f = false → room nps ((f, m) :: rest) (1 + k) →
  ok_with (push_piece (Sl:=list N) st f false) (fun st' => ∃ t b, st' = pushed st f t b ∧
    tree_wf cx ROPE_DEPTH t ∧ tree_items t = (nps ++ [(f, m)]).*1 ∧
    builder_at V D b (vis_text bps ++ []) qv (del_text (bps ++ [(f, m)])) (del_text rest)
      (vis_text (nps ++ [(f, m)])) (del_text (nps ++ [(f, m)]))).
Proof using All.
  intros H Hv Hr. pose proof (ei_builder _ _ _ _ _ _ _ _ _ H) as Hb. pose proof (ei_items _ _ _ _ _ _ _ _ _ H) as Hi.
  pose proof (ei_after_ok _ _ _ _ _ _ _ _ _ H) as Hok. apply Forall_cons in Hok as [[Hl _] _]. cbn in Hl.
  destruct (room_push nps ((f, m) :: rest) f m k Hr) as [Hf _]. destruct (texts_snoc nps f m) as [-> ->].
  destruct (texts_snoc bps f m) as [_ ->]. rewrite Hv. cbn [del_text flat_map fst snd] in Hb. rewrite Hv in Hb.
  unfold push_piece, push_fragment. rewrite <-Hl, Hv.
  ok_bind (builder_push_deleted V D HV HD HsV HsD (es_new_ropes st) _ qv _ m _ _ _ false Hb). intros b Hb'.
  ok_bind (push_spec cx ROPE_DEPTH (es_new_fragments st) f); [apply H|by rewrite Hi|]. intros t [Ht Eit].
  cbn [ok_with]. exists t, b. split_and!; [done|done| |done]. by rewrite Eit, Hi, fmap_app.
Qed.

(** [next], at a fragment whose text has been consumed. *)
Lemma next_consumed st bps f x rest nps q :
  core st bps ((f, x) :: rest) nps x q → f_visible f = true →
  ok_with (cursor_next cx (es_old_fragments st)) (fun c =>
    core (with_cursor st c (es_fragment_start st)) (bps ++ [(f, x)]) rest nps [] q).
Proof using All.
  intros H Hv. eapply ok_with_mono.
  { eapply (cursor_next_at cx ROPE_DEPTH); rewrite ?(ei_tree _ _ _ _ _ _ _ _ _ H); [done|apply fragment_height|apply H]. }
  intros c [Ec Hc]. cbn [fmap list_fmap fst take drop] in Hc. rewrite take_0, drop_0 in Hc.
  destruct (texts_snoc bps f x) as [Ebv Ebd]. rewrite Hv in Ebv, Ebd.
  destruct H. split; cbn [with_cursor es_old_fragments es_fragment_start es_new_fragments es_new_ropes]; rewrite ?Ebv, ?Ebd, ?app_nil_r; try done.
  - by rewrite Ec.
  - by rewrite fmap_app.
  - cbn in ei_ahead0. rewrite Hv in ei_ahead0. by apply app_inv_head in ei_ahead0.
  - by left.
  - apply Forall_app. split; [done|]. apply Forall_cons in ei_after_ok0 as [? _]. by constructor.
  - by apply Forall_cons in ei_after_ok0 as [_ ?].
  - cbn in ei_builder0. rewrite Hv in ei_builder0. done.
Qed.

(** No character is lost: [ins] has been inserted so far and all others were there before. *)
Definition weigh (bps nps : pieces) (x1 : list N) (ins : list N) : Prop :=
  vis_text nps ++ del_text nps ≡ₚ (vis_text bps ++ x1) ++ del_text bps ++ ins.

Record inv (ins : list N) (st : sstate) (bps aps nps : pieces) (x1 qv : list N) : Prop := {
  inv_core : core st bps aps nps x1 qv;
  inv_ids : ids_ok (nps.*1 ++ aps.*1);
  inv_patch : patch_inv st bps nps x1;
  inv_weigh : weigh bps nps x1 ins;
  inv_index : index_inv ts (byte_len ins) st bps aps nps x1;
  inv_traced : traced ts (tree_items F) st nps (vis_text bps ++ x1)
}.

(** Keeping text moves both ends of the patch. *)
Lemma patch_keep st st' bps bps' nps nps' x1 x1' m :
  patch_inv st bps nps x1 → es_edits_patch st' = es_edits_patch st →
  vis_text bps' ++ x1' = (vis_text bps ++ x1) ++ m → vis_text nps' = vis_text nps ++ m → patch_inv st' bps' nps' x1'.
Proof. unfold patch_inv. intros Hp -> -> ->. rewrite !(byte_len_app _ m). by apply reaches_shift. Qed.

Lemma head_visible st bps f x1 x2 rest nps qv :
  core st bps ((f, x1 ++ x2) :: rest) nps x1 qv → f_visible f = true → qv = x2 ++ vis_text rest.
Proof. intros H Hv. pose proof (ei_ahead _ _ _ _ _ _ _ _ _ H) as Ea. cbn in Ea. rewrite Hv, <-app_assoc in Ea. by apply app_inv_head in Ea. Qed.

Lemma head_len st bps f x rest nps x1 qv : core st bps ((f, x) :: rest) nps x1 qv → byte_len x = f_len f.
Proof. intros H. pose proof (ei_after_ok _ _ _ _ _ _ _ _ _ H) as Hok. by apply Forall_cons in Hok as [[? _] _]. Qed.

(** Where a part that is cut out lies in its insertion. *)
Lemma cut_span st bps f X x1 m x2 rest nps qv ins :
  core st bps ((f, X) :: rest) nps x1 qv → index_inv ts ins st bps ((f, X) :: rest) nps x1 → X = x1 ++ m ++ x2 → f_visible f = true →
  span_of (cut f (byte_len (vis_text bps)) (byte_len (vis_text bps ++ x1)) (byte_len ((vis_text bps ++ x1) ++ m)))
    = mkSpan (f_timestamp f) (f_insertion_offset f + byte_len x1) (f_insertion_offset f + byte_len (x1 ++ m)).
Proof using All.
  intros H Hx -> Hv. pose proof (ei_after_ok _ _ _ _ _ _ _ _ _ H) as Hok. apply Forall_cons in Hok as [[Hl _] _]. cbn in Hl.
  pose proof (xi_bound _ _ _ _ _ _ _ Hx) as Hb. cbn [rem] in Hb. apply Forall_app in Hb as [_ [[Hb _] _]%Forall_cons]. cbn in Hb.
  pose proof (head_visible _ _ _ _ _ _ _ _ H Hv) as ->.
  pose proof (inv_text _ _ _ _ _ _ H) as Ht. pose proof HsV as Hs. rewrite Ht in Hs. unfold small in Hs.
  unfold span_of, cut. cbn [f_timestamp f_insertion_offset f_len]. rewrite !byte_len_app in *.
  rewrite !usize_sub_exact by lia. rewrite !u32_wrap_small by (unfold u32_max; lia).
  replace (byte_len (vis_text bps) + byte_len x1 - byte_len (vis_text bps)) with (byte_len x1) by lia.
  rewrite u32_add_exact by lia. f_equal. lia.
Qed.

(** The pieces passed and those ahead are the same all along. *)
Lemma core_pieces st bps aps nps x1 qv st' bps' aps' nps' x1' qv' :
  core st bps aps nps x1 qv → core st' bps' aps' nps' x1' qv' → bps ++ aps = bps' ++ aps'.
Proof.
  assert (Hall : ∀ s b a n x q, core s b a n x q → (b ++ a).*1 = tree_items F ∧ Forall piece_ok (b ++ a) ∧ vis_text (b ++ a) = rope_text V ∧ del_text (b ++ a) = rope_text D).
  { intros s b a n x q H. destruct (ei_cursor _ _ _ _ _ _ _ _ _ H) as (_ & Hi & _). rewrite (ei_tree _ _ _ _ _ _ _ _ _ H) in Hi. split_and!.
    - by rewrite fmap_app.
    - apply Forall_app. split; apply H.
    - rewrite vis_text_app, (ei_ahead _ _ _ _ _ _ _ _ _ H), (inv_text _ _ _ _ _ _ H). by rewrite <-app_assoc.
    - by rewrite del_text_app, (rc_text _ _ _ _ (ba_deleted _ _ _ _ _ _ _ _ _ (ei_builder _ _ _ _ _ _ _ _ _ H))). }
  intros H H'. destruct (Hall _ _ _ _ _ _ H) as (E1 & O1 & V1 & D1). destruct (Hall _ _ _ _ _ _ H') as (E2 & O2 & V2 & D2).
  apply pieces_unique; [congruence|done|done|congruence..].
Qed.
(** The fragments at and after the cursor are those of the old tree. *)
Lemma ahead_items st bps aps nps x1 qv : core st bps aps nps x1 qv → tree_items F = bps.*1 ++ aps.*1.
Proof. intros H. destruct (ei_cursor _ _ _ _ _ _ _ _ _ H) as (_ & Hi & _). by rewrite (ei_tree _ _ _ _ _ _ _ _ _ H) in Hi. Qed.
Lemma head_item st bps f x rest nps x1 qv : core st bps ((f, x) :: rest) nps x1 qv → f ∈ tree_items F.
Proof. intros H. rewrite (ahead_items _ _ _ _ _ _ H). apply elem_of_app. right. by left. Qed.
Lemma ahead_subset st bps lps rps nps x1 qv : core st bps (lps ++ rps) nps x1 qv → lps.*1 ⊆ tree_items F.
Proof. intros H. rewrite (ahead_items _ _ _ _ _ _ H), fmap_app. intros g Hg. rewrite !elem_of_app. auto. Qed.
Lemma span_part (f g : Fragment) x1 m x2 :
  byte_len (x1 ++ m ++ x2) = f_len f →
  span_of g = mkSpan (f_timestamp f) (f_insertion_offset f + byte_len x1) (f_insertion_offset f + byte_len (x1 ++ m)) → part_of g f.
Proof. intros Hl Hs. unfold span_of in Hs. injection Hs as E1 E2 E3. rewrite !byte_len_app in *. split; [done|lia..]. Qed.

(** A fragment that has been consumed is left behind. *)
Lemma inv_next ins st bps f x rest nps q q' c start :
  inv ins st bps ((f, x) :: rest) nps x q → f_visible f = true → x ≠ [] →
  core (with_cursor st c start) (bps ++ [(f, x)]) rest nps [] q' → inv ins (with_cursor st c start) (bps ++ [(f, x)]) rest nps [] q'.
Proof using All.
  intros [H Hids Hp Hw Hx Htr] Hv Hne Hc. destruct (texts_snoc bps f x) as [Ebv Ebd]. rewrite Hv in Ebv, Ebd.
  split; [done|by apply ids_drop in Hids| | | |by rewrite Ebv, app_nil_r; eapply traced_same].
  - unfold patch_inv in *. cbn. by rewrite Ebv, app_nil_r.
  - unfold weigh in *. by rewrite Ebv, Ebd, app_nil_r.
  - eapply index_next; [exact Hx|done|grow_tac|done].
Qed.

(** The rest of a fragment that has been consumed up to [x1] is kept. *)
Lemma consume_rest_spec ins st bps aps nps x1 qv e k :
  inv ins st bps aps nps x1 qv → e = byte_len (vis_text (bps ++ take 1 aps)) → room nps aps (1 + k) →
  ok_with (consume_rest (Sl:=list N) st e) (fun st' => ∃ bps' aps' nps' m,
    inv ins (with_start st' (byte_len (vis_text bps'))) bps' aps' nps' [] (vis_text aps') ∧
    qv = m ++ vis_text aps' ∧ vis_text nps' = vis_text nps ++ m ∧ room nps' aps' (1 + k) ∧
    (m = [] ∨ byte_len (vis_text bps') = e) ∧ keeps st bps aps x1 nps st' bps' aps' [] nps').
Proof using All.
  intros HI -> Hr. pose proof HI as [H Hids Hp Hw Hx Htr]. unfold consume_rest. rewrite (inv_old_visible _ _ _ _ _ _ H), (ei_start _ _ _ _ _ _ _ _ _ H).
  destruct (decide (x1 = [])) as [->|Hne].
  { rewrite app_nil_r, N.ltb_irrefl. cbn [ok_with]. exists bps, aps, nps, []. rewrite app_nil_r.
    pose proof (ei_ahead _ _ _ _ _ _ _ _ _ H) as Ea. cbn [app] in Ea. rewrite Ea. split_and!; try done.
    { split; [|done|done|done|eapply index_same; [exact Hx|grow_tac|done]|eapply traced_same; [exact Htr|done]]. destruct H; split; try done. cbn. by rewrite app_nil_r. } { by left. } by apply passes_none. }
  destruct (ei_head _ _ _ _ _ _ _ _ _ H) as [?|(f & x2 & rest & -> & Hv)]; [done|].
  rewrite (proj2 (N.ltb_lt _ _)) by (rewrite byte_len_app; pose proof (nonempty_bytes x1 Hne); lia).
  pose proof (head_visible _ _ _ _ _ _ _ _ H Hv) as ->.
  cbn [take]. rewrite take_0. destruct (texts_snoc bps f (x1 ++ x2)) as [Ebv Ebd]. rewrite Hv in Ebv, Ebd. rewrite Ebv, app_assoc.
  destruct (decide (x2 = [])) as [->|Hx2].
  - rewrite app_nil_r in *. rewrite N.ltb_irrefl. cbn [mbind outcome_bind].
    ok_bind (next_consumed st bps f x1 rest nps _ H Hv). intros c Hc. cbn [ok_with].
    exists (bps ++ [(f, x1)]), rest, nps, []. cbn [app]. rewrite app_nil_r. split_and!; try done.
    + refine (inv_next ins st bps f x1 rest nps _ _ c _ HI Hv Hne _). rewrite Ebv, <-(ei_start _ _ _ _ _ _ _ _ _ H). exact Hc.
    + unfold room in *. cbn [length] in *. lia.
    + by left.
    + apply passes_none; [done|done|done|by rewrite ?app_nil_r, walked_next].
  - rewrite (proj2 (N.ltb_lt _ _)) by (rewrite (byte_len_app (_ ++ _)); pose proof (nonempty_bytes x2 Hx2); lia).
    rewrite (inv_item _ _ _ _ _ _ H). cbn [fmap list_fmap head unwrap mbind outcome_bind fst]. cbn zeta.
    set (g := cut f _ _ _). assert (Hgl : f_len g = byte_len x2) by (eapply (cut_len _ _ _ _ _ _ H); done).
    assert (Hgv : f_visible g = true) by done. rewrite Hgv. apply ok_with_bind.
    assert (Hgs : span_of g = mkSpan (f_timestamp f) (f_insertion_offset f + byte_len x1) (f_insertion_offset f + byte_len (x1 ++ x2))).
    { eapply (cut_span st bps f _ x1 x2 [] rest); [exact H|exact Hx|by rewrite app_nil_r|done]. }
    pose proof (push_part st bps f x1 x2 [] rest nps (vis_text rest) g k) as Hpush. rewrite app_nil_r in Hpush.
    eapply ok_with_mono; [by apply Hpush|]. intros st1 (t & b & -> & Hc1).
    ok_bind (next_consumed _ bps f (x1 ++ x2) rest _ _ Hc1 Hv). intros c Hc. cbn [ok_with].
    exists (bps ++ [(f, x1 ++ x2)]), rest, (nps ++ [(g, x2)]), x2.
    destruct (texts_snoc nps g x2) as [Env End]. rewrite Hgv in Env, End. split_and!; try done.
    + split.
      * rewrite Ebv. exact Hc.
      * rewrite fmap_app, <-app_assoc. by eapply (ids_same _ f g).
      * eapply (patch_keep st _ _ _ _ _ _ _ x2); [exact Hp|done|by rewrite Ebv, app_nil_r, app_assoc|done].
      * unfold weigh in *. rewrite Ebv, Ebd, Env, End, app_nil_r. weigh_tac x2.
      * eapply (index_next _ _ (pushed st g t b)); [|by destruct x1|grow_tac|done].
        pose proof (index_part ts (byte_len ins) st (pushed st g t b) bps f x1 x2 [] rest nps g []) as Hpart. rewrite app_nil_r in Hpart.
        apply Hpart; [done|exact (head_len _ _ _ _ _ _ _ _ H)|done|exact Hgs|grow_tac|apply sublist_nil_l|done].
      * rewrite Ebv, app_nil_r, app_assoc. pose proof (traced_part ts (tree_items F) Hun st (pushed st g t b) nps _ f g x2 Htr) as Hpart. rewrite Hv in Hpart.
        eapply traced_same; [apply Hpart|done]; [exact (head_item _ _ _ _ _ _ _ _ H)| |done..].
        eapply (span_part _ _ x1 x2 []); [rewrite app_nil_r; exact (head_len _ _ _ _ _ _ _ _ H)|exact Hgs].
    + unfold room in *. rewrite length_app. cbn [length] in *. lia.
    + right. by rewrite Ebv, <-app_assoc.
    + eapply (passes_next _ st bps f (x1 ++ x2) rest _ (pushed st g t b)); [done|done|]. eapply passes_part; [done|done|exact Hgs|by eapply part_atoms].
Qed.

(** Whole fragments are taken over. *)
Lemma append_slice_spec st a bps lps rps nps c s k :
  core (with_start st a) bps (lps ++ rps) nps [] (vis_text (lps ++ rps)) → room nps (lps ++ rps) k →
  tree_wf cx ROPE_DEPTH s → tree_items s = lps.*1 →
  c_tree c = F → cursor_at cx ROPE_DEPTH c (bps ++ lps).*1 rps.*1 →
  ok_with (append_slice (Sl:=list N) st s) (fun st' => es_edits_patch st' = es_edits_patch st ∧ grows ts st st' [] [] ∧ es_insertion_offset st' = es_insertion_offset st ∧
    (es_ranges st' = es_ranges st ∧ es_new_text st' = es_new_text st) ∧
    core (with_cursor st' c (byte_len (vis_text (bps ++ lps)))) (bps ++ lps) rps (nps ++ lps) [] (vis_text rps)).
Proof using All.
  intros H Hr Hs His Ec Hc. pose proof (ei_after_ok _ _ _ _ _ _ _ _ _ H) as Hok. apply Forall_app in Hok as [Hokl Hokr].
  pose proof (ei_builder _ _ _ _ _ _ _ _ _ H) as Hb. rewrite vis_text_app, del_text_app, app_nil_r in Hb.
  pose proof (ei_items _ _ _ _ _ _ _ _ _ H) as Hi. unfold append_slice.
  assert (Es : fs_text (summary s) = mkFragmentText (byte_len (vis_text lps)) (byte_len (del_text lps))).
  { rewrite (tree_wf_summary cx ROPE_DEPTH) by done. rewrite His.
    change (item_summary_of cx <$> ?l) with (fragment_summary <$> l). rewrite fragment_sum_text.
    destruct (pieces_len lps Hokl) as [-> ->]. done. }
  cbn [with_start with_cursor es_new_fragments es_new_ropes] in Hb, Hi.
  rewrite Es. ok_bind (builder_append_spec V D HV HD HsV HsD (es_new_ropes st) _ (vis_text lps) _ _ (del_text lps) _ _ _ Hb).
  intros b Hb'. ok_bind (append_spec cx ROPE_DEPTH (es_new_fragments st) s); [apply H|done| |].
  { rewrite Hi, His. apply room_fits. unfold room in Hr. rewrite !length_app, !length_fmap in *. lia. }
  intros t [Ht Eit]. cbn [ok_with]. split_and!; [done|grow_tac|done|done|done|].
  destruct H. split; cbn [with_cursor with_ropes es_old_fragments es_fragment_start es_new_fragments es_new_ropes];
    rewrite ?app_nil_r, ?vis_text_app, ?del_text_app; try done.
  - by left.
  - by rewrite Eit, Hi, His, fmap_app.
  - by apply Forall_app.
  - by apply Forall_app.
Qed.

(** Where a seek in the visible text stops. *)
Lemma visible_scan o l rest (bs fs : list Fragment) :
  scan (D:=FragmentTextSummary) (Sm:=FragmentSummary) cx o Right (fdims (dim_zero cx) bs) fs = (fdims (dim_zero cx) (bs ++ l), rest) →
  fs = l ++ rest → vis_len bs <= o →
  vis_len (bs ++ l) <= o ∧ ∀ y r, rest = y :: r → o < vis_len (bs ++ l ++ [y]).
Proof.
  intros Hsc Hi Hpos. destruct (scan_split cx o Right (fdims (dim_zero cx) bs) fs) as (pre & Hp & Hd & Hf & Hx).
  rewrite Hsc in *. cbn [fst snd] in *. assert (pre = l) as -> by (rewrite Hi in Hp; by apply app_inv_tail in Hp). split.
  - destruct (snoc_case l) as [->|(l' & x & ->)]; [by rewrite app_nil_r|].
    rewrite Forall_forall in Hf. specialize (Hf (fdims (fdims (dim_zero cx) bs) (l' ++ [x]))).
    rewrite visible_past, <-dim_items_app, fragment_dims0 in Hf. cbn in Hf. apply N.leb_le. apply Hf.
    apply last_Some_elem_of. rewrite ends_last. by rewrite <-dim_items_app, fragment_dims0.
  - intros y r ->. specialize (Hx y r eq_refl). rewrite visible_past in Hx.
    change (item_end cx ?p y) with (fdims p [y]) in Hx. rewrite <-dim_items_app, fragment_dims0, <-app_assoc in Hx.
    cbn in Hx. by apply N.leb_gt in Hx.
Qed.

(** The text [g] ahead lies within the fragment at the cursor. *)
Definition head_covers (aps : pieces) (x1 g : list N) : Prop :=
  g = [] ∨ ∃ f x2 rest, aps = (f, x1 ++ x2) :: rest ∧ f_visible f = true ∧ byte_len g <= byte_len x2.

Lemma near_covers st bps aps nps x1 g qr :
  core st bps aps nps x1 (g ++ qr) → byte_len ((vis_text bps ++ x1) ++ g) <= byte_len (vis_text (bps ++ take 1 aps)) →
  head_covers aps x1 g.
Proof.
  intros H Hle. destruct (decide (g = [])) as [->|Hg]; [by left|]. right. pose proof (nonempty_bytes g Hg).
  destruct aps as [|[f x] rest].
  { cbn [take] in Hle. rewrite app_nil_r, !byte_len_app in Hle. lia. }
  cbn [take] in Hle. rewrite take_0 in Hle. destruct (texts_snoc bps f x) as [E _]. rewrite E in Hle.
  destruct (f_visible f) eqn:Hv; [|rewrite !byte_len_app in Hle; lia].
  assert (Hx : ∃ x2, x = x1 ++ x2).
  { destruct (ei_head _ _ _ _ _ _ _ _ _ H) as [->|(f' & x2 & r & E' & _)]; [by exists x|]. injection E' as <- -> _. by exists x2. }
  destruct Hx as (x2 & ->). exists f, x2, rest. split_and!; [done|done|]. rewrite !byte_len_app in Hle. lia.
Qed.

(** [jump_ahead]: the fragments before the one that holds the start of the range are kept. *)
Lemma jump_ahead_spec ins st bps aps nps x1 g qr k :
  inv ins st bps aps nps x1 (g ++ qr) → room nps aps (1 + k) →
  ok_with (jump_ahead (Sl:=list N) st (byte_len ((vis_text bps ++ x1) ++ g))) (fun st' => ∃ bps' aps' nps' x1' m g',
    inv ins st' bps' aps' nps' x1' (g' ++ qr) ∧ g = m ++ g' ∧ vis_text bps' ++ x1' = (vis_text bps ++ x1) ++ m ∧
    vis_text nps' = vis_text nps ++ m ∧ head_covers aps' x1' g' ∧ room nps' aps' (1 + k) ∧ keeps st bps aps x1 nps st' bps' aps' x1' nps').
Proof using All.
  intros [H Hids Hp Hw Hx Htr] Hr. unfold jump_ahead. destruct (inv_end _ _ _ _ _ _ H) as (e & -> & Ee). cbn [mbind outcome_bind].
  rewrite Ee. destruct (N.ltb_spec (byte_len (vis_text (bps ++ take 1 aps))) (byte_len ((vis_text bps ++ x1) ++ g))) as [Hlt|Hge].
  2:{ cbn [ok_with]. exists bps, aps, nps, x1, [], g. rewrite !app_nil_r. split_and!; try done; [by eapply near_covers|by apply passes_none]. }
  ok_bind (consume_rest_spec ins st bps aps nps x1 (g ++ qr) (byte_len (vis_text (bps ++ take 1 aps))) k); [by split|done|done|].
  intros st1 (bps1 & aps1 & nps1 & m1 & [H1 Hids1 Hp1 Hw1 Hx1 Htr1] & Eq1 & En1 & Hr1 & Hm1 & Hk1).
  assert (Eb1 : vis_text bps1 = (vis_text bps ++ x1) ++ m1).
  { pose proof (inv_text _ _ _ _ _ _ H) as T0. pose proof (inv_text _ _ _ _ _ _ H1) as T1. rewrite app_nil_r in T1.
    rewrite T0, Eq1, app_assoc in T1. by apply app_inv_tail in T1. }
  assert (Hle1 : byte_len (vis_text bps1) <= byte_len ((vis_text bps ++ x1) ++ g)).
  { destruct Hm1 as [->|E]; [rewrite Eb1, app_nil_r, (byte_len_app _ g); lia|lia]. }
  assert (Hvl : vis_len bps1.*1 = byte_len (vis_text bps1)) by (symmetry; apply pieces_len, H1).
  pose proof (ei_tree _ _ _ _ _ _ _ _ _ H1 : c_tree (es_old_fragments st1) = F) as Ef1.
  ok_bind (cursor_slice_spec cx ROPE_DEPTH (byte_len ((vis_text bps ++ x1) ++ g)) Right (es_old_fragments st1) bps1.*1 aps1.*1).
  { by rewrite Ef1. }
  { rewrite Ef1. apply fragment_height. }
  { right. apply H1. }
  { rewrite fragment_dims0. apply visible_ge. cbn. lia. }
  { apply fragment_seekable. }
  { rewrite Ef1. by apply room_fits. }
  intros [c s] (l & rest & (Ec & Ea & Hsc & Hc) & Hws & His). cbn [fst snd] in *.
  destruct (visible_scan _ _ _ _ _ Hsc Ea ltac:(lia)) as [Hlo Hhi].
  apply fmap_app_inv in Ea as (lps & rps & -> & -> & ->). rewrite <-fmap_app in Hc, Hlo.
  pose proof (ei_after_ok _ _ _ _ _ _ _ _ _ H1) as Hok. apply Forall_app in Hok as [Hokl Hokr].
  pose proof (ei_before_ok _ _ _ _ _ _ _ _ _ H1) as Hokb.
  rewrite <-(proj1 (pieces_len (bps1 ++ lps) ltac:(by apply Forall_app))) in Hlo.
  ok_bind (append_slice_spec st1 _ bps1 lps rps nps1 c s (1 + k) H1 Hr1 Hws His);
    [by rewrite Ec|done|].
  intros st2 (Ep2 & Hg2 & Ho2 & [Erg Etx] & H2). cbn [ok_with].
  assert (Hst : fts_visible (cursor_start c) = byte_len (vis_text (bps1 ++ lps))).
  { pose proof (inv_old_visible _ _ _ _ _ _ H2) as E. exact E. }
  rewrite Hst. rewrite vis_text_app, app_assoc in Eq1.
  assert (Hg : ∃ g', g = (m1 ++ vis_text lps) ++ g' ∧ vis_text rps = g' ++ qr).
  { destruct (prefix_split (m1 ++ vis_text lps) (vis_text rps) g qr (eq_sym Eq1)) as (g' & E1 & E2); [|by exists g'].
    rewrite vis_text_app, Eb1, !byte_len_app in Hlo. rewrite byte_len_app in *. lia. }
  destruct Hg as (g' & -> & Erp).
  exists (bps1 ++ lps), rps, (nps1 ++ lps), [], (m1 ++ vis_text lps), g'. rewrite <-Erp. split_and!; try done.
  - split; [done|by rewrite fmap_app, <-app_assoc in *| | | |].
    + eapply (patch_keep st1 _ bps1 _ nps1 _ [] _ (vis_text lps)); [exact Hp1|done|by rewrite !app_nil_r, vis_text_app|apply vis_text_app].
    + unfold weigh in *. rewrite !vis_text_app, !del_text_app, !app_nil_r in *. weigh_tac (vis_text lps ++ del_text lps).
    + eapply index_keep; [exact Hx1|destruct Hg2; by split|done].
    + rewrite vis_text_app, app_nil_r. rewrite app_nil_r in Htr1. destruct Hg2 as [_ Es2]. cbn in Es2. rewrite app_nil_r in Es2.
      eapply traced_same; [by eapply (traced_keep _ _ Hun _ st2); [exact Htr1|exact (ahead_subset _ _ _ _ _ _ _ H1)|]|done].
  - by rewrite app_nil_r, vis_text_app, Eb1, <-!app_assoc.
  - by rewrite vis_text_app, En1, <-app_assoc.
  - eapply (near_covers _ (bps1 ++ lps) rps (nps1 ++ lps) [] g' qr); [rewrite <-Erp; exact H2|].
    rewrite app_nil_r. destruct rps as [|[f x] rest].
    { symmetry in Erp. apply app_nil in Erp as [-> _]. by rewrite !app_nil_r. }
    specialize (Hhi f rest.*1 eq_refl). cbn [take]. rewrite take_0.
    assert (Hokf : Forall piece_ok ((bps1 ++ lps) ++ [(f, x)])).
    { apply Forall_app. split; [by apply Forall_app|]. apply Forall_cons in Hokr as [? _]. by constructor. }
    rewrite (proj1 (pieces_len _ Hokf)), !fmap_app, <-app_assoc. cbn [fmap list_fmap fst].
    rewrite vis_text_app, Eb1, !byte_len_app in *. lia.
  - unfold room in *. rewrite !length_app in *. lia.
  - eapply passes_trans; [done|exact Hk1|]. split; [done|done|]. exists (doc lps). by rewrite walked_keep, doc_app.
Qed.

(** [preserve_prefix]: the part of the fragment before the range is kept, with a locator of its own. *)
Lemma preserve_prefix_spec ins st bps aps nps x1 g qr k :
  inv ins st bps aps nps x1 (g ++ qr) → head_covers aps x1 g → room nps aps (1 + k) →
  ok_with (preserve_prefix (Sl:=list N) st (byte_len ((vis_text bps ++ x1) ++ g))) (fun st' => ∃ nps',
    inv ins st' bps aps nps' (x1 ++ g) qr ∧ vis_text nps' = vis_text nps ++ g ∧ room nps' aps k ∧ keeps st bps aps x1 nps st' bps aps (x1 ++ g) nps').
Proof using All.
  intros [H Hids Hp Hw Hx Htr] Hcov Hr. unfold preserve_prefix. rewrite (ei_start _ _ _ _ _ _ _ _ _ H).
  destruct (decide (g = [])) as [->|Hg].
  { rewrite !app_nil_r, N.ltb_irrefl. cbn [ok_with]. exists nps. split_and!; [done|done|unfold room in *; lia|by apply passes_none]. }
  destruct Hcov as [?|(f & x2 & rest & -> & Hv & Hle)]; [done|].
  rewrite (proj2 (N.ltb_lt _ _)) by (rewrite (byte_len_app _ g); pose proof (nonempty_bytes g Hg); lia).
  pose proof (head_visible _ _ _ _ _ _ _ _ H Hv) as Eg. destruct (prefix_split _ _ _ _ Eg Hle) as (x3 & -> & ->).
  rewrite (inv_item _ _ _ _ _ _ H). cbn [fmap list_fmap head unwrap mbind outcome_bind fst]. cbn zeta.
  rewrite (inv_max_id _ _ _ _ _ _ H).
  destruct (ids_between nps.*1 _ Hids) as (id & Eid & Hid). cbn [fmap list_fmap fst head_id] in Eid. cbn [cut f_id]. rewrite Eid.
  cbn [mbind outcome_bind]. match goal with |- context [push_piece st ?x _] => set (h := x) end.
  assert (Hhl : f_len h = byte_len g) by (eapply (cut_len _ _ _ _ _ _ H f); done).
  assert (Hhv : f_visible h = true) by done. change (f_visible h) with (f_visible f). rewrite Hv.
  assert (Hhs : span_of h = mkSpan (f_timestamp f) (f_insertion_offset f + byte_len x1) (f_insertion_offset f + byte_len (x1 ++ g))).
  { unfold h. rewrite (inv_old_visible _ _ _ _ _ _ H). by apply (cut_span st bps f _ x1 g x3 rest nps _ _ H Hx). }
  ok_bind (push_part st bps f x1 g x3 rest nps _ h k H Hv Hg Hhl Hr). intros st1 (t & b & -> & Hc1). cbn [ok_with].
  exists (nps ++ [(h, g)]). destruct (texts_snoc nps h g) as [Env End]. rewrite Hhv in Env, End. split_and!; [|done| |].
  - split.
    + by rewrite <-app_assoc.
    + rewrite fmap_app, <-app_assoc. by apply Hid.
    + eapply (patch_keep st _ bps _ nps _ x1 _ g); [exact Hp|done|by rewrite app_assoc|done].
    + unfold weigh in *. rewrite Env, End. weigh_tac g.
    + eapply (index_part _ _ st _ bps f x1 g x3 rest nps h []); [done|exact (head_len _ _ _ _ _ _ _ _ H)|done| |grow_tac|apply sublist_nil_l|done].
      exact Hhs.
    + pose proof (traced_part ts (tree_items F) Hun st (pushed st h t b) nps _ f h g Htr) as Hpart. rewrite Hv, <-app_assoc in Hpart.
      eapply traced_same; [apply Hpart|done]; [exact (head_item _ _ _ _ _ _ _ _ H)| |done..].
      eapply (span_part _ _ x1 g x3); [exact (head_len _ _ _ _ _ _ _ _ H)|exact Hhs].
  - by apply (room_push _ _ h g k).
  - eapply passes_part; [done|done|exact Hhs|by eapply part_atoms].
Qed.

(** All of the old text has been passed or lies ahead. *)
Lemma inv_total ins st bps aps nps x1 qv :
  inv ins st bps aps nps x1 qv →
  byte_len (vis_text nps) + byte_len (del_text nps) + byte_len qv + byte_len (del_text aps)
    = byte_len (rope_text V) + byte_len (rope_text D) + byte_len ins.
Proof using All.
  intros [H _ _ Hw _ _]. rewrite (inv_text _ _ _ _ _ _ H).
  rewrite (rc_text _ _ _ _ (ba_deleted _ _ _ _ _ _ _ _ _ (ei_builder _ _ _ _ _ _ _ _ _ H))). apply byte_len_perm in Hw.
  rewrite !byte_len_app in *. lia.
Qed.

(** [insert_text]: the new text becomes a fragment before the cursor. *)
Lemma insert_text_spec ins st bps aps nps x1 qv t k :
  inv ins st bps aps nps x1 qv → Forall char_ok t → small ((vis_text nps ++ t) ++ del_text nps ++ qv ++ del_text aps) →
  room nps aps (1 + k) →
  ok_with (insert_text (Sl:=list N) st (str_of t) ts) (fun st' => ∃ nps',
    inv (ins ++ t) st' bps aps nps' x1 qv ∧ vis_text nps' = vis_text nps ++ t ∧ del_text nps' = del_text nps ∧ room nps' aps k ∧
    es_ranges st' = es_ranges st ∧ es_new_text st' = es_new_text st ∧ doc nps' = doc nps ++ atoms ts ∅ (byte_len ins) t).
Proof using All.
  intros HI Ht Hs Hr. pose proof (inv_total _ _ _ _ _ _ _ HI) as Htot. destruct HI as [H Hids Hp Hw Hx Htr]. unfold insert_text. case_bool_decide as E.
  { apply str_of_nil in E as ->. cbn [ok_with]. exists nps. rewrite app_nil_r. rewrite app_nil_r.
    split_and!; [done|done|done|unfold room in *; lia|done|done|by rewrite app_nil_r]. }
  assert (Hne : t ≠ []) by (intros ->; done). pose proof (nonempty_bytes t Hne) as Hpos.
  rewrite (inv_item _ _ _ _ _ _ H). cbn [mbind outcome_bind]. unfold push_fragments_for_insertion.
  assert (Hsm : byte_len t <= 2 ^ 31) by (unfold small in Hs; rewrite !byte_len_app in Hs; lia).
  destruct (str_of t) as [|b0 bs] eqn:Es; [done|]. cbn [length insertion_loop]. rewrite <-Es.
  change (str_len (str_of t)) with (byte_len t). rewrite (proj2 (N.ltb_lt 0 _)) by done.
  rewrite (usize_add_exact 0), N.min_l by (unfold MAX_INSERTION_LEN, u32_max; lia). rewrite N.eqb_refl.
  rewrite (proj2 (N.eqb_neq _ _)) by lia. rewrite usize_sub_exact, N.sub_0_r by lia.
  rewrite u32_wrap_small by (unfold u32_max; lia). rewrite (inv_max_id _ _ _ _ _ _ H), (inv_new_visible _ _ _ _ _ _ H).
  destruct (ids_between nps.*1 _ Hids) as (id & Eid & Hid).
  assert (Eh : match head aps.*1 with Some old_fragment => f_id old_fragment | None => locator_max end = head_id aps.*1)
    by (by destruct aps). rewrite Eh, Eid. cbn [mbind outcome_bind].
  match goal with |- context [push cx _ ?x] => set (h := x) end. destruct (room_push nps aps h t k Hr) as [Hfit Hroom].
  pose proof (ei_items _ _ _ _ _ _ _ _ _ H) as Hi.
  apply ok_with_bind, ok_with_bind. ok_bind (push_spec cx ROPE_DEPTH (es_new_fragments st) h); [apply H|by rewrite Hi|]. intros tr [Htree Eit].
  assert (Eloop : ∀ fuel (st' : sstate), insertion_loop fuel st' (str_of t) ts (head_id aps.*1) (byte_len t) = Ok st').
  { intros fuel st'. destruct fuel; cbn [insertion_loop]; change (str_len (str_of t)) with (byte_len t); by rewrite N.ltb_irrefl. }
  cbn zeta. rewrite Eloop. cbn [ok_with]. cbn [es_new_ropes].
  ok_bind (builder_push_str_spec V D HV HD HsV HsD (es_new_ropes st) _ qv _ _ _ _ t (ei_builder _ _ _ _ _ _ _ _ _ H) Ht Hs).
  intros rb Hrb. cbn [ok_with]. exists (nps ++ [(h, t)]). destruct (texts_snoc nps h t) as [Env End]. cbn [f_visible h] in Env, End.
  split_and!; [|done|done|done|done|done|].
  2:{ rewrite doc_snoc. unfold piece_atoms. cbn. by rewrite (xi_offset _ _ _ _ _ _ _ Hx). }
  split.
  - destruct H. split; cbn; rewrite ?Env, ?End; try done.
    + by rewrite Eit, Hi, fmap_app.
    + apply Forall_app. split; [done|]. constructor; [|done]. by split.
  - rewrite fmap_app, <-app_assoc. by apply Hid.
  - unfold patch_inv. cbn. rewrite (ei_start _ _ _ _ _ _ _ _ _ H), Env, usize_add_exact, <-byte_len_app.
    + apply reaches_push; [exact Hp|lia|rewrite byte_len_app; lia|right; rewrite byte_len_app; lia].
    + unfold small in Hs. rewrite !byte_len_app in Hs. lia.
  - unfold weigh in *. rewrite Env, End. weigh_tac t.
  - rewrite byte_len_app. assert (Hins : byte_len ins + byte_len t <= u32_max) by (unfold small in Hs; rewrite !byte_len_app in Hs; unfold u32_max; lia).
    eapply (index_insert _ _ st); [exact Hx|done|apply Hx|done|done|grow_tac|]. cbn. rewrite (xi_offset _ _ _ _ _ _ _ Hx). by apply u32_add_exact.
  - by eapply traced_insert.
Qed.

(** ** Deleting *)
Context (was : Atom → bool).
Context (Hwas : ∀ f, f ∈ tree_items F → ∀ o t a, a ∈ atoms (f_timestamp f) (list_to_set (f_deletions f)) o t → was a = f_visible f).
Abbreviation strikes := (passes (fmap (strike was ts))).

(** One turn over a deleted fragment: it is kept as it is. *)
Lemma skip_deleted ins st bps f m rest nps qv k :
  inv ins st bps ((f, m) :: rest) nps [] qv → f_visible f = false → room nps ((f, m) :: rest) (1 + k) →
  ok_with (st1 ← push_piece (Sl:=list N) st f false;
           c ← cursor_next cx (es_old_fragments st1);
           Ok (with_cursor st1 c (es_fragment_start st)))
    (fun st' => inv ins st' (bps ++ [(f, m)]) rest (nps ++ [(f, m)]) [] qv ∧ room (nps ++ [(f, m)]) rest (1 + k)
      ∧ vis_text (bps ++ [(f, m)]) = vis_text bps ∧ vis_text (nps ++ [(f, m)]) = vis_text nps
      ∧ strikes st bps ((f, m) :: rest) [] nps st' (bps ++ [(f, m)]) rest [] (nps ++ [(f, m)])).
Proof using All.
  intros [H Hids Hp Hw Hx Htr] Hv Hr. ok_bind (push_deleted st bps f m rest nps qv k H Hv Hr).
  intros st1 (t & b & -> & Ht & Eit & Hb). cbn [pushed es_old_fragments].
  ok_bind (cursor_next_at cx ROPE_DEPTH (es_old_fragments st) bps.*1 ((f, m) :: rest).*1);
    rewrite ?(ei_tree _ _ _ _ _ _ _ _ _ H); [done|apply fragment_height|apply H|].
  intros c [Ec Hc]. cbn [fmap list_fmap fst take drop] in Hc. rewrite take_0, drop_0 in Hc. cbn [ok_with].
  destruct (texts_snoc bps f m) as [Ebv Ebd], (texts_snoc nps f m) as [Env End]. rewrite Hv in Ebv, Ebd, Env, End.
  split_and!; [|unfold room in *; rewrite length_app; cbn [length] in *; lia|done|done|].
  2:{ split; [done|done|]. exists (piece_atoms (f, m)). rewrite !walked_nil, !doc_snoc. split; [done|]. rewrite strike_hidden; [done|]. apply Forall_forall. intros a Ha. rewrite <-Hv.
      exact (Hwas f (head_item _ _ _ _ _ _ _ _ H) _ _ a Ha). }
  split.
  - destruct H. split; cbn [with_cursor pushed es_old_fragments es_fragment_start es_new_fragments es_new_ropes]; rewrite ?Ebv; try done.
    + by rewrite fmap_app.
    + cbn in ei_ahead0. by rewrite Hv in ei_ahead0.
    + by left.
    + apply Forall_app. split; [done|]. apply Forall_cons in ei_after_ok0 as [? _]. by constructor.
    + by apply Forall_cons in ei_after_ok0 as [_ ?].
    + apply Forall_app. split; [done|]. apply Forall_cons in ei_after_ok0 as [? _]. by constructor.
  - rewrite fmap_app, <-app_assoc. exact Hids.
  - unfold patch_inv in *. cbn. by rewrite Ebv, Env.
  - unfold weigh in *. rewrite Ebv, Ebd, Env, End. weigh_tac m.
  - eapply index_skip; [exact Hx|grow_tac|done].
  - rewrite Ebv. pose proof (traced_part ts (tree_items F) Hun st (pushed st f t b) nps _ f f m Htr (head_item _ _ _ _ _ _ _ _ H)) as Hpart.
    rewrite Hv, app_nil_r in Hpart. eapply traced_same; [by apply Hpart|done].
Qed.

(** The part of a visible fragment inside the range becomes a deleted fragment. *)
Lemma delete_part ins st bps f x1 m x2 rest nps q h k :
  inv ins st bps ((f, x1 ++ m ++ x2) :: rest) nps x1 (m ++ q) → f_visible f = true → m ≠ [] →
  span_of h = mkSpan (f_timestamp f) (f_insertion_offset f + byte_len x1) (f_insertion_offset f + byte_len (x1 ++ m)) →
  f_len h = byte_len m → f_visible h = false → f_deletions h = f_deletions f ++ [ts] → ids_ok (nps.*1 ++ h :: f :: rest.*1) →
  room nps ((f, x1 ++ m ++ x2) :: rest) (1 + k) →
  let end_ := byte_len ((vis_text bps ++ x1) ++ m) in
  let n := byte_len (vis_text nps) in
  ok_with (st1 ← push_piece (Sl:=list N)
             (with_slice (with_edit st (mkEdit (mkRange (byte_len (vis_text bps ++ x1)) end_) (mkRange n n))) (slice_from_fragment ts h)) h true;
           Ok (with_start st1 end_))
    (fun st' => inv ins st' bps ((f, x1 ++ m ++ x2) :: rest) (nps ++ [(h, m)]) (x1 ++ m) q
      ∧ vis_text (nps ++ [(h, m)]) = vis_text nps ∧ room (nps ++ [(h, m)]) ((f, x1 ++ m ++ x2) :: rest) k
      ∧ strikes st bps ((f, x1 ++ m ++ x2) :: rest) x1 nps st' bps ((f, x1 ++ m ++ x2) :: rest) (x1 ++ m) (nps ++ [(h, m)])).
Proof using All.
  intros [H Hids Hp Hw Hx Htr] Hv Hm Hsp Hl Hhv Hhd Hid Hr end_ n. set (st2 := with_slice _ _).
  assert (H2 : core st2 bps ((f, x1 ++ m ++ x2) :: rest) nps x1 (m ++ q)) by (destruct H; by split).
  ok_bind (push_part st2 bps f x1 m x2 rest nps q h k H2 Hv Hm Hl Hr). intros st1 (t & b & -> & Hc). cbn [ok_with].
  destruct (texts_snoc nps h m) as [Env End]. rewrite Hhv in Env, End.
  split_and!; [|done|by apply (room_push _ _ h m k)|].
  2:{ eapply passes_part; [done|done|exact Hsp|]. rewrite strike_shown.
      - unfold span_of in Hsp. injection Hsp as E1 E2 _. unfold piece_atoms. cbn [fst snd]. by rewrite E1, E2, Hhd.
      - intros a Ha. rewrite <-Hv. exact (Hwas f (head_item _ _ _ _ _ _ _ _ H) _ _ a Ha). }
  split.
  - unfold end_. by rewrite <-app_assoc.
  - by rewrite fmap_app, <-app_assoc.
  - unfold patch_inv. cbn. rewrite Env, app_assoc. apply reaches_push; [exact Hp|unfold end_; rewrite (byte_len_app _ m); lia|lia|].
    left. rewrite (byte_len_app _ m). pose proof (nonempty_bytes m Hm). lia.
  - unfold weigh in *. rewrite Env, End. weigh_tac m.
  - eapply (index_part _ _ st _ bps f x1 m x2 rest nps h [h]); [done| |done|done|grow_tac|done|done].
    exact (head_len _ _ _ _ _ _ _ _ H).
  - rewrite app_assoc. eapply (traced_delete _ _ Hun st _ nps _ f h m Htr); [exact (head_item _ _ _ _ _ _ _ _ H)| |done..].
    eapply (span_part _ _ x1 m x2); [exact (head_len _ _ _ _ _ _ _ _ H)|done].
Qed.

(** What a deletion takes of the rest of a fragment: all of it, or all that is to be deleted. *)
Lemma split_overlap (d qr x2 v : list N) : d ++ qr = x2 ++ v →
  ∃ m x3 d', x2 = m ++ x3 ∧ d = m ++ d' ∧ (x3 = [] ∨ x3 ≠ [] ∧ d' = []) ∧ d' ++ qr = x3 ++ v.
Proof using All.
  intros Eqv. destruct (N.le_gt_cases (byte_len x2) (byte_len d)) as [Hle|Hgt].
  - destruct (prefix_split _ _ _ _ (eq_sym Eqv) Hle) as (d' & -> & E). exists x2, [], d'. rewrite app_nil_r. by split_and!; [..|left|].
  - destruct (prefix_split _ _ _ _ Eqv (N.lt_le_incl _ _ Hgt)) as (x3 & -> & E). exists d, x3, []. rewrite app_nil_r.
    split_and!; [done|done| |done]. right. split; [|done]. intros ->. rewrite app_nil_r in Hgt. lia.
Qed.
Lemma overlap_end (l m x3 d' : list N) : x3 = [] ∨ x3 ≠ [] ∧ d' = [] →
  N.min (byte_len (l ++ m ++ d')) (byte_len (l ++ m ++ x3)) = byte_len (l ++ m).
Proof using All.
  intros [->|[_ ->]]; rewrite !app_nil_r, (app_assoc _ m); [apply N.min_r|apply N.min_l]; rewrite (byte_len_app (_ ++ m)); lia.
Qed.

(** What a turn of the loop does to the text ahead. *)
Definition deleted_step (ins : list N) (st : sstate) (nps aps bps : pieces) (x1 d qr : list N) (k : N) (st' : sstate) : Prop :=
  ∃ bps' aps' nps' x1' m d', inv ins st' bps' aps' nps' x1' (d' ++ qr) ∧ d = m ++ d' ∧
    vis_text bps' ++ x1' = (vis_text bps ++ x1) ++ m ∧ vis_text nps' = vis_text nps ∧
    (((length aps' < length aps)%nat ∧ room nps' aps' (1 + k)) ∨ (d' = [] ∧ room nps' aps' k)) ∧
    strikes st bps aps x1 nps st' bps' aps' x1' nps'.

Ltac delete_start H :=
  unfold delete_step; let e := fresh "e" in let Eend := fresh "Eend" in let Ee := fresh "Ee" in
  destruct (inv_end _ _ _ _ _ _ H) as (e & Eend & Ee); rewrite (inv_item _ _ _ _ _ _ H);
  cbn [fmap list_fmap head unwrap mbind outcome_bind fst]; rewrite Eend; cbn [mbind outcome_bind]; rewrite Ee;
  cbn [take]; rewrite take_0.

(** The head is a deleted fragment: it is kept as it is. *)
Lemma delete_hidden ins st bps f x rest nps x1 d qr k :
  inv ins st bps ((f, x) :: rest) nps x1 (d ++ qr) → f_visible f = false → d ≠ [] → room nps ((f, x) :: rest) (1 + k) →
  ok_with (delete_step (Sl:=list N) st ts (byte_len ((vis_text bps ++ x1) ++ d)))
    (deleted_step ins st nps ((f, x) :: rest) bps x1 d qr k).
Proof using All.
  intros HI Hv Hd Hr. pose proof HI as [H Hids Hp Hw Hx Htr]. pose proof (nonempty_bytes d Hd) as Hdpos. delete_start H.
  destruct (texts_snoc bps f x) as [Ebv Ebd]. rewrite Ebv. cbn zeta.
  rewrite (inv_old_visible _ _ _ _ _ _ H), (ei_start _ _ _ _ _ _ _ _ _ H).
  pose proof (ei_after_ok _ _ _ _ _ _ _ _ _ H) as Hok. apply Forall_cons in Hok as [[Hfl Hfp] _]. cbn in Hfl, Hfp. rewrite Hv in *.
  assert (x1 = []) as ->.
  { destruct (ei_head _ _ _ _ _ _ _ _ _ H) as [?|(f' & x2 & r & E' & Hv')]; [done|]. injection E' as <- _ _. congruence. }
  cbn [mbind outcome_bind]. rewrite (proj2 (N.ltb_lt _ _) Hfp), Hv. cbn [andb]. rewrite app_nil_r.
  rewrite N.min_r by (rewrite byte_len_app; lia). rewrite (proj2 (N.leb_le _ _)) by (rewrite byte_len_app; lia).
  pose proof (skip_deleted ins st bps f x rest nps (d ++ qr) k HI Hv Hr) as Hskip.
  destruct (ok_with_inv _ _ Hskip) as (st' & E & Hinv & Hroom & Eb' & En' & Hst').
  destruct (push_piece (Sl:=list N) st f false) as [st1|]; [|done]. cbn [mbind outcome_bind] in *.
  destruct (cursor_next cx (es_old_fragments st1)) as [c|] eqn:Ecn; [|done]. cbn [mbind outcome_bind] in *.
  cbn [with_start with_cursor es_old_fragments]. rewrite Ecn. cbn [mbind outcome_bind ok_with].
  exists (bps ++ [(f, x)]), rest, (nps ++ [(f, x)]), [], [], d. rewrite !app_nil_r. split_and!; try done.
  - injection E as <-. cbn. rewrite (ei_start _ _ _ _ _ _ _ _ _ H), app_nil_r in Hinv. exact Hinv.
  - left. split; [cbn; lia|done].
  - injection E as <-. destruct Hst' as [F1 F2 F3]. by split.
Qed.
(** The head is visible: the part of it in the range is deleted. *)
Lemma delete_visible ins st bps f x rest nps x1 d qr k :
  inv ins st bps ((f, x) :: rest) nps x1 (d ++ qr) → f_visible f = true → d ≠ [] → room nps ((f, x) :: rest) (1 + k) →
  ok_with (delete_step (Sl:=list N) st ts (byte_len ((vis_text bps ++ x1) ++ d)))
    (deleted_step ins st nps ((f, x) :: rest) bps x1 d qr k).
Proof using All.
  intros HI Hv Hd Hr. pose proof HI as [H Hids Hp Hw Hx Htr]. pose proof (nonempty_bytes d Hd) as Hdpos. delete_start H.
  destruct (texts_snoc bps f x) as [Ebv Ebd]. rewrite Ebv. cbn zeta.
  rewrite (inv_old_visible _ _ _ _ _ _ H), (ei_start _ _ _ _ _ _ _ _ _ H).
  pose proof (ei_after_ok _ _ _ _ _ _ _ _ _ H) as Hok. apply Forall_cons in Hok as [[Hfl Hfp] _]. cbn in Hfl, Hfp. rewrite Hv in *.
  assert (Hx2 : ∃ x2, x = x1 ++ x2).
  { destruct (ei_head _ _ _ _ _ _ _ _ _ H) as [->|(f' & x2 & r & E' & _)]; [by exists x|]. injection E' as <- -> _. by exists x2. }
  destruct Hx2 as (x2 & ->). pose proof (head_visible _ _ _ _ _ _ _ _ H Hv) as Eqv. rewrite app_assoc.
  rewrite (inv_max_id _ _ _ _ _ _ H), (inv_new_visible _ _ _ _ _ _ H).
  destruct (ids_between nps.*1 _ Hids) as (id & Eid & Hid). cbn [fmap list_fmap fst head_id] in Eid, Hid. cbn [cut f_id]. rewrite Eid.
  cbn [mbind outcome_bind].
  destruct (split_overlap _ _ _ _ Eqv) as (m & x3 & d' & -> & -> & Hcase & Erest). rewrite (overlap_end (vis_text bps ++ x1) m x3 d' Hcase). match goal with |- context [with_deletion ?a ?b] => set (h := with_deletion a b) end.
  assert (Hhl : f_len h = byte_len m) by (apply (cut_len _ _ _ _ _ _ H f (byte_len (vis_text bps)) m (d' ++ qr)); by rewrite app_assoc).
  rewrite Hhl. rewrite <-app_assoc in HI. cbn [andb].
  change (f_visible h) with false. cbn [negb]. destruct (decide (m = [])) as [->|Hm].
  + assert (x3 = []) as -> by (destruct Hcase as [?|[_ ->]]; done). cbn [app] in *. rewrite !app_nil_r in *.
    change (0 <? byte_len []) with false. cbn [mbind outcome_bind]. rewrite (proj2 (N.leb_le _ _)) by (rewrite (byte_len_app _ d'); lia).
    ok_bind (next_consumed st bps f x1 rest nps _ H Hv). intros c Hc. cbn [ok_with].
    exists (bps ++ [(f, x1)]), rest, nps, [], [], d'. rewrite !app_nil_r. split_and!; try done.
    * eapply inv_next; [exact HI|done| |done]. intros ->. change (byte_len []) with 0 in Hfl. lia.
    * left. split; [cbn; lia|]. unfold room in *. cbn [length] in *. lia.
    * apply passes_none; [done|done|done|by rewrite ?app_nil_r, walked_next].
  + rewrite (proj2 (N.ltb_lt 0 _)) by (by apply nonempty_bytes).
    ok_bind (delete_part ins st bps f x1 m x3 rest nps (d' ++ qr) h k HI Hv Hm);
      [by apply (cut_span st bps f _ x1 m x3 rest nps _ _ H Hx)|done|done|done|by apply Hid|done|]. intros st1 (HI1 & En1 & Hr1 & Hst1).
    destruct Hcase as [->|[Hx3 ->]].
    * rewrite app_nil_r in *. rewrite (proj2 (N.leb_le _ _)) by (rewrite (app_assoc _ m), (byte_len_app (_ ++ m)); lia).
      ok_bind (next_consumed st1 bps f (x1 ++ m) rest (nps ++ [(h, m)]) _ (inv_core _ _ _ _ _ _ _ HI1) Hv). intros c Hc. cbn [ok_with].
      exists (bps ++ [(f, x1 ++ m)]), rest, (nps ++ [(h, m)]), [], m, d'. rewrite app_nil_r.
      split_and!; try done.
      -- eapply inv_next; [exact HI1|done|by destruct x1|done].
      -- by rewrite Ebv, app_assoc.
      -- left. split; [cbn; lia|]. unfold room in *. rewrite length_app in *. cbn [length] in *. lia.
      -- by eapply (passes_next _ st bps f (x1 ++ m) rest _ st1).
    * rewrite app_nil_r. rewrite (proj2 (N.leb_gt _ _)) by (rewrite (app_assoc _ m), (byte_len_app (_ ++ m)); pose proof (nonempty_bytes x3 Hx3); lia).
      cbn [ok_with]. exists bps, ((f, x1 ++ m ++ x3) :: rest), (nps ++ [(h, m)]), (x1 ++ m), m, []. rewrite app_nil_r.
      split_and!; try done; [by rewrite app_assoc|by right].
Qed.
Lemma delete_step_spec ins st bps aps nps x1 d qr k :
  inv ins st bps aps nps x1 (d ++ qr) → d ≠ [] → room nps aps (1 + k) →
  ok_with (delete_step (Sl:=list N) st ts (byte_len ((vis_text bps ++ x1) ++ d)))
    (deleted_step ins st nps aps bps x1 d qr k).
Proof using All.
  intros HI Hd Hr. destruct aps as [|[f x] rest].
  { pose proof (ei_ahead _ _ _ _ _ _ _ _ _ (inv_core _ _ _ _ _ _ _ HI)) as Ea. cbn in Ea. by destruct x1, d. }
  destruct (f_visible f) eqn:Hv; [by apply delete_visible|by apply delete_hidden].
Qed.

(** The loop takes in the whole range: there are fewer fragments ahead at every turn. *)
Lemma delete_loop_spec fuel ins st bps aps nps x1 d qr k :
  inv ins st bps aps nps x1 (d ++ qr) → room nps aps (1 + k) → (length aps < fuel)%nat →
  ok_with (delete_loop (Sl:=list N) fuel st ts (byte_len ((vis_text bps ++ x1) ++ d))) (fun st' => ∃ bps' aps' nps' x1',
    inv ins st' bps' aps' nps' x1' qr ∧ vis_text bps' ++ x1' = (vis_text bps ++ x1) ++ d ∧
    vis_text nps' = vis_text nps ∧ room nps' aps' k ∧ strikes st bps aps x1 nps st' bps' aps' x1' nps').
Proof using All.
  assert (Hstop : ∀ fuel st bps aps nps x1, inv ins st bps aps nps x1 qr →
    delete_loop (Sl:=list N) fuel st ts (byte_len (vis_text bps ++ x1)) = Ok st).
  { intros f s b a n x [H _ _ _ _ _]. destruct f; cbn [delete_loop]; by rewrite (ei_start _ _ _ _ _ _ _ _ _ H), N.ltb_irrefl. }
  revert st bps aps nps x1 d. induction fuel as [|fuel IH]; intros st bps aps nps x1 d HI Hr Hlen; [lia|].
  destruct (decide (d = [])) as [->|Hd].
  { rewrite app_nil_r, (Hstop _ _ _ _ _ _ HI). cbn [ok_with]. exists bps, aps, nps, x1. split_and!; try done; [unfold room in *; lia|by apply passes_none]. }
  cbn [delete_loop]. rewrite (ei_start _ _ _ _ _ _ _ _ _ (inv_core _ _ _ _ _ _ _ HI)).
  rewrite (proj2 (N.ltb_lt _ _)) by (rewrite (byte_len_app _ d); pose proof (nonempty_bytes d Hd); lia).
  ok_bind (delete_step_spec ins st bps aps nps x1 d qr k HI Hd Hr).
  intros st' (bps' & aps' & nps' & x1' & m & d' & HI' & -> & Eb & En & Hcase & Hst). rewrite app_assoc, <-Eb.
  destruct Hcase as [[Hl Hr']|[-> Hr']].
  - eapply ok_with_mono; [by apply (IH st' bps' aps' nps' x1' d'); [..|lia]|]. intros s (b & a & n & x & H1 & E1 & E2 & H2 & H3). exists b, a, n, x. rewrite E2, En.
    split_and!; try done. eapply passes_trans; [apply fmap_app|exact Hst|exact H3].
  - rewrite app_nil_r, (Hstop _ _ _ _ _ _ HI'). cbn [ok_with]. exists bps', aps', nps', x1'. done.
Qed.

Lemma inv_ahead_len st bps aps nps x1 qv : core st bps aps nps x1 qv → (length aps <= length (tree_items F))%nat.
Proof using All.
  intros H. destruct (ei_cursor _ _ _ _ _ _ _ _ _ H) as (_ & Hi & _). rewrite <-(ei_tree _ _ _ _ _ _ _ _ _ H), Hi, length_app, !length_fmap. lia.
Qed.

(** All the bytes walked over. *)
Lemma walked_bytes st bps aps nps x1 qv : core st bps aps nps x1 qv → doc_bytes (walked bps aps x1) = byte_len (vis_text bps ++ x1) + byte_len (del_text bps).
Proof.
  intros H. assert (Eh : at_char <$> head_atoms aps x1 = x1).
  { destruct aps as [|[f x] rest]; [|apply atoms_chars]. by destruct (ei_head _ _ _ _ _ _ _ _ _ H) as [->|(? & ? & ? & ? & _)]. }
  unfold walked. rewrite doc_bytes_app. unfold doc_bytes. rewrite Eh, <-(byte_len_perm _ _ (texts_chars bps)), !byte_len_app. lia.
Qed.
(** One edit: [g] is kept, [d] deleted and [t] inserted in its place. *)
Definition changes_doc (ins : list N) (st : sstate) (bps aps nps : pieces) (x1 : list N) (cs : list DocChange) (st' : sstate) (bps' aps' nps' : pieces) (x1' : list N) : Prop :=
  walked bps' aps' x1' = walked bps aps x1 ++ doc_before cs ∧ doc nps' = doc nps ++ doc_after was ts (byte_len ins) cs ∧
  es_ranges st' = es_ranges st ++ doc_ranges (doc_bytes (walked bps aps x1)) cs ∧ es_new_text st' = es_new_text st ++ (str_of ∘ dc_text <$> cs).

Lemma apply_edit_spec fuel ins st bps aps nps x1 g d qr t k :
  inv ins st bps aps nps x1 (g ++ d ++ qr) → room nps aps (3 + k) → (length (tree_items F) < fuel)%nat → Forall char_ok t →
  byte_len (rope_text V) + byte_len (rope_text D) + byte_len ins + byte_len (normalize_arc t) <= 2 ^ 31 →
  ok_with (apply_edit (Sl:=list N) fuel st ts
      (mkRange (byte_len ((vis_text bps ++ x1) ++ g)) (byte_len ((vis_text bps ++ x1) ++ g ++ d))) (str_of t)) (fun st' => ∃ bps' aps' nps' x1' keep del,
    inv (ins ++ normalize_arc t) st' bps' aps' nps' x1' qr ∧ vis_text bps' ++ x1' = (vis_text bps ++ x1) ++ g ++ d ∧
    vis_text nps' = vis_text nps ++ g ++ normalize_arc t ∧ room nps' aps' k ∧
    changes_doc ins st bps aps nps x1 [mkDocChange keep del (normalize_arc t)] st' bps' aps' nps' x1').
Proof using All.
  intros HI Hr Hfuel Ht Hs. unfold apply_edit. cbn [r_start r_end]. cbn zeta. rewrite normalize_str by done.
  ok_bind (jump_ahead_spec ins st bps aps nps x1 g (d ++ qr) (2 + k) HI); [unfold room in *; lia|].
  intros st1 (bps1 & aps1 & nps1 & x11 & m & g' & H1 & -> & Eb1 & En1 & Hcov & Hr1 & Hk1).
  assert (E1 : (vis_text bps ++ x1) ++ m ++ g' = (vis_text bps1 ++ x11) ++ g') by (by rewrite Eb1, <-!app_assoc).
  assert (E2 : (vis_text bps ++ x1) ++ (m ++ g') ++ d = (vis_text bps1 ++ x11 ++ g') ++ d) by (by rewrite (app_assoc _ (m ++ g') d), E1, <-!app_assoc).
  rewrite E1, E2.
  ok_bind (preserve_prefix_spec ins st1 bps1 aps1 nps1 x11 g' (d ++ qr) (2 + k) H1 Hcov Hr1).
  intros st2 (nps2 & H2 & En2 & Hr2 & Hk2).
  ok_bind (insert_text_spec ins st2 bps1 aps1 nps2 (x11 ++ g') (d ++ qr) (normalize_arc t) (1 + k) H2);
    [by apply normalize_ok| |unfold room in *; lia|].
  { pose proof (inv_total _ _ _ _ _ _ _ H2). unfold small. rewrite !byte_len_app in *. lia. }
  intros st3 (nps3 & H3 & En3 & _ & Hr3 & Er3 & Ex3 & Ed3).
  ok_bind (delete_loop_spec fuel _ st3 bps1 aps1 nps3 (x11 ++ g') d qr k H3 Hr3).
  { pose proof (inv_ahead_len _ _ _ _ _ _ (inv_core _ _ _ _ _ _ _ H3)). lia. }
  intros st4 (bps4 & aps4 & nps4 & x14 & H4 & Eb4 & En4 & Hr4 & Hk4). cbn [ok_with].
  pose proof (walked_bytes _ _ _ _ _ _ (inv_core _ _ _ _ _ _ _ H2)) as W2. pose proof (walked_bytes _ _ _ _ _ _ (inv_core _ _ _ _ _ _ _ H4)) as W4.
  rewrite (inv_old_deleted _ _ _ _ _ _ (inv_core _ _ _ _ _ _ _ H1)), (inv_old_deleted _ _ _ _ _ _ (inv_core _ _ _ _ _ _ _ H4)).
  destruct (passes_trans (fun l => l) _ _ _ _ _ _ _ _ _ _ _ _ _ _ _ ltac:(done) Hk1 Hk2) as [Er2 Ex2 (keep & Ew2 & Ed2)]. destruct Hk4 as [Er4 Ex4 (del & Ew4 & Ed4)].
  exists bps4, aps4, nps4, x14, keep, del. split_and!; [|by rewrite Eb4| |done|].
  - destruct H4 as [H ? ? ? Hx Htr]. split; [destruct H; by split|done..|eapply index_same; [exact Hx|grow_tac|done]|by eapply traced_same].
  - by rewrite En4, En3, En2, En1, <-!app_assoc.
  - unfold changes_doc. cbn [doc_before flat_map doc_after doc_ranges dc_keep dc_delete dc_text fmap list_fmap compose]. rewrite !app_nil_r. split_and!.
    + by rewrite Ew4, Ew2, app_assoc.
    + by rewrite Ed4, Ed3, Ed2, <-!app_assoc.
    + cbn [with_range es_ranges]. rewrite Er4, Er3, Er2. f_equal. f_equal. rewrite Ew4, Ew2, !doc_bytes_app in W4. rewrite Ew2, doc_bytes_app in W2.
      rewrite <-Eb4, <-(app_assoc _ x11 g'). f_equal; lia.
    + cbn [with_range es_new_text]. by rewrite Ex4, Ex3, Ex2.
Qed.

Lemma changes_doc_nil ins st bps aps nps x1 : changes_doc ins st bps aps nps x1 [] st bps aps nps x1.
Proof. unfold changes_doc. cbn. by rewrite !app_nil_r. Qed.
Lemma changes_doc_cons ins st bps aps nps x1 c cs st1 bps1 aps1 nps1 x11 st2 bps2 aps2 nps2 x12 :
  changes_doc ins st bps aps nps x1 [c] st1 bps1 aps1 nps1 x11 → changes_doc (ins ++ dc_text c) st1 bps1 aps1 nps1 x11 cs st2 bps2 aps2 nps2 x12 →
  changes_doc ins st bps aps nps x1 (c :: cs) st2 bps2 aps2 nps2 x12.
Proof.
  intros (E1 & E2 & E3 & E4) (F1 & F2 & F3 & F4). unfold changes_doc in *. cbn [doc_before flat_map doc_after doc_ranges fmap list_fmap] in *. rewrite app_nil_r in *. rewrite byte_len_app in F2. split_and!.
  - by rewrite F1, E1, <-!app_assoc.
  - by rewrite F2, E2, <-!app_assoc.
  - rewrite F3, E3, <-app_assoc, E1, !doc_bytes_app. cbn. by rewrite N.add_assoc.
  - by rewrite F4, E4, <-app_assoc.
Qed.

(** The loop over the edits. *)
Lemma apply_edits_spec fuel cs ins st bps aps nps x1 qr k :
  inv ins st bps aps nps x1 (before_changes cs ++ qr) → room nps aps (3 * N.of_nat (length cs) + k) →
  (length (tree_items F) < fuel)%nat → Forall (fun c => Forall char_ok (ch_insert c)) cs →
  byte_len (rope_text V) + byte_len (rope_text D) + byte_len ins + byte_len (inserted cs) <= 2 ^ 31 →
  ok_with (apply_edits (Sl:=list N) fuel st ts (edits_at (byte_len (vis_text bps ++ x1)) cs)) (fun st' => ∃ bps' aps' nps' x1' ds,
    inv (ins ++ inserted cs) st' bps' aps' nps' x1' qr ∧ vis_text nps' = vis_text nps ++ after_changes cs ∧ room nps' aps' k ∧
    changes_doc ins st bps aps nps x1 ds st' bps' aps' nps' x1' ∧ dc_text <$> ds = normalize_arc ∘ ch_insert <$> cs).
Proof using All.
  revert ins st bps aps nps x1. induction cs as [|[g d t] cs IH]; intros ins st bps aps nps x1 HI Hr Hf Hok Hs.
  { cbn. exists bps, aps, nps, x1, []. rewrite !app_nil_r. split_and!; [exact HI|done|unfold room in *; cbn in *; lia|apply changes_doc_nil|done]. }
  apply Forall_cons in Hok as [Ht Hok]. cbn [ch_insert] in Ht.
  cbn [before_changes after_changes inserted flat_map edits_at apply_edits ch_keep ch_delete ch_insert] in *.
  rewrite <-!app_assoc in HI. rewrite <-!byte_len_app, <-(app_assoc _ g d).
  ok_bind (apply_edit_spec fuel ins st bps aps nps x1 g d _ t (3 * N.of_nat (length cs) + k) HI);
    [unfold room in *; cbn [length] in *; lia|done|done|rewrite byte_len_app in Hs; lia|].
  intros st' (bps' & aps' & nps' & x1' & keep & del & HI' & Eb & En & Hr' & Hc'). rewrite <-Eb.
  eapply ok_with_mono; [apply (IH _ _ _ _ _ _ HI' Hr' Hf Hok); rewrite byte_len_app in *; unfold inserted in *; lia|].
  intros s (b & a & n & x & ds & H1 & E1 & H2 & H3 & H4). exists b, a, n, x, (mkDocChange keep del (normalize_arc t) :: ds). rewrite app_assoc. split_and!; [exact H1| |done| |].
  - by rewrite E1, En, <-!app_assoc.
  - eapply changes_doc_cons; [exact Hc'|exact H3].
  - cbn [fmap list_fmap dc_text]. by f_equal.
Qed.

Lemma edit_start_spec ps g q :
  tree_items F = ps.*1 → Forall piece_ok ps → vis_text ps = rope_text V → del_text ps = rope_text D → ids_ok ps.*1 →
  spans_ok (span_of <$> ps.*1) → Forall (span_in ts 0) (span_of <$> ps.*1) →
  small (rope_text V ++ rope_text D) → rope_text V = g ++ q →
  ok_with (edit_start (Sl:=list N) F V D (byte_len g)) (fun st => ∃ bps aps g',
    ps = bps ++ aps ∧ g = vis_text bps ++ g' ∧ inv [] st bps aps bps [] (g' ++ q) ∧ es_ranges st = [] ∧ es_new_text st = []).
Proof using All.
  intros Hi Hok Ev Ed Hid Hsp Hin Hs Eg. unfold edit_start.
  ok_bind (rope_cursor_spec V [] (rope_text V)); [done..|]. intros v Hv.
  ok_bind (rope_cursor_spec D [] (rope_text D)); [done..|]. intros d Hd.
  ok_bind (cursor_slice_spec cx ROPE_DEPTH (byte_len g) Right (cursor_new cx F : fragment_cursor) [] (tree_items F));
    [done|apply fragment_height|by left|apply visible_ge; cbn; lia|apply fragment_seekable|by apply room_fits|].
  intros [c s] (l & rest & (Ec & Ea & Hsc & Hc) & Hws & His). cbn [fst snd app] in *.
  destruct (visible_scan _ _ _ [] _ Hsc Ea) as [Hlo _]; [cbn; lia|]. cbn [app] in Hlo.
  rewrite Hi in Ea. apply fmap_app_inv in Ea as (bps & aps & -> & -> & ->). apply Forall_app in Hok as [Hokb Hoka].
  destruct (pieces_len bps Hokb) as [Elv Eld]. rewrite <-Elv in Hlo. rewrite vis_text_app in Ev. rewrite del_text_app in Ed.
  destruct (prefix_split (vis_text bps) (vis_text aps) g q) as (g' & -> & Eq); [congruence|done|].
  assert (Es : fs_text (summary s) = mkFragmentText (byte_len (vis_text bps)) (byte_len (del_text bps))).
  { rewrite (tree_wf_summary cx ROPE_DEPTH) by done. rewrite His.
    change (item_summary_of cx <$> ?l) with (fragment_summary <$> l). rewrite fragment_sum_text, Elv, Eld. done. }
  rewrite Es. rewrite <-Ev in Hv. rewrite <-Ed in Hd.
  ok_bind (builder_append_spec V D HV HD HsV HsD (builder_new v d) [] (vis_text bps) (vis_text aps) [] (del_text bps) (del_text aps) [] []).
  { split; cbn; try done. 1-2: apply rope_new_wf. rewrite <-Ev, <-Ed in Hs. small_tac. }
  intros b Hb. cbn [ok_with]. exists bps, aps, g'. split_and!; [done|done| |done|done].
  assert (Hst : fts_visible (cursor_start c) = byte_len (vis_text bps)).
  { destruct Hc as (_ & _ & Hp & _). unfold cursor_start. rewrite Hp, fragment_dims0, Elv. done. }
  rewrite <-Eq. split.
  - split; cbn [es_old_fragments es_fragment_start es_new_fragments es_new_ropes]; rewrite ?app_nil_r; try done; [by left].
  - by rewrite <-fmap_app.
  - unfold patch_inv. cbn. rewrite app_nil_r. split; [|done]. split_and!; cbn; [done|lia..].
  - unfold weigh. by rewrite !app_nil_r.
  - rewrite !fmap_app in *. split; rewrite ?rem_nil; try done.
    + exists []. split; [done|apply sublist_nil_l|by right|]. unfold met. rewrite decide_True, app_nil_r by done. by left.
    + exists []. split; [done|apply sublist_nil_l].
  - rewrite app_nil_r. assert (Hub : untouched ts bps.*1).
    { rewrite Hi, fmap_app in Hun. by apply Forall_app in Hun as [? _]. }
    split; [|intros f Hf Ht|by apply restored_untouched].
    + apply Forall_forall. intros f Hf. apply origin_self. rewrite Hi, fmap_app, elem_of_app. by left.
    + rewrite Forall_forall in Hub. by destruct (Hub f Hf).
Qed.

Lemma edit_finish_spec ins st bps aps nps x1 qv :
  inv ins st bps aps nps x1 qv → room nps aps 1 →
  ok_with (edit_finish (Sl:=list N) st) (fun r => let '(st', v, d) := r in ∃ ps,
    tree_wf cx ROPE_DEPTH (es_new_fragments st') ∧ rope_wf v ∧ rope_wf d ∧
    tree_items (es_new_fragments st') = ps.*1 ∧ N.of_nat (length ps) <= B ∧ Forall piece_ok ps ∧ vis_text ps = rope_text v ∧ del_text ps = rope_text d ∧ ids_ok ps.*1 ∧
    rope_text v = vis_text nps ++ qv ∧ (∃ bps', bps'.*1 = tree_items F ∧ index_inv ts (byte_len ins) st' bps' [] ps []) ∧
    traced ts (tree_items F) st' ps (rope_text V) ∧
    rope_text v ++ rope_text d ≡ₚ rope_text V ++ rope_text D ++ ins ∧ reaches (es_edits_patch st') (byte_len (rope_text V)) (byte_len (rope_text v)) ∧
    es_ranges st' = es_ranges st ∧ es_new_text st' = es_new_text st ∧ ∃ rest, doc (bps ++ aps) = walked bps aps x1 ++ rest ∧ doc ps = doc nps ++ rest).
Proof using All.
  intros HI Hr. unfold edit_finish. destruct (inv_end _ _ _ _ _ _ (inv_core _ _ _ _ _ _ _ HI)) as (e & -> & Ee). cbn [mbind outcome_bind].
  ok_bind (consume_rest_spec ins st bps aps nps x1 qv (fts_visible e) 0 HI Ee); [done|].
  intros st1 (bps1 & aps1 & nps1 & m & [H1 Hid1 Hp1 Hw1 Hx1 Htr1] & -> & En1 & Hr1 & _ & [Er1 Ex1 (l & Ew1 & Ed1)]).
  pose proof (ei_tree _ _ _ _ _ _ _ _ _ H1 : c_tree (es_old_fragments st1) = F) as Ef1.
  ok_bind (cursor_suffix_spec cx ROPE_DEPTH (es_old_fragments st1) bps1.*1 aps1.*1); rewrite ?Ef1;
    [done|apply fragment_height|right; apply H1|by apply room_fits|].
  intros [c s] (Ec & Hc & Hws & His). cbn [fst snd] in *.
  ok_bind (append_slice_spec st1 (byte_len (vis_text bps1)) bps1 aps1 [] nps1 c s 0); rewrite ?app_nil_r; try done.
  { unfold room in *. lia. }
  { by rewrite fmap_app. }
  intros st2 (Ep2 & Hg2 & Ho2 & [Er2 Ex2] & H2).
  ok_bind (builder_finish_spec V D HV HD HsV HsD _ _ _ _ _ _ _ (ei_builder _ _ _ _ _ _ _ _ _ H2)).
  intros [v d] (Hv & Etv & Hd & Etd). cbn [fst snd] in *. cbn [ok_with].
  change (vis_text []) with (@nil N) in *. change (del_text []) with (@nil N) in *. rewrite !app_nil_r in *.
  exists (nps1 ++ aps1). split_and!; try done; try apply H2.
  - unfold room in Hr1. rewrite length_app. lia.
  - by rewrite fmap_app.
  - by rewrite Etv, vis_text_app, En1, <-app_assoc.
  - exists (bps1 ++ aps1). split.
    + destruct (ei_cursor _ _ _ _ _ _ _ _ _ H1) as (_ & Hi & _). rewrite <-(ei_tree _ _ _ _ _ _ _ _ _ H1), Hi. apply fmap_app.
    + eapply (index_keep _ _ _ _ bps1 aps1 [] nps1); [by rewrite app_nil_r; exact Hx1|destruct Hg2; by split|done].
  - rewrite (inv_text _ _ _ _ _ _ H1), app_nil_r. destruct Hg2 as [_ Es2]. cbn in Es2. rewrite app_nil_r in Es2.
    eapply traced_same; [eapply (traced_keep _ _ Hun _ st2); [exact Htr1| |done]|done].
    rewrite (ahead_items _ _ _ _ _ _ H1). intros g Hg. rewrite elem_of_app. by right.
  - pose proof (rc_text _ _ _ _ (ba_deleted _ _ _ _ _ _ _ _ _ (ei_builder _ _ _ _ _ _ _ _ _ H1))) as Edl.
    rewrite Etv, Etd, (inv_text _ _ _ _ _ _ H1), Edl, vis_text_app, del_text_app, app_nil_r. unfold weigh in Hw1. rewrite app_nil_r in Hw1.
    weigh_tac (vis_text aps1 ++ del_text aps1).
  - cbn. rewrite Ep2. pose proof (inv_text _ _ _ _ _ _ H1) as Et. rewrite Et, Etv, vis_text_app, app_nil_r, !byte_len_app.
    unfold patch_inv in Hp1. rewrite app_nil_r in Hp1. by apply reaches_shift.
  - cbn. by rewrite Er2, Er1.
  - cbn. by rewrite Ex2, Ex1.
  - exists (l ++ doc aps1). rewrite (core_pieces _ _ _ _ _ _ _ _ _ _ _ _ (inv_core _ _ _ _ _ _ _ HI) H1), !doc_app, <-(walked_nil bps1 aps1), Ew1, Ed1, <-!app_assoc. done.
Qed.
End walk.
