(* ===== verification/LocalEdit.v ===== *)
(** * What undoing relies on

    A fragment is visible when its insertion is not undone and all its deletions are.  To find
    the fragments an undo affects, every edit that inserted or deleted a part of the text
    has slices that cover what it changed.  [undo_wf] states both; edits keep it. *)

From stdpp Require Import sets.
From stdpp Require Import gmap.
From S2P Require Import Prelude Ord Clock SumTree SumTreeFacts Cursor Locator Patch Bitmap Utf8 Point TextSummary Chunk KeyedTree KeyedFacts TreeMap TreeMapFacts UndoMap History Fragments BufferEdit EditIndex CursorFacts PatchFacts ChunkFacts Rope RopeFacts RopeSlices Doc EditFacts.
Local Open Scope N_scope.

(** ** Visibility *)
Definition count_of (undos : UndoMap) (e : Lamport) : N := max_count (fun _ => true) (of_edit e (tree_items undos)).
Definition undone_by (undos : UndoMap) (e : Lamport) : bool := count_of undos e `mod` 2 =? 1.
Definition visible_by (undos : UndoMap) (f : Fragment) : bool :=
  negb (undone_by undos (f_timestamp f)) && forallb (undone_by undos) (f_deletions f).

Lemma is_undone_spec undos e : undo_map_ok undos → is_undone undos e = Ok (undone_by undos e).
Proof. intros H. unfold is_undone, undo_count. by rewrite undo_count_by_spec. Qed.

Lemma is_visible_spec undos f : undo_map_ok undos → is_visible f undos = Ok (visible_by undos f).
Proof.
  intros H. unfold is_visible, visible_by. rewrite is_undone_spec by done. cbn [mbind outcome_bind].
  destruct (undone_by undos (f_timestamp f)); [done|]. cbn [negb andb]. induction (f_deletions f) as [|d l IH]; [done|].
  cbn [all_outcome forallb]. rewrite is_undone_spec by done. cbn [mbind outcome_bind]. by destruct (undone_by undos d).
Qed.

(** Visibility depends on the edits a fragment mentions. *)
Definition stamps (f : Fragment) : list Lamport := f_timestamp f :: f_deletions f.
Lemma visible_by_ext undos undos' f :
  (∀ e, e ∈ stamps f → undone_by undos e = undone_by undos' e) → visible_by undos f = visible_by undos' f.
Proof.
  unfold visible_by, stamps. intros H. rewrite (H (f_timestamp f)) by left. f_equal. apply eq_true_iff_eq.
  rewrite !forallb_forall. split; intros Hd d Hin; specialize (Hd d Hin);
    [rewrite <-H by (right; by apply list_elem_of_In)|rewrite H by (right; by apply list_elem_of_In)]; done.
Qed.

(** ** Slices *)
Definition in_set (slices : TreeSet InsertionSlice) (s : InsertionSlice) : Prop := denote slices s = Some tt.
Record covers (s : InsertionSlice) (e : Lamport) (f : Fragment) : Prop := {
  co_edit : is_edit_id s = e;
  co_insertion : is_insertion_id s = f_timestamp f;
  co_start : r_start (is_range s) <= f_insertion_offset f;
  co_end : f_insertion_offset f + f_len f <= r_end (is_range s)
}.
(** The base text has the timestamp 1 and no slices. *)
Definition covered (slices : TreeSet InsertionSlice) (f : Fragment) : Prop :=
  ∀ e, e ∈ stamps f → 1 < value e → ∃ s, in_set slices s ∧ covers s e f.
(** The clock is ahead of the edits a fragment mentions. *)
Definition older (clock : N) (f : Fragment) : Prop :=
  0 < value (f_timestamp f) ∧ Forall (fun t => value t < clock) (stamps f).

(** The clock is ahead of the entries of the undo map, and of the counts, since every undo
    takes a tick. *)
Record known (clock : N) (x : UndoMapEntry) : Prop := {
  kn_edit : value (edit_id (um_key x)) < clock;
  kn_undo : value (undo_id (um_key x)) < clock;
  kn_count : um_undo_count x < clock
}.
Lemma known_later clock clock' x : clock <= clock' → known clock x → known clock' x.
Proof. intros Hc []. split; lia. Qed.

Record undo_wf (clock : N) (slices : TreeSet InsertionSlice) (undos : UndoMap) (fs : list Fragment) : Prop := {
  uw_map : undo_map_ok undos;
  uw_known : Forall (known clock) (tree_items undos);
  uw_visible : Forall (fun f => f_visible f = visible_by undos f) fs;
  uw_covered : Forall (covered slices) fs;
  uw_slices : ∀ s, in_set slices s → 0 < value (is_insertion_id s);
  uw_times : Forall (older clock) fs
}.

(** An edit the undo map does not know is not undone. *)
Lemma undone_unknown clock undos e :
  Forall (known clock) (tree_items undos) → clock <= value e →
  undone_by undos e = false.
Proof.
  intros H He. unfold undone_by, count_of. rewrite of_edit_none; [done|]. eapply Forall_impl; [exact H|]. intros x [Hx _ _] E.
  apply cmp_eq in E. rewrite E in Hx. lia.
Qed.

Lemma older_untouched clock ts f : older clock f → clock <= value ts → ¬ touched ts f.
Proof.
  intros [_ Ho] Hc Ht. rewrite Forall_forall in Ho. assert (value ts < clock); [|lia]. apply Ho. unfold stamps.
  destruct Ht as [<-|Hin]; [by left|by right].
Qed.

Lemma undo_wf_later clock clock' slices undos fs : clock <= clock' → undo_wf clock slices undos fs → undo_wf clock' slices undos fs.
Proof.
  intros Hc [H1 H2 H3 H4 H5 H6]. split; try done.
  - eapply Forall_impl; [exact H2|]. intros x. by apply known_later.
  - eapply Forall_impl; [exact H6|]. intros f [Hp Ho]. split; [done|]. eapply Forall_impl; [exact Ho|]. cbn. lia.
Qed.

(** The stamps of a fragment an edit leaves. *)
Lemma derived_stamps ts fs g e : derived ts fs g → e ∈ stamps g →
  e = ts ∧ touched ts g ∨ ∃ f, f ∈ fs ∧ part_of g f ∧ e ∈ stamps f.
Proof.
  unfold stamps, touched. intros [Ht Hd _|f Hf Hp Hd _|f Hf Hp Hd _] He.
  - rewrite Hd in He. apply list_elem_of_singleton in He as ->. auto.
  - right. exists f. by rewrite (pt_insertion _ _ Hp), Hd in He.
  - rewrite (pt_insertion _ _ Hp), Hd, elem_of_cons, elem_of_app, list_elem_of_singleton in He. rewrite Hd. destruct He as [->|[He| ->]].
    + right. exists f. split_and!; [done|done|by left].
    + right. exists f. split_and!; [done|done|by right].
    + left. split; [done|]. right. apply elem_of_app. right. by left.
Qed.

Lemma covers_part s e f g : covers s e f → part_of g f → covers s e g.
Proof. intros [H1 H2 H3 H4] [P1 P2 P3]. split; [done|congruence|lia|lia]. Qed.

Lemma covers_own ts g : f_insertion_offset g + f_len g <= u32_max → covers (slice_from_fragment ts g) ts g.
Proof. intros H. unfold slice_from_fragment. rewrite u32_add_exact by done. split; cbn; done. Qed.

(** Edits keep it. *)
Lemma undo_wf_derived clock clock' ts slices slices' undos fs gs :
  undo_wf clock slices undos fs → undone_by undos ts = false → 1 < value ts → clock <= clock' → value ts < clock' → Forall (derived ts fs) gs →
  (∀ g, g ∈ gs → touched ts g → in_set slices' (slice_from_fragment ts g)) → (∀ s, in_set slices s → in_set slices' s) →
  (∀ s, in_set slices' s → in_set slices s ∨ ∃ g, g ∈ gs ∧ s = slice_from_fragment ts g) →
  Forall (fun g => f_insertion_offset g + f_len g <= u32_max) gs → undo_wf clock' slices' undos gs.
Proof.
  intros Hw Hts H1 Hc Hc' Hor Hnew Hmono Hinv Hlen. rewrite Forall_forall in Hor, Hlen.
  assert (Hold : Forall (older clock') gs).
  { apply Forall_forall. intros g Hg. pose proof (uw_times _ _ _ _ Hw) as Ho. rewrite Forall_forall in Ho. split.
    - destruct (Hor g Hg) as [-> _ _|f Hf Hp _ _|f Hf Hp _ _]; [lia|..]; rewrite (pt_insertion _ _ Hp); by apply Ho.
    - apply Forall_forall. intros e He. destruct (derived_stamps _ _ _ _ (Hor g Hg) He) as [[-> _]|(f & Hf & _ & Hef)]; [lia|].
      destruct (Ho f Hf) as [_ Hof]. rewrite Forall_forall in Hof. specialize (Hof e Hef). lia. }
  split; [apply Hw| | | | |done].
  - eapply Forall_impl; [apply Hw|]. intros x. apply known_later. lia.
  - apply Forall_forall. intros g Hg.
    pose proof (uw_visible _ _ _ _ Hw) as Hv. rewrite Forall_forall in Hv. unfold visible_by.
    destruct (Hor g Hg) as [-> -> ->|f Hf Hp -> ->|f Hf Hp -> ->]; [by rewrite Hts| |].
    + rewrite (pt_insertion _ _ Hp). by apply Hv.
    + by rewrite forallb_app, (andb_comm (forallb _ (f_deletions f))); cbn; rewrite Hts, andb_false_r.
  - apply Forall_forall. intros g Hg e He Hv. pose proof (uw_covered _ _ _ _ Hw) as Hcv. rewrite Forall_forall in Hcv.
    destruct (derived_stamps _ _ _ _ (Hor g Hg) He) as [[-> Ht]|(f & Hf & Hp & Hef)].
    + exists (slice_from_fragment ts g). split; [by apply Hnew|by apply covers_own, Hlen].
    + destruct (Hcv f Hf e Hef Hv) as (s & Hs & Hcs). exists s. split; [by apply Hmono|by eapply covers_part].
  - intros s Hs. destruct (Hinv s Hs) as [?|(g & Hg & ->)]; [by apply (uw_slices _ _ _ _ Hw)|]. cbn.
    rewrite Forall_forall in Hold. by apply Hold.
Qed.
Lemma undo_wf_edit clock ts slices slices' undos fs gs :
  undo_wf clock slices undos fs → clock <= value ts → 1 < value ts → Forall (origin ts fs) gs →
  (∀ g, g ∈ gs → touched ts g → in_set slices' (slice_from_fragment ts g)) → (∀ s, in_set slices s → in_set slices' s) →
  (∀ s, in_set slices' s → in_set slices s ∨ ∃ g, g ∈ gs ∧ s = slice_from_fragment ts g) →
  Forall (fun g => f_insertion_offset g + f_len g <= u32_max) gs → undo_wf (value ts + 1) slices' undos gs.
Proof.
  intros Hw Hc H1 Hor. apply (undo_wf_derived clock _ ts slices slices' undos fs gs); [done| |done|lia|lia|].
  - apply (undone_unknown clock); [exact (uw_known _ _ _ _ Hw)|done].
  - eapply Forall_impl; [exact Hor|]. apply origin_derived.
Qed.

(** A buffer begins with its base text. *)
Lemma undo_wf_new clock fs :
  Forall (fun f => f_visible f = true ∧ f_deletions f = [] ∧ value (f_timestamp f) = 1 ∧ 1 < clock) fs →
  undo_wf clock map_default (new tt) fs.
Proof.
  intros H. split; [split; [split; [by left|done]|constructor]|constructor| | |by intros s Hs|].
  - eapply Forall_impl; [exact H|]. intros f (-> & Hd & _). unfold visible_by. by rewrite Hd.
  - eapply Forall_impl; [exact H|]. intros f (_ & Hd & Ht & _) e He Hv. unfold stamps in He. rewrite Hd in He.
    apply list_elem_of_singleton in He as ->. lia.
  - eapply Forall_impl; [exact H|]. intros f (_ & Hd & Ht & Hc). split; [lia|]. unfold stamps. rewrite Hd. constructor; [lia|done].
Qed.

(** * Correctness of local edits

    [content_wf] is what the parts of a buffer's content promise one another: the fragments
    are ordered by their locators and cut up the two ropes, the visible ones the visible
    text and the others the deleted text.  Edits keep it. *)

Record content_wf (F : fragment_tree) (V D : srope) (ps : pieces) : Prop := {
  cw_tree : tree_wf cx ROPE_DEPTH F;
  cw_visible : rope_wf V;
  cw_deleted : rope_wf D;
  cw_items : tree_items F = ps.*1;
  cw_pieces : Forall piece_ok ps;
  cw_visible_text : vis_text ps = rope_text V;
  cw_deleted_text : del_text ps = rope_text D;
  cw_ids : ids_ok ps.*1;
  cw_spans : spans_ok (span_of <$> ps.*1);
  cw_offsets : Forall (fun s => sp_end s <= u32_max) (span_of <$> ps.*1)
}.

(** Every edit cuts at most three new fragments. *)
Definition fragments_after (F : fragment_tree) (cs : list Change) : N :=
  N.of_nat (length (tree_items F)) + 3 * N.of_nat (length cs) + 1.
Definition edit_fits (F : fragment_tree) (V D : srope) (cs : list Change) : Prop :=
  byte_len (rope_text V) + byte_len (rope_text D) + byte_len (inserted cs) <= 2 ^ 31 ∧ fragments_after F cs <= MAX_CHUNKS.

(** [was] says of the characters of the fragments whether they are shown. *)
Definition tells_shown (was : Atom → bool) (fs : list Fragment) : Prop :=
  ∀ f, f ∈ fs → ∀ o t a, a ∈ atoms (f_timestamp f) (list_to_set (f_deletions f)) o t → was a = f_visible f.
(** What the operation that was recorded says of the document. *)
Record recorded (was : Atom → bool) (ts : Lamport) (cs : list Change) (old new : document) (ranges : list (Range FullOffset)) (texts : list (list N)) : Prop := {
  rc_changes : ∃ ds rest, old = doc_before ds ++ rest ∧ new = doc_after was ts 0 ds ++ rest ∧
    ranges = doc_ranges 0 ds ∧ texts = str_of ∘ dc_text <$> ds ∧ dc_text <$> ds = normalize_arc ∘ ch_insert <$> cs
}.

(** What is known after the walk, before the indexes are brought up to date. *)
Record edited (was : Atom → bool) (old : pieces) (F : fragment_tree) (V D : srope) (ts : Lamport) (cs : list Change) (tail : list N)
    (st : sstate) (v d : srope) (bps ps : pieces) : Prop := {
  ed_content : content_wf (es_new_fragments st) v d ps;
  ed_text : rope_text v = after_changes cs ++ tail;
  ed_kept : rope_text v ++ rope_text d ≡ₚ rope_text V ++ rope_text D ++ inserted cs;
  ed_patch : reaches (es_edits_patch st) (byte_len (rope_text V)) (byte_len (rope_text v));
  ed_length : N.of_nat (length ps) <= fragments_after F cs;
  ed_old : bps.*1 = tree_items F;
  ed_index : index_inv ts (byte_len (inserted cs)) st bps [] ps [];
  ed_traced : traced ts (tree_items F) st ps (rope_text V);
  ed_recorded : recorded was ts cs (doc old) (doc ps) (es_ranges st) (es_new_text st)
}.

Lemma fresh_spans ts (ps : pieces) :
  Forall (older (value ts)) ps.*1 → Forall (fun s => sp_end s <= u32_max) (span_of <$> ps.*1) →
  Forall (span_in ts 0) (span_of <$> ps.*1).
Proof.
  rewrite !Forall_fmap, !Forall_forall. intros H1 H2 p Hp. destruct (H1 p Hp) as [_ H3]. apply Forall_cons in H3 as [H3 _]. split; [by apply H2|].
  cbn. intros E. rewrite E in H3. lia.
Qed.

Lemma edit_fragments_spec was F V D ps cs tail ts :
  tells_shown was ps.*1 → content_wf F V D ps → Forall (older (value ts)) ps.*1 → cs ≠ [] → rope_text V = before_changes cs ++ tail →
  Forall (fun c => Forall char_ok (ch_insert c)) cs → edit_fits F V D cs →
  ok_with (edit_fragments (Sl:=list N) F V D ts (edits_at 0 cs)) (fun r => let '(st, v, d) := r in ∃ bps ps',
    edited was ps F V D ts cs tail st v d bps ps').
Proof.
  intros Hwas [HF HV HD Hi Hok Ev Ed Hid Hsp Hof] Hts Hne Et Hcs [Hs Hr]. destruct cs as [|[g d t] cs]; [done|].
  assert (HsV : small (rope_text V)) by (unfold small; lia). assert (HsD : small (rope_text D)) by (unfold small; lia).
  assert (HFl : N.of_nat (length (tree_items F)) <= MAX_CHUNKS) by (unfold fragments_after in Hr; lia).
  assert (Hun : untouched ts (tree_items F)).
  { rewrite Hi. eapply Forall_impl; [exact Hts|]. intros f Hf. by eapply older_untouched. }
  assert (Hw : tells_shown was (tree_items F)) by (by rewrite Hi). unfold tells_shown in Hw.
  set (B := fragments_after F (mkChange g d t :: cs)) in *. unfold edit_fragments. cbn [edits_at head unwrap mbind outcome_bind fst r_start ch_keep]. rewrite N.add_0_l.
  cbn [before_changes flat_map ch_keep ch_delete] in Et. fold (before_changes cs) in Et.
  ok_bind (edit_start_spec V D F ts HV HD HsV HsD HF HFl Hun B Hr was Hw ps g (d ++ before_changes cs ++ tail) Hi Hok Ev Ed Hid Hsp).
  { by apply fresh_spans. }
  { unfold small. rewrite byte_len_app. lia. }
  { by rewrite Et, <-!app_assoc. }
  intros st (bps & aps & g' & -> & -> & HI & Er0 & Ex0).
  match goal with |- context [apply_edits _ _ _ ?e] =>
    replace e with (edits_at (byte_len (vis_text bps ++ [])) (mkChange g' d t :: cs))
      by (cbn [edits_at ch_keep ch_delete ch_insert]; by rewrite app_nil_r, !byte_len_app)
  end.
  ok_bind (apply_edits_spec V D F ts HV HD HsV HsD HF HFl Hun B Hr was Hw (S (cost F)) (mkChange g' d t :: cs) [] st bps aps bps [] tail 1).
  { cbn [before_changes flat_map ch_keep ch_delete]. rewrite <-!app_assoc. exact HI. }
  { unfold room, B, fragments_after. rewrite Hi, length_fmap, length_app. cbn [length]. lia. }
  { pose proof (cost_items F). lia. }
  { apply Forall_cons in Hcs as [? ?]. by constructor. }
  { change (byte_len []) with 0. unfold inserted in *. cbn [flat_map ch_insert] in *. lia. }
  intros st1 (b & a & n & x & ds & HI1 & En & Hr1 & (Dw & Dn & Dr & Dx) & Dt).
  eapply ok_with_mono; [by apply (edit_finish_spec V D F ts HV HD HsV HsD HF HFl Hun B Hr was Hw _ st1 b a n x tail HI1)|].
  intros [[st2 v] dl] (ps' & ? & ? & ? & ? & ? & ? & ? & ? & ? & Etv & (bps' & Eb & Hx) & Htr & Hk & Hp & Er2 & Ex2 & rest & Do & Dp). exists bps', ps'. split; try done.
  - pose proof (xi_spans _ _ _ _ _ _ _ Hx) as Hsp'. pose proof (xi_bound _ _ _ _ _ _ _ Hx) as Hof'. rewrite rem_nil, app_nil_r in *.
    split; try done. eapply Forall_impl; [exact Hof'|]. by intros ? [? _].
  - rewrite Etv, En. cbn [after_changes flat_map ch_keep ch_insert]. by rewrite <-!app_assoc.
  - rewrite walked_nil in *. rewrite Er0 in Dr. rewrite Ex0 in Dx. cbn [app] in Dr, Dx. destruct ds as [|[keep del t'] ds]; [done|].
    split. exists (mkDocChange (doc bps ++ keep) del t' :: ds), rest. split_and!.
    + rewrite <-(core_pieces _ _ _ _ _ _ _ _ _ _ _ _ _ _ _ (inv_core _ _ _ _ _ _ _ _ _ _ _ HI1) (inv_core _ _ _ _ _ _ _ _ _ _ _ HI)), Do, Dw. cbn [doc_before flat_map dc_keep dc_delete]. by rewrite <-!app_assoc.
    + rewrite Dp, Dn. cbn [doc_after dc_keep dc_delete dc_text]. by rewrite <-!app_assoc.
    + rewrite Er2, Dr. cbn [doc_ranges dc_keep dc_delete]. by rewrite doc_bytes_app, !N.add_0_l.
    + by rewrite Ex2, Dx.
    + exact Dt.
Qed.
