(* ===== verification/Buffer.v ===== *)
(** * Buffers: [Buffer] and [BufferSnapshot] of [crates/text/src/text.rs]

    A buffer joins the text core: the ropes and the fragments of its content, the indexes of
    insertions and of the slices edits changed, the undo map, the history, the clock and
    the topic of its subscribers.  The queue of deferred operations is added in
    [Operations.v]; the channels of waiting tasks are left out. *)

From S2P Require Import Prelude Ord Clock SumTree Cursor Locator Patch Subscription Bitmap Utf8 Point TextSummary Chunk Rope KeyedTree TreeMap UndoMap History Fragments BufferEdit.
Local Open Scope N_scope.

(** ** Line endings *)
Inductive LineEnding := Unix | Windows.
(** [Default], on Unix. *)
Definition line_ending_default : LineEnding := Unix.
Definition CR : N := 13.

Definition line_ending_as_str (self : LineEnding) : list N :=
  match self with Unix => [NEWLINE] | Windows => [CR; NEWLINE] end.

(** [str::find] of a newline. *)
Fixpoint find_newline (text : list N) : option nat :=
  match text with
  | [] => None
  | b :: rest => if b =? NEWLINE then Some 0%nat else S <$> find_newline rest
  end.
(** The loop over [max_ix]. *)
Fixpoint last_boundary (text : list N) (max_ix : nat) : nat :=
  if is_char_boundary text (N.of_nat max_ix) then max_ix
  else match max_ix with O => O | S ix => last_boundary text ix end.

Definition detect (text : list N) : LineEnding :=
  let max_ix := last_boundary text (Nat.min (length text) 1000) in
  match find_newline (take max_ix text) with
  | Some (S ix) => if default 0 (text !! ix) =? CR then Windows else Unix
  | Some O => Unix
  | None => line_ending_default
  end.

Section buffer.
Context {C Sl Sm : Type} `{!Summary Sm unit, !Item C Sm unit, !ChunkApi C Sl Sm}.
Abbreviation rope := (Rope C Sm).
Abbreviation fragment_tree := (SumTree Fragment FragmentSummary).
Abbreviation insertion_tree := (SumTree InsertionFragment InsertionFragmentKey).
Abbreviation cx := (@None Global).

Record BufferSnapshot := mkSnapshot {
  bs_visible_text : rope;
  bs_deleted_text : rope;
  bs_fragments : fragment_tree;
  bs_insertions : insertion_tree;
  bs_insertion_slices : TreeSet InsertionSlice;
  bs_undo_map : UndoMap;
  bs_version : Global;
  bs_remote_id : N;
  bs_replica_id : ReplicaId;
  bs_line_ending : LineEnding
}.
(** [subscriptions] is the topic together with the heap its weak references point to. *)
Record Buffer := mkBuffer {
  b_snapshot : BufferSnapshot;
  b_history : History rope;
  b_lamport_clock : Lamport;
  b_subscriptions : World
}.

(** ** [new] *)
(** The loop of [new_normalized]; one turn takes at least a byte. *)
Fixpoint base_loop (fuel : nat) (visible_text : rope) (timestamp : Lamport) (insertion_offset text_offset : N)
    (prev_locator : Locator) (fragments : fragment_tree) (insertions : insertion_tree) :
    outcome (fragment_tree * insertion_tree) :=
  let len := rope_len (Sl:=Sl) visible_text in
  if text_offset <? len then
    match fuel with
    | O => Panic
    | S fuel =>
        let target_end := N.min len (usize_add text_offset MAX_INSERTION_LEN) in
        let chunk_end := if target_end =? len then target_end
                         else rope_floor_char_boundary (Sl:=Sl) visible_text target_end in
        let chunk_len := usize_sub chunk_end text_offset in
        fragment_id ← between prev_locator locator_max;
        let fragment := mkFragment fragment_id timestamp insertion_offset (u32_wrap chunk_len) true [] version_new in
        insertions ← push tt insertions (insertion_fragment_new fragment);
        fragments ← push cx fragments fragment;
        base_loop fuel visible_text timestamp (u32_add insertion_offset (u32_wrap chunk_len)) chunk_end fragment_id
          fragments insertions
    end
  else Ok (fragments, insertions).

Definition new_normalized (replica_id : ReplicaId) (remote_id : N) (line_ending : LineEnding) (normalized : rope) :
    outcome Buffer :=
  let visible_text := normalized in
  let clock := lamport_new replica_id in
  '(clock, version, fragments, insertions) ←
    (if rope_is_empty (Sl:=Sl) visible_text then Ok (clock, global_new, new cx, new tt)
     else
       let insertion_timestamp := lamport_new LOCAL in
       '(fragments, insertions) ←
         base_loop (N.to_nat (rope_len (Sl:=Sl) visible_text)) visible_text insertion_timestamp 0 0 locator_min (new cx) (new tt);
       Ok (lamport_observe clock insertion_timestamp, global_observe global_new insertion_timestamp, fragments, insertions));
  Ok (mkBuffer (mkSnapshot visible_text rope_new fragments insertions map_default (new tt) version remote_id replica_id line_ending)
        (history_new normalized) clock initial).

Definition buffer_new (replica_id : ReplicaId) (remote_id : N) (base_text : list N) : outcome Buffer :=
  normalized ← rope_from (Sl:=Sl) (normalize_arc base_text);
  new_normalized replica_id remote_id (detect base_text) normalized.

(** ** [edit] *)
Fixpoint map_outcome {A B} (f : A → outcome B) (l : list A) : outcome (list B) :=
  match l with
  | [] => Ok []
  | x :: l => y ← f x; ys ← map_outcome f l; Ok (y :: ys)
  end.

(** [Range::to_offset], of the range of an edit. *)
Definition edit_to_offset (visible_text : rope) (e : Range N * list N) : outcome (Range N * list N) :=
  a ← to_offset (Sl:=Sl) visible_text (r_start e.1);
  b ← to_offset (Sl:=Sl) visible_text (r_end e.1);
  Ok (mkRange a b, e.2).

Definition apply_local_edit `{!UnstableSort} (self : Buffer) (edits : list (Range N * list N)) (timestamp : Lamport) :
    outcome (Buffer * EditOperation) :=
  let s := b_snapshot self in
  edits ← map_outcome (edit_to_offset (bs_visible_text s)) edits;
  '(st, visible_text, deleted_text) ←
    edit_fragments (Sl:=Sl) (bs_fragments s) (bs_visible_text s) (bs_deleted_text s) timestamp edits;
  '(insertions, _) ← edit tt (bs_insertions s) (es_new_insertions st);
  subscriptions ← publish (b_subscriptions self) (es_edits_patch st);
  insertion_slices ← set_extend (bs_insertion_slices s) (es_insertion_slices st);
  Ok (mkBuffer
        (mkSnapshot visible_text deleted_text (es_new_fragments st) insertions insertion_slices (bs_undo_map s)
           (bs_version s) (bs_remote_id s) (bs_replica_id s) (bs_line_ending s))
        (b_history self) (b_lamport_clock self) subscriptions,
      mkEditOperation timestamp (bs_version s) (es_ranges st) (es_new_text st)).

Definition start_transaction_at (self : Buffer) (now : Instant) : Buffer * option TransactionId :=
  let '(history, clock, id) := start_transaction (b_history self) (bs_version (b_snapshot self)) now (b_lamport_clock self) in
  (mkBuffer (b_snapshot self) history clock (b_subscriptions self), id).

Definition end_transaction_at (self : Buffer) (now : Instant) : outcome (Buffer * option (TransactionId * Global)) :=
  '(history, entry) ← end_transaction (b_history self) now;
  match entry with
  | Some entry =>
      let since := tx_start (he_transaction entry) in
      '(history, id) ← group history;
      id ← unwrap id;
      Ok (mkBuffer (b_snapshot self) history (b_lamport_clock self) (b_subscriptions self), Some (id, since))
  | None => Ok (mkBuffer (b_snapshot self) history (b_lamport_clock self) (b_subscriptions self), None)
  end.

(** [started] and [ended] are the readings of [Instant::now()]. *)
Definition buffer_edit `{!UnstableSort} (self : Buffer) (started ended : Instant) (edits : list (Range N * list N)) :
    outcome (Buffer * Operation) :=
  let '(self, _) := start_transaction_at self started in
  let '(timestamp, clock) := lamport_tick (b_lamport_clock self) in
  '(self, edit_op) ← apply_local_edit (mkBuffer (b_snapshot self) (b_history self) clock (b_subscriptions self)) edits timestamp;
  let operation := OpEdit edit_op in
  history ← history_push (b_history self) operation;
  history ← push_undo history (operation_timestamp operation);
  let s := b_snapshot self in
  let s := mkSnapshot (bs_visible_text s) (bs_deleted_text s) (bs_fragments s) (bs_insertions s) (bs_insertion_slices s)
             (bs_undo_map s) (global_observe (bs_version s) (operation_timestamp operation)) (bs_remote_id s) (bs_replica_id s)
             (bs_line_ending s) in
  '(self, _) ← end_transaction_at (mkBuffer s history (b_lamport_clock self) (b_subscriptions self)) ended;
  Ok (self, operation).
End buffer.
Arguments BufferSnapshot : clear implicits.
Arguments Buffer : clear implicits.
