(* ===== verification/BufferFacts.v ===== *)
(** * Facts about buffers

    [buffer_wf] is the invariant of a buffer, the one [Buffer::check_invariants] tests and
    what the other parts rely on: the fragments are ordered by their locators and cut up the
    two ropes, the index of insertions holds exactly the fragments, the text has no carriage
    return, the history and the subscriptions are in order and the clock is ahead of every
    timestamp.  [Buffer::new] establishes it, edits keep it and do to the text what they say. *)

From stdpp Require Import relations sets gmap.
From S2P Require Import Prelude Ord Clock SumTree SumTreeFacts Cursor CursorFacts Locator Patch PatchFacts Subscription Bitmap Utf8 Point TextSummary Chunk ChunkFacts Rope RopeFacts RopeSlices RopePositions KeyedTree KeyedFacts TreeMap TreeMapFacts UndoMap History HistoryFacts Fragments BufferEdit EditIndex Doc EditFacts LocalEdit Buffer.
Local Open Scope N_scope.

Abbreviation sbuffer := (Buffer (list N) (list N)).
Abbreviation insertion_tree := (SumTree InsertionFragment InsertionFragmentKey).

(** ** The index of insertions *)
#[export] Instance insertion_key_eq_dec : EqDecision InsertionFragmentKey.
Proof. solve_decision. Defined.
#[export] Instance insertion_summary_laws : SummaryLaws (Sm:=InsertionFragmentKey) tt.
Proof. by split. Qed.
#[export] Instance insertion_dimension_laws : DimensionLaws InsertionFragmentKey (Sm:=InsertionFragmentKey) tt.
Proof. done. Qed.
#[export] Instance insertion_key_laws : KeyLaws InsertionFragment InsertionFragmentKey tt.
Proof.
  split; [done|]. intros [t o]. unfold cmp at 1, InsertionFragmentKey_ord, cmp at 1, prod_ord. cbn.
  pose proof (lamport_MIN_le t). destruct (cmp lamport_MIN t); cbn; [|done|done]. by destruct o.
Qed.

(** The index has one entry for each fragment. *)
Record index_ok (fs : list Fragment) (I : insertion_tree) : Prop := {
  io_wf : map_wf tt I;
  io_sorted : keys_sorted (tree_items I);
  io_entries : tree_items I ≡ₚ (insertion_fragment_new <$> fs)
}.

Lemma edited_inserts {T K} `{!Ord K, !OrdLaws K, !KeyedItem T K} (its xs : list T) e :
  NoDup (item_key <$> xs) →
  edited_lookup its (Insert <$> xs) (item_key e) = Some e ↔
    e ∈ xs ∨ ¬ (item_key e ∈ item_key <$> xs) ∧ klookup (item_key e) its = Some e.
Proof.
  unfold edited_lookup, edit_for. induction xs as [|x xs IH]; cbn; intros Hnd.
  { split; [|by intros [?%not_elem_of_nil|[_ ?]]]. intros ?. right. split; [apply not_elem_of_nil|done]. }
  apply NoDup_cons in Hnd as [Hx Hnd]. rewrite !elem_of_cons. destruct (eqb (item_key x) (item_key e)) eqn:E.
  - apply eqb_eq in E. split; [intros [= <-]; auto|]. intros [[->|Hin]|[Hn _]]; [done| |].
    + destruct Hx. rewrite E. by apply list_elem_of_fmap_2.
    + destruct Hn. by left.
  - assert (Hne : item_key e ≠ item_key x) by (intros E'; rewrite E', eqb_refl in E; done).
    rewrite IH by done. split; [intros [?|[? ?]]; [auto|right; split; [|done]; by intros [?|?]]|].
    intros [[->|?]|[Hn ?]]; [done|auto|]. right. split; [|done]. intros ?. apply Hn. auto.
Qed.

Lemma keys_sorted_NoDup {T K} `{!Ord K, !OrdLaws K, !KeyedItem T K} (its : list T) : keys_sorted its → NoDup its.
Proof.
  induction its as [|x its IH]; [constructor|]. intros [Hs Hx]%keys_sorted_cons. constructor; [|by apply IH].
  intros Hin. rewrite Forall_forall in Hx. specialize (Hx x Hin). by rewrite cmp_refl in Hx.
Qed.

(** The entries written by an edit bring the index up to date. *)
Lemma index_commit `{!UnstableSort, !UnstableSortLaws} {D} F I ts ins (st : EditState (list N) (list N) D) bps ps :
  index_ok F I → bps.*1 = F → Forall piece_ok ps → index_inv ts ins st bps [] ps [] →
  (N.of_nat (length F + length ps) < 6 ^ 9)%N →
  ok_with (edit tt I (es_new_insertions st)) (fun r => index_ok ps.*1 r.1).
Proof.
  intros [Hw Hs Hp] <- Hok [Hsp _ _ (pushed & [En Hsub Hkept Hmet]) _] Hlen. rewrite rem_nil, app_nil_r in Hsp.
  assert (Hkeys : NoDup (fragment_key <$> ps.*1)).
  { apply spans_keys; [|done]. rewrite Forall_fmap. eapply Forall_impl; [exact Hok|]. by intros p [_ ?]. }
  assert (Hnd : NoDup (fragment_key <$> pushed)) by (eapply sublist_NoDup; [exact Hkeys|by apply sublist_fmap]).
  set (xs := insertion_fragment_new <$> pushed).
  assert (Exs : item_key <$> xs = fragment_key <$> pushed) by (unfold xs; by rewrite <-list_fmap_compose).
  assert (Ees : es_new_insertions st = Insert <$> xs) by (rewrite En; unfold xs; by rewrite <-list_fmap_compose).
  rewrite Ees. destruct (edit_spec tt I (Insert <$> xs) Hw Hs) as (es & Hpe & Hes & Hedit).
  { rewrite <-list_fmap_compose. change (edit_key ∘ Insert) with (item_key (T:=InsertionFragment) (K:=InsertionFragmentKey)). by rewrite Exs. }
  { rewrite length_fmap. unfold xs. rewrite length_fmap, Hp, length_fmap, length_fmap.
    apply sublist_length in Hsub. rewrite length_fmap in *. lia. }
  eapply ok_with_mono; [exact Hedit|]. intros [t rem] (Hwt & Eit & _). cbn in *.
  assert (Hst : keys_sorted (tree_items t)) by (rewrite Eit; by apply apply_edits_sorted). split; [done|done|].
  apply NoDup_Permutation; [by apply keys_sorted_NoDup| |].
  { apply (NoDup_fmap_1 item_key). by rewrite <-list_fmap_compose. }
  intros e. rewrite <-(klookup_elem (tree_items t)) by done. rewrite Eit, klookup_apply_edits by done.
  unfold edited_lookup at 1. rewrite (edit_for_perm es (Insert <$> xs)).
  2: done.
  2:{ rewrite Hpe, <-list_fmap_compose. change (edit_key ∘ Insert) with (item_key (T:=InsertionFragment) (K:=InsertionFragmentKey)). by rewrite Exs. }
  fold (edited_lookup (tree_items I) (Insert <$> xs) (item_key e)). rewrite edited_inserts, klookup_elem by (done || by rewrite Exs).
  rewrite Exs, Hp. unfold xs. rewrite !list_elem_of_fmap. split.
  - intros [(g & -> & Hg)|[Hn (f & -> & Hf)]].
    + exists g. split; [done|]. by eapply elem_of_sublist.
    + exists f. split; [done|]. destruct (Hmet f) as [?|Hk]; [unfold met; rewrite decide_True, app_nil_r by done; done|done|].
      destruct Hn. by apply list_elem_of_fmap.
  - intros (g & -> & Hg). destruct (Hkept g Hg) as [?|Hb]; [left; by exists g|].
    destruct (decide (fragment_key g ∈ fragment_key <$> pushed)) as [(h & Ek & Hh)%list_elem_of_fmap|Hn].
    + left. exists h. split; [|done]. f_equal. eapply (NoDup_fmap_inj fragment_key); [exact Hkeys|done|by eapply elem_of_sublist|done].
    + right. split; [|by exists g]. intros Hin. apply Hn. by apply list_elem_of_fmap.
Qed.

(** ** The history during an edit *)
Section books.
Context {Rope : Type}.
Implicit Types (h : History Rope) (clock : Lamport).

(** The clock is ahead of every edit on the stacks; the timestamp 1 is that of the base text. *)
Definition edits_before h clock : Prop := Forall (fun t => 1 < value t < value clock) (stack_edits (all_entries h)).
(** Edits come after a tick of the clock. *)
Definition clock_started h clock : Prop := 0 < value clock ∧ (0 < transaction_depth h → 1 < value clock).

Lemma start_edits h v now clock :
  value clock < u32_max → transaction_depth h + 1 < 2 ^ 64 → edits_before h clock → clock_started h clock →
  let '(h', clock', _) := start_transaction h v now clock in
  edits_before h' clock' ∧ 1 < value clock' ∧ value clock <= value clock' <= value clock + 1 ∧ replica_id clock' = replica_id clock ∧
  transaction_depth h' = transaction_depth h + 1 ∧ operations h' = operations h ∧ base_text h' = base_text h ∧
  stack_edits (all_entries h') = stack_edits (all_entries h).
Proof.
  intros Hc Hd He [Hp Hs]. unfold start_transaction. cbn [transaction_depth with_depth]. rewrite usize_add_exact by done.
  destruct (N.eqb_spec (transaction_depth h + 1) 1); [|split_and!; try done; [apply Hs; lia|lia..]].
  unfold lamport_tick. rewrite u32_wrap_small by lia. cbn. split_and!; try done; try lia.
  2:{ unfold all_entries. cbn. rewrite !stack_edits_app. cbn. by rewrite app_nil_r. }
  unfold edits_before, all_entries in *. cbn. rewrite !stack_edits_app in *. cbn. rewrite app_nil_r.
  eapply Forall_impl; [exact He|]. cbn. lia.
Qed.

Lemma push_undo_edit h clock op_id e :
  history_ok h clock → 0 < transaction_depth h → map_get (operations h) op_id = Some (OpEdit e) →
  ok_with (push_undo h op_id) (fun h' => stack_edits (all_entries h') ≡ₚ op_id :: stack_edits (all_entries h) ∧
    op_id ∈ stack_edits (undo_stack h') ∧ transaction_depth h' = transaction_depth h ∧ operations h' = operations h).
Proof.
  intros Hok Hd Hop. unfold push_undo. rewrite (proj2 (N.eqb_neq _ _)) by lia. cbn [negb assert_that mbind outcome_bind]. rewrite Hop.
  destruct (snoc_case (undo_stack h)) as [Hnil|(l & x & Hu)]; [by destruct (ho_open _ _ Hok Hd)|].
  rewrite Hu, last_snoc, update_last_snoc. cbn [unwrap mbind outcome_bind ok_with]. unfold all_entries. cbn [undo_stack redo_stack with_stacks].
  rewrite Hu, !stack_edits_app. cbn. unfold entry_edits. cbn. rewrite !app_nil_r. split_and!; [|set_solver|done|done].
  rewrite <-!app_assoc. cbn. by rewrite <-!Permutation_middle.
Qed.

Lemma end_edits h clock now :
  history_ok h clock → 0 < transaction_depth h →
  ok_with (end_transaction h now) (fun r => history_ok r.1 clock ∧
    (∀ t, t ∈ stack_edits (all_entries r.1) → t ∈ stack_edits (all_entries h)) ∧
    (∀ t, t ∈ stack_edits (undo_stack h) → t ∈ stack_edits (undo_stack r.1)) ∧
    transaction_depth r.1 = transaction_depth h - 1 ∧ operations r.1 = operations h ∧ (is_Some r.2 → undo_stack r.1 ≠ [])).
Proof.
  intros Hok Hd. pose proof (end_transaction_ok h clock now Hok Hd) as Hend. revert Hend. unfold end_transaction.
  rewrite (proj2 (N.eqb_neq (transaction_depth h) 0)) by lia. cbn [negb assert_that mbind outcome_bind].
  rewrite usize_sub_exact by (pose proof (ho_depth _ _ Hok); lia). cbn [transaction_depth with_depth undo_stack redo_stack].
  destruct (N.eqb_spec (transaction_depth h - 1) 0) as [E|E]; [|cbn; intros H; split_and!; try done; by intros [? ?]].
  destruct (snoc_case (undo_stack h)) as [Hn|(l & x & Hu)]; [by destruct (ho_open _ _ Hok Hd)|].
  rewrite Hu, last_snoc. cbn [unwrap mbind outcome_bind]. destruct (tx_edit_ids (he_transaction x)) as [|i ids] eqn:Ei.
  - rewrite take_pop. cbn. intros H. unfold all_entries. cbn. rewrite Hu, !stack_edits_app. cbn. unfold entry_edits. rewrite Ei.
    split_and!; first [done|by intros [? ?]|set_solver].
  - rewrite update_last_snoc. cbn. intros H. unfold all_entries. cbn. rewrite Hu, !stack_edits_app. cbn. unfold entry_edits. cbn.
    split_and!; first [done|by intros _ [_ ?]%app_nil|set_solver].
Qed.

Lemma group_edits h clock :
  history_ok h clock → undo_stack h ≠ [] →
  ok_with (group h) (fun r => history_ok r.1 clock ∧ is_Some r.2 ∧ stack_edits (undo_stack r.1) = stack_edits (undo_stack h) ∧
    stack_edits (all_entries r.1) = stack_edits (all_entries h) ∧ transaction_depth r.1 = transaction_depth h ∧ operations r.1 = operations h).
Proof.
  intros Hok Hne. pose proof (group_ok h clock Hok) as Hg. revert Hg. unfold group.
  destruct (snoc_case (undo_stack h)) as [Hn|(l & x & Hu)]; [done|]. rewrite Hu, rev_unit.
  destruct (group_loop_split (group_interval h) (rev l) x) as (keep & e & merged & Heq & -> & _).
  rewrite rev_involutive, <-Hu in Heq. rewrite (group_trailing_eq _ keep e merged) by done. cbn. intros H.
  unfold all_entries. cbn. rewrite <-Hu, Heq, !(stack_edits_app _ (redo_stack h)), grouped_edits. split_and!; eauto. by rewrite grouped_edits.
Qed.
End books.

(** ** Slices *)
#[export] Instance InsertionSlice_ord_laws : OrdLaws InsertionSlice.
Proof.
  apply (ord_laws_view (fun s => (is_edit_id s, (is_insertion_id s, (r_start (is_range s), r_end (is_range s)))))); [|done].
  by intros [? ? []] [? ? []] [= -> -> -> ->].
Qed.

Lemma slices_distinct ts fs : NoDup (fragment_key <$> fs) → NoDup (slice_from_fragment ts <$> fs).
Proof.
  intros H. apply (NoDup_fmap_1 (fun s => mkInsertionKey (is_insertion_id s) (r_start (is_range s)))). by rewrite <-list_fmap_compose.
Qed.

Lemma extend_set (l : list InsertionSlice) (s : InsertionSlice) (o : option unit) :
  match assoc ((fun k => (k, ())) <$> l) s with Some v => Some v | None => o end = Some () ↔ s ∈ l ∨ o = Some ().
Proof.
  unfold assoc. induction l as [|x l IH]; cbn; [by split; [right|intros [?%not_elem_of_nil|?]]|].
  rewrite elem_of_cons. destruct (eqb x s) eqn:E; cbn.
  - apply eqb_eq in E as ->. by split; [left; left|].
  - rewrite IH. assert (s ≠ x) by (intros ->; by rewrite eqb_refl in E). naive_solver.
Qed.

(** The slices of an edit are recorded. *)
Lemma slices_commit `{!UnstableSort, !UnstableSortLaws} {D} (slices : TreeSet InsertionSlice) ts ins (st : EditState (list N) (list N) D) bps ps :
  map_ok slices → Forall piece_ok ps → index_inv ts ins st bps [] ps [] → N.of_nat (length (tree_items slices) + length ps) < 6 ^ 9 →
  ok_with (set_extend slices (es_insertion_slices st)) (fun sl => map_ok sl ∧ (∀ s, in_set sl s ↔ s ∈ es_insertion_slices st ∨ in_set slices s) ∧
    ∀ s, s ∈ es_insertion_slices st → ∃ g, g ∈ ps.*1 ∧ s = slice_from_fragment ts g).
Proof.
  intros Hsl Hok Hx Hlen. pose proof (xi_spans _ _ _ _ _ _ _ Hx) as Hs'. rewrite rem_nil, app_nil_r in Hs'. destruct (xi_slices _ _ _ _ _ _ _ Hx) as (ch & Ech & Hch).
  unfold set_extend. eapply ok_with_mono; [eapply (map_extend_spec slices ((fun k => (k, ())) <$> es_insertion_slices st) Hsl)|].
  - rewrite <-list_fmap_compose. cbn. rewrite list_fmap_id, Ech. apply slices_distinct. eapply sublist_NoDup; [|by apply sublist_fmap].
    apply spans_keys; [|done]. rewrite Forall_fmap. eapply Forall_impl; [exact Hok|]. by intros ? [_ ?].
  - rewrite length_fmap, Ech, length_fmap. apply sublist_length in Hch. rewrite length_fmap in Hch. lia.
  - intros sl [Hsl' Hin]. split_and!; [done| |].
    + intros s. unfold in_set. rewrite Hin. apply extend_set.
    + intros s Hs. rewrite Ech in Hs. apply list_elem_of_fmap in Hs as (g & -> & Hg). exists g. split; [by eapply elem_of_sublist|done].
Qed.

(** A set that comes from a list and another set is no larger than both. *)
Lemma set_size (slices slices' : TreeSet InsertionSlice) l :
  map_ok slices → map_ok slices' → (∀ s, in_set slices' s → s ∈ l ∨ in_set slices s) →
  (length (tree_items slices') <= length l + length (tree_items slices))%nat.
Proof.
  intros [_ Hs] [_ Hs'] H. rewrite <-(length_fmap me_key (tree_items slices)), <-(length_fmap me_key (tree_items slices')), <-length_app.
  apply submseteq_length, NoDup_submseteq.
  - apply (NoDup_fmap_1 (fun k => mkMapKey (Some k))). rewrite <-list_fmap_compose. by apply (keys_nodup (tree_items slices')).
  - intros s (x & -> & Hx)%list_elem_of_fmap. rewrite elem_of_app. destruct (H (me_key x)) as [?|Hin]; [|by left|right].
    + unfold in_set, denote. apply (klookup_elem _ x Hs') in Hx. change (item_key x) with (mkey (me_key x)) in Hx. rewrite Hx. by destruct x as [? []].
    + unfold in_set, denote in Hin. destruct (klookup _ _) as [y|] eqn:E; [|done]. pose proof (klookup_key _ _ _ E) as Ek. apply list_elem_of_fmap. exists y.
      split; [|apply (klookup_elem _ y Hs); by rewrite Ek]. by injection Ek.
Qed.

(** ** Offsets of edits *)
Lemma to_offset_boundary r p q :
  rope_wf r → RopeFacts.small (rope_text r) → rope_text r = p ++ q → to_offset (Sl:=list N) r (byte_len p) = Ok (byte_len p).
Proof.
  intros Hr Hs E. unfold to_offset. rewrite rope_assert_char_boundary_spec by done.
  by rewrite (proj2 (rope_is_char_boundary_spec r _ Hr Hs)) by (by exists p, q).
Qed.

Lemma edits_to_offset r p cs tail :
  rope_wf r → RopeFacts.small (rope_text r) → rope_text r = p ++ before_changes cs ++ tail →
  map_outcome (edit_to_offset (Sl:=list N) r) (edits_at (byte_len p) cs) = Ok (edits_at (byte_len p) cs).
Proof.
  intros Hr Hs. revert p. induction cs as [|[g d t] cs IH]; intros p E; [done|].
  cbn [before_changes flat_map ch_keep ch_delete] in E. fold (before_changes cs) in E.
  cbn [edits_at map_outcome ch_keep ch_delete ch_insert]. rewrite <-!byte_len_app.
  assert (Ee : ∀ s, edit_to_offset (Sl:=list N) r (mkRange (byte_len (p ++ g)) (byte_len ((p ++ g) ++ d)), s)
    = Ok (mkRange (byte_len (p ++ g)) (byte_len ((p ++ g) ++ d)), s)).
  { intros s. unfold edit_to_offset. cbn [fst snd r_start r_end].
    rewrite (to_offset_boundary r (p ++ g) (d ++ before_changes cs ++ tail)) by (done || by rewrite E, <-!app_assoc).
    by rewrite (to_offset_boundary r ((p ++ g) ++ d) (before_changes cs ++ tail)) by (done || by rewrite E, <-!app_assoc). }
  rewrite Ee.
  cbn [mbind outcome_bind]. rewrite IH; [done|]. by rewrite E, <-!app_assoc.
Qed.

(** ** The invariant *)
Record buffer_wf (b : sbuffer) (sp : Spec) (ps : pieces) : Prop := {
  bw_content : content_wf (bs_fragments (b_snapshot b)) (bs_visible_text (b_snapshot b)) (bs_deleted_text (b_snapshot b)) ps;
  bw_index : index_ok ps.*1 (bs_insertions (b_snapshot b));
  bw_slices : map_ok (bs_insertion_slices (b_snapshot b));
  bw_lines : CR ∉ rope_text (bs_visible_text (b_snapshot b)) ++ rope_text (bs_deleted_text (b_snapshot b));
  bw_undo : undo_wf (value (b_lamport_clock b)) (bs_insertion_slices (b_snapshot b)) (bs_undo_map (b_snapshot b)) ps.*1;
  bw_clock : clock_started (b_history b) (b_lamport_clock b);
  bw_history : history_ok (b_history b) (b_lamport_clock b);
  bw_edits : edits_before (b_history b) (b_lamport_clock b);
  bw_subscribers : refines (b_subscriptions b) sp;
  bw_length : sp_len sp = byte_len (rope_text (bs_visible_text (b_snapshot b)))
}.

Abbreviation buffer_text b := (rope_text (bs_visible_text (b_snapshot b))).
Definition published (sp : Spec) (p : patch) (len : N) : Spec :=
  mkSpec len ((fun s => (s.1, s.2 ++ [p])) <$> sp_since sp) (sp_next sp).

(** The limits of the model: 2 GiB of text, 6^9 fragments, slices and operations, 32-bit
    clocks. *)
Record content_room (s : BufferSnapshot (list N) (list N)) (cs : list Change) : Prop := {
  er_fits : edit_fits (bs_fragments s) (bs_visible_text s) (bs_deleted_text s) cs;
  er_index : N.of_nat (length (tree_items (bs_fragments s))) + fragments_after (bs_fragments s) cs < 6 ^ 9;
  er_slices : N.of_nat (length (tree_items (bs_insertion_slices s))) + fragments_after (bs_fragments s) cs < 6 ^ 9
}.
Record edit_room (b : sbuffer) (cs : list Change) : Prop := {
  er_content : content_room (b_snapshot b) cs;
  er_operations : N.of_nat (S (length (tree_items (operations (b_history b))))) < 6 ^ 9;
  er_clock : value (b_lamport_clock b) + 2 <= u32_max;
  er_depth : transaction_depth (b_history b) + 1 < 2 ^ 64
}.

Lemma normalize_no_cr t : CR ∉ normalize_arc t.
Proof.
  induction t as [t IH] using (induction_ltof1 _ (@length N)). unfold ltof in IH. destruct t as [|c t]; [apply not_elem_of_nil|].
  cbn [normalize_arc]. destruct (N.eqb_spec c 13) as [->|Hc].
  - rewrite not_elem_of_cons. split; [done|]. destruct t as [|c' t]; [apply not_elem_of_nil|]. destruct (c' =? NEWLINE); apply IH; cbn; lia.
  - rewrite not_elem_of_cons. split; [|apply IH; cbn; lia]. unfold CR. congruence.
Qed.
Lemma inserted_no_cr cs : CR ∉ inserted cs.
Proof. induction cs as [|c cs IH]; [apply not_elem_of_nil|]. cbn. rewrite not_elem_of_app. split; [apply normalize_no_cr|done]. Qed.

(** ** Edits *)
Record applied (b : sbuffer) (sp : Spec) (ps : pieces) (cs : list Change) (tail : list N) (ts : Lamport) (b' : sbuffer) (op : EditOperation)
    (ps' : pieces) (p : patch) : Prop := {
  ap_content : content_wf (bs_fragments (b_snapshot b')) (bs_visible_text (b_snapshot b')) (bs_deleted_text (b_snapshot b')) ps';
  ap_index : index_ok ps'.*1 (bs_insertions (b_snapshot b'));
  ap_slices : map_ok (bs_insertion_slices (b_snapshot b'));
  ap_text : buffer_text b' = after_changes cs ++ tail;
  ap_kept : buffer_text b' ++ rope_text (bs_deleted_text (b_snapshot b'))
    ≡ₚ buffer_text b ++ rope_text (bs_deleted_text (b_snapshot b)) ++ inserted cs;
  ap_undo : undo_wf (value ts + 1) (bs_insertion_slices (b_snapshot b')) (bs_undo_map (b_snapshot b')) ps'.*1;
  ap_origin : Forall (origin ts ps.*1) ps'.*1;
  ap_restored : restored_text ts ps' = buffer_text b;
  ap_undos : bs_undo_map (b_snapshot b') = bs_undo_map (b_snapshot b);
  ap_patch : reaches p (byte_len (buffer_text b)) (byte_len (buffer_text b'));
  ap_subscribers : refines (b_subscriptions b') (published sp p (byte_len (buffer_text b')));
  ap_history : b_history b' = b_history b;
  ap_clock : b_lamport_clock b' = b_lamport_clock b;
  ap_version : bs_version (b_snapshot b') = bs_version (b_snapshot b);
  ap_timestamp : eo_timestamp op = ts;
  ap_op_version : eo_version op = bs_version (b_snapshot b);
  ap_recorded : recorded (atom_shown (undone_by (bs_undo_map (b_snapshot b)))) ts cs (doc ps) (doc ps') (eo_ranges op) (eo_new_text op);
  ap_fragments : N.of_nat (length ps') <= N.of_nat (length ps) + 3 * N.of_nat (length cs) + 1;
  ap_slices_grown : (length (tree_items (bs_insertion_slices (b_snapshot b'))) <= length ps' + length (tree_items (bs_insertion_slices (b_snapshot b))))%nat
}.

(** The undo map says which characters are shown. *)
Lemma undo_tells clock slices undos fs : undo_wf clock slices undos fs → tells_shown (atom_shown (undone_by undos)) fs.
Proof.
  intros Hu f Hf o t a Ha. destruct (atoms_was _ _ _ _ _ Ha) as [E1 E2]. pose proof (uw_visible _ _ _ _ Hu) as Hv. rewrite Forall_forall in Hv. rewrite (Hv f Hf).
  unfold atom_shown, visible_by. rewrite E1, E2. f_equal. apply eq_true_iff_eq. rewrite bool_decide_eq_true, forallb_forall. unfold set_Forall.
  setoid_rewrite elem_of_list_to_set. by setoid_rewrite list_elem_of_In.
Qed.

Lemma apply_local_edit_spec `{!UnstableSort, !UnstableSortLaws} b sp ps cs tail ts :
  content_wf (bs_fragments (b_snapshot b)) (bs_visible_text (b_snapshot b)) (bs_deleted_text (b_snapshot b)) ps →
  index_ok ps.*1 (bs_insertions (b_snapshot b)) → map_ok (bs_insertion_slices (b_snapshot b)) →
  refines (b_subscriptions b) sp → sp_len sp = byte_len (buffer_text b) →
  undo_wf (value ts) (bs_insertion_slices (b_snapshot b)) (bs_undo_map (b_snapshot b)) ps.*1 → 1 < value ts → content_room (b_snapshot b) cs →
  cs ≠ [] → buffer_text b = before_changes cs ++ tail → Forall (fun c => Forall char_ok (ch_insert c)) cs →
  ok_with (apply_local_edit (Sl:=list N) b (edits_at 0 cs) ts) (fun r => ∃ ps' p, applied b sp ps cs tail ts r.1 r.2 ps' p).
Proof.
  intros Hc Hi Hsl Hsub Hlen Hu Hts [Hfit Hri Hrs] Hne Et Hcs. unfold apply_local_edit.
  change 0 with (byte_len []). pose proof (cw_visible _ _ _ _ Hc) as HV.
  assert (HsV : RopeFacts.small (buffer_text b)) by (destruct Hfit; unfold RopeFacts.small; lia).
  rewrite (edits_to_offset _ [] cs tail) by done. cbn [mbind outcome_bind].
  ok_bind (edit_fragments_spec _ _ _ _ ps cs tail ts (undo_tells _ _ _ _ Hu) Hc (uw_times _ _ _ _ Hu) Hne Et Hcs Hfit).
  intros [[st v] d] (bps & ps' & [Hc' Etv Hk Hp Hlps Eb Hx Htr Hrec]).
  assert (EF : ps.*1 = tree_items (bs_fragments (b_snapshot b))) by (symmetry; apply Hc).
  ok_bind (index_commit ps.*1 _ ts (byte_len (inserted cs)) st bps ps' Hi); [congruence|apply Hc'|exact Hx|rewrite EF; lia|].
  intros [I' removed] HI'. cbn [fst] in HI'.
  ok_bind (refines_publish _ sp (es_edits_patch st) (byte_len (rope_text v)) Hsub).
  { rewrite Hlen. apply Hp. }
  { pose proof (proj1 Hfit). apply byte_len_perm in Hk. rewrite !byte_len_app in Hk. unfold POSITION_BOUND. lia. }
  intros w' [Hw' _]. pose proof (xi_bound _ _ _ _ _ _ _ Hx) as Hb'. rewrite rem_nil, app_nil_r in Hb'.
  ok_bind (slices_commit (bs_insertion_slices (b_snapshot b)) ts _ st bps ps' Hsl (cw_pieces _ _ _ _ Hc') Hx); [lia|].
  intros sl (Hsl' & Hset & Hfrom). cbn [ok_with fst snd]. exists ps', (es_edits_patch st). rewrite <-EF in Htr. destruct Htr as [Hor Htr Hre]. split; cbn; try done.
  - eapply (undo_wf_edit (value ts)); [exact Hu|done|done|exact Hor| | | |].
    + intros g Hg Ht. apply Hset. left. by apply Htr.
    + intros s Hs. apply Hset. by right.
    + intros s [Hs|Hs]%Hset; [right; by apply Hfrom|by left].
    + rewrite Forall_fmap in Hb'. eapply Forall_impl; [exact Hb'|]. by intros f (? & _).
  - unfold fragments_after in Hlps. by rewrite <-EF, length_fmap in Hlps.
  - pose proof (set_size (bs_insertion_slices (b_snapshot b)) sl (slice_from_fragment ts <$> ps'.*1) Hsl Hsl') as Hsz. rewrite !length_fmap in Hsz. apply Hsz.
    intros s [Hs|Hs]%Hset; [left|by right]. destruct (Hfrom s Hs) as (x & Hin & ->). by apply list_elem_of_fmap_2.
Qed.

Lemma end_transaction_at_spec (b : sbuffer) now :
  history_ok (b_history b) (b_lamport_clock b) → 0 < transaction_depth (b_history b) →
  ok_with (end_transaction_at b now) (fun r => ∃ h, r.1 = mkBuffer (b_snapshot b) h (b_lamport_clock b) (b_subscriptions b) ∧
    history_ok h (b_lamport_clock b) ∧ (∀ t, t ∈ stack_edits (all_entries h) → t ∈ stack_edits (all_entries (b_history b))) ∧
    (∀ t, t ∈ stack_edits (undo_stack (b_history b)) → t ∈ stack_edits (undo_stack h)) ∧
    transaction_depth h = transaction_depth (b_history b) - 1 ∧ operations h = operations (b_history b)).
Proof.
  intros Hok Hd. unfold end_transaction_at. ok_bind (end_edits _ _ now Hok Hd).
  intros [h e] (Hok1 & Hall & Hundo & Hdep & Hops & Hne). cbn [fst snd] in *. destruct e as [e|].
  - ok_bind (group_edits h _ Hok1); [by apply Hne|]. intros [h2 id] (Hok2 & [i Ei] & Eu & Ea & Hdep2 & Hops2). cbn [fst snd] in *. subst id.
    cbn. exists h2. rewrite Ea, Eu. by split_and!; [..|congruence|congruence].
  - cbn. by exists h.
Qed.

(** The operation is recorded and can be undone. *)
Lemma record_edit_spec (h : History srope) clock op :
  history_ok h clock → edits_before h clock → 0 < transaction_depth h → 1 < value clock < u32_max → eo_timestamp op = clock →
  N.of_nat (S (length (tree_items (operations h)))) < 6 ^ 9 →
  ok_with (h1 ← history_push h (OpEdit op); push_undo h1 clock) (fun h' =>
    history_ok h' (lamport_tick clock).2 ∧ edits_before h' (lamport_tick clock).2 ∧ transaction_depth h' = transaction_depth h ∧
    clock ∈ stack_edits (undo_stack h') ∧ map_get (operations h') clock = Some (OpEdit op) ∧
    stack_edits (all_entries h') ≡ₚ clock :: stack_edits (all_entries h) ∧
    ∀ x, x ∈ tree_items (operations h') → me_key x = clock ∨ x ∈ tree_items (operations h)).
Proof.
  intros Hok Hbe Hd Hc Hts Hsz. unfold history_push. cbn [operation_timestamp]. rewrite Hts. unfold map_insert.
  pose proof (map_insert_or_replace_spec (operations h) clock (OpEdit op) (ho_operations _ _ Hok) Hsz) as Hins. unfold map_insert_or_replace in Hins.
  destruct (insert_or_replace tt (operations h) _) as [[ops old]|]; [|done]. cbn [mbind outcome_bind ok_with] in *. cbn in Hins.
  destruct Hins as (Hmap & Eit & _).
  set (h1 := mkHistory _ _ _ _ _ _).
  assert (Hok1 : history_ok h1 clock) by (destruct Hok; by split).
  assert (Hget : map_get (operations h1) clock = Some (OpEdit op)).
  { rewrite map_get_spec by done. unfold denote. cbn [operations h1]. rewrite Eit, klookup_kinsert. cbn. unfold eqb. by rewrite cmp_refl. }
  assert (Hfresh : clock ∉ stack_edits (all_entries h1)).
  { unfold edits_before in Hbe. rewrite Forall_forall in Hbe. intros Hin. specialize (Hbe clock Hin). cbn in Hbe. lia. }
  pose proof (push_undo_ok h1 clock clock Hok1 Hd Hfresh) as Hp1. pose proof (push_undo_edit h1 clock clock op Hok1 Hd Hget) as Hp2.
  destruct (push_undo h1 clock) as [h'|]; [|done]. cbn in Hp1, Hp2. destruct Hp2 as (Hst & Hin & Hdep & Hops). cbn.
  rewrite u32_wrap_small by lia. split_and!; [|..|done|done|by rewrite Hops|done|].
  - destruct Hp1. split; try done. eapply Forall_impl; [eassumption|]. cbn. lia.
  - unfold edits_before. rewrite Hst. constructor; [cbn; lia|]. eapply Forall_impl; [exact Hbe|]. cbn. lia.
  - intros x. rewrite Hops. cbn [operations h1]. rewrite Eit. intros [->|?]%kinsert_elem; auto.
Qed.

(** What an edit does to a buffer: [p] is the patch its subscribers get. *)
Record edit_done (b : sbuffer) (sp : Spec) (ps : pieces) (cs : list Change) (tail : list N) (b' : sbuffer) (ts : Lamport) (ps' : pieces) (p : patch) : Prop := {
  bd_wf : buffer_wf b' (published sp p (byte_len (buffer_text b'))) ps';
  bd_text : buffer_text b' = after_changes cs ++ tail;
  bd_kept : buffer_text b' ++ rope_text (bs_deleted_text (b_snapshot b'))
    ≡ₚ buffer_text b ++ rope_text (bs_deleted_text (b_snapshot b)) ++ inserted cs;
  bd_patch : reaches p (byte_len (buffer_text b)) (byte_len (buffer_text b'));
  bd_origin : Forall (origin ts ps.*1) ps'.*1;
  bd_restored : restored_text ts ps' = buffer_text b;
  bd_undos : bs_undo_map (b_snapshot b') = bs_undo_map (b_snapshot b);
  bd_time : value (b_lamport_clock b) <= value ts ∧ replica_id ts = replica_id (b_lamport_clock b);
  bd_version : bs_version (b_snapshot b') = global_observe (bs_version (b_snapshot b)) ts;
  bd_undo : ts ∈ stack_edits (undo_stack (b_history b'));
  bd_depth : transaction_depth (b_history b') = transaction_depth (b_history b)
}.

(** What the operation of an edit says, and how the books of the buffer have grown. *)
Record edit_says (b : sbuffer) (ps : pieces) (cs : list Change) (b' : sbuffer) (op : EditOperation) (ps' : pieces) : Prop := {
  sy_version : eo_version op = bs_version (b_snapshot b);
  sy_recorded : recorded (atom_shown (undone_by (bs_undo_map (b_snapshot b)))) (eo_timestamp op) cs (doc ps) (doc ps') (eo_ranges op) (eo_new_text op);
  sy_time : 1 < value (eo_timestamp op) <= value (b_lamport_clock b) + 1;
  sy_clock : value (b_lamport_clock b') = value (eo_timestamp op) + 1 ∧ replica_id (b_lamport_clock b') = replica_id (b_lamport_clock b);
  sy_fragments : N.of_nat (length ps') <= N.of_nat (length ps) + 3 * N.of_nat (length cs) + 1;
  sy_slices : (length (tree_items (bs_insertion_slices (b_snapshot b'))) <= length ps' + length (tree_items (bs_insertion_slices (b_snapshot b))))%nat;
  sy_operations : ∀ x, x ∈ tree_items (operations (b_history b')) → me_key x = eo_timestamp op ∨ x ∈ tree_items (operations (b_history b));
  sy_edits : ∀ t, t ∈ stack_edits (all_entries (b_history b')) → t = eo_timestamp op ∨ t ∈ stack_edits (all_entries (b_history b))
}.

Lemma buffer_edit_spec `{!UnstableSort, !UnstableSortLaws} b sp ps cs tail started ended :
  buffer_wf b sp ps → edit_room b cs → cs ≠ [] → buffer_text b = before_changes cs ++ tail →
  Forall (fun c => Forall char_ok (ch_insert c)) cs →
  ok_with (buffer_edit (Sl:=list N) b started ended (edits_at 0 cs)) (fun r => ∃ op ps' p,
    r.2 = OpEdit op ∧ map_get (operations (b_history r.1)) (eo_timestamp op) = Some (OpEdit op) ∧
    edit_done b sp ps cs tail r.1 (eo_timestamp op) ps' p ∧ edit_says b ps cs r.1 op ps').
Proof.
  intros [Hc Hi Hsl Hcr Hu Hck Hh Hbe Hsub Hlen] [Hroom Hrops Hrc Hrd] Hne Et Hcs.
  unfold buffer_edit, start_transaction_at.
  pose proof (start_transaction_ok _ _ (bs_version (b_snapshot b)) started Hh ltac:(lia) Hrd) as Hh1.
  pose proof (start_edits (b_history b) (bs_version (b_snapshot b)) started (b_lamport_clock b) ltac:(lia) Hrd Hbe Hck) as Hs1.
  destruct (start_transaction (b_history b) (bs_version (b_snapshot b)) started (b_lamport_clock b)) as [[h1 ts] id].
  destruct Hs1 as (Hbe1 & Hts1 & Hts & Hrep & Hd1 & Hops1 & _ & Hst1). cbn [b_lamport_clock b_snapshot b_history b_subscriptions].
  destruct (lamport_tick ts) as [ts' clock2] eqn:Etick. assert (ts' = ts) as -> by (unfold lamport_tick in Etick; congruence).
  assert (Ec2 : (lamport_tick ts).2 = clock2) by (by rewrite Etick).
  assert (Hv2 : value clock2 = value ts + 1) by (rewrite <-Ec2; cbn; apply u32_wrap_small; lia).
  set (b1 := mkBuffer (b_snapshot b) h1 clock2 (b_subscriptions b)).
  ok_bind (apply_local_edit_spec b1 sp ps cs tail ts Hc Hi Hsl Hsub Hlen); [by eapply undo_wf_later; [|exact Hu]; lia|done..|].
  intros [b2 op] (ps' & p & [Hc' Hi' Hsl' Etx Hk Hu' Hor Hre Hum Hp Hsub' Eh Ec Ev Eop Eov Hsay Hfr Hslg]). cbn [fst snd] in *.
  cbn [operation_timestamp]. rewrite Eop, Eh. cbn [b1 b_history].
  pose proof (record_edit_spec h1 ts op Hh1 Hbe1 ltac:(lia) ltac:(lia) Eop ltac:(by rewrite Hops1)) as Hrec. rewrite Ec2 in Hrec.
  destruct (history_push h1 (OpEdit op)) as [h2|]; [|done]. cbn [mbind outcome_bind] in *.
  destruct (push_undo h2 ts) as [h3|]; [|done]. cbn [mbind outcome_bind ok_with] in *.
  destruct Hrec as (Hh3 & Hbe3 & Hd3 & Hin3 & Hget3 & Hst3 & Hops3). rewrite Ec. cbn [b1 b_lamport_clock].
  match goal with |- context [end_transaction_at ?x ended] => set (b3 := x) end.
  ok_bind (end_transaction_at_spec b3 ended Hh3); [cbn; lia|].
  intros [b4 r4] (h4 & E4 & Hh4 & Hall & Hundo & Hd4 & Hops4). cbn [fst snd ok_with] in *. subst b4. cbn in Hh4.
  exists op, ps', p. split_and!; [done|cbn; rewrite Hops4, Eop; exact Hget3|rewrite Eop; split; cbn; try done|].
  - split; cbn; try done.
    + rewrite Hk. cbn. rewrite app_assoc, not_elem_of_app. split; [done|apply inserted_no_cr].
    + by rewrite Hv2.
    + split; cbn; lia.
    + unfold edits_before in *. rewrite !Forall_forall in *. intros t Hin. apply Hbe3. by apply Hall.
  - split; [lia|done].
  - by rewrite Ev.
  - by apply Hundo.
  - rewrite Hd4. cbn. lia.
  - split; cbn; rewrite ?Eop; try done; [lia|split; [done|]; by rewrite <-Ec2, <-Hrep|..].
    + intros x. rewrite Hops4. cbn. intros [?|Hx]%Hops3; [by left|right; by rewrite <-Hops1].
    + intros t Ht%Hall. cbn in Ht. rewrite Hst3, Hst1 in Ht. by apply elem_of_cons in Ht.
Qed.

(** ** New buffers *)
Lemma base_loop_spec r ts fuel :
  rope_wf r → rope_text r ≠ [] → RopeFacts.small (rope_text r) → (0 < fuel)%nat →
  ok_with (base_loop (Sl:=list N) fuel r ts 0 0 locator_min (new cx) (new tt)) (fun x => ∃ f,
    tree_wf cx ROPE_DEPTH x.1 ∧ tree_items x.1 = [f] ∧ map_wf tt x.2 ∧ tree_items x.2 = [insertion_fragment_new f] ∧
    f_timestamp f = ts ∧ f_insertion_offset f = 0 ∧ f_len f = byte_len (rope_text r) ∧ f_visible f = true ∧ f_deletions f = [] ∧ ids_ok [f]).
Proof.
  intros Hr Hne Hs Hf. destruct fuel as [|fuel]; [lia|]. pose proof (nonempty_bytes _ Hne) as Hpos. unfold RopeFacts.small in Hs.
  cbn [base_loop]. rewrite rope_len_of by done. rewrite (proj2 (N.ltb_lt _ _)) by done.
  rewrite (usize_add_exact 0), N.min_l by (unfold MAX_INSERTION_LEN, u32_max; lia). rewrite N.eqb_refl.
  rewrite usize_sub_exact, N.sub_0_r by lia. rewrite (u32_wrap_small (byte_len (rope_text r))) by (unfold u32_max; lia).
  destruct (ids_between [] []) as (id & Eid & Hid).
  { split; [|constructor]. by repeat constructor. }
  change (between locator_min locator_max) with (between (last_id []) (head_id [])). rewrite Eid. cbn [mbind outcome_bind]. cbn zeta.
  match goal with |- context [push cx (new cx) ?x] => set (f := x) end.
  ok_bind (push_spec tt MAP_DEPTH (new tt) (insertion_fragment_new f)); [by left|by apply small_fits; [lia|]|]. intros I [HI EI].
  ok_bind (push_spec cx ROPE_DEPTH (new cx) f); [by left|by apply room_fits|]. intros t [Ht Et].
  assert (Estop : ∀ fuel o p t I, base_loop (Sl:=list N) fuel r ts o (byte_len (rope_text r)) p t I = Ok (t, I)).
  { intros [] ? ? ? ?; cbn [base_loop]; by rewrite rope_len_of, N.ltb_irrefl by done. }
  rewrite Estop. cbn [ok_with fst snd]. exists f. split_and!; try done.
  - split; [done|]. by rewrite EI.
  - by apply (Hid f).
Qed.

Lemma buffer_new_spec rid id t :
  Forall char_ok t → RopeFacts.small (normalize_arc t) →
  ok_with (buffer_new (C:=list N) (Sl:=list N) (Sm:=list N) rid id (str_of t)) (fun b => ∃ ps,
    buffer_wf b (mkSpec (byte_len (normalize_arc t)) ∅ 0%nat) ps ∧ buffer_text b = normalize_arc t ∧
    rope_text (bs_deleted_text (b_snapshot b)) = [] ∧ transaction_depth (b_history b) = 0 ∧ operations (b_history b) = map_default ∧
    bs_insertion_slices (b_snapshot b) = map_default ∧ value (b_lamport_clock b) <= 2 ∧ (length ps <= 1)%nat ∧
    bs_line_ending (b_snapshot b) = detect (str_of t) ∧ bs_undo_map (b_snapshot b) = new tt ∧
    bs_version (b_snapshot b) = match normalize_arc t with [] => global_new | _ => global_observe global_new (lamport_new LOCAL) end ∧
    Forall (fun f => f_timestamp f = lamport_new LOCAL ∧ f_insertion_offset f = 0 ∧ f_deletions f = []) ps.*1 ∧ replica_id (b_lamport_clock b) = rid).
Proof.
  intros Ht Hs. unfold buffer_new. rewrite normalize_str. unfold rope_from.
  ok_bind (rope_push_spec rope_new (normalize_arc t)); [apply rope_new_wf|by apply normalize_ok|done|].
  intros r [Hr Er]. change (rope_text rope_new) with (@nil N) in Er. cbn [app] in Er. rewrite <-Er in *. unfold new_normalized.
  unfold rope_is_empty. rewrite rope_len_of by done.
  assert (Hcr : CR ∉ rope_text r ++ []) by (rewrite app_nil_r, Er; apply normalize_no_cr).
  assert (Hsub : refines initial (mkSpec (byte_len (rope_text r)) ∅ 0%nat)).
  { apply refines_initial. unfold RopeFacts.small in Hs. unfold POSITION_BOUND. lia. }
  assert (Hsl : map_ok (map_default : TreeSet InsertionSlice)) by (split; [split; [by left|done]|constructor]).
  destruct (decide (rope_text r = [])) as [E|E].
  - rewrite E. change (byte_len [] =? 0) with true. cbn [mbind outcome_bind ok_with]. exists []. split_and!; cbn; try done; [|lia].
    split; cbn; rewrite ?E in *; try done; [|by split; [split; [by left|done]|exact (SSorted_nil _)|]|by apply undo_wf_new|apply history_new_ok|constructor].
    split; cbn; try done; [by left|apply rope_new_wf|split; [by repeat constructor|constructor]|constructor].
  - pose proof (nonempty_bytes _ E) as Hpos. rewrite (proj2 (N.eqb_neq _ _)) by lia.
    apply ok_with_bind. ok_bind (base_loop_spec r (lamport_new LOCAL) (N.to_nat (byte_len (rope_text r))) Hr E Hs); [lia|].
    intros [F I] (f & HF & EF & HI & EI & Hft & Hfo & Hfl & Hfv & Hfd & Hid). cbn [fst snd] in *. cbn [ok_with mbind outcome_bind].
    exists [(f, rope_text r)]. split_and!; cbn; try done; [|by destruct (rope_text r)|by repeat constructor]. split; cbn; try done.
    + split; cbn; rewrite ?Hfv, ?app_nil_r; try done; [apply rope_new_wf|by repeat constructor; cbn; rewrite ?Hfl|by repeat constructor|].
      constructor; [|done]. cbn. rewrite Hfo, Hfl. unfold RopeFacts.small in Hs. unfold u32_max. lia.
    + split; [done| |by rewrite EI]. rewrite EI. by repeat constructor.
    + apply undo_wf_new. constructor; [|done]. by rewrite Hft.
    + apply history_new_ok.
    + constructor.
Qed.

(** ** Correctness of buffers *)
(** C12: a new buffer holds the given text with its line endings made [\n], in one fragment at
    most, and satisfies the invariant of buffers; it remembers the line ending it found. *)
Theorem buffer_new_correct rid id t :
  Forall char_ok t → RopeFacts.small (normalize_arc t) →
  ∃ b ps, buffer_new (C:=list N) (Sl:=list N) (Sm:=list N) rid id (str_of t) = Ok b ∧
    buffer_wf b (mkSpec (byte_len (normalize_arc t)) ∅ 0%nat) ps ∧ buffer_text b = normalize_arc t ∧
    rope_text (bs_deleted_text (b_snapshot b)) = [] ∧ (length ps <= 1)%nat ∧ bs_line_ending (b_snapshot b) = detect (str_of t).
Proof.
  intros Ht Hs. destruct (ok_with_inv _ _ (buffer_new_spec rid id t Ht Hs)) as (b & E & ps & Hb & Et & Ed & _ & _ & _ & _ & Hl & Hle & _).
  exists b, ps. by split_and!.
Qed.

(** "a", carriage return, newline, "b" *)
Definition sample_text : list N := [97; CR; NEWLINE; 98].
Lemma sample_ok : Forall char_ok sample_text.
Proof. repeat constructor; left; lia. Qed.

Lemma buffer_new_correct_witness :
  ∃ b, buffer_new (C:=list N) (Sl:=list N) (Sm:=list N) LOCAL 1 (str_of sample_text) = Ok b ∧
    buffer_text b = [97; NEWLINE; 98] ∧ bs_line_ending (b_snapshot b) = Windows.
Proof.
  destruct (buffer_new_correct LOCAL 1 sample_text sample_ok ltac:(by vm_compute)) as (b & ps & E & _ & Et & _ & Hl & Hle).
  exists b. split_and!; [done|by rewrite Et|by rewrite Hle].
Defined.

(** C1: [edit], with ranges in order and on character boundaries, replaces each of them by its
    text, line endings normalised, and leaves the rest of the text alone; no character is
    lost, the deleted ones move to the deleted text.  The invariant of buffers is kept: the
    fragments stay ordered by their locators and agree with both ropes, the index of
    insertions is brought up to date, the subscribers get a patch that leads from the old
    text to the new one.  The operation is recorded under a fresh timestamp of the buffer's
    replica, observed by its version, and can be undone. *)
Theorem buffer_edit_correct `{!UnstableSort, !UnstableSortLaws} b sp ps cs tail started ended :
  buffer_wf b sp ps → edit_room b cs → cs ≠ [] → buffer_text b = before_changes cs ++ tail →
  Forall (fun c => Forall char_ok (ch_insert c)) cs →
  ∃ b' op ps' p, buffer_edit (Sl:=list N) b started ended (edits_at 0 cs) = Ok (b', OpEdit op) ∧
    map_get (operations (b_history b')) (eo_timestamp op) = Some (OpEdit op) ∧
    edit_done b sp ps cs tail b' (eo_timestamp op) ps' p.
Proof.
  intros. destruct (ok_with_inv _ _ (buffer_edit_spec b sp ps cs tail started ended ltac:(done) ltac:(done) ltac:(done) ltac:(done) ltac:(done)))
    as ([b' o] & E & op & ps' & p & Eo & Hget & Hd & _). cbn in Eo, Hget, Hd. subst o. by exists b', op, ps', p.
Qed.

(** "a" is kept and the newline after it replaced by "xy". *)
Definition sample_change : Change := mkChange [97] [NEWLINE] [120; 121].

Lemma sample_room b ps :
  buffer_wf b (mkSpec 3 ∅ 0%nat) ps → buffer_text b = [97; NEWLINE; 98] → rope_text (bs_deleted_text (b_snapshot b)) = [] →
  transaction_depth (b_history b) = 0 → operations (b_history b) = map_default →
  bs_insertion_slices (b_snapshot b) = map_default → value (b_lamport_clock b) <= 2 → (length ps <= 1)%nat →
  edit_room b [sample_change].
Proof.
  intros Hb Et Ed Hd Eo Es Hc Hl. pose proof (cw_items _ _ _ _ (bw_content _ _ _ Hb)) as Ei.
  assert (Hn : (length (tree_items (bs_fragments (b_snapshot b))) <= 1)%nat) by (by rewrite Ei, length_fmap).
  split; [split|..].
  - split; [rewrite Et, Ed; by vm_compute|unfold fragments_after, MAX_CHUNKS; cbn [length]; lia].
  - unfold fragments_after. cbn [length]. lia.
  - rewrite Es. unfold fragments_after. cbn [length map_default new tree_items]. lia.
  - rewrite Eo. cbn. lia.
  - unfold u32_max. lia.
  - rewrite Hd. lia.
Qed.

#[local] Existing Instance insertion_sort.
#[local] Existing Instance insertion_sort_laws.
Lemma buffer_edit_correct_witness :
  ∃ b b' op, buffer_new (C:=list N) (Sl:=list N) (Sm:=list N) LOCAL 1 (str_of sample_text) = Ok b ∧
    buffer_edit (Sl:=list N) b 0 0 [(mkRange 1 2, [120; 121])] = Ok (b', OpEdit op) ∧ buffer_text b' = [97; 120; 121; 98].
Proof.
  destruct (ok_with_inv _ _ (buffer_new_spec LOCAL 1 sample_text sample_ok ltac:(by vm_compute)))
    as (b & E & ps & Hb & Et & Ed & Hd & Eo & Es & Hc & Hl & _). exists b.
  destruct (buffer_edit_correct b _ ps [sample_change] [98] 0 0 Hb) as (b' & op & ps' & p & E' & _ & Hdone);
    [by eapply sample_room|done|done|by repeat constructor; left; lia|].
  exists b', op. split_and!; [done|exact E'|apply (bd_text _ _ _ _ _ _ _ _ _ Hdone)].
Defined.

(** ** Changing the history only *)
Definition with_history (b : sbuffer) (h : History srope) (clock : Lamport) : sbuffer := mkBuffer (b_snapshot b) h clock (b_subscriptions b).

Lemma with_history_wf b sp ps h clock :
  buffer_wf b sp ps → history_ok h clock → edits_before h clock → clock_started h clock → value (b_lamport_clock b) <= value clock →
  buffer_wf (with_history b h clock) sp ps.
Proof. intros [? ? ? ? Hu ? ? ? ? ?] Hh He Hc Hcl. split; try done. by eapply undo_wf_later. Qed.
