(* ===== verification/Anchor.v ===== *)
(** * Anchors: [crates/text/src/anchor.rs] and their resolution in [BufferSnapshot]

    An anchor names a place in the text an operation inserted, and so keeps its meaning
    while the buffer changes.  To resolve it, the index of insertions finds the fragment
    that holds the place and the tree of fragments its offset. *)

From S2P Require Import Prelude Ord Clock SumTree Locator Patch Bitmap Utf8 Point TextSummary Chunk Rope KeyedTree TreeMap UndoMap History Fragments BufferEdit Buffer.
Local Open Scope N_scope.

(** The replica and the value of the timestamp are stored side by side. *)
Record Anchor := mkAnchor {
  a_timestamp : Lamport;
  a_offset : N;
  a_bias : Bias;
  a_buffer_id : N
}.
#[export] Instance Anchor_eq_dec : EqDecision Anchor.
Proof. solve_decision. Defined.

Definition anchor_new (timestamp : Lamport) (offset : N) (bias : Bias) (buffer_id : N) : Anchor :=
  mkAnchor timestamp offset bias buffer_id.
Definition min_for_buffer (buffer_id : N) : Anchor := mkAnchor lamport_MIN 0 Left buffer_id.
Definition max_for_buffer (buffer_id : N) : Anchor := mkAnchor lamport_MAX u32_max Right buffer_id.
Definition min_max_range_for_buffer (buffer_id : N) : Range Anchor :=
  mkRange (min_for_buffer buffer_id) (max_for_buffer buffer_id).

Definition is_min (self : Anchor) : bool :=
  eqb (a_timestamp self) lamport_MIN && (a_offset self =? 0) && bool_decide (a_bias self = Left).
Definition is_max (self : Anchor) : bool :=
  eqb (a_timestamp self) lamport_MAX && (a_offset self =? u32_max) && bool_decide (a_bias self = Right).

(** ** Dimensions of fragments *)
(** [impl Dimension<FragmentSummary> for usize] *)
#[export] Instance visible_dimension : Dimension N FragmentSummary FragmentCx :=
  {| dim_zero _ := 0; dim_add_summary _ d s := d + fts_visible (fs_text s) |}.
#[export] Instance visible_ord_target : SeekTarget N N FragmentCx := ord_target.
(** [impl Dimension<FragmentSummary> for Option<&Locator>] *)
#[export] Instance locator_dimension : Dimension (option Locator) FragmentSummary FragmentCx :=
  {| dim_zero _ := None; dim_add_summary _ _ s := Some (fs_max_id s) |}.
#[export] Instance locator_target : SeekTarget (option Locator) (option Locator) FragmentCx := ord_target.
#[export] Instance insertion_target : SeekTarget InsertionFragmentKey InsertionFragmentKey unit := ord_target.

Section anchors.
Context {C Sl Sm : Type} `{!Summary Sm unit, !Item C Sm unit, !ChunkApi C Sl Sm}.
Abbreviation snapshot := (BufferSnapshot C Sm).
Abbreviation cx := (@None Global).

Definition snapshot_len (self : snapshot) : N := rope_len (Sl:=Sl) (bs_visible_text self).

Definition try_find_fragment (self : snapshot) (anchor : Anchor) : outcome (option InsertionFragment) :=
  let anchor_key := mkInsertionKey (a_timestamp anchor) (a_offset anchor) in
  r ← find_with_prev (D:=InsertionFragmentKey) tt (bs_insertions self) anchor_key (a_bias anchor);
  match r with
  | (_, _, Some (prev, insertion)) =>
      match cmp (item_key insertion) anchor_key, a_bias anchor with
      | Gt, _ => Ok prev
      | Eq, Left => Ok (if 0 <? a_offset anchor then prev else Some insertion)
      | _, _ => Ok (Some insertion)
      end
  | _ => tree_last (bs_insertions self)
  end.

(** The fragment with a locator, and the offset in the visible text where it starts. *)
Definition find_locator (self : snapshot) (id : Locator) : N * option Fragment :=
  let '(start, _, item) := find (D:=option Locator * N * unit) cx (bs_fragments self) (Some id) Left in
  (start.1.2, item).

(** [Panic] stands for [panic_bad_anchor] and [unwrap]. *)
Definition offset_for_anchor (self : snapshot) (anchor : Anchor) : outcome N :=
  if is_min anchor then Ok 0
  else if is_max anchor then Ok (snapshot_len self)
  else
    item ← try_find_fragment self anchor;
    insertion ← unwrap item;
    _ ← assert_that (eqb (if_timestamp insertion) (a_timestamp anchor));
    let '(start, item) := find_locator self (if_fragment_id insertion) in
    fragment ← unwrap item;
    Ok (if f_visible fragment then usize_add start (u32_sub (a_offset anchor) (if_split_offset insertion)) else start).

Definition try_fragment_id_for_anchor (self : snapshot) (anchor : Anchor) : outcome (option Locator) :=
  if is_min anchor then Ok (Some locator_min)
  else if is_max anchor then Ok (Some locator_max)
  else item ← try_find_fragment self anchor; Ok (option_map if_fragment_id item).
Definition fragment_id_for_anchor (self : snapshot) (anchor : Anchor) : outcome Locator :=
  id ← try_fragment_id_for_anchor self anchor; unwrap id.

(** With debug assertions off. *)
Definition anchor_at_offset (self : snapshot) (offset : N) (bias : Bias) : outcome Anchor :=
  if bool_decide (bias = Left) && (offset =? 0) then Ok (min_for_buffer (bs_remote_id self))
  else if bool_decide (bias = Right) && (snapshot_len self <=? offset) then Ok (max_for_buffer (bs_remote_id self))
  else
    b ← rope_assert_char_boundary (Sl:=Sl) false (bs_visible_text self) offset;
    let offset :=
      if b : bool then offset
      else match bias with
           | Left => rope_floor_char_boundary (Sl:=Sl) (bs_visible_text self) offset
           | Right => rope_ceil_char_boundary (Sl:=Sl) (bs_visible_text self) offset
           end in
    let '(start, _, item) := find (D:=N) cx (bs_fragments self) offset bias in
    Ok (match item with
        | Some fragment =>
            anchor_new (f_timestamp fragment) (u32_add (f_insertion_offset fragment) (u32_wrap (usize_sub offset start))) bias
              (bs_remote_id self)
        | None => max_for_buffer (bs_remote_id self)
        end).

(** At offsets of type [usize]. *)
Definition anchor_at (self : snapshot) (position : N) (bias : Bias) : outcome Anchor :=
  offset ← to_offset (Sl:=Sl) (bs_visible_text self) position; anchor_at_offset self offset bias.
Definition anchor_before (self : snapshot) (position : N) : outcome Anchor := anchor_at self position Left.
Definition anchor_after (self : snapshot) (position : N) : outcome Anchor := anchor_at self position Right.
Definition anchor_range_inside (self : snapshot) (position : Range N) : outcome (Range Anchor) :=
  a ← anchor_after self (r_start position); b ← anchor_before self (r_end position); Ok (mkRange a b).
Definition anchor_range_outside (self : snapshot) (position : Range N) : outcome (Range Anchor) :=
  a ← anchor_before self (r_start position); b ← anchor_after self (r_end position); Ok (mkRange a b).

(** [Anchor::cmp], [min] and [max] *)
Definition anchor_cmp (self other : Anchor) (buffer : snapshot) : outcome comparison :=
  fragment_id_comparison ←
    (if eqb (a_timestamp self) (a_timestamp other) then Ok Eq
     else a ← fragment_id_for_anchor buffer self; b ← fragment_id_for_anchor buffer other; Ok (cmp a b));
  Ok (then_with fragment_id_comparison (then_with (cmp (a_offset self) (a_offset other)) (cmp (a_bias self) (a_bias other)))).
Definition anchor_min (self other : Anchor) (buffer : snapshot) : outcome Anchor :=
  c ← anchor_cmp self other buffer; Ok (match c with Gt => other | _ => self end).
Definition anchor_max (self other : Anchor) (buffer : snapshot) : outcome Anchor :=
  c ← anchor_cmp self other buffer; Ok (match c with Lt => other | _ => self end).

Definition is_valid (self : Anchor) (buffer : snapshot) : outcome bool :=
  if is_min self || is_max self then Ok true
  else if negb (a_buffer_id self =? bs_remote_id buffer) then Ok false
  else
    id ← try_fragment_id_for_anchor buffer self;
    Ok (match id with
        | Some fragment_id => match (find_locator buffer fragment_id).2 with Some fragment => f_visible fragment | None => false end
        | None => false
        end).

Definition can_resolve (self : snapshot) (anchor : Anchor) : bool :=
  is_min anchor || is_max anchor
  || (bs_remote_id self =? a_buffer_id anchor) && global_observed (bs_version self) (a_timestamp anchor).
End anchors.
