(* ===== verification/AnchorFacts.v ===== *)
(** * Facts about anchors

    An anchor made at an offset resolves to that offset: the fragment that holds the place
    is the last entry of the index up to it, because the spans of the fragments are apart. *)

From S2P Require Import Prelude Ord Clock SumTree SumTreeFacts SeekSpec Cursor Locator Patch Bitmap Utf8 Point TextSummary Chunk ChunkFacts Rope RopeFacts RopeSlices RopePositions KeyedTree KeyedFacts TreeMap UndoMap History Fragments BufferEdit EditIndex EditFacts LocalEdit Subscription Buffer BufferFacts Anchor.
Local Open Scope N_scope.

(** ** Finding a fragment by its offset *)
#[export] Instance visible_dimension_laws : DimensionLaws N (Sm:=FragmentSummary) cx.
Proof. intros d a b. cbn. lia. Qed.
#[export] Instance locator_dimension_laws : DimensionLaws (option Locator) (Sm:=FragmentSummary) cx.
Proof. done. Qed.
#[export] Instance located_dimension_laws : DimensionLaws (option Locator * N * unit) (Sm:=FragmentSummary) cx.
Proof. intros [[l d] u] a b. cbn. by rewrite N.add_assoc. Qed.

Abbreviation vdims := (dim_items (T:=Fragment) (Sm:=FragmentSummary) (D:=N) cx).
Lemma visible_dims pos fs : vdims pos fs = pos + vis_len fs.
Proof.
  revert pos. induction fs as [|f fs IH]; intros pos; [cbn; lia|]. cbn [dim_items foldl].
  change (foldl (item_end None) ?a fs) with (vdims a fs). rewrite IH. unfold item_end, vis_len. cbn. destruct (f_visible f); cbn; lia.
Qed.

Lemma offset_past (o d : N) bias :
  past (D:=N) cx o bias d = match bias with Left => d <? o | Right => d <=? o end.
Proof.
  unfold past, target_cmp, visible_ord_target, ord_target, cmp, N_ord. destruct (N.compare_spec o d) as [->|H|H], bias; cbn; symmetry;
    first [apply N.ltb_ge|apply N.leb_le|apply N.leb_gt|apply N.ltb_lt]; lia.
Qed.

Lemma visible_ends_ge (pos : N) fs e : e ∈ ends (T:=Fragment) (Sm:=FragmentSummary) cx pos fs → pos <= e.
Proof.
  revert pos. induction fs as [|f fs IH]; intros pos; cbn [ends]; [by intros ?%not_elem_of_nil|].
  rewrite elem_of_cons. intros [->|H%IH]; unfold item_end in *; cbn in *; lia.
Qed.
Lemma offset_seekable o bias (pos : N) fs : seekable (T:=Fragment) (Sm:=FragmentSummary) cx o bias pos fs.
Proof.
  unfold seekable. revert pos. induction fs as [|f fs IH]; intros pos; cbn [ends]; constructor; [apply IH|].
  apply Forall_forall. intros e He%visible_ends_ge. rewrite !offset_past. destruct bias; [rewrite !N.ltb_lt|rewrite !N.leb_le]; lia.
Qed.

(** Where in a text a fragment meets an offset. *)
Definition meets (bias : Bias) (start len o : N) : Prop :=
  match bias with Left => start < o <= start + len | Right => start <= o < start + len end.

Lemma find_fragment_offset F o bias :
  tree_wf cx ROPE_DEPTH F → meets bias 0 (vis_len (tree_items F)) o →
  ∃ pre f rest e, tree_items F = pre ++ f :: rest ∧ find (D:=N) cx F o bias = (vis_len pre, e, Some f) ∧
    f_visible f = true ∧ meets bias (vis_len pre) (f_len f) o.
Proof.
  intros [->|(h & _ & Ht)] Ho; [destruct bias; cbn in Ho; lia|].
  rewrite (find_spec_at cx o bias _ _ _ Ht) by apply offset_seekable.
  destruct (scan_split cx o bias (dim_zero cx : N) (tree_items F)) as (pre & Hi & Hd & Hf & Hx).
  destruct (scan cx o bias (dim_zero cx : N) (tree_items F)) as [p l] eqn:E. cbn [fst snd] in *. rewrite visible_dims in Hd. cbn in Hd.
  assert (Hpast : match bias with Left => vis_len pre < o | Right => vis_len pre <= o end).
  { destruct (snoc_case pre) as [->|(k & y & Ek)]; [destruct bias; cbn in *; lia|]. rewrite Forall_forall in Hf.
    specialize (Hf (vdims 0 pre)). rewrite offset_past, visible_dims, N.add_0_l in Hf.
    assert (Hin : vis_len pre ∈ ends (T:=Fragment) (Sm:=FragmentSummary) cx (dim_zero cx : N) pre).
    { apply last_Some_elem_of. by rewrite Ek, ends_last, visible_dims. }
    specialize (Hf Hin). destruct bias; [by apply N.ltb_lt|by apply N.leb_le]. }
  destruct l as [|f rest].
  { rewrite app_nil_r in Hi. rewrite Hi in Ho. destruct bias; cbn in Ho; lia. }
  specialize (Hx f rest eq_refl). rewrite offset_past, Hd in Hx. unfold item_end in Hx. cbn in Hx. subst p.
  exists pre, f, rest, (item_end cx (vis_len pre) f). unfold found_item. cbn [fst snd]. split_and!; [done|by rewrite N.add_0_l| |].
  - destruct (f_visible f) eqn:Hv; [done|]. cbn in Hx. destruct bias; [apply N.ltb_ge in Hx|apply N.leb_gt in Hx]; lia.
  - destruct (f_visible f) eqn:Hv; cbn in Hx; (destruct bias; [apply N.ltb_ge in Hx|apply N.leb_gt in Hx]); cbn; lia.
Qed.

(** ** Finding a fragment by its locator *)
Abbreviation ldims := (dim_items (T:=Fragment) (Sm:=FragmentSummary) (D:=option Locator * N * unit) cx).

Lemma located_dims l d u fs :
  (ldims (l, d, u) fs).1.2 = d + vis_len fs.
Proof.
  revert l d u. induction fs as [|f fs IH]; intros l d u; [cbn; lia|]. cbn [dim_items foldl].
  change (foldl (item_end None) ?a fs) with (ldims a fs). unfold item_end. cbn [dim_add_summary dimensions_dimension].
  rewrite IH. unfold vis_len. cbn. destruct (f_visible f); cbn; lia.
Qed.

Lemma located_ends pos fs : (fun e => e.1.1) <$> ends (T:=Fragment) (Sm:=FragmentSummary) (D:=option Locator * N * unit) cx pos fs = (Some ∘ f_id) <$> fs.
Proof. revert pos. induction fs as [|f fs IH]; intros pos; [done|]. cbn [ends fmap list_fmap]. by rewrite IH. Qed.

Lemma locator_past (id : Locator) (e : option Locator * N * unit) j :
  e.1.1 = Some j → past cx (Some id) Left e = match cmp id j with Gt => true | _ => false end.
Proof. intros E. unfold past, target_cmp, dimensions_target, target_cmp, locator_target, ord_target. rewrite E. unfold cmp at 1, option_ord. by destruct (cmp id j). Qed.

Lemma ids_sorted fs : ids_ok fs → StronglySorted locator_lt (f_id <$> fs).
Proof. intros [Hs _]. inversion Hs as [|? ? Hs' _]; subst. by apply StronglySorted_app_1_l in Hs'. Qed.

Lemma located_past id pos fs (Q : bool → Prop) :
  Forall (fun f => Q (match cmp id (f_id f) with Gt => true | _ => false end)) fs →
  Forall (fun e => Q (past cx (Some id) Left e)) (ends (T:=Fragment) (Sm:=FragmentSummary) (D:=option Locator * N * unit) cx pos fs).
Proof.
  revert pos. induction fs as [|f fs IH]; intros pos Hf; [constructor|]. apply Forall_cons in Hf as [Hf Hfs]. cbn [ends].
  constructor; [|by apply IH]. by rewrite (locator_past _ _ (f_id f)).
Qed.

Lemma locator_seekable id pos fs :
  StronglySorted locator_lt (f_id <$> fs) → seekable (T:=Fragment) (Sm:=FragmentSummary) (D:=option Locator * N * unit) cx (Some id) Left pos fs.
Proof.
  unfold seekable. revert pos. induction fs as [|f fs IH]; intros pos Hs; cbn [ends]; [constructor|].
  inversion Hs as [|? ? Hs' Hf]; subst. constructor; [by apply IH|]. rewrite (locator_past id (item_end cx pos f) (f_id f)) by done.
  apply (located_past id _ fs (fun b => b = true → _)). rewrite Forall_fmap in Hf. eapply Forall_impl; [exact Hf|]. cbn. intros g Hg.
  destruct (cmp id (f_id g)) eqn:E1, (cmp id (f_id f)) eqn:E2; try done; exfalso; unfold locator_lt in Hg.
  - apply cmp_eq in E2. congruence.
  - pose proof (cmp_lt_trans _ _ _ E2 Hg). congruence.
Qed.

Lemma find_located F pre f rest :
  tree_wf cx ROPE_DEPTH F → tree_items F = pre ++ f :: rest → ids_ok (tree_items F) →
  ∃ p e, find (D:=option Locator * N * unit) cx F (Some (f_id f)) Left = (p, e, Some f) ∧ p.1.2 = vis_len pre.
Proof.
  intros [->|(h & _ & Ht)] Hi Hid; [by destruct pre|]. apply ids_sorted in Hid.
  rewrite (find_spec_at cx (Some (f_id f)) Left _ _ _ Ht) by (by apply locator_seekable). rewrite Hi in *.
  rewrite scan_past.
  - cbn [scan]. rewrite (locator_past (f_id f) _ (f_id f)) by done. rewrite cmp_refl. eexists _, _. split; [done|].
    cbn [fst snd]. change (dim_zero cx) with (@None Locator, 0, tt). by rewrite located_dims.
  - apply (located_past _ _ pre (fun b => b = true)). rewrite fmap_app in Hid. apply Forall_forall. intros g Hg.
    assert (Hlt : locator_lt (f_id g) (f_id f)).
    { eapply StronglySorted_app_1_elem_of; [exact Hid|by apply list_elem_of_fmap_2|by left]. }
    unfold locator_lt in Hlt. by rewrite cmp_opp, Hlt.
Qed.

(** ** Finding the entry for a place *)
Lemma insertion_past k (e : InsertionFragmentKey) bias :
  past (D:=InsertionFragmentKey) tt k bias e = match cmp k e, bias with Gt, _ => true | Eq, Right => true | _, _ => false end.
Proof. unfold past, target_cmp, insertion_target, ord_target. by destruct (cmp k e), bias. Qed.

Lemma key_cmp t o t' o' :
  cmp (mkInsertionKey t o) (mkInsertionKey t' o') = match cmp t t' with Eq => cmp o o' | c => c end.
Proof. unfold cmp at 1, InsertionFragmentKey_ord, cmp at 1, prod_ord. cbn. by destruct (cmp t t'). Qed.

(** No fragment starts inside another. *)
Lemma spans_inside (fs : list Fragment) f g :
  spans_ok (span_of <$> fs) → Forall (fun f => 0 < f_len f) fs → f ∈ fs → g ∈ fs → f_timestamp g = f_timestamp f →
  f_insertion_offset f < f_insertion_offset g < f_insertion_offset f + f_len f → False.
Proof.
  intros Hs Hl Hf Hg Ht Ho. assert (Hap : apart (span_of f) (span_of g)).
  { destruct (list_elem_of_split _ _ Hf) as (a & b & ->). assert (Hne : g ≠ f) by (intros ->; lia).
    rewrite fmap_app in Hs. cbn in Hs. eapply (spans_perm _ (span_of f :: _)) in Hs; [|symmetry; apply Permutation_middle].
    inversion Hs as [|? ? Ha _]; subst. rewrite <-fmap_app, Forall_fmap, Forall_forall in Ha. apply Ha.
    rewrite elem_of_app in *. destruct Hg as [?|[?|?]%elem_of_cons]; auto. done. }
  rewrite Forall_forall in Hl. specialize (Hl g Hg). cbn in Hl. unfold apart in Hap. cbn in Hap. destruct Hap as [?|[?|?]]; [congruence|lia..].
Qed.

(** What a seek for place [o] of [f]'s insertion goes past. *)
Lemma past_entry f o bias : meets bias (f_insertion_offset f) (f_len f) o →
  past (D:=InsertionFragmentKey) tt (mkInsertionKey (f_timestamp f) o) bias (item_key (insertion_fragment_new f)) = true.
Proof.
  intros Ho. rewrite insertion_past. change (item_key (insertion_fragment_new f)) with (mkInsertionKey (f_timestamp f) (f_insertion_offset f)).
  rewrite key_cmp, cmp_refl. unfold cmp, N_ord. destruct bias; cbn in Ho; destruct (N.compare_spec o (f_insertion_offset f)); first [done|lia].
Qed.

(** Of what a seek goes past, nothing comes after the entry of [f]. *)
Lemma past_bound (ps : pieces) f g o bias :
  spans_ok (span_of <$> ps.*1) → Forall (fun f => 0 < f_len f) ps.*1 → f ∈ ps.*1 → g ∈ ps.*1 → meets bias (f_insertion_offset f) (f_len f) o →
  past (D:=InsertionFragmentKey) tt (mkInsertionKey (f_timestamp f) o) bias (item_key (insertion_fragment_new g)) = true →
  cmp (item_key (insertion_fragment_new f)) (item_key (insertion_fragment_new g)) ≠ Lt.
Proof.
  intros Hsp Hl Hf Hg Ho. rewrite insertion_past.
  change (item_key (insertion_fragment_new ?x)) with (mkInsertionKey (f_timestamp x) (f_insertion_offset x)). rewrite !key_cmp.
  destruct (cmp (f_timestamp f) (f_timestamp g)) eqn:Et; [|by destruct bias|done].
  apply cmp_eq in Et. unfold cmp, N_ord. intros Hp Hlt%N.compare_lt_iff.
  eapply (spans_inside ps.*1 f g); [done..|]. split; [done|]. destruct bias; cbn in Ho; destruct (N.compare_spec o (f_insertion_offset g)); first [done|lia].
Qed.

Lemma entry_found ps I f o bias :
  index_ok ps.*1 I → spans_ok (span_of <$> ps.*1) → Forall piece_ok ps → f ∈ ps.*1 → meets bias (f_insertion_offset f) (f_len f) o →
  ∀ (s : BufferSnapshot (list N) (list N)) id, bs_insertions s = I →
  try_find_fragment s (mkAnchor (f_timestamp f) o bias id) = Ok (Some (insertion_fragment_new f)).
Proof.
  intros [Hw Hs Hp] Hsp Hok Hf Ho s id Es. unfold try_find_fragment. cbn [a_timestamp a_offset a_bias]. rewrite Es.
  set (k := mkInsertionKey (f_timestamp f) o).
  assert (Hlen : Forall (fun f => 0 < f_len f) ps.*1) by (rewrite Forall_fmap; eapply Forall_impl; [exact Hok|]; by intros ? [_ ?]).
  assert (Hin : insertion_fragment_new f ∈ tree_items I) by (rewrite Hp; by apply list_elem_of_fmap_2).
  destruct Hw as [[->|(h & _ & Ht)] _]; [by apply not_elem_of_nil in Hin|].
  assert (Hseek : seekable (D:=InsertionFragmentKey) tt k bias (dim_zero tt) (tree_items I))
    by exact (key_seekable tt k bias (dim_zero tt) (tree_items I) Hs (key_le_zero tt _)).
  rewrite (find_with_prev_spec tt k bias _ _ _ Ht Hseek).
  destruct (scan_split tt k bias (dim_zero tt : InsertionFragmentKey) (tree_items I)) as (pre & Hi & Hd & Hpre & Hx).
  rewrite (scan_prev_split tt k bias (dim_zero tt : InsertionFragmentKey) (tree_items I) pre Hi Hpre) by (rewrite <-Hd; exact Hx).
  destruct (scan tt k bias (dim_zero tt : InsertionFragmentKey) (tree_items I)) as [p rest] eqn:E. cbn [fst snd] in *.
  assert (Hpast : ∀ y, y ∈ pre → past (D:=InsertionFragmentKey) tt k bias (item_key y) = true).
  { assert (Hsp' : keys_sorted pre) by (rewrite Hi in Hs; by apply keys_sorted_app in Hs as [? _]).
    rewrite (ends_keys tt (dim_zero tt) pre Hsp' (key_le_zero tt _)) in Hpre.
    rewrite Forall_fmap, Forall_forall in Hpre. exact Hpre. }
  assert (Hstop : ∀ y, y ∈ rest → past (D:=InsertionFragmentKey) tt k bias (item_key y) = false).
  { destruct rest as [|x rest]; [by intros ? ?%not_elem_of_nil|]. specialize (Hx x rest eq_refl).
    change (item_end tt p x) with (item_key x : InsertionFragmentKey) in Hx. intros y [->|Hy]%elem_of_cons; [done|].
    rewrite Hi in Hs. apply keys_sorted_app in Hs as (_ & [_ Hr]%keys_sorted_cons & _). rewrite Forall_forall in Hr. specialize (Hr y Hy). cbn in Hr.
    apply not_true_is_false. intros Hpy. rewrite insertion_past in *.
    assert (Hkx : cmp (item_key x) k = Lt).
    { rewrite (cmp_opp (item_key y)) in Hpy. destruct (cmp (item_key y) k) eqn:Ek; [|by eapply cmp_lt_trans|by destruct bias].
      apply cmp_eq in Ek as <-. exact Hr. }
    by rewrite cmp_opp, Hkx in Hx. }
  assert (Hfp : insertion_fragment_new f ∈ pre).
  { rewrite Hi, elem_of_app in Hin. destruct Hin as [?|Hin]; [done|]. specialize (Hstop _ Hin). unfold k in Hstop. by rewrite past_entry in Hstop. }
  assert (Hlast : last pre = Some (insertion_fragment_new f)).
  { destruct (snoc_case pre) as [->|(l & y & ->)]; [by apply not_elem_of_nil in Hfp|]. rewrite last_snoc. f_equal.
    apply elem_of_app in Hfp as [Hfl|Hfy%list_elem_of_singleton]; [|done]. exfalso.
    assert (Hy : y ∈ tree_items I) by (rewrite Hi, !elem_of_app; left; right; by left). rewrite Hp in Hy.
    apply list_elem_of_fmap in Hy as (g & -> & Hg).
    eapply (past_bound ps f g o bias); [done..|apply Hpast; rewrite elem_of_app; right; by left|].
    rewrite Hi in Hs. apply keys_sorted_app in Hs as (Hs & _). apply keys_sorted_app in Hs as (_ & _ & Hs).
    rewrite Forall_forall in Hs. specialize (Hs _ Hfl). rewrite Forall_singleton in Hs. exact Hs. }
  cbn [mbind outcome_bind]. destruct rest as [|x rest].
  - rewrite (tree_last_at tt _ _ _ Ht). rewrite app_nil_r in Hi. by rewrite Hi, Hlast.
  - rewrite Hlast. specialize (Hstop x (list_elem_of_here _ _)). rewrite insertion_past, (cmp_opp (item_key x)) in Hstop.
    fold k. destruct (cmp (item_key x) k); [|by destruct bias|done]. destruct bias; [|done].
    by rewrite (proj2 (N.ltb_lt _ _)) by (cbn in Ho; lia).
Qed.

(** ** Resolving *)
Section resolve.
Context (b : sbuffer) (sp : Spec) (ps : pieces) (Hb : buffer_wf b sp ps) (Hs : RopeFacts.small (buffer_text b)).
Abbreviation s := (b_snapshot b).

Lemma fragments_of : tree_items (bs_fragments s) = ps.*1.
Proof using Hb. apply (bw_content _ _ _ Hb). Qed.
Lemma snapshot_len_of : snapshot_len (Sl:=list N) s = byte_len (buffer_text b).
Proof using Hb. apply rope_len_of, (bw_content _ _ _ Hb). Qed.
Lemma text_of : vis_len ps.*1 = byte_len (buffer_text b).
Proof using Hb. destruct (bw_content _ _ _ Hb) as [_ _ _ _ Hok Ev _ _ _ _]. rewrite <-Ev. symmetry. by apply pieces_len. Qed.

(** An anchor in a fragment. *)
Lemma resolve_in pre f rest o bias :
  ps.*1 = pre ++ f :: rest → meets bias (f_insertion_offset f) (f_len f) o →
  offset_for_anchor (Sl:=list N) s (mkAnchor (f_timestamp f) o bias (bs_remote_id s))
  = Ok (if f_visible f then vis_len pre + (o - f_insertion_offset f) else vis_len pre).
Proof using All.
  intros Hi Ho. destruct (bw_content _ _ _ Hb) as [HF _ _ EF Hok Ev _ Hid Hsp Hof].
  assert (Hin : f ∈ ps.*1) by (rewrite Hi, elem_of_app; right; by left).
  assert (Hend : f_insertion_offset f + f_len f <= u32_max).
  { rewrite Forall_fmap, Forall_forall in Hof. exact (Hof f Hin). }
  assert (Hstart : vis_len pre + vis_len [f] <= byte_len (buffer_text b)).
  { rewrite <-text_of, Hi, (cons_middle f pre rest), !vis_len_app. lia. }
  unfold offset_for_anchor.
  assert (is_min (mkAnchor (f_timestamp f) o bias (bs_remote_id s)) = false) as ->.
  { unfold is_min. cbn. destruct bias; [|by rewrite andb_false_r]. rewrite (proj2 (N.eqb_neq o 0)) by (cbn in Ho; lia). by rewrite andb_false_r. }
  assert (is_max (mkAnchor (f_timestamp f) o bias (bs_remote_id s)) = false) as ->.
  { unfold is_max. cbn [a_offset a_bias]. destruct bias; [by rewrite andb_false_r|].
    rewrite (proj2 (N.eqb_neq o _)) by (cbn in Ho; lia). by rewrite andb_false_r. }
  rewrite (entry_found ps (bs_insertions s) f o bias (bw_index _ _ _ Hb) Hsp Hok Hin Ho s) by done.
  cbn [mbind outcome_bind unwrap if_timestamp insertion_fragment_new a_timestamp if_fragment_id if_split_offset a_offset].
  rewrite eqb_refl. cbn [assert_that mbind outcome_bind]. unfold find_locator.
  destruct (find_located (bs_fragments s) pre f rest HF) as (p & e & -> & Ep); [congruence|by rewrite fragments_of|].
  cbn [fst snd unwrap mbind outcome_bind]. rewrite Ep. destruct (f_visible f) eqn:Hv; [|done]. f_equal.
  unfold vis_len at 2 in Hstart. cbn in Hstart. rewrite Hv in Hstart. unfold RopeFacts.small in Hs.
  assert (f_insertion_offset f <= o <= f_insertion_offset f + f_len f) by (destruct bias; cbn in Ho; lia).
  rewrite u32_sub_exact by lia. apply usize_add_exact. lia.
Qed.

Lemma anchor_resolves p q bias :
  buffer_text b = p ++ q →
  ok_with (anchor_at (Sl:=list N) s (byte_len p) bias) (fun a => a_bias a = bias ∧ a_buffer_id a = bs_remote_id s ∧
    offset_for_anchor (Sl:=list N) s a = Ok (byte_len p)).
Proof using All.
  intros Et. pose proof (bw_content _ _ _ Hb) as Hc. pose proof (cw_visible _ _ _ _ Hc) as HV.
  unfold anchor_at. rewrite (to_offset_boundary _ p q) by done. cbn [mbind outcome_bind]. unfold anchor_at_offset. rewrite snapshot_len_of.
  destruct (decide (bias = Left ∧ p = [])) as [[-> ->]|Hmin]; [done|].
  assert (bool_decide (bias = Left) && (byte_len p =? 0) = false) as ->.
  { apply andb_false_iff. rewrite bool_decide_eq_false, N.eqb_neq. destruct bias; [|by left]. right. intros E%byte_len_zero. by destruct Hmin. }
  destruct (decide (bias = Right ∧ q = [])) as [[-> ->]|Hmax].
  { rewrite Et, app_nil_r, N.leb_refl. cbn. unfold offset_for_anchor. change (is_min (max_for_buffer (bs_remote_id s))) with false.
    change (is_max (max_for_buffer (bs_remote_id s))) with true. rewrite snapshot_len_of, Et. by rewrite app_nil_r. }
  assert (bool_decide (bias = Right) && (byte_len (buffer_text b) <=? byte_len p) = false) as ->.
  { apply andb_false_iff. rewrite bool_decide_eq_false, N.leb_gt. destruct bias; [by left|]. right. rewrite Et, byte_len_app.
    assert (Hne : q ≠ []) by (intros ->; by destruct Hmax). pose proof (nonempty_bytes q Hne). lia. }
  rewrite rope_assert_char_boundary_spec by done. rewrite (proj2 (rope_is_char_boundary_spec _ _ HV Hs)) by (by exists p, q).
  cbn [mbind outcome_bind]. destruct (find_fragment_offset (bs_fragments s) (byte_len p) bias) as (pre & f & rest & e & Hi & -> & Hv & Hm).
  { apply Hc. }
  { rewrite fragments_of, text_of, Et, byte_len_app. destruct bias; cbn.
    - assert (Hne : p ≠ []) by (intros ->; by destruct Hmin). pose proof (nonempty_bytes p Hne). lia.
    - assert (Hne : q ≠ []) by (intros ->; by destruct Hmax). pose proof (nonempty_bytes q Hne). lia. }
  cbn [ok_with]. split_and!; [done|done|]. rewrite fragments_of in Hi.
  assert (Hend : f_insertion_offset f + f_len f <= u32_max).
  { pose proof (cw_offsets _ _ _ _ Hc) as Hof. rewrite Forall_fmap, Forall_forall in Hof.
    apply (Hof f). rewrite Hi, elem_of_app. right. by left. }
  assert (Hle : vis_len pre <= byte_len p <= vis_len pre + f_len f) by (destruct bias; cbn in Hm; lia).
  assert (byte_len p <= 2 ^ 31) by (unfold RopeFacts.small in Hs; rewrite Et, byte_len_app in Hs; lia).
  rewrite usize_sub_exact by lia. rewrite (u32_wrap_small (byte_len p - vis_len pre)) by (unfold u32_max; lia). rewrite u32_add_exact by lia.
  unfold anchor_new. rewrite (resolve_in pre f rest) by (done || destruct bias; cbn in *; lia). rewrite Hv. f_equal. lia.
Qed.
End resolve.

(** ** Correctness of anchors *)
(** C3: an anchor made at an offset on a character boundary, with either bias, resolves to that
    offset in the same snapshot. *)
Theorem anchor_roundtrip b sp ps p q bias :
  buffer_wf b sp ps → RopeFacts.small (buffer_text b) → buffer_text b = p ++ q →
  ∃ a, anchor_at (Sl:=list N) (b_snapshot b) (byte_len p) bias = Ok a ∧ a_bias a = bias ∧
    a_buffer_id a = bs_remote_id (b_snapshot b) ∧ offset_for_anchor (Sl:=list N) (b_snapshot b) a = Ok (byte_len p).
Proof. intros Hb Hs Et. exact (ok_with_inv _ _ (anchor_resolves b sp ps Hb Hs p q bias Et)). Qed.

Lemma anchor_roundtrip_witness :
  ∃ b a, buffer_new (C:=list N) (Sl:=list N) (Sm:=list N) LOCAL 1 (str_of sample_text) = Ok b ∧
    anchor_at (Sl:=list N) (b_snapshot b) 2 Left = Ok a ∧ offset_for_anchor (Sl:=list N) (b_snapshot b) a = Ok 2.
Proof.
  destruct (ok_with_inv _ _ (buffer_new_spec LOCAL 1 sample_text sample_ok ltac:(by vm_compute))) as (b & E & ps & Hb & Et & _).
  destruct (anchor_roundtrip b _ ps [97; NEWLINE] [98] Left Hb) as (a & Ea & _ & _ & Er); [rewrite Et; by vm_compute|done|].
  by exists b, a.
Defined.
