(* ===== verification/BufferUndo.v ===== *)
(** * Undoing and redoing: [Buffer::undo], [redo] and [apply_undo] of [crates/text/src/text.rs]

    Undoing a transaction raises the undo counts of its edits; redoing raises them again.
    [apply_undo] records the counts in the undo map, finds the fragments the edits changed
    by their slices and makes each of them visible or not, as the counts say. *)

From S2P Require Import Prelude Ord Clock SumTree Cursor Locator Patch Subscription Bitmap Utf8 Point TextSummary Chunk Rope KeyedTree TreeMap UndoMap History Fragments BufferEdit Buffer Anchor.
Local Open Scope N_scope.

(** ** The order of a [HashMap] *)
(** The iteration order of a [HashMap] is not specified: some permutation of its entries. *)
Class HashOrder := hash_order : ∀ {V : Type}, list (Lamport * V) → list (Lamport * V).
Class HashOrderLaws `{HashOrder} : Prop :=
  hash_order_permutation : ∀ {V} (l : list (Lamport * V)), Permutation (hash_order l) l.
Definition insertion_order : HashOrder := fun V l => l.
Lemma insertion_order_laws : @HashOrderLaws insertion_order.
Proof. by intros V l. Qed.

(** [HashMap::insert] *)
Definition hash_insert `{!HashOrder} {V} (map : list (Lamport * V)) (key : Lamport) (value : V) : list (Lamport * V) :=
  hash_order ((key, value) :: List.filter (fun p => negb (eqb p.1 key)) map).

(** [u32::saturating_add] *)
Definition u32_saturating_add (a b : N) : N := N.min (a + b) u32_max.

(** ** The fragments an edit changed *)
(** [std::cmp::Reverse] *)
Record Reverse := mkReverse { reversed : N }.
#[export] Instance Reverse_ord : Ord Reverse := fun a b => cmp (reversed b) (reversed a).

Definition slice_sort_key (s : InsertionSlice) : Lamport * (N * Reverse) :=
  (is_insertion_id s, (r_start (is_range s), mkReverse (r_end (is_range s)))).

(** [Iterator::take_while] *)
Fixpoint take_while {A} (p : A → bool) (l : list A) : list A :=
  match l with
  | [] => []
  | x :: l => if p x then x :: take_while p l else []
  end.

Definition slices_for_edit (insertion_slices : TreeSet InsertionSlice) (edit_id : Lamport) : outcome (list InsertionSlice) :=
  slices ← set_iter_from insertion_slices (mkInsertionSlice edit_id lamport_MIN (mkRange 0 0));
  Ok (take_while (fun slice => eqb (is_edit_id slice) edit_id) slices).

Section undo.
Context {C Sl Sm : Type} `{!Summary Sm unit, !Item C Sm unit, !ChunkApi C Sl Sm}.
Abbreviation rope := (Rope C Sm).
Abbreviation snapshot := (BufferSnapshot C Sm).
Abbreviation buffer := (Buffer C Sm).
Abbreviation fragment_tree := (SumTree Fragment FragmentSummary).
Abbreviation located_cursor := (Cursor Fragment FragmentSummary (option Locator * N * unit)).
Abbreviation insertion_cursor := (Cursor InsertionFragment InsertionFragmentKey InsertionFragmentKey).
Abbreviation cx := (@None Global).

(** [while let Some(item) = insertions_cursor.item()] *)
Fixpoint take_fragment_ids (fuel : nat) (c : insertion_cursor) (insertion_id : Lamport) (range_end : N)
    (fragment_ids : list Locator) : outcome (insertion_cursor * list Locator) :=
  match fuel with
  | O => Panic
  | S fuel =>
      item ← cursor_item c;
      match item with
      | Some item =>
          if negb (eqb (if_timestamp item) insertion_id) || (range_end <=? if_split_offset item) then Ok (c, fragment_ids)
          else c' ← cursor_next tt c;
               take_fragment_ids fuel c' insertion_id range_end (fragment_ids ++ [if_fragment_id item])
      | None => Ok (c, fragment_ids)
      end
  end.

(** One turn of the loop over the slices. *)
Definition slice_fragment_ids (fuel : nat) (c : insertion_cursor) (insertion_slice : InsertionSlice)
    (fragment_ids : list Locator) : outcome (insertion_cursor * list Locator) :=
  let insertion_id := is_insertion_id insertion_slice in
  let start := r_start (is_range insertion_slice) in
  c ← (if negb (eqb insertion_id (ik_timestamp (cursor_start c))) || (ik_split_offset (cursor_start c) <? start) then
         '(c, _) ← cursor_seek_forward tt (mkInsertionKey insertion_id start) Left c; Ok c
       else Ok c);
  take_fragment_ids fuel c insertion_id (r_end (is_range insertion_slice)) fragment_ids.

Fixpoint slices_fragment_ids (fuel : nat) (c : insertion_cursor) (insertion_slices : list InsertionSlice)
    (fragment_ids : list Locator) : outcome (list Locator) :=
  match insertion_slices with
  | [] => Ok fragment_ids
  | slice :: insertion_slices =>
      '(c, fragment_ids) ← slice_fragment_ids fuel c slice fragment_ids;
      slices_fragment_ids fuel c insertion_slices fragment_ids
  end.

Definition fragment_ids_for_edits `{!UnstableSort} (self : snapshot) (edit_ids : list Lamport) : outcome (list Locator) :=
  insertion_slices ← map_outcome (slices_for_edit (bs_insertion_slices self)) edit_ids;
  let insertion_slices := sort_unstable_by_key slice_sort_key (concat insertion_slices) in
  fragment_ids ← slices_fragment_ids (cost (bs_insertions self)) (cursor_new tt (bs_insertions self)) insertion_slices [];
  Ok (sort_unstable_by_key (fun id => id) fragment_ids).

(** ** [apply_undo] *)
Record UndoState := mkUndoState {
  us_old_fragments : located_cursor;
  us_new_fragments : fragment_tree;
  us_new_ropes : RopeBuilder C Sm;
  us_edits : list (TextEdit N)
}.

Definition with_undo (f : Fragment) (visible : bool) (timestamp : Lamport) : Fragment :=
  mkFragment (f_id f) (f_timestamp f) (f_insertion_offset f) (f_len f) visible (f_deletions f)
    (version_observe (f_max_undos f) timestamp).

(** The edit of the text a change of visibility makes. *)
Definition visibility_edit (edits : list (TextEdit N)) (fragment_was_visible : bool) (fragment : Fragment) (old_start new_start : N) :
    list (TextEdit N) :=
  if fragment_was_visible && negb (f_visible fragment) then
    patch_push edits (mkEdit (mkRange old_start (usize_add old_start (f_len fragment))) (mkRange new_start new_start))
  else if negb fragment_was_visible && f_visible fragment then
    patch_push edits (mkEdit (mkRange old_start old_start) (mkRange new_start (usize_add new_start (f_len fragment))))
  else edits.

(** [new_ropes.append(slice.summary().text); new_fragments.append(slice)] *)
Definition undo_append (st : UndoState) (c : located_cursor) (slice : fragment_tree) : outcome UndoState :=
  ropes ← builder_append (Sl:=Sl) (us_new_ropes st) (fs_text (summary slice));
  t ← SumTree.append cx (us_new_fragments st) slice;
  Ok (mkUndoState c t ropes (us_edits st)).

(** The body of the loop over the fragments. *)
Definition undo_fragment (undo_map : UndoMap) (timestamp : Lamport) (st : UndoState) (fragment_id : Locator) : outcome UndoState :=
  '(c, preceding_fragments) ← cursor_slice cx (Some fragment_id) Left (us_old_fragments st);
  st ← undo_append st c preceding_fragments;
  item ← cursor_item (us_old_fragments st);
  match item with
  | Some fragment =>
      let fragment_was_visible := f_visible fragment in
      visible ← is_visible fragment undo_map;
      let fragment := with_undo fragment visible timestamp in
      let old_start := (cursor_start (us_old_fragments st)).1.2 in
      let new_start := fts_visible (fs_text (summary (us_new_fragments st))) in
      let edits := visibility_edit (us_edits st) fragment_was_visible fragment old_start new_start in
      ropes ← push_fragment (Sl:=Sl) (us_new_ropes st) fragment fragment_was_visible;
      t ← push cx (us_new_fragments st) fragment;
      c ← cursor_next cx (us_old_fragments st);
      Ok (mkUndoState c t ropes edits)
  | None => Ok st
  end.

Fixpoint undo_fragments (undo_map : UndoMap) (timestamp : Lamport) (st : UndoState) (fragment_ids : list Locator) : outcome UndoState :=
  match fragment_ids with
  | [] => Ok st
  | id :: fragment_ids => st ← undo_fragment undo_map timestamp st id; undo_fragments undo_map timestamp st fragment_ids
  end.

Definition apply_undo `{!UnstableSort} (self : buffer) (undo : UndoOperation) : outcome buffer :=
  let s := b_snapshot self in
  undo_map ← undo_map_insert (bs_undo_map s) undo;
  v ← rope_cursor (Sl:=Sl) (bs_visible_text s) 0;
  d ← rope_cursor (Sl:=Sl) (bs_deleted_text s) 0;
  fragment_ids ← fragment_ids_for_edits s (map fst (counts undo));
  st ← undo_fragments undo_map (undo_timestamp undo)
         (mkUndoState (cursor_new cx (bs_fragments s)) (new cx) (builder_new v d) []) fragment_ids;
  '(c, suffix) ← cursor_suffix cx (us_old_fragments st);
  st ← undo_append st c suffix;
  '(visible_text, deleted_text) ← builder_finish (Sl:=Sl) (us_new_ropes st);
  subscriptions ← publish (b_subscriptions self) (us_edits st);
  Ok (mkBuffer
        (mkSnapshot visible_text deleted_text (us_new_fragments st) (bs_insertions s) (bs_insertion_slices s) undo_map
           (bs_version s) (bs_remote_id s) (bs_replica_id s) (bs_line_ending s))
        (b_history self) (b_lamport_clock self) subscriptions).

(** ** [undo] and [redo] *)
Definition undo_operations `{!UnstableSort} (self : buffer) (counts : list (Lamport * N)) : outcome (buffer * Operation) :=
  let '(timestamp, clock) := lamport_tick (b_lamport_clock self) in
  let s := b_snapshot self in
  let version := bs_version s in
  let s := mkSnapshot (bs_visible_text s) (bs_deleted_text s) (bs_fragments s) (bs_insertions s) (bs_insertion_slices s)
             (bs_undo_map s) (global_observe (bs_version s) timestamp) (bs_remote_id s) (bs_replica_id s) (bs_line_ending s) in
  let undo := mkUndoOperation timestamp version counts in
  self ← apply_undo (mkBuffer s (b_history self) clock (b_subscriptions self)) undo;
  Ok (self, OpUndo undo).

Fixpoint undo_counts `{!HashOrder} (undo_map : UndoMap) (edit_ids : list Lamport) (counts : list (Lamport * N)) :
    outcome (list (Lamport * N)) :=
  match edit_ids with
  | [] => Ok counts
  | edit_id :: edit_ids =>
      n ← undo_count undo_map edit_id;
      undo_counts undo_map edit_ids (hash_insert counts edit_id (u32_saturating_add n 1))
  end.

Definition undo_or_redo `{!UnstableSort, !HashOrder} (self : buffer) (transaction : Transaction) : outcome (buffer * Operation) :=
  counts ← undo_counts (bs_undo_map (b_snapshot self)) (tx_edit_ids transaction) [];
  '(self, operation) ← undo_operations self counts;
  history ← history_push (b_history self) operation;
  Ok (mkBuffer (b_snapshot self) history (b_lamport_clock self) (b_subscriptions self), operation).

Definition set_history (self : buffer) (history : History rope) : buffer :=
  mkBuffer (b_snapshot self) history (b_lamport_clock self) (b_subscriptions self).

Definition buffer_undo `{!UnstableSort, !HashOrder} (self : buffer) : outcome (buffer * option (TransactionId * Operation)) :=
  '(history, entry) ← pop_undo (b_history self);
  match entry with
  | Some entry =>
      '(self, op) ← undo_or_redo (set_history self history) (he_transaction entry);
      Ok (self, Some (tx_id (he_transaction entry), op))
  | None => Ok (set_history self history, None)
  end.

Definition buffer_redo `{!UnstableSort, !HashOrder} (self : buffer) : outcome (buffer * option (TransactionId * Operation)) :=
  '(history, entry) ← pop_redo (b_history self);
  match entry with
  | Some entry =>
      '(self, op) ← undo_or_redo (set_history self history) (he_transaction entry);
      Ok (self, Some (tx_id (he_transaction entry), op))
  | None => Ok (set_history self history, None)
  end.

Definition undo_transaction `{!UnstableSort, !HashOrder} (self : buffer) (transaction_id : TransactionId) :
    outcome (buffer * option Operation) :=
  '(history, entry) ← remove_from_undo (b_history self) transaction_id;
  match entry with
  | Some entry =>
      '(self, op) ← undo_or_redo (set_history self history) (he_transaction entry);
      Ok (self, Some op)
  | None => Ok (set_history self history, None)
  end.

Fixpoint undo_or_redo_all `{!UnstableSort, !HashOrder} (self : buffer) (entries : list HistoryEntry) : outcome (buffer * list Operation) :=
  match entries with
  | [] => Ok (self, [])
  | entry :: entries =>
      '(self, op) ← undo_or_redo self (he_transaction entry);
      '(self, ops) ← undo_or_redo_all self entries;
      Ok (self, op :: ops)
  end.

Definition undo_to_transaction `{!UnstableSort, !HashOrder} (self : buffer) (transaction_id : TransactionId) :
    outcome (buffer * list Operation) :=
  '(history, entries) ← remove_from_undo_until (b_history self) transaction_id;
  undo_or_redo_all (set_history self history) entries.

Definition redo_to_transaction `{!UnstableSort, !HashOrder} (self : buffer) (transaction_id : TransactionId) :
    outcome (buffer * list Operation) :=
  '(history, entries) ← remove_from_redo (b_history self) transaction_id;
  undo_or_redo_all (set_history self history) entries.

(** ** Transactions *)
Definition peek_undo_stack (self : buffer) : option HistoryEntry := last (undo_stack (b_history self)).
Definition peek_redo_stack (self : buffer) : option HistoryEntry := last (redo_stack (b_history self)).

Definition buffer_finalize_last_transaction (self : buffer) : buffer * option Transaction :=
  let '(history, transaction) := finalize_last_transaction (b_history self) in
  (set_history self history, transaction).

Definition group_until_transaction (self : buffer) (transaction_id : TransactionId) : outcome buffer :=
  history ← group_until (b_history self) transaction_id;
  Ok (set_history self history).

Definition forget_transaction (self : buffer) (transaction_id : TransactionId) : outcome (buffer * option Transaction) :=
  '(history, transaction) ← forget (b_history self) transaction_id;
  Ok (set_history self history, transaction).

Definition buffer_merge_transactions (self : buffer) (transaction destination : TransactionId) : outcome buffer :=
  history ← merge_transactions (b_history self) transaction destination;
  Ok (set_history self history).

Definition buffer_push_transaction (self : buffer) (transaction : Transaction) (now : Instant) : outcome buffer :=
  history ← push_transaction (b_history self) transaction now;
  Ok (set_history self history).

Definition buffer_push_empty_transaction (self : buffer) (now : Instant) : outcome (buffer * TransactionId) :=
  '(history, clock, id) ← push_empty_transaction (b_history self) (bs_version (b_snapshot self)) now (b_lamport_clock self);
  Ok (mkBuffer (b_snapshot self) history clock (b_subscriptions self), id).

Definition set_group_interval (self : buffer) (interval : Duration) : buffer :=
  let h := b_history self in
  set_history self (mkHistory (base_text h) (operations h) (undo_stack h) (redo_stack h) (transaction_depth h) interval).
End undo.
Arguments UndoState : clear implicits.
