(* ===== verification/FragmentIds.v ===== *)
(** * Which fragments an undo looks at

    [fragment_ids_for_edits] returns the locators of fragments of the buffer, in order and
    each once, among them those of every fragment that a slice of the edits covers. *)

From stdpp Require Import sets.
From S2P Require Import Prelude Ord Clock SumTree SumTreeFacts SeekSpec Cursor CursorFacts SeekFacts Locator Patch Subscription Bitmap Utf8 Point TextSummary Chunk Rope KeyedTree KeyedFacts TreeMap TreeMapFacts UndoMap History Fragments BufferEdit EditIndex EditFacts LocalEdit Buffer BufferFacts Anchor AnchorFacts BufferUndo.
Local Open Scope N_scope.

#[export] Instance Reverse_ord_laws : OrdLaws Reverse.
Proof.
  split.
  - intros [a] [b]. unfold cmp, Reverse_ord. rewrite cmp_eq_iff. cbn. split; [by intros ->|by intros [= ->]].
  - intros [a] [b]. unfold cmp, Reverse_ord. apply cmp_opp.
  - intros [a] [b] [c]. unfold cmp, Reverse_ord. cbn. intros H1 H2. by eapply cmp_lt_trans.
Qed.

(** ** The slices of an edit *)
Lemma in_set_items sl s : map_ok sl → in_set sl s ↔ s ∈ me_key <$> tree_items sl.
Proof.
  intros [_ Hs]. unfold in_set, denote. rewrite list_elem_of_fmap. split.
  - destruct (klookup (mkey s) (tree_items sl)) as [x|] eqn:E; [|done]. intros _. exists x. split.
    + symmetry. by eapply klookup_mkey.
    + apply (klookup_elem _ x Hs). rewrite (klookup_key _ _ _ E). exact E.
  - intros (x & -> & Hx). apply (klookup_elem _ x Hs) in Hx. change (item_key x) with (mkey (me_key x)) in Hx. rewrite Hx. cbn. by destruct (me_value x).
Qed.

Lemma set_keys_sorted (its : list (MapEntry InsertionSlice unit)) :
  keys_sorted its → StronglySorted (fun a b => cmp a b = Lt) (me_key <$> its).
Proof. induction 1 as [|x l _ IH Hx]; cbn; constructor; [done|]. apply Forall_fmap. eapply Forall_impl; [exact Hx|]. done. Qed.

(** On a sequence ordered by edits that starts at an edit, [take_while] takes all of it. *)
Lemma take_while_edit e (l : list InsertionSlice) s :
  StronglySorted (fun a b => cmp a b = Lt) l → Forall (fun s => cmp e (is_edit_id s) ≠ Gt) l →
  s ∈ take_while (fun s => eqb (is_edit_id s) e) l ↔ s ∈ l ∧ is_edit_id s = e.
Proof.
  induction 1 as [|x l Hs IH Hx]; cbn; intros Hge; [split; [by intros ?%not_elem_of_nil|by intros [?%not_elem_of_nil _]]|].
  apply Forall_cons in Hge as [Hxe Hge]. rewrite elem_of_cons. destruct (eqb (is_edit_id x) e) eqn:E.
  - apply eqb_eq in E. rewrite elem_of_cons, IH by done. split; [intros [->|[? ?]]; auto|intros [[->|?] ?]; auto].
  - split; [by intros ?%not_elem_of_nil|]. intros [[->|Hin] Es]; [by rewrite Es, eqb_refl in E|]. exfalso.
    rewrite Forall_forall in Hx. specialize (Hx s Hin). unfold cmp at 1, InsertionSlice_ord in Hx. rewrite Es in Hx.
    rewrite cmp_opp in Hx. unfold eqb in E. rewrite cmp_opp in E. destruct (cmp e (is_edit_id x)); done.
Qed.

Lemma slice_bound e s : cmp s (mkInsertionSlice e lamport_MIN (mkRange 0 0)) ≠ Lt ↔ cmp e (is_edit_id s) ≠ Gt.
Proof.
  unfold cmp at 1, InsertionSlice_ord. cbn. rewrite (cmp_opp e (is_edit_id s)).
  destruct (cmp e (is_edit_id s)); cbn; [|done|done]. split; [done|intros _].
  pose proof (lamport_MIN_le (is_insertion_id s)) as Hm. rewrite cmp_opp. destruct (cmp lamport_MIN (is_insertion_id s)); cbn; [|done|done].
  destruct (r_start (is_range s)); [|done]. by destruct (r_end (is_range s)).
Qed.

Lemma slices_for_edit_spec sl e :
  map_ok sl → ∃ l, slices_for_edit sl e = Ok l ∧ ∀ s, s ∈ l ↔ in_set sl s ∧ is_edit_id s = e.
Proof.
  intros Hm. pose proof Hm as [Hw Hs]. unfold slices_for_edit, set_iter_from. rewrite map_iter_from_spec by done. cbn [mbind outcome_bind].
  eexists. split; [done|]. intros s. set (k := mkInsertionSlice e _ _).
  change (map fst (entry_pair <$> from_on k (tree_items sl))) with (fst <$> (entry_pair <$> from_on k (tree_items sl))).
  rewrite <-list_fmap_compose. change (fst ∘ entry_pair) with (me_key (K:=InsertionSlice) (V:=unit)).
  assert (Hin : ∀ s, s ∈ me_key <$> from_on k (tree_items sl) ↔ in_set sl s ∧ cmp e (is_edit_id s) ≠ Gt).
  { intros x. rewrite in_set_items by done. rewrite <-slice_bound. fold k. unfold from_on. rewrite !list_elem_of_fmap.
    split.
    - intros (y & -> & Hy). apply list_elem_of_In, filter_In in Hy as [Hy Hc]. split; [exists y; split; [done|by apply list_elem_of_In]|].
      unfold ltb in Hc. by destruct (cmp (me_key y) k).
    - intros [(y & -> & Hy) Hc]. exists y. split; [done|]. apply list_elem_of_In, filter_In. split; [by apply list_elem_of_In|].
      unfold ltb. by destruct (cmp (me_key y) k). }
  rewrite take_while_edit.
  - rewrite Hin. split; [tauto|]. intros [? <-]. by rewrite cmp_refl.
  - apply set_keys_sorted. by apply keys_sorted_filter.
  - apply Forall_forall. intros x Hx. by apply Hin in Hx as [_ ?].
Qed.

(** ** The walk over the index *)
Lemma insertion_key_lt t o t' o' :
  cmp (mkInsertionKey t o) (mkInsertionKey t' o') = Lt ↔ cmp t t' = Lt ∨ t = t' ∧ o < o'.
Proof.
  unfold cmp at 1, InsertionFragmentKey_ord, cmp at 1, prod_ord. cbn. destruct (cmp t t') eqn:E; cbn.
  - apply cmp_eq in E as ->. change (cmp o o') with (o ?= o')%N. split; [intros H; right; by split|intros [H|[_ ?]]; [|done]]. by destruct (cmp_lt_irrefl t').
  - split; auto.
  - split; [done|]. intros [?|[-> _]]; [done|]. by rewrite cmp_refl in E.
Qed.
Lemma insertion_key_le t o t' o' :
  cmp (mkInsertionKey t o) (mkInsertionKey t' o') ≠ Gt ↔ cmp t t' = Lt ∨ t = t' ∧ o <= o'.
Proof.
  rewrite cmp_gt_lt, insertion_key_lt, (cmp_opp t t'). destruct (cmp t t') eqn:E; cbn.
  - apply cmp_eq in E as ->. split.
    + intros H. right. split; [done|]. destruct (N.le_gt_cases o o'); [done|]. by destruct H; right.
    + intros [?|[_ Ho]] [?|[_ Ho']]; [done..|lia].
  - split; [auto|]. intros _ [?|[-> _]]; [done|]. by destruct (cmp_lt_irrefl t).
  - split; [intros H; by destruct H; left|]. intros [?|[-> _]]; [done|]. by rewrite cmp_refl in E.
Qed.

Abbreviation entry_key x := (mkInsertionKey (if_timestamp x) (if_split_offset x)).

(** In a sorted sequence no key is after the last one. *)
Lemma last_position_le (l : list InsertionFragment) x : keys_sorted l → x ∈ l → ∃ y, last l = Some y ∧ cmp (entry_key x) (entry_key y) ≠ Gt.
Proof.
  intros Hs Hx. destruct (snoc_case l) as [->|(k & y & ->)]; [by apply not_elem_of_nil in Hx|]. exists y. split; [apply last_snoc|].
  apply keys_sorted_app in Hs as (_ & _ & Hk). apply elem_of_app in Hx as [Hx|Hx].
  - rewrite Forall_forall in Hk. specialize (Hk x Hx). rewrite Forall_singleton in Hk. change (cmp (entry_key x) (entry_key y) = Lt) in Hk. by rewrite Hk.
  - apply list_elem_of_singleton in Hx as ->. by rewrite cmp_refl.
Qed.

Section walk.
Context (I : insertion_tree) (HI : map_wf tt I) (Hsorted : keys_sorted (tree_items I)).
Abbreviation insertion_cursor := (Cursor InsertionFragment InsertionFragmentKey InsertionFragmentKey).
Implicit Types (c : insertion_cursor) (s : InsertionSlice) (before after taken : list InsertionFragment).

Definition slice_key s : InsertionFragmentKey := mkInsertionKey (is_insertion_id s) (r_start (is_range s)).

(** The cursor has passed the entries [before] and taken [taken] of them: all those at or
    after [low], the key of the last slice.  None belongs to a later insertion. *)
Record ids_inv (low : InsertionFragmentKey) c before after taken : Prop := {
  ii_tree : c_tree c = I;
  ii_ready : seek_ready tt MAP_DEPTH c before after;
  ii_items : tree_items I = before ++ after;
  ii_taken : taken `sublist_of` before;
  ii_passed : ∀ x, x ∈ before → cmp low (entry_key x) ≠ Gt → x ∈ taken;
  ii_bound : Forall (fun x => cmp (if_timestamp x) (ik_timestamp low) ≠ Gt) before
}.

Lemma entries_sorted before after : tree_items I = before ++ after →
  keys_sorted before ∧ keys_sorted after ∧ ∀ x y, x ∈ before → y ∈ after → cmp (entry_key x) (entry_key y) = Lt.
Proof using Hsorted.
  intros E. rewrite E in Hsorted. apply keys_sorted_app in Hsorted as (Hb & Ha & Hab). split_and!; [done|done|].
  intros x y Hx Hy. rewrite Forall_forall in Hab. specialize (Hab x Hx). rewrite Forall_forall in Hab. by apply Hab.
Qed.

(** [seek_forward] to a key, with [Bias::Left]. *)
Lemma seek_entry c before after k :
  c_tree c = I → seek_ready tt MAP_DEPTH c before after → tree_items I = before ++ after →
  Forall (fun x => cmp (entry_key x) k ≠ Gt) before →
  ok_with (cursor_seek_forward tt k Left c) (fun r => ∃ l rest, after = l ++ rest ∧ c_tree r.1 = I ∧
    cursor_at tt MAP_DEPTH r.1 (before ++ l) rest ∧ Forall (fun x => cmp (entry_key x) k = Lt) l ∧
    Forall (fun x => cmp k (entry_key x) ≠ Gt) rest).
Proof using All.
  intros Ec Hr Ei Hk. destruct (entries_sorted _ _ Ei) as (Hsb & Hsa & _).
  assert (Hle : key_le (dim_items tt (dim_zero tt) before) after).
  { rewrite Ei in Hsorted. exact (key_le_app tt _ before after Hsorted (key_le_zero tt _)). }
  eapply ok_with_mono.
  { apply (cursor_seek_forward_spec tt MAP_DEPTH k Left c before after); rewrite ?Ec; [apply HI|by apply (map_wf_height tt)|done| |].
    - exact (key_ge tt k before Hsb Hk).
    - exact (key_seekable tt k Left _ after Hsa Hle). }
  intros [c' f] (l & rest & (Ec' & Ea & Hsc & Hat) & _). cbn [fst] in *. exists l, rest. rewrite Ec' in *.
  pose proof (scan_left tt k _ after Hsa Hle) as Hsl. change (scan tt k Left ?p after) with (scan (SeekTarget0:=insertion_target) tt k Left p after) in Hsl.
  rewrite Hsc in Hsl. cbn in Hsl. split_and!; [done|done|done|..].
  - pose proof (keys_split k _ Hsa) as Hsp. rewrite <-Hsl, Ea in Hsp. apply app_inv_tail in Hsp. rewrite Hsp. apply lts_Forall.
  - rewrite Hsl. apply Forall_app. split.
    + destruct (klookup k after) as [x|] eqn:E; constructor; [|done]. apply klookup_key in E. change (entry_key x = k) in E. by rewrite E, cmp_refl.
    + eapply Forall_impl; [apply gts_Forall|]. intros x Hx. change (cmp k (entry_key x) = Lt) in Hx. by rewrite Hx.
Qed.

(** The entries of an insertion that start before the end of a slice are taken. *)
Lemma take_ids_spec fuel c before after t e ids :
  c_tree c = I → cursor_at tt MAP_DEPTH c before after → (length after < fuel)%nat →
  ok_with (take_fragment_ids fuel c t e ids) (fun r => ∃ l rest, after = l ++ rest ∧ c_tree r.1 = I ∧
    cursor_at tt MAP_DEPTH r.1 (before ++ l) rest ∧ r.2 = ids ++ (if_fragment_id <$> l) ∧
    Forall (fun x => if_timestamp x = t ∧ if_split_offset x < e) l ∧
    (∀ y r, rest = y :: r → if_timestamp y ≠ t ∨ e <= if_split_offset y)).
Proof using HI.
  revert c before after ids. induction fuel as [|fuel IH]; intros c before after ids Ec Hc Hl; [lia|].
  cbn [take_fragment_ids]. rewrite (cursor_item_spec _ _ _ _ _ Hc). cbn [mbind outcome_bind].
  assert (Hstop : (∀ y r, after = y :: r → if_timestamp y ≠ t ∨ e <= if_split_offset y) →
    ok_with (Ok (c, ids)) (fun r => ∃ l rest, after = l ++ rest ∧ c_tree r.1 = I ∧
      cursor_at tt MAP_DEPTH r.1 (before ++ l) rest ∧ r.2 = ids ++ (if_fragment_id <$> l) ∧
      Forall (fun x => if_timestamp x = t ∧ if_split_offset x < e) l ∧
      (∀ y r, rest = y :: r → if_timestamp y ≠ t ∨ e <= if_split_offset y))).
  { intros Hy. exists [], after. cbn. rewrite !app_nil_r. by split_and!. }
  destruct after as [|x after]; [by apply Hstop|]. cbn [head].
  destruct (eqb (if_timestamp x) t) eqn:E1; cbn [negb orb]; [|apply Hstop; intros ? ? [= <- <-]; left; intros E; by rewrite E, eqb_refl in E1].
  destruct (N.leb_spec e (if_split_offset x)) as [E2|E2]; [apply Hstop; intros ? ? [= <- <-]; by right|].
  ok_bind (cursor_next_at tt MAP_DEPTH c before (x :: after)); rewrite ?Ec; [apply HI|by apply (map_wf_height tt)|done|].
  intros c' [Ec' Hc']. cbn [take drop] in Hc'. rewrite take_0, drop_0 in Hc'.
  eapply ok_with_mono; [apply (IH c' _ after _ Ec' Hc'); cbn in Hl; lia|].
  intros [c2 ids2] (l & rest & -> & Ec2 & Hc2 & Ei & Hf & Hy). cbn [fst snd] in *. exists (x :: l), rest. rewrite <-app_assoc in Hc2.
  split_and!; [done|done|done|by rewrite Ei, <-app_assoc| |done]. constructor; [|done]. split; [by apply eqb_eq|done].
Qed.

(** Where the cursor stands before the entries of a slice are taken. *)
Definition positioned s c before after taken : Prop :=
  c_tree c = I ∧ cursor_at tt MAP_DEPTH c before after ∧ tree_items I = before ++ after ∧ taken `sublist_of` before ∧
  (∀ x, x ∈ before → cmp (slice_key s) (entry_key x) ≠ Gt → x ∈ taken) ∧
  Forall (fun x => cmp (if_timestamp x) (is_insertion_id s) ≠ Gt) before ∧
  Forall (fun x => cmp (is_insertion_id s) (if_timestamp x) ≠ Gt) after.

Lemma start_position c before after :
  seek_ready tt MAP_DEPTH c before after → tree_items I = before ++ after →
  cursor_start c = default (mkInsertionKey lamport_MIN 0) ((fun x => entry_key x) <$> last before).
Proof using Hsorted.
  intros Hr Ei. destruct (entries_sorted _ _ Ei) as (Hsb & _ & _). unfold cursor_start.
  assert (Hp : c_position c = dim_items tt (dim_zero tt) before) by (by destruct Hr as [(_ & (_ & -> & _) & -> & _)|(_ & _ & -> & _)]).
  rewrite Hp. rewrite (dim_items_keys tt) by (done || apply (key_le_zero tt)). done.
Qed.

Lemma slice_position low c before after taken s :
  ids_inv low c before after taken → cmp low (slice_key s) ≠ Gt → 0 < value (is_insertion_id s) →
  ok_with (if negb (eqb (is_insertion_id s) (ik_timestamp (cursor_start c))) || (ik_split_offset (cursor_start c) <? r_start (is_range s))
           then '(c, _) ← cursor_seek_forward tt (slice_key s) Left c; Ok c else Ok c)
    (fun c' => ∃ before' after', positioned s c' before' after' taken).
Proof using All.
  intros [Et Hr Ei Hsub Hpass Hb] Hlow Hpos. rewrite (start_position _ _ _ Hr Ei).
  destruct (entries_sorted _ _ Ei) as (Hsb & _ & Hab). destruct low as [tl ol]. unfold slice_key in Hlow. cbn [ik_timestamp] in Hb.
  assert (Htl : cmp tl (is_insertion_id s) ≠ Gt).
  { apply insertion_key_le in Hlow as [->|[-> _]]; [done|]. by rewrite cmp_refl. }
  assert (Hbt : Forall (fun x => cmp (if_timestamp x) (is_insertion_id s) ≠ Gt) before).
  { eapply Forall_impl; [exact Hb|]. cbn. intros x Hx. by eapply cmp_le_trans. }
  assert (Hold : ∀ x, x ∈ before → cmp (slice_key s) (entry_key x) ≠ Gt → x ∈ taken).
  { intros x Hx Hk. apply Hpass; [done|]. by eapply cmp_le_trans. }
  destruct (negb _ || _) eqn:Econd.
  - apply ok_with_bind. eapply ok_with_mono; [apply (seek_entry c before after (slice_key s) Et Hr Ei)|].
    + apply Forall_forall. intros x Hx. apply insertion_key_le. rewrite Forall_forall in Hbt. specialize (Hbt x Hx).
      destruct (cmp (if_timestamp x) (is_insertion_id s)) eqn:E; [|by left|done]. apply cmp_eq in E. right. split; [done|].
      destruct (last_position_le before x Hsb Hx) as (y & Ey & Hxy). rewrite Ey in Econd. cbn in Econd.
      assert (Hyt : cmp (if_timestamp y) (is_insertion_id s) ≠ Gt).
      { rewrite Forall_forall in Hb. eapply cmp_le_trans; [|exact Htl]. apply Hb. by apply last_Some_elem_of. }
      apply insertion_key_le in Hxy as [Hlt|[Ets Hoff]].
      * rewrite E in Hlt. rewrite cmp_opp, Hlt in Hyt. done.
      * rewrite <-Ets, E, eqb_refl in Econd. cbn in Econd. apply N.ltb_lt in Econd. lia.
    + intros [c' f] (l & rest & -> & Ec' & Hat & Hl & Hrest). cbn [fst ok_with] in *. exists (before ++ l), rest.
      split_and!; [done|done|by rewrite <-app_assoc|by apply sublist_inserts_r| | |].
      * intros x [Hx|Hx]%elem_of_app Hk; [by apply Hold|]. rewrite Forall_forall in Hl. specialize (Hl x Hx). by rewrite cmp_opp, Hl in Hk.
      * apply Forall_app. split; [done|]. eapply Forall_impl; [exact Hl|]. cbn. intros x Hx. unfold slice_key in Hx.
        apply insertion_key_lt in Hx as [->|[-> _]]; [done|]. by rewrite cmp_refl.
      * eapply Forall_impl; [exact Hrest|]. cbn. intros x Hx. unfold slice_key in Hx.
        apply insertion_key_le in Hx as [->|[-> _]]; [done|]. by rewrite cmp_refl.
  - apply orb_false_iff in Econd as [E1 E2]. apply negb_false_iff, eqb_eq in E1. apply N.ltb_ge in E2. cbn [ok_with].
    destruct (last before) as [y|] eqn:Ey; cbn in E1, E2; [|rewrite E1 in Hpos; cbn in Hpos; lia].
    destruct Hr as [(_ & _ & -> & _)|Hat]; [done|]. exists before, after. split_and!; try done.
    apply Forall_forall. intros z Hz. specialize (Hab y z ltac:(by apply last_Some_elem_of) Hz). rewrite E1.
    apply insertion_key_lt in Hab as [->|[-> _]]; [done|]. by rewrite cmp_refl.
Qed.

(** The entry starts within the slice. *)
Definition within s (x : InsertionFragment) : Prop :=
  if_timestamp x = is_insertion_id s ∧ r_start (is_range s) <= if_split_offset x < r_end (is_range s).

Lemma slice_ids_spec low c before after taken s :
  ids_inv low c before after taken → cmp low (slice_key s) ≠ Gt → 0 < value (is_insertion_id s) →
  ok_with (slice_fragment_ids (cost I) c s (if_fragment_id <$> taken)) (fun r => ∃ before' after' taken',
    ids_inv (slice_key s) r.1 before' after' taken' ∧ r.2 = if_fragment_id <$> taken' ∧ taken ⊆ taken' ∧
    ∀ x, x ∈ tree_items I → within s x → x ∈ taken').
Proof using All.
  intros Hinv Hlow Hpos. unfold slice_fragment_ids. apply ok_with_bind.
  eapply ok_with_mono; [exact (slice_position low c before after taken s Hinv Hlow Hpos)|].
  intros c1 (b1 & a1 & Ec1 & Hat1 & Ei1 & Hsub & Hold & Hb1 & Ha1).
  eapply ok_with_mono; [apply (take_ids_spec (cost I) c1 b1 a1 _ _ _ Ec1 Hat1)|].
  { pose proof (cost_items I) as Hc. rewrite Ei1, length_app in Hc. lia. }
  intros [c2 ids2] (l & rest & -> & Ec2 & Hat2 & Eids & Hl & Hrest). cbn [fst snd] in *.
  exists (b1 ++ l), rest, (taken ++ l). rewrite app_assoc in Ei1. split_and!.
  - split; [done|by right|done|by apply sublist_app| |].
    + intros x [Hx|Hx]%elem_of_app Hk; apply elem_of_app; [left; by apply Hold|by right].
    + apply Forall_app. split; [done|]. eapply Forall_impl; [exact Hl|]. cbn. intros x [-> _]. by rewrite cmp_refl.
  - by rewrite Eids, fmap_app.
  - intros x Hx. apply elem_of_app. by left.
  - intros x Hx [Et [Hs He]]. rewrite Ei1 in Hx. apply elem_of_app in Hx as [[Hx|Hx]%elem_of_app|Hx]; apply elem_of_app; [left|by right|].
    + apply Hold; [done|]. apply insertion_key_le. right. by rewrite Et.
    + exfalso. destruct rest as [|y r]; [by apply not_elem_of_nil in Hx|]. specialize (Hrest y r eq_refl).
      apply Forall_app in Ha1 as [_ [Hy _]%Forall_cons]. destruct (entries_sorted _ _ Ei1) as (_ & [_ Hsr]%keys_sorted_cons & _).
      assert (Hyx : x = y ∨ cmp (entry_key y) (entry_key x) = Lt).
      { apply elem_of_cons in Hx as [->|Hx]; [by left|]. right. rewrite Forall_forall in Hsr. by apply (Hsr x Hx). }
      destruct Hyx as [->|Hyx]; [destruct Hrest; [done|lia]|]. apply insertion_key_lt in Hyx as [Hyx|[Hyx Ho]]; rewrite Et in Hyx.
      * by rewrite cmp_opp, Hyx in Hy.
      * destruct Hrest; [done|lia].
Qed.

Lemma slices_ids_spec ss low c before after taken :
  ids_inv low c before after taken → StronglySorted (fun s s' => cmp (slice_key s) (slice_key s') ≠ Gt) ss →
  Forall (fun s => cmp low (slice_key s) ≠ Gt) ss → Forall (fun s => 0 < value (is_insertion_id s)) ss →
  ok_with (slices_fragment_ids (cost I) c ss (if_fragment_id <$> taken)) (fun ids => ∃ taken',
    ids = if_fragment_id <$> taken' ∧ taken' `sublist_of` tree_items I ∧ taken ⊆ taken' ∧
    ∀ s x, s ∈ ss → x ∈ tree_items I → within s x → x ∈ taken').
Proof using All.
  revert low c before after taken. induction ss as [|s ss IH]; intros low c before after taken Hinv Hss Hlow Hpos.
  { cbn. exists taken. split_and!; [done| |done|by intros ? ? ?%not_elem_of_nil].
    rewrite (ii_items _ _ _ _ _ Hinv). apply sublist_inserts_r, Hinv. }
  apply Forall_cons in Hlow as [Hlow _]. apply Forall_cons in Hpos as [Hp Hpos]. inversion Hss as [|? ? Hss' Hs]; subst. cbn [slices_fragment_ids].
  ok_bind (slice_ids_spec low c before after taken s Hinv Hlow Hp). intros [c' ids'] (b' & a' & taken' & Hinv' & E & Hsub & Hall). cbn [fst snd] in *. subst ids'.
  eapply ok_with_mono; [by apply (IH _ _ _ _ _ Hinv' Hss' Hs Hpos)|]. intros ids (tk & -> & Hsl & Hsub' & Hall').
  exists tk. split_and!; [done|done|by etrans|]. intros s' x [->|Hin]%elem_of_cons Hx Hw; [by apply Hsub', (Hall x)|by eapply Hall'].
Qed.
End walk.

(** ** [fragment_ids_for_edits] *)
Lemma map_outcome_slices sl es :
  map_ok sl → ∃ ls, map_outcome (slices_for_edit sl) es = Ok ls ∧ ∀ s, s ∈ concat ls ↔ in_set sl s ∧ is_edit_id s ∈ es.
Proof.
  intros Hm. induction es as [|e es (ls & E & IH)].
  { exists []. split; [done|]. intros s. cbn. split; [by intros ?%not_elem_of_nil|by intros [_ ?%not_elem_of_nil]]. }
  destruct (slices_for_edit_spec sl e Hm) as (l & El & Hl). exists (l :: ls). cbn [map_outcome]. rewrite El, E. split; [done|].
  intros s. cbn [concat]. rewrite elem_of_app, Hl, IH, elem_of_cons. tauto.
Qed.

Lemma sort_key_le s s' : cmp (slice_sort_key s) (slice_sort_key s') ≠ Gt → cmp (slice_key s) (slice_key s') ≠ Gt.
Proof.
  unfold slice_key, slice_sort_key. rewrite insertion_key_le. unfold cmp at 1, prod_ord, cmp at 2, prod_ord. cbn.
  destruct (cmp (is_insertion_id s) (is_insertion_id s')) eqn:E; [|by left|done]. apply cmp_eq in E as ->.
  change (cmp (r_start (is_range s)) (r_start (is_range s'))) with (r_start (is_range s) ?= r_start (is_range s'))%N.
  intros H. right. split; [done|]. destruct (N.compare_spec (r_start (is_range s)) (r_start (is_range s'))); [lia|lia|done].
Qed.

Lemma sorted_strict (l : list Locator) : StronglySorted (fun x y => cmp x y ≠ Gt) l → NoDup l → StronglySorted locator_lt l.
Proof.
  induction 1 as [|x l _ IH Hx]; [constructor|]. intros [Hn Hnd]%NoDup_cons. constructor; [by apply IH|].
  rewrite Forall_forall in *. intros y Hy. specialize (Hx y Hy). unfold locator_lt. destruct (cmp x y) eqn:E; [|done|done].
  apply cmp_eq in E as ->. done.
Qed.

Lemma StronglySorted_mono {A} (R S : A → A → Prop) l : (∀ x y, R x y → S x y) → StronglySorted R l → StronglySorted S l.
Proof. intros H. induction 1 as [|x l _ IH Hx]; constructor; [done|]. eapply Forall_impl; [exact Hx|]. apply H. Qed.

Lemma fragment_ids_spec `{!UnstableSort, !UnstableSortLaws} (s : BufferSnapshot (list N) (list N)) fs es :
  index_ok fs (bs_insertions s) → map_ok (bs_insertion_slices s) → ids_ok fs → Forall (fun f => 0 < f_len f) fs →
  (∀ sl, in_set (bs_insertion_slices s) sl → 0 < value (is_insertion_id sl)) →
  ok_with (fragment_ids_for_edits s es) (fun ids => StronglySorted locator_lt ids ∧ ids ⊆ f_id <$> fs ∧
    ∀ f e sl, f ∈ fs → e ∈ es → in_set (bs_insertion_slices s) sl → covers sl e f → f_id f ∈ ids).
Proof.
  intros [Hw Hs Hp] Hm Hid Hlen Hpos. unfold fragment_ids_for_edits. destruct (map_outcome_slices _ es Hm) as (ls & -> & Hls). cbn [mbind outcome_bind].
  pose proof (sort_permutation slice_sort_key (concat ls)) as Hperm. pose proof (sort_sorted slice_sort_key (concat ls)) as Hsort.
  set (ss := sort_unstable_by_key slice_sort_key (concat ls)) in *.
  assert (Hss : ∀ sl, sl ∈ ss ↔ in_set (bs_insertion_slices s) sl ∧ is_edit_id sl ∈ es) by (intros sl; by rewrite Hperm).
  change (@nil Locator) with (if_fragment_id <$> (@nil InsertionFragment)).
  ok_bind (slices_ids_spec (bs_insertions s) Hw Hs ss (mkInsertionKey lamport_MIN 0) (cursor_new tt (bs_insertions s)) [] (tree_items (bs_insertions s)) []).
  - split; [done|by left|done|done|by intros ? ?%not_elem_of_nil|constructor].
  - eapply StronglySorted_mono; [|exact Hsort]. intros x y. apply sort_key_le.
  - apply Forall_forall. intros sl _. apply insertion_key_le. pose proof (lamport_MIN_le (is_insertion_id sl)).
    destruct (cmp lamport_MIN (is_insertion_id sl)) eqn:E; [right|by left|done]. apply cmp_eq in E. split; [done|lia].
  - apply Forall_forall. intros sl Hsl. apply Hpos. by apply Hss in Hsl as [? _].
  - intros ids (tk & -> & Hsub & _ & Hall). cbn [ok_with].
    pose proof (sort_permutation (fun id : Locator => id) (if_fragment_id <$> tk)) as Hp2.
    pose proof (sort_sorted (fun id : Locator => id) (if_fragment_id <$> tk)) as Hs2.
    assert (Eids : if_fragment_id <$> tree_items (bs_insertions s) ≡ₚ f_id <$> fs) by (by rewrite Hp, <-list_fmap_compose).
    assert (Hnd : NoDup (f_id <$> fs)).
    { apply ids_sorted in Hid. clear -Hid. induction Hid as [|x l _ IH Hx]; constructor; [|done]. intros Hin. rewrite Forall_forall in Hx.
      by destruct (cmp_lt_irrefl x (Hx x Hin)). }
    split_and!.
    + apply sorted_strict; [exact Hs2|]. rewrite Hp2. eapply sublist_NoDup; [|by apply sublist_fmap]. by rewrite Eids.
    + intros id Hin. rewrite Hp2 in Hin. rewrite <-Eids. apply list_elem_of_fmap in Hin as (x & -> & Hx). apply list_elem_of_fmap_2. by eapply elem_of_sublist.
    + intros f e sl Hf He Hsl [C1 C2 C3 C4]. rewrite Hp2. change (f_id f) with (if_fragment_id (insertion_fragment_new f)). apply list_elem_of_fmap_2.
      apply (Hall sl); [apply Hss; by rewrite C1|rewrite Hp; by apply list_elem_of_fmap_2|]. split; [done|]. cbn. rewrite Forall_forall in Hlen.
      specialize (Hlen f Hf). lia.
Qed.
