(* ===== verification/UndoFacts.v ===== *)
(** * Facts about undoing: the walk of [apply_undo]

    The walk looks again at the fragments it is given and leaves the others alone.  The
    fragments, the two ropes and the patch agree all along. *)

From stdpp Require Import sets.
From S2P Require Import Prelude Ord Clock SumTree SumTreeFacts SeekSpec Cursor CursorFacts SeekFacts Locator Patch PatchFacts Subscription Bitmap Utf8 Point TextSummary Chunk ChunkFacts Rope RopeFacts RopeSlices KeyedTree KeyedFacts TreeMap TreeMapFacts UndoMap History Fragments BufferEdit EditIndex EditFacts LocalEdit Buffer BufferFacts Anchor AnchorFacts BufferUndo FragmentIds.
Local Open Scope N_scope.

Abbreviation located_cursor := (Cursor Fragment FragmentSummary (option Locator * N * unit)).
Abbreviation sundo := (UndoState (list N) (list N)).

#[export] Instance Locator_eq_dec : EqDecision Locator.
Proof. solve_decision. Defined.

(** A fragment that is looked at again. *)
Definition revisit (undos : UndoMap) (ts : Lamport) (ids : list Locator) (p : Fragment * list N) : Fragment * list N :=
  if decide (f_id p.1 ∈ ids) then (with_undo p.1 (visible_by undos p.1) ts, p.2) else p.

(** Where a seek by a locator stops. *)
Lemma locator_scan (id : Locator) (pre : list Fragment) f rest pos :
  f_id f = id → StronglySorted locator_lt (f_id <$> pre ++ f :: rest) →
  scan (D:=option Locator * N * unit) cx (Some id) Left pos (pre ++ f :: rest) = (ldims pos pre, f :: rest).
Proof.
  intros <- Hid. rewrite scan_past.
  - cbn [scan]. rewrite (locator_past (f_id f) _ (f_id f)) by done. by rewrite cmp_refl.
  - apply (located_past _ _ pre (fun b => b = true)). rewrite fmap_app in Hid. apply Forall_forall. intros g Hg.
    assert (Hlt : locator_lt (f_id g) (f_id f)).
    { eapply StronglySorted_app_1_elem_of; [exact Hid|by apply list_elem_of_fmap_2|by left]. }
    unfold locator_lt in Hlt. by rewrite cmp_opp, Hlt.
Qed.

Lemma locator_ge (id : Locator) (bs : list Fragment) :
  Forall (fun f => locator_lt (f_id f) id) bs → is_ge (target_cmp (D:=option Locator * N * unit) cx (Some id) (ldims (dim_zero cx) bs)) = true.
Proof.
  intros H. destruct (snoc_case bs) as [->|(l & f & ->)]; [done|]. rewrite dim_items_app. apply Forall_app in H as [_ [H _]%Forall_cons].
  change (is_ge (cmp id (f_id f)) = true). unfold locator_lt in H. by rewrite cmp_opp, H.
Qed.

Section walk.
Context (V D : srope) (F : fragment_tree) (undos : UndoMap) (ts : Lamport).
Context (HV : rope_wf V) (HD : rope_wf D) (HsV : RopeFacts.small (rope_text V)) (HsD : RopeFacts.small (rope_text D)).
Context (HF : tree_wf cx ROPE_DEPTH F) (HF_len : N.of_nat (length (tree_items F)) <= MAX_CHUNKS).
Context (Hundos : undo_map_ok undos) (Hsorted : StronglySorted locator_lt (f_id <$> tree_items F)).

(** [bps] has been passed and become [nps], [aps] lies ahead. *)
Record undo_inv (st : sundo) (bps aps nps : pieces) : Prop := {
  un_tree : c_tree (us_old_fragments st) = F;
  un_cursor : seek_ready cx ROPE_DEPTH (us_old_fragments st) bps.*1 aps.*1;
  un_old : tree_items F = bps.*1 ++ aps.*1;
  un_new : tree_wf cx ROPE_DEPTH (us_new_fragments st);
  un_items : tree_items (us_new_fragments st) = nps.*1;
  un_length : length nps = length bps;
  un_before_ok : Forall piece_ok bps;
  un_after_ok : Forall piece_ok aps;
  un_new_ok : Forall piece_ok nps;
  un_builder : builder_at V D (us_new_ropes st) (vis_text bps) (vis_text aps) (del_text bps) (del_text aps) (vis_text nps) (del_text nps);
  un_patch : reaches (us_edits st) (byte_len (vis_text bps)) (byte_len (vis_text nps))
}.

Lemma undo_room (nps bps aps : pieces) (l : list Fragment) :
  tree_items F = bps.*1 ++ aps.*1 → length nps = length bps → (length l <= length aps)%nat → SumTreeFacts.fits ROPE_DEPTH 255 (nps.*1 ++ l).
Proof using HF_len.
  intros E Hn Hl. apply room_fits. pose proof HF_len as Hlen. rewrite E, !length_app, !length_fmap in Hlen.
  rewrite length_app, length_fmap, Hn. lia.
Qed.

(** Whole fragments are taken over. *)
Lemma undo_append_spec st c bps lps rps nps s :
  undo_inv st bps (lps ++ rps) nps → tree_wf cx ROPE_DEPTH s → tree_items s = lps.*1 →
  c_tree c = F → cursor_at cx ROPE_DEPTH c (bps ++ lps).*1 rps.*1 →
  ok_with (undo_append (Sl:=list N) st c s) (fun st' => us_old_fragments st' = c ∧ undo_inv st' (bps ++ lps) rps (nps ++ lps)).
Proof using All.
  intros [H1 H2 H3 H4 H5 H6 H7 H8 H9 H10 H11] Hs His Ec Hc. apply Forall_app in H8 as [H8l H8r]. unfold undo_append.
  assert (Es : fs_text (summary s) = mkFragmentText (byte_len (vis_text lps)) (byte_len (del_text lps))).
  { rewrite (tree_wf_summary cx ROPE_DEPTH) by done. rewrite His.
    change (item_summary_of cx <$> ?l) with (fragment_summary <$> l). rewrite fragment_sum_text.
    destruct (pieces_len lps H8l) as [-> ->]. done. }
  rewrite !vis_text_app, !del_text_app in H10. rewrite Es.
  ok_bind (builder_append_spec V D HV HD HsV HsD (us_new_ropes st) _ (vis_text lps) _ _ (del_text lps) _ _ _ H10). intros b Hb.
  ok_bind (append_spec cx ROPE_DEPTH (us_new_fragments st) s); [done|done| |].
  { rewrite H5, His. eapply undo_room; [exact H3|done|]. rewrite length_fmap, length_app. lia. }
  intros t [Ht Eit]. cbn [ok_with]. split; [done|]. split; cbn; rewrite ?vis_text_app, ?del_text_app, ?fmap_app, ?length_app; try done.
  - right. by rewrite fmap_app in Hc.
  - by rewrite H3, fmap_app, app_assoc.
  - by rewrite Eit, H5, His.
  - by rewrite H6.
  - by apply Forall_app.
  - by apply Forall_app.
  - rewrite !byte_len_app. by apply reaches_shift.
Qed.

(** The patch when a fragment is pushed. *)
Lemma visibility_edit_spec p o n (was : bool) g m :
  reaches p o n → f_len g = byte_len m → m ≠ [] → o + byte_len m < 2 ^ 64 → n + byte_len m < 2 ^ 64 →
  reaches (visibility_edit p was g o n) (o + if was then byte_len m else 0) (n + if f_visible g then byte_len m else 0).
Proof.
  intros Hp Hl Hm Ho Hn. pose proof (nonempty_bytes m Hm). unfold visibility_edit. rewrite Hl.
  destruct was, (f_visible g); cbn [andb negb]; rewrite ?N.add_0_r; rewrite ?usize_add_exact by done.
  - by apply reaches_shift.
  - apply reaches_push; [done|lia|lia|lia].
  - apply reaches_push; [done|lia|lia|lia].
  - done.
Qed.

(** The text of a fragment moves to the side it is shown on now. *)
Lemma undo_builder b pv qv pd qd nps f x g :
  builder_at V D b pv (vis_text [(f, x)] ++ qv) pd (del_text [(f, x)] ++ qd) (vis_text nps) (del_text nps) → byte_len x = f_len g →
  ok_with (push_fragment (Sl:=list N) b g (f_visible f)) (fun b' =>
    builder_at V D b' (pv ++ vis_text [(f, x)]) qv (pd ++ del_text [(f, x)]) qd (vis_text (nps ++ [(g, x)])) (del_text (nps ++ [(g, x)]))).
Proof using All.
  intros Hb Hl. unfold push_fragment. rewrite <-Hl. destruct (texts_snoc nps g x) as [-> ->].
  unfold vis_text, del_text in *. cbn [flat_map fst snd] in *. destruct (f_visible f); rewrite ?app_nil_r in *.
  - by apply (builder_push_visible V D HV HD HsV HsD b pv x qv pd qd).
  - by apply (builder_push_deleted V D HV HD HsV HsD b pv qv pd x qd).
Qed.

Lemma vis_single f x : byte_len (vis_text [(f, x)]) = if f_visible f then byte_len x else 0.
Proof. unfold vis_text. cbn. rewrite app_nil_r. by destruct (f_visible f). Qed.

Lemma undo_small st bps aps nps : undo_inv st bps aps nps → byte_len (vis_text bps ++ vis_text aps) <= 2 ^ 31 ∧ byte_len (vis_text nps ++ vis_text aps ++ del_text aps) <= 2 ^ 31.
Proof using All.
  intros H. pose proof (un_builder _ _ _ _ H) as Hb. pose proof HsV as Hs. unfold RopeFacts.small in Hs.
  rewrite (rc_text _ _ _ _ (ba_visible _ _ _ _ _ _ _ _ _ Hb)) in Hs. pose proof (ba_small _ _ _ _ _ _ _ _ _ Hb) as Hn. unfold RopeFacts.small in Hn.
  rewrite !byte_len_app in *. lia.
Qed.

Lemma undo_fragment_spec st id bps lps f x rps nps :
  undo_inv st bps (lps ++ (f, x) :: rps) nps → f_id f = id →
  ok_with (undo_fragment (Sl:=list N) undos ts st id) (fun st' =>
    undo_inv st' ((bps ++ lps) ++ [(f, x)]) rps ((nps ++ lps) ++ [(with_undo f (visible_by undos f) ts, x)])).
Proof using All.
  intros H Hid. pose proof H as [H1 H2 H3 _ _ _ _ _ _ _ _]. unfold undo_fragment. rewrite fmap_app in H3. cbn [fmap list_fmap fst] in H3.
  pose proof Hsorted as Hso. rewrite H3, fmap_app in Hso. pose proof (StronglySorted_app_1_r _ _ _ Hso) as Hsa.
  assert (Hbs : Forall (fun g => locator_lt (f_id g) id) bps.*1).
  { apply Forall_forall. intros g Hg. eapply StronglySorted_app_1_elem_of; [exact Hso|by apply list_elem_of_fmap_2|].
    rewrite fmap_app, elem_of_app. right. cbn. rewrite Hid. by left. }
  ok_bind (cursor_slice_spec cx ROPE_DEPTH (Some id) Left (us_old_fragments st) bps.*1 (lps ++ (f, x) :: rps).*1); rewrite ?H1.
  { done. }
  { by apply fragment_height. }
  { done. }
  { by apply locator_ge. }
  { apply locator_seekable. rewrite fmap_app. exact Hsa. }
  { by apply room_fits. }
  intros [c s] (l & rest & (Ec & Ea & Hsc & Hc) & Hws & His). cbn [fst snd] in *. rewrite fmap_app in Ea, Hsc. cbn [fmap list_fmap fst] in Ea, Hsc.
  rewrite (locator_scan id lps.*1 f rps.*1) in Hsc by done. assert (Er : rest = f :: rps.*1) by congruence. subst rest. apply app_inv_tail in Ea as <-.
  rewrite <-fmap_app in Hc. ok_bind (undo_append_spec st c bps lps ((f, x) :: rps) nps s H Hws His); [congruence|done|].
  intros st1 [Ec1 HI]. pose proof HI as [G1 G2 G3 G4 G5 G6 G7 G8 G9 G10 G11]. rewrite Ec1 in *.
  rewrite (cursor_item_spec _ _ _ _ _ Hc). cbn [head fmap list_fmap mbind outcome_bind fst]. rewrite is_visible_spec by done. cbn [mbind outcome_bind].
  set (g := with_undo f (visible_by undos f) ts). apply Forall_cons in G8 as [[Hl Hpos] G8]. cbn in Hl, Hpos.
  assert (Hx : x ≠ []) by (intros ->; change (byte_len []) with 0 in Hl; lia).
  assert (Eold : (cursor_start c).1.2 = byte_len (vis_text (bps ++ lps))).
  { destruct Hc as (_ & _ & Hp & _). unfold cursor_start. rewrite Hp. change (dim_zero cx) with (@None Locator, 0, tt). rewrite located_dims.
    rewrite (proj1 (pieces_len _ G7)). lia. }
  assert (Enew : fts_visible (fs_text (summary (us_new_fragments st1))) = byte_len (vis_text (nps ++ lps))).
  { rewrite (tree_wf_summary cx ROPE_DEPTH) by done. rewrite G5. change (item_summary_of cx <$> ?k) with (fragment_summary <$> k).
    rewrite fragment_sum_text. symmetry. by apply pieces_len. }
  rewrite Eold, Enew. change ((f, x) :: rps) with ([(f, x)] ++ rps) in G10. rewrite (vis_text_app [(f, x)]), (del_text_app [(f, x)]) in G10.
  ok_bind (undo_builder (us_new_ropes st1) _ _ _ _ (nps ++ lps) f x g G10 Hl). intros b Hb.
  ok_bind (push_spec cx ROPE_DEPTH (us_new_fragments st1) g); [done|rewrite G5; eapply undo_room; [exact G3|done|cbn; lia]|]. intros t [Ht Eit].
  ok_bind (cursor_next_at cx ROPE_DEPTH c (bps ++ lps).*1 ((f, x) :: rps).*1); rewrite ?G1; [done|by apply fragment_height|done|].
  intros c' [Ec' Hc']. cbn [fmap list_fmap fst take drop] in Hc'. rewrite take_0, drop_0 in Hc'. cbn [ok_with].
  split; cbn; rewrite ?(vis_text_app (bps ++ lps) [(f, x)]), ?(del_text_app (bps ++ lps) [(f, x)]); try done.
  - right. by rewrite fmap_app.
  - rewrite G3, (fmap_app _ (bps ++ lps)), <-app_assoc. done.
  - by rewrite Eit, G5, (fmap_app _ (nps ++ lps)).
  - rewrite !(length_app (_ ++ _)), G6. done.
  - apply Forall_app. split; [done|]. by constructor.
  - apply Forall_app. split; [done|]. by constructor.
  - destruct (undo_small _ _ _ _ HI) as [S1 S2]. change ((f, x) :: rps) with ([(f, x)] ++ rps) in S1, S2.
    rewrite (vis_text_app [(f, x)]) in S1, S2. rewrite (del_text_app [(f, x)]) in S2.
    assert (Ex : byte_len (vis_text [(f, x)]) + byte_len (del_text [(f, x)]) = byte_len x).
    { unfold vis_text, del_text. cbn. rewrite !app_nil_r. destruct (f_visible f); change (byte_len []) with 0; lia. }
    rewrite (vis_text_app (nps ++ lps)), !(byte_len_app (vis_text (_ ++ _))), !vis_single. cbn [f_visible g].
    rewrite !byte_len_app in S1. rewrite !byte_len_app in S2.
    apply (visibility_edit_spec _ _ _ (f_visible f) g x); [done|by rewrite Hl|done|lia|lia].
Qed.

(** The loop over the fragments. *)
Lemma undo_fragments_spec ids st bps aps nps :
  undo_inv st bps aps nps → StronglySorted locator_lt ids → ids ⊆ f_id <$> aps.*1 →
  ok_with (undo_fragments (Sl:=list N) undos ts st ids) (fun st' => ∃ lps rps, aps = lps ++ rps ∧
    undo_inv st' (bps ++ lps) rps (nps ++ (revisit undos ts ids <$> lps)) ∧ Forall (fun p => f_id p.1 ∉ ids) rps).
Proof using All.
  revert st bps aps nps. induction ids as [|id ids IH]; intros st bps aps nps HI Hs Hin.
  { cbn. exists [], aps. rewrite !app_nil_r. split_and!; [done|done|]. apply Forall_forall. intros p _. apply not_elem_of_nil. }
  inversion Hs as [|? ? Hs' Hid]; subst. rewrite Forall_forall in Hid. cbn [undo_fragments].
  destruct (list_elem_of_fmap_1 _ _ _ (Hin id ltac:(by left))) as (f & -> & (p & -> & Hp)%list_elem_of_fmap).
  apply list_elem_of_split in Hp as (lps & rps & ->). destruct p as [f x]. cbn [fst] in *.
  pose proof Hsorted as Hso. rewrite (un_old _ _ _ _ HI), (fmap_app _ lps), (fmap_app f_id bps.*1) in Hso. apply StronglySorted_app_1_r in Hso. cbn in Hso.
  rewrite fmap_app in Hso. pose proof (StronglySorted_app_1_r _ _ _ Hso) as Hsr. cbn in Hsr. inversion Hsr as [|? ? _ Hfr]; subst. rewrite Forall_forall in Hfr.
  assert (Hlf : ∀ p, p ∈ lps → locator_lt (f_id p.1) (f_id f)).
  { intros p Hp. eapply StronglySorted_app_1_elem_of; [exact Hso|by do 2 apply list_elem_of_fmap_2|by left]. }
  assert (Hrf : ∀ p, p ∈ rps → locator_lt (f_id f) (f_id p.1)).
  { intros p Hp. apply Hfr. by do 2 apply list_elem_of_fmap_2. }
  ok_bind (undo_fragment_spec st (f_id f) bps lps f x rps nps HI eq_refl). intros st1 H1.
  eapply ok_with_mono; [apply (IH _ _ _ _ H1 Hs')|].
  - intros j Hj. specialize (Hin j ltac:(by right)). specialize (Hid j Hj). rewrite fmap_app, fmap_app, elem_of_app in Hin. cbn in Hin.
    rewrite elem_of_cons in Hin. destruct Hin as [Hin|[->|Hin]]; [|by destruct (cmp_lt_irrefl (f_id f))|done].
    apply list_elem_of_fmap in Hin as (? & -> & (p & -> & Hp)%list_elem_of_fmap). specialize (Hlf p Hp). unfold locator_lt in *. by rewrite cmp_opp, Hlf in Hid.
  - intros st2 (lps' & rps' & -> & H2 & Hno). exists (lps ++ (f, x) :: lps'), rps'. split_and!; [by rewrite <-app_assoc| |].
    + rewrite fmap_app. cbn [fmap list_fmap]. replace (revisit undos ts (f_id f :: ids) <$> lps) with lps.
      2:{ rewrite <-(list_fmap_id lps) at 1. apply list_fmap_ext. intros i p Hp%list_elem_of_lookup_2. unfold revisit. rewrite decide_False; [done|].
          specialize (Hlf p Hp). rewrite elem_of_cons. intros [E|E]; [rewrite E in Hlf; by destruct (cmp_lt_irrefl (f_id f))|].
          specialize (Hid _ E). unfold locator_lt in *. by rewrite cmp_opp, Hlf in Hid. }
      unfold revisit at 1. cbn [fst snd]. rewrite decide_True by left.
      replace (revisit undos ts (f_id f :: ids) <$> lps') with (revisit undos ts ids <$> lps').
      2:{ apply list_fmap_ext. intros i p Hp%list_elem_of_lookup_2. unfold revisit. apply decide_ext. rewrite elem_of_cons. split; [by right|].
          intros [E|?]; [|done]. specialize (Hrf p ltac:(apply elem_of_app; by left)). rewrite E in Hrf. by destruct (cmp_lt_irrefl (f_id f)). }
      rewrite <-!app_assoc in H2. exact H2.
    + rewrite Forall_forall in *. intros p Hp. rewrite elem_of_cons. intros [E|E]; [|by eapply Hno].
      specialize (Hrf p ltac:(apply elem_of_app; by right)). rewrite E in Hrf. by destruct (cmp_lt_irrefl (f_id f)).
Qed.
End walk.
