(* ===== verification/UndoSpec.v ===== *)
(** * What [apply_undo] does to a buffer

    The text of a buffer is what its fragments show by the undo map; [apply_undo] makes that
    so again after the counts have changed. *)

From stdpp Require Import sets.
From S2P Require Import Prelude Ord Clock SumTree SumTreeFacts SeekSpec Cursor CursorFacts SeekFacts Locator Patch PatchFacts Subscription Bitmap Utf8 Point TextSummary Chunk ChunkFacts Rope RopeFacts RopeSlices KeyedTree KeyedFacts TreeMap TreeMapFacts UndoMap History HistoryFacts Fragments BufferEdit EditIndex EditFacts LocalEdit Buffer BufferFacts Anchor AnchorFacts BufferUndo FragmentIds UndoFacts.
Local Open Scope N_scope.

(** ** What fragments show *)
Definition shown (undos : UndoMap) (ps : pieces) : list N := flat_map (fun p => if visible_by undos p.1 then p.2 else []) ps.

Lemma shown_ext undos undos' ps :
  (∀ e, undone_by undos e = undone_by undos' e) → shown undos ps = shown undos' ps.
Proof. intros H. unfold shown. induction ps as [|p ps IH]; [done|]. cbn. by rewrite IH, (visible_by_ext undos undos' p.1) by done. Qed.

Lemma shown_visible undos (ps : pieces) : Forall (fun f => f_visible f = visible_by undos f) ps.*1 → shown undos ps = vis_text ps.
Proof. unfold shown, vis_text. induction ps as [|p ps IH]; [done|]. cbn. intros [-> Hps]%Forall_cons. by rewrite IH. Qed.

(** ** Fragments that are looked at again *)
Section revisit.
Context (undos : UndoMap) (ts : Lamport) (ids : list Locator).
Abbreviation rv := (revisit undos ts ids).

Lemma revisit_text p : (rv p).2 = p.2.
Proof. unfold revisit. by destruct (decide _). Qed.
Lemma revisit_stamps p : stamps (rv p).1 = stamps p.1.
Proof. unfold revisit. by destruct (decide _). Qed.
Lemma revisit_span p : span_of (rv p).1 = span_of p.1.
Proof. unfold revisit. by destruct (decide _). Qed.
Lemma revisit_id p : f_id (rv p).1 = f_id p.1.
Proof. unfold revisit. by destruct (decide _). Qed.
Lemma revisit_insertion p : insertion_fragment_new (rv p).1 = insertion_fragment_new p.1.
Proof. unfold revisit. by destruct (decide _). Qed.
Lemma revisit_visible_by undos' p : visible_by undos' (rv p).1 = visible_by undos' p.1.
Proof. unfold revisit. by destruct (decide _). Qed.
Lemma revisit_ok p : piece_ok p → piece_ok (rv p).
Proof. unfold revisit. by destruct (decide _). Qed.

Lemma revisit_map {A} (h : Fragment → A) (ps : pieces) : (∀ p, h (rv p).1 = h p.1) → h <$> (rv <$> ps).*1 = h <$> ps.*1.
Proof. intros H. rewrite <-!list_fmap_compose. apply list_fmap_ext. intros i p _. apply H. Qed.

Lemma revisit_shown undos' ps : shown undos' (rv <$> ps) = shown undos' ps.
Proof. unfold shown. induction ps as [|p ps IH]; [done|]. cbn. by rewrite IH, revisit_visible_by, revisit_text. Qed.

(** No character is lost. *)
Lemma revisit_perm ps : vis_text (rv <$> ps) ++ del_text (rv <$> ps) ≡ₚ vis_text ps ++ del_text ps.
Proof.
  assert (Hall : ∀ ps : pieces, vis_text ps ++ del_text ps ≡ₚ concat ps.*2).
  { induction ps0 as [|p l IH]; [done|]. unfold vis_text, del_text in *. cbn. rewrite <-IH. destruct (f_visible p.1); cbn; solve_Permutation. }
  rewrite !Hall. f_equiv. rewrite <-list_fmap_compose. erewrite list_fmap_ext; [done|]. intros i p _. apply revisit_text.
Qed.
End revisit.

(** ** The undo map *)
(** The undo operation is new to the map. *)
Definition fresh_undo (undos : UndoMap) (t : Lamport) : Prop := Forall (fun x => undo_id (um_key x) ≠ t) (tree_items undos).
Lemma known_fresh clock undos t : Forall (known clock) (tree_items undos) → clock <= value t → fresh_undo undos t.
Proof. intros Hk Hc. eapply Forall_impl; [exact Hk|]. intros x [_ Hu _] E. rewrite E in Hu. lia. Qed.

Lemma insert_known `{!UnstableSort, !UnstableSortLaws} undos u clock clock' :
  undo_map_ok undos → NoDup (counts u).*1 → (N.of_nat (length (tree_items undos) + length (counts u)) < 6 ^ 9) →
  Forall (known clock) (tree_items undos) → fresh_undo undos (undo_timestamp u) → clock <= clock' → value (undo_timestamp u) < clock' →
  Forall (fun c => value c.1 < clock' ∧ c.2 < clock') (counts u) →
  ok_with (undo_map_insert undos u) (fun undos' => undo_map_ok undos' ∧ Forall (known clock') (tree_items undos') ∧
    (length (tree_items undos') <= length (tree_items undos) + length (counts u))%nat ∧ (∀ e, count_of undos' e = N.max (count_of undos e) (default 0 (op_count u e))) ∧
    ∀ x, x ∈ tree_items undos' ↔ x ∈ tree_items undos ∨ undo_id (um_key x) = undo_timestamp u ∧ op_count u (edit_id (um_key x)) = Some (um_undo_count x)).
Proof.
  intros Hm Hn Hsz Hk Hfr Hc Hc' Hcs. unfold fresh_undo in Hfr. rewrite Forall_forall in Hfr.
  assert (Hfresh : ∀ e, klookup (mkUndoKey e (undo_timestamp u)) (tree_items undos) = None).
  { intros e. destruct (klookup _ _) as [x|] eqn:E; [|done]. exfalso. pose proof E as Ek. apply klookup_key in E. change (um_key x = mkUndoKey e (undo_timestamp u)) in E.
    rewrite <-E in Ek. apply (klookup_elem _ x (proj2 Hm)) in Ek. apply (Hfr x Ek). by rewrite E. }
  pose proof (undo_insert_correct undos u Hm Hn Hsz Hfresh) as H1. pose proof (undo_map_insert_spec undos u Hm Hn Hsz) as H2.
  destruct (undo_map_insert undos u) as [undos'|]; [|done]. cbn [ok_with] in *. destruct H1 as [Hm' Hcount], H2 as (_ & Hsize & Hlk).
  assert (Hel : ∀ x, x ∈ tree_items undos' ↔ x ∈ tree_items undos ∨ undo_id (um_key x) = undo_timestamp u ∧ op_count u (edit_id (um_key x)) = Some (um_undo_count x)).
  { intros x. rewrite <-(klookup_elem _ x (proj2 Hm')), Hlk. change (item_key x) with (um_key x). rewrite <-(klookup_elem _ x (proj2 Hm)). change (item_key x) with (um_key x).
    destruct (eqb (undo_timestamp u) (undo_id (um_key x))) eqn:E.
    - apply eqb_eq in E. assert (Hx : klookup (um_key x) (tree_items undos) = None) by (destruct x as [[e t] n]; cbn in *; subst t; apply Hfresh). rewrite Hx.
      destruct (op_count u (edit_id (um_key x))) as [n|]; cbn; [|split; [done|by intros [?|[_ ?]]]].
      split; [intros [= Hxx]; right; split; [done|]; rewrite <-Hxx; done|]. intros [?|[_ [= ->]]]; [done|]. destruct x as [[e t] m]. cbn in *. by subst t.
    - split; [auto|]. intros [?|[Et _]]; [done|]. rewrite Et, eqb_refl in E. done. }
  split_and!; [done| |done| |done].
  - apply Forall_forall. intros x [Hx|[Hu Hx]]%Hel; [rewrite Forall_forall in Hk; eapply known_later; [exact Hc|by apply Hk]|].
    unfold op_count in Hx. destruct (List.find _ (counts u)) as [[e n]|] eqn:Ef; [|done]. cbn in Hx. injection Hx as Hx.
    apply find_some in Ef as [Hin Ee]. apply list_elem_of_In in Hin. cbn in Ee. apply eqb_eq in Ee. rewrite Forall_forall in Hcs. destruct (Hcs _ Hin). cbn in *.
    split; [congruence|congruence|]. by rewrite <-Hx.
  - intros e. specialize (Hcount e). unfold undo_count in Hcount. rewrite !undo_count_by_spec in Hcount by done. cbn in Hcount. by injection Hcount.
Qed.

(** ** [apply_undo] *)
(** The walk: the fragments, the ropes and the patch after it. *)
Record revisited (V D : srope) (ps' : pieces) (st : sundo) (v d : srope) : Prop := {
  rd_content : content_wf (us_new_fragments st) v d ps';
  rd_kept : rope_text v ++ rope_text d ≡ₚ rope_text V ++ rope_text D;
  rd_patch : reaches (us_edits st) (byte_len (rope_text V)) (byte_len (rope_text v))
}.

Lemma revisit_content F V D ps undos ts ids F' v d :
  content_wf F V D ps → tree_wf cx ROPE_DEPTH F' → rope_wf v → rope_wf d → tree_items F' = (revisit undos ts ids <$> ps).*1 →
  rope_text v = vis_text (revisit undos ts ids <$> ps) → rope_text d = del_text (revisit undos ts ids <$> ps) →
  content_wf F' v d (revisit undos ts ids <$> ps).
Proof.
  intros [H1 H2 H3 H4 H5 H6 H7 H8 H9 H10] HF Hv Hd Hi Ev Ed. split; try done.
  - apply Forall_fmap. eapply Forall_impl; [exact H5|]. intros p. apply revisit_ok.
  - destruct H8 as [Hs Hw]. unfold ids_ok. rewrite (revisit_map undos ts ids f_id) by apply revisit_id. done.
  - rewrite (revisit_map undos ts ids span_of) by apply revisit_span. done.
  - rewrite (revisit_map undos ts ids span_of) by apply revisit_span. done.
Qed.

Lemma undo_walk_spec F V D ps undos ts ids :
  content_wf F V D ps → undo_map_ok undos → StronglySorted locator_lt ids → ids ⊆ f_id <$> ps.*1 →
  RopeFacts.small (rope_text V ++ rope_text D) → N.of_nat (length (tree_items F)) <= MAX_CHUNKS →
  ok_with (v ← rope_cursor (Sl:=list N) V 0;
           d ← rope_cursor (Sl:=list N) D 0;
           st ← undo_fragments (Sl:=list N) undos ts (mkUndoState (cursor_new cx F) (new cx) (builder_new v d) []) ids;
           '(c, suffix) ← cursor_suffix cx (us_old_fragments st);
           st ← undo_append (Sl:=list N) st c suffix;
           '(visible_text, deleted_text) ← builder_finish (Sl:=list N) (us_new_ropes st);
           Ok (st, visible_text, deleted_text))
    (fun r => let '(st, v, d) := r in revisited V D (revisit undos ts ids <$> ps) st v d).
Proof.
  intros Hc Hu Hs Hin Hsm Hlen. pose proof Hc as [HF HV HD Hi Hok Ev Ed Hid _ _].
  assert (HsV : RopeFacts.small (rope_text V)) by (unfold RopeFacts.small in *; rewrite byte_len_app in Hsm; lia).
  assert (HsD : RopeFacts.small (rope_text D)) by (unfold RopeFacts.small in *; rewrite byte_len_app in Hsm; lia).
  assert (Hso : StronglySorted locator_lt (f_id <$> tree_items F)) by (rewrite Hi; by apply ids_sorted).
  ok_bind (rope_cursor_spec V [] (rope_text V)); [done..|]. intros cv Hcv.
  ok_bind (rope_cursor_spec D [] (rope_text D)); [done..|]. intros cd Hcd. rewrite <-Ev in Hcv. rewrite <-Ed in Hcd.
  ok_bind (undo_fragments_spec V D F undos ts HV HD HsV HsD HF Hlen Hu Hso ids (mkUndoState (cursor_new cx F) (new cx) (builder_new cv cd) []) [] ps []).
  { split; cbn; try done; [left; split_and!; done|by left|].
    split; cbn; try done; [apply rope_new_wf|apply rope_new_wf|]. by rewrite Ev, Ed. }
  { done. }
  { done. }
  intros st1 (lps & rps & -> & H1 & Hno). cbn [app] in H1.
  ok_bind (cursor_suffix_spec cx ROPE_DEPTH (us_old_fragments st1) lps.*1 rps.*1); rewrite ?(un_tree _ _ _ _ _ _ _ H1).
  { done. }
  { by apply fragment_height. }
  { apply H1. }
  { by apply room_fits. }
  intros [c s] (Ec & Hat & Hws & His). cbn [fst snd] in *. rewrite <-(app_nil_r rps) in H1.
  ok_bind (undo_append_spec V D F undos ts HV HD HsV HsD HF Hlen Hu Hso st1 c lps rps [] _ s H1 Hws His);
    [done|by rewrite fmap_app|].
  intros st2 [_ H2].
  ok_bind (builder_finish_spec V D HV HD HsV HsD _ _ _ _ _ _ _ (un_builder _ _ _ _ _ _ _ H2)).
  intros [v d] (Hv & Etv & Hd & Etd). cbn [fst snd] in *. cbn [ok_with].
  change (vis_text []) with (@nil N) in *. change (del_text []) with (@nil N) in *. rewrite app_nil_r in Etv, Etd.
  assert (Er : (revisit undos ts ids <$> lps) ++ rps = revisit undos ts ids <$> lps ++ rps).
  { rewrite fmap_app. f_equal. rewrite <-(list_fmap_id rps) at 1. apply list_fmap_ext. intros i p Hp%list_elem_of_lookup_2.
    rewrite Forall_forall in Hno. unfold revisit. by rewrite decide_False by (by apply Hno). }
  rewrite Er in *. split.
  - eapply revisit_content; [exact Hc|apply H2|done|done|apply H2|done|done].
  - rewrite Etv, Etd, revisit_perm, <-Ev, <-Ed. done.
  - rewrite Etv, <-Ev. apply H2.
Qed.

(** What an undo operation asks for, and the limits of the model. *)
Record undo_room (s : BufferSnapshot (list N) (list N)) (n : nat) : Prop := {
  ur_text : byte_len (rope_text (bs_visible_text s)) + byte_len (rope_text (bs_deleted_text s)) <= 2 ^ 31;
  ur_fragments : N.of_nat (length (tree_items (bs_fragments s))) <= MAX_CHUNKS;
  ur_map : N.of_nat (length (tree_items (bs_undo_map s)) + n) < 6 ^ 9
}.
Record undo_asks (u : UndoOperation) (clock : N) : Prop := {
  ua_keys : NoDup (counts u).*1;
  ua_edits : Forall (fun c => 1 < value c.1 < clock) (counts u);
  ua_counts : Forall (fun c => c.2 < clock) (counts u);
  ua_time : value (undo_timestamp u) < clock
}.

(** What is known of the buffer afterwards. *)
Record undone (clock : N) (b : sbuffer) (sp : Spec) (ps : pieces) (u : UndoOperation) (b' : sbuffer) (ps' : pieces) (p : patch) : Prop := {
  ud_content : content_wf (bs_fragments (b_snapshot b')) (bs_visible_text (b_snapshot b')) (bs_deleted_text (b_snapshot b')) ps';
  ud_index : index_ok ps'.*1 (bs_insertions (b_snapshot b'));
  ud_slices : bs_insertion_slices (b_snapshot b') = bs_insertion_slices (b_snapshot b);
  ud_undo : undo_wf clock (bs_insertion_slices (b_snapshot b')) (bs_undo_map (b_snapshot b')) ps'.*1;
  ud_counts : ∀ e, count_of (bs_undo_map (b_snapshot b')) e = N.max (count_of (bs_undo_map (b_snapshot b)) e) (default 0 (op_count u e));
  ud_size : (length (tree_items (bs_undo_map (b_snapshot b'))) <= length (tree_items (bs_undo_map (b_snapshot b))) + length (counts u))%nat;
  ud_length : length ps' = length ps;
  ud_text : buffer_text b' = shown (bs_undo_map (b_snapshot b')) ps;
  ud_shown : ∀ undos, shown undos ps' = shown undos ps;
  ud_kept : buffer_text b' ++ rope_text (bs_deleted_text (b_snapshot b')) ≡ₚ buffer_text b ++ rope_text (bs_deleted_text (b_snapshot b));
  ud_patch : reaches p (byte_len (buffer_text b)) (byte_len (buffer_text b'));
  ud_subscribers : refines (b_subscriptions b') (published sp p (byte_len (buffer_text b')));
  ud_history : b_history b' = b_history b;
  ud_clock : b_lamport_clock b' = b_lamport_clock b;
  ud_version : bs_version (b_snapshot b') = bs_version (b_snapshot b);
  ud_entries : ∀ x, x ∈ tree_items (bs_undo_map (b_snapshot b')) ↔
    x ∈ tree_items (bs_undo_map (b_snapshot b)) ∨ undo_id (um_key x) = undo_timestamp u ∧ op_count u (edit_id (um_key x)) = Some (um_undo_count x);
  ud_revisited : ∃ ids, ps' = revisit (bs_undo_map (b_snapshot b')) (undo_timestamp u) ids <$> ps
}.

Lemma op_count_none u e : e ∉ (counts u).*1 → op_count u e = None.
Proof.
  intros H. unfold op_count. destruct (List.find _ (counts u)) as [c|] eqn:E; [|done]. apply find_some in E as [Hin Ee]. apply eqb_eq in Ee.
  destruct H. apply list_elem_of_fmap. exists c. split; [done|by apply list_elem_of_In].
Qed.

(** The fragments that are not looked at are shown as before. *)
Lemma revisit_undo_wf clock clock' slices undos undos' ts ids u (ps : pieces) :
  undo_wf clock slices undos ps.*1 → clock <= clock' → undo_map_ok undos' → Forall (known clock') (tree_items undos') →
  (∀ e, count_of undos' e = N.max (count_of undos e) (default 0 (op_count u e))) → Forall (fun c => 1 < value c.1) (counts u) →
  (∀ f e sl, f ∈ ps.*1 → e ∈ (counts u).*1 → in_set slices sl → covers sl e f → f_id f ∈ ids) →
  undo_wf clock' slices undos' (revisit undos' ts ids <$> ps).*1.
Proof.
  intros Hw Hc Hm Hk Hcount Hed Hids. pose proof Hw as [_ _ Hv Hcv Hsl Ht]. split; try done.
  - rewrite !Forall_fmap, Forall_forall in *. intros p Hp. cbn. rewrite revisit_visible_by. unfold revisit. destruct (decide _) as [|Hn]; [done|].
    rewrite (Hv p Hp). apply visible_by_ext. intros e He. unfold undone_by. rewrite Hcount, op_count_none; [cbn; by rewrite N.max_0_r|].
    intros Hin. apply Hn. pose proof Hin as (c & -> & Hc')%list_elem_of_fmap. rewrite Forall_forall in Hed.
    destruct (Hcv p Hp c.1 He) as (sl & Hs1 & Hs2); [by apply Hed|]. eapply Hids; [by apply list_elem_of_fmap_2|exact Hin|exact Hs1|exact Hs2].
  - rewrite !Forall_fmap, Forall_forall in *. intros p Hp. cbn. unfold covered. rewrite revisit_stamps. intros e He Hv1.
    destruct (Hcv p Hp e He Hv1) as (sl & Hs1 & [C1 C2 C3 C4]). exists sl. split; [done|]. pose proof (revisit_span undos' ts ids p) as Hsp.
    unfold span_of in Hsp. injection Hsp as E1 E2 E3. split; [done|congruence|lia|lia].
  - rewrite !Forall_fmap, Forall_forall in *. intros p Hp. cbn. destruct (Ht p Hp) as [Hp0 Hst]. pose proof (revisit_stamps undos' ts ids p) as Est.
    split; [unfold stamps in Est; injection Est as -> _; done|]. rewrite Est. eapply Forall_impl; [exact Hst|]. cbn. lia.
Qed.

Lemma apply_undo_spec `{!UnstableSort, !UnstableSortLaws} b sp ps clock clock' u :
  content_wf (bs_fragments (b_snapshot b)) (bs_visible_text (b_snapshot b)) (bs_deleted_text (b_snapshot b)) ps →
  index_ok ps.*1 (bs_insertions (b_snapshot b)) → map_ok (bs_insertion_slices (b_snapshot b)) →
  undo_wf clock (bs_insertion_slices (b_snapshot b)) (bs_undo_map (b_snapshot b)) ps.*1 →
  refines (b_subscriptions b) sp → sp_len sp = byte_len (buffer_text b) →
  clock <= clock' → fresh_undo (bs_undo_map (b_snapshot b)) (undo_timestamp u) → undo_asks u clock' → undo_room (b_snapshot b) (length (counts u)) →
  ok_with (apply_undo (Sl:=list N) b u) (fun b' => ∃ ps' p, undone clock' b sp ps u b' ps' p).
Proof.
  intros Hc Hi Hsl Hu Hsub Hlen Hclock Hfresh [Hk He Hn Ht] [R1 R2 R3]. unfold apply_undo.
  ok_bind (insert_known (bs_undo_map (b_snapshot b)) u clock clock' (uw_map _ _ _ _ Hu) Hk R3 (uw_known _ _ _ _ Hu) Hfresh Hclock Ht).
  { rewrite Forall_forall in *. intros c Hin. specialize (He c Hin). specialize (Hn c Hin). lia. }
  intros undos' (Hm' & Hk' & Hsize & Hcount & Hentries).
  pose proof (fragment_ids_spec (b_snapshot b) ps.*1 (counts u).*1 Hi Hsl (cw_ids _ _ _ _ Hc)) as Hids.
  destruct (ok_with_inv _ _ (Hids ltac:(rewrite Forall_fmap; eapply Forall_impl; [apply Hc|]; by intros ? [_ ?]) (uw_slices _ _ _ _ Hu)))
    as (ids & Eids & Hs & Hin & Hall). change ((counts u).*1) with (map fst (counts u)) in Eids. rewrite Eids. clear Hids.
  assert (Hsm : RopeFacts.small (rope_text (bs_visible_text (b_snapshot b)) ++ rope_text (bs_deleted_text (b_snapshot b))))
    by (unfold RopeFacts.small; rewrite byte_len_app; done).
  pose proof (undo_walk_spec _ _ _ ps undos' (undo_timestamp u) ids Hc Hm' Hs Hin Hsm R2) as Hwalk.
  destruct (rope_cursor (bs_visible_text (b_snapshot b)) 0) as [cv|]; [|done]. cbn [mbind outcome_bind] in *.
  destruct (rope_cursor (bs_deleted_text (b_snapshot b)) 0) as [cd|]; [|done]. cbn [mbind outcome_bind] in *.
  destruct (undo_fragments _ _ _ ids) as [st|]; [|done]. cbn [mbind outcome_bind] in *.
  destruct (cursor_suffix cx (us_old_fragments st)) as [[c suf]|]; [|done]. cbn [mbind outcome_bind] in *.
  destruct (undo_append st c suf) as [st2|]; [|done]. cbn [mbind outcome_bind] in *.
  destruct (builder_finish (us_new_ropes st2)) as [[v d]|]; [|done]. cbn [mbind outcome_bind ok_with] in *. destruct Hwalk as [Hc' Hkept Hp].
  assert (Hu' : undo_wf clock' (bs_insertion_slices (b_snapshot b)) undos' (revisit undos' (undo_timestamp u) ids <$> ps).*1).
  { eapply revisit_undo_wf; [exact Hu|done..| |exact Hall]. eapply Forall_impl; [exact He|]. cbn. lia. }
  ok_bind (refines_publish _ sp (us_edits st2) (byte_len (rope_text v)) Hsub); [rewrite Hlen; apply Hp| |].
  { apply byte_len_perm in Hkept. rewrite !byte_len_app in Hkept. unfold POSITION_BOUND. lia. }
  intros w' [Hw' _]. cbn [ok_with]. exists (revisit undos' (undo_timestamp u) ids <$> ps), (us_edits st2). split; cbn; try done.
  - destruct Hi as [I1 I2 I3]. split; [done|done|]. by rewrite (revisit_map undos' (undo_timestamp u) ids insertion_fragment_new) by apply revisit_insertion.
  - apply length_fmap.
  - rewrite <-(cw_visible_text _ _ _ _ Hc'), <-(shown_visible undos'), revisit_shown; [done|apply Hu'].
  - intros undos. apply revisit_shown.
  - by exists ids.
Qed.
