(* ===== verification/UndoCorrect.v ===== *)
(** * Undoing and redoing transactions

    Undoing or redoing a transaction toggles its edits: the ones that were done are undone and
    the other way round.  The text follows, the invariant of buffers is kept and nothing is
    ever lost. *)

From stdpp Require Import sets.
From S2P Require Import Prelude Ord Clock SumTree SumTreeFacts SeekSpec Cursor CursorFacts Locator Patch PatchFacts Subscription Bitmap Utf8 Point TextSummary Chunk ChunkFacts Rope RopeFacts KeyedTree KeyedFacts TreeMap TreeMapFacts UndoMap History HistoryFacts Fragments BufferEdit EditIndex EditFacts LocalEdit Buffer BufferFacts BufferUndo UndoFacts UndoSpec.
Local Open Scope N_scope.

(** ** The counts of an undo operation *)
Lemma hash_insert_elem `{!HashOrder, !HashOrderLaws} (m : list (Lamport * N)) k v e n :
  (e, n) ∈ hash_insert m k v ↔ e = k ∧ n = v ∨ e ≠ k ∧ (e, n) ∈ m.
Proof.
  unfold hash_insert. rewrite hash_order_permutation, elem_of_cons, (list_elem_of_In (List.filter _ _)), filter_In, <-list_elem_of_In. cbn.
  rewrite negb_true_iff. split.
  - intros [[= -> ->]|[Hin Hk]]; [by left|]. right. split; [|done]. intros ->. by rewrite eqb_refl in Hk.
  - intros [[-> ->]|[Hne Hin]]; [by left|]. right. split; [done|]. destruct (eqb e k) eqn:E; [|done]. by apply eqb_eq in E.
Qed.
Lemma hash_insert_keys `{!HashOrder, !HashOrderLaws} (m : list (Lamport * N)) k v :
  NoDup m.*1 → NoDup (hash_insert m k v).*1 ∧ (length (hash_insert m k v) <= S (length m))%nat.
Proof.
  intros Hn. unfold hash_insert. rewrite hash_order_permutation. cbn. split.
  - apply NoDup_cons. split.
    + rewrite list_elem_of_fmap. intros (p & -> & Hp). apply list_elem_of_In, filter_In in Hp as [_ Hp]. by rewrite eqb_refl in Hp.
    + induction m as [|p m IH]; [constructor|]. cbn in *. apply NoDup_cons in Hn as [Hp Hn]. destruct (negb _); [|by apply IH]. cbn. apply NoDup_cons.
      split; [|by apply IH]. intros Hin. apply Hp. apply list_elem_of_fmap in Hin as (q & -> & Hq). apply list_elem_of_fmap_2.
      apply list_elem_of_In, filter_In in Hq as [Hq _]. by apply list_elem_of_In.
  - pose proof (filter_length_le (fun p : Lamport * N => negb (eqb p.1 k)) m). lia.
Qed.

Lemma undo_counts_spec `{!HashOrder, !HashOrderLaws} undos ids acc :
  undo_map_ok undos → NoDup acc.*1 →
  ok_with (undo_counts undos ids acc) (fun cs => NoDup cs.*1 ∧ (length cs <= length acc + length ids)%nat ∧
    ∀ e n, (e, n) ∈ cs ↔ (e ∈ ids ∧ n = u32_saturating_add (count_of undos e) 1) ∨ (¬ (e ∈ ids) ∧ (e, n) ∈ acc)).
Proof.
  intros Hm. revert acc. induction ids as [|i ids IH]; intros acc Hn; cbn [undo_counts].
  { cbn. split_and!; [done|lia|]. intros e n. rewrite elem_of_nil. split; [intros Hacc; right; split; [tauto|done]|by intros [[[] _]|[_ ?]]]. }
  unfold undo_count. rewrite undo_count_by_spec by done. cbn [mbind outcome_bind].
  destruct (hash_insert_keys acc i (u32_saturating_add (count_of undos i) 1) Hn) as [Hn' Hl'].
  eapply ok_with_mono; [by apply (IH _ Hn')|]. intros cs (Hc & Hl & Hin). split_and!; [done|cbn; lia|]. intros e n. rewrite Hin, hash_insert_elem, elem_of_cons.
  destruct (decide (e = i)) as [->|Hne].
  - destruct (decide (i ∈ ids)) as [Hi|Hi]; [|]; (split; [|tauto]); intros [[_ ->]|[_ [[_ ->]|[? _]]]]; try done; left; auto.
  - tauto.
Qed.

Lemma op_count_elem u e n : NoDup (counts u).*1 → op_count u e = Some n ↔ (e, n) ∈ counts u.
Proof.
  intros Hn. unfold op_count. induction (counts u) as [|[a k] l IH]; cbn; [by rewrite elem_of_nil|].
  cbn in Hn. apply NoDup_cons in Hn as [Ha Hn]. rewrite elem_of_cons. destruct (eqb a e) eqn:E; cbn.
  - apply eqb_eq in E as ->. split; [intros [= ->]; by left|]. intros [[= ->]|Hin]; [done|]. destruct Ha. apply list_elem_of_fmap. by exists (e, n).
  - rewrite IH by done. split; [by right|]. intros [[= -> _]|?]; [by rewrite eqb_refl in E|done].
Qed.

(** ** [undo_or_redo] *)
(** The limits of the model, for [k] transactions of [n] edits in all. *)
Record toggle_room (b : sbuffer) (k n : nat) : Prop := {
  tr_content : undo_room (b_snapshot b) n;
  tr_operations : N.of_nat (length (tree_items (operations (b_history b))) + k) < 6 ^ 9;
  tr_clock : value (b_lamport_clock b) + N.of_nat k <= u32_max
}.

Lemma toggle_room_le b k n k' n' : toggle_room b k n → (k' <= k)%nat → (n' <= n)%nat → toggle_room b k' n'.
Proof. intros [[Q1 Q2 Q3] Q4 Q5] Hk Hn. split; [split|..]; try done; lia. Qed.

(** What undoing or redoing the edits [ids] does to a buffer. *)
Record toggled (b : sbuffer) (sp : Spec) (ps : pieces) (ids : list Lamport) (b' : sbuffer) (ps' : pieces) (p : patch) : Prop := {
  tg_wf : buffer_wf b' (published sp p (byte_len (buffer_text b'))) ps';
  tg_undone : ∀ e, undone_by (bs_undo_map (b_snapshot b')) e
    = if decide (e ∈ ids) then negb (undone_by (bs_undo_map (b_snapshot b)) e) else undone_by (bs_undo_map (b_snapshot b)) e;
  tg_text : buffer_text b' = shown (bs_undo_map (b_snapshot b')) ps;
  tg_shown : ∀ undos, shown undos ps' = shown undos ps;
  tg_kept : buffer_text b' ++ rope_text (bs_deleted_text (b_snapshot b')) ≡ₚ buffer_text b ++ rope_text (bs_deleted_text (b_snapshot b));
  tg_patch : reaches p (byte_len (buffer_text b)) (byte_len (buffer_text b'));
  tg_clock : value (b_lamport_clock b') = value (b_lamport_clock b) + 1;
  tg_version : bs_version (b_snapshot b') = global_observe (bs_version (b_snapshot b)) (b_lamport_clock b);
  tg_room : ∀ k n, toggle_room b (S k) (length ids + n) → toggle_room b' k n
}.
Definition same_stacks (b b' : sbuffer) : Prop :=
  undo_stack (b_history b') = undo_stack (b_history b) ∧ redo_stack (b_history b') = redo_stack (b_history b) ∧
  transaction_depth (b_history b') = transaction_depth (b_history b).

Lemma odd_succ n : ((n + 1) `mod` 2 =? 1) = negb (n `mod` 2 =? 1).
Proof.
  pose proof (N.mod_lt n 2 ltac:(done)) as Hn. rewrite N.Div0.add_mod. change (1 `mod` 2) with 1.
  revert Hn. generalize (n `mod` 2). intros m Hm. assert (m = 0 ∨ m = 1) as [-> | ->] by lia; done.
Qed.

Lemma count_known clock undos e : Forall (known clock) (tree_items undos) → 0 < clock → count_of undos e < clock.
Proof.
  intros Hk Hc. unfold count_of. destruct (max_count_greatest (fun _ => true) (of_edit e (tree_items undos))) as [_ [->|(x & Hx & _ & <-)]]; [done|].
  unfold of_edit in Hx. apply list_elem_of_In, filter_In in Hx as [Hx _]. apply list_elem_of_In in Hx. rewrite Forall_forall in Hk. by apply Hk.
Qed.

Lemma history_ok_later {R} (h : History R) clock clock' : value clock <= value clock' → history_ok h clock → history_ok h clock'.
Proof. intros Hc []. split; try done. eapply Forall_impl; [eassumption|]. cbn. lia. Qed.
Lemma edits_before_later {R} (h : History R) clock clock' : value clock <= value clock' → edits_before h clock → edits_before h clock'.
Proof. intros Hc H. eapply Forall_impl; [exact H|]. cbn. lia. Qed.

Lemma history_push_keeps {R} (h : History R) clock op :
  history_ok h clock → KeyedFacts.small (mkMapEntry (operation_timestamp op) op :: tree_items (operations h)) →
  ok_with (history_push h op) (fun h' => history_ok h' clock ∧ undo_stack h' = undo_stack h ∧ redo_stack h' = redo_stack h ∧
    transaction_depth h' = transaction_depth h ∧ (length (tree_items (operations h')) <= S (length (tree_items (operations h))))%nat ∧
    ∀ x, x ∈ tree_items (operations h') → x = mkMapEntry (operation_timestamp op) op ∨ x ∈ tree_items (operations h)).
Proof.
  intros Hh Hs. pose proof (history_push_ok h clock op Hh Hs) as Hok. unfold history_push, map_insert in *.
  pose proof (map_insert_or_replace_spec (operations h) (operation_timestamp op) op (ho_operations _ _ Hh) Hs) as Hi.
  unfold map_insert_or_replace in Hi. destruct (insert_or_replace tt (operations h) _) as [[ops old]|]; [|done]. cbn in *. destruct Hi as (_ & -> & _).
  split_and!; try done; [apply kinsert_length|intros x; apply kinsert_elem].
Qed.

(** What the operation says: it counts the edits it toggles, under the timestamp and at the
    version of the buffer; its counts are the new entries of the undo map, and the fragments
    change in nothing but their visibility. *)
Record toggle_says (b : sbuffer) (ps : pieces) (ids : list Lamport) (b' : sbuffer) (cs : list (Lamport * N)) (ps' : pieces) : Prop := {
  ty_keys : NoDup cs.*1;
  ty_counts : ∀ e n, (e, n) ∈ cs → e ∈ ids ∧ n <= value (b_lamport_clock b);
  ty_entries : ∀ x, x ∈ tree_items (bs_undo_map (b_snapshot b')) ↔
    x ∈ tree_items (bs_undo_map (b_snapshot b)) ∨ undo_id (um_key x) = b_lamport_clock b ∧ (edit_id (um_key x), um_undo_count x) ∈ cs;
  ty_size : (length (tree_items (bs_undo_map (b_snapshot b'))) <= length (tree_items (bs_undo_map (b_snapshot b))) + length cs)%nat;
  ty_revisited : ∃ ids', ps' = revisit (bs_undo_map (b_snapshot b')) (b_lamport_clock b) ids' <$> ps;
  ty_slices : bs_insertion_slices (b_snapshot b') = bs_insertion_slices (b_snapshot b);
  ty_replica : replica_id (b_lamport_clock b') = replica_id (b_lamport_clock b);
  ty_operations : ∀ x, x ∈ tree_items (operations (b_history b')) → me_key x = b_lamport_clock b ∨ x ∈ tree_items (operations (b_history b))
}.

Lemma undo_or_redo_says `{!UnstableSort, !UnstableSortLaws, !HashOrder, !HashOrderLaws} b sp ps t :
  buffer_wf b sp ps → Forall (fun e => 1 < value e < value (b_lamport_clock b)) (tx_edit_ids t) → toggle_room b 1 (length (tx_edit_ids t)) →
  ok_with (undo_or_redo (Sl:=list N) b t) (fun r => ∃ ps' p cs, r.2 = OpUndo (mkUndoOperation (b_lamport_clock b) (bs_version (b_snapshot b)) cs) ∧
    toggle_says b ps (tx_edit_ids t) r.1 cs ps' ∧ toggled b sp ps (tx_edit_ids t) r.1 ps' p ∧ same_stacks b r.1).
Proof.
  intros [Hc Hi Hsl Hcr Hu Hck Hh Hbe Hsub Hlen] Hids [[R1 R2 R3] Rop Rcl]. destruct Hck as [Hpos Hst]. unfold undo_or_redo.
  ok_bind (undo_counts_spec (bs_undo_map (b_snapshot b)) (tx_edit_ids t) [] (uw_map _ _ _ _ Hu)); [constructor|]. intros cs (Hn & Hl & Hcs). cbn [length] in Hl.
  set (ts := b_lamport_clock b) in *.
  assert (Hcnt : ∀ e, count_of (bs_undo_map (b_snapshot b)) e < value ts) by (intros e; by apply count_known; [apply Hu|]).
  assert (Hcs' : ∀ e n, (e, n) ∈ cs ↔ e ∈ tx_edit_ids t ∧ n = count_of (bs_undo_map (b_snapshot b)) e + 1).
  { intros e n. rewrite Hcs, elem_of_nil. unfold u32_saturating_add. rewrite N.min_l by (specialize (Hcnt e); lia). tauto. }
  unfold undo_operations, lamport_tick. fold ts. cbn zeta. set (u := mkUndoOperation ts (bs_version (b_snapshot b)) cs).
  match goal with |- context [apply_undo ?x _] => set (b0 := x) end. apply ok_with_bind, ok_with_bind.
  eapply ok_with_mono; [apply (apply_undo_spec b0 sp ps (value ts) (value ts + 1) u Hc Hi Hsl Hu Hsub Hlen)|].
  { lia. }
  { apply (known_fresh (value ts)); [exact (uw_known _ _ _ _ Hu)|done]. }
  { split; cbn; [done|..|lia]; apply Forall_forall; intros [e n] [He ->]%Hcs'; cbn; [|specialize (Hcnt e); lia].
    rewrite Forall_forall in Hids. specialize (Hids e He). lia. }
  { split; [done|done|]. cbn [u counts b0 b_snapshot]. cbn. lia. }
  intros b1 (ps' & p & [U1 U2 U3 U4 U5 Us Ul U6 U7 U8 U9 U10 U11 U12 U13 Uen Ure]). cbn [ok_with].
  assert (Hcl : value (b_lamport_clock b1) = value ts + 1) by (rewrite U12; cbn; apply u32_wrap_small; lia).
  ok_bind (history_push_keeps (b_history b1) (b_lamport_clock b1) (OpUndo u)).
  { rewrite U11. eapply history_ok_later; [|exact Hh]. rewrite Hcl. cbn. lia. }
  { rewrite U11. unfold KeyedFacts.small. cbn. lia. }
  intros h' (Hh' & Eu & Er & Ed & Hops & Hel). rewrite U11 in Eu, Er, Ed. cbn [b0 b_history] in Eu, Er, Ed. cbn [ok_with]. exists ps', p, cs. split_and!; [done| |split; cbn; try done|done..].
  - split; cbn; try done.
    + intros e n [He ->]%Hcs'. split; [done|]. specialize (Hcnt e). fold ts. lia.
    + intros x. rewrite Uen. cbn [u undo_timestamp b0 b_snapshot bs_undo_map]. by rewrite (op_count_elem u) by done.
    + by rewrite U12.
    + intros x [->|Hx]%Hel; [by left|right]. by rewrite U11 in Hx.
  - split; cbn; try done.
    + by rewrite U3.
    + by rewrite U8.
    + by rewrite Hcl.
    + split; [lia|]. rewrite Ed, Hcl. lia.
    + unfold edits_before, all_entries. rewrite Eu, Er. apply (edits_before_later (b_history b) ts); [|exact Hbe]. rewrite Hcl. lia.
  - intros e. unfold undone_by. rewrite U5. change (bs_undo_map (b_snapshot b0)) with (bs_undo_map (b_snapshot b)). specialize (Hcnt e). destruct (decide (e ∈ tx_edit_ids t)) as [He|He].
    + rewrite (proj2 (op_count_elem u e (count_of (bs_undo_map (b_snapshot b)) e + 1) Hn)) by (by apply Hcs'). cbn [from_option id]. rewrite N.max_r by lia. apply odd_succ.
    + rewrite op_count_none; [cbn; by rewrite N.max_0_r|]. intros Hin. apply list_elem_of_fmap in Hin as ([e' n] & -> & Hin). apply Hcs' in Hin as [? _]. done.
  - intros k n [[Q1 Q2 Q3] Q4 Q5]. rewrite U11 in Hops. cbn [b0 b_history b_snapshot] in *. split; [split|..]; cbn.
    + apply byte_len_perm in U8. rewrite !byte_len_app in U8. cbn in U8. lia.
    + rewrite (cw_items _ _ _ _ U1), length_fmap, Ul. rewrite (cw_items _ _ _ _ Hc), length_fmap in Q2. done.
    + cbn in Us. lia.
    + lia.
    + fold ts in Q5. rewrite Hcl. lia.
Qed.

Lemma undo_or_redo_spec `{!UnstableSort, !UnstableSortLaws, !HashOrder, !HashOrderLaws} b sp ps t :
  buffer_wf b sp ps → Forall (fun e => 1 < value e < value (b_lamport_clock b)) (tx_edit_ids t) → toggle_room b 1 (length (tx_edit_ids t)) →
  ok_with (undo_or_redo (Sl:=list N) b t) (fun r => ∃ ps' p, toggled b sp ps (tx_edit_ids t) r.1 ps' p ∧ same_stacks b r.1).
Proof.
  intros Hb Hids Hr. eapply ok_with_mono; [by apply (undo_or_redo_says b sp ps t)|]. intros r (ps' & p & _ & _ & _ & Ht & Hst). by exists ps', p.
Qed.

(** ** [undo] and [redo] *)
Section toggles.
Context `{US : !UnstableSort, USL : !UnstableSortLaws, HO : !HashOrder, HOL : !HashOrderLaws}.
Implicit Types (b : sbuffer).

(** The stacks of a closed history may be rearranged. *)
Lemma set_stacks_wf b sp ps undo redo :
  buffer_wf b sp ps → transaction_depth (b_history b) = 0 → undo ++ redo ≡ₚ all_entries (b_history b) →
  buffer_wf (set_history b (with_stacks (b_history b) undo redo)) sp ps.
Proof.
  intros Hb Hd Hp. apply (with_history_wf b sp ps _ (b_lamport_clock b) Hb).
  - by apply closed_ok; [apply Hb|..].
  - pose proof (bw_edits _ _ _ Hb) as He. unfold edits_before in *. rewrite Forall_forall in *. intros t Ht. apply He.
    revert Ht. unfold all_entries at 1. cbn. by rewrite (stack_edits_perm _ _ Hp).
  - split; [apply Hb|]. cbn. lia.
  - done.
Qed.

Lemma entry_times b sp ps e :
  buffer_wf b sp ps → e ∈ all_entries (b_history b) → Forall (fun t => 1 < value t < value (b_lamport_clock b)) (tx_edit_ids (he_transaction e)).
Proof.
  intros Hb He. pose proof (bw_edits _ _ _ Hb) as Hs. unfold edits_before in Hs. rewrite Forall_forall in *. intros t Ht. apply Hs.
  unfold stack_edits. apply list_elem_of_In, in_flat_map. exists e. split; [by apply list_elem_of_In|by apply list_elem_of_In].
Qed.

(** One entry is moved between the stacks and its edits are toggled. *)
Lemma toggle_entry_spec b sp ps e undo redo :
  buffer_wf b sp ps → transaction_depth (b_history b) = 0 → undo ++ redo ≡ₚ all_entries (b_history b) → e ∈ all_entries (b_history b) →
  toggle_room b 1 (length (entry_edits e)) →
  ok_with (undo_or_redo (Sl:=list N) (set_history b (with_stacks (b_history b) undo redo)) (he_transaction e)) (fun r => ∃ ps' p,
    toggled b sp ps (entry_edits e) r.1 ps' p ∧ undo_stack (b_history r.1) = undo ∧ redo_stack (b_history r.1) = redo ∧
    transaction_depth (b_history r.1) = 0).
Proof using All.
  intros Hb Hd Hp He [R1 R2 R3]. eapply ok_with_mono.
  { apply (undo_or_redo_spec _ sp ps (he_transaction e) (set_stacks_wf b sp ps undo redo Hb Hd Hp)); [by apply (entry_times b sp ps)|by split]. }
  intros [b' op] (ps' & p & Ht & E1 & E2 & E3). cbn [fst] in *. exists ps', p. split_and!; [|done|done|by rewrite E3].
  destruct Ht as [T1 T2 T3 T4 T5 T6 T7 T8 T9]. split; try done. intros k n [Q1 Q2 Q3]. by apply T9; split.
Qed.

Lemma buffer_undo_spec b sp ps l e :
  buffer_wf b sp ps → transaction_depth (b_history b) = 0 → undo_stack (b_history b) = l ++ [e] → toggle_room b 1 (length (entry_edits e)) →
  ok_with (buffer_undo (Sl:=list N) b) (fun r => ∃ op ps' p, r.2 = Some (transaction_id e, op) ∧ toggled b sp ps (entry_edits e) r.1 ps' p ∧
    undo_stack (b_history r.1) = l ∧ redo_stack (b_history r.1) = redo_stack (b_history b) ++ [e] ∧ transaction_depth (b_history r.1) = 0).
Proof using All.
  intros Hb Hd Hu Hr. unfold buffer_undo, pop_undo. rewrite assert_closed, Hu, vec_pop_snoc by done. cbn [mbind outcome_bind].
  ok_bind (toggle_entry_spec b sp ps e l (redo_stack (b_history b) ++ [e]) Hb Hd); [| |done|].
  { unfold all_entries. rewrite Hu, <-app_assoc. apply Permutation_app_head. apply (comm app). }
  { unfold all_entries. rewrite Hu, !elem_of_app, list_elem_of_singleton. auto. }
  intros [b' op] (ps' & p & Ht & E1 & E2 & E3). cbn. by exists op, ps', p.
Qed.

Lemma buffer_redo_spec b sp ps l e :
  buffer_wf b sp ps → transaction_depth (b_history b) = 0 → redo_stack (b_history b) = l ++ [e] → toggle_room b 1 (length (entry_edits e)) →
  ok_with (buffer_redo (Sl:=list N) b) (fun r => ∃ op ps' p, r.2 = Some (transaction_id e, op) ∧ toggled b sp ps (entry_edits e) r.1 ps' p ∧
    undo_stack (b_history r.1) = undo_stack (b_history b) ++ [e] ∧ redo_stack (b_history r.1) = l ∧ transaction_depth (b_history r.1) = 0).
Proof using All.
  intros Hb Hd Hu Hr. unfold buffer_redo, pop_redo. rewrite assert_closed, Hu, vec_pop_snoc by done. cbn [mbind outcome_bind].
  ok_bind (toggle_entry_spec b sp ps e (undo_stack (b_history b) ++ [e]) l Hb Hd); [| |done|].
  { unfold all_entries. rewrite Hu, <-app_assoc. apply Permutation_app_head. apply (comm app [e] l). }
  { unfold all_entries. rewrite Hu, !elem_of_app, list_elem_of_singleton. auto. }
  intros [b' op] (ps' & p & Ht & E1 & E2 & E3). cbn. by exists op, ps', p.
Qed.

End toggles.

(** The text of a buffer is what its fragments show. *)
Lemma text_shown b sp ps : buffer_wf b sp ps → buffer_text b = shown (bs_undo_map (b_snapshot b)) ps.
Proof. intros Hb. rewrite shown_visible by apply Hb. symmetry. apply Hb. Qed.

(** Toggling the same edits twice shows the same text. *)
Lemma toggled_twice b sp ps ids b1 ps1 p1 sp1 b2 ps2 p2 :
  buffer_wf b sp ps → toggled b sp ps ids b1 ps1 p1 → toggled b1 sp1 ps1 ids b2 ps2 p2 →
  buffer_text b2 = buffer_text b ∧ ∀ e, undone_by (bs_undo_map (b_snapshot b2)) e = undone_by (bs_undo_map (b_snapshot b)) e.
Proof.
  intros Hb H1 H2. assert (Hun : ∀ e, undone_by (bs_undo_map (b_snapshot b2)) e = undone_by (bs_undo_map (b_snapshot b)) e).
  { intros e. rewrite (tg_undone _ _ _ _ _ _ _ H2), (tg_undone _ _ _ _ _ _ _ H1). destruct (decide _); [apply negb_involutive|done]. }
  split; [|done]. rewrite (tg_text _ _ _ _ _ _ _ H2), (tg_shown _ _ _ _ _ _ _ H1), (shown_ext _ _ ps Hun). symmetry. by eapply text_shown.
Qed.

(** ** Undoing an edit *)
Lemma shown_restored ts undos undos' (ps ps' : pieces) :
  Forall (origin ts ps.*1) ps'.*1 → Forall (fun f => f_visible f = visible_by undos f) ps.*1 → untouched ts ps.*1 →
  (∀ e, undone_by undos' e = if decide (e = ts) then true else undone_by undos e) → shown undos' ps' = restored_text ts ps'.
Proof.
  intros Hor Hv Hun Hu. unfold shown, restored_text. induction ps' as [|[g t] ps' IH]; [done|]. cbn in Hor. apply Forall_cons in Hor as [Hg Hor].
  cbn [flat_map]. rewrite IH by done. f_equal. unfold restored. cbn [fst snd]. rewrite Forall_forall in Hv, Hun.
  assert (Hts : undone_by undos' ts = true) by (by rewrite Hu, decide_True).
  assert (Hold : ∀ f, f ∈ ps.*1 → f_timestamp f ≠ ts ∧ ¬ (ts ∈ f_deletions f) ∧ visible_by undos' f = f_visible f).
  { intros f Hf. specialize (Hun f Hf). unfold touched in Hun. split_and!; [tauto|tauto|]. rewrite (Hv f Hf). apply visible_by_ext. intros e He. rewrite Hu.
    destruct (decide (e = ts)) as [->|]; [|done]. unfold stamps in He. apply elem_of_cons in He as [->|?]; tauto. }
  destruct Hg as [Ht Hd Hvis|f Hf Hp Hd Hvis|f Hf Hp Hd Hvf Hvis].
  - rewrite decide_True by done. unfold visible_by. by rewrite Ht, Hts.
  - destruct (Hold f Hf) as (Ht & Hdel & Hvf). rewrite decide_False, bool_decide_eq_false_2 by (rewrite ?(pt_insertion _ _ Hp), ?Hd; done).
    rewrite orb_false_r, Hvis, <-Hvf. unfold visible_by. by rewrite (pt_insertion _ _ Hp), Hd.
  - destruct (Hold f Hf) as (Ht & Hdel & Hvis'). rewrite decide_False by (by rewrite (pt_insertion _ _ Hp)).
    rewrite bool_decide_eq_true_2 by (rewrite Hd, elem_of_app, list_elem_of_singleton; by right). rewrite orb_true_r.
    unfold visible_by in *. rewrite (pt_insertion _ _ Hp), Hd, forallb_app. cbn. rewrite Hts, !andb_true_r, Hvis', Hvf. done.
Qed.

Lemma undo_edit_text b sp ps cs tail b1 ts ps1 p1 sp1 ids b2 ps2 p2 :
  buffer_wf b sp ps → edit_done b sp ps cs tail b1 ts ps1 p1 → toggled b1 sp1 ps1 ids b2 ps2 p2 → ids = [ts] → buffer_text b2 = buffer_text b.
Proof.
  intros Hb H1 H2 ->. rewrite (tg_text _ _ _ _ _ _ _ H2), <-(bd_restored _ _ _ _ _ _ _ _ _ H1).
  destruct (bd_time _ _ _ _ _ _ _ _ _ H1) as [Hts _]. pose proof (bw_undo _ _ _ Hb) as Hu.
  eapply (shown_restored ts (bs_undo_map (b_snapshot b))); [apply H1|apply Hu| |].
  - eapply Forall_impl; [exact (uw_times _ _ _ _ Hu)|]. intros f Hf. exact (older_untouched _ ts f Hf Hts).
  - intros e. rewrite (tg_undone _ _ _ _ _ _ _ H2), (bd_undos _ _ _ _ _ _ _ _ _ H1). destruct (decide (e ∈ [ts])) as [He|He]; rewrite list_elem_of_singleton in He.
    + subst e. rewrite decide_True by done. by rewrite (undone_unknown _ _ _ (uw_known _ _ _ _ Hu)) by done.
    + by rewrite decide_False.
Qed.

(** ** Several transactions *)
(** [m] transactions with the edits [ids] have been toggled. *)
Record all_toggled (b : sbuffer) (ps : pieces) (m : nat) (ids : list Lamport) (b' : sbuffer) : Prop := {
  at_wf : ∃ sp' ps', buffer_wf b' sp' ps' ∧ ∀ undos, shown undos ps' = shown undos ps;
  at_undone : ∀ e, undone_by (bs_undo_map (b_snapshot b')) e
    = if decide (e ∈ ids) then negb (undone_by (bs_undo_map (b_snapshot b)) e) else undone_by (bs_undo_map (b_snapshot b)) e;
  at_text : buffer_text b' = shown (bs_undo_map (b_snapshot b')) ps;
  at_kept : buffer_text b' ++ rope_text (bs_deleted_text (b_snapshot b')) ≡ₚ buffer_text b ++ rope_text (bs_deleted_text (b_snapshot b));
  at_clock : value (b_lamport_clock b) <= value (b_lamport_clock b');
  at_room : ∀ k n, toggle_room b (m + k) (length ids + n) → toggle_room b' k n
}.

Lemma toggled_all b sp ps ids b' ps' p : toggled b sp ps ids b' ps' p → all_toggled b ps 1 ids b'.
Proof. intros [T1 T2 T3 T4 T5 T6 T7 T8 T9]. split; try done; [by eexists _, ps'|lia]. Qed.

Lemma all_toggled_none b sp ps : buffer_wf b sp ps → all_toggled b ps 0 [] b.
Proof.
  intros Hb. split; try done; [by eexists sp, ps|]. by eapply text_shown.
Qed.

Lemma all_toggled_app b sp ps ids b1 ps1 p1 m ids' b2 :
  toggled b sp ps ids b1 ps1 p1 → all_toggled b1 ps1 m ids' b2 → NoDup (ids ++ ids') → all_toggled b ps (S m) (ids ++ ids') b2.
Proof.
  intros H1 [(sp2 & ps2 & Hw & Hs) Hu Ht Hk Hc Hr] Hn. split.
  - exists sp2, ps2. split; [done|]. intros undos. by rewrite Hs, (tg_shown _ _ _ _ _ _ _ H1).
  - intros e. rewrite Hu, (tg_undone _ _ _ _ _ _ _ H1). apply NoDup_app in Hn as (_ & Hd & _). specialize (Hd e).
    destruct (decide (e ∈ ids)) as [E1|E1], (decide (e ∈ ids')) as [E2|E2], (decide (e ∈ ids ++ ids')) as [E3|E3];
      rewrite elem_of_app in E3; try tauto; done.
  - by rewrite Ht, (tg_shown _ _ _ _ _ _ _ H1).
  - by rewrite Hk, (tg_kept _ _ _ _ _ _ _ H1).
  - pose proof (tg_clock _ _ _ _ _ _ _ H1). lia.
  - intros k n Hroom. apply Hr, (tg_room _ _ _ _ _ _ _ H1). by rewrite length_app, <-Nat.add_assoc in Hroom.
Qed.

Section several.
Context `{US : !UnstableSort, USL : !UnstableSortLaws, HO : !HashOrder, HOL : !HashOrderLaws}.

Lemma undo_or_redo_all_spec es b sp ps :
  buffer_wf b sp ps → Forall (fun t => 1 < value t < value (b_lamport_clock b)) (stack_edits es) → NoDup (stack_edits es) →
  toggle_room b (length es) (length (stack_edits es)) →
  ok_with (undo_or_redo_all (Sl:=list N) b es) (fun r => all_toggled b ps (length es) (stack_edits es) r.1 ∧ same_stacks b r.1 ∧ length r.2 = length es).
Proof using All.
  revert b sp ps. induction es as [|e es IH]; intros b sp ps Hb Ht Hn Hr.
  { cbn. split_and!; [by eapply all_toggled_none|done..]. }
  cbn [undo_or_redo_all]. change (stack_edits (e :: es)) with (entry_edits e ++ stack_edits es) in *. rewrite length_app in Hr.
  apply Forall_app in Ht as [Ht1 Ht2]. pose proof (NoDup_app (entry_edits e) (stack_edits es)) as [Hnd _]. destruct (Hnd Hn) as (_ & _ & Hn2).
  ok_bind (undo_or_redo_spec b sp ps (he_transaction e) Hb Ht1).
  { destruct Hr as [[Q1 Q2 Q3] Q4 Q5]. unfold entry_edits in Q3. split; [split|..]; cbn [length] in *; try done; lia. }
  intros [b1 op] (ps1 & p1 & H1 & S1). cbn [fst] in *.
  ok_bind (IH b1 _ ps1 (tg_wf _ _ _ _ _ _ _ H1)); [|done|by apply (tg_room _ _ _ _ _ _ _ H1)|].
  { pose proof (tg_clock _ _ _ _ _ _ _ H1). eapply Forall_impl; [exact Ht2|]. cbn. lia. }
  intros [b2 ops] (H2 & S2 & El). cbn [fst snd ok_with] in *. split_and!; [by eapply all_toggled_app| |cbn; by rewrite El].
  destruct S1 as (E1 & E2 & E3), S2 as (F1 & F2 & F3). unfold same_stacks. by rewrite F1, F2, F3.
Qed.

(** Some entries are moved between the stacks and toggled. *)
Lemma toggle_entries_spec b sp ps es undo redo :
  buffer_wf b sp ps → transaction_depth (b_history b) = 0 → undo ++ redo ≡ₚ all_entries (b_history b) →
  (∃ others, es ++ others ≡ₚ all_entries (b_history b)) → toggle_room b (length es) (length (stack_edits es)) →
  ok_with (undo_or_redo_all (Sl:=list N) (set_history b (with_stacks (b_history b) undo redo)) es) (fun r =>
    all_toggled b ps (length es) (stack_edits es) r.1 ∧ undo_stack (b_history r.1) = undo ∧ redo_stack (b_history r.1) = redo ∧
    transaction_depth (b_history r.1) = 0 ∧ length r.2 = length es).
Proof using All.
  intros Hb Hd Hp [others Ho] [R1 R2 R3]. pose proof (stack_edits_perm _ _ Ho) as Hse. rewrite stack_edits_app in Hse. eapply ok_with_mono.
  { apply (undo_or_redo_all_spec es _ sp ps (set_stacks_wf b sp ps undo redo Hb Hd Hp)); [| |by split].
    - pose proof (bw_edits _ _ _ Hb) as He. unfold edits_before in He. rewrite <-Hse in He. by apply Forall_app in He as [? _].
    - pose proof (ho_edits _ _ (bw_history _ _ _ Hb)) as He. rewrite <-Hse in He. by apply NoDup_app in He as (? & _ & _). }
  intros [b' ops] ([H1 H2 H3 H4 H5 H6] & (E1 & E2 & E3) & El). cbn [fst snd] in *. split_and!; [split; try done; intros k n [Q1 Q2 Q3]; by apply H6; split|done|done|by rewrite E3|done].
Qed.

Lemma rev_edits_perm (es : list HistoryEntry) : stack_edits (rev es) ≡ₚ stack_edits es.
Proof. apply stack_edits_perm. symmetry. apply Permutation_rev. Qed.

Lemma all_toggled_perm b ps m ids ids' b' : ids ≡ₚ ids' → all_toggled b ps m ids b' → all_toggled b ps m ids' b'.
Proof.
  intros Hp [H1 H2 H3 H4 H5 H6]. split; try done; [|intros k n; rewrite <-Hp; apply H6]. intros e. rewrite H2. by rewrite (decide_ext (e ∈ ids) (e ∈ ids')) by (by rewrite Hp).
Qed.

Lemma undo_to_spec b sp ps keep e rest :
  buffer_wf b sp ps → transaction_depth (b_history b) = 0 → undo_stack (b_history b) = keep ++ e :: rest →
  toggle_room b (length (e :: rest)) (length (stack_edits (e :: rest))) →
  ok_with (undo_to_transaction (Sl:=list N) b (transaction_id e)) (fun r =>
    all_toggled b ps (length (e :: rest)) (stack_edits (e :: rest)) r.1 ∧ undo_stack (b_history r.1) = keep ∧
    redo_stack (b_history r.1) = redo_stack (b_history b) ++ rev (e :: rest) ∧ transaction_depth (b_history r.1) = 0 ∧
    length r.2 = length (e :: rest)).
Proof using All.
  intros Hb Hd Hu Hr. unfold undo_to_transaction. rewrite (undo_until_entry _ _ keep e rest (bw_history _ _ _ Hb) Hd Hu). cbn [mbind outcome_bind].
  rewrite <-length_rev, <-(rev_edits_perm (e :: rest)) in Hr.
  eapply ok_with_mono; [apply (toggle_entries_spec b sp ps (rev (e :: rest)) keep _ Hb Hd); [| |done]|].
  - unfold all_entries. rewrite Hu, <-Permutation_rev, <-app_assoc. apply Permutation_app_head, (comm app).
  - exists (keep ++ redo_stack (b_history b)). unfold all_entries. rewrite Hu, <-Permutation_rev, <-app_assoc, app_assoc, (app_assoc keep).
    apply Permutation_app_tail, (comm app).
  - intros r (H1 & H2 & H3 & H4 & H5). split_and!; [|done|done|done|by rewrite H5, length_rev]. rewrite length_rev in H1. eapply all_toggled_perm; [apply rev_edits_perm|done].
Qed.

Lemma redo_to_spec b sp ps keep e rest :
  buffer_wf b sp ps → transaction_depth (b_history b) = 0 → redo_stack (b_history b) = keep ++ e :: rest →
  toggle_room b (length (e :: rest)) (length (stack_edits (e :: rest))) →
  ok_with (redo_to_transaction (Sl:=list N) b (transaction_id e)) (fun r =>
    all_toggled b ps (length (e :: rest)) (stack_edits (e :: rest)) r.1 ∧ undo_stack (b_history r.1) = undo_stack (b_history b) ++ rev (e :: rest) ∧
    redo_stack (b_history r.1) = keep ∧ transaction_depth (b_history r.1) = 0 ∧ length r.2 = length (e :: rest)).
Proof using All.
  intros Hb Hd Hu Hr. unfold redo_to_transaction. rewrite (redo_until_entry _ _ keep e rest (bw_history _ _ _ Hb) Hd Hu). cbn [mbind outcome_bind].
  rewrite <-length_rev, <-(rev_edits_perm (e :: rest)) in Hr.
  eapply ok_with_mono; [apply (toggle_entries_spec b sp ps (rev (e :: rest)) _ keep Hb Hd); [| |done]|].
  - unfold all_entries. rewrite Hu, <-Permutation_rev, <-app_assoc. apply Permutation_app_head, (comm app).
  - exists (undo_stack (b_history b) ++ keep). unfold all_entries. rewrite Hu, <-Permutation_rev. rewrite (comm app (e :: rest)), <-app_assoc. done.
  - intros r (H1 & H2 & H3 & H4 & H5). split_and!; [|done|done|done|by rewrite H5, length_rev]. rewrite length_rev in H1. eapply all_toggled_perm; [apply rev_edits_perm|done].
Qed.

Lemma undo_transaction_spec b sp ps keep e rest :
  buffer_wf b sp ps → transaction_depth (b_history b) = 0 → undo_stack (b_history b) = keep ++ e :: rest → toggle_room b 1 (length (entry_edits e)) →
  ok_with (undo_transaction (Sl:=list N) b (transaction_id e)) (fun r => ∃ op ps' p, r.2 = Some op ∧ toggled b sp ps (entry_edits e) r.1 ps' p ∧
    undo_stack (b_history r.1) = keep ++ rest ∧ redo_stack (b_history r.1) = redo_stack (b_history b) ++ [e] ∧ transaction_depth (b_history r.1) = 0).
Proof using All.
  intros Hb Hd Hu Hr. unfold undo_transaction. rewrite (remove_entry _ _ keep e rest (bw_history _ _ _ Hb) Hd Hu). cbn [mbind outcome_bind].
  ok_bind (toggle_entry_spec b sp ps e (keep ++ rest) (redo_stack (b_history b) ++ [e]) Hb Hd); [| |done|].
  { unfold all_entries. rewrite Hu, <-!app_assoc. apply Permutation_app_head. rewrite app_assoc, (comm app _ [e]). done. }
  { unfold all_entries. rewrite Hu, !elem_of_app, elem_of_cons. auto. }
  intros [b' op] (ps' & p & Ht & E1 & E2 & E3). cbn. by exists op, ps', p.
Qed.
End several.

(** * Correctness of undoing and redoing

    What [undo], [redo], [undo_transaction], [undo_to_transaction] and [redo_to_transaction]
    do to a buffer and its text. *)

(** C10: [undo] and [redo] panic inside a transaction, do nothing when there is no transaction
    to undo or redo, and otherwise move the last one to the other stack and toggle its edits:
    those that were done are undone, those that were undone are done again and no other is
    touched.  The new text is what the fragments show by the new undo map; no character is
    lost, the invariant of buffers is kept and the subscribers get a patch from the old text to
    the new one. *)
Theorem buffer_undo_correct `{US : !UnstableSort, USL : !UnstableSortLaws, HO : !HashOrder, HOL : !HashOrderLaws} b sp ps :
  buffer_wf b sp ps →
  (0 < transaction_depth (b_history b) → buffer_undo (Sl:=list N) b = Panic ∧ buffer_redo (Sl:=list N) b = Panic) ∧
  (transaction_depth (b_history b) = 0 →
    (undo_stack (b_history b) = [] → buffer_undo (Sl:=list N) b = Ok (b, None)) ∧
    (redo_stack (b_history b) = [] → buffer_redo (Sl:=list N) b = Ok (b, None)) ∧
    (∀ l e, undo_stack (b_history b) = l ++ [e] → toggle_room b 1 (length (entry_edits e)) →
      ∃ b' op ps' p, buffer_undo (Sl:=list N) b = Ok (b', Some (transaction_id e, op)) ∧ toggled b sp ps (entry_edits e) b' ps' p ∧
        undo_stack (b_history b') = l ∧ redo_stack (b_history b') = redo_stack (b_history b) ++ [e]) ∧
    (∀ l e, redo_stack (b_history b) = l ++ [e] → toggle_room b 1 (length (entry_edits e)) →
      ∃ b' op ps' p, buffer_redo (Sl:=list N) b = Ok (b', Some (transaction_id e, op)) ∧ toggled b sp ps (entry_edits e) b' ps' p ∧
        undo_stack (b_history b') = undo_stack (b_history b) ++ [e] ∧ redo_stack (b_history b') = l)).
Proof.
  intros Hb. split; [intros Hd|intros Hd; split_and!].
  - unfold buffer_undo, buffer_redo, pop_undo, pop_redo. by rewrite (proj2 (N.eqb_neq _ 0)) by lia.
  - intros Hu. unfold buffer_undo, pop_undo. rewrite assert_closed, Hu by done. by destruct b.
  - intros Hu. unfold buffer_redo, pop_redo. rewrite assert_closed, Hu by done. by destruct b.
  - intros l e Hu Hr. destruct (ok_with_inv _ _ (buffer_undo_spec b sp ps l e Hb Hd Hu Hr)) as ([b' o] & E & op & ps' & p & Eo & Ht & E1 & E2 & _).
    cbn in Eo. subst o. by exists b', op, ps', p.
  - intros l e Hu Hr. destruct (ok_with_inv _ _ (buffer_redo_spec b sp ps l e Hb Hd Hu Hr)) as ([b' o] & E & op & ps' & p & Eo & Ht & E1 & E2 & _).
    cbn in Eo. subst o. by exists b', op, ps', p.
Qed.

(** C5: undoing an edit brings back the text from before it, wherever the edit cut into the text
    and whatever was undone at the time, and redoing it the text from after it; the
    transactions are on their stacks again. *)
Theorem edit_undo_redo_restores `{US : !UnstableSort, USL : !UnstableSortLaws, HO : !HashOrder, HOL : !HashOrderLaws}
    b sp ps cs tail started ended b1 op l e :
  buffer_wf b sp ps → edit_room b cs → cs ≠ [] → buffer_text b = before_changes cs ++ tail → Forall (fun c => Forall char_ok (ch_insert c)) cs →
  buffer_edit (Sl:=list N) b started ended (edits_at 0 cs) = Ok (b1, OpEdit op) → transaction_depth (b_history b) = 0 →
  undo_stack (b_history b1) = l ++ [e] → entry_edits e = [eo_timestamp op] → toggle_room b1 2 2 →
  ∃ b2 op2 b3 op3,
    buffer_undo (Sl:=list N) b1 = Ok (b2, Some (transaction_id e, op2)) ∧ buffer_text b2 = buffer_text b ∧
    buffer_redo (Sl:=list N) b2 = Ok (b3, Some (transaction_id e, op3)) ∧ buffer_text b3 = buffer_text b1 ∧
    undo_stack (b_history b3) = undo_stack (b_history b1) ∧ redo_stack (b_history b3) = redo_stack (b_history b1).
Proof.
  intros Hb Hr Hne Et Hcs E Hd Hu He Hroom. pose proof (buffer_edit_spec b sp ps cs tail started ended Hb Hr Hne Et Hcs) as Hx. rewrite E in Hx.
  destruct Hx as (op' & ps1 & p1 & Eop & _ & H1 & _). cbn [fst snd] in *. injection Eop as <-. pose proof (bd_depth _ _ _ _ _ _ _ _ _ H1) as Hd1. rewrite Hd in Hd1.
  assert (Hr1 : toggle_room b1 1 (length (entry_edits e))).
  { rewrite He. apply (toggle_room_le _ _ _ _ _ Hroom); cbn; lia. }
  destruct (ok_with_inv _ _ (buffer_undo_spec b1 _ ps1 l e (bd_wf _ _ _ _ _ _ _ _ _ H1) Hd1 Hu Hr1)) as ([b2 o2] & E2 & op2 & ps2 & p2 & Eo2 & H2 & Eu2 & Er2 & Hd2).
  assert (Hr2 : toggle_room b2 1 (length (entry_edits e))) by (apply (tg_room _ _ _ _ _ _ _ H2); by rewrite He).
  destruct (ok_with_inv _ _ (buffer_redo_spec b2 _ ps2 (redo_stack (b_history b1)) e (tg_wf _ _ _ _ _ _ _ H2) Hd2 Er2 Hr2)) as ([b3 o3] & E3 & op3 & ps3 & p3 & Eo3 & H3 & Eu3 & Er3 & Hd3).
  cbn [fst snd] in *. subst o2 o3. exists b2, op2, b3, op3. split_and!; try done.
  - eapply undo_edit_text; [exact Hb|exact H1|exact H2|done].
  - eapply toggled_twice; [exact (bd_wf _ _ _ _ _ _ _ _ _ H1)|exact H2|exact H3].
  - by rewrite Eu3, Eu2, Hu.
Qed.

(** C11: [undo_to_transaction] undoes a transaction and all after it, and [redo_to_transaction]
    up to the last of them does all of them again: the text and the stacks are as before.  In
    between exactly their edits are undone. *)
Theorem undo_to_redo_to_roundtrip `{US : !UnstableSort, USL : !UnstableSortLaws, HO : !HashOrder, HOL : !HashOrderLaws} b sp ps keep e rest front final :
  buffer_wf b sp ps → transaction_depth (b_history b) = 0 → undo_stack (b_history b) = keep ++ e :: rest → e :: rest = front ++ [final] →
  toggle_room b (2 * length (e :: rest)) (2 * length (stack_edits (e :: rest))) →
  ∃ b1 ops1 b2 ops2,
    undo_to_transaction (Sl:=list N) b (transaction_id e) = Ok (b1, ops1) ∧
    all_toggled b ps (length (e :: rest)) (stack_edits (e :: rest)) b1 ∧ undo_stack (b_history b1) = keep ∧
    redo_to_transaction (Sl:=list N) b1 (transaction_id final) = Ok (b2, ops2) ∧ buffer_text b2 = buffer_text b ∧
    undo_stack (b_history b2) = undo_stack (b_history b) ∧ redo_stack (b_history b2) = redo_stack (b_history b).
Proof.
  intros Hb Hd Hu Hl Hroom. assert (Hr : toggle_room b (length (e :: rest)) (length (stack_edits (e :: rest)))).
  { apply (toggle_room_le _ _ _ _ _ Hroom); lia. }
  destruct (ok_with_inv _ _ (undo_to_spec b sp ps keep e rest Hb Hd Hu Hr)) as ([b1 ops1] & E1 & H1 & Eu1 & Er1 & Hd1 & _).
  cbn [fst snd] in *.
  pose proof (at_wf _ _ _ _ _ H1) as (sp1 & ps1 & Hb1 & Hs1). rewrite Hl, rev_unit in Er1.
  assert (Hr2 : toggle_room b1 (length (final :: rev front)) (length (stack_edits (final :: rev front)))).
  { rewrite <-rev_unit, <-Hl, length_rev, (rev_edits_perm (e :: rest)). apply (at_room _ _ _ _ _ H1).
    by replace (length (e :: rest) + length (e :: rest))%nat with (2 * length (e :: rest))%nat by lia;
      replace (length (stack_edits (e :: rest)) + length (stack_edits (e :: rest)))%nat with (2 * length (stack_edits (e :: rest)))%nat by lia. }
  destruct (ok_with_inv _ _ (redo_to_spec b1 sp1 ps1 (redo_stack (b_history b)) final (rev front) Hb1 Hd1 Er1 Hr2)) as ([b2 ops2] & E2 & H2 & Eu2 & Er2 & _ & _).
  cbn [fst snd] in *. exists b1, ops1, b2, ops2. rewrite <-rev_unit, <-Hl in Eu2, H2. rewrite rev_involutive, Eu1, <-Hu in Eu2. split_and!; try done.
  rewrite (at_text _ _ _ _ _ H2), Hs1, (text_shown b sp ps Hb). apply shown_ext. intros x. rewrite (at_undone _ _ _ _ _ H2), (at_undone _ _ _ _ _ H1).
  rewrite (decide_ext (x ∈ stack_edits (rev (e :: rest))) (x ∈ stack_edits (e :: rest))) by (by rewrite rev_edits_perm).
  destruct (decide _); [apply negb_involutive|done].
Qed.

(** ** On a concrete buffer *)
#[local] Existing Instance insertion_sort.
#[local] Existing Instance insertion_sort_laws.
#[local] Existing Instance insertion_order.
#[local] Existing Instance insertion_order_laws.

(** The sample text, edited. *)
Definition sample_run (edits : list (Range N * list N)) : outcome sbuffer :=
  b ← buffer_new (C:=list N) (Sl:=list N) (Sm:=list N) LOCAL 1 (str_of sample_text);
  '(b, _) ← buffer_edit (Sl:=list N) b 0 0 edits;
  Ok b.
Lemma sample_run_ok edits b b1 op :
  buffer_new (C:=list N) (Sl:=list N) (Sm:=list N) LOCAL 1 (str_of sample_text) = Ok b →
  buffer_edit (Sl:=list N) b 0 0 edits = Ok (b1, op) → sample_run edits = Ok b1.
Proof. intros E E1. unfold sample_run. rewrite E. cbn [mbind outcome_bind]. rewrite E1. reflexivity. Qed.

Definition sample_measure (b : sbuffer) : list (list Lamport) * list nat * list N :=
  (entry_edits <$> undo_stack (b_history b),
   [length (redo_stack (b_history b)); length (tree_items (bs_undo_map (b_snapshot b))); length (tree_items (operations (b_history b)));
    length (tree_items (bs_fragments (b_snapshot b)))],
   [transaction_depth (b_history b); value (b_lamport_clock b); byte_len (rope_text (bs_visible_text (b_snapshot b)));
    byte_len (rope_text (bs_deleted_text (b_snapshot b)))]).

Lemma fmap_ok_inv {A B} (f : A → B) (m : outcome A) (y : B) a : (f <$> m) = Ok y → m = Ok a → f a = y.
Proof. intros H ->. by injection H. Qed.
Lemma sample_measured b :
  sample_run (edits_at 0 [sample_change]) = Ok b → sample_measure b = ([[mkLamport 3 LOCAL]], [0; 0; 1; 4]%nat, [0; 4; 4; 1]).
Proof. apply fmap_ok_inv. vm_compute. reflexivity. Qed.

(** The sample edit, as the theorems on edits see it. *)
Lemma sample_edited : ∃ b ps b1 op ps1 p1 e,
  buffer_wf b (mkSpec 3 ∅ 0%nat) ps ∧ edit_room b [sample_change] ∧ buffer_text b = [97; NEWLINE; 98] ∧ transaction_depth (b_history b) = 0 ∧
  buffer_edit (Sl:=list N) b 0 0 (edits_at 0 [sample_change]) = Ok (b1, OpEdit op) ∧
  edit_done b (mkSpec 3 ∅ 0%nat) ps [sample_change] [98] b1 (eo_timestamp op) ps1 p1 ∧
  undo_stack (b_history b1) = [] ++ [e] ∧ entry_edits e = [eo_timestamp op] ∧ toggle_room b1 2 2 ∧
  redo_stack (b_history b1) = [] ∧ buffer_new (C:=list N) (Sl:=list N) (Sm:=list N) LOCAL 1 (str_of sample_text) = Ok b.
Proof.
  destruct (ok_with_inv _ _ (buffer_new_spec LOCAL 1 sample_text sample_ok ltac:(by vm_compute)))
    as (b & E & ps & Hb & Et & Ed & Hd & Eo & Es & Hc & Hl & _).
  assert (Hr : edit_room b [sample_change]) by (by eapply sample_room).
  destruct (ok_with_inv _ _ (buffer_edit_spec b _ ps [sample_change] [98] 0 0 Hb Hr ltac:(done) ltac:(done) ltac:(by repeat constructor; left; lia)))
    as ([b1 o] & E1 & op & ps1 & p1 & Eop & _ & H1 & _). cbn [fst snd] in *. subst o.
  pose proof (sample_measured b1 (sample_run_ok _ b b1 _ E E1)) as Hm. unfold sample_measure in Hm. injection Hm as M1 M2 M3 M4 M5 M6 M7 M8 M9.
  destruct (undo_stack (b_history b1)) as [|e [|]] eqn:Eu; [done| |done]. cbn in M1. injection M1 as M1.
  exists b, ps, b1, op, ps1, p1, e. split_and!; try done.
  - pose proof (bd_undo _ _ _ _ _ _ _ _ _ H1) as Hin. rewrite Eu in Hin. cbn in Hin. rewrite app_nil_r, M1 in Hin.
    apply list_elem_of_singleton in Hin. by rewrite M1, Hin.
  - split; [split|..]; [rewrite M8, M9; lia|rewrite M5; unfold MAX_CHUNKS; lia|rewrite M3; lia|rewrite M4; lia|rewrite M7; unfold u32_max; lia].
  - by apply nil_length_inv.
Qed.

(** Undoing the sample edit takes its timestamp off the undo stack and toggles it alone. *)
Lemma buffer_undo_correct_witness : ∃ b1 sp1 ps1 e b2 o ps2 p2,
  buffer_text b1 = after_changes [sample_change] ++ [98] ∧ length (entry_edits e) = 1%nat ∧
  buffer_undo (Sl:=list N) b1 = Ok (b2, Some (transaction_id e, o)) ∧ toggled b1 sp1 ps1 (entry_edits e) b2 ps2 p2 ∧
  undo_stack (b_history b2) = [].
Proof.
  destruct sample_edited as (b & ps & b1 & op & ps1 & p1 & e & Hb & Hr & Et & Hd & E1 & H1 & Eu & Ee & Hroom & _ & _).
  assert (Hd1 : transaction_depth (b_history b1) = 0) by (rewrite (bd_depth _ _ _ _ _ _ _ _ _ H1); exact Hd).
  assert (Hr1 : toggle_room b1 1 (length (entry_edits e))) by (rewrite Ee; apply (toggle_room_le b1 2 2); [exact Hroom|cbn; lia..]).
  destruct (proj2 (buffer_undo_correct b1 _ ps1 (bd_wf _ _ _ _ _ _ _ _ _ H1)) Hd1) as (_ & _ & Hundo & _).
  destruct (Hundo [] e Eu Hr1) as (b2 & o & ps2 & p2 & E2 & H2 & Eu2 & _).
  exists b1, (published (mkSpec 3 ∅ 0%nat) p1 (byte_len (buffer_text b1))), ps1, e, b2, o, ps2, p2.
  split; [exact (bd_text _ _ _ _ _ _ _ _ _ H1)|]. rewrite Ee at 1. split; [reflexivity|]. split; [exact E2|]. split; [exact H2|exact Eu2].
Defined.

(** The sample text comes back after its edit is undone. *)
Lemma edit_undo_redo_restores_witness : ∃ b1 b2 b3 e op2 op3,
  buffer_undo (Sl:=list N) b1 = Ok (b2, Some (transaction_id e, op2)) ∧ buffer_text b2 = [97; NEWLINE; 98] ∧
  buffer_redo (Sl:=list N) b2 = Ok (b3, Some (transaction_id e, op3)) ∧ buffer_text b3 = after_changes [sample_change] ++ [98].
Proof.
  destruct sample_edited as (b & ps & b1 & op & ps1 & p1 & e & Hb & Hr & Et & Hd & E1 & H1 & Eu & Ee & Hroom & _ & _).
  assert (Hne : [sample_change] ≠ []) by discriminate.
  assert (Hcs : Forall (fun c => Forall char_ok (ch_insert c)) [sample_change]) by (repeat constructor; left; lia).
  destruct (edit_undo_redo_restores b _ ps [sample_change] [98] 0 0 b1 op [] e Hb Hr Hne Et Hcs E1 Hd Eu Ee Hroom)
    as (b2 & op2 & b3 & op3 & E2 & T2 & E3 & T3 & _).
  exists b1, b2, b3, e, op2, op3. rewrite T2, T3. split; [exact E2|]. split; [exact Et|]. split; [exact E3|exact (bd_text _ _ _ _ _ _ _ _ _ H1)].
Defined.

Lemma undo_to_redo_to_roundtrip_witness : ∃ b1 e b2 ops2 b3 ops3,
  undo_to_transaction (Sl:=list N) b1 (transaction_id e) = Ok (b2, ops2) ∧ undo_stack (b_history b2) = [] ∧
  redo_to_transaction (Sl:=list N) b2 (transaction_id e) = Ok (b3, ops3) ∧ buffer_text b3 = after_changes [sample_change] ++ [98].
Proof.
  destruct sample_edited as (b & ps & b1 & op & ps1 & p1 & e & Hb & Hr & Et & Hd & E1 & H1 & Eu & Ee & Hroom & _ & _).
  assert (Hd1 : transaction_depth (b_history b1) = 0) by (rewrite (bd_depth _ _ _ _ _ _ _ _ _ H1); exact Hd).
  assert (Hr1 : toggle_room b1 (2 * length [e]) (2 * length (stack_edits [e]))).
  { unfold stack_edits. cbn. rewrite app_nil_r, Ee. cbn. exact Hroom. }
  destruct (undo_to_redo_to_roundtrip b1 _ ps1 [] e [] [] e (bd_wf _ _ _ _ _ _ _ _ _ H1) Hd1 Eu eq_refl Hr1)
    as (b2 & ops2 & b3 & ops3 & E2 & _ & Eu2 & E3 & T3 & _).
  exists b1, e, b2, ops2, b3, ops3. rewrite T3. split; [exact E2|]. split; [exact Eu2|]. split; [exact E3|exact (bd_text _ _ _ _ _ _ _ _ _ H1)].
Defined.
