(* ===== verification/BufferReach.v ===== *)
(** * Using a buffer

    The steps a buffer goes through when it is edited, undone, redone and observed, and that
    the invariant of buffers holds after any of them. *)

From stdpp Require Import sets.
From S2P Require Import Prelude Ord Clock SumTree SumTreeFacts Cursor Locator Patch PatchFacts Subscription Bitmap Utf8 Point TextSummary Chunk ChunkFacts Rope RopeFacts KeyedTree KeyedFacts TreeMap TreeMapFacts UndoMap History HistoryFacts Fragments BufferEdit EditIndex EditFacts LocalEdit Buffer BufferFacts BufferUndo UndoSpec UndoCorrect.
Local Open Scope N_scope.

(** ** Operations on the history *)
Section books.
Context {Rope : Type}.
Implicit Types (h : History Rope) (clock : Lamport).

(** The entries of [h'] hold no other edits than those of [h]. *)
Definition fewer_edits h h' : Prop :=
  (∀ t, t ∈ stack_edits (all_entries h') → t ∈ stack_edits (all_entries h)) ∧ transaction_depth h' = transaction_depth h.

Lemma finalize_fewer h : fewer_edits h (finalize_last_transaction h).1.
Proof.
  split; [|done]. intros t. unfold finalize_last_transaction, all_entries. cbn.
  destruct (snoc_case (undo_stack h)) as [->|(l & x & ->)]; [done|]. by rewrite update_last_snoc, !stack_edits_app.
Qed.

Lemma group_until_fewer h id : ok_with (group_until h id) (fewer_edits h).
Proof.
  unfold group_until. destruct (group_until_loop _ _ _) as [n|] eqn:E; [|done].
  apply group_until_split in E as (keep & e & merged & Heq & -> & _).
  rewrite rev_involutive in Heq. cbn [Nat.add]. rewrite (group_trailing_eq _ keep e merged) by done. cbn. split; [|done].
  intros t. unfold all_entries. cbn. by rewrite Heq, !(stack_edits_app _ (redo_stack h)), grouped_edits.
Qed.

Lemma forget_fewer h id :
  transaction_depth h = 0 → ok_with (forget h id) (fun r => fewer_edits h r.1 ∧ ∀ t, r.2 = Some t → ∀ e, e ∈ tx_edit_ids t → e ∈ stack_edits (all_entries h)).
Proof.
  intros Hd. unfold forget. rewrite assert_closed by done.
  destruct (rposition _ (undo_stack h)) as [i|] eqn:E;
    [|destruct (rposition _ (redo_stack h)) as [i|] eqn:E'; [|done]; clear E; rename E' into E];
    apply rposition_Some in E as (l1 & x & l2 & Hu & -> & _); rewrite Hu, vec_remove_middle; cbn [ok_with mbind outcome_bind fst snd];
    unfold fewer_edits, all_entries; cbn; rewrite Hu, !stack_edits_app; cbn; unfold entry_edits; set_solver.
Qed.

Lemma merge_fewer h id destination :
  transaction_depth h = 0 → ok_with (merge_transactions h id destination) (fewer_edits h).
Proof.
  intros Hd. unfold merge_transactions. ok_bind (forget_fewer h id); [done|].
  intros [h1 [t|]] ([Hs Hd1] & Ht); cbn [fst snd] in *; [|done]. apply ok_with_ret.
  destruct (transaction_mut h1 destination _) as [h2|] eqn:E; cbn [default from_option Datatypes.id]; [|done].
  apply transaction_mut_entries in E as (l1 & x & l2 & He1 & He2 & _ & Hd2 & Hop). split; [|by rewrite Hd2].
  intros e. rewrite He2, stack_edits_app. cbn. rewrite !elem_of_app. intros [He|[[He|He]|He]]; try (by apply (Ht t)); apply Hs; rewrite He1, stack_edits_app; cbn;
    unfold entry_edits; rewrite !elem_of_app; auto.
Qed.
End books.

Lemma fewer_wf b sp ps h :
  buffer_wf b sp ps → history_ok h (b_lamport_clock b) → fewer_edits (b_history b) h → buffer_wf (set_history b h) sp ps.
Proof.
  intros Hb Hh [Hs Hd]. apply (with_history_wf b sp ps _ _ Hb Hh); [| |done].
  - pose proof (bw_edits _ _ _ Hb) as He. unfold edits_before in *. rewrite Forall_forall in *. intros t Ht. by apply He, Hs.
  - destruct (bw_clock _ _ _ Hb) as [Hp Hst]. split; [done|]. by rewrite Hd.
Qed.

(** A new closed entry, with old edits. *)
Lemma push_entry_wf b sp ps t now clock :
  buffer_wf b sp ps → transaction_depth (b_history b) = 0 → history_ok (push_entry (b_history b) t now) clock →
  value (b_lamport_clock b) <= value clock → Forall (fun e => 1 < value e < value clock) (tx_edit_ids t) →
  buffer_wf (mkBuffer (b_snapshot b) (push_entry (b_history b) t now) clock (b_subscriptions b)) sp ps.
Proof.
  intros Hb Hd Hh Hc Ht. apply (with_history_wf b sp ps _ _ Hb Hh); [| |done].
  - pose proof (bw_edits _ _ _ Hb) as He. unfold edits_before, all_entries in *. cbn. rewrite !stack_edits_app in *. cbn. rewrite app_nil_r.
    apply Forall_app in He as [He1 He2]. rewrite !Forall_app. split_and!; [|done|]; (eapply Forall_impl; [eassumption|]; cbn; lia).
  - destruct (bw_clock _ _ _ Hb) as [Hp Hst]. split; [lia|]. cbn. lia.
Qed.

(** ** Commands *)
Inductive BufferCommand :=
  | BEdit (started ended : Instant) (changes : list Change)
  | BStart (now : Instant)
  | BEnd (now : Instant)
  | BFinalize
  | BGroupUntil (id : TransactionId)
  | BForget (id : TransactionId)
  | BMerge (id destination : TransactionId)
  | BPushTransaction (t : Transaction) (now : Instant)
  | BPushEmpty (now : Instant)
  | BSetGroupInterval (interval : Duration)
  | BUndo
  | BRedo
  | BUndoTransaction (id : TransactionId)
  | BUndoTo (id : TransactionId)
  | BRedoTo (id : TransactionId)
  | BSubscriber (ev : Event).

Definition with_world (b : sbuffer) (w : World) : sbuffer := mkBuffer (b_snapshot b) (b_history b) (b_lamport_clock b) w.

(** The buffer after a command. *)
Definition run `{!UnstableSort, !HashOrder} (b : sbuffer) (c : BufferCommand) : outcome sbuffer :=
  match c with
  | BEdit started ended cs => '(b, _) ← buffer_edit (Sl:=list N) b started ended (edits_at 0 cs); Ok b
  | BStart now => Ok (start_transaction_at b now).1
  | BEnd now => '(b, _) ← end_transaction_at b now; Ok b
  | BFinalize => Ok (buffer_finalize_last_transaction b).1
  | BGroupUntil id => group_until_transaction b id
  | BForget id => '(b, _) ← forget_transaction b id; Ok b
  | BMerge id destination => buffer_merge_transactions b id destination
  | BPushTransaction t now => buffer_push_transaction b t now
  | BPushEmpty now => '(b, _) ← buffer_push_empty_transaction b now; Ok b
  | BSetGroupInterval interval => Ok (set_group_interval b interval)
  | BUndo => '(b, _) ← buffer_undo (Sl:=list N) b; Ok b
  | BRedo => '(b, _) ← buffer_redo (Sl:=list N) b; Ok b
  | BUndoTransaction id => '(b, _) ← undo_transaction (Sl:=list N) b id; Ok b
  | BUndoTo id => '(b, _) ← undo_to_transaction (Sl:=list N) b id; Ok b
  | BRedoTo id => '(b, _) ← redo_to_transaction (Sl:=list N) b id; Ok b
  | BSubscriber ev => w ← step (b_subscriptions b) ev; Ok (with_world b w)
  end.

(** Room for undoing or redoing whatever is on the stacks. *)
Definition history_room (b : sbuffer) : Prop :=
  toggle_room b (length (all_entries (b_history b))) (length (stack_edits (all_entries (b_history b)))).

(** What a caller has to respect: edits are inside the text, transactions are closed before
    the stacks are used, what comes from outside is new, and the limits of the model. *)
Definition permitted (b : sbuffer) (c : BufferCommand) : Prop :=
  let h := b_history b in
  match c with
  | BEdit _ _ cs => edit_room b cs ∧ cs ≠ [] ∧ (∃ tail, buffer_text b = before_changes cs ++ tail) ∧ Forall (fun c => Forall char_ok (ch_insert c)) cs
  | BStart _ => value (b_lamport_clock b) < u32_max ∧ transaction_depth h + 1 < 2 ^ 64
  | BEnd _ => 0 < transaction_depth h
  | BFinalize | BGroupUntil _ | BSetGroupInterval _ => True
  | BForget _ | BMerge _ _ => transaction_depth h = 0
  | BPushTransaction t now => allowed h (b_lamport_clock b) (CPushTransaction t now) ∧ Forall (fun e => 1 < value e < value (b_lamport_clock b)) (tx_edit_ids t)
  | BPushEmpty _ => transaction_depth h = 0 ∧ value (b_lamport_clock b) < u32_max
  | BUndo | BRedo | BUndoTransaction _ | BUndoTo _ | BRedoTo _ => transaction_depth h = 0 ∧ history_room b
  | BSubscriber ev => ∀ edits, ev ≠ EPublish edits
  end.

Definition is_wf (b : sbuffer) : Prop := ∃ sp ps, buffer_wf b sp ps.

Section commands.
Context `{US : !UnstableSort, USL : !UnstableSortLaws, HO : !HashOrder, HOL : !HashOrderLaws}.

Lemma stack_room b l es r :
  all_entries (b_history b) = l ++ es ++ r → history_room b → toggle_room b (length es) (length (stack_edits es)).
Proof.
  unfold history_room. intros E Hr. apply (toggle_room_le _ _ _ _ _ Hr); rewrite E; [rewrite !length_app; lia|].
  rewrite !stack_edits_app, !length_app. lia.
Qed.
Lemma entry_room b l e r :
  all_entries (b_history b) = l ++ e :: r → history_room b → toggle_room b 1 (length (entry_edits e)).
Proof. intros E Hr. pose proof (stack_room b l [e] r E Hr) as H. unfold stack_edits in H. cbn in H. by rewrite app_nil_r in H. Qed.

Lemma set_history_same (b : sbuffer) : set_history b (b_history b) = b.
Proof. by destruct b. Qed.

Lemma edit_keeps b cs started ended : is_wf b → permitted b (BEdit started ended cs) → ok_with (run b (BEdit started ended cs)) is_wf.
Proof using All.
  intros (sp & ps & Hb) (Hr & Hne & (tail & Et) & Hcs). cbn [run]. ok_bind (buffer_edit_spec b sp ps cs tail started ended Hb Hr Hne Et Hcs).
  intros [b' op] (o & ps' & p & _ & _ & Hdone & _). exists (published sp p (byte_len (buffer_text b'))), ps'. apply Hdone.
Qed.

Lemma start_keeps b now : is_wf b → permitted b (BStart now) → ok_with (run b (BStart now)) is_wf.
Proof using All.
  intros (sp & ps & Hb) [Hc Hd]. exists sp, ps. unfold start_transaction_at.
  pose proof (start_transaction_ok _ _ (bs_version (b_snapshot b)) now (bw_history _ _ _ Hb) Hc Hd) as Hh.
  pose proof (start_edits (b_history b) (bs_version (b_snapshot b)) now (b_lamport_clock b) Hc Hd (bw_edits _ _ _ Hb) (bw_clock _ _ _ Hb)) as Hs.
  destruct (start_transaction _ _ _ _) as [[h clock] id]. destruct Hs as (He & Hp & Hv & _).
  apply (with_history_wf b); [done..|split; lia|lia].
Qed.

Lemma end_keeps b now : is_wf b → permitted b (BEnd now) → ok_with (run b (BEnd now)) is_wf.
Proof using All.
  intros (sp & ps & Hb) Hd. cbn [run permitted] in *. ok_bind (end_transaction_at_spec b now (bw_history _ _ _ Hb) Hd).
  intros [b' r] (h & E' & Hh & Hall & _ & Hdep & _). cbn in E'. subst b'. exists sp, ps. destruct (bw_clock _ _ _ Hb) as [Hp Hst].
  apply (with_history_wf b); [done|done| |split; [done|]; intros; apply Hst; lia|lia].
  pose proof (bw_edits _ _ _ Hb) as He. unfold edits_before in *. rewrite Forall_forall in *. intros t Ht. by apply He, Hall.
Qed.

Lemma subscriber_keeps b ev : is_wf b → permitted b (BSubscriber ev) → ok_with (run b (BSubscriber ev)) is_wf.
Proof using All.
  intros (sp & ps & [? ? ? ? ? ? ? ? Hsub Hlen]) Hev. cbn [run permitted] in *.
  assert (Hsp : ∃ sp', spec_step sp ev sp' ∧ sp_len sp' = sp_len sp).
  { destruct sp as [l m n]. destruct ev as [|edits|i|i]; [eexists|by destruct (Hev edits)|eexists|eexists]; (split; [constructor|done]). }
  destruct Hsp as (sp' & Hsp & El). ok_bind (refines_step _ _ _ _ Hsub Hsp). intros w Hw. exists sp', ps. by split; cbn; rewrite ?El.
Qed.

(** Grouping, merging and forgetting transactions. *)
Lemma grouping_keeps b c :
  match c with BFinalize | BGroupUntil _ | BForget _ | BMerge _ _ | BSetGroupInterval _ => True | _ => False end →
  is_wf b → permitted b c → ok_with (run b c) is_wf.
Proof using All.
  intros Hc (sp & ps & Hb) Ha. pose proof (bw_history _ _ _ Hb) as Hok.
  destruct c; try done; cbn [run permitted] in *.
  - exists sp, ps. apply (fewer_wf b sp ps _ Hb); [by apply finalize_ok|apply finalize_fewer].
  - unfold group_until_transaction. ok_bind (ok_with_and _ _ _ (group_until_ok _ _ id Hok) (group_until_fewer _ id)).
    intros h [Hh Hf]. exists sp, ps. by apply fewer_wf.
  - unfold forget_transaction. rewrite bind_assoc. ok_bind (ok_with_and _ _ _ (forget_ok _ _ id Hok Ha) (forget_fewer _ id Ha)).
    intros [h t] [(Hh & _) (Hf & _)]. exists sp, ps. by apply fewer_wf.
  - unfold buffer_merge_transactions. ok_bind (ok_with_and _ _ _ (merge_transactions_ok _ _ id destination Hok Ha) (merge_fewer _ id destination Ha)).
    intros h [Hh Hf]. exists sp, ps. by apply fewer_wf.
  - exists sp, ps. apply (fewer_wf b sp ps _ Hb); [|done]. by destruct Hok.
Qed.

Lemma push_keeps b c :
  match c with BPushTransaction _ _ | BPushEmpty _ => True | _ => False end → is_wf b → permitted b c → ok_with (run b c) is_wf.
Proof using All.
  intros Hc (sp & ps & Hb) Ha. pose proof (bw_history _ _ _ Hb) as Hok. destruct c; try done; cbn [run permitted] in *.
  - destruct Ha as [(Hd & Hi & Hn & He) Ht]. unfold buffer_push_transaction, push_transaction. rewrite Hd. exists sp, ps.
    apply (push_entry_wf b sp ps t now _ Hb Hd); [by apply (push_entry_ok _ (b_lamport_clock b))|done|done].
  - destruct Ha as [Hd Hv]. unfold buffer_push_empty_transaction, push_empty_transaction. rewrite Hd. exists sp, ps.
    pose proof (push_fresh_ok _ _ (bs_version (b_snapshot b)) now Hok Hv) as Hp. unfold lamport_tick in *. cbn [snd] in Hp. rewrite u32_wrap_small in Hp by lia.
    cbn. rewrite u32_wrap_small by lia. apply (push_entry_wf b sp ps _ now _ Hb Hd); [done|cbn; lia|constructor].
Qed.

Lemma toggled_is_wf b sp ps ids b' ps' p : toggled b sp ps ids b' ps' p → is_wf b'.
Proof. intros H. eexists _, ps'. apply H. Qed.
Lemma all_toggled_is_wf b ps m ids b' : all_toggled b ps m ids b' → is_wf b'.
Proof. intros H. destruct (at_wf _ _ _ _ _ H) as (sp' & ps' & Hb & _). by exists sp', ps'. Qed.

Lemma undo_keeps b c :
  match c with BUndo | BRedo => True | _ => False end → is_wf b → permitted b c → ok_with (run b c) is_wf.
Proof using All.
  intros Hc (sp & ps & Hb) Ha. destruct c; try done; cbn [run permitted] in *; destruct Ha as [Hd Hr].
  - destruct (snoc_case (undo_stack (b_history b))) as [Hn|(l & e & Hu)].
    + unfold buffer_undo, pop_undo. rewrite assert_closed, Hn by done. cbn. rewrite set_history_same. by exists sp, ps.
    + ok_bind (buffer_undo_spec b sp ps l e Hb Hd Hu).
      { apply (entry_room b l e (redo_stack (b_history b))); [|done]. unfold all_entries. by rewrite Hu, <-app_assoc. }
      intros [b' o] (op & ps' & p & _ & Ht & _). by eapply toggled_is_wf.
  - destruct (snoc_case (redo_stack (b_history b))) as [Hn|(l & e & Hu)].
    + unfold buffer_redo, pop_redo. rewrite assert_closed, Hn by done. cbn. rewrite set_history_same. by exists sp, ps.
    + ok_bind (buffer_redo_spec b sp ps l e Hb Hd Hu).
      { apply (entry_room b (undo_stack (b_history b) ++ l) e []); [|done]. unfold all_entries. by rewrite Hu, <-app_assoc. }
      intros [b' o] (op & ps' & p & _ & Ht & _). by eapply toggled_is_wf.
Qed.

(** Undoing and redoing by transaction id. *)
Lemma undo_by_id_keeps b c :
  match c with BUndoTransaction _ | BUndoTo _ | BRedoTo _ => True | _ => False end → is_wf b → permitted b c → ok_with (run b c) is_wf.
Proof using All.
  intros Hc (sp & ps & Hb) Ha. destruct c as [| | | | | | | | | | | |id|id|id|]; try done; cbn [run permitted] in *; destruct Ha as [Hd Hr].
  - destruct (rposition (fun x => eqb (transaction_id x) id) (undo_stack (b_history b))) as [i|] eqn:E.
    + apply rposition_Some in E as (keep & e & rest & Hu & _ & <-%eqb_eq & _). ok_bind (undo_transaction_spec b sp ps keep e rest Hb Hd Hu).
      { apply (entry_room b keep e (rest ++ redo_stack (b_history b))); [|done]. unfold all_entries. by rewrite Hu, <-app_assoc. }
      intros [b' o] (op & ps' & p & _ & Ht & _). by eapply toggled_is_wf.
    + unfold undo_transaction, remove_from_undo. rewrite assert_closed, E by done. cbn. rewrite set_history_same. by exists sp, ps.
  - destruct (rposition (fun x => eqb (transaction_id x) id) (undo_stack (b_history b))) as [i|] eqn:E.
    + apply rposition_Some in E as (keep & e & rest & Hu & _ & <-%eqb_eq & _). ok_bind (undo_to_spec b sp ps keep e rest Hb Hd Hu).
      { apply (stack_room b keep (e :: rest) (redo_stack (b_history b))); [|done]. unfold all_entries. by rewrite Hu, <-app_assoc. }
      intros [b' o] (Ht & _). by eapply all_toggled_is_wf.
    + unfold undo_to_transaction, remove_from_undo_until. rewrite assert_closed, E by done. cbn. rewrite set_history_same. by exists sp, ps.
  - destruct (rposition (fun x => eqb (transaction_id x) id) (redo_stack (b_history b))) as [i|] eqn:E.
    + apply rposition_Some in E as (keep & e & rest & Hu & _ & <-%eqb_eq & _). ok_bind (redo_to_spec b sp ps keep e rest Hb Hd Hu).
      { apply (stack_room b (undo_stack (b_history b) ++ keep) (e :: rest) []); [|done]. unfold all_entries. by rewrite Hu, app_nil_r, <-app_assoc. }
      intros [b' o] (Ht & _). by eapply all_toggled_is_wf.
    + unfold redo_to_transaction, remove_from_redo. rewrite assert_closed, E by done. cbn. rewrite set_history_same. by exists sp, ps.
Qed.

Lemma run_keeps b c : is_wf b → permitted b c → ok_with (run b c) is_wf.
Proof using All.
  intros Hb Ha. destruct c; first [by apply edit_keeps|by apply start_keeps|by apply end_keeps|by apply grouping_keeps|by apply push_keeps|by apply undo_keeps|by apply undo_by_id_keeps|by apply subscriber_keeps].
Qed.
End commands.

Inductive buffer_reached `{!UnstableSort, !HashOrder} (b0 : sbuffer) : sbuffer → Prop :=
  | reached_start : buffer_reached b0 b0
  | reached_run b c b' : buffer_reached b0 b → permitted b c → run b c = Ok b' → buffer_reached b0 b'.

(** C4: whatever edits, transactions, undos, redos and subscriptions a buffer goes through, it
    satisfies the invariant of buffers: what [check_invariants] tests, and that its history,
    indexes, undo map and subscribers are in order; and no permitted command panics. *)
Theorem buffer_reachable_wf `{!UnstableSort, !UnstableSortLaws, !HashOrder, !HashOrderLaws} rid id t b0 b :
  Forall char_ok t → RopeFacts.small (normalize_arc t) →
  buffer_new (C:=list N) (Sl:=list N) (Sm:=list N) rid id (str_of t) = Ok b0 → buffer_reached b0 b →
  (∃ sp ps, buffer_wf b sp ps) ∧ ∀ c, permitted b c → is_panic (run b c) = false.
Proof.
  intros Ht Hs E Hst. pose proof (buffer_new_spec rid id t Ht Hs) as Hx. rewrite E in Hx. destruct Hx as (ps & Hb & _).
  assert (Hw : is_wf b).
  { induction Hst as [|b c b' _ IH Hc Hrun]; [by eexists _, ps|]. exact (ok_with_eq _ _ _ (run_keeps b c IH Hc) Hrun). }
  split; [done|]. intros c Hc. pose proof (run_keeps b c Hw Hc). by destruct (run b c).
Qed.

#[local] Existing Instance insertion_sort.
#[local] Existing Instance insertion_sort_laws.
#[local] Existing Instance insertion_order.
#[local] Existing Instance insertion_order_laws.

(** The sample buffer, edited, is in order and its edit can be undone. *)
Lemma buffer_reachable_wf_witness : ∃ b sp ps,
  buffer_wf b sp ps ∧ buffer_text b = after_changes [sample_change] ++ [98] ∧ is_panic (run b BUndo) = false.
Proof.
  destruct sample_edited as (b & ps & b1 & op & ps1 & p1 & e & Hb & Hr & Et & Hd & E1 & H1 & Eu & Ee & Hroom & Er & E).
  assert (Hcs : Forall (fun c => Forall char_ok (ch_insert c)) [sample_change]) by (repeat constructor; left; lia).
  assert (Hreach : buffer_reached b b1).
  { apply (reached_run b b (BEdit 0 0 [sample_change])); [apply reached_start| |].
    - split; [exact Hr|]. split; [discriminate|]. split; [exists [98]; exact Et|exact Hcs].
    - unfold run. rewrite E1. reflexivity. }
  assert (Hs : RopeFacts.small (normalize_arc sample_text)) by (by vm_compute).
  destruct (buffer_reachable_wf LOCAL 1 sample_text b b1 sample_ok Hs E Hreach) as [(sp & ps' & Hw) Hsafe].
  exists b1, sp, ps'. split; [exact Hw|]. split; [exact (bd_text _ _ _ _ _ _ _ _ _ H1)|]. apply Hsafe. split.
  - rewrite (bd_depth _ _ _ _ _ _ _ _ _ H1). exact Hd.
  - unfold history_room, all_entries. rewrite Eu, Er. cbn. rewrite app_nil_r, Ee. apply (toggle_room_le _ _ _ _ _ Hroom); cbn; lia.
Defined.
