(* ===== verification/RemoteEdit.v ===== *)
(** * Edits of other replicas: [Buffer::apply_remote_edit] of [crates/text/src/text.rs]

    An edit of another replica names ranges of the text that replica had: everything its
    version had observed, deleted or not.  The walk over the fragments measures positions in
    that text, passing over the insertions the version had not observed; at the start of a
    range it passes those of them that are later than the edit, so that all replicas order
    concurrent insertions alike. *)

From stdpp Require Import sets.
From S2P Require Import Prelude Ord Clock SumTree Cursor Locator Patch Subscription Bitmap Utf8 Point TextSummary Chunk Rope KeyedTree TreeMap UndoMap History Fragments BufferEdit Buffer Anchor SumTreeFacts SeekSpec CursorFacts SeekFacts ChunkFacts.
Local Open Scope N_scope.

(** ** Positions in the text of a version *)
Inductive VersionedFullOffset := Offset (offset : FullOffset) | Invalid.

(** [panic!("invalid version")] *)
Definition full_offset (self : VersionedFullOffset) : outcome FullOffset :=
  match self with Offset position => Ok position | Invalid => Panic end.

(** A cursor in this dimension is made with a version: [cx.as_ref().unwrap()]. *)
Definition versioned_add_summary (cx : FragmentCx) (self : VersionedFullOffset) (summary : FragmentSummary) : VersionedFullOffset :=
  match self, cx with
  | Offset offset, Some version =>
      if global_observed_all version (proj1_sig (fs_max_insertion_version summary)) then
        Offset (offset + (fts_visible (fs_text summary) + fts_deleted (fs_text summary)))
      else if global_observed_any version (proj1_sig (fs_min_insertion_version summary)) then Invalid
      else self
  | _, _ => self
  end.
#[export] Instance versioned_dimension : Dimension VersionedFullOffset FragmentSummary FragmentCx :=
  {| dim_zero _ := Offset 0; dim_add_summary := versioned_add_summary |}.
(** The target of a seek is never [Invalid]: [unreachable!()]. *)
#[export] Instance versioned_target : SeekTarget VersionedFullOffset VersionedFullOffset FragmentCx :=
  fun _ self cursor_position =>
    match self, cursor_position with
    | Offset a, Offset b => cmp a b
    | Offset _, Invalid => Lt
    | Invalid, _ => Lt
    end.

(** ** The walk *)
Section remote_edit.
Context {C Sl Sm : Type} `{!Summary Sm unit, !Item C Sm unit, !ChunkApi C Sl Sm}.
Abbreviation rope := (Rope C Sm).
Abbreviation fragment_tree := (SumTree Fragment FragmentSummary).
Abbreviation versioned_position := (VersionedFullOffset * N * unit)%type.
Abbreviation state := (EditState C Sm versioned_position).

Context (version : Global) (undo_map : UndoMap) (timestamp : Lamport).
Abbreviation cx := (Some version).

Definition old_full_start (st : state) : outcome FullOffset := full_offset (cursor_start (es_old_fragments st)).1.1.
Definition old_full_end (st : state) : outcome FullOffset :=
  e ← cursor_end cx (es_old_fragments st); full_offset e.1.1.
Definition old_visible_start (st : state) : N := (cursor_start (es_old_fragments st)).1.2.
Definition new_visible (st : state) : N := fts_visible (fs_text (summary (es_new_fragments st))).

(** The part of the current fragment that has not been consumed, up to [end_]. *)
Definition current_part (st : state) (end_ : FullOffset) : outcome Fragment :=
  item ← cursor_item (es_old_fragments st);
  f ← unwrap item;
  start ← old_full_start st;
  Ok (cut f start (es_fragment_start st) end_).

(** If the current fragment has been partially consumed, then consume the rest of it and
    advance to the next fragment before slicing. *)
Definition remote_consume_rest (st : state) (fragment_end : outcome FullOffset) : outcome state :=
  start ← old_full_start st;
  if start <? es_fragment_start st then
    fragment_end ← fragment_end;
    st ←
      (if es_fragment_start st <? fragment_end then
         suffix ← current_part st fragment_end;
         push_piece (Sl:=Sl) st suffix (f_visible suffix)
       else Ok st);
    c ← cursor_next cx (es_old_fragments st);
    Ok (with_cursor st c (es_fragment_start st))
  else Ok st.

(** If the current fragment ends before this range, then jump ahead to the first fragment that
    extends past the start of this range, reusing any intervening fragments. *)
Definition remote_jump_ahead (st : state) (target : FullOffset) : outcome state :=
  fragment_end ← old_full_end st;
  if fragment_end <? target then
    st ← remote_consume_rest st (Ok fragment_end);
    '(c, slice) ← cursor_slice cx (Offset target) Left (es_old_fragments st);
    st ← append_slice (Sl:=Sl) st slice;
    start ← full_offset (cursor_start c).1.1;
    Ok (with_cursor st c start)
  else Ok st.

(** If we are at the end of a non-concurrent fragment, advance to the next one. *)
Definition finish_fragment (st : state) (target : FullOffset) : outcome state :=
  fragment_end ← old_full_end st;
  if (fragment_end =? target) && (es_fragment_start st <? fragment_end) then
    fragment ← current_part st fragment_end;
    st ← push_piece (Sl:=Sl) st fragment (f_visible fragment);
    c ← cursor_next cx (es_old_fragments st);
    start ← full_offset (cursor_start c).1.1;
    Ok (with_cursor st c start)
  else Ok st.

(** Skip over insertions at the start of the range that are concurrent to this edit and
    later than it.  (The comment in the source says "a lower lamport timestamp".) *)
Fixpoint skip_concurrent (fuel : nat) (st : state) (target : FullOffset) : outcome state :=
  item ← cursor_item (es_old_fragments st);
  match item with
  | Some fragment =>
      if (es_fragment_start st =? target) && ltb timestamp (f_timestamp fragment) then
        match fuel with
        | O => Panic
        | S fuel =>
            ropes ← push_fragment (Sl:=Sl) (es_new_ropes st) fragment (f_visible fragment);
            t ← push (@None Global) (es_new_fragments st) fragment;
            c ← cursor_next cx (es_old_fragments st);
            skip_concurrent fuel (with_cursor (with_ropes st t ropes) c (es_fragment_start st)) target
        end
      else Ok st
  | None => Ok st
  end.

(** Preserve any portion of the current fragment that precedes this range. *)
Definition remote_preserve_prefix (st : state) (target : FullOffset) : outcome state :=
  if es_fragment_start st <? target then
    prefix ← current_part st target;
    id ← between (fs_max_id (summary (es_new_fragments st))) (f_id prefix);
    let prefix := with_id prefix id in
    st ← push_piece (Sl:=Sl) st prefix (f_visible prefix);
    Ok (with_start st target)
  else Ok st.

(** Insert the new text before any existing fragments within the range. *)
Definition remote_insert_text (st : state) (new_text : list N) : outcome state :=
  if bool_decide (new_text = []) then Ok st
  else
    item ← cursor_item (es_old_fragments st);
    let old_start := old_visible_start st in
    old_start ←
      (if match item with Some f => f_visible f | None => false end then
         start ← old_full_start st;
         Ok (usize_add old_start (usize_sub (es_fragment_start st) start))
       else Ok old_start);
    let new_start := new_visible st in
    let next_fragment_id := match item with Some old_fragment => f_id old_fragment | None => locator_max end in
    st ← push_fragments_for_insertion (Sl:=Sl) st new_text timestamp next_fragment_id;
    Ok (with_edit st (mkEdit (mkRange old_start old_start) (mkRange new_start (usize_add new_start (str_len new_text))))).

(** The part of the current fragment that lies in the range: deleted, if the other replica
    saw it. *)
Definition intersect (st : state) (fragment : Fragment) (intersection_end : FullOffset) : outcome (Fragment * state) :=
  if global_observed version (f_timestamp fragment) then
    start ← old_full_start st;
    let f := cut fragment start (es_fragment_start st) intersection_end in
    id ← between (fs_max_id (summary (es_new_fragments st))) (f_id f);
    let f := with_id f id in
    was_visible ← was_visible fragment version undo_map;
    if (was_visible : bool) then
      let f := with_deletion f timestamp in
      Ok (f, with_slice st (slice_from_fragment timestamp f))
    else Ok (f, st)
  else Ok (fragment, st).

(** One turn of the loop over the fragments that intersect the range. *)
Definition remote_delete_step (st : state) (range_end : FullOffset) : outcome state :=
  item ← cursor_item (es_old_fragments st);
  fragment ← unwrap item;
  fragment_end ← old_full_end st;
  let intersection_end := N.min range_end fragment_end in
  '(intersection, st) ← intersect st fragment intersection_end;
  st ←
    (if 0 <? f_len intersection then
       st ←
         (if f_visible fragment && negb (f_visible intersection) then
            start ← old_full_start st;
            let old_start := usize_add (old_visible_start st) (usize_sub (es_fragment_start st) start) in
            let new_start := new_visible st in
            Ok (with_edit st (mkEdit (mkRange old_start (usize_add old_start (f_len intersection))) (mkRange new_start new_start)))
          else Ok st);
       st ← push_piece (Sl:=Sl) st intersection (f_visible fragment);
       Ok (with_start st intersection_end)
     else Ok st);
  if fragment_end <=? range_end then
    c ← cursor_next cx (es_old_fragments st);
    Ok (with_cursor st c (es_fragment_start st))
  else Ok st.

Fixpoint remote_delete_loop (fuel : nat) (st : state) (range_end : FullOffset) : outcome state :=
  if es_fragment_start st <? range_end then
    match fuel with
    | O => Panic
    | S fuel => st ← remote_delete_step st range_end; remote_delete_loop fuel st range_end
    end
  else Ok st.

(** The body of the loop over the ranges. *)
Definition apply_range (fuel : nat) (st : state) (range : Range FullOffset) (new_text : list N) : outcome state :=
  st ← remote_jump_ahead st (r_start range);
  st ← finish_fragment st (r_start range);
  st ← skip_concurrent fuel st (r_start range);
  st ← remote_preserve_prefix st (r_start range);
  st ← remote_insert_text st new_text;
  remote_delete_loop fuel st (r_end range).

(** [ranges.iter().zip(new_text.iter())] *)
Fixpoint apply_ranges (fuel : nat) (st : state) (ranges : list (Range FullOffset)) (new_text : list (list N)) : outcome state :=
  match ranges, new_text with
  | range :: ranges, text :: new_text => st ← apply_range fuel st range text; apply_ranges fuel st ranges new_text
  | _, _ => Ok st
  end.

(** Before the loop: the fragments before the first range are kept. *)
Definition remote_start (fragments : fragment_tree) (visible_text deleted_text : rope) (first : FullOffset) : outcome state :=
  v ← rope_cursor (Sl:=Sl) visible_text 0;
  d ← rope_cursor (Sl:=Sl) deleted_text 0;
  '(c, new_fragments) ← cursor_slice cx (Offset first) Left (cursor_new cx fragments);
  ropes ← builder_append (Sl:=Sl) (builder_new v d) (fs_text (summary new_fragments));
  start ← full_offset (cursor_start c).1.1;
  Ok (mkEditState c start new_fragments ropes 0 [] [] [] [] []).

(** After the loop: so are the fragments after the last one. *)
Definition remote_finish (st : state) : outcome (state * rope * rope) :=
  st ← remote_consume_rest st (old_full_end st);
  '(c, suffix) ← cursor_suffix cx (es_old_fragments st);
  st ← append_slice (Sl:=Sl) st suffix;
  '(visible_text, deleted_text) ← builder_finish (Sl:=Sl) (es_new_ropes st);
  Ok (with_cursor st c (es_fragment_start st), visible_text, deleted_text).

(** The fragments and the ropes after the edit. *)
Definition remote_fragments (fragments : fragment_tree) (visible_text deleted_text : rope)
    (first : Range FullOffset) (ranges : list (Range FullOffset)) (new_text : list (list N)) : outcome (state * rope * rope) :=
  st ← remote_start fragments visible_text deleted_text (r_start first);
  st ← apply_ranges (S (cost fragments)) st (first :: ranges) new_text;
  remote_finish st.
End remote_edit.

Definition apply_remote_edit {C Sl Sm : Type} `{!Summary Sm unit, !Item C Sm unit, !ChunkApi C Sl Sm, !UnstableSort}
    (self : Buffer C Sm) (version : Global) (ranges : list (Range FullOffset)) (new_text : list (list N)) (timestamp : Lamport) :
    outcome (Buffer C Sm) :=
  match ranges with
  | [] => Ok self
  | first :: ranges =>
      let s := b_snapshot self in
      '(st, visible_text, deleted_text) ←
        remote_fragments (Sl:=Sl) version (bs_undo_map s) timestamp (bs_fragments s) (bs_visible_text s) (bs_deleted_text s) first ranges new_text;
      '(insertions, _) ← edit tt (bs_insertions s) (es_new_insertions st);
      insertion_slices ← set_extend (bs_insertion_slices s) (es_insertion_slices st);
      subscriptions ← publish (b_subscriptions self) (es_edits_patch st);
      Ok (mkBuffer
            (mkSnapshot visible_text deleted_text (es_new_fragments st) insertions insertion_slices (bs_undo_map s)
               (bs_version s) (bs_remote_id s) (bs_replica_id s) (bs_line_ending s))
            (b_history self) (b_lamport_clock self) subscriptions)
  end.

(** * Positions in the text of a version

    The dimension [VersionedFullOffset] adds up over the fragments whose insertions a version
    has observed.  On the summary of a subtree it may give up ([Invalid]), but where a seek
    skips a subtree it is exact, which is all that seeking relies on. *)

(** ** Versions of summaries *)
Lemma existsb_combine_imap (f g : nat → ReplicaId) l k :
  existsb (fun '(x, y) => (0 <? value y) && (value y <=? value x))
    (combine (imap (fun ix seq => mkLamport seq (f ix)) l) (imap (fun ix seq => mkLamport seq (g ix)) k)) =
  existsb (fun '(x, y) => (0 <? y) && (y <=? x)) (combine l k).
Proof. revert f g k. induction l as [|x l IH]; intros f g [|y k]; simpl; try done. f_equal. apply (IH (f ∘ S) (g ∘ S)). Qed.

Lemma existsb_combine_get l k :
  existsb (fun '(x, y) => (0 <? y) && (y <=? x)) (combine l k) = true ↔
  ∃ i, 0 < default 0 (k !! i) ∧ default 0 (k !! i) <= default 0 (l !! i).
Proof.
  revert k. induction l as [|x l IH]; intros [|y k]; simpl.
  - split; [done|]. intros (i & H & _). cbn in H. lia.
  - split; [done|]. intros (i & H1 & H2). cbn in *. lia.
  - split; [done|]. intros (i & H & _). cbn in H. lia.
  - rewrite orb_true_iff, andb_true_iff, N.ltb_lt, N.leb_le, IH. split.
    + intros [?|(i & Hi)]; [by exists 0%nat|by exists (S i)].
    + intros ([|i] & Hi); [by left|right; by exists i].
Qed.

Lemma global_observed_any_get a b :
  global_observed_any a b = true ↔ ∃ r, 0 < global_get b r ∧ global_get b r <= global_get a r.
Proof.
  unfold global_observed_any, global_iter. rewrite (existsb_combine_imap (fun ix => mkReplicaId (N.of_nat ix))), existsb_combine_get. split.
  - intros (i & Hi). exists (mkReplicaId (N.of_nat i)). by rewrite !global_get_nat.
  - intros (r & Hr). by exists (replica_ix r).
Qed.

Section version.
Context (v : Global).
Abbreviation seen f := (global_observed v (f_timestamp f)).

Lemma observed_get t : global_observed v t = true ↔ value t <= global_get v (replica_id t).
Proof. unfold global_observed. apply N.leb_le. Qed.

Lemma sum_max_seen (fs : list Fragment) :
  global_observed_all v (proj1_sig (fs_max_insertion_version (sum (@None Global) (fragment_summary <$> fs)))) = true ↔ Forall (fun f => seen f = true) fs.
Proof.
  rewrite global_observed_all_get by apply (proj2_dsig (fs_max_insertion_version _)). induction fs as [|f fs IH] using rev_ind.
  - split; [constructor|]. intros _ r. cbn. rewrite global_get_ge by (cbn; lia). lia.
  - rewrite fmap_app. unfold sum. rewrite foldl_app. cbn [fmap list_fmap foldl]. fold (sum (@None Global) (fragment_summary <$> fs)).
    cbn [add_summary FragmentSummary_summary fragment_summary_add fs_max_insertion_version version_join fragment_summary version_observe version_new].
    rewrite Forall_app, Forall_singleton, <-IH, observed_get. setoid_rewrite global_get_join.
    assert (Hg : ∀ r, global_get (global_observe global_new (f_timestamp f)) r = if decide (r = replica_id (f_timestamp f)) then value (f_timestamp f) else 0).
    { intros r. rewrite global_get_observe, global_get_ge by (cbn; lia). case_decide; lia. }
    split.
    + intros H. split; [intros r; specialize (H r); lia|]. specialize (H (replica_id (f_timestamp f))). unfold version_observe in H. cbn in H.
      rewrite Hg, decide_True in H by done. lia.
    + intros [H1 H2] r. specialize (H1 r). cbn. rewrite Hg. case_decide; [subst|]; lia.
Qed.

Lemma meet_positive a b : 0 < meet_entry a b ↔ 0 < a ∨ 0 < b.
Proof.
  destruct (N.eq_dec a 0) as [->|Ha]; [rewrite meet_entry_0_l; lia|]. destruct (N.eq_dec b 0) as [->|Hb]; [rewrite meet_entry_0_r; lia|].
  rewrite meet_entry_pos by done. lia.
Qed.
Lemma meet_below a b n : 0 < meet_entry a b ∧ meet_entry a b <= n ↔ (0 < a ∧ a <= n) ∨ (0 < b ∧ b <= n).
Proof.
  destruct (N.eq_dec a 0) as [->|Ha]; [rewrite meet_entry_0_l; lia|]. destruct (N.eq_dec b 0) as [->|Hb]; [rewrite meet_entry_0_r; lia|].
  rewrite meet_entry_pos by done. lia.
Qed.

Lemma sum_min_seen (fs : list Fragment) :
  Forall (fun f => 0 < value (f_timestamp f)) fs →
  global_observed_any v (proj1_sig (fs_min_insertion_version (sum (@None Global) (fragment_summary <$> fs)))) = true ↔ Exists (fun f => seen f = true) fs.
Proof.
  rewrite global_observed_any_get. induction fs as [|f fs IH] using rev_ind; intros Hp.
  - rewrite Exists_nil. split; [|done]. intros (r & Hr & _). cbn in Hr. rewrite global_get_ge in Hr by (cbn; lia). lia.
  - apply Forall_app in Hp as [Hp Hf]. rewrite Forall_singleton in Hf. rewrite fmap_app. unfold sum. rewrite foldl_app. cbn [fmap list_fmap foldl].
    fold (sum (@None Global) (fragment_summary <$> fs)).
    cbn [add_summary FragmentSummary_summary fragment_summary_add fs_min_insertion_version version_meet fragment_summary version_observe version_new].
    rewrite Exists_app, Exists_cons, Exists_nil, <-IH, observed_get by done.
    assert (Hg : ∀ r, global_get (global_observe global_new (f_timestamp f)) r = if decide (r = replica_id (f_timestamp f)) then value (f_timestamp f) else 0).
    { intros r. rewrite global_get_observe, global_get_ge by (cbn; lia). case_decide; lia. }
    cbn [proj1_sig dexist]. split.
    + intros (r & Hr). cbn in Hr. rewrite global_get_meet, Hg, meet_below in Hr. destruct Hr as [Hr|[H1 H2]]; [left; by exists r|right; left].
      case_decide; [subst|]; lia.
    + intros [(r & Hr)|[Ho|[]]].
      * exists r. cbn. rewrite global_get_meet, meet_below. auto.
      * exists (replica_id (f_timestamp f)). cbn. rewrite global_get_meet, meet_below. right. rewrite Hg, decide_True by done. lia.
Qed.

(** ** Positions *)
(** The length of the text of the version. *)
Definition seen_len (fs : list Fragment) : N := foldr (fun f n => (if seen f then f_len f else 0) + n) 0 fs.
Lemma seen_len_app l k : seen_len (l ++ k) = seen_len l + seen_len k.
Proof. unfold seen_len. induction l as [|f l IH]; [done|]. cbn [app foldr]. rewrite IH. lia. Qed.

Lemma seen_len_all fs : Forall (fun f => seen f = true) fs → seen_len fs = vis_len fs + del_len fs.
Proof.
  unfold seen_len, vis_len, del_len. induction 1 as [|f fs Hf _ IH]; [done|]. cbn [foldr]. rewrite Hf, IH. destruct (f_visible f); lia.
Qed.
Lemma seen_len_none fs : Forall (fun f => seen f = false) fs → seen_len fs = 0.
Proof. unfold seen_len. induction 1 as [|f fs Hf _ IH]; [done|]. cbn [foldr]. by rewrite Hf, IH. Qed.

Abbreviation positive := (Forall (fun f => 0 < value (f_timestamp f))).
Abbreviation vdims := (dim_items (T:=Fragment) (Sm:=FragmentSummary) (D:=VersionedFullOffset * N * unit) (Some v)).

Lemma versioned_item o f :
  0 < value (f_timestamp f) → versioned_add_summary (Some v) (Offset o) (fragment_summary f) = Offset (o + if seen f then f_len f else 0).
Proof.
  intros Hp. pose proof (sum_max_seen [f]) as Hmax. pose proof (sum_min_seen [f] ltac:(by repeat constructor)) as Hmin.
  cbn [fmap list_fmap] in *. rewrite (sum_singleton (@None Global)) in Hmax, Hmin. rewrite Forall_singleton in Hmax. rewrite Exists_cons, Exists_nil in Hmin.
  unfold versioned_add_summary. destruct (global_observed_all v _).
  - rewrite (proj1 Hmax eq_refl). unfold fragment_summary. cbn. f_equal. destruct (f_visible f); cbn; lia.
  - destruct (seen f) eqn:E; [by discriminate (proj2 Hmax eq_refl)|]. destruct (global_observed_any v _).
    + destruct (proj1 Hmin eq_refl) as [?|[]]; done.
    + by rewrite N.add_0_r.
Qed.

Lemma versioned_dims fs : positive fs → ∀ o n, vdims (Offset o, n, tt) fs = (Offset (o + seen_len fs), n + vis_len fs, tt).
Proof.
  intros Hp. induction Hp as [|f fs Hf Hp IH]; intros o n; cbn [dim_items foldl].
  - cbn. by rewrite !N.add_0_r.
  - unfold item_end at 2. cbn [dim_add_summary dimensions_dimension versioned_dimension visible_dimension unit_dimension fst snd].
    change (item_summary_of (Some v) f) with (fragment_summary f). rewrite versioned_item by done.
    change (foldl (item_end (Some v)) ?a fs) with (vdims a fs). rewrite IH. unfold seen_len, vis_len. cbn [foldr].
    f_equal. f_equal; [f_equal; lia|]. unfold fragment_summary. cbn [fs_text]. destruct (f_visible f); cbn [fts_visible]; lia.
Qed.
Lemma versioned_dims0 fs : positive fs → vdims (dim_zero (Some v)) fs = (Offset (seen_len fs), vis_len fs, tt).
Proof. intros Hp. cbn [dim_zero dimensions_dimension versioned_dimension visible_dimension unit_dimension]. by rewrite versioned_dims. Qed.

(** ** Trees and seeks *)
(** Summaries do not depend on the version. *)
#[export] Instance versioned_summary_laws : SummaryLaws (Sm:=FragmentSummary) (Some v).
Proof. destruct fragment_summary_laws as [H1 H2]. split; [exact H1|exact H2]. Qed.
Lemma versioned_wf_at d h (t : SumTree Fragment FragmentSummary) : wf_at (Some v) d h t ↔ wf_at (@None Global) d h t.
Proof. done. Qed.
Lemma versioned_tree_wf d (t : SumTree Fragment FragmentSummary) : tree_wf (Some v) d t ↔ tree_wf (@None Global) d t.
Proof. done. Qed.

Lemma versioned_past o p n : past (D:=VersionedFullOffset * N * unit) (Some v) (Offset o) Left (Offset p, n, tt) = (p <? o).
Proof.
  unfold past, target_cmp, dimensions_target, target_cmp, versioned_target, cmp, N_ord. cbn.
  destruct (N.compare_spec o p); cbn; symmetry; [apply N.ltb_ge|apply N.ltb_ge|apply N.ltb_lt]; lia.
Qed.

(** A subtree is skipped only where its summary is exact. *)
Lemma versioned_sums d (items : list Fragment) o :
  positive items → SeekSums (D:=VersionedFullOffset * N * unit) (Some v) d items (Offset o) Left.
Proof.
  intros Hp h t [[[p|] n] []] Ht Hsub; cbn [dim_add_summary dimensions_dimension versioned_dimension visible_dimension unit_dimension fst snd]; [|done].
  assert (Hpt : positive (tree_items t)) by (rewrite Forall_forall in *; auto).
  rewrite (versioned_dims _ Hpt). pose proof (wf_summary (Some v) d h t Ht) as Es. change (sum (Some v) _) with (sum (@None Global) (fragment_summary <$> tree_items t)) in Es.
  rewrite Es, fragment_sum_text. unfold versioned_add_summary. rewrite fragment_sum_text.
  pose proof (sum_max_seen (tree_items t)) as Hmax. pose proof (sum_min_seen (tree_items t) Hpt) as Hmin.
  destruct (global_observed_all v _); [|destruct (global_observed_any v _); [done|]]; intros _; f_equal; f_equal; f_equal.
  - cbn. f_equal. symmetry. by apply seen_len_all, Hmax.
  - rewrite seen_len_none; [lia|]. apply Forall_forall. intros f Hf. destruct (seen f) eqn:E; [|done].
    discriminate (proj2 Hmin). apply Exists_exists. by exists f.
Qed.

Lemma versioned_ends_ge fs o n e :
  positive fs → e ∈ ends (T:=Fragment) (Sm:=FragmentSummary) (D:=VersionedFullOffset * N * unit) (Some v) (Offset o, n, tt) fs →
  ∃ p m, e = (Offset p, m, tt) ∧ o <= p.
Proof.
  intros Hp. revert o n. induction Hp as [|f fs Hf Hp IH]; intros o n; cbn [ends]; [by intros ?%not_elem_of_nil|].
  change (item_end (Some v) ?q f) with (vdims q [f]). rewrite versioned_dims by (by repeat constructor). rewrite elem_of_cons.
  intros [->|(p & m & -> & Hle)%IH]; eexists _, _; (split; [done|]); lia.
Qed.

Lemma versioned_seekable o p n fs :
  positive fs → seekable (T:=Fragment) (Sm:=FragmentSummary) (D:=VersionedFullOffset * N * unit) (Some v) (Offset o) Left (Offset p, n, tt) fs.
Proof.
  unfold seekable. intros Hp. revert p n. induction Hp as [|f fs Hf Hp IH]; intros p n; cbn [ends]; [constructor|].
  change (item_end (Some v) ?q f) with (vdims q [f]). rewrite versioned_dims by (by repeat constructor). constructor; [apply IH|].
  apply Forall_forall. intros e (q & m & -> & Hle)%versioned_ends_ge; [|done]. rewrite !versioned_past, !N.ltb_lt. lia.
Qed.

Lemma versioned_ge o p n : p <= o → is_ge (target_cmp (D:=VersionedFullOffset * N * unit) (Some v) (Offset o) (Offset p, n, tt)) = true.
Proof. intros H. unfold target_cmp, dimensions_target, target_cmp, versioned_target, cmp, N_ord. cbn. destruct (N.compare_spec o p); [done|lia|done]. Qed.

(** Where a seek to an offset stops: before the first fragment that reaches it. *)
Lemma versioned_scan o l rest (bs fs : list Fragment) :
  positive (bs ++ fs) → fs = l ++ rest → seen_len bs <= o →
  scan (D:=VersionedFullOffset * N * unit) (Sm:=FragmentSummary) (Some v) (Offset o) Left (vdims (dim_zero (Some v)) bs) fs
    = (vdims (dim_zero (Some v)) (bs ++ l), rest) →
  seen_len (bs ++ l) <= o ∧ (l ≠ [] → seen_len (bs ++ l) < o) ∧ ∀ y r, rest = y :: r → o <= seen_len (bs ++ l ++ [y]).
Proof.
  intros Hp Hi Hpos Hsc. subst fs. assert (Hpbl : positive (bs ++ l)) by (rewrite app_assoc in Hp; by apply Forall_app in Hp as [? _]).
  pose proof Hpbl as [Hpb Hpl]%Forall_app.
  destruct (scan_split (Some v) (Offset o) Left (vdims (dim_zero (Some v)) bs) (l ++ rest)) as (pre & E & _ & Hf & Hx).
  rewrite Hsc in *. cbn [fst snd] in *. apply app_inv_tail in E as <-.
  assert (Hl : l ≠ [] → seen_len (bs ++ l) < o).
  { intros Hne. destruct (snoc_case l) as [->|(l' & x & ->)]; [done|]. rewrite Forall_forall in Hf.
    specialize (Hf (vdims (vdims (dim_zero (Some v)) bs) (l' ++ [x]))). rewrite <-dim_items_app, versioned_dims0 in Hf by done.
    rewrite versioned_past, N.ltb_lt in Hf. apply Hf. apply last_Some_elem_of. rewrite ends_last. by rewrite <-dim_items_app, versioned_dims0. }
  split_and!; [|done|].
  - destruct l as [|x l]; [by rewrite app_nil_r|]. specialize (Hl ltac:(done)). lia.
  - intros y r ->. specialize (Hx y r eq_refl). change (item_end (Some v) ?q y) with (vdims q [y]) in Hx. rewrite <-dim_items_app, versioned_dims0 in Hx.
    + rewrite versioned_past, <-app_assoc in Hx. by apply N.ltb_ge in Hx.
    + rewrite app_assoc in Hp. apply Forall_app in Hp as [_ [Hy _]%Forall_cons]. apply Forall_app. split; [done|by repeat constructor].
Qed.
End version.
