(* ===== verification/Converge.v ===== *)
(** * Convergence

    Replicas receive the same operations in different orders.  [run] says again what an edit
    does to a document, character by character: a new text goes where its range begins in the
    text of the edit's version, after what is later than the edit; and what the version saw in
    the range is marked.  Said this way, edits that do not know of one another commute. *)

From stdpp Require Import sets gmap.
From S2P Require Import Prelude Ord Clock SumTree Locator Patch Bitmap Utf8 Point TextSummary Chunk ChunkFacts KeyedTree UndoMap History Fragments BufferEdit EditFacts Doc SumTreeFacts.
Local Open Scope N_scope.

Abbreviation edits := (list (Range N * list N)).

(** The edits whose ranges begin at or before [pos]. *)
Fixpoint due (pos : N) (pending : edits) : edits * edits :=
  match pending with
  | [] => ([], [])
  | e :: pending => if r_start e.1 <=? pos then let '(now, later) := due pos pending in (e :: now, later) else ([], e :: pending)
  end.
Definition covered_at (es : edits) (pos : N) : bool := existsb (fun e => (r_start e.1 <=? pos) && (pos <? r_end e.1)) es.
Definition inserted_bytes (es : edits) : N := foldr (fun e n => byte_len e.2 + n) 0 es.

Section run.
Context (v : Global) (was : Atom → bool) (ts : Lamport).

Fixpoint emit (o : N) (now : edits) : document :=
  match now with
  | [] => []
  | (_, t) :: now => atoms ts ∅ o t ++ emit (o + byte_len t) now
  end.

(** [pos] bytes of the version's text have been passed and [o] bytes inserted. *)
Fixpoint run (es : edits) (o pos : N) (pending : edits) (l : document) : document :=
  match l with
  | [] => emit o (due pos pending).1
  | a :: l =>
      let '(now, later) := if ltb ts (at_insertion a) then ([], pending) else due pos pending in
      emit o now ++ (if covered_at es pos then mark v was ts a else a)
        :: run es (o + inserted_bytes now) (pos + if observed_atom v a then len_utf8 (at_char a) else 0) later l
  end.
Definition perform (es : edits) (l : document) : document := run es 0 0 es l.

Lemma mark_insertion a : at_insertion (mark v was ts a) = at_insertion a.
Proof. unfold mark. by destruct (_ && _). Qed.
Lemma mark_char a : at_char (mark v was ts a) = at_char a.
Proof. unfold mark. by destruct (_ && _). Qed.
Lemma emit_stamp o now a : a ∈ emit o now → at_insertion a = ts ∧ at_deletions a = ∅.
Proof.
  revert o. induction now as [|[r t] now IH]; intros o; cbn [emit]; [by intros ?%not_elem_of_nil|]. rewrite elem_of_app. intros [H|H]; [|by apply (IH _ H)].
  revert H. generalize o. induction t as [|c t IHt]; intros o'; cbn [atoms]; [by intros ?%not_elem_of_nil|]. rewrite elem_of_cons. intros [->|H]; [done|by apply (IHt _ H)].
Qed.
End run.

Lemma due_again pos p : due pos (due pos p).2 = ([], (due pos p).2).
Proof. induction p as [|e p IH]; [done|]. cbn [due]. destruct (r_start e.1 <=? pos) eqn:E; [|cbn; by rewrite E]. destruct (due pos p) as [now later]. exact IH. Qed.

(** Passing over atoms that are unobserved: those later than the edit. *)
Lemma run_later v was ts es o pos pending l k :
  Forall (fun x => ltb ts (at_insertion x) = true ∧ observed_atom v x = false) l →
  run v was ts es o pos pending (l ++ k) = l ++ run v was ts es o pos pending k.
Proof.
  induction 1 as [|x l [Hx Ho] _ IH]; [done|]. cbn [app run]. rewrite Hx, Ho. cbn [emit app inserted_bytes foldr]. rewrite !N.add_0_r, IH.
  f_equal. destruct (covered_at es pos); [|done]. unfold mark. by rewrite Ho.
Qed.
(** Those earlier: what is due is inserted before them. *)
Lemma run_earlier v was ts es o pos pending x l k :
  Forall (fun x => ltb ts (at_insertion x) = false ∧ observed_atom v x = false) (x :: l) →
  run v was ts es o pos pending ((x :: l) ++ k) =
  emit ts o (due pos pending).1 ++ (x :: l) ++ run v was ts es (o + inserted_bytes (due pos pending).1) pos (due pos pending).2 k.
Proof.
  intros [[Hx Ho] Hl]%Forall_cons. cbn [app run]. rewrite Hx, Ho. destruct (due pos pending) as [now later] eqn:E. cbn [fst snd] in *.
  rewrite N.add_0_r. f_equal. assert (mark v was ts x = x) as -> by (unfold mark; by rewrite Ho). assert ((if covered_at es pos then x else x) = x) as -> by (by destruct (covered_at _ _)).
  f_equal. assert (Hd : due pos later = ([], later)) by (pose proof (due_again pos pending) as Hdue; by rewrite E in Hdue). clear E. revert o. induction Hl as [|y l [Hy Hoy] Hl IH]; intros o; [done|].
  cbn [app run]. rewrite Hy, Hd, Hoy. cbn [emit app inserted_bytes foldr]. rewrite !N.add_0_r. f_equal; [|].
  - destruct (covered_at es pos); [|done]. unfold mark. by rewrite Hoy.
  - pose proof (IH o) as IHo. cbn [inserted_bytes foldr] in IHo. by rewrite IHo.
Qed.

(** ** Edits that do not know of one another commute *)
Section commute.
Context (va vb : Global) (wasa wasb : Atom → bool) (a b : Lamport).
Context (Hab : a ≠ b) (Hva : global_observed va b = false) (Hvb : global_observed vb a = false).
(** What the one version saw does not depend on the marks of the other edit. *)
Context (Hwa : ∀ x, wasa (mark vb wasb b x) = wasa x) (Hwb : ∀ x, wasb (mark va wasa a x) = wasb x).

Lemma marks_commute x : mark vb wasb b (mark va wasa a x) = mark va wasa a (mark vb wasb b x).
Proof using All.
  unfold mark at 1 3. rewrite !Hwa, !Hwb. unfold observed_atom. rewrite !mark_insertion. unfold mark, observed_atom.
  destruct (global_observed va (at_insertion x) && wasa x), (global_observed vb (at_insertion x) && wasb x); cbn; try done. f_equal. set_solver.
Qed.

(** Here [a] is the earlier one. *)
Lemma run_commute_lt esa esb l : cmp a b = Lt → ∀ oa pa pea ob pb peb,
  run vb wasb b esb ob pb peb (run va wasa a esa oa pa pea l) = run va wasa a esa oa pa pea (run vb wasb b esb ob pb peb l).
Proof using All.
  intros Hlt. assert (Hl : ltb a b = true) by (by apply ltb_lt).
  assert (Hg : ltb b a = false) by (apply ltb_ge; rewrite cmp_opp, Hlt; done).
  assert (HA : ∀ o now, Forall (fun x => ltb b (at_insertion x) = false ∧ observed_atom vb x = false) (emit a o now)).
  { intros o now. apply Forall_forall. intros x [E _]%emit_stamp. unfold observed_atom. by rewrite E. }
  assert (HB : ∀ o now, Forall (fun x => ltb a (at_insertion x) = true ∧ observed_atom va x = false) (emit b o now)).
  { intros o now. apply Forall_forall. intros x [E _]%emit_stamp. unfold observed_atom. by rewrite E. }
  induction l as [|x l IH]; intros oa pa pea ob pb peb.
  - cbn [run]. rewrite <-(app_nil_r (emit b ob _)), (run_later va) by apply HB. cbn [run]. pose proof (HA oa (due pa pea).1) as HAx.
    destruct (emit a oa (due pa pea).1) as [|y ys]; [cbn [run]; by rewrite app_nil_r|]. rewrite <-(app_nil_r (y :: ys)) at 1. rewrite (run_earlier vb) by done.
    cbn [run]. rewrite due_again. cbn [fst emit]. by rewrite !app_nil_r.
  - cbn [run]. destruct (if ltb a (at_insertion x) then ([], pea) else due pa pea) as [nowa latera] eqn:Ea.
    destruct (if ltb b (at_insertion x) then ([], peb) else due pb peb) as [nowb laterb] eqn:Eb.
    rewrite (run_later va) by apply HB. set (xa := if covered_at esa pa then _ else x). set (xb := if covered_at esb pb then _ else x).
    assert (Exa : at_insertion xa = at_insertion x ∧ at_char xa = at_char x) by (unfold xa; destruct (covered_at esa pa); rewrite ?mark_insertion, ?mark_char; done).
    assert (Exb : at_insertion xb = at_insertion x ∧ at_char xb = at_char x) by (unfold xb; destruct (covered_at esb pb); rewrite ?mark_insertion, ?mark_char; done).
    destruct Exa as [Exa Eca], Exb as [Exb Ecb].
    assert (Ex : (if covered_at esb pb then mark vb wasb b xa else xa) = (if covered_at esa pa then mark va wasa a xb else xb)).
    { unfold xa, xb. destruct (covered_at esa pa), (covered_at esb pb); try done. apply marks_commute. }
    pose proof (HA oa nowa) as HAx. destruct (emit a oa nowa) as [|y ys] eqn:Eemit.
    + cbn [app run]. unfold observed_atom. rewrite Exa, Exb, Eca, Ecb, Ea, Eb, Eemit. cbn [app]. rewrite Ex. do 2 f_equal. apply IH.
    + destruct (ltb a (at_insertion x)) eqn:Hax; [by injection Ea as <- <-|].
      assert (Hbx : ltb b (at_insertion x) = false).
      { apply ltb_ge in Hax. apply ltb_ge. intros Hb. apply Hax. by eapply cmp_lt_trans. }
      rewrite Hbx in Eb. rewrite (run_earlier vb), Eb by done. cbn [fst snd run]. unfold observed_atom. rewrite Exa, Exb, Eca, Ecb, Hax, Hbx, Ea, Eemit.
      pose proof (due_again pb peb) as Hd. rewrite Eb in Hd. cbn [snd] in Hd. rewrite Hd. cbn [emit inserted_bytes foldr app]. rewrite Ex, N.add_0_r. do 3 f_equal. f_equal. apply IH.
Qed.
End commute.

(** Edits that do not know of one another commute. *)
Lemma run_commute va vb wasa wasb a b esa esb l oa pa pea ob pb peb :
  a ≠ b → global_observed va b = false → global_observed vb a = false →
  (∀ x, wasa (mark vb wasb b x) = wasa x) → (∀ x, wasb (mark va wasa a x) = wasb x) →
  run vb wasb b esb ob pb peb (run va wasa a esa oa pa pea l) = run va wasa a esa oa pa pea (run vb wasb b esb ob pb peb l).
Proof.
  intros Hab Hva Hvb Hwa Hwb. destruct (cmp a b) eqn:E.
  - by apply cmp_eq in E.
  - by apply run_commute_lt.
  - apply cmp_gt_lt in E. symmetry. by apply run_commute_lt.
Qed.

(** ** The same as [integrate] *)
(** The edits that make the changes of the text of a version, from offset [o] on. *)
Fixpoint changes_at (o : N) (cs : list Change) : list (Range N * list N) :=
  match cs with
  | [] => []
  | c :: cs =>
      let start := o + byte_len (ch_keep c) in
      let end_ := start + byte_len (ch_delete c) in
      (mkRange start end_, ch_insert c) :: changes_at end_ cs
  end.
Definition new_chars (cs : list Change) : list N := flat_map ch_insert cs.

(** The text of a version in a document. *)
Definition observed_text (v : Global) (l : document) : list N := flat_map (fun a => if observed_atom v a then [at_char a] else []) l.
Lemma observed_text_bytes v l : observed_bytes v l = byte_len (observed_text v l).
Proof.
  induction l as [|a l IH]; [done|]. cbn [observed_text flat_map]. fold (observed_text v l). rewrite byte_len_app, <-IH.
  change (observed_bytes v (a :: l)) with ((if observed_atom v a then len_utf8 (at_char a) else 0) + observed_bytes v l).
  destruct (observed_atom v a); [rewrite byte_len_cons; change (byte_len []) with 0; lia|done].
Qed.

(** Whole characters are passed. *)
Lemma pass_text v g q l : observed_text v l = g ++ q → ∃ p l', l = p ++ l' ∧ pass v (byte_len g) l = (p, l') ∧ observed_text v p = g ∧ observed_text v l' = q.
Proof.
  revert g. induction l as [|a l IH]; intros g E.
  - cbn in E. symmetry in E. apply app_nil in E as [-> ->]. by exists [], [].
  - destruct (decide (g = [])) as [->|Hg]; [exists [], (a :: l); by rewrite pass_0|]. pose proof (nonempty_bytes g Hg).
    cbn [observed_text flat_map] in E. fold (observed_text v l) in E. cbn [pass]. rewrite (proj2 (N.eqb_neq _ 0)) by lia. destruct (observed_atom v a) eqn:Ho.
    + destruct g as [|c g]; [done|]. cbn [app] in E. injection E as <- E. destruct (IH g E) as (p & l' & -> & Ep & E1 & E2).
      rewrite byte_len_cons. replace (len_utf8 (at_char a) + byte_len g - len_utf8 (at_char a)) with (byte_len g) by lia. rewrite Ep.
      exists (a :: p), l'. split_and!; try done. cbn. by rewrite Ho, <-E1.
    + destruct (IH g E) as (p & l' & -> & Ep & E1 & E2). rewrite Ep. exists (a :: p), l'. split_and!; try done. cbn. by rewrite Ho.
Qed.

Section same.
Context (v : Global) (was : Atom → bool) (ts : Lamport) (es : edits).
Abbreviation run' := (run v was ts es).

Lemma run_pass o pos n pending l p l' (c : bool) :
  pass v n l = (p, l') → observed_bytes v p = n → match pending with [] => True | e :: _ => pos + n <= r_start e.1 end →
  (∀ q, pos <= q < pos + n → covered_at es q = c) →
  run' o pos pending l = (if c then mark v was ts <$> p else p) ++ run' o (pos + n) pending l'.
Proof.
  intros Ep En Hp Hc. revert pos n p Ep En Hp Hc. induction l as [|a l IH]; intros pos n p Ep En Hp Hc.
  - cbn in Ep. injection Ep as <- <-. change (observed_bytes v []) with 0 in En. subst n. rewrite N.add_0_r. by destruct c.
  - cbn [pass] in Ep. destruct (N.eqb_spec n 0) as [->|Hn]; [injection Ep as <- <-; rewrite N.add_0_r; by destruct c|].
    destruct (pass v _ l) as [p' l''] eqn:E. injection Ep as <- <-.
    change (observed_bytes v (a :: p')) with ((if observed_atom v a then len_utf8 (at_char a) else 0) + observed_bytes v p') in En. cbn [run].
    assert (Hd : (if ltb ts (at_insertion a) then ([], pending) else due pos pending) = ([], pending)).
    { destruct (ltb _ _); [done|]. destruct pending as [|e pending]; [done|]. cbn [due]. by rewrite (proj2 (N.leb_gt _ _)) by lia. }
    rewrite Hd, (Hc pos) by lia. cbn [emit app inserted_bytes foldr]. rewrite N.add_0_r. erewrite (IH _ _ p'); [|exact E|destruct (observed_atom v a); lia|..].
    + replace (pos + (if observed_atom v a then len_utf8 (at_char a) else 0) + (if observed_atom v a then n - len_utf8 (at_char a) else n)) with (pos + n)
        by (destruct (observed_atom v a); lia). by destruct c.
    + destruct pending; [done|]. destruct (observed_atom v a); lia.
    + intros q Hq. apply Hc. destruct (observed_atom v a); lia.
Qed.

Lemma run_skip o pos pending l s l' :
  skip ts l = (s, l') → Forall (fun x => observed_atom v x = true → ltb ts (at_insertion x) = false) l →
  run' o pos pending l = s ++ run' o pos pending l' ∧ l = s ++ l' ∧ Forall (fun x => observed_atom v x = false) s ∧ match l' with [] => True | x :: _ => ltb ts (at_insertion x) = false end.
Proof.
  intros Es Hl. assert (H : l = s ++ l' ∧ Forall (fun x => ltb ts (at_insertion x) = true ∧ observed_atom v x = false) s
    ∧ match l' with [] => True | x :: _ => ltb ts (at_insertion x) = false end).
  { revert s Es. induction Hl as [|x l Hx Hl IH]; intros s Es; [cbn in Es; by injection Es as <- <-|]. cbn [skip] in Es. destruct (ltb ts (at_insertion x)) eqn:E.
    - destruct (skip ts l) as [s' l'']. injection Es as <- <-. destruct (IH s' eq_refl) as (-> & H2 & H3). split_and!; [done| |done].
      constructor; [|done]. split; [done|]. destruct (observed_atom v x); [by specialize (Hx eq_refl)|done].
    - injection Es as <- <-. done. }
  destruct H as (-> & H2 & H3). split_and!; [by apply run_later|done| |done]. eapply Forall_impl; [exact H2|]. by intros x [_ ?].
Qed.

Lemma run_emit o pos r t pending l :
  r_start r <= pos → match l with [] => True | x :: _ => ltb ts (at_insertion x) = false end →
  run' o pos ((r, t) :: pending) l = atoms ts ∅ o t ++ run' (o + byte_len t) pos pending l.
Proof.
  intros Hr Hl. destruct l as [|x l]; cbn [run due fst]; rewrite ?Hl, (proj2 (N.leb_le _ _)) by done; destruct (due pos pending) as [now later]; cbn [fst emit]; [done|].
  cbn [inserted_bytes foldr snd]. fold (inserted_bytes now). by rewrite <-app_assoc, N.add_assoc.
Qed.

Lemma run_done o pos l : (∀ q, pos <= q → covered_at es q = false) → run' o pos [] l = l.
Proof.
  revert o pos. induction l as [|x l IH]; intros o pos Hc; [done|]. cbn [run due]. rewrite Hc by lia.
  assert ((if ltb ts (at_insertion x) then ([], @nil (Range N * list N)) else ([], [])) = ([], [])) as -> by (by destruct (ltb _ _)). cbn [emit app]. rewrite IH; [done|].
  intros q Hq. apply Hc. lia.
Qed.

Lemma covered_later pos cs q : q < pos → covered_at (changes_at pos cs) q = false.
Proof.
  revert pos. induction cs as [|[g d t] cs IH]; intros pos Hq; [done|]. cbn [changes_at covered_at existsb ch_keep ch_delete ch_insert fst r_start r_end].
  rewrite (proj2 (N.leb_gt _ _)) by lia. cbn [andb orb]. apply IH. lia.
Qed.

Lemma integrate_run cs o pos l tail :
  observed_text v l = before_changes cs ++ tail → Forall (fun x => observed_atom v x = true → ltb ts (at_insertion x) = false) l →
  (∀ q, pos <= q → covered_at es q = covered_at (changes_at pos cs) q) →
  integrate v was ts o pos (changes_at pos cs) l = run' o pos (changes_at pos cs) l.
Proof.
  revert o pos l. induction cs as [|[g d t] cs IH]; intros o pos l E Hl Hc.
  { cbn [changes_at integrate]. symmetry. by apply run_done. }
  cbn [before_changes flat_map ch_keep ch_delete] in E. fold (before_changes cs) in E. rewrite <-!app_assoc in E.
  cbn [changes_at integrate ch_keep ch_delete ch_insert r_start r_end]. replace (pos + byte_len g - pos) with (byte_len g) by lia.
  replace (pos + byte_len g + byte_len d - (pos + byte_len g)) with (byte_len d) by lia.
  destruct (pass_text v g _ l E) as (p & l1 & -> & Ep & Eg & E1). rewrite Ep. apply Forall_app in Hl as [_ Hl1].
  destruct (skip ts l1) as [s l2] eqn:Es.
  assert (Hcg : ∀ q, pos <= q < pos + byte_len g → covered_at es q = false).
  { intros q Hq. rewrite Hc by lia. cbn [changes_at covered_at existsb ch_keep ch_delete ch_insert fst r_start r_end]. rewrite (proj2 (N.leb_gt _ _)) by lia. cbn [andb orb].
    apply covered_later. lia. }
  rewrite (run_pass o pos (byte_len g) _ _ p l1 false Ep) by (rewrite ?observed_text_bytes, ?Eg; cbn; done || lia).
  destruct (run_skip o (pos + byte_len g) ((mkRange (pos + byte_len g) (pos + byte_len g + byte_len d), t) :: changes_at (pos + byte_len g + byte_len d) cs) l1 s l2 Es Hl1) as (-> & -> & Hs & Hh).
  apply Forall_app in Hl1 as [_ Hl2].
  assert (E2 : observed_text v l2 = d ++ before_changes cs ++ tail).
  { rewrite <-E1. unfold observed_text. rewrite flat_map_app. assert (flat_map (fun a => if observed_atom v a then [at_char a] else []) s = []) as ->; [|done].
    clear -Hs. induction Hs as [|x s Hx _ IHs]; [done|]. cbn. by rewrite Hx. }
  destruct (pass_text v d _ l2 E2) as (del & l3 & -> & Ed & Edt & E3). rewrite Ed. apply Forall_app in Hl2 as [_ Hl3].
  rewrite run_emit by (cbn; done || lia). do 3 f_equal. rewrite (run_pass _ _ (byte_len d) _ _ del l3 true Ed).
  - f_equal. apply IH; [exact E3|done|]. intros q Hq. rewrite Hc by lia. cbn [changes_at covered_at existsb ch_keep ch_delete ch_insert fst r_start r_end].
    rewrite (proj2 (N.ltb_ge q _)), andb_false_r by lia. done.
  - by rewrite observed_text_bytes, Edt.
  - destruct cs; cbn; [done|lia].
  - intros q Hq. rewrite Hc by lia. cbn [changes_at covered_at existsb ch_keep ch_delete ch_insert fst r_start r_end].
    by rewrite (proj2 (N.leb_le _ _)), (proj2 (N.ltb_lt q _)) by lia.
Qed.
End same.

(** * Replicas of a document

    A replica's state is its document and the entries of its undo map.  Operations that do not
    know of one another commute, so replicas that have received the same operations, each in
    an order in which no operation precedes one it knows of, are in the same state. *)

#[export] Instance UndoMapKey_eq_dec : EqDecision UndoMapKey.
Proof. solve_decision. Defined.
#[export] Instance UndoMapEntry_eq_dec : EqDecision UndoMapEntry.
Proof. solve_decision. Defined.
#[export] Instance UndoMapEntry_countable : Countable UndoMapEntry.
Proof.
  apply (inj_countable' (fun x => (edit_id (um_key x), undo_id (um_key x), um_undo_count x)) (fun p => mkUndoEntry (mkUndoKey p.1.1 p.1.2) p.2)). by intros [[] ?].
Defined.

Record State := mkState { st_doc : document; st_undos : gset UndoMapEntry }.
Inductive Op :=
  | EditOp (timestamp : Lamport) (version : Global) (changes : edits)
  | UndoOp (timestamp : Lamport) (version : Global) (counts : list (Lamport * N)).
Definition op_time (op : Op) : Lamport := match op with EditOp t _ _ | UndoOp t _ _ => t end.
Definition op_version (op : Op) : Global := match op with EditOp _ v _ | UndoOp _ v _ => v end.
(** The operation knows of the timestamp. *)
Definition knows (op : Op) (t : Lamport) : bool := global_observed (op_version op) t.

Definition undo_entries (t : Lamport) (counts : list (Lamport * N)) : gset UndoMapEntry :=
  list_to_set ((fun c => mkUndoEntry (mkUndoKey c.1 t) c.2) <$> counts).
Definition deliver (op : Op) (s : State) : State :=
  match op with
  | EditOp t v es => mkState (perform v (atom_was v (elements (st_undos s))) t es (st_doc s)) (st_undos s)
  | UndoOp t _ counts => mkState (st_doc s) (st_undos s ∪ undo_entries t counts)
  end.
Definition deliver_all (ops : list Op) (s : State) : State := foldl (fun s op => deliver op s) s ops.

(** The text a state shows. *)
Definition undone_in (entries : list UndoMapEntry) (e : Lamport) : bool := max_count (fun _ => true) (of_edit e entries) `mod` 2 =? 1.
Definition state_text (s : State) : list N := doc_text (undone_in (elements (st_undos s))) (st_doc s).

(** ** What entries say *)
Lemma max_count_ext p l k : (∀ x, p x = true → x ∈ l ↔ x ∈ k) → max_count p l = max_count p k.
Proof.
  intros H. destruct (max_count_greatest p l) as [L1 L2], (max_count_greatest p k) as [K1 K2]. apply N.le_antisymm.
  - destruct L2 as [->|(x & Hx & Hp & <-)]; [lia|]. apply K1. exists x. split_and!; [by apply H|done|done].
  - destruct K2 as [->|(x & Hx & Hp & <-)]; [lia|]. apply L1. exists x. split_and!; [by apply H|done|done].
Qed.
Lemma of_edit_elem e l x : x ∈ of_edit e l ↔ x ∈ l ∧ edit_id (um_key x) = e.
Proof. unfold of_edit. rewrite !list_elem_of_In, filter_In. by rewrite eqb_eq. Qed.

Lemma undone_at_ext v l k e : (∀ x, global_observed v (undo_id (um_key x)) = true → x ∈ l ↔ x ∈ k) → undone_at v l e = undone_at v k e.
Proof. intros H. unfold undone_at. f_equal. f_equal. apply max_count_ext. intros x Hx. rewrite !of_edit_elem. naive_solver. Qed.
Lemma undone_in_ext l k e : (∀ x, x ∈ l ↔ x ∈ k) → undone_in l e = undone_in k e.
Proof. intros H. unfold undone_in. f_equal. f_equal. apply max_count_ext. intros x _. rewrite !of_edit_elem. naive_solver. Qed.

Lemma atom_was_ext v l k a : (∀ e, undone_at v l e = undone_at v k e) → atom_was v l a = atom_was v k a.
Proof. intros H. unfold atom_was. rewrite H. f_equal. apply bool_decide_ext. unfold set_Forall. by setoid_rewrite H. Qed.
(** Marks of edits the version has not observed do not matter. *)
Lemma atom_was_mark v l v' was t a : global_observed v t = false → atom_was v l (mark v' was t a) = atom_was v l a.
Proof.
  intros Ht. unfold mark. destruct (_ && _); [|done]. unfold atom_was. cbn [at_insertion at_deletions]. f_equal. apply bool_decide_ext. unfold set_Forall.
  setoid_rewrite elem_of_union. setoid_rewrite elem_of_singleton. split; [auto|]. intros H d [->|Hd]; [by rewrite Ht|auto].
Qed.

Lemma mark_ext v was was' t a : (∀ x, was x = was' x) → mark v was t a = mark v was' t a.
Proof. intros H. unfold mark. by rewrite H. Qed.
Lemma run_ext v was was' t es o pos pending l : (∀ x, was x = was' x) → run v was t es o pos pending l = run v was' t es o pos pending l.
Proof.
  intros H. revert o pos pending. induction l as [|a l IH]; intros o pos pending; [done|]. cbn [run].
  destruct (if ltb t (at_insertion a) then _ else _) as [now later]. by rewrite IH, (mark_ext v was was') by done.
Qed.

(** ** Convergence *)
Definition concurrent (x y : Op) : Prop := op_time x ≠ op_time y ∧ knows x (op_time y) = false ∧ knows y (op_time x) = false.

Lemma edit_undo_commute t v es u w cs s : global_observed v u = false → deliver (EditOp t v es) (deliver (UndoOp u w cs) s) = deliver (UndoOp u w cs) (deliver (EditOp t v es) s).
Proof.
  intros Hv. cbn. f_equal. unfold perform. apply run_ext. intros x. apply atom_was_ext. intros e. apply undone_at_ext. intros y Hy. rewrite !elem_of_elements, elem_of_union.
  split; [|auto]. intros [?|Hin]; [done|]. unfold undo_entries in Hin. apply elem_of_list_to_set, list_elem_of_fmap in Hin as (c & -> & _). cbn in Hy. congruence.
Qed.

Lemma deliver_commute x y s : concurrent x y → deliver x (deliver y s) = deliver y (deliver x s).
Proof.
  intros (Ht & Hx & Hy). unfold knows in *. destruct x as [a va esa|a va ca], y as [b vb esb|b vb cb]; cbn [op_time op_version] in *.
  - cbn. f_equal. apply run_commute; try done; intros z; by apply atom_was_mark.
  - by apply edit_undo_commute.
  - symmetry. by apply edit_undo_commute.
  - cbn. f_equal. set_solver.
Qed.

(** No operation comes before one it knows of. *)
Definition causal : list Op → Prop := ForallOrdPairs (fun x y => knows x (op_time y) = false).

Lemma causal_app l r : causal (l ++ r) → causal l ∧ causal r ∧ ∀ x y, x ∈ l → y ∈ r → knows x (op_time y) = false.
Proof.
  unfold causal. induction l as [|z l IH]; cbn; intros H.
  - split_and!; [constructor|done|]. by intros x y ?%not_elem_of_nil.
  - inversion H as [|? ? Hf Hs]; subst. apply Forall_app in Hf as [Hf1 Hf2]. destruct (IH Hs) as (H1 & H2 & H3). split_and!; [by constructor|done|].
    intros x y [->|Hx]%elem_of_cons Hy; [|by apply H3]. rewrite Forall_forall in Hf2. by apply Hf2.
Qed.
Lemma causal_drop l x r : causal (l ++ x :: r) → causal (l ++ r).
Proof.
  unfold causal. induction l as [|z l IH]; cbn; intros H; inversion H as [|? ? Hf Hs]; subst; [done|]. constructor; [|by apply IH].
  rewrite Forall_app, Forall_cons in Hf. rewrite Forall_app. tauto.
Qed.

Lemma deliver_front l x s : (∀ y, y ∈ l → concurrent x y) → deliver_all (l ++ [x]) s = deliver_all l (deliver x s).
Proof.
  revert s. induction l as [|y l IH]; intros s H; [done|]. cbn. unfold deliver_all in IH. rewrite IH by (intros z Hz; apply H; by right).
  rewrite deliver_commute; [done|]. apply H. by left.
Qed.

Lemma deliver_converge h h' s : h ≡ₚ h' → NoDup (op_time <$> h) → causal h → causal h' → deliver_all h s = deliver_all h' s.
Proof.
  revert h' s. induction h as [|x h IH]; intros h' s Hp Hn Hc Hc'.
  { by apply Permutation_nil in Hp as ->. }
  assert (Hx : x ∈ h') by (rewrite <-Hp; by left). apply list_elem_of_split in Hx as (l & r & ->).
  apply NoDup_cons in Hn as [Hnx Hn]. inversion Hc as [|? ? Hfx Hch]; subst. rewrite <-Permutation_middle in Hp. apply Permutation_cons_inv in Hp.
  assert (Hl : ∀ y, y ∈ l → concurrent x y).
  { intros y Hy. assert (Hyh : y ∈ h) by (rewrite Hp; set_solver). split_and!.
    - intros E. apply Hnx. rewrite E. by apply list_elem_of_fmap_2.
    - rewrite Forall_forall in Hfx. by apply Hfx.
    - destruct (causal_app _ _ Hc') as (_ & _ & H). apply H; [done|by left]. }
  replace (deliver_all (l ++ x :: r) s) with (deliver_all (l ++ r) (deliver x s)).
  - cbn. apply IH; [done|done|done|by eapply causal_drop].
  - pose proof (deliver_front l x s Hl) as E. unfold deliver_all in *. rewrite !foldl_app in *. cbn in E |- *. by rewrite E.
Qed.
