(* ===== verification/RemoteWalk.v ===== *)
(** * The walk of a remote edit

    The state of [apply_remote_edit] as pieces of text: the fragments passed, the ones ahead
    and the new ones.  Every step keeps the fragments, the ropes, the patch and the index in
    agreement, and moves characters from the old document to the new one as [integrate] does. *)

From stdpp Require Import sets gmap.
From S2P Require Import Prelude Ord Clock SumTree SumTreeFacts SeekSpec Cursor CursorFacts SeekFacts Locator UndoMap Patch PatchFacts Bitmap Utf8 Point TextSummary Chunk ChunkFacts Rope RopeFacts RopeSlices KeyedTree History Fragments BufferEdit EditIndex EditFacts LocalEdit Anchor RemoteEdit Doc.
Local Open Scope N_scope.

Abbreviation rstate := (EditState (list N) (list N) (VersionedFullOffset * N * unit)).

(** ** What a version saw *)
Section version.
Context (v : Global) (undos : UndoMap).
Abbreviation seen f := (global_observed v (f_timestamp f)).

(** The version showed the fragment. *)
Definition visible_at (f : Fragment) : bool :=
  negb (undone_at v (tree_items undos) (f_timestamp f)) && forallb (fun d => negb (global_observed v d) || undone_at v (tree_items undos) d) (f_deletions f).

Lemma was_visible_spec f : undo_map_ok undos → seen f = true → was_visible f v undos = Ok (visible_at f).
Proof.
  intros Hu Hs. unfold was_visible, visible_at. rewrite Hs. cbn [negb].
  assert (Hw : ∀ e, was_undone undos e v = Ok (undone_at v (tree_items undos) e)) by (intros e; unfold was_undone; by rewrite undo_count_by_spec).
  rewrite Hw. cbn [mbind outcome_bind]. destruct (undone_at v (tree_items undos) (f_timestamp f)); [done|]. cbn [negb andb].
  induction (f_deletions f) as [|d l IH]; [done|]. cbn [all_outcome forallb]. destruct (global_observed v d); cbn [negb orb mbind outcome_bind].
  - rewrite Hw. cbn [mbind outcome_bind]. destruct (undone_at v (tree_items undos) d); [exact IH|done].
  - exact IH.
Qed.

(** ** The text of a version *)
Definition full_text (ps : pieces) : list N := flat_map (fun p => if seen p.1 then p.2 else []) ps.
Lemma full_text_app l k : full_text (l ++ k) = full_text l ++ full_text k.
Proof. apply flat_map_app. Qed.
Lemma full_len ps : Forall piece_ok ps → byte_len (full_text ps) = seen_len v ps.*1.
Proof.
  unfold piece_ok, seen_len, full_text. induction 1 as [|[f t] ps [Hp _] Hps IH]; [done|]. cbn in *.
  rewrite !byte_len_app, IH. destruct (seen f); cbn; change (byte_len []) with 0; lia.
Qed.
Lemma doc_observed ps : observed_bytes v (doc ps) = byte_len (full_text ps).
Proof.
  induction ps as [|[f t] ps IH]; [done|]. rewrite doc_cons. cbn [full_text flat_map]. fold (full_text ps).
  rewrite observed_bytes_app, byte_len_app, IH. unfold piece_atoms. cbn [fst snd]. rewrite atoms_observed. by destruct (seen f).
Qed.
End version.

(** ** Cuts *)
(** What is left of a fragment, and a part at its start. *)
Definition advance (f : Fragment) (x : list N) : Fragment :=
  mkFragment (f_id f) (f_timestamp f) (f_insertion_offset f + byte_len x) (f_len f - byte_len x) (f_visible f) (f_deletions f) (f_max_undos f).
Definition part (f : Fragment) (m : list N) : Fragment :=
  mkFragment (f_id f) (f_timestamp f) (f_insertion_offset f) (byte_len m) (f_visible f) (f_deletions f) (f_max_undos f).

Lemma piece_atoms_app f m x : piece_atoms (f, m ++ x) = piece_atoms (f, m) ++ piece_atoms (advance f m, x).
Proof. apply atoms_app. Qed.
Lemma advance_advance f x y : advance (advance f x) y = advance f (x ++ y).
Proof. unfold advance. cbn. rewrite byte_len_app. f_equal; lia. Qed.

(** [bps] has been passed, [aps] lies ahead, the first of it consumed up to [x1]: then
    [cps] has been consumed and [rps] is left. *)
Inductive cut_at (v : Global) (bps aps : pieces) (x1 : list N) : pieces → pieces → Prop :=
  | cut_none : x1 = [] → cut_at v bps aps x1 bps aps
  | cut_part f x2 rest :
      x1 ≠ [] → x2 ≠ [] → global_observed v (f_timestamp f) = true → aps = (f, x1 ++ x2) :: rest →
      cut_at v bps aps x1 (bps ++ [(f, x1)]) ((advance f x1, x2) :: rest).

Lemma full_snoc v (l : pieces) f m : full_text v (l ++ [(f, m)]) = full_text v l ++ if global_observed v (f_timestamp f) then m else [].
Proof. rewrite full_text_app. cbn. by rewrite app_nil_r. Qed.

(** A fragment may be cut anywhere. *)
Lemma texts_merge v (l : pieces) f h x m :
  f_timestamp h = f_timestamp f → f_visible h = f_visible f →
  vis_text (l ++ [(f, x ++ m)]) = vis_text ((l ++ [(f, x)]) ++ [(h, m)]) ∧
  del_text (l ++ [(f, x ++ m)]) = del_text ((l ++ [(f, x)]) ++ [(h, m)]) ∧
  full_text v (l ++ [(f, x ++ m)]) = full_text v ((l ++ [(f, x)]) ++ [(h, m)]).
Proof.
  intros Et Ev. rewrite !vis_text_app, !del_text_app, !full_text_app. cbn. rewrite Et, Ev, !app_nil_r, <-!app_assoc.
  by destruct (f_visible f), (global_observed v (f_timestamp f)).
Qed.

Lemma cut_end v bps aps x1 cps rps : cut_at v bps aps x1 cps rps → full_text v (bps ++ take 1 aps) = full_text v (cps ++ take 1 rps).
Proof.
  intros [_|f x2 rest _ _ Hs ->]; [done|]. cbn [take]. rewrite take_0. by apply (texts_merge v bps f (advance f x1) x1 x2).
Qed.
Lemma cut_length v bps aps x1 cps rps : cut_at v bps aps x1 cps rps → length rps = length aps.
Proof. by intros [_|f x2 rest _ _ _ ->]. Qed.

(** ** The invariant of the walk *)
(** What the walk relies on: the content of the buffer is in order, the edit is new to it, and
    it is later than all its replica had seen. *)
Record grounds (V D : srope) (F : fragment_tree) (v : Global) (undos : UndoMap) (ts : Lamport) : Prop := {
  gr_visible : rope_wf V;
  gr_deleted : rope_wf D;
  gr_small : byte_len (rope_text V) + byte_len (rope_text D) <= 2 ^ 31;
  gr_tree : tree_wf cx ROPE_DEPTH F;
  gr_length : N.of_nat (length (tree_items F)) <= MAX_CHUNKS;
  gr_positive : Forall (fun f => 0 < value (f_timestamp f)) (tree_items F);
  gr_offsets : Forall (fun f => f_insertion_offset f + f_len f <= u32_max) (tree_items F);
  gr_untouched : untouched ts (tree_items F);
  gr_later : Forall (fun f => global_observed v (f_timestamp f) = true → ltb ts (f_timestamp f) = false) (tree_items F);
  gr_undos : undo_map_ok undos
}.

Record remote_core (V D : srope) (F : fragment_tree) (v : Global) (st : rstate) (bps aps nps : pieces) (x1 : list N) (cps rps : pieces) : Prop := {
  rc_tree : c_tree (es_old_fragments st) = F;
  rc_cursor : cursor_at (Some v) ROPE_DEPTH (es_old_fragments st) bps.*1 aps.*1;
  rc_cut : cut_at v bps aps x1 cps rps;
  rc_start : es_fragment_start st = byte_len (full_text v cps);
  rc_new : tree_wf cx ROPE_DEPTH (es_new_fragments st);
  rc_items : tree_items (es_new_fragments st) = nps.*1;
  rc_before_ok : Forall piece_ok bps;
  rc_after_ok : Forall piece_ok aps;
  rc_new_ok : Forall piece_ok nps;
  rc_builder : builder_at V D (es_new_ropes st) (vis_text cps) (vis_text rps) (del_text cps) (del_text rps) (vis_text nps) (del_text nps)
}.

Arguments gr_visible {V D F v undos ts} _.
Arguments gr_deleted {V D F v undos ts} _.
Arguments gr_small {V D F v undos ts} _.
Arguments gr_tree {V D F v undos ts} _.
Arguments gr_length {V D F v undos ts} _.
Arguments gr_positive {V D F v undos ts} _.
Arguments gr_offsets {V D F v undos ts} _.
Arguments gr_untouched {V D F v undos ts} _.
Arguments gr_later {V D F v undos ts} _.
Arguments gr_undos {V D F v undos ts} _.
Arguments rc_tree {V D F v st bps aps nps x1 cps rps} _.
Arguments rc_cursor {V D F v st bps aps nps x1 cps rps} _.
Arguments rc_cut {V D F v st bps aps nps x1 cps rps} _.
Arguments rc_start {V D F v st bps aps nps x1 cps rps} _.
Arguments rc_new {V D F v st bps aps nps x1 cps rps} _.
Arguments rc_items {V D F v st bps aps nps x1 cps rps} _.
Arguments rc_before_ok {V D F v st bps aps nps x1 cps rps} _.
Arguments rc_after_ok {V D F v st bps aps nps x1 cps rps} _.
Arguments rc_new_ok {V D F v st bps aps nps x1 cps rps} _.
Arguments rc_builder {V D F v st bps aps nps x1 cps rps} _.

Section walk.
Context (V D : srope) (F : fragment_tree) (v : Global) (undos : UndoMap) (ts : Lamport) (G : grounds V D F v undos ts).
Abbreviation seen f := (global_observed v (f_timestamp f)).
Abbreviation full := (full_text v).
Abbreviation core := (remote_core V D F v).

Lemma remote_height : (N.to_nat (height F) < STACK_CAPACITY)%nat.
Proof using G. apply (fragment_height F (gr_tree G) (gr_length G)). Qed.
Lemma visible_small : small (rope_text V).
Proof using G. pose proof (gr_small G). unfold small. lia. Qed.
Lemma deleted_small : small (rope_text D).
Proof using G. pose proof (gr_small G). unfold small. lia. Qed.

Section state.
Context (st : rstate) (bps aps nps : pieces) (x1 : list N) (cps rps : pieces) (H : core st bps aps nps x1 cps rps).

Lemma core_items : tree_items F = bps.*1 ++ aps.*1.
Proof using H. destruct (rc_cursor H) as (_ & Hi & _). by rewrite (rc_tree H) in Hi. Qed.
Lemma core_position : c_position (es_old_fragments st) = (Offset (byte_len (full bps)), byte_len (vis_text bps), tt).
Proof using All.
  destruct (rc_cursor H) as (_ & _ & Hp & _). rewrite Hp. pose proof (rc_before_ok H) as Hok.
  rewrite versioned_dims0, (full_len v bps), (proj1 (pieces_len bps Hok)); [done|done|].
  pose proof (gr_positive G) as Hpos. rewrite core_items in Hpos. by apply Forall_app in Hpos as [? _].
Qed.
Lemma core_full_start : old_full_start st = Ok (byte_len (full bps)).
Proof using All. unfold old_full_start, cursor_start. by rewrite core_position. Qed.
Lemma core_visible_start : old_visible_start st = byte_len (vis_text bps).
Proof using All. unfold old_visible_start, cursor_start. by rewrite core_position. Qed.
Lemma core_full_end : old_full_end v st = Ok (byte_len (full (cps ++ take 1 rps))).
Proof using All.
  rewrite <-(cut_end v bps aps x1 cps rps) by apply H. unfold old_full_end. rewrite (cursor_end_spec _ _ _ _ _ (rc_cursor H)).
  pose proof (rc_before_ok H) as Hb. pose proof (rc_after_ok H) as Ha.
  rewrite (full_len v (bps ++ take 1 aps)) by (apply Forall_app; split; [done|by apply Forall_take]).
  pose proof (gr_positive G) as Hpos. rewrite core_items in Hpos. apply Forall_app in Hpos as [Hpb Hpa].
  rewrite fmap_app. destruct aps as [|[f x] rest]; cbn [fmap list_fmap take fst mbind outcome_bind].
  - by rewrite versioned_dims0, app_nil_r.
  - apply Forall_cons in Hpa as [Hpf _]. rewrite take_0. cbn [list_fmap]. rewrite versioned_dims0; [done|].
    apply Forall_app. split; [done|by repeat constructor].
Qed.
Lemma core_item : cursor_item (es_old_fragments st) = Ok (head aps.*1).
Proof using H. eapply cursor_item_spec, (rc_cursor H). Qed.
Lemma core_max_id : fs_max_id (summary (es_new_fragments st)) = last_id nps.*1.
Proof using H.
  rewrite (tree_wf_summary cx ROPE_DEPTH) by apply H. rewrite (rc_items H). apply fragment_sum_id.
Qed.
Lemma core_new_visible : new_visible st = byte_len (vis_text nps).
Proof using H.
  unfold new_visible. rewrite (tree_wf_summary cx ROPE_DEPTH) by apply H. rewrite (rc_items H).
  change (item_summary_of cx <$> ?l) with (fragment_summary <$> l). rewrite fragment_sum_text. symmetry. apply pieces_len, H.
Qed.
Lemma core_visible : rope_text V = vis_text cps ++ vis_text rps.
Proof using H. apply (rc_text _ _ _ _ (ba_visible _ _ _ _ _ _ _ _ _ (rc_builder H))). Qed.
Lemma core_deleted : rope_text D = del_text cps ++ del_text rps.
Proof using H. apply (rc_text _ _ _ _ (ba_deleted _ _ _ _ _ _ _ _ _ (rc_builder H))). Qed.

(** The bytes ahead are few. *)
Lemma piece_small h x rest : rps = (h, x) :: rest → byte_len x <= 2 ^ 31.
Proof using All.
  intros E. pose proof core_visible as Ev. pose proof core_deleted as Ed. pose proof (gr_small G) as Hs. rewrite Ev, Ed, E in Hs.
  cbn [vis_text del_text flat_map fst snd] in Hs. rewrite !byte_len_app in Hs. destruct (f_visible h); lia.
Qed.
End state.

(** The fragment at the cursor and what is left of it. *)
Record leftover (bps aps : pieces) (x1 : list N) (cps : pieces) (f h : Fragment) (x : list N) (rest : pieces) : Prop := {
  lo_item : f ∈ tree_items F;
  lo_ahead : aps = (f, x1 ++ x) :: rest;
  lo_nonempty : x ≠ [];
  lo_id : f_id h = f_id f;
  lo_insertion : f_timestamp h = f_timestamp f;
  lo_visible : f_visible h = f_visible f;
  lo_deletions : f_deletions h = f_deletions f;
  lo_offset : f_insertion_offset h = f_insertion_offset f + byte_len x1;
  lo_len : byte_len (x1 ++ x) = f_len f;
  lo_cut : x1 = [] ∧ h = f ∧ cps = bps ∨ x1 ≠ [] ∧ seen f = true ∧ h = advance f x1 ∧ cps = bps ++ [(f, x1)]
}.
Arguments lo_item {bps aps x1 cps f h x rest} _.
Arguments lo_ahead {bps aps x1 cps f h x rest} _.
Arguments lo_nonempty {bps aps x1 cps f h x rest} _.
Arguments lo_id {bps aps x1 cps f h x rest} _.
Arguments lo_insertion {bps aps x1 cps f h x rest} _.
Arguments lo_visible {bps aps x1 cps f h x rest} _.
Arguments lo_deletions {bps aps x1 cps f h x rest} _.
Arguments lo_offset {bps aps x1 cps f h x rest} _.
Arguments lo_len {bps aps x1 cps f h x rest} _.
Arguments lo_cut {bps aps x1 cps f h x rest} _.
Lemma core_head st bps aps nps x1 cps h x rest :
  core st bps aps nps x1 cps ((h, x) :: rest) → ∃ f, leftover bps aps x1 cps f h x rest.
Proof.
  intros H. pose proof (core_items _ _ _ _ _ _ _ H) as Hi. pose proof (rc_after_ok H) as Ha.
  pose proof (rc_cut H) as Hc. inversion Hc as [Ex|f x2 rest' Hx1 Hx2 Hs Ea]; subst.
  - apply Forall_cons in Ha as [[Hl Hp] _]. cbn in Hl, Hp. exists h. split; try done.
    + rewrite Hi. set_solver.
    + intros ->. change (byte_len []) with 0 in Hl. lia.
    + change (byte_len []) with 0. by rewrite N.add_0_r.
    + by left.
  - apply Forall_cons in Ha as [[Hl Hp] _]. exists f. split; try done; [rewrite Hi; set_solver|by right].
Qed.


Lemma consumed_full bps aps x1 cps f h x rest :
  leftover bps aps x1 cps f h x rest → byte_len (full cps) = byte_len (full bps) + byte_len x1.
Proof.
  intros L. destruct (lo_cut L) as [(-> & _ & ->)|(_ & Hs & _ & ->)].
  - change (byte_len []) with 0. lia.
  - by rewrite full_snoc, Hs, byte_len_app.
Qed.
Lemma consumed_visible bps aps x1 cps f h x rest :
  leftover bps aps x1 cps f h x rest → f_visible f = true → byte_len (vis_text cps) = byte_len (vis_text bps) + byte_len x1.
Proof.
  intros L Hv. destruct (lo_cut L) as [(-> & _ & ->)|(_ & Hs & _ & ->)].
  - change (byte_len []) with 0. lia.
  - destruct (texts_snoc bps f x1) as [-> _]. by rewrite Hv, byte_len_app.
Qed.

(** What has been consumed, with a further part of the fragment. *)
Lemma consumed_texts bps aps x1 cps f h x rest m :
  leftover bps aps x1 cps f h x rest →
  vis_text (bps ++ [(f, x1 ++ m)]) = vis_text (cps ++ [(h, m)]) ∧ del_text (bps ++ [(f, x1 ++ m)]) = del_text (cps ++ [(h, m)])
  ∧ full (bps ++ [(f, x1 ++ m)]) = full (cps ++ [(h, m)]).
Proof. intros L. destruct (lo_cut L) as [(-> & -> & ->)|(_ & _ & -> & ->)]; [done|]. by apply texts_merge. Qed.

Lemma full_small st bps aps nps x1 cps rps :
  core st bps aps nps x1 cps rps → byte_len (full cps) + byte_len (full rps) <= 2 ^ 31.
Proof using G.
  intros H. pose proof (gr_small G) as Hs. rewrite (core_visible _ _ _ _ _ _ _ H), (core_deleted _ _ _ _ _ _ _ H) in Hs.
  assert (Hle : ∀ ps : pieces, byte_len (full ps) <= byte_len (vis_text ps) + byte_len (del_text ps)).
  { clear. induction ps as [|[f t] ps IH]; [cbn; lia|]. cbn [full_text vis_text del_text flat_map fst snd] in *.
    fold (vis_text ps) (del_text ps) (full ps) in *. rewrite !byte_len_app. destruct (seen f), (f_visible f); change (byte_len []) with 0; lia. }
  pose proof (Hle cps). pose proof (Hle rps). rewrite !byte_len_app in Hs. lia.
Qed.

(** The part that is cut out of the fragment at the cursor. *)
Lemma cut_spec st bps aps nps x1 cps f h m x3 rest :
  core st bps aps nps x1 cps ((h, m ++ x3) :: rest) → leftover bps aps x1 cps f h (m ++ x3) rest → seen h = true →
  cut f (byte_len (full bps)) (byte_len (full cps)) (byte_len (full cps ++ m)) = part h m.
Proof using G.
  intros H L Hs. pose proof (full_small _ _ _ _ _ _ _ H) as Hsm. pose proof (consumed_full _ _ _ _ _ _ _ _ L) as Ef.
  cbn [full_text flat_map fst snd] in Hsm. rewrite Hs in Hsm. unfold cut, part. destruct L. rewrite lo_id0, lo_insertion0, lo_visible0, lo_deletions0, lo_offset0.
  pose proof (gr_offsets G) as Ho. rewrite Forall_forall in Ho. specialize (Ho f lo_item0). rewrite !byte_len_app in *.
  rewrite Ef, !usize_sub_exact by lia. rewrite !u32_wrap_small by (unfold u32_max; lia).
  replace (byte_len (full bps) + byte_len x1 - byte_len (full bps)) with (byte_len x1) by lia. rewrite u32_add_exact by lia.
  replace (byte_len (full bps) + byte_len x1 + byte_len m - (byte_len (full bps) + byte_len x1)) with (byte_len m) by lia.
  destruct lo_cut0 as [(-> & -> & _)|(_ & _ & -> & _)]; done.
Qed.

Lemma current_part_spec st bps aps nps x1 cps f h m x3 rest :
  core st bps aps nps x1 cps ((h, m ++ x3) :: rest) → leftover bps aps x1 cps f h (m ++ x3) rest → seen h = true →
  current_part st (byte_len (full cps ++ m)) = Ok (part h m).
Proof using G.
  intros H L Hs. unfold current_part. rewrite (core_item _ _ _ _ _ _ _ H), (core_full_start _ _ _ _ _ _ _ H), (rc_start H).
  rewrite (lo_ahead L). cbn [fmap list_fmap head unwrap mbind outcome_bind fst]. f_equal. by eapply cut_spec.
Qed.

(** ** Moving pieces *)
(** The piece [(g, m)] has been made of the first part of [(h, m ++ x3)]. *)
Record taken (st' : rstate) (cps nps : pieces) (h g : Fragment) (m x3 : list N) (rest : pieces) : Prop := {
  tk_new : tree_wf cx ROPE_DEPTH (es_new_fragments st');
  tk_items : tree_items (es_new_fragments st') = (nps ++ [(g, m)]).*1;
  tk_builder : builder_at V D (es_new_ropes st') (vis_text (cps ++ [(h, m)])) (vis_text ((h, x3) :: rest)) (del_text (cps ++ [(h, m)]))
    (del_text ((h, x3) :: rest)) (vis_text (nps ++ [(g, m)])) (del_text (nps ++ [(g, m)]))
}.

Lemma builder_take b (cps nps : pieces) h g m x3 rest :
  builder_at V D b (vis_text cps) (vis_text ((h, m ++ x3) :: rest)) (del_text cps) (del_text ((h, m ++ x3) :: rest)) (vis_text nps) (del_text nps) →
  f_len g = byte_len m →
  ok_with (push_fragment (Sl:=list N) b g (f_visible h)) (fun b' =>
    builder_at V D b' (vis_text (cps ++ [(h, m)])) (vis_text ((h, x3) :: rest)) (del_text (cps ++ [(h, m)])) (del_text ((h, x3) :: rest))
      (vis_text (nps ++ [(g, m)])) (del_text (nps ++ [(g, m)]))).
Proof using G.
  intros Hb Hl. unfold push_fragment. rewrite Hl. destruct (texts_snoc cps h m) as [-> ->], (texts_snoc nps g m) as [-> ->].
  cbn [vis_text del_text flat_map fst snd] in *. destruct (f_visible h); rewrite <-?app_assoc in Hb.
  - apply (builder_push_visible V D); [apply G|apply G|apply visible_small|apply deleted_small|exact Hb].
  - apply (builder_push_deleted V D); [apply G|apply G|apply visible_small|apply deleted_small|exact Hb].
Qed.

Context (B : N) (HB : B <= MAX_CHUNKS).
Abbreviation room := (EditFacts.room B).

Lemma push_ahead st bps aps nps x1 cps h g m x3 rest k :
  core st bps aps nps x1 cps ((h, m ++ x3) :: rest) → f_len g = byte_len m → room nps aps k →
  ok_with (ropes ← push_fragment (Sl:=list N) (es_new_ropes st) g (f_visible h); t ← push cx (es_new_fragments st) g; Ok (t, ropes))
    (fun r => ∀ st', es_new_fragments st' = r.1 → es_new_ropes st' = r.2 → taken st' cps nps h g m x3 rest).
Proof using All.
  intros H Hl Hr. ok_bind (builder_take _ cps nps h g m x3 rest (rc_builder H) Hl). intros b Hb.
  pose proof (rc_items H) as Hi. destruct (core_head _ _ _ _ _ _ _ _ _ H) as (f & L).
  ok_bind (push_spec cx ROPE_DEPTH (es_new_fragments st) g); [apply H| |].
  { rewrite Hi. apply room_fits. unfold EditFacts.room in Hr. rewrite (lo_ahead L) in Hr. rewrite length_app, length_fmap. cbn [length] in *. lia. }
  intros t [Ht Eit]. cbn [ok_with fst snd]. intros st' Et Eb. split; [by rewrite Et|by rewrite Et, Eit, Hi, fmap_app|by rewrite Eb].
Qed.

Lemma push_piece_ahead st bps aps nps x1 cps h g m x3 rest k :
  core st bps aps nps x1 cps ((h, m ++ x3) :: rest) → f_len g = byte_len m → room nps aps k →
  ok_with (push_piece (Sl:=list N) st g (f_visible h)) (fun st' => ∃ t b, st' = pushed st g t b ∧ taken st' cps nps h g m x3 rest).
Proof using All.
  intros H Hl Hr. pose proof (push_ahead _ _ _ _ _ _ _ _ _ _ _ _ H Hl Hr) as Hp. unfold push_piece.
  destruct (push_fragment _ g _) as [b|]; [|done]. cbn [mbind outcome_bind] in *. destruct (push cx _ g) as [t|]; [|done]. cbn [mbind outcome_bind ok_with fst snd] in *.
  exists t, b. split; [done|]. by apply Hp.
Qed.

(** All of the fragment at the cursor has been taken, and the cursor moves on. *)
Lemma core_moved st st' bps aps nps x1 cps f h g x rest :
  core st bps aps nps x1 cps ((h, x) :: rest) → leftover bps aps x1 cps f h x rest → taken st' cps nps h g x [] rest → f_len g = byte_len x →
  c_tree (es_old_fragments st') = F → cursor_at (Some v) ROPE_DEPTH (es_old_fragments st') (bps ++ [(f, x1 ++ x)]).*1 rest.*1 →
  es_fragment_start st' = byte_len (full (cps ++ [(h, x)])) →
  core st' (bps ++ [(f, x1 ++ x)]) rest (nps ++ [(g, x)]) [] (bps ++ [(f, x1 ++ x)]) rest.
Proof.
  intros H L [T1 T2 T3] Hl Ht Hc Hs. destruct (consumed_texts _ _ _ _ _ _ _ _ x L) as (Ev & Ed & Ef). pose proof (rc_after_ok H) as Ha. rewrite (lo_ahead L) in Ha.
  apply Forall_cons in Ha as [Haf Har]. split; try done.
  - by apply cut_none.
  - by rewrite Hs, Ef.
  - apply Forall_app. split; [apply H|by constructor].
  - apply Forall_app. split; [apply H|]. constructor; [|done]. split; cbn; [done|]. rewrite Hl. apply nonempty_bytes, L.
  - rewrite Ev, Ed. cbn [vis_text del_text flat_map fst snd] in T3. by destruct (f_visible h).
Qed.

(** A part of it has been taken. *)
Lemma core_part st st' bps aps nps x1 cps f h g m x3 rest :
  core st bps aps nps x1 cps ((h, m ++ x3) :: rest) → leftover bps aps x1 cps f h (m ++ x3) rest → taken st' cps nps h g m x3 rest → f_len g = byte_len m →
  seen h = true → m ≠ [] → x3 ≠ [] → es_old_fragments st' = es_old_fragments st → es_fragment_start st' = byte_len (full (cps ++ [(h, m)])) →
  core st' bps aps (nps ++ [(g, m)]) (x1 ++ m) (bps ++ [(f, x1 ++ m)]) ((advance h m, x3) :: rest).
Proof.
  intros H L [T1 T2 T3] Hl Hsn Hm Hx3 Ho Hs. destruct (consumed_texts _ _ _ _ _ _ _ _ m L) as (Ev & Ed & Ef). split; try done.
  - rewrite Ho. apply H.
  - rewrite Ho. apply H.
  - assert (Eh : advance h m = advance f (x1 ++ m)).
    { destruct (lo_cut L) as [(-> & -> & _)|(_ & _ & -> & _)]; [done|]. apply advance_advance. }
    rewrite Eh. apply cut_part; [by destruct x1|done|by rewrite <-(lo_insertion L)|]. rewrite (lo_ahead L). by rewrite app_assoc.
  - by rewrite Hs, Ef.
  - apply H.
  - apply H.
  - apply Forall_app. split; [apply H|]. constructor; [|done]. split; cbn; [done|]. rewrite Hl. by apply nonempty_bytes.
  - rewrite Ev, Ed. cbn [vis_text del_text flat_map fst snd advance f_visible] in *. exact T3.
Qed.

Lemma core_next st bps aps nps x1 cps f h x rest :
  core st bps aps nps x1 cps ((h, x) :: rest) → leftover bps aps x1 cps f h x rest →
  ok_with (cursor_next (Some v) (es_old_fragments st)) (fun c => c_tree c = F ∧ cursor_at (Some v) ROPE_DEPTH c (bps ++ [(f, x1 ++ x)]).*1 rest.*1).
Proof using G.
  intros H L. eapply ok_with_mono.
  { eapply (cursor_next_at (Some v) ROPE_DEPTH); rewrite ?(rc_tree H); [exact (gr_tree G)|apply remote_height|apply H]. }
  intros c [Ec Hc]. rewrite (lo_ahead L) in Hc. cbn [fmap list_fmap fst take drop] in Hc. rewrite take_0, drop_0 in Hc.
  split; [rewrite Ec; apply H|]. by rewrite fmap_app.
Qed.
End walk.
Arguments lo_item {F v bps aps x1 cps f h x rest} _.
Arguments lo_ahead {F v bps aps x1 cps f h x rest} _.
Arguments lo_nonempty {F v bps aps x1 cps f h x rest} _.
Arguments lo_id {F v bps aps x1 cps f h x rest} _.
Arguments lo_insertion {F v bps aps x1 cps f h x rest} _.
Arguments lo_visible {F v bps aps x1 cps f h x rest} _.
Arguments lo_deletions {F v bps aps x1 cps f h x rest} _.
Arguments lo_offset {F v bps aps x1 cps f h x rest} _.
Arguments lo_len {F v bps aps x1 cps f h x rest} _.
Arguments lo_cut {F v bps aps x1 cps f h x rest} _.
Arguments core_items {V D F v st bps aps nps x1 cps rps} _.
Arguments core_visible {V D F v st bps aps nps x1 cps rps} _.
Arguments core_deleted {V D F v st bps aps nps x1 cps rps} _.
Arguments core_position {V D F v undos ts} G {st bps aps nps x1 cps rps} _.
Arguments core_full_start {V D F v undos ts} G {st bps aps nps x1 cps rps} _.
Arguments core_visible_start {V D F v undos ts} G {st bps aps nps x1 cps rps} _.
Arguments core_full_end {V D F v undos ts} G {st bps aps nps x1 cps rps} _.
Arguments core_item {V D F v st bps aps nps x1 cps rps} _.
Arguments core_max_id {V D F v st bps aps nps x1 cps rps} _.
Arguments core_new_visible {V D F v st bps aps nps x1 cps rps} _.
Arguments core_head {V D F v undos ts} G {st bps aps nps x1 cps h x rest} _.
Arguments full_small {V D F v undos ts} G {st bps aps nps x1 cps rps} _.
Arguments consumed_full {F v bps aps x1 cps f h x rest} _.
Arguments consumed_texts {F v bps aps x1 cps f h x rest} m _.
Arguments consumed_visible {F v bps aps x1 cps f h x rest} _ _.
Arguments current_part_spec {V D F v undos ts} G {st bps aps nps x1 cps f h m x3 rest} _ _ _.
Arguments cut_spec {V D F v undos ts} G {st bps aps nps x1 cps f h m x3 rest} _ _ _.
Arguments core_next {V D F v undos ts} G {st bps aps nps x1 cps f h x rest} _ _.
