(* ===== verification/RemoteSteps.v ===== *)
(** * The steps of a remote edit

    Each step of [apply_remote_edit] keeps the invariant of the walk; together they take the
    characters of the old document to those of the new one as [integrate] says. *)

From stdpp Require Import sets gmap.
From S2P Require Import Prelude Ord Clock SumTree SumTreeFacts SeekSpec Cursor CursorFacts SeekFacts Locator UndoMap Patch PatchFacts Bitmap Utf8 Point TextSummary Chunk ChunkFacts Rope RopeFacts RopeSlices KeyedTree History Fragments BufferEdit EditIndex EditFacts LocalEdit Anchor RemoteEdit Doc RemoteWalk.
Local Open Scope N_scope.

(** The bytes of all pieces. *)
Definition weight (ps : pieces) : N := byte_len (vis_text ps) + byte_len (del_text ps).
Lemma weight_app l k : weight (l ++ k) = weight l + weight k.
Proof. unfold weight. rewrite vis_text_app, del_text_app, !byte_len_app. lia. Qed.
Lemma weight_cons f t ps : weight ((f, t) :: ps) = byte_len t + weight ps.
Proof.
  unfold weight. cbn [vis_text del_text flat_map fst snd]. fold (vis_text ps) (del_text ps). rewrite !byte_len_app.
  destruct (f_visible f); change (byte_len []) with 0; lia.
Qed.
Lemma weight_snoc ps f t : weight (ps ++ [(f, t)]) = weight ps + byte_len t.
Proof. rewrite weight_app, weight_cons. change (weight []) with 0. lia. Qed.

Section steps.
Context (V D : srope) (F : fragment_tree) (v : Global) (undos : UndoMap) (ts : Lamport) (G : grounds V D F v undos ts).
Abbreviation seen f := (global_observed v (f_timestamp f)).
Abbreviation full := (full_text v).
Abbreviation core := (remote_core V D F v).
Abbreviation left_of := (leftover F v).
Abbreviation is_taken := (taken V D).

Record remote_inv (ins : list N) (st : rstate) (bps aps nps : pieces) (x1 : list N) (cps rps : pieces) : Prop := {
  ri_core : core st bps aps nps x1 cps rps;
  ri_ids : ids_ok (nps.*1 ++ aps.*1);
  ri_patch : reaches (es_edits_patch st) (byte_len (vis_text cps)) (byte_len (vis_text nps));
  ri_total : weight nps + weight rps = byte_len (rope_text V) + byte_len (rope_text D) + byte_len ins;
  ri_index : index_inv ts (byte_len ins) st bps aps nps x1;
  ri_origin : Forall (derived ts (tree_items F)) nps.*1;
  ri_slices : ∀ g, g ∈ nps.*1 → touched ts g → slice_from_fragment ts g ∈ es_insertion_slices st
}.
Arguments ri_core {ins st bps aps nps x1 cps rps} _.
Arguments ri_ids {ins st bps aps nps x1 cps rps} _.
Arguments ri_patch {ins st bps aps nps x1 cps rps} _.
Arguments ri_total {ins st bps aps nps x1 cps rps} _.
Arguments ri_index {ins st bps aps nps x1 cps rps} _.
Arguments ri_origin {ins st bps aps nps x1 cps rps} _.
Arguments ri_slices {ins st bps aps nps x1 cps rps} _.
Abbreviation inv := remote_inv.

(** The fragment [g] holds the part [m] of what is left of [f]. *)
Record cutting (st st' : rstate) (f h g : Fragment) (m : list N) (hs : list Fragment) : Prop := {
  ct_len : f_len g = byte_len m;
  ct_insertion : f_timestamp g = f_timestamp h;
  ct_offset : f_insertion_offset g = f_insertion_offset h;
  ct_origin : f_deletions g = f_deletions h ∧ f_visible g = f_visible h ∧ hs = [] ∨ f_deletions g = f_deletions h ++ [ts] ∧ f_visible g = false ∧ hs = [g];
  ct_grows : grows ts st st' [g] hs;
  ct_inserted : es_insertion_offset st' = es_insertion_offset st
}.

Arguments ct_len {st st' f h g m hs} _.
Arguments ct_insertion {st st' f h g m hs} _.
Arguments ct_offset {st st' f h g m hs} _.
Arguments ct_origin {st st' f h g m hs} _.
Arguments ct_grows {st st' f h g m hs} _.
Arguments ct_inserted {st st' f h g m hs} _.

Section cut_piece.
Context (ins : list N) (st st' : rstate) (bps aps nps : pieces) (x1 : list N) (cps : pieces) (f h g : Fragment) (m x3 : list N) (rest : pieces) (hs : list Fragment).
Context (H : inv ins st bps aps nps x1 cps ((h, m ++ x3) :: rest)) (L : left_of bps aps x1 cps f h (m ++ x3) rest) (Hm : m ≠ []) (C : cutting st st' f h g m hs).

Lemma cutting_span : span_of g = mkSpan (f_timestamp f) (f_insertion_offset f + byte_len x1) (f_insertion_offset f + byte_len (x1 ++ m)).
Proof using L C.
  unfold span_of. rewrite (ct_insertion C), (ct_offset C), (ct_len C), (lo_insertion L), (lo_offset L).
  f_equal. rewrite byte_len_app. lia.
Qed.
Lemma cutting_part : part_of g f.
Proof using L C.
  pose proof cutting_span as E. unfold span_of in E. injection E as E1 E2 E3. pose proof (lo_len L) as Hl.
  rewrite !byte_len_app in *. split; [done|lia..].
Qed.
Lemma cutting_untouched : ¬ touched ts h.
Proof using G L.
  pose proof (gr_untouched G) as Hun. rewrite Forall_forall in Hun. specialize (Hun f (lo_item L)). unfold touched in *.
  by rewrite (lo_insertion L), (lo_deletions L).
Qed.
Lemma cutting_derived : Forall (derived ts (tree_items F)) (nps ++ [(g, m)]).*1.
Proof using H L C.
  rewrite fmap_app. apply Forall_app. split; [apply H|]. constructor; [|done]. cbn. pose proof (lo_item L) as Hf.
  pose proof (lo_deletions L) as Ed. pose proof (lo_visible L) as Ev.
  destruct (ct_origin C) as [(E1 & E2 & _)|(E1 & E2 & _)].
  - apply (derived_kept ts _ g f); [done|apply cutting_part|congruence|congruence].
  - apply (derived_deleted ts _ g f); [done|apply cutting_part|congruence|congruence].
Qed.
Lemma cutting_slices e : e ∈ (nps ++ [(g, m)]).*1 → touched ts e → slice_from_fragment ts e ∈ es_insertion_slices st'.
Proof using G H L C.
  destruct (ct_grows C) as [_ ->]. rewrite fmap_app, !elem_of_app. cbn. rewrite list_elem_of_singleton. intros [Hin| ->] Ht; [left; by apply (ri_slices H)|].
  destruct (ct_origin C) as [(E1 & E2 & ->)|(E1 & E2 & ->)]; [|right; by left].
  destruct cutting_untouched. unfold touched in *. by rewrite (ct_insertion C), E1 in Ht.
Qed.
Lemma cutting_total : weight (nps ++ [(g, m)]) + weight ((h, x3) :: rest) = byte_len (rope_text V) + byte_len (rope_text D) + byte_len ins.
Proof using H. rewrite <-(ri_total H), weight_snoc, !weight_cons, byte_len_app. lia. Qed.
Lemma cutting_index : index_inv ts (byte_len ins) st' bps aps (nps ++ [(g, m)]) (x1 ++ m).
Proof using H L Hm C.
  pose proof (ri_index H) as Hx. rewrite (lo_ahead L) in *.
  eapply (index_part _ _ st st' bps f x1 m x3 rest nps g hs); [done|apply L|done|apply cutting_span|apply C| |apply C].
  destruct (ct_origin C) as [(_ & _ & ->)|(_ & _ & ->)]; [apply sublist_nil_l|done].
Qed.
End cut_piece.

(** A part of what is left has been taken. *)
Lemma inv_part ins st st' bps aps nps x1 cps f h g m x3 rest hs :
  inv ins st bps aps nps x1 cps ((h, m ++ x3) :: rest) → left_of bps aps x1 cps f h (m ++ x3) rest → m ≠ [] → x3 ≠ [] → cutting st st' f h g m hs →
  is_taken st' cps nps h g m x3 rest → seen h = true → es_old_fragments st' = es_old_fragments st → es_fragment_start st' = byte_len (full (cps ++ [(h, m)])) →
  ids_ok (nps.*1 ++ g :: aps.*1) → reaches (es_edits_patch st') (byte_len (vis_text (cps ++ [(h, m)]))) (byte_len (vis_text (nps ++ [(g, m)]))) →
  inv ins st' bps aps (nps ++ [(g, m)]) (x1 ++ m) (bps ++ [(f, x1 ++ m)]) ((advance h m, x3) :: rest).
Proof using G.
  intros H L Hm Hx3 C T Hs Ho Hst Hid Hp. split.
  - by eapply (core_part V D F v st st'); [apply H|exact L|exact T|apply C|..].
  - by rewrite fmap_app, <-app_assoc.
  - by rewrite (proj1 (consumed_texts m L)).
  - rewrite weight_cons. rewrite <-(cutting_total ins st bps aps nps x1 cps h g m x3 rest H), weight_cons. done.
  - by eapply cutting_index.
  - by eapply cutting_derived.
  - intros e. by eapply (cutting_slices ins st st').
Qed.

(** All of it has been taken and the cursor has moved on. *)
Lemma inv_all ins st st' bps aps nps x1 cps f h g x rest hs :
  inv ins st bps aps nps x1 cps ((h, x) :: rest) → left_of bps aps x1 cps f h x rest → cutting st st' f h g x hs →
  is_taken st' cps nps h g x [] rest →
  c_tree (es_old_fragments st') = F → cursor_at (Some v) ROPE_DEPTH (es_old_fragments st') (bps ++ [(f, x1 ++ x)]).*1 rest.*1 →
  es_fragment_start st' = byte_len (full (cps ++ [(h, x)])) →
  ids_ok (nps.*1 ++ g :: rest.*1) → reaches (es_edits_patch st') (byte_len (vis_text (cps ++ [(h, x)]))) (byte_len (vis_text (nps ++ [(g, x)]))) →
  inv ins st' (bps ++ [(f, x1 ++ x)]) rest (nps ++ [(g, x)]) [] (bps ++ [(f, x1 ++ x)]) rest.
Proof using G.
  intros H L C T Ht Hc Hst Hid Hp. pose proof (lo_nonempty L) as Hx. split.
  - by eapply (core_moved V D F v st st'); [apply H|exact L|exact T|apply C|..].
  - by rewrite fmap_app, <-app_assoc.
  - by rewrite (proj1 (consumed_texts x L)).
  - rewrite <-(ri_total H), weight_snoc, weight_cons. lia.
  - assert (Hi : index_inv ts (byte_len ins) st' bps aps (nps ++ [(g, x)]) (x1 ++ x)).
    { eapply (cutting_index ins st st' bps aps nps x1 cps f h g x [] rest hs); rewrite ?app_nil_r; done. }
    rewrite (lo_ahead L) in Hi. eapply index_next; [exact Hi|by destruct x1, x|grow_tac|done].
  - eapply (cutting_derived ins st st' bps aps nps x1 cps f h g x [] rest hs); rewrite ?app_nil_r; done.
  - intros e. eapply (cutting_slices ins st st' bps aps nps x1 cps f h g x [] rest hs); rewrite ?app_nil_r; done.
Qed.

(** ** Passing text *)
(** The characters [p] have been passed, [m] of them text of the version. *)
Record passed (cps nps rps cps' nps' rps' : pieces) (p : document) (m : list N) : Prop := {
  ps_new : doc nps' = doc nps ++ p;
  ps_left : doc rps = p ++ doc rps';
  ps_text : full rps = m ++ full rps';
  ps_consumed : byte_len (full cps') = byte_len (full cps) + byte_len m
}.
Lemma passed_refl cps nps rps : passed cps nps rps cps nps rps [] [].
Proof. split; rewrite ?app_nil_r; try done. change (byte_len []) with 0. lia. Qed.
Lemma passed_trans c n r c1 n1 r1 p1 m1 c2 n2 r2 p2 m2 :
  passed c n r c1 n1 r1 p1 m1 → passed c1 n1 r1 c2 n2 r2 p2 m2 → passed c n r c2 n2 r2 (p1 ++ p2) (m1 ++ m2).
Proof.
  intros [A1 A2 A3 A4] [C1 C2 C3 C4]. split.
  - by rewrite C1, A1, app_assoc.
  - by rewrite A2, C2, app_assoc.
  - by rewrite A3, C3, app_assoc.
  - rewrite C4, A4, byte_len_app. lia.
Qed.
Lemma passed_bytes c n r c' n' r' p m : passed c n r c' n' r' p m → observed_bytes v p = byte_len m.
Proof.
  intros [_ E1 E2 _]. pose proof (doc_observed v r) as E. rewrite E1, E2, observed_bytes_app, byte_len_app, doc_observed in E. lia.
Qed.
(** A piece that is kept. *)
Lemma passed_piece cps nps h g x rest bps' :
  piece_atoms (g, x) = piece_atoms (h, x) → full bps' = full (cps ++ [(h, x)]) →
  passed cps nps ((h, x) :: rest) bps' (nps ++ [(g, x)]) rest (piece_atoms (h, x)) (if seen h then x else []).
Proof. intros E Ef. split; [by rewrite doc_snoc, E|done|done|]. by rewrite Ef, full_snoc, byte_len_app. Qed.

(** Keeping text moves both ends of the patch. *)
Lemma patch_shift p (cps nps : pieces) h g m :
  reaches p (byte_len (vis_text cps)) (byte_len (vis_text nps)) → f_visible g = f_visible h →
  reaches p (byte_len (vis_text (cps ++ [(h, m)]))) (byte_len (vis_text (nps ++ [(g, m)]))).
Proof.
  intros Hp Hv. destruct (texts_snoc cps h m) as [-> _], (texts_snoc nps g m) as [-> _]. rewrite Hv. destruct (f_visible h); [|done].
  rewrite !byte_len_app. by apply reaches_shift.
Qed.

Lemma part_cutting st st' f h m : grows ts st st' [part h m] [] → es_insertion_offset st' = es_insertion_offset st → cutting st st' f h (part h m) m [].
Proof. intros Hg Ho. split; try done. by left. Qed.

(** The text [g] ahead of the cursor lies in the fragment there. *)
Definition near (rps : pieces) (g : list N) : Prop := byte_len g <= byte_len (full (take 1 rps)).

Lemma passed_pass c n r c' n' r' p m g' :
  passed c n r c' n' r' p m → p = [] ∨ g' ≠ [] →
  pass v (byte_len (m ++ g')) (doc r) = (p ++ (pass v (byte_len g') (doc r')).1, (pass v (byte_len g') (doc r')).2).
Proof.
  intros Hp Hor. rewrite (ps_left _ _ _ _ _ _ _ _ Hp). pose proof (passed_bytes _ _ _ _ _ _ _ _ Hp) as Eb. rewrite byte_len_app. destruct Hor as [->|Hg].
  - change (observed_bytes v []) with 0 in Eb. rewrite <-Eb. cbn [app]. rewrite N.add_0_l. by destruct (pass v _ _).
  - pose proof (nonempty_bytes g' Hg). rewrite pass_app by lia. rewrite Eb. by replace (byte_len m + byte_len g' - byte_len m) with (byte_len g') by lia.
Qed.

(** The head of what is left holds [g]. *)
Lemma near_head rps g q : full rps = g ++ q → near rps g → g ≠ [] → ∃ h x3 rest, rps = (h, g ++ x3) :: rest ∧ seen h = true ∧ q = x3 ++ full rest.
Proof.
  intros E Hn Hg. pose proof (nonempty_bytes g Hg). unfold near in Hn. destruct rps as [|[h x] rest]; [change (byte_len g <= 0) in Hn; lia|].
  cbn [take] in Hn. rewrite take_0 in Hn. cbn [full_text flat_map fst snd] in E, Hn. fold (full rest) in E. destruct (seen h) eqn:Hs; [|change (byte_len g <= 0) in Hn; lia].
  rewrite app_nil_r in Hn. destruct (prefix_split g q x (full rest) (eq_sym E) Hn) as (x3 & -> & ->). by exists h, x3, rest.
Qed.

Context (B : N) (HB : B <= MAX_CHUNKS).
Abbreviation room := (EditFacts.room B).

(** The rest of the fragment at the cursor is kept: [current_part] up to its end, pushed as a piece. *)
Lemma keep_rest ins st bps aps nps x1 cps h x rest k :
  inv ins st bps aps nps x1 cps ((h, x) :: rest) → seen h = true → room nps aps k →
  ok_with (suffix ← current_part st (byte_len (full (cps ++ [(h, x)])));
           st1 ← push_piece (Sl:=list N) st suffix (f_visible suffix);
           c ← cursor_next (Some v) (es_old_fragments st1);
           Ok (st1, c))
    (fun r => ∃ bps',
      full_offset (cursor_start r.2).1.1 = Ok (byte_len (full bps')) ∧
      (∀ s, inv ins (with_start (with_cursor r.1 r.2 s) (byte_len (full bps'))) bps' rest (nps ++ [(part h x, x)]) [] bps' rest) ∧
      passed cps nps ((h, x) :: rest) bps' (nps ++ [(part h x, x)]) rest (piece_atoms (h, x)) x ∧ room (nps ++ [(part h x, x)]) rest k).
Proof using All.
  intros H Hs Hr. destruct (core_head G (ri_core H)) as (f & L).
  rewrite full_snoc, Hs. pose proof (ri_core H) as Hc. rewrite <-(app_nil_r x) in Hc, L.
  rewrite (current_part_spec G Hc L Hs). cbn [mbind outcome_bind].
  change (f_visible (part h x)) with (f_visible h).
  ok_bind (push_piece_ahead V D F v undos ts G B HB st bps aps nps x1 cps h (part h x) x [] rest k Hc); [done|done|].
  intros st1 (t & b & -> & T). cbn [pushed es_old_fragments]. rewrite app_nil_r in Hc, L.
  ok_bind (core_next G Hc L). intros c (Ec & Hcu). cbn [ok_with fst snd].
  exists (bps ++ [(f, x1 ++ x)]).
  destruct (consumed_texts x L) as (_ & _ & Ef).
  assert (Hinv : ∀ s, inv ins (with_start (with_cursor (pushed st (part h x) t b) c s) (byte_len (full (bps ++ [(f, x1 ++ x)])))) (bps ++ [(f, x1 ++ x)]) rest
    (nps ++ [(part h x, x)]) [] (bps ++ [(f, x1 ++ x)]) rest).
  { intros s. eapply (inv_all ins st _ bps aps nps x1 cps f h (part h x) x rest []); [exact H|exact L|apply part_cutting; [grow_tac|done]| |done|done| | |].
    - destruct T as [T1 T2 T3]. by split.
    - cbn. by rewrite Ef.
    - pose proof (ri_ids H) as Hid. rewrite (lo_ahead L) in Hid. eapply (ids_same _ f); [apply L|exact Hid].
    - apply patch_shift; [apply H|done]. }
  split_and!.
  - pose proof (core_position G (ri_core (Hinv 0))) as Ep. unfold cursor_start.
    cbn [with_start with_cursor es_old_fragments] in Ep. by rewrite Ep.
  - exact Hinv.
  - pose proof (passed_piece cps nps h (part h x) x rest (bps ++ [(f, x1 ++ x)]) eq_refl Ef) as Hp. by rewrite Hs in Hp.
  - unfold EditFacts.room in *. rewrite (lo_ahead L) in Hr. rewrite length_app. cbn [length] in *. lia.
Qed.

Lemma remote_consume_rest_spec ins st bps aps nps x1 cps rps k :
  inv ins st bps aps nps x1 cps rps → room nps aps k →
  ok_with (remote_consume_rest (Sl:=list N) v st (Ok (byte_len (full (cps ++ take 1 rps))))) (fun st' => ∃ bps' aps' nps' p m,
    inv ins (with_start st' (byte_len (full bps'))) bps' aps' nps' [] bps' aps' ∧ passed cps nps rps bps' nps' aps' p m ∧
    byte_len (full bps') <= byte_len (full (cps ++ take 1 rps)) ∧ room nps' aps' k).
Proof using All.
  intros H Hr. pose proof (ri_core H) as Hc. unfold remote_consume_rest. rewrite (core_full_start G Hc), (rc_start Hc). cbn [mbind outcome_bind].
  pose proof (rc_cut Hc) as Hcut. inversion Hcut as [Ex Eb Ea|f x2 rest Hx1 Hx2 Hs Ea Eb Er]; subst.
  - rewrite N.ltb_irrefl. cbn [ok_with]. exists cps, rps, nps, [], []. split_and!; [|apply passed_refl| |done].
    + destruct H as [[] ? ? ? Hx ? ?]. split; try done. eapply index_same; [exact Hx|grow_tac|done].
    + rewrite full_text_app, byte_len_app. lia.
  - destruct (core_head G Hc) as (f' & L). pose proof (consumed_full L) as Ef. pose proof (nonempty_bytes x1 Hx1). pose proof (nonempty_bytes x2 Hx2).
    rewrite (proj2 (N.ltb_lt _ _)) by lia. cbn [take]. rewrite take_0. rewrite (full_snoc v _ _ x2). cbn [advance f_timestamp]. rewrite Hs.
    rewrite (proj2 (N.ltb_lt _ _)) by (rewrite (byte_len_app _ x2); lia).
    pose proof (keep_rest ins st bps _ nps x1 _ (advance f x1) x2 rest k H Hs Hr) as Hk. rewrite full_snoc in Hk. cbn [advance f_timestamp] in Hk. rewrite Hs in Hk.
    destruct (current_part st _) as [suffix|]; [|done]. cbn [mbind outcome_bind] in *. destruct (push_piece st suffix _) as [st1|]; [|done]. cbn [mbind outcome_bind] in *.
    destruct (cursor_next _ _) as [c|]; [|done]. cbn [mbind outcome_bind ok_with fst snd] in *. destruct Hk as (bps' & _ & Hinv & Hp & Hr').
    exists bps', rest, (nps ++ [(part (advance f x1) x2, x2)]), (piece_atoms (advance f x1, x2)), x2. split_and!; [apply Hinv|done| |done].
    rewrite (ps_consumed _ _ _ _ _ _ _ _ Hp), byte_len_app. lia.
Qed.

(** Whole fragments are taken over. *)
Lemma remote_append_spec st a bps lps rps nps c s k :
  core (with_start st a) bps (lps ++ rps) nps [] bps (lps ++ rps) → room nps (lps ++ rps) k →
  tree_wf cx ROPE_DEPTH s → tree_items s = lps.*1 →
  ok_with (append_slice (Sl:=list N) st s) (fun st' => es_edits_patch st' = es_edits_patch st ∧ grows ts st st' [] [] ∧ es_insertion_offset st' = es_insertion_offset st ∧
    tree_wf cx ROPE_DEPTH (es_new_fragments st') ∧ tree_items (es_new_fragments st') = (nps ++ lps).*1 ∧
    builder_at V D (es_new_ropes st') (vis_text (bps ++ lps)) (vis_text rps) (del_text (bps ++ lps)) (del_text rps) (vis_text (nps ++ lps)) (del_text (nps ++ lps)) ∧
    (c_tree c = F → cursor_at (Some v) ROPE_DEPTH c (bps ++ lps).*1 rps.*1 →
      core (with_cursor st' c (byte_len (full (bps ++ lps)))) (bps ++ lps) rps (nps ++ lps) [] (bps ++ lps) rps)).
Proof using All.
  intros H Hr Hs His. pose proof (rc_after_ok H) as Hok. apply Forall_app in Hok as [Hokl Hokr].
  pose proof (rc_builder H) as Hb. rewrite vis_text_app, del_text_app in Hb. pose proof (rc_items H) as Hi. unfold append_slice.
  assert (Es : fs_text (summary s) = mkFragmentText (byte_len (vis_text lps)) (byte_len (del_text lps))).
  { rewrite (tree_wf_summary cx ROPE_DEPTH) by done. rewrite His.
    change (item_summary_of cx <$> ?l) with (fragment_summary <$> l). rewrite fragment_sum_text.
    destruct (pieces_len lps Hokl) as [-> ->]. done. }
  cbn [with_start with_cursor es_new_fragments es_new_ropes] in Hb, Hi.
  rewrite Es. ok_bind (builder_append_spec V D (gr_visible G) (gr_deleted G) (visible_small _ _ _ _ _ _ G) (deleted_small _ _ _ _ _ _ G) (es_new_ropes st) _ (vis_text lps) _ _ (del_text lps) _ _ _ Hb).
  intros b Hb'. ok_bind (append_spec cx ROPE_DEPTH (es_new_fragments st) s); [apply H|done| |].
  { rewrite Hi, His. apply room_fits. unfold EditFacts.room in Hr. rewrite !length_app, !length_fmap in *. lia. }
  intros t [Ht Eit]. assert (Et : tree_items t = (nps ++ lps).*1) by (by rewrite Eit, Hi, His, fmap_app).
  rewrite <-!vis_text_app, <-!del_text_app in Hb'. cbn [ok_with]. split_and!; [done|grow_tac|done|done|done|done|].
  intros Ec Hc. destruct H. split; cbn [with_cursor with_ropes es_old_fragments es_fragment_start es_new_fragments es_new_ropes]; try done.
  - by apply cut_none.
  - by apply Forall_app.
  - by apply Forall_app.
Qed.

(** Their part of the invariant. *)
Lemma inv_keep ins st st' bps lps rps nps a c s :
  inv ins (with_start st a) bps (lps ++ rps) nps [] bps (lps ++ rps) → es_edits_patch st' = es_edits_patch st → grows ts st st' [] [] →
  es_insertion_offset st' = es_insertion_offset st → core (with_cursor st' c s) (bps ++ lps) rps (nps ++ lps) [] (bps ++ lps) rps →
  inv ins (with_cursor st' c s) (bps ++ lps) rps (nps ++ lps) [] (bps ++ lps) rps.
Proof using All.
  intros [H Hid Hp Ht Hx Ho Hs] Ep Hg Hof Hc. split; [done| | | | | |].
  - by rewrite fmap_app, <-app_assoc in *.
  - cbn in *. rewrite Ep, !vis_text_app, !byte_len_app. by apply reaches_shift.
  - rewrite !weight_app in *. lia.
  - eapply index_keep; [exact Hx|destruct Hg; by split|done].
  - rewrite fmap_app. apply Forall_app. split; [done|]. pose proof (core_items H) as Hi. rewrite fmap_app in Hi. apply Forall_forall. intros f Hf.
    apply (derived_kept ts _ f f); [rewrite Hi; set_solver|split; [done|lia..]|done|done].
  - intros g. rewrite fmap_app, elem_of_app. destruct Hg as [_ Hg]. cbn in Hg |- *. rewrite app_nil_r in Hg. rewrite Hg. intros [Hin|Hin] Htc; [by apply Hs|].
    pose proof (core_items H) as Hi. rewrite fmap_app in Hi. pose proof (gr_untouched G) as Hun. rewrite Forall_forall in Hun. destruct (Hun g); [rewrite Hi; set_solver|done].
Qed.

(** Where a seek to an offset of the version's text stops. *)
Lemma versioned_slice (c : Cursor Fragment FragmentSummary (VersionedFullOffset * N * unit)) bps aps o :
  c_tree c = F → seek_ready (Some v) ROPE_DEPTH c bps.*1 aps.*1 → tree_items F = (bps ++ aps).*1 → Forall piece_ok (bps ++ aps) → byte_len (full bps) <= o →
  ok_with (cursor_slice (Some v) (Offset o) Left c) (fun r => ∃ lps rps, aps = lps ++ rps ∧ c_tree r.1 = F ∧
    cursor_at (Some v) ROPE_DEPTH r.1 (bps ++ lps).*1 rps.*1 ∧ tree_wf cx ROPE_DEPTH r.2 ∧ tree_items r.2 = lps.*1 ∧
    (lps ≠ [] → byte_len (full (bps ++ lps)) < o) ∧ (rps ≠ [] → o <= byte_len (full (bps ++ lps ++ take 1 rps)))).
Proof using G.
  intros Ec Hr Hi Hok Ho. pose proof (gr_positive G) as Hpos. assert (Hpos' := Hpos). rewrite Hi, fmap_app in Hpos'.
  pose proof Hok as [Hokb Hoka]%Forall_app. rewrite (full_len v bps) in Ho by done. pose proof Hpos' as [Hpb Hpa]%Forall_app.
  assert (Hsums : SeekSums (D:=VersionedFullOffset * N * unit) (Some v) ROPE_DEPTH (tree_items (c_tree c)) (Offset o) Left) by (rewrite Ec; by apply versioned_sums).
  assert (HF : tree_wf (Some v) ROPE_DEPTH (c_tree c)) by (rewrite Ec; exact (gr_tree G)).
  eapply ok_with_mono.
  { eapply (cursor_slice_spec (Some v) ROPE_DEPTH (Offset o) Left c bps.*1 aps.*1);
      [done|rewrite Ec; exact (remote_height _ _ _ _ _ _ G)|done|rewrite versioned_dims0 by done; by apply versioned_ge
      |rewrite versioned_dims0 by done; by apply versioned_seekable|rewrite Ec; apply room_fits, (gr_length G)]. }
  intros [c' s] (l & rest & (Ec' & Ea & Hsc & Hc) & Hw & His). cbn [fst snd] in *.
  destruct (versioned_scan v o l rest bps.*1 aps.*1 Hpos' Ea Ho Hsc) as (_ & H2 & H3).
  apply fmap_app_inv in Ea as (lps & rps & -> & -> & ->). exists lps, rps. apply Forall_app in Hoka as [Hokl Hokr].
  split_and!; [done|congruence|by rewrite fmap_app|done|done| |].
  - intros Hne. rewrite full_len, fmap_app by (by apply Forall_app). apply H2. by destruct lps.
  - intros Hne. destruct rps as [|[y x] rps]; [done|]. specialize (H3 y _ eq_refl). cbn [take]. rewrite take_0, full_len, !fmap_app; [done|].
    apply Forall_cons in Hokr as [? _]. repeat (apply Forall_app; split); [done|done|by constructor].
Qed.

(** [jump_ahead]: the fragments before the one that reaches the start of the range are kept. *)
Lemma remote_jump_ahead_spec ins st bps aps nps x1 cps rps g q k :
  inv ins st bps aps nps x1 cps rps → full rps = g ++ q → room nps aps k →
  ok_with (remote_jump_ahead (Sl:=list N) v st (byte_len (full cps) + byte_len g)) (fun st' => ∃ bps' aps' nps' x1' cps' rps' p m g',
    inv ins st' bps' aps' nps' x1' cps' rps' ∧ passed cps nps rps cps' nps' rps' p m ∧ g = m ++ g' ∧ (p = [] ∨ g' ≠ []) ∧ near rps' g' ∧ room nps' aps' k).
Proof using All.
  intros H Eg Hr. pose proof (ri_core H) as Hc. unfold remote_jump_ahead. rewrite (core_full_end G Hc). cbn [mbind outcome_bind].
  destruct (N.ltb_spec (byte_len (full (cps ++ take 1 rps))) (byte_len (full cps) + byte_len g)) as [Hlt|Hge].
  2:{ cbn [ok_with]. exists bps, aps, nps, x1, cps, rps, [], [], g. split_and!; [done|apply passed_refl|done|by left| |done].
      unfold near. rewrite full_text_app, byte_len_app in Hge. lia. }
  ok_bind (remote_consume_rest_spec ins st bps aps nps x1 cps rps k H Hr). intros st1 (bps1 & aps1 & nps1 & p1 & m1 & H1 & Hp1 & Hle & Hr1).
  pose proof (ri_core H1) as Hc1. pose proof (ps_consumed _ _ _ _ _ _ _ _ Hp1) as Ec1.
  ok_bind (versioned_slice (es_old_fragments st1) bps1 aps1 (byte_len (full cps) + byte_len g)).
  { exact (rc_tree Hc1). }
  { right. exact (rc_cursor Hc1). }
  { rewrite fmap_app. exact (core_items Hc1). }
  { apply Forall_app. split; apply Hc1. }
  { lia. }
  intros [c s] (lps & rps' & -> & Ec & Hcu & Hws & His & Hlo & Hhi). cbn [fst snd] in *.
  ok_bind (remote_append_spec st1 _ bps1 lps rps' nps1 c s k Hc1 Hr1 Hws His). intros st2 (Ep2 & Hg2 & Ho2 & _ & _ & _ & Hc2). specialize (Hc2 Ec Hcu).
  pose proof (core_position G Hc2) as Epos. cbn [with_cursor es_old_fragments] in Epos. unfold cursor_start. rewrite Epos. cbn [fst full_offset mbind outcome_bind ok_with].
  assert (Hp2 : passed bps1 nps1 (lps ++ rps') (bps1 ++ lps) (nps1 ++ lps) rps' (doc lps) (full lps)).
  { split; [apply doc_app|apply doc_app|apply full_text_app|by rewrite full_text_app, byte_len_app]. }
  pose proof (passed_trans _ _ _ _ _ _ _ _ _ _ _ _ _ Hp1 Hp2) as Hp. pose proof (ps_text _ _ _ _ _ _ _ _ Hp) as Et. rewrite Eg in Et.
  assert (Hlen : byte_len (m1 ++ full lps) < byte_len g).
  { rewrite byte_len_app. destruct (decide (lps = [])) as [->|Hne].
    - change (full []) with (@nil N). change (byte_len []) with 0. lia.
    - specialize (Hlo Hne). rewrite full_text_app, byte_len_app in Hlo. lia. }
  destruct (prefix_split _ _ _ _ (eq_sym Et) (N.lt_le_incl _ _ Hlen)) as (g' & -> & Eq).
  assert (Hg' : g' ≠ []) by (intros ->; rewrite app_nil_r in Hlen; lia).
  exists (bps1 ++ lps), rps', (nps1 ++ lps), [], (bps1 ++ lps), rps', (p1 ++ doc lps), (m1 ++ full lps), g'. split_and!; [|done|done|by right| |].
  - by eapply (inv_keep ins st1 st2).
  - assert (Hne : rps' ≠ []). { intros ->. cbn in Eq. by destruct g'. } specialize (Hhi Hne).
    unfold near. rewrite !full_text_app, !byte_len_app in *. lia.
  - unfold EditFacts.room in *. rewrite !length_app in *. lia.
Qed.

End steps.
Arguments ri_core {V D F v ts ins st bps aps nps x1 cps rps} _.
Arguments ri_ids {V D F v ts ins st bps aps nps x1 cps rps} _.
Arguments ri_patch {V D F v ts ins st bps aps nps x1 cps rps} _.
Arguments ri_total {V D F v ts ins st bps aps nps x1 cps rps} _.
Arguments ri_index {V D F v ts ins st bps aps nps x1 cps rps} _.
Arguments ri_origin {V D F v ts ins st bps aps nps x1 cps rps} _.
Arguments ri_slices {V D F v ts ins st bps aps nps x1 cps rps} _.
Arguments ps_new {v cps nps rps cps' nps' rps' p m} _.
Arguments ps_left {v cps nps rps cps' nps' rps' p m} _.
Arguments ps_text {v cps nps rps cps' nps' rps' p m} _.
Arguments ps_consumed {v cps nps rps cps' nps' rps' p m} _.
Arguments passed_trans {v c n r c1 n1 r1 p1 m1 c2 n2 r2 p2 m2} _ _.
Arguments near_head {v rps g q} _ _ _.
