(* ===== verification/RemoteRange.v ===== *)
(** * One range of a remote edit

    What the body of the loop over the ranges does to the document: it passes the text before
    the range, and what comes after the edit at its start, inserts the new text and deletes
    what its replica saw in the range. *)

From stdpp Require Import sets gmap.
From S2P Require Import Prelude Ord Clock SumTree SumTreeFacts SeekSpec Cursor CursorFacts SeekFacts Locator UndoMap Patch PatchFacts Bitmap Utf8 Point TextSummary Chunk ChunkFacts Rope RopeFacts RopeSlices KeyedTree History Fragments BufferEdit EditIndex EditFacts LocalEdit Anchor RemoteEdit Doc RemoteWalk RemoteSteps.
Local Open Scope N_scope.

Section range.
Context (V D : srope) (F : fragment_tree) (v : Global) (undos : UndoMap) (ts : Lamport) (G : grounds V D F v undos ts).
Context (B : N) (HB : B <= MAX_CHUNKS).
Abbreviation seen f := (global_observed v (f_timestamp f)).
Abbreviation full := (full_text v).
Abbreviation core := (remote_core V D F v).
Abbreviation room := (EditFacts.room B).
Abbreviation left_of := (leftover F v).
Abbreviation is_taken := (taken V D).
Abbreviation inv := (remote_inv V D F v ts).

(** The start of the range has been reached, or lies within the fragment at the cursor. *)
Definition inside (rps : pieces) (g : list N) : Prop := g = [] ∨ ∃ h x3 rest, rps = (h, g ++ x3) :: rest ∧ seen h = true ∧ g ≠ [] ∧ x3 ≠ [].

(** If the range begins where the fragment ends, the fragment is kept. *)
Lemma finish_fragment_spec ins st bps aps nps x1 cps rps g q k :
  inv ins st bps aps nps x1 cps rps → full rps = g ++ q → near v rps g → room nps aps k →
  ok_with (finish_fragment (Sl:=list N) v st (byte_len (full cps) + byte_len g)) (fun st' => ∃ bps' aps' nps' x1' cps' rps' p m g',
    inv ins st' bps' aps' nps' x1' cps' rps' ∧ passed v cps nps rps cps' nps' rps' p m ∧ g = m ++ g' ∧
    pass v (byte_len g) (doc rps) = (p ++ (pass v (byte_len g') (doc rps')).1, (pass v (byte_len g') (doc rps')).2) ∧
    inside rps' g' ∧ room nps' aps' k).
Proof using All.
  intros H Eg Hn Hr. pose proof (ri_core H) as Hc. unfold finish_fragment. rewrite (core_full_end G Hc), (rc_start Hc). cbn [mbind outcome_bind].
  assert (Hstay : inside rps g → ∃ bps' aps' nps' x1' cps' rps' p m g',
    inv ins st bps' aps' nps' x1' cps' rps' ∧ passed v cps nps rps cps' nps' rps' p m ∧ g = m ++ g' ∧
    pass v (byte_len g) (doc rps) = (p ++ (pass v (byte_len g') (doc rps')).1, (pass v (byte_len g') (doc rps')).2) ∧ inside rps' g' ∧ room nps' aps' k).
  { intros Hin. exists bps, aps, nps, x1, cps, rps, [], [], g. split_and!; [done|apply passed_refl|done|by destruct (pass v _ _)|done|done]. }
  destruct (decide (g = [])) as [->|Hg].
  { change (byte_len []) with 0. rewrite N.add_0_r. destruct (N.eqb_spec (byte_len (full (cps ++ take 1 rps))) (byte_len (full cps))) as [->|_].
    - rewrite N.ltb_irrefl. apply Hstay. by left.
    - apply Hstay. by left. }
  destruct (near_head Eg Hn Hg) as (h & x3 & rest & -> & Hs & ->). cbn [take]. rewrite take_0, full_snoc, Hs, !byte_len_app.
  pose proof (nonempty_bytes g Hg). destruct (decide (x3 = [])) as [->|Hx3].
  - change (byte_len []) with 0. rewrite N.add_0_r, N.eqb_refl, (proj2 (N.ltb_lt _ _)) by lia. cbn [andb]. rewrite app_nil_r in *.
    pose proof (keep_rest V D F v undos ts G B HB ins st bps aps nps x1 cps h g rest k H Hs Hr) as Hk. rewrite full_snoc, Hs, byte_len_app in Hk.
    destruct (current_part st _) as [suffix|]; [|done]. cbn [mbind outcome_bind] in *. destruct (push_piece st suffix _) as [st1|]; [|done]. cbn [mbind outcome_bind] in *.
    destruct (cursor_next _ _) as [c|]; [|done]. cbn [mbind outcome_bind ok_with fst snd] in *. destruct Hk as (bps' & Eo & Hinv & Hp & Hr').
    rewrite Eo. cbn [mbind outcome_bind ok_with]. exists bps', rest, (nps ++ [(part h g, g)]), [], bps', rest, (piece_atoms (h, g)), g, [].
    split_and!; [exact (Hinv 0)|done|by rewrite app_nil_r| |by left|done]. rewrite doc_cons. unfold piece_atoms at 1. cbn [fst snd].
    rewrite pass_atoms by done. change (byte_len []) with 0. rewrite pass_0. cbn [fst snd]. by rewrite app_nil_r.
  - pose proof (nonempty_bytes x3 Hx3). rewrite (proj2 (N.eqb_neq _ _)) by lia. apply Hstay. right. by exists h, x3, rest.
Qed.

(** Insertions that are concurrent to the edit and later are passed. *)
Lemma skip_concurrent_spec fuel ins st bps aps nps x1 cps rps k :
  inv ins st bps aps nps x1 cps rps → room nps aps k → (length aps < fuel)%nat →
  ok_with (skip_concurrent (Sl:=list N) v ts fuel st (byte_len (full cps))) (fun st' => ∃ bps' aps' nps' x1' cps' rps' p,
    inv ins st' bps' aps' nps' x1' cps' rps' ∧ passed v cps nps rps cps' nps' rps' p [] ∧ skip ts (doc rps) = (p, doc rps') ∧ room nps' aps' k).
Proof using All.
  revert st bps aps nps x1 cps rps. induction fuel as [|fuel IH]; intros st bps aps nps x1 cps rps H Hr Hf; [lia|].
  pose proof (ri_core H) as Hc. cbn [skip_concurrent]. rewrite (core_item Hc), (rc_start Hc), N.eqb_refl. cbn [andb mbind outcome_bind].
  assert (Hstay : skip ts (doc rps) = ([], doc rps) → ∃ bps' aps' nps' x1' cps' rps' p,
    inv ins st bps' aps' nps' x1' cps' rps' ∧ passed v cps nps rps cps' nps' rps' p [] ∧ skip ts (doc rps) = (p, doc rps') ∧ room nps' aps' k).
  { intros E. exists bps, aps, nps, x1, cps, rps, []. split_and!; [done|apply passed_refl|done|done]. }
  destruct rps as [|[h x] rest].
  { assert (aps = []) as ->. { pose proof (cut_length _ _ _ _ _ _ (rc_cut Hc)) as El. by destruct aps. } by apply Hstay. }
  destruct (core_head G Hc) as (f & L). pose proof (lo_nonempty L) as Hx. rewrite (lo_ahead L). cbn [fmap list_fmap head fst].
  rewrite doc_cons in Hstay |- *. unfold piece_atoms in Hstay |- *. cbn [fst snd] in Hstay |- *.
  destruct (ltb ts (f_timestamp f)) eqn:Hlt.
  2:{ apply Hstay. by rewrite skip_stop by (done || by rewrite (lo_insertion L)). }
  assert (Hs : seen f = false).
  { destruct (seen f) eqn:Hs; [|done]. pose proof (gr_later G) as Hl. rewrite Forall_forall in Hl. by rewrite (Hl f (lo_item L) Hs) in Hlt. }
  destruct (lo_cut L) as [(-> & -> & ->)|(_ & Hs' & _)]; [|congruence]. cbn [app] in L. pose proof (lo_ahead L) as ->.
  rewrite <-(app_nil_r x) in Hc. pose proof (push_ahead V D F v undos ts G B HB st bps _ nps [] bps f f x [] rest k Hc) as Hp.
  rewrite app_nil_r in Hc. pose proof (lo_len L) as Hl. cbn [app] in Hl. specialize (Hp (eq_sym Hl) Hr).
  destruct (push_fragment _ f _) as [ropes|]; [|done]. cbn [mbind outcome_bind] in *. destruct (push cx _ f) as [t|]; [|done]. cbn [mbind outcome_bind ok_with fst snd] in *.
  ok_bind (core_next G Hc L). intros c (Ec & Hcu). cbn [app] in Hcu.
  assert (Ef : full (bps ++ [(f, x)]) = full bps) by (by rewrite full_snoc, Hs, app_nil_r). rewrite <-Ef.
  set (st' := with_cursor (with_ropes st t ropes) c (byte_len (full (bps ++ [(f, x)])))).
  assert (T : is_taken st' bps nps f f x [] rest) by (by apply Hp).
  assert (Hc' : core st' (bps ++ [(f, x)]) rest (nps ++ [(f, x)]) [] (bps ++ [(f, x)]) rest).
  { eapply (core_moved V D F v st st' bps _ nps [] bps f f f x rest Hc L T); by rewrite ?Hl. }
  assert (H' : inv ins st' (bps ++ [(f, x)]) rest (nps ++ [(f, x)]) [] (bps ++ [(f, x)]) rest).
  { eapply (inv_keep V D F v undos ts G B HB ins st (with_ropes st t ropes) bps [(f, x)] rest nps (es_fragment_start st) c); [|done|grow_tac|done|done].
    destruct H as [[] ? ? ? Hxi ? ?]. split; try done. eapply index_same; [exact Hxi|grow_tac|done]. }
  assert (Hp' : passed v bps nps ((f, x) :: rest) (bps ++ [(f, x)]) (nps ++ [(f, x)]) rest (piece_atoms (f, x)) []).
  { pose proof (passed_piece v bps nps f f x rest (bps ++ [(f, x)]) eq_refl eq_refl) as Hp'. by rewrite Hs in Hp'. }
  eapply ok_with_mono; [apply (IH st' _ rest (nps ++ [(f, x)]) [] _ rest H')|].
  { unfold EditFacts.room in *. rewrite length_app. cbn [length] in *. lia. }
  { cbn [length] in *. lia. }
  intros st2 (b2 & a2 & n2 & y2 & c2 & r2 & p2 & H2 & Hp2 & Es2 & Hr2). exists b2, a2, n2, y2, c2, r2, (piece_atoms (f, x) ++ p2).
  split_and!; [done|exact (passed_trans Hp' Hp2)| |done]. rewrite skip_atoms by done. by rewrite Es2.
Qed.

(** The part of the fragment before the range is kept, with a locator of its own. *)
Lemma remote_preserve_prefix_spec ins st bps aps nps x1 cps rps g k :
  inv ins st bps aps nps x1 cps rps → inside rps g → room nps aps (1 + k) →
  ok_with (remote_preserve_prefix (Sl:=list N) st (byte_len (full cps) + byte_len g)) (fun st' => ∃ nps' x1' cps' rps' p,
    inv ins st' bps aps nps' x1' cps' rps' ∧ passed v cps nps rps cps' nps' rps' p g ∧ pass v (byte_len g) (doc rps) = (p, doc rps') ∧
    (g = [] → nps' = nps ∧ rps' = rps) ∧ (g ≠ [] → skip ts (doc rps') = ([], doc rps')) ∧ room nps' aps k).
Proof using All.
  intros H Hin Hr. pose proof (ri_core H) as Hc. unfold remote_preserve_prefix. rewrite (rc_start Hc).
  destruct Hin as [->|(h & x3 & rest & -> & Hs & Hg & Hx3)].
  { change (byte_len []) with 0. rewrite N.add_0_r, N.ltb_irrefl. cbn [ok_with]. exists nps, x1, cps, rps, []. split_and!; try done; [apply passed_refl|apply pass_0|].
    unfold EditFacts.room in *. lia. }
  pose proof (nonempty_bytes g Hg). rewrite (proj2 (N.ltb_lt _ _)) by lia. rewrite <-byte_len_app. destruct (core_head G Hc) as (f & L).
  rewrite (current_part_spec G Hc L Hs), (core_max_id Hc). cbn [mbind outcome_bind part f_id].
  destruct (ids_between nps.*1 _ (ri_ids H)) as (id & Eid & Hid). assert (Eh : head_id aps.*1 = f_id h) by (rewrite (lo_ahead L), (lo_id L); done).
  rewrite Eh in Eid. rewrite Eid. cbn [mbind outcome_bind]. change (with_id _ id) with (with_id (part h g) id). set (e := with_id (part h g) id).
  change (f_visible e) with (f_visible h).
  ok_bind (push_piece_ahead V D F v undos ts G B HB st bps aps nps x1 cps h e g x3 rest (1 + k) Hc); [done|done|]. intros st1 (t & b & -> & T). cbn [ok_with].
  assert (Ef : byte_len (full cps ++ g) = byte_len (full (cps ++ [(h, g)]))) by (by rewrite full_snoc, Hs). rewrite Ef.
  exists (nps ++ [(e, g)]), (x1 ++ g), (bps ++ [(f, x1 ++ g)]), ((advance h g, x3) :: rest), (piece_atoms (h, g)). split_and!.
  - eapply (inv_part V D F v undos ts G ins st _ bps aps nps x1 cps f h e g x3 rest []); try done.
    + split; try done; [by left|grow_tac].
    + destruct T as [T1 T2 T3]. by split.
    + by apply Hid.
    + apply patch_shift; [apply H|done].
  - split.
    + by rewrite doc_snoc.
    + by rewrite !doc_cons, piece_atoms_app, <-app_assoc.
    + cbn [full_text flat_map fst snd advance f_timestamp]. by rewrite Hs, <-app_assoc.
    + rewrite <-byte_len_app, Ef. by rewrite (proj2 (proj2 (consumed_texts g L))).
  - rewrite !doc_cons, piece_atoms_app, <-app_assoc. unfold piece_atoms at 1. cbn [fst snd]. by rewrite pass_atoms.
  - done.
  - intros _. rewrite doc_cons. unfold piece_atoms. cbn [fst snd advance f_timestamp f_deletions f_insertion_offset]. apply skip_stop; [|done].
    pose proof (gr_later G) as Hl. rewrite Forall_forall in Hl. rewrite (lo_insertion L) in *. by apply (Hl f (lo_item L)).
  - unfold EditFacts.room in *. rewrite length_app. cbn [length]. lia.
Qed.

(** The walk reaches the start of the range and passes what comes after the edit there. *)
Definition reach_start (fuel : nat) (st : rstate) (target : N) : outcome rstate :=
  st ← remote_jump_ahead (Sl:=list N) v st target;
  st ← finish_fragment (Sl:=list N) v st target;
  st ← skip_concurrent (Sl:=list N) v ts fuel st target;
  remote_preserve_prefix (Sl:=list N) st target.

Lemma reach_start_spec fuel ins st bps aps nps x1 cps rps g q k :
  inv ins st bps aps nps x1 cps rps → full rps = g ++ q → room nps aps (1 + k) → (length (tree_items F) < fuel)%nat →
  ok_with (reach_start fuel st (byte_len (full cps) + byte_len g)) (fun st' => ∃ bps' aps' nps' x1' cps' rps' p l s,
    inv ins st' bps' aps' nps' x1' cps' rps' ∧ full rps' = q ∧ byte_len (full cps') = byte_len (full cps) + byte_len g ∧
    pass v (byte_len g) (doc rps) = (p, l) ∧ skip ts l = (s, doc rps') ∧ doc nps' = doc nps ++ p ++ s ∧ room nps' aps' k).
Proof using All.
  intros H Eg Hr Hf. unfold reach_start.
  ok_bind (remote_jump_ahead_spec V D F v undos ts G B HB ins st bps aps nps x1 cps rps g q (1 + k) H Eg Hr).
  intros st1 (b1 & a1 & n1 & y1 & c1 & r1 & p1 & m1 & g1 & H1 & Hp1 & -> & Hor & Hn & Hr1).
  assert (Eg1 : full r1 = g1 ++ q). { pose proof (ps_text Hp1) as E. rewrite Eg, <-app_assoc in E. by apply app_inv_head in E. }
  pose proof (passed_pass v _ _ _ _ _ _ _ _ g1 Hp1 Hor) as Ep1. pose proof (ps_consumed Hp1) as Ec1.
  replace (byte_len (full cps) + byte_len (m1 ++ g1)) with (byte_len (full c1) + byte_len g1) in * by (rewrite byte_len_app; lia).
  ok_bind (finish_fragment_spec ins st1 b1 a1 n1 y1 c1 r1 g1 q (1 + k) H1 Eg1 Hn Hr1).
  intros st2 (b2 & a2 & n2 & y2 & c2 & r2 & p2 & m2 & g2 & H2 & Hp2 & -> & Ep2 & Hin & Hr2).
  assert (Eg2 : full r2 = g2 ++ q). { pose proof (ps_text Hp2) as E. rewrite Eg1, <-app_assoc in E. by apply app_inv_head in E. }
  pose proof (ps_consumed Hp2) as Ec2.
  replace (byte_len (full c1) + byte_len (m2 ++ g2)) with (byte_len (full c2) + byte_len g2) in * by (rewrite byte_len_app; lia).
  assert (Ep : pass v (byte_len (m1 ++ m2 ++ g2)) (doc rps) = ((p1 ++ p2) ++ (pass v (byte_len g2) (doc r2)).1, (pass v (byte_len g2) (doc r2)).2)).
  { rewrite Ep1, Ep2. cbn [fst snd]. by rewrite app_assoc. }
  assert (En2 : doc n2 = doc nps ++ p1 ++ p2) by (by rewrite (ps_new Hp2), (ps_new Hp1), app_assoc).
  destruct (decide (g2 = [])) as [->|Hg2].
  - change (byte_len []) with 0 in *. rewrite N.add_0_r in *.
    ok_bind (skip_concurrent_spec fuel ins st2 b2 a2 n2 y2 c2 r2 (1 + k) H2 Hr2).
    { pose proof (core_items (ri_core H2)) as Hi. apply (f_equal length) in Hi. rewrite length_app, !length_fmap in Hi. lia. }
    intros st3 (b3 & a3 & n3 & y3 & c3 & r3 & s & H3 & Hp3 & Es & Hr3). pose proof (ps_consumed Hp3) as Ec3. change (byte_len []) with 0 in Ec3. rewrite N.add_0_r in Ec3.
    unfold remote_preserve_prefix. rewrite (rc_start (ri_core H3)), Ec3, N.ltb_irrefl. cbn [ok_with].
    exists b3, a3, n3, y3, c3, r3, (p1 ++ p2), (doc r2), s. split_and!; try done.
    + pose proof (ps_text Hp3) as E. cbn [app] in E. by rewrite <-E.
    + rewrite Ep, pass_0. cbn [fst snd]. by rewrite app_nil_r.
    + by rewrite (ps_new Hp3), En2, <-!app_assoc.
    + unfold EditFacts.room in *. lia.
  - pose proof (nonempty_bytes g2 Hg2). assert (Hskip : skip_concurrent (Sl:=list N) v ts fuel st2 (byte_len (full c2) + byte_len g2) = Ok st2).
    { destruct fuel; cbn [skip_concurrent]; rewrite (core_item (ri_core H2)), (rc_start (ri_core H2)); cbn [mbind outcome_bind];
        rewrite (proj2 (N.eqb_neq _ _)) by lia; by destruct (head _). }
    rewrite Hskip. cbn [mbind outcome_bind].
    eapply ok_with_mono; [apply (remote_preserve_prefix_spec ins st2 b2 a2 n2 y2 c2 r2 g2 k H2 Hin Hr2)|].
    intros st3 (n3 & y3 & c3 & r3 & p3 & H3 & Hp3 & Ep3 & _ & Hskp & Hr3).
    exists b2, a2, n3, y3, c3, r3, ((p1 ++ p2) ++ p3), (doc r3), []. split_and!; try done.
    + pose proof (ps_text Hp3) as E. rewrite Eg2 in E. by apply app_inv_head in E.
    + apply (ps_consumed Hp3).
    + rewrite Ep, Ep3. done.
    + by apply Hskp.
    + by rewrite (ps_new Hp3), En2, app_nil_r, <-!app_assoc.
Qed.

(** ** Inserting *)
(** Where the cursor is in the visible text. *)
Lemma visible_position ins st bps aps nps x1 cps rps :
  inv ins st bps aps nps x1 cps rps →
  (if match head aps.*1 with Some f => f_visible f | None => false end
   then start ← old_full_start st; Ok (usize_add (old_visible_start st) (usize_sub (es_fragment_start st) start))
   else Ok (old_visible_start st)) = Ok (byte_len (vis_text cps)).
Proof using All.
  intros H. pose proof (ri_core H) as Hc. rewrite (core_full_start G Hc), (core_visible_start G Hc), (rc_start Hc). cbn [mbind outcome_bind].
  destruct rps as [|[h x] rest].
  { pose proof (rc_cut Hc) as Hcut. inversion Hcut; subst. done. }
  destruct (core_head G Hc) as (f & L). rewrite (lo_ahead L). cbn [fmap list_fmap head fst]. destruct (f_visible f) eqn:Hv.
  - pose proof (consumed_full L) as Ef. pose proof (consumed_visible L Hv) as Ev. pose proof (full_small G Hc). pose proof (gr_small G) as Hs.
    rewrite (core_visible Hc), byte_len_app in Hs. rewrite usize_sub_exact by lia. rewrite usize_add_exact by lia. f_equal. lia.
  - f_equal. destruct (lo_cut L) as [(_ & _ & ->)|(_ & _ & _ & ->)]; [done|]. destruct (texts_snoc bps f x1) as [-> _]. by rewrite Hv.
Qed.

(** The new text becomes a fragment before the cursor. *)
Lemma remote_insert_text_spec ins st bps aps nps x1 cps rps t k :
  inv ins st bps aps nps x1 cps rps → Forall char_ok t → byte_len (rope_text V) + byte_len (rope_text D) + byte_len ins + byte_len t <= 2 ^ 31 →
  room nps aps (1 + k) →
  ok_with (remote_insert_text (Sl:=list N) ts st (str_of t)) (fun st' => ∃ nps',
    inv (ins ++ t) st' bps aps nps' x1 cps rps ∧ doc nps' = doc nps ++ atoms ts ∅ (byte_len ins) t ∧ room nps' aps k).
Proof using All.
  intros H Ht Hsm Hr. pose proof (ri_core H) as Hc. unfold remote_insert_text. case_bool_decide as E.
  { apply str_of_nil in E as ->. cbn [ok_with]. exists nps. rewrite !app_nil_r. split_and!; [done|done|unfold EditFacts.room in *; lia]. }
  assert (Hne : t ≠ []) by (intros ->; done). pose proof (nonempty_bytes t Hne) as Hpos. pose proof (ri_total H) as Htot. unfold weight in Htot.
  pose proof (visible_position _ _ _ _ _ _ _ _ H) as Evp. rewrite (core_item Hc). cbn [mbind outcome_bind]. unfold mbind in Evp |- *. rewrite Evp. cbn [outcome_bind].
  fold (@mbind outcome _). unfold push_fragments_for_insertion. rewrite (core_new_visible Hc).
  destruct (str_of t) as [|b0 bs] eqn:Es; [done|]. cbn [length insertion_loop]. rewrite <-Es.
  change (str_len (str_of t)) with (byte_len t). rewrite (proj2 (N.ltb_lt 0 _)) by done.
  rewrite (usize_add_exact 0), N.min_l by (unfold MAX_INSERTION_LEN, u32_max; lia). rewrite N.eqb_refl.
  rewrite (proj2 (N.eqb_neq _ _)) by lia. rewrite usize_sub_exact, N.sub_0_r by lia.
  rewrite u32_wrap_small by (unfold u32_max; lia). rewrite (core_max_id Hc).
  destruct (ids_between nps.*1 _ (ri_ids H)) as (id & Eid & Hid).
  assert (Eh : match head aps.*1 with Some old_fragment => f_id old_fragment | None => locator_max end = head_id aps.*1)
    by (by destruct aps). rewrite Eh, Eid. cbn [mbind outcome_bind].
  match goal with |- context [push cx _ ?x] => set (h := x) end. unfold EditFacts.room in Hr.
  assert (Hfit : SumTreeFacts.fits ROPE_DEPTH 255 (nps.*1 ++ [h])) by (apply room_fits; rewrite length_app, length_fmap; cbn; lia).
  assert (Hroom : room (nps ++ [(h, t)]) aps k) by (unfold EditFacts.room; rewrite length_app; cbn; lia).
  pose proof (rc_items Hc) as Hi.
  apply ok_with_bind, ok_with_bind. ok_bind (push_spec cx ROPE_DEPTH (es_new_fragments st) h); [apply Hc|by rewrite Hi|]. intros tr [Htree Eit].
  assert (Eloop : ∀ fuel (st' : rstate), insertion_loop fuel st' (str_of t) ts (head_id aps.*1) (byte_len t) = Ok st').
  { intros fuel st'. destruct fuel; cbn [insertion_loop]; change (str_len (str_of t)) with (byte_len t); by rewrite N.ltb_irrefl. }
  cbn zeta. rewrite Eloop. cbn [ok_with]. cbn [es_new_ropes].
  ok_bind (builder_push_str_spec V D (gr_visible G) (gr_deleted G) (visible_small _ _ _ _ _ _ G) (deleted_small _ _ _ _ _ _ G) (es_new_ropes st) _ _ _ _ _ _ t (rc_builder Hc) Ht).
  { unfold RopeFacts.small. rewrite !byte_len_app. lia. }
  intros rb Hrb. cbn [ok_with]. exists (nps ++ [(h, t)]). destruct (texts_snoc nps h t) as [Env End]. cbn [f_visible h] in Env, End.
  assert (Hto : es_insertion_offset st = byte_len ins) by (exact (xi_offset _ _ _ _ _ _ _ (ri_index H))).
  split_and!; [|rewrite doc_snoc; unfold piece_atoms; cbn [fst snd h f_timestamp f_deletions f_insertion_offset list_to_set]; by rewrite Hto|done]. split.
  - destruct Hc. split; cbn; rewrite ?Env, ?End; try done.
    + by rewrite Eit, Hi, fmap_app.
    + apply Forall_app. split; [done|]. constructor; [|done]. by split.
  - rewrite fmap_app, <-app_assoc. by apply Hid.
  - cbn. rewrite Env, usize_add_exact, <-byte_len_app by lia.
    apply reaches_push; [apply H|lia|rewrite byte_len_app; lia|right; rewrite byte_len_app; lia].
  - rewrite weight_snoc, byte_len_app. unfold weight. lia.
  - rewrite byte_len_app. assert (Hins : byte_len ins + byte_len t <= u32_max) by (unfold u32_max; lia).
    eapply (index_insert _ _ st); [apply H|done|done|done|done|grow_tac|]. cbn. rewrite Hto. by apply u32_add_exact.
  - rewrite fmap_app. apply Forall_app. split; [apply H|]. constructor; [by apply derived_new|done].
  - intros e. rewrite fmap_app, elem_of_app. cbn. rewrite elem_of_app, !list_elem_of_singleton. intros [He| ->] Hto'; [left; by apply (ri_slices H)|by right].
Qed.

(** ** Deleting *)
Abbreviation was := (atom_was v (tree_items undos)).

(** The fragment that replaces the part [m] of [h] inside the range. *)
Definition struck (b : bool) (h : Fragment) (m : list N) (id : Locator) : Fragment :=
  if b then with_deletion (with_id (part h m) id) ts else with_id (part h m) id.

Lemma struck_atoms f h m id :
  f_timestamp h = f_timestamp f → f_deletions h = f_deletions f → seen f = true →
  piece_atoms (struck (visible_at v undos f) h m id, m) = mark v was ts <$> piece_atoms (h, m).
Proof.
  intros Et Ed Hs. unfold piece_atoms. cbn [fst snd]. rewrite (mark_seen v (tree_items undos) ts _ _ _ _ (visible_at v undos f)); [|by rewrite Et|by rewrite Et, Ed].
  unfold struck. by destruct (visible_at v undos f).
Qed.

(** The state and the patch once the part has been struck out. *)
Definition struck_state (st : rstate) (b : bool) (g : Fragment) : rstate := if b then with_slice st (slice_from_fragment ts g) else st.
Definition struck_edit (st : rstate) (was_visible : bool) (g : Fragment) (o n : N) : rstate :=
  if was_visible && negb (f_visible g) then with_edit st (mkEdit (mkRange o (usize_add o (f_len g))) (mkRange n n)) else st.

Lemma intersect_spec ins st bps aps nps x1 cps f h m x3 rest :
  inv ins st bps aps nps x1 cps ((h, m ++ x3) :: rest) → left_of bps aps x1 cps f h (m ++ x3) rest → seen h = true →
  ∃ id, intersect v undos ts st f (byte_len (full cps ++ m)) =
      Ok (struck (visible_at v undos f) h m id, struck_state st (visible_at v undos f) (struck (visible_at v undos f) h m id)) ∧
    ∀ e, f_id e = id → ids_ok (nps.*1 ++ e :: aps.*1).
Proof using All.
  intros H L Hs. pose proof (ri_core H) as Hc. destruct (ids_between nps.*1 _ (ri_ids H)) as (id & Eid & Hid). exists id. split; [|done].
  assert (Eh : head_id aps.*1 = f_id h) by (rewrite (lo_ahead L), (lo_id L); done). rewrite Eh in Eid.
  pose proof Hs as Hsf. rewrite (lo_insertion L) in Hsf. unfold intersect. rewrite Hsf, (core_full_start G Hc), (rc_start Hc). cbn [mbind outcome_bind].
  rewrite (cut_spec G Hc L Hs), (core_max_id Hc). cbn [part f_id]. rewrite Eid. cbn [mbind outcome_bind].
  rewrite (was_visible_spec v undos f (gr_undos G) Hsf). cbn [mbind outcome_bind]. unfold struck, struck_state. by destruct (visible_at v undos f).
Qed.

Lemma struck_patch p (cps nps : pieces) h g m o n :
  reaches p (byte_len (vis_text cps)) (byte_len (vis_text nps)) → m ≠ [] → f_len g = byte_len m → f_visible g = f_visible h ∨ f_visible g = false →
  (f_visible h = true → o = byte_len (vis_text cps)) → n = byte_len (vis_text nps) → byte_len (vis_text (cps ++ [(h, m)])) <= 2 ^ 31 →
  reaches (if f_visible h && negb (f_visible g) then patch_push p (mkEdit (mkRange o (usize_add o (f_len g))) (mkRange n n)) else p)
    (byte_len (vis_text (cps ++ [(h, m)]))) (byte_len (vis_text (nps ++ [(g, m)]))).
Proof.
  intros Hp Hm Hl Hg Ho -> Hs. pose proof (nonempty_bytes m Hm). destruct (texts_snoc cps h m) as [Ec _], (texts_snoc nps g m) as [En _]. rewrite Ec in Hs |- *. rewrite En.
  destruct (f_visible h) eqn:Hv; cbn [andb].
  - rewrite Hl, (Ho eq_refl). rewrite byte_len_app in Hs. rewrite usize_add_exact by lia. rewrite (byte_len_app _ m). destruct (f_visible g); cbn [negb].
    + rewrite byte_len_app. by apply reaches_shift.
    + apply reaches_push; [done|lia|lia|left; lia].
  - destruct Hg as [->| ->]; done.
Qed.

(** What one turn of the loop leads to: [p] has been passed and struck out where the replica
    of the edit saw it. *)
Definition turned (ins : list N) (aps nps cps rps : pieces) (d q : list N) (k : N) (st' : rstate) : Prop :=
  ∃ bps' aps' nps' x1' cps' rps' p m d',
    inv ins st' bps' aps' nps' x1' cps' rps' ∧ d = m ++ d' ∧ full rps' = d' ++ q ∧ byte_len (full cps') = byte_len (full cps) + byte_len m ∧
    doc nps' = doc nps ++ (mark v was ts <$> p) ∧
    pass v (byte_len d) (doc rps) = (p ++ (pass v (byte_len d') (doc rps')).1, (pass v (byte_len d') (doc rps')).2) ∧
    ((length aps' < length aps)%nat ∧ room nps' aps' (1 + k) ∨ d' = [] ∧ room nps' aps' k).

(** The fragment was not seen: it is kept. *)
Lemma delete_step_unseen ins st bps aps nps x1 cps h x rest d q k :
  inv ins st bps aps nps x1 cps ((h, x) :: rest) → full ((h, x) :: rest) = d ++ q → d ≠ [] → room nps aps (1 + k) → seen h = false →
  ok_with (remote_delete_step (Sl:=list N) v undos ts st (byte_len (full cps) + byte_len d)) (turned ins aps nps cps ((h, x) :: rest) d q k).
Proof using All.
  intros H Ed Hd Hr Hs. pose proof (ri_core H) as Hc. pose proof (nonempty_bytes d Hd) as Hdp.
  destruct (core_head G Hc) as (f & L). pose proof (lo_nonempty L) as Hx. pose proof (nonempty_bytes x Hx) as Hxp.
  destruct (lo_cut L) as [(-> & -> & ->)|(_ & Hs' & _)]; [|rewrite (lo_insertion L) in Hs; congruence]. pose proof (lo_len L) as Hl. cbn [app] in *.
  unfold remote_delete_step. rewrite (core_item Hc), (lo_ahead L). cbn [fmap list_fmap head unwrap mbind outcome_bind fst].
  rewrite (core_full_end G Hc). cbn [mbind outcome_bind take]. rewrite take_0, full_snoc, Hs, app_nil_r.
  cbn [full_text flat_map fst snd] in Ed. fold (full rest) in Ed. rewrite Hs in Ed. cbn [app] in Ed.
  rewrite N.min_r by lia. rewrite (proj2 (N.leb_le _ _)) by lia. unfold intersect. rewrite Hs. cbn [mbind outcome_bind].
  rewrite (proj2 (N.ltb_lt 0 (f_len f))), andb_negb_r by lia. cbn [mbind outcome_bind]. rewrite <-(app_nil_r x) in Hc.
  apply ok_with_bind, ok_with_bind. eapply ok_with_mono; [apply (push_piece_ahead V D F v undos ts G B HB st bps aps nps [] bps f f x [] rest (1 + k) Hc); [done|done]|].
  intros st1 (t & b & -> & T). rewrite app_nil_r in Hc. cbn [ok_with with_start with_cursor pushed es_old_fragments es_fragment_start].
  ok_bind (core_next G Hc L). intros c (Ec & Hcu). cbn [ok_with app] in *.
  exists (bps ++ [(f, x)]), rest, (nps ++ [(f, x)]), [], (bps ++ [(f, x)]), rest, (piece_atoms (f, x)), [], d. split_and!; try done.
  - eapply (inv_all V D F v undos ts G ins st _ bps aps nps [] bps f f f x rest []); try done.
    + split; try done; [by left|grow_tac].
    + destruct T as [T1 T2 T3]. by split.
    + cbn. by rewrite full_snoc, Hs, app_nil_r.
    + pose proof (ri_ids H) as Hid. by rewrite (lo_ahead L) in Hid.
    + apply patch_shift; [apply H|done].
  - rewrite full_snoc, Hs, app_nil_r. change (byte_len []) with 0. lia.
  - rewrite doc_snoc. unfold piece_atoms. cbn [fst snd]. by rewrite mark_unseen.
  - rewrite doc_cons, pass_app; unfold piece_atoms; cbn [fst snd]; rewrite atoms_observed, Hs; [|lia]. by rewrite N.sub_0_r.
  - left. unfold EditFacts.room in *. rewrite (lo_ahead L) in Hr. rewrite length_app. cbn [length] in *. lia.
Qed.

(** The part of the fragment inside the range. *)
Lemma split_range (x d q r : list N) : x ++ r = d ++ q → x ≠ [] → d ≠ [] → ∃ m x3 d', x = m ++ x3 ∧ d = m ++ d' ∧ m ≠ [] ∧ (x3 = [] ∨ x3 ≠ [] ∧ d' = []) ∧ x3 ++ r = d' ++ q.
Proof.
  intros E Hx Hd. destruct (N.le_gt_cases (byte_len x) (byte_len d)) as [Hle|Hgt].
  - destruct (prefix_split _ _ _ _ E Hle) as (d' & -> & Eq). exists x, [], d'. rewrite app_nil_r. split_and!; [done|done|done|by left|done].
  - destruct (prefix_split _ _ _ _ (eq_sym E) (N.lt_le_incl _ _ Hgt)) as (x3 & -> & Eq). exists d, x3, []. rewrite app_nil_r. split_and!; [done|done|done| |done].
    right. split; [|done]. intros ->. rewrite app_nil_r in Hgt. lia.
Qed.

(** A piece that has been seen is passed exactly. *)
Lemma pass_piece h m d' l :
  seen h = true → pass v (byte_len (m ++ d')) (piece_atoms (h, m) ++ l) = (piece_atoms (h, m) ++ (pass v (byte_len d') l).1, (pass v (byte_len d') l).2).
Proof.
  intros Hs. unfold piece_atoms. cbn [fst snd]. destruct (decide (d' = [])) as [->|Hd].
  - rewrite app_nil_r, pass_atoms by done. change (byte_len []) with 0. rewrite pass_0. cbn [fst snd]. by rewrite app_nil_r.
  - pose proof (nonempty_bytes d' Hd). rewrite byte_len_app, pass_app; rewrite atoms_observed, Hs; [|lia]. by replace (byte_len m + byte_len d' - byte_len m) with (byte_len d') by lia.
Qed.

(** The state [st2] after the part [m] has been struck out and pushed as [g]. *)
Record struck_out (st : rstate) (cps nps aps : pieces) (f h g : Fragment) (m x3 : list N) (rest : pieces) (hs : list Fragment) (st2 : rstate) : Prop := {
  so_cursor : es_old_fragments st2 = es_old_fragments st;
  so_taken : is_taken st2 cps nps h g m x3 rest;
  so_cutting : cutting ts st st2 f h g m hs;
  so_ids : ids_ok (nps.*1 ++ g :: aps.*1);
  so_patch : reaches (es_edits_patch st2) (byte_len (vis_text (cps ++ [(h, m)]))) (byte_len (vis_text (nps ++ [(g, m)])));
  so_doc : doc (nps ++ [(g, m)]) = doc nps ++ (mark v was ts <$> piece_atoms (h, m))
}.

Lemma struck_patch_at ins st bps aps nps x1 cps f h m x3 rest id o :
  inv ins st bps aps nps x1 cps ((h, m ++ x3) :: rest) → left_of bps aps x1 cps f h (m ++ x3) rest → m ≠ [] →
  o = usize_add (byte_len (vis_text bps)) (usize_sub (byte_len (full cps)) (byte_len (full bps))) →
  let b := visible_at v undos f in let g := struck b h m id in
  reaches (es_edits_patch (struck_edit (struck_state st b g) (f_visible h) g o (byte_len (vis_text nps))))
    (byte_len (vis_text (cps ++ [(h, m)]))) (byte_len (vis_text (nps ++ [(g, m)]))).
Proof using All.
  intros H L Hm -> b g. pose proof (ri_core H) as Hc. pose proof (gr_small G) as Hsm. rewrite (core_visible Hc), byte_len_app in Hsm.
  assert (Ho : f_visible h = true → usize_add (byte_len (vis_text bps)) (usize_sub (byte_len (full cps)) (byte_len (full bps))) = byte_len (vis_text cps)).
  { intros Hv. rewrite (lo_visible L) in Hv. pose proof (consumed_full L) as Ef. pose proof (consumed_visible L Hv) as Ev. pose proof (full_small G Hc).
    rewrite usize_sub_exact by lia. rewrite usize_add_exact by lia. lia. }
  assert (Es : es_edits_patch (struck_state st b g) = es_edits_patch st) by (unfold struck_state; by destruct b).
  pose proof (struck_patch (es_edits_patch st) cps nps h g m _ (byte_len (vis_text nps)) (ri_patch H) Hm ltac:(unfold g, struck; by destruct b)
    ltac:(unfold g, struck; destruct b; auto) Ho eq_refl) as Hsp.
  unfold struck_edit. destruct (f_visible h && negb (f_visible g)); cbn; rewrite Es; apply Hsp; destruct (texts_snoc cps h m) as [-> _];
    cbn [vis_text flat_map fst snd] in Hsm; destruct (f_visible h); rewrite ?byte_len_app in *; lia.
Qed.

Lemma strike_spec ins st bps aps nps x1 cps f h m x3 rest k :
  inv ins st bps aps nps x1 cps ((h, m ++ x3) :: rest) → left_of bps aps x1 cps f h (m ++ x3) rest → m ≠ [] → seen h = true → room nps aps k →
  ok_with ('(intersection, st) ← intersect v undos ts st f (byte_len (full cps ++ m));
           if 0 <? f_len intersection then
             st ← (if f_visible f && negb (f_visible intersection) then
                     start ← old_full_start st;
                     let old_start := usize_add (old_visible_start st) (usize_sub (es_fragment_start st) start) in
                     let new_start := new_visible st in
                     Ok (with_edit st (mkEdit (mkRange old_start (usize_add old_start (f_len intersection))) (mkRange new_start new_start)))
                   else Ok st);
             st ← push_piece (Sl:=list N) st intersection (f_visible f);
             Ok (with_start st (byte_len (full cps ++ m)))
           else Ok st)
    (fun st2 => es_fragment_start st2 = byte_len (full cps ++ m) ∧ ∃ g hs, struck_out st cps nps aps f h g m x3 rest hs st2).
Proof using All.
  intros H L Hm Hs Hr. pose proof (ri_core H) as Hc. pose proof (nonempty_bytes m Hm) as Hmp.
  destruct (intersect_spec ins st bps aps nps x1 cps f h m x3 rest H L Hs) as (id & -> & Hid). cbn [mbind outcome_bind].
  set (b := visible_at v undos f). set (g := struck b h m id). assert (Hgl : f_len g = byte_len m) by (unfold g, struck; by destruct b).
  rewrite (proj2 (N.ltb_lt 0 _)) by lia. set (st0 := struck_state st b g).
  assert (Hc0 : core st0 bps aps nps x1 cps ((h, m ++ x3) :: rest)) by (unfold st0, struck_state; destruct b; [|done]; by destruct Hc).
  rewrite (core_full_start G Hc0), (core_visible_start G Hc0), (core_new_visible Hc0), (rc_start Hc0). cbn [mbind outcome_bind].
  set (o := usize_add (byte_len (vis_text bps)) _). rewrite <-(lo_visible L).
  set (st1 := struck_edit st0 (f_visible h) g o (byte_len (vis_text nps))).
  match goal with |- context [mbind _ (if ?c then Ok ?a else Ok ?z)] => replace (if c then Ok a else Ok z) with (Ok st1) by (unfold st1, struck_edit; by destruct c) end.
  cbn [mbind outcome_bind].
  assert (Hc1 : core st1 bps aps nps x1 cps ((h, m ++ x3) :: rest)) by (unfold st1, struck_edit; destruct (_ && _); [|done]; by destruct Hc0).
  ok_bind (push_piece_ahead V D F v undos ts G B HB st1 bps aps nps x1 cps h g m x3 rest k Hc1); [done|done|].
  intros st2 (t & rb & -> & [T1 T2 T3]). cbn [ok_with]. split; [done|]. exists g, (if b then [g] else []). split.
  - unfold st1, struck_edit, st0, struck_state. by destruct (_ && _), b.
  - by split.
  - split; [done|unfold g, struck; by destruct b|unfold g, struck; by destruct b|unfold g, struck; destruct b; [right|left]; done| |];
      unfold st1, struck_edit, st0, struck_state; destruct (_ && _), b; first [grow_tac|done].
  - apply Hid. unfold g, struck. by destruct b.
  - by apply (struck_patch_at ins st bps aps nps x1 cps f h m x3 rest id o H L Hm).
  - rewrite doc_snoc. f_equal. apply struck_atoms; [apply L|apply L|by rewrite <-(lo_insertion L)].
Qed.

(** The fragment was seen: its part inside the range is struck out. *)
Lemma delete_step_seen ins st bps aps nps x1 cps h x rest d q k :
  inv ins st bps aps nps x1 cps ((h, x) :: rest) → full ((h, x) :: rest) = d ++ q → d ≠ [] → room nps aps (1 + k) → seen h = true →
  ok_with (remote_delete_step (Sl:=list N) v undos ts st (byte_len (full cps) + byte_len d)) (turned ins aps nps cps ((h, x) :: rest) d q k).
Proof using All.
  intros H Ed Hd Hr Hs. destruct (core_head G (ri_core H)) as (f & L). cbn [full_text flat_map fst snd] in Ed. fold (full rest) in Ed. rewrite Hs in Ed.
  destruct (split_range _ _ _ _ Ed (lo_nonempty L) Hd) as (m & x3 & d' & -> & -> & Hm & Hcase & Eq). pose proof (ri_core H) as Hc.
  unfold remote_delete_step. rewrite (core_item Hc). pose proof (lo_ahead L) as Ea. rewrite Ea at 1. cbn [fmap list_fmap head unwrap mbind outcome_bind fst].
  rewrite (core_full_end G Hc). cbn [mbind outcome_bind take]. rewrite take_0, full_snoc, Hs.
  replace (N.min (byte_len (full cps) + byte_len (m ++ d')) (byte_len (full cps ++ m ++ x3))) with (byte_len (full cps ++ m)).
  2:{ rewrite !byte_len_app. destruct Hcase as [->|[_ ->]]; change (byte_len []) with 0; lia. }
  pose proof (strike_spec ins st bps aps nps x1 cps f h m x3 rest (1 + k) H L Hm Hs Hr) as Hst.
  match type of Hst with ok_with (mbind ?K ?i) _ => destruct i as [[e st1]|]; [|done] end. cbn [mbind outcome_bind] in *.
  match goal with |- ok_with (mbind _ ?s) _ => destruct s as [st2|]; [|done] end. cbn [mbind outcome_bind ok_with] in *.
  destruct Hst as (Efs & g & hs & [S1 S2 S3 S4 S5 S6]).
  assert (Efc : full (cps ++ [(h, m)]) = full cps ++ m) by (by rewrite full_snoc, Hs).
  destruct Hcase as [->|[Hx3 ->]].
  - rewrite app_nil_r in *. rewrite (proj2 (N.leb_le _ _)) by (rewrite !byte_len_app; lia). rewrite S1.
    ok_bind (core_next G Hc L). intros c (Ec & Hcu). cbn [ok_with]. rewrite Efs.
    exists (bps ++ [(f, x1 ++ m)]), rest, (nps ++ [(g, m)]), [], (bps ++ [(f, x1 ++ m)]), rest, (piece_atoms (h, m)), m, d'. split_and!; try done.
    + eapply (inv_all V D F v undos ts G ins st _ bps aps nps x1 cps f h g m rest hs); try done.
      * destruct S3. by split.
      * destruct S2. by split.
      * cbn. by rewrite Efc.
      * rewrite (lo_ahead L) in S4. cbn [fmap list_fmap fst] in S4.
        change (nps.*1 ++ g :: f :: rest.*1) with (nps.*1 ++ [g] ++ f :: rest.*1) in S4. rewrite app_assoc in S4. apply ids_drop in S4. by rewrite <-app_assoc in S4.
    + by rewrite (proj2 (proj2 (consumed_texts m L))), Efc, byte_len_app.
    + by apply pass_piece.
    + left. unfold EditFacts.room in *. rewrite (lo_ahead L) in *. rewrite length_app. cbn [length] in *. lia.
  - pose proof (nonempty_bytes x3 Hx3). rewrite app_nil_r. rewrite (proj2 (N.leb_gt _ _)) by (rewrite !byte_len_app; lia). cbn [ok_with].
    exists bps, aps, (nps ++ [(g, m)]), (x1 ++ m), (bps ++ [(f, x1 ++ m)]), ((advance h m, x3) :: rest), (piece_atoms (h, m)), m, []. split_and!; try done.
    + eapply (inv_part V D F v undos ts G ins st _ bps aps nps x1 cps f h g m x3 rest hs); try done. by rewrite Efs, Efc.
    + by rewrite app_nil_r.
    + cbn [full_text flat_map fst snd advance f_timestamp]. rewrite Hs. exact Eq.
    + by rewrite (proj2 (proj2 (consumed_texts m L))), Efc, byte_len_app.
    + rewrite !doc_cons, piece_atoms_app, <-app_assoc. rewrite <-(app_nil_r m) at 1. by apply pass_piece.
    + right. split; [done|]. unfold EditFacts.room in *. rewrite length_app. cbn [length]. lia.
Qed.
End range.
