(* ===== verification/RemoteApply.v ===== *)
(** * Correctness of remote edits

    [apply_remote_edit] does to the document what [integrate] says, and leaves the fragments,
    the ropes and the indexes in order. *)

From stdpp Require Import sets gmap.
From S2P Require Import Prelude Ord Clock SumTree SumTreeFacts SeekSpec Cursor CursorFacts SeekFacts KeyedTree KeyedFacts TreeMap TreeMapFacts Locator UndoMap Patch PatchFacts Subscription History HistoryFacts Bitmap Utf8 Point TextSummary Chunk ChunkFacts Rope RopeFacts RopeSlices Fragments BufferEdit EditIndex Doc EditFacts LocalEdit Buffer BufferFacts Anchor RemoteEdit Converge RemoteWalk RemoteSteps RemoteRange.
Local Open Scope N_scope.

Section apply.
Context (V D : srope) (F : fragment_tree) (v : Global) (undos : UndoMap) (ts : Lamport) (G : grounds V D F v undos ts).
Context (B : N) (HB : B <= MAX_CHUNKS).
Abbreviation full := (full_text v).
Abbreviation room := (EditFacts.room B).
Abbreviation inv := (remote_inv V D F v ts).
Abbreviation was := (atom_was v (tree_items undos)).

(** The loop takes in the whole range: there are fewer fragments ahead at every turn. *)
Lemma remote_delete_loop_spec fuel ins st bps aps nps x1 cps rps d q k :
  inv ins st bps aps nps x1 cps rps → full rps = d ++ q → room nps aps (1 + k) → (length aps < fuel)%nat →
  ok_with (remote_delete_loop (Sl:=list N) v undos ts fuel st (byte_len (full cps) + byte_len d)) (fun st' => ∃ bps' aps' nps' x1' cps' rps' p,
    inv ins st' bps' aps' nps' x1' cps' rps' ∧ full rps' = q ∧ byte_len (full cps') = byte_len (full cps) + byte_len d ∧
    pass v (byte_len d) (doc rps) = (p, doc rps') ∧ doc nps' = doc nps ++ (mark v was ts <$> p) ∧ room nps' aps' k).
Proof using All.
  assert (Hstop : ∀ fuel st bps aps nps x1 cps rps, inv ins st bps aps nps x1 cps rps →
    remote_delete_loop (Sl:=list N) v undos ts fuel st (byte_len (full cps)) = Ok st).
  { intros fl s b a n x c r H. destruct fl; cbn [remote_delete_loop]; by rewrite (rc_start (ri_core H)), N.ltb_irrefl. }
  revert st bps aps nps x1 cps rps d. induction fuel as [|fuel IH]; intros st bps aps nps x1 cps rps d H Ed Hr Hf; [lia|].
  destruct (decide (d = [])) as [->|Hd].
  { change (byte_len []) with 0. rewrite N.add_0_r, (Hstop _ _ _ _ _ _ _ _ H). cbn [ok_with]. exists bps, aps, nps, x1, cps, rps, [].
    split_and!; try done; [apply pass_0|by rewrite app_nil_r|unfold EditFacts.room in *; lia]. }
  cbn [remote_delete_loop]. rewrite (rc_start (ri_core H)), (proj2 (N.ltb_lt _ _)) by (pose proof (nonempty_bytes d Hd); lia).
  apply ok_with_bind. apply (ok_with_mono _ (turned V D F v undos ts B ins aps nps cps rps d q k)).
  { destruct rps as [|[h x] rest]; [cbn in Ed; by destruct d|]. destruct (global_observed v (f_timestamp h)) eqn:Hs.
    - by eapply (delete_step_seen V D F v undos ts G B HB).
    - by eapply (delete_step_unseen V D F v undos ts G B HB). }
  intros st1 (b1 & a1 & n1 & y1 & c1 & r1 & p1 & m & d' & H1 & -> & Ed1 & Ec1 & En1 & Ep1 & Hcase).
  replace (byte_len (full cps) + byte_len (m ++ d')) with (byte_len (full c1) + byte_len d') by (rewrite byte_len_app; lia).
  destruct Hcase as [[Hl Hr1]|[-> Hr1]].
  - eapply ok_with_mono; [apply (IH st1 b1 a1 n1 y1 c1 r1 d' H1 Ed1 Hr1); lia|].
    intros st2 (b2 & a2 & n2 & y2 & c2 & r2 & p2 & H2 & Ed2 & Ec2 & Ep2 & En2 & Hr2). exists b2, a2, n2, y2, c2, r2, (p1 ++ p2).
    rewrite Ep2 in Ep1. cbn [fst snd] in Ep1. split_and!; try done. by rewrite En2, En1, fmap_app, <-app_assoc.
  - change (byte_len []) with 0 in *. rewrite N.add_0_r, (Hstop _ _ _ _ _ _ _ _ H1). cbn [ok_with]. exists b1, a1, n1, y1, c1, r1, p1.
    rewrite pass_0 in Ep1. cbn [fst snd] in Ep1. rewrite !app_nil_r in *. split_and!; done.
Qed.

Lemma ahead_length ins st bps aps nps x1 cps rps : inv ins st bps aps nps x1 cps rps → (length aps <= length (tree_items F))%nat.
Proof using All. intros H. pose proof (core_items (ri_core H)) as Hi. apply (f_equal length) in Hi. rewrite length_app, !length_fmap in Hi. lia. Qed.

(** One range: [g] is passed, [d] deleted and [t] inserted before it. *)
Lemma apply_range_spec fuel ins st bps aps nps x1 cps rps g d q t k :
  inv ins st bps aps nps x1 cps rps → full rps = g ++ d ++ q → room nps aps (3 + k) → (length (tree_items F) < fuel)%nat → Forall char_ok t →
  byte_len (rope_text V) + byte_len (rope_text D) + byte_len ins + byte_len t <= 2 ^ 31 →
  ok_with (apply_range (Sl:=list N) v undos ts fuel st
      (mkRange (byte_len (full cps) + byte_len g) (byte_len (full cps) + byte_len g + byte_len d)) (str_of t)) (fun st' => ∃ bps' aps' nps' x1' cps' rps' p l s l2 del,
    inv (ins ++ t) st' bps' aps' nps' x1' cps' rps' ∧ full rps' = q ∧ byte_len (full cps') = byte_len (full cps) + byte_len g + byte_len d ∧
    pass v (byte_len g) (doc rps) = (p, l) ∧ skip ts l = (s, l2) ∧ pass v (byte_len d) l2 = (del, doc rps') ∧
    doc nps' = doc nps ++ p ++ s ++ atoms ts ∅ (byte_len ins) t ++ (mark v was ts <$> del) ∧ room nps' aps' k).
Proof using All.
  intros H Eg Hr Hf Ht Hs. unfold apply_range. cbn [r_start r_end].
  pose proof (reach_start_spec V D F v undos ts G B HB fuel ins st bps aps nps x1 cps rps g (d ++ q) (2 + k) H Eg) as Hreach.
  unfold reach_start in Hreach. specialize (Hreach ltac:(unfold EditFacts.room in *; lia) Hf).
  destruct (remote_jump_ahead _ _ _) as [st1|]; [|done]. cbn [mbind outcome_bind] in *. destruct (finish_fragment _ _ _) as [st2|]; [|done]. cbn [mbind outcome_bind] in *.
  destruct (skip_concurrent _ _ _ _ _) as [st3|]; [|done]. cbn [mbind outcome_bind] in *.
  destruct (remote_preserve_prefix _ _) as [st4|]; [|done]. cbn [mbind outcome_bind ok_with] in *.
  destruct Hreach as (b4 & a4 & n4 & y4 & c4 & r4 & p & l & s & H4 & E4 & Ec4 & Ep & Es & En4 & Hr4). rewrite <-Ec4.
  ok_bind (remote_insert_text_spec V D F v undos ts G B HB ins st4 b4 a4 n4 y4 c4 r4 t (1 + k) H4 Ht Hs); [unfold EditFacts.room in *; lia|].
  intros st5 (n5 & H5 & En5 & Hr5).
  eapply ok_with_mono; [apply (remote_delete_loop_spec fuel _ st5 b4 a4 n5 y4 c4 r4 d q k H5 E4 Hr5)|].
  { pose proof (ahead_length _ _ _ _ _ _ _ _ H5). lia. }
  intros st6 (b6 & a6 & n6 & y6 & c6 & r6 & del & H6 & E6 & Ec6 & Ep6 & En6 & Hr6).
  exists b6, a6, n6, y6, c6, r6, p, l, s, (doc r4), del. split_and!; try done. by rewrite En6, En5, En4, <-!app_assoc.
Qed.

(** The loop over the ranges. *)
Lemma apply_ranges_spec fuel cs ins st bps aps nps x1 cps rps tail k :
  inv ins st bps aps nps x1 cps rps → full rps = before_changes cs ++ tail → room nps aps (3 * N.of_nat (length cs) + k) →
  (length (tree_items F) < fuel)%nat → Forall (fun c => Forall char_ok (ch_insert c)) cs →
  byte_len (rope_text V) + byte_len (rope_text D) + byte_len ins + byte_len (new_chars cs) <= 2 ^ 31 →
  ok_with (apply_ranges (Sl:=list N) v undos ts fuel st (changes_at (byte_len (full cps)) cs).*1 (str_of <$> (changes_at (byte_len (full cps)) cs).*2)) (fun st' =>
    ∃ bps' aps' nps' x1' cps' rps', inv (ins ++ new_chars cs) st' bps' aps' nps' x1' cps' rps' ∧ room nps' aps' k ∧
      doc nps' ++ doc rps' = doc nps ++ integrate v was ts (byte_len ins) (byte_len (full cps)) (changes_at (byte_len (full cps)) cs) (doc rps)).
Proof using All.
  revert ins st bps aps nps x1 cps rps. induction cs as [|[g d t] cs IH]; intros ins st bps aps nps x1 cps rps H Eg Hr Hf Hok Hs.
  { cbn. exists bps, aps, nps, x1, cps, rps. rewrite app_nil_r. split_and!; [exact H|unfold EditFacts.room in *; cbn in *; lia|done]. }
  apply Forall_cons in Hok as [Ht Hok]. cbn [ch_insert] in Ht.
  cbn [before_changes flat_map ch_keep ch_delete] in Eg. fold (before_changes cs) in Eg. rewrite <-!app_assoc in Eg.
  unfold new_chars in *. cbn [flat_map ch_insert] in *. rewrite byte_len_app in Hs. cbn [changes_at fmap list_fmap fst snd apply_ranges ch_keep ch_delete ch_insert].
  ok_bind (apply_range_spec fuel ins st bps aps nps x1 cps rps g d _ t (3 * N.of_nat (length cs) + k) H Eg);
    [unfold EditFacts.room in *; cbn [length] in *; lia|done|done|lia|].
  intros st1 (b1 & a1 & n1 & y1 & c1 & r1 & p & l & s & l2 & del & H1 & E1 & Ec1 & Ep & Es & Ed & En1 & Hr1). rewrite <-Ec1.
  eapply ok_with_mono; [apply (IH _ _ _ _ _ _ _ _ H1 E1 Hr1 Hf Hok); rewrite byte_len_app; lia|].
  intros st2 (b2 & a2 & n2 & y2 & c2 & r2 & H2 & Hr2 & E2). exists b2, a2, n2, y2, c2, r2. rewrite app_assoc. split_and!; [done|done|].
  rewrite E2, En1. cbn [integrate r_start r_end]. replace (byte_len (full cps) + byte_len g - byte_len (full cps)) with (byte_len g) by lia.
  replace (byte_len (full c1) - (byte_len (full cps) + byte_len g)) with (byte_len d) by lia.
  rewrite Ep, Es, Ed, byte_len_app, <-!app_assoc. done.
Qed.

(** ** Before and after the loop *)
Lemma remote_start_spec ps g q :
  content_wf F V D ps → Forall (span_in ts 0) (span_of <$> ps.*1) → full ps = g ++ q →
  ok_with (remote_start (Sl:=list N) v F V D (byte_len g)) (fun st => ∃ bps aps g',
    ps = bps ++ aps ∧ g = full bps ++ g' ∧ (bps = [] ∨ g' ≠ []) ∧ inv [] st bps aps bps [] bps aps).
Proof using All.
  intros [HF HV HD Hi Hok Ev Ed Hid Hsp Hof] Hin Eg. unfold remote_start. pose proof (visible_small _ _ _ _ _ _ G) as HsV. pose proof (deleted_small _ _ _ _ _ _ G) as HsD.
  ok_bind (rope_cursor_spec V [] (rope_text V)); [done..|]. intros vc Hv.
  ok_bind (rope_cursor_spec D [] (rope_text D)); [done..|]. intros dc Hd.
  ok_bind (versioned_slice V D F v undos ts G (cursor_new (Some v) F) [] ps (byte_len g)); [done|left; split_and!; try done; by rewrite Hi|by rewrite Hi|done|change (byte_len (full [])) with 0; lia|].
  intros [c s] (bps & aps & -> & Ec & Hc & Hws & His & Hlo & Hhi). cbn [fst snd app] in *.
  apply Forall_app in Hok as [Hokb Hoka]. rewrite vis_text_app in Ev. rewrite del_text_app in Ed. rewrite full_text_app in Eg.
  assert (Hle : byte_len (full bps) <= byte_len g).
  { destruct (decide (bps = [])) as [->|Hne]; [change (byte_len (full [])) with 0; lia|]. specialize (Hlo Hne). lia. }
  destruct (prefix_split _ _ _ _ Eg Hle) as (g' & -> & Eq).
  assert (Es : fs_text (summary s) = mkFragmentText (byte_len (vis_text bps)) (byte_len (del_text bps))).
  { rewrite (tree_wf_summary cx ROPE_DEPTH) by done. rewrite His. change (item_summary_of cx <$> ?l) with (fragment_summary <$> l).
    rewrite fragment_sum_text. destruct (pieces_len bps Hokb) as [-> ->]. done. }
  rewrite Es. rewrite <-Ev in Hv. rewrite <-Ed in Hd.
  ok_bind (builder_append_spec V D HV HD HsV HsD (builder_new vc dc) [] (vis_text bps) (vis_text aps) [] (del_text bps) (del_text aps) [] []).
  { pose proof (gr_small G) as Hsm. rewrite <-Ev, <-Ed, !byte_len_app in Hsm. split; cbn; try done. 1-2: apply rope_new_wf.
    unfold RopeFacts.small. rewrite !byte_len_app. lia. }
  intros b Hb. cbn [app] in Hb.
  assert (Hcore : ∀ s0 : rstate, es_old_fragments s0 = c → es_fragment_start s0 = byte_len (full bps) → es_new_fragments s0 = s → es_new_ropes s0 = b →
    remote_core V D F v s0 bps aps bps [] bps aps).
  { intros s0 E1 E2 E3 E4. split; rewrite ?E1, ?E2, ?E3, ?E4; try done. by apply cut_none. }
  pose proof (core_position G (Hcore (mkEditState c (byte_len (full bps)) s b 0 [] [] [] [] []) eq_refl eq_refl eq_refl eq_refl)) as Epos. cbn [es_old_fragments] in Epos.
  unfold cursor_start. rewrite Epos. cbn [fst full_offset mbind outcome_bind ok_with]. exists bps, aps, g'. split_and!; [done|done| |].
  { destruct (decide (bps = [])) as [->|Hne]; [by left|right]. specialize (Hlo Hne). intros ->. rewrite app_nil_r in Hlo. lia. }
  split; [by apply Hcore|by rewrite <-fmap_app| | | | |].
  - cbn. split; [|done]. split_and!; cbn; [done|lia..].
  - change (byte_len []) with 0. rewrite <-weight_app. unfold weight. rewrite vis_text_app, del_text_app, Ev, Ed. lia.
  - rewrite !fmap_app in *. split; rewrite ?rem_nil; try done.
    + exists []. split; [done|apply sublist_nil_l|by right|]. unfold met. rewrite decide_True, app_nil_r by done. by left.
    + exists []. split; [done|apply sublist_nil_l].
  - apply Forall_forall. intros f Hf. apply (derived_kept ts _ f f); [rewrite Hi, fmap_app, elem_of_app; by left|split; [done|lia..]|done|done].
  - intros f Hf Ht. pose proof (gr_untouched G) as Hun. rewrite Hi, fmap_app, Forall_app, Forall_forall in Hun. by destruct (proj1 Hun f Hf).
Qed.

(** What is known after the walk, before the indexes are brought up to date. *)
Record remotely_edited (ins : list N) (l : document) (st : rstate) (vt dt : srope) (bps ps : pieces) : Prop := {
  re_content : content_wf (es_new_fragments st) vt dt ps;
  re_doc : doc ps = l;
  re_patch : reaches (es_edits_patch st) (byte_len (rope_text V)) (byte_len (rope_text vt));
  re_bytes : byte_len (rope_text vt) + byte_len (rope_text dt) = byte_len (rope_text V) + byte_len (rope_text D) + byte_len ins;
  re_length : N.of_nat (length ps) <= B;
  re_old : bps.*1 = tree_items F;
  re_index : index_inv ts (byte_len ins) st bps [] ps [];
  re_origin : Forall (derived ts (tree_items F)) ps.*1;
  re_slices : ∀ g, g ∈ ps.*1 → touched ts g → slice_from_fragment ts g ∈ es_insertion_slices st
}.

Lemma remote_finish_spec ins st bps aps nps x1 cps rps :
  inv ins st bps aps nps x1 cps rps → room nps aps 0 →
  ok_with (remote_finish (Sl:=list N) v st) (fun r => let '(st', vt, dt) := r in ∃ bps' ps, remotely_edited ins (doc nps ++ doc rps) st' vt dt bps' ps).
Proof using All.
  intros H Hr. unfold remote_finish. rewrite (core_full_end G (ri_core H)).
  ok_bind (remote_consume_rest_spec V D F v undos ts G B HB ins st bps aps nps x1 cps rps 0 H Hr).
  intros st1 (b1 & a1 & n1 & p & m & H1 & Hp & _ & Hr1). pose proof (ri_core H1) as Hc1. pose proof (rc_tree Hc1 : c_tree (es_old_fragments st1) = F) as Ef1.
  ok_bind (cursor_suffix_items (Some v) ROPE_DEPTH (es_old_fragments st1) b1.*1 a1.*1); rewrite ?Ef1;
    [exact (gr_tree G)|exact (remote_height _ _ _ _ _ _ G)|exact (rc_cursor Hc1)|apply room_fits, (gr_length G)|].
  intros [c s] (Hws & His). cbn [fst snd] in *. pose proof Hc1 as Hc1'. rewrite <-(app_nil_r a1) in Hc1'.
  ok_bind (remote_append_spec V D F v undos ts G B HB st1 _ b1 a1 [] n1 c s 0 Hc1'); [by rewrite app_nil_r|exact Hws|exact His|].
  intros st2 (Ep2 & Hg2 & Ho2 & Hw2 & Hi2 & Hb2 & _).
  ok_bind (builder_finish_spec V D (gr_visible G) (gr_deleted G) (visible_small _ _ _ _ _ _ G) (deleted_small _ _ _ _ _ _ G) _ _ _ _ _ _ _ Hb2).
  intros [vt dt] (Hv & Etv & Hd & Etd). cbn [fst snd] in *. cbn [ok_with]. change (vis_text []) with (@nil N) in *. change (del_text []) with (@nil N) in *. rewrite !app_nil_r in *.
  exists (b1 ++ a1), (n1 ++ a1).
  assert (Hx : index_inv ts (byte_len ins) st2 (b1 ++ a1) [] (n1 ++ a1) []).
  { eapply (index_keep _ _ _ _ b1 a1 [] n1); [rewrite app_nil_r; exact (ri_index H1)|destruct Hg2; by split|done]. }
  assert (Hi1 : tree_items F = (b1 ++ a1).*1) by (rewrite fmap_app; exact (core_items Hc1)).
  pose proof (xi_spans _ _ _ _ _ _ _ Hx) as Hsp'. pose proof (xi_bound _ _ _ _ _ _ _ Hx) as Hof'. rewrite rem_nil, app_nil_r in Hsp', Hof'. split.
  - split; try done; [|by rewrite fmap_app; apply H1|]; [apply Forall_app; split; apply Hc1|]. eapply Forall_impl; [exact Hof'|]. by intros ? [? _].
  - by rewrite doc_app, (ps_new Hp), (ps_left Hp), <-app_assoc.
  - cbn. rewrite Ep2, Etv, (core_visible Hc1), vis_text_app, !byte_len_app. apply reaches_shift. exact (ri_patch H1).
  - rewrite Etv, Etd, <-(ri_total H1), <-weight_app. done.
  - unfold EditFacts.room in Hr1. rewrite length_app. lia.
  - done.
  - eapply index_same; [exact Hx|grow_tac|done].
  - rewrite fmap_app. apply Forall_app. split; [apply H1|]. apply Forall_forall. intros f Hf.
    apply (derived_kept ts _ f f); [rewrite Hi1, fmap_app, elem_of_app; by right|split; [done|lia..]|done|done].
  - intros g. rewrite fmap_app, elem_of_app. cbn. destruct Hg2 as [_ Es2]. cbn in Es2. rewrite app_nil_r in Es2. rewrite Es2.
    intros [Hg|Hg] Ht; [by apply (ri_slices H1)|]. pose proof (gr_untouched G) as Hun. rewrite Hi1, fmap_app, Forall_app, !Forall_forall in Hun. by destruct (proj2 Hun g Hg).
Qed.
End apply.

(** Text before the first range may be passed beforehand. *)
Lemma integrate_prefix v was ts o l1 l2 (r : Range N) t es :
  l1 = [] ∨ observed_bytes v l1 < r_start r →
  integrate v was ts o 0 ((r, t) :: es) (l1 ++ l2) = l1 ++ integrate v was ts o (observed_bytes v l1) ((r, t) :: es) l2.
Proof.
  cbn [integrate]. rewrite N.sub_0_r. intros [->|Hlt].
  - change (observed_bytes v []) with 0. by rewrite N.sub_0_r.
  - rewrite pass_app by done. destruct (pass v (r_start r - observed_bytes v l1) l2) as [p l]. cbn [fst snd]. destruct (skip ts l) as [s l'].
    destruct (pass v (r_end r - r_start r) l') as [d l'']. by rewrite <-app_assoc.
Qed.

(** The limits of the model: 2 GiB of text and every range cuts at most three new fragments. *)
Definition remote_fragments_after (F : fragment_tree) (cs : list Change) : N := N.of_nat (length (tree_items F)) + 3 * N.of_nat (length cs).
Record remote_fits (F : fragment_tree) (V D : srope) (cs : list Change) : Prop := {
  rf_bytes : byte_len (rope_text V) + byte_len (rope_text D) + byte_len (new_chars cs) <= 2 ^ 31;
  rf_fragments : remote_fragments_after F cs <= MAX_CHUNKS
}.

Lemma remote_fragments_spec F V D v undos ts ps c cs tail :
  content_wf F V D ps → grounds V D F v undos ts → full_text v ps = before_changes (c :: cs) ++ tail →
  Forall (fun c => Forall char_ok (ch_insert c)) (c :: cs) → remote_fits F V D (c :: cs) →
  ok_with (remote_fragments (Sl:=list N) v undos ts F V D (mkRange (byte_len (ch_keep c)) (byte_len (ch_keep c) + byte_len (ch_delete c)))
      (changes_at (byte_len (ch_keep c) + byte_len (ch_delete c)) cs).*1 (str_of <$> (changes_at 0 (c :: cs)).*2))
    (fun r => let '(st, vt, dt) := r in ∃ bps ps',
      remotely_edited V D F ts (remote_fragments_after F (c :: cs)) (new_chars (c :: cs)) (integrate v (atom_was v (tree_items undos)) ts 0 0 (changes_at 0 (c :: cs)) (doc ps)) st vt dt bps ps').
Proof.
  intros Hc G Et Hok [Hs HB]. set (B := remote_fragments_after F (c :: cs)) in *. unfold remote_fragments. destruct c as [g d t]. cbn [ch_keep ch_delete r_start] in *.
  assert (Hin : Forall (span_in ts 0) (span_of <$> ps.*1)).
  { pose proof (gr_untouched G) as Hun. pose proof (cw_offsets _ _ _ _ Hc) as Hof. rewrite (cw_items _ _ _ _ Hc) in Hun. rewrite Forall_fmap, Forall_forall in *.
    intros f Hf. split; [by apply Hof|]. intros E. destruct (Hun f Hf). left. exact E. }
  cbn [before_changes flat_map ch_keep ch_delete] in Et. fold (before_changes cs) in Et. rewrite <-!app_assoc in Et.
  ok_bind (remote_start_spec V D F v undos ts G B HB ps g _ Hc Hin Et). intros st (bps & aps & g' & -> & -> & Hor & H).
  set (cs' := mkChange g' d t :: cs).
  assert (Ech : changes_at 0 (mkChange (full_text v bps ++ g') d t :: cs) = changes_at (byte_len (full_text v bps)) cs').
  { unfold cs'. cbn [changes_at ch_keep ch_delete ch_insert]. by rewrite N.add_0_l, !byte_len_app. }
  pose proof (apply_ranges_spec V D F v undos ts G B HB (S (cost F)) cs' [] st bps aps bps [] bps aps tail 0 H) as Happ.
  rewrite <-Ech in Happ. cbn [changes_at fmap list_fmap fst snd ch_keep ch_delete ch_insert] in Happ |- *. rewrite N.add_0_l in Happ.
  ok_bind Happ.
  - rewrite full_text_app, <-app_assoc in Et. apply app_inv_head in Et. rewrite Et. unfold cs'. cbn [before_changes flat_map ch_keep ch_delete]. by rewrite <-!app_assoc.
  - unfold EditFacts.room, B, remote_fragments_after, cs'. rewrite (cw_items _ _ _ _ Hc), length_fmap, length_app. cbn [length]. lia.
  - pose proof (cost_items F). lia.
  - apply Forall_cons in Hok as [? ?]. by constructor.
  - unfold new_chars, cs' in *. cbn [flat_map ch_insert] in *. change (byte_len []) with 0. lia.
  - intros st1 (b & a & n & x & c & r & H1 & Hr1 & E1). eapply ok_with_mono; [apply (remote_finish_spec V D F v undos ts G B HB _ st1 b a n x c r H1 Hr1)|].
    intros [[st2 vt] dt] (bps' & ps' & Hre). exists bps', ps'. rewrite E1 in Hre. change (byte_len []) with 0 in Hre. cbn [app] in Hre.
    rewrite doc_app, N.add_0_l. rewrite integrate_prefix, doc_observed; [exact Hre|]. rewrite doc_observed, byte_len_app. cbn [r_start].
    destruct Hor as [->|Hg]; [by left|]. pose proof (nonempty_bytes g' Hg). right. lia.
Qed.

(** * Buffers that receive edits of other replicas

    [apply_remote_edit] keeps the content of a buffer in order and changes its document as
    [perform] says. *)

(** ** Documents of pieces *)
Lemma doc_observed_text v ps : observed_text v (doc ps) = full_text v ps.
Proof.
  induction ps as [|[f t] ps IH]; [done|]. rewrite doc_cons. unfold observed_text in *. rewrite flat_map_app, IH. cbn [full_text flat_map fst snd]. f_equal.
  unfold piece_atoms. cbn [fst snd]. generalize (f_insertion_offset f). induction t as [|c t IHt]; intros o; [by destruct (global_observed _ _)|]. cbn [atoms flat_map]. rewrite IHt.
  unfold observed_atom. cbn. by destruct (global_observed v (f_timestamp f)).
Qed.
Lemma doc_stamps ps a : a ∈ doc ps → ∃ f, f ∈ ps.*1 ∧ at_insertion a = f_timestamp f ∧ at_deletions a = list_to_set (f_deletions f).
Proof.
  induction ps as [|[f t] ps IH]; [by intros ?%not_elem_of_nil|]. rewrite doc_cons, elem_of_app. intros [H|H].
  - apply atoms_was in H as [E1 E2]. exists f. split; [by left|done].
  - destruct (IH H) as (g & Hg & E). exists g. split; [by right|done].
Qed.

(** What an edit adds. *)
Lemma run_chars v was ts es o pos pending l c :
  c ∈ at_char <$> run v was ts es o pos pending l → c ∈ at_char <$> l ∨ c ∈ flat_map snd pending.
Proof.
  assert (Hemit : ∀ now o, at_char <$> emit ts o now = flat_map snd now).
  { induction now as [|[r t] now IH]; intros o'; [done|]. cbn [emit flat_map snd]. by rewrite fmap_app, atoms_chars, IH. }
  assert (Hdue : ∀ pos p, flat_map snd p = flat_map snd (due pos p).1 ++ flat_map snd (due pos p).2).
  { intros q. induction p as [|e p IH]; [done|]. cbn [due flat_map]. destruct (r_start e.1 <=? q); [|done]. destruct (due q p) as [n k]. cbn in *. by rewrite IH, app_assoc. }
  revert o pos pending. induction l as [|a l IH]; intros o pos pending; cbn [run].
  - rewrite Hemit, (Hdue pos pending), elem_of_app. auto.
  - destruct (if ltb ts (at_insertion a) then _ else _) as [now later] eqn:E. rewrite fmap_app, fmap_cons, Hemit, elem_of_app, elem_of_cons.
    assert (Hp : flat_map snd pending = flat_map snd now ++ flat_map snd later).
    { destruct (ltb _ _); [by injection E as <- <-|]. rewrite (Hdue pos pending), E. done. }
    rewrite Hp, fmap_cons, elem_of_cons, elem_of_app. assert (Ec : at_char (if covered_at es pos then mark v was ts a else a) = at_char a) by (destruct (covered_at _ _); [apply mark_char|done]).
    rewrite Ec. intros [?|[->|H]]; [auto|auto|]. apply IH in H as [?|?]; auto.
Qed.

(** ** [apply_remote_edit] *)
(** The operation, in terms of the text of its version. *)
Record edit_reads (ps : pieces) (v : Global) (ranges : list (Range N)) (new_text : list (list N)) (cs : list Change) : Prop := {
  rd_ranges : ranges = (changes_at 0 cs).*1;
  rd_new_text : new_text = str_of <$> (changes_at 0 cs).*2;
  rd_text : ∃ tail, full_text v ps = before_changes cs ++ tail;
  rd_chars : Forall (fun c => Forall char_ok (ch_insert c)) cs;
  rd_lines : CR ∉ new_chars cs
}.
(** The limits of the model. *)
Record remote_room (s : BufferSnapshot (list N) (list N)) (cs : list Change) : Prop := {
  rr_fits : remote_fits (bs_fragments s) (bs_visible_text s) (bs_deleted_text s) cs;
  rr_index : N.of_nat (length (tree_items (bs_fragments s))) + remote_fragments_after (bs_fragments s) cs < 6 ^ 9;
  rr_slices : N.of_nat (length (tree_items (bs_insertion_slices s))) + remote_fragments_after (bs_fragments s) cs < 6 ^ 9
}.
(** The timestamp is new to the buffer, and later than what the version has observed. *)
Record edit_new (b : sbuffer) (ps : pieces) (v : Global) (ts : Lamport) : Prop := {
  ew_untouched : untouched ts ps.*1;
  ew_not_undone : undone_by (bs_undo_map (b_snapshot b)) ts = false;
  ew_later : ∀ r, global_get v r < value ts;
  ew_time : 1 < value ts
}.

Record remotely_applied (clock : N) (b : sbuffer) (sp : Spec) (ps : pieces) (v : Global) (cs : list Change) (ts : Lamport) (b' : sbuffer) (ps' : pieces) (sp' : Spec) : Prop := {
  ra_content : content_wf (bs_fragments (b_snapshot b')) (bs_visible_text (b_snapshot b')) (bs_deleted_text (b_snapshot b')) ps';
  ra_index : index_ok ps'.*1 (bs_insertions (b_snapshot b'));
  ra_slices : map_ok (bs_insertion_slices (b_snapshot b'));
  ra_lines : CR ∉ rope_text (bs_visible_text (b_snapshot b')) ++ rope_text (bs_deleted_text (b_snapshot b'));
  ra_undo : undo_wf clock (bs_insertion_slices (b_snapshot b')) (bs_undo_map (b_snapshot b')) ps'.*1;
  ra_doc : doc ps' = perform v (atom_was v (tree_items (bs_undo_map (b_snapshot b)))) ts (changes_at 0 cs) (doc ps);
  ra_derived : Forall (derived ts ps.*1) ps'.*1;
  ra_undos : bs_undo_map (b_snapshot b') = bs_undo_map (b_snapshot b);
  ra_subscribers : refines (b_subscriptions b') sp';
  ra_length : sp_len sp' = byte_len (buffer_text b');
  ra_published : cs ≠ [] → ∃ p, reaches p (byte_len (buffer_text b)) (byte_len (buffer_text b')) ∧ sp' = published sp p (byte_len (buffer_text b'));
  ra_bytes : byte_len (buffer_text b') + byte_len (rope_text (bs_deleted_text (b_snapshot b')))
    = byte_len (buffer_text b) + byte_len (rope_text (bs_deleted_text (b_snapshot b))) + byte_len (new_chars cs);
  ra_fragments : N.of_nat (length ps') <= N.of_nat (length ps) + 3 * N.of_nat (length cs);
  ra_slices_grown : (length (tree_items (bs_insertion_slices (b_snapshot b'))) <= length (tree_items (bs_insertion_slices (b_snapshot b))) + length ps')%nat;
  ra_history : b_history b' = b_history b;
  ra_clock : b_lamport_clock b' = b_lamport_clock b;
  ra_version : bs_version (b_snapshot b') = bs_version (b_snapshot b)
}.

Lemma edit_grounds b ps clock v ts slices :
  content_wf (bs_fragments (b_snapshot b)) (bs_visible_text (b_snapshot b)) (bs_deleted_text (b_snapshot b)) ps →
  undo_wf clock slices (bs_undo_map (b_snapshot b)) ps.*1 → edit_new b ps v ts →
  byte_len (buffer_text b) + byte_len (rope_text (bs_deleted_text (b_snapshot b))) <= 2 ^ 31 → N.of_nat (length (tree_items (bs_fragments (b_snapshot b)))) <= MAX_CHUNKS →
  grounds (bs_visible_text (b_snapshot b)) (bs_deleted_text (b_snapshot b)) (bs_fragments (b_snapshot b)) v (bs_undo_map (b_snapshot b)) ts.
Proof.
  intros Hc Hu [N1 N2 N3 N4] Hs Hl. pose proof (uw_times _ _ _ _ Hu) as Ht. split; rewrite ?(cw_items _ _ _ _ Hc); try apply Hc; try done.
  - by rewrite <-(cw_items _ _ _ _ Hc).
  - eapply Forall_impl; [exact Ht|]. by intros f [? _].
  - pose proof (cw_offsets _ _ _ _ Hc) as Ho. rewrite Forall_fmap in Ho. exact Ho.
  - eapply Forall_impl; [exact Ht|]. intros f _ Ho%observed_get. specialize (N3 (replica_id (f_timestamp f))). apply ltb_ge. unfold cmp, lamport_cmp.
    by rewrite (proj2 (N.compare_gt_iff _ _)) by lia.
  - apply Hu.
Qed.

(** No carriage return comes in. *)
Lemma perform_lines F V D ps F' V' D' ps' v was ts cs :
  content_wf F V D ps → content_wf F' V' D' ps' → doc ps' = perform v was ts (changes_at 0 cs) (doc ps) → CR ∉ rope_text V ++ rope_text D → CR ∉ new_chars cs →
  CR ∉ rope_text V' ++ rope_text D'.
Proof.
  intros Hc Hc' Edoc Hlines Hcr Hcr'. rewrite <-(cw_visible_text _ _ _ _ Hc'), <-(cw_deleted_text _ _ _ _ Hc'), texts_chars, Edoc in Hcr'. unfold perform in Hcr'.
  apply run_chars in Hcr' as [Hold|Hn].
  - rewrite <-texts_chars, (cw_visible_text _ _ _ _ Hc), (cw_deleted_text _ _ _ _ Hc) in Hold. done.
  - apply Hcr. revert Hn. generalize 0. clear. induction cs as [|c cs IH]; intros o; [done|]. cbn. rewrite !elem_of_app. intros [?|?]; [auto|right; by eapply IH].
Qed.

Lemma apply_remote_edit_spec `{!UnstableSort, !UnstableSortLaws} clock' b sp ps v cs ts ranges new_text :
  buffer_wf b sp ps → edit_new b ps v ts → edit_reads ps v ranges new_text cs → remote_room (b_snapshot b) cs →
  value (b_lamport_clock b) <= clock' → value ts < clock' →
  ok_with (apply_remote_edit (Sl:=list N) b v ranges new_text ts) (fun b' => ∃ ps' sp', remotely_applied clock' b sp ps v cs ts b' ps' sp').
Proof.
  intros Hb Hnew [-> -> (tail & Et) Hch Hcr] [Hfit Hri Hrs] Hck Hts. pose proof Hb as [Hc Hi Hsl Hlines Hu _ _ _ Hsub Hlen]. unfold apply_remote_edit.
  destruct cs as [|[g d t] cs].
  { cbn [changes_at fmap list_fmap ok_with]. exists ps, sp. split; try done.
    - by apply (undo_wf_later (value (b_lamport_clock b))).
    - unfold perform. by rewrite run_done.
    - apply Forall_forall. intros f Hf. apply (derived_kept ts _ f f); [done|split; [done|lia..]|done|done].
    - change (byte_len (new_chars [])) with 0. lia.
    - lia.
    - lia. }
  assert (G : grounds (bs_visible_text (b_snapshot b)) (bs_deleted_text (b_snapshot b)) (bs_fragments (b_snapshot b)) v (bs_undo_map (b_snapshot b)) ts).
  { destruct Hfit as [Hf1 Hf2]. eapply edit_grounds; [exact Hc|exact Hu|done|lia|unfold remote_fragments_after in Hf2; lia]. }
  pose proof (remote_fragments_spec _ _ _ v _ ts ps (mkChange g d t) cs tail Hc G Et Hch Hfit) as Hw.
  cbn [changes_at fmap list_fmap fst snd ch_keep ch_delete ch_insert] in Hw |- *. rewrite !N.add_0_l in *. ok_bind Hw.
  set (cs0 := mkChange g d t :: cs) in *. intros [[st vt] dt] (bps & ps' & [Hc' Ed Hp Hbytes Hlps Eb Hx Hor Htr]).
  assert (EF : ps.*1 = tree_items (bs_fragments (b_snapshot b))) by (symmetry; apply Hc).
  ok_bind (index_commit ps.*1 _ ts (byte_len (new_chars cs0)) st bps ps' Hi); [congruence|apply Hc'|exact Hx|rewrite EF; lia|].
  intros [I' removed] HI'. cbn [fst] in HI'.
  pose proof (xi_bound _ _ _ _ _ _ _ Hx) as Hb'. rewrite rem_nil, app_nil_r in Hb'.
  ok_bind (slices_commit (bs_insertion_slices (b_snapshot b)) ts _ st bps ps' Hsl (cw_pieces _ _ _ _ Hc') Hx); [lia|]. intros sl (Hsl' & Hset & Hfrom).
  ok_bind (refines_publish _ sp (es_edits_patch st) (byte_len (rope_text vt)) Hsub).
  { rewrite Hlen. apply Hp. }
  { pose proof (rf_bytes _ _ _ _ Hfit). unfold POSITION_BOUND. lia. }
  intros w' [Hw' _]. cbn [ok_with]. exists ps', (published sp (es_edits_patch st) (byte_len (rope_text vt))). rewrite <-EF in Hor.
  assert (Edoc : doc ps' = perform v (atom_was v (tree_items (bs_undo_map (b_snapshot b)))) ts (changes_at 0 cs0) (doc ps)).
  { rewrite Ed. unfold perform. rewrite <-(integrate_run v _ ts (changes_at 0 cs0) cs0 0 0 (doc ps) tail); [unfold cs0; cbn [changes_at ch_keep ch_delete ch_insert]; by rewrite N.add_0_l|
      by rewrite doc_observed_text| |done].
    apply Forall_forall. intros a (f & Hf & E1 & _)%doc_stamps Ho. unfold observed_atom in Ho. rewrite E1 in *. pose proof (gr_later G) as Hl.
    rewrite <-EF, Forall_forall in Hl. by apply Hl. }
  split; cbn; try done.
  - eapply perform_lines; [exact Hc|exact Hc'|exact Edoc|done|done].
  - eapply (undo_wf_derived (value (b_lamport_clock b)) clock' ts); [exact Hu|apply Hnew|apply Hnew|done|done|exact Hor| | | |].
    + intros e He Ht. apply Hset. left. by apply Htr.
    + intros s Hs. apply Hset. by right.
    + intros s [Hs|Hs]%Hset; [right; by apply Hfrom|by left].
    + rewrite Forall_fmap in Hb'. eapply Forall_impl; [exact Hb'|]. by intros f (? & _).
  - intros _. by exists (es_edits_patch st).
  - unfold remote_fragments_after in Hlps. rewrite <-EF, length_fmap in Hlps. exact Hlps.
  - rewrite Nat.add_comm. pose proof (set_size (bs_insertion_slices (b_snapshot b)) sl (slice_from_fragment ts <$> ps'.*1) Hsl Hsl') as Hsz. rewrite !length_fmap in Hsz. apply Hsz.
    intros s [Hs|Hs]%Hset; [left|by right]. destruct (Hfrom s Hs) as (x & Hin & ->). by apply list_elem_of_fmap_2.
Qed.
