(* ===== verification/Operations.v ===== *)
(** * Operations that wait: [crates/text/src/operation_queue.rs]

    Operations that cannot be applied yet wait in a tree keyed by their timestamps.  The
    sources assert that keys increase wherever summaries are added up; the queue holds one
    operation per timestamp in increasing order ([queue_wf]), so the assertions hold and are
    not part of the functions here. *)

From stdpp Require Import sets.
From stdpp Require Import gmap.
From S2P Require Import Prelude Ord Clock SumTree SumTreeFacts SeekSpec Cursor CursorFacts SeekFacts KeyedTree KeyedFacts TreeMap UndoMap Locator Patch Subscription Bitmap Utf8 Point TextSummary Chunk Rope History Fragments BufferEdit Buffer BufferUndo RemoteEdit.
Local Open Scope N_scope.

(** [trait Operation] *)
Class QueuedOperation (T : Type) := lamport_timestamp : T → Lamport.

Record OperationSummary := mkOperationSummary { os_key : Lamport; os_len : N }.
Definition operation_summary_zero : OperationSummary := mkOperationSummary lamport_MIN 0.
Definition operation_summary_add (self other : OperationSummary) : OperationSummary :=
  mkOperationSummary (os_key other) (os_len self + os_len other).
#[export] Instance OperationSummary_summary : Summary OperationSummary unit :=
  {| zero _ := operation_summary_zero; add_summary _ := operation_summary_add |}.
(** [impl Dimension for OperationKey] *)
#[export] Instance OperationKey_dimension : Dimension Lamport OperationSummary unit :=
  {| dim_zero _ := lamport_MIN; dim_add_summary _ _ summary := os_key summary |}.

Section queue.
Context {T : Type} `{!QueuedOperation T}.
(** [OperationItem] *)
Definition operation_item_summary (self : T) : OperationSummary := mkOperationSummary (lamport_timestamp self) 1.
#[export] Instance OperationItem_item : Item T OperationSummary unit := fun _ => operation_item_summary.
#[export] Instance OperationItem_keyed : KeyedItem T Lamport := lamport_timestamp.

Definition OperationQueue : Type := SumTree T OperationSummary.
Definition queue_new : OperationQueue := new tt.
Definition queue_len (self : OperationQueue) : N := os_len (summary self).
Definition queue_is_empty (self : OperationQueue) : bool := queue_len self =? 0.

(** [Vec::sort_by_key] is stable: an element goes before those with greater keys. *)
Fixpoint insert_after_equal (x : T) (l : list T) : list T :=
  match l with
  | [] => [x]
  | y :: l => if ltb (lamport_timestamp x) (lamport_timestamp y) then x :: y :: l else y :: insert_after_equal x l
  end.
Definition sort_by_timestamp (l : list T) : list T := foldl (fun sorted x => insert_after_equal x sorted) [] l.
(** [Vec::dedup_by_key]: of neighbours with the same key the first stays. *)
Fixpoint dedup_after (key : Lamport) (l : list T) : list T :=
  match l with
  | [] => []
  | x :: l => if eqb (lamport_timestamp x) key then dedup_after key l else x :: dedup_after (lamport_timestamp x) l
  end.
Definition dedup_by_timestamp (l : list T) : list T :=
  match l with [] => [] | x :: l => x :: dedup_after (lamport_timestamp x) l end.

Definition queue_insert `{!UnstableSort} (self : OperationQueue) (ops : list T) : outcome OperationQueue :=
  let ops := dedup_by_timestamp (sort_by_timestamp ops) in
  '(queue, _) ← edit tt self (Insert <$> ops);
  Ok queue.
(** What was in the queue, and the queue that is left. *)
Definition queue_drain (self : OperationQueue) : OperationQueue * OperationQueue := (self, new tt).
Definition queue_iter (self : OperationQueue) : outcome (list T) := tree_iter self.

(** ** The invariant *)
#[export] Instance operation_summary_laws : SummaryLaws (Sm:=OperationSummary) tt.
Proof. split; [intros [] [] []|intros []]; cbn; unfold operation_summary_add; cbn; f_equal; lia. Qed.
#[export] Instance operation_key_dimension_laws : DimensionLaws Lamport (Sm:=OperationSummary) tt.
Proof. done. Qed.
#[export] Instance operation_key_laws : KeyLaws T Lamport tt.
Proof. split; [done|]. intros t. pose proof (lamport_MIN_le t). cbn. by destruct (cmp lamport_MIN t). Qed.

Record queue_wf (q : OperationQueue) : Prop := { qw_tree : map_wf tt q; qw_sorted : keys_sorted (tree_items q) }.

(** ** Sorting and deduplicating *)
Abbreviation sorted := (StronglySorted (fun x y : T => cmp (lamport_timestamp x) (lamport_timestamp y) ≠ Gt)).
Implicit Types (l : list T) (x : T) (k : Lamport).

Lemma insert_after_equal_elem x y l : y ∈ insert_after_equal x l ↔ y = x ∨ y ∈ l.
Proof. induction l as [|z l IH]; cbn; [set_solver|]. destruct (ltb _ _); [set_solver|]. rewrite !elem_of_cons, IH. tauto. Qed.
Lemma insert_after_equal_sorted x l : sorted l → sorted (insert_after_equal x l).
Proof.
  induction 1 as [|y l Hs IH Hy]; cbn; [repeat constructor|]. destruct (ltb (lamport_timestamp x) (lamport_timestamp y)) eqn:E.
  - apply ltb_lt in E. constructor; [by constructor|]. constructor; [by rewrite E|]. eapply Forall_impl; [exact Hy|]. cbn. intros z Hz. by rewrite (cmp_lt_le_trans _ _ _ E Hz).
  - constructor; [done|]. apply Forall_forall. intros z [->|Hz]%insert_after_equal_elem; [|rewrite Forall_forall in Hy; by apply Hy].
    apply ltb_ge in E. intros Hg. apply E. by apply cmp_gt_lt.
Qed.
Lemma insert_after_equal_length x l : length (insert_after_equal x l) = S (length l).
Proof. induction l as [|y l IH]; [done|]. cbn. destruct (ltb _ _); [done|]. cbn. by rewrite IH. Qed.
Lemma sort_length l : length (sort_by_timestamp l) = length l.
Proof. unfold sort_by_timestamp. induction l as [|x l IH] using rev_ind; [done|]. rewrite foldl_app. cbn. rewrite insert_after_equal_length, IH, length_app. cbn. lia. Qed.
(** Of the operations with a timestamp, the first is found first. *)
Lemma insert_after_equal_find k x l : sorted l →
  klookup k (insert_after_equal x l) = match klookup k l with Some y => Some y | None => if eqb (item_key x) k then Some x else None end.
Proof.
  induction 1 as [|y l Hs IH Hy]; [done|]. cbn [insert_after_equal]. destruct (ltb (lamport_timestamp x) (lamport_timestamp y)) eqn:E; rewrite !klookup_cons.
  - destruct (eqb (item_key x) k) eqn:Ex; [|by destruct (eqb (item_key y) k); [|destruct (klookup k l)]]. apply eqb_eq in Ex as <-. apply ltb_lt in E.
    assert (Hn : klookup (item_key x) (y :: l) = None); [|by rewrite klookup_cons in Hn; rewrite Hn].
    change (cmp (item_key x) (item_key y) = Lt) in E. apply klookup_none. constructor; [intros He; ord_solve|]. eapply Forall_impl; [exact Hy|].
    intros z Hz He. change (cmp (item_key y) (item_key z) ≠ Gt) in Hz. apply cmp_eq in He. rewrite He in Hz. apply Hz. by apply cmp_gt_lt.
  - rewrite IH. by destruct (eqb (item_key y) k).
Qed.
Lemma sort_spec l : sorted (sort_by_timestamp l) ∧ ∀ k, klookup k (sort_by_timestamp l) = klookup k l.
Proof.
  unfold sort_by_timestamp. induction l as [|x l [IH1 IH2]] using rev_ind; [split; [constructor|done]|]. rewrite foldl_app. cbn [foldl]. split; [by apply insert_after_equal_sorted|].
  intros k. by rewrite insert_after_equal_find, IH2, klookup_app.
Qed.

Lemma dedup_after_spec k0 l : sorted l → Forall (fun x => cmp k0 (lamport_timestamp x) ≠ Gt) l →
  keys_sorted (dedup_after k0 l) ∧ Forall (fun x => cmp k0 (item_key x) = Lt) (dedup_after k0 l) ∧
  (∀ k, k ≠ k0 → klookup k (dedup_after k0 l) = klookup k l) ∧ (length (dedup_after k0 l) <= length l)%nat.
Proof.
  intros Hs. revert k0. induction Hs as [|x l Hs IH Hx]; intros k0 Hk; [by split_and!; [constructor|..]|]. cbn [dedup_after]. apply Forall_cons in Hk as [Hk Hkl].
  destruct (eqb (lamport_timestamp x) k0) eqn:E.
  - apply eqb_eq in E. destruct (IH k0 Hkl) as (H1 & H2 & H3 & H4). split_and!; [done|done| |cbn; lia]. intros k Hne. rewrite H3 by done. rewrite klookup_cons.
    destruct (eqb (item_key x) k) eqn:Ek; [|done]. apply eqb_eq in Ek. unfold item_key, OperationItem_keyed in Ek. congruence.
  - destruct (IH (lamport_timestamp x) Hx) as (H1 & H2 & H3 & H4). assert (Hlt : cmp k0 (lamport_timestamp x) = Lt).
    { destruct (cmp k0 (lamport_timestamp x)) eqn:Ec; [|done|done]. apply cmp_eq in Ec as ->. by rewrite eqb_refl in E. }
    split_and!.
    + constructor; [exact H1|exact H2].
    + constructor; [done|]. eapply Forall_impl; [exact H2|]. cbn. intros y Hy. exact (cmp_lt_trans _ _ _ Hlt Hy).
    + intros k Hne. rewrite !klookup_cons. destruct (eqb (item_key x) k) eqn:Ek; [done|]. apply H3. intros ->. by rewrite eqb_refl in Ek.
    + cbn. lia.
Qed.
Lemma dedup_spec l : sorted l →
  keys_sorted (dedup_by_timestamp l) ∧ (∀ k, klookup k (dedup_by_timestamp l) = klookup k l) ∧ (length (dedup_by_timestamp l) <= length l)%nat.
Proof.
  destruct 1 as [|x l Hs Hx]; [by split_and!; [constructor|..]|]. cbn [dedup_by_timestamp]. destruct (dedup_after_spec _ _ Hs Hx) as (H1 & H2 & H3 & H4). split_and!; [by constructor| |cbn; lia].
  intros k. rewrite !klookup_cons. destruct (eqb (item_key x) k) eqn:Ek; [done|]. apply H3. intros ->. by rewrite eqb_refl in Ek.
Qed.

(** ** The queue *)
Lemma queue_new_wf : queue_wf queue_new.
Proof. split; [split; [by left|done]|constructor]. Qed.
Lemma queue_iter_spec q : queue_wf q → queue_iter q = Ok (tree_items q).
Proof. intros [Hw _]. unfold queue_iter. by rewrite (tree_iter_spec tt MAP_DEPTH q (proj1 Hw) (map_wf_height tt _ Hw)). Qed.
Lemma queue_drain_wf q : queue_wf (queue_drain q).2.
Proof. apply queue_new_wf. Qed.

(** The summary of a run of operations. *)
Abbreviation summary_of l := (sum tt (operation_item_summary <$> l)).
Lemma summary_of_key l : os_key (summary_of l) = match last l with Some x => item_key x | None => lamport_MIN end.
Proof. destruct (snoc_case l) as [->|(k & x & ->)]; [done|]. rewrite fmap_app, last_snoc. unfold sum. by rewrite foldl_app. Qed.
Lemma summary_of_len l : os_len (summary_of l) = N.of_nat (length l).
Proof.
  induction l as [|x l IH] using rev_ind; [done|]. rewrite fmap_app, length_app. unfold sum in *. rewrite foldl_app. cbn in *. rewrite IH. lia.
Qed.
Lemma queue_len_spec q : queue_wf q → queue_len q = N.of_nat (length (tree_items q)).
Proof. intros [[Hw _] _]. unfold queue_len. rewrite (tree_wf_summary tt _ _ Hw). apply summary_of_len. Qed.

(** The assertions of the summaries: wherever the summaries of neighbouring runs are added
    up, the first beginning with [OperationSummary::zero], the key of the second is greater. *)
Lemma queue_assertions q (before l next after : list T) :
  queue_wf q → Forall (fun x => cmp lamport_MIN (item_key x) = Lt) (tree_items q) → tree_items q = before ++ l ++ next ++ after → next ≠ [] →
  cmp (os_key (summary_of l)) (os_key (summary_of next)) = Lt.
Proof.
  intros [_ Hs] Hmin E Hk. destruct (snoc_case next) as [->|(next' & y & ->)]; [done|]. rewrite !summary_of_key, last_snoc. destruct (last l) as [x|] eqn:El.
  - apply last_Some in El as [l' ->]. rewrite E in Hs. apply keys_sorted_app in Hs as (_ & Hs & _). rewrite <-app_assoc in Hs. apply keys_sorted_app in Hs as (_ & Hs & _).
    cbn [app] in Hs. apply keys_sorted_cons in Hs as [_ Hx]. rewrite Forall_forall in Hx. apply Hx. set_solver.
  - rewrite Forall_forall in Hmin. apply Hmin. rewrite E. set_solver.
Qed.

(** The operations of a batch, each timestamp once, take the place of those with the same
    timestamps. *)
Lemma queue_insert_spec `{!UnstableSort, !UnstableSortLaws} q l :
  queue_wf q → (N.of_nat (length (tree_items q) + length l) < 6 ^ 9) →
  ok_with (queue_insert q l) (fun q' => queue_wf q' ∧ (length (tree_items q') <= length (tree_items q) + length l)%nat ∧
    ∀ k, klookup k (tree_items q') = match klookup k l with Some x => Some x | None => klookup k (tree_items q) end).
Proof.
  intros [Hw Hs] Hn. unfold queue_insert. destruct (sort_spec l) as [Hss Hsl]. destruct (dedup_spec _ Hss) as (Hd1 & Hd2 & Hd3).
  set (ops := dedup_by_timestamp _) in *. assert (Hlen : (length ops <= length l)%nat) by (rewrite sort_length in Hd3; lia).
  assert (Hkeys : NoDup (edit_key <$> (Insert <$> ops : list (Edit T Lamport)))).
  { rewrite <-list_fmap_compose. by apply keys_nodup. }
  destruct (edit_spec tt q (Insert <$> ops) Hw Hs Hkeys) as (es & Hp & Hes & Hok); [rewrite length_fmap; lia|]. ok_bind Hok. intros [q' removed] (Hw' & Hi & _).
  cbn [fst] in *. split_and!.
  - split; [done|]. rewrite Hi. by apply apply_edits_sorted.
  - rewrite Hi. pose proof (apply_edits_length (tree_items q) es) as Hl. apply Permutation_length in Hp. rewrite length_fmap in Hp. lia.
  - intros k. rewrite Hi, klookup_apply_edits by done. unfold edited_lookup. rewrite (edit_for_perm es (Insert <$> ops)) by (done || by rewrite Hp).
    rewrite <-(Hsl k), <-(Hd2 k). clear. induction ops as [|x ops IH]; cbn; [done|]. by destruct (eqb (item_key x) k).
Qed.
End queue.
Arguments OperationQueue : clear implicits.

(** The queue of waiting operations.  Inserting a batch into a queue in order does not
    panic and leaves a queue in order; it has every operation of the batch, of those with the
    same timestamp the first, in place of any it had with that timestamp, and the others it
    had.  Iterating yields the operations by increasing timestamp, each timestamp once, as
    many as [len] says; draining hands them over and leaves an empty queue. *)
Theorem operation_queue_correct {T} `{!QueuedOperation T, !UnstableSort, !UnstableSortLaws} (q : OperationQueue T) (ops : list T) :
  queue_wf q → N.of_nat (length (tree_items q) + length ops) < 6 ^ 9 →
  ∃ q' items, queue_insert q ops = Ok q' ∧ queue_wf q' ∧ queue_iter q' = Ok items ∧ keys_sorted items ∧ queue_len q' = N.of_nat (length items) ∧
    (∀ k, klookup k items = match klookup k ops with Some x => Some x | None => klookup k (tree_items q) end) ∧
    (queue_drain q').1 = q' ∧ queue_is_empty (queue_drain q').2 = true.
Proof.
  intros Hq Hn. destruct (ok_with_inv _ _ (queue_insert_spec q ops Hq Hn)) as (q' & E & Hq' & _ & Hk). exists q', (tree_items q').
  split_and!; [done|done|by apply queue_iter_spec|apply Hq'|by apply queue_len_spec|done|done|done].
Qed.

#[local] Instance pair_queued : QueuedOperation (Lamport * N) := fst.
#[local] Existing Instance insertion_sort.
#[local] Existing Instance insertion_sort_laws.
(** Three operations arrive, two of them with the same timestamp. *)
Lemma operation_queue_correct_witness :
  let ops := [(mkLamport 5 LOCAL, 50); (mkLamport 3 LOCAL, 30); (mkLamport 5 LOCAL, 51)] in
  ∃ q' items, queue_insert queue_new ops = Ok q' ∧ queue_iter q' = Ok items ∧ items = [(mkLamport 3 LOCAL, 30); (mkLamport 5 LOCAL, 50)] ∧ queue_len q' = 2.
Proof.
  intros ops. destruct (operation_queue_correct queue_new ops queue_new_wf ltac:(by vm_compute)) as (q' & items & E & _ & Ei & _ & El & _).
  exists q', items. vm_compute in E. injection E as <-. vm_compute in Ei. injection Ei as <-. split_and!; [by vm_compute..].
Defined.

(** * Receiving operations: [Buffer::apply_ops] of [crates/text/src/text.rs]

    A buffer applies an operation when it has observed everything the operation's version
    has; until then the operation waits in the queue, and with it the later operations of its
    replica.  [Replica] adds the queue and the set of replicas with waiting operations to the
    [Buffer] of the other files; the channels of tasks that wait for edits or versions are
    left out. *)

(** [impl operation_queue::Operation for Operation] *)
#[export] Instance Operation_queued : QueuedOperation Operation := operation_timestamp.
Definition operation_replica_id (self : Operation) : ReplicaId := replica_id (operation_timestamp self).
Definition operation_version (op : Operation) : Global :=
  match op with OpEdit edit => eo_version edit | OpUndo undo => undo_version undo end.

Section operations.
Context {C Sl Sm : Type} `{!Summary Sm unit, !Item C Sm unit, !ChunkApi C Sl Sm, !UnstableSort}.
Abbreviation buffer := (Buffer C Sm).

Record Replica := mkReplica {
  rp_buffer : buffer;
  rp_deferred_ops : OperationQueue Operation;
  rp_deferred_replicas : gset ReplicaId
}.
Definition replica_new (b : buffer) : Replica := mkReplica b queue_new ∅.
Definition with_buffer (self : Replica) (b : buffer) : Replica := mkReplica b (rp_deferred_ops self) (rp_deferred_replicas self).

(** [self.snapshot.version.observe(timestamp); self.lamport_clock.observe(timestamp)] *)
Definition observe_timestamp (b : buffer) (timestamp : Lamport) : buffer :=
  let s := b_snapshot b in
  mkBuffer
    (mkSnapshot (bs_visible_text s) (bs_deleted_text s) (bs_fragments s) (bs_insertions s) (bs_insertion_slices s) (bs_undo_map s)
       (global_observe (bs_version s) timestamp) (bs_remote_id s) (bs_replica_id s) (bs_line_ending s))
    (b_history b) (lamport_observe (b_lamport_clock b) timestamp) (b_subscriptions b).

Definition apply_op (self : buffer) (op : Operation) : outcome buffer :=
  match op with
  | OpEdit edit =>
      if negb (global_observed (bs_version (b_snapshot self)) (eo_timestamp edit)) then
        self ← apply_remote_edit (Sl:=Sl) self (eo_version edit) (eo_ranges edit) (eo_new_text edit) (eo_timestamp edit);
        Ok (observe_timestamp self (eo_timestamp edit))
      else Ok self
  | OpUndo undo =>
      if negb (global_observed (bs_version (b_snapshot self)) (undo_timestamp undo)) then
        self ← apply_undo (Sl:=Sl) self undo;
        Ok (observe_timestamp self (undo_timestamp undo))
      else Ok self
  end.

Definition can_apply_op (self : Replica) (op : Operation) : bool :=
  if decide (operation_replica_id op ∈ rp_deferred_replicas self) then false
  else global_observed_all (bs_version (b_snapshot (rp_buffer self))) (operation_version op).

(** The branches on [can_apply_op], of [apply_ops] and of [flush_deferred_ops]. *)
Definition apply_or_defer (self : Replica) (deferred_ops : list Operation) (op : Operation) : outcome (Replica * list Operation) :=
  if can_apply_op self op then
    b ← apply_op (rp_buffer self) op;
    Ok (with_buffer self b, deferred_ops)
  else
    Ok (mkReplica (rp_buffer self) (rp_deferred_ops self) ({[ operation_replica_id op ]} ∪ rp_deferred_replicas self),
        deferred_ops ++ [op]).

Fixpoint flush_loop (self : Replica) (deferred_ops ops : list Operation) : outcome (Replica * list Operation) :=
  match ops with
  | [] => Ok (self, deferred_ops)
  | op :: ops =>
      '(self, deferred_ops) ← apply_or_defer self deferred_ops op;
      flush_loop self deferred_ops ops
  end.
(** [self.deferred_ops.insert(deferred_ops)] *)
Definition insert_deferred (self : Replica) (deferred_ops : list Operation) : outcome Replica :=
  queue ← queue_insert (rp_deferred_ops self) deferred_ops;
  Ok (mkReplica (rp_buffer self) queue (rp_deferred_replicas self)).
Definition flush_deferred_ops (self : Replica) : outcome Replica :=
  let '(drained, queue) := queue_drain (rp_deferred_ops self) in
  let self := mkReplica (rp_buffer self) queue ∅ in
  ops ← queue_iter drained;
  '(self, deferred_ops) ← flush_loop self [] ops;
  insert_deferred self deferred_ops.

Fixpoint apply_loop (self : Replica) (deferred_ops ops : list Operation) : outcome (Replica * list Operation) :=
  match ops with
  | [] => Ok (self, deferred_ops)
  | op :: ops =>
      history ← history_push (b_history (rp_buffer self)) op;
      '(self, deferred_ops) ← apply_or_defer (with_buffer self (set_history (rp_buffer self) history)) deferred_ops op;
      apply_loop self deferred_ops ops
  end.
Definition apply_ops (self : Replica) (ops : list Operation) : outcome Replica :=
  '(self, deferred_ops) ← apply_loop self [] ops;
  self ← insert_deferred self deferred_ops;
  flush_deferred_ops self.

Definition deferred_ops_len (self : Replica) : N := queue_len (rp_deferred_ops self).
Definition has_deferred_ops (self : Replica) : bool := negb (queue_is_empty (rp_deferred_ops self)).
End operations.
Arguments Replica : clear implicits.
