(* ===== verification/Messages.v ===== *)
(** * Histories of messages

    The operations replicas send one another, as changes of the text of the sender's version.
    A history is valid when every message says truthfully what its sender had received and
    changed; whoever has received part of a valid history, and all that part knows of, is in a
    state that depends on the part alone. *)

From stdpp Require Import sets gmap.
From S2P Require Import Prelude Ord Clock SumTree SumTreeFacts Locator Patch Bitmap Utf8 Point TextSummary Chunk ChunkFacts KeyedTree UndoMap History Fragments BufferEdit EditFacts Buffer RemoteEdit Doc Converge.
Local Open Scope N_scope.

(** ** Messages *)
Inductive Message :=
  | EditMessage (timestamp : Lamport) (version : Global) (changes : list Change)
  | UndoMessage (timestamp : Lamport) (version : Global) (counts : list (Lamport * N)).

#[export] Instance Change_eq_dec : EqDecision Change.
Proof. solve_decision. Defined.
#[export] Instance Message_eq_dec : EqDecision Message.
Proof. solve_decision. Defined.

(** What is sent, and what it means. *)
Definition to_operation (m : Message) : Operation :=
  match m with
  | EditMessage t v cs => OpEdit (mkEditOperation t v (changes_at 0 cs).*1 (str_of <$> (changes_at 0 cs).*2))
  | UndoMessage t v counts => OpUndo (mkUndoOperation t v counts)
  end.
Definition to_op (m : Message) : Op :=
  match m with EditMessage t v cs => EditOp t v (changes_at 0 cs) | UndoMessage t v counts => UndoOp t v counts end.
Definition time (m : Message) : Lamport := op_time (to_op m).
Definition version_of (m : Message) : Global := op_version (to_op m).
Definition replica (m : Message) : ReplicaId := replica_id (time m).
Abbreviation knows_of m y := (knows (to_op m) (time y)).

Lemma to_operation_time m : operation_timestamp (to_operation m) = time m.
Proof. by destruct m. Qed.
Lemma knows_get m t : knows (to_op m) t = true ↔ value t <= global_get (version_of m) (replica_id t).
Proof. apply observed_get. Qed.

(** ** Where replicas begin *)
Definition base_time : Lamport := lamport_new LOCAL.
Definition base_state (text : list N) : State := mkState (atoms base_time ∅ 0 text) ∅.
Definition base_version (text : list N) : Global := match text with [] => global_new | _ => global_observe global_new base_time end.
Lemma base_version_get text r : global_get (base_version text) r <= 1.
Proof.
  assert (E : global_get global_new r = 0) by (apply global_get_ge; cbn; lia). unfold base_version. destruct text; [lia|]. rewrite global_get_observe, E.
  case_decide; cbn; lia.
Qed.

(** ** Valid histories *)
Definition past (m : Message) (H : list Message) : list Message := filter (fun y => knows_of m y = true) H.
(** The state after some messages. *)
Definition state_of (text : list N) (A : list Message) : State := deliver_all (to_op <$> A) (base_state text).

Section valid.
Context (text : list N).

(** An edit changes the text of its version; an undo counts edits its version had observed. *)
Definition content_ok (H : list Message) (m : Message) : Prop :=
  match m with
  | EditMessage _ v cs =>
      (∃ tail, observed_text v (st_doc (state_of text (past m H))) = before_changes cs ++ tail) ∧
      Forall (fun c => Forall char_ok (ch_insert c)) cs ∧ CR ∉ new_chars cs
  | UndoMessage t _ counts =>
      NoDup counts.*1 ∧ Forall (fun c => 1 < value c.1 ∧ c.2 <= value t ∧ ∃ y, y ∈ H ∧ time y = c.1 ∧ knows_of m y = true) counts
  end.

Record message_ok (H : list Message) (m : Message) : Prop := {
  mo_time : 1 < value (time m);
  mo_later : ∀ r, global_get (version_of m) r < value (time m);
  mo_canonical : canonical (version_of m);
  mo_version : ∀ r, global_get (version_of m) r <= global_get (base_version text) r ∨
    ∃ y, y ∈ H ∧ replica y = r ∧ value (time y) = global_get (version_of m) r;
  mo_past : ∀ y, y ∈ H → knows_of m y = true → ∀ r, global_get (version_of y) r <= global_get (version_of m) r;
  mo_own : ∀ y, y ∈ H → replica y = replica m → value (time y) < value (time m) → knows_of m y = true;
  mo_content : content_ok H m
}.
Record history_valid (H : list Message) : Prop := {
  hv_times : NoDup (time <$> H);
  hv_causal : causal (to_op <$> H);
  hv_messages : Forall (message_ok H) H
}.

(** ** Parts of a history that are closed *)
Record part (H A : list Message) : Prop := {
  ap_sub : ∀ m, m ∈ A → m ∈ H;
  ap_nodup : NoDup A;
  ap_closed : ∀ m y, m ∈ A → y ∈ H → knows_of m y = true → y ∈ A;
  ap_causal : causal (to_op <$> A)
}.

Context (H : list Message) (HH : history_valid H).

Lemma message_valid m : m ∈ H → message_ok H m.
Proof using HH. intros Hm. pose proof (hv_messages _ HH) as Hv. rewrite Forall_forall in Hv. by apply Hv. Qed.
Lemma same_time m y : m ∈ H → y ∈ H → time m = time y → m = y.
Proof using HH.
  intros Hm Hy. apply (NoDup_fmap_inj _ H); [apply HH|done|done].
Qed.
Lemma knows_before m y : m ∈ H → knows_of m y = true → value (time y) < value (time m).
Proof using HH. intros Hm Hk. apply knows_get in Hk. pose proof (mo_later _ _ (message_valid m Hm) (replica_id (time y))). lia. Qed.
Lemma part_times A : part H A → NoDup (time <$> A).
Proof using HH.
  intros [Hs Hn _ _]. clear -Hs Hn HH. induction Hn as [|x A Hx Hn IH]; cbn; [constructor|]. apply NoDup_cons. split; [|apply IH; intros; apply Hs; by right].
  intros (y & E & Hy)%list_elem_of_fmap. apply Hx. rewrite (same_time x y); [done|apply Hs; by left|apply Hs; by right|done].
Qed.
Lemma part_nil : part H [].
Proof. split; [by intros m ?%not_elem_of_nil|constructor|by intros m y ?%not_elem_of_nil|constructor]. Qed.

(** The version of whoever has received the messages [A]. *)
Definition version_after (A : list Message) : Global := foldl global_observe (base_version text) (time <$> A).
Lemma version_after_snoc A m : version_after (A ++ [m]) = global_observe (version_after A) (time m).
Proof. unfold version_after. by rewrite fmap_app, foldl_app. Qed.
Lemma version_after_get A r :
  (∀ m, m ∈ A → replica m = r → value (time m) <= global_get (version_after A) r) ∧ global_get (base_version text) r <= global_get (version_after A) r ∧
  (global_get (version_after A) r = global_get (base_version text) r ∨ ∃ m, m ∈ A ∧ replica m = r ∧ value (time m) = global_get (version_after A) r).
Proof.
  induction A as [|m A (IH1 & IH2 & IH3)] using rev_ind; [split_and!; [by intros m ?%not_elem_of_nil|done|by left]|]. rewrite version_after_snoc, global_get_observe. case_decide as E.
  - split_and!.
    + intros y [Hy| ->%list_elem_of_singleton]%elem_of_app Hr; [|lia]. specialize (IH1 y Hy Hr). lia.
    + lia.
    + destruct (N.max_spec (global_get (version_after A) r) (value (time m))) as [[? ->]|[? ->]].
      * right. exists m. split_and!; [set_solver|done|done].
      * destruct IH3 as [?|(y & Hy & ?)]; [by left|right]. exists y. split; [set_solver|done].
  - split_and!; [|done|].
    + intros y [Hy| ->%list_elem_of_singleton]%elem_of_app Hr; [by apply IH1|done].
    + destruct IH3 as [?|(y & Hy & ?)]; [by left|right]. exists y. split; [set_solver|done].
Qed.
Lemma version_after_canonical A : canonical (version_after A).
Proof.
  induction A as [|m A IH] using rev_ind; [|rewrite version_after_snoc; by apply canonical_observe]. unfold version_after. cbn. unfold base_version.
  destruct text; [apply canonical_new|apply canonical_observe, canonical_new].
Qed.

(** What has been observed has been received. *)
Lemma observed_received A y : part H A → y ∈ H → global_observed (version_after A) (time y) = true ↔ y ∈ A.
Proof using HH.
  intros [Hs _ Hc _] Hy. rewrite observed_get. destruct (version_after_get A (replica_id (time y))) as (H1 & H2 & H3). split; [|intros; by apply H1].
  intros Hle. pose proof (mo_time _ _ (message_valid y Hy)). pose proof (base_version_get text (replica_id (time y))).
  destruct H3 as [E|(m & Hm & Er & Ev)]; [lia|]. destruct (N.eq_dec (value (time y)) (value (time m))) as [E|Hne].
  - rewrite (same_time y m); [done|done|by apply Hs|]. unfold replica in Er. destruct (time y), (time m). cbn in *. congruence.
  - apply (Hc m y Hm Hy). apply (mo_own _ _ (message_valid m (Hs m Hm))); [done|done|lia].
Qed.

(** A message can be received when what it knows of has been. *)
Lemma ready_past A m : part H A → m ∈ H → global_observed_all (version_after A) (version_of m) = true →
  ∀ y, y ∈ H → knows_of m y = true → y ∈ A.
Proof using HH.
  intros Ha Hm Hr y Hy Hk. apply observed_received; [done|done|]. apply observed_get. apply knows_get in Hk.
  apply global_observed_all_get with (r := replica_id (time y)) in Hr; [|apply (message_valid m Hm)]. lia.
Qed.
Lemma past_ready A m : part H A → m ∈ H → (∀ y, y ∈ H → knows_of m y = true → y ∈ A) →
  global_observed_all (version_after A) (version_of m) = true.
Proof using HH.
  intros Ha Hm Hp. pose proof (message_valid m Hm) as Hok. apply global_observed_all_get; [apply Hok|]. intros r. destruct (version_after_get A r) as (H1 & H2 & _).
  destruct (mo_version _ _ Hok r) as [Hb|(y & Hy & Er & Ev)]; [lia|]. rewrite <-Ev. apply H1; [|done]. apply Hp; [done|]. apply knows_get. unfold replica in Er. rewrite Er. lia.
Qed.

Lemma part_snoc A m : part H A → m ∈ H → m ∉ A → (∀ y, y ∈ H → knows_of m y = true → y ∈ A) → part H (A ++ [m]).
Proof using HH.
  intros [Hs Hn Hc Ho] Hm Hnew Hp. split.
  - intros y [Hy| ->%list_elem_of_singleton]%elem_of_app; [by apply Hs|done].
  - apply NoDup_app. split_and!; [done| |apply NoDup_singleton]. intros y Hy ->%list_elem_of_singleton. done.
  - intros x y [Hx| ->%list_elem_of_singleton]%elem_of_app Hy Hk; rewrite elem_of_app; left; [by eapply Hc|by apply Hp].
  - rewrite fmap_app. cbn. assert (Hx : Forall (fun x => knows x (time m) = false) (to_op <$> A)).
    { rewrite Forall_fmap. apply Forall_forall. intros y Hy. cbn. destruct (knows (to_op y) (time m)) eqn:E; [|done]. destruct Hnew. by apply (Hc y m Hy Hm). }
    clear -Ho Hx. unfold causal in *. induction Ho as [|x l Hf Hl IH]; cbn; [repeat constructor|]. apply Forall_cons in Hx as [Hx1 Hx2]. constructor; [|by apply IH].
    apply Forall_app. split; [done|]. by constructor.
Qed.

(** ** States *)
(** Whoever has received the same messages is in the same state. *)
Lemma state_of_perm A A' : part H A → part H A' → A ≡ₚ A' → state_of text A = state_of text A'.
Proof using HH.
  intros Ha Ha' Hp. apply deliver_converge; [by rewrite Hp| |apply Ha|apply Ha']. rewrite <-list_fmap_compose. by apply part_times.
Qed.

(** Messages a version has not observed do not change its text. *)
Lemma observed_none v l : Forall (fun a => observed_atom v a = false) l → observed_text v l = [].
Proof. unfold observed_text. induction 1 as [|a l Ha _ IH]; [done|]. cbn. by rewrite Ha, IH. Qed.
Lemma observed_text_deliver v s op : global_observed v (op_time op) = false → observed_text v (st_doc (deliver op s)) = observed_text v (st_doc s).
Proof.
  intros Hv. destruct op as [t w es|t w cs]; [|done]. cbn [op_time deliver st_doc] in *.
  assert (He : ∀ now o, observed_text v (emit t o now) = []).
  { intros now o. apply observed_none, Forall_forall. intros a [E _]%emit_stamp. unfold observed_atom. by rewrite E. }
  unfold perform. generalize es at 2. generalize 0 at 2. generalize 0.
  induction (st_doc s) as [|a l IH]; intros o pos pe; cbn [run]; [apply He|].
  destruct (if ltb t (at_insertion a) then _ else _) as [now later]. change (observed_text v (?x ++ ?y)) with (flat_map (fun a => if observed_atom v a then [at_char a] else []) (x ++ y)).
  rewrite flat_map_app. fold (observed_text v (emit t o now)). rewrite He. cbn [app flat_map].
  match goal with |- _ ++ flat_map _ ?r = _ => fold (observed_text v r) end. rewrite IH. unfold observed_text at 2. cbn [flat_map]. fold (observed_text v l). f_equal.
  unfold observed_atom. destruct (covered_at es pos); [|done]. by rewrite mark_insertion, mark_char.
Qed.
Lemma observed_text_deliver_all v l s : Forall (fun op => global_observed v (op_time op) = false) l →
  observed_text v (st_doc (deliver_all l s)) = observed_text v (st_doc s).
Proof.
  intros Hl. revert s. induction Hl as [|op l Hop _ IH]; intros s; [done|]. cbn. unfold deliver_all in IH. by rewrite IH, observed_text_deliver.
Qed.

Section split.
Context (P : Message → Prop) `{∀ x, Decision (P x)}.
Lemma filter_causal A : causal (to_op <$> A) → causal (to_op <$> filter P A).
Proof.
  unfold causal. induction A as [|x A IH]; [done|]. rewrite filter_cons, fmap_cons. intros Hc. inversion Hc as [|? ? Hf Hs]; subst. destruct (decide (P x)); [|by apply IH]. cbn. constructor; [|by apply IH].
  rewrite Forall_fmap, Forall_forall in *. intros y [_ Hy]%list_elem_of_filter. by apply Hf.
Qed.
End split.
Lemma split_causal P `{∀ x, Decision (P x)} A :
  causal (to_op <$> A) → (∀ x y, x ∈ A → y ∈ A → P x → ¬ P y → knows_of x y = false) →
  causal (to_op <$> (filter P A ++ filter (fun x => ¬ P x) A)).
Proof.
  intros Hc Hp. rewrite fmap_app.
  assert (Happ : ∀ l r, causal l → causal r → (∀ x y, x ∈ l → y ∈ r → knows x (op_time y) = false) → causal (l ++ r)).
  { unfold causal. induction l as [|x l IH]; intros r Hl Hr Hx; [done|]. inversion Hl as [|? ? Hf Hs]; subst. cbn. constructor; [|apply IH; [done|done|intros; apply Hx; [by right|done]]].
    apply Forall_app. split; [done|]. apply Forall_forall. intros y Hy. apply Hx; [by left|done]. }
  apply Happ; [by apply filter_causal|by apply filter_causal|]. intros x y (a & -> & Ha)%list_elem_of_fmap (b & -> & Hb)%list_elem_of_fmap.
  apply list_elem_of_filter in Ha as [??], Hb as [??]. by apply Hp.
Qed.

(** The text an edit changes is the same wherever what it knows of has been received. *)
Lemma past_text A m : part H A → m ∈ H → (∀ y, y ∈ H → knows_of m y = true → y ∈ A) →
  observed_text (version_of m) (st_doc (state_of text A)) = observed_text (version_of m) (st_doc (state_of text (past m H))).
Proof using HH.
  intros Ha Hm Hp. pose proof Ha as [Hs Hn Hc Hca]. pose proof (part_times A Ha) as Ht.
  set (later := filter (fun y => ¬ knows_of m y = true) A).
  assert (Hsplit : causal (to_op <$> (past m A ++ later))).
  { apply split_causal; [done|]. intros x y Hx Hy Hkx Hky. destruct (knows_of x y) eqn:E; [|done]. destruct Hky. apply knows_get.
    apply knows_get in E. pose proof (mo_past _ _ (message_valid m Hm) x (Hs x Hx) Hkx (replica_id (time y))). lia. }
  assert (E1 : state_of text A = state_of text (past m A ++ later)).
  { apply deliver_converge; [|by rewrite <-list_fmap_compose|done|done]. unfold past, later. by rewrite filter_app_complement. }
  assert (E2 : state_of text (past m A) = state_of text (past m H)).
  { apply deliver_converge.
    - apply fmap_Permutation. apply NoDup_Permutation; [by apply NoDup_filter|apply NoDup_filter; eapply NoDup_fmap_1; apply HH|].
      intros y. unfold past. rewrite !list_elem_of_filter. split; [intros [? ?]; split; [done|by apply Hs]|intros [? ?]; split; [done|by apply Hp]].
    - rewrite <-list_fmap_compose. eapply sublist_NoDup; [exact Ht|]. apply sublist_fmap, sublist_filter.
    - by apply filter_causal.
    - apply filter_causal, HH. }
  rewrite E1, <-E2. unfold state_of. rewrite fmap_app. unfold deliver_all. rewrite foldl_app. apply observed_text_deliver_all. rewrite Forall_fmap. apply Forall_forall.
  intros y [Hy _]%list_elem_of_filter. cbn. destruct (global_observed _ _) eqn:E; [|done]. destruct Hy. exact E.
Qed.
End valid.
Arguments part : clear implicits.
