(* ===== verification/Receive.v ===== *)
(** * Buffers that receive messages

    [follows]: a buffer has received the messages [A] of a history; its document and its undo
    map are those of the state after [A], whatever its fragments look like.  [apply_op] of a
    message that is ready takes the buffer to the state after one message more. *)

From stdpp Require Import sets gmap.
From S2P Require Import Prelude Ord Clock SumTree SumTreeFacts Cursor Locator Patch PatchFacts Subscription Bitmap Utf8 Point TextSummary Chunk ChunkFacts Rope RopeFacts KeyedTree KeyedFacts TreeMap TreeMapFacts UndoMap History HistoryFacts Fragments BufferEdit EditIndex EditFacts LocalEdit Buffer BufferFacts BufferUndo UndoFacts UndoSpec UndoCorrect RemoteEdit Doc Converge RemoteWalk RemoteApply Operations Messages.
Local Open Scope N_scope.

(** ** What messages need *)
Definition msg_bytes (m : Message) : N := match m with EditMessage _ _ cs => byte_len (new_chars cs) | UndoMessage _ _ _ => 0 end.
Definition msg_fragments (m : Message) : N := match m with EditMessage _ _ cs => 3 * N.of_nat (length cs) + 1 | UndoMessage _ _ _ => 0 end.
Definition msg_counts (m : Message) : N := match m with EditMessage _ _ _ => 0 | UndoMessage _ _ counts => N.of_nat (length counts) end.
Definition total (f : Message → N) (A : list Message) : N := foldr (fun m n => f m + n) 0 A.
Definition count (A : list Message) : N := N.of_nat (length A).

Lemma total_app f A B : total f (A ++ B) = total f A + total f B.
Proof. unfold total. induction A as [|m A IH]; [done|]. cbn [app foldr]. rewrite IH. lia. Qed.
Lemma total_snoc f A m : total f (A ++ [m]) = total f A + f m.
Proof. rewrite total_app. cbn. lia. Qed.
Lemma total_perm f A B : A ≡ₚ B → total f A = total f B.
Proof. unfold total. induction 1; cbn in *; lia. Qed.
Lemma total_part f A B : A ⊆+ B → total f A <= total f B.
Proof. intros (C & E)%submseteq_Permutation. rewrite (total_perm f B (A ++ C) E), total_app. lia. Qed.

(** The limits of the model: 2 GiB of text, 6^9 fragments, slices and undo counts, 32-bit
    clocks; [latest] is a time no message is later than. *)
Record capacity (text : list N) (H : list Message) (latest : N) : Prop := {
  cp_bytes : byte_len text + total msg_bytes H <= 2 ^ 31;
  cp_fragments : 1 + total msg_fragments H <= MAX_CHUNKS;
  cp_slices : (count H + 2) * (1 + total msg_fragments H) < 6 ^ 9;
  cp_counts : total msg_counts H < 6 ^ 9;
  cp_messages : count H + 1 < 6 ^ 9;
  cp_latest : Forall (fun m => value (time m) <= latest) H;
  cp_clock : 2 <= latest ∧ latest + count H + 1 <= u32_max
}.
(** Room for the clock to pass the messages that have not been received. *)
Definition clock_room (H A : list Message) (latest : N) (b : sbuffer) : Prop :=
  N.max (value (b_lamport_clock b)) latest + (count H - count A) + 1 <= u32_max.

(** ** The invariant *)
Record follows (text : list N) (A : list Message) (b : sbuffer) (sp : Spec) (ps : pieces) : Prop := {
  fo_wf : buffer_wf b sp ps;
  fo_doc : doc ps = st_doc (state_of text A);
  fo_undos : ∀ x, x ∈ tree_items (bs_undo_map (b_snapshot b)) ↔ x ∈ st_undos (state_of text A);
  fo_version : bs_version (b_snapshot b) = version_after text A;
  fo_clock : ∀ m, m ∈ A → value (time m) < value (b_lamport_clock b);
  fo_stamps : ∀ f e, f ∈ ps.*1 → e ∈ stamps f → (e = base_time ∧ text ≠ []) ∨ e ∈ time <$> A;
  fo_entries : ∀ x, x ∈ tree_items (bs_undo_map (b_snapshot b)) → edit_id (um_key x) ∈ time <$> A ∧ undo_id (um_key x) ∈ time <$> A;
  fo_bytes : byte_len (buffer_text b) + byte_len (rope_text (bs_deleted_text (b_snapshot b))) = byte_len text + total msg_bytes A;
  fo_fragments : N.of_nat (length ps) <= 1 + total msg_fragments A;
  fo_slices : N.of_nat (length (tree_items (bs_insertion_slices (b_snapshot b)))) <= count A * (1 + total msg_fragments A);
  fo_counts : N.of_nat (length (tree_items (bs_undo_map (b_snapshot b)))) <= total msg_counts A
}.

(** The text a buffer shows is that of the state. *)
Lemma shown_doc undos ps : shown undos ps = doc_text (undone_by undos) (doc ps).
Proof.
  unfold shown. induction ps as [|[f t] ps IH]; [done|]. cbn [flat_map fst snd]. rewrite doc_cons, doc_text_app, <-IH. f_equal. unfold piece_atoms. cbn [fst snd]. rewrite doc_text_atoms.
  unfold visible_by. assert (E : forallb (undone_by undos) (f_deletions f) = bool_decide (set_Forall (fun e => undone_by undos e = true) (list_to_set (C:=gset Lamport) (f_deletions f)))); [|by rewrite E].
  apply eq_true_iff_eq. rewrite bool_decide_eq_true, forallb_forall. unfold set_Forall. setoid_rewrite elem_of_list_to_set. by setoid_rewrite list_elem_of_In.
Qed.
Lemma doc_text_ext u u' l : (∀ e, u e = u' e) → doc_text u l = doc_text u' l.
Proof.
  intros He. unfold doc_text. induction l as [|a l IH]; [done|]. cbn [flat_map]. rewrite IH. f_equal.
  assert (atom_shown u a = atom_shown u' a) as ->; [|done]. unfold atom_shown. rewrite He. f_equal. apply bool_decide_ext. unfold set_Forall. by setoid_rewrite He.
Qed.
Lemma follows_text text A b sp ps : follows text A b sp ps → buffer_text b = state_text (state_of text A).
Proof.
  intros Hf. rewrite (text_shown b sp ps) by apply Hf. rewrite shown_doc, (fo_doc _ _ _ _ _ Hf). unfold state_text. apply doc_text_ext. intros e.
  unfold undone_by, count_of. apply (undone_in_ext _ _ e). intros x. rewrite elem_of_elements. apply Hf.
Qed.

Section receive.
Context `{US : !UnstableSort, USL : !UnstableSortLaws}.
Context (text : list N) (H : list Message) (latest : N) (HH : history_valid text H) (Hcap : capacity text H latest).

Lemma part_submseteq A : part H A → A ⊆+ H.
Proof. intros [Hs Hn _ _]. by apply NoDup_submseteq. Qed.
Lemma part_count A : part H A → count A <= count H.
Proof. intros Ha. unfold count. pose proof (submseteq_length _ _ (part_submseteq A Ha)). lia. Qed.

(** What an operation adds is within the limits. *)
Lemma part_total f A m : part H A → m ∈ H → m ∉ A → total f A + f m <= total f H.
Proof.
  intros Ha Hm Hn. rewrite <-total_snoc. apply total_part. apply NoDup_submseteq.
  - apply NoDup_app. split_and!; [apply Ha| |apply NoDup_singleton]. intros y Hy ->%list_elem_of_singleton. done.
  - intros y [Hy| ->%list_elem_of_singleton]%elem_of_app; [by apply (ap_sub _ _ Ha)|done].
Qed.
Lemma part_count_snoc A m : part H A → m ∈ H → m ∉ A → count A + 1 <= count H.
Proof.
  intros Ha Hm Hn. pose proof (part_total (fun _ => 1) A m Ha Hm Hn) as Ht.
  assert (E : ∀ B, total (fun _ => 1) B = count B); [|rewrite !E in Ht; lia]. unfold total, count. induction B as [|x B IH]; cbn [foldr length]; [done|]. rewrite IH. lia.
Qed.

(** ** Applying an operation *)
Definition clock_after (b : sbuffer) (t : Lamport) : N := N.max (value (b_lamport_clock b)) (value t) + 1.
Lemma observe_clock (b : sbuffer) t : clock_after b t <= u32_max → value (b_lamport_clock (observe_timestamp b t)) = clock_after b t.
Proof. intros Hc. cbn. by apply u32_wrap_small. Qed.

(** The clock stays later than all that has been received. *)
Lemma observe_later (b b' : sbuffer) A m : (∀ y, y ∈ A → value (time y) < value (b_lamport_clock b)) → b_lamport_clock b' = b_lamport_clock b →
  clock_after b (time m) <= u32_max → ∀ y, y ∈ A ++ [m] → value (time y) < value (b_lamport_clock (observe_timestamp b' (time m))).
Proof.
  intros Hl Ec Hc y Hy. rewrite observe_clock; unfold clock_after in *; rewrite Ec; [|done].
  apply elem_of_app in Hy as [Hy| ->%list_elem_of_singleton]; [specialize (Hl y Hy); lia|lia].
Qed.

(** A buffer in order, and the changes of an operation, seen from the new clock. *)
Lemma observe_wf b sp ps b' sp' ps' t :
  buffer_wf b sp ps → clock_after b t <= u32_max → b_history b' = b_history b → b_lamport_clock b' = b_lamport_clock b →
  content_wf (bs_fragments (b_snapshot b')) (bs_visible_text (b_snapshot b')) (bs_deleted_text (b_snapshot b')) ps' →
  index_ok ps'.*1 (bs_insertions (b_snapshot b')) → map_ok (bs_insertion_slices (b_snapshot b')) →
  CR ∉ buffer_text b' ++ rope_text (bs_deleted_text (b_snapshot b')) →
  undo_wf (clock_after b t) (bs_insertion_slices (b_snapshot b')) (bs_undo_map (b_snapshot b')) ps'.*1 →
  refines (b_subscriptions b') sp' → sp_len sp' = byte_len (buffer_text b') →
  buffer_wf (observe_timestamp b' t) sp' ps'.
Proof.
  intros Hb Hc Eh Ec Hco Hi Hs Hl Hu Hr Hn. assert (Ev : value (b_lamport_clock (observe_timestamp b' t)) = clock_after b t).
  { rewrite observe_clock; unfold clock_after in *; by rewrite Ec. }
  assert (Hle : value (b_lamport_clock b) <= value (b_lamport_clock (observe_timestamp b' t))) by (rewrite Ev; unfold clock_after; lia).
  split; try done.
  - by rewrite Ev.
  - cbn [b_history observe_timestamp]. rewrite Eh. destruct (bw_clock _ _ _ Hb) as [H1 H2]. split; [lia|]. intros Hd. specialize (H2 Hd). lia.
  - cbn [b_history observe_timestamp]. rewrite Eh. eapply history_ok_later; [exact Hle|apply Hb].
  - cbn [b_history observe_timestamp]. rewrite Eh. eapply edits_before_later; [exact Hle|apply Hb].
Qed.

Section message.
Context (A : list Message) (b : sbuffer) (sp : Spec) (ps : pieces) (Hf : follows text A b sp ps) (Ha : part H A) (Hck : clock_room H A latest b).
Context (m : Message) (Hm : m ∈ H) (Hnew : m ∉ A) (Hready : ∀ y, y ∈ H → knows_of m y = true → y ∈ A).

Lemma new_time t : t ∈ time <$> A → t ≠ time m.
Proof using HH Ha Hm Hnew.
  intros (y & -> & Hy)%list_elem_of_fmap E. apply Hnew. rewrite <-(same_time text H HH y m); [done|by apply (ap_sub _ _ Ha)|done|done].
Qed.
Lemma new_stamp f e : f ∈ ps.*1 → e ∈ stamps f → e ≠ time m.
Proof using HH Ha Hm Hnew Hf.
  intros Hin He. destruct (fo_stamps _ _ _ _ _ Hf f e Hin He) as [[-> _]|Ht]; [|by apply new_time]. pose proof (mo_time _ _ _ (message_valid text H HH m Hm)) as Hv.
  intros E. rewrite <-E in Hv. cbn in Hv. lia.
Qed.
Lemma message_clock : clock_after b (time m) <= u32_max ∧ clock_room H (A ++ [m]) latest (observe_timestamp b (time m)).
Proof using HH Ha Hm Hnew Hck Hcap.
  pose proof (cp_latest _ _ _ Hcap) as Hl. rewrite Forall_forall in Hl. specialize (Hl m Hm). pose proof (part_count_snoc A m Ha Hm Hnew) as Hc. unfold clock_room in *.
  assert (Hmax : clock_after b (time m) <= u32_max) by (unfold clock_after; lia). split; [done|]. rewrite observe_clock by done. unfold clock_after, count in *. rewrite length_app. cbn [length].
  lia.
Qed.
Lemma message_room : byte_len (buffer_text b) + byte_len (rope_text (bs_deleted_text (b_snapshot b))) + msg_bytes m <= 2 ^ 31 ∧
  N.of_nat (length ps) + msg_fragments m <= 1 + total msg_fragments H ∧
  N.of_nat (length (tree_items (bs_insertion_slices (b_snapshot b)))) + (1 + total msg_fragments H) <= count H * (1 + total msg_fragments H) ∧
  N.of_nat (length (tree_items (bs_undo_map (b_snapshot b)))) + msg_counts m <= total msg_counts H ∧ length ps = length (tree_items (bs_fragments (b_snapshot b))).
Proof using HH Ha Hm Hnew Hf Hcap.
  pose proof (part_total msg_bytes A m Ha Hm Hnew). pose proof (part_total msg_fragments A m Ha Hm Hnew). pose proof (part_total msg_counts A m Ha Hm Hnew).
  pose proof (part_count_snoc A m Ha Hm Hnew). pose proof (cp_bytes _ _ _ Hcap). rewrite (fo_bytes _ _ _ _ _ Hf). pose proof (fo_fragments _ _ _ _ _ Hf). pose proof (fo_slices _ _ _ _ _ Hf).
  pose proof (fo_counts _ _ _ _ _ Hf). split_and!; [lia|lia|nia|lia|]. rewrite (cw_items _ _ _ _ (bw_content _ _ _ (fo_wf _ _ _ _ _ Hf))). by rewrite length_fmap.
Qed.

Lemma state_of_snoc B y : state_of text (B ++ [y]) = deliver (to_op y) (state_of text B).
Proof. unfold state_of, deliver_all. by rewrite fmap_app, foldl_app. Qed.

Lemma edit_message_new v cs : m = EditMessage (time m) v cs → edit_new b ps v (time m).
Proof using HH Ha Hm Hnew Hf.
  intros E. pose proof (message_valid text H HH m Hm) as Hok. split.
  - apply Forall_forall. intros f Hin Ht. apply (new_stamp f (time m)); [done|unfold stamps; destruct Ht as [<-|?]; [by left|by right]|done].
  - unfold undone_by, count_of. rewrite of_edit_none; [done|]. apply Forall_forall. intros x Hx Ec. apply cmp_eq in Ec.
    destruct (fo_entries _ _ _ _ _ Hf x Hx) as [He _]. by apply (new_time _ He).
  - intros r. pose proof (mo_later _ _ _ Hok r) as Hl. rewrite E in Hl. exact Hl.
  - apply Hok.
Qed.
Lemma edit_message_reads v cs : m = EditMessage (time m) v cs → edit_reads ps v (changes_at 0 cs).*1 (str_of <$> (changes_at 0 cs).*2) cs.
Proof using HH Ha Hm Hnew Hf Hready.
  intros E. pose proof (mo_content _ _ _ (message_valid text H HH m Hm)) as Hok. rewrite E in Hok. destruct Hok as ((tail & Ht) & Hch & Hcr). split; try done.
  exists tail. rewrite <-doc_observed_text, (fo_doc _ _ _ _ _ Hf), <-Ht. rewrite <-E.
  pose proof (past_text text H HH A m Ha Hm Hready) as Hp. assert (Ev : version_of m = v) by (by rewrite E). by rewrite Ev in Hp.
Qed.

Lemma edit_message_room v cs : m = EditMessage (time m) v cs → remote_room (b_snapshot b) cs.
Proof using HH Ha Hm Hnew Hf Hcap.
  intros E. destruct message_room as (R1 & R2 & R3 & _ & El). rewrite E in R1, R2. cbn [msg_bytes msg_fragments] in R1, R2.
  pose proof (cp_fragments _ _ _ Hcap). pose proof (cp_slices _ _ _ Hcap). split; [split|..]; unfold remote_fragments_after; rewrite <-?El; try lia; nia.
Qed.
Lemma apply_edit_message v cs : m = EditMessage (time m) v cs →
  ok_with (apply_remote_edit (Sl:=list N) b v (changes_at 0 cs).*1 (str_of <$> (changes_at 0 cs).*2) (time m)) (fun b' =>
    ∃ sp' ps', follows text (A ++ [m]) (observe_timestamp b' (time m)) sp' ps' ∧ b_history b' = b_history b ∧ b_lamport_clock b' = b_lamport_clock b).
Proof using All.
  intros E. pose proof (edit_message_new v cs E) as Hn. pose proof (edit_message_reads v cs E) as Hr. destruct message_clock as [Hc _].
  destruct message_room as (R1 & R2 & R3 & _ & El). pose proof (fo_wf _ _ _ _ _ Hf) as Hb. rewrite E in R1, R2. cbn [msg_bytes msg_fragments] in R1, R2.
  pose proof (edit_message_room v cs E) as Hroom.
  eapply ok_with_mono; [apply (apply_remote_edit_spec (clock_after b (time m)) b sp ps v cs (time m)); [done|done|done|done|unfold clock_after; lia..]|].
  intros b' (ps' & sp' & [C1 C2 C3 C4 C5 C6 C7 C8 C9 C10 _ C12 C13 C14 C15 C16 C17]). exists sp', ps'. split; [|done]. split; cbn [b_snapshot observe_timestamp bs_undo_map bs_version bs_visible_text bs_deleted_text bs_insertion_slices].
  - by apply (observe_wf b sp ps).
  - rewrite state_of_snoc, E. cbn [to_op deliver st_doc]. rewrite C6, (fo_doc _ _ _ _ _ Hf). unfold perform. apply run_ext. intros x. apply atom_was_ext. intros e. apply undone_at_ext.
    intros y _. rewrite elem_of_elements. apply Hf.
  - intros x. rewrite state_of_snoc, E, C8. apply Hf.
  - by rewrite version_after_snoc, C17, (fo_version _ _ _ _ _ Hf).
  - apply (observe_later b); [apply Hf|by rewrite C16|done].
  - intros g e Hg He. rewrite Forall_forall in C7. rewrite fmap_app, elem_of_app. destruct (derived_stamps _ _ _ _ (C7 g Hg) He) as [[-> _]|(f & Hin & _ & Hef)]; [right; right; by left|].
    destruct (fo_stamps _ _ _ _ _ Hf f e Hin Hef); auto.
  - intros x. rewrite C8, fmap_app, !elem_of_app. intros Hx. destruct (fo_entries _ _ _ _ _ Hf x Hx). auto.
  - rewrite total_snoc, C12, (fo_bytes _ _ _ _ _ Hf), E. cbn [msg_bytes]. lia.
  - rewrite total_snoc, E. cbn [msg_fragments]. pose proof (fo_fragments _ _ _ _ _ Hf). lia.
  - rewrite total_snoc, E. cbn [msg_fragments]. pose proof (fo_fragments _ _ _ _ _ Hf). pose proof (fo_slices _ _ _ _ _ Hf). unfold count in *. rewrite length_app. cbn [length]. nia.
  - rewrite total_snoc, C8, E. cbn [msg_counts]. pose proof (fo_counts _ _ _ _ _ Hf). lia.
Qed.

(** Undoing does not change the document. *)
Lemma revisit_doc undos t ids (l : pieces) : doc (revisit undos t ids <$> l) = doc l.
Proof.
  induction l as [|[f c] l IH]; [done|]. rewrite fmap_cons, !doc_cons, IH. f_equal. unfold revisit, piece_atoms. cbn [fst snd]. by destruct (decide _).
Qed.
Lemma undo_message_asks v counts : m = UndoMessage (time m) v counts → undo_asks (mkUndoOperation (time m) v counts) (clock_after b (time m)).
Proof using HH Hm.
  intros E. pose proof (mo_content _ _ _ (message_valid text H HH m Hm)) as Hok. rewrite E in Hok. destruct Hok as [Hn Hc]. unfold clock_after.
  split; cbn [UndoMap.counts undo_timestamp]; [done|..]; try (eapply Forall_impl; [exact Hc|]; cbn); [|lia|lia].
  intros c (H1 & H2 & y & Hy & Et & Hk). assert (Hk' : knows_of m y = true) by (rewrite E; exact Hk). pose proof (knows_before text H HH m y Hm Hk') as Hlt. rewrite Et in Hlt. lia.
Qed.
Lemma undo_entries_elem x v counts : NoDup counts.*1 →
  x ∈ undo_entries (time m) counts ↔ undo_id (um_key x) = time m ∧ op_count (mkUndoOperation (time m) v counts) (edit_id (um_key x)) = Some (um_undo_count x).
Proof.
  intros Hn. rewrite (op_count_elem (mkUndoOperation (time m) v counts)) by done. unfold undo_entries. rewrite elem_of_list_to_set, list_elem_of_fmap. cbn [UndoMap.counts]. split.
  - intros ([e n] & -> & Hc). done.
  - intros [E Hc]. exists (edit_id (um_key x), um_undo_count x). split; [|done]. destruct x as [[e u] n]. cbn in *. by rewrite E.
Qed.

Lemma apply_undo_message v counts : m = UndoMessage (time m) v counts →
  ok_with (apply_undo (Sl:=list N) b (mkUndoOperation (time m) v counts)) (fun b' =>
    ∃ sp' ps', follows text (A ++ [m]) (observe_timestamp b' (time m)) sp' ps' ∧ b_history b' = b_history b ∧ b_lamport_clock b' = b_lamport_clock b).
Proof using All.
  intros E. pose proof (undo_message_asks v counts E) as Hasks. destruct message_clock as [Hc _]. destruct message_room as (R1 & R2 & _ & R4 & El).
  pose proof (fo_wf _ _ _ _ _ Hf) as Hb. rewrite E in R1, R2, R4. cbn [msg_bytes msg_fragments msg_counts] in R1, R2, R4. pose proof (cp_fragments _ _ _ Hcap). pose proof (cp_counts _ _ _ Hcap).
  eapply ok_with_mono; [apply (apply_undo_spec b sp ps (value (b_lamport_clock b)) (clock_after b (time m))); [apply Hb|apply Hb|apply Hb|apply Hb|apply Hb|apply Hb|unfold clock_after; lia| |done|]|].
  - apply Forall_forall. intros x Hx Eu. destruct (fo_entries _ _ _ _ _ Hf x Hx) as [_ He]. by apply (new_time _ He).
  - split; cbn [UndoMap.counts]; rewrite <-?El; lia.
  - intros b' (ps' & p & [C1 C2 C3 C4 _ C6 C7 _ _ C10 _ C12 C13 C14 C15 C16 (ids & Eps)]). exists (published sp p (byte_len (buffer_text b'))), ps'. split; [|done].
    assert (Hbytes : byte_len (buffer_text b') + byte_len (rope_text (bs_deleted_text (b_snapshot b'))) = byte_len (buffer_text b) + byte_len (rope_text (bs_deleted_text (b_snapshot b)))).
    { rewrite <-!byte_len_app. by apply byte_len_perm. }
    split; cbn [b_snapshot observe_timestamp bs_undo_map bs_version bs_visible_text bs_deleted_text bs_insertion_slices].
    + apply (observe_wf b sp ps); try done; [rewrite C3; apply Hb|]. rewrite C10. apply Hb.
    + by rewrite state_of_snoc, E, Eps, revisit_doc, (fo_doc _ _ _ _ _ Hf).
    + intros x. rewrite state_of_snoc, E, C16. cbn [to_op deliver st_undos]. rewrite elem_of_union, (fo_undos _ _ _ _ _ Hf x), (undo_entries_elem x v counts); [done|apply Hasks].
    + by rewrite version_after_snoc, C15, (fo_version _ _ _ _ _ Hf).
    + apply (observe_later b); [apply Hf|done|done].
    + intros f e Hin He. rewrite fmap_app, elem_of_app. rewrite Eps in Hin. apply list_elem_of_fmap in Hin as (q & -> & (q' & -> & Hq)%list_elem_of_fmap). rewrite revisit_stamps in He.
      destruct (fo_stamps _ _ _ _ _ Hf q'.1 e); [by apply list_elem_of_fmap_2|done|auto..].
    + intros x. rewrite C16, fmap_app, !elem_of_app. intros [Hx|[E1 E2]]; [destruct (fo_entries _ _ _ _ _ Hf x Hx); auto|]. split; [left|right; rewrite E1; by left].
      pose proof (mo_content _ _ _ (message_valid text H HH m Hm)) as Hok. rewrite E in Hok. destruct Hok as [Hn Hcs]. apply op_count_elem in E2; [|done]. rewrite Forall_forall in Hcs.
      destruct (Hcs _ E2) as (_ & _ & y & Hy & Ey & Hk). cbn in Ey. rewrite <-Ey. apply list_elem_of_fmap_2, Hready; [done|]. rewrite E. exact Hk.
    + rewrite total_snoc, Hbytes, (fo_bytes _ _ _ _ _ Hf), E. cbn [msg_bytes]. lia.
    + rewrite total_snoc, E, C7. cbn [msg_fragments]. pose proof (fo_fragments _ _ _ _ _ Hf). lia.
    + rewrite total_snoc, E, C3. cbn [msg_fragments]. pose proof (fo_slices _ _ _ _ _ Hf). unfold count in *. rewrite length_app. cbn [length]. nia.
    + rewrite total_snoc, E. cbn [msg_counts UndoMap.counts] in *. pose proof (fo_counts _ _ _ _ _ Hf). lia.
Qed.

(** ** [apply_op] *)
Lemma apply_new_op : ok_with (apply_op (Sl:=list N) b (to_operation m)) (fun b' =>
  (∃ sp' ps', follows text (A ++ [m]) b' sp' ps') ∧ b_history b' = b_history b ∧ clock_room H (A ++ [m]) latest b').
Proof using All.
  assert (Hobs : global_observed (bs_version (b_snapshot b)) (time m) = false).
  { rewrite (fo_version _ _ _ _ _ Hf). destruct (global_observed _ _) eqn:E; [|done]. destruct Hnew. by apply (observed_received text H HH A m Ha Hm). }
  destruct message_clock as [_ Hroom]. assert (Hcase : (∃ v cs, m = EditMessage (time m) v cs) ∨ ∃ v counts, m = UndoMessage (time m) v counts).
  { clear. destruct m as [t v cs|t v counts]; [left|right]; by eexists _, _. }
  assert (Hdone : ∀ b', (∃ sp' ps', follows text (A ++ [m]) (observe_timestamp b' (time m)) sp' ps' ∧ b_history b' = b_history b ∧ b_lamport_clock b' = b_lamport_clock b) →
    (∃ sp' ps', follows text (A ++ [m]) (observe_timestamp b' (time m)) sp' ps') ∧ b_history (observe_timestamp b' (time m)) = b_history b ∧ clock_room H (A ++ [m]) latest (observe_timestamp b' (time m))).
  { intros b' (sp' & ps' & Hfo & Eh & Ec). split_and!; [by exists sp', ps'|done|]. unfold clock_room in *. cbn in *. by rewrite Ec. }
  destruct Hcase as [(v & cs & E)|(v & counts & E)].
  - assert (to_operation m = OpEdit (mkEditOperation (time m) v (changes_at 0 cs).*1 (str_of <$> (changes_at 0 cs).*2))) as -> by (by rewrite E).
    cbn [apply_op eo_timestamp eo_version eo_ranges eo_new_text]. rewrite Hobs. cbn [negb]. ok_bind (apply_edit_message v cs E). exact Hdone.
  - assert (to_operation m = OpUndo (mkUndoOperation (time m) v counts)) as -> by (by rewrite E).
    cbn [apply_op undo_timestamp]. rewrite Hobs. cbn [negb]. ok_bind (apply_undo_message v counts E). exact Hdone.
Qed.
End message.

(** An operation that has been received before changes nothing. *)
Lemma apply_old_op A b sp ps m : follows text A b sp ps → part H A → m ∈ A → apply_op (Sl:=list N) b (to_operation m) = Ok b.
Proof using HH.
  intros Hf Ha Hin. assert (Hobs : global_observed (bs_version (b_snapshot b)) (time m) = true).
  { rewrite (fo_version _ _ _ _ _ Hf). apply (observed_received text H HH A m Ha); [by apply (ap_sub _ _ Ha)|done]. }
  destruct m; cbn in *; by rewrite Hobs.
Qed.
End receive.
