(* ===== verification/LocalOps.v ===== *)
(** * Operations of the replica itself

    The operations that [edit], [undo] and [redo] return say to other replicas what was done
    here: delivering them to the document from before gives the document from after.  And they
    are truthful about what the replica had seen, so a valid history stays valid when they are
    added to it. *)

From stdpp Require Import sets gmap.
From S2P Require Import Prelude Ord Clock SumTree SumTreeFacts Cursor Locator Patch PatchFacts Subscription Bitmap Utf8 Point TextSummary Chunk ChunkFacts Rope RopeFacts KeyedTree KeyedFacts TreeMap TreeMapFacts UndoMap History HistoryFacts Fragments BufferEdit EditIndex Doc EditFacts LocalEdit Buffer BufferFacts BufferUndo UndoFacts UndoSpec UndoCorrect RemoteEdit Converge RemoteWalk RemoteApply Operations Messages Receive.
Local Open Scope N_scope.

(** ** Edits of a document that has been seen as a whole *)
Definition dc_change (c : DocChange) : Change := mkChange (at_char <$> dc_keep c) (at_char <$> dc_delete c) (dc_text c).

Lemma doc_before_chars ds : at_char <$> doc_before ds = before_changes (dc_change <$> ds).
Proof.
  induction ds as [|[k d t] ds IH]; [done|]. change (doc_before (_ :: ds)) with ((k ++ d) ++ doc_before ds).
  change (before_changes _) with (((at_char <$> k) ++ (at_char <$> d)) ++ before_changes (dc_change <$> ds)). by rewrite !fmap_app, IH.
Qed.
Lemma doc_ranges_changes o ds : doc_ranges o ds = (changes_at o (dc_change <$> ds)).*1.
Proof. revert o. induction ds as [|[k d t] ds IH]; intros o; [done|]. cbn. by rewrite IH. Qed.
Lemma doc_texts_changes o ds : str_of ∘ dc_text <$> ds = str_of <$> (changes_at o (dc_change <$> ds)).*2.
Proof. revert o. induction ds as [|[k d t] ds IH]; intros o; [done|]. cbn. f_equal. apply IH. Qed.

Section seen.
Context (v : Global) (ts : Lamport).
(** The version has observed the character, and the edit is later. *)
Definition seen (a : Atom) : Prop := observed_atom v a = true ∧ ltb ts (at_insertion a) = false.

Lemma seen_text l : Forall seen l → observed_text v l = at_char <$> l.
Proof. unfold observed_text. induction 1 as [|a l [Ha _] _ IH]; [done|]. cbn. by rewrite Ha, IH. Qed.
Lemma pass_seen k l : Forall seen k → pass v (doc_bytes k) (k ++ l) = (k, l).
Proof.
  unfold doc_bytes. induction 1 as [|a k [Ha _] _ IH]; [apply pass_0|]. cbn [app pass fmap list_fmap]. rewrite byte_len_cons.
  assert (Hpos : 0 < len_utf8 (at_char a)). { pose proof (nonempty_bytes [at_char a] ltac:(done)) as Hp. rewrite byte_len_cons in Hp. change (byte_len []) with 0 in Hp. lia. }
  rewrite (proj2 (N.eqb_neq _ 0)) by lia. rewrite Ha. replace (len_utf8 (at_char a) + byte_len (at_char <$> k) - len_utf8 (at_char a)) with (byte_len (at_char <$> k)) by lia. by rewrite IH.
Qed.
Lemma skip_seen l : Forall seen l → skip ts l = ([], l).
Proof. destruct 1 as [|a l [_ Ha] _]; [done|]. cbn. by rewrite Ha. Qed.
Lemma mark_seen_all was was' l : Forall seen l → (∀ a, a ∈ l → was a = was' a) → mark v was ts <$> l = strike was' ts <$> l.
Proof.
  intros Hl Hw. apply list_fmap_ext. intros _ a Ha%list_elem_of_lookup_2. rewrite Forall_forall in Hl. unfold mark, strike. destruct (Hl a Ha) as [-> _]. by rewrite Hw.
Qed.

Lemma integrate_seen was was' ds rest o pos :
  Forall seen (doc_before ds ++ rest) → (∀ a, a ∈ doc_before ds → was a = was' a) →
  integrate v was ts o pos (changes_at pos (dc_change <$> ds)) (doc_before ds ++ rest) = doc_after was' ts o ds ++ rest.
Proof.
  revert o pos. induction ds as [|[k d t] ds IH]; intros o pos Hs Hw; [done|].
  cbn [doc_before flat_map dc_keep dc_delete fmap list_fmap dc_change dc_text changes_at ch_keep ch_delete ch_insert integrate r_start r_end doc_after] in *. fold (doc_before ds) in *.
  rewrite <-!app_assoc in *. apply Forall_app in Hs as [Hk Hs]. pose proof Hs as Hs0. apply Forall_app in Hs as [Hd Hs].
  fold (doc_bytes k) (doc_bytes d). replace (pos + doc_bytes k - pos) with (doc_bytes k) by lia. replace (pos + doc_bytes k + doc_bytes d - (pos + doc_bytes k)) with (doc_bytes d) by lia.
  rewrite (pass_seen k) by done. rewrite skip_seen by done. rewrite (pass_seen d) by done. rewrite (mark_seen_all was was' d) by (done || (intros; apply Hw; set_solver)).
  cbn [app]. rewrite IH by (done || (intros; apply Hw; set_solver)). by rewrite <-?app_assoc.
Qed.
Lemma perform_seen was was' ds rest :
  Forall seen (doc_before ds ++ rest) → (∀ a, a ∈ doc_before ds → was a = was' a) →
  perform v was ts (changes_at 0 (dc_change <$> ds)) (doc_before ds ++ rest) = doc_after was' ts 0 ds ++ rest.
Proof.
  intros Hs Hw. unfold perform. rewrite <-(integrate_run v was ts _ (dc_change <$> ds) 0 0 _ (at_char <$> rest)); [by apply integrate_seen| | |done].
  - by rewrite seen_text, fmap_app, doc_before_chars.
  - eapply Forall_impl; [exact Hs|]. by intros a [_ ?].
Qed.
End seen.

(** ** Adding a message to a history *)
(** Whoever has received [A], all of its own messages among them, sends [m]. *)
Record sends (text : list N) (H A : list Message) (m : Message) : Prop := {
  sn_part : part H A;
  sn_version : version_of m = version_after text A;
  sn_own : ∀ y, y ∈ H → replica y = replica m → y ∈ A;
  sn_later : ∀ y, y ∈ A → value (time y) < value (time m);
  sn_time : 1 < value (time m)
}.

Section add.
Context (text : list N) (H : list Message) (HH : history_valid text H) (A : list Message) (m : Message) (Hs : sends text H A m).

Lemma sent_knows y : y ∈ H → knows_of m y = true ↔ y ∈ A.
Proof using HH Hs. intros Hy. rewrite <-(observed_received text H HH A y (sn_part _ _ _ _ Hs) Hy). unfold knows. by rewrite <-(sn_version _ _ _ _ Hs). Qed.
Lemma sent_self : knows_of m m = false.
Proof using HH Hs.
  destruct (knows_of m m) eqn:E; [|done]. apply knows_get in E. rewrite (sn_version _ _ _ _ Hs) in E. pose proof (sn_time _ _ _ _ Hs). pose proof (base_version_get text (replica_id (time m))).
  destruct (version_after_get text H HH A (replica_id (time m))) as (_ & _ & [Eb|(y & Hy & _ & Ey)]); [lia|]. pose proof (sn_later _ _ _ _ Hs y Hy). lia.
Qed.
Lemma sent_unknown y : y ∈ H → knows_of y m = false.
Proof using HH Hs.
  intros Hy. destruct (knows_of y m) eqn:E; [|done]. apply knows_get in E. pose proof (sn_time _ _ _ _ Hs). pose proof (base_version_get text (replica_id (time m))).
  destruct (mo_version _ _ _ (message_valid text H HH y Hy) (replica_id (time m))) as [Hb|(z & Hz & Er & Ez)]; [lia|].
  pose proof (sn_later _ _ _ _ Hs z (sn_own _ _ _ _ Hs z Hz Er)). lia.
Qed.
Lemma sent_fresh y : y ∈ H → time y ≠ time m.
Proof using Hs.
  intros Hy E. assert (Er : replica y = replica m) by (unfold replica; by rewrite E). pose proof (sn_later _ _ _ _ Hs y (sn_own _ _ _ _ Hs y Hy Er)). rewrite E in *. lia.
Qed.
Lemma sent_new : m ∉ H.
Proof using Hs. intros Hm. by apply (sent_fresh m Hm). Qed.

Lemma past_same y : y = m ∨ y ∈ H → past y (H ++ [m]) = past y H.
Proof using HH Hs.
  intros Hy. unfold past. rewrite filter_app. cbn. rewrite decide_False, app_nil_r; [done|]. destruct Hy as [->|Hy]; [by rewrite sent_self|by rewrite sent_unknown].
Qed.
(** What the message knows of is what its sender has received. *)
Lemma past_sent : state_of text (past m (H ++ [m])) = state_of text A.
Proof using HH Hs.
  rewrite past_same by (by left). pose proof (sn_part _ _ _ _ Hs) as Ha.
  assert (Hel : ∀ y, y ∈ past m H ↔ y ∈ A).
  { intros y. unfold past. rewrite list_elem_of_filter. split; [intros [Hk Hy]; by apply sent_knows|]. intros Hy. pose proof (ap_sub _ _ Ha y Hy). split; [by apply sent_knows|done]. }
  assert (Hn : NoDup (past m H)) by (apply NoDup_filter; eapply NoDup_fmap_1; apply HH).
  apply (state_of_perm text H HH); [|done|by apply NoDup_Permutation; [|apply Ha|]].
  split; [by intros y [_ ?]%list_elem_of_filter|done| |apply filter_causal, HH]. intros x y Hx%Hel Hy Hk. apply Hel. by apply (ap_closed _ _ Ha x y).
Qed.

Lemma still_ok y : y ∈ H → message_ok text (H ++ [m]) y.
Proof using HH Hs.
  intros Hy. destruct (message_valid text H HH y Hy) as [M1 M2 M3 M4 M5 M6 M7]. split; try done.
  - intros r. destruct (M4 r) as [?|(z & Hz & ?)]; [by left|right]. exists z. split; [set_solver|done].
  - intros z [Hz| ->%list_elem_of_singleton]%elem_of_app Hk; [by apply M5|]. by rewrite sent_unknown in Hk.
  - intros z [Hz| ->%list_elem_of_singleton]%elem_of_app Hr Hv; [by apply M6|]. pose proof (sn_later _ _ _ _ Hs y (sn_own _ _ _ _ Hs y Hy ltac:(done))). lia.
  - destruct y as [t v cs|t v counts]; cbn [content_ok] in *; [by rewrite past_same by (by right)|]. destruct M7 as [? Hc]. split; [done|].
    eapply Forall_impl; [exact Hc|]. cbn. intros c (? & ? & z & Hz & ?). split_and!; [done|done|]. exists z. split; [set_solver|done].
Qed.
Lemma history_add : content_ok text (H ++ [m]) m → history_valid text (H ++ [m]).
Proof using HH Hs.
  intros Hc. pose proof (sn_part _ _ _ _ Hs) as Ha. split.
  - rewrite fmap_app. apply NoDup_app. split_and!; [apply HH| |apply NoDup_singleton]. intros t (y & -> & Hy)%list_elem_of_fmap E%list_elem_of_singleton. by apply (sent_fresh y).
  - rewrite fmap_app. assert (Hx : Forall (fun x => knows x (time m) = false) (to_op <$> H)) by (rewrite Forall_fmap; apply Forall_forall; intros y Hy; by apply sent_unknown).
    pose proof (hv_causal _ _ HH) as Hca. unfold causal in *. clear -Hx Hca. induction Hca as [|x l Hf Hl IH]; cbn; [repeat constructor|]. apply Forall_cons in Hx as [Hx1 Hx2]. constructor; [|by apply IH].
    apply Forall_app. split; [done|]. by constructor.
  - apply Forall_app. split; [apply Forall_forall, still_ok|]. constructor; [|done]. split; [apply Hs|..].
    + intros r. rewrite (sn_version _ _ _ _ Hs). pose proof (sn_time _ _ _ _ Hs). pose proof (base_version_get text r).
      destruct (version_after_get text H HH A r) as (_ & _ & [Eb|(y & Hy & _ & Ey)]); [lia|]. pose proof (sn_later _ _ _ _ Hs y Hy). lia.
    + rewrite (sn_version _ _ _ _ Hs). apply version_after_canonical.
    + intros r. rewrite (sn_version _ _ _ _ Hs). destruct (version_after_get text H HH A r) as (_ & _ & [Eb|(y & Hy & Er & Ey)]); [left; lia|right]. exists y. split; [|done].
      apply elem_of_app. left. by apply (ap_sub _ _ Ha).
    + intros y [Hy| ->%list_elem_of_singleton]%elem_of_app Hk r; [|by rewrite sent_self in Hk]. rewrite (sn_version _ _ _ _ Hs). apply (sent_knows y Hy) in Hk.
      destruct (version_after_get text H HH A r) as (V1 & V2 & _). destruct (mo_version _ _ _ (message_valid text H HH y Hy) r) as [Hb|(z & Hz & Er & Ez)]; [lia|].
      rewrite <-Ez. apply V1; [|done]. apply (ap_closed _ _ Ha y z Hk Hz). apply knows_get. unfold replica in Er. rewrite Er. lia.
    + intros y [Hy| ->%list_elem_of_singleton]%elem_of_app Hr Hv; [|lia]. apply (sent_knows y Hy). by apply (sn_own _ _ _ _ Hs).
    + done.
Qed.
Lemma part_add B : part H B → part (H ++ [m]) B.
Proof using HH Hs.
  intros [H1 H2 H3 H4]. split; [intros y Hy; apply elem_of_app; left; by apply H1|done| |done].
  intros x y Hx [Hy| ->%list_elem_of_singleton]%elem_of_app Hk; [by apply (H3 x y)|]. by rewrite sent_unknown in Hk by (by apply H1).
Qed.
End add.

(** ** What a replica has seen *)
Lemma max_count_all p l : Forall (fun x => p x = true) l → max_count p l = max_count (fun _ => true) l.
Proof. unfold max_count. intros Hl. generalize 0. intros n. revert n. induction Hl as [|x l Hx _ IH]; intros n; [done|]. cbn. by rewrite Hx, IH. Qed.
Lemma ltb_value (t e : Lamport) : value e < value t → ltb t e = false.
Proof. intros Hv. apply ltb_ge. unfold cmp, lamport_cmp. by rewrite (proj2 (N.compare_gt_iff _ _)) by lia. Qed.

Section local.
Context (text : list N) (H : list Message) (HH : history_valid text H).
Context (A : list Message) (b : sbuffer) (sp : Spec) (ps : pieces) (Hf : follows text A b sp ps) (Ha : part H A).
Context (Hown : ∀ y, y ∈ H → replica y = replica_id (b_lamport_clock b) → y ∈ A).
Abbreviation v := (version_after text A).
Abbreviation undos := (bs_undo_map (b_snapshot b)).

Lemma received_observed t : t ∈ time <$> A → global_observed v t = true.
Proof using HH Ha. intros (y & -> & Hy)%list_elem_of_fmap. apply (observed_received text H HH A y Ha); [by apply (ap_sub _ _ Ha)|done]. Qed.
Lemma stamp_observed f e : f ∈ ps.*1 → e ∈ stamps f → global_observed v e = true.
Proof using HH Ha Hf.
  intros Hin He. destruct (fo_stamps _ _ _ _ _ Hf f e Hin He) as [[-> Ht]|Ht]; [|by apply received_observed]. apply observed_get.
  destruct (version_after_get text H HH A (replica_id base_time)) as (_ & Hb & _). etrans; [|exact Hb]. unfold base_version. destruct text; [done|]. rewrite global_get_observe, decide_True by done. lia.
Qed.
Lemma doc_seen ts : value (b_lamport_clock b) <= value ts → Forall (seen v ts) (doc ps).
Proof using HH Ha Hf.
  intros Hts. apply Forall_forall. intros a (f & Hin & E & _)%doc_stamps. pose proof (uw_times _ _ _ _ (bw_undo _ _ _ (fo_wf _ _ _ _ _ Hf))) as Ht. rewrite Forall_forall in Ht.
  destruct (Ht f Hin) as [_ Ho]. apply Forall_cons in Ho as [Ho _]. split; unfold observed_atom; rewrite E; [apply (stamp_observed f); [done|by left]|apply ltb_value; lia].
Qed.
(** At its own version a replica sees what it shows. *)
Lemma undone_at_own e : undone_at v (tree_items undos) e = undone_by undos e.
Proof using HH Ha Hf.
  unfold undone_at, undone_by, count_of. rewrite max_count_all; [done|]. apply Forall_forall. intros x [Hx _]%of_edit_elem.
  apply received_observed. apply (fo_entries _ _ _ _ _ Hf x Hx).
Qed.
Lemma was_own a : a ∈ doc ps → atom_was v (tree_items undos) a = atom_shown (undone_by undos) a.
Proof using HH Ha Hf.
  intros (f & Hin & _ & Ed)%doc_stamps. unfold atom_was, atom_shown. rewrite undone_at_own. f_equal. apply bool_decide_ext. rewrite Ed. unfold set_Forall. setoid_rewrite elem_of_list_to_set.
  split; intros Hall e He; specialize (Hall e He); rewrite undone_at_own in *; rewrite (stamp_observed f e) in * by (done || by right); done.
Qed.

(** ** [edit] *)
(** The message an operation is, and what its sender has received with it. *)
Record sent (op : Operation) (b' : sbuffer) (m : Message) : Prop := {
  se_operation : op = to_operation m;
  se_sends : sends text H A m;
  se_content : content_ok text (H ++ [m]) m;
  se_follows : ∃ sp' ps', follows text (A ++ [m]) b' sp' ps';
  se_replica : replica_id (b_lamport_clock b') = replica_id (b_lamport_clock b) ∧ replica m = replica_id (b_lamport_clock b);
  se_operations : ∀ x, x ∈ tree_items (operations (b_history b')) → me_key x = time m ∨ x ∈ tree_items (operations (b_history b));
  se_edits : ∀ t, t ∈ stack_edits (all_entries (b_history b')) → t = time m ∨ t ∈ stack_edits (all_entries (b_history b))
}.

Lemma inserted_texts cs ds : dc_text <$> ds = normalize_arc ∘ ch_insert <$> cs → new_chars (dc_change <$> ds) = inserted cs ∧ length ds = length cs.
Proof.
  intros E. split; [|by apply (f_equal length) in E; rewrite !length_fmap in E]. unfold new_chars, inserted. revert cs E.
  induction ds as [|d ds IH]; intros [|c cs] E; [done..|]. injection E as E1 E2. cbn. by rewrite E1, (IH cs).
Qed.

Lemma edit_sent cs tail b' op ps' p :
  Forall (fun c => Forall char_ok (ch_insert c)) cs →
  edit_done b sp ps cs tail b' (eo_timestamp op) ps' p → edit_says b ps cs b' op ps' → ∃ m, sent (OpEdit op) b' m.
Proof using All.
  intros Hch [D1 D2 D3 D4 D5 _ D7 [D8 D9] D10 _ _] [Y1 [(ds & rest & Eo & En & Er & Ex & Et)] Y3 [Y4 Y5] Y6 Y7 Y8 Y9]. set (ts := eo_timestamp op) in *.
  destruct (inserted_texts cs ds Et) as [Ei El]. set (m := EditMessage ts v (dc_change <$> ds)).
  assert (Hseen : Forall (seen v ts) (doc_before ds ++ rest)) by (rewrite <-Eo; by apply doc_seen).
  assert (Hs : sends text H A m).
  { split; [done|done|intros y Hy Hr; apply Hown; [done|by rewrite Hr]| |cbn; lia]. intros y Hy. pose proof (fo_clock _ _ _ _ _ Hf y Hy). cbn. lia. }
  exists m. split; [|done| | |done|done|done].
  - cbn. destruct op as [t w rs xs]. cbn in *. rewrite Y1, (fo_version _ _ _ _ _ Hf), Er, Ex, doc_ranges_changes, (doc_texts_changes 0). done.
  - split_and!.
    + exists (at_char <$> rest). rewrite (past_sent text H HH A m Hs), <-(fo_doc _ _ _ _ _ Hf), Eo, (seen_text v ts) by done. by rewrite fmap_app, doc_before_chars.
    + rewrite Forall_fmap. apply (Forall_fmap dc_text (Forall char_ok)). rewrite Et, Forall_fmap. eapply Forall_impl; [exact Hch|]. intros c. apply normalize_ok.
    + rewrite Ei. apply inserted_no_cr.
  - exists (published sp p (byte_len (buffer_text b'))), ps'. split.
    + done.
    + rewrite state_of_snoc. cbn [m to_op deliver st_doc]. rewrite En, <-(fo_doc _ _ _ _ _ Hf), Eo.
      rewrite <-(perform_seen v ts (atom_was v (tree_items undos)) (atom_shown (undone_by undos)) ds rest Hseen).
      * unfold perform. apply run_ext. intros x. apply atom_was_ext. intros e. apply undone_at_ext. intros y _. rewrite elem_of_elements. apply Hf.
      * intros a Hin. apply was_own. rewrite Eo. set_solver.
    + intros x. rewrite D7, state_of_snoc. apply Hf.
    + by rewrite D10, version_after_snoc, (fo_version _ _ _ _ _ Hf).
    + rewrite Y4. intros y [Hy| ->%list_elem_of_singleton]%elem_of_app; [pose proof (fo_clock _ _ _ _ _ Hf y Hy); lia|cbn; lia].
    + intros g e Hg He. rewrite Forall_forall in D5. rewrite fmap_app, elem_of_app. destruct (derived_stamps _ _ _ _ (origin_derived _ _ _ (D5 g Hg)) He) as [[-> _]|(f & Hin & _ & Hef)]; [right; right; by left|].
      destruct (fo_stamps _ _ _ _ _ Hf f e Hin Hef); auto.
    + intros x. rewrite D7, fmap_app, !elem_of_app. intros Hx. destruct (fo_entries _ _ _ _ _ Hf x Hx). auto.
    + apply byte_len_perm in D3. rewrite !byte_len_app in D3. rewrite total_snoc, D3. cbn [m msg_bytes]. rewrite Ei. pose proof (fo_bytes _ _ _ _ _ Hf). lia.
    + rewrite total_snoc. cbn [m msg_fragments]. rewrite length_fmap, El. pose proof (fo_fragments _ _ _ _ _ Hf). lia.
    + rewrite total_snoc. cbn [m msg_fragments]. rewrite length_fmap, El. pose proof (fo_fragments _ _ _ _ _ Hf). pose proof (fo_slices _ _ _ _ _ Hf). unfold count in *. rewrite length_app. cbn [length]. nia.
    + rewrite total_snoc, D7. cbn [m msg_counts]. pose proof (fo_counts _ _ _ _ _ Hf). lia.
Qed.

(** ** [undo] and [redo] *)
Lemma toggle_sent ids b' cs ps' p :
  toggle_says b ps ids b' cs ps' → toggled b sp ps ids b' ps' p → same_stacks b b' → (∀ e, e ∈ ids → e ∈ time <$> A) → 1 < value (b_lamport_clock b) →
  ∃ m, sent (OpUndo (mkUndoOperation (b_lamport_clock b) (bs_version (b_snapshot b)) cs)) b' m.
Proof using All.
  intros [Y1 Y2 Y3 Y4 (ids' & Y5) Y6 Y7 Y8] [T1 _ _ _ T5 _ T7 T8 _] (S1 & S2 & _) Hids Hstart. set (ts := b_lamport_clock b) in *. set (m := UndoMessage ts v cs).
  assert (Hs : sends text H A m).
  { split; [done|done|intros y Hy Hr; by apply Hown| |done]. intros y Hy. exact (fo_clock _ _ _ _ _ Hf y Hy). }
  exists m. split; [|done| | |done|done|].
  - by rewrite (fo_version _ _ _ _ _ Hf).
  - split; [done|]. apply Forall_forall. intros [e n] Hin. destruct (Y2 e n Hin) as [He Hle]. cbn. pose proof (Hids e He) as (y & -> & Hy)%list_elem_of_fmap.
    pose proof (ap_sub _ _ Ha y Hy) as HyH. split_and!; [apply (message_valid text H HH y HyH)|done|]. exists y. split_and!; [set_solver|done|]. by apply (sent_knows text H HH A m Hs y HyH).
  - exists (published sp p (byte_len (buffer_text b'))), ps'.
    assert (Hbytes : byte_len (buffer_text b') + byte_len (rope_text (bs_deleted_text (b_snapshot b'))) = byte_len (buffer_text b) + byte_len (rope_text (bs_deleted_text (b_snapshot b)))).
    { rewrite <-!byte_len_app. by apply byte_len_perm. }
    split; [done|..].
    + rewrite state_of_snoc. cbn [m to_op deliver st_doc]. by rewrite Y5, revisit_doc, (fo_doc _ _ _ _ _ Hf).
    + intros x. rewrite state_of_snoc, Y3. cbn [m to_op deliver st_undos]. change ts with (time m). rewrite elem_of_union, (fo_undos _ _ _ _ _ Hf x), (undo_entries_elem m x v cs Y1).
      by rewrite (op_count_elem (mkUndoOperation (time m) v cs)).
    + by rewrite version_after_snoc, T8, (fo_version _ _ _ _ _ Hf).
    + rewrite T7. unfold m, ts. intros y [Hy| ->%list_elem_of_singleton]%elem_of_app; [pose proof (fo_clock _ _ _ _ _ Hf y Hy); lia|cbn; lia].
    + intros f e Hin He. rewrite fmap_app, elem_of_app. rewrite Y5 in Hin. apply list_elem_of_fmap in Hin as (q & -> & (q' & -> & Hq)%list_elem_of_fmap). rewrite revisit_stamps in He.
      destruct (fo_stamps _ _ _ _ _ Hf q'.1 e); [by apply list_elem_of_fmap_2|done|auto..].
    + intros x. rewrite Y3, fmap_app, !elem_of_app. intros [Hx|[E1 E2]]; [destruct (fo_entries _ _ _ _ _ Hf x Hx); auto|]. split; [left|right; rewrite E1; by left].
      apply Hids. by apply (Y2 _ _ E2).
    + rewrite total_snoc, Hbytes, (fo_bytes _ _ _ _ _ Hf). cbn [m msg_bytes]. lia.
    + rewrite total_snoc, Y5, length_fmap. cbn [m msg_fragments]. pose proof (fo_fragments _ _ _ _ _ Hf). lia.
    + rewrite total_snoc, Y6. cbn [m msg_fragments]. pose proof (fo_slices _ _ _ _ _ Hf). unfold count in *. rewrite length_app. cbn [length]. nia.
    + rewrite total_snoc. cbn [m msg_counts]. pose proof (fo_counts _ _ _ _ _ Hf). lia.
  - intros t. unfold all_entries. rewrite S1, S2. by right.
Qed.
End local.
