(* ===== verification/Delivery.v ===== *)
(** * Delivering operations

    Whatever the batches in which a buffer receives the operations of a valid history, in
    whatever order and how often, it applies every operation once all that operation knows of
    has been received ([apply_ops_applies]), and buffers that have received the same
    operations show the same text. *)

From stdpp Require Import sets gmap.
From S2P Require Import Prelude Ord Clock SumTree SumTreeFacts SeekSpec Cursor CursorFacts SeekFacts Locator Patch PatchFacts Subscription Bitmap Utf8 Point TextSummary Chunk ChunkFacts Rope RopeFacts KeyedTree KeyedFacts TreeMap TreeMapFacts UndoMap History HistoryFacts Fragments BufferEdit EditIndex EditFacts LocalEdit Buffer BufferFacts BufferUndo UndoFacts UndoSpec UndoCorrect RemoteEdit Doc Converge RemoteWalk RemoteApply Operations Messages Receive.
Local Open Scope N_scope.

Abbreviation sreplica := (Replica (list N) (list N)).
Abbreviation queued rp := (tree_items (rp_deferred_ops rp)).

Lemma to_operation_version m : operation_version (to_operation m) = version_of m.
Proof. by destruct m. Qed.
Lemma to_operation_replica m : operation_replica_id (to_operation m) = replica m.
Proof. unfold operation_replica_id. by rewrite to_operation_time. Qed.

(** The operations of a list all come from messages. *)
Lemma from_messages (H : list Message) (ops : list Operation) :
  (∀ op, op ∈ ops → ∃ m, m ∈ H ∧ op = to_operation m) → ∃ ms, ops = to_operation <$> ms ∧ ∀ m, m ∈ ms → m ∈ H.
Proof.
  induction ops as [|op ops IH]; intros Hops; [exists []; split; [done|by intros m ?%not_elem_of_nil]|].
  destruct (Hops op) as (m & Hm & ->); [by left|]. destruct IH as (ms & -> & Hms); [intros; apply Hops; by right|]. exists (m :: ms). split; [done|].
  intros y [->|Hy]%elem_of_cons; [done|by apply Hms].
Qed.

Section delivery.
Context `{US : !UnstableSort, USL : !UnstableSortLaws}.
Context (text : list N) (H : list Message) (latest : N) (HH : history_valid text H) (Hcap : capacity text H latest).

Lemma to_operation_inj m y : m ∈ H → y ∈ H → operation_timestamp (to_operation m) = operation_timestamp (to_operation y) → m = y.
Proof using HH. rewrite !to_operation_time. by apply (same_time text). Qed.

(** ** One operation *)
(** The buffer has received the messages [A]; its history holds operations of the history. *)
Record current (A : list Message) (b : sbuffer) : Prop := {
  cu_follows : ∃ sp ps, follows text A b sp ps;
  cu_part : part H A;
  cu_clock : clock_room H A latest b;
  cu_operations : ∀ x, x ∈ tree_items (operations (b_history b)) → me_key x ∈ time <$> H
}.

Lemma current_ready A b m : current A b → m ∈ H →
  global_observed_all (bs_version (b_snapshot b)) (version_of m) = true ↔ ∀ y, y ∈ H → knows_of m y = true → y ∈ A.
Proof using HH.
  intros [(sp & ps & Hf) Ha _ _] Hm. rewrite (fo_version _ _ _ _ _ Hf). split; [by apply (ready_past text H HH)|by apply (past_ready text H HH)].
Qed.
(** What has been received is ready. *)
Lemma current_old A b m : current A b → m ∈ A → ∀ y, y ∈ H → knows_of m y = true → y ∈ A.
Proof. intros [_ Ha _ _] Hm y Hy Hk. by apply (ap_closed _ _ Ha m y). Qed.

Lemma apply_current A b m : current A b → m ∈ H → (∀ y, y ∈ H → knows_of m y = true → y ∈ A) →
  ok_with (apply_op (Sl:=list N) b (to_operation m)) (fun b' => ∃ A', current A' b' ∧ ∀ y, y ∈ A' ↔ y ∈ A ∨ y = m).
Proof using All.
  intros [(sp & ps & Hf) Ha Hc Ho] Hm Hr. destruct (decide (m ∈ A)) as [Hin|Hn].
  - rewrite (apply_old_op text H HH A b sp ps m Hf Ha Hin). cbn. exists A. split; [split; [by exists sp, ps|done..]|]. intros y. split; [auto|]. by intros [?| ->].
  - eapply ok_with_mono; [apply (apply_new_op text H latest HH Hcap A b sp ps Hf Ha Hc m Hm Hn Hr)|]. intros b' (Hf' & Eh & Hc'). exists (A ++ [m]). split.
    + split; [done|by apply (part_snoc text H HH)|done|by rewrite Eh].
    + intros y. by rewrite elem_of_app, list_elem_of_singleton.
Qed.

(** An operation is applied, or it waits. *)
Inductive handled (A : list Message) (rp : sreplica) (deferred : list Operation) (m : Message) (rp' : sreplica) (deferred' : list Operation) : Prop :=
  | handled_applied A' :
      replica m ∉ rp_deferred_replicas rp → deferred' = deferred → rp_deferred_replicas rp' = rp_deferred_replicas rp →
      current A' (rp_buffer rp') → (∀ y, y ∈ A' ↔ y ∈ A ∨ y = m) → handled A rp deferred m rp' deferred'
  | handled_deferred :
      replica m ∈ rp_deferred_replicas rp ∨ (∃ y, y ∈ H ∧ knows_of m y = true ∧ y ∉ A) → deferred' = deferred ++ [to_operation m] →
      rp_deferred_replicas rp' = {[ replica m ]} ∪ rp_deferred_replicas rp → rp_buffer rp' = rp_buffer rp → handled A rp deferred m rp' deferred'.

Lemma apply_or_defer_spec A rp deferred m : current A (rp_buffer rp) → m ∈ H →
  ok_with (apply_or_defer (Sl:=list N) rp deferred (to_operation m)) (fun r => handled A rp deferred m r.1 r.2 ∧ rp_deferred_ops r.1 = rp_deferred_ops rp).
Proof using All.
  intros Hc Hm. unfold apply_or_defer, can_apply_op. rewrite to_operation_replica, to_operation_version. destruct (decide (replica m ∈ rp_deferred_replicas rp)) as [Hin|Hn].
  - split; [|done]. apply handled_deferred; [by left|done..].
  - destruct (global_observed_all _ _) eqn:E.
    + pose proof (proj1 (current_ready A (rp_buffer rp) m Hc Hm) E) as Hr. ok_bind (apply_current A (rp_buffer rp) m Hc Hm Hr). intros b' (A' & HA & Hin). split; [|done].
      by apply (handled_applied _ _ _ _ _ _ A').
    + split; [|done]. apply handled_deferred; [right|done..]. destruct (list_find (fun y => knows_of m y = true ∧ y ∉ A) H) as [[i y]|] eqn:Ef.
      * apply list_find_Some in Ef as (Ey & [Hk Hy] & _). exists y. split_and!; [by eapply list_elem_of_lookup_2|done|done].
      * exfalso. apply list_find_None in Ef. assert (Hr : global_observed_all (bs_version (b_snapshot (rp_buffer rp))) (version_of m) = true); [|by rewrite Hr in E].
        apply (current_ready A (rp_buffer rp) m Hc Hm). intros y Hy Hk. rewrite Forall_forall in Ef. destruct (decide (y ∈ A)) as [|Hn']; [done|]. by destruct (Ef y Hy).
Qed.

(** ** Operations that waited *)
(** A set of messages with all that they know of. *)
Definition closed (K : list Message) : Prop := ∀ m y, m ∈ K → y ∈ H → knows_of m y = true → y ∈ K.

(** While the queue is flushed: [D] wait again. *)
Record flushing (D A : list Message) (rp : sreplica) : Prop := {
  fl_current : current A (rp_buffer rp);
  fl_known : ∀ d, d ∈ D → d ∈ H;
  fl_replicas : ∀ r, r ∈ rp_deferred_replicas rp → ∃ d, d ∈ D ∧ replica d = r ∧ d ∉ A
}.
Definition earlier (x y : Message) : Prop := cmp (time x) (time y) = Lt.
Lemma earlier_irrefl x : ¬ earlier x x.
Proof. unfold earlier. by rewrite cmp_refl. Qed.
Lemma knows_earlier m y : m ∈ H → knows_of m y = true → earlier y m.
Proof using HH.
  intros Hm Hk. pose proof (knows_before text H HH m y Hm Hk) as Hlt. apply N.compare_lt_iff in Hlt. unfold earlier, cmp, lamport_cmp, cmp, N_ord. by rewrite Hlt.
Qed.
Lemma own_earlier m y : m ∈ H → y ∈ H → replica y = replica m → earlier y m → knows_of m y = true.
Proof using HH.
  intros Hm Hy Er Hlt. apply (mo_own _ _ _ (message_valid text H HH m Hm)); [done|done|]. unfold earlier in Hlt. change (then_with (cmp (value (time y)) (value (time m))) (cmp (replica_id (time y)) (replica_id (time m))) = Lt) in Hlt. unfold replica in Er. rewrite Er, cmp_refl in Hlt.
  revert Hlt. destruct (cmp (value (time y)) (value (time m))) eqn:E; cbn; [done| |done]. intros _. by apply N.compare_lt_iff.
Qed.

(** What has been done with the messages [ms]. *)
Record flushed (K ms D A D' A' : list Message) (rp' : sreplica) : Prop := {
  fd_flushing : flushing D' A' rp';
  fd_kept : ∀ m, m ∈ A → m ∈ A';
  fd_handled : ∀ m, m ∈ D ∨ m ∈ ms → m ∈ A' ∨ m ∈ D';
  fd_applied : ∀ m, m ∈ A' → m ∈ A ∨ m ∈ ms;
  fd_deferred : ∀ m, m ∈ D' → m ∈ D ∨ m ∈ ms ∧ m ∉ K;
  fd_length : (length D' <= length D + length ms)%nat
}.

Section flush.
Context (K : list Message) (HK : closed K).

(** A message of [K] is ready when all that is earlier has been handled. *)
Lemma closed_ready m ms D A rp :
  flushing D A rp → m ∈ H → Forall (earlier m) ms → (∀ d, d ∈ D → earlier d m) → (∀ k, k ∈ K → k ∈ A ∨ k ∈ m :: ms) → m ∈ K →
  (replica m ∉ rp_deferred_replicas rp) ∧ ∀ y, y ∈ H → knows_of m y = true → y ∈ A.
Proof using HH HK.
  intros Hfl Hm Hms HD Hk HmK. assert (Hpast : ∀ y, y ∈ H → knows_of m y = true → y ∈ A).
  { intros y Hy Hkn. pose proof (knows_earlier m y Hm Hkn) as Hlt. destruct (Hk y (HK m y HmK Hy Hkn)) as [?|[->|Hin]%elem_of_cons]; [done|by apply earlier_irrefl in Hlt|].
    rewrite Forall_forall in Hms. specialize (Hms y Hin). destruct (earlier_irrefl y). exact (cmp_lt_trans _ _ _ Hlt Hms). }
  split; [|done]. intros (d & Hd & Er & Hn)%(fl_replicas _ _ _ Hfl). pose proof (fl_known _ _ _ Hfl d Hd). apply Hn, Hpast; [done|]. apply own_earlier; [done|done|done|by apply HD].
Qed.

Lemma flush_loop_spec ms D A rp :
  flushing D A rp → (∀ m, m ∈ ms → m ∈ H) → StronglySorted earlier ms → (∀ d, d ∈ D → Forall (earlier d) ms) → (∀ k, k ∈ K → k ∈ A ∨ k ∈ ms) →
  ok_with (flush_loop (Sl:=list N) rp (to_operation <$> D) (to_operation <$> ms)) (fun r => ∃ A' D', flushed K ms D A D' A' r.1 ∧ r.2 = to_operation <$> D' ∧
    rp_deferred_ops r.1 = rp_deferred_ops rp).
Proof using All.
  intros Hfl Hms Hs. revert D A rp Hfl. induction Hs as [|m ms Hs IH Hm]; intros D A rp Hfl HD Hk.
  { exists A, D. split; [|done]. split; [done|auto|..]; [..|cbn; lia]; intros m; rewrite ?elem_of_nil; tauto. }
  cbn [flush_loop fmap list_fmap]. assert (Hmh : m ∈ H) by (apply Hms; by left). assert (Hms' : ∀ y, y ∈ ms → y ∈ H) by (intros; apply Hms; by right).
  assert (HmD : ∀ d, d ∈ D → earlier d m ∧ Forall (earlier d) ms) by (intros d Hd; by apply Forall_cons, HD).
  pose proof (closed_ready m ms D A rp Hfl Hmh Hm (fun d Hd => proj1 (HmD d Hd)) Hk) as Hready.
  ok_bind (apply_or_defer_spec A rp (to_operation <$> D) m (fl_current _ _ _ Hfl) Hmh). intros [rp1 deferred1] [Hh Eq]. cbn [fst snd] in *.
  destruct Hh as [A1 Hr -> Er Hc HA|Hwait -> Er Eb].
  - eapply ok_with_mono; [apply (IH Hms' D A1 rp1)|].
    + split; [done|apply Hfl|]. intros r. rewrite Er. intros (d & Hd & Ed & Hn)%(fl_replicas _ _ _ Hfl). exists d. split_and!; [done|done|]. rewrite HA. intros [?| ->]; [done|].
      destruct (HmD m Hd) as [Hlt _]. by apply earlier_irrefl in Hlt.
    + intros d Hd. by apply HmD.
    + intros k [?|[->|?]%elem_of_cons]%Hk; rewrite HA; auto.
    + intros [rp' d'] (A' & D' & [F1 F2 F3 F4 F5 F6] & Ed & E). exists A', D'. split_and!; [|done|cbn in *; congruence]. split; [done|..]; [intros y Hy..|cbn; lia]; rewrite ?elem_of_cons in *.
      * apply F2, HA. by left.
      * destruct Hy as [?|[->|?]]; [apply F3; by left|left; apply F2, HA; by right|apply F3; by right].
      * destruct (F4 y Hy) as [[?| ->]%HA|?]; auto.
      * destruct (F5 y Hy) as [?|[? ?]]; auto.
  - change ([to_operation m]) with (to_operation <$> [m]). rewrite <-fmap_app. eapply ok_with_mono; [apply (IH Hms' (D ++ [m]) A rp1)|].
    + split; [rewrite Eb; apply Hfl|intros d [Hd| ->%list_elem_of_singleton]%elem_of_app; [by apply (fl_known _ _ _ Hfl)|done]|]. rewrite Er.
      assert (Hold : ∀ r, r ∈ rp_deferred_replicas rp → ∃ d, d ∈ D ++ [m] ∧ replica d = r ∧ d ∉ A).
      { intros r (d & Hd & ?)%(fl_replicas _ _ _ Hfl). exists d. split; [rewrite elem_of_app; by left|done]. }
      intros r [->%elem_of_singleton|Hr]%elem_of_union; [|by apply Hold]. destruct Hwait as [Hin|(y & Hy & Hkn & Hny)]; [by apply Hold|].
      exists m. split_and!; [set_solver|done|]. intros HmA. apply Hny. by apply (current_old A (rp_buffer rp) m (fl_current _ _ _ Hfl)).
    + intros d [Hd| ->%list_elem_of_singleton]%elem_of_app; [by apply HmD|done].
    + intros k Hin. destruct (Hk k Hin) as [?|[->|?]%elem_of_cons]; [by left| |by right]. destruct (Hready Hin) as [Hr Hp]. destruct Hwait as [?|(y & Hy & Hkn & Hny)]; [done|]. by destruct Hny; apply Hp.
    + intros [rp' d'] (A' & D' & [F1 F2 F3 F4 F5 F6] & Ed & E). exists A', D'. split_and!; [|done|cbn in *; congruence]. rewrite length_app in F6. cbn [length] in F6.
      split; [done|done|..]; [intros y Hy..|cbn; lia]; rewrite ?elem_of_cons in *.
      * apply F3. rewrite elem_of_app, list_elem_of_singleton. tauto.
      * destruct (F4 y Hy); auto.
      * destruct (F5 y Hy) as [[?| ->%list_elem_of_singleton]%elem_of_app|[? ?]]; [by left| |by auto]. right. split; [by left|]. intros HmK. destruct (Hready HmK) as [Hr Hp].
        destruct Hwait as [?|(z & Hz & Hkn & Hnz)]; [done|]. by destruct Hnz; apply Hp.
Qed.
End flush.

(** ** Operations that arrive *)
Lemma operations_size A b : current A b → (length (tree_items (operations (b_history b))) <= length H)%nat.
Proof using HH.
  intros [(sp & ps & Hf) _ _ Ho]. destruct (ho_operations _ _ (bw_history _ _ _ (fo_wf _ _ _ _ _ Hf))) as [_ Hs]. pose proof (keys_nodup _ Hs) as Hn.
  rewrite <-(length_fmap me_key), <-(length_fmap time H). apply submseteq_length, NoDup_submseteq.
  - apply (NoDup_fmap_1 (fun k => mkMapKey (Some k))). by rewrite <-list_fmap_compose.
  - intros t (x & -> & Hx)%list_elem_of_fmap. by apply Ho.
Qed.
Lemma history_push_current A b m : current A b → m ∈ H → ok_with (history_push (b_history b) (to_operation m)) (fun h => current A (set_history b h)).
Proof using HH Hcap.
  intros Hc Hm. pose proof (operations_size A b Hc) as Hsz. destruct Hc as [(sp & ps & Hf) Ha Hck Ho]. pose proof (fo_wf _ _ _ _ _ Hf) as Hb. pose proof (cp_messages _ _ _ Hcap) as Hl. unfold count in Hl.
  eapply ok_with_mono; [apply (history_push_keeps _ (b_lamport_clock b) _ (bw_history _ _ _ Hb)); unfold KeyedFacts.small; cbn; lia|].
  intros h (Hh & Eu & Er & Ed & _ & Hops). split.
  - exists sp, ps. destruct Hf as [_ F2 F3 F4 F5 F6 F7 F8 F9 F10]. split; try done. apply (with_history_wf b sp ps h (b_lamport_clock b) Hb Hh).
    + pose proof (bw_edits _ _ _ Hb) as He. unfold edits_before, all_entries in *. by rewrite Eu, Er.
    + pose proof (bw_clock _ _ _ Hb) as He. unfold clock_started in *. by rewrite Ed.
    + done.
  - done.
  - done.
  - intros x [->|Hx]%Hops; [|by apply Ho]. cbn. rewrite to_operation_time. by apply list_elem_of_fmap_2.
Qed.

Record arrived (ms D A D' A' : list Message) (rp rp' : sreplica) : Prop := {
  av_current : current A' (rp_buffer rp');
  av_queue : rp_deferred_ops rp' = rp_deferred_ops rp;
  av_kept : ∀ m, m ∈ A → m ∈ A';
  av_handled : ∀ m, m ∈ D ∨ m ∈ ms → m ∈ A' ∨ m ∈ D';
  av_applied : ∀ m, m ∈ A' → m ∈ A ∨ m ∈ ms;
  av_deferred : ∀ m, m ∈ D' → m ∈ D ∨ m ∈ ms;
  av_length : (length D' <= length D + length ms)%nat
}.
Lemma apply_loop_spec ms D A rp : current A (rp_buffer rp) → (∀ m, m ∈ ms → m ∈ H) →
  ok_with (apply_loop (Sl:=list N) rp (to_operation <$> D) (to_operation <$> ms)) (fun r => ∃ A' D', arrived ms D A D' A' rp r.1 ∧ r.2 = to_operation <$> D').
Proof using All.
  revert D A rp. induction ms as [|m ms IH]; intros D A rp Hc Hms.
  { exists A, D. split; [|done]. split; [done|done|auto|..]; [..|cbn; lia]; intros m; rewrite ?elem_of_nil; tauto. }
  cbn [apply_loop fmap list_fmap]. assert (Hm : m ∈ H) by (apply Hms; by left). assert (Hms' : ∀ y, y ∈ ms → y ∈ H) by (intros; apply Hms; by right).
  ok_bind (history_push_current A (rp_buffer rp) m Hc Hm). intros h Hch. ok_bind (apply_or_defer_spec A (with_buffer rp (set_history (rp_buffer rp) h)) (to_operation <$> D) m Hch Hm).
  intros [rp1 deferred1] [Hh Eq]. cbn [fst snd] in *. destruct Hh as [A1 _ -> _ Hc1 HA|_ -> _ Eb].
  - eapply ok_with_mono; [by apply (IH D A1 rp1 Hc1)|]. intros [rp' d'] (A' & D' & [F1 F2 F3 F4 F5 F6 F7] & Ed). exists A', D'. split; [|done].
    split; [done|cbn in *; congruence|..]; [intros y Hy..|cbn; lia]; rewrite ?elem_of_cons in *.
    + apply F3, HA. by left.
    + destruct Hy as [?|[->|?]]; [apply F4; by left|left; apply F3, HA; by right|apply F4; by right].
    + destruct (F5 y Hy) as [[?| ->]%HA|?]; auto.
    + destruct (F6 y Hy); auto.
  - change ([to_operation m]) with (to_operation <$> [m]). rewrite <-fmap_app. eapply ok_with_mono; [apply (IH (D ++ [m]) A rp1); [by rewrite Eb|done]|].
    intros [rp' d'] (A' & D' & [F1 F2 F3 F4 F5 F6 F7] & Ed). exists A', D'. split; [|done]. rewrite length_app in F7. cbn [length] in F7.
    split; [done|cbn in *; congruence|done|..]; [intros y Hy..|cbn; lia]; rewrite ?elem_of_cons in *.
    + apply F4. rewrite elem_of_app, list_elem_of_singleton. tauto.
    + destruct (F5 y Hy); auto.
    + destruct (F6 y Hy) as [[?| ->%list_elem_of_singleton]%elem_of_app|?]; auto.
Qed.

(** ** Replicas *)
(** The messages [R] have arrived, [A] have been applied and the others wait. *)
Record in_step (R A : list Message) (rp : sreplica) : Prop := {
  is_current : current A (rp_buffer rp);
  is_queue : queue_wf (rp_deferred_ops rp);
  is_waiting : ∀ op, op ∈ queued rp → ∃ m, m ∈ R ∧ op = to_operation m;
  is_received : ∀ m, m ∈ R → m ∈ A ∨ to_operation m ∈ queued rp;
  is_applied : ∀ m, m ∈ A → m ∈ R;
  is_known : ∀ m, m ∈ R → m ∈ H
}.

(** The queue holds what waited and what waits now. *)
Lemma queue_insert_messages q D :
  queue_wf q → (∀ op, op ∈ tree_items q → ∃ m, m ∈ H ∧ op = to_operation m) → (∀ m, m ∈ D → m ∈ H) → N.of_nat (length (tree_items q) + length D) < 6 ^ 9 →
  ok_with (queue_insert q (to_operation <$> D)) (fun q' => queue_wf q' ∧ ∀ op, op ∈ tree_items q' ↔ op ∈ tree_items q ∨ op ∈ to_operation <$> D).
Proof using HH US USL.
  intros Hq Hwait HD Hlen. eapply ok_with_mono; [apply (queue_insert_spec q (to_operation <$> D) Hq); by rewrite length_fmap|].
  intros q' (Hq' & _ & Hl). split; [done|]. intros op.
  assert (HD' : ∀ x, x ∈ to_operation <$> D → ∃ m, m ∈ H ∧ x = to_operation m) by (intros x (m & -> & Hm)%list_elem_of_fmap; exists m; split; [by apply HD|done]).
  assert (Huniq : ∀ x y, (∃ m, m ∈ H ∧ x = to_operation m) → (∃ m, m ∈ H ∧ y = to_operation m) → item_key x = item_key y → x = y).
  { intros x y (m & Hm & ->) (z & Hz & ->) E. f_equal. by apply to_operation_inj. }
  rewrite <-(klookup_elem _ op (qw_sorted _ Hq')), Hl. destruct (klookup (item_key op) (to_operation <$> D)) as [x|] eqn:E.
  - pose proof (klookup_key _ _ _ E) as Ek. apply find_some in E as [Hx%list_elem_of_In _]. split; [intros [= ->]; by right|].
    intros [Hop|Hop]; f_equal; apply Huniq; auto.
  - rewrite (klookup_elem _ op (qw_sorted _ Hq)). split; [by left|]. intros [?|Hop]; [done|]. exfalso. apply list_elem_of_In in Hop. pose proof (find_none _ _ E op Hop : eqb (item_key op) (item_key op) = false) as Hf.
    by rewrite eqb_refl in Hf.
Qed.

Lemma queue_size (q : OperationQueue Operation) : queue_wf q → (∀ op, op ∈ tree_items q → ∃ m, m ∈ H ∧ op = to_operation m) → (length (tree_items q) <= length H)%nat.
Proof.
  intros [_ Hs] Hq. pose proof (keys_nodup _ Hs) as Hn. rewrite <-(length_fmap item_key (tree_items q)), <-(length_fmap time H). apply submseteq_length, NoDup_submseteq; [done|].
  intros t (x & -> & Hx)%list_elem_of_fmap. destruct (Hq x Hx) as (m & Hm & ->). apply list_elem_of_fmap. exists m. split; [apply to_operation_time|done].
Qed.

(** ** [flush_deferred_ops] and [apply_ops] *)
(** What is in [K] has been applied. *)
Record caught_up (K A A' : list Message) (rp : sreplica) : Prop := {
  ca_kept : ∀ m, m ∈ A → m ∈ A';
  ca_applied : ∀ k, k ∈ K → k ∈ A';
  ca_gone : ∀ k, k ∈ K → to_operation k ∉ queued rp
}.

Lemma flush_spec R A rp K : in_step R A rp → closed K → (∀ k, k ∈ K → k ∈ R) →
  ok_with (flush_deferred_ops (Sl:=list N) rp) (fun rp' => ∃ A', in_step R A' rp' ∧ caught_up K A A' rp').
Proof using All.
  intros [Hc Hq Hw Hr Ha HR] HK HKR. unfold flush_deferred_ops. cbn [queue_drain]. rewrite (queue_iter_spec _ Hq). cbn [mbind outcome_bind].
  destruct (from_messages R (queued rp) Hw) as (ms & Ems & Hms). rewrite Ems.
  assert (Hsorted : StronglySorted earlier ms).
  { pose proof (qw_sorted _ Hq) as Hs. rewrite Ems in Hs. clear -Hs. induction ms as [|m ms IH]; [constructor|]. rewrite fmap_cons in Hs. apply keys_sorted_cons in Hs as [Hs Hm]. constructor; [by apply IH|].
    rewrite Forall_fmap in Hm. eapply Forall_impl; [exact Hm|]. intros y Hy. unfold earlier. rewrite <-(to_operation_time m), <-(to_operation_time y). exact Hy. }
  assert (Hin : ∀ m, m ∈ R → to_operation m ∈ to_operation <$> ms → m ∈ ms).
  { intros m Hm (y & E & Hy)%list_elem_of_fmap. rewrite (to_operation_inj m y); [done|by apply HR|by apply HR, Hms|by rewrite E]. }
  set (rp0 := mkReplica _ _ _). ok_bind (flush_loop_spec K HK ms [] A rp0); [..|intros [rp1 d1] (A' & D' & [[F1 F1' _] F2 F3 F4 F5 F6] & Ed & Eq); cbn [fst snd] in *; subst d1].
  - split; [done|by intros d ?%not_elem_of_nil|]. intros r Hr0. by apply not_elem_of_empty in Hr0.
  - intros m Hm. by apply HR, Hms.
  - done.
  - by intros d ?%not_elem_of_nil.
  - intros k Hk. destruct (Hr k (HKR k Hk)) as [?|Hkq]; [by left|right]. rewrite Ems in Hkq. apply Hin; [by apply HKR|done].
  - unfold insert_deferred. rewrite Eq. cbn [rp0 rp_deferred_ops].
    ok_bind (queue_insert_messages queue_new D'); [apply queue_new_wf|by intros op ?%not_elem_of_nil|done| |].
    { destruct (qw_tree _ Hq) as [_ Hsm]. rewrite Ems in Hsm. unfold KeyedFacts.small in Hsm. rewrite length_fmap in Hsm. cbn in *. lia. }
    intros q [Hq' Hel]. assert (Hel' : ∀ op, op ∈ tree_items q ↔ op ∈ to_operation <$> D') by (intros op; rewrite Hel, elem_of_nil; tauto).
    assert (HD : ∀ m, m ∈ D' → m ∈ R ∧ m ∉ K) by (intros m [?%not_elem_of_nil|[? ?]]%F5; [done|auto]).
    exists A'. split; [split; cbn; [done|done|..]|split; [done|..]].
    + intros op (m & -> & Hm)%Hel'%list_elem_of_fmap. exists m. split; [by apply HD|done].
    + intros m Hm. rewrite Hel'. destruct (Hr m Hm) as [?|Hmq]; [left; by apply F2|]. rewrite Ems in Hmq. destruct (F3 m) as [?|?]; [right; by apply Hin|by left|right; by apply list_elem_of_fmap_2].
    + intros m [?|?]%F4; auto.
    + done.
    + intros k Hk. destruct (Hr k (HKR k Hk)) as [?|Hkq]; [by apply F2|]. rewrite Ems in Hkq. destruct (F3 k) as [?|?%HD]; [right; apply Hin; auto|done|tauto].
    + cbn. intros k Hk (m & E & Hm)%Hel'%list_elem_of_fmap. destruct (HD m Hm) as [HmR HmK]. apply HmK. rewrite <-(to_operation_inj k m); [done|by apply HR, HKR|by apply HR|by rewrite E].
Qed.

(** The messages that have arrived with all that they know of. *)
Definition complete (R : list Message) : list Message := filter (fun m => Forall (fun y => y ∈ R) (past m H)) R.
Lemma complete_elem R m : m ∈ complete R ↔ m ∈ R ∧ ∀ y, y ∈ H → knows_of m y = true → y ∈ R.
Proof.
  unfold complete, past. rewrite list_elem_of_filter, Forall_forall. setoid_rewrite list_elem_of_filter. naive_solver.
Qed.
Lemma complete_closed R : (∀ m, m ∈ R → m ∈ H) → closed (complete R).
Proof using HH.
  intros HR m y. rewrite !complete_elem. intros [Hm Hp] Hy Hk. split; [by apply Hp|]. intros z Hz Hkz. apply Hp; [done|].
  apply knows_get. apply knows_get in Hkz. pose proof (mo_past _ _ _ (message_valid text H HH m (HR m Hm)) y Hy Hk (replica_id (time z))). lia.
Qed.

(** Nothing waits that could be applied. *)
Record settled (R A : list Message) (rp : sreplica) : Prop := {
  se_step : in_step R A rp;
  se_applied : ∀ m, m ∈ complete R → m ∈ A;
  se_gone : ∀ m, m ∈ complete R → to_operation m ∉ queued rp
}.

Lemma apply_ops_spec R A rp ms :
  in_step R A rp → (∀ m, m ∈ ms → m ∈ H) → N.of_nat (length H + length ms) < 6 ^ 9 →
  ok_with (apply_ops (Sl:=list N) rp (to_operation <$> ms)) (fun rp' => ∃ A', settled (R ++ ms) A' rp' ∧ ∀ m, m ∈ A → m ∈ A').
Proof using All.
  intros [Hc Hq Hw Hr Ha HR] Hms Hlen. unfold apply_ops.
  ok_bind (apply_loop_spec ms [] A rp Hc Hms). intros [rp1 d1] (A1 & D & [F1 F2 F3 F4 F5 F6 F7] & Ed). cbn [fst snd] in *. subst d1.
  assert (HD : ∀ m, m ∈ D → m ∈ ms) by (intros m [?%not_elem_of_nil|?]%F6; done). unfold insert_deferred. rewrite F2, bind_assoc.
  assert (Hwait : ∀ op, op ∈ queued rp → ∃ m, m ∈ H ∧ op = to_operation m) by (intros op (m & Hm & ->)%Hw; exists m; split; [by apply HR|done]).
  ok_bind (queue_insert_messages (rp_deferred_ops rp) D Hq Hwait); [by intros m ?%HD%Hms| |].
  { pose proof (queue_size _ Hq Hwait). cbn in F7. lia. }
  intros q [Hq' Hel]. cbn [mbind outcome_bind].
  assert (Hs : in_step (R ++ ms) A1 (mkReplica (rp_buffer rp1) q (rp_deferred_replicas rp1))).
  { split; cbn; [done|done|..].
    - intros op [(m & Hm & ->)%Hw|(m & -> & Hm)%list_elem_of_fmap]%Hel; exists m; rewrite elem_of_app; auto.
    - intros m. rewrite elem_of_app, Hel. intros [[?|?]%Hr|Hm]; [left; by apply F3|right; by left|]. destruct (F4 m (or_intror Hm)) as [?|?]; [by left|right; right; by apply list_elem_of_fmap_2].
    - intros m [?|?]%F5; rewrite elem_of_app; auto.
    - intros m [?|?]%elem_of_app; auto. }
  eapply ok_with_mono; [apply (flush_spec _ _ _ (complete (R ++ ms)) Hs); [apply complete_closed, Hs|by intros k [? _]%complete_elem]|].
  intros rp' (A' & Hs' & [K1 K2 K3]). exists A'. split; [by split|]. auto.
Qed.

(** When all messages have arrived, all have been applied and none waits. *)
Lemma all_applied R A rp : settled R A rp → (∀ m, m ∈ R ↔ m ∈ H) → A ≡ₚ H ∧ has_deferred_ops rp = false.
Proof using HH.
  intros [[Hc Hq Hw Hr Ha HR] Hall Hnone] HRH. assert (Hcomplete : ∀ m, m ∈ H → m ∈ complete R).
  { intros m Hm. apply complete_elem. split; [by apply HRH|]. intros y Hy _. by apply HRH. }
  split.
  - apply NoDup_Permutation; [apply Hc|eapply NoDup_fmap_1; apply HH|]. intros m. split; [apply (ap_sub _ _ (cu_part _ _ Hc))|intros Hm; by apply Hall, Hcomplete].
  - unfold has_deferred_ops, queue_is_empty. rewrite queue_len_spec by done. destruct (queued rp) as [|op l] eqn:E in |- *; [done|]. exfalso.
    assert (Hop : op ∈ queued rp) by (rewrite E; by left). destruct (Hw op Hop) as (m & Hm & ->). apply (Hnone m); [|done]. by apply Hcomplete, HRH.
Qed.
End delivery.
