(* ===== verification/Collab.v ===== *)
(** * Collaboration

    Buffers that begin with the same text and receive the operations of the same history, in
    whatever batches and orders, with repetitions, end with the same text. *)

From stdpp Require Import sets gmap.
From S2P Require Import Prelude Ord Clock SumTree SumTreeFacts SeekSpec Cursor CursorFacts SeekFacts Locator Patch PatchFacts Subscription Bitmap Utf8 Point TextSummary Chunk ChunkFacts Rope RopeFacts KeyedTree KeyedFacts TreeMap TreeMapFacts UndoMap History HistoryFacts Fragments BufferEdit EditIndex EditFacts LocalEdit Buffer BufferFacts BufferUndo UndoFacts UndoSpec UndoCorrect RemoteEdit Doc Converge RemoteWalk RemoteApply Operations Messages Receive Delivery.
Local Open Scope N_scope.

(** A buffer with a base text that receives batches of operations. *)
Fixpoint receive `{!UnstableSort} (rp : sreplica) (batches : list (list Message)) : outcome sreplica :=
  match batches with
  | [] => Ok rp
  | ms :: batches => rp ← apply_ops (Sl:=list N) rp (to_operation <$> ms); receive rp batches
  end.
Definition join `{!UnstableSort} (rid : ReplicaId) (id : N) (t : list N) (batches : list (list Message)) : outcome sreplica :=
  b ← buffer_new (C:=list N) (Sl:=list N) (Sm:=list N) rid id (str_of t);
  receive (replica_new b) batches.

(** Fragments are not empty. *)
Lemma pieces_nonempty (ps : pieces) : Forall piece_ok ps → vis_text ps ++ del_text ps = [] → ps = [].
Proof.
  destruct ps as [|[f c] ps]; [done|]. intros [[Hl Hp] _]%Forall_cons E. cbn in *. assert (c = []) as ->; [|change (byte_len []) with 0 in Hl; lia].
  by destruct c, (f_visible f); [..|destruct (flat_map _ ps)].
Qed.

(** A new buffer has received nothing. *)
Lemma new_follows rid id t : Forall char_ok t → byte_len (normalize_arc t) <= 2 ^ 31 →
  ok_with (buffer_new (C:=list N) (Sl:=list N) (Sm:=list N) rid id (str_of t)) (fun b =>
    (∃ sp ps, follows (normalize_arc t) [] b sp ps) ∧ operations (b_history b) = map_default ∧ value (b_lamport_clock b) <= 2 ∧
    transaction_depth (b_history b) = 0 ∧ replica_id (b_lamport_clock b) = rid).
Proof.
  intros Ht Hbytes. assert (Hs : RopeFacts.small (normalize_arc t)) by (unfold RopeFacts.small; lia).
  eapply ok_with_mono; [by apply (buffer_new_spec rid id t)|].
  intros b (ps & Hb & Et & Ed & Hd & Eo & Esl & Hc & Hl & _ & Eu & Ev & Hps & Er).
  pose proof (bw_content _ _ _ Hb) as Hcw. split_and!; try done.
  exists (mkSpec (byte_len (normalize_arc t)) ∅ 0%nat), ps. rewrite Forall_forall in Hps. split; try done; rewrite ?Eu, ?Esl.
  - cbn [state_of deliver_all fmap list_fmap foldl base_state st_doc]. destruct ps as [|[f c] [|q ps]]; [..|cbn in Hl; lia].
    + pose proof (cw_visible_text _ _ _ _ Hcw) as Ex. cbn in Ex. by rewrite Et in Ex; rewrite <-Ex.
    + destruct (Hps f) as (E1 & E2 & E3); [by left|]. rewrite doc_cons, app_nil_r. unfold piece_atoms. cbn [fst snd]. rewrite E1, E2, E3. f_equal.
      pose proof (texts_chars [(f, c)]) as Hp. rewrite doc_chars in Hp. cbn [fmap list_fmap concat snd] in Hp. pose proof (cw_visible_text _ _ _ _ Hcw) as Ex. pose proof (cw_deleted_text _ _ _ _ Hcw) as Ex'.
      rewrite Ed in Ex'. rewrite Et in Ex. unfold vis_text, del_text in Ex, Ex'. cbn in Ex, Ex'. destruct (f_visible f); cbn in *; rewrite ?app_nil_r in *; subst; done.
  - intros x. cbn. set_solver.
  - by intros m ?%not_elem_of_nil.
  - intros f e Hf He. destruct (Hps f Hf) as (E1 & _ & E3). unfold stamps in He. rewrite E1, E3 in He. apply list_elem_of_singleton in He. left. split; [done|].
    intros Ex. rewrite (pieces_nonempty ps) in Hf; [by apply not_elem_of_nil in Hf|apply Hcw|]. by rewrite (cw_visible_text _ _ _ _ Hcw), (cw_deleted_text _ _ _ _ Hcw), Et, Ed, Ex.
  - intros x Hx. by apply not_elem_of_nil in Hx.
  - rewrite Et, Ed. change (byte_len []) with 0. change (total msg_bytes []) with 0. lia.
  - change (total msg_fragments []) with 0. lia.
  - cbn. lia.
  - cbn. lia.
Qed.

Section collab.
Context `{US : !UnstableSort, USL : !UnstableSortLaws}.
Context (t : list N) (H : list Message) (latest : N) (Ht : Forall char_ok t).
Abbreviation text := (normalize_arc t).
Context (HH : history_valid text H) (Hcap : capacity text H latest).

Lemma new_in_step rid id :
  ok_with (buffer_new (C:=list N) (Sl:=list N) (Sm:=list N) rid id (str_of t)) (fun b => in_step text H latest [] [] (replica_new b)).
Proof using All.
  eapply ok_with_mono; [apply new_follows; [done|pose proof (cp_bytes _ _ _ Hcap); lia]|]. intros b (Hf & Eo & Hc & _). destruct (cp_clock _ _ _ Hcap) as [Hc1 Hc2].
  split; cbn [rp_buffer replica_new]; [split; [done|apply part_nil|..]|apply queue_new_wf|by intros op ?%not_elem_of_nil|by intros op ?%not_elem_of_nil..].
  - unfold clock_room. change (count []) with 0. lia.
  - intros x Hx. rewrite Eo in Hx. by apply not_elem_of_nil in Hx.
Qed.

Lemma new_settled rid id :
  ok_with (buffer_new (C:=list N) (Sl:=list N) (Sm:=list N) rid id (str_of t)) (fun b => settled text H latest [] [] (replica_new b)).
Proof using All.
  eapply ok_with_mono; [apply new_in_step|]. intros b Hs. split; [done|..]; by intros m [?%not_elem_of_nil _]%complete_elem.
Qed.

Definition batches_ok (batches : list (list Message)) : Prop :=
  Forall (fun ms => (∀ m, m ∈ ms → m ∈ H) ∧ N.of_nat (length H + length ms) < 6 ^ 9) batches.
Lemma receive_spec batches R A rp : settled text H latest R A rp → batches_ok batches →
  ok_with (receive rp batches) (fun rp' => ∃ A', settled text H latest (R ++ concat batches) A' rp').
Proof using All.
  intros Hs Hb. revert R A rp Hs. induction Hb as [|ms batches [Hms Hlen] _ IH]; intros R A rp Hs; cbn [receive concat].
  { rewrite app_nil_r. by exists A. }
  ok_bind (apply_ops_spec text H latest HH Hcap R A rp ms (se_step _ _ _ _ _ _ Hs) Hms Hlen). intros rp1 (A1 & Hs1 & _).
  rewrite app_assoc. by apply (IH _ A1).
Qed.
Lemma join_spec rid id batches : batches_ok batches →
  ok_with (join rid id t batches) (fun rp => ∃ A, settled text H latest (concat batches) A rp).
Proof using All. intros Hb. unfold join. ok_bind (new_settled rid id). intros b Hs. by apply (receive_spec batches [] []). Qed.
End collab.

(** Two buffers begin with the same text and receive the operations of the same valid
    history, each in its own batches, in any order and any number of times.  Both apply all of
    them without a panic, neither has operations waiting, and both show the same text: the
    text of the document the history leads to, which does not depend on the order. *)
Theorem apply_ops_converge `{US : !UnstableSort, USL : !UnstableSortLaws} t H latest rid1 id1 batches1 rid2 id2 batches2 :
  Forall char_ok t → history_valid (normalize_arc t) H → capacity (normalize_arc t) H latest →
  batches_ok H batches1 → batches_ok H batches2 → (∀ m, m ∈ H → m ∈ concat batches1 ∧ m ∈ concat batches2) →
  ∃ rp1 rp2, join rid1 id1 t batches1 = Ok rp1 ∧ join rid2 id2 t batches2 = Ok rp2 ∧
    buffer_text (rp_buffer rp1) = state_text (state_of (normalize_arc t) H) ∧ buffer_text (rp_buffer rp1) = buffer_text (rp_buffer rp2) ∧
    has_deferred_ops rp1 = false ∧ has_deferred_ops rp2 = false.
Proof.
  intros Ht HH Hcap Hb1 Hb2 Hall.
  assert (Hone : ∀ rid id batches, batches_ok H batches → (∀ m, m ∈ H → m ∈ concat batches) →
    ∃ rp, join rid id t batches = Ok rp ∧ buffer_text (rp_buffer rp) = state_text (state_of (normalize_arc t) H) ∧ has_deferred_ops rp = false).
  { intros rid id batches Hb Hin. destruct (ok_with_inv _ _ (join_spec t H latest Ht HH Hcap rid id batches Hb)) as (rp & E & A & Hs). exists rp. split; [done|].
    destruct (all_applied (normalize_arc t) H latest HH (concat batches) A rp Hs) as [Hp Hd].
    { intros m. split; [apply Hs|apply Hin]. }
    split; [|done]. pose proof (is_current _ _ _ _ _ _ (se_step _ _ _ _ _ _ Hs)) as [(sp & ps & Hf) Ha _ _]. rewrite (follows_text _ _ _ _ _ Hf). f_equal.
    apply (state_of_perm (normalize_arc t) H HH); [done| |done]. split; [done|eapply NoDup_fmap_1; apply HH|done|apply HH]. }
  destruct (Hone rid1 id1 batches1 Hb1) as (rp1 & E1 & T1 & D1); [intros; by apply Hall|]. destruct (Hone rid2 id2 batches2 Hb2) as (rp2 & E2 & T2 & D2); [intros; by apply Hall|].
  exists rp1, rp2. by rewrite T1, T2.
Qed.

(** An operation that has arrived together with all the operations it knows of is
    applied, in whatever batches and order they arrived: the buffer has observed it and it
    does not wait. *)
Theorem apply_ops_live `{US : !UnstableSort, USL : !UnstableSortLaws} t H latest rid id batches m :
  Forall char_ok t → history_valid (normalize_arc t) H → capacity (normalize_arc t) H latest → batches_ok H batches →
  m ∈ concat batches → (∀ y, y ∈ H → knows_of m y = true → y ∈ concat batches) →
  ∃ rp, join rid id t batches = Ok rp ∧ global_observed (bs_version (b_snapshot (rp_buffer rp))) (time m) = true ∧
    to_operation m ∉ tree_items (rp_deferred_ops rp).
Proof.
  intros Ht HH Hcap Hb Hm Hp. destruct (ok_with_inv _ _ (join_spec t H latest Ht HH Hcap rid id batches Hb)) as (rp & E & A & [Hs Happ Hgone]). exists rp. split; [done|].
  assert (Hc : m ∈ complete H (concat batches)) by (by apply complete_elem). split; [|by apply Hgone].
  pose proof (is_current _ _ _ _ _ _ Hs) as [(sp & ps & Hf) Ha _ _]. rewrite (fo_version _ _ _ _ _ Hf).
  apply (observed_received _ H HH A m Ha); [by apply (is_known _ _ _ _ _ _ Hs)|by apply Happ].
Qed.

(** C6: [apply_op] implements the delivery of an operation to a document.  A buffer that has
    received part of a history, and is in the state of that part, gets an operation whose past
    it has: if the operation is new, the buffer goes to the state after delivering it and
    shows the text of that state; if it had it already, nothing changes. *)
Theorem apply_op_refines `{US : !UnstableSort, USL : !UnstableSortLaws} text H latest A b m :
  history_valid text H → capacity text H latest → current text H latest A b → m ∈ H → (∀ y, y ∈ H → knows_of m y = true → y ∈ A) →
  ∃ b' A', apply_op (Sl:=list N) b (to_operation m) = Ok b' ∧ current text H latest A' b' ∧
    state_of text A' = (if decide (m ∈ A) then state_of text A else deliver (to_op m) (state_of text A)) ∧
    buffer_text b' = state_text (state_of text A') ∧ (m ∈ A → b' = b).
Proof.
  intros HH Hcap Hcur Hm Hr. pose proof Hcur as [(sp & ps & Hf) Ha Hc Ho]. destruct (decide (m ∈ A)) as [Hin|Hn].
  - exists b, A. split_and!; [by apply (apply_old_op text H HH A b sp ps)|done|done|by apply (follows_text _ _ _ sp ps)|done].
  - destruct (ok_with_inv _ _ (apply_new_op text H latest HH Hcap A b sp ps Hf Ha Hc m Hm Hn Hr)) as (b' & E & Hf' & Eh & Hc').
    exists b', (A ++ [m]). split_and!; [done| |apply state_of_snoc| |done].
    + split; [done|by apply (part_snoc text H HH)|done|by rewrite Eh].
    + destruct Hf' as (sp' & ps' & Hf'). by apply (follows_text _ _ _ sp' ps').
Qed.

(** C9: [apply_remote_edit] of an edit whose ranges are those of some changes of the text the
    other replica had.  It does not panic; the document of the buffer is changed as [perform]
    says, the text is what is shown of the new document, only characters of the edit are
    added, the fragments, ropes and indexes agree again, and the subscribers get a patch from
    the old text to the new one. *)
Theorem remote_edit_correct `{US : !UnstableSort, USL : !UnstableSortLaws} b sp ps v cs ts ranges new_text :
  buffer_wf b sp ps → edit_new b ps v ts → edit_reads ps v ranges new_text cs → remote_room (b_snapshot b) cs →
  ∃ b' ps' sp', apply_remote_edit (Sl:=list N) b v ranges new_text ts = Ok b' ∧ remotely_applied (clock_after b ts) b sp ps v cs ts b' ps' sp' ∧
    buffer_text b' = doc_text (undone_by (bs_undo_map (b_snapshot b))) (perform v (atom_was v (tree_items (bs_undo_map (b_snapshot b)))) ts (changes_at 0 cs) (doc ps)).
Proof.
  intros Hb Hn Hr Hroom.
  assert (Hck : value (b_lamport_clock b) <= clock_after b ts ∧ value ts < clock_after b ts) by (unfold clock_after; lia).
  destruct (ok_with_inv _ _ (apply_remote_edit_spec _ b sp ps v cs ts ranges new_text Hb Hn Hr Hroom (proj1 Hck) (proj2 Hck))) as (b' & E & ps' & sp' & Ha).
  exists b', ps', sp'. split_and!; [done|done|]. rewrite <-(ra_doc _ _ _ _ _ _ _ _ _ _ Ha), <-(ra_undos _ _ _ _ _ _ _ _ _ _ Ha), <-shown_doc, shown_visible by apply Ha. symmetry. apply Ha.
Qed.

(** ** An example *)
Module Example.
Definition alice : ReplicaId := FIRST_COLLAB_ID.
Definition bob : ReplicaId := mkReplicaId 9.
Definition base : list N := [97; 98].
(** Alice inserts an x between a and b; Bob replaces the b by a y at the same time; Alice
    undoes her edit. *)
Definition insert_x : Message := EditMessage (mkLamport 2 alice) (base_version base) [mkChange [97] [] [120]].
Definition replace_b : Message := EditMessage (mkLamport 2 bob) (base_version base) [mkChange [97] [98] [121]].
Definition undo_x : Message := UndoMessage (mkLamport 3 alice) (global_observe (base_version base) (mkLamport 2 alice)) [(mkLamport 2 alice, 1)].
Definition history : list Message := [insert_x; replace_b; undo_x].

Lemma base_get r : global_get (base_version base) r = if decide (r = LOCAL) then 1 else 0.
Proof.
  change (base_version base) with (global_observe global_new base_time). rewrite global_get_observe.
  assert (E : global_get global_new r = 0) by (apply global_get_ge; cbn; lia). rewrite E. change (replica_id base_time) with LOCAL. by case_decide.
Qed.
Lemma undo_get r : global_get (version_of undo_x) r = if decide (r = alice) then 2 else if decide (r = LOCAL) then 1 else 0.
Proof.
  change (version_of undo_x) with (global_observe (base_version base) (mkLamport 2 alice)). rewrite global_get_observe, base_get. cbn [replica_id value].
  case_decide as E; [|done]. by rewrite E.
Qed.

Lemma of_history (P : Message → Prop) : P insert_x → P replace_b → P undo_x → ∀ m, m ∈ history → P m.
Proof. intros H1 H2 H3 m. unfold history. rewrite !elem_of_cons, elem_of_nil. by intros [->|[->|[->|[]]]]. Qed.
(** The two edits know of the base text only. *)
Lemma edit_ok t cs : 1 < value t → (∀ y, y ∈ history → replica y = replica_id t → value (time y) < value t → False) →
  content_ok base history (EditMessage t (base_version base) cs) → message_ok base history (EditMessage t (base_version base) cs).
Proof.
  intros Ht Hown Hc. assert (Hno : ∀ y, y ∈ history → knows_of (EditMessage t (base_version base) cs) y = false).
  { apply (of_history (fun y => knows_of (EditMessage t (base_version base) cs) y = false)); by vm_compute. }
  split; [done| | | | | |done].
  - intros r. change (version_of _) with (base_version base). rewrite base_get. cbn. case_decide; lia.
  - apply canonical_observe, canonical_new.
  - intros r. by left.
  - intros y Hy Hk. by rewrite Hno in Hk.
  - intros y Hy Hr Hv. by destruct (Hown y Hy Hr Hv).
Qed.
Lemma history_ok : history_valid base history.
Proof.
  split; [by vm_compute; repeat (apply NoDup_cons; split; [set_unfold; naive_solver|]); apply NoDup_nil_2|by repeat constructor|].
  apply Forall_forall. apply (of_history (message_ok base history)).
  - apply edit_ok; [cbn; lia|apply (of_history (fun y => replica y = replica insert_x → value (time y) < value (time insert_x) → False)); cbn; lia || done|]. split_and!; [exists [98]; by vm_compute|by repeat constructor|by vm_compute; set_solver].
  - apply edit_ok; [cbn; lia|apply (of_history (fun y => replica y = replica replace_b → value (time y) < value (time replace_b) → False)); cbn; lia || done|]. split_and!; [exists []; by vm_compute|by repeat constructor|by vm_compute; set_solver].
  - split.
    + cbn. lia.
    + intros r. rewrite undo_get. cbn. repeat case_decide; lia.
    + apply canonical_observe, canonical_observe, canonical_new.
    + intros r. rewrite undo_get, base_get. case_decide as E; [right; exists insert_x|by left]. split_and!; [by left|done|done].
    + apply (of_history (fun y => knows_of undo_x y = true → ∀ r, global_get (version_of y) r <= global_get (version_of undo_x) r)); intros Hk r; [|by vm_compute in Hk..].
      rewrite undo_get. change (version_of insert_x) with (base_version base). rewrite base_get. repeat case_decide; lia.
    + apply (of_history (fun y => replica y = replica undo_x → value (time y) < value (time undo_x) → knows_of undo_x y = true)); cbn; done || lia.
    + split; [by apply NoDup_singleton|]. constructor; [|done]. cbn. split_and!; [lia|lia|]. exists insert_x. split_and!; [by left|done|done].
Qed.
Lemma history_fits : capacity base history 3.
Proof. split; try by vm_compute. repeat constructor; by vm_compute. Qed.
Lemma base_ok : Forall char_ok base.
Proof. by repeat constructor; left. Qed.

(** The undo arrives first and waits for the edit; the edits arrive in both orders, one
    of them twice. *)
Definition batches1 : list (list Message) := [[undo_x]; [insert_x; replace_b]].
Definition batches2 : list (list Message) := [[replace_b; replace_b]; [undo_x; insert_x]].
Lemma batches_fit : batches_ok history batches1 ∧ batches_ok history batches2 ∧ ∀ m, m ∈ history → m ∈ concat batches1 ∧ m ∈ concat batches2.
Proof.
  split_and!; [unfold batches_ok, batches1, batches2; repeat (apply Forall_cons; split; [split; [unfold history; set_solver|by vm_compute]|]); by apply Forall_nil..|].
  apply (of_history (fun m => m ∈ concat batches1 ∧ m ∈ concat batches2)); unfold batches1, batches2; cbn; set_solver.
Qed.
End Example.

#[local] Existing Instance insertion_sort.
#[local] Existing Instance insertion_sort_laws.

Lemma apply_ops_converge_witness : ∃ rp1 rp2,
  join Example.alice 1 Example.base Example.batches1 = Ok rp1 ∧ join Example.bob 1 Example.base Example.batches2 = Ok rp2 ∧
  buffer_text (rp_buffer rp1) = [97; 121] ∧ buffer_text (rp_buffer rp2) = [97; 121] ∧ has_deferred_ops rp2 = false.
Proof.
  destruct Example.batches_fit as (H1 & H2 & H3).
  destruct (apply_ops_converge Example.base Example.history 3 Example.alice 1 Example.batches1 Example.bob 1 Example.batches2 Example.base_ok Example.history_ok Example.history_fits H1 H2 H3)
    as (rp1 & rp2 & E1 & E2 & T1 & T2 & _ & D2).
  exists rp1, rp2. rewrite <-T2, T1. split_and!; [exact E1|exact E2|by vm_compute|by vm_compute|exact D2].
Defined.

(** The undo is applied as soon as the edit has arrived. *)
Lemma apply_ops_live_witness : ∃ rp, join Example.bob 1 Example.base Example.batches2 = Ok rp ∧
  global_observed (bs_version (b_snapshot (rp_buffer rp))) (mkLamport 3 Example.alice) = true.
Proof.
  destruct Example.batches_fit as (_ & H2 & H3).
  destruct (apply_ops_live Example.base Example.history 3 Example.bob 1 Example.batches2 Example.undo_x Example.base_ok Example.history_ok Example.history_fits H2) as (rp & E & Ho & _).
  - apply H3. right. right. by left.
  - intros y Hy _. by apply H3.
  - exists rp. split; [exact E|exact Ho].
Defined.

(** Alice's replica when it is new. *)
Lemma new_alice : ∃ b, buffer_new (C:=list N) (Sl:=list N) (Sm:=list N) Example.alice 1 (str_of Example.base) = Ok b ∧ current Example.base Example.history 3 [] b.
Proof.
  destruct (ok_with_inv _ _ (new_in_step Example.base Example.history 3 Example.base_ok Example.history_ok Example.history_fits Example.alice 1)) as (b & E & Hs).
  exists b. split; [exact E|exact (is_current _ _ _ _ _ _ Hs)].
Qed.
Lemma past_x y : y ∈ Example.history → knows_of Example.insert_x y = true → y ∈ [].
Proof.
  intros Hy Hk. exfalso. revert Hk. apply (Example.of_history (fun y => knows_of Example.insert_x y = true → False)); [by vm_compute..|done].
Qed.

(** The x is inserted between a and b. *)
Lemma apply_op_refines_witness : ∃ b b', current Example.base Example.history 3 [] b ∧
  apply_op (Sl:=list N) b (to_operation Example.insert_x) = Ok b' ∧ buffer_text b' = [97; 120; 98].
Proof.
  destruct new_alice as (b & _ & Hc).
  destruct (apply_op_refines Example.base Example.history 3 [] b Example.insert_x Example.history_ok Example.history_fits Hc ltac:(by left) past_x) as (b' & A' & E & _ & Hs & Ht & _).
  exists b, b'. rewrite Ht, Hs. split_and!; [exact Hc|exact E|by vm_compute].
Defined.
Lemma remote_edit_correct_witness : ∃ b b', current Example.base Example.history 3 [] b ∧
  apply_remote_edit (Sl:=list N) b (base_version Example.base) [mkRange 1 1] [[120]] (mkLamport 2 Example.alice) = Ok b' ∧
  byte_len (buffer_text b') + byte_len (rope_text (bs_deleted_text (b_snapshot b'))) = 3.
Proof.
  destruct new_alice as (b & _ & Hc). pose proof Hc as [(sp & ps & Hf) Ha _ _]. pose proof Example.history_ok as HH. pose proof Example.history_fits as Hcap.
  assert (Hm : Example.insert_x ∈ Example.history) by (by left). assert (Hn : Example.insert_x ∉ []) by apply not_elem_of_nil.
  destruct (remote_edit_correct b sp ps (base_version Example.base) [mkChange [97] [] [120]] (mkLamport 2 Example.alice) [mkRange 1 1] [[120]]) as (b' & ps' & sp' & E & Hr & _).
  - exact (fo_wf _ _ _ _ _ Hf).
  - exact (edit_message_new Example.base Example.history HH [] b sp ps Hf Ha Example.insert_x Hm Hn (base_version Example.base) [mkChange [97] [] [120]] eq_refl).
  - exact (edit_message_reads Example.base Example.history HH [] b sp ps Hf Ha Example.insert_x Hm Hn past_x (base_version Example.base) [mkChange [97] [] [120]] eq_refl).
  - exact (edit_message_room Example.base Example.history 3 HH Hcap [] b sp ps Hf Ha Example.insert_x Hm Hn (base_version Example.base) [mkChange [97] [] [120]] eq_refl).
  - exists b, b'. split_and!; [exact Hc|exact E|]. rewrite (ra_bytes _ _ _ _ _ _ _ _ _ _ Hr), (fo_bytes _ _ _ _ _ Hf). by vm_compute.
Defined.
