(* ===== verification/Session.v ===== *)
(** * Editing sessions

    Replicas of one text that are edited at the same time: each is edited, undone and redone
    by its user, its operations go to a log, and operations of the log reach the other replicas
    in any batches and orders and any number of times.  Every step that is permitted returns;
    replicas that have observed the same operations show the same text; and a replica that
    all operations have reached has observed them all. *)

From stdpp Require Import sets gmap.
From S2P Require Import Prelude Ord Clock SumTree SumTreeFacts Cursor Locator Patch PatchFacts Subscription Bitmap Utf8 Point TextSummary Chunk ChunkFacts Rope RopeFacts KeyedTree KeyedFacts TreeMap TreeMapFacts UndoMap History HistoryFacts Fragments BufferEdit EditIndex Doc EditFacts LocalEdit Buffer BufferFacts BufferUndo UndoFacts UndoSpec UndoCorrect RemoteEdit Converge RemoteWalk RemoteApply Operations Messages Receive LocalOps Delivery Collab.
Local Open Scope N_scope.

(** ** Sessions *)
(** A replica, with the operations that have reached it, its own among them. *)
Record Site := mkSite { si_replica : sreplica; si_received : list Operation }.
Record Session := mkSession { ss_sites : gmap ReplicaId Site; ss_log : list Operation }.
Abbreviation si_buffer site := (rp_buffer (si_replica site)).
Abbreviation si_version site := (bs_version (b_snapshot (si_buffer site))).

Inductive Action :=
  | Join (rid : ReplicaId) (remote_id : N)
  | LocalEdit (rid : ReplicaId) (started ended : Instant) (edits : list (Range N * list N))
  | LocalUndo (rid : ReplicaId)
  | LocalRedo (rid : ReplicaId)
  | Deliver (rid : ReplicaId) (ops : list Operation).

Definition put_site (s : Session) (rid : ReplicaId) (site : Site) : Session := mkSession (<[rid := site]> (ss_sites s)) (ss_log s).
(** The replica has a new buffer and sends an operation. *)
Definition sent_site (site : Site) (b : sbuffer) (op : Operation) : Site := mkSite (with_buffer (si_replica site) b) (si_received site ++ [op]).
Definition send (s : Session) (rid : ReplicaId) (site : Site) (b : sbuffer) (op : Operation) : Session :=
  mkSession (<[rid := sent_site site b op]> (ss_sites s)) (ss_log s ++ [op]).
Definition send_if (s : Session) (rid : ReplicaId) (site : Site) (r : sbuffer * option (TransactionId * Operation)) : Session :=
  match r with
  | (b, Some (_, op)) => send s rid site b op
  | (b, None) => put_site s rid (mkSite (with_buffer (si_replica site) b) (si_received site))
  end.

Section session.
Context `{US : !UnstableSort, USL : !UnstableSortLaws, HO : !HashOrder, HOL : !HashOrderLaws}.
(** The text all replicas begin with. *)
Context (t : list N).
Abbreviation text := (normalize_arc t).

Definition step (s : Session) (a : Action) : outcome Session :=
  match a with
  | Join rid remote_id =>
      b ← buffer_new (C:=list N) (Sl:=list N) (Sm:=list N) rid remote_id (str_of t);
      Ok (put_site s rid (mkSite (replica_new b) []))
  | LocalEdit rid started ended edits =>
      site ← unwrap (ss_sites s !! rid);
      '(b, op) ← buffer_edit (Sl:=list N) (si_buffer site) started ended edits;
      Ok (send s rid site b op)
  | LocalUndo rid =>
      site ← unwrap (ss_sites s !! rid);
      r ← buffer_undo (Sl:=list N) (si_buffer site);
      Ok (send_if s rid site r)
  | LocalRedo rid =>
      site ← unwrap (ss_sites s !! rid);
      r ← buffer_redo (Sl:=list N) (si_buffer site);
      Ok (send_if s rid site r)
  | Deliver rid ops =>
      site ← unwrap (ss_sites s !! rid);
      rp ← apply_ops (Sl:=list N) (si_replica site) ops;
      Ok (put_site s rid (mkSite rp (si_received site ++ ops)))
  end.

(** ** What is permitted *)
(** The limits of the model, for the operations of a log. *)
Definition op_bytes (op : Operation) : N :=
  match op with OpEdit e => foldr (fun s n => str_len s + n) 0 (eo_new_text e) | OpUndo _ => 0 end.
Definition op_fragments (op : Operation) : N := match op with OpEdit e => 3 * N.of_nat (length (eo_ranges e)) + 1 | OpUndo _ => 0 end.
Definition op_counts (op : Operation) : N := match op with OpEdit _ => 0 | OpUndo u => N.of_nat (length (counts u)) end.
Definition op_total (f : Operation → N) (log : list Operation) : N := foldr (fun op n => f op + n) 0 log.
Record log_room (log : list Operation) (latest : N) : Prop := {
  lr_bytes : byte_len text + op_total op_bytes log <= 2 ^ 31;
  lr_fragments : 1 + op_total op_fragments log <= MAX_CHUNKS;
  lr_slices : (N.of_nat (length log) + 2) * (1 + op_total op_fragments log) < 6 ^ 9;
  lr_counts : op_total op_counts log < 6 ^ 9;
  lr_operations : N.of_nat (length log) + 1 < 6 ^ 9;
  lr_latest : Forall (fun op => value (operation_timestamp op) <= latest) log;
  lr_clock : 2 <= latest ∧ latest + N.of_nat (length log) + 1 <= u32_max
}.

(** Replica ids are not reused; edits name ranges of the text in order; what is delivered has
    been sent; and the limits of the model are kept. *)
Definition permitted (s : Session) (a : Action) : Prop :=
  match a with
  | Join rid _ => ss_sites s !! rid = None
  | LocalEdit rid _ _ edits => ∃ site cs tail, ss_sites s !! rid = Some site ∧ edits = edits_at 0 cs ∧ cs ≠ [] ∧
      buffer_text (si_buffer site) = before_changes cs ++ tail ∧ Forall (fun c => Forall char_ok (ch_insert c)) cs ∧ edit_room (si_buffer site) cs
  | LocalUndo rid => ∃ site, ss_sites s !! rid = Some site ∧
      ∀ e, last (undo_stack (b_history (si_buffer site))) = Some e → toggle_room (si_buffer site) 1 (length (entry_edits e))
  | LocalRedo rid => ∃ site, ss_sites s !! rid = Some site ∧
      ∀ e, last (redo_stack (b_history (si_buffer site))) = Some e → toggle_room (si_buffer site) 1 (length (entry_edits e))
  | Deliver rid ops => ∃ site latest, ss_sites s !! rid = Some site ∧ (∀ op, op ∈ ops → op ∈ ss_log s) ∧
      log_room (ss_log s) latest ∧ value (b_lamport_clock (si_buffer site)) + N.of_nat (length (ss_log s)) + 1 <= u32_max ∧
      N.of_nat (length (ss_log s) + length ops) < 6 ^ 9
  end.

Inductive reachable : Session → Prop :=
  | reachable_start : reachable (mkSession ∅ [])
  | reachable_step s a s' : reachable s → permitted s a → step s a = Ok s' → reachable s'.

Lemma op_total_messages f g H : (∀ m, f (to_operation m) = g m) → op_total f (to_operation <$> H) = total g H.
Proof. intros E. unfold op_total, total. induction H as [|m H IH]; [done|]. cbn. by rewrite E, IH. Qed.
Lemma log_capacity H latest : log_room (to_operation <$> H) latest → capacity text H latest.
Proof.
  assert (E1 : ∀ m, op_bytes (to_operation m) = msg_bytes m).
  { intros [ts v cs|]; [|done]. assert (E : ∀ o, foldr (fun s n => str_len s + n) 0 (str_of <$> (changes_at o cs).*2) = byte_len (new_chars cs)); [|apply E].
    unfold new_chars. induction cs as [|c cs IH]; intros o; [done|]. cbn [changes_at fmap list_fmap foldr flat_map snd]. change (str_len (str_of (ch_insert c))) with (byte_len (ch_insert c)).
    by rewrite byte_len_app, <-(IH (o + byte_len (ch_keep c) + byte_len (ch_delete c))). }
  assert (E2 : ∀ m, op_fragments (to_operation m) = msg_fragments m).
  { intros [ts v cs|]; [|done]. cbn. assert (E : ∀ o, length (changes_at o cs) = length cs); [|by rewrite length_fmap, E]. induction cs as [|c cs IH]; intros o; [done|]. cbn. by rewrite IH. }
  assert (E3 : ∀ m, op_counts (to_operation m) = msg_counts m) by (by intros []).
  intros [R1 R2 R3 R4 R5 R6 R7]. rewrite !(op_total_messages _ _ H E1), !(op_total_messages _ _ H E2), !(op_total_messages _ _ H E3), !length_fmap in *. split; try done.
  rewrite Forall_fmap in R6. eapply Forall_impl; [exact R6|]. cbn. intros m. by rewrite to_operation_time.
Qed.

(** ** What receiving does not touch *)
Definition same_books (b b' : sbuffer) : Prop := same_stacks b b' ∧ replica_id (b_lamport_clock b') = replica_id (b_lamport_clock b).
#[local] Instance same_books_preorder : PreOrder same_books.
Proof. split; [by intros b|]. intros b1 b2 b3 [(?&?&?) ?] [(?&?&?) ?]. repeat split; congruence. Qed.

Ltac ok_inv :=
  repeat match goal with
  | E : (?m ≫= _) = Ok _ |- _ => let x := fresh "x" in let Ex := fresh "Ex" in destruct m as [x|] eqn:Ex; [cbn [mbind outcome_bind] in E; repeat (match type of x with (_ * _)%type => destruct x as [x ?] end; cbn [fst snd] in E)|done]
  end.
Lemma apply_op_books b op b' : apply_op (Sl:=list N) b op = Ok b' → same_books b b'.
Proof using US.
  unfold apply_op. destruct op as [e|u]; destruct (negb _); [..|by intros [= ->]| |by intros [= ->]]; intros E; ok_inv; injection E as <-.
  - unfold apply_remote_edit in Ex. destruct (eo_ranges e); [by injection Ex as ->|]. ok_inv. by injection Ex as <-.
  - unfold apply_undo in Ex. ok_inv. by injection Ex as <-.
Qed.
Lemma apply_or_defer_books rp d op r : apply_or_defer (Sl:=list N) rp d op = Ok r → same_books (rp_buffer rp) (rp_buffer r.1).
Proof using US. unfold apply_or_defer. destruct (can_apply_op rp op); [|by intros [= <-]]. intros E. ok_inv. injection E as <-. by apply apply_op_books in Ex. Qed.
Lemma flush_loop_books rp d ops r : flush_loop (Sl:=list N) rp d ops = Ok r → same_books (rp_buffer rp) (rp_buffer r.1).
Proof using US.
  revert rp d. induction ops as [|op ops IH]; intros rp d; cbn [flush_loop]; [by intros [= <-]|]. intros E. destruct (apply_or_defer _ _ _) as [[rp1 d1]|] eqn:E1; [|done].
  apply apply_or_defer_books in E1. etrans; [exact E1|exact (IH _ _ E)].
Qed.
Lemma apply_loop_books rp d ops r : apply_loop (Sl:=list N) rp d ops = Ok r → same_books (rp_buffer rp) (rp_buffer r.1).
Proof using US.
  revert rp d. induction ops as [|op ops IH]; intros rp d; cbn [apply_loop]; [by intros [= <-]|]. intros E. destruct (history_push _ _) as [h|] eqn:Eh; [|done]. cbn [mbind outcome_bind] in E.
  destruct (apply_or_defer _ _ _) as [[rp1 d1]|] eqn:E1; [|done]. apply apply_or_defer_books in E1. etrans; [|etrans; [exact E1|exact (IH _ _ E)]].
  unfold history_push in Eh. ok_inv. injection Eh as <-. done.
Qed.
Lemma apply_ops_books rp ops rp' : apply_ops (Sl:=list N) rp ops = Ok rp' → same_books (rp_buffer rp) (rp_buffer rp').
Proof using US.
  unfold apply_ops, insert_deferred, flush_deferred_ops. intros E. destruct (apply_loop _ _ _) as [[rp1 d1]|] eqn:E1; [|done]. apply apply_loop_books in E1. cbn [mbind outcome_bind fst] in *.
  destruct (queue_insert (rp_deferred_ops rp1) d1) as [q|]; [|done]. cbn [mbind outcome_bind queue_drain] in E. destruct (queue_iter _) as [l|]; [|done]. cbn [mbind outcome_bind] in E.
  destruct (flush_loop _ _ _) as [[rp2 d2]|] eqn:E2; [|done]. apply flush_loop_books in E2. cbn [mbind outcome_bind fst rp_buffer] in *.
  unfold insert_deferred in E. ok_inv. injection E as <-. by etrans.
Qed.

(** ** The invariant *)
(** The replica has received the messages [R] and applied [A] of them; it has all its own. *)
Record site_ok (H : list Message) (rid : ReplicaId) (site : Site) (R A : list Message) : Prop := {
  so_received : si_received site = to_operation <$> R;
  so_follows : ∃ sp ps, follows text A (si_buffer site) sp ps;
  so_part : part H A;
  so_operations : ∀ x, x ∈ tree_items (operations (b_history (si_buffer site))) → me_key x ∈ time <$> H;
  so_queue : queue_wf (rp_deferred_ops (si_replica site));
  so_waiting : ∀ op, op ∈ queued (si_replica site) → ∃ m, m ∈ R ∧ op = to_operation m;
  so_arrived : ∀ m, m ∈ R → m ∈ A ∨ to_operation m ∈ queued (si_replica site);
  so_applied : ∀ m, m ∈ A → m ∈ R;
  so_known : ∀ m, m ∈ R → m ∈ H;
  so_complete : ∀ m, m ∈ complete H R → m ∈ A ∧ to_operation m ∉ queued (si_replica site);
  so_replica : replica_id (b_lamport_clock (si_buffer site)) = rid;
  so_own : ∀ y, y ∈ H → replica y = rid → y ∈ A;
  so_edits : ∀ e, e ∈ stack_edits (all_entries (b_history (si_buffer site))) → e ∈ time <$> A;
  so_started : all_entries (b_history (si_buffer site)) ≠ [] → A ≠ [];
  so_depth : transaction_depth (b_history (si_buffer site)) = 0
}.
Definition session_ok (s : Session) : Prop := ∃ H, ss_log s = to_operation <$> H ∧ history_valid text H ∧
  (∀ y, y ∈ H → is_Some (ss_sites s !! replica y)) ∧ ∀ rid site, ss_sites s !! rid = Some site → ∃ R A, site_ok H rid site R A.

Lemma site_settled H rid site R A latest : site_ok H rid site R A → clock_room H A latest (si_buffer site) → settled text H latest R A (si_replica site).
Proof.
  intros [] Hc. split; [split; [by split|done..]|..]; intros m Hm; by apply so_complete0.
Qed.
(** Messages of others do not concern a replica before they reach it. *)
Lemma site_grow H rid site R A A0 m : history_valid text H → site_ok H rid site R A → sends text H A0 m → replica m ≠ rid → site_ok (H ++ [m]) rid site R A.
Proof.
  intros HH [] Hs Hne. split; try done.
  - by apply (part_add text H HH A0 m Hs).
  - intros x Hx. rewrite fmap_app, elem_of_app. left. by apply so_operations0.
  - intros y Hy. apply elem_of_app. left. by apply so_known0.
  - intros y [Hy Hp]%complete_elem. apply so_complete0, complete_elem. split; [done|]. intros z Hz. apply Hp. apply elem_of_app. by left.
  - intros y [Hy| ->%list_elem_of_singleton]%elem_of_app Hr; [by apply so_own0|done].
Qed.
(** The replica sends a message. *)
Lemma site_send H rid site R A b' op m :
  history_valid text H → site_ok H rid site R A → sent text H A (si_buffer site) op b' m → transaction_depth (b_history b') = 0 →
  history_valid text (H ++ [m]) ∧ site_ok (H ++ [m]) rid (sent_site site b' op) (R ++ [m]) (A ++ [m]).
Proof.
  intros HH [] [T1 T2 T3 T4 [T5 T5'] T6 T7] Hd. pose proof (history_add text H HH A m T2 T3) as HH'. split; [done|].
  assert (Hnew : m ∉ A) by (intros Hm; apply (sent_new text H A m T2); by apply (ap_sub _ _ so_part0)). split; cbn [sent_site si_replica si_received with_buffer rp_buffer rp_deferred_ops].
  - by rewrite so_received0, fmap_app, T1.
  - done.
  - apply (part_snoc text (H ++ [m]) HH'); [by apply (part_add text H HH A m T2)|set_solver|done|].
    intros y [Hy| ->%list_elem_of_singleton]%elem_of_app Hk; [by apply (sent_knows text H HH A m T2)|]. by rewrite (sent_self text H HH A m T2) in Hk.
  - intros x [->|Hx]%T6; rewrite fmap_app, elem_of_app; [right; by left|left; by apply so_operations0].
  - done.
  - intros o Ho. destruct (so_waiting0 o Ho) as (y & Hy & ->). exists y. split; [set_solver|done].
  - intros y [Hy| ->%list_elem_of_singleton]%elem_of_app; [|left; set_solver]. destruct (so_arrived0 y Hy); [left; set_solver|by right].
  - intros y [Hy| ->%list_elem_of_singleton]%elem_of_app; apply elem_of_app; [left; by apply so_applied0|right; by left].
  - intros y [Hy| ->%list_elem_of_singleton]%elem_of_app; apply elem_of_app; [left; by apply so_known0|right; by left].
  - intros y [[Hy| ->%list_elem_of_singleton]%elem_of_app Hp]%complete_elem.
    + destruct (so_complete0 y) as [? ?]; [|split; [set_solver|done]]. apply complete_elem. split; [done|]. intros z Hz Hk.
      destruct (proj1 (elem_of_app _ _ _) (Hp z ltac:(apply elem_of_app; by left) Hk)) as [?| ->%list_elem_of_singleton]; [done|]. by destruct (sent_new text H A m T2).
    + split; [set_solver|]. intros (y & Hy & E)%so_waiting0. apply (sent_fresh text H A m T2 y (so_known0 y Hy)). by rewrite <-!to_operation_time, E.
  - by rewrite T5.
  - intros y [Hy| ->%list_elem_of_singleton]%elem_of_app Hr; apply elem_of_app; [left; by apply so_own0|right; by left].
  - intros e [->|He]%T7; rewrite fmap_app, elem_of_app; [right; by left|left; by apply so_edits0].
  - intros _. by destruct A.
  - done.
Qed.

(** ** Every step keeps it *)
Lemma session_put s rid site H R A :
  ss_log s = to_operation <$> H → history_valid text H → (∀ y, y ∈ H → is_Some (ss_sites s !! replica y)) →
  (∀ rid site, ss_sites s !! rid = Some site → ∃ R A, site_ok H rid site R A) → site_ok H rid site R A → session_ok (put_site s rid site).
Proof.
  intros El HH Hse Hsi Hs. exists H. split_and!; [done|done|..]; cbn.
  - intros y Hy. apply lookup_insert_is_Some. destruct (decide (rid = replica y)); [by left|right]. split; [done|by apply Hse].
  - intros r st [[<- <-]|[Hne Hl]]%lookup_insert_Some; [by exists R, A|by apply Hsi].
Qed.
Lemma session_send s rid site H R A b' op m :
  ss_log s = to_operation <$> H → history_valid text H → (∀ y, y ∈ H → is_Some (ss_sites s !! replica y)) →
  (∀ rid site, ss_sites s !! rid = Some site → ∃ R A, site_ok H rid site R A) → site_ok H rid site R A →
  sent text H A (si_buffer site) op b' m → transaction_depth (b_history b') = 0 → session_ok (send s rid site b' op).
Proof.
  intros El HH Hse Hsi Hs Ht Hd. destruct (site_send H rid site R A b' op m HH Hs Ht Hd) as [HH' Hs']. pose proof (se_sends _ _ _ _ _ _ _ Ht) as Hse'.
  assert (Er : replica m = rid) by (rewrite (proj2 (se_replica _ _ _ _ _ _ _ Ht)); apply (so_replica _ _ _ _ _ Hs)).
  exists (H ++ [m]). split_and!; [|done|..]; cbn.
  - by rewrite fmap_app, El, (se_operation _ _ _ _ _ _ _ Ht).
  - intros y [Hy| ->%list_elem_of_singleton]%elem_of_app; apply lookup_insert_is_Some; [|by left]. destruct (decide (rid = replica y)); [by left|right]. split; [done|by apply Hse].
  - intros r st [[<- <-]|[Hne Hl]]%lookup_insert_Some; [by exists (R ++ [m]), (A ++ [m])|]. destruct (Hsi r st Hl) as (R1 & A1 & Hs1). exists R1, A1.
    apply (site_grow H r st R1 A1 A m HH Hs1 Hse'). by rewrite Er.
Qed.

Context (Ht : Forall char_ok t) (Hsmall : byte_len text <= 2 ^ 31).

Lemma new_entries rid id b : buffer_new (C:=list N) (Sl:=list N) (Sm:=list N) rid id (str_of t) = Ok b → all_entries (b_history b) = [].
Proof. unfold buffer_new, new_normalized. intros E. ok_inv. by injection E as <-. Qed.
Lemma join_step s rid id : session_ok s → permitted s (Join rid id) → ok_with (step s (Join rid id)) session_ok.
Proof using All.
  intros (H & El & HH & Hse & Hsi) Hp. cbn [step permitted] in *. destruct (ok_with_inv _ _ (new_follows rid id t Ht Hsmall)) as (b & E & Hf & Eo & _ & Hd & Er). rewrite E. cbn.
  apply (session_put s rid _ H [] [] El HH Hse Hsi). pose proof (new_entries rid id b E) as Een. split; cbn [si_replica si_received replica_new rp_buffer rp_deferred_ops]; try done.
  - apply part_nil.
  - rewrite Eo. by intros x ?%not_elem_of_nil.
  - apply queue_new_wf.
  - by intros op ?%not_elem_of_nil.
  - by intros m ?%not_elem_of_nil.
  - by intros m ?%not_elem_of_nil.
  - by intros m [?%not_elem_of_nil _]%complete_elem.
  - intros y Hy Ey. destruct (Hse y Hy) as [site Hsite]. rewrite Ey in Hsite. congruence.
  - rewrite Een. by intros e ?%not_elem_of_nil.
Qed.

Lemma edit_step s rid started ended edits :
  session_ok s → permitted s (LocalEdit rid started ended edits) → ok_with (step s (LocalEdit rid started ended edits)) session_ok.
Proof using All.
  intros (H & El & HH & Hse & Hsi) (site & cs & tail & Hl & -> & Hne & Et & Hcs & Hr). cbn [step]. rewrite Hl. cbn [unwrap mbind outcome_bind].
  destruct (Hsi rid site Hl) as (R & A & Hs). destruct (so_follows _ _ _ _ _ Hs) as (sp & ps & Hf).
  ok_bind (buffer_edit_spec (si_buffer site) sp ps cs tail started ended (fo_wf _ _ _ _ _ Hf) Hr Hne Et Hcs). intros [b' o] (op & ps' & p & Eo & _ & Hd & Hsay). cbn [fst snd] in *. subst o.
  destruct (edit_sent text H HH A (si_buffer site) sp ps Hf (so_part _ _ _ _ _ Hs)) with (cs := cs) (tail := tail) (b' := b') (op := op) (ps' := ps') (p := p) as (m & Hm); [|done|done|done|].
  { intros y Hy Hy'. apply (so_own _ _ _ _ _ Hs); [done|]. rewrite Hy'. apply (so_replica _ _ _ _ _ Hs). }
  cbn [ok_with]. apply (session_send s rid site H R A b' (OpEdit op) m El HH Hse Hsi Hs Hm). rewrite (bd_depth _ _ _ _ _ _ _ _ _ Hd). apply (so_depth _ _ _ _ _ Hs).
Qed.

(** An entry is moved between the stacks and toggled. *)
Lemma follows_history A b sp ps h : follows text A b sp ps → buffer_wf (set_history b h) sp ps → follows text A (set_history b h) sp ps.
Proof. intros [] Hb. by split. Qed.
Lemma entry_edits_elem e x (l : list HistoryEntry) : e ∈ l → x ∈ entry_edits e → x ∈ stack_edits l.
Proof. intros He Hx. unfold stack_edits. apply list_elem_of_In, in_flat_map. exists e. by rewrite <-!list_elem_of_In. Qed.
Lemma toggle_step s rid site H R A undo redo e :
  ss_log s = to_operation <$> H → history_valid text H → (∀ y, y ∈ H → is_Some (ss_sites s !! replica y)) →
  (∀ rid site, ss_sites s !! rid = Some site → ∃ R A, site_ok H rid site R A) → site_ok H rid site R A →
  undo ++ redo ≡ₚ all_entries (b_history (si_buffer site)) → e ∈ all_entries (b_history (si_buffer site)) → toggle_room (si_buffer site) 1 (length (entry_edits e)) →
  ok_with (undo_or_redo (Sl:=list N) (set_history (si_buffer site) (with_stacks (b_history (si_buffer site)) undo redo)) (he_transaction e)) (fun r => session_ok (send s rid site r.1 r.2)).
Proof using All.
  intros El HH Hse Hsi Hs Hp He Hroom. destruct (so_follows _ _ _ _ _ Hs) as (sp & ps & Hf). set (b := si_buffer site) in *. set (b1 := set_history b _).
  pose proof (set_stacks_wf b sp ps undo redo (fo_wf _ _ _ _ _ Hf) (so_depth _ _ _ _ _ Hs) Hp) as Hb1. pose proof (follows_history A b sp ps _ Hf Hb1) as Hf1. fold b1 in Hf1, Hb1.
  assert (Ep : stack_edits (all_entries (b_history b1)) ≡ₚ stack_edits (all_entries (b_history b))) by (by apply stack_edits_perm).
  assert (Hs1 : site_ok H rid (mkSite (with_buffer (si_replica site) b1) (si_received site)) R A).
  { destruct Hs. split; cbn; try done; [by exists sp, ps|intros x Hx; apply so_edits0; fold b; rewrite <-Ep; exact Hx|]. intros _. apply so_started0. intros En. unfold b in He. rewrite En in He. by apply not_elem_of_nil in He. }
  assert (Hstart : 1 < value (b_lamport_clock b)).
  { assert (HA : A ≠ []) by (apply (so_started _ _ _ _ _ Hs); intros En; unfold b in He; rewrite En in He; by apply not_elem_of_nil in He). destruct A as [|m A']; [done|].
    pose proof (fo_clock _ _ _ _ _ Hf m ltac:(by left)). pose proof (mo_time _ _ _ (message_valid text H HH m (ap_sub _ _ (so_part _ _ _ _ _ Hs) m ltac:(by left)))). lia. }
  eapply ok_with_mono; [apply (undo_or_redo_says b1 sp ps (he_transaction e) Hb1)|].
  - exact (entry_times b sp ps e (fo_wf _ _ _ _ _ Hf) He).
  - destruct Hroom. by split.
  - intros [b' op] (ps' & p & cs & Eop & Hsay & Htg & Hst). cbn [fst snd] in *. subst op.
    destruct (toggle_sent text H HH A b1 sp ps Hf1 (so_part _ _ _ _ _ Hs)) with (ids := tx_edit_ids (he_transaction e)) (b' := b') (cs := cs) (ps' := ps') (p := p) as (m & Hm); [|done..| |done|].
    + intros y Hy Hy'. apply (so_own _ _ _ _ _ Hs); [done|]. rewrite Hy'. apply (so_replica _ _ _ _ _ Hs).
    + intros x Hx. apply (so_edits _ _ _ _ _ Hs). by apply (entry_edits_elem e).
    + apply (session_send s rid (mkSite (with_buffer (si_replica site) b1) (si_received site)) H R A b' _ m El HH Hse Hsi Hs1 Hm). destruct Hst as (_ & _ & ->). cbn. apply (so_depth _ _ _ _ _ Hs).
Qed.

Lemma undo_step s rid : session_ok s → permitted s (LocalUndo rid) → ok_with (step s (LocalUndo rid)) session_ok.
Proof using All.
  intros (H & El & HH & Hse & Hsi) (site & Hl & Hr). cbn [step]. rewrite Hl. cbn [unwrap mbind outcome_bind]. destruct (Hsi rid site Hl) as (R & A & Hs).
  unfold buffer_undo, pop_undo. rewrite assert_closed by apply (so_depth _ _ _ _ _ Hs). destruct (snoc_case (undo_stack (b_history (si_buffer site)))) as [E|(l & e & E)]; rewrite E.
  - cbn. apply (session_put s rid _ H R A El HH Hse Hsi). destruct site as [[[sn h c w] q d] rc]. exact Hs.
  - rewrite vec_pop_snoc. cbn [mbind outcome_bind]. rewrite bind_assoc. apply ok_with_bind. eapply ok_with_mono; [apply (toggle_step s rid site H R A l (redo_stack (b_history (si_buffer site)) ++ [e]) e El HH Hse Hsi Hs)|].
    + unfold all_entries. rewrite E, <-app_assoc. apply Permutation_app_head. apply (comm app).
    + unfold all_entries. rewrite E, !elem_of_app, list_elem_of_singleton. auto.
    + apply Hr. by rewrite E, last_snoc.
    + by intros [b' op].
Qed.
Lemma redo_step s rid : session_ok s → permitted s (LocalRedo rid) → ok_with (step s (LocalRedo rid)) session_ok.
Proof using All.
  intros (H & El & HH & Hse & Hsi) (site & Hl & Hr). cbn [step]. rewrite Hl. cbn [unwrap mbind outcome_bind]. destruct (Hsi rid site Hl) as (R & A & Hs).
  unfold buffer_redo, pop_redo. rewrite assert_closed by apply (so_depth _ _ _ _ _ Hs). destruct (snoc_case (redo_stack (b_history (si_buffer site)))) as [E|(l & e & E)]; rewrite E.
  - cbn. apply (session_put s rid _ H R A El HH Hse Hsi). destruct site as [[[sn h c w] q d] rc]. exact Hs.
  - rewrite vec_pop_snoc. cbn [mbind outcome_bind]. rewrite bind_assoc. apply ok_with_bind. eapply ok_with_mono; [apply (toggle_step s rid site H R A (undo_stack (b_history (si_buffer site)) ++ [e]) l e El HH Hse Hsi Hs)|].
    + unfold all_entries. rewrite E, <-app_assoc. apply Permutation_app_head. apply (comm app [e] l).
    + unfold all_entries. rewrite E, !elem_of_app, list_elem_of_singleton. auto.
    + apply Hr. by rewrite E, last_snoc.
    + by intros [b' op].
Qed.

Lemma deliver_step s rid ops : session_ok s → permitted s (Deliver rid ops) → ok_with (step s (Deliver rid ops)) session_ok.
Proof using All.
  intros (H & El & HH & Hse & Hsi) (site & latest & Hl & Hops & Hroom & Hck & Hn). cbn [step]. rewrite Hl. cbn [unwrap mbind outcome_bind]. destruct (Hsi rid site Hl) as (R & A & Hs).
  rewrite El in *. pose proof (log_capacity H latest Hroom) as Hcap. destruct (lr_clock _ _ Hroom) as [_ Hlat]. rewrite !length_fmap in *.
  destruct (from_messages H ops) as (ms & -> & Hms). { intros op (m & -> & Hm)%Hops%list_elem_of_fmap. by exists m. }
  assert (Hcr : clock_room H A latest (si_buffer site)) by (unfold clock_room, count; lia). rewrite length_fmap in Hn.
  pose proof (site_settled H rid site R A latest Hs Hcr) as Hset.
  pose proof (apply_ops_spec text H latest HH Hcap R A (si_replica site) ms (Delivery.se_step _ _ _ _ _ _ Hset) Hms Hn) as Hap.
  destruct (apply_ops (si_replica site) (to_operation <$> ms)) as [rp|] eqn:Erp; [|done]. cbn [ok_with mbind outcome_bind] in *. destruct Hap as (A' & [Hst Hco Hgo] & Hsub).
  destruct Hst as [[Hf Hpa _ Hop] Hq Hw Har Hapd Hkn]. destruct (apply_ops_books _ _ _ Erp) as [(B1 & B2 & B3) B4].
  assert (Een : all_entries (b_history (rp_buffer rp)) = all_entries (b_history (si_buffer site))) by (unfold all_entries; by rewrite B1, B2).
  apply (session_put s rid _ H (R ++ ms) A'); [done..|]. destruct Hs. split; cbn [si_replica si_received]; try done.
  - by rewrite so_received0, fmap_app.
  - intros m Hm. split; [by apply Hco|by apply Hgo].
  - by rewrite B4.
  - intros y Hy Hr. by apply Hsub, so_own0.
  - intros e. rewrite Een. intros He%so_edits0. apply list_elem_of_fmap in He as (y & -> & Hy). by apply list_elem_of_fmap_2, Hsub.
  - rewrite Een. intros HA%so_started0 ->. destruct A as [|y A]; [done|]. by apply (not_elem_of_nil y), Hsub; left.
  - by rewrite B3.
Qed.

Lemma step_ok s a : session_ok s → permitted s a → ok_with (step s a) session_ok.
Proof using All.
  destruct a; [apply join_step|apply edit_step|apply undo_step|apply redo_step|apply deliver_step].
Qed.
Lemma reachable_ok s : reachable s → session_ok s.
Proof using All.
  induction 1 as [|s a s' _ IH Hp E].
  - exists []. split_and!; [done|split; [constructor|constructor|constructor]|by intros y ?%not_elem_of_nil|]. intros rid site Hl. cbn in Hl. by rewrite lookup_empty in Hl.
  - pose proof (step_ok s a IH Hp) as Hok. by rewrite E in Hok.
Qed.
End session.


(** C2: at any time in a session, two replicas whose versions have observed the same
    operations show the same text, whatever each has been through. *)
Theorem session_converges `{US : !UnstableSort, USL : !UnstableSortLaws, HO : !HashOrder, HOL : !HashOrderLaws} t s rid1 site1 rid2 site2 :
  Forall char_ok t → byte_len (normalize_arc t) <= 2 ^ 31 → reachable t s → ss_sites s !! rid1 = Some site1 → ss_sites s !! rid2 = Some site2 →
  (∀ op, op ∈ ss_log s → global_observed (si_version site1) (operation_timestamp op) = global_observed (si_version site2) (operation_timestamp op)) →
  buffer_text (si_buffer site1) = buffer_text (si_buffer site2).
Proof.
  intros Ht Hs Hr H1 H2 Hobs. destruct (reachable_ok t Ht Hs s Hr) as (H & El & HH & _ & Hsi). destruct (Hsi _ _ H1) as (R1 & A1 & Hs1). destruct (Hsi _ _ H2) as (R2 & A2 & Hs2).
  destruct (so_follows _ _ _ _ _ _ Hs1) as (sp1 & ps1 & Hf1). destruct (so_follows _ _ _ _ _ _ Hs2) as (sp2 & ps2 & Hf2). pose proof (so_part _ _ _ _ _ _ Hs1) as P1. pose proof (so_part _ _ _ _ _ _ Hs2) as P2.
  rewrite (follows_text _ _ _ _ _ Hf1), (follows_text _ _ _ _ _ Hf2). f_equal. apply (state_of_perm _ H HH); [done|done|]. apply NoDup_Permutation; [apply P1|apply P2|].
  intros m. assert (Hboth : m ∈ H → m ∈ A1 ↔ m ∈ A2).
  { intros Hm. rewrite <-(observed_received _ H HH A1 m P1 Hm), <-(observed_received _ H HH A2 m P2 Hm), <-(fo_version _ _ _ _ _ Hf1), <-(fo_version _ _ _ _ _ Hf2), <-to_operation_time.
    rewrite Hobs; [done|]. rewrite El. by apply list_elem_of_fmap_2. }
  split; intros Hm; apply Hboth; try done; [by apply (ap_sub _ _ P1)|by apply (ap_sub _ _ P2)].
Qed.

(** C7: a replica that all operations sent so far have reached, in whatever batches and
    orders, has observed all of them and keeps none waiting. *)
Theorem session_delivers `{US : !UnstableSort, USL : !UnstableSortLaws, HO : !HashOrder, HOL : !HashOrderLaws} t s rid site :
  Forall char_ok t → byte_len (normalize_arc t) <= 2 ^ 31 → reachable t s → ss_sites s !! rid = Some site → (∀ op, op ∈ ss_log s → op ∈ si_received site) →
  (∀ op, op ∈ ss_log s → global_observed (si_version site) (operation_timestamp op) = true) ∧ has_deferred_ops (si_replica site) = false.
Proof.
  intros Ht Hs Hr Hl Hall. destruct (reachable_ok t Ht Hs s Hr) as (H & El & HH & _ & Hsi). destruct (Hsi _ _ Hl) as (R & A & Hso). destruct (so_follows _ _ _ _ _ _ Hso) as (sp & ps & Hf).
  assert (HR : ∀ m, m ∈ H → m ∈ complete H R).
  { assert (Hin : ∀ m, m ∈ H → m ∈ R); [|intros m Hm; apply complete_elem; split; [by apply Hin|intros; by apply Hin]].
    intros m Hm. assert (Ho : to_operation m ∈ si_received site) by (apply Hall; rewrite El; by apply list_elem_of_fmap_2). rewrite (so_received _ _ _ _ _ _ Hso) in Ho.
    apply list_elem_of_fmap in Ho as (y & E & Hy). rewrite (same_time _ H HH m y); [done|done|by apply (so_known _ _ _ _ _ _ Hso)|]. by rewrite <-!to_operation_time, E. }
  split.
  - intros op Hop. rewrite El in Hop. apply list_elem_of_fmap in Hop as (m & -> & Hm). rewrite to_operation_time, (fo_version _ _ _ _ _ Hf).
    apply (observed_received _ H HH A m (so_part _ _ _ _ _ _ Hso) Hm). apply (so_complete _ _ _ _ _ _ Hso m (HR m Hm)).
  - unfold has_deferred_ops, queue_is_empty. rewrite queue_len_spec by apply (so_queue _ _ _ _ _ _ Hso). destruct (queued (si_replica site)) as [|op l] eqn:E in |- *; [done|]. exfalso.
    assert (Hop : op ∈ queued (si_replica site)) by (rewrite E; by left). destruct (so_waiting _ _ _ _ _ _ Hso op Hop) as (m & Hm & ->).
    by apply (so_complete _ _ _ _ _ _ Hso m (HR m (so_known _ _ _ _ _ _ Hso m Hm))).
Qed.

(** ** An example *)
Module Play.
#[export] Existing Instance insertion_sort.
#[export] Existing Instance insertion_sort_laws.
#[export] Existing Instance insertion_order.
#[export] Existing Instance insertion_order_laws.
Definition alice : ReplicaId := FIRST_COLLAB_ID.
Definition bob : ReplicaId := mkReplicaId 9.
Definition base : list N := [97; 98].

(** What the limits of the model ask, as a test. *)
Definition edit_fits_b (b : sbuffer) (cs : list Change) : bool :=
  let s := b_snapshot b in let n := fragments_after (bs_fragments s) cs in
  (byte_len (buffer_text b) + byte_len (rope_text (bs_deleted_text s)) + byte_len (inserted cs) <=? 2 ^ 31) && (n <=? MAX_CHUNKS) &&
  (N.of_nat (length (tree_items (bs_fragments s))) + n <? 6 ^ 9) && (N.of_nat (length (tree_items (bs_insertion_slices s))) + n <? 6 ^ 9) &&
  (N.of_nat (S (length (tree_items (operations (b_history b))))) <? 6 ^ 9) && (value (b_lamport_clock b) + 2 <=? u32_max) &&
  (transaction_depth (b_history b) + 1 <? 2 ^ 64).
Lemma edit_fits_room b cs : edit_fits_b b cs = true → edit_room b cs.
Proof. unfold edit_fits_b. rewrite !andb_true_iff, !N.leb_le, !N.ltb_lt. intros ((((((? & ?) & ?) & ?) & ?) & ?) & ?). by repeat split. Qed.
Definition toggle_fits_b (b : sbuffer) (n : nat) : bool :=
  let s := b_snapshot b in
  (byte_len (buffer_text b) + byte_len (rope_text (bs_deleted_text s)) <=? 2 ^ 31) && (N.of_nat (length (tree_items (bs_fragments s))) <=? MAX_CHUNKS) &&
  (N.of_nat (length (tree_items (bs_undo_map s)) + n) <? 6 ^ 9) && (N.of_nat (length (tree_items (operations (b_history b))) + 1) <? 6 ^ 9) &&
  (value (b_lamport_clock b) + 1 <=? u32_max).
Lemma toggle_fits_room b n : toggle_fits_b b n = true → toggle_room b 1 n.
Proof. unfold toggle_fits_b. rewrite !andb_true_iff, !N.leb_le, !N.ltb_lt. intros ((((? & ?) & ?) & ?) & ?). by repeat split. Qed.
Definition log_fits_b (log : list Operation) (latest : N) : bool :=
  let n := N.of_nat (length log) in
  (byte_len base + op_total op_bytes log <=? 2 ^ 31) && (1 + op_total op_fragments log <=? MAX_CHUNKS) && ((n + 2) * (1 + op_total op_fragments log) <? 6 ^ 9) &&
  (op_total op_counts log <? 6 ^ 9) && (n + 1 <? 6 ^ 9) && forallb (fun op => value (operation_timestamp op) <=? latest) log && (2 <=? latest) && (latest + n + 1 <=? u32_max).
Lemma log_fits_room log latest : log_fits_b log latest = true → log_room base log latest.
Proof.
  unfold log_fits_b. rewrite !andb_true_iff, !N.leb_le, !N.ltb_lt, forallb_forall. intros (((((((? & ?) & ?) & ?) & ?) & Hf) & ?) & ?). split; try done.
  apply Forall_forall. intros op Hop. apply N.leb_le, Hf. by apply list_elem_of_In.
Qed.

(** Moves of a script: an edit as a change of the text, a delivery by places in the log. *)
Inductive Move := MJoin (rid : ReplicaId) | MEdit (rid : ReplicaId) (c : Change) (tail : list N) | MUndo (rid : ReplicaId) | MDeliver (rid : ReplicaId) (places : list nat).
Definition action (s : Session) (mv : Move) : Action :=
  match mv with
  | MJoin rid => Join rid 1
  | MEdit rid c _ => LocalEdit rid 0 0 (edits_at 0 [c])
  | MUndo rid => LocalUndo rid
  | MDeliver rid places => Deliver rid (omap (fun i => ss_log s !! i) places)
  end.
Definition allowed (s : Session) (mv : Move) : bool :=
  match mv with
  | MJoin rid => bool_decide (ss_sites s !! rid = None)
  | MEdit rid c tail =>
      match ss_sites s !! rid with
      | Some site => bool_decide (buffer_text (si_buffer site) = before_changes [c] ++ tail) && forallb (fun x => x <? 128) (ch_insert c) && edit_fits_b (si_buffer site) [c]
      | None => false
      end
  | MUndo rid =>
      match ss_sites s !! rid with
      | Some site => match last (undo_stack (b_history (si_buffer site))) with Some e => toggle_fits_b (si_buffer site) (length (entry_edits e)) | None => true end
      | None => false
      end
  | MDeliver rid places =>
      match ss_sites s !! rid with
      | Some site => log_fits_b (ss_log s) 100 && (value (b_lamport_clock (si_buffer site)) + N.of_nat (length (ss_log s)) + 1 <=? u32_max) &&
          (N.of_nat (length (ss_log s) + length (omap (fun i => ss_log s !! i) places)) <? 6 ^ 9)
      | None => false
      end
  end.
Lemma allowed_permitted s mv : allowed s mv = true → permitted base s (action s mv).
Proof.
  destruct mv as [rid|rid c tail|rid|rid places]; cbn [allowed action permitted].
  - by rewrite bool_decide_eq_true.
  - destruct (ss_sites s !! rid) as [site|]; [|done]. rewrite !andb_true_iff, bool_decide_eq_true, forallb_forall. intros ((Et & Hc) & Hf). exists site, [c], tail.
    split_and!; [done|done|done|done| |by apply edit_fits_room]. constructor; [|done]. apply Forall_forall. intros x Hx. left. specialize (Hc x ltac:(by apply list_elem_of_In)). apply N.ltb_lt in Hc. lia.
  - destruct (ss_sites s !! rid) as [site|]; [|done]. intros Hf. exists site. split; [done|]. intros e He. rewrite He in Hf. by apply toggle_fits_room.
  - destruct (ss_sites s !! rid) as [site|]; [|done]. rewrite !andb_true_iff, N.leb_le, N.ltb_lt. intros ((Hl & ?) & ?). exists site, 100. split_and!; [done| |by apply log_fits_room|done|done].
    intros op (i & Hi & Hop)%list_elem_of_omap. by apply list_elem_of_lookup_2 in Hop.
Qed.
Fixpoint play (s : Session) (moves : list Move) : option Session :=
  match moves with
  | [] => Some s
  | mv :: moves => if allowed s mv then match step base s (action s mv) with Ok s' => play s' moves | Panic => None end else None
  end.
Lemma play_reachable s moves s' : reachable base s → play s moves = Some s' → reachable base s'.
Proof.
  revert s. induction moves as [|mv moves IH]; intros s Hr; cbn; [by intros [= <-]|]. destruct (allowed s mv) eqn:E; [|done]. destruct (step base s (action s mv)) as [s1|] eqn:Es; [|done].
  apply IH. eapply reachable_step; [done|by apply allowed_permitted|done].
Qed.

(** Alice puts an x between a and b and undoes it, while Bob replaces the b by a y; the undo
    reaches Bob before the edit it undoes, which reaches him twice. *)
Definition moves : list Move :=
  [MJoin alice; MJoin bob; MEdit alice (mkChange [97] [] [120]) [98]; MEdit bob (mkChange [97] [98] [121]) [];
   MUndo alice; MDeliver bob [2]%nat; MDeliver bob [0; 0]%nat; MDeliver alice [1]%nat].
Definition texts (s : Session) : list (option (list N)) := (fun rid => (fun site => buffer_text (si_buffer site)) <$> (ss_sites s !! rid)) <$> [alice; bob].
End Play.

Import Play.
#[local] Instance range_eq_dec : EqDecision (Range FullOffset).
Proof. solve_decision. Defined.
#[local] Instance edit_operation_eq_dec : EqDecision EditOperation.
Proof. solve_decision. Defined.
#[local] Instance undo_operation_eq_dec : EqDecision UndoOperation.
Proof. solve_decision. Defined.
#[local] Instance operation_eq_dec : EqDecision Operation.
Proof. solve_decision. Defined.

(** The session of the script: all operations have reached both. *)
Definition everywhere (s : Session) : bool :=
  match ss_sites s !! alice, ss_sites s !! bob with
  | Some site1, Some site2 => bool_decide (Forall (fun op => op ∈ si_received site1 ∧ op ∈ si_received site2) (ss_log s)) && allowed s (MUndo bob) &&
      forallb (fun op => global_observed (si_version site1) (operation_timestamp op) && global_observed (si_version site2) (operation_timestamp op)) (ss_log s)
  | _, _ => false
  end.
Lemma played : ∃ s site1 site2, reachable base s ∧ ss_sites s !! alice = Some site1 ∧ ss_sites s !! bob = Some site2 ∧
  buffer_text (si_buffer site1) = [97; 121] ∧ (∀ op, op ∈ ss_log s → op ∈ si_received site1 ∧ op ∈ si_received site2) ∧ permitted base s (LocalUndo bob) ∧ length (ss_log s) = 3%nat ∧
  ∀ op, op ∈ ss_log s → global_observed (si_version site1) (operation_timestamp op) = global_observed (si_version site2) (operation_timestamp op).
Proof.
  assert (Hm : (fun s => (texts s, length (ss_log s), everywhere s)) <$> play (mkSession ∅ []) moves = Some ([Some [97; 121]; Some [97; 121]], 3%nat, true)) by (by vm_compute).
  destruct (play _ _) as [s|] eqn:E; [|done]. injection Hm as M1 _ M2 M3. unfold everywhere in M3. destruct (ss_sites s !! alice) as [site1|] eqn:E1; [|done].
  destruct (ss_sites s !! bob) as [site2|] eqn:E2; [|done]. rewrite !andb_true_iff, forallb_forall in M3. destruct M3 as [[M3 M4] M5]. apply bool_decide_eq_true in M3. rewrite Forall_forall in M3. cbn in M1. 
  exists s, site1, site2. split_and!; [apply (play_reachable _ _ _ (reachable_start _) E)|done|done|congruence|done|by apply (allowed_permitted s (MUndo bob))|done|].
  intros op Hop%list_elem_of_In. specialize (M5 op Hop). apply andb_true_iff in M5 as [-> ->]. done.
Qed.
Lemma base_fits : Forall char_ok base ∧ byte_len (normalize_arc base) <= 2 ^ 31.
Proof. split; [by repeat constructor; left|by vm_compute]. Qed.

Lemma session_delivers_witness : ∃ s site, reachable base s ∧ ss_sites s !! bob = Some site ∧ length (ss_log s) = 3%nat ∧ has_deferred_ops (si_replica site) = false.
Proof.
  destruct played as (s & site1 & site2 & Hr & _ & H2 & _ & Hall & _ & Hn & _). destruct base_fits as [B1 B2].
  destruct (session_delivers base s bob site2 B1 B2 Hr H2) as [_ Hd]; [intros op Hop; apply (Hall op Hop)|]. exists s, site2. split_and!; [exact Hr|exact H2|exact Hn|exact Hd].
Defined.
(** Bob's text is what Alice sees. *)
Lemma session_converges_witness : ∃ s site1 site2, reachable base s ∧ ss_sites s !! alice = Some site1 ∧ ss_sites s !! bob = Some site2 ∧ buffer_text (si_buffer site2) = [97; 121].
Proof.
  destruct played as (s & site1 & site2 & Hr & H1 & H2 & Et & _ & _ & _ & Ho). destruct base_fits as [B1 B2].
  pose proof (session_converges base s alice site1 bob site2 B1 B2 Hr H1 H2 Ho) as E. exists s, site1, site2. rewrite <-E. split_and!; [exact Hr|exact H1|exact H2|exact Et].
Defined.
