(* ===== verification/Bytes.v ===== *)
(** * Results and byte strings

    [Result], byte slices, machine integers as bytes and [chunks], as the relay protocol and the encrypted sync use them.
    Bytes are numbers below 256; [valid_bytes] says so where a number of more than one byte is read. *)

From Stdlib Require Import String.
From S2P Require Import Prelude.
Local Open Scope N_scope.

(** [Result<A, E>] *)
Inductive result (E A : Type) :=
  | Good (a : A)
  | Bad (e : E).
Arguments Good {_ _} _.
Arguments Bad {_ _} _.

#[export] Instance result_ret {E} : MRet (result E) := fun _ a => Good a.
#[export] Instance result_bind {E} : MBind (result E) :=
  fun _ _ f m => match m with Good a => f a | Bad e => Bad e end.
Definition map_err {E F A} (f : E → F) (m : result E A) : result F A :=
  match m with Good a => Good a | Bad e => Bad (f e) end.
Definition is_err {E A} (m : result E A) : bool := match m with Good _ => false | Bad _ => true end.

Lemma result_bind_good {E A B} (m : result E A) (f : A → result E B) b :
  m ≫= f = Good b ↔ ∃ a, m = Good a ∧ f a = Good b.
Proof. destruct m; cbn; naive_solver. Qed.

(** ** Bytes *)
Definition valid_bytes : list N → Prop := Forall (fun b => b < 256).
Definition len {A} (l : list A) : N := N.of_nat (length l).

Lemma len_app {A} (l k : list A) : len (l ++ k) = len l + len k.
Proof. unfold len. rewrite length_app. lia. Qed.
Lemma len_cons {A} (x : A) l : len (x :: l) = 1 + len l.
Proof. unfold len. cbn [length]. lia. Qed.
Lemma len_nil {A} (l : list A) : len l = 0 ↔ l = [].
Proof. unfold len. destruct l; cbn [length]; split; (done || lia). Qed.

(** [<[T]>::is_empty] *)
Definition is_empty_slice {A} (l : list A) : bool := match l with [] => true | _ => false end.
Lemma is_empty_slice_true {A} (l : list A) : is_empty_slice l = true ↔ l = [].
Proof. by destruct l. Qed.

(** [u32::to_be_bytes], [u32::from_be_bytes] *)
Definition to_be_bytes (n : N) : list N :=
  [N.land (N.shiftr n 24) 255; N.land (N.shiftr n 16) 255; N.land (N.shiftr n 8) 255; N.land n 255].
Definition from_be_bytes (bytes : list N) : N :=
  fold_left (fun acc b => N.lor (N.shiftl acc 8) b) bytes 0.

(** [<[T]>::split_first_chunk] *)
Definition split_first_chunk {A} (n : nat) (l : list A) : option (list A * list A) :=
  if (n <=? length l)%nat then Some (take n l, drop n l) else None.

(** [<[T]>::chunks], with one call per chunk. *)
Fixpoint chunks_upto {A} (fuel : nat) (n : nat) (l : list A) : list (list A) :=
  match fuel, l with
  | S fuel, _ :: _ => take n l :: chunks_upto fuel n (drop n l)
  | _, _ => []
  end.
Definition chunks {A} (n : nat) (l : list A) : list (list A) := chunks_upto (length l) n l.

(** [str::as_bytes] *)
Definition as_bytes (s : string) : list N := Ascii.N_of_ascii <$> list_ascii_of_string s.

(** ** Big-endian numbers *)
Lemma shift_in_byte acc b : b < 256 → N.lor (N.shiftl acc 8) b = acc * 256 + b.
Proof.
  intros Hb. rewrite N.shiftl_mul_pow2. change (2 ^ 8) with 256. rewrite <-N.lxor_lor, <-N.add_nocarry_lxor; [done| |];
    (apply N.bits_inj; intros i; rewrite N.land_spec, N.bits_0; change 256 with (2 ^ 8);
     destruct (N.lt_ge_cases i 8);
     [by rewrite N.mul_pow2_bits_low
     |rewrite (N.bits_above_log2 b), andb_false_r; [done|];
      destruct (decide (b = 0)) as [->|]; [cbn; lia|]; apply N.log2_lt_pow2; [lia|];
      apply N.lt_le_trans with 256; [done|]; change 256 with (2 ^ 8); apply N.pow_le_mono_r; lia]).
Qed.
Lemma low_byte n : N.land n 255 = n `mod` 256.
Proof. change 255 with (N.ones 8). by rewrite N.land_ones. Qed.

Lemma length_to_be_bytes n : length (to_be_bytes n) = 4%nat.
Proof. done. Qed.
Lemma to_be_bytes_valid n : valid_bytes (to_be_bytes n).
Proof. unfold to_be_bytes, valid_bytes. repeat constructor; rewrite low_byte; apply N.mod_lt; lia. Qed.
Lemma from_to_be_bytes n : n < 2 ^ 32 → from_be_bytes (to_be_bytes n) = n.
Proof.
  intros Hn. unfold from_be_bytes, to_be_bytes. cbn [fold_left]. rewrite !shift_in_byte by (rewrite low_byte; apply N.mod_lt; lia).
  rewrite !low_byte, !N.shiftr_div_pow2. change (2 ^ 24) with 16777216. change (2 ^ 16) with 65536. change (2 ^ 8) with 256.
  zify. Z.to_euclidean_division_equations. lia.
Qed.
Lemma to_from_be_bytes bs : length bs = 4%nat → valid_bytes bs → to_be_bytes (from_be_bytes bs) = bs ∧ from_be_bytes bs < 2 ^ 32.
Proof.
  destruct bs as [|a [|b [|c [|d [|]]]]]; try done. intros _ Hv. unfold valid_bytes in Hv. rewrite !Forall_cons in Hv. destruct Hv as (?&?&?&?&_).
  unfold from_be_bytes. cbn [fold_left]. rewrite !shift_in_byte by done. unfold to_be_bytes. rewrite !low_byte, !N.shiftr_div_pow2.
  change (2 ^ 24) with 16777216. change (2 ^ 16) with 65536. change (2 ^ 8) with 256. change (2 ^ 32) with 4294967296.
  split; [repeat f_equal|]; zify; Z.to_euclidean_division_equations; lia.
Qed.

(** ** Slices *)
Lemma split_first_chunk_app {A} (l k : list A) n : length l = n → split_first_chunk n (l ++ k) = Some (l, k).
Proof.
  intros <-. unfold split_first_chunk. rewrite length_app, (proj2 (Nat.leb_le _ _)) by lia.
  by rewrite take_app_length, drop_app_length.
Qed.
Lemma split_first_chunk_some {A} (l h t : list A) n : split_first_chunk n l = Some (h, t) → l = h ++ t ∧ length h = n.
Proof.
  unfold split_first_chunk. destruct (Nat.leb_spec n (length l)); [|done]. intros [= <- <-].
  rewrite take_drop, length_take. split; [done|lia].
Qed.
Lemma split_first_chunk_none {A} (l : list A) n : split_first_chunk n l = None ↔ (length l < n)%nat.
Proof. unfold split_first_chunk. destruct (Nat.leb_spec n (length l)); split; (done || lia). Qed.

Section chunks_facts.
Context {A : Type} (n : nat).
Implicit Type l : list A.

Lemma chunks_upto_correct fuel l : (0 < n)%nat → (length l <= fuel)%nat →
  concat (chunks_upto fuel n l) = l ∧ Forall (fun c => c ≠ [] ∧ (length c <= n)%nat) (chunks_upto fuel n l).
Proof.
  intros Hn. revert l. induction fuel as [|fuel IH]; intros [|x l]; cbn [length chunks_upto]; try (by intros; split) || lia.
  intros Hl. destruct (IH (drop n (x :: l))) as [Hc Hf]; [rewrite length_drop; cbn [length]; lia|].
  cbn [concat]. rewrite Hc, take_drop. split; [done|]. constructor; [|done]. rewrite length_take. split; [by destruct n; [lia|]|lia].
Qed.
Lemma chunks_correct l : (0 < n)%nat →
  concat (chunks n l) = l ∧ Forall (fun c => c ≠ [] ∧ (length c <= n)%nat) (chunks n l).
Proof. intros. by apply chunks_upto_correct. Qed.
Lemma byte_chunks_nil l : (0 < n)%nat → chunks n l = [] ↔ l = [].
Proof.
  intros Hn. split; [|by intros ->]. intros E. destruct (chunks_correct l Hn) as [Hc _]. by rewrite E in Hc.
Qed.
End chunks_facts.

Lemma mapM_good {E A B} (f : A → result E B) l k : mapM f l = Good k ↔ Forall2 (fun a b => f a = Good b) l k.
Proof.
  revert k. induction l as [|x l IH]; intros k; cbn.
  - split; [by intros [= <-]|by inversion 1].
  - split.
    + rewrite result_bind_good. intros (b & Hb & H). apply result_bind_good in H as (k' & Hk & [= <-]).
      constructor; [done|]. by apply IH.
    + inversion 1 as [|?? b k' Hb Hk]; subst. rewrite Hb. cbn. by rewrite (proj2 (IH k') Hk).
Qed.

(** ** Text and separators *)
Lemma separator_splits (sep : N) l l' k k' : sep ∉ l → sep ∉ l' → l ++ sep :: k = l' ++ sep :: k' → l = l' ∧ k = k'.
Proof using Type.
  revert l'. induction l as [|x l IH]; intros [|y l']; cbn; rewrite ?not_elem_of_cons.
  - by intros _ _ [= ->].
  - intros _ [Hy _] [= E _]. done.
  - intros [Hx _] _ [= E _]. by destruct Hx.
  - intros [_ Hl] [_ Hl'] [= -> E]. destruct (IH l' Hl Hl' E) as [-> ->]. done.
Qed.

Lemma as_bytes_app s t : as_bytes (s ++ t)%string = as_bytes s ++ as_bytes t.
Proof. induction s as [|c s IH]; [done|]. unfold as_bytes in *. cbn. by rewrite <-IH. Qed.
Lemma as_bytes_inj s t : as_bytes s = as_bytes t → s = t.
Proof.
  unfold as_bytes. intros E. rewrite <-(string_of_list_ascii_of_string s), <-(string_of_list_ascii_of_string t). f_equal.
  revert E. generalize (list_ascii_of_string s) as l, (list_ascii_of_string t) as k.
  induction l as [|c l IH]; intros [|d k] E; try done. injection E as Hc Ek. f_equal; [|by apply IH].
  by rewrite <-(Ascii.ascii_N_embedding c), <-(Ascii.ascii_N_embedding d), Hc.
Qed.
