(* ===== verification/RelayFrame.v ===== *)
(** * Frames of the relay: [crates/remote_relay_protocol/src/frame.rs]

    Two devices talk through a relay server.  A relay frame says which session bytes belong
    to; inside the encrypted channel an inner frame carries a control message on stream 0 or
    bytes of a stream.  Bytes are numbers below 256; [valid_bytes] says so where a number of
    more than one byte is read. *)

From Stdlib Require Import String.
From S2P Require Import Prelude Bytes.
Local Open Scope N_scope.

(** ** Limits *)
Definition MAX_NOISE_MESSAGE_LEN : N := 65535.
Definition MAX_INNER_FRAME_LEN : N := 60 * 1024.
Definition INNER_HEADER_LEN : N := 5.
Definition MAX_INNER_PAYLOAD_LEN : N := MAX_INNER_FRAME_LEN - INNER_HEADER_LEN.
Definition RELAY_HEADER_LEN : N := 4.
Definition MAX_RELAY_PAYLOAD_LEN : N := MAX_NOISE_MESSAGE_LEN.

Inductive FrameError :=
  | Truncated (actual needed : N)
  | EmptyPayload
  | TooLarge (actual limit : N)
  | UnknownKind (kind : N)
  | InvalidStream (reason : string).

(** ** Relay frames *)
Record RelayFrame := mkRelayFrame { rf_session_id : N; rf_payload : list N }.

Definition encode_relay_frame (session_id : N) (payload : list N) : result FrameError (list N) :=
  if is_empty_slice payload then Bad EmptyPayload
  else if MAX_RELAY_PAYLOAD_LEN <? len payload then Bad (TooLarge (len payload) MAX_RELAY_PAYLOAD_LEN)
  else Good (to_be_bytes session_id ++ payload).

Definition decode_relay_frame (bytes : list N) : result FrameError RelayFrame :=
  match split_first_chunk (N.to_nat RELAY_HEADER_LEN) bytes with
  | None => Bad (Truncated (len bytes) RELAY_HEADER_LEN)
  | Some (header, payload) =>
      if is_empty_slice payload then Bad EmptyPayload
      else if MAX_RELAY_PAYLOAD_LEN <? len payload then Bad (TooLarge (len payload) MAX_RELAY_PAYLOAD_LEN)
      else Good (mkRelayFrame (from_be_bytes header) payload)
  end.

(** ** Inner frames *)
Inductive InnerKind := Control | Data.
#[export] Instance InnerKind_eq_dec : EqDecision InnerKind.
Proof. solve_decision. Defined.

(** [kind as u8] *)
Definition kind_byte (kind : InnerKind) : N := match kind with Control => 0 | Data => 1 end.
Definition kind_from_byte (byte : N) : result FrameError InnerKind :=
  match byte with
  | 0 => Good Control
  | 1 => Good Data
  | other => Bad (UnknownKind other)
  end.

Record InnerFrame := mkInnerFrame { if_kind : InnerKind; if_stream_id : N; if_payload : list N }.

Definition validated (kind : InnerKind) (stream_id : N) (payload : list N) : result FrameError InnerFrame :=
  let checked := match kind with
    | Control =>
        if negb (stream_id =? 0) then Bad (InvalidStream "control frames use stream 0")
        else if is_empty_slice payload then Bad EmptyPayload
        else Good ()
    | Data => if stream_id =? 0 then Bad (InvalidStream "stream 0 is reserved for control frames") else Good ()
    end in
  _ ← checked;
  if MAX_INNER_PAYLOAD_LEN <? len payload then Bad (TooLarge (len payload) MAX_INNER_PAYLOAD_LEN)
  else Good (mkInnerFrame kind stream_id payload).

Definition control_frame (payload : list N) : result FrameError InnerFrame := validated Control 0 payload.
Definition data_frame (stream_id : N) (payload : list N) : result FrameError InnerFrame :=
  validated Data stream_id payload.
Definition end_of_stream (stream_id : N) : result FrameError InnerFrame := validated Data stream_id [].

Definition encode_inner_frame (frame : InnerFrame) : list N :=
  kind_byte (if_kind frame) :: to_be_bytes (if_stream_id frame) ++ if_payload frame.

Definition decode_inner_frame (bytes : list N) : result FrameError InnerFrame :=
  match bytes with
  | [] => Bad (Truncated 0 INNER_HEADER_LEN)
  | kind :: rest =>
      match split_first_chunk 4 rest with
      | None => Bad (Truncated (len bytes) INNER_HEADER_LEN)
      | Some (stream_id, payload) =>
          kind ← kind_from_byte kind;
          validated kind (from_be_bytes stream_id) payload
      end
  end.

Definition split_data (stream_id : N) (data : list N) : result FrameError (list InnerFrame) :=
  mapM (data_frame stream_id) (chunks (N.to_nat MAX_INNER_PAYLOAD_LEN) data).

(** ** Relay frames are read as they were written *)
Definition payload_ok {A} (limit : N) (payload : list A) : Prop := payload ≠ [] ∧ len payload <= limit.

Lemma within_limit {A} (l : list A) limit : (limit <? len l) = false ↔ len l <= limit.
Proof. apply N.ltb_ge. Qed.

Lemma encode_relay_good session_id payload :
  payload_ok MAX_RELAY_PAYLOAD_LEN payload →
  encode_relay_frame session_id payload = Good (to_be_bytes session_id ++ payload).
Proof. intros [Hne Hl]. unfold encode_relay_frame. rewrite (proj2 (within_limit _ _) Hl). by destruct payload. Qed.

Lemma encode_relay_only session_id payload bytes :
  encode_relay_frame session_id payload = Good bytes → payload_ok MAX_RELAY_PAYLOAD_LEN payload.
Proof.
  unfold encode_relay_frame. destruct (is_empty_slice payload) eqn:E; [done|].
  destruct (MAX_RELAY_PAYLOAD_LEN <? len payload) eqn:Hl; [done|]. intros _. split; [by intros ->|]. by apply within_limit.
Qed.

(** [encode_relay_frame] accepts exactly the payloads of 1 to 65535 bytes; what it returns [decode_relay_frame]
    reads back; and whatever [decode_relay_frame] accepts is the encoding of what it returns, so the relay and the devices cannot
    disagree on a frame. *)
Theorem relay_frame_codec (session_id : N) (payload bytes : list N) :
  session_id < 2 ^ 32 → valid_bytes bytes →
  ((∃ b, encode_relay_frame session_id payload = Good b) ↔ payload ≠ [] ∧ len payload <= MAX_RELAY_PAYLOAD_LEN) ∧
  (encode_relay_frame session_id payload = Good bytes ↔ decode_relay_frame bytes = Good (mkRelayFrame session_id payload)) ∧
  (decode_relay_frame bytes = Bad (Truncated (len bytes) RELAY_HEADER_LEN) ↔ len bytes < RELAY_HEADER_LEN).
Proof.
  intros Hid Hb. split; [|split].
  - split; [intros [b Hb']; by eapply encode_relay_only|intros; eexists; by apply encode_relay_good].
  - split.
    + intros He. pose proof (encode_relay_only _ _ _ He) as Hok. rewrite (encode_relay_good _ _ Hok) in He. assert (bytes = to_be_bytes session_id ++ payload) as -> by congruence.
      unfold decode_relay_frame. rewrite (split_first_chunk_app (to_be_bytes session_id)) by done. destruct Hok as [Hne Hl].
      rewrite (proj2 (within_limit _ _) Hl), from_to_be_bytes by done. by destruct payload.
    + unfold decode_relay_frame. destruct (split_first_chunk _ _) as [[h t]|] eqn:Hs; [|done].
      destruct (split_first_chunk_some _ _ _ _ Hs) as [-> Hh]. destruct (is_empty_slice t) eqn:Ht; [done|].
      destruct (MAX_RELAY_PAYLOAD_LEN <? len t) eqn:Hl; [done|]. intros [= <- <-].
      apply Forall_app in Hb as [Hb _]. rewrite encode_relay_good; [|split; [by intros ->|by apply within_limit]].
      by rewrite (proj1 (to_from_be_bytes _ Hh Hb)).
  - unfold decode_relay_frame. destruct (split_first_chunk _ _) as [[h t]|] eqn:Hs.
    + destruct (split_first_chunk_some _ _ _ _ Hs) as [-> Hh]. assert (len h = 4) by (unfold len; by rewrite Hh). rewrite len_app.
      destruct (is_empty_slice t); [|destruct (_ <? _)]; (split; [done|unfold RELAY_HEADER_LEN; lia]).
    + split; [|done]. intros _. apply split_first_chunk_none in Hs. unfold len, RELAY_HEADER_LEN in *. lia.
Qed.
Lemma relay_frame_codec_witness :
  7 < 2 ^ 32 ∧ decode_relay_frame [0; 0; 0; 7; 42] = Good (mkRelayFrame 7 [42]) ∧
  encode_relay_frame 7 [42] = Good [0; 0; 0; 7; 42].
Proof.
  split; [done|split; [reflexivity|]].
  apply (relay_frame_codec 7 [42] [0; 0; 0; 7; 42]); [done|unfold valid_bytes; repeat constructor|reflexivity].
Defined.

(** ** Inner frames *)

(** What [validated] lets through. *)
Definition frame_ok (frame : InnerFrame) : Prop :=
  match if_kind frame with
  | Control => if_stream_id frame = 0 ∧ if_payload frame ≠ []
  | Data => if_stream_id frame ≠ 0
  end ∧ len (if_payload frame) <= MAX_INNER_PAYLOAD_LEN.

Lemma validated_good kind stream_id payload frame :
  validated kind stream_id payload = Good frame ↔
  frame = mkInnerFrame kind stream_id payload ∧ frame_ok (mkInnerFrame kind stream_id payload).
Proof.
  unfold validated, frame_ok. cbn [if_kind if_stream_id if_payload]. rewrite <-within_limit.
  destruct kind; destruct (N.eqb_spec stream_id 0); cbn [negb]; try destruct payload eqn:Ep; cbn [is_empty_slice];
    cbn [mbind result_bind]; try (destruct (MAX_INNER_PAYLOAD_LEN <? _)); naive_solver.
Qed.

Lemma kind_from_byte_good b kind : kind_from_byte b = Good kind ↔ b = kind_byte kind.
Proof. destruct b as [|[]], kind; cbn; naive_solver. Qed.

Lemma decode_encode_inner frame : if_stream_id frame < 2 ^ 32 → frame_ok frame → decode_inner_frame (encode_inner_frame frame) = Good frame.
Proof.
  destruct frame as [kind id payload]. cbn [if_stream_id]. intros Hid Hok. unfold encode_inner_frame.
  cbn [if_kind if_stream_id if_payload decode_inner_frame].
  rewrite (split_first_chunk_app (to_be_bytes id)), from_to_be_bytes by done.
  rewrite result_bind_good. exists kind. split; [by apply kind_from_byte_good|]. by apply validated_good.
Qed.
Lemma decode_inner_good bytes frame :
  valid_bytes bytes → if_stream_id frame < 2 ^ 32 →
  decode_inner_frame bytes = Good frame ↔ bytes = encode_inner_frame frame ∧ frame_ok frame.
Proof.
  intros Hb Hid. split; [|intros [-> Hok]; by apply decode_encode_inner].
  destruct bytes as [|k rest]; [done|]. cbn [decode_inner_frame]. destruct (split_first_chunk 4 rest) as [[h t]|] eqn:Hs; [|done].
  destruct (split_first_chunk_some _ _ _ _ Hs) as [-> Hh]. apply Forall_cons in Hb as [_ [Hb _]%Forall_app].
  rewrite result_bind_good. intros (kind & ->%kind_from_byte_good & (-> & Hok)%validated_good).
  unfold encode_inner_frame. cbn [if_kind if_stream_id if_payload]. by rewrite (proj1 (to_from_be_bytes _ Hh Hb)).
Qed.
Lemma len_encode_inner frame : len (encode_inner_frame frame) = INNER_HEADER_LEN + len (if_payload frame).
Proof. unfold encode_inner_frame. rewrite len_cons, len_app. change (len (to_be_bytes _)) with 4. unfold INNER_HEADER_LEN. lia. Qed.
Lemma encode_inner_fits frame : frame_ok frame → len (encode_inner_frame frame) <= MAX_INNER_FRAME_LEN.
Proof. rewrite len_encode_inner. unfold frame_ok, MAX_INNER_PAYLOAD_LEN, INNER_HEADER_LEN, MAX_INNER_FRAME_LEN. lia. Qed.

(** C20: The constructors of [InnerFrame] build exactly the frames the protocol has, and for
    these, encoding and decoding are inverse: a decoded frame is one the constructors accept, and
    its bytes are the only ones that decode to it.  An encoded frame fits [MAX_INNER_FRAME_LEN]. *)
Theorem inner_frame_codec (frame : InnerFrame) (bytes : list N) :
  if_stream_id frame < 2 ^ 32 → valid_bytes bytes →
  (validated (if_kind frame) (if_stream_id frame) (if_payload frame) = Good frame ↔ frame_ok frame) ∧
  (decode_inner_frame bytes = Good frame ↔ bytes = encode_inner_frame frame ∧ frame_ok frame) ∧
  (frame_ok frame → len (encode_inner_frame frame) <= MAX_INNER_FRAME_LEN).
Proof.
  intros Hid Hb. split; [|split].
  - rewrite validated_good. destruct frame; cbn. naive_solver.
  - by apply decode_inner_good.
  - apply encode_inner_fits.
Qed.
Lemma inner_frame_codec_witness :
  decode_inner_frame [1; 0; 0; 1; 2; 9; 9] = Good (mkInnerFrame Data 258 [9; 9]) ∧
  [1; 0; 0; 1; 2; 9; 9] = encode_inner_frame (mkInnerFrame Data 258 [9; 9]).
Proof.
  split; [reflexivity|].
  apply (inner_frame_codec (mkInnerFrame Data 258 [9; 9]) [1; 0; 0; 1; 2; 9; 9]); [done|unfold valid_bytes; repeat constructor|reflexivity].
Defined.

(** The errors of the decoder, in the order it looks for them. *)
Lemma decode_inner_errors bytes :
  match decode_inner_frame bytes with
  | Good _ => True
  | Bad (Truncated actual needed) => actual = len bytes ∧ needed = INNER_HEADER_LEN ∧ len bytes < needed
  | Bad (UnknownKind k) => INNER_HEADER_LEN <= len bytes ∧ head bytes = Some k ∧ 1 < k
  | Bad (InvalidStream _) => INNER_HEADER_LEN <= len bytes ∧
      (head bytes = Some 0 ∧ from_be_bytes (take 4 (tail bytes)) ≠ 0 ∨ head bytes = Some 1 ∧ from_be_bytes (take 4 (tail bytes)) = 0)
  | Bad EmptyPayload => len bytes = INNER_HEADER_LEN ∧ head bytes = Some 0
  | Bad (TooLarge actual limit) => actual = len bytes - INNER_HEADER_LEN ∧ limit = MAX_INNER_PAYLOAD_LEN ∧ limit < actual
  end.
Proof.
  destruct bytes as [|k rest]; [done|]. cbn [decode_inner_frame]. destruct (split_first_chunk 4 rest) as [[h t]|] eqn:Hs.
  - destruct (split_first_chunk_some _ _ _ _ Hs) as [-> Hh].
    assert (Hlh : len h = 4) by (unfold len; by rewrite Hh). rewrite len_cons, len_app, Hlh.
    cbn [tail head]. rewrite take_app_length' by done. unfold INNER_HEADER_LEN.
    destruct (kind_from_byte k) as [kind|e] eqn:Hk; cbn [mbind result_bind].
    + apply kind_from_byte_good in Hk as ->. unfold validated.
      destruct kind; destruct (N.eqb_spec (from_be_bytes h) 0); cbn [negb kind_byte mbind result_bind];
        [destruct t; cbn [is_empty_slice mbind result_bind]| | |]; try (destruct (N.ltb_spec MAX_INNER_PAYLOAD_LEN (len t)));
        try (destruct (N.ltb_spec MAX_INNER_PAYLOAD_LEN (len (n :: t)))); cbn; naive_solver lia.
    + destruct k as [|[]]; cbn in Hk; simplify_eq; repeat split; lia.
  - apply split_first_chunk_none in Hs. rewrite len_cons. unfold INNER_HEADER_LEN, len in *. repeat split; lia.
Qed.

(** ** Streams *)

Lemma chunk_room : (0 < N.to_nat MAX_INNER_PAYLOAD_LEN)%nat.
Proof. unfold MAX_INNER_PAYLOAD_LEN, MAX_INNER_FRAME_LEN, INNER_HEADER_LEN. lia. Qed.

Lemma split_data_good stream_id data : stream_id ≠ 0 →
  split_data stream_id data = Good (mkInnerFrame Data stream_id <$> chunks (N.to_nat MAX_INNER_PAYLOAD_LEN) data).
Proof.
  intros Hid. apply mapM_good. apply Forall2_fmap_r. destruct (chunks_correct (N.to_nat MAX_INNER_PAYLOAD_LEN) data) as [_ Hf].
  { apply chunk_room. }
  apply Forall_Forall2_diag. eapply Forall_impl; [exact Hf|]. cbn beta. intros c [_ Hc]. apply validated_good. split; [done|].
  split; [done|]. cbn [if_payload]. unfold len. lia.
Qed.

(** [split_data] cuts the bytes of a stream into data frames of that stream that are accepted by the constructors, fit one
    encrypted message, carry the bytes in order, and none of which is the empty frame that would end the
    stream; for no bytes there are no frames.  Stream 0 is refused. *)
Theorem split_data_correct (stream_id : N) (data : list N) :
  (stream_id ≠ 0 → ∃ frames, split_data stream_id data = Good frames ∧
     concat (if_payload <$> frames) = data ∧
     Forall (fun f => frame_ok f ∧ if_kind f = Data ∧ if_stream_id f = stream_id ∧ if_payload f ≠ [] ∧
                      len (encode_inner_frame f) <= MAX_INNER_FRAME_LEN) frames ∧
     (frames = [] ↔ data = [])) ∧
  split_data 0 data = match data with
                      | [] => Good []
                      | _ => Bad (InvalidStream "stream 0 is reserved for control frames")
                      end.
Proof.
  pose proof chunk_room as Hn. split.
  - intros Hid. rewrite split_data_good by done. destruct (chunks_correct (N.to_nat MAX_INNER_PAYLOAD_LEN) data Hn) as [Hc Hf].
    eexists. split; [done|]. split; [|split].
    + rewrite <-list_fmap_compose. rewrite <-Hc at 2. f_equal. apply list_fmap_id.
    + apply Forall_fmap. eapply Forall_impl; [exact Hf|]. cbn. intros c [Hne Hl]. unfold frame_ok. cbn.
      assert (len c <= MAX_INNER_PAYLOAD_LEN) by (unfold len; lia). repeat split; try done. by apply encode_inner_fits.
    + rewrite <-(byte_chunks_nil (N.to_nat MAX_INNER_PAYLOAD_LEN) data Hn). split; [apply fmap_nil_inv|by intros ->].
  - unfold split_data, chunks. destruct data; reflexivity.
Qed.
Lemma split_data_correct_witness :
  3 ≠ 0 ∧ ∃ frames, split_data 3 [1; 2] = Good frames ∧ concat (if_payload <$> frames) = [1; 2].
Proof.
  split; [done|]. destruct (split_data_correct 3 [1; 2]) as [H _]. destruct H as (frames & ? & ? & _); [done|]. by exists frames.
Defined.
