(* ===== verification/NoiseSession.v ===== *)
(** * Encrypted sessions: [crates/remote_relay_protocol/src/noise_session.rs]

    Devices encrypt with the Noise protocol; [snow] implements it and is a parameter:
    [NoiseTransport] and [NoiseHandshake] are the calls made to it, [TransportLaws] what its
    documentation promises of them.  A call that changes its object returns the object and
    the result.  A buffer passed to [snow] is a list of the same length; a call that
    succeeds returns how much of it was written, and the buffer. *)

From Stdlib Require Import String.
From S2P Require Import Prelude Bytes RelayFrame.
Local Open Scope N_scope.

Definition KEY_LEN : nat := 32.
Definition NOISE_TAG_LEN : N := 16.
Definition MAX_MESSAGES_PER_DIRECTION : N := N.shiftl 1 32.
Definition MAX_HANDSHAKE_PAYLOAD_LEN : N := MAX_NOISE_MESSAGE_LEN - N.of_nat KEY_LEN - NOISE_TAG_LEN.
Definition FIELD_SEPARATOR : N := 31.

Definition PROLOGUE_LABEL : list N := as_bytes "zode-remote/1".

(** ** Keys *)
Definition prime_plus (first_byte : N) : list N := first_byte :: replicate 30 255 ++ [127].
Definition SMALL_ORDER_KEYS : list (list N) :=
  [ replicate KEY_LEN 0;
    1 :: replicate 31 0;
    [0xe0; 0xeb; 0x7a; 0x7c; 0x3b; 0x41; 0xb8; 0xae; 0x16; 0x56; 0xe3; 0xfa; 0xf1; 0x9f; 0xc4;
     0x6a; 0xda; 0x09; 0x8d; 0xeb; 0x9c; 0x32; 0xb1; 0xfd; 0x86; 0x62; 0x05; 0x16; 0x5f; 0x49;
     0xb8; 0x00];
    [0x5f; 0x9c; 0x95; 0xbc; 0xa3; 0x50; 0x8c; 0x24; 0xb1; 0xd0; 0xb1; 0x55; 0x9c; 0x83; 0xef;
     0x5b; 0x04; 0x44; 0x5c; 0xc4; 0x58; 0x1c; 0x8e; 0x86; 0xd8; 0x22; 0x4e; 0xdd; 0xd0; 0x9f;
     0x11; 0x57];
    prime_plus 0xec;
    prime_plus 0xed;
    prime_plus 0xee ].

Definition is_low_order_public_key (public_key : list N) : bool :=
  let masked := alter (fun b => N.land b 0x7f) 31%nat public_key in
  bool_decide (masked ∈ SMALL_ORDER_KEYS).

(** ** Errors *)
Section noise.
Context {SnowError : Type}.

Inductive NoiseError :=
  | Noise (e : SnowError)
  | InvalidIdentity (field : string)
  | InvalidKeyLength (found : N)
  | MessageTooLarge (actual limit : N)
  | Exhausted
  | Closed
  | HandshakeFailed
  | LowOrderKey
  | Frame (e : FrameError).

(** ** The prologue *)
Fixpoint push_fields (fields : list (string * list N)) (prologue : list N) : result NoiseError (list N) :=
  match fields with
  | [] => Good prologue
  | (field, value) :: fields =>
      if is_empty_slice value || existsb (fun byte => byte =? FIELD_SEPARATOR) value
      then Bad (InvalidIdentity field)
      else push_fields fields (prologue ++ [FIELD_SEPARATOR] ++ value)
  end.
Definition build_prologue (user_id initiator_device_id responder_device_id : list N) : result NoiseError (list N) :=
  push_fields [("user id"%string, user_id);
               ("initiator device id"%string, initiator_device_id);
               ("responder device id"%string, responder_device_id)] PROLOGUE_LABEL.

Definition key_from_slice (bytes : list N) : result NoiseError (list N) :=
  if (length bytes =? KEY_LEN)%nat then Good bytes else Bad (InvalidKeyLength (len bytes)).

(** ** Sessions *)

(** [snow::TransportState] *)
Class NoiseTransport (T : Type) := {
  sending_nonce : T → N;
  receiving_nonce : T → N;
  write_message : T → list N → list N → T * result SnowError (N * list N);
  read_message : T → list N → list N → T * result SnowError (N * list N) }.

Context {T : Type} `{!NoiseTransport T}.

Record Session := mkSession { s_transport : T; s_closed : bool; s_confirmed : bool }.
Definition session_call (A : Type) : Type := Session * result NoiseError A.

Definition is_confirmed (self : Session) : bool := s_confirmed self.
Definition is_closed (self : Session) : bool := s_closed self.
Definition ensure_open (self : Session) : result NoiseError () :=
  if s_closed self then Bad Closed else Good ().
Definition close (self : Session) : Session := mkSession (s_transport self) true (s_confirmed self).

(** [buffer.truncate(length)] *)
Definition truncate (length : N) (buffer : list N) : list N := take (N.to_nat length) buffer.
Definition zeroes (n : N) : list N := replicate (N.to_nat n) 0.

Definition encrypt (self : Session) (plaintext : list N) : session_call (list N) :=
  match ensure_open self with
  | Bad e => (self, Bad e)
  | Good _ =>
      if MAX_INNER_FRAME_LEN <? len plaintext
      then (self, Bad (MessageTooLarge (len plaintext) MAX_INNER_FRAME_LEN))
      else if MAX_MESSAGES_PER_DIRECTION <=? sending_nonce (s_transport self)
      then (close self, Bad Exhausted)
      else match write_message (s_transport self) plaintext (zeroes (len plaintext + NOISE_TAG_LEN)) with
           | (t, Good (length, buffer)) => (mkSession t (s_closed self) (s_confirmed self), Good (truncate length buffer))
           | (t, Bad e) => (mkSession t true (s_confirmed self), Bad (Noise e))
           end
  end.

Definition decrypt (self : Session) (ciphertext : list N) : session_call (list N) :=
  match ensure_open self with
  | Bad e => (self, Bad e)
  | Good _ =>
      if MAX_NOISE_MESSAGE_LEN <? len ciphertext
      then (self, Bad (MessageTooLarge (len ciphertext) MAX_NOISE_MESSAGE_LEN))
      else if MAX_MESSAGES_PER_DIRECTION <=? receiving_nonce (s_transport self)
      then (close self, Bad Exhausted)
      else match read_message (s_transport self) ciphertext (zeroes (len ciphertext)) with
           | (t, Good (length, buffer)) => (mkSession t (s_closed self) true, Good (truncate length buffer))
           | (t, Bad e) => (mkSession t true (s_confirmed self), Bad (Noise e))
           end
  end.

Definition encrypt_frame (self : Session) (frame : InnerFrame) : session_call (list N) :=
  encrypt self (encode_inner_frame frame).
Definition decrypt_frame (self : Session) (ciphertext : list N) : session_call InnerFrame :=
  let '(self, r) := decrypt self ciphertext in
  (self, plaintext ← r; map_err Frame (decode_inner_frame plaintext)).

(** [chunks as u64] is exact: a list has fewer elements than memory has bytes. *)
Definition chunks_fit (sending_nonce : N) (chunks : N) : bool :=
  let remaining := MAX_MESSAGES_PER_DIRECTION - sending_nonce in chunks <=? remaining.

(** [map] with a call on the session, collected up to the first error. *)
Fixpoint each_call {A B} (call : Session → A → session_call B) (self : Session) (l : list A) : session_call (list B) :=
  match l with
  | [] => (self, Good [])
  | x :: l =>
      match call self x with
      | (self, Bad e) => (self, Bad e)
      | (self, Good b) => let '(self, r) := each_call call self l in (self, k ← r; Good (b :: k))
      end
  end.

Definition encrypt_data_chunks (self : Session) (stream_id : N) (data : list N) : session_call (list (list N)) :=
  match ensure_open self with
  | Bad e => (self, Bad e)
  | Good _ =>
      match split_data stream_id data with
      | Bad e => (self, Bad (Frame e))
      | Good frames =>
          if negb (chunks_fit (sending_nonce (s_transport self)) (len frames)) then (close self, Bad Exhausted)
          else each_call encrypt_frame self frames
      end
  end.

(** ** Handshakes *)

(** [snow::HandshakeState] and [snow::Builder], the latter as the one call it is used for. *)
Class NoiseHandshake (H : Type) := {
  build_state : bool → list N → list N → list N → option (list N) → result SnowError H;
  handshake_write : H → list N → list N → H * result SnowError (N * list N);
  handshake_read : H → list N → list N → H * result SnowError (N * list N);
  is_initiator : H → bool;
  is_handshake_finished : H → bool;
  into_transport_mode : H → result SnowError T }.

Context {H : Type} `{!NoiseHandshake H}.

Record HandshakeParameters := mkHandshakeParameters {
  hp_local_private_key : list N; hp_remote_public_key : list N; hp_prologue : list N }.
Record Handshake := mkHandshake { h_state : H; h_failed : bool }.

Definition handshake_build (parameters : HandshakeParameters) (ephemeral_private_key : option (list N)) (initiator : bool)
    : result NoiseError Handshake :=
  if is_low_order_public_key (hp_remote_public_key parameters) then Bad LowOrderKey
  else
    state ← map_err Noise (build_state initiator (hp_local_private_key parameters) (hp_remote_public_key parameters)
                             (hp_prologue parameters) ephemeral_private_key);
    Good (mkHandshake state false).
Definition initiator (parameters : HandshakeParameters) : result NoiseError Handshake := handshake_build parameters None true.
Definition responder (parameters : HandshakeParameters) : result NoiseError Handshake := handshake_build parameters None false.

Definition ensure_usable (self : Handshake) : result NoiseError () :=
  if h_failed self then Bad HandshakeFailed else Good ().

Definition hs_write_message (self : Handshake) (payload : list N) : Handshake * result NoiseError (list N) :=
  match ensure_usable self with
  | Bad e => (self, Bad e)
  | Good _ =>
      if MAX_HANDSHAKE_PAYLOAD_LEN <? len payload
      then (self, Bad (MessageTooLarge (len payload) MAX_HANDSHAKE_PAYLOAD_LEN))
      else match handshake_write (h_state self) payload (zeroes MAX_NOISE_MESSAGE_LEN) with
           | (state, Good (length, buffer)) => (mkHandshake state (h_failed self), Good (truncate length buffer))
           | (state, Bad e) => (mkHandshake state true, Bad (Noise e))
           end
  end.

Definition read_checked (self : Handshake) (message : list N) : Handshake * result NoiseError (list N) :=
  if MAX_NOISE_MESSAGE_LEN <? len message
  then (self, Bad (MessageTooLarge (len message) MAX_NOISE_MESSAGE_LEN))
  else
    let low_order := match split_first_chunk KEY_LEN message with
      | Some (ephemeral, _) => is_low_order_public_key ephemeral
      | None => false
      end in
    if low_order : bool then (self, Bad LowOrderKey)
    else match handshake_read (h_state self) message (zeroes MAX_NOISE_MESSAGE_LEN) with
         | (state, Good (length, buffer)) => (mkHandshake state (h_failed self), Good (truncate length buffer))
         | (state, Bad e) => (mkHandshake state (h_failed self), Bad (Noise e))
         end.

Definition hs_read_message (self : Handshake) (message : list N) : Handshake * result NoiseError (list N) :=
  match ensure_usable self with
  | Bad e => (self, Bad e)
  | Good _ =>
      let '(self, result) := read_checked self message in
      (if is_err result then mkHandshake (h_state self) true else self, result)
  end.

Definition is_finished (self : Handshake) : bool := is_handshake_finished (h_state self).

Definition into_session (self : Handshake) : result NoiseError Session :=
  _ ← ensure_usable self;
  let confirmed := is_initiator (h_state self) in
  transport ← map_err Noise (into_transport_mode (h_state self));
  Good (mkSession transport false confirmed).
End noise.
Arguments NoiseError : clear implicits.
Arguments NoiseTransport : clear implicits.
Arguments Session : clear implicits.
Arguments NoiseHandshake : clear implicits.
Arguments Handshake : clear implicits.

(** ** What [snow] promises of a transport

    [linked s r]: what [s] writes next is what [r] expects to read next.  A nonce counts the
    messages of a direction that succeeded. *)
Class TransportLaws (SnowError T : Type) `{!NoiseTransport SnowError T} := {
  linked : T → T → Prop;
  linked_nonces s r : linked s r → receiving_nonce r = sending_nonce s;
  write_nonces s p b :
    receiving_nonce (write_message s p b).1 = receiving_nonce s ∧
    sending_nonce (write_message s p b).1 = sending_nonce s + (if is_err (write_message s p b).2 then 0 else 1);
  read_nonces r m b :
    sending_nonce (read_message r m b).1 = sending_nonce r ∧
    receiving_nonce (read_message r m b).1 = receiving_nonce r + (if is_err (read_message r m b).2 then 0 else 1);
  write_linked s r p b :
    linked s r → len p + NOISE_TAG_LEN <= MAX_NOISE_MESSAGE_LEN → len p + NOISE_TAG_LEN <= len b →
    sending_nonce s < u64_max →
    ∃ s' b', write_message s p b = (s', Good (len p + NOISE_TAG_LEN, b')) ∧ length b' = length b ∧
      ∀ c, len p <= len c → ∃ r' c',
        read_message r (truncate (len p + NOISE_TAG_LEN) b') c = (r', Good (len p, c')) ∧
        truncate (len p) c' = p ∧ linked s' r' }.

(** A transport that sends in the clear and numbers its messages satisfies the laws. *)
Module Clear.
Record State := mkState { sent : N; received : N }.
Definition tag (n : N) : list N := to_be_bytes n ++ replicate 12 0.
Definition overlay (l buffer : list N) : list N := l ++ drop (length l) buffer.
Definition write (s : State) (p b : list N) : State * result () (N * list N) :=
  if (len b <? len p + NOISE_TAG_LEN) || (u64_max <=? sent s) then (s, Bad ())
  else (mkState (sent s + 1) (received s), Good (len p + NOISE_TAG_LEN, overlay (p ++ tag (sent s)) b)).
Definition read (r : State) (m b : list N) : State * result () (N * list N) :=
  let n := len m - NOISE_TAG_LEN in
  if (len m <? NOISE_TAG_LEN) || (len b <? n) || negb (bool_decide (drop (N.to_nat n) m = tag (received r))) then (r, Bad ())
  else (mkState (sent r) (received r + 1), Good (n, overlay (take (N.to_nat n) m) b)).
End Clear.
#[export] Instance Clear_transport : NoiseTransport () Clear.State :=
  {| sending_nonce := Clear.sent; receiving_nonce := Clear.received; write_message := Clear.write; read_message := Clear.read |}.

Lemma len_replicate {A} n (x : A) : len (replicate (N.to_nat n) x) = n.
Proof. unfold len. rewrite length_replicate. lia. Qed.
Lemma len_zeroes n : len (zeroes n) = n.
Proof. apply len_replicate. Qed.
Lemma truncate_overlay l b : truncate (len l) (Clear.overlay l b) = l.
Proof. unfold truncate, Clear.overlay, len. rewrite Nat2N.id. by rewrite take_app_length. Qed.

#[export] Instance Clear_laws : TransportLaws () Clear.State.
Proof.
  refine {| linked s r := Clear.received r = Clear.sent s |}.
  - done.
  - intros s p b. cbn. unfold Clear.write. destruct (_ || _); cbn; lia.
  - intros r m b. cbn. unfold Clear.read. destruct (_ || _); cbn; lia.
  - intros s r p b Hl Hp Hb Hn. cbn in *. unfold Clear.write.
    rewrite (proj2 (N.ltb_ge _ _)), (proj2 (N.leb_gt _ _)) by done. cbn [orb].
    eexists _, _. split; [done|]. assert (Ht : len (p ++ Clear.tag (Clear.sent s)) = len p + NOISE_TAG_LEN) by (rewrite len_app; done).
    split. { unfold Clear.overlay. rewrite length_app, length_drop. unfold len in *. lia. }
    intros c Hc. rewrite <-Ht, truncate_overlay. unfold Clear.read. rewrite Ht.
    replace (len p + NOISE_TAG_LEN - NOISE_TAG_LEN) with (len p) by lia.
    rewrite (proj2 (N.ltb_ge _ _)), (proj2 (N.ltb_ge _ _)) by lia.
    replace (N.to_nat (len p)) with (length p) by (unfold len; lia). rewrite take_app_length, drop_app_length, bool_decide_true by (by rewrite Hl). cbn [orb negb].
    eexists _, _. split; [done|]. split; [apply truncate_overlay|]. cbn. lia.
Defined.

(** ** A stream arrives *)
Section sessions.
Context {SnowError T : Type} `{!NoiseTransport SnowError T} `{!TransportLaws SnowError T}.
Implicit Types a b : Session T.

(** [a] is about to send what [b] is about to receive. *)
Definition session_linked a b : Prop :=
  s_closed a = false ∧ s_closed b = false ∧ linked (s_transport a) (s_transport b).
Local Abbreviation sent_by a := (sending_nonce (s_transport a)).
Local Abbreviation received_by b := (receiving_nonce (s_transport b)).

Lemma message_roundtrip a b p :
  session_linked a b → len p <= MAX_INNER_FRAME_LEN → sent_by a < MAX_MESSAGES_PER_DIRECTION →
  ∃ a' b' m, encrypt a p = (a', Good m) ∧ decrypt b m = (b', Good p) ∧ session_linked a' b' ∧
    sent_by a' = sent_by a + 1 ∧ s_confirmed a' = s_confirmed a ∧ s_confirmed b' = true ∧
    len m = len p + NOISE_TAG_LEN ∧ len m <= MAX_NOISE_MESSAGE_LEN.
Proof using All.
  intros (Ha & Hb & Hl) Hp Hn. unfold encrypt, ensure_open. rewrite Ha, (proj2 (N.ltb_ge _ _)), (proj2 (N.leb_gt _ _)) by done.
  assert (len p + NOISE_TAG_LEN <= MAX_NOISE_MESSAGE_LEN) as Hfit by (revert Hp; unfold MAX_INNER_FRAME_LEN, NOISE_TAG_LEN, MAX_NOISE_MESSAGE_LEN; lia).
  destruct (write_linked _ _ p (zeroes (len p + NOISE_TAG_LEN)) Hl Hfit) as (s' & buf & Hw & Hbuf & Hread).
  { by rewrite len_zeroes. } { by apply N.lt_trans with MAX_MESSAGES_PER_DIRECTION. }
  destruct (write_nonces (s_transport a) p (zeroes (len p + NOISE_TAG_LEN))) as [_ Hnonce].
  rewrite Hw in *. cbn in Hnonce. set (m := truncate (len p + NOISE_TAG_LEN) buf) in *.
  assert (Hm : len m = len p + NOISE_TAG_LEN).
  { unfold m, truncate, len. rewrite length_take, Hbuf. unfold zeroes. rewrite length_replicate. unfold len. lia. }
  destruct (Hread (zeroes (len m))) as (r' & buf' & Hr & Hp' & Hl'). { rewrite len_zeroes. lia. }
  exists (mkSession s' (s_closed a) (s_confirmed a)), (mkSession r' (s_closed b) true), m. rewrite Ha at 1. split; [done|]. split.
  - unfold decrypt, ensure_open. rewrite Hb, (proj2 (N.ltb_ge _ _)), (proj2 (N.leb_gt _ _)) by (rewrite ?(linked_nonces _ _ Hl); lia).
    by rewrite Hr, Hp'.
  - cbn. repeat split; try done; lia.
Qed.

Lemma frame_roundtrip a b f :
  session_linked a b → frame_ok f → if_stream_id f < 2 ^ 32 → sent_by a < MAX_MESSAGES_PER_DIRECTION →
  ∃ a' b' m, encrypt_frame a f = (a', Good m) ∧ decrypt_frame b m = (b', Good f) ∧ session_linked a' b' ∧
    sent_by a' = sent_by a + 1 ∧ s_confirmed a' = s_confirmed a ∧ s_confirmed b' = true ∧ len m <= MAX_NOISE_MESSAGE_LEN.
Proof using All.
  intros Hl Hf Hid Hn. destruct (message_roundtrip a b (encode_inner_frame f) Hl (encode_inner_fits _ Hf) Hn)
    as (a' & b' & m & He & Hd & Hl' & ? & ? & ? & _ & ?).
  exists a', b', m. split; [done|]. split; [|done]. unfold decrypt_frame. rewrite Hd. cbn [mbind result_bind]. by rewrite decode_encode_inner.
Qed.

Lemma frames_roundtrip fs : ∀ a b,
  session_linked a b → Forall (fun f => frame_ok f ∧ if_stream_id f < 2 ^ 32) fs →
  sent_by a + len fs <= MAX_MESSAGES_PER_DIRECTION →
  ∃ a' b' ms, each_call encrypt_frame a fs = (a', Good ms) ∧ each_call decrypt_frame b ms = (b', Good fs) ∧
    session_linked a' b' ∧ sent_by a' = sent_by a + len fs ∧ s_confirmed a' = s_confirmed a ∧
    s_confirmed b' = (s_confirmed b || negb (is_empty_slice fs)) ∧ Forall (fun m => len m <= MAX_NOISE_MESSAGE_LEN) ms.
Proof using All.
  induction fs as [|f fs IH]; intros a b Hl Hf Hn.
  - exists a, b, []. cbn. rewrite orb_false_r. change (len []) with 0. repeat split; try apply Hl; auto; lia.
  - rewrite len_cons in *. apply Forall_cons in Hf as [[Hf Hid] Hfs].
    destruct (frame_roundtrip a b f Hl Hf Hid) as (a1 & b1 & m & He & Hd & Hl1 & Hn1 & Hca & Hcb & Hm); [lia|].
    destruct (IH a1 b1 Hl1 Hfs) as (a2 & b2 & ms & Hes & Hds & Hl2 & Hn2 & Hca2 & Hcb2 & Hms); [lia|].
    exists a2, b2, (m :: ms). cbn. rewrite He, Hd. cbn. rewrite Hes, Hds. cbn. rewrite Hcb2, Hcb, orb_true_r.
    repeat split; try apply Hl2; try congruence; [lia|by constructor].
Qed.

(** C16: Bytes that one end of a session sends on a stream arrive: [encrypt_data_chunks] seals them in
    messages within the limit of Noise, and the other end, decrypting these in order, gets data frames of the stream whose payloads
    are the bytes, none of them an end of stream; both ends stay open and in step, and the receiver
    counts its peer as live.  If too few messages are left for all of them, none is sent and the session closes. *)
Theorem stream_roundtrip a b (stream_id : N) (data : list N) :
  session_linked a b → sent_by a <= MAX_MESSAGES_PER_DIRECTION → stream_id ≠ 0 → stream_id < 2 ^ 32 →
  let n := len (chunks (N.to_nat MAX_INNER_PAYLOAD_LEN) data) in
  if sent_by a + n <=? MAX_MESSAGES_PER_DIRECTION then
    ∃ a' b' messages frames, encrypt_data_chunks a stream_id data = (a', Good messages) ∧
      Forall (fun m => len m <= MAX_NOISE_MESSAGE_LEN) messages ∧
      each_call decrypt_frame b messages = (b', Good frames) ∧
      concat (if_payload <$> frames) = data ∧
      Forall (fun f => if_kind f = Data ∧ if_stream_id f = stream_id ∧ if_payload f ≠ []) frames ∧
      session_linked a' b' ∧ sent_by a' = sent_by a + n ∧
      is_confirmed b' = (is_confirmed b || negb (is_empty_slice data))
  else encrypt_data_chunks a stream_id data = (close a, Bad Exhausted).
Proof using All.
  intros Hl Hsent Hid Hid' n. unfold encrypt_data_chunks, ensure_open. rewrite (proj1 Hl), split_data_good by done.
  unfold chunks_fit. replace (len (mkInnerFrame Data stream_id <$> _)) with n by (unfold n, len; by rewrite length_fmap).
  destruct (chunks_correct (N.to_nat MAX_INNER_PAYLOAD_LEN) data chunk_room) as [Hc Hf].
  destruct (N.leb_spec (sent_by a + n) MAX_MESSAGES_PER_DIRECTION) as [Hn|Hn].
  - rewrite (proj2 (N.leb_le _ _)) by lia. cbn [negb].
    destruct (frames_roundtrip (mkInnerFrame Data stream_id <$> chunks (N.to_nat MAX_INNER_PAYLOAD_LEN) data) a b Hl)
      as (a' & b' & ms & He & Hd & Hl' & Hs & _ & Hcb & Hms).
    + apply Forall_fmap. eapply Forall_impl; [exact Hf|]. cbn. intros c [_ Hlen]. split; [|done]. split; [done|]. cbn. unfold len. lia.
    + revert Hn. unfold n, len. by rewrite length_fmap.
    + eexists a', b', ms, _. split; [exact He|]. split; [done|]. split; [exact Hd|]. split.
      { rewrite <-list_fmap_compose. rewrite <-Hc at 2. f_equal. apply list_fmap_id. }
      split. { apply Forall_fmap. eapply Forall_impl; [exact Hf|]. cbn. tauto. }
      split; [done|]. split. { rewrite Hs. unfold n, len. by rewrite length_fmap. }
      unfold is_confirmed. rewrite Hcb. f_equal. f_equal.
      pose proof (byte_chunks_nil (N.to_nat MAX_INNER_PAYLOAD_LEN) data chunk_room) as Hnil.
      destruct (chunks _ _), data; cbn; naive_solver.
  - by rewrite (proj2 (N.leb_gt _ _)) by lia.
Qed.
End sessions.
Lemma stream_roundtrip_witness :
  ∃ a b : Session Clear.State, session_linked a b ∧ sending_nonce (s_transport a) <= MAX_MESSAGES_PER_DIRECTION ∧
  ∃ messages frames, (encrypt_data_chunks a 5 [1; 2; 3]).2 = Good messages ∧
    (each_call decrypt_frame b messages).2 = Good frames ∧ concat (if_payload <$> frames) = [1; 2; 3].
Proof.
  exists (mkSession (Clear.mkState 7 2) false true), (mkSession (Clear.mkState 2 7) false false).
  assert (Hl : session_linked (mkSession (Clear.mkState 7 2) false true) (mkSession (Clear.mkState 2 7) false false)) by done.
  split; [exact Hl|]. split; [by vm_compute|].
  assert (H5 : 5 ≠ 0) by done.
  pose proof (stream_roundtrip _ _ 5 [1; 2; 3] Hl ltac:(by vm_compute) H5 ltac:(by vm_compute)) as W.
  destruct W as (a' & b' & ms & fs & -> & _ & Hd & Hc & _). exists ms, fs. split; [done|]. by rewrite Hd.
Defined.

(** ** All uses of a session *)
Inductive Call :=
  | Encrypt (plaintext : list N)
  | Decrypt (ciphertext : list N)
  | EncryptFrame (frame : InnerFrame)
  | DecryptFrame (ciphertext : list N)
  | EncryptDataChunks (stream_id : N) (data : list N).
Inductive Reply :=
  | Message (bytes : list N)
  | Received (frame : InnerFrame)
  | Messages (all : list (list N)).

Section uses.
Context {SnowError T : Type} `{!NoiseTransport SnowError T}.
Implicit Types s : Session T.

Definition reply_with {A} (f : A → Reply) (r : @session_call SnowError T A) : @session_call SnowError T Reply :=
  (r.1, a ← r.2; Good (f a)).
Definition do_call s (c : Call) : @session_call SnowError T Reply :=
  match c with
  | Encrypt p => reply_with Message (encrypt s p)
  | Decrypt m => reply_with Message (decrypt s m)
  | EncryptFrame f => reply_with Message (encrypt_frame s f)
  | DecryptFrame m => reply_with Received (decrypt_frame s m)
  | EncryptDataChunks stream_id data => reply_with Messages (encrypt_data_chunks s stream_id data)
  end.
Fixpoint do_calls s (cs : list Call) : Session T * list (result (NoiseError SnowError) Reply) :=
  match cs with
  | [] => (s, [])
  | c :: cs => let '(s, r) := do_call s c in let '(s, rs) := do_calls s cs in (s, r :: rs)
  end.

(** An error after which nothing more can be said on the session. *)
Definition fatal (e : NoiseError SnowError) : bool := match e with Noise _ | Exhausted | Closed => true | _ => false end.

Context `{!TransportLaws SnowError T}.

(** What every call respects. *)
Definition used s s' : Prop :=
  (s_closed s = true → s' = s) ∧
  (sending_nonce (s_transport s) <= MAX_MESSAGES_PER_DIRECTION → sending_nonce (s_transport s') <= MAX_MESSAGES_PER_DIRECTION) ∧
  (receiving_nonce (s_transport s) <= MAX_MESSAGES_PER_DIRECTION → receiving_nonce (s_transport s') <= MAX_MESSAGES_PER_DIRECTION) ∧
  receiving_nonce (s_transport s) <= receiving_nonce (s_transport s') ∧
  s_confirmed s' = (s_confirmed s || (receiving_nonce (s_transport s) <? receiving_nonce (s_transport s'))).
Definition answered {A} s (r : @session_call SnowError T A) : Prop :=
  used s r.1 ∧ (s_closed s = true → r.2 = Bad Closed) ∧ (∀ e, r.2 = Bad e → fatal e = true → s_closed r.1 = true).

Lemma used_refl s : used s s.
Proof using Type. unfold used. rewrite N.ltb_irrefl, orb_false_r. repeat split; try done; lia. Qed.
Lemma used_trans s1 s2 s3 : used s1 s2 → used s2 s3 → used s1 s3.
Proof using Type.
  intros (Hc1 & Hs1 & Hr1 & Hm1 & Hf1) (Hc2 & Hs2 & Hr2 & Hm2 & Hf2). split; [|split; [auto|split; [auto|split; [lia|]]]].
  - intros Hc. specialize (Hc1 Hc) as ->. by apply Hc2.
  - rewrite Hf2, Hf1, <-orb_assoc. f_equal.
    destruct (N.ltb_spec (receiving_nonce (s_transport s1)) (receiving_nonce (s_transport s2))),
      (N.ltb_spec (receiving_nonce (s_transport s2)) (receiving_nonce (s_transport s3))),
      (N.ltb_spec (receiving_nonce (s_transport s1)) (receiving_nonce (s_transport s3))); cbn; (done || lia).
Qed.

Lemma encrypt_answered s p : answered s (encrypt s p).
Proof using All.
  unfold answered, encrypt, ensure_open. destruct (s_closed s) eqn:Hc.
  { cbn. split; [apply used_refl|naive_solver]. }
  destruct (MAX_INNER_FRAME_LEN <? len p). { cbn. split; [apply used_refl|naive_solver]. }
  destruct (N.leb_spec MAX_MESSAGES_PER_DIRECTION (sending_nonce (s_transport s))).
  { cbn. split; [|naive_solver]. unfold used, close. cbn. rewrite N.ltb_irrefl, orb_false_r, Hc. repeat split; try done; lia. }
  destruct (write_nonces (s_transport s) p (zeroes (len p + NOISE_TAG_LEN))) as [Hr Hs].
  destruct (write_message _ _ _) as [t [[n b]|e]]; cbn in *; unfold used; cbn; rewrite Hr, N.ltb_irrefl, orb_false_r, Hc; naive_solver lia.
Qed.
Lemma decrypt_answered s m : answered s (decrypt s m).
Proof using All.
  unfold answered, decrypt, ensure_open. destruct (s_closed s) eqn:Hc.
  { cbn. split; [apply used_refl|naive_solver]. }
  destruct (MAX_NOISE_MESSAGE_LEN <? len m). { cbn. split; [apply used_refl|naive_solver]. }
  destruct (N.leb_spec MAX_MESSAGES_PER_DIRECTION (receiving_nonce (s_transport s))).
  { cbn. split; [|naive_solver]. unfold used, close. cbn. rewrite N.ltb_irrefl, orb_false_r, Hc. repeat split; try done; lia. }
  destruct (read_nonces (s_transport s) m (zeroes (len m))) as [Hs Hr].
  destruct (read_message _ _ _) as [t [[n b]|e]]; cbn in *; unfold used; cbn; rewrite Hc.
  - rewrite (proj2 (N.ltb_lt _ _)), orb_true_r by lia. naive_solver lia.
  - rewrite Hr, N.add_0_r, N.ltb_irrefl, orb_false_r. naive_solver lia.
Qed.

Lemma decrypt_frame_answered s m : answered s (decrypt_frame s m).
Proof using All.
  unfold decrypt_frame. destruct (decrypt_answered s m) as (Hu & Hc & Hf). destruct (decrypt s m) as [s' [p|e]]; cbn in *.
  - split; [done|]. split; [naive_solver|]. cbn. intros e. destruct (decode_inner_frame p); cbn; [done|]. by intros [= <-].
  - split; [done|]. split; [naive_solver|]. cbn. naive_solver.
Qed.
Lemma each_encrypt_answered fs : ∀ s, s_closed s = false → answered s (each_call encrypt_frame s fs).
Proof using All.
  induction fs as [|f fs IH]; intros s Ho; cbn.
  - split; [apply used_refl|]. cbn. split; [congruence|naive_solver].
  - destruct (encrypt_answered s (encode_inner_frame f)) as (Hu & Hc & Hf). unfold encrypt_frame in *.
    destruct (encrypt s _) as [s1 [m|e]] eqn:He; cbn in *; [|split; [done|naive_solver]].
    assert (Ho1 : s_closed s1 = false).
    { unfold encrypt, ensure_open in He. rewrite Ho in He. repeat case_match; naive_solver. }
    destruct (IH s1 Ho1) as (Hu' & _ & Hf'). destruct (each_call _ _ _) as [s2 [ms|e]]; cbn in *; (split; [by eapply used_trans|]); cbn; naive_solver.
Qed.
Lemma encrypt_data_chunks_answered s stream_id data : answered s (encrypt_data_chunks s stream_id data).
Proof using All.
  unfold encrypt_data_chunks, ensure_open. destruct (s_closed s) eqn:Hc. { split; [apply used_refl|naive_solver]. }
  destruct (split_data stream_id data) as [fs|e]. 2: { split; [apply used_refl|]. cbn. split; [congruence|]. by intros ? [= <-]. }
  destruct (chunks_fit _ _); cbn [negb]; [by apply each_encrypt_answered|].
  split; [|cbn; split; [congruence|done]]. unfold used, close. cbn. rewrite N.ltb_irrefl, orb_false_r, Hc. repeat split; try done; lia.
Qed.

Lemma reply_with_answered {A} s (f : A → Reply) r : answered s r → answered s (reply_with f r).
Proof using Type. destruct r as [s' [a|e]]; unfold answered; cbn; naive_solver. Qed.
Lemma do_call_answered s c : answered s (do_call s c).
Proof using All.
  destruct c; apply reply_with_answered;
    auto using encrypt_answered, decrypt_answered, decrypt_frame_answered, encrypt_data_chunks_answered.
  apply encrypt_answered.
Qed.

Lemma do_calls_used cs : ∀ s, used s (do_calls s cs).1.
Proof using All.
  induction cs as [|c cs IH]; intros s; cbn; [apply used_refl|].
  destruct (do_call_answered s c) as [Hu _]. destruct (do_call s c) as [s1 r]. specialize (IH s1). destruct (do_calls s1 cs) as [s2 rs].
  by eapply used_trans.
Qed.
Lemma do_calls_closed cs : ∀ s, s_closed s = true → (do_calls s cs) = (s, replicate (length cs) (Bad Closed)).
Proof using All.
  induction cs as [|c cs IH]; intros s Hs; cbn; [done|].
  destruct (do_call_answered s c) as ((Hu & _) & Hc & _). destruct (do_call s c) as [s1 r]. cbn in *. rewrite (Hu Hs), (Hc Hs), (IH s Hs). done.
Qed.
Lemma do_calls_fatal cs : ∀ s i j e, (do_calls s cs).2 !! i = Some (Bad e) → fatal e = true → (i < j < length cs)%nat →
  (do_calls s cs).2 !! j = Some (Bad Closed).
Proof using All.
  induction cs as [|c cs IH]; intros s i j e; cbn; [lia|].
  destruct (do_call_answered s c) as (_ & _ & Hf). destruct (do_call s c) as [s1 r].
  pose proof (IH s1) as IH1. pose proof (do_calls_closed cs s1) as Hcl. destruct (do_calls s1 cs) as [s2 rs]. cbn in *.
  destruct i as [|i]; cbn; intros Hi He Hj; destruct j as [|j]; try lia; cbn.
  - injection Hi as ->. specialize (Hcl (Hf _ eq_refl He)). injection Hcl as -> ->. apply lookup_replicate_2. lia.
  - eapply IH1; [exact Hi|done|lia].
Qed.

(** C17: However a session is used, in each direction it never takes more than 2^32 messages; an authentication failure
    or exhaustion ends it for good: every later call returns [Closed]; and it counts its peer
    as live exactly if it did so at first (the initiator) or some message authenticated. *)
Theorem session_fail_closed s (calls : list Call) :
  sending_nonce (s_transport s) <= MAX_MESSAGES_PER_DIRECTION → receiving_nonce (s_transport s) <= MAX_MESSAGES_PER_DIRECTION →
  let '(s', replies) := do_calls s calls in
  sending_nonce (s_transport s') <= MAX_MESSAGES_PER_DIRECTION ∧ receiving_nonce (s_transport s') <= MAX_MESSAGES_PER_DIRECTION ∧
  is_confirmed s' = (is_confirmed s || (receiving_nonce (s_transport s) <? receiving_nonce (s_transport s'))) ∧
  (is_closed s = true → s' = s) ∧
  (∀ i j e, replies !! i = Some (Bad e) → fatal e = true → (i < j < length calls)%nat → replies !! j = Some (Bad Closed)).
Proof using All.
  intros Hs Hr. pose proof (do_calls_used calls s) as (Hcl & Hs' & Hr' & _ & Hc). pose proof (do_calls_fatal calls s) as Hf.
  destruct (do_calls s calls) as [s' rs]. cbn in *. auto 6.
Qed.
End uses.
Lemma session_fail_closed_witness :
  ∃ s : Session Clear.State, sending_nonce (s_transport s) <= MAX_MESSAGES_PER_DIRECTION ∧
  ∃ s' replies, do_calls s [Decrypt [1; 2]; Encrypt [3]] = (s', replies) ∧
    replies !! 0%nat = Some (Bad (Noise ())) ∧ replies !! 1%nat = Some (Bad Closed).
Proof.
  set (s := mkSession (Clear.mkState 0 0) false false). exists s.
  assert (Hs : sending_nonce (s_transport s) <= MAX_MESSAGES_PER_DIRECTION) by (intros E; discriminate E).
  assert (Hr : receiving_nonce (s_transport s) <= MAX_MESSAGES_PER_DIRECTION) by (intros E; discriminate E).
  pose proof (session_fail_closed s [Decrypt [1; 2]; Encrypt [3]] Hs Hr) as W.
  destruct (do_calls s [Decrypt [1; 2]; Encrypt [3]]) as [s' replies] eqn:E.
  assert (E0 : replies !! 0%nat = Some (Bad (Noise ()))) by (injection E as _ <-; reflexivity).
  split; [exact Hs|]. exists s', replies. split; [reflexivity|]. split; [exact E0|].
  apply (proj2 (proj2 (proj2 (proj2 W))) 0%nat 1%nat (Noise ())); [exact E0|reflexivity|split; apply Nat.ltb_lt; reflexivity].
Defined.

(** ** Prologues *)
Section prologue.
Context {SnowError : Type}.
Local Abbreviation build := (build_prologue (SnowError := SnowError)).

(** An identity that can be told from its neighbours. *)
Definition identity_ok (value : list N) : Prop := value ≠ [] ∧ FIELD_SEPARATOR ∉ value.

Lemma existsb_false_iff value :
  existsb (fun byte => byte =? FIELD_SEPARATOR) value = false ↔ FIELD_SEPARATOR ∉ value.
Proof using Type.
  induction value as [|b value IH]; cbn; [split; [intros _; apply not_elem_of_nil|done]|].
  rewrite orb_false_iff, not_elem_of_cons, IH, N.eqb_neq. naive_solver.
Qed.
Lemma refused_identity value :
  is_empty_slice value || existsb (fun byte => byte =? FIELD_SEPARATOR) value = false ↔ identity_ok value.
Proof using Type.
  rewrite orb_false_iff, existsb_false_iff. unfold identity_ok. destruct value; cbn; naive_solver.
Qed.
Lemma push_fields_good fields : ∀ prologue p,
  push_fields (SnowError := SnowError) fields prologue = Good p ↔
  Forall (fun f => identity_ok f.2) fields ∧ p = prologue ++ concat ((fun f => FIELD_SEPARATOR :: f.2) <$> fields).
Proof using Type.
  induction fields as [|[name v] fields IH]; intros prologue p; cbn.
  - rewrite app_nil_r. split; [by intros [= <-]|by intros [_ ->]].
  - rewrite Forall_cons, <-refused_identity. cbn. destruct (is_empty_slice v || _); [split; [done|naive_solver]|].
    rewrite IH, <-app_assoc. cbn. naive_solver.
Qed.

(** Prologues bind the account and both devices: ids that are empty or contain the separator are refused, and two sets of ids
    that are accepted have different prologues unless they are the same, so a handshake
    for one pair of devices does not open for another. *)
Theorem prologue_injective (user initiator responder user' initiator' responder' p : list N) :
  ((∃ q, build user initiator responder = Good q) ↔ identity_ok user ∧ identity_ok initiator ∧ identity_ok responder) ∧
  (build user initiator responder = Good p → build user' initiator' responder' = Good p →
   user = user' ∧ initiator = initiator' ∧ responder = responder').
Proof using Type.
  unfold build_prologue. split.
  - split.
    + intros [q Hq]. rewrite push_fields_good, !Forall_cons in Hq. cbn in Hq. tauto.
    + intros (Hu & Hi & Hr). eexists. apply push_fields_good. split; [by repeat apply Forall_cons_2|done].
  - rewrite !push_fields_good, !Forall_cons. cbn. intros ((Hu & Hi & Hr & _) & ->) ((Hu' & Hi' & Hr' & _) & E).
    rewrite !app_nil_r in E. repeat (injection E as E).
    destruct (separator_splits FIELD_SEPARATOR _ _ _ _ (proj2 Hu) (proj2 Hu') E) as [-> E1].
    destruct (separator_splits FIELD_SEPARATOR _ _ _ _ (proj2 Hi) (proj2 Hi') E1) as [-> ->]. done.
Qed.
End prologue.
Lemma prologue_injective_witness :
  ∃ p, build_prologue (SnowError := ()) [65] [66] [67] = Good p ∧ ([65] : list N) = [65].
Proof.
  destruct (prologue_injective (SnowError := ()) [65] [66] [67] [65] [66] [67] (PROLOGUE_LABEL ++ [31; 65; 31; 66; 31; 67])) as [_ W].
  eexists. split; [reflexivity|]. exact (proj1 (W eq_refl eq_refl)).
Defined.

(** ** Keys of small order

    A key is the u-coordinate of a point of Curve25519 in little-endian bytes, without the top bit.  In projective coordinates a
    point is doubled by [xdouble]; the neutral element has Z = 0. *)
Definition le_value (bytes : list N) : N := fold_right (fun b acc => b + 256 * acc) 0 bytes.
Definition field_prime : N := 2 ^ 255 - 19.
Definition xdouble (x_z : N * N) : N * N :=
  let '(x, z) := x_z in
  let xx := x * x in let zz := z * z in
  (((xx + zz) * (xx + zz) - 4 * xx * zz) `mod` field_prime,
   (4 * x * z * (xx + 486662 * x * z + zz)) `mod` field_prime).

Lemma le_value_inj k k' : length k = length k' → valid_bytes k → valid_bytes k' → le_value k = le_value k' → k = k'.
Proof.
  revert k'. induction k as [|b k IH]; intros [|b' k']; try done. cbn [length le_value fold_right]. intros [= Hl] Hk Hk' E.
  apply Forall_cons in Hk as [Hb Hk]. apply Forall_cons in Hk' as [Hb' Hk'].
  assert (b = b' ∧ le_value k = le_value k') as [-> E'] by (unfold le_value; lia). f_equal. by apply IH.
Qed.
Lemma le_value_app k k' : le_value (k ++ k') = le_value k + 256 ^ len k * le_value k'.
Proof.
  induction k as [|b k IH]; [change (len []) with 0; change (256 ^ 0) with 1; rewrite N.mul_1_l; done|].
  cbn [app le_value fold_right]. fold (le_value (k ++ k')) (le_value k). rewrite IH, len_cons, N.pow_add_r, N.pow_1_r. lia.
Qed.
Lemma le_value_bound k : valid_bytes k → le_value k < 256 ^ len k.
Proof.
  induction 1 as [|b k Hb _ IH]; [done|]. cbn [le_value fold_right]. fold (le_value k). rewrite len_cons, N.pow_add_r, N.pow_1_r. lia.
Qed.
Lemma masked_key k : length k = KEY_LEN → valid_bytes k →
  let masked := alter (fun b => N.land b 0x7f) 31%nat k in
  length masked = KEY_LEN ∧ valid_bytes masked ∧ le_value masked = le_value k `mod` 2 ^ 255.
Proof.
  intros Hl Hv masked. destruct (snoc_case k) as [->|(l & x & ->)]; [done|]. rewrite length_app in Hl. cbn in Hl.
  assert (Hl' : length l = 31%nat) by (unfold KEY_LEN in Hl; lia). apply Forall_app in Hv as [Hv Hx]. apply Forall_cons in Hx as [Hx _].
  assert (masked = l ++ [N.land x 127]) as ->. { unfold masked. rewrite alter_app_r_alt by lia. by rewrite Hl'. }
  rewrite length_app, Hl'. split; [done|]. change 127 with (N.ones 7). rewrite N.land_ones. change (2 ^ 7) with 128.
  pose proof (N.mod_lt x 128). split. { apply Forall_app; split; [done|]. constructor; [lia|constructor]. }
  rewrite !le_value_app. replace (len l) with 31 by (unfold len; by rewrite Hl'). cbn [le_value fold_right].
  pose proof (le_value_bound l Hv) as Hb. replace (len l) with 31 in Hb by (unfold len; by rewrite Hl').
  change (2 ^ 255) with (256 ^ 31 * 128). rewrite N.Div0.mod_mul_r.
  rewrite (N.mul_comm (256 ^ 31) (x + 256 * 0)), N.Div0.mod_add, N.div_add by done.
  rewrite (N.mod_small (le_value l)), (N.div_small (le_value l)) by done. f_equal. f_equal. rewrite N.mul_0_r, !N.add_0_r. cbn [N.add]. done.
Qed.

(** [is_low_order_public_key] refuses a key exactly if its value without the top bit is one of the seven listed, whichever
    way the top bit is set; and each of these is a point whose eightfold is the neutral element, so that a shared
    secret with it would say nothing of the private key. *)
Theorem low_order_keys_correct (key : list N) :
  length key = KEY_LEN → valid_bytes key →
  (is_low_order_public_key key = true ↔ le_value key `mod` 2 ^ 255 ∈ le_value <$> SMALL_ORDER_KEYS) ∧
  (is_low_order_public_key key = true → (xdouble (xdouble (xdouble (le_value key `mod` 2 ^ 255, 1)))).2 = 0).
Proof.
  intros Hl Hv. destruct (masked_key key Hl Hv) as (Hml & Hmv & Hm).
  assert (Hall : Forall (fun k => length k = KEY_LEN ∧ valid_bytes k ∧ (xdouble (xdouble (xdouble (le_value k, 1)))).2 = 0) SMALL_ORDER_KEYS).
  { repeat (apply Forall_cons_2; [split; [done|split; [|vm_compute; reflexivity]]|]); [..|constructor];
      (unfold valid_bytes; apply (bool_decide_unpack _); vm_compute; exact I). }
  rewrite Forall_forall in Hall. unfold is_low_order_public_key. rewrite bool_decide_eq_true. split; [split|].
  - intros H. rewrite <-Hm. by apply list_elem_of_fmap_2.
  - intros (k & E & Hk)%list_elem_of_fmap_1. destruct (Hall k Hk) as (Hkl & Hkv & _).
    rewrite (le_value_inj _ k); [done|congruence|done|done|congruence].
  - intros H. rewrite <-Hm. by apply Hall.
Qed.
Lemma low_order_keys_correct_witness :
  is_low_order_public_key (0xed :: replicate 30 255 ++ [255]) = true ∧
  (xdouble (xdouble (xdouble (le_value (0xed :: replicate 30 255 ++ [255]) `mod` 2 ^ 255, 1)))).2 = 0.
Proof.
  split; [vm_compute; reflexivity|].
  apply (low_order_keys_correct (0xed :: replicate 30 255 ++ [255]));
    [reflexivity|unfold valid_bytes; apply (bool_decide_unpack _); vm_compute; exact I|vm_compute; reflexivity].
Defined.

(** ** A handshake that fails is dead *)
Section handshakes.
Context {SnowError T H : Type} `{!NoiseTransport SnowError T} `{!NoiseHandshake SnowError T H}.
Implicit Types h : Handshake H.

(** The messages that are refused before [snow] sees them. *)
Definition refused_early (message : list N) : bool :=
  (MAX_NOISE_MESSAGE_LEN <? len message) ||
  ((KEY_LEN <=? length message)%nat && is_low_order_public_key (take KEY_LEN message)).

(** The first [calls] on a handshake: [inl] writes a payload, [inr] reads a message. *)
Fixpoint handshake_calls h (calls : list (list N + list N)) : Handshake H * list (result (NoiseError SnowError) (list N)) :=
  match calls with
  | [] => (h, [])
  | c :: calls =>
      let '(h, r) := match c with inl payload => hs_write_message h payload | inr message => hs_read_message h message end in
      let '(h, rs) := handshake_calls h calls in (h, r :: rs)
  end.

Lemma handshake_failed_stays calls : ∀ h, h_failed h = true →
  handshake_calls h calls = (h, replicate (length calls) (Bad HandshakeFailed)).
Proof using Type.
  induction calls as [|c calls IH]; intros h Hf; [done|]. cbn [handshake_calls length replicate].
  assert ((match c with inl payload => hs_write_message h payload | inr message => hs_read_message h message end) = (h, Bad HandshakeFailed)) as ->.
  { destruct c; unfold hs_write_message, hs_read_message, ensure_usable; by rewrite Hf. }
  by rewrite (IH h Hf).
Qed.

(** C18: A handshake fails closed.  An error while reading, whatever its cause, kills it, and so does an error of
    [snow] while writing: every later call and [into_session] return [HandshakeFailed].  A message that is
    too long or that begins with a key of small order never reaches [snow]; an oversized payload is refused without harm. *)
Theorem handshake_fails_closed h (message payload : list N) (later : list (list N + list N)) :
  h_failed h = false →
  (let '(h', r) := hs_read_message h message in
   h_failed h' = is_err r ∧
   (refused_early message = true → is_err r = true ∧ h_state h' = h_state h) ∧
   (is_err r = true → handshake_calls h' later = (h', replicate (length later) (Bad HandshakeFailed)) ∧ into_session h' = Bad HandshakeFailed)) ∧
  (let '(h', r) := hs_write_message h payload in
   if MAX_HANDSHAKE_PAYLOAD_LEN <? len payload
   then h' = h ∧ r = Bad (MessageTooLarge (len payload) MAX_HANDSHAKE_PAYLOAD_LEN)
   else h_failed h' = is_err r ∧
     (is_err r = true → handshake_calls h' later = (h', replicate (length later) (Bad HandshakeFailed)) ∧ into_session h' = Bad HandshakeFailed)).
Proof using Type.
  intros Hh. assert (Hdead : ∀ h', h_failed h' = true →
    handshake_calls h' later = (h', replicate (length later) (Bad HandshakeFailed)) ∧ into_session h' = Bad HandshakeFailed).
  { intros h' Hf. split; [by apply handshake_failed_stays|]. unfold into_session, ensure_usable. by rewrite Hf. }
  split.
  - unfold hs_read_message, ensure_usable, read_checked, refused_early. rewrite Hh. unfold split_first_chunk.
    destruct (MAX_NOISE_MESSAGE_LEN <? len message); cbn [orb]; [cbn; naive_solver|].
    assert (E : (match (if (KEY_LEN <=? length message)%nat then Some (take KEY_LEN message, drop KEY_LEN message) else None) with
            | Some (ephemeral, _) => is_low_order_public_key ephemeral | None => false end)
       = (KEY_LEN <=? length message)%nat && is_low_order_public_key (take KEY_LEN message)).
    { by destruct (KEY_LEN <=? length message)%nat. }
    rewrite E. destruct (_ && _); [cbn; naive_solver|]. destruct (handshake_read _ _ _) as [st [[n b]|e]]; cbn; naive_solver.
  - unfold hs_write_message, ensure_usable. rewrite Hh. destruct (_ <? _); [done|].
    destruct (handshake_write _ _ _) as [st [[n b]|e]]; cbn; naive_solver.
Qed.
End handshakes.

(** A handshake of [snow] that takes two messages and carries their payloads in the clear. *)
Module ClearHandshake.
Definition take_turn (turns : nat) (p : list N) : nat * result () (N * list N) :=
  match turns with O => (O, Bad ()) | S turns => (turns, Good (len p, p)) end.
End ClearHandshake.
#[export] Instance Clear_handshake : NoiseHandshake () Clear.State nat :=
  {| build_state _ _ _ _ _ := Good 2%nat;
     handshake_write h p _ := ClearHandshake.take_turn h p;
     handshake_read h m _ := ClearHandshake.take_turn h m;
     is_initiator _ := true;
     is_handshake_finished h := Nat.eqb h 0;
     into_transport_mode h := match h with O => Good (Clear.mkState 0 0) | _ => Bad () end |}.
Lemma handshake_fails_closed_witness :
  ∃ h : Handshake nat, h_failed h = false ∧ (hs_read_message h (replicate 40 0)).1 = mkHandshake (h_state h) true ∧
    into_session (mkHandshake (h_state h) true) = Bad HandshakeFailed.
Proof.
  exists (mkHandshake 2%nat false). split; [reflexivity|]. split; [vm_compute; reflexivity|].
  destruct (handshake_fails_closed (mkHandshake 2%nat false) (replicate 40 0) [] [] eq_refl) as [W _].
  assert (E : hs_read_message (mkHandshake 2%nat false) (replicate 40 0) = (mkHandshake 2%nat true, Bad LowOrderKey)) by (vm_compute; reflexivity).
  rewrite E in W. apply (proj2 (proj2 W)). reflexivity.
Defined.
