(* ===== verification/Pairing.v ===== *)
(** * Pairing two devices: [crates/remote_relay_protocol/src/pairing.rs]

    The requester commits to its nonce, the acceptor shows its own, the requester
    reveals; both derive six digits that two people compare.  [PairingGate] guards the acceptor: one
    exchange at a time, with an expiry, and a lockout after repeated failures.  SHA-256 is a
    parameter, [sha256].  An [Instant] is a number of nanoseconds. *)

From Stdlib Require Import String.
From S2P Require Import Prelude Bytes RelayFrame NoiseSession.
Local Open Scope N_scope.

(** [Duration::from_secs] *)
Definition from_secs (secs : N) : N := secs * 1000000000.

Definition PAIRING_EXPIRY : N := from_secs 120.
Definition MAX_FAILED_PAIRING_ATTEMPTS : N := 3.
Definition SAS_LABEL : list N := as_bytes "zode-pair/1".
Definition SAS_MODULUS : N := 1000000.

Inductive PairingError :=
  | CommitmentMismatch
  | IdenticalKeys
  | NoRandomness
  | InvalidPublicKey
  | Expired
  | Busy
  | LockedOut
  | NoPendingExchange.

(** [PairingMessage] of [messages.rs] *)
Inductive PairingMessage :=
  | PairRequest (public_key commitment : list N)
  | PairAccept (public_key nonce : list N)
  | PairReveal (nonce : list N).

(** [format!("{:06}", n)] *)
Fixpoint decimal (fuel : nat) (n : N) (acc : list N) : list N :=
  match fuel with
  | O => acc
  | S fuel => let acc := 48 + n `mod` 10 :: acc in if n <? 10 then acc else decimal fuel (n / 10) acc
  end.
Definition format_06 (n : N) : list N :=
  let digits := decimal 10 n [] in replicate (6 - length digits) 48 ++ digits.

Section pairing.
Context (sha256 : list N → list N).

Definition commitment (requester_public_key requester_nonce : list N) : list N :=
  sha256 (requester_public_key ++ requester_nonce).

Definition short_authentication_string (acceptor_public_key requester_public_key acceptor_nonce requester_nonce : list N) : list N :=
  let digest := sha256 (SAS_LABEL ++ acceptor_public_key ++ requester_public_key ++ acceptor_nonce ++ requester_nonce) in
  let byte i := nth i digest 0 in
  let first_twenty_bits := N.lor (N.lor (N.shiftl (byte 0%nat) 12) (N.shiftl (byte 1%nat) 4)) (N.shiftr (byte 2%nat) 4) in
  format_06 (first_twenty_bits `mod` SAS_MODULUS).

Record PairingOutcome := mkPairingOutcome { po_peer_public_key : list N; po_short_authentication_string : list N }.

(** ** The side that starts *)
Record PairingRequester := mkPairingRequester { pr_public_key : list N; pr_nonce : list N }.

Definition requester_start (public_key nonce : list N) : PairingRequester * PairingMessage :=
  (mkPairingRequester public_key nonce, PairRequest public_key (commitment public_key nonce)).

Definition receive_accept (self : PairingRequester) (acceptor_public_key acceptor_nonce : list N)
    : result PairingError (PairingMessage * PairingOutcome) :=
  if bool_decide (acceptor_public_key = pr_public_key self) then Bad IdenticalKeys
  else if is_low_order_public_key acceptor_public_key then Bad InvalidPublicKey
  else Good (PairReveal (pr_nonce self),
             mkPairingOutcome acceptor_public_key
               (short_authentication_string acceptor_public_key (pr_public_key self) acceptor_nonce (pr_nonce self))).

(** ** The side that is asked *)
Record PairingAcceptor := mkPairingAcceptor {
  pa_public_key : list N; pa_nonce : list N; pa_requester_public_key : list N;
  pa_requester_commitment : list N; pa_deadline : N }.

Definition receive_request (public_key nonce requester_public_key requester_commitment : list N) (now : N)
    : result PairingError (PairingAcceptor * PairingMessage) :=
  if bool_decide (requester_public_key = public_key) then Bad IdenticalKeys
  else if is_low_order_public_key requester_public_key then Bad InvalidPublicKey
  else Good (mkPairingAcceptor public_key nonce requester_public_key requester_commitment (now + PAIRING_EXPIRY),
             PairAccept public_key nonce).

Definition receive_reveal (self : PairingAcceptor) (requester_nonce : list N) (now : N) : result PairingError PairingOutcome :=
  if pa_deadline self <=? now then Bad Expired
  else
    let expected := commitment (pa_requester_public_key self) requester_nonce in
    if bool_decide (expected ≠ pa_requester_commitment self) then Bad CommitmentMismatch
    else Good (mkPairingOutcome (pa_requester_public_key self)
                 (short_authentication_string (pa_public_key self) (pa_requester_public_key self) (pa_nonce self) requester_nonce)).

(** ** The gate *)
Record PairingGate := mkPairingGate {
  g_pending : option PairingAcceptor; g_deciding_until : option N; g_failed_attempts : N }.

Definition gate_new : PairingGate := mkPairingGate None None 0.
Definition is_locked_out (self : PairingGate) : bool := MAX_FAILED_PAIRING_ATTEMPTS <=? g_failed_attempts self.


Definition begin (self : PairingGate) (public_key nonce requester_public_key requester_commitment : list N) (now : N)
    : PairingGate * result PairingError PairingMessage :=
  if is_locked_out self then (self, Bad LockedOut)
  else
    let in_progress := existsb (fun deadline => now <? deadline)
      (option_list (pa_deadline <$> g_pending self) ++ option_list (g_deciding_until self)) in
    if in_progress then (self, Bad Busy)
    else match receive_request public_key nonce requester_public_key requester_commitment now with
         | Bad e => (self, Bad e)
         | Good (acceptor, accept) => (mkPairingGate (Some acceptor) None (g_failed_attempts self), Good accept)
         end.

Definition reveal (self : PairingGate) (requester_nonce : list N) (now : N) : PairingGate * result PairingError PairingOutcome :=
  if is_locked_out self then (self, Bad LockedOut)
  else match g_pending self with
  | None => (self, Bad NoPendingExchange)
  | Some acceptor =>
      let outcome := receive_reveal acceptor requester_nonce now in
      match outcome with
      | Good _ => (mkPairingGate None (Some (pa_deadline acceptor)) (g_failed_attempts self), outcome)
      | Bad CommitmentMismatch => (mkPairingGate None (g_deciding_until self) (u32_wrap (g_failed_attempts self + 1)), outcome)
      | Bad _ => (mkPairingGate None (g_deciding_until self) (g_failed_attempts self), outcome)
      end
  end.

Definition reject_digits (self : PairingGate) : PairingGate :=
  mkPairingGate (g_pending self) None (u32_wrap (g_failed_attempts self + 1)).
Definition confirm_digits (self : PairingGate) : PairingGate := mkPairingGate (g_pending self) None 0.
Definition cancel_pending (self : PairingGate) : PairingGate := mkPairingGate None None (g_failed_attempts self).
Definition reset_lockout (self : PairingGate) : PairingGate :=
  cancel_pending (mkPairingGate (g_pending self) (g_deciding_until self) 0).
End pairing.

(** ** Six digits *)
Definition digits_value (l : list N) : N := fold_left (fun v d => v * 10 + (d - 48)) l 0.
Definition decimal_digit (d : N) : Prop := 48 <= d <= 57.

Lemma digits_value_snoc l d : digits_value (l ++ [d]) = digits_value l * 10 + (d - 48).
Proof. unfold digits_value. by rewrite fold_left_app. Qed.
Lemma digits_value_zeroes n l : digits_value (replicate n 48 ++ l) = digits_value l.
Proof. unfold digits_value. by induction n. Qed.

Lemma decimal_correct k : ∀ fuel n acc, n < 10 ^ N.of_nat k → (0 < k <= fuel)%nat →
  ∃ l, decimal fuel n acc = l ++ acc ∧ digits_value l = n ∧ Forall decimal_digit l ∧ (length l <= k)%nat.
Proof.
  induction k as [|k IH]; intros fuel n acc Hn Hk; [lia|]. destruct fuel as [|fuel]; [lia|]. cbn [decimal].
  assert (Hd : decimal_digit (48 + n `mod` 10)) by (pose proof (N.mod_lt n 10 ltac:(done)) as Hm; unfold decimal_digit; revert Hm; generalize (n `mod` 10); lia).
  destruct (N.ltb_spec n 10) as [Hs|Hs].
  - exists [48 + n `mod` 10]. rewrite (N.mod_small n 10) in * by done. split; [done|]. split; [unfold digits_value; cbn [fold_left]; lia|].
    split; [by apply Forall_singleton|cbn; lia].
  - assert (k ≠ 0%nat) by (intros ->; change (10 ^ N.of_nat 1) with 10 in Hn; lia).
    destruct (IH fuel (n / 10) (48 + n `mod` 10 :: acc)) as (l & E & Hv & Hf & Hl); [|lia|].
    { apply N.Div0.div_lt_upper_bound. rewrite Nat2N.inj_succ, N.pow_succ_r' in Hn. done. }
    exists (l ++ [48 + n `mod` 10]). rewrite E, <-app_assoc. split; [done|]. split.
    { rewrite digits_value_snoc, Hv. pose proof (N.div_mod n 10 ltac:(done)) as Hm. revert Hm. generalize (n / 10) (n `mod` 10). clear. lia. }
    split; [apply Forall_app; split; [done|by apply Forall_singleton]|]. rewrite length_app. cbn. lia.
Qed.
Lemma format_06_correct n : n < 10 ^ 6 →
  length (format_06 n) = 6%nat ∧ Forall decimal_digit (format_06 n) ∧ digits_value (format_06 n) = n.
Proof.
  intros Hn. destruct (decimal_correct 6 10 n [] Hn) as (l & E & Hv & Hf & Hl); [lia|].
  unfold format_06. rewrite E, app_nil_r, length_app, length_replicate, digits_value_zeroes. split; [lia|]. split; [|done].
  apply Forall_app. split; [|done]. apply Forall_replicate. unfold decimal_digit. lia.
Qed.

(** ** The exchange *)
Section exchange.
Context (sha256 : list N → list N).
Implicit Types g : PairingGate.

Lemma sas_six_digits a b c d :
  length (short_authentication_string sha256 a b c d) = 6%nat ∧ Forall decimal_digit (short_authentication_string sha256 a b c d).
Proof using Type.
  unfold short_authentication_string. set (n := N.lor _ _).
  destruct (format_06_correct (n `mod` SAS_MODULUS)) as (? & ? & _); [by apply N.mod_lt|done].
Qed.

(** Nothing is under way at a time. *)
Definition gate_free (g : PairingGate) (now : N) : Prop :=
  is_locked_out g = false ∧ (∀ a, g_pending g = Some a → pa_deadline a <= now) ∧ (∀ d, g_deciding_until g = Some d → d <= now).

Lemma begin_in_progress g now : is_locked_out g = false →
  existsb (fun deadline => now <? deadline) (option_list (pa_deadline <$> g_pending g) ++ option_list (g_deciding_until g)) = false ↔ gate_free g now.
Proof using Type.
  intros Hk. unfold gate_free. rewrite Hk.
  destruct (g_pending g), (g_deciding_until g); cbn; rewrite ?orb_false_r, ?orb_false_iff, ?N.ltb_ge; naive_solver.
Qed.
Lemma begin_free g pk nonce rpk c now : gate_free g now → rpk ≠ pk → is_low_order_public_key rpk = false →
  begin g pk nonce rpk c now =
    (mkPairingGate (Some (mkPairingAcceptor pk nonce rpk c (now + PAIRING_EXPIRY))) None (g_failed_attempts g), Good (PairAccept pk nonce)).
Proof using Type.
  intros Hf Hne Hlow. pose proof (proj1 Hf) as Hk. unfold begin. rewrite Hk, (proj2 (begin_in_progress g now Hk) Hf).
  unfold receive_request. by rewrite bool_decide_false, Hlow.
Qed.

(** C19: An undisturbed exchange between two devices with different usable keys succeeds: the request is accepted, the reveal made within two minutes checks out,
    and both sides get the other's key and show the same six decimal digits. *)
Theorem pairing_agrees g (pk_a nonce_a pk_b nonce_b : list N) (now later : N) :
  gate_free g now → pk_a ≠ pk_b → is_low_order_public_key pk_a = false → is_low_order_public_key pk_b = false →
  later < now + PAIRING_EXPIRY →
  let '(requester, request) := requester_start sha256 pk_b nonce_b in
  ∃ c, request = PairRequest pk_b c ∧
  ∃ g', begin g pk_a nonce_a pk_b c now = (g', Good (PairAccept pk_a nonce_a)) ∧
  ∃ digits, receive_accept sha256 requester pk_a nonce_a = Good (PairReveal nonce_b, mkPairingOutcome pk_a digits) ∧
  (reveal sha256 g' nonce_b later).2 = Good (mkPairingOutcome pk_b digits) ∧
  length digits = 6%nat ∧ Forall decimal_digit digits.
Proof using Type.
  intros Hf Hne Ha Hb Hlater. cbn. eexists. split; [done|]. eexists. split; [by apply begin_free|].
  eexists. unfold receive_accept. cbn. rewrite bool_decide_false, Ha by done. split; [done|]. split; [|apply sas_six_digits].
  unfold reveal, is_locked_out. cbn. pose proof (proj1 Hf) as Hk. unfold is_locked_out in Hk. rewrite Hk. unfold receive_reveal. cbn.
  rewrite (proj2 (N.leb_gt _ _)) by done. by rewrite bool_decide_false by naive_solver.
Qed.

(** A reveal that the gate accepts is the one committed to.  The outcome is for the key the request named, the commitment of the request
    is the hash of that key and the revealed nonce, the exchange was not past its deadline; and if the requester committed to a
    key and nonce of the right lengths, then they are these, or a collision of SHA-256 is at hand. *)
Theorem reveal_bound g (nonce : list N) (now : N) (g' : PairingGate) (outcome : PairingOutcome) :
  reveal sha256 g nonce now = (g', Good outcome) →
  ∃ a, g_pending g = Some a ∧ po_peer_public_key outcome = pa_requester_public_key a ∧ now < pa_deadline a ∧
    pa_requester_commitment a = commitment sha256 (pa_requester_public_key a) nonce ∧
    po_short_authentication_string outcome =
      short_authentication_string sha256 (pa_public_key a) (pa_requester_public_key a) (pa_nonce a) nonce ∧
    g_pending g' = None ∧ g_deciding_until g' = Some (pa_deadline a) ∧
    ∀ key0 nonce0, length key0 = length (pa_requester_public_key a) → pa_requester_commitment a = commitment sha256 key0 nonce0 →
      (key0 = pa_requester_public_key a ∧ nonce0 = nonce) ∨ ∃ x y, x ≠ y ∧ sha256 x = sha256 y.
Proof using Type.
  unfold reveal. destruct (is_locked_out g); [done|]. destruct (g_pending g) as [a|]; [|done]. unfold receive_reveal.
  destruct (N.leb_spec (pa_deadline a) now) as [|Hd]; [done|].
  destruct (decide (commitment sha256 (pa_requester_public_key a) nonce = pa_requester_commitment a)) as [E|E];
    [rewrite bool_decide_false by naive_solver|by rewrite bool_decide_true].
  intros [= <- <-]. exists a. cbn. split_and!; try done. intros key0 nonce0 Hl E0. rewrite <-E in E0. unfold commitment in E0.
  destruct (decide (pa_requester_public_key a ++ nonce = key0 ++ nonce0)) as [Ea|Ea]; [left|right; eauto].
  apply app_inj_1 in Ea; naive_solver.
Qed.
End exchange.

(** [reset_lockout] is documented as the only way out of a lockout; at the gate, digits that match are another.  [PairingFlow], the
    client of the gate, asks no question while it is locked out, so there it does not happen. *)
Lemma confirm_ends_lockout :
  ∃ g, g = reject_digits (reject_digits (reject_digits gate_new)) ∧ is_locked_out g = true ∧ is_locked_out (confirm_digits g) = false.
Proof. by eexists. Qed.

(** The witnesses take the first 32 bytes for a hash. *)
Definition first_bytes (l : list N) : list N := take 32 (l ++ replicate 32 0).
Lemma pairing_agrees_witness :
  gate_free gate_new 5 ∧
  ∃ digits, (reveal first_bytes (begin gate_new (replicate 32 9) [1] (replicate 32 8) (commitment first_bytes (replicate 32 8) [2]) 5).1 [2] 6).2 =
    Good (mkPairingOutcome (replicate 32 8) digits) ∧ length digits = 6%nat.
Proof.
  assert (Hf : gate_free gate_new 5) by done. split; [exact Hf|].
  pose proof (pairing_agrees first_bytes gate_new (replicate 32 9) [1] (replicate 32 8) [2] 5 6 Hf) as W.
  destruct W as (c & Ec & g' & Eb & digits & _ & Er & Hl & _); try (vm_compute; congruence).
  assert (c = commitment first_bytes (replicate 32 8) [2]) as -> by congruence. exists digits. rewrite Eb. by split.
Defined.
Lemma reveal_bound_witness :
  ∃ g g' outcome, reveal first_bytes g [2] 6 = (g', Good outcome) ∧ po_peer_public_key outcome = [8] ∧ g_pending g' = None.
Proof.
  set (g := mkPairingGate (Some (mkPairingAcceptor [9] [1] [8] (commitment first_bytes [8] [2]) 100)) None 0).
  destruct (reveal first_bytes g [2] 6) as [g' [outcome|e]] eqn:E; [|vm_compute in E; discriminate E].
  exists g, g', outcome. split; [exact E|].
  destruct (reveal_bound first_bytes g [2] 6 g' outcome E) as (a & Ha & Hp & _ & _ & _ & Hn & _).
  injection Ha as <-. split; [exact Hp|exact Hn].
Defined.
