(* ===== verification/PairingFlow.v ===== *)
(** * Pairing with a person at the screen: [crates/remote_control/src/pairing_flow.rs]

    [PairingFlow] is the host's side of pairing: it drives the [PairingGate] and adds one question at a time, a
    deadline for the whole conversation, and allowances per hour.  Device ids, names and
    digits are lists of bytes. *)

From stdpp Require Import sets.
From S2P Require Import Prelude Bytes RelayFrame NoiseSession Pairing.
Local Open Scope N_scope.

Definition MAX_PAIRING_REQUESTS_PER_HOUR : N := 3.
Definition MAX_ANSWERED_REQUESTS_PER_DEVICE_PER_HOUR : N := 3.
Definition MAX_ANSWERED_REQUESTS_PER_HOUR : N := 12.
Definition REQUEST_WINDOW : N := from_secs (60 * 60).

(** Subtraction of [N] stops at 0, as [saturating_duration_since] does. *)
Definition saturating_duration_since (later earlier : N) : N := later - earlier.
Definition wait_for (at_ now : N) : N := saturating_duration_since (at_ + REQUEST_WINDOW) now.

Inductive PairingRefusal :=
  | RateLimited (retry_after : N)
  | TooManyAnswered (retry_after : N)
  | RefusedBusy
  | RefusedLockedOut
  | InvalidRequest
  | RefusedNoPendingExchange
  | RefusedCommitmentMismatch
  | RefusedExpired.

(** [impl From<PairingError> for PairingRefusal] *)
Definition refusal_from (error : PairingError) : PairingRefusal :=
  match error with
  | Busy => RefusedBusy
  | LockedOut => RefusedLockedOut
  | Expired => RefusedExpired
  | CommitmentMismatch => RefusedCommitmentMismatch
  | NoPendingExchange => RefusedNoPendingExchange
  | IdenticalKeys | InvalidPublicKey | NoRandomness => InvalidRequest
  end.

Record PendingDecision := mkPendingDecision {
  pd_session_id : N; pd_peer_device_id : list N; pd_peer_name : list N; pd_peer_public_key : list N;
  pd_code : list N; pd_replaces : option (list N); pd_started : N }.

(** [struct Revealed] is its one field, the peer's device id. *)
Definition Revealed : Type := list N.

Inductive Stage :=
  | Idle
  | AwaitingReveal (session_id : N) (peer_device_id : list N) (started : N)
  | AwaitingName (session_id : N) (peer_device_id peer_public_key code : list N) (started : N)
  | Deciding (decision : PendingDecision).

Record PairingHistory := mkPairingHistory {
  ph_gate : PairingGate; ph_requests : list N; ph_answered : list (N * list N) }.
Record PairingFlow := mkPairingFlow { pf_history : PairingHistory; pf_stage : Stage }.

Definition with_gate (history : PairingHistory) (gate : PairingGate) : PairingHistory :=
  mkPairingHistory gate (ph_requests history) (ph_answered history).
Definition history_new : PairingHistory := mkPairingHistory gate_new [] [].
(** [PairingFlow::default] *)
Definition flow_new : PairingFlow := mkPairingFlow history_new Idle.

Definition resume (history : PairingHistory) : PairingFlow :=
  mkPairingFlow (with_gate history (cancel_pending (ph_gate history))) Idle.
Definition into_history (self : PairingFlow) : PairingHistory :=
  with_gate (pf_history self) (cancel_pending (ph_gate (pf_history self))).
Definition flow_is_locked_out (self : PairingFlow) : bool := is_locked_out (ph_gate (pf_history self)).
Definition pending_decision (self : PairingFlow) : option PendingDecision :=
  match pf_stage self with Deciding decision => Some decision | _ => None end.
Definition active_session (self : PairingFlow) : option N :=
  match pf_stage self with
  | Idle => None
  | AwaitingReveal session_id _ _ | AwaitingName session_id _ _ _ _ => Some session_id
  | Deciding decision => Some (pd_session_id decision)
  end.
Definition started (self : PairingFlow) : option N :=
  match pf_stage self with
  | Idle => None
  | AwaitingReveal _ _ started | AwaitingName _ _ _ _ started => Some started
  | Deciding decision => Some (pd_started decision)
  end.

(** The stage is left and the gate's exchange dropped: the common end of [expire], [dismiss] and [session_gone]. *)
Definition abandon (self : PairingFlow) : PairingFlow := resume (pf_history self).

Definition expire (self : PairingFlow) (now : N) : PairingFlow * option N :=
  match started self with
  | None => (self, None)
  | Some started =>
      if now <? started + PAIRING_EXPIRY then (self, None)
      else (abandon self, active_session self)
  end.

(** [while front().is_some_and(..) { pop_front() }] *)
Fixpoint pop_front_while {A} (p : A → bool) (l : list A) : list A :=
  match l with
  | x :: l' => if p x then pop_front_while p l' else l
  | [] => []
  end.
Definition out_of_window (now at_ : N) : bool := REQUEST_WINDOW <=? saturating_duration_since now at_.

(** The longest wait that the answered requests demand, if any. *)
Definition answered_wait (answered : list (N * list N)) (peer_device_id : list N) (now : N) : option N :=
  let retry_after :=
    match answered with
    | (oldest, _) :: _ => if MAX_ANSWERED_REQUESTS_PER_HOUR <=? len answered then Some (wait_for oldest now) else None
    | [] => None
    end in
  let for_device := filter (fun entry : N * list N => entry.2 = peer_device_id) answered in
  match for_device with
  | (oldest, _) :: _ =>
      if MAX_ANSWERED_REQUESTS_PER_DEVICE_PER_HOUR <=? len for_device
      then let wait := wait_for oldest now in
           Some (match retry_after with Some other => N.max other wait | None => wait end)
      else retry_after
  | [] => retry_after
  end.

Definition request (self : PairingFlow) (session_id : N) (peer_device_id local_public_key nonce requester_public_key commitment : list N)
    (now : N) : PairingFlow * result PairingRefusal PairingMessage :=
  let '(self, _) := expire self now in
  let history := pf_history self in
  if is_locked_out (ph_gate history) then (self, Bad RefusedLockedOut)
  else match pf_stage self with
  | Idle =>
      let requests := pop_front_while (out_of_window now) (ph_requests history) in
      if MAX_PAIRING_REQUESTS_PER_HOUR <=? len requests then
        (mkPairingFlow (mkPairingHistory (ph_gate history) requests (ph_answered history)) Idle,
         Bad (RateLimited (match requests with asked :: _ => wait_for asked now | [] => 0 end)))
      else
        let answered := pop_front_while (fun entry => out_of_window now entry.1) (ph_answered history) in
        match answered_wait answered peer_device_id now with
        | Some retry_after =>
            (mkPairingFlow (mkPairingHistory (ph_gate history) requests answered) Idle, Bad (TooManyAnswered retry_after))
        | None =>
            let '(gate, accept) := begin (ph_gate history) local_public_key nonce requester_public_key commitment now in
            match accept with
            | Bad e => (mkPairingFlow (mkPairingHistory gate requests answered) Idle, Bad (refusal_from e))
            | Good accept =>
                (mkPairingFlow (mkPairingHistory gate requests (answered ++ [(now, peer_device_id)]))
                   (AwaitingReveal session_id peer_device_id now), Good accept)
            end
        end
  | _ => (self, Bad RefusedBusy)
  end.

Section flow.
Context (sha256 : list N → list N).

Definition flow_reveal (self : PairingFlow) (session_id : N) (nonce : list N) (now : N) : PairingFlow * result PairingRefusal Revealed :=
  match pf_stage self with
  | AwaitingReveal expected peer_device_id started =>
      if expected =? session_id then
        let '(gate, outcome) := reveal sha256 (ph_gate (pf_history self)) nonce now in
        let history := with_gate (pf_history self) gate in
        match outcome with
        | Bad e => (mkPairingFlow history Idle, Bad (refusal_from e))
        | Good outcome =>
            (mkPairingFlow history (AwaitingName session_id peer_device_id (po_peer_public_key outcome)
                                      (po_short_authentication_string outcome) started), Good peer_device_id)
        end
      else (self, Bad RefusedNoPendingExchange)
  | _ => (self, Bad RefusedNoPendingExchange)
  end.
End flow.

Definition present (self : PairingFlow) (session_id : N) (peer_name : list N) (replaced_name_of : list N → list N → option (list N))
    (now : N) : PairingFlow * bool :=
  let '(self, _) := expire self now in
  match pf_stage self with
  | AwaitingName expected peer_device_id peer_public_key code started =>
      if expected =? session_id then
        let history := pf_history self in
        (mkPairingFlow (mkPairingHistory (ph_gate history) (ph_requests history ++ [now]) (ph_answered history))
           (Deciding (mkPendingDecision session_id peer_device_id peer_name peer_public_key code
                        (replaced_name_of peer_device_id peer_public_key) started)), true)
      else (self, false)
  | _ => (self, false)
  end.

Definition decide_pairing (self : PairingFlow) (session_id : N) (trust : bool) (now : N) : PairingFlow * option PendingDecision :=
  let '(self, _) := expire self now in
  match pf_stage self with
  | Deciding decision =>
      if pd_session_id decision =? session_id then
        let gate := ph_gate (pf_history self) in
        (mkPairingFlow (with_gate (pf_history self) (if trust then confirm_digits gate else reject_digits gate)) Idle, Some decision)
      else (self, None)
  | _ => (self, None)
  end.

Definition dismiss (self : PairingFlow) (session_id : N) (now : N) : PairingFlow * option PendingDecision :=
  let '(self, _) := expire self now in
  match pf_stage self with
  | Deciding decision => if pd_session_id decision =? session_id then (abandon self, Some decision) else (self, None)
  | _ => (self, None)
  end.

Definition session_gone (self : PairingFlow) (session_id : N) : PairingFlow * bool :=
  match active_session self with
  | Some active => if active =? session_id then (abandon self, true) else (self, false)
  | None => (self, false)
  end.

Definition unlock (self : PairingFlow) : PairingFlow * option N :=
  (mkPairingFlow (with_gate (pf_history self) (reset_lockout (ph_gate (pf_history self)))) Idle, active_session self).

(** ** Runs

    What the outside does to a flow, and what it then sees. *)
Inductive Action :=
  | Request (session_id : N) (peer_device_id local_public_key nonce requester_public_key commitment : list N) (now : N)
  | Reveal (session_id : N) (nonce : list N) (now : N)
  | Present (session_id : N) (peer_name : list N) (replaced_name_of : list N → list N → option (list N)) (now : N)
  | Decide (session_id : N) (trust : bool) (now : N)
  | Dismiss (session_id : N) (now : N)
  | Expire (now : N)
  | SessionGone (session_id : N)
  | Unlock
  | Restart.

Inductive Event :=
  | Answered (session_id : N) (peer_device_id local_public_key nonce requester_public_key commitment : list N) (at_ : N)
  | Matched (session_id : N) (nonce : list N)
  | Asked (decision : PendingDecision) (at_ : N)
  | Decided (decision : PendingDecision) (trust : bool) (at_ : N).

Definition action_time (a : Action) : option N :=
  match a with
  | Request _ _ _ _ _ _ now | Reveal _ _ now | Present _ _ _ now | Decide _ _ now | Dismiss _ now | Expire now => Some now
  | SessionGone _ | Unlock | Restart => None
  end.
Definition clock_after (now : N) (a : Action) : N := default now (action_time a).

Section runs.
Context (sha256 : list N → list N).

Definition flow_step (f : PairingFlow) (a : Action) : PairingFlow * list Event :=
  match a with
  | Request session_id device local nonce key commitment now =>
      let '(f, r) := request f session_id device local nonce key commitment now in
      (f, match r with Good _ => [Answered session_id device local nonce key commitment now] | Bad _ => [] end)
  | Reveal session_id nonce now =>
      let '(f, r) := flow_reveal sha256 f session_id nonce now in
      (f, match r with Good _ => [Matched session_id nonce] | Bad _ => [] end)
  | Present session_id name replaced now =>
      let '(f, shown) := present f session_id name replaced now in
      (f, if shown : bool then option_list ((fun d => Asked d now) <$> pending_decision f) else [])
  | Decide session_id trust now =>
      let '(f, r) := decide_pairing f session_id trust now in (f, option_list ((fun d => Decided d trust now) <$> r))
  | Dismiss session_id now => ((dismiss f session_id now).1, [])
  | Expire now => ((expire f now).1, [])
  | SessionGone session_id => ((session_gone f session_id).1, [])
  | Unlock => ((unlock f).1, [])
  | Restart => (resume (into_history f), [])
  end.
(** A run from [flow_new] at time 0, with the events so far; instants never go back. *)
Inductive flow_run : PairingFlow → list Event → N → Prop :=
  | run_start : flow_run flow_new [] 0
  | run_step f events now a :
      flow_run f events now → now <= clock_after now a →
      flow_run (flow_step f a).1 (events ++ (flow_step f a).2) (clock_after now a).
End runs.

(** ** Logs with a sliding window

    [windowed P k all kept now]: [kept] is what a log that forgets entries older than the window keeps of [all],
    and of the entries that satisfy [P] no window ever holds more than [k]. *)
Lemma filter_length_mono {A} (P Q : A → Prop) `{!∀ x, Decision (P x), !∀ x, Decision (Q x)} l :
  (∀ x, P x → Q x) → (length (filter P l) <= length (filter Q l))%nat.
Proof.
  intros HPQ. induction l as [|x l IH]; [done|]. rewrite !filter_cons.
  destruct (decide (P x)), (decide (Q x)); cbn; try lia. naive_solver.
Qed.

Section windows.
Context {A : Type} (time : A → N) (P : A → Prop) `{!∀ x, Decision (P x)} (k : nat).

Definition in_window (t : N) (x : A) : Prop := P x ∧ t <= time x < t + REQUEST_WINDOW.
#[local] Instance in_window_dec t x : Decision (in_window t x).
Proof using All. unfold in_window. apply _. Defined.
Definition window_bound (all : list A) : Prop := ∀ t, (length (filter (in_window t) all) <= k)%nat.
Definition windowed (all kept : list A) (now : N) : Prop :=
  window_bound all ∧ ∃ dropped, all = dropped ++ kept ∧ Forall (fun x => time x + REQUEST_WINDOW <= now) dropped.

Lemma windowed_nil now : windowed [] [] now.
Proof using Type. split; [intros t; cbn; lia|]. by exists []. Qed.
Lemma windowed_later all kept now now' : now <= now' → windowed all kept now → windowed all kept now'.
Proof using Type.
  intros Hn (Hb & dropped & E & Hd). split; [done|]. exists dropped. split; [done|]. eapply Forall_impl; [exact Hd|]. cbn. lia.
Qed.
Lemma windowed_pop all kept now : windowed all kept now →
  windowed all (pop_front_while (fun x => out_of_window now (time x)) kept) now.
Proof using Type.
  intros (Hb & dropped & -> & Hd). split; [done|]. clear Hb. revert dropped Hd. induction kept as [|x kept IH]; intros dropped Hd; cbn; [by exists dropped|].
  destruct (out_of_window now (time x)) eqn:E; [|by exists dropped].
  destruct (IH (dropped ++ [x])) as (d & E' & Hd').
  { apply Forall_app. split; [done|]. apply Forall_singleton. unfold out_of_window, saturating_duration_since in E.
    apply N.leb_le in E. assert (0 < REQUEST_WINDOW) by done. lia. }
  exists d. split; [|done]. by rewrite <-E', <-app_assoc.
Qed.
Lemma windowed_push all kept now x : windowed all kept now → time x = now → (P x → length (filter P kept) < k)%nat →
  windowed (all ++ [x]) (kept ++ [x]) now.
Proof using Type.
  intros (Hb & dropped & -> & Hd) Hx Hk. split; [|exists dropped; by rewrite app_assoc].
  intros t. rewrite filter_app, length_app, filter_cons, filter_nil.
  destruct (decide (in_window t x)) as [Hin|]; [|cbn; specialize (Hb t); lia]. cbn [length].
  assert (filter (in_window t) dropped = []) as E.
  { apply list_filter_none. eapply Forall_impl; [exact Hd|]. cbn. intros y Hy [_ Hw]. destruct Hin as [_ Hin]. lia. }
  rewrite filter_app, E. cbn [app]. specialize (Hk (proj1 Hin)).
  assert (length (filter (in_window t) kept) <= length (filter P kept))%nat; [|lia].
  apply filter_length_mono. by intros y [Hy _].
Qed.
End windows.

(** ** The invariant of a flow *)
Definition asked_at (events : list Event) : list N :=
  omap (fun e => match e with Asked _ t => Some t | _ => None end) events.
Definition answered_at (events : list Event) : list (N * list N) :=
  omap (fun e => match e with Answered _ device _ _ _ _ t => Some (t, device) | _ => None end) events.

Section invariant.
Context (sha256 : list N → list N).

(** The digits shown for a key are those of an exchange in which that key and the revealed nonce match the commitment. *)
Definition compared (events : list Event) (session_id : N) (device key code : list N) (started_at : N) : Prop :=
  ∃ local nonce_a nonce_b,
    Answered session_id device local nonce_a key (commitment sha256 key nonce_b) started_at ∈ events ∧
    Matched session_id nonce_b ∈ events ∧
    code = short_authentication_string sha256 local key nonce_a nonce_b.

Definition gate_holds (g : PairingGate) (deadline : N) : Prop :=
  is_locked_out g = false ∧ g_pending g = None ∧ g_deciding_until g = Some deadline.
Definition stage_ok (events : list Event) (f : PairingFlow) : Prop :=
  let g := ph_gate (pf_history f) in
  let room := len (ph_requests (pf_history f)) < MAX_PAIRING_REQUESTS_PER_HOUR in
  match pf_stage f with
  | Idle => g_pending g = None ∧ g_deciding_until g = None
  | AwaitingReveal session_id device st =>
      is_locked_out g = false ∧ g_deciding_until g = None ∧ room ∧ ∃ local nonce key c,
      Answered session_id device local nonce key c st ∈ events ∧
      g_pending g = Some (mkPairingAcceptor local nonce key c (st + PAIRING_EXPIRY))
  | AwaitingName session_id device key code st =>
      gate_holds g (st + PAIRING_EXPIRY) ∧ room ∧ compared events session_id device key code st
  | Deciding d =>
      gate_holds g (pd_started d + PAIRING_EXPIRY) ∧ (∃ t, Asked d t ∈ events) ∧
      compared events (pd_session_id d) (pd_peer_device_id d) (pd_peer_public_key d) (pd_code d) (pd_started d)
  end.

Definition always {A} (_ : A) : Prop := True.
#[local] Instance always_dec {A} (x : A) : Decision (always x) := left I.
Definition of_device (device : list N) (entry : N * list N) : Prop := entry.2 = device.
#[local] Instance of_device_dec device entry : Decision (of_device device entry).
Proof using Type. unfold of_device. apply _. Defined.

Definition history_ok (events : list Event) (now : N) (h : PairingHistory) : Prop :=
  windowed (fun t => t) always 3 (asked_at events) (ph_requests h) now ∧
  windowed fst always 12 (answered_at events) (ph_answered h) now ∧
  ∀ device, windowed fst (of_device device) 3 (answered_at events) (ph_answered h) now.

Definition flow_inv (events : list Event) (now : N) (f : PairingFlow) : Prop :=
  g_failed_attempts (ph_gate (pf_history f)) <= MAX_FAILED_PAIRING_ATTEMPTS ∧
  stage_ok events f ∧ history_ok events now (pf_history f).

Lemma compared_mono events e session_id device key code st :
  compared events session_id device key code st → compared (events ++ e) session_id device key code st.
Proof using Type. intros (l & a & b & ? & ? & ?). exists l, a, b. set_solver. Qed.
Lemma flow_inv_new : flow_inv [] 0 flow_new.
Proof using Type. split; [done|]. split; [done|]. repeat split; (intros ?; cbn; lia) || (by exists []). Qed.
Lemma allowance_ok_later events now now' h : now <= now' → history_ok events now h → history_ok events now' h.
Proof using Type. intros Hn (H1 & H2 & H3). split_and!; [..|intros d; specialize (H3 d)]; by eapply windowed_later. Qed.
Lemma flow_inv_later events now now' f : now <= now' → flow_inv events now f → flow_inv events now' f.
Proof using Type. intros Hn (? & ? & ?). split_and!; try done. by eapply allowance_ok_later. Qed.
Lemma flow_inv_idle events now f h : flow_inv events now f → ph_requests h = ph_requests (pf_history f) →
  ph_answered h = ph_answered (pf_history f) → g_failed_attempts (ph_gate h) <= MAX_FAILED_PAIRING_ATTEMPTS →
  g_pending (ph_gate h) = None → g_deciding_until (ph_gate h) = None → flow_inv events now (mkPairingFlow h Idle).
Proof using Type. intros (_ & _ & Hh) Er Ea. unfold flow_inv, history_ok. cbn. rewrite Er, Ea. naive_solver. Qed.
Lemma flow_inv_abandon events now f : flow_inv events now f → flow_inv events now (abandon f).
Proof using Type. intros Hf. eapply flow_inv_idle; try done. apply Hf. Qed.

Lemma expire_correct f now :
  (expire f now).1 = abandon f ∨ (expire f now).1 = f ∧ (∀ st, started f = Some st → now < st + PAIRING_EXPIRY).
Proof using Type.
  unfold expire. destruct (started f) as [st|]; [|by right].
  destruct (N.ltb_spec now (st + PAIRING_EXPIRY)); [right; split; [done|]; by intros ? [= <-]|by left].
Qed.
Lemma flow_inv_expire events now f now' : flow_inv events now f → now <= now' → flow_inv events now' (expire f now').1.
Proof using Type.
  intros Hf Hn. eapply flow_inv_later in Hf; [|exact Hn]. destruct (expire_correct f now') as [->|[-> _]]; [by apply flow_inv_abandon|done].
Qed.

Lemma answered_wait_none answered device now : answered_wait answered device now = None →
  len answered < MAX_ANSWERED_REQUESTS_PER_HOUR ∧ len (filter (of_device device) answered) < MAX_ANSWERED_REQUESTS_PER_DEVICE_PER_HOUR.
Proof using Type.
  unfold answered_wait. change (filter (fun entry : N * list N => entry.2 = device) answered) with (filter (of_device device) answered).
  destruct answered as [|[oldest d] rest]; [by split|]. set (all := (oldest, d) :: rest) in *.
  destruct (filter _ all) as [|[o d'] l]; destruct (N.leb_spec MAX_ANSWERED_REQUESTS_PER_HOUR (len all)); try done;
    destruct (N.leb_spec MAX_ANSWERED_REQUESTS_PER_DEVICE_PER_HOUR (len ((o, d') :: l))) || idtac; by repeat split.
Qed.
Lemma filter_always {A} (l : list A) : filter always l = l.
Proof using Type. apply list_filter_all. by apply Forall_forall. Qed.
Lemma history_ok_pop events now h gate :
  history_ok events now h →
  let h' := mkPairingHistory gate (pop_front_while (out_of_window now) (ph_requests h)) (ph_answered h) in
  history_ok events now h' ∧
  history_ok events now (mkPairingHistory gate (ph_requests h') (pop_front_while (fun entry => out_of_window now entry.1) (ph_answered h))).
Proof using Type.
  intros (H1 & H2 & H3). cbn. pose proof (windowed_pop _ _ _ _ _ _ H1) as H1'. cbn in H1'.
  split; split_and!; try done; [by apply windowed_pop|]. intros d. apply windowed_pop, H3.
Qed.
Lemma history_ok_answer events now g r a session_id device local nonce key c :
  history_ok events now (mkPairingHistory g r a) → answered_wait a device now = None →
  history_ok (events ++ [Answered session_id device local nonce key c now]) now (mkPairingHistory g r (a ++ [(now, device)])).
Proof using Type.
  intros (H1 & H2 & H3) [Ha Hd]%answered_wait_none. unfold history_ok, asked_at, answered_at in *. cbn in *. rewrite !omap_app. cbn. rewrite app_nil_r.
  unfold len, MAX_ANSWERED_REQUESTS_PER_HOUR, MAX_ANSWERED_REQUESTS_PER_DEVICE_PER_HOUR in *.
  split_and!; [done|apply windowed_push; [done|done|]; rewrite filter_always; lia|].
  intros d. apply windowed_push; [done|done|]. unfold of_device at 1. cbn. intros <-. lia.
Qed.

Lemma begin_idle g pk nonce key c now : g_pending g = None → g_deciding_until g = None → is_locked_out g = false →
  (∃ e, begin g pk nonce key c now = (g, Bad e)) ∨
  begin g pk nonce key c now = (mkPairingGate (Some (mkPairingAcceptor pk nonce key c (now + PAIRING_EXPIRY))) None (g_failed_attempts g), Good (PairAccept pk nonce)).
Proof using Type.
  intros Hp Hd Hk. destruct (decide (key = pk)) as [E|E].
  - left. exists IdenticalKeys. unfold begin. rewrite Hk, Hp, Hd. cbn. unfold receive_request. by rewrite bool_decide_true.
  - destruct (is_low_order_public_key key) eqn:El.
    + left. exists InvalidPublicKey. unfold begin. rewrite Hk, Hp, Hd. cbn. unfold receive_request. by rewrite bool_decide_false, El.
    + right. apply begin_free; [|done|done]. split; [done|]. rewrite Hp, Hd. done.
Qed.

Definition step_keeps (f : PairingFlow) (events : list Event) (a : Action) (now : N) : Prop :=
  flow_inv (events ++ (flow_step sha256 f a).2) now (flow_step sha256 f a).1.

Lemma request_keeps events now f session_id device local nonce key c t :
  flow_inv events now f → now <= t → step_keeps f events (Request session_id device local nonce key c t) t.
Proof using Type.
  intros Hf Hn. pose proof (flow_inv_expire _ _ _ _ Hf Hn) as (Hfail & Hs & Hh). unfold step_keeps. cbn [flow_step]. unfold request.
  destruct (expire f t) as [f1 o]. cbn [fst] in *. clear o Hf.
  destruct (is_locked_out (ph_gate (pf_history f1))) eqn:Hk; [cbn; by rewrite app_nil_r|].
  destruct f1 as [h stage]. cbn [pf_history pf_stage] in *. destruct stage; try (cbn; by rewrite app_nil_r). destruct Hs as [Hp Hd].
  destruct (history_ok_pop _ _ h (ph_gate h) Hh) as [Hh1 Hh2]. cbn in Hh1, Hh2. set (requests := pop_front_while _ (ph_requests h)) in *.
  destruct (N.leb_spec MAX_PAIRING_REQUESTS_PER_HOUR (len requests)) as [|Hroom]; [cbn; rewrite app_nil_r; done|].
  set (answered := pop_front_while _ (ph_answered h)) in *. destruct (answered_wait answered device t) eqn:Ew; [cbn; rewrite app_nil_r; done|].
  destruct (begin_idle (ph_gate h) local nonce key c t Hp Hd Hk) as [[e ->]| ->]; [cbn; by rewrite app_nil_r|].
  split; [done|]. split; [|by apply history_ok_answer].
  cbn. split; [done|]. split; [done|]. split; [done|]. exists local, nonce, key, c. split; [set_solver|done].
Qed.

Lemma reveal_keeps events now f session_id nonce t :
  flow_inv events now f → now <= t → step_keeps f events (Reveal session_id nonce t) t.
Proof using Type.
  intros Hf Hn. pose proof (flow_inv_later _ _ _ _ Hn Hf) as (Hfail & Hs & Hh). unfold step_keeps. cbn [flow_step]. unfold flow_reveal.
  assert (Hsame : flow_inv (events ++ []) t f) by (rewrite app_nil_r; by eapply flow_inv_later).
  destruct f as [h stage]. cbn [pf_history pf_stage] in *. destruct stage as [|sid device st| |]; try exact Hsame.
  destruct (N.eqb_spec sid session_id) as [->|]; [|exact Hsame]. clear Hsame Hf.
  destruct Hs as (Hk & Hd & Hroom & local & na & key & c & Hin & Hp).
  unfold reveal. cbn [pf_history] in *. rewrite Hk, Hp. unfold receive_reveal. cbn [pa_deadline pa_requester_public_key pa_requester_commitment pa_public_key pa_nonce].
  unfold is_locked_out, MAX_FAILED_PAIRING_ATTEMPTS in *. apply N.leb_gt in Hk.
  destruct (st + PAIRING_EXPIRY <=? t). { cbn. rewrite app_nil_r. split; [done|]. split; [by split|done]. }
  destruct (decide (commitment sha256 key nonce = c)) as [<-|E]; [rewrite bool_decide_false by naive_solver|rewrite bool_decide_true by done].
  - cbn. split; [done|]. split; [|unfold history_ok, asked_at, answered_at in *; rewrite !omap_app; cbn; by rewrite !app_nil_r].
    cbn. split; [split; [by apply N.leb_gt|done]|]. split; [done|]. exists local, na, nonce. rewrite !elem_of_app, !list_elem_of_singleton. auto.
  - cbn. rewrite app_nil_r. split; [|split; [by split|done]]. cbn. rewrite u32_wrap_small; [unfold MAX_FAILED_PAIRING_ATTEMPTS; lia|unfold u32_max; lia].
Qed.

Lemma present_keeps events now f session_id name replaced t :
  flow_inv events now f → now <= t → step_keeps f events (Present session_id name replaced t) t.
Proof using Type.
  intros Hf Hn. pose proof (flow_inv_expire _ _ _ _ Hf Hn) as Hf1. unfold step_keeps. cbn [flow_step]. unfold present.
  destruct (expire f t) as [f1 o]. cbn [fst] in *. clear o Hf.
  assert (Hsame : flow_inv (events ++ []) t f1) by by rewrite app_nil_r.
  destruct f1 as [h stage]. cbn [pf_stage]. destruct stage as [| |sid device key code st|]; try exact Hsame.
  destruct (N.eqb_spec sid session_id) as [->|]; [|exact Hsame]. clear Hsame.
  destruct Hf1 as (Hfail & (Hg & Hroom & Hc) & H1 & H2 & H3). cbn [pf_history option_list pending_decision pf_stage fmap option_fmap option_map] in *.
  split; [done|]. split.
  - split; [done|]. split; [exists t; cbn; set_solver|by apply compared_mono].
  - unfold history_ok, asked_at, answered_at in *. cbn in *. rewrite !omap_app. cbn. rewrite app_nil_r. split_and!; [|done|done].
    apply windowed_push; [done|done|]. intros _. rewrite filter_always. unfold len, MAX_PAIRING_REQUESTS_PER_HOUR in Hroom. lia.
Qed.

Lemma decide_keeps events now f session_id trust t :
  flow_inv events now f → now <= t → step_keeps f events (Decide session_id trust t) t.
Proof using Type.
  intros Hf Hn. pose proof (flow_inv_expire _ _ _ _ Hf Hn) as Hf1. unfold step_keeps. cbn [flow_step]. unfold decide_pairing.
  destruct (expire f t) as [f1 o]. cbn [fst] in *. clear o Hf.
  assert (Hsame : flow_inv (events ++ []) t f1) by by rewrite app_nil_r.
  destruct f1 as [h stage]. cbn [pf_stage]. destruct stage as [| | |d]; try exact Hsame.
  destruct (pd_session_id d =? session_id); [|exact Hsame]. clear Hsame.
  destruct Hf1 as (Hfail & ((Hk & Hp & Hd) & _) & Hh). cbn [pf_history option_list fmap option_fmap option_map] in *.
  split; [|split].
  - cbn. destruct trust; cbn; [lia|]. apply N.leb_gt in Hk. unfold MAX_FAILED_PAIRING_ATTEMPTS in *.
    rewrite u32_wrap_small; [lia|unfold u32_max; lia].
  - cbn. by destruct trust.
  - unfold history_ok, asked_at, answered_at in *. cbn in *. rewrite !omap_app. cbn. by rewrite !app_nil_r.
Qed.

(** Every action keeps the invariant. *)
Lemma step_inv events now f a : flow_inv events now f → now <= clock_after now a → step_keeps f events a (clock_after now a).
Proof using Type.
  intros Hf Hn. destruct a; cbn in Hn |- *;
    [by eapply request_keeps|by eapply reveal_keeps|by eapply present_keeps|by eapply decide_keeps|..]; unfold step_keeps; cbn; rewrite app_nil_r.
  - unfold dismiss. pose proof (flow_inv_expire _ _ _ _ Hf Hn) as Hf1. destruct (expire f now0) as [f1 o]. cbn in Hf1.
    destruct (pf_stage f1); try done. destruct (_ =? _); [by apply flow_inv_abandon|done].
  - by eapply flow_inv_expire.
  - unfold session_gone. destruct (active_session f); [|done]. destruct (_ =? _); [by apply flow_inv_abandon|done].
  - by eapply flow_inv_idle.
  - eapply flow_inv_idle; try done. apply Hf.
Qed.
Lemma run_inv f events now : flow_run sha256 f events now → flow_inv events now f.
Proof using Type. induction 1; [apply flow_inv_new|]. by apply step_inv. Qed.
End invariant.

(** ** What a person at the screen can rely on *)
Section promises.
Context (sha256 : list N → list N).

Definition flow_locked (f : PairingFlow) : bool := flow_is_locked_out f.

Lemma abandon_locked f : flow_locked (abandon f) = flow_locked f.
Proof using Type. done. Qed.
Lemma expire_locked f now : flow_locked (expire f now).1 = flow_locked f.
Proof using Type. by destruct (expire_correct f now) as [->|[-> _]]. Qed.
Lemma locked_idle events now f : flow_inv sha256 events now f → flow_locked f = true → pf_stage f = Idle.
Proof using Type.
  intros (_ & Hs & _) Hk. unfold flow_locked, flow_is_locked_out in Hk. unfold stage_ok in Hs.
  destruct (pf_stage f); [done|..]; [destruct Hs as (Hk' & _)|destruct Hs as ((Hk' & _) & _)|destruct Hs as ((Hk' & _) & _)]; congruence.
Qed.

Definition failures (f : PairingFlow) : N := g_failed_attempts (ph_gate (pf_history f)).
(** The failures an action leaves: digits that differ and reveals that do not match add one, digits that match and [unlock] forgive all. *)
Definition failures_after (f : PairingFlow) (a : Action) : N :=
  match a with
  | Unlock => 0
  | Decide session_id trust now =>
      match (decide_pairing f session_id trust now).2 with
      | Some _ => if trust then 0 else failures f + 1
      | None => failures f
      end
  | Reveal session_id nonce now =>
      match (flow_reveal sha256 f session_id nonce now).2 with
      | Bad RefusedCommitmentMismatch => failures f + 1
      | _ => failures f
      end
  | _ => failures f
  end.
Lemma expire_failures f now : failures (expire f now).1 = failures f.
Proof using Type. by destruct (expire_correct f now) as [->|[-> _]]. Qed.

Lemma decide_failures events now f session_id trust t : flow_inv sha256 events now f → now <= t →
  failures (decide_pairing f session_id trust t).1 = failures_after f (Decide session_id trust t).
Proof using Type.
  intros Hf Hn. unfold failures_after. pose proof (flow_inv_expire _ _ _ _ _ Hf Hn) as (Hfail & Hs & _).
  rewrite <-(expire_failures f t). unfold decide_pairing. destruct (expire f t) as [f1 o]. cbn [fst] in *.
  unfold stage_ok in Hs. destruct (pf_stage f1) as [| | |d]; try done. destruct (_ =? _); [|done].
  destruct trust; [done|]. cbn. unfold failures. destruct Hs as ((Hk%N.leb_gt & _) & _).
  apply u32_wrap_small. revert Hk. unfold MAX_FAILED_PAIRING_ATTEMPTS, u32_max. lia.
Qed.
Lemma reveal_failures events now f session_id nonce t : flow_inv sha256 events now f →
  failures (flow_reveal sha256 f session_id nonce t).1 = failures_after f (Reveal session_id nonce t).
Proof using Type.
  intros (Hfail & Hs & _). unfold failures_after, flow_reveal. unfold stage_ok in Hs.
  destruct (pf_stage f) as [|sid device st| |]; try done. destruct (sid =? session_id); [|done].
  destruct Hs as (Hk & _ & _ & local & na & key & c & _ & Hp). unfold reveal. rewrite Hk, Hp. apply N.leb_gt in Hk.
  destruct (receive_reveal _ _ _) as [out|[]]; try done. cbn. apply u32_wrap_small. revert Hk. unfold failures, MAX_FAILED_PAIRING_ATTEMPTS, u32_max. lia.
Qed.
Lemma request_failures f session_id device local nonce key c t :
  failures (request f session_id device local nonce key c t).1 = failures f.
Proof using Type.
  rewrite <-(expire_failures f t). unfold request. destruct (expire f t) as [f1 o]. cbn [fst].
  destruct (is_locked_out _); [done|]. destruct (pf_stage f1); try done. destruct (_ <=? _); [done|].
  destruct (answered_wait _ _ _); [done|]. unfold begin. destruct (is_locked_out _); [done|].
  destruct (existsb _ _); [done|]. by destruct (receive_request _ _ _ _ _) as [[]|].
Qed.
Lemma step_failures events now f a : flow_inv sha256 events now f → now <= clock_after now a →
  failures (flow_step sha256 f a).1 = failures_after f a.
Proof using Type.
  intros Hf Hn. destruct a as [| | |session_id trust t| | | | |]; cbn in Hn |- *.
  - pose proof (request_failures f session_id peer_device_id local_public_key nonce requester_public_key commitment now0) as E.
    by destruct (request _ _ _ _ _ _ _ _).
  - pose proof (reveal_failures _ _ _ session_id nonce now0 Hf) as E. cbn in E. by destruct (flow_reveal _ _ _ _ _).
  - pose proof (expire_failures f now0) as E. unfold present. destruct (expire f now0) as [f1 o]. cbn in E.
    destruct (pf_stage f1); try done. by destruct (_ =? _).
  - pose proof (decide_failures _ _ _ session_id trust t Hf Hn) as E. cbn in E. by destruct (decide_pairing _ _ _ _).
  - pose proof (expire_failures f now0) as E. unfold dismiss. destruct (expire f now0) as [f1 o]. cbn in E.
    destruct (pf_stage f1); try done. by destruct (_ =? _).
  - apply expire_failures.
  - unfold session_gone. destruct (active_session f); [|done]. by destruct (_ =? _).
  - done.
  - done.
Qed.

(** C14: A lockout holds.  In every run failures are counted exactly, three of them lock the flow, and the count never goes beyond;
    a flow that is locked out asks nothing of the person, refuses every request with [LockedOut] and every reveal with
    [NoPendingExchange], and no action but [unlock] ends the lockout. *)
Theorem lockout_holds f events now (a : Action) :
  flow_run sha256 f events now → now <= clock_after now a →
  failures (flow_step sha256 f a).1 = failures_after f a ∧
  (flow_is_locked_out f = true ↔ failures f = 3) ∧ failures f <= 3 ∧
  (flow_is_locked_out f = true →
     pending_decision f = None ∧ (flow_step sha256 f a).2 = [] ∧
     (flow_is_locked_out (flow_step sha256 f a).1 = true ∨ a = Unlock) ∧
     (∀ session_id device local nonce key c t, a = Request session_id device local nonce key c t →
        request f session_id device local nonce key c t = (f, Bad RefusedLockedOut)) ∧
     (∀ session_id nonce t, a = Reveal session_id nonce t →
        flow_reveal sha256 f session_id nonce t = (f, Bad RefusedNoPendingExchange))).
Proof using Type.
  intros Hr Hn. pose proof (run_inv _ _ _ _ Hr) as Hf. split; [by eapply step_failures|].
  assert (Hle : failures f <= 3) by apply Hf. split; [|split; [done|]].
  { unfold flow_is_locked_out, is_locked_out, MAX_FAILED_PAIRING_ATTEMPTS. fold (failures f). rewrite N.leb_le. lia. }
  intros Hk. pose proof (locked_idle _ _ _ Hf Hk) as Hi.
  destruct f as [h stage]. cbn in Hi. subst stage. unfold flow_is_locked_out in Hk. cbn in Hk.
  split; [done|]. split; [|split; [|split]].
  - destruct a; try done. cbn. unfold request, expire. cbn. by rewrite Hk.
  - destruct a; try (by right); left; cbn; try done. unfold request, expire. cbn. by rewrite Hk.
  - intros * ->. unfold request, expire. cbn. by rewrite Hk.
  - by intros * ->.
Qed.

(** C13: A key is trusted only after the digits of its own exchange were compared.  Whenever a run reports that the person answered a question, that
    question was asked before, for a request that had been answered less than two minutes earlier on the same session, the nonce that was revealed matches the commitment
    of that request for the key, and the digits asked about are those of the two keys and the two nonces. *)
Theorem decision_was_compared f events now session_id (trust : bool) (t : N) (d : PendingDecision) :
  flow_run sha256 f events now → now <= t →
  (flow_step sha256 f (Decide session_id trust t)).2 = [Decided d trust t] →
  session_id = pd_session_id d ∧ t < pd_started d + PAIRING_EXPIRY ∧ (∃ asked, Asked d asked ∈ events) ∧
  ∃ local nonce_a nonce_b,
    Answered session_id (pd_peer_device_id d) local nonce_a (pd_peer_public_key d) (commitment sha256 (pd_peer_public_key d) nonce_b) (pd_started d) ∈ events ∧
    Matched session_id nonce_b ∈ events ∧
    pd_code d = short_authentication_string sha256 local (pd_peer_public_key d) nonce_a nonce_b.
Proof using Type.
  intros Hr Hn. pose proof (flow_inv_expire _ _ _ _ _ (run_inv _ _ _ _ Hr) Hn) as (_ & Hs & _). cbn [flow_step]. unfold decide_pairing.
  destruct (expire_correct f t) as [E|[E Ht]]; destruct (expire f t) as [f1 o]; cbn [fst] in *; subst f1; [done|].
  unfold stage_ok in Hs. unfold started in Ht. destruct (pf_stage f) as [| | |d']; try done.
  destruct (N.eqb_spec (pd_session_id d') session_id) as [E|]; [|done]. cbn. intros [= ->].
  destruct Hs as (_ & Ha & Hc). split; [done|]. split; [by apply Ht|]. split; [done|]. by rewrite <-E.
Qed.

(** C15: The allowances hold in every run, across restarts and lockouts: in no hour is the person asked more than three times, are more than
    twelve requests answered, or more than three for one device. *)
Theorem allowances_hold f events now (hour : N) (device : list N) :
  flow_run sha256 f events now →
  let within t := hour <= t < hour + REQUEST_WINDOW in
  (length (filter within (asked_at events)) <= 3)%nat ∧
  (length (filter (fun e => within e.1) (answered_at events)) <= 12)%nat ∧
  (length (filter (fun e => e.2 = device ∧ within e.1) (answered_at events)) <= 3)%nat.
Proof using Type.
  intros (_ & _ & [H1 _] & [H2 _] & H3)%run_inv within. specialize (H1 hour). specialize (H2 hour). destruct (H3 device) as [H3' _]. specialize (H3' hour).
  split; [etransitivity; [|exact H1]|split; [etransitivity; [|exact H2]|etransitivity; [|exact H3']]];
    apply filter_length_mono; intros x; unfold within, in_window, of_device, always; tauto.
Qed.
End promises.

(** ** A run that can be evaluated *)
Module Script.
Section play.
Context (sha256 : list N → list N).
Fixpoint play (f : PairingFlow) (events : list Event) (now : N) (l : list Action) : option (PairingFlow * list Event * N) :=
  match l with
  | [] => Some (f, events, now)
  | a :: l =>
      if now <=? clock_after now a
      then play (flow_step sha256 f a).1 (events ++ (flow_step sha256 f a).2) (clock_after now a) l else None
  end.
Lemma play_run l : ∀ f events now f' events' now', flow_run sha256 f events now → play f events now l = Some (f', events', now') →
  flow_run sha256 f' events' now'.
Proof using Type.
  induction l as [|a l IH]; intros f events now f' events' now' Hr; cbn [play]; [by intros [= <- <- <-]|].
  destruct (N.leb_spec now (clock_after now a)) as [Hn|]; [|done]. apply IH. by constructor.
Qed.
End play.
Definition no_names (_ _ : list N) : option (list N) := None.
(** Two devices meet; the person is asked at time 8. *)
Definition meeting : list Action :=
  [Request 1 [65] [9] [1] [8] (commitment first_bytes [8] [2]) 5; Reveal 1 [2] 6; Present 1 [66] no_names 8].
(** Three reveals that do not match. *)
Definition guessing : list Action :=
  [Request 1 [65] [9] [1] [8] [0] 5; Reveal 1 [2] 6; Request 2 [65] [9] [1] [8] [0] 7; Reveal 2 [2] 8;
   Request 3 [65] [9] [1] [8] [0] 9; Reveal 3 [2] 10].
End Script.

Lemma lockout_holds_witness :
  ∃ f events, flow_run first_bytes f events 10 ∧ flow_is_locked_out f = true ∧
    request f 4 [67] [9] [1] [8] [0] 11 = (f, Bad RefusedLockedOut).
Proof.
  destruct (Script.play first_bytes flow_new [] 0 Script.guessing) as [[[f events] now]|] eqn:E; [|vm_compute in E; discriminate E].
  assert (now = 10) as -> by (vm_compute in E; injection E as _ _ <-; reflexivity).
  assert (Hk : flow_is_locked_out f = true) by (vm_compute in E; injection E as <- _; reflexivity).
  pose proof (Script.play_run first_bytes _ _ _ _ _ _ _ (run_start first_bytes) E) as Hr. exists f, events. split; [exact Hr|]. split; [exact Hk|].
  apply (lockout_holds first_bytes f events 10 (Request 4 [67] [9] [1] [8] [0] 11) Hr ltac:(done)); [exact Hk|reflexivity].
Defined.
Lemma decision_was_compared_witness :
  ∃ f events d, flow_run first_bytes f events 8 ∧ (flow_step first_bytes f (Decide 1 true 9)).2 = [Decided d true 9] ∧
    9 < pd_started d + PAIRING_EXPIRY ∧ ∃ nonce_b, Matched 1 nonce_b ∈ events.
Proof.
  destruct (Script.play first_bytes flow_new [] 0 Script.meeting) as [[[f events] now]|] eqn:E; [|vm_compute in E; discriminate E].
  assert (now = 8) as -> by (vm_compute in E; injection E as _ _ <-; reflexivity).
  pose proof (Script.play_run first_bytes _ _ _ _ _ _ _ (run_start first_bytes) E) as Hr.
  assert (∃ d, (flow_step first_bytes f (Decide 1 true 9)).2 = [Decided d true 9]) as [d Hd].
  { vm_compute in E. injection E as <- _. eexists. vm_compute. reflexivity. }
  exists f, events, d. split; [exact Hr|]. split; [exact Hd|].
  destruct (decision_was_compared first_bytes f events 8 1 true 9 d Hr ltac:(done) Hd) as (_ & Ht & _ & local & na & nb & _ & Hm & _).
  split; [exact Ht|]. by exists nb.
Defined.
Lemma allowances_hold_witness :
  ∃ f events, flow_run first_bytes f events 8 ∧ asked_at events = [8] ∧
    (length (filter (fun t => (5 <= t < 5 + REQUEST_WINDOW)%N) (asked_at events)) <= 3)%nat.
Proof.
  destruct (Script.play first_bytes flow_new [] 0 Script.meeting) as [[[f events] now]|] eqn:E; [|vm_compute in E; discriminate E].
  assert (now = 8) as -> by (vm_compute in E; injection E as _ _ <-; reflexivity).
  pose proof (Script.play_run first_bytes _ _ _ _ _ _ _ (run_start first_bytes) E) as Hr.
  exists f, events. split; [exact Hr|]. split; [vm_compute in E; injection E as _ <-; reflexivity|].
  exact (proj1 (allowances_hold first_bytes f events 8 5 [] Hr)).
Defined.
