(* ===== verification/GitGraph.v ===== *)
(** * Lanes of the commit graph: [crates/git_graph_core/src/git_graph_core.rs]

    The graph shows one commit per row.  [GraphData] assigns each commit a lane (a column) and
    draws a line from each commit to each of its parents once the parent's row is known; until
    then the line occupies a lane, [Active].  Rows and columns are [usize]; the largest one marks what is not
    known yet.  An [Oid] is a parameter with decidable equality. *)

From stdpp Require Import gmap.
From S2P Require Import Prelude Patch.
Local Open Scope N_scope.

Definition usize_MAX : N := 2 ^ 64 - 1.

Inductive CurveKind := Merge | Checkout.
Inductive CommitLineSegment :=
  | Straight (to_row : N)
  | Curve (to_column on_row : N) (curve_kind : CurveKind).

(** [struct BranchColor(pub u8)] *)
Definition BranchColor : Type := N.

Section graph.
Context {Oid : Type} `{Countable Oid}.

(** [InitialGraphCommitData] of [git] *)
Record CommitData := mkCommitData { cd_sha : Oid; cd_parents : list Oid; cd_ref_names : list (list N) }.

(** The fields of [LaneState::Active] *)
Record ActiveLane := mkActiveLane {
  al_child : Oid; al_parent : Oid; al_color : option BranchColor; al_starting_row : N; al_starting_col : N;
  al_destination_column : option N; al_segments : list CommitLineSegment }.
Inductive LaneState := Empty | Active (lane : ActiveLane).

Record CommitLine := mkCommitLine {
  cl_child : Oid; cl_parent : Oid; cl_child_column : N; cl_start : N; cl_end : N; cl_color_idx : N;
  cl_segments : list CommitLineSegment }.

(** The segments of a line that arrives at [ending_row]: the last one is completed, by more segments where it is needed. *)
Definition complete_segments (segments : list CommitLineSegment) (starting_row ending_row lane_column final_destination : N)
    : list CommitLineSegment :=
  let before := removelast segments in
  let checkout := Curve final_destination ending_row Checkout in
  match last segments with
  | Some (Straight to_row) =>
      if to_row =? usize_MAX then
        if negb (final_destination =? lane_column) then
          let to_row := usize_sub ending_row 1 in
          if to_row =? starting_row then before ++ [checkout] else before ++ [Straight to_row; checkout]
        else before ++ [Straight ending_row]
      else segments
  | Some (Curve to_column on_row curve_kind) =>
      if on_row =? usize_MAX then
        let to_column := if to_column =? usize_MAX then final_destination else to_column in
        match curve_kind with
        | Merge =>
            let on_row := usize_add starting_row 1 in
            before ++ Curve to_column on_row curve_kind ::
              (if on_row <? ending_row then
                 if negb (to_column =? final_destination) then [Straight (usize_sub ending_row 1); checkout]
                 else [Straight ending_row]
               else if negb (to_column =? final_destination) then [checkout] else [])
        | Checkout =>
            before ++ Curve to_column ending_row curve_kind ::
              (if negb (to_column =? final_destination) then [Straight ending_row; checkout] else [])
        end
      else
        segments ++
          (if on_row <? ending_row then
             if negb (to_column =? final_destination) then [Straight (usize_sub ending_row 1); checkout]
             else [Straight ending_row]
           else if negb (to_column =? final_destination) then [checkout] else [])
  | None => segments
  end.

(** The state left behind is [Empty]. *)
Definition to_commit_lines (self : LaneState) (ending_row lane_column parent_column : N) (parent_color : BranchColor)
    : LaneState * option CommitLine :=
  (Empty,
   match self with
   | Active lane =>
       let final_destination := default parent_column (al_destination_column lane) in
       let final_color := default parent_color (al_color lane) in
       Some (mkCommitLine (al_child lane) (al_parent lane) (al_starting_col lane) (al_starting_row lane) ending_row final_color
               (complete_segments (al_segments lane) (al_starting_row lane) ending_row lane_column final_destination))
   | Empty => None
   end).

Definition lane_is_empty (self : LaneState) : bool := match self with Empty => true | Active _ => false end.

Record CommitEntry := mkCommitEntry { ce_data : CommitData; ce_lane : N; ce_color_idx : N; ce_lanes : N }.
Inductive AllCommitCount := NotLoaded | Loaded (count : N).

(** The loop over the segments *)
Fixpoint first_visible_segment (segments : list CommitLineSegment) (idx current_column first_visible_row : N) : option (N * N) :=
  match segments with
  | [] => None
  | Straight to_row :: segments =>
      if first_visible_row <=? to_row then Some (idx, current_column)
      else first_visible_segment segments (idx + 1) current_column first_visible_row
  | Curve to_column on_row _ :: segments =>
      if first_visible_row <=? on_row then Some (idx, current_column)
      else first_visible_segment segments (idx + 1) to_column first_visible_row
  end.
Definition get_first_visible_segment_idx (self : CommitLine) (first_visible_row : N) : option (N * N) :=
  if cl_end self <? first_visible_row then None
  else if first_visible_row <=? cl_start self then Some (0, cl_child_column self)
  else first_visible_segment (cl_segments self) 0 (cl_child_column self) first_visible_row.

Record GraphData := mkGraphData {
  gd_lane_states : list LaneState;
  gd_lane_colors : gmap N BranchColor;
  gd_parent_to_lanes : gmap Oid (list N);
  gd_next_color : BranchColor;
  gd_accent_colors_count : N;
  gd_commits : list CommitEntry;
  gd_max_commit_count : AllCommitCount;
  gd_max_lanes : N;
  gd_lines : list CommitLine;
  gd_active_commit_lines : gmap (Oid * Oid) N;
  gd_active_commit_lines_by_parent : gmap Oid (list N) }.

Definition graph_new (accent_colors_count : N) : GraphData :=
  mkGraphData [] ∅ ∅ 0 accent_colors_count [] NotLoaded 0 [] ∅ ∅.
Definition graph_clear (self : GraphData) : GraphData :=
  mkGraphData [] ∅ ∅ 0 (gd_accent_colors_count self) [] NotLoaded 0 [] ∅ ∅.

Definition with_lanes (self : GraphData) (lane_states : list LaneState) : GraphData :=
  mkGraphData lane_states (gd_lane_colors self) (gd_parent_to_lanes self) (gd_next_color self) (gd_accent_colors_count self) (gd_commits self)
    (gd_max_commit_count self) (gd_max_lanes self) (gd_lines self) (gd_active_commit_lines self) (gd_active_commit_lines_by_parent self).
Definition with_colors (self : GraphData) (lane_colors : gmap N BranchColor) (next_color : BranchColor) : GraphData :=
  mkGraphData (gd_lane_states self) lane_colors (gd_parent_to_lanes self) next_color (gd_accent_colors_count self) (gd_commits self)
    (gd_max_commit_count self) (gd_max_lanes self) (gd_lines self) (gd_active_commit_lines self) (gd_active_commit_lines_by_parent self).
Definition with_waiting (self : GraphData) (parent_to_lanes : gmap Oid (list N)) : GraphData :=
  mkGraphData (gd_lane_states self) (gd_lane_colors self) parent_to_lanes (gd_next_color self) (gd_accent_colors_count self) (gd_commits self)
    (gd_max_commit_count self) (gd_max_lanes self) (gd_lines self) (gd_active_commit_lines self) (gd_active_commit_lines_by_parent self).
Definition with_lines (self : GraphData) (lines : list CommitLine) : GraphData :=
  mkGraphData (gd_lane_states self) (gd_lane_colors self) (gd_parent_to_lanes self) (gd_next_color self) (gd_accent_colors_count self) (gd_commits self)
    (gd_max_commit_count self) (gd_max_lanes self) lines (gd_active_commit_lines self) (gd_active_commit_lines_by_parent self).
Definition with_commits (self : GraphData) (commits : list CommitEntry) (max_lanes : N) : GraphData :=
  mkGraphData (gd_lane_states self) (gd_lane_colors self) (gd_parent_to_lanes self) (gd_next_color self) (gd_accent_colors_count self) commits
    (gd_max_commit_count self) max_lanes (gd_lines self) (gd_active_commit_lines self) (gd_active_commit_lines_by_parent self).

(** [rposition] of a lane that is not empty, plus one *)
Fixpoint occupied (lanes : list LaneState) : N :=
  match lanes with
  | [] => 0
  | lane :: lanes =>
      let rest := occupied lanes in
      if (rest =? 0) && lane_is_empty lane then 0 else rest + 1
  end.
Definition occupied_lanes (self : GraphData) : N := occupied (gd_lane_states self).

(** [position(LaneState::is_empty)] *)
Fixpoint position_empty (lanes : list LaneState) (idx : N) : option N :=
  match lanes with
  | [] => None
  | lane :: lanes => if lane_is_empty lane then Some idx else position_empty lanes (idx + 1)
  end.
Definition first_empty_lane_idx (self : GraphData) : GraphData * N :=
  match position_empty (gd_lane_states self) 0 with
  | Some idx => (self, idx)
  | None =>
      let lane_states := gd_lane_states self ++ [Empty] in
      (with_lanes self lane_states, N.of_nat (length lane_states) - 1)
  end.

(** [%] panics when the divisor is 0. *)
Definition u8_rem (a b : N) : outcome N := if b =? 0 then Panic else Ok (a `mod` b).
Definition get_lane_color (self : GraphData) (lane_idx : N) : outcome (GraphData * BranchColor) :=
  match gd_lane_colors self !! lane_idx with
  | Some color => Ok (self, color)
  | None =>
      let color_idx := gd_next_color self in
      next_color ← u8_rem (u8_wrap (gd_next_color self + 1)) (u8_wrap (gd_accent_colors_count self));
      Ok (with_colors self (<[lane_idx := color_idx]> (gd_lane_colors self)) next_color, color_idx)
  end.

(** [self.lane_states[lane] = state] *)
Definition set_lane (self : GraphData) (lane : N) (state : LaneState) : outcome GraphData :=
  _ ← unwrap (gd_lane_states self !! N.to_nat lane);
  Ok (with_lanes self (<[N.to_nat lane := state]> (gd_lane_states self))).

(** A merge line would run down the commit's lane; if a commit is in its way, it keeps to its own lane. *)
Definition avoid_overlap (commits : list CommitEntry) (lane : ActiveLane) (lane_column commit_lane commit_row : N) : ActiveLane :=
  match al_segments lane with
  | Curve to_column on_row Merge :: segments =>
      let curve_row := usize_add (al_starting_row lane) 1 in
      let would_overlap :=
        if negb (lane_column =? commit_lane) && (curve_row <? commit_row) then
          existsb (fun c => ce_lane c =? commit_lane)
            (drop (N.to_nat curve_row) (take (N.to_nat commit_row) commits))
        else false in
      if would_overlap : bool then
        mkActiveLane (al_child lane) (al_parent lane) (al_color lane) (al_starting_row lane) (al_starting_col lane)
          (al_destination_column lane) (Curve lane_column on_row Merge :: segments)
      else lane
  | _ => lane
  end.

(** One lane that ends at the commit *)
Definition arrive (commit_row commit_lane : N) (commit_color : BranchColor) (self : GraphData) (lane_column : N) : outcome GraphData :=
  state ← unwrap (gd_lane_states self !! N.to_nat lane_column);
  let state := match state with
    | Active lane => Active (avoid_overlap (gd_commits self) lane lane_column commit_lane commit_row)
    | Empty => Empty
    end in
  let '(state, line) := to_commit_lines state commit_row lane_column commit_lane commit_color in
  self ← set_lane self lane_column state;
  Ok (with_lines self (gd_lines self ++ match line with Some line => [line] | None => [] end)).
Fixpoint arrive_all (commit_row commit_lane : N) (commit_color : BranchColor) (self : GraphData) (lanes : list N) : outcome GraphData :=
  match lanes with
  | [] => Ok self
  | lane :: lanes => self ← arrive commit_row commit_lane commit_color self lane; arrive_all commit_row commit_lane commit_color self lanes
  end.

(** [self.parent_to_lanes.entry(parent).or_default().push(lane)] *)
Definition wait_for_parent (self : GraphData) (parent : Oid) (lane : N) : GraphData :=
  with_waiting self (<[parent := default [] (gd_parent_to_lanes self !! parent) ++ [lane]]> (gd_parent_to_lanes self)).

(** One parent of the commit *)
Definition depart (commit : CommitData) (commit_row commit_lane : N) (commit_color : BranchColor) (self : GraphData)
    (parent_idx : N) (parent : Oid) : outcome GraphData :=
  if parent_idx =? 0 then
    self ← set_lane self commit_lane (Active (mkActiveLane (cd_sha commit) parent (Some commit_color) commit_row commit_lane None
             [Straight usize_MAX]));
    Ok (wait_for_parent self parent commit_lane)
  else
    let '(self, new_lane) := first_empty_lane_idx self in
    self ← set_lane self new_lane (Active (mkActiveLane (cd_sha commit) parent None commit_row commit_lane None
             [Curve usize_MAX usize_MAX Merge]));
    Ok (wait_for_parent self parent new_lane).
Fixpoint depart_all (commit : CommitData) (commit_row commit_lane : N) (commit_color : BranchColor) (self : GraphData)
    (parent_idx : N) (parents : list Oid) : outcome GraphData :=
  match parents with
  | [] => Ok self
  | parent :: parents =>
      self ← depart commit commit_row commit_lane commit_color self parent_idx parent;
      depart_all commit commit_row commit_lane commit_color self (parent_idx + 1) parents
  end.

(** [lanes.first()] of the lanes that wait for the commit, or a free lane *)
Definition place_commit (self : GraphData) (sha : Oid) : GraphData * N :=
  match gd_parent_to_lanes self !! sha ≫= head with
  | Some lane => (self, lane)
  | None => first_empty_lane_idx self
  end.

Definition add_commit (self : GraphData) (commit : CommitData) : outcome GraphData :=
  let commit_row := N.of_nat (length (gd_commits self)) in
  let '(self, commit_lane) := place_commit self (cd_sha commit) in
  '(self, commit_color) ← get_lane_color self commit_lane;
  let lanes_arriving := occupied_lanes self in
  self ← match gd_parent_to_lanes self !! cd_sha commit with
         | Some lanes => arrive_all commit_row commit_lane commit_color (with_waiting self (delete (cd_sha commit) (gd_parent_to_lanes self))) lanes
         | None => Ok self
         end;
  self ← depart_all commit commit_row commit_lane commit_color self 0 (cd_parents commit);
  let max_lanes := N.max (gd_max_lanes self) (N.of_nat (length (gd_lane_states self))) in
  let lanes := N.max (N.max (occupied_lanes self) lanes_arriving) (commit_lane + 1) in
  Ok (with_commits self (gd_commits self ++ [mkCommitEntry commit commit_lane commit_color lanes]) max_lanes).

Fixpoint add_each (self : GraphData) (commits : list CommitData) : outcome GraphData :=
  match commits with
  | [] => Ok self
  | commit :: commits => self ← add_commit self commit; add_each self commits
  end.
Definition add_commits (self : GraphData) (commits : list CommitData) : outcome GraphData :=
  self ← add_each self commits;
  Ok (mkGraphData (gd_lane_states self) (gd_lane_colors self) (gd_parent_to_lanes self) (gd_next_color self) (gd_accent_colors_count self)
    (gd_commits self) (Loaded (N.of_nat (length (gd_commits self)))) (gd_max_lanes self) (gd_lines self)
    (gd_active_commit_lines self) (gd_active_commit_lines_by_parent self)).
End graph.
Arguments GraphData _ {_ _}.
Arguments CommitLine : clear implicits.
Arguments CommitData : clear implicits.
Arguments CommitEntry : clear implicits.
Arguments LaneState : clear implicits.
Arguments ActiveLane : clear implicits.

(** * The commit graph is drawn as the log says

    [trace] reads the segments of a line as the columns it passes, row by row.  [edges] is what the log of commits asks for: a
    line from each commit to each parent that appears below it.  The invariant [graph_ok] of [GraphData] says which of them are drawn and
    which lanes wait for the others. *)

(** ** Segments as columns *)

(** The columns of a line in the rows after [row], where it is in [col]; [None] if a segment goes upwards or a curve spans more than a row. *)
Fixpoint trace (row col : N) (segments : list CommitLineSegment) : option (list N) :=
  match segments with
  | [] => Some []
  | Straight to_row :: segments =>
      if row <=? to_row then app (replicate (N.to_nat (to_row - row)) col) <$> trace to_row col segments else None
  | Curve to_column on_row _ :: segments =>
      if on_row =? row + 1 then cons to_column <$> trace on_row to_column segments else None
  end.

Lemma replicate_snoc_same {A} n (x : A) : replicate n x ++ [x] = replicate (S n) x.
Proof. by rewrite <-replicate_S_end. Qed.

Section segments.
Context (r e q : N) (Hre : r < e) (He : e < usize_MAX).

Lemma row_before : usize_sub e 1 = e - 1.
Proof using All. rewrite usize_sub_exact; [done|]. unfold usize_MAX in He. lia. Qed.
Lemma row_after : usize_add r 1 = r + 1.
Proof using All. rewrite usize_add_exact; [done|]. unfold usize_MAX in He. lia. Qed.

(** The line of a first parent keeps to its lane. *)
Lemma trace_straight c : trace r c (complete_segments [Straight usize_MAX] r e c q) = Some (replicate (N.to_nat (e - r - 1)) c ++ [q]).
Proof using All.
  unfold complete_segments. cbn [last removelast]. rewrite N.eqb_refl, row_before.
  destruct (N.eqb_spec q c) as [->|]; cbn [negb app].
  - cbn [trace]. rewrite (proj2 (N.leb_le _ _)) by lia. cbn. rewrite app_nil_r, replicate_snoc_same. do 2 f_equal. lia.
  - destruct (N.eqb_spec (e - 1) r) as [E|E]; cbn [trace].
    + rewrite (proj2 (N.eqb_eq _ _)) by lia. cbn. by replace (N.to_nat (e - r - 1)) with 0%nat by lia.
    + rewrite (proj2 (N.leb_le _ _)), (proj2 (N.eqb_eq _ _)) by lia. cbn. do 3 f_equal. lia.
Qed.
(** The line of another parent goes over to a column at once, that of the parent or one that has to be left again. *)
Lemma trace_merge c l via :
  via = q ∨ (via ≠ q ∧ r + 1 < e ∧ via ≠ usize_MAX) →
  let to_column := if via =? q then usize_MAX else via in
  trace r c (complete_segments [Curve to_column usize_MAX Merge] r e l q) = Some (replicate (N.to_nat (e - r - 1)) via ++ [q]).
Proof using All.
  intros Hvia to_column. unfold complete_segments. cbn [last removelast]. rewrite N.eqb_refl, row_before, row_after.
  assert (Eto : (if to_column =? usize_MAX then q else to_column) = via).
  { unfold to_column. destruct (N.eqb_spec via q) as [->|]; [by rewrite N.eqb_refl|].
    destruct (N.eqb_spec via usize_MAX); [|done]. destruct Hvia as [|(_ & _ & ?)]; done. }
  rewrite Eto. cbn [app trace]. rewrite N.eqb_refl. destruct (N.ltb_spec (r + 1) e) as [Hlt|Hge].
  - destruct (N.eqb_spec via q) as [->|Hne]; cbn [negb trace].
    + rewrite (proj2 (N.leb_le _ _)) by lia. cbn. rewrite app_nil_r, replicate_snoc_same. f_equal.
      replace (S (N.to_nat (e - r - 1))) with (S (N.to_nat (e - (r + 1)))) by lia. done.
    + rewrite (proj2 (N.leb_le _ _)), (proj2 (N.eqb_eq _ _)) by lia. cbn.
      replace (N.to_nat (e - r - 1)) with (S (N.to_nat (e - 1 - (r + 1)))) by lia. done.
  - destruct Hvia as [->|?]; [|lia]. rewrite N.eqb_refl. cbn. by replace (N.to_nat (e - r - 1)) with 0%nat by lia.
Qed.
End segments.

(** ** What the log asks for *)
Section log.
Context {Oid : Type} `{Countable Oid}.
Implicit Types (c : CommitData Oid) (log : list (CommitData Oid)) (p : Oid).

(** How many rows further down a commit is. *)
Fixpoint first_row p log : option N :=
  match log with
  | [] => None
  | c :: log => if decide (cd_sha c = p) then Some 0 else N.succ <$> first_row p log
  end.
(** The lines to draw, as (row of the child, parent, row of the parent), for a log that starts at row [r] ... *)
Fixpoint edges_from (r : N) log : list (N * Oid * N) :=
  match log with
  | [] => []
  | c :: log =>
      omap (fun p => (fun i => (r, p, r + 1 + i)) <$> first_row p log) (cd_parents c) ++ edges_from (r + 1) log
  end.
(** ... and those whose parent has not appeared. *)
Fixpoint pending_from (r : N) log : list (N * Oid) :=
  match log with
  | [] => []
  | c :: log =>
      ((fun p => (r, p)) <$> filter (fun p => first_row p log = None) (cd_parents c)) ++ pending_from (r + 1) log
  end.
Definition edges log : list (N * Oid * N) := edges_from 0 log.
Definition pending log : list (N * Oid) := pending_from 0 log.

Lemma first_row_snoc p log c :
  first_row p (log ++ [c]) =
    match first_row p log with
    | Some i => Some i
    | None => if decide (cd_sha c = p) then Some (N.of_nat (length log)) else None
    end.
Proof using Type.
  induction log as [|c' log IH]; cbn; [done|]. destruct (decide (cd_sha c' = p)); [done|]. rewrite IH.
  destruct (first_row p log); [done|]. destruct (decide _); cbn; [|done]. f_equal. lia.
Qed.
Lemma pending_parents_snoc log c (r : N) (l : list Oid) :
  (fun p => (r, p)) <$> filter (fun p => first_row p (log ++ [c]) = None) l =
  filter (fun rp => rp.2 ≠ cd_sha c) ((fun p => (r, p)) <$> filter (fun p => first_row p log = None) l).
Proof using Type.
  induction l as [|p l IH]; [done|]. rewrite !filter_cons. pose proof (first_row_snoc p log c) as E.
  destruct (decide (first_row p log = None)) as [E'|E']; cycle 1.
  - rewrite decide_False; [done|]. rewrite E. by destruct (first_row p log).
  - rewrite E' in E. cbn [fmap list_fmap]. rewrite filter_cons. cbn [snd]. destruct (decide (cd_sha c = p)) as [Ep|Ep].
    + rewrite decide_False, decide_False by (naive_solver congruence). done.
    + rewrite decide_True, decide_True by (naive_solver congruence). cbn. by rewrite IH.
Qed.
Lemma pending_from_snoc log c : ∀ r,
  pending_from r (log ++ [c]) =
    filter (fun rp => rp.2 ≠ cd_sha c) (pending_from r log) ++ ((fun p => (r + N.of_nat (length log), p)) <$> cd_parents c).
Proof using Type.
  induction log as [|c' log IH]; intros r.
  - cbn. rewrite app_nil_r, N.add_0_r. f_equal. induction (cd_parents c) as [|p l IHl]; [done|].
    rewrite filter_cons_True by done. by rewrite IHl.
  - cbn [pending_from app]. rewrite IH, filter_app, pending_parents_snoc, app_assoc. f_equal.
    apply list_fmap_ext. intros _ p _. f_equal. cbn [length]. lia.
Qed.
Lemma edges_parents_snoc log c (r : N) (l : list Oid) :
  omap (fun p => (fun i => (r, p, r + 1 + i)) <$> first_row p (log ++ [c])) l ≡ₚ
  omap (fun p => (fun i => (r, p, r + 1 + i)) <$> first_row p log) l ++
  ((fun rp => (rp, r + 1 + N.of_nat (length log))) <$> filter (fun rp => rp.2 = cd_sha c) ((fun p => (r, p)) <$> filter (fun p => first_row p log = None) l)).
Proof using Type.
  induction l as [|p l IH]; [done|]. rewrite filter_cons. cbn [omap list_omap]. rewrite first_row_snoc.
  destruct (first_row p log) as [i|] eqn:E.
  - rewrite (decide_False (P := Some i = None)) by done. cbn. by constructor.
  - rewrite (decide_True (P := None = None)) by done. cbn [fmap list_fmap]. rewrite filter_cons. cbn [snd fmap option_fmap option_map].
    destruct (decide (cd_sha c = p)) as [Ep|Ep]; [|rewrite decide_False by congruence; exact IH].
    rewrite decide_True by done. rewrite fmap_cons. cbn [fmap option_fmap option_map]. etransitivity; [|apply Permutation_middle]. by constructor.
Qed.
Lemma edges_from_snoc log c : ∀ r,
  edges_from r (log ++ [c]) ≡ₚ
    edges_from r log ++ ((fun rp => (rp, r + N.of_nat (length log))) <$> filter (fun rp => rp.2 = cd_sha c) (pending_from r log)).
Proof using Type.
  induction log as [|c' log IH]; intros r.
  - cbn. induction (cd_parents c); [done|]. cbn. done.
  - cbn [edges_from pending_from app]. rewrite IH, edges_parents_snoc, filter_app, fmap_app.
    replace (r + N.of_nat (length (c' :: log))) with (r + 1 + N.of_nat (length log)) by (cbn [length]; lia).
    rewrite <-!app_assoc. apply Permutation_app_head. rewrite !app_assoc. apply Permutation_app_tail. apply Permutation_app_comm.
Qed.
End log.

(** ** Lanes *)
Section lanes.
Context {Oid : Type} `{Countable Oid}.
Implicit Types (st : list (LaneState Oid)) (a : ActiveLane Oid) (g : GraphData Oid).

Definition lane_edge (s : LaneState Oid) : option (N * Oid) :=
  match s with Active a => Some (al_starting_row a, al_parent a) | Empty => None end.
Definition actives st : list (N * Oid) := omap lane_edge st.

Lemma position_empty_some st : ∀ i j, position_empty st i = Some j → i <= j ∧ st !! N.to_nat (j - i) = Some Empty.
Proof using Type.
  induction st as [|s st IH]; intros i j; cbn; [done|]. destruct s; cbn.
  - intros [= <-]. by rewrite N.sub_diag.
  - intros [Hle Hj]%IH. split; [lia|]. by replace (N.to_nat (j - i)) with (S (N.to_nat (j - (i + 1)))) by lia.
Qed.
Lemma first_empty_lane_correct g g' l : first_empty_lane_idx g = (g', l) →
  ∃ st, g' = with_lanes g st ∧ st !! N.to_nat l = Some Empty ∧ (st = gd_lane_states g ∨ st = gd_lane_states g ++ [Empty]).
Proof using Type.
  unfold first_empty_lane_idx. destruct (position_empty (gd_lane_states g) 0) as [j|] eqn:E; intros [= <- <-].
  - apply position_empty_some in E as [_ E]. rewrite N.sub_0_r in E. exists (gd_lane_states g). split; [by destruct g|]. auto.
  - eexists. split; [done|]. split; [|by right]. rewrite length_app. cbn [length].
    rewrite lookup_app_r by lia. by replace (N.to_nat _ - _)%nat with 0%nat by lia.
Qed.

Lemma occupied_le st : occupied st <= N.of_nat (length st).
Proof using Type. induction st as [|s st IH]; cbn [occupied length]; [done|]. destruct (_ && _); lia. Qed.
Lemma occupied_active st i a : st !! i = Some (Active a) → N.of_nat i < occupied st.
Proof using Type.
  revert i. induction st as [|s st IH]; intros i; [done|]. cbn [occupied]. destruct i as [|i]; cbn.
  - intros [= ->]. rewrite andb_false_r. lia.
  - intros Hi%IH. destruct (N.eqb_spec (occupied st) 0); [lia|]. cbn. lia.
Qed.

Lemma actives_set st i s s' : st !! i = Some s →
  option_list (lane_edge s) ++ actives (<[i := s']> st) ≡ₚ option_list (lane_edge s') ++ actives st.
Proof using Type.
  intros Hi. rewrite <-(take_drop_middle st i s Hi) at 2. rewrite insert_take_drop by (by eapply lookup_lt_Some).
  unfold actives. rewrite !omap_app. cbn [omap list_omap].
  destruct (lane_edge s), (lane_edge s'); cbn [option_list app]; rewrite <-?Permutation_middle; try done. by constructor.
Qed.
Lemma actives_empty st : actives (st ++ [Empty]) = actives st.
Proof using Type. unfold actives. rewrite omap_app. cbn. by rewrite app_nil_r. Qed.
Lemma elem_of_actives st i a : st !! i = Some (Active a) → (al_starting_row a, al_parent a) ∈ actives st.
Proof using Type. intros Hi. apply list_elem_of_omap. exists (Active a). split; [by eapply list_elem_of_lookup_2|done]. Qed.
End lanes.

(** ** Lines that arrive *)
Section arrivals.
Context {Oid : Type} `{Countable Oid}.
Implicit Types (st : list (LaneState Oid)) (a : ActiveLane Oid) (g : GraphData Oid) (la : N * ActiveLane Oid).

Definition line_of (es : list (CommitEntry Oid)) (row lane : N) (color : BranchColor) la : CommitLine Oid :=
  let a := avoid_overlap es la.2 la.1 lane row in
  mkCommitLine (al_child a) (al_parent a) (al_starting_col a) (al_starting_row a) row (default color (al_color a))
    (complete_segments (al_segments a) (al_starting_row a) row la.1 (default lane (al_destination_column a))).
Definition clear_lanes (ls : list N) st : list (LaneState Oid) := foldl (fun st l => <[N.to_nat l := Empty]> st) st ls.

Lemma clear_lanes_lookup ls : ∀ st l, clear_lanes ls st !! l =
  if decide (N.of_nat l ∈ ls) then (fun _ => Empty) <$> st !! l else st !! l.
Proof using Type.
  induction ls as [|k ls IH]; intros st l; cbn [clear_lanes foldl]; [by rewrite decide_False by apply not_elem_of_nil|].
  fold (clear_lanes ls (<[N.to_nat k := Empty]> st)). rewrite IH.
  destruct (decide (k = N.of_nat l)) as [->|Hk].
  - rewrite (decide_True (P := N.of_nat l ∈ _ :: _)) by (by left). rewrite Nat2N.id.
    destruct (st !! l) as [s|] eqn:E.
    + rewrite list_lookup_insert_eq by (by eapply lookup_lt_Some). by destruct (decide _).
    + rewrite list_insert_ge, E by (by apply lookup_ge_None). by destruct (decide _).
  - rewrite list_lookup_insert_ne by lia. by destruct (decide (N.of_nat l ∈ ls)), (decide (N.of_nat l ∈ k :: ls)); set_solver.
Qed.
Lemma length_clear_lanes ls st : length (clear_lanes ls st) = length st.
Proof using Type. revert st. induction ls as [|l ls IH]; intros st; [done|]. cbn [clear_lanes foldl]. unfold clear_lanes in IH. rewrite IH. apply length_insert. Qed.

Lemma arrive_all_eq row lane color las : ∀ g,
  NoDup las.*1 → Forall (fun la => gd_lane_states g !! N.to_nat la.1 = Some (Active la.2)) las →
  arrive_all row lane color g las.*1 =
    Ok (with_lines (with_lanes g (clear_lanes las.*1 (gd_lane_states g))) (gd_lines g ++ (line_of (gd_commits g) row lane color <$> las))).
Proof using Type.
  induction las as [|[l a] las IH]; intros g Hnd Hst.
  - cbn. rewrite app_nil_r. by destruct g.
  - cbn [fmap list_fmap] in *. apply NoDup_cons in Hnd as [Hl Hnd]. apply Forall_cons in Hst as [Ha Hst]. cbn [fst snd] in *.
    cbn [arrive_all]. unfold arrive, set_lane. rewrite Ha. cbn [unwrap mbind outcome_bind to_commit_lines fst snd].
    rewrite IH.
    + cbn. rewrite <-app_assoc. done.
    + done.
    + cbn. eapply Forall_impl; [apply Forall_and; split; [exact Hst|]|].
      * apply (Forall_forall (fun la => la.1 ≠ l)). intros la Hla E. destruct Hl. rewrite <-E. by apply list_elem_of_fmap_2.
      * intros [l' a'] [Hl' Hne]. cbn in *. rewrite list_lookup_insert_ne by lia. done.
Qed.

(** The edges of the lanes that were cleared are those that left. *)
Lemma actives_clear las : ∀ st, NoDup las.*1 → Forall (fun la => st !! N.to_nat la.1 = Some (Active la.2)) las →
  ((fun la => (al_starting_row la.2, al_parent la.2)) <$> las) ++ actives (clear_lanes las.*1 st) ≡ₚ actives st.
Proof using Type.
  induction las as [|[l a] las IH]; intros st Hnd Hst; [done|].
  cbn [fmap list_fmap fst snd] in *. apply NoDup_cons in Hnd as [Hl Hnd]. apply Forall_cons in Hst as [Ha Hst]. cbn in Ha.
  cbn [clear_lanes foldl]. fold (clear_lanes las.*1 (<[N.to_nat l := Empty]> st)). cbn [app]. rewrite IH; [|done|].
  - pose proof (actives_set st (N.to_nat l) _ Empty Ha) as E. exact E.
  - eapply Forall_impl; [apply Forall_and; split; [exact Hst|]|].
    + apply (Forall_forall (fun la => la.1 ≠ l)). intros la Hla E. destruct Hl. rewrite <-E. by apply list_elem_of_fmap_2.
    + intros [l' a'] [Hl' Hne]. cbn in *. rewrite list_lookup_insert_ne by lia. done.
Qed.
End arrivals.

(** ** Which lanes wait for which parents *)
Section waiting.
Context {Oid : Type} `{Countable Oid}.
Implicit Types (st : list (LaneState Oid)) (a : ActiveLane Oid) (ptl : gmap Oid (list N)).

Definition active_at st (l : N) a : Prop := st !! N.to_nat l = Some (Active a).
(** A parent is waited for by the lanes whose lines end there, without repetition; the first of them began first. *)
Definition waiting_ok st ptl : Prop :=
  (∀ p ls, ptl !! p = Some ls → NoDup ls ∧ ∃ q aq, head ls = Some q ∧ active_at st q aq ∧
     ∀ l, l ∈ ls → ∃ a, active_at st l a ∧ al_parent a = p ∧ al_starting_row aq <= al_starting_row a) ∧
  (∀ l a, active_at st l a → ∃ ls, ptl !! al_parent a = Some ls ∧ l ∈ ls).

Lemma waiting_ok_ext st st' ptl : (∀ l a, active_at st l a ↔ active_at st' l a) → waiting_ok st ptl → waiting_ok st' ptl.
Proof using Type.
  intros E [H1 H2]. split.
  - intros p ls Hp. destruct (H1 p ls Hp) as (Hnd & q & aq & Hq & Haq & Hls). split; [done|]. exists q, aq. split; [done|]. split; [by apply E|].
    intros l Hl. destruct (Hls l Hl) as (a & Ha & ?). exists a. split; [by apply E|done].
  - intros l a Ha. apply (H2 l a). by apply E.
Qed.
Lemma active_extend st l a : active_at (st ++ [Empty]) l a ↔ active_at st l a.
Proof using Type.
  unfold active_at. destruct (decide (N.to_nat l < length st)%nat).
  - by rewrite lookup_app_l.
  - rewrite lookup_app_r by lia. rewrite (lookup_ge_None_2 st) by lia. destruct (N.to_nat l - length st)%nat as [|[|]]; done.
Qed.
Lemma active_set st l s k a : st !! N.to_nat l = Some s →
  active_at (<[N.to_nat l := Active a]> st) k a ↔ k = l ∨ (k ≠ l ∧ active_at st k a).
Proof using Type.
  intros Hl. unfold active_at. destruct (decide (k = l)) as [->|].
  - rewrite list_lookup_insert_eq by (by eapply lookup_lt_Some). naive_solver.
  - rewrite list_lookup_insert_ne by lia. naive_solver.
Qed.
Lemma active_set_inv st l s k a a' : st !! N.to_nat l = Some s →
  active_at (<[N.to_nat l := Active a]> st) k a' → (k = l ∧ a' = a) ∨ (k ≠ l ∧ active_at st k a').
Proof using Type.
  intros Hl. unfold active_at. destruct (decide (k = l)) as [->|].
  - rewrite list_lookup_insert_eq by (by eapply lookup_lt_Some). naive_solver.
  - rewrite list_lookup_insert_ne by lia. naive_solver.
Qed.

Lemma waiting_ok_add st ptl l a :
  st !! N.to_nat l = Some Empty → waiting_ok st ptl → (∀ k a', active_at st k a' → al_starting_row a' <= al_starting_row a) →
  waiting_ok (<[N.to_nat l := Active a]> st) (<[al_parent a := default [] (ptl !! al_parent a) ++ [l]]> ptl).
Proof using Type.
  intros Hl [H1 H2] Hrow. assert (Hfree : ∀ p ls, ptl !! p = Some ls → l ∉ ls).
  { intros p ls Hp Hin. destruct (H1 p ls Hp) as (_ & q & aq & _ & _ & Hls). destruct (Hls l Hin) as (a' & Ha' & _).
    unfold active_at in Ha'. congruence. }
  assert (Hkeep : ∀ k a', active_at st k a' → active_at (<[N.to_nat l := Active a]> st) k a').
  { intros k a' Hk. unfold active_at in *. rewrite list_lookup_insert_ne; [done|]. intros E. congruence. }
  assert (Hnew : active_at (<[N.to_nat l := Active a]> st) l a) by (eapply active_set; [done|by left]).
  split.
  - intros p ls. rewrite lookup_insert. case_decide as E; [subst p; intros [= <-]|].
    + destruct (ptl !! al_parent a) as [ls|] eqn:Hp; cbn [default].
      * destruct (H1 _ _ Hp) as (Hnd & q & aq & Hq & Haq & Hls). split.
        { apply NoDup_app. split; [done|]. split; [|apply NoDup_singleton]. intros x Hx ->%list_elem_of_singleton. by eapply Hfree. }
        exists q, aq. split; [by destruct ls|]. split; [by apply Hkeep|]. intros k [Hk| ->%list_elem_of_singleton]%elem_of_app.
        -- destruct (Hls k Hk) as (a' & Ha' & ?). exists a'. split; [by apply Hkeep|done].
        -- exists a. split; [done|]. split; [done|]. by eapply Hrow.
      * split; [apply NoDup_singleton|]. exists l, a. split; [done|]. split; [done|]. intros k ->%list_elem_of_singleton. by exists a.
    + intros Hp. destruct (H1 p ls Hp) as (Hnd & q & aq & Hq & Haq & Hls). split; [done|]. exists q, aq. split; [done|]. split; [by apply Hkeep|].
      intros k Hk. destruct (Hls k Hk) as (a' & Ha' & ?). exists a'. split; [by apply Hkeep|done].
  - intros k a' [[-> ->]|[Hne Hk]]%(active_set_inv _ _ _ _ _ _ Hl).
    + rewrite lookup_insert_eq. eexists. split; [done|]. set_solver.
    + destruct (H2 k a' Hk) as (ls & Hls & Hin). rewrite lookup_insert. case_decide as E; [|by exists ls].
      rewrite <-E in Hls. eexists. split; [done|]. rewrite Hls. set_solver.
Qed.

Lemma active_clear ls st l a : active_at (clear_lanes ls st) l a ↔ active_at st l a ∧ l ∉ ls.
Proof using Type.
  unfold active_at. rewrite clear_lanes_lookup, N2Nat.id. destruct (decide (l ∈ ls)); [|naive_solver].
  destruct (st !! N.to_nat l); naive_solver.
Qed.
Lemma waiting_ok_remove st ptl p ls : waiting_ok st ptl → ptl !! p = Some ls → waiting_ok (clear_lanes ls st) (delete p ptl).
Proof using Type.
  intros [H1 H2] Hp. destruct (H1 p ls Hp) as (_ & q0 & a0 & _ & _ & Hls).
  assert (Hother : ∀ l a, active_at st l a → al_parent a ≠ p → l ∉ ls).
  { intros l a Ha Hne Hl. destruct (Hls l Hl) as (a' & Ha' & E & _). unfold active_at in *. congruence. }
  split.
  - intros p' ls' [Hne Hp']%lookup_delete_Some. destruct (H1 p' ls' Hp') as (Hnd & q & aq & Hq & Haq & Hls'). split; [done|].
    assert (Hq' : q ∈ ls') by (destruct ls'; [done|]; injection Hq as <-; by left).
    exists q, aq. split; [done|]. split.
    + apply active_clear. split; [done|]. apply (Hother q aq Haq). destruct (Hls' q Hq') as (a' & Ha' & E & _). unfold active_at in *. congruence.
    + intros l Hl. destruct (Hls' l Hl) as (a & Ha & E & ?). exists a. split; [|done]. apply active_clear. split; [done|]. apply (Hother l a Ha). congruence.
  - intros l a [Ha Hl]%active_clear. destruct (H2 l a Ha) as (ls' & Hls' & Hin). exists ls'. split; [|done].
    rewrite lookup_delete_ne; [done|]. intros E. rewrite <-E, Hp in Hls'. by injection Hls' as <-.
Qed.
End waiting.

(** ** Lines and lanes between commits *)
Section geometry.
Context {Oid : Type} `{Countable Oid}.
(** the number of colours *)
Context (m : N).
Implicit Types (es : list (CommitEntry Oid)) (e : CommitEntry Oid) (a : ActiveLane Oid) (ln : CommitLine Oid).

(** A line for [p] that is in column [via] where the commit [e] is neither hits it nor is too far right for the row, nor should end there. *)
Definition passes (via : N) (p : Oid) e : Prop := ce_lane e ≠ via ∧ via < ce_lanes e ∧ cd_sha (ce_data e) ≠ p.

Definition leaves es a : Prop :=
  ∃ e, es !! N.to_nat (al_starting_row a) = Some e ∧ cd_sha (ce_data e) = al_child a ∧ al_parent a ∈ cd_parents (ce_data e) ∧
    al_starting_col a = ce_lane e.
Definition lane_shape (l : N) a : Prop :=
  al_destination_column a = None ∧ (∀ c, al_color a = Some c → c < m) ∧
  (al_segments a = [Straight usize_MAX] ∧ al_starting_col a = l ∨ al_segments a = [Curve usize_MAX usize_MAX Merge]).
Definition lane_ok es (l : N) a : Prop :=
  leaves es a ∧ lane_shape l a ∧
  ∀ k e, (N.to_nat (al_starting_row a) < k)%nat → es !! k = Some e → passes l (al_parent a) e.

Definition line_ok es ln : Prop :=
  cl_color_idx ln < m ∧ cl_start ln < cl_end ln ∧
  ∃ child parent via,
    es !! N.to_nat (cl_start ln) = Some child ∧ cd_sha (ce_data child) = cl_child ln ∧ cl_parent ln ∈ cd_parents (ce_data child) ∧
    cl_child_column ln = ce_lane child ∧
    es !! N.to_nat (cl_end ln) = Some parent ∧ cd_sha (ce_data parent) = cl_parent ln ∧ ce_lane parent < ce_lanes parent ∧
    trace (cl_start ln) (cl_child_column ln) (cl_segments ln) =
      Some (replicate (N.to_nat (cl_end ln - cl_start ln - 1)) via ++ [ce_lane parent]) ∧
    ∀ k e, (N.to_nat (cl_start ln) < k < N.to_nat (cl_end ln))%nat → es !! k = Some e → passes via (cl_parent ln) e.

Lemma line_ok_snoc es e ln : line_ok es ln → line_ok (es ++ [e]) ln.
Proof using Type.
  intros (Hc & Hlt & child & parent & via & H1 & H2 & H3 & H4 & H5 & H6 & H7 & H8 & H9). split; [done|]. split; [done|]. exists child, parent, via.
  pose proof (lookup_lt_Some _ _ _ H5) as Hend. rewrite (lookup_app_l _ _ (N.to_nat (cl_end ln))), (lookup_app_l _ _ (N.to_nat (cl_start ln))) by lia.
  split_and!; try done. intros k e' Hk. rewrite lookup_app_l by lia. by apply H9.
Qed.
Lemma leaves_snoc es e a : leaves es a → leaves (es ++ [e]) a.
Proof using Type.
  intros (e' & He' & ?). exists e'. rewrite lookup_app_l by (by eapply lookup_lt_Some). done.
Qed.
Lemma lane_ok_snoc es e l a : lane_ok es l a → passes l (al_parent a) e → lane_ok (es ++ [e]) l a.
Proof using Type.
  intros (Hl & Hs & Hp) He. split; [by apply leaves_snoc|]. split; [done|]. intros k e' Hk. destruct (decide (k < length es)%nat).
  - rewrite lookup_app_l by lia. by apply Hp.
  - rewrite lookup_app_r by lia. destruct (k - length es)%nat as [|[|]]; cbn; [|done|done]. by intros [= <-].
Qed.
(** A lane that starts at the last commit has nothing to pass. *)
Lemma lane_ok_new es e l a : leaves (es ++ [e]) a → lane_shape l a → N.to_nat (al_starting_row a) = length es → lane_ok (es ++ [e]) l a.
Proof using Type.
  intros Hl Hs Hr. split; [done|]. split; [done|]. intros k e' Hk Hk'. apply lookup_lt_Some in Hk'. rewrite length_app in Hk'. cbn in Hk'. lia.
Qed.

Section arrival.
Context es (e : CommitEntry Oid) (q : N) (aq : ActiveLane Oid).
Context (Hrows : N.of_nat (length es) < usize_MAX) (Hq : ce_lane e = q) (Hwide : q < ce_lanes e).
Context (Haq : lane_ok es q aq) (Hpq : al_parent aq = cd_sha (ce_data e)) (Hcolor : ce_color_idx e < m).

Lemma would_not_overlap a l :
  lane_ok es l a → al_starting_row aq <= al_starting_row a →
  (avoid_overlap es a l q (N.of_nat (length es))) = a.
Proof using All.
  intros (Hl & _) Hrow. unfold avoid_overlap. destruct (al_segments a) as [|[|to_column on_row []] segs]; try done.
  destruct (negb (l =? q) && _) eqn:E; [|done]. apply andb_prop in E as [_ Hlt%N.ltb_lt].
  destruct (existsb _ _) eqn:Ex; [|done]. exfalso. apply existsb_exists in Ex as (e' & Hin & E'%N.eqb_eq).
  apply list_elem_of_In, list_elem_of_lookup_1 in Hin as [i Hi]. rewrite lookup_drop in Hi.
  destruct Hl as (ch & Hch%lookup_lt_Some & _).
  assert (Eadd : usize_add (al_starting_row a) 1 = al_starting_row a + 1) by (apply usize_add_exact; unfold usize_MAX in Hrows; lia).
  apply lookup_take_Some in Hi as [Hi _]. destruct Haq as (_ & _ & Hp).
  destruct (Hp (N.to_nat (usize_add (al_starting_row a) 1) + i)%nat e') as [Hne _]; [lia|done|congruence].
Qed.

Lemma line_arrives l a : lane_ok es l a → al_parent a = cd_sha (ce_data e) → al_starting_row aq <= al_starting_row a →
  line_ok (es ++ [e]) (line_of es (N.of_nat (length es)) q (ce_color_idx e) (l, a)).
Proof using All.
  intros Hok Hp Hrow. unfold line_of. cbn [fst snd]. rewrite (would_not_overlap a l Hok Hrow).
  destruct Hok as ((ch & Hch & Hsha & Hpar & Hcol) & (Hdest & Hc & Hshape) & Hpass). rewrite Hdest. cbn [default].
  pose proof (lookup_lt_Some _ _ _ Hch) as Hlt.
  split. { cbn. destruct (al_color a) as [c|]; [by apply Hc|done]. }
  cbn [cl_start cl_end]. split; [lia|].
  assert (Hq' : ∀ k e', (N.to_nat (al_starting_row a) < k)%nat → es !! k = Some e' → passes q (al_parent a) e').
  { intros k e' Hk. rewrite Hp, <-Hpq. destruct Haq as (_ & _ & Hpass'). apply Hpass'. lia. }
  exists ch, e, (match al_segments a with [Straight _] => l | _ => q end).
  rewrite Nat2N.id, (lookup_app_r es [e] (length es)), Nat.sub_diag by lia. rewrite lookup_app_l by lia. cbn [cl_child cl_parent cl_child_column cl_segments].
  split_and!; try done; [by rewrite Hq|..].
  - rewrite Hq. destruct Hshape as [[Es El]|Es]; rewrite Es.
    + rewrite El. apply trace_straight; lia.
    + pose proof (trace_merge (al_starting_row a) (N.of_nat (length es)) q ltac:(lia) Hrows (al_starting_col a) l q (or_introl eq_refl)) as E.
      by rewrite N.eqb_refl in E.
  - intros k e' Hk. rewrite lookup_app_l by lia. destruct Hshape as [[Es El]|Es]; rewrite Es; [apply Hpass|apply Hq']; lia.
Qed.
End arrival.
End geometry.
