(* ===== verification/GitGraphLayout.v ===== *)
(** * Every line of the log is drawn, and drawn well

    The invariant of [GraphData] and that [add_commits] keeps it; then what a view can rely on. *)

From stdpp Require Import gmap.
From S2P Require Import Prelude Patch GitGraph.
Local Open Scope N_scope.

Section layout.
Context {Oid : Type} `{Countable Oid}.
Implicit Types (g : GraphData Oid) (c : CommitData Oid) (log : list (CommitData Oid)).

(** The number of commits and parents in a log bounds the lanes. *)
Definition log_size log : N := foldr (fun c n => 1 + N.of_nat (length (cd_parents c)) + n) 0 log.
Definition line_key (ln : CommitLine Oid) : N * Oid * N := (cl_start ln, cl_parent ln, cl_end ln).

Definition colors_ok (m : N) g : Prop :=
  u8_wrap (gd_accent_colors_count g) = m ∧ gd_next_color g < m ∧ ∀ l col, gd_lane_colors g !! l = Some col → col < m.
Definition entry_ok (m widest : N) (e : CommitEntry Oid) : Prop := ce_lane e < ce_lanes e <= widest ∧ ce_color_idx e < m.

Record graph_ok (m : N) log g : Prop := {
  ok_log : ce_data <$> gd_commits g = log;
  ok_waiting : waiting_ok (gd_lane_states g) (gd_parent_to_lanes g);
  ok_lanes : ∀ l a, active_at (gd_lane_states g) l a → lane_ok m (gd_commits g) l a;
  ok_lines : Forall (line_ok m (gd_commits g)) (gd_lines g);
  ok_pending : actives (gd_lane_states g) ≡ₚ pending log;
  ok_edges : line_key <$> gd_lines g ≡ₚ edges log;
  ok_size : N.of_nat (length (gd_lane_states g)) <= log_size log;
  ok_widest : N.of_nat (length (gd_lane_states g)) <= gd_max_lanes g;
  ok_entries : Forall (entry_ok m (gd_max_lanes g)) (gd_commits g);
  ok_colors : colors_ok m g }.

Lemma graph_new_ok count : u8_wrap count ≠ 0 → graph_ok (u8_wrap count) [] (graph_new count).
Proof using Type.
  intros Hc. split; try done; cbn; try by constructor.
  split; [done|]. split; [cbn; lia|]. cbn. intros l col. by rewrite lookup_empty.
Qed.
Lemma log_size_app log log' : log_size (log ++ log') = log_size log + log_size log'.
Proof using Type. unfold log_size. induction log as [|c' log IH]; cbn [foldr app]; lia. Qed.
Lemma log_size_snoc log c : log_size (log ++ [c]) = log_size log + 1 + N.of_nat (length (cd_parents c)).
Proof using Type. rewrite log_size_app. cbn. lia. Qed.
Lemma log_size_length log : N.of_nat (length log) <= log_size log.
Proof using Type. unfold log_size. induction log as [|c' log IH]; cbn [foldr length]; lia. Qed.

(** ** Placing a commit *)
Lemma get_lane_color_ok m g l : colors_ok m g →
  ok_with (get_lane_color g l) (fun r => let '(g', col) := r in
    col < m ∧ colors_ok m g' ∧ ∃ cols next, g' = with_colors g cols next).
Proof using Type.
  intros (Hm & Hn & Hc). unfold get_lane_color. destruct (gd_lane_colors g !! l) as [col|] eqn:E.
  - split; [by eapply Hc|]. split; [done|]. exists (gd_lane_colors g), (gd_next_color g). by destruct g.
  - unfold u8_rem. rewrite Hm. destruct (N.eqb_spec m 0); [lia|]. cbn. split; [done|]. split; [|by eexists _, _].
    split; [done|]. split; [cbn; apply N.mod_lt; lia|]. cbn. intros l' col'. rewrite lookup_insert. case_decide; [by intros [= <-]|apply Hc].
Qed.

(** The lane of a commit is free for it: whatever is in it ends there. *)
Lemma place_commit_ok m log g sha : graph_ok m log g →
  let '(g', l) := place_commit g sha in
  ∃ st, g' = with_lanes g st ∧ (st = gd_lane_states g ∨ st = gd_lane_states g ++ [Empty]) ∧ (N.to_nat l < length st)%nat ∧
    match gd_parent_to_lanes g !! sha with
    | Some ls => head ls = Some l
    | None => st !! N.to_nat l = Some Empty
    end.
Proof using Type.
  intros Hg. unfold place_commit. destruct (gd_parent_to_lanes g !! sha) as [ls|] eqn:E; cbn [mbind option_bind].
  - destruct (ok_waiting _ _ _ Hg) as [H1 _]. destruct (H1 _ _ E) as (_ & q & aq & Hq & Haq & _). rewrite Hq.
    exists (gd_lane_states g). split; [by destruct g|]. split; [by left|]. split; [by eapply lookup_lt_Some|done].
  - destruct (first_empty_lane_idx g) as [g' l] eqn:El. destruct (first_empty_lane_correct _ _ _ El) as (st & -> & Hl & Hst).
    exists st. split; [done|]. split; [done|]. split; [by eapply lookup_lt_Some|done].
Qed.

(** ** Departures *)
Section departures.
Context (m : N) (c : CommitData Oid) (es : list (CommitEntry Oid)) (L : N) (color : BranchColor).
Local Abbreviation n := (N.of_nat (length es)).
Implicit Type st : list (LaneState Oid).

(** A lane that starts at the commit. *)
Definition departs (l : N) (a : ActiveLane Oid) : Prop :=
  al_starting_row a = n ∧ al_child a = cd_sha c ∧ al_parent a ∈ cd_parents c ∧ al_starting_col a = L ∧ lane_shape m l a.
Definition stays (l : N) (a : ActiveLane Oid) : Prop := lane_ok m es l a ∧ l ≠ L ∧ al_parent a ≠ cd_sha c.
Definition departing (base : list (N * Oid)) (done : list Oid) st (ptl : gmap Oid (list N)) : Prop :=
  waiting_ok st ptl ∧ (∀ l a, active_at st l a → stays l a ∨ departs l a) ∧
  actives st ≡ₚ base ++ ((fun p => (n, p)) <$> done) ∧ (N.to_nat L < length st)%nat.

Lemma departing_row st ptl base done l a : departing base done st ptl → active_at st l a → al_starting_row a <= n.
Proof using Type.
  intros (_ & Ha & _) Hl. destruct (Ha l a Hl) as [(((e & He & _) & _) & _)|(-> & _)]; [|done]. apply lookup_lt_Some in He. lia.
Qed.
Lemma depart_step st ptl base done l a :
  departing base done st ptl → st !! N.to_nat l = Some Empty → departs l a →
  departing base (done ++ [al_parent a]) (<[N.to_nat l := Active a]> st) (<[al_parent a := default [] (ptl !! al_parent a) ++ [l]]> ptl).
Proof using Type.
  intros Hd Hl Ha. pose proof Hd as (Hw & Hact & Hperm & HL). split_and!.
  - apply waiting_ok_add; [done|done|]. intros k a' Hk. destruct Ha as (-> & _). by eapply departing_row.
  - intros k a' [[-> ->]|[Hne Hk]]%(active_set_inv _ _ _ _ _ _ Hl); [by right|by apply Hact].
  - pose proof (actives_set st (N.to_nat l) _ (Active a) Hl) as E. cbn in E. rewrite E, Hperm, fmap_app. destruct Ha as (-> & _). cbn.
    rewrite app_assoc. apply Permutation_cons_append.
  - by rewrite length_insert.
Qed.
Lemma departing_extend st ptl base done : departing base done st ptl → departing base done (st ++ [Empty]) ptl.
Proof using Type.
  intros (Hw & Hact & Hperm & HL). split_and!.
  - eapply waiting_ok_ext; [|done]. intros. symmetry. apply active_extend.
  - intros l a Hl. apply Hact. by apply active_extend.
  - by rewrite actives_empty.
  - rewrite length_app. lia.
Qed.

(** The remaining parents of the commit; the first takes the lane of the commit. *)
Lemma depart_all_ok parents : color < m → ∀ g done base,
  gd_commits g = es → cd_parents c = done ++ parents →
  departing base done (gd_lane_states g) (gd_parent_to_lanes g) →
  (done = [] → gd_lane_states g !! N.to_nat L = Some Empty) →
  ok_with (depart_all c n L color g (N.of_nat (length done)) parents) (fun g' =>
    ∃ st ptl, g' = with_waiting (with_lanes g st) ptl ∧ departing base (cd_parents c) st ptl ∧
      (length (gd_lane_states g) <= length st <= length (gd_lane_states g) + length parents)%nat).
Proof using Type.
  intros Hcolor. induction parents as [|p parents IH]; intros g done base Hes Hp Hd HL.
  - cbn. exists (gd_lane_states g), (gd_parent_to_lanes g). rewrite app_nil_r in Hp. rewrite Hp. split; [by destruct g|]. split; [done|lia].
  - cbn [depart_all]. apply ok_with_bind. unfold depart.
    assert (Hnext : ∀ g1 st1 l a, g1 = with_lanes g st1 → (length (gd_lane_states g) <= length st1 <= length (gd_lane_states g) + 1)%nat →
      departing base done st1 (gd_parent_to_lanes g) → st1 !! N.to_nat l = Some Empty → al_parent a = p → departs l a →
      ok_with (self ← set_lane g1 l (Active a); Ok (wait_for_parent self p l))
        (fun g' => ok_with (depart_all c n L color g' (N.of_nat (length done) + 1) parents) (fun g' =>
          ∃ st ptl, g' = with_waiting (with_lanes g st) ptl ∧ departing base (cd_parents c) st ptl ∧
            (length (gd_lane_states g) <= length st <= length (gd_lane_states g) + length (p :: parents))%nat))).
    { intros g1 st1 l a -> Hlen Hd1 Hl Hap Ha. unfold set_lane. cbn [gd_lane_states with_lanes]. rewrite Hl. cbn [unwrap mbind outcome_bind ok_with].
      pose proof (depart_step _ _ _ _ _ _ Hd1 Hl Ha) as Hd2. rewrite Hap in Hd2.
      replace (N.of_nat (length done) + 1) with (N.of_nat (length (done ++ [p]))) by (rewrite length_app; cbn; lia).
      eapply ok_with_mono; [apply (IH (wait_for_parent (with_lanes (with_lanes g st1) _) p l) (done ++ [p]) base)|].
      - done.
      - by rewrite <-app_assoc.
      - exact Hd2.
      - intros E. by destruct done.
      - cbn beta. intros g' (st & ptl & -> & Hd' & Hl'). exists st, ptl. split; [done|]. split; [done|].
        cbn [gd_lane_states wait_for_parent with_waiting with_lanes] in Hl'. rewrite length_insert in Hl'. cbn [length]. lia. }
    destruct (N.eqb_spec (N.of_nat (length done)) 0) as [E0|E0].
    + destruct done; [|done]. apply (Hnext g (gd_lane_states g) L); [by destruct g|lia|done|by apply HL|done|].
      split_and!; try done; [rewrite Hp; by left|]. split; [done|]. split; [by intros ? [= <-]|by left].
    + destruct (first_empty_lane_idx g) as [g1 l] eqn:El. destruct (first_empty_lane_correct _ _ _ El) as (st & -> & Hl & Hst).
      apply (Hnext _ st l); [done| | |done|done|].
      * destruct Hst as [->| ->]; rewrite ?length_app; cbn; lia.
      * destruct Hst as [->| ->]; [done|by apply departing_extend].
      * split_and!; try done; [rewrite Hp; set_solver|]. split; [done|]. split; [done|by right].
Qed.
End departures.

(** ** Arrivals *)
Lemma line_of_key es row lane color (la : N * ActiveLane Oid) :
  line_key (line_of es row lane color la) = (al_starting_row la.2, al_parent la.2, row).
Proof using Type.
  unfold line_of, line_key. cbn. unfold avoid_overlap. destruct (al_segments la.2) as [|[|to_column on_row []] segs]; try done. by case_match.
Qed.

(** What the lanes that wait for a commit are. *)
Definition arrivals (st : list (LaneState Oid)) (sha : Oid) (L : N) (las : list (N * ActiveLane Oid)) : Prop :=
  NoDup las.*1 ∧
  Forall (fun la => active_at st la.1 la.2 ∧ al_parent la.2 = sha ∧
            ∃ aq, active_at st L aq ∧ al_parent aq = sha ∧ al_starting_row aq <= al_starting_row la.2) las ∧
  (∀ l a, active_at st l a → al_parent a = sha → l ∈ las.*1) ∧
  (N.to_nat L < length st)%nat ∧ (∀ a, active_at st L a → al_parent a = sha).

Lemma waiting_arrivals st ptl sha ls L : waiting_ok st ptl → ptl !! sha = Some ls → head ls = Some L → ∃ las, las.*1 = ls ∧ arrivals st sha L las.
Proof using Type.
  intros [H1 H2] Hp HL. destruct (H1 sha ls Hp) as (Hnd & q & aq & Hq & Haq & Hls). assert (q = L) as -> by congruence.
  assert (HLin : L ∈ ls) by (destruct ls; [done|]; injection HL as <-; by left).
  destruct (Hls L HLin) as (aq' & Haq' & Hpq & _). assert (aq' = aq) as -> by (unfold active_at in *; congruence).
  assert (∃ las, las.*1 = ls ∧ Forall (fun la => active_at st la.1 la.2 ∧ al_parent la.2 = sha ∧ al_starting_row aq <= al_starting_row la.2) las)
    as (las & E & Hlas).
  { clear Hp Hnd Hq HL HLin. induction ls as [|l ls IH]; [by exists []|]. destruct IH as (las & <- & Hlas); [intros; apply Hls; by right|].
    destruct (Hls l) as (a & ? & ? & ?); [by left|]. exists ((l, a) :: las). split; [done|]. by constructor. }
  exists las. split; [done|]. rewrite <-E in *. split_and!; [done| | |by eapply lookup_lt_Some|].
  - eapply Forall_impl; [exact Hlas|]. cbn. intros la (? & ? & ?). split_and!; try done. by exists aq.
  - intros l a Ha Hpa. destruct (H2 l a Ha) as (ls' & Hls' & Hin). rewrite Hpa, Hp in Hls'. by injection Hls' as <-.
  - intros a Ha. unfold active_at in *. congruence.
Qed.
Lemma no_arrivals st ptl sha L : waiting_ok st ptl → ptl !! sha = None → st !! N.to_nat L = Some Empty → arrivals st sha L [].
Proof using Type.
  intros [_ H2] Hp HL. split_and!; [constructor|constructor| |by eapply lookup_lt_Some|].
  - intros l a Ha Hpa. destruct (H2 l a Ha) as (ls & Hls & _). congruence.
  - intros a Ha. unfold active_at in Ha. congruence.
Qed.

Section arriving.
Context (st : list (LaneState Oid)) (sha : Oid) (L : N) (las : list (N * ActiveLane Oid)) (Har : arrivals st sha L las).

Lemma arrivals_active : Forall (fun la => st !! N.to_nat la.1 = Some (Active la.2)) las.
Proof using Har. destruct Har as (_ & Hf & _). eapply Forall_impl; [exact Hf|]. cbn. by intros la [? _]. Qed.
(** Afterwards nothing waits for the commit and its lane is empty. *)
Lemma arrived_parent l a : active_at (clear_lanes las.*1 st) l a → active_at st l a ∧ al_parent a ≠ sha ∧ l ≠ L.
Proof using Har.
  destruct Har as (_ & _ & Hall & _ & HL). intros [Ha Hl]%active_clear. split; [done|].
  assert (al_parent a ≠ sha) by (intros E; by destruct Hl; eapply Hall). split; [done|]. intros ->. by apply HL in Ha.
Qed.
Lemma arrived_lane : clear_lanes las.*1 st !! N.to_nat L = Some Empty.
Proof using Har.
  destruct Har as (_ & _ & _ & HL & _). destruct (lookup_lt_is_Some_2 (clear_lanes las.*1 st) (N.to_nat L)) as [s Hs]; [by rewrite length_clear_lanes|].
  rewrite Hs. destruct s as [|a]; [done|]. destruct (arrived_parent L a Hs) as (_ & _ & ?). done.
Qed.
Lemma actives_parent (P : Oid → Prop) st' : (∀ l a, active_at st' l a → P (al_parent a)) → Forall (fun rp => P rp.2) (actives st').
Proof using Type.
  intros HP. apply Forall_forall. intros rp (s & Hs & E)%list_elem_of_omap. destruct s as [|a]; [done|]. injection E as <-.
  apply list_elem_of_lookup_1 in Hs as [i Hi]. apply (HP (N.of_nat i)). unfold active_at. by rewrite Nat2N.id.
Qed.
Lemma arrived_split :
  filter (fun rp => rp.2 = sha) (actives st) ≡ₚ ((fun la => (al_starting_row la.2, al_parent la.2)) <$> las) ∧
  filter (fun rp => rp.2 ≠ sha) (actives st) ≡ₚ actives (clear_lanes las.*1 st).
Proof using Har.
  rewrite <-(actives_clear las st); [|apply Har|apply arrivals_active]. rewrite !filter_app.
  assert (Hk : Forall (fun rp : N * Oid => rp.2 = sha) ((fun la => (al_starting_row la.2, al_parent la.2)) <$> las)).
  { apply Forall_fmap. destruct Har as (_ & Hf & _). eapply Forall_impl; [exact Hf|]. cbn. tauto. }
  assert (Hr : Forall (fun rp : N * Oid => rp.2 ≠ sha) (actives (clear_lanes las.*1 st))).
  { apply (actives_parent (fun p => p ≠ sha)). intros l a Ha. by apply arrived_parent in Ha as (_ & ? & _). }
  rewrite (list_filter_all _ _ Hk), (list_filter_all _ _ Hr), (list_filter_none _ _ (Forall_impl _ _ _ Hk (fun _ h k => k h))).
  rewrite (list_filter_none _ (actives _)), app_nil_r; [done|exact Hr].
Qed.
End arriving.

(** The lanes after [place_commit], before any line arrives. *)
Lemma placed_ok m log g st : graph_ok m log g → st = gd_lane_states g ∨ st = gd_lane_states g ++ [Empty] →
  waiting_ok st (gd_parent_to_lanes g) ∧ (∀ l a, active_at st l a → lane_ok m (gd_commits g) l a) ∧ actives st ≡ₚ pending log ∧
  (length (gd_lane_states g) <= length st <= length (gd_lane_states g) + 1)%nat.
Proof using Type.
  intros Hg [->| ->].
  - split_and!; try apply Hg; lia.
  - split_and!.
    + eapply waiting_ok_ext; [|apply Hg]. intros. symmetry. apply active_extend.
    + intros l a Ha. eapply ok_lanes; [done|]. by apply active_extend.
    + rewrite actives_empty. apply Hg.
    + rewrite length_app. lia.
    + rewrite length_app. cbn. lia.
Qed.

(** The arrivals at a commit, in one formula for both branches of the code. *)
Lemma arrive_waiting m log g g1 sha st L row color :
  graph_ok m log g → st = gd_lane_states g ∨ st = gd_lane_states g ++ [Empty] →
  gd_lane_states g1 = st → gd_parent_to_lanes g1 = gd_parent_to_lanes g → (N.to_nat L < length st)%nat →
  match gd_parent_to_lanes g !! sha with Some ls => head ls = Some L | None => st !! N.to_nat L = Some Empty end →
  ∃ las, arrivals st sha L las ∧ waiting_ok (clear_lanes las.*1 st) (delete sha (gd_parent_to_lanes g)) ∧
    (match gd_parent_to_lanes g1 !! sha with
     | Some lanes => arrive_all row L color (with_waiting g1 (delete sha (gd_parent_to_lanes g1))) lanes
     | None => Ok g1
     end) =
    Ok (with_lines (with_lanes (with_waiting g1 (delete sha (gd_parent_to_lanes g))) (clear_lanes las.*1 st))
          (gd_lines g1 ++ (line_of (gd_commits g1) row L color <$> las))).
Proof using Type.
  intros Hg Hst Est Ep HL Hwait. destruct (placed_ok m log g st Hg Hst) as (Hw & _). rewrite Ep.
  destruct (gd_parent_to_lanes g !! sha) as [ls|] eqn:E.
  - destruct (waiting_arrivals st _ sha ls L Hw E Hwait) as (las & <- & Har). exists las. split; [done|]. split; [by apply waiting_ok_remove|].
    rewrite arrive_all_eq; [by cbn; rewrite Est|apply Har|]. cbn. rewrite Est. by eapply arrivals_active.
  - exists []. split; [by eapply no_arrivals|]. rewrite delete_id by done. split; [done|]. cbn. rewrite app_nil_r. subst st. rewrite <-Ep. by destruct g1.
Qed.

(** ** A commit is added *)
Lemma rows_fit m log g c : graph_ok m log g → log_size (log ++ [c]) < usize_MAX → N.of_nat (length (gd_commits g)) < usize_MAX.
Proof using Type.
  intros Hg Hroom. pose proof (ok_log _ _ _ Hg) as E. pose proof (log_size_length log). rewrite log_size_snoc in Hroom.
  assert (length log = length (gd_commits g)) by (rewrite <-E; apply length_fmap). lia.
Qed.
Section finishing.
Context (m : N) (log : list (CommitData Oid)) (g : GraphData Oid) (c : CommitData Oid) (Hg : graph_ok m log g).
Context (Hroom : log_size (log ++ [c]) < usize_MAX).
Context (st1 st4 : list (LaneState Oid)) (ptl4 : gmap Oid (list N)) (L color W : N) (las : list (N * ActiveLane Oid)).
Context (Hst1 : st1 = gd_lane_states g ∨ st1 = gd_lane_states g ++ [Empty]) (Har : arrivals st1 (cd_sha c) L las) (Hcolor : color < m).
Context (Hdep : departing m c (gd_commits g) L (actives (clear_lanes las.*1 st1)) (cd_parents c) st4 ptl4).
Context (HW : occupied st4 <= W) (HLW : L < W).
Local Abbreviation es := (gd_commits g).
Local Abbreviation e := (mkCommitEntry c L color W).
Local Abbreviation n := (N.of_nat (length (gd_commits g))).

Lemma finished_lanes l a : active_at st4 l a → lane_ok m (es ++ [e]) l a.
Proof using All.
  intros Ha. destruct Hdep as (_ & Hact & _). destruct (Hact l a Ha) as [(Hok & Hne & Hpar)|(Hr & Hch & Hin & Hcol & Hshape)].
  - apply lane_ok_snoc; [done|]. split; [done|]. split; [|done]. cbn. apply occupied_active in Ha. lia.
  - apply lane_ok_new; [|done|lia]. exists e. rewrite Hr, Nat2N.id, lookup_app_r, Nat.sub_diag by lia. done.
Qed.
Lemma finished_lines : Forall (line_ok m (es ++ [e])) (gd_lines g ++ (line_of es n L color <$> las)).
Proof using All.
  apply Forall_app. split; [eapply Forall_impl; [apply Hg|]; intros; by apply line_ok_snoc|].
  apply Forall_fmap, Forall_forall. intros [l a] Hla. destruct Har as (_ & Hf & _). rewrite Forall_forall in Hf.
  destruct (Hf _ Hla) as (Ha & Hp & aq & Haq & Hpq & Hrow). cbn in *. destruct (placed_ok m log g st1 Hg Hst1) as (_ & Hl & _).
  by apply (line_arrives m es e L aq (rows_fit m log g c Hg Hroom) eq_refl HLW (Hl _ _ Haq) Hpq Hcolor l a (Hl _ _ Ha) Hp).
Qed.
Lemma finished_pending : actives st4 ≡ₚ pending (log ++ [c]).
Proof using Hg Hst1 Har Hdep.
  destruct Hdep as (_ & _ & Hperm & _). rewrite Hperm. unfold pending. rewrite pending_from_snoc.
  destruct (placed_ok m log g st1 Hg Hst1) as (_ & _ & Hp & _). fold (pending log).
  rewrite <-Hp. destruct (arrived_split st1 (cd_sha c) L las Har) as [_ ->]. apply Permutation_app_head.
  pose proof (ok_log _ _ _ Hg) as E. by rewrite <-E, length_fmap, N.add_0_l.
Qed.
Lemma finished_edges : line_key <$> (gd_lines g ++ (line_of es n L color <$> las)) ≡ₚ edges (log ++ [c]).
Proof using Hg Hst1 Har.
  rewrite fmap_app. unfold edges. rewrite edges_from_snoc. fold (edges log). rewrite (ok_edges _ _ _ Hg). apply Permutation_app_head.
  destruct (placed_ok m log g st1 Hg Hst1) as (_ & _ & Hp & _). fold (pending log).
  rewrite <-Hp. destruct (arrived_split st1 (cd_sha c) L las Har) as [-> _]. rewrite <-!list_fmap_compose.
  pose proof (ok_log _ _ _ Hg) as E. rewrite <-E, length_fmap, N.add_0_l.
  match goal with |- ?l ≡ₚ ?k => enough (l = k) as -> by done end. apply list_fmap_ext. intros _ la _. cbn. by rewrite line_of_key.
Qed.
End finishing.

Lemma add_commit_ok m log g c : graph_ok m log g → log_size (log ++ [c]) < usize_MAX → ok_with (add_commit g c) (graph_ok m (log ++ [c])).
Proof using Type.
  intros Hg Hroom. unfold add_commit. pose proof (place_commit_ok m log g (cd_sha c) Hg) as Hplace.
  destruct (place_commit g (cd_sha c)) as [g1 L]. destruct Hplace as (st1 & -> & Hst1 & HL & Hwait).
  ok_bind (get_lane_color_ok m (with_lanes g st1) L). { apply Hg. }
  intros [g2 color] (Hcolor & Hcols & cols & next & ->).
  destruct (arrive_waiting m log g (with_colors (with_lanes g st1) cols next) (cd_sha c) st1 L (N.of_nat (length (gd_commits g))) color Hg Hst1 eq_refl eq_refl HL Hwait)
    as (las & Har & Hw & ->).
  cbn [mbind outcome_bind]. destruct (placed_ok m log g st1 Hg Hst1) as (_ & Hl1 & _ & Hlen1).
  match goal with |- context [depart_all _ _ _ _ ?g3 _ _] =>
    ok_bind (depart_all_ok m c (gd_commits g) L color (cd_parents c) Hcolor g3 [] (actives (clear_lanes las.*1 st1))) end.
  { done. } { done. }
  { cbn. split_and!; [done| |by rewrite app_nil_r|by rewrite length_clear_lanes].
    intros l a Ha. left. destruct (arrived_parent st1 (cd_sha c) L las Har l a Ha) as (Ha' & Hp & Hne). split; [by apply Hl1|done]. }
  { intros _. cbn. by eapply arrived_lane. }
  intros g4 (st4 & ptl4 & -> & Hdep & Hlen4). cbn in Hlen4. rewrite length_clear_lanes in Hlen4.
  set (W := N.max (N.max (occupied_lanes _) _) (L + 1)).
  assert (HW : occupied st4 <= W) by (unfold W, occupied_lanes; cbn; lia). assert (HLW : L < W) by (unfold W; lia).
  assert (HW4 : W <= N.of_nat (length st4)).
  { unfold W, occupied_lanes. cbn. pose proof (occupied_le st4). pose proof (occupied_le st1). destruct Hdep as (_ & _ & _ & HL4). lia. }
  clearbody W. split; cbn.
  - rewrite fmap_app, (ok_log _ _ _ Hg). done.
  - apply Hdep.
  - eapply finished_lanes; eassumption.
  - eapply finished_lines; eassumption.
  - eapply finished_pending; eassumption.
  - eapply finished_edges; eassumption.
  - rewrite log_size_snoc. pose proof (ok_size _ _ _ Hg). lia.
  - lia.
  - apply Forall_app. split; [|apply Forall_singleton; split; cbn; [lia|done]].
    eapply Forall_impl; [apply (ok_entries _ _ _ Hg)|]. intros e [[He1 He2] He3]. split; [lia|done].
  - done.
Qed.
Lemma add_each_ok m cs : ∀ log g, graph_ok m log g → log_size (log ++ cs) < usize_MAX → ok_with (add_each g cs) (graph_ok m (log ++ cs)).
Proof using Type.
  induction cs as [|c cs IH]; intros log g Hg Hroom; cbn [add_each]; [by rewrite app_nil_r|].
  ok_bind (add_commit_ok m log g c Hg).
  { rewrite log_size_app in Hroom |- *. cbn in *. lia. }
  intros g' Hg'. rewrite cons_middle, app_assoc in Hroom |- *. by apply IH.
Qed.
Lemma add_commits_ok m cs log g : graph_ok m log g → log_size (log ++ cs) < usize_MAX → ok_with (add_commits g cs) (graph_ok m (log ++ cs)).
Proof using Type.
  intros Hg Hroom. unfold add_commits. ok_bind (add_each_ok m cs log g Hg Hroom). intros g' Hg'. by destruct Hg'.
Qed.

(** ** What a view relies on *)
Fixpoint add_batches g (batches : list (list (CommitData Oid))) : outcome (GraphData Oid) :=
  match batches with
  | [] => Ok g
  | cs :: batches => g ← add_commits g cs; add_batches g batches
  end.
Lemma add_batches_ok m batches : ∀ log g, graph_ok m log g → log_size (log ++ concat batches) < usize_MAX →
  ok_with (add_batches g batches) (graph_ok m (log ++ concat batches)).
Proof using Type.
  induction batches as [|cs batches IH]; intros log g Hg Hroom; cbn [add_batches concat]; [by rewrite app_nil_r|].
  cbn [concat] in Hroom. rewrite app_assoc in Hroom. ok_bind (add_commits_ok m cs log g Hg).
  { rewrite log_size_app in Hroom. lia. }
  intros g' Hg'. rewrite app_assoc. by apply IH.
Qed.

(** A line leads, row by row, from the commit at its start to the parent at its end, and on the way is in no column where a commit
    is or that the row does not count among its lanes. *)
Definition well_drawn (es : list (CommitEntry Oid)) (ln : CommitLine Oid) : Prop :=
  ∃ child parent columns,
    es !! N.to_nat (cl_start ln) = Some child ∧ cd_sha (ce_data child) = cl_child ln ∧ cl_child_column ln = ce_lane child ∧
    es !! N.to_nat (cl_end ln) = Some parent ∧ cd_sha (ce_data parent) = cl_parent ln ∧
    trace (cl_start ln) (cl_child_column ln) (cl_segments ln) = Some columns ∧
    cl_start ln + N.of_nat (length columns) = cl_end ln ∧ last columns = Some (ce_lane parent) ∧
    ∀ i col e, columns !! i = Some col → es !! (N.to_nat (cl_start ln) + S i)%nat = Some e →
      col < ce_lanes e ∧ (ce_lane e = col ↔ (N.to_nat (cl_start ln) + S i)%nat = N.to_nat (cl_end ln)).

Lemma line_ok_drawn m es ln : line_ok m es ln → well_drawn es ln.
Proof using Type.
  intros (_ & Hlt & child & parent & via & Hc & Hs & _ & Hcol & Hp & Hps & Hw & Ht & Hpass). eexists child, parent, _.
  do 5 (split; [done|]). split; [exact Ht|]. split; [rewrite length_app, length_replicate; cbn; lia|].
  split; [by rewrite last_snoc|]. intros i col e Hi He.
  destruct (decide (i < N.to_nat (cl_end ln - cl_start ln - 1))%nat) as [Hin|Hout].
  - rewrite lookup_app_l in Hi by (by rewrite length_replicate). apply lookup_replicate in Hi as [-> _].
    destruct (Hpass (N.to_nat (cl_start ln) + S i)%nat e ltac:(lia) He) as (Hne & Hlt' & _). split; [done|]. split; [done|lia].
  - rewrite lookup_app_r in Hi by (rewrite length_replicate; lia). rewrite length_replicate in Hi.
    destruct (i - N.to_nat (cl_end ln - cl_start ln - 1))%nat as [|[|]] eqn:Ei; [|done|done]. injection Hi as <-.
    replace (N.to_nat (cl_start ln) + S i)%nat with (N.to_nat (cl_end ln)) in * by lia. rewrite Hp in He. injection He as <-. done.
Qed.

(** C21: The commit graph has a line for each parent of each commit that appears below it, leading to the first row where it does, and no other line;
    this holds for any sequence of batches the log comes in, and nothing panics. *)
Theorem graph_lines_exact (count : N) (batches : list (list (CommitData Oid))) :
  u8_wrap count ≠ 0 → log_size (concat batches) < usize_MAX →
  ok_with (add_batches (graph_new count) batches) (fun g =>
    ce_data <$> gd_commits g = concat batches ∧
    ((fun ln => (cl_start ln, cl_parent ln, cl_end ln)) <$> gd_lines g) ≡ₚ edges (concat batches) ∧
    actives (gd_lane_states g) ≡ₚ pending (concat batches)).
Proof using Type.
  intros Hc Hroom. eapply ok_with_mono; [apply (add_batches_ok (u8_wrap count) batches [] (graph_new count)); [by apply graph_new_ok|done]|].
  intros g Hg. split; [apply Hg|]. split; [apply Hg|apply Hg].
Qed.

(** C22: Every line of the commit graph starts at the circle of its child and ends at the circle of its parent, never goes
    upwards, passes through no other commit's circle, and in each row keeps within the lanes that the row counts; a commit
    lies within the lanes of its row, these within [max_lanes], and its colour is an accent colour. *)
Theorem graph_lines_drawn (count : N) (batches : list (list (CommitData Oid))) :
  u8_wrap count ≠ 0 → log_size (concat batches) < usize_MAX →
  ok_with (add_batches (graph_new count) batches) (fun g =>
    Forall (well_drawn (gd_commits g)) (gd_lines g) ∧
    Forall (fun e => ce_lane e < ce_lanes e <= gd_max_lanes g ∧ ce_color_idx e < u8_wrap count) (gd_commits g) ∧
    Forall (fun ln => cl_color_idx ln < u8_wrap count) (gd_lines g)).
Proof using Type.
  intros Hc Hroom. eapply ok_with_mono; [apply (add_batches_ok (u8_wrap count) batches [] (graph_new count)); [by apply graph_new_ok|done]|].
  intros g Hg. split; [eapply Forall_impl; [apply Hg|]; intros; by eapply line_ok_drawn|].
  split; [apply Hg|]. eapply Forall_impl; [apply (ok_lines _ _ _ Hg)|]. by intros ln [? _].
Qed.

(** ** Scrolling *)
Definition segment_row (s : CommitLineSegment) : N := match s with Straight row => row | Curve _ row _ => row end.

Lemma trace_rows segs : ∀ row col cols v, trace row col segs = Some cols → v <= row → Forall (fun s => v <= segment_row s) segs.
Proof using Type.
  induction segs as [|[to_row|to_column on_row kind] segs IH]; intros row col cols v; cbn [trace]; [constructor|..].
  - destruct (N.leb_spec row to_row); [|done]. intros (cols' & E & _)%fmap_Some Hv. constructor; [cbn; lia|]. eapply IH; [done|lia].
  - destruct (N.eqb_spec on_row (row + 1)) as [->|]; [|done]. intros (cols' & E & _)%fmap_Some Hv. constructor; [cbn; lia|]. eapply IH; [done|lia].
Qed.
Lemma first_visible_correct segs v : ∀ row col cols idx, trace row col segs = Some cols → row < v <= row + N.of_nat (length cols) →
  ∃ i before, first_visible_segment segs idx col v = Some (idx + N.of_nat i, default col (last before)) ∧
    trace row col (take i segs) = Some before ∧ row + N.of_nat (length before) < v ∧ Forall (fun s => v <= segment_row s) (drop i segs) ∧ (i < length segs)%nat.
Proof using Type.
  induction segs as [|[to_row|to_column on_row kind] segs IH]; intros row col cols idx; cbn [trace first_visible_segment].
  - intros [= <-]. cbn. lia.
  - destruct (N.leb_spec row to_row); [|done]. intros (cols' & E & ->)%fmap_Some Hv. rewrite length_app, length_replicate in Hv.
    destruct (N.leb_spec v to_row) as [Hle|Hgt].
    + exists 0%nat, []. cbn. rewrite N.add_0_r. split_and!; try done; [lia| |lia]. constructor; [done|]. by eapply trace_rows.
    + destruct (IH to_row col cols' (idx + 1) E) as (i & before & Hf & Ht & Hb & Hd & Hi); [lia|].
      exists (S i), (replicate (N.to_nat (to_row - row)) col ++ before). cbn [take drop trace length]. rewrite (proj2 (N.leb_le _ _)) by done. rewrite Hf, Ht.
      split_and!; [|done|rewrite length_app, length_replicate; lia|done|lia]. f_equal. f_equal; [lia|].
      rewrite last_app. destruct (last before); [done|]. destruct (N.to_nat (to_row - row)); [done|]. by rewrite replicate_S_end, last_snoc.
  - destruct (N.eqb_spec on_row (row + 1)) as [->|]; [|done]. intros (cols' & E & ->)%fmap_Some Hv. cbn [length] in Hv.
    destruct (N.leb_spec v (row + 1)) as [Hle|Hgt].
    + exists 0%nat, []. cbn. rewrite N.add_0_r. split_and!; try done; [lia| |lia]. constructor; [done|]. by eapply trace_rows.
    + destruct (IH (row + 1) to_column cols' (idx + 1) E) as (i & before & Hf & Ht & Hb & Hd & Hi); [lia|].
      exists (S i), (to_column :: before). cbn [take drop trace length]. rewrite N.eqb_refl, Hf, Ht.
      split_and!; [|done|cbn [length]; lia|done|lia]. f_equal. f_equal; [lia|]. rewrite last_cons. by destruct (last before).
Qed.

(** For a line of the commit graph, [get_first_visible_segment_idx] finds where to start drawing: nothing for a line that ends above
    the first visible row, its first segment for one that starts below it, and otherwise the segment that
    reaches the row, with the column that the segments before it lead to; no segment from there on ends above the row. *)
Theorem first_visible_segment_correct es (ln : CommitLine Oid) (v : N) :
  well_drawn es ln →
  (cl_end ln < v → get_first_visible_segment_idx ln v = None) ∧
  (v <= cl_start ln → get_first_visible_segment_idx ln v = Some (0, cl_child_column ln)) ∧
  (cl_start ln < v <= cl_end ln → ∃ idx before,
     get_first_visible_segment_idx ln v = Some (N.of_nat idx, default (cl_child_column ln) (last before)) ∧
     trace (cl_start ln) (cl_child_column ln) (take idx (cl_segments ln)) = Some before ∧ cl_start ln + N.of_nat (length before) < v ∧
     (idx < length (cl_segments ln))%nat ∧ Forall (fun s => v <= segment_row s) (drop idx (cl_segments ln))).
Proof using Type.
  intros (child & parent & cols & _ & _ & _ & _ & _ & Ht & Hlen & Hlast & _). unfold get_first_visible_segment_idx.
  assert (cl_start ln < cl_end ln) by (destruct cols; [done|]; cbn [length] in Hlen; lia).
  split; [|split].
  - intros Hv. by rewrite (proj2 (N.ltb_lt _ _)).
  - intros Hv. rewrite (proj2 (N.ltb_ge _ _)), (proj2 (N.leb_le _ _)) by lia. done.
  - intros Hv. rewrite (proj2 (N.ltb_ge _ _)), (proj2 (N.leb_gt _ _)) by lia.
    destruct (first_visible_correct (cl_segments ln) v _ _ _ 0 Ht) as (i & before & Hf & Hb & ? & ? & ?); [lia|]. exists i, before. rewrite Hf, N.add_0_l. done.
Qed.
End layout.

(** Commit 1 merges 2 and 3, which both have the parent 4; in two batches. *)
Definition merge_log : list (list (CommitData N)) :=
  [[mkCommitData 1 [2; 3] []; mkCommitData 3 [4] []]; [mkCommitData 2 [4] []; mkCommitData 4 [] []]].
Lemma graph_lines_exact_witness :
  u8_wrap 12 ≠ 0 ∧ ∃ g, add_batches (graph_new 12) merge_log = Ok g ∧
    ((fun ln => (cl_start ln, cl_parent ln, cl_end ln)) <$> gd_lines g) ≡ₚ [(0, 2, 2); (0, 3, 1); (1, 4, 3); (2, 4, 3)].
Proof.
  split; [done|]. pose proof (graph_lines_exact 12 merge_log ltac:(done) ltac:(done)) as W.
  destruct (add_batches (graph_new 12) merge_log) as [g|]; [|destruct W]. exists g. split; [reflexivity|]. exact (proj1 (proj2 W)).
Defined.
Lemma graph_lines_drawn_witness :
  u8_wrap 12 ≠ 0 ∧ ∃ g, add_batches (graph_new 12) merge_log = Ok g ∧ Forall (well_drawn (gd_commits g)) (gd_lines g).
Proof.
  split; [done|]. pose proof (graph_lines_drawn 12 merge_log ltac:(done) ltac:(done)) as W.
  destruct (add_batches (graph_new 12) merge_log) as [g|]; [|destruct W]. exists g. split; [reflexivity|]. exact (proj1 W).
Defined.
Lemma first_visible_segment_correct_witness :
  ∃ es (ln : CommitLine N), well_drawn es ln ∧ cl_end ln = 2 ∧ get_first_visible_segment_idx ln 3 = None.
Proof.
  assert (Hc : u8_wrap 12 ≠ 0) by done. assert (Hr : log_size ([] ++ concat merge_log) < usize_MAX) by done.
  pose proof (add_batches_ok (u8_wrap 12) merge_log [] (graph_new 12) (graph_new_ok 12 Hc) Hr) as W.
  destruct (add_batches (graph_new 12) merge_log) as [g|] eqn:E; [|destruct W]. apply ok_lines in W.
  assert (∃ i ln, gd_lines g !! i = Some ln ∧ cl_end ln = 2) as (i & ln & Hi & He).
  { vm_compute in E. injection E as <-. eexists 1%nat, _. split; [reflexivity|reflexivity]. }
  exists (gd_commits g), ln. rewrite Forall_lookup in W. pose proof (line_ok_drawn _ _ _ (W i ln Hi)) as Hd. split; [exact Hd|]. split; [exact He|].
  apply (first_visible_segment_correct (gd_commits g) ln 3 Hd). rewrite He. reflexivity.
Defined.
