(* ===== verification/RecoveryKey.v ===== *)
(** * The recovery key: [crates/zode_sync/src/recovery_key.rs], [dek.rs]

    Synced data is encrypted under one key of 32 bytes.  [encode] renders it as the text a user writes down, Crockford base32 with a
    check character; [decode] reads what the user typed.  A [char] is its code point, a string the list of its characters.
    SHA-256 is third-party code and a parameter. *)

From Stdlib Require Import String.
From S2P Require Import Prelude Bytes.
Local Open Scope N_scope.

Definition DEK_LEN : nat := 32.
Definition KID_LEN : nat := 8.
Definition CHECK_DOMAIN : list N := as_bytes "zode-recovery-check".

(** [[u8; DEK_LEN]]: 32 bytes. *)
Definition dek_ok (bytes : list N) : Prop := length bytes = DEK_LEN ∧ valid_bytes bytes.

(** [Dek::from_slice], [Dek::copy_from] *)
Definition dek_from_slice (bytes : list N) : option (list N) :=
  if (length bytes =? DEK_LEN)%nat then Some bytes else None.

Definition ALPHABET : list N := as_bytes "0123456789ABCDEFGHJKMNPQRSTVWXYZ".
Definition DATA_CHARS : nat := 52.
Definition GROUP : nat := 5.
Definition PREFIX : list N := as_bytes "ZODE".
Definition HYPHEN : N := 45.
Definition UNDERSCORE : N := 95.

Inductive RecoveryKeyError :=
  | WrongLength (found : nat)
  | BadCharacter (c : N)
  | ChecksumMismatch
  | NonCanonical.

Definition fold (c : N) : N :=
  if c =? 79 then 48 else if (c =? 73) || (c =? 76) then 49 else c.

(** [Iterator::position] *)
Fixpoint position {A} (p : A → bool) (l : list A) : option nat :=
  match l with
  | [] => None
  | x :: l => if p x then Some 0%nat else S <$> position p l
  end.
Definition symbol_value (c : N) : option N := N.of_nat <$> position (fun s => s =? c) ALPHABET.

(** [char::is_whitespace]: the Unicode property [White_Space]. *)
Definition is_whitespace (c : N) : bool :=
  ((9 <=? c) && (c <=? 13)) || (c =? 32) || (c =? 0x85) || (c =? 0xA0) || (c =? 0x1680) ||
  ((0x2000 <=? c) && (c <=? 0x200A)) || (c =? 0x2028) || (c =? 0x2029) || (c =? 0x202F) || (c =? 0x205F) || (c =? 0x3000).
(** [char::to_ascii_uppercase] *)
Definition to_ascii_uppercase (c : N) : N := if (97 <=? c) && (c <=? 122) then c - 32 else c.

(** [str::strip_prefix] *)
Fixpoint strip_prefix (prefix s : list N) : option (list N) :=
  match prefix, s with
  | [], _ => Some s
  | x :: prefix, y :: s => if x =? y then strip_prefix prefix s else None
  | _ :: _, [] => None
  end.

(** [Vec<&str>::join] *)
Fixpoint join (separator : list N) (parts : list (list N)) : list N :=
  match parts with
  | [] => []
  | [p] => p
  | p :: parts => p ++ separator ++ join separator parts
  end.

(** ** Writing *)
Definition key_bit (bytes : list N) (absolute : nat) : N :=
  if (absolute <? DEK_LEN * 8)%nat
  then N.land (N.shiftr (nth (absolute / 8) bytes 0) (N.of_nat (7 - absolute mod 8))) 1
  else 0.
Definition symbol_at (bytes : list N) (index : nat) : N :=
  fold_left (fun value bit => N.lor (N.shiftl value 1) (key_bit bytes (index * 5 + bit))) (seq 0 5) 0.

Section recovery_key.
Context (sha256 : list N → list N).

Definition check_bits (bytes : list N) : N := N.land (nth 0 (sha256 (CHECK_DOMAIN ++ bytes)) 0) 31.

Definition kid (bytes : list N) : list N := take KID_LEN (sha256 bytes).

(** The characters before grouping. *)
Definition symbols (bytes : list N) : list N :=
  ((fun index => nth (N.to_nat (symbol_at bytes index)) ALPHABET 0) <$> seq 0 DATA_CHARS) ++
  [nth (N.to_nat (check_bits bytes)) ALPHABET 0].
Definition encode (bytes : list N) : list N :=
  PREFIX ++ [HYPHEN] ++ join [HYPHEN] (chunks GROUP (symbols bytes)).

(** ** Reading *)
Definition cleaned (input : list N) : list N :=
  to_ascii_uppercase <$> filter (fun c => negb (is_whitespace c) && negb (c =? HYPHEN) && negb (c =? UNDERSCORE)) input.
Definition body (input : list N) : list N := default (cleaned input) (strip_prefix PREFIX (cleaned input)).

Definition read_symbol (raw : N) : result RecoveryKeyError N :=
  match symbol_value (fold raw) with Some v => Good v | None => Bad (BadCharacter raw) end.

Definition place_bit (index : nat) (value : N) (acc : result RecoveryKeyError (list N)) (bit : nat)
    : result RecoveryKeyError (list N) :=
  bytes ← acc;
  let absolute := (index * 5 + bit)%nat in
  let bit_value := N.land (N.shiftr value (N.of_nat (4 - bit))) 1 in
  if (DEK_LEN * 8 <=? absolute)%nat
  then if bit_value =? 1 then Bad NonCanonical else Good bytes
  else Good (alter (fun b => N.lor b (N.shiftl bit_value (N.of_nat (7 - absolute mod 8)))) (absolute / 8)%nat bytes).
Fixpoint place_values (index : nat) (values : list N) (acc : result RecoveryKeyError (list N))
    : result RecoveryKeyError (list N) :=
  match values with
  | [] => acc
  | value :: values => place_values (S index) values (fold_left (place_bit index value) (seq 0 5) acc)
  end.

Definition decode (input : list N) : result RecoveryKeyError (list N) :=
  if negb (length (body input) =? DATA_CHARS + 1)%nat
  then Bad (WrongLength (length (body input)))
  else values ← mapM read_symbol (body input);
       let check := List.last values 0 in
       bytes ← place_values 0 (removelast values) (Good (replicate DEK_LEN 0));
       if negb (check_bits bytes =? check) then Bad ChecksumMismatch else Good bytes.
End recovery_key.

(** ** Bits *)
Lemma low_bit x k : N.land (N.shiftr x k) 1 = N.b2n (N.testbit x k).
Proof. change 1 with (N.ones 1). rewrite N.land_ones, <-N.bit0_mod, N.shiftr_spec'. done. Qed.

Lemma byte_bits b : b < 256 ↔ ∀ m, 8 <= m → N.testbit b m = false.
Proof.
  split.
  - intros Hb m Hm. destruct (decide (b = 0)) as [->|]; [apply N.bits_0|]. apply N.bits_above_log2.
    apply N.log2_lt_pow2; [lia|]. apply N.lt_le_trans with (2 ^ 8); [done|]. by apply N.pow_le_mono_r.
  - intros Hm. replace b with (b `mod` 2 ^ 8); [apply N.mod_lt; lia|]. apply N.bits_inj. intros i.
    destruct (N.lt_ge_cases i 8); [by rewrite N.mod_pow2_bits_low|]. by rewrite N.mod_pow2_bits_high, Hm.
Qed.

Lemma set_bit b x k m : N.testbit (N.lor b (N.shiftl (N.b2n x) k)) m = N.testbit b m || (x && (m =? k)).
Proof.
  rewrite N.lor_spec. f_equal. destruct (N.lt_ge_cases m k).
  - rewrite N.shiftl_spec_low by done. rewrite (proj2 (N.eqb_neq m k)) by lia. by rewrite andb_false_r.
  - rewrite N.shiftl_spec_high' by done. destruct (N.eqb_spec m k) as [->|Hne]; [rewrite N.sub_diag; by destruct x|].
    rewrite andb_false_r. destruct x; [|apply N.bits_0]. apply N.bits_above_log2. cbn. lia.
Qed.
Lemma set_bit_byte b x k : b < 256 → k < 8 → N.lor b (N.shiftl (N.b2n x) k) < 256.
Proof.
  rewrite !byte_bits. intros Hb Hk m Hm. rewrite set_bit, Hb by done. rewrite (proj2 (N.eqb_neq m k)) by lia. by rewrite andb_false_r.
Qed.

(** The bit of a key at a position counted from its most significant one, and of a list of base32 values. *)
Definition data_bit (bytes : list N) (a : nat) : bool :=
  (a <? DEK_LEN * 8)%nat && N.testbit (nth (a / 8) bytes 0) (N.of_nat (7 - a mod 8)).
Definition value_bit (values : list N) (a : nat) : bool :=
  N.testbit (nth (a / 5) values 0) (N.of_nat (4 - a mod 5)).

(** Five bits as a number, most significant first. *)
Definition val5 (b0 b1 b2 b3 b4 : bool) : N :=
  16 * N.b2n b0 + 8 * N.b2n b1 + 4 * N.b2n b2 + 2 * N.b2n b3 + N.b2n b4.

Lemma symbol_at_bits bytes i :
  symbol_at bytes i = val5 (data_bit bytes (i * 5)) (data_bit bytes (i * 5 + 1)) (data_bit bytes (i * 5 + 2))
                           (data_bit bytes (i * 5 + 3)) (data_bit bytes (i * 5 + 4)).
Proof.
  unfold symbol_at. cbn [seq fold_left]. rewrite Nat.add_0_r.
  assert (∀ a, key_bit bytes a = N.b2n (data_bit bytes a)) as Hk.
  { intros a. unfold key_bit, data_bit. destruct (a <? _)%nat; [|done]. by rewrite low_bit. }
  rewrite !Hk. by destruct (data_bit _ _), (data_bit _ _), (data_bit _ _), (data_bit _ _), (data_bit _ _).
Qed.
Lemma symbol_at_bound bytes i : symbol_at bytes i < 32.
Proof. rewrite symbol_at_bits. unfold val5. by repeat destruct (data_bit _ _). Qed.
Lemma symbol_at_bit bytes i k : (k < 5)%nat → N.testbit (symbol_at bytes i) (N.of_nat (4 - k)) = data_bit bytes (i * 5 + k).
Proof.
  intros Hk. rewrite symbol_at_bits. rewrite <-(Nat.add_0_r (i * 5)) at 1.
  destruct k as [|[|[|[|[|]]]]]; [..|lia]; unfold val5; by repeat destruct (data_bit _ _).
Qed.

Lemma below_32 n : n < 32 → n ∈ N.of_nat <$> seq 0 32.
Proof. intros Hn. apply list_elem_of_fmap. exists (N.to_nat n). split; [lia|]. apply elem_of_seq. lia. Qed.
Lemma values_bits v w : v < 32 → w < 32 →
  (∀ k, (k < 5)%nat → N.testbit v (N.of_nat (4 - k)) = N.testbit w (N.of_nat (4 - k))) → v = w.
Proof.
  intros Hv Hw Hk. apply N.bits_inj. intros m. destruct (N.lt_ge_cases m 5) as [Hm|Hm].
  - specialize (Hk (4 - N.to_nat m)%nat). replace (N.of_nat _) with m in Hk by lia. apply Hk. lia.
  - assert (∀ x, x < 32 → N.testbit x m = false) as Hx; [|by rewrite !Hx].
    intros x Hx. destruct (decide (x = 0)) as [->|]; [apply N.bits_0|]. apply N.bits_above_log2, N.log2_lt_pow2; [lia|].
    apply N.lt_le_trans with (2 ^ 5); [done|]. by apply N.pow_le_mono_r.
Qed.

Lemma dek_bits b c : dek_ok b → dek_ok c → (∀ a, (a < 256)%nat → data_bit b a = data_bit c a) → b = c.
Proof.
  intros [Lb Hb] [Lc Hc] Hbits. apply list_eq_same_length with DEK_LEN; [done..|]. intros i x y Hi Hx Hy.
  pose proof (Forall_lookup_1 _ _ _ _ Hb Hx) as Hx'. pose proof (Forall_lookup_1 _ _ _ _ Hc Hy) as Hy'. cbn in Hx', Hy'.
  apply N.bits_inj. intros m. destruct (N.lt_ge_cases m 8) as [Hm|Hm].
  - specialize (Hbits (i * 8 + (7 - N.to_nat m))%nat). unfold DEK_LEN in *. specialize (Hbits ltac:(lia)).
    unfold data_bit, DEK_LEN in Hbits. rewrite (proj2 (Nat.ltb_lt _ _)) in Hbits by lia. cbn [andb] in Hbits.
    replace ((i * 8 + (7 - N.to_nat m)) / 8)%nat with i in Hbits by (apply Nat.div_unique with (7 - N.to_nat m)%nat; lia).
    replace (((i * 8 + (7 - N.to_nat m)) mod 8)%nat) with (7 - N.to_nat m)%nat in Hbits
      by (apply Nat.mod_unique with i; lia).
    rewrite !nth_lookup, Hx, Hy in Hbits. cbn [default] in Hbits. by replace (N.of_nat (7 - (7 - N.to_nat m))) with m in Hbits by lia.
  - by rewrite (proj1 (byte_bits x) Hx'), (proj1 (byte_bits y) Hy').
Qed.

(** ** Placing the bits *)

(** What [place_bit] has done after [n] bits. *)
Definition placed (values : list N) (n : nat) (acc : result RecoveryKeyError (list N)) : Prop :=
  match acc with
  | Good bytes => dek_ok bytes ∧ (∀ a, (a < 256)%nat → data_bit bytes a = (a <? n)%nat && value_bit values a) ∧
                  ∀ a, (256 <= a < n)%nat → value_bit values a = false
  | Bad e => e = NonCanonical ∧ ∃ a, (256 <= a < n)%nat ∧ value_bit values a = true
  end.

Lemma alter_bit bytes n x a :
  (n < 256)%nat → dek_ok bytes → (a < 256)%nat →
  data_bit (alter (fun b => N.lor b (N.shiftl (N.b2n x) (N.of_nat (7 - n mod 8)))) (n / 8)%nat bytes) a =
  data_bit bytes a || (x && (a =? n)%nat).
Proof.
  intros Hn [Hl _] Ha. unfold data_bit. rewrite (proj2 (Nat.ltb_lt a _)) by done. cbn [andb]. rewrite !nth_lookup.
  pose proof (Nat.div_mod a 8). pose proof (Nat.div_mod n 8). pose proof (Nat.mod_upper_bound a 8). pose proof (Nat.mod_upper_bound n 8).
  destruct (decide (a / 8 = n / 8)%nat) as [E|E].
  - rewrite E, list_lookup_alter_eq. destruct (lookup_lt_is_Some_2 bytes (n / 8)) as [b Hb]; [rewrite Hl; unfold DEK_LEN; lia|].
    rewrite Hb. cbn [fmap option_fmap option_map default from_option id]. rewrite set_bit. do 2 f_equal.
    destruct (Nat.eqb_spec a n) as [->|]; [apply N.eqb_refl|]. apply N.eqb_neq. lia.
  - rewrite list_lookup_alter_ne by done. rewrite (proj2 (Nat.eqb_neq a n)) by (intros ->; done). by rewrite andb_false_r, orb_false_r.
Qed.

Lemma placed_step values n acc :
  placed values n acc → placed values (S n) (place_bit (n / 5) (nth (n / 5) values 0) acc (n mod 5)).
Proof.
  intros Hp. unfold place_bit. pose proof (Nat.div_mod n 5). replace (n / 5 * 5 + n mod 5)%nat with n by lia.
  rewrite low_bit. fold (value_bit values n). destruct acc as [bytes|e]; cbn [mbind result_bind]; last first.
  { destruct Hp as (-> & a & Ha & Hv). split; [done|]. exists a. split; [lia|done]. }
  destruct Hp as (Hok & Hb & Hpad). destruct (Nat.leb_spec (DEK_LEN * 8) n) as [Hn|Hn]; unfold DEK_LEN in Hn; cbn in Hn.
  - destruct (value_bit values n) eqn:Hv; cbn [N.b2n N.eqb Pos.eqb].
    + split; [done|]. exists n. split; [lia|done].
    + split; [done|]. split.
      * intros a Ha. rewrite Hb by done. destruct (Nat.ltb_spec a n); [|lia]. by rewrite (proj2 (Nat.ltb_lt a (S n))) by lia.
      * intros a Ha. destruct (decide (a = n)) as [->|]; [done|]. apply Hpad. lia.
  - split; [|split].
    + destruct Hok as [Hl Hv]. split; [by rewrite length_alter|]. apply Forall_alter; [done|].
      intros b _ Hb'. apply set_bit_byte; [done|lia].
    + intros a Ha. rewrite alter_bit by done. rewrite Hb by done.
      destruct (Nat.eqb_spec a n) as [->|Hne].
      * rewrite Nat.ltb_irrefl, (proj2 (Nat.ltb_lt n (S n))) by lia. by rewrite andb_true_r.
      * rewrite andb_false_r, orb_false_r. f_equal. destruct (Nat.ltb_spec a n), (Nat.ltb_spec a (S n)); (done || lia).
    + intros a Ha. lia.
Qed.
Lemma placed_value values i acc : placed values (i * 5) acc →
  placed values (S i * 5) (fold_left (place_bit i (nth i values 0)) (seq 0 5) acc).
Proof.
  intros Hp. cbn [seq fold_left].
  assert (∀ k acc, (k < 5)%nat → placed values (i * 5 + k) acc →
    placed values (i * 5 + S k) (place_bit i (nth i values 0) acc k)) as Hs.
  { intros k acc' Hk Hp'. apply placed_step in Hp'.
    replace ((i * 5 + k) / 5)%nat with i in Hp' by (apply Nat.div_unique with k; lia).
    replace ((i * 5 + k) mod 5)%nat with k in Hp' by (apply Nat.mod_unique with i; lia).
    by rewrite Nat.add_succ_r. }
  replace (S i * 5)%nat with (i * 5 + 5)%nat by lia. do 5 (apply Hs; [lia|]). by rewrite Nat.add_0_r.
Qed.
Lemma placed_values todo ready acc : placed (ready ++ todo) (length ready * 5) acc →
  placed (ready ++ todo) (length (ready ++ todo) * 5) (place_values (length ready) todo acc).
Proof.
  revert ready acc. induction todo as [|v todo IH]; intros ready acc Hp; cbn [place_values]; [by rewrite app_nil_r in *|].
  specialize (IH (ready ++ [v])). rewrite <-app_assoc, (length_app ready [v]), Nat.add_1_r in IH. apply IH.
  apply placed_value in Hp. by rewrite app_nth2, Nat.sub_diag in Hp by lia.
Qed.

Lemma nth_zeroes n i : nth i (replicate n 0) 0 = 0.
Proof. rewrite nth_lookup. destruct (_ !! i) eqn:E; [|done]. by apply lookup_replicate in E as [-> _]. Qed.
Lemma zeroes_ok : dek_ok (replicate DEK_LEN 0).
Proof. split; [done|]. by apply Forall_replicate. Qed.

Lemma value_bit_symbols bytes a : (a < DATA_CHARS * 5)%nat →
  value_bit (symbol_at bytes <$> seq 0 DATA_CHARS) a = data_bit bytes a.
Proof.
  intros Ha. unfold value_bit. pose proof (Nat.div_mod a 5). pose proof (Nat.mod_upper_bound a 5).
  rewrite nth_lookup, list_lookup_fmap, lookup_seq_lt by (unfold DATA_CHARS in *; lia). cbn [fmap option_fmap option_map default from_option id Nat.add].
  rewrite symbol_at_bit by lia. f_equal. lia.
Qed.

Lemma place_values_placed values : length values = DATA_CHARS →
  placed values (DATA_CHARS * 5) (place_values 0 values (Good (replicate DEK_LEN 0))).
Proof.
  intros <-. apply (placed_values values []). split; [apply zeroes_ok|]. split; [|cbn [length]; lia].
  intros a Ha. cbn [length Nat.mul Nat.ltb Nat.leb andb]. unfold data_bit. rewrite nth_zeroes. by rewrite N.bits_0, andb_false_r.
Qed.

(** The loop succeeds exactly on the values of a key. *)
Lemma place_values_good values bytes :
  length values = DATA_CHARS → Forall (fun v => v < 32) values →
  (place_values 0 values (Good (replicate DEK_LEN 0)) = Good bytes ↔ dek_ok bytes ∧ values = symbol_at bytes <$> seq 0 DATA_CHARS).
Proof.
  intros Hl Hv.
  pose proof (place_values_placed values Hl) as Hp.
  split.
  - intros E. rewrite E in Hp. destruct Hp as (Hok & Hb & Hpad). split; [done|].
    apply list_eq_same_length with DATA_CHARS; [by rewrite length_fmap, length_seq|done|].
    intros i x y Hi Hx Hy. rewrite list_lookup_fmap, lookup_seq_lt in Hy by done. injection Hy as <-.
    apply values_bits; [by apply (Forall_lookup_1 _ _ _ _ Hv Hx)|apply symbol_at_bound|]. intros k Hk.
    rewrite symbol_at_bit by done.
    assert (value_bit values (i * 5 + k) = N.testbit x (N.of_nat (4 - k))) as <-.
    { unfold value_bit. replace ((i * 5 + k) / 5)%nat with i by (apply Nat.div_unique with k; lia).
      replace ((i * 5 + k) mod 5)%nat with k by (apply Nat.mod_unique with i; lia). by rewrite nth_lookup, Hx. }
    unfold DATA_CHARS in *. destruct (Nat.lt_ge_cases (0 + i * 5 + k) 256) as [Ha|Ha].
    + cbn [Nat.add] in *. rewrite Hb by done. by rewrite (proj2 (Nat.ltb_lt _ _)) by lia.
    + cbn [Nat.add] in *. rewrite Hpad by lia. unfold data_bit. by rewrite (proj2 (Nat.ltb_ge _ _)) by done.
  - intros (Hok & ->). destruct (place_values _ _ _) as [b|e].
    + destruct Hp as (Hok' & Hb & _). f_equal. apply dek_bits; [done..|]. intros a Ha. rewrite Hb by done.
      rewrite (proj2 (Nat.ltb_lt _ _)) by (unfold DATA_CHARS; lia). apply value_bit_symbols. unfold DATA_CHARS. lia.
    + destruct Hp as (_ & a & Ha & Hp). rewrite value_bit_symbols in Hp by lia. unfold data_bit in Hp.
      rewrite (proj2 (Nat.ltb_ge _ _)) in Hp; [done|unfold DEK_LEN; lia].
Qed.

(** ** The alphabet *)
Lemma symbol_value_nth v : v < 32 → symbol_value (nth (N.to_nat v) ALPHABET 0) = Some v.
Proof.
  intros Hv%below_32.
  assert (Forall (fun v => symbol_value (nth (N.to_nat v) ALPHABET 0) = Some v) (N.of_nat <$> seq 0 32)) as Hall
    by (vm_compute; repeat constructor).
  by rewrite Forall_forall in Hall; apply Hall.
Qed.
Lemma position_some {A} (p : A → bool) l i : position p l = Some i → ∃ x, l !! i = Some x ∧ p x = true.
Proof.
  revert i. induction l as [|y l IH]; intros i; cbn [position]; [done|].
  destruct (p y) eqn:Hy; [intros [= <-]; by exists y|]. rewrite fmap_Some. intros (j & Hj & ->). by apply IH.
Qed.
Lemma symbol_value_some c v : symbol_value c = Some v → v < 32 ∧ c = nth (N.to_nat v) ALPHABET 0.
Proof.
  unfold symbol_value. rewrite fmap_Some. intros (i & (x & Hx & ->%N.eqb_eq)%position_some & ->).
  split; [apply lookup_lt_Some in Hx; cbn in Hx; lia|]. by rewrite Nat2N.id, nth_lookup, Hx.
Qed.

(** A symbol of the alphabet is kept by cleaning and folding. *)
Lemma symbol_kept v : v < 32 →
  let c := nth (N.to_nat v) ALPHABET 0 in
  negb (is_whitespace c) && negb (c =? HYPHEN) && negb (c =? UNDERSCORE) = true ∧ to_ascii_uppercase c = c ∧ fold c = c.
Proof.
  intros Hv%below_32 c.
  assert (Forall (fun v => let c := nth (N.to_nat v) ALPHABET 0 in
    negb (is_whitespace c) && negb (c =? HYPHEN) && negb (c =? UNDERSCORE) = true ∧ to_ascii_uppercase c = c ∧ fold c = c)
    (N.of_nat <$> seq 0 32)) as Hall by (vm_compute; repeat constructor).
  rewrite Forall_forall in Hall. by apply Hall.
Qed.

Lemma read_symbols values raws :
  mapM read_symbol raws = Good values ↔
  Forall (fun v => v < 32) values ∧ fold <$> raws = (fun v => nth (N.to_nat v) ALPHABET 0) <$> values.
Proof.
  rewrite mapM_good. revert values. induction raws as [|c raws IH]; intros [|v values]; cbn [fmap list_fmap].
  - split; [by split|constructor].
  - split; [inversion 1|intros [_ [=]]].
  - split; [inversion 1|intros [_ [=]]].
  - rewrite Forall2_cons, IH, Forall_cons. unfold read_symbol. split.
    + intros (Hc & Hv & Hr). destruct (symbol_value (fold c)) eqn:E; [|done]. injection Hc as ->.
      apply symbol_value_some in E as [? E]. by rewrite E, Hr.
    + intros ((Hv & Hvs) & E). assert (fold c = nth (N.to_nat v) ALPHABET 0) as Hc by exact (f_equal (hd 0) E).
      pose proof (f_equal tail E) as Hr. split; [|by split]. by rewrite Hc, symbol_value_nth.
Qed.

(** ** The text *)
Section text.
Context (sha256 : list N → list N).

Lemma check_bits_bound bytes : check_bits sha256 bytes < 32.
Proof.
  unfold check_bits. change 31 with (N.ones 5). rewrite N.land_ones. by apply N.mod_lt.
Qed.
(** The base32 values of a key, the check value last. *)
Definition key_values (bytes : list N) : list N :=
  (symbol_at bytes <$> seq 0 DATA_CHARS) ++ [check_bits sha256 bytes].
Lemma key_values_bound bytes : Forall (fun v => v < 32) (key_values bytes).
Proof.
  apply Forall_app. split; [|repeat constructor; apply check_bits_bound].
  apply Forall_fmap, Forall_true. intros. apply symbol_at_bound.
Qed.
Lemma symbols_values bytes : symbols sha256 bytes = (fun v => nth (N.to_nat v) ALPHABET 0) <$> key_values bytes.
Proof. unfold symbols, key_values. by rewrite fmap_app, <-list_fmap_compose. Qed.

Lemma alphabet_inj values values' :
  Forall (fun v => v < 32) values → Forall (fun v => v < 32) values' →
  ((fun v => nth (N.to_nat v) ALPHABET 0) <$> values) = ((fun v => nth (N.to_nat v) ALPHABET 0) <$> values') → values = values'.
Proof.
  intros Hv. revert values'. induction Hv as [|v values Hv _ IH]; intros [|v' values'] Hv' E; try done.
  apply Forall_cons in Hv' as [Hv' Hvs']. pose proof (f_equal tail E) as Et. apply (f_equal (hd 0)) in E. cbn [hd fmap list_fmap tail] in *.
  apply (f_equal symbol_value) in E. rewrite !symbol_value_nth in E by done. injection E as ->. f_equal. by apply IH.
Qed.

(** [decode] accepts exactly the texts whose characters, cleaned and folded, are those of a key. *)
Lemma decode_good input bytes :
  decode sha256 input = Good bytes ↔ dek_ok bytes ∧ fold <$> body input = symbols sha256 bytes.
Proof.
  unfold decode. rewrite symbols_values. destruct (Nat.eqb_spec (length (body input)) (DATA_CHARS + 1)) as [Hl|Hl]; cbn [negb]; last first.
  { split; [done|]. intros [_ E]. destruct Hl. apply (f_equal length) in E. rewrite !length_fmap in E. by rewrite E. }
  rewrite result_bind_good. split.
  - intros (values & Hr & (bytes' & Hp & Hc)%result_bind_good). apply read_symbols in Hr as [Hv Hr].
    destruct (N.eqb_spec (check_bits sha256 bytes') (List.last values 0)) as [Hc'|]; [|done]. injection Hc as ->.
    assert (length values = DATA_CHARS + 1)%nat as Hlv by (rewrite <-Hl, <-(length_fmap fold (body input)), Hr, length_fmap; done).
    destruct values as [|v0 values0 _] using rev_ind; [done|]. rewrite removelast_last in Hp. rewrite last_last in Hc'.
    rewrite length_app in Hlv. apply Forall_app in Hv as [Hv _]. apply place_values_good in Hp as [Hok ->]; [|cbn [length] in Hlv; lia|done].
    split; [done|]. by rewrite Hr, <-Hc'.
  - intros [Hok E]. exists (key_values bytes). split; [apply read_symbols; split; [apply key_values_bound|done]|].
    apply result_bind_good. exists bytes. unfold key_values. rewrite removelast_last, last_last. split; [|by rewrite N.eqb_refl].
    apply place_values_good; [by rewrite length_fmap, length_seq| |done]. apply Forall_fmap, Forall_true. intros. apply symbol_at_bound.
Qed.

(** *** Grouping *)
Lemma filter_join (p : N → bool) sep parts : filter p sep = [] → filter p (join sep parts) = filter p (concat parts).
Proof.
  intros Hs. induction parts as [|x [|y parts] IH]; [done|cbn [join concat]; by rewrite app_nil_r|].
  cbn [join] in *. cbn [concat] in *. rewrite !filter_app, Hs, IH, !filter_app. done.
Qed.
Lemma kept_symbols values : Forall (fun v => v < 32) values →
  let s := (fun v => nth (N.to_nat v) ALPHABET 0) <$> values in cleaned s = s ∧ fold <$> s = s.
Proof.
  intros Hv. cbn zeta. induction Hv as [|v values Hv _ [IHc IHf]]; [done|]. destruct (symbol_kept v Hv) as (Hk & Hu & Hf).
  cbn [fmap list_fmap]. split; [|by f_equal]. unfold cleaned. rewrite filter_cons_True by (by rewrite Hk). cbn [fmap list_fmap]. by f_equal.
Qed.
Lemma cleaned_app s t : cleaned (s ++ t) = cleaned s ++ cleaned t.
Proof. unfold cleaned. by rewrite filter_app, fmap_app. Qed.
Lemma strip_prefix_app p s : strip_prefix p (p ++ s) = Some s.
Proof. induction p as [|x p IH]; [done|]. cbn. by rewrite N.eqb_refl. Qed.
Lemma encode_body bytes : body (encode sha256 bytes) = symbols sha256 bytes.
Proof.
  unfold body, encode. rewrite !cleaned_app. change (cleaned PREFIX) with PREFIX. change (cleaned [HYPHEN]) with (@nil N).
  cbn [app]. rewrite strip_prefix_app. cbn [default]. unfold cleaned. rewrite filter_join by done.
  destruct (chunks_correct GROUP (symbols sha256 bytes)) as [-> _]; [unfold GROUP; lia|]. rewrite symbols_values.
  apply kept_symbols, key_values_bound.
Qed.

(** Why a text is refused. *)
Definition refusal (input : list N) (e : RecoveryKeyError) : Prop :=
  match e with
  | WrongLength found => found = length (body input) ∧ found ≠ (DATA_CHARS + 1)%nat
  | BadCharacter c => ∃ pre post, body input = pre ++ c :: post ∧ symbol_value (fold c) = None ∧
                      Forall (fun c => is_Some (symbol_value (fold c))) pre
  | NonCanonical => ∃ values a, fold <$> body input = (fun v => nth (N.to_nat v) ALPHABET 0) <$> values ∧
                    (DEK_LEN * 8 <= a < DATA_CHARS * 5)%nat ∧ value_bit values a = true
  | ChecksumMismatch => ∃ bytes v, dek_ok bytes ∧ v < 32 ∧ v ≠ check_bits sha256 bytes ∧
                        fold <$> body input = take DATA_CHARS (symbols sha256 bytes) ++ [nth (N.to_nat v) ALPHABET 0]
  end.

Lemma read_symbols_bad raws e : mapM read_symbol raws = Bad e →
  ∃ pre c post, raws = pre ++ c :: post ∧ e = BadCharacter c ∧ symbol_value (fold c) = None ∧
                Forall (fun c => is_Some (symbol_value (fold c))) pre.
Proof.
  induction raws as [|c raws IH]; cbn [mapM]; [done|].
  destruct (read_symbol c) as [v|e'] eqn:Hc; cbn [mbind result_bind]; unfold read_symbol in Hc; destruct (symbol_value (fold c)) eqn:Hs; try done.
  - destruct (mapM read_symbol raws) as [vs|e'] eqn:Hr; cbn [mbind result_bind]; [done|]. intros [= ->].
    destruct (IH eq_refl) as (pre & c' & post & -> & -> & Hn & Hp). exists (c :: pre), c', post.
    split_and!; try done. constructor; [by rewrite Hs|done].
  - injection Hc as <-. intros [= <-]. by exists [], c, raws.
Qed.
Lemma place_values_bad values e : length values = DATA_CHARS →
  place_values 0 values (Good (replicate DEK_LEN 0)) = Bad e →
  e = NonCanonical ∧ ∃ a, (DEK_LEN * 8 <= a < DATA_CHARS * 5)%nat ∧ value_bit values a = true.
Proof. intros Hl E. pose proof (place_values_placed values Hl) as Hp. by rewrite E in Hp. Qed.

Lemma decode_refusal input e : decode sha256 input = Bad e → refusal input e.
Proof.
  unfold decode. destruct (Nat.eqb_spec (length (body input)) (DATA_CHARS + 1)) as [Hl|Hl]; cbn [negb]; [|by intros [= <-]].
  destruct (mapM read_symbol (body input)) as [values|e'] eqn:Hr; cbn [mbind result_bind]; last first.
  { intros [= ->]. apply read_symbols_bad in Hr as (pre & c & post & Hb & -> & Hn & Hp). by exists pre, post. }
  apply read_symbols in Hr as [Hv Hr].
  assert (length values = DATA_CHARS + 1)%nat as Hlv by (rewrite <-Hl, <-(length_fmap fold (body input)), Hr, length_fmap; done).
  destruct values as [|v values _] using rev_ind; [done|]. rewrite removelast_last, last_last. rewrite length_app in Hlv. cbn [length] in Hlv.
  apply Forall_app in Hv as [Hv Hv1]. apply Forall_cons in Hv1 as [Hv1 _].
  destruct (place_values _ _ _) as [bytes|e'] eqn:Hp; cbn [mbind result_bind]; last first.
  { intros [= ->]. apply place_values_bad in Hp as (-> & a & Ha & Hp); [|lia]. exists (values ++ [v]), a. split; [done|]. split; [done|].
    rewrite <-Hp. unfold value_bit. rewrite app_nth1; [done|]. unfold DATA_CHARS in *. pose proof (Nat.div_mod a 5). lia. }
  apply place_values_good in Hp as [Hok ->]; [|lia|done].
  destruct (N.eqb_spec (check_bits sha256 bytes) v) as [|Hne]; [done|]. intros [= <-]. exists bytes, v. split; [done|]. split; [done|].
  split; [by apply not_eq_sym|].
  rewrite Hr, fmap_app. f_equal.
Qed.

End text.
Definition sample_key : list N := (fun i => N.of_nat (i * 37) `mod` 256) <$> seq 1 DEK_LEN.
Definition sample_sha256 (bytes : list N) : list N := [fold_left N.add bytes 7 `mod` 256].

(** The last of the 52 characters carries one bit of the key and four zeroes. *)
Theorem last_symbol_bit (bytes : list N) : symbol_at bytes 51 = 16 * N.b2n (data_bit bytes 255).
Proof.
  rewrite symbol_at_bits. assert (∀ a, (256 <= a)%nat → data_bit bytes a = false) as Hz
    by (intros a Ha; unfold data_bit; by rewrite (proj2 (Nat.ltb_ge _ _))).
  change (51 * 5)%nat with 255%nat. rewrite !(Hz (255 + _)%nat) by lia. unfold val5. cbn [N.b2n]. lia.
Qed.

(** A key whose text begins Z0DE, typed without the prefix and with the letter O, loses these four characters as if they were the
    prefix and is refused. *)
Definition ambiguous_key : list N := [248; 26; 224] ++ replicate 29 0.
Example prefix_ambiguity :
  take 4 (symbols sample_sha256 ambiguous_key) = as_bytes "Z0DE" ∧
  fold <$> PREFIX ++ drop 4 (symbols sample_sha256 ambiguous_key) = symbols sample_sha256 ambiguous_key ∧
  decode sample_sha256 (PREFIX ++ drop 4 (symbols sample_sha256 ambiguous_key)) = Bad (WrongLength 49).
Proof. split_and!; vm_compute; reflexivity. Qed.
