(* ===== verification/SyncEnvelope.v ===== *)
(** * Encrypted documents: [crates/zode_sync/src/envelope.rs]

    The server of the sync service stores opaque documents.  A document is an envelope: the ciphertext of the content under the user's key, bound by
    the additional authenticated data to the user, to the slot it is stored in and to the key.  The cipher, the random number generator,
    base64 and JSON are third-party code: [SyncCrypto] and [Rng] are the calls made to them, [CryptoLaws] what they promise.  A Rust
    [String] is a [string], bytes are a list of numbers. *)

From Stdlib Require Import String.
From stdpp Require Export strings pretty.
From S2P Require Import Prelude Bytes RecoveryKey.
Local Open Scope N_scope.

Definition ENVELOPE_VERSION : N := 1.
Definition ALGORITHM : string := "AES-256-GCM".
Definition SEPARATOR : N := 0x1F.
Definition SHARING_KEY_RESOURCE : string := "sharing-key".
Definition TEAM_ENTRY_LABEL : string := "team-entry".
Definition NONCE_LEN : nat := 12.

(** [char::from(SEPARATOR)], as a string. *)
Definition SEPARATOR_STR : string := String (Ascii.ascii_of_N SEPARATOR) EmptyString.

Inductive TeamRoute := RouteKey | MemberKeys | KeyEnvelopes | KeyRotate.
Definition route_as_str (r : TeamRoute) : string :=
  match r with
  | RouteKey => "key" | MemberKeys => "members/keys" | KeyEnvelopes => "key/envelopes" | KeyRotate => "key/rotate"
  end.

Inductive Kind := Settings | Keymap | Extensions.
#[export] Instance Kind_eq_dec : EqDecision Kind.
Proof. solve_decision. Defined.
Definition Kind_ALL : list Kind := [Settings; Keymap; Extensions].
Definition as_str (kind : Kind) : string :=
  match kind with Settings => "settings" | Keymap => "keymap" | Extensions => "extensions" end.

Inductive SyncCryptoError :=
  | WrongKey
  | KeyRotated (theirs ours : list N)
  | UnsupportedVersion (v : N)
  | Malformed (reason : string).

(** ** Resources *)
Record Resource := mkResource { r_path : string; r_aad_label : string; r_discriminator : option string }.
#[export] Instance Resource_eq_dec : EqDecision Resource.
Proof. solve_decision. Defined.

(** [u8::is_ascii_lowercase() || is_ascii_digit() || == b'-'] *)
Definition segment_byte (b : N) : bool :=
  ((97 <=? b) && (b <=? 122)) || ((48 <=? b) && (b <=? 57)) || (b =? 45).
Definition validated_segment (raw : string) : result SyncCryptoError string :=
  if (String.length raw =? 0)%nat || (64 <? String.length raw)%nat
  then Bad (Malformed ("resource segment length " +:+ pretty (String.length raw)))
  else if negb (forallb segment_byte (as_bytes raw))
  then Bad (Malformed "a resource segment is lowercase letters, digits and dashes")
  else Good raw.

Definition sync (kind : Kind) : Resource := mkResource ("sync/" +:+ as_str kind) (as_str kind) None.
Definition env_entry (entry_id : string) : result SyncCryptoError Resource :=
  entry_id ← validated_segment entry_id;
  Good (mkResource ("env/" +:+ entry_id) "env" (Some entry_id)).
Definition env_singleton (name : string) : result SyncCryptoError Resource :=
  _ ← validated_segment name;
  Good (mkResource ("sync/" +:+ name) name None).
Definition env_listing : Resource := mkResource "env" "env" None.
Definition sharing_key : Resource := mkResource ("sync/" +:+ SHARING_KEY_RESOURCE) SHARING_KEY_RESOURCE None.
Definition account_sharing_key : Resource :=
  mkResource ("account/" +:+ SHARING_KEY_RESOURCE) SHARING_KEY_RESOURCE None.
Definition team_entry (team_id entry_id : string) : result SyncCryptoError Resource :=
  team_id ← validated_segment team_id;
  entry_id ← validated_segment entry_id;
  Good (mkResource ("teams/" +:+ team_id +:+ "/vault/" +:+ entry_id) TEAM_ENTRY_LABEL
                   (Some (team_id +:+ SEPARATOR_STR +:+ entry_id))).
Definition team_listing (team_id : string) : result SyncCryptoError Resource :=
  team_id ← validated_segment team_id;
  Good (mkResource ("teams/" +:+ team_id +:+ "/vault") TEAM_ENTRY_LABEL None).
Definition team_route (team_id : string) (route : TeamRoute) : result SyncCryptoError Resource :=
  team_id ← validated_segment team_id;
  Good (mkResource ("teams/" +:+ team_id +:+ "/" +:+ route_as_str route) TEAM_ENTRY_LABEL None).

(** ** Envelopes *)
Record Envelope := mkEnvelope { e_v : N; e_alg : string; e_kid : string; e_nonce : string; e_ct : string }.

(** The calls to [ring], [sha2], [base64] and [serde_json]. *)
Class SyncCrypto := {
  sha256 : list N → list N;
  base64_encode : list N → string;
  base64_decode : string → option (list N);
  aead_seal : list N → list N → list N → list N → option (list N);
  aead_open : list N → list N → list N → list N → option (list N);
  json_of_envelope : Envelope → result string (list N);
  envelope_of_json : list N → result string Envelope }.

(** [SystemRandom::fill] on a buffer of the given length. *)
Class Rng (R : Type) := fill : nat → R → R * option (list N).

Section envelope.
Context `{SyncCrypto} {R : Type} `{!Rng R}.

Definition aad (user_id : string) (resource : Resource) (version : N) (kid : list N) : list N :=
  as_bytes user_id ++ [SEPARATOR] ++ as_bytes (r_aad_label resource) ++ [SEPARATOR] ++
  as_bytes (pretty version) ++ [SEPARATOR] ++ kid ++
  match r_discriminator resource with
  | Some discriminator => [SEPARATOR] ++ as_bytes discriminator
  | None => []
  end.

(** A key is its bytes. *)
Definition dek_kid (dek : list N) : list N := kid sha256 dek.
Definition sealing_key (dek : list N) : result SyncCryptoError (list N) :=
  if (length dek =? DEK_LEN)%nat then Good dek else Bad (Malformed "key length").

(** [try_into] a [[u8; n]] *)
Definition sized (n : nat) (bytes : list N) : option (list N) :=
  if (length bytes =? n)%nat then Some bytes else None.
Definition ok_or {E A} (o : option A) (e : E) : result E A := match o with Some a => Good a | None => Bad e end.

Definition encrypt_at (dek : list N) (user_id : string) (resource : Resource) (plaintext : list N) (rng : R)
    : R * result SyncCryptoError Envelope :=
  let kid := dek_kid dek in
  match fill NONCE_LEN rng with
  | (rng, None) => (rng, Bad (Malformed "no randomness available"))
  | (rng, Some nonce_bytes) =>
      (rng, key ← sealing_key dek;
            buffer ← ok_or (aead_seal key nonce_bytes (aad user_id resource ENVELOPE_VERSION kid) plaintext)
                           (Malformed "sealing failed");
            Good (mkEnvelope ENVELOPE_VERSION ALGORITHM (base64_encode kid) (base64_encode nonce_bytes) (base64_encode buffer)))
  end.
Definition encrypt (dek : list N) (user_id : string) (kind : Kind) (plaintext : list N) (rng : R)
    : R * result SyncCryptoError Envelope :=
  encrypt_at dek user_id (sync kind) plaintext rng.

Definition decrypt_at (dek : list N) (user_id : string) (resource : Resource) (envelope : Envelope)
    : result SyncCryptoError (list N) :=
  if negb (e_v envelope =? ENVELOPE_VERSION) then Bad (UnsupportedVersion (e_v envelope))
  else if negb (String.eqb (e_alg envelope) ALGORITHM) then Bad (Malformed ("algorithm " +:+ e_alg envelope))
  else theirs ← ok_or (base64_decode (e_kid envelope) ≫= sized KID_LEN) (Malformed "key fingerprint");
       let ours := dek_kid dek in
       if negb (bool_decide (theirs = ours)) then Bad (KeyRotated theirs ours)
       else nonce_bytes ← ok_or (base64_decode (e_nonce envelope) ≫= sized NONCE_LEN) (Malformed "nonce");
            buffer ← ok_or (base64_decode (e_ct envelope)) (Malformed "ciphertext");
            key ← sealing_key dek;
            ok_or (aead_open key nonce_bytes (aad user_id resource (e_v envelope) ours) buffer) WrongKey.
Definition decrypt (dek : list N) (user_id : string) (kind : Kind) (envelope : Envelope) : result SyncCryptoError (list N) :=
  decrypt_at dek user_id (sync kind) envelope.

Definition to_blob (envelope : Envelope) : result SyncCryptoError string :=
  json ← map_err Malformed (json_of_envelope envelope);
  Good (base64_encode json).
Definition from_blob (blob : string) : result SyncCryptoError Envelope :=
  json ← ok_or (base64_decode blob) (Malformed "blob is not base64");
  map_err Malformed (envelope_of_json json).
End envelope.

(** What the code relies on: base64 and JSON read back what they wrote, a digest has 32 bytes, the generator fills the buffer, and the cipher opens what it
    sealed and nothing else: under the same key and nonce a ciphertext opens only with the data it was sealed with. *)
Class CryptoLaws `{SyncCrypto} {R : Type} `{!Rng R} : Prop := {
  base64_roundtrip bytes : base64_decode (base64_encode bytes) = Some bytes;
  json_roundtrip envelope json : json_of_envelope envelope = Good json → envelope_of_json json = Good envelope;
  sha256_length bytes : length (sha256 bytes) = 32%nat;
  fill_length n (rng : R) rng' bytes : fill n rng = (rng', Some bytes) → length bytes = n;
  aead_roundtrip key nonce aad plaintext ciphertext :
    aead_seal key nonce aad plaintext = Some ciphertext → aead_open key nonce aad ciphertext = Some plaintext;
  aead_authentic key nonce aad aad' plaintext plaintext' ciphertext :
    aead_seal key nonce aad plaintext = Some ciphertext → aead_open key nonce aad' ciphertext = Some plaintext' → aad' = aad }.
Arguments CryptoLaws {_} R {_}.

(** ** Resources have one slot each *)

(** The resources something is encrypted for. *)
Inductive sealed_resource : Resource → Prop :=
  | sealed_sync kind : sealed_resource (sync kind)
  | sealed_env_entry entry_id r : env_entry entry_id = Good r → sealed_resource r
  | sealed_env_singleton name r : env_singleton name = Good r → sealed_resource r
  | sealed_sharing_key : sealed_resource sharing_key
  | sealed_team_entry team_id entry_id r : team_entry team_id entry_id = Good r → sealed_resource r.

Lemma validated_segment_good raw s : validated_segment raw = Good s →
  s = raw ∧ (0 < String.length raw <= 64)%nat ∧ forallb segment_byte (as_bytes raw) = true.
Proof.
  unfold validated_segment. destruct (Nat.eqb_spec (String.length raw) 0), (Nat.ltb_spec 64 (String.length raw)); cbn [orb]; try done.
  destruct (forallb _ _) eqn:E; [|done]. intros [= <-]. split; [done|]. split; [lia|done].
Qed.
Lemma segment_separator raw s : validated_segment raw = Good s → SEPARATOR ∉ as_bytes raw.
Proof.
  intros (_ & _ & Hf)%validated_segment_good Hin. rewrite forallb_forall in Hf. by specialize (Hf _ (proj1 (list_elem_of_In _ _) Hin)).
Qed.

Lemma sealed_form r : sealed_resource r →
  SEPARATOR ∉ as_bytes (r_aad_label r) ∧
  ((r_discriminator r = None ∧ r_path r = ("sync/" +:+ r_aad_label r)%string) ∨
   (∃ id, r = mkResource ("env/" +:+ id) "env" (Some id)) ∨
   (∃ team id, SEPARATOR ∉ as_bytes team ∧ r = mkResource ("teams/" +:+ team +:+ "/vault/" +:+ id) TEAM_ENTRY_LABEL (Some (team +:+ SEPARATOR_STR +:+ id)))).
Proof.
  assert (∀ s, forallb (fun b => negb (b =? SEPARATOR)) (as_bytes s) = true → SEPARATOR ∉ as_bytes s) as Hno.
  { intros s Hf Hin. rewrite forallb_forall in Hf. by specialize (Hf _ (proj1 (list_elem_of_In _ _) Hin)). }
  destruct 1 as [kind|entry_id r E|name r E| |team_id entry_id r E].
  - split; [by destruct kind; apply Hno|]. by left.
  - unfold env_entry in E. apply result_bind_good in E as (s & Hs & [= <-]). split; [by apply Hno|]. right. left. eauto.
  - unfold env_singleton in E. apply result_bind_good in E as (s & Hs & [= <-]). split; [by eapply segment_separator|]. by left.
  - split; [by apply Hno|]. by left.
  - unfold team_entry in E. apply result_bind_good in E as (t & Ht & E). apply result_bind_good in E as (e & He & [= <-]).
    split; [by apply Hno|]. right. right. apply validated_segment_good in Ht as Ht'. destruct Ht' as [-> _].
    exists team_id, e. split; [by eapply segment_separator|done].
Qed.

Lemma sealed_resource_inj r r' : sealed_resource r → sealed_resource r' →
  r_aad_label r = r_aad_label r' → r_discriminator r = r_discriminator r' → r = r'.
Proof.
  intros [_ Hr]%sealed_form [_ Hr']%sealed_form El Ed.
  destruct Hr as [[Hd Hp]|[[id ->]|(team & id & Hs & ->)]], Hr' as [[Hd' Hp']|[[id' ->]|(team' & id' & Hs' & ->)]]; cbn [r_aad_label r_discriminator r_path] in *; try congruence; try discriminate El.
  - destruct r, r'; cbn in *. congruence.
  - injection Ed as Ed. apply (f_equal as_bytes) in Ed. rewrite !as_bytes_app in Ed. change (as_bytes SEPARATOR_STR) with [SEPARATOR] in Ed.
    cbn [app] in Ed.
    apply (separator_splits SEPARATOR) in Ed as [<-%as_bytes_inj <-%as_bytes_inj]; done.
Qed.

(** ** The authenticated data determine the user and the resource *)
Lemma pretty_version : as_bytes (pretty ENVELOPE_VERSION) = [49].
Proof. reflexivity. Qed.

Lemma aad_inj u u' r r' k k' : SEPARATOR ∉ as_bytes u → SEPARATOR ∉ as_bytes u' → sealed_resource r → sealed_resource r' →
  length k = length k' → aad u r ENVELOPE_VERSION k = aad u' r' ENVELOPE_VERSION k' → u = u' ∧ r = r' ∧ k = k'.
Proof.
  intros Hu Hu' Hr Hr' Hk E. unfold aad in E. rewrite pretty_version in E. cbn [app] in E.
  apply (separator_splits SEPARATOR) in E as [->%as_bytes_inj E]; [|done..].
  apply (separator_splits SEPARATOR) in E as [El%as_bytes_inj E]; [|by apply sealed_form..].
  injection E as E. apply app_inj_1 in E as [-> Ed]; [|done]. split; [done|]. split; [|done].
  apply sealed_resource_inj; [done..|]. destruct (r_discriminator r), (r_discriminator r'); try done.
  injection Ed as Ed. by apply as_bytes_inj in Ed as ->.
Qed.

Section binding.
Context `{SyncCrypto} {R : Type} `{!Rng R, !CryptoLaws R}.

Lemma sized_some n bytes b : sized n bytes = Some b ↔ b = bytes ∧ length bytes = n.
Proof. unfold sized. destruct (Nat.eqb_spec (length bytes) n); naive_solver. Qed.
Lemma ok_or_good {E A} (o : option A) (e : E) a : ok_or o e = Good a ↔ o = Some a.
Proof. destruct o; cbn; naive_solver. Qed.
Lemma kid_length dek : length (dek_kid dek) = KID_LEN.
Proof. unfold dek_kid, kid. rewrite length_take, sha256_length. done. Qed.

(** What [encrypt_at] returns. *)
Lemma encrypt_at_good dek u r p rng rng' e : encrypt_at dek u r p rng = (rng', Good e) →
  length dek = DEK_LEN ∧ ∃ n c, length n = NONCE_LEN ∧ aead_seal dek n (aad u r ENVELOPE_VERSION (dek_kid dek)) p = Some c ∧
    e = mkEnvelope ENVELOPE_VERSION ALGORITHM (base64_encode (dek_kid dek)) (base64_encode n) (base64_encode c).
Proof.
  unfold encrypt_at. destruct (fill NONCE_LEN rng) as [rng0 [n|]] eqn:Hf; [|done]. intros [= -> E].
  apply result_bind_good in E as (key & Hkey & E). unfold sealing_key in Hkey. destruct (Nat.eqb_spec (length dek) DEK_LEN); [|done].
  injection Hkey as ->. apply result_bind_good in E as (c & Hc%ok_or_good & [= <-]). split; [done|]. exists n, c.
  split; [by eapply fill_length|done].
Qed.
(** Reading an envelope of [encrypt_at]. *)
Lemma decrypt_sealed dek dek' u r n c :
  length n = NONCE_LEN →
  decrypt_at dek u r (mkEnvelope ENVELOPE_VERSION ALGORITHM (base64_encode (dek_kid dek')) (base64_encode n) (base64_encode c)) =
  if bool_decide (dek_kid dek' = dek_kid dek)
  then key ← sealing_key dek; ok_or (aead_open key n (aad u r ENVELOPE_VERSION (dek_kid dek)) c) WrongKey
  else Bad (KeyRotated (dek_kid dek') (dek_kid dek)).
Proof.
  intros Hn. unfold decrypt_at. cbn [e_v e_alg e_kid e_nonce e_ct]. rewrite N.eqb_refl, String.eqb_refl. cbn [negb].
  rewrite !base64_roundtrip. cbn [mbind option_bind ok_or]. rewrite (proj2 (sized_some KID_LEN _ _) (conj eq_refl (kid_length dek'))).
  cbn [mbind result_bind ok_or]. destruct (bool_decide _); [|done]. cbn [negb]. rewrite (proj2 (sized_some NONCE_LEN n n) (conj eq_refl Hn)). done.
Qed.

Lemma encrypt_decrypt dek u r p rng rng' e : encrypt_at dek u r p rng = (rng', Good e) → decrypt_at dek u r e = Good p.
Proof.
  intros (Hl & n & c & Hn & Hc & ->)%encrypt_at_good. rewrite decrypt_sealed by done. rewrite bool_decide_true by done.
  unfold sealing_key. rewrite (proj2 (Nat.eqb_eq _ _) Hl). cbn [mbind result_bind]. by rewrite (aead_roundtrip _ _ _ _ _ Hc).
Qed.

Lemma blob_roundtrip e b : to_blob e = Good b → from_blob b = Good e.
Proof.
  unfold to_blob, from_blob. intros (json & Hj & [= <-])%result_bind_good. rewrite base64_roundtrip. cbn [ok_or mbind result_bind].
  destruct (json_of_envelope e) eqn:Hj'; [|done]. injection Hj as ->. by rewrite (json_roundtrip _ _ Hj').
Qed.

(** C27: An envelope opens again where it was sealed; under the same key it opens nowhere else, neither for another user nor in another slot
    of the server; and under a key with another fingerprint it is reported as written with another key, whatever the slot. *)
Theorem envelope_binding (dek : list N) (u : string) (r : Resource) (p : list N) (rng rng' : R) (e : Envelope) :
  SEPARATOR ∉ as_bytes u → sealed_resource r → encrypt_at dek u r p rng = (rng', Good e) →
  decrypt_at dek u r e = Good p ∧
  (∀ u' r' p', SEPARATOR ∉ as_bytes u' → sealed_resource r' → decrypt_at dek u' r' e = Good p' → u' = u ∧ r' = r ∧ p' = p) ∧
  (∀ dek' u' r', dek_kid dek' ≠ dek_kid dek → decrypt_at dek' u' r' e = Bad (KeyRotated (dek_kid dek) (dek_kid dek'))).
Proof.
  intros Hu Hr He. pose proof (encrypt_decrypt _ _ _ _ _ _ _ He) as Hd. split; [done|].
  apply encrypt_at_good in He as (Hl & n & c & Hn & Hc & ->). split.
  - intros u' r' p' Hu' Hr' Hd'. assert (u' = u ∧ r' = r) as [-> ->]; [|split; [done|]; split; congruence].
    rewrite decrypt_sealed in Hd' by done. rewrite bool_decide_true in Hd' by done. unfold sealing_key in Hd'.
    rewrite (proj2 (Nat.eqb_eq _ _) Hl) in Hd'. cbn [mbind result_bind] in Hd'. apply ok_or_good in Hd'.
    pose proof (aead_authentic _ _ _ _ _ _ _ Hc Hd') as Ha. by apply aad_inj in Ha as (-> & -> & _).
  - intros dek' u' r' Hk. rewrite decrypt_sealed by done. by rewrite bool_decide_false.
Qed.
End binding.
