(* ===== verification/SyncClient.v ===== *)
(** * Requests to the sync service: [crates/zode_sync/src/client.rs], [crates/zode_account/src/plan.rs]

    A document is read with GET and written with a conditional PUT.  The HTTP client and JSON are third-party code, the service is remote:
    [HttpClient] and [WireJson] are the calls made.  A call that reaches the service returns the network it leaves and its result. *)

From Stdlib Require Import String Ascii.
From S2P Require Import Prelude Bytes RecoveryKey SyncEnvelope.
Local Open Scope N_scope.

(** ** Plan limits *)
Inductive PlanLimitReason :=
  | SyncDeviceLimit
  | EnvSyncNotInPlan
  | TeamVaultNotInPlan
  | TeamInactive
  | Other (slug : string).
Record PlanLimit := mkPlanLimit {
  pl_reason : PlanLimitReason; pl_limit : option N; pl_used : option N; pl_upgrade_url : string }.
Record RefusalBody := mkRefusalBody {
  rb_error : string; rb_limit : option N; rb_used : option N; rb_upgrade_url : option string }.

(** [str::trim_end_matches('/')], [str::strip_prefix] *)
Fixpoint trim_end_slashes (s : string) : string :=
  match s with
  | EmptyString => EmptyString
  | String c s =>
      match trim_end_slashes s with
      | EmptyString => if Ascii.eqb c "/"%char then EmptyString else String c EmptyString
      | t => String c t
      end
  end.
Fixpoint str_strip_prefix (prefix s : string) : option string :=
  match prefix, s with
  | EmptyString, _ => Some s
  | String x prefix, String y s => if Ascii.eqb x y then str_strip_prefix prefix s else None
  | String _ _, EmptyString => None
  end.

Definition PRICING_PATH : string := "/pricing".
Definition web_page (web_url path : string) : string := trim_end_slashes web_url +:+ path.
(** [rest.is_empty() || rest.starts_with(['/', '?', '#'])] *)
Definition ends_origin (rest : string) : bool :=
  match rest with
  | EmptyString => true
  | String c _ => Ascii.eqb c "/"%char || Ascii.eqb c "?"%char || Ascii.eqb c "#"%char
  end.
Definition on_web_origin (candidate web_url : string) : bool :=
  let origin := trim_end_slashes web_url in
  if String.eqb origin "" then false
  else match str_strip_prefix origin candidate with Some rest => ends_origin rest | None => false end.
Definition web_link (candidate : option string) (web_url path : string) : string :=
  match candidate with
  | Some candidate => if on_web_origin candidate web_url then candidate else web_page web_url path
  | None => web_page web_url path
  end.

(** ** Documents and errors *)
Record RemoteDocument := mkDocument { d_blob : string; d_revision : string }.
#[export] Instance RemoteDocument_eq_dec : EqDecision RemoteDocument.
Proof. solve_decision. Defined.

Inductive ClientError :=
  | Unreachable (detail : string)
  | Unauthorized
  | Rejected (detail : string)
  | PlanLimited (limit : PlanLimit).

Inductive WriteOutcome :=
  | Stored (revision : string)
  | WriteConflict (document : RemoteDocument)
  | Gone.
Inductive Precondition :=
  | Create
  | Replace (revision : string).

(** ** Requests *)
Record Request := mkRequest {
  q_method : string; q_uri : string; q_headers : list (string * string); q_body : string }.

Class WireJson := {
  json_of_put : string → option string;
  document_of_json : string → option (string * string);
  stored_of_json : string → option string;
  error_of_json : string → option string;
  refusal_of_json : string → option RefusalBody }.

(** [request_ok] is whether [http::request::Builder] accepts the request.  [http_send] returns the status and the body of the answer: [None] when the endpoint
    could not be reached, no body when it could not be read. *)
Class HttpClient (Net : Type) := {
  request_ok : Request → bool;
  http_send : Request → Net → Net * option (N * option string) }.

Record Endpoint := mkEndpoint { api_url : string; access_token : string; web_url : string }.

Section client.
Context `{WireJson} {Net : Type} `{!HttpClient Net}.

Definition plan_reason (error : option string) : PlanLimitReason :=
  match error with
  | Some slug =>
      if String.eqb slug "sync_device_limit" then SyncDeviceLimit
      else if String.eqb slug "env_sync_not_in_plan" then EnvSyncNotInPlan
      else if String.eqb slug "team_vault_not_in_plan" then TeamVaultNotInPlan
      else if String.eqb slug "team_inactive" then TeamInactive
      else Other slug
  | None => Other "http_402"
  end.
Definition plan_limit_from_body (body web_url : string) : PlanLimit :=
  let parsed := refusal_of_json body in
  mkPlanLimit (plan_reason (rb_error <$> parsed)) (parsed ≫= rb_limit) (parsed ≫= rb_used)
              (web_link (parsed ≫= rb_upgrade_url) web_url PRICING_PATH).

Definition classify (ep : Endpoint) (status : N) (body : string) : result ClientError unit :=
  if (200 <=? status) && (status <? 300) then Good ()
  else if (status =? 401) || (status =? 403) then Bad Unauthorized
  else if status =? 402 then Bad (PlanLimited (plan_limit_from_body body (web_url ep)))
  else if 500 <=? status then Bad (Unreachable ("the server answered " +:+ pretty status))
  else Bad (Rejected (default ("http_" +:+ pretty status)%string (error_of_json body))).

Definition build (ep : Endpoint) (resource : Resource) (method : string) : Request :=
  mkRequest method (api_url ep +:+ "/" +:+ r_path resource)
            [("Accept", "application/json"); ("Authorization", "Bearer " +:+ access_token ep)]%string "".
Definition header (name value : string) (r : Request) : Request :=
  mkRequest (q_method r) (q_uri r) (q_headers r ++ [(name, value)]) (q_body r).
Definition with_body (body : string) (r : Request) : result ClientError Request :=
  let r := mkRequest (q_method r) (q_uri r) (q_headers r) body in
  if request_ok r then Good r else Bad (Unreachable "the request could not be built").

Definition send (request : Request) (net : Net) : Net * result ClientError (N * string) :=
  match http_send request net with
  | (net, None) => (net, Bad (Unreachable "the endpoint could not be reached"))
  | (net, Some (_, None)) => (net, Bad (Unreachable "the response could not be read"))
  | (net, Some (status, Some body)) => (net, Good (status, body))
  end.

Definition fetch_body (ep : Endpoint) (resource : Resource) (net : Net) : Net * result ClientError (option string) :=
  match with_body "" (build ep resource "GET") with
  | Bad e => (net, Bad e)
  | Good request =>
      let '(net, answer) := send request net in
      (net, '(status, body) ← answer;
            if status =? 404 then Good None
            else _ ← classify ep status body; Good (Some body))
  end.

Definition unusable_json : ClientError := Rejected "the sync service answered with unusable JSON".
Definition fetch (ep : Endpoint) (resource : Resource) (net : Net) : Net * result ClientError (option RemoteDocument) :=
  let '(net, answer) := fetch_body ep resource net in
  (net, body ← answer;
        match body with
        | None => Good None
        | Some body => '(blob, revision) ← ok_or (document_of_json body) unusable_json;
                       Good (Some (mkDocument blob revision))
        end).

Definition put_request (ep : Endpoint) (resource : Resource) (blob : string) (precondition : Precondition)
    : result ClientError Request :=
  payload ← ok_or (json_of_put blob) (Unreachable "the request could not be built");
  let builder := header "Content-Type" "application/json" (build ep resource "PUT") in
  with_body payload
    match precondition with
    | Create => header "If-None-Match" "*" builder
    | Replace revision => header "If-Match" revision builder
    end.
Definition put_answer (ep : Endpoint) (status : N) (body : string) : result ClientError WriteOutcome :=
  if status =? 409
  then '(blob, revision) ← ok_or (document_of_json body) (Rejected "the sync service answered a conflict without a document");
       Good (WriteConflict (mkDocument blob revision))
  else if status =? 404 then Good Gone
  else _ ← classify ep status body;
       revision ← ok_or (stored_of_json body) unusable_json;
       Good (Stored revision).
Definition store (ep : Endpoint) (resource : Resource) (blob : string) (precondition : Precondition) (net : Net)
    : Net * result ClientError WriteOutcome :=
  match put_request ep resource blob precondition with
  | Bad e => (net, Bad e)
  | Good request =>
      let '(net, answer) := send request net in
      (net, '(status, body) ← answer; put_answer ep status body)
  end.

Definition forget (ep : Endpoint) (resource : Resource) (net : Net) : Net * result ClientError unit :=
  match with_body "" (build ep resource "DELETE") with
  | Bad e => (net, Bad e)
  | Good request =>
      let '(net, answer) := send request net in
      (net, '(status, body) ← answer; if status =? 404 then Good () else classify ep status body)
  end.

(** [client::request]: the answer is left to the caller. *)
Definition raw_request (ep : Endpoint) (resource : Resource) (method : string) (json_body : option string) (headers : list (string * string))
    (net : Net) : Net * result ClientError (N * string) :=
  let builder := foldl (fun builder '(name, value) => header name value builder) (build ep resource method) headers in
  match match json_body with
        | Some json => with_body json (header "Content-Type" "application/json" builder)
        | None => with_body "" builder
        end with
  | Bad e => (net, Bad e)
  | Good request => send request net
  end.
End client.

(** * What the sync service promises

    The service is not part of the program.  [SyncServer] gives the history of each of its slots, newest write first, each marked as made through this
    machine's connection or by another machine; [ServerLaws] says what the protocol promises: a read returns the newest document, a write takes
    effect only where its precondition holds, and revisions are never reused.  Other machines may write before any request is
    served; an answer may be lost after a write took effect. *)

Record Write := mkWrite { wr_mine : bool; wr_doc : option RemoteDocument }.
Class SyncServer (Net : Type) := history : Net → string → list Write.

Definition current (h : list Write) : option RemoteDocument := match h with w :: _ => wr_doc w | [] => None end.
Definition documents (h : list Write) : list RemoteDocument := omap wr_doc h.
Definition revisions (h : list Write) : list string := d_revision <$> documents h.
Definition allowed (p : Precondition) (c : option RemoteDocument) : Prop :=
  match p with
  | Create => c = None
  | Replace revision => ∃ d, c = Some d ∧ d_revision d = revision
  end.
(** Other machines took the slot from [h] to [h']. *)
Definition others (h h' : list Write) : Prop := ∃ l, h' = l ++ h ∧ Forall (fun w => wr_mine w = false) l.

Definition precondition_of (q : Request) : option Precondition :=
  match filter (fun nv => nv.1 = "If-None-Match" ∨ nv.1 = "If-Match")%string (q_headers q) with
  | [("If-None-Match", _)]%string => Some Create
  | [("If-Match", revision)]%string => Some (Replace revision)
  | _ => None
  end.
Definition success (status : N) : bool := (200 <=? status) && (status <? 300).

Class ServerLaws {Net : Type} `{WireJson, !HttpClient Net, !SyncServer Net} : Prop := {
  revisions_unique net uri : NoDup (revisions (history net uri));
  server_get q net net' answer :
    q_method q = "GET"%string → http_send q net = (net', answer) →
    (∀ uri, others (history net uri) (history net' uri)) ∧
    ∀ status body, answer = Some (status, Some body) →
      (status = 404 → current (history net' (q_uri q)) = None) ∧
      (success status = true → ∀ blob revision, document_of_json body = Some (blob, revision) →
         current (history net' (q_uri q)) = Some (mkDocument blob revision));
  server_put q net net' answer blob precondition :
    q_method q = "PUT"%string → json_of_put blob = Some (q_body q) → precondition_of q = Some precondition →
    http_send q net = (net', answer) →
    (∀ uri, uri ≠ q_uri q → others (history net uri) (history net' uri)) ∧
    ∃ h, others (history net (q_uri q)) h ∧
    ((history net' (q_uri q) = h ∧
      ∀ status body, answer = Some (status, Some body) →
        success status = false ∧ (status = 404 → current h = None) ∧
        (status = 409 → ∀ blob revision, document_of_json body = Some (blob, revision) → current h = Some (mkDocument blob revision))) ∨
     (∃ revision, history net' (q_uri q) = mkWrite true (Some (mkDocument blob revision)) :: h ∧ allowed precondition (current h) ∧
      ∀ status body, answer = Some (status, Some body) →
        status ≠ 404 ∧ status ≠ 409 ∧ (success status = true → ∀ r, stored_of_json body = Some r → r = revision))) }.
Arguments ServerLaws Net {_ _ _}.

Lemma others_refl h : others h h.
Proof. exists []. by split. Qed.
Lemma others_trans h1 h2 h3 : others h1 h2 → others h2 h3 → others h1 h3.
Proof. intros (l & -> & Hl) (k & -> & Hk). exists (k ++ l). rewrite <-app_assoc. split; [done|by apply Forall_app]. Qed.

(** ** The client *)
Section client.
Context {Net : Type} `{WireJson, !HttpClient Net, !SyncServer Net, !ServerLaws Net}.

Definition slot_uri (ep : Endpoint) (resource : Resource) : string := (api_url ep +:+ "/" +:+ r_path resource)%string.

Lemma with_body_good body q q' : with_body body q = Good q' →
  q' = mkRequest (q_method q) (q_uri q) (q_headers q) body.
Proof. unfold with_body. destruct (request_ok _); [by intros [= <-]|done]. Qed.
Lemma classify_success ep status body u : classify ep status body = Good u → success status = true.
Proof.
  unfold classify, success. destruct ((200 <=? status) && (status <? 300)); [done|]. destruct ((status =? 401) || (status =? 403)); [done|].
  destruct (status =? 402); [done|]. by destruct (500 <=? status).
Qed.

(** A read changes nothing, and what it returns was the newest document when it was served. *)
Lemma fetch_spec ep resource net net' r : fetch ep resource net = (net', r) →
  (∀ uri, others (history net uri) (history net' uri)) ∧
  (∀ document, r = Good document → current (history net' (slot_uri ep resource)) = document).
Proof.
  unfold fetch, fetch_body. destruct (with_body "" (build ep resource "GET")) as [q|e] eqn:Hq;
    [|intros [= <- <-]; split; [intros; apply others_refl|done]].
  apply with_body_good in Hq as ->. cbn [q_method q_uri q_headers build]. unfold send. set (q := mkRequest _ _ _ _).
  destruct (http_send q net) as [net1 answer] eqn:Hs. destruct (server_get q net net1 answer eq_refl Hs) as [Ho Ha].
  destruct answer as [[status [body|]]|]; intros [= <- <-]; (split; [done|]); [|done|done].
  specialize (Ha _ _ eq_refl) as [H404 Hok]. change (q_uri q) with (slot_uri ep resource) in *. intros document. cbn [mbind result_bind].
  destruct (N.eqb_spec status 404) as [->|_]; cbn [mbind result_bind]; [intros [= <-]; by apply H404|].
  destruct (classify ep status body) as [u|] eqn:Hc; cbn [mbind result_bind]; [|done]. apply classify_success in Hc.
  destruct (document_of_json body) as [[blob revision]|] eqn:Hd; cbn; [|done]. intros [= <-]. by apply Hok.
Qed.

(** A write takes effect at most once, where its precondition holds; what it returns says whether it did. *)
Definition put_effect (blob : string) (p : Precondition) (h h' : list Write) (r : result ClientError WriteOutcome) : Prop :=
  ∃ h1, others h h1 ∧
  ((h' = h1 ∧ match r with
              | Good (Stored _) => False
              | Good (WriteConflict d) => current h1 = Some d
              | Good Gone => current h1 = None
              | Bad _ => True
              end) ∨
   (∃ revision, h' = mkWrite true (Some (mkDocument blob revision)) :: h1 ∧ allowed p (current h1) ∧
    match r with Good (Stored stored) => stored = revision | Good _ => False | Bad _ => True end)).

Lemma put_request_good ep resource blob p q : put_request ep resource blob p = Good q →
  q_method q = "PUT"%string ∧ q_uri q = slot_uri ep resource ∧ json_of_put blob = Some (q_body q) ∧ precondition_of q = Some p.
Proof.
  unfold put_request. intros (payload & Hp & Hq)%result_bind_good. apply ok_or_good in Hp. apply with_body_good in Hq as ->.
  by destruct p.
Qed.
Lemma store_spec ep resource blob p net net' r : store ep resource blob p net = (net', r) →
  (∀ uri, uri ≠ slot_uri ep resource → others (history net uri) (history net' uri)) ∧
  put_effect blob p (history net (slot_uri ep resource)) (history net' (slot_uri ep resource)) r.
Proof.
  unfold store. destruct (put_request ep resource blob p) as [q|e] eqn:Hq; last first.
  { intros [= <- <-]. split; [intros; apply others_refl|]. eexists. split; [apply others_refl|]. by left. }
  apply put_request_good in Hq as (Hm & Hu & Hb & Hp). unfold send. destruct (http_send q net) as [net1 answer] eqn:Hs.
  destruct (server_put q net net1 answer blob p Hm Hb Hp Hs) as (Ho & h & Hh & Hd). rewrite Hu in *. clear Hs.
  assert (∀ r, (∀ o, r ≠ Good o) → put_effect blob p (history net (slot_uri ep resource)) (history net1 (slot_uri ep resource)) r) as Hbad.
  { intros r0 Hr0. exists h. split; [done|]. destruct Hd as [[? _]|(revision & ? & ? & _)]; [left|right; exists revision]; destruct r0; naive_solver. }
  destruct answer as [[status [body|]]|]; intros [= <- <-]; (split; [done|]); [|by apply Hbad..].
  cbn [mbind result_bind]. destruct (put_answer ep status body) as [o|e] eqn:Ha; [|by apply Hbad]. unfold put_answer in Ha.
  exists h. split; [done|]. destruct Hd as [[Hn Hd]|(revision & Hn & Hal & Hd)]; specialize (Hd _ _ eq_refl).
  - left. split; [done|]. destruct Hd as (Hf & H404 & H409).
    destruct (N.eqb_spec status 409) as [->|_].
    { apply result_bind_good in Ha as ([blob' revision'] & Hj%ok_or_good & [= <-]). by apply H409. }
    destruct (N.eqb_spec status 404) as [->|_]; [injection Ha as <-; by apply H404|].
    apply result_bind_good in Ha as (u & Hc%classify_success & _). by rewrite Hc in Hf.
  - right. exists revision. split; [done|]. split; [done|]. destruct Hd as (H404 & H409 & Hok).
    rewrite (proj2 (N.eqb_neq _ _) H404), (proj2 (N.eqb_neq _ _) H409) in Ha.
    apply result_bind_good in Ha as (u & Hc%classify_success & Ha). apply result_bind_good in Ha as (r & Hr%ok_or_good & [= <-]). by apply Hok.
Qed.
End client.
