(* ===== verification/SyncFiles.v ===== *)
(** * Local files: [crates/zode_sync/src/artifact.rs], [state.rs], [diff.rs]

    The files a machine syncs, the copies made before they are replaced, and [sync_state.json], which records what the machine and the
    server last agreed on.  [std::fs] is modelled as a map from paths to contents with a list of faults to come: a call may fail, a write that fails may
    leave a part of the content, and a crash stops the machine between any two calls or in the middle of a write.  A path is the list of its components, all of them names.  JSON and
    the line diff are third-party code. *)

From Stdlib Require Import String Ascii.
From stdpp Require Export gmap.
From S2P Require Import Prelude Bytes RecoveryKey SyncEnvelope.
Local Open Scope N_scope.

(** ** Paths *)
Definition Path : Type := list string.
Definition parent (p : Path) : option Path := match p with [] => None | _ => Some (removelast p) end.

(** The position of the last dot of a file name, where it separates an extension. *)
Fixpoint split_last_dot (s : string) : option (string * string) :=
  match s with
  | EmptyString => None
  | String c s =>
      match split_last_dot s with
      | Some (stem, ext) => Some (String c stem, ext)
      | None => if Ascii.eqb c "."%char then Some (EmptyString, s) else None
      end
  end.
Definition file_stem_ext (name : string) : string * option string :=
  match split_last_dot name with
  | Some (String c stem, ext) => (String c stem, Some ext)
  | _ => (name, None)
  end.
Definition extension (p : Path) : option string := (file_stem_ext (List.last p "")).2.
Definition with_extension (ext : string) (p : Path) : Path :=
  match p with
  | [] => []
  | _ => let stem := (file_stem_ext (List.last p "")).1 in
         removelast p ++ [if String.eqb ext "" then stem else (stem +:+ "." +:+ ext)%string]
  end.

(** ** The file system *)
Inductive Fault :=
  | Fails (partial : option string)
  | Crash (partial : option string).
Record Fs := mkFs { fs_files : gmap Path string; fs_faults : list (option Fault) }.

Inductive IoError := NotFound | InvalidInput | IoFailed.

(** The fault of the next call.  After a crash no call has an effect. *)
Definition next_fault (fs : Fs) : Fs * option Fault :=
  match fs_faults fs with
  | [] => (fs, None)
  | Some (Crash partial) :: _ => (mkFs (fs_files fs) [Some (Crash None)], Some (Crash partial))
  | fault :: faults => (mkFs (fs_files fs) faults, fault)
  end.
Definition set_file (p : Path) (content : string) (fs : Fs) : Fs := mkFs (<[p := content]> (fs_files fs)) (fs_faults fs).
Definition unset_file (p : Path) (fs : Fs) : Fs := mkFs (delete p (fs_files fs)) (fs_faults fs).

Definition fs_call (A : Type) : Type := Fs → Fs * result IoError A.

(** [std::fs::read_to_string], [create_dir_all], [write], [rename], [remove_file] *)
Definition read_to_string (p : Path) : fs_call string := fun fs =>
  match next_fault fs with
  | (fs, None) => (fs, ok_or (fs_files fs !! p) NotFound)
  | (fs, Some _) => (fs, Bad IoFailed)
  end.
Definition create_dir_all (p : Path) : fs_call unit := fun fs =>
  match next_fault fs with
  | (fs, None) => (fs, Good ())
  | (fs, Some _) => (fs, Bad IoFailed)
  end.
Definition fs_write (p : Path) (content : string) : fs_call unit := fun fs =>
  match next_fault fs with
  | (fs, None) => (set_file p content fs, Good ())
  | (fs, Some (Fails (Some partial) | Crash (Some partial))) => (set_file p partial fs, Bad IoFailed)
  | (fs, Some (Fails None | Crash None)) => (fs, Bad IoFailed)
  end.
Definition move_file (from to : Path) : fs_call unit := fun fs =>
  match fs_files fs !! from with
  | None => (fs, Bad NotFound)
  | Some content => (set_file to content (unset_file from fs), Good ())
  end.
Definition rename (from to : Path) : fs_call unit := fun fs =>
  match next_fault fs with
  | (fs, None) => move_file from to fs
  | (fs, Some (Crash (Some _))) => ((move_file from to fs).1, Bad IoFailed)
  | (fs, Some _) => (fs, Bad IoFailed)
  end.
Definition remove_file (p : Path) : fs_call unit := fun fs =>
  match next_fault fs with
  | (fs, None) => match fs_files fs !! p with
                  | None => (fs, Bad NotFound)
                  | Some _ => (unset_file p fs, Good ())
                  end
  | (fs, Some _) => (fs, Bad IoFailed)
  end.

(** ** Artifacts *)
Record Artifact := mkArtifact { a_kind : Kind; a_path : Path; a_backup_path : option Path }.

(** The files [paths] names, an argument of [for_kind]. *)
Record ConfigPaths := mkConfigPaths {
  settings_file : Path; settings_backup_file : Path; keymap_file : Path; keymap_backup_file : Path }.
Definition for_kind (paths : ConfigPaths) (kind : Kind) : Artifact :=
  match kind with
  | Settings => mkArtifact kind (settings_file paths) (Some (settings_backup_file paths))
  | Keymap => mkArtifact kind (keymap_file paths) (Some (keymap_backup_file paths))
  | Extensions => mkArtifact kind [] None
  end.

Definition read (p : Path) : fs_call (option string) := fun fs =>
  match read_to_string p fs with
  | (fs, Good content) => (fs, Good (Some content))
  | (fs, Bad NotFound) => (fs, Good None)
  | (fs, Bad error) => (fs, Bad error)
  end.

Definition temporary_path (p : Path) : Path := with_extension (default "" (extension p) +:+ ".tmp") p.
Definition write_atomic (p : Path) (content : string) : fs_call unit := fun fs =>
  match parent p with
  | None => (fs, Bad InvalidInput)
  | Some parent =>
      match create_dir_all parent fs with
      | (fs, Bad error) => (fs, Bad error)
      | (fs, Good _) =>
          let temporary := temporary_path p in
          match fs_write temporary content fs with
          | (fs, Bad error) => (fs, Bad error)
          | (fs, Good _) =>
              match rename temporary p fs with
              | (fs, Good _) => (fs, Good ())
              | (fs, Bad error) => ((remove_file temporary fs).1, Bad error)
              end
          end
      end
  end.

Definition back_up (artifact : Artifact) : fs_call unit := fun fs =>
  match a_backup_path artifact with
  | None => (fs, Good ())
  | Some backup_path =>
      match read (a_path artifact) fs with
      | (fs, Bad error) => (fs, Bad error)
      | (fs, Good None) => (fs, Good ())
      | (fs, Good (Some current)) => write_atomic backup_path current fs
      end
  end.

(** [format!("{:x}", digest)] *)
Definition hex_digit (n : N) : string :=
  default "" (String.get (N.to_nat n) "0123456789abcdef" ≫= fun c => Some (String c EmptyString)).
Definition lower_hex (bytes : list N) : string :=
  foldr (fun b s => (hex_digit (b / 16) +:+ hex_digit (b `mod` 16) +:+ s)%string) "" bytes.
Definition hash `{SyncCrypto} (content : string) : string := lower_hex (sha256 (as_bytes content)).

(** ** The sync state *)
Record SyncedAt := mkSyncedAt { sy_revision : string; sy_local_hash : string }.
#[export] Instance SyncedAt_eq_dec : EqDecision SyncedAt.
Proof. solve_decision. Defined.
Definition SyncState : Type := gmap string SyncedAt.

Class StateJson := {
  json_of_state : SyncState → option string;
  state_of_json : string → option SyncState }.

Inductive SaveError := NotSerialized | NotWritten (e : IoError).

Section state.
Context `{StateJson}.

Definition load (p : Path) (fs : Fs) : Fs * SyncState :=
  match read p fs with
  | (fs, Good (Some raw)) => (fs, default ∅ (state_of_json raw))
  | (fs, _) => (fs, ∅)
  end.
Definition save (state : SyncState) (p : Path) (fs : Fs) : Fs * result SaveError unit :=
  match json_of_state state with
  | None => (fs, Bad NotSerialized)
  | Some raw => let '(fs, r) := write_atomic p raw fs in (fs, map_err NotWritten r)
  end.
Definition state_get (state : SyncState) (kind : Kind) : option SyncedAt := state !! as_str kind.
Definition state_record (state : SyncState) (kind : Kind) (revision local_hash : string) : SyncState :=
  <[as_str kind := mkSyncedAt revision local_hash]> state.
Definition state_forget (state : SyncState) (kind : Kind) : SyncState := delete (as_str kind) state.
End state.

(** ** Differences *)
Record TextDiff := mkTextDiff { td_unified : string; td_added : N; td_removed : N }.
Definition diff_is_empty (d : TextDiff) : bool := (td_added d =? 0) && (td_removed d =? 0).

(** [imara_diff::diff] with [UnifiedDiffBuilder] *)
Class LineDiff := unified_diff : string → string → string.

(** [str::lines]: a line ends with a line feed, or with a carriage return and a line feed. *)
Fixpoint lines (s : string) : list string :=
  match s with
  | EmptyString => []
  | String "010" s => EmptyString :: lines s
  | String "013" (String "010" s) => EmptyString :: lines s
  | String c s => match lines s with
                  | [] => [String c EmptyString]
                  | line :: rest => String c line :: rest
                  end
  end.

Definition count_line (counts : N * N) (line : string) : N * N :=
  let '(added, removed) := counts in
  if String.prefix "+++" line || String.prefix "---" line then (added, removed)
  else match line with
       | String c _ => if Ascii.eqb c "+"%char then (added + 1, removed)
                       else if Ascii.eqb c "-"%char then (added, removed + 1)
                       else (added, removed)
       | EmptyString => (added, removed)
       end.
Definition between `{LineDiff} (local remote : string) : TextDiff :=
  let unified := unified_diff local remote in
  let '(added, removed) := fold_left count_line (lines unified) (0, 0) in
  mkTextDiff unified added removed.

(** * Local files survive faults

    [write_atomic] leaves the old content or the new one whatever fails; the state file is read back as it was saved. *)

(** ** Paths *)
Lemma append_cons c s t : (String c s +:+ t)%string = String c (s +:+ t).
Proof. reflexivity. Qed.
Lemma str_length_app s t : String.length (s +:+ t) = (String.length s + String.length t)%nat.
Proof. induction s as [|c s IH]; [done|]. rewrite append_cons. cbn [String.length]. by rewrite IH. Qed.
Lemma split_last_dot_some s stem ext : split_last_dot s = Some (stem, ext) → s = (stem +:+ "." +:+ ext)%string.
Proof.
  revert stem ext. induction s as [|c s IH]; intros stem ext; cbn [split_last_dot]; [done|].
  destruct (split_last_dot s) as [[stem' ext']|]; [intros [= <- <-]; by rewrite (IH _ _ eq_refl)|].
  destruct (Ascii.eqb_spec c "."%char) as [->|]; [|done]. by intros [= <- <-].
Qed.
Lemma temporary_path_ne p : p ≠ [] → temporary_path p ≠ p.
Proof.
  intros Hp. unfold temporary_path, with_extension, extension. destruct p as [|x p] using rev_ind; [done|]. clear IHp.
  destruct (p ++ [x]) eqn:E; [done|]. rewrite <-E, last_last, removelast_last. intros [_ [= Hx]]%app_inj_2; [|done]. revert Hx.
  assert (∀ stem e, (stem +:+ "." +:+ e +:+ ".tmp")%string = x → (x = stem ∨ x = stem +:+ "." +:+ e)%string → False) as Hlong.
  { intros stem e E1 [E2|E2]; rewrite E2 in E1; apply (f_equal String.length) in E1; rewrite !str_length_app in E1; cbn in E1; lia. }
  assert (∀ e, String.eqb (e +:+ ".tmp")%string "" = false) as Hne.
  { intros e. apply String.eqb_neq. intros E1%(f_equal String.length). rewrite str_length_app in E1. cbn in E1. lia. }
  rewrite Hne. unfold file_stem_ext. destruct (split_last_dot x) as [[[|c stem] ext]|] eqn:Hs; cbn [fst snd default from_option id]; intros Hx;
    apply Hlong in Hx; auto. right. by apply split_last_dot_some.
Qed.

(** ** Calls *)
Lemma next_fault_files fs : fs_files (next_fault fs).1 = fs_files fs.
Proof. unfold next_fault. by destruct (fs_faults fs) as [|[[]|] ]. Qed.

(** [call] changes no file but those at [paths]. *)
Definition touches (paths : list Path) (fs fs' : Fs) : Prop := ∀ q, q ∉ paths → fs_files fs' !! q = fs_files fs !! q.
Lemma touches_refl paths fs : touches paths fs fs.
Proof. done. Qed.
Lemma touches_trans paths paths' fs1 fs2 fs3 :
  touches paths fs1 fs2 → touches paths' fs2 fs3 → touches (paths ++ paths') fs1 fs3.
Proof. intros H1 H2 q. rewrite not_elem_of_app. intros [? ?]. rewrite H2, H1; done. Qed.
Lemma touches_weaken paths paths' fs fs' : paths ⊆ paths' → touches paths fs fs' → touches paths' fs fs'.
Proof. intros Hs Ht q Hq. apply Ht. set_solver. Qed.

Lemma read_to_string_files p fs fs' r : read_to_string p fs = (fs', r) →
  fs_files fs' = fs_files fs ∧ (∀ c, r = Good c → fs_files fs !! p = Some c) ∧ (r = Bad NotFound → fs_files fs !! p = None).
Proof.
  unfold read_to_string. pose proof (next_fault_files fs) as Hf. destruct (next_fault fs) as [fs1 [f|]]; cbn [fst] in Hf; intros [= <- <-].
  - done.
  - rewrite Hf. split; [done|]. destruct (fs_files fs !! p); cbn; naive_solver.
Qed.
Lemma read_files p fs fs' r : read p fs = (fs', r) → fs_files fs' = fs_files fs ∧ (∀ c, r = Good c → fs_files fs !! p = c).
Proof.
  unfold read. destruct (read_to_string p fs) as [fs1 r1] eqn:E. apply read_to_string_files in E as (Hf & Hg & Hn).
  destruct r1 as [c|[]]; intros [= <- <-]; naive_solver.
Qed.
Lemma create_dir_all_files p fs fs' r : create_dir_all p fs = (fs', r) → fs_files fs' = fs_files fs.
Proof.
  unfold create_dir_all. pose proof (next_fault_files fs) as Hf. destruct (next_fault fs) as [fs1 [f|]]; by intros [= <- _].
Qed.
Lemma fs_write_files p c fs fs' r : fs_write p c fs = (fs', r) →
  touches [p] fs fs' ∧ (r = Good () → fs_files fs' !! p = Some c).
Proof.
  unfold fs_write. pose proof (next_fault_files fs) as Hf. destruct (next_fault fs) as [fs1 f]; cbn [fst] in Hf.
  assert (∀ d, touches [p] fs (set_file p d fs1)) as Ht.
  { intros d q Hq. cbn. rewrite lookup_insert_ne by set_solver. by rewrite Hf. }
  assert (touches [p] fs fs1) as Ht1 by (intros q _; by rewrite Hf).
  destruct f as [[[d|]|[d|]]|]; intros [= <- <-]; split; try done. intros _. apply lookup_insert_eq.
Qed.
Lemma rename_files a b fs fs' r : a ≠ b → rename a b fs = (fs', r) →
  touches [a; b] fs fs' ∧ (r = Good () → fs_files fs' !! b = fs_files fs !! a ∧ fs_files fs' !! a = None) ∧
  (fs_files fs' !! b = fs_files fs !! b ∨ fs_files fs' !! b = fs_files fs !! a ∧ is_Some (fs_files fs !! a)).
Proof.
  intros Hab. unfold rename. pose proof (next_fault_files fs) as Hf. destruct (next_fault fs) as [fs1 f]; cbn [fst] in Hf.
  assert (touches [a; b] fs fs1) as Ht1 by (intros q _; by rewrite Hf).
  assert (∀ c, fs_files fs !! a = Some c → touches [a; b] fs (set_file b c (unset_file a fs1)) ∧
    fs_files (set_file b c (unset_file a fs1)) !! b = Some c ∧ fs_files (set_file b c (unset_file a fs1)) !! a = None) as Hm.
  { intros c Hc. split_and!; cbn.
    - intros q Hq. cbn. rewrite lookup_insert_ne, lookup_delete_ne by set_solver. by rewrite Hf.
    - apply lookup_insert_eq.
    - rewrite lookup_insert_ne by done. apply lookup_delete_eq. }
  unfold move_file. rewrite Hf. destruct f as [[[d|]|[d|]]|]; destruct (fs_files fs !! a) as [c|] eqn:Hc; cbn [fst snd];
    intros [= <- <-]; try (specialize (Hm c eq_refl) as (? & ? & ?)); split_and!; try done; rewrite ?Hf; eauto.
Qed.
Lemma remove_file_files p fs fs' r : remove_file p fs = (fs', r) → touches [p] fs fs'.
Proof.
  unfold remove_file. pose proof (next_fault_files fs) as Hf. destruct (next_fault fs) as [fs1 [f|]]; cbn [fst] in Hf.
  - intros [= <- _] q _. by rewrite Hf.
  - destruct (fs_files fs1 !! p); intros [= <- _] q Hq; cbn; [rewrite lookup_delete_ne by set_solver|]; by rewrite Hf.
Qed.

(** A file is replaced as a whole or left as it was, whatever fails and wherever the machine stops; success means it is replaced and no temporary file is left. *)
Lemma write_atomic_files p c fs fs' r : write_atomic p c fs = (fs', r) →
  touches [p; temporary_path p] fs fs' ∧
  (fs_files fs' !! p = fs_files fs !! p ∨ fs_files fs' !! p = Some c) ∧
  (r = Good () → fs_files fs' !! p = Some c ∧ fs_files fs' !! temporary_path p = None).
Proof.
  unfold write_atomic. destruct (parent p) as [dir|] eqn:Hp; [|intros [= <- <-]; split_and!; [done|by left|done]].
  assert (temporary_path p ≠ p) as Hne by (apply temporary_path_ne; by intros ->).
  destruct (create_dir_all dir fs) as [fs1 r1] eqn:E1. apply create_dir_all_files in E1.
  destruct r1 as [|e]; [|intros [= <- <-]; split_and!; [intros q _; by rewrite E1|left; by rewrite E1|done]].
  destruct (fs_write (temporary_path p) c fs1) as [fs2 r2] eqn:E2. apply fs_write_files in E2 as [Ht2 Hg2].
  assert (touches [p; temporary_path p] fs fs2) as Ht by (intros q Hq; rewrite Ht2 by set_solver; by rewrite E1).
  assert (fs_files fs2 !! p = fs_files fs !! p) as Hp2 by (rewrite Ht2 by set_solver; by rewrite E1).
  destruct r2 as [u|e]; [|intros [= <- <-]; split_and!; [done|by left|done]]. destruct u. specialize (Hg2 eq_refl).
  destruct (rename (temporary_path p) p fs2) as [fs3 r3] eqn:E3. apply rename_files in E3 as (Ht3 & Hg3 & Ho3); [|done].
  assert (touches [p; temporary_path p] fs fs3) as Ht' by (intros q Hq; rewrite Ht3 by set_solver; by apply Ht).
  rewrite Hg2, Hp2 in *. destruct r3 as [u|e].
  - destruct u. destruct (Hg3 eq_refl) as [Hb Ha]. intros [= <- <-]. split_and!; [done|by right|done].
  - destruct (remove_file (temporary_path p) fs3) as [fs4 r4] eqn:E4. apply remove_file_files in E4. intros [= <- <-].
    cbn [fst]. split_and!; [|rewrite E4 by set_solver; naive_solver|done]. intros q Hq. rewrite E4 by set_solver. by apply Ht'.
Qed.

(** ** The state file *)
Section state.
Context `{StateJson}.

Lemma as_str_inj kind kind' : as_str kind = as_str kind' → kind = kind'.
Proof. by destruct kind, kind'. Qed.
Lemma state_get_empty kind : state_get ∅ kind = None.
Proof. exact (lookup_empty (M := gmap string) _). Qed.
Lemma state_get_record state kind revision local_hash kind' :
  state_get (state_record state kind revision local_hash) kind' =
  if decide (kind' = kind) then Some (mkSyncedAt revision local_hash) else state_get state kind'.
Proof.
  unfold state_get, state_record. case_decide as Hk; [subst; exact (lookup_insert_eq (M := gmap string) _ _ _)|].
  apply (lookup_insert_ne (M := gmap string)). intros ?%as_str_inj. congruence.
Qed.

(** What the file says, once it can be read. *)
Definition stored_state (p : Path) (fs : Fs) : SyncState :=
  match fs_files fs !! p with Some raw => default ∅ (state_of_json raw) | None => ∅ end.

Lemma load_files p fs fs' state : load p fs = (fs', state) → fs_files fs' = fs_files fs ∧ (state = stored_state p fs ∨ state = ∅).
Proof.
  unfold load, stored_state. destruct (read p fs) as [fs1 r] eqn:E. apply read_files in E as [Hf Hr].
  destruct r as [[raw|]|e]; intros [= <- <-]; split; try done; auto. rewrite (Hr _ eq_refl). by left.
Qed.

Class StateLaws : Prop := state_roundtrip state raw : json_of_state state = Some raw → state_of_json raw = Some state.
Context `{!StateLaws}.

Lemma save_files state p fs fs' r : save state p fs = (fs', r) →
  touches [p; temporary_path p] fs fs' ∧
  (stored_state p fs' = stored_state p fs ∨ stored_state p fs' = state) ∧ (r = Good () → stored_state p fs' = state).
Proof.
  unfold save. destruct (json_of_state state) as [raw|] eqn:Hj; [|intros [= <- <-]; split_and!; [done|by left|done]].
  destruct (write_atomic p raw fs) as [fs1 r1] eqn:E. apply write_atomic_files in E as (Ht & Ho & Hg). intros [= <- <-].
  assert (fs_files fs1 !! p = Some raw → stored_state p fs1 = state) as Hs.
  { intros Hp. unfold stored_state. by rewrite Hp, (state_roundtrip _ _ Hj). }
  split; [done|]. split; [destruct Ho as [Ho|Ho]; [left; unfold stored_state; by rewrite Ho|right; auto]|].
  destruct r1 as [u|]; [|done]. destruct u. intros _. apply Hs. by apply Hg.
Qed.
End state.
Arguments StateLaws {_}.

(** ** Artifacts are backed up *)
Lemma back_up_files artifact fs fs' r : back_up artifact fs = (fs', r) →
  (match a_backup_path artifact with Some b => touches [b; temporary_path b] fs fs' | None => fs' = fs end) ∧
  (r = Good () → ∀ b c, a_backup_path artifact = Some b → fs_files fs !! a_path artifact = Some c → fs_files fs' !! b = Some c).
Proof.
  unfold back_up. destruct (a_backup_path artifact) as [b|]; [|by intros [= <- <-]].
  destruct (read (a_path artifact) fs) as [fs1 r1] eqn:E. apply read_files in E as [Hf Hr].
  assert (∀ l, touches l fs fs1) as Ht1 by (intros l q _; by rewrite Hf).
  destruct r1 as [[c|]|e].
  - intros (Ht & _ & Hg)%write_atomic_files. split; [intros q Hq; by rewrite Ht, Hf|].
    intros ->. intros b' c' [= <-]. rewrite (Hr _ eq_refl). intros [= <-]. by apply Hg.
  - intros [= <- <-]. split; [done|]. intros _ b' c' _. by rewrite (Hr _ eq_refl).
  - by intros [= <- <-].
Qed.
