(* ===== verification/SyncEngine.v ===== *)
(** * Pulling and pushing: [crates/zode_sync/src/sync.rs]

    A pull decides how the server's document relates to the local file and writes nothing but agreement; applying a document is
    a separate call; a push is a write conditional on the revision the machine last agreed on.  An operation runs on the machine's world: its
    files, its connection, its random numbers and the application's own state, which only callbacks change.  The text of an I/O error is its cause and what was attempted. *)

From Stdlib Require Import String.
From S2P Require Import Prelude Bytes RecoveryKey SyncEnvelope SyncClient SyncFiles.
Local Open Scope N_scope.

Record World (Net R App : Type) := mkWorld { w_fs : Fs; w_net : Net; w_rng : R; w_app : App }.
Arguments mkWorld {_ _ _} _ _ _ _.
Arguments w_fs {_ _ _} _.
Arguments w_net {_ _ _} _.
Arguments w_rng {_ _ _} _.
Arguments w_app {_ _ _} _.

Inductive SyncError :=
  | Client (e : ClientError)
  | Crypto (e : SyncCryptoError)
  | Io (attempt : string) (cause : SaveError).

(** An operation of the machine, which may fail. *)
Definition op (Net R App E A : Type) : Type := World Net R App → World Net R App * result E A.
#[export] Instance op_ret {Net R App E} : MRet (op Net R App E) := fun _ a w => (w, Good a).
#[export] Instance op_bind {Net R App E} : MBind (op Net R App E) := fun _ _ f m w =>
  match m w with
  | (w, Good a) => f a w
  | (w, Bad e) => (w, Bad e)
  end.

Section ops.
Context {Net R App : Type}.

Definition on_net {A} (call : Net → Net * result ClientError A) : op Net R App SyncError A := fun w =>
  let '(net, r) := call (w_net w) in (mkWorld (w_fs w) net (w_rng w) (w_app w), map_err Client r).
Definition on_rng {A} (call : R → R * result SyncCryptoError A) : op Net R App SyncError A := fun w =>
  let '(rng, r) := call (w_rng w) in (mkWorld (w_fs w) (w_net w) rng (w_app w), map_err Crypto r).
Definition on_fs {A} (attempt : string) (call : fs_call A) : op Net R App SyncError A := fun w =>
  let '(fs, r) := call (w_fs w) in (mkWorld fs (w_net w) (w_rng w) (w_app w), map_err (fun e => Io attempt (NotWritten e)) r).
Definition lift {A} (r : result SyncError A) : op Net R App SyncError A := fun w => (w, r).
End ops.

Record Divergence := mkDivergence { dv_diff : TextDiff; dv_remote : string; dv_revision : string }.
Inductive PullOutcome :=
  | PullUpToDate
  | LocalOnly
  | RemoteNewer (d : Divergence)
  | PullConflict (d : Divergence)
  | KeyMismatch (e : SyncCryptoError).
Inductive PushOutcome :=
  | PushStored (revision : string)
  | PushUpToDate
  | PushConflict (d : Divergence)
  | NothingToPush.

(** [String::from_utf8], on bytes that are a string's. *)
Class Utf8Text := text_of_bytes : list N → option string.

Record SyncContext := mkContext { c_endpoint : Endpoint; c_user_id : string }.

Definition NOT_RECORDED : string := "could not record the sync state".

Section engine.
Context `{SyncCrypto, WireJson, StateJson, LineDiff, Utf8Text} {Net R App : Type} `{!HttpClient Net, !Rng R}.
Implicit Types (context : SyncContext) (dek : list N) (kind : Kind) (local remote revision : string) (state_path : Path).

Definition load_state (state_path : Path) : op Net R App SyncError SyncState := fun w =>
  let '(fs, state) := load state_path (w_fs w) in (mkWorld fs (w_net w) (w_rng w) (w_app w), Good state).
Definition save_state (attempt : string) (state : SyncState) (state_path : Path) : op Net R App SyncError unit := fun w =>
  let '(fs, r) := save state state_path (w_fs w) in
  (mkWorld fs (w_net w) (w_rng w) (w_app w), map_err (Io attempt) r).

Definition decrypt_document context dek kind (blob : string) : result SyncCryptoError string :=
  envelope ← from_blob blob;
  plaintext ← decrypt dek (c_user_id context) kind envelope;
  ok_or (text_of_bytes plaintext) (Malformed "the decrypted content is not text").

Definition record kind revision local state_path : op Net R App SyncError unit :=
  state ← load_state state_path;
  save_state NOT_RECORDED (state_record state kind revision (hash local)) state_path.

Definition read_local (artifact : Artifact) : op Net R App SyncError string :=
  content ← on_fs "could not read the local file" (read (a_path artifact));
  mret (default "" content).

Definition store_text context dek kind (plaintext : string) (precondition : Precondition) : op Net R App SyncError WriteOutcome :=
  envelope ← on_rng (encrypt dek (c_user_id context) kind (as_bytes plaintext));
  blob ← lift (map_err Crypto (to_blob envelope));
  on_net (store (c_endpoint context) (sync kind) blob precondition).

Definition pull_content context dek kind local state_path : op Net R App SyncError PullOutcome :=
  document ← on_net (fetch (c_endpoint context) (sync kind));
  match document with
  | None => mret LocalOnly
  | Some document =>
      match decrypt_document context dek kind (d_blob document) with
      | Bad error => mret (KeyMismatch error)
      | Good remote =>
          let local_hash := hash local in
          if bool_decide (local_hash = hash remote)
          then state ← load_state state_path;
               _ ← save_state NOT_RECORDED (state_record state kind (d_revision document) local_hash) state_path;
               mret PullUpToDate
          else
            let divergence := mkDivergence (between local remote) remote (d_revision document) in
            state ← load_state state_path;
            let unchanged_since_sync :=
              match state_get state kind with
              | Some synced => bool_decide (sy_local_hash synced = local_hash)
              | None => false
              end in
            mret (if unchanged_since_sync then RemoteNewer divergence else PullConflict divergence)
      end
  end.
Definition pull context dek (artifact : Artifact) state_path : op Net R App SyncError PullOutcome :=
  local ← read_local artifact;
  pull_content context dek (a_kind artifact) local state_path.

Definition apply_remote (artifact : Artifact) remote revision state_path : op Net R App SyncError unit :=
  _ ← on_fs "could not back up the current file, so it was not replaced" (back_up artifact);
  _ ← on_fs "could not write the file" (write_atomic (a_path artifact) remote);
  record (a_kind artifact) revision remote state_path.

Definition push_content context dek kind local state_path : op Net R App SyncError PushOutcome :=
  state ← load_state state_path;
  let precondition := match state_get state kind with
                      | Some synced => Replace (sy_revision synced)
                      | None => Create
                      end in
  outcome ← store_text context dek kind local precondition;
  match outcome with
  | Stored revision =>
      _ ← record kind revision local state_path;
      mret (PushStored revision)
  | WriteConflict document =>
      remote ← lift (map_err Crypto (decrypt_document context dek kind (d_blob document)));
      if bool_decide (hash remote = hash local)
      then _ ← record kind (d_revision document) local state_path;
           mret PushUpToDate
      else mret (PushConflict (mkDivergence (between local remote) remote (d_revision document)))
  | Gone =>
      outcome ← store_text context dek kind local Create;
      match outcome with
      | Stored revision =>
          _ ← record kind revision local state_path;
          mret (PushStored revision)
      | WriteConflict document =>
          remote ← lift (map_err Crypto (decrypt_document context dek kind (d_blob document)));
          mret (PushConflict (mkDivergence (between local remote) remote (d_revision document)))
      | Gone => lift (Bad (Client (Rejected "the sync service could neither replace nor create the document")))
      end
  end.
Definition push context dek (artifact : Artifact) state_path : op Net R App SyncError PushOutcome :=
  local ← on_fs "could not read the local file" (read (a_path artifact));
  match local with
  | None => mret NothingToPush
  | Some local => push_content context dek (a_kind artifact) local state_path
  end.

Definition overwrite_remote_content context dek kind local revision state_path : op Net R App SyncError PushOutcome :=
  outcome ← store_text context dek kind local (Replace revision);
  match outcome with
  | Stored revision =>
      _ ← record kind revision local state_path;
      mret (PushStored revision)
  | WriteConflict document =>
      remote ← lift (map_err Crypto (decrypt_document context dek kind (d_blob document)));
      mret (PushConflict (mkDivergence (between local remote) remote (d_revision document)))
  | Gone => mret NothingToPush
  end.
Definition overwrite_remote context dek (artifact : Artifact) revision state_path : op Net R App SyncError PushOutcome :=
  local ← on_fs "could not read the local file" (read (a_path artifact));
  match local with
  | None => mret NothingToPush
  | Some local => overwrite_remote_content context dek (a_kind artifact) local revision state_path
  end.
End engine.
