(* ===== verification/SyncSafety.v ===== *)
(** * Nothing is overwritten unseen

    The operations of [SyncEngine] against a service that keeps [ServerLaws], with files that may fail at any call: whatever this machine replaces on the
    server, its user held or was shown. *)

From Stdlib Require Import String.
From stdpp Require Import relations.
From S2P Require Import Prelude Bytes RecoveryKey SyncEnvelope SyncClient SyncFiles SyncEngine.
Local Open Scope N_scope.

(** ** Running an operation *)
Section runs.
Context {Net R App : Type}.

(** [m] run from [w] ends in a world and with a result that satisfy [Q]. *)
Definition runs {E A} (m : op Net R App E A) (w : World Net R App) (Q : World Net R App → result E A → Prop) : Prop := Q (m w).1 (m w).2.

Lemma runs_mono {E A} (m : op Net R App E A) w (Q Q' : World Net R App → result E A → Prop) :
  runs m w Q → (∀ w' r, Q w' r → Q' w' r) → runs m w Q'.
Proof. unfold runs. auto. Qed.
Lemma runs_ret {E A} (a : A) w (Q : World Net R App → result E A → Prop) : Q w (Good a) → runs (mret a) w Q.
Proof. done. Qed.
Lemma runs_bind {E A B} (m : op Net R App E A) (f : A → op Net R App E B) w (Q : World Net R App → result E B → Prop) :
  runs m w (fun w r => match r with Good a => runs (f a) w Q | Bad e => Q w (Bad e) end) → runs (m ≫= f) w Q.
Proof. cbv [runs mbind op_bind]. by destruct (m w) as [w1 [a|e]]. Qed.
Lemma runs_lift {A} (r : result SyncError A) w (Q : World Net R App → result SyncError A → Prop) : Q w r → runs (lift r) w Q.
Proof. done. Qed.
Lemma runs_eq {E A} (m : op Net R App E A) w w' r (Q : World Net R App → result E A → Prop) : runs m w Q → m w = (w', r) → Q w' r.
Proof. unfold runs. intros HQ Hm. by rewrite Hm in HQ. Qed.
End runs.

(** [run_with lem] runs the head of a sequence with its specification [lem]. *)
Tactic Notation "run_with" uconstr(lem) := first [eapply runs_mono; [eapply lem|] | apply runs_bind; eapply runs_mono; [eapply lem|]]; cbn beta.

(** ** What this machine wrote *)

(** [P] of the document replaced, if any, and the one written, for each write of this machine that took the slot from [h] to [h']. *)
Definition own_writes (P : option RemoteDocument → RemoteDocument → Prop) (h h' : list Write) : Prop :=
  ∃ l, h' = l ++ h ∧ ∀ k w k', l = k ++ w :: k' → wr_mine w = true → ∃ d, wr_doc w = Some d ∧ P (current (k' ++ h)) d.

Section own_writes.
Implicit Types (P : option RemoteDocument → RemoteDocument → Prop) (h : list Write).

Lemma own_writes_refl P h : own_writes P h h.
Proof. exists []. split; [done|]. by intros [|] ? ?. Qed.
Lemma own_writes_trans P h1 h2 h3 : own_writes P h1 h2 → own_writes P h2 h3 → own_writes P h1 h3.
Proof.
  intros (l & -> & Hl) (k & -> & Hk). exists (k ++ l). rewrite <-app_assoc. split; [done|]. intros k1 w k2 E Hw.
  apply app_eq_inv in E as [(m & -> & E)|(m & -> & ->)].
  - destruct m as [|w' m]; cbn in E.
    + apply (Hl [] w k2); [done|done].
    + injection E as -> ->. destruct (Hk k1 w' m eq_refl Hw) as (d & Hd & HP). exists d. by rewrite <-app_assoc.
  - by apply (Hl m w k2).
Qed.
Lemma own_writes_others P h h' : others h h' → own_writes P h h'.
Proof.
  intros (l & -> & Hl). exists l. split; [done|]. intros k w k' -> Hw. apply Forall_app in Hl as [_ Hl]. apply Forall_cons in Hl as [Hl _]. congruence.
Qed.
Lemma own_writes_one P h d : P (current h) d → own_writes P h (mkWrite true (Some d) :: h).
Proof.
  intros HP. exists [mkWrite true (Some d)]. split; [done|]. intros [|w0 k] w k' E Hw; [|destruct k; discriminate E].
  injection E as <- <-. by exists d.
Qed.
Lemma own_writes_mono P P' h h' : own_writes P h h' → (∀ c d, P c d → P' c d) → own_writes P' h h'.
Proof. intros (l & -> & Hl) HP. exists l. split; [done|]. intros k w k' E Hw. destruct (Hl k w k' E Hw) as (d & ? & ?). eauto. Qed.
Lemma own_writes_mono_in P P' h h' : own_writes P h h' →
  (∀ c d, (∀ x, c = Some x → x ∈ omap wr_doc h') → P c d → P' c d) → own_writes P' h h'.
Proof.
  intros (l & -> & Hl) HP. exists l. split; [done|]. intros k w k' E Hw. destruct (Hl k w k' E Hw) as (d & Hd & HPd). exists d.
  split; [done|]. apply HP; [|done]. intros x Hx. subst l. rewrite <-app_assoc. rewrite omap_app. apply elem_of_app. right. cbn.
  rewrite Hd. right. destruct (k' ++ h) as [|[m o] t]; [done|]. cbn in *. subst o. by left.
Qed.
Lemma own_writes_grows P h h' : own_writes P h h' → ∃ l, h' = l ++ h.
Proof. intros (l & -> & _). by exists l. Qed.

Lemma documents_grow h h' d : (∃ l, h' = l ++ h) → d ∈ documents h → d ∈ documents h'.
Proof. intros [l ->] Hd. unfold documents in *. rewrite omap_app. apply elem_of_app. by right. Qed.
Lemma current_documents h d : current h = Some d → d ∈ documents h.
Proof. destruct h as [|[m o] h]; [done|]. cbn. intros ->. cbn. by left. Qed.
Lemma revision_unique h d d' : NoDup (revisions h) → d ∈ documents h → d' ∈ documents h → d_revision d = d_revision d' → d = d'.
Proof.
  unfold revisions. intros Hn Hd Hd' E. apply list_elem_of_lookup in Hd as [i Hi]. apply list_elem_of_lookup in Hd' as [j Hj].
  assert (i = j) as ->; [|congruence]. eapply NoDup_lookup; [done|rewrite list_lookup_fmap, Hi; done|].
  rewrite list_lookup_fmap, Hj. cbn. by rewrite E.
Qed.
End own_writes.

(** [String::from_utf8] reads the bytes of a string. *)
Class TextLaws `{Utf8Text} : Prop := text_roundtrip s : text_of_bytes (as_bytes s) = Some s.

Section engine_facts.
Context {crypto : SyncCrypto} {wire : WireJson} {sj : StateJson} {ld : LineDiff} {utf8 : Utf8Text}.
Context {Net R App : Type} {http : HttpClient Net} {rng : Rng R} {srv : SyncServer Net}.
Context {CL : CryptoLaws R} {SL : ServerLaws Net} {JL : StateLaws} {TL : TextLaws}.
Context (context : SyncContext) (state_path : Path).
Implicit Types (w : World Net R App) (kind : Kind) (local remote revision : string) (dek : list N).

Definition uri_of kind : string := slot_uri (c_endpoint context) (sync kind).
Definition hist w kind : list Write := history (w_net w) (uri_of kind).
Definition state_of w : SyncState := stored_state state_path (w_fs w).

(** *** Steps *)
Lemma fetch_runs resource w :
  runs (on_net (fetch (c_endpoint context) resource)) w (fun w' r =>
    w_fs w' = w_fs w ∧ w_app w' = w_app w ∧ (∀ uri, others (history (w_net w) uri) (history (w_net w') uri)) ∧
    ∀ document, r = Good document → current (history (w_net w') (slot_uri (c_endpoint context) resource)) = document).
Proof.
  unfold runs, on_net. destruct (fetch _ resource (w_net w)) as [net r] eqn:E. apply fetch_spec in E as [Ho Hc]. cbn.
  split_and!; [done..|]. intros document Hr. apply Hc. by destruct r; inversion Hr.
Qed.

(** The document [put_effect] writes, as the machine sees it. *)
Definition wrote (Q : string → Prop) (p : Precondition) (h h' : list Write) (r : result SyncError WriteOutcome) : Prop :=
  ∃ h1, others h h1 ∧
  ((h' = h1 ∧ match r with
              | Good (Stored _) => False
              | Good (WriteConflict d) => current h1 = Some d
              | Good Gone => current h1 = None
              | Bad _ => True
              end) ∨
   (∃ d, h' = mkWrite true (Some d) :: h1 ∧ allowed p (current h1) ∧ Q (d_blob d) ∧
    match r with Good (Stored stored) => stored = d_revision d | Good _ => False | Bad _ => True end)).

Lemma store_runs resource blob p (Q : string → Prop) w : Q blob →
  runs (on_net (store (c_endpoint context) resource blob p)) w (fun w' r =>
    w_fs w' = w_fs w ∧ w_app w' = w_app w ∧
    (∀ uri, uri ≠ slot_uri (c_endpoint context) resource → others (history (w_net w) uri) (history (w_net w') uri)) ∧
    wrote Q p (history (w_net w) (slot_uri (c_endpoint context) resource)) (history (w_net w') (slot_uri (c_endpoint context) resource)) r).
Proof.
  intros HQ. unfold runs, on_net. destruct (store _ resource blob p (w_net w)) as [net r] eqn:E.
  apply store_spec in E as (Ho & h1 & Hh & Hd). cbn [fst snd w_fs w_app w_net]. split_and!; [done..|]. exists h1. split; [done|].
  destruct Hd as [[-> Hr]|(rev & -> & Ha & Hr)]; [left|right; exists (mkDocument blob rev)]; split_and!; try done; by destruct r.
Qed.
Lemma encrypt_runs dek u resource p w :
  runs (on_rng (encrypt_at dek u resource p)) w (fun w' r =>
    w_fs w' = w_fs w ∧ w_app w' = w_app w ∧ w_net w' = w_net w ∧ ∀ e, r = Good e → decrypt_at dek u resource e = Good p).
Proof.
  unfold runs, on_rng. destruct (encrypt_at _ _ _ _ (w_rng w)) as [g r] eqn:E. cbn. split_and!; [done..|]. intros e Hr.
  destruct r; inversion Hr; subst. by eapply encrypt_decrypt.
Qed.

(** A text is stored as a document that decrypts to it. *)
Lemma store_text_runs dek kind text p w :
  runs (store_text context dek kind text p) w (fun w' r =>
    w_fs w' = w_fs w ∧ w_app w' = w_app w ∧
    (∀ uri, uri ≠ uri_of kind → others (history (w_net w) uri) (history (w_net w') uri)) ∧
    wrote (fun blob => decrypt_document context dek kind blob = Good text) p (hist w kind) (hist w' kind) r).
Proof.
  assert (∀ w' e, w_net w' = w_net w → wrote (fun blob => decrypt_document context dek kind blob = Good text) p (hist w kind) (hist w' kind) (Bad e)) as Hbad.
  { intros w' e En. exists (hist w kind). split; [apply others_refl|]. left. split; [|done]. unfold hist. by rewrite En. }
  unfold store_text. run_with encrypt_runs. intros w1 [e|e] (Hf & Ha & Hn & Hd); last first.
  { split_and!; [done..| |by apply Hbad]. intros. rewrite Hn. apply others_refl. }
  apply runs_bind, runs_lift. destruct (to_blob e) as [blob|e'] eqn:Hb; cbn [map_err]; last first.
  { split_and!; [done..| |by apply Hbad]. intros. rewrite Hn. apply others_refl. }
  eapply runs_mono; [apply (store_runs (sync kind) blob p (fun blob => decrypt_document context dek kind blob = Good text))|].
  { unfold decrypt_document. rewrite (blob_roundtrip _ _ Hb). cbn [mbind result_bind]. unfold decrypt. rewrite (Hd _ eq_refl).
    cbn [mbind result_bind]. by rewrite text_roundtrip. }
  cbn beta. intros w2 r. by rewrite Hf, Ha, Hn.
Qed.

(** Reading and recording the sync state. *)
Lemma load_state_runs w :
  runs (load_state state_path) w (fun w' r => w_net w' = w_net w ∧ w_app w' = w_app w ∧ touches [] (w_fs w) (w_fs w') ∧
    ∃ state, r = Good state ∧ ∀ kind s, state_get state kind = Some s → state_get (state_of w) kind = Some s).
Proof.
  unfold runs, load_state. destruct (load state_path (w_fs w)) as [fs state] eqn:E. apply load_files in E as [Hf Hs].
  cbn. split_and!; [done..|intros q _; by rewrite Hf|]. exists state. split; [done|]. intros kind s. destruct Hs as [->| ->]; [done|].
  by rewrite state_get_empty.
Qed.
Lemma touches_state_of w w' : touches [] (w_fs w) (w_fs w') → state_of w' = state_of w.
Proof. intros Ht. unfold state_of, stored_state. rewrite Ht; [done|]. apply not_elem_of_nil. Qed.

(** The sync state of [w'] is that of [w] but for an entry [s] of [kind]. *)
Definition recorded kind (s : SyncedAt) w w' : Prop :=
  ∀ kind' s', state_get (state_of w') kind' = Some s' → state_get (state_of w) kind' = Some s' ∨ (kind' = kind ∧ s' = s).
Lemma save_state_runs attempt state kind revision local_hash w :
  (∀ kind s, state_get state kind = Some s → state_get (state_of w) kind = Some s) →
  runs (save_state attempt (state_record state kind revision local_hash) state_path) w (fun w' r =>
    w_net w' = w_net w ∧ w_app w' = w_app w ∧ touches [state_path; temporary_path state_path] (w_fs w) (w_fs w') ∧
    recorded kind (mkSyncedAt revision local_hash) w w' ∧
    (r = Good () → state_get (state_of w') kind = Some (mkSyncedAt revision local_hash))).
Proof.
  intros Hst. unfold runs, save_state. destruct (save _ state_path (w_fs w)) as [fs r] eqn:E. apply save_files in E as (Ht & Ho & Hg).
  cbn [fst snd w_net w_app w_fs]. split_and!; [done..| |].
  - intros kind' s'. unfold state_of. cbn [w_fs]. destruct Ho as [->| ->]; [by left|]. rewrite state_get_record.
    case_decide; [intros [= <-]; by right|]. intros Hs. left. by apply Hst.
  - destruct r as [u|]; [|done]. destruct u. intros _. unfold state_of. cbn [w_fs]. by rewrite (Hg eq_refl), state_get_record, decide_True.
Qed.
Lemma record_runs kind revision local w :
  runs (record kind revision local state_path) w (fun w' r =>
    w_net w' = w_net w ∧ w_app w' = w_app w ∧ touches [state_path; temporary_path state_path] (w_fs w) (w_fs w') ∧
    recorded kind (mkSyncedAt revision (hash local)) w w' ∧
    (r = Good () → state_get (state_of w') kind = Some (mkSyncedAt revision (hash local)))).
Proof.
  unfold record. run_with load_state_runs. intros w1 r1 (Hn & Ha & Ht & state & -> & Hs). pose proof (touches_state_of _ _ Ht) as E.
  run_with (save_state_runs NOT_RECORDED state kind revision (hash local)); [by rewrite E|].
  intros w2 r (Hn2 & Ha2 & Ht2 & Hr & Hg). split_and!; [congruence..| | |done].
  - intros q Hq. rewrite Ht2 by done. apply Ht, not_elem_of_nil.
  - intros kind' s'. rewrite <-E. apply Hr.
Qed.

(** *** Operations *)

(** A document of the history with this revision decrypts to this text. *)
Definition backed dek kind (h : list Write) revision (text : string) : Prop :=
  ∃ d, d ∈ documents h ∧ d_revision d = revision ∧ decrypt_document context dek kind (d_blob d) = Good text.
Lemma backed_grows dek kind h h' revision text :
  (∃ l, h' = l ++ h) → backed dek kind h revision text → backed dek kind h' revision text.
Proof. intros Hg (d & Hd & Hr & Ht). exists d. split; [by eapply documents_grow|done]. Qed.

(** What an operation on [kind] does, when the file holds [local]: the writes of this machine satisfy [P]; only the state file changes, and a new entry of it agrees with a document of the server and
    with the file; what it offers is a document of the server. *)
Record op_ok dek kind local (P : option RemoteDocument → RemoteDocument → Prop) w w' (offer : option Divergence) : Prop := {
  ok_elsewhere uri : uri ≠ uri_of kind → others (history (w_net w) uri) (history (w_net w') uri);
  ok_writes : own_writes P (hist w kind) (hist w' kind);
  ok_files : touches [state_path; temporary_path state_path] (w_fs w) (w_fs w');
  ok_state k s : state_get (state_of w') k = Some s →
    state_get (state_of w) k = Some s ∨
    (k = kind ∧ sy_local_hash s = hash local ∧ ∃ text, backed dek kind (hist w' kind) (sy_revision s) text ∧ hash text = hash local);
  ok_offer dv : offer = Some dv → backed dek kind (hist w' kind) (dv_revision dv) (dv_remote dv) }.

Lemma op_ok_still dek kind local P w w' :
  (∀ uri, uri ≠ uri_of kind → others (history (w_net w) uri) (history (w_net w') uri)) → own_writes P (hist w kind) (hist w' kind) →
  touches [] (w_fs w) (w_fs w') → op_ok dek kind local P w w' None.
Proof.
  intros He Ho Ht. split; [done..| | |done].
  - intros q _. apply Ht, not_elem_of_nil.
  - intros k s. rewrite (touches_state_of _ _ Ht). by left.
Qed.
(** After [w1], only the state file changes. *)
Lemma op_ok_record dek kind local P w w1 w' revision text :
  (∀ uri, uri ≠ uri_of kind → others (history (w_net w) uri) (history (w_net w1) uri)) → own_writes P (hist w kind) (hist w1 kind) →
  touches [] (w_fs w) (w_fs w1) → w_net w' = w_net w1 → touches [state_path; temporary_path state_path] (w_fs w1) (w_fs w') →
  recorded kind (mkSyncedAt revision (hash local)) w1 w' → backed dek kind (hist w1 kind) revision text → hash text = hash local →
  op_ok dek kind local P w w' None.
Proof.
  intros He Ho Ht Hn Ht' Hr Hb Hh. assert (hist w' kind = hist w1 kind) as Hh' by (unfold hist; by rewrite Hn).
  split; rewrite ?Hn, ?Hh'; [done..| | |done].
  - intros q Hq. rewrite Ht' by done. apply Ht, not_elem_of_nil.
  - intros k s Hs. destruct (Hr k s Hs) as [Hs'|[-> ->]]; [left; by rewrite <-(touches_state_of _ _ Ht)|]. right. split; [done|]. split; [done|]. by exists text.
Qed.
Lemma op_ok_offer dek kind local P w w' dv : op_ok dek kind local P w w' None →
  backed dek kind (hist w' kind) (dv_revision dv) (dv_remote dv) → op_ok dek kind local P w w' (Some dv).
Proof. intros [] Hb. split; try done. by intros ? [= <-]. Qed.

Definition pull_offer (r : result SyncError PullOutcome) : option Divergence :=
  match r with Good (RemoteNewer d) | Good (PullConflict d) => Some d | _ => None end.
Definition push_offer (r : result SyncError PushOutcome) : option Divergence :=
  match r with Good (PushConflict d) => Some d | _ => None end.

(** What a pull says is true of the document it read and of the state file. *)
Definition pull_true dek kind local w w' (r : result SyncError PullOutcome) : Prop :=
  match r with
  | Good LocalOnly => current (hist w' kind) = None
  | Good PullUpToDate => ∃ d text, current (hist w' kind) = Some d ∧ decrypt_document context dek kind (d_blob d) = Good text ∧
      hash text = hash local ∧ state_get (state_of w') kind = Some (mkSyncedAt (d_revision d) (hash local))
  | Good (RemoteNewer dv) => ∃ d s, current (hist w' kind) = Some d ∧ d_revision d = dv_revision dv ∧
      decrypt_document context dek kind (d_blob d) = Good (dv_remote dv) ∧ hash (dv_remote dv) ≠ hash local ∧
      state_get (state_of w) kind = Some s ∧ sy_local_hash s = hash local
  | Good (PullConflict dv) => ∃ d, current (hist w' kind) = Some d ∧ d_revision d = dv_revision dv ∧
      decrypt_document context dek kind (d_blob d) = Good (dv_remote dv) ∧ hash (dv_remote dv) ≠ hash local
  | Good (KeyMismatch e) => (∃ d, current (hist w' kind) = Some d ∧ decrypt_document context dek kind (d_blob d) = Bad e) ∧ touches [] (w_fs w) (w_fs w')
  | Bad _ => True
  end.

Lemma pull_content_runs dek kind local w :
  runs (pull_content context dek kind local state_path) w (fun w' r =>
    op_ok dek kind local (fun _ _ => False) w w' (pull_offer r) ∧ pull_true dek kind local w w' r ∧ w_app w' = w_app w).
Proof.
  unfold pull_content. run_with fetch_runs. intros w1 [document|e] (Hf & Ha & Ho & Hc); last first.
  { split_and!; [|done..]. apply op_ok_still; [intros; apply Ho|apply own_writes_others, Ho|by rewrite Hf]. }
  specialize (Hc _ eq_refl). fold (uri_of kind) in Hc. fold (hist w1 kind) in Hc.
  assert (∀ w', w_net w' = w_net w1 → touches [] (w_fs w1) (w_fs w') → op_ok dek kind local (fun _ _ => False) w w' None) as Hstill.
  { intros w' Hn Ht. apply op_ok_still; [intros; rewrite Hn; apply Ho|unfold hist; rewrite Hn; apply own_writes_others, Ho|by rewrite <-Hf]. }
  destruct document as [document|]; [|apply runs_ret; split_and!; [by apply Hstill|done..]].
  destruct (decrypt_document context dek kind (d_blob document)) as [remote|e] eqn:Hd;
    [|apply runs_ret; split_and!; [by apply Hstill| |done]; split; [by exists document|by rewrite Hf]].
  assert (backed dek kind (hist w1 kind) (d_revision document) remote) as Hb by (exists document; split; [by apply current_documents|done]).
  case_bool_decide as Hh; run_with load_state_runs; intros w2 r2 (Hn2 & Ha2 & Ht2 & state & -> & Hs); pose proof (touches_state_of _ _ Ht2) as E2.
  - run_with (save_state_runs NOT_RECORDED state kind (d_revision document) (hash local)); [by rewrite E2|].
    intros w3 r3 (Hn3 & Ha3 & Ht3 & Hr3 & Hg3).
    assert (op_ok dek kind local (fun _ _ => False) w w3 None) as Hok.
    { eapply (op_ok_record _ _ _ _ w w2); [intros; rewrite Hn2; apply Ho|unfold hist; rewrite Hn2; apply own_writes_others, Ho| |done|done|done|unfold hist; by rewrite Hn2|done].
      intros q Hq. rewrite Ht2 by done. by rewrite Hf. }
    destruct r3 as [u|e]; [|split_and!; [done..|congruence]]. destruct u. apply runs_ret. split_and!; [done| |congruence].
    exists document, remote. unfold hist. rewrite Hn3, Hn2. split_and!; [done..|]. by apply Hg3.
  - apply runs_ret. assert (hist w2 kind = hist w1 kind) as Hh2 by (unfold hist; by rewrite Hn2).
    destruct (state_get state kind) as [s|] eqn:Hst; [case_bool_decide as Hlh|]; (split_and!; [apply op_ok_offer; [by apply Hstill|by rewrite Hh2]| |congruence]).
    + exists document, s. rewrite Hh2. split_and!; [done|done|done|by apply not_eq_sym| |done].
      apply Hs in Hst. unfold state_of in *. by rewrite <-Hf.
    + exists document. rewrite Hh2. split_and!; [done|done|done|by apply not_eq_sym].
    + exists document. rewrite Hh2. split_and!; [done|done|done|by apply not_eq_sym].
Qed.

Lemma wrote_own Q p h h' r (P : option RemoteDocument → RemoteDocument → Prop) :
  wrote Q p h h' r → (∀ c d, allowed p c → P c d) → own_writes P h h'.
Proof.
  intros (h1 & Ho & Hd) HP. eapply own_writes_trans; [apply own_writes_others, Ho|].
  destruct Hd as [[-> _]|(d & -> & Ha & _)]; [apply own_writes_refl|]. apply own_writes_one. by apply HP.
Qed.
Lemma wrote_answer Q p h h' r o : wrote Q p h h' r → r = Good o →
  match o with
  | Stored revision => ∃ d, current h' = Some d ∧ d_revision d = revision ∧ Q (d_blob d)
  | WriteConflict d => current h' = Some d
  | Gone => current h' = None
  end.
Proof.
  intros (h1 & _ & Hd) ->. destruct Hd as [[-> Hd]|(d & -> & _ & HQ & Hd)]; destruct o; try done. exists d. by subst.
Qed.

(** The end of a push: the text was stored and is recorded. *)
Lemma stored_runs dek kind local P w w1 revision :
  (∀ uri, uri ≠ uri_of kind → others (history (w_net w) uri) (history (w_net w1) uri)) → own_writes P (hist w kind) (hist w1 kind) →
  touches [] (w_fs w) (w_fs w1) → ∀ d text outcome, current (hist w1 kind) = Some d → d_revision d = revision → decrypt_document context dek kind (d_blob d) = Good text →
  hash text = hash local → push_offer (Good outcome) = None →
  runs (_ ← record kind revision local state_path; mret outcome) w1 (fun w' r =>
    op_ok dek kind local P w w' (push_offer r) ∧ w_app w' = w_app w1).
Proof.
  intros He Ho Ht d text outcome Hc Hrev Hd Hh Hoff. run_with (record_runs kind revision local).
  intros w2 r2 (Hn & Ha & Ht2 & Hr & _).
  assert (backed dek kind (hist w1 kind) revision text) as Hb by (exists d; split; [by apply current_documents|done]).
  assert (op_ok dek kind local P w w2 None) as Hok by (by eapply (op_ok_record _ _ _ _ w w1)).
  destruct r2 as [u|e]; [|by split_and!]. apply runs_ret. by rewrite Hoff.
Qed.
(** The end of a push: the server has another document. *)
Lemma conflict_runs dek kind local P w w1 document :
  (∀ uri, uri ≠ uri_of kind → others (history (w_net w) uri) (history (w_net w1) uri)) → own_writes P (hist w kind) (hist w1 kind) →
  touches [] (w_fs w) (w_fs w1) → current (hist w1 kind) = Some document →
  runs (remote ← lift (map_err Crypto (decrypt_document context dek kind (d_blob document)));
        mret (PushConflict (mkDivergence (between local remote) remote (d_revision document)))) w1 (fun w' r =>
    op_ok dek kind local P w w' (push_offer r) ∧ w_app w' = w_app w1).
Proof.
  intros He Ho Ht Hc. apply runs_bind, runs_lift. pose proof (op_ok_still dek kind local P _ _ He Ho Ht) as Hok.
  destruct (decrypt_document _ _ _ _) as [remote|e] eqn:Hd; cbn [map_err]; [|by split_and!]. apply runs_ret. split; [|done].
  apply op_ok_offer; [done|]. exists document. split; [by apply current_documents|done].
Qed.

(** The document replaced is the one the state file records, or there is none. *)
Definition replaces_recorded kind w (c : option RemoteDocument) (_ : RemoteDocument) : Prop :=
  c = None ∨ ∃ d s, c = Some d ∧ state_get (state_of w) kind = Some s ∧ d_revision d = sy_revision s.

Lemma push_content_runs dek kind local w :
  runs (push_content context dek kind local state_path) w (fun w' r =>
    op_ok dek kind local (replaces_recorded kind w) w w' (push_offer r) ∧ w_app w' = w_app w).
Proof.
  unfold push_content. run_with load_state_runs. intros w1 r1 (Hn1 & Ha1 & Ht1 & state & -> & Hs).
  set (p := match state_get state kind with Some _ => _ | None => _ end).
  assert (∀ c d, allowed p c → replaces_recorded kind w c d) as Hp.
  { intros c d. unfold p. destruct (state_get state kind) as [s|] eqn:E; [|by left]. intros (d0 & -> & Hd). right. exists d0, s. auto. }
  run_with (store_text_runs dek kind local p). intros w2 r2 (Hf2 & Ha2 & Ho2 & Hw2).
  assert (hist w1 kind = hist w kind) as Hh1 by (unfold hist; by rewrite Hn1). rewrite Hh1 in Hw2.
  assert (∀ uri, uri ≠ uri_of kind → others (history (w_net w) uri) (history (w_net w2) uri)) as He2 by (rewrite <-Hn1; exact Ho2).
  assert (touches [] (w_fs w) (w_fs w2)) as Ht2 by (intros q Hq; rewrite Hf2; by apply Ht1).
  pose proof (wrote_own _ _ _ _ _ _ Hw2 Hp) as Hown2. destruct r2 as [outcome|e]; [|split; [by apply op_ok_still|congruence]].
  pose proof (wrote_answer _ _ _ _ _ _ Hw2 eq_refl) as Hans. destruct outcome as [revision|document|].
  - destruct Hans as (d & Hc & Hr & Hd). eapply runs_mono; [by eapply (stored_runs dek kind local _ w w2)|].
    intros w' r (Hok & Ha). split; [done|congruence].
  - apply runs_bind, runs_lift. destruct (decrypt_document context dek kind (d_blob document)) as [remote|e] eqn:Hd; cbn [map_err];
      [|split; [by apply op_ok_still|congruence]].
    case_bool_decide as Hh.
    + eapply runs_mono; [by eapply (stored_runs dek kind local _ w w2)|]. intros w' r (Hok & Ha). split; [done|congruence].
    + apply runs_ret. split; [|congruence]. apply op_ok_offer; [by apply op_ok_still|]. exists document. split; [by apply current_documents|done].
  - run_with (store_text_runs dek kind local Create). intros w3 r3 (Hf3 & Ha3 & Ho3 & Hw3).
    assert (∀ uri, uri ≠ uri_of kind → others (history (w_net w) uri) (history (w_net w3) uri)) as He3
      by (intros uri Hu; eapply others_trans; [by apply He2|by apply Ho3]).
    assert (touches [] (w_fs w) (w_fs w3)) as Ht3 by (by rewrite Hf3).
    assert (own_writes (replaces_recorded kind w) (hist w kind) (hist w3 kind)) as Hown3.
    { eapply own_writes_trans; [done|]. eapply wrote_own; [done|]. intros c d ->. by left. }
    destruct r3 as [outcome|e]; [|split; [by apply op_ok_still|congruence]].
    pose proof (wrote_answer _ _ _ _ _ _ Hw3 eq_refl) as Hans3. destruct outcome as [revision|document|].
    + destruct Hans3 as (d & Hc & Hr & Hd). eapply runs_mono; [by eapply (stored_runs dek kind local _ w w3)|].
    intros w' r (Hok & Ha). split; [done|congruence].
    + eapply runs_mono; [by eapply (conflict_runs dek kind local _ w w3)|]. intros w' r (Hok & Ha). split; [done|congruence].
    + apply runs_lift. split; [by apply op_ok_still|congruence].
Qed.

Lemma overwrite_remote_content_runs dek kind local revision w :
  runs (overwrite_remote_content context dek kind local revision state_path) w (fun w' r =>
    op_ok dek kind local (fun c _ => ∃ d, c = Some d ∧ d_revision d = revision) w w' (push_offer r) ∧ w_app w' = w_app w).
Proof.
  unfold overwrite_remote_content. run_with (store_text_runs dek kind local (Replace revision)). intros w2 r2 (Hf2 & Ha2 & He2 & Hw2).
  assert (touches [] (w_fs w) (w_fs w2)) as Ht2 by (by rewrite Hf2).
  assert (own_writes (fun c _ => ∃ d, c = Some d ∧ d_revision d = revision) (hist w kind) (hist w2 kind)) as Hown2 by (by eapply wrote_own).
  destruct r2 as [outcome|e]; [|split; [by apply op_ok_still|congruence]].
  pose proof (wrote_answer _ _ _ _ _ _ Hw2 eq_refl) as Hans. destruct outcome as [rev|document|].
  - destruct Hans as (d & Hc & Hr & Hd). eapply runs_mono; [by eapply (stored_runs dek kind local _ w w2)|].
    intros w' r (Hok & Ha). split; [done|congruence].
  - eapply runs_mono; [by eapply (conflict_runs dek kind local _ w w2)|]. intros w' r (Hok & Ha). split; [done|congruence].
  - apply runs_ret. split; [by apply op_ok_still|congruence].
Qed.

(** *** Replacing the local file *)

(** The files an artifact, its copy and the sync state use are distinct. *)
Definition paths_ok (artifact : Artifact) : Prop :=
  NoDup ([a_path artifact; temporary_path (a_path artifact); state_path; temporary_path state_path] ++
         match a_backup_path artifact with Some b => [b; temporary_path b] | None => [] end).

Lemma on_fs_runs {A} attempt (call : fs_call A) w (Q : Fs → result IoError A → Prop) :
  (∀ fs r, call (w_fs w) = (fs, r) → Q fs r) →
  runs (on_fs attempt call) w (fun w' r => w_net w' = w_net w ∧ w_app w' = w_app w ∧
    ∃ r0, Q (w_fs w') r0 ∧ match r0 with Good a => r = Good a | Bad e => r = Bad (Io attempt (NotWritten e)) end).
Proof.
  intros HQ. unfold runs, on_fs. destruct (call (w_fs w)) as [fs r] eqn:E. cbn. split; [done|]. split; [done|]. exists r. split; [by apply HQ|]. by destruct r.
Qed.

(** What [apply_remote] leaves. *)
Definition applied (artifact : Artifact) remote revision w w' (r : result SyncError unit) : Prop :=
  let old := fs_files (w_fs w) !! a_path artifact in
  (fs_files (w_fs w') !! a_path artifact = old ∨ fs_files (w_fs w') !! a_path artifact = Some remote) ∧
  (fs_files (w_fs w') !! a_path artifact = old ∨
   ∀ b c, a_backup_path artifact = Some b → old = Some c → fs_files (w_fs w') !! b = Some c) ∧
  (state_of w' = state_of w ∨ fs_files (w_fs w') !! a_path artifact = Some remote) ∧
  recorded (a_kind artifact) (mkSyncedAt revision (hash remote)) w w' ∧
  (r = Good () → fs_files (w_fs w') !! a_path artifact = Some remote ∧
    state_get (state_of w') (a_kind artifact) = Some (mkSyncedAt revision (hash remote))).

Lemma recorded_still kind s w w' : state_of w' = state_of w → recorded kind s w w'.
Proof. intros E kind' s'. rewrite E. by left. Qed.

Lemma apply_remote_runs artifact remote revision w : paths_ok artifact →
  runs (apply_remote artifact remote revision state_path) w (fun w' r =>
    applied artifact remote revision w w' r ∧ w_net w' = w_net w ∧ w_app w' = w_app w).
Proof.
  unfold paths_ok. intros Hnd. set (p := a_path artifact) in *. unfold apply_remote.
  assert (∀ w1, fs_files (w_fs w1) !! state_path = fs_files (w_fs w) !! state_path → state_of w1 = state_of w) as Hst.
  { intros w1 E. unfold state_of, stored_state. by rewrite E. }
  run_with (on_fs_runs _ _ w (fun fs r => touches (match a_backup_path artifact with Some b => [b; temporary_path b] | None => [] end) (w_fs w) fs ∧
    (r = Good () → ∀ b c, a_backup_path artifact = Some b → fs_files (w_fs w) !! p = Some c → fs_files fs !! b = Some c))).
  { intros fs r [Ht Hg]%back_up_files. split; [|done]. destruct (a_backup_path artifact); [done|by subst]. }
  intros w1 r1 (Hn1 & Ha1 & r0 & [Ht1 Hb1] & Hr1).
  assert (p ∉ match a_backup_path artifact with Some b => [b; temporary_path b] | None => [] end ∧
          state_path ∉ match a_backup_path artifact with Some b => [b; temporary_path b] | None => [] end) as [Hp1 Hs1].
  { rewrite NoDup_app in Hnd. destruct Hnd as (_ & Hnd & _). split; apply Hnd; unfold p; set_solver. }
  destruct r0 as [u|e]; subst r1; last first.
  { split; [|done]. unfold applied. fold p. rewrite (Ht1 p Hp1). split_and!; [by left|by left|left; by apply Hst, Ht1|by apply recorded_still, Hst, Ht1|done]. }
  destruct u. specialize (Hb1 eq_refl).
  run_with (on_fs_runs _ _ w1 (fun fs r => touches [p; temporary_path p] (w_fs w1) fs ∧
    (fs_files fs !! p = fs_files (w_fs w1) !! p ∨ fs_files fs !! p = Some remote) ∧ (r = Good () → fs_files fs !! p = Some remote))).
  { intros fs r (Ht & Ho & Hg)%write_atomic_files. split_and!; [done..|]. intros Hr. by apply Hg. }
  intros w2 r2 (Hn2 & Ha2 & r0 & (Ht2 & Ho2 & Hg2) & Hr2). rewrite (Ht1 p Hp1) in Ho2.
  assert (state_path ∉ [p; temporary_path p] ∧ p ∉ [state_path; temporary_path state_path]) as [Hs2 Hp2].
  { cbn [app] in Hnd. rewrite !NoDup_cons, !not_elem_of_cons in Hnd. set_solver. }
  assert (∀ b, a_backup_path artifact = Some b → b ∉ [p; temporary_path p] ∧ b ∉ [state_path; temporary_path state_path]) as Hbp.
  { intros b E. rewrite E in Hnd. cbn [app] in Hnd. rewrite !NoDup_cons, !not_elem_of_cons in Hnd. set_solver. }
  assert (state_of w2 = state_of w) as E2 by (apply Hst; rewrite Ht2, Ht1; done).
  assert (∀ b c, a_backup_path artifact = Some b → fs_files (w_fs w) !! p = Some c → fs_files (w_fs w2) !! b = Some c) as Hb2.
  { intros b c E Hc. rewrite Ht2 by (by apply Hbp). by apply Hb1. }
  destruct r0 as [u|e]; subst r2; last first.
  { split; [|split; congruence]. unfold applied. fold p. split_and!; [done|by right|by left|by apply recorded_still|done]. }
  destruct u. specialize (Hg2 eq_refl). eapply runs_mono; [apply (record_runs (a_kind artifact) revision remote)|].
  intros w3 r3 (Hn3 & Ha3 & Ht3 & Hr3 & Hg3). split; [|split; congruence]. unfold applied. fold p.
  assert (fs_files (w_fs w3) !! p = Some remote) as Hp3 by (by rewrite Ht3). split_and!; [by right| |by right| |].
  - right. intros b c E Hc. rewrite Ht3 by (by apply Hbp). by apply Hb2.
  - intros k s Hs. rewrite <-E2. by apply Hr3.
  - intros Hr. split; [done|by apply Hg3].
Qed.

(** C24: Whatever fails while the server's document replaces the local file, and wherever the machine stops: the file holds its old content or the new
    one, never a part; when it holds the new one, the copy holds the old one; the sync state says the document was applied only when it was; and success means the
    file, the copy and the sync state are all in place.  Nothing is sent. *)
Theorem apply_remote_safe (artifact : Artifact) (remote revision : string) (w w' : World Net R App) (r : result SyncError unit) :
  paths_ok artifact → apply_remote artifact remote revision state_path w = (w', r) →
  applied artifact remote revision w w' r ∧ w_net w' = w_net w.
Proof. intros Hp E. by destruct (runs_eq _ _ _ _ _ (apply_remote_runs artifact remote revision w Hp) E) as (Ha & Hn & _). Qed.
End engine_facts.

(** * The life of a machine that syncs

    A machine pulls, pushes, applies and overwrites, in any order, with failing calls and crashes, while its user edits files and
    other machines write.  [m_held] are the contents its file had at an operation, [m_offers] the differences it was shown. *)

Section machine.
Context {crypto : SyncCrypto} {wire : WireJson} {sj : StateJson} {ld : LineDiff} {utf8 : Utf8Text}.
Context {Net R App : Type} {http : HttpClient Net} {rng : Rng R} {srv : SyncServer Net}.

Record Machine := mkMachine {
  m_world : World Net R App; m_held : list (Kind * string); m_offers : list (Kind * Divergence) }.

Definition offered {A} (kind : Kind) (offer : option A) : list (Kind * A) := match offer with Some d => [(kind, d)] | None => [] end.

Context (context : SyncContext) (state_path : Path).

Inductive machine_step : Machine → Machine → Prop :=
  | step_pull dek kind local w w' r held offers :
      pull_content context dek kind local state_path w = (w', r) →
      machine_step (mkMachine w held offers) (mkMachine w' ((kind, local) :: held) (offered kind (pull_offer r) ++ offers))
  | step_push dek kind local w w' r held offers :
      push_content context dek kind local state_path w = (w', r) →
      machine_step (mkMachine w held offers) (mkMachine w' ((kind, local) :: held) (offered kind (push_offer r) ++ offers))
  | step_overwrite dek kind local d w w' r held offers :
      (kind, d) ∈ offers →
      overwrite_remote_content context dek kind local (dv_revision d) state_path w = (w', r) →
      machine_step (mkMachine w held offers) (mkMachine w' ((kind, local) :: held) (offered kind (push_offer r) ++ offers))
  | step_apply artifact d w w' r held offers :
      (a_kind artifact, d) ∈ offers → paths_ok state_path artifact →
      apply_remote artifact (dv_remote d) (dv_revision d) state_path w = (w', r) →
      machine_step (mkMachine w held offers) (mkMachine w' ((a_kind artifact, dv_remote d) :: held) offers)
  | step_else w w' held offers :
      fs_files (w_fs w') !! state_path = fs_files (w_fs w) !! state_path →
      (∀ uri, others (history (w_net w) uri) (history (w_net w') uri)) →
      machine_step (mkMachine w held offers) (mkMachine w' held offers).

(** A machine that has never synced. *)
Definition fresh (m : Machine) : Prop :=
  fs_files (w_fs (m_world m)) !! state_path = None ∧ m_held m = [] ∧ m_offers m = [].

Context {CL : CryptoLaws R} {SL : ServerLaws Net} {JL : StateLaws} {TL : TextLaws}.

(** Every entry of the state file agrees with a document of the server and with a content of the file; every difference shown is of a document of the server. *)
Definition machine_inv (m : Machine) : Prop :=
  (∀ kind s, state_get (state_of state_path (m_world m)) kind = Some s →
     (∃ dek text, backed context dek kind (hist context (m_world m) kind) (sy_revision s) text ∧ hash text = sy_local_hash s) ∧
     ∃ local, (kind, local) ∈ m_held m ∧ hash local = sy_local_hash s) ∧
  (∀ kind d, (kind, d) ∈ m_offers m → ∃ dek, backed context dek kind (hist context (m_world m) kind) (dv_revision d) (dv_remote d)).

(** What this machine may replace on the server: nothing, a text its file had, or a text its user was shown. *)
Definition seen (m : Machine) (kind : Kind) (c : option RemoteDocument) (_ : RemoteDocument) : Prop :=
  c = None ∨ ∃ d dek text, c = Some d ∧ decrypt_document context dek kind (d_blob d) = Good text ∧
    ((∃ local, (kind, local) ∈ m_held m ∧ hash local = hash text) ∨ (∃ dv, (kind, dv) ∈ m_offers m ∧ dv_remote dv = text)).

Lemma uri_of_inj kind kind' : uri_of context kind = uri_of context kind' → kind = kind'.
Proof.
  unfold uri_of, slot_uri. intros E. apply (f_equal as_bytes) in E. rewrite !as_bytes_app in E. apply app_inv_head in E.
  by destruct kind, kind'.
Qed.

(** An operation of [SyncSafety] keeps the invariant. *)
Lemma op_ok_inv dek kind local P w w' offer held offers :
  op_ok context state_path dek kind local P w w' offer →
  machine_inv (mkMachine w held offers) → machine_inv (mkMachine w' ((kind, local) :: held) (offered kind offer ++ offers)).
Proof.
  intros [He Ho _ Hs Hoff] [Hinv Hinv']. cbn [m_world m_held m_offers] in *.
  assert (∀ k, ∃ l, hist context w' k = l ++ hist context w k) as Hgrow.
  { intros k. destruct (decide (k = kind)) as [->|Hne]; [by eapply own_writes_grows|].
    destruct (He (uri_of context k)) as (l & Hl & _); [by intros ?%uri_of_inj|by exists l]. }
  split; cbn [m_world m_held m_offers].
  - intros k s Hk. destruct (Hs k s Hk) as [Hk'|(-> & Hl & text & Hb & Ht)].
    + destruct (Hinv k s Hk') as [(dek' & text & Hb & Ht) (l & Hl & Hh)]. split; [|exists l; split; [by right|done]].
      exists dek', text. split; [|done]. by eapply backed_grows.
    + split; [exists dek, text; split; [done|congruence]|]. exists local. split; [by left|done].
  - intros k d. rewrite elem_of_app. intros [Hd|Hd].
    + destruct offer as [dv|]; [|by apply not_elem_of_nil in Hd]. apply list_elem_of_singleton in Hd. injection Hd as -> ->. exists dek. by apply Hoff.
    + destruct (Hinv' k d Hd) as (dek' & Hb). exists dek'. by eapply backed_grows.
Qed.

Lemma machine_step_inv m m' : machine_step m m' → machine_inv m → machine_inv m'.
Proof.
  destruct 1 as [dek kind local w w' r held offers E|dek kind local w w' r held offers E|dek kind local d w w' r held offers Hd E
                |artifact d w w' r held offers Hd Hp E|w w' held offers Hf Ho]; intros Hinv.
  - eapply op_ok_inv; [|done]. by apply (runs_eq _ _ _ _ _ (pull_content_runs context state_path dek kind local w) E).
  - eapply op_ok_inv; [|done]. by apply (runs_eq _ _ _ _ _ (push_content_runs context state_path dek kind local w) E).
  - eapply op_ok_inv; [|done]. by apply (runs_eq _ _ _ _ _ (overwrite_remote_content_runs context state_path dek kind local _ w) E).
  - destruct (runs_eq _ _ _ _ _ (apply_remote_runs state_path artifact (dv_remote d) (dv_revision d) w Hp) E) as ((_ & _ & _ & Hr & _) & Hn & _).
    destruct Hinv as [Hinv Hinv']. unfold machine_inv, hist in *. cbn [m_world m_held m_offers] in *. rewrite Hn. split; [|done].
    intros k s Hk. destruct (Hr k s Hk) as [Hk'|[-> ->]].
    + destruct (Hinv k s Hk') as [? (l & ? & ?)]. split; [done|]. exists l. split; [by right|done].
    + cbn [sy_revision sy_local_hash]. split; [|exists (dv_remote d); split; [by left|done]].
      destruct (Hinv' _ _ Hd) as (dek & Hb). exists dek, (dv_remote d). by split.
  - destruct Hinv as [Hinv Hinv']. cbn [m_world m_held m_offers] in *.
    assert (∀ k, ∃ l, hist context w' k = l ++ hist context w k) as Hgrow by (intros k; destruct (Ho (uri_of context k)) as (l & Hl & _); by exists l).
    assert (state_of state_path w' = state_of state_path w) as Es by (unfold state_of, stored_state; by rewrite Hf).
    split; cbn [m_world m_held m_offers]; [rewrite Es; intros k s Hk|intros k d Hd].
    + destruct (Hinv k s Hk) as [(dek & text & Hb & Ht) Hl]. split; [|done]. exists dek, text. split; [by eapply backed_grows|done].
    + destruct (Hinv' k d Hd) as (dek & Hb). exists dek. by eapply backed_grows.
Qed.

Lemma fresh_inv m : fresh m → machine_inv m.
Proof.
  intros (Hf & Hh & Ho). split.
  - intros kind s. unfold state_of, stored_state. by rewrite Hf, state_get_empty.
  - intros kind d. rewrite Ho. by intros ?%not_elem_of_nil.
Qed.
Lemma reachable_inv m m' : fresh m → rtc machine_step m m' → machine_inv m'.
Proof. intros Hf%fresh_inv. induction 1; [done|]. eauto using machine_step_inv. Qed.

(** The document an operation replaces is one of the history with the revision it asked for. *)
Lemma replaced_seen m m' kind d dek text :
  machine_inv m → (∃ l, hist context (m_world m') kind = l ++ hist context (m_world m) kind) →
  d ∈ documents (hist context (m_world m') kind) → ∀ revision, d_revision d = revision →
  backed context dek kind (hist context (m_world m) kind) revision text → decrypt_document context dek kind (d_blob d) = Good text.
Proof.
  intros Hinv Hg Hd revision Hr (d0 & Hd0 & Hr0 & Ht). replace d with d0; [done|].
  eapply revision_unique; [apply (revisions_unique (w_net (m_world m')) (uri_of context kind))| |done|congruence].
  by eapply documents_grow.
Qed.

Lemma step_writes m m' kind : machine_inv m → machine_step m m' →
  own_writes (seen m kind) (hist context (m_world m) kind) (hist context (m_world m') kind).
Proof.
  assert (∀ dek kind' local P w w' offer held offers held' offers',
    machine_inv (mkMachine w held offers) → op_ok context state_path dek kind' local P w w' offer →
    (∀ c d, P c d → c = None ∨ ∃ d0 dek text, c = Some d0 ∧ backed context dek kind' (hist context w kind') (d_revision d0) text ∧
       ((∃ local, (kind', local) ∈ held ∧ hash local = hash text) ∨ (∃ dv, (kind', dv) ∈ offers ∧ dv_remote dv = text))) →
    own_writes (seen (mkMachine w held offers) kind) (hist context w kind) (hist context (m_world (mkMachine w' held' offers')) kind)) as Hop.
  { intros dek kind' local P w w' offer held offers held' offers' Hinv [He Ho _ _ _] HP. cbn [m_world].
    destruct (decide (kind = kind')) as [->|Hne]; [|apply own_writes_others, He; by intros ?%uri_of_inj].
    eapply own_writes_mono_in; [exact Ho|]. intros c d Hin Hc. destruct (HP c d Hc) as [->|(d0 & dek' & text & -> & Hb & Hs)]; [by left|].
    right. exists d0, dek', text. split; [done|]. split; [|done].
    eapply (replaced_seen (mkMachine w held offers) (mkMachine w' held' offers')); [done| |by apply Hin|reflexivity|done].
    by eapply own_writes_grows. }
  intros Hinv. destruct 1 as [dek kind' local w w' r held offers E|dek kind' local w w' r held offers E|dek kind' local d w w' r held offers Hd E
                |artifact d w w' r held offers Hd Hp E|w w' held offers Hf Ho].
  - eapply Hop; [done|apply (runs_eq _ _ _ _ _ (pull_content_runs context state_path dek kind' local w) E)|done].
  - eapply Hop; [done|apply (runs_eq _ _ _ _ _ (push_content_runs context state_path dek kind' local w) E)|].
    intros c d [->|(d0 & s & -> & Hs & Hr)]; [by left|]. right. destruct (proj1 Hinv kind' s Hs) as [(dek' & text & Hb & Ht) (l & Hl & Hh)].
    exists d0, dek', text. rewrite Hr. split_and!; [done..|]. left. exists l. split; [done|]. congruence.
  - eapply Hop; [done|apply (runs_eq _ _ _ _ _ (overwrite_remote_content_runs context state_path dek kind' local _ w) E)|].
    intros c d0 (d1 & -> & Hr). right. destruct (proj2 Hinv kind' d Hd) as (dek' & Hb). exists d1, dek', (dv_remote d). rewrite Hr. split_and!; [done..|].
    right. by exists d.
  - destruct (runs_eq _ _ _ _ _ (apply_remote_runs state_path artifact (dv_remote d) (dv_revision d) w Hp) E) as (_ & Hn & _).
    unfold hist. cbn [m_world]. rewrite Hn. apply own_writes_refl.
  - apply own_writes_others, Ho.
Qed.

(** The operations on files are those on their contents, after reading the file. *)
Lemma file_steps dek artifact w w' held offers :
  (∃ r', push context dek artifact state_path w = (w', r')) ∨ (∃ r', pull context dek artifact state_path w = (w', r')) ∨
  (∃ d r', (a_kind artifact, d) ∈ offers ∧ overwrite_remote context dek artifact (dv_revision d) state_path w = (w', r')) →
  ∃ held' offers', rtc machine_step (mkMachine w held offers) (mkMachine w' held' offers').
Proof.
  assert (∀ w1 r1, on_fs "could not read the local file" (read (a_path artifact)) w = (w1, r1) →
    machine_step (mkMachine w held offers) (mkMachine w1 held offers)) as Hread.
  { intros w1 r1. unfold on_fs. destruct (read (a_path artifact) (w_fs w)) as [fs r0] eqn:E. apply read_files in E as [Hf _].
    intros [= <- _]. apply step_else; cbn; [by rewrite Hf|intros; apply others_refl]. }
  intros [(r' & E)|[(r' & E)|(d & r' & Hd & E)]]; revert E; unfold push, pull, read_local, overwrite_remote; cbv [mbind op_bind];
    destruct (on_fs _ _ w) as [w1 [c|e]] eqn:E1; specialize (Hread _ _ eq_refl); try (intros [= <- _]; do 2 eexists; by apply rtc_once).
  - destruct c as [local|]; [|intros [= <- _]; do 2 eexists; by apply rtc_once]. intros E. do 2 eexists.
    eapply rtc_l; [done|]. eapply rtc_once, step_push, E.
  - intros E. do 2 eexists. eapply rtc_l; [done|]. eapply rtc_once, step_pull, E.
  - destruct c as [local|]; [|intros [= <- _]; do 2 eexists; by apply rtc_once]. intros E. do 2 eexists.
    eapply rtc_l; [done|]. eapply rtc_once, step_overwrite, E. done.
Qed.

(** C23: Whatever a machine replaces on the server, at any time of its life, is a text its own file had at an earlier
    operation or one its user had been shown; and it never writes over a document it cannot name. *)
Theorem no_lost_update (m0 m m' : Machine) (kind : Kind) :
  fresh m0 → rtc machine_step m0 m → machine_step m m' →
  own_writes (seen m kind) (hist context (m_world m) kind) (hist context (m_world m') kind).
Proof. intros Hf Hr Hs. apply step_writes; [|done]. by eapply reachable_inv. Qed.
End machine.
