(* ===== verification/SyncRotate.v ===== *)
(** * Replacing the recovery key: [crates/zode_sync/src/rotate.rs]

    Every document sealed under the recovery key is sealed again under the new one.  The two documents that hold keys come first, both or none; the new key
    is adopted once they are under it.  A fingerprint in each document says which key it is under, so an interrupted rotation can be
    continued. *)

From Stdlib Require Import String.
From S2P Require Import Prelude Bytes RecoveryKey SyncEnvelope SyncClient SyncFiles SyncEngine SyncSafety.
Local Open Scope N_scope.

Definition ENV_KEY_SLOT : string := "env-key".

Inductive Slot := SlotArtifact (kind : Kind) | SharingKey | EnvKey.
#[export] Instance Slot_eq_dec : EqDecision Slot.
Proof. solve_decision. Defined.
Definition Slot_ALL : list Slot := [SharingKey; EnvKey; SlotArtifact Settings; SlotArtifact Keymap; SlotArtifact Extensions].
Definition holds_key (slot : Slot) : bool := match slot with SharingKey | EnvKey => true | SlotArtifact _ => false end.
Definition slot_resource (slot : Slot) : result SyncCryptoError Resource :=
  match slot with
  | SlotArtifact kind => Good (sync kind)
  | SharingKey => Good sharing_key
  | EnvKey => env_singleton ENV_KEY_SLOT
  end.

Record RotationPlan := mkPlan { p_pending : list Slot; p_done : list Slot; p_absent : list Slot }.
Inductive RotationOutcome :=
  | Complete
  | Interrupted (remaining : list Slot).
Inductive Resealed :=
  | ResealStored (revision : string) (plaintext : list N)
  | ResealMissing
  | ResealLost.

Section rotate.
Context `{SyncCrypto, WireJson, StateJson, Utf8Text} {Net R App : Type} `{!HttpClient Net, !Rng R}.
Implicit Types (context : SyncContext) (old new from to : list N) (state_path : Path).

Definition fingerprint (blob : string) : option (list N) :=
  match from_blob blob with
  | Good envelope => base64_decode (e_kid envelope) ≫= sized KID_LEN
  | Bad _ => None
  end.

Definition classify_slot (old_kid new_kid : list N) (slot : Slot) (document : option RemoteDocument) (plan : RotationPlan) : RotationPlan :=
  match document with
  | None => mkPlan (p_pending plan) (p_done plan) (p_absent plan ++ [slot])
  | Some document =>
      match fingerprint (d_blob document) with
      | Some kid => if bool_decide (kid = new_kid) then mkPlan (p_pending plan) (p_done plan ++ [slot]) (p_absent plan)
                    else if bool_decide (kid = old_kid) then mkPlan (p_pending plan ++ [slot]) (p_done plan) (p_absent plan)
                    else plan
      | None => plan
      end
  end.
Fixpoint plan_slots context old new (slots : list Slot) (plan : RotationPlan) : op Net R App SyncError RotationPlan :=
  match slots with
  | [] => mret plan
  | slot :: slots =>
      resource ← lift (map_err Crypto (slot_resource slot));
      document ← on_net (fetch (c_endpoint context) resource);
      plan_slots context old new slots (classify_slot (dek_kid old) (dek_kid new) slot document plan)
  end.
Definition plan context old new : op Net R App SyncError RotationPlan :=
  plan_slots context old new Slot_ALL (mkPlan [] [] []).

Definition open_with context (dek : list N) (resource : Resource) (blob : string) : result SyncError (list N) :=
  parsed ← map_err Crypto (from_blob blob);
  map_err Crypto (decrypt_at dek (c_user_id context) resource parsed).
Definition seal_with context (dek : list N) (resource : Resource) (plaintext : list N) : op Net R App SyncError string :=
  envelope ← on_rng (encrypt_at dek (c_user_id context) resource plaintext);
  lift (map_err Crypto (to_blob envelope)).
Definition text_hash (plaintext : list N) : result SyncError string :=
  text ← ok_or (text_of_bytes plaintext) (Crypto (Malformed "the decrypted content is not text"));
  Good (hash text).

Definition reseal context from to (resource : Resource) (expected : option string) : op Net R App SyncError Resealed :=
  document ← on_net (fetch (c_endpoint context) resource);
  match document with
  | None => mret ResealMissing
  | Some document =>
      if match expected with Some expected => negb (String.eqb expected (d_revision document)) | None => false end
      then mret ResealMissing
      else plaintext ← lift (open_with context from resource (d_blob document));
           blob ← seal_with context to resource plaintext;
           written ← on_net (store (c_endpoint context) resource blob (Replace (d_revision document)));
           mret match written with
                | Stored revision => ResealStored revision plaintext
                | WriteConflict _ | Gone => ResealLost
                end
  end.

(** The results are only logged. *)
Fixpoint put_back_each context old new (moved : list (Resource * string)) (w : World Net R App) : World Net R App :=
  match moved with
  | [] => w
  | (resource, revision) :: moved =>
      let '(w, _) := reseal context new old resource (Some revision) w in put_back_each context old new moved w
  end.
Definition put_back context old new (moved : list (Resource * string)) (w : World Net R App) : World Net R App :=
  put_back_each context old new (reverse moved) w.

(** The loop over the slots that hold keys: what it returns early, or what it moved. *)
Fixpoint move_keys context old new (artifacts key_slots : list Slot) (moved : list (Resource * string)) (w : World Net R App)
    : World Net R App * (result SyncError RotationOutcome + list (Resource * string)) :=
  match key_slots with
  | [] => (w, inr moved)
  | slot :: rest =>
      match slot_resource slot with
      | Bad e => (w, inl (Bad (Crypto e)))
      | Good resource =>
          match reseal context old new resource None w with
          | (w, Good (ResealStored revision _)) => move_keys context old new artifacts rest (moved ++ [(resource, revision)]) w
          | (w, Good ResealMissing) => move_keys context old new artifacts rest moved w
          | (w, Good ResealLost) => (put_back context old new moved w, inl (Good (Interrupted (key_slots ++ artifacts))))
          | (w, Bad e) => (put_back context old new moved w, inl (Bad e))
          end
      end
  end.

Definition call_persist (persist : App → App) : op Net R App SyncError unit := fun w =>
  (mkWorld (w_fs w) (w_net w) (w_rng w) (persist (w_app w)), Good ()).

Fixpoint move_artifacts context old new state_path (persist : App → App) (artifacts : list Slot) (persisted : bool) (remaining : list Slot)
    : op Net R App SyncError (list Slot) :=
  match artifacts with
  | [] => mret remaining
  | slot :: artifacts =>
      match slot with
      | SlotArtifact kind =>
          resource ← lift (map_err Crypto (slot_resource slot));
          resealed ← reseal context old new resource None;
          match resealed with
          | ResealStored revision plaintext =>
              _ ← (if persisted then mret () else call_persist persist);
              local_hash ← lift (text_hash plaintext);
              state ← load_state state_path;
              _ ← save_state "" (state_record state kind revision local_hash) state_path;
              move_artifacts context old new state_path persist artifacts true remaining
          | ResealMissing => move_artifacts context old new state_path persist artifacts persisted remaining
          | ResealLost => move_artifacts context old new state_path persist artifacts persisted (remaining ++ [slot])
          end
      | _ => move_artifacts context old new state_path persist artifacts persisted remaining
      end
  end.

(** Adopting the new key, then moving the artifacts. *)
Definition finish context old new state_path (persist : App → App) (artifacts : list Slot) (persisted : bool)
    : op Net R App SyncError RotationOutcome :=
  _ ← (if persisted then call_persist persist else mret ());
  remaining ← move_artifacts context old new state_path persist artifacts persisted [];
  mret (if is_empty_slice remaining then Complete else Interrupted remaining).

Definition run_plan context old new state_path (persist : App → App) (plan : RotationPlan) : op Net R App SyncError RotationOutcome := fun w =>
  let key_slots := filter (fun slot => holds_key slot = true) (p_pending plan) in
  let artifacts := filter (fun slot => holds_key slot = false) (p_pending plan) in
  match move_keys context old new artifacts key_slots [] w with
  | (w, inl stopped) => (w, stopped)
  | (w, inr moved) =>
      let persisted := negb (is_empty_slice moved) || negb (is_empty_slice (p_done plan)) in
      finish context old new state_path persist artifacts persisted w
  end.
Definition rotate context old new state_path (persist : App → App) : op Net R App SyncError RotationOutcome :=
  plan ← plan context old new;
  run_plan context old new state_path persist plan.
End rotate.

(** * What a rotation keeps

    Against a service that keeps [ServerLaws]: a rotation, wherever it stops, replaces a document only by the same content under the other
    key; the documents that hold keys leave the old key before anything else happens. *)

Section rotate_facts.
Context {crypto : SyncCrypto} {wire : WireJson} {sj : StateJson} {utf8 : Utf8Text}.
Context {Net R App : Type} {http : HttpClient Net} {rng : Rng R} {srv : SyncServer Net}.
Context {CL : CryptoLaws R} {SL : ServerLaws Net} {JL : StateLaws}.
Context (context : SyncContext) (old new : list N).
Implicit Types (w : World Net R App) (slot : Slot) (resource : Resource).

Definition uri resource : string := slot_uri (c_endpoint context) resource.

(** The document written holds what the one replaced held, under the other of the two keys. *)
Definition same_content resource (c : option RemoteDocument) (d : RemoteDocument) : Prop :=
  ∃ d0 p, c = Some d0 ∧
  ((open_with context old resource (d_blob d0) = Good p ∧ open_with context new resource (d_blob d) = Good p) ∨
   (open_with context new resource (d_blob d0) = Good p ∧ open_with context old resource (d_blob d) = Good p)).
Definition kept (u : string) (c : option RemoteDocument) (d : RemoteDocument) : Prop :=
  ∃ slot resource, slot_resource slot = Good resource ∧ uri resource = u ∧ same_content resource c d.
Definition rot_ok w w' : Prop := ∀ u, own_writes (kept u) (history (w_net w) u) (history (w_net w') u).

Lemma rot_ok_refl w w' : w_net w' = w_net w → rot_ok w w'.
Proof. intros E u. rewrite E. apply own_writes_refl. Qed.
Lemma rot_ok_trans w1 w2 w3 : rot_ok w1 w2 → rot_ok w2 w3 → rot_ok w1 w3.
Proof. intros H1 H2 u. eapply own_writes_trans; [apply H1|apply H2]. Qed.
Lemma rot_ok_others w w' : (∀ u, others (history (w_net w) u) (history (w_net w') u)) → rot_ok w w'.
Proof. intros Ho u. apply own_writes_others, Ho. Qed.

(** At some moment between [w] and [w'] the slot held nothing, a document under the new key, or one that is not under the old key. *)
Definition left_old slot w w' : Prop :=
  ∀ resource, slot_resource slot = Good resource →
  ∃ h l0 l1, history (w_net w') (uri resource) = l1 ++ h ∧ h = l0 ++ history (w_net w) (uri resource) ∧
  match current h with
  | None => True
  | Some d => fingerprint (d_blob d) = Some (dek_kid new) ∨ fingerprint (d_blob d) ≠ Some (dek_kid old)
  end.
Lemma left_old_grows slot w0 w w' w1 : rot_ok w0 w → rot_ok w' w1 → left_old slot w w' → left_old slot w0 w1.
Proof.
  intros H0 H1 Hl resource Hr. destruct (Hl resource Hr) as (h & l0 & l1 & Hh1 & -> & Hc).
  destruct (own_writes_grows _ _ _ (H0 (uri resource))) as [l E0]. destruct (own_writes_grows _ _ _ (H1 (uri resource))) as [k E1].
  exists (l0 ++ history (w_net w) (uri resource)), (l0 ++ l), (k ++ l1). split_and!; [by rewrite E1, Hh1, app_assoc|by rewrite E0, app_assoc|done].
Qed.

(** ** Sealing again *)
Lemma seal_with_runs dek resource p w :
  runs (seal_with context dek resource p) w (fun w' r =>
    w_fs w' = w_fs w ∧ w_app w' = w_app w ∧ w_net w' = w_net w ∧
    ∀ blob, r = Good blob → open_with context dek resource blob = Good p ∧ fingerprint blob = Some (dek_kid dek)).
Proof.
  unfold seal_with, runs. cbv [mbind op_bind lift on_rng]. destruct (encrypt_at dek (c_user_id context) resource p (w_rng w)) as [g [e|e]] eqn:E; cbn; [|done].
  split_and!; [done..|]. intros blob Hb. destruct (to_blob e) as [b|] eqn:Hb'; inversion Hb; subst b. apply blob_roundtrip in Hb'.
  pose proof (encrypt_decrypt _ _ _ _ _ _ _ E) as Hd. apply encrypt_at_good in E as (_ & n & c & _ & _ & ->).
  unfold open_with, fingerprint. rewrite Hb'. cbn [mbind result_bind map_err]. rewrite Hd. split; [done|]. cbn [e_kid].
  rewrite base64_roundtrip. cbn. apply sized_some. split; [done|apply (kid_length (R := R))].
Qed.

(** The keys of a rotation, in either direction. *)
Definition pair_of (from to : list N) : Prop := (from = old ∧ to = new) ∨ (from = new ∧ to = old).

(** What [reseal] says is so of the slot when it returns. *)
Definition reseal_true (to : list N) resource w w' (expected : option string) (r : result SyncError Resealed) : Prop :=
  match r with
  | Good (ResealStored revision p) => ∃ d, current (history (w_net w') (uri resource)) = Some d ∧ d_revision d = revision ∧
      open_with context to resource (d_blob d) = Good p ∧ fingerprint (d_blob d) = Some (dek_kid to)
  | Good ResealMissing => current (history (w_net w') (uri resource)) = None ∨ expected ≠ None
  | _ => True
  end.
Lemma reseal_runs from to slot resource expected w : slot_resource slot = Good resource → pair_of from to →
  runs (reseal context from to resource expected) w (fun w' r =>
    w_fs w' = w_fs w ∧ w_app w' = w_app w ∧ rot_ok w w' ∧
    (∀ u, u ≠ uri resource → others (history (w_net w) u) (history (w_net w') u)) ∧ reseal_true to resource w w' expected r).
Proof.
  intros Hslot Hpair. unfold reseal. run_with (fetch_runs context resource). intros w1 [document|e] (Hf & Ha & Ho & Hc); last first.
  { split_and!; [done|done|by apply rot_ok_others|by intros|done]. }
  specialize (Hc _ eq_refl). fold (uri resource) in Hc. destruct document as [d|]; last first.
  { apply runs_ret. split_and!; [done|done|by apply rot_ok_others|by intros|by left]. }
  destruct (match expected with Some _ => _ | None => _ end) eqn:Hx.
  { apply runs_ret. split_and!; [done|done|by apply rot_ok_others|by intros|]. right. by destruct expected. }
  apply runs_bind, runs_lift. destruct (open_with context from resource (d_blob d)) as [p|e] eqn:Hp; [|split_and!; [done|done|by apply rot_ok_others|by intros|done]].
  run_with (seal_with_runs to resource p). intros w2 [blob|e] (Hf2 & Ha2 & Hn2 & Hb); last first.
  { split_and!; [congruence|congruence|apply rot_ok_others; by rewrite Hn2|by rewrite Hn2; intros|done]. }
  destruct (Hb _ eq_refl) as [Hopen Hfp].
  run_with (store_runs context resource blob (Replace (d_revision d)) (fun b => b = blob)); [done|]. fold (uri resource).
  intros w3 r3 (Hf3 & Ha3 & Ho3 & Hw3). rewrite Hn2 in Ho3, Hw3.
  assert (∀ c d', allowed (Replace (d_revision d)) c → d_blob d' = blob → (∀ x, c = Some x → x ∈ documents (history (w_net w3) (uri resource))) → kept (uri resource) c d') as Hkept.
  { intros c d' (d0 & -> & Hd0) Hbl Hin. exists slot, resource. split; [done|]. split; [done|].
    assert (d0 = d) as ->; [|exists d, p; split; [done|]; rewrite Hbl; destruct Hpair as [[-> ->]|[-> ->]]; auto].
    eapply revision_unique; [apply (revisions_unique (w_net w3) (uri resource))|by apply Hin| |done].
    eapply documents_grow; [|by apply current_documents]. eapply own_writes_grows. by eapply (wrote_own _ _ _ _ _ (fun _ _ => True)). }
  assert (own_writes (kept (uri resource)) (history (w_net w1) (uri resource)) (history (w_net w3) (uri resource))) as Hown.
  { destruct Hw3 as (h1 & Hh1 & Hd). eapply own_writes_trans; [apply own_writes_others, Hh1|].
    destruct Hd as [[-> _]|(d' & E & Hal & Hbl & _)]; [apply own_writes_refl|]. rewrite E. apply own_writes_one, Hkept; [done|done|].
    intros x Hx'. rewrite E. apply current_documents in Hx'. cbn. by right. }
  assert (rot_ok w w3) as Hok.
  { intros u. eapply own_writes_trans; [apply own_writes_others, Ho|]. destruct (decide (u = uri resource)) as [->|Hne]; [done|].
    apply own_writes_others. by apply Ho3. }
  assert (∀ u, u ≠ uri resource → others (history (w_net w) u) (history (w_net w3) u)) as He
    by (intros u Hu; eapply others_trans; [apply Ho|by apply Ho3]).
  destruct r3 as [written|e]; [|split_and!; [congruence|congruence|done|done|done]].
  apply runs_ret. split_and!; [congruence|congruence|done|done|]. destruct written as [revision| |]; [|done..].
  destruct (wrote_answer _ _ _ _ _ _ Hw3 eq_refl) as (d' & Hc' & Hr' & <-). by exists d'.
Qed.

(** ** The plan *)
Lemma plan_slots_runs slots plan w :
  runs (plan_slots context old new slots plan) w (fun w' r =>
    w_fs w' = w_fs w ∧ w_app w' = w_app w ∧ (∀ u, others (history (w_net w) u) (history (w_net w') u)) ∧
    ∀ plan', r = Good plan' → (∃ k, p_pending plan' = p_pending plan ++ k) ∧ ∀ slot, slot ∈ slots → slot ∈ p_pending plan' ∨ left_old slot w w').
Proof.
  revert plan w. induction slots as [|slot slots IH]; intros plan w; cbn [plan_slots].
  { apply runs_ret. split_and!; [done|done|intros; apply others_refl|]. intros plan' [= <-]. split; [exists []; by rewrite app_nil_r|]. intros slot Hs. by apply not_elem_of_nil in Hs. }
  apply runs_bind, runs_lift. destruct (slot_resource slot) as [resource|e] eqn:Hres; cbn [map_err];
    [|split_and!; [done|done|intros; apply others_refl|done]].
  run_with (fetch_runs context resource). intros w1 [document|e] (Hf & Ha & Ho & Hc); [|by split_and!].
  specialize (Hc _ eq_refl). fold (uri resource) in Hc. set (plan1 := classify_slot _ _ _ _ _).
  assert ((∃ k, p_pending plan1 = p_pending plan ++ k) ∧ (slot ∈ p_pending plan1 ∨ left_old slot w w1)) as [[k Hk] Hslot].
  { assert (match document with None => True | Some d => fingerprint (d_blob d) = Some (dek_kid new) ∨ fingerprint (d_blob d) ≠ Some (dek_kid old) end →
      left_old slot w w1) as Hleft.
    { intros Hm resource' Hr'. rewrite Hres in Hr'. injection Hr' as <-. destruct (Ho (uri resource)) as (l & El & _).
      exists (history (w_net w1) (uri resource)), l, []. split_and!; [done..|]. by rewrite Hc. }
    unfold plan1, classify_slot. destruct document as [d|]; [|split; [exists []; by rewrite app_nil_r|right; by apply Hleft]].
    destruct (fingerprint (d_blob d)) as [kid|] eqn:Hfp; [|split; [exists []; by rewrite app_nil_r|right; apply Hleft; by right]].
    case_bool_decide as H1; [subst; split; [exists []; by rewrite app_nil_r|right; apply Hleft; by left]|].
    case_bool_decide as H2; cbn; [split; [by exists [slot]|left; apply elem_of_app; right; by left]|].
    split; [exists []; by rewrite app_nil_r|]. right. apply Hleft. right. congruence. }
  eapply runs_mono; [apply (IH plan1 w1)|]. intros w' r (Hf' & Ha' & Ho' & Hr'). split_and!; [congruence|congruence|intros u; by eapply others_trans|].
  intros plan' ->. destruct (Hr' _ eq_refl) as [[k' Hk'] Hs']. split; [exists (k ++ k'); by rewrite Hk', Hk, app_assoc|].
  intros slot' [->|Hin]%elem_of_cons.
  - destruct Hslot as [Hs|Hs]; [left; rewrite Hk'; apply elem_of_app; by left|right].
    eapply left_old_grows; [by apply rot_ok_refl|by apply rot_ok_others|done].
  - destruct (Hs' _ Hin) as [?|Hl]; [by left|right]. eapply left_old_grows; [by apply rot_ok_others|by apply rot_ok_refl|done].
Qed.

(** ** The loops *)
Lemma slot_resource_good slot resource slot' :
  slot_resource slot = Good resource → slot_resource slot' = Good resource → slot = slot'.
Proof. destruct slot as [[]| |], slot' as [[]| |]; vm_compute; congruence. Qed.
Lemma slot_resource_total slot : ∃ resource, slot_resource slot = Good resource.
Proof. destruct slot as [[]| |]; vm_compute; eauto. Qed.
Lemma uri_inj resource resource' : uri resource = uri resource' → r_path resource = r_path resource'.
Proof.
  unfold uri, slot_uri. intros E. apply (f_equal as_bytes) in E. rewrite !as_bytes_app in E. apply app_inv_head in E. rewrite <-!as_bytes_app in E.
  apply as_bytes_inj in E. by injection E.
Qed.
Lemma slot_path_inj slot slot' resource resource' : slot_resource slot = Good resource → slot_resource slot' = Good resource' →
  r_path resource = r_path resource' → slot = slot'.
Proof. destruct slot as [[]| |], slot' as [[]| |]; vm_compute; intros [= <-] [= <-]; try done; intros [=]. Qed.

Definition moved_ok (moved : list (Resource * string)) : Prop :=
  Forall (fun m => ∃ slot, holds_key slot = true ∧ slot_resource slot = Good m.1) moved.
(** Only key slots were written to. *)
Definition artifacts_untouched w w' : Prop :=
  ∀ slot resource, holds_key slot = false → slot_resource slot = Good resource →
  others (history (w_net w) (uri resource)) (history (w_net w') (uri resource)).
Lemma artifacts_untouched_trans w1 w2 w3 : artifacts_untouched w1 w2 → artifacts_untouched w2 w3 → artifacts_untouched w1 w3.
Proof. intros H1 H2 slot resource Hk Hr. eapply others_trans; [by eapply H1|by eapply H2]. Qed.
Lemma untouched_elsewhere slot resource w w' : holds_key slot = true → slot_resource slot = Good resource →
  (∀ u, u ≠ uri resource → others (history (w_net w) u) (history (w_net w') u)) → artifacts_untouched w w'.
Proof.
  intros Hk Hr Ho slot' resource' Hk' Hr'. apply Ho. intros E%uri_inj. pose proof (slot_path_inj _ _ _ _ Hr' Hr E). subst. congruence.
Qed.

Lemma put_back_each_ok moved w : moved_ok moved →
  let w' := put_back_each context old new moved w in
  w_fs w' = w_fs w ∧ w_app w' = w_app w ∧ rot_ok w w' ∧ artifacts_untouched w w'.
Proof.
  revert w. induction moved as [|[resource revision] moved IH]; intros w; cbn [put_back_each].
  { intros _. split_and!; [done|done|by apply rot_ok_refl|]. intros ???? . apply others_refl. }
  intros [(slot & Hk & Hr) Hm]%Forall_cons. cbn [fst] in Hr. destruct (reseal context new old resource (Some revision) w) as [w1 r] eqn:E.
  destruct (runs_eq _ _ _ _ _ (reseal_runs new old slot resource (Some revision) w Hr (or_intror (conj eq_refl eq_refl))) E) as (Hf & Ha & Hok & Ho & _).
  destruct (IH w1 Hm) as (Hf' & Ha' & Hok' & Hu'). split_and!; [congruence|congruence|by eapply rot_ok_trans|].
  eapply artifacts_untouched_trans; [by eapply untouched_elsewhere|done].
Qed.

Lemma move_keys_ok artifacts key_slots moved w w' r :
  Forall (fun slot => holds_key slot = true) key_slots → moved_ok moved →
  move_keys context old new artifacts key_slots moved w = (w', r) →
  w_fs w' = w_fs w ∧ w_app w' = w_app w ∧ rot_ok w w' ∧ artifacts_untouched w w' ∧
  r ≠ inl (Good Complete) ∧ ∀ moved', r = inr moved' → ∀ slot, slot ∈ key_slots → left_old slot w w'.
Proof.
  revert moved w. induction key_slots as [|slot key_slots IH]; intros moved w Hks Hm; cbn [move_keys].
  { intros [= <- <-]. split_and!; [done|done|by apply rot_ok_refl|intros ????; apply others_refl|done|]. intros ? _ slot Hs. by apply not_elem_of_nil in Hs. }
  apply Forall_cons in Hks as [Hk Hks]. destruct (slot_resource_total slot) as [resource Hr]. rewrite Hr.
  destruct (reseal context old new resource None w) as [w1 r1] eqn:E.
  destruct (runs_eq _ _ _ _ _ (reseal_runs old new slot resource None w Hr (or_introl (conj eq_refl eq_refl))) E) as (Hf & Ha & Hok & Ho & Ht).
  pose proof (untouched_elsewhere _ _ _ _ Hk Hr Ho) as Hu.
  assert (∀ r', r' ≠ Good Complete → (put_back context old new moved w1, inl r' : result SyncError RotationOutcome + list (Resource * string)) = (w', r) →
    w_fs w' = w_fs w ∧ w_app w' = w_app w ∧ rot_ok w w' ∧ artifacts_untouched w w' ∧
    r ≠ inl (Good Complete) ∧ ∀ moved', r = inr moved' → ∀ slot', slot' ∈ slot :: key_slots → left_old slot' w w') as Hstop.
  { intros r' Hnc [= <- <-]. unfold put_back. destruct (put_back_each_ok (reverse moved) w1) as (Hf' & Ha' & Hok' & Hu'); [by apply Forall_reverse|].
    split_and!; [congruence|congruence|by eapply rot_ok_trans|by eapply artifacts_untouched_trans|congruence|done]. }
  assert (∀ moved1, moved_ok moved1 → left_old slot w w1 → move_keys context old new artifacts key_slots moved1 w1 = (w', r) →
    w_fs w' = w_fs w ∧ w_app w' = w_app w ∧ rot_ok w w' ∧ artifacts_untouched w w' ∧
    r ≠ inl (Good Complete) ∧ ∀ moved', r = inr moved' → ∀ slot', slot' ∈ slot :: key_slots → left_old slot' w w') as Hgo.
  { intros moved1 Hm1 Hl E1. destruct (IH moved1 w1 Hks Hm1 E1) as (Hf' & Ha' & Hok' & Hu' & Hnc' & Hl').
    split_and!; [congruence|congruence|by eapply rot_ok_trans|by eapply artifacts_untouched_trans|done|].
    intros moved' -> slot' [->|Hin]%elem_of_cons; [eapply left_old_grows; [by apply rot_ok_refl|done|done]|].
    eapply left_old_grows; [done|by apply rot_ok_refl|by eapply Hl']. }
  destruct (own_writes_grows _ _ _ (Hok (uri resource))) as [l El].
  destruct r1 as [[revision p| |]|e]; [| |by apply Hstop..].
  - destruct Ht as (d & Hc & _ & _ & Hfp). apply Hgo; [apply Forall_app; split; [done|]; repeat constructor; by exists slot|].
    intros resource' Hr'. rewrite Hr in Hr'. injection Hr' as <-. exists (history (w_net w1) (uri resource)), l, []. split_and!; [done..|]. rewrite Hc. by left.
  - destruct Ht as [Hc|]; [|done]. apply Hgo; [done|]. intros resource' Hr'. rewrite Hr in Hr'. injection Hr' as <-.
    exists (history (w_net w1) (uri resource)), l, []. split_and!; [done..|]. by rewrite Hc.
Qed.
Section artifacts.
Context (state_path : Path) (persist : App → App).

Lemma persist_runs (persisted : bool) w :
  runs (if persisted then mret () else call_persist persist) w (fun w' r =>
    w_net w' = w_net w ∧ w_fs w' = w_fs w ∧ r = Good () ∧ (persisted = true → w_app w' = w_app w)).
Proof. by destruct persisted. Qed.

(** What happens to a slot's document before the next slot. *)
Lemma after_reseal_runs {A} (persisted : bool) kind revision plaintext (rest : op Net R App SyncError A) w (Q : World Net R App → result SyncError A → Prop) :
  (∀ w', w_net w' = w_net w → touches [state_path; temporary_path state_path] (w_fs w) (w_fs w') → (∀ e, Q w' (Bad e)) ∧ runs rest w' Q) →
  runs (_ ← (if persisted then mret () else call_persist persist);
        local_hash ← lift (text_hash plaintext);
        state ← load_state state_path;
        _ ← save_state "" (state_record state kind revision local_hash) state_path;
        rest) w Q.
Proof.
  intros HQ. run_with (persist_runs persisted). intros w1 r1 (Hn1 & Hf1 & -> & _). apply runs_bind, runs_lift.
  destruct (text_hash plaintext) as [local_hash|e]; [|apply HQ; [done|by rewrite Hf1]].
  run_with (load_state_runs state_path). intros w2 r2 (Hn2 & Ha2 & Ht2 & state & -> & Hs).
  run_with (save_state_runs state_path "" state kind revision local_hash); [by rewrite (touches_state_of _ _ _ Ht2)|].
  intros w3 r3 (Hn3 & _ & Ht3 & _). assert (w_net w3 = w_net w) as Hn by congruence.
  assert (touches [state_path; temporary_path state_path] (w_fs w) (w_fs w3)) as Ht
    by (intros q Hq; rewrite Ht3 by done; rewrite (Ht2 q) by apply not_elem_of_nil; by rewrite Hf1).
  destruct (HQ w3 Hn Ht) as [Hbad Hgo]. destruct r3 as [u|e]; [done|apply Hbad].
Qed.

Lemma move_artifacts_runs artifacts persisted remaining w :
  runs (move_artifacts context old new state_path persist artifacts persisted remaining) w (fun w' r =>
    rot_ok w w' ∧ touches [state_path; temporary_path state_path] (w_fs w) (w_fs w') ∧
    ∀ remaining', r = Good remaining' → ∃ k, remaining' = remaining ++ k ∧
      ∀ slot, slot ∈ artifacts → holds_key slot = true ∨ slot ∈ k ∨ left_old slot w w').
Proof.
  revert persisted remaining w. induction artifacts as [|slot artifacts IH]; intros persisted remaining w; cbn [move_artifacts].
  { apply runs_ret. split_and!; [by apply rot_ok_refl|done|]. intros r [= <-]. exists []. rewrite app_nil_r. split; [done|]. intros slot Hs. by apply not_elem_of_nil in Hs. }
  assert (∀ persisted1 remaining1 k1 w1, rot_ok w w1 → touches [state_path; temporary_path state_path] (w_fs w) (w_fs w1) →
    remaining1 = remaining ++ k1 → (holds_key slot = true ∨ slot ∈ k1 ∨ left_old slot w w1) →
    runs (move_artifacts context old new state_path persist artifacts persisted1 remaining1) w1 (fun w' r =>
      rot_ok w w' ∧ touches [state_path; temporary_path state_path] (w_fs w) (w_fs w') ∧
      ∀ remaining', r = Good remaining' → ∃ k, remaining' = remaining ++ k ∧
        ∀ slot', slot' ∈ slot :: artifacts → holds_key slot' = true ∨ slot' ∈ k ∨ left_old slot' w w')) as Hgo.
  { intros persisted1 remaining1 k1 w1 Hok Ht -> Hslot. eapply runs_mono; [apply IH|]. intros w' r (Hok' & Ht' & Hr').
    split_and!; [by eapply rot_ok_trans|intros q Hq; rewrite Ht' by done; by apply Ht|]. intros remaining' ->.
    destruct (Hr' _ eq_refl) as (k & -> & Hk). exists (k1 ++ k). rewrite app_assoc. split; [done|]. intros slot' [->|Hin]%elem_of_cons.
    - destruct Hslot as [?|[?|Hl]]; [by left|right; left; apply elem_of_app; by left|right; right].
      eapply left_old_grows; [by apply rot_ok_refl|done|done].
    - destruct (Hk _ Hin) as [?|[?|Hl]]; [by left|right; left; apply elem_of_app; by right|right; right].
      eapply left_old_grows; [done|by apply rot_ok_refl|done]. }
  destruct slot as [kind| |]; [|apply (Hgo persisted remaining []); [by apply rot_ok_refl|done|by rewrite app_nil_r|by left]..].
  set (slot := SlotArtifact kind) in *. apply runs_bind, runs_lift. cbn [slot slot_resource map_err].
  run_with (reseal_runs old new slot (sync kind) None w eq_refl (or_introl (conj eq_refl eq_refl))).
  intros w1 r1 (Hf & Ha & Hok & Ho & Ht). destruct (own_writes_grows _ _ _ (Hok (uri (sync kind)))) as [l El].
  assert (touches [state_path; temporary_path state_path] (w_fs w) (w_fs w1)) as Ht1 by (by rewrite Hf).
  assert (match current (history (w_net w1) (uri (sync kind))) with None => True | Some d => fingerprint (d_blob d) = Some (dek_kid new) ∨ fingerprint (d_blob d) ≠ Some (dek_kid old) end →
    left_old slot w w1) as Hleft.
  { intros Hm resource [= <-]. exists (history (w_net w1) (uri (sync kind))), l, []. by split_and!. }
  destruct r1 as [[revision plaintext| |]|e].
  - destruct Ht as (d & Hc & _ & _ & Hfp). rewrite Hc in Hleft. specialize (Hleft (or_introl Hfp)).
    apply after_reseal_runs. intros w2 Hn2 Ht2.
    assert (rot_ok w w2) as Hok2 by (eapply rot_ok_trans; [done|by apply rot_ok_refl]).
    assert (touches [state_path; temporary_path state_path] (w_fs w) (w_fs w2)) as Ht2' by (by rewrite <-Hf).
    split; [intros e; by split_and!|]. apply (Hgo true remaining []); [done|done|by rewrite app_nil_r|].
    right. right. eapply left_old_grows; [by apply rot_ok_refl|by apply rot_ok_refl|done].
  - destruct Ht as [Hc|]; [|done]. apply (Hgo persisted remaining []); [done|done|by rewrite app_nil_r|]. right. right. apply Hleft. by rewrite Hc.
  - apply (Hgo persisted _ [slot]); [done|done|done|]. right. left. by left.
  - by split_and!.
Qed.

Lemma finish_runs artifacts persisted w :
  runs (finish context old new state_path persist artifacts persisted) w (fun w' r =>
    rot_ok w w' ∧ touches [state_path; temporary_path state_path] (w_fs w) (w_fs w') ∧
    (r = Good Complete → ∀ slot, slot ∈ artifacts → holds_key slot = false → left_old slot w w')).
Proof.
  unfold finish. apply runs_bind. eapply (runs_mono _ _ (fun w' r => w_net w' = w_net w ∧ w_fs w' = w_fs w ∧ r = Good ())); [by destruct persisted|].
  intros w1 r1 (Hn1 & Hf1 & ->). run_with (move_artifacts_runs artifacts persisted []). intros w2 r2 (Hok & Ht & Hr).
  assert (rot_ok w w2) as Hok' by (eapply rot_ok_trans; [by apply rot_ok_refl|done]). rewrite Hf1 in Ht.
  destruct r2 as [remaining|e]; [|by split_and!]. apply runs_ret. split_and!; [done|done|].
  destruct (Hr _ eq_refl) as (k & -> & Hk). destruct k as [|x k]; cbn; [|done]. intros _ slot Hin Hs.
  destruct (Hk slot Hin) as [?|[?%not_elem_of_nil|Hl]]; [congruence|done|]. by eapply (left_old_grows _ w w1 w2); [apply rot_ok_refl|apply rot_ok_refl|].
Qed.

(** The whole call. *)
Lemma rotate_runs w :
  runs (rotate context old new state_path persist) w (fun w' r =>
    rot_ok w w' ∧ touches [state_path; temporary_path state_path] (w_fs w) (w_fs w') ∧
    ((w_app w' = w_app w ∧ artifacts_untouched w w') ∨ ∀ slot, holds_key slot = true → left_old slot w w') ∧
    (r = Good Complete → ∀ slot, left_old slot w w')).
Proof.
  unfold rotate, plan. run_with (plan_slots_runs Slot_ALL). intros w1 [plan|e] (Hf1 & Ha1 & Ho1 & Hp1); last first.
  { split_and!; [by apply rot_ok_others|by rewrite Hf1|left; split; [done|by intros ????]|done]. }
  destruct (Hp1 _ eq_refl) as [_ Hpend]. clear Hp1. unfold runs, run_plan.
  set (key_slots := filter (fun slot => holds_key slot = true) (p_pending plan)). set (artifacts := filter (fun slot => holds_key slot = false) (p_pending plan)).
  destruct (move_keys context old new artifacts key_slots [] w1) as [w2 r2] eqn:E2.
  apply move_keys_ok in E2 as (Hf2 & Ha2 & Hok2 & Hu2 & Hnc2 & Hl2); [|apply Forall_forall; intros s; by intros [? _]%list_elem_of_filter|constructor].
  assert (rot_ok w w2) as Hok by (eapply rot_ok_trans; [by apply rot_ok_others|done]).
  assert (artifacts_untouched w w2) as Hu by (eapply artifacts_untouched_trans; [|done]; by intros ????).
  assert (touches [state_path; temporary_path state_path] (w_fs w) (w_fs w2)) as Ht by (by rewrite Hf2, Hf1).
  destruct r2 as [stopped|moved]; [cbn [fst snd]; split_and!; [done|done|left; split; [congruence|done]|]|].
  { intros ->. done. }
  assert (∀ slot, holds_key slot = true → left_old slot w w2) as Hkeys.
  { intros slot Hk. destruct (Hpend slot) as [Hin|Hl]; [destruct slot as [[]| |]; set_solver| |].
    - eapply (left_old_grows _ w w1 w2); [by apply rot_ok_others|by apply rot_ok_refl|]. eapply Hl2; [done|]. by apply list_elem_of_filter.
    - by eapply (left_old_grows _ w w w1); [apply rot_ok_refl| |]. }
  set (persisted := negb (is_empty_slice moved) || _).
  destruct (finish context old new state_path persist artifacts persisted w2) as [w3 r3] eqn:E3.
  destruct (runs_eq _ _ _ _ _ (finish_runs artifacts persisted w2) E3) as (Hok3 & Ht3 & Hc3). cbn [fst snd].
  assert (rot_ok w w3) as Hok' by (by eapply rot_ok_trans).
  assert (∀ slot, holds_key slot = true → left_old slot w w3) as Hkeys3.
  { intros slot Hk. by eapply (left_old_grows _ w w w2); [apply rot_ok_refl| |apply Hkeys]. }
  split_and!; [done|intros q Hq; rewrite Ht3 by done; by apply Ht|by right|]. intros Hr slot.
  destruct (holds_key slot) eqn:Hk; [by apply Hkeys3|]. destruct (Hpend slot) as [Hin|Hl]; [destruct slot as [[]| |]; set_solver| |].
  - eapply (left_old_grows _ w w2 w3); [done|by apply rot_ok_refl|]. apply Hc3; [done|by apply list_elem_of_filter|done].
  - eapply (left_old_grows _ w w w1); [by apply rot_ok_refl| |done]. by eapply rot_ok_trans.
Qed.

(** C25: Wherever a rotation stops, on an error, a conflict, a plan limit or a crash: a document it replaced holds the same content under the
    other of the two keys; the only local file it changed is the sync state; and unless both documents that hold keys left
    the old key during the call, the new key was not adopted and no other document was written.  A rotation
    that completes has moved every document off the old key. *)
Theorem rotate_safe (w w' : World Net R App) (r : result SyncError RotationOutcome) :
  rotate context old new state_path persist w = (w', r) →
  rot_ok w w' ∧ touches [state_path; temporary_path state_path] (w_fs w) (w_fs w') ∧
  ((w_app w' = w_app w ∧ artifacts_untouched w w') ∨ ∀ slot, holds_key slot = true → left_old slot w w') ∧
  (r = Good Complete → ∀ slot, left_old slot w w').
Proof. apply (runs_eq _ _ _ _ _ (rotate_runs w)). Qed.
End artifacts.
End rotate_facts.

(** * Syncing succeeds when nothing is in the way

    A service that answers and to which nobody else writes ([QuietServer]), a cipher and codecs that accept their input ([WorkingCrypto]), and files without faults: a rotation moves
    every document. *)

Class QuietServer {Net : Type} `{WireJson, !HttpClient Net, !SyncServer Net} (quiet : Net → Prop) : Prop := {
  quiet_request q : request_ok q = true;
  quiet_payload blob : ∃ payload, json_of_put blob = Some payload;
  quiet_get q net : quiet net → q_method q = "GET"%string →
    ∃ net' status body, http_send q net = (net', Some (status, Some body)) ∧ quiet net' ∧ (∀ u, history net' u = history net u) ∧
    match current (history net (q_uri q)) with
    | Some d => success status = true ∧ document_of_json body = Some (d_blob d, d_revision d)
    | None => status = 404
    end;
  quiet_put q net blob p : quiet net → q_method q = "PUT"%string → json_of_put blob = Some (q_body q) → precondition_of q = Some p →
    allowed p (current (history net (q_uri q))) →
    ∃ net' status body revision, http_send q net = (net', Some (status, Some body)) ∧ success status = true ∧ quiet net' ∧
    stored_of_json body = Some revision ∧
    history net' (q_uri q) = mkWrite true (Some (mkDocument blob revision)) :: history net (q_uri q) ∧
    (∀ u, u ≠ q_uri q → history net' u = history net u) }.

Class WorkingCrypto `{SyncCrypto, StateJson} {R : Type} `{!Rng R} : Prop := {
  fill_total n (rng : R) : ∃ rng' bytes, fill n rng = (rng', Some bytes);
  seal_total key nonce aad p : ∃ c, aead_seal key nonce aad p = Some c;
  json_total e : ∃ json, json_of_envelope e = Good json;
  state_json_total s : ∃ raw, json_of_state s = Some raw }.
Arguments WorkingCrypto {_ _} R {_}.

Section live.
Context {crypto : SyncCrypto} {wire : WireJson} {sj : StateJson} {ld : LineDiff} {utf8 : Utf8Text}.
Context {Net R App : Type} {http : HttpClient Net} {rng : Rng R} {srv : SyncServer Net} (quiet : Net → Prop).
Context {CL : CryptoLaws R} {SL : ServerLaws Net} {JL : StateLaws} {TL : TextLaws} {QS : QuietServer quiet} {WC : WorkingCrypto R}.
Context (context : SyncContext).
Implicit Types (w : World Net R App) (resource : Resource).

(** Nothing is in the way. *)
Definition clear w : Prop := quiet (w_net w) ∧ fs_faults (w_fs w) = [].

(** ** Requests *)
Lemma success_classify ep status body : success status = true → classify ep status body = Good ().
Proof. unfold success, classify. by intros ->. Qed.
Lemma success_status status : success status = true → status ≠ 404 ∧ status ≠ 409.
Proof. unfold success. rewrite andb_true_iff, N.leb_le, N.ltb_lt. lia. Qed.

Lemma fetch_live ep resource net : quiet net →
  ∃ net', fetch ep resource net = (net', Good (current (history net (slot_uri ep resource)))) ∧ quiet net' ∧ ∀ u, history net' u = history net u.
Proof.
  intros Hq. unfold fetch, fetch_body, with_body. rewrite quiet_request. cbn [q_method q_uri q_headers build]. set (q := mkRequest _ _ _ _). unfold send.
  destruct (quiet_get q net Hq eq_refl) as (net' & status & body & -> & Hq' & Hh & Hc). exists net'. split; [|done]. f_equal.
  change (q_uri q) with (slot_uri ep resource) in Hc. cbn [mbind result_bind]. destruct (current (history net (slot_uri ep resource))) as [d|].
  - destruct Hc as [Hs Hd]. destruct (success_status _ Hs) as [H404 _]. rewrite (proj2 (N.eqb_neq _ _) H404).
    rewrite (success_classify ep status body Hs). cbn [mbind result_bind]. rewrite Hd. by destruct d.
  - subst status. done.
Qed.
Lemma store_live ep resource blob p net : quiet net → allowed p (current (history net (slot_uri ep resource))) →
  ∃ net' revision, store ep resource blob p net = (net', Good (Stored revision)) ∧ quiet net' ∧
  history net' (slot_uri ep resource) = mkWrite true (Some (mkDocument blob revision)) :: history net (slot_uri ep resource) ∧
  ∀ u, u ≠ slot_uri ep resource → history net' u = history net u.
Proof.
  intros Hq Hal. destruct (quiet_payload blob) as [payload Hp]. unfold store.
  destruct (put_request ep resource blob p) as [q|e] eqn:Hr; last first.
  { unfold put_request, with_body in Hr. rewrite Hp in Hr. cbn [ok_or mbind result_bind] in Hr. by rewrite quiet_request in Hr. }
  apply put_request_good in Hr as (Hm & Hu & Hb & Hpre). unfold send. rewrite <-Hu in Hal.
  destruct (quiet_put q net blob p Hq Hm Hb Hpre Hal) as (net' & status & body & revision & -> & Hs & Hq' & Hst & Hh & Ho).
  exists net', revision. rewrite <-Hu. split; [|done]. f_equal. cbn [mbind result_bind]. unfold put_answer. destruct (success_status _ Hs) as [H404 H409].
  rewrite (proj2 (N.eqb_neq _ _) H404), (proj2 (N.eqb_neq _ _) H409), (success_classify _ _ _ Hs). cbn [mbind result_bind]. by rewrite Hst.
Qed.

(** ** Sealing *)
Lemma seal_live dek resource p w : length dek = DEK_LEN → clear w →
  runs (seal_with context dek resource p) w (fun w' r => clear w' ∧ w_fs w' = w_fs w ∧ w_app w' = w_app w ∧ w_net w' = w_net w ∧
    ∃ blob, r = Good blob ∧ open_with context dek resource blob = Good p ∧ fingerprint blob = Some (dek_kid dek)).
Proof.
  intros Hl [Hq Hf]. pose proof (seal_with_runs context dek resource p w) as Hrun. unfold runs in *. cbv beta in *.
  assert (∃ blob, (seal_with context dek resource p w).2 = Good blob) as [blob Hblob].
  { unfold seal_with. cbv [mbind op_bind lift on_rng]. unfold encrypt_at. destruct (fill_total NONCE_LEN (w_rng w)) as (g & n & ->).
    unfold sealing_key. rewrite (proj2 (Nat.eqb_eq _ _) Hl). cbn [mbind result_bind].
    destruct (seal_total dek n (aad (c_user_id context) resource ENVELOPE_VERSION (dek_kid dek)) p) as [c ->]. cbn [ok_or mbind result_bind map_err snd].
    unfold to_blob. destruct (json_total (mkEnvelope ENVELOPE_VERSION ALGORITHM (base64_encode (dek_kid dek)) (base64_encode n) (base64_encode c))) as [json ->].
    cbn. eauto. }
  destruct Hrun as (Hfs & Ha & Hn & Hb). split_and!; [split; [by rewrite Hn|by rewrite Hfs]|done..|]. exists blob. split; [done|]. by apply Hb.
Qed.

(** A document under [from] is sealed again under [to]. *)
Lemma reseal_live from to resource w d p : length to = DEK_LEN → clear w →
  current (history (w_net w) (slot_uri (c_endpoint context) resource)) = Some d → open_with context from resource (d_blob d) = Good p →
  runs (reseal context from to resource None) w (fun w' r => clear w' ∧ w_fs w' = w_fs w ∧ w_app w' = w_app w ∧
    (∀ u, u ≠ slot_uri (c_endpoint context) resource → history (w_net w') u = history (w_net w) u) ∧
    ∃ d', r = Good (ResealStored (d_revision d') p) ∧ current (history (w_net w') (slot_uri (c_endpoint context) resource)) = Some d' ∧
      open_with context to resource (d_blob d') = Good p ∧ fingerprint (d_blob d') = Some (dek_kid to)).
Proof.
  intros Hl [Hq Hf] Hc Hp. unfold reseal. apply runs_bind. unfold runs at 1, on_net.
  destruct (fetch_live (c_endpoint context) resource (w_net w) Hq) as (net1 & -> & Hq1 & Hh1). rewrite Hc. cbn [map_err fst snd].
  apply runs_bind, runs_lift. rewrite Hp. set (w1 := mkWorld _ net1 _ _). run_with (seal_live to resource p w1 Hl); [by split|].
  intros w2 r2 (Hcl2 & Hf2 & Ha2 & Hn2 & blob & -> & Hopen & Hfp). apply runs_bind. unfold runs at 1, on_net.
  destruct (store_live (c_endpoint context) resource blob (Replace (d_revision d)) (w_net w2)) as (net3 & revision & -> & Hq3 & Hh3 & Ho3).
  { by apply Hcl2. } { rewrite Hn2. cbn [w1 w_net]. rewrite Hh1, Hc. by exists d. }
  cbn [map_err fst snd]. apply runs_ret. rewrite Hn2 in Ho3, Hh3. cbn [w1 w_net] in Ho3, Hh3.
  split_and!; cbn [w_net w_fs w_app]; [split; [done|by rewrite Hf2]|by rewrite Hf2|by rewrite Ha2| |].
  - intros u Hu. by rewrite Ho3, Hh1.
  - exists (mkDocument blob revision). rewrite Hh3. by split_and!.
Qed.
(** ** Files *)
Lemma next_fault_live fs : fs_faults fs = [] → next_fault fs = (fs, None).
Proof. unfold next_fault. by intros ->. Qed.
Lemma write_atomic_live p c fs : fs_faults fs = [] → p ≠ [] →
  ∃ fs', write_atomic p c fs = (fs', Good ()) ∧ fs_faults fs' = [].
Proof.
  intros Hf Hp. unfold write_atomic, create_dir_all, fs_write, rename, move_file. destruct (parent p) eqn:E; [|by destruct p].
  rewrite (next_fault_live fs Hf). rewrite (next_fault_live fs Hf).
  rewrite (next_fault_live (set_file (temporary_path p) c fs)) by done. cbn [fs_files set_file]. rewrite lookup_insert_eq. eauto.
Qed.
Lemma load_live p fs : fs_faults fs = [] → load p fs = (fs, stored_state p fs).
Proof.
  intros Hf. unfold load, read, read_to_string, stored_state. rewrite (next_fault_live fs Hf). by destruct (fs_files fs !! p).
Qed.
Lemma record_live attempt state_path kind revision local_hash w : state_path ≠ [] → clear w →
  runs (state ← load_state state_path; save_state attempt (state_record state kind revision local_hash) state_path) w (fun w' r =>
    clear w' ∧ w_net w' = w_net w ∧ w_app w' = w_app w ∧ r = Good () ∧
    touches [state_path; temporary_path state_path] (w_fs w) (w_fs w') ∧
    ∀ kind', state_get (state_of state_path w') kind' = if decide (kind' = kind) then Some (mkSyncedAt revision local_hash) else state_get (state_of state_path w) kind').
Proof.
  intros Hp [Hq Hf]. unfold runs. cbv [mbind op_bind load_state save_state save]. rewrite (load_live _ _ Hf). cbn [w_fs w_net w_rng w_app].
  destruct (state_json_total (state_record (stored_state state_path (w_fs w)) kind revision local_hash)) as [raw Hraw]. rewrite Hraw.
  destruct (write_atomic_live state_path raw (w_fs w) Hf Hp) as (fs' & E & Hf'). rewrite E. apply write_atomic_files in E as (Ht & _ & Hg).
  cbn [fst snd w_net w_app w_fs map_err]. split_and!; [by split|done..|]. intros kind'. unfold state_of, stored_state. cbn [w_fs].
  rewrite (proj1 (Hg eq_refl)), (state_roundtrip _ _ Hraw). cbn [default from_option id]. by rewrite state_get_record.
Qed.

(** ** Rotation *)
Section rotation.
Context (old new : list N) (state_path : Path) (persist : App → App).
Context (Hnew : length new = DEK_LEN) (Hpath : state_path ≠ []).

Definition slot_history w slot : list Write :=
  match slot_resource slot with Good resource => history (w_net w) (slot_uri (c_endpoint context) resource) | Bad _ => [] end.
Definition slot_kid w slot : option (list N) := current (slot_history w slot) ≫= fun d => fingerprint (d_blob d).
Definition is_done w slot : bool := bool_decide (slot_kid w slot = Some (dek_kid new)).
Definition is_pending w slot : bool := negb (is_done w slot) && bool_decide (slot_kid w slot = Some (dek_kid old)).
Definition is_absent w slot : bool := match current (slot_history w slot) with None => true | Some _ => false end.

(** What is under the old key opens with it, and the artifacts are text. *)
Definition openable w slot : Prop :=
  is_pending w slot = true → ∃ resource d p, slot_resource slot = Good resource ∧ current (slot_history w slot) = Some d ∧
    open_with context old resource (d_blob d) = Good p ∧ (holds_key slot = false → is_Some (text_of_bytes p)).
(** The slot went from the old key to the new one. *)
Definition moved_over w w' slot : Prop :=
  ∃ resource d d' p, slot_resource slot = Good resource ∧ current (slot_history w slot) = Some d ∧ open_with context old resource (d_blob d) = Good p ∧
    current (slot_history w' slot) = Some d' ∧ open_with context new resource (d_blob d') = Good p ∧ fingerprint (d_blob d') = Some (dek_kid new).

Lemma slot_uri_inj slot slot' resource resource' : slot_resource slot = Good resource → slot_resource slot' = Good resource' → slot ≠ slot' →
  slot_uri (c_endpoint context) resource' ≠ slot_uri (c_endpoint context) resource.
Proof. intros Hr Hr' Hne E%(uri_inj context). apply Hne. by eapply slot_path_inj. Qed.

Lemma plan_slots_live slots plan w : clear w →
  runs (plan_slots context old new slots plan) w (fun w' r =>
    clear w' ∧ w_fs w' = w_fs w ∧ w_app w' = w_app w ∧ (∀ slot, slot_history w' slot = slot_history w slot) ∧
    r = Good (mkPlan (p_pending plan ++ filter (fun s => is_pending w s = true) slots) (p_done plan ++ filter (fun s => is_done w s = true) slots)
                     (p_absent plan ++ filter (fun s => is_absent w s = true) slots))).
Proof.
  revert plan w. induction slots as [|slot slots IH]; intros [pending done absent] w Hcl; cbn [plan_slots].
  { apply runs_ret. rewrite !app_nil_r. by split_and!. }
  destruct (slot_resource_total slot) as [resource Hr]. rewrite Hr. apply runs_bind, runs_lift. cbn [map_err].
  apply runs_bind. unfold runs at 1, on_net. destruct (fetch_live (c_endpoint context) resource (w_net w) (proj1 Hcl)) as (net1 & -> & Hq1 & Hh1).
  cbn [map_err fst snd]. set (w1 := mkWorld _ net1 _ _).
  assert (∀ slot, slot_history w1 slot = slot_history w slot) as Hsame by (intros s; unfold slot_history; destruct (slot_resource s); [apply Hh1|done]).
  assert (∀ s, is_pending w1 s = is_pending w s ∧ is_done w1 s = is_done w s ∧ is_absent w1 s = is_absent w s) as Hst
    by (intros s; unfold is_pending, is_done, is_absent, slot_kid; by rewrite Hsame).
  eapply runs_mono; [apply IH; split; [done|apply Hcl]|]. cbn beta. intros w' r (Hcl' & Hf' & Ha' & Hh' & ->). split_and!; [done..|intros s; by rewrite Hh', Hsame|].
  rewrite (list_filter_iff (fun s => is_pending w1 s = true) (fun s => is_pending w s = true)), (list_filter_iff (fun s => is_done w1 s = true) (fun s => is_done w s = true)),
    (list_filter_iff (fun s => is_absent w1 s = true) (fun s => is_absent w s = true)) by (intros s; destruct (Hst s) as (E1 & E2 & E3); by rewrite ?E1, ?E2, ?E3).
  rewrite !filter_cons. unfold is_pending, is_done, is_absent, slot_kid, slot_history. rewrite Hr.
  unfold classify_slot. destruct (current _) as [d|]; cbn [mbind option_bind].
  - destruct (fingerprint (d_blob d)) as [kid|]; [|by rewrite !bool_decide_false by done].
    destruct (decide (kid = dek_kid new)) as [->|H1].
    + rewrite !(bool_decide_true (_ = _)) by done. cbn. by rewrite <-!app_assoc.
    + rewrite (bool_decide_false (kid = _)), (bool_decide_false (Some kid = Some (dek_kid new))) by congruence. cbn [negb andb].
      destruct (decide (kid = dek_kid old)) as [->|H2].
      * rewrite !(bool_decide_true (_ = _)) by done. cbn. by rewrite <-!app_assoc.
      * by rewrite (bool_decide_false (kid = _)), (bool_decide_false (Some kid = Some (dek_kid old))) by congruence.
  - rewrite !bool_decide_false by done. cbn. by rewrite <-!app_assoc.
Qed.

Lemma slot_reseal_live slot resource w : clear w → is_pending w slot = true → openable w slot → slot_resource slot = Good resource →
  runs (reseal context old new resource None) w (fun w' r => clear w' ∧ w_fs w' = w_fs w ∧ w_app w' = w_app w ∧
    (∀ slot', slot' ≠ slot → slot_history w' slot' = slot_history w slot') ∧ moved_over w w' slot ∧
    ∃ revision p, r = Good (ResealStored revision p) ∧ (holds_key slot = false → is_Some (text_of_bytes p))).
Proof.
  intros Hcl Hp Ho Hr. destruct (Ho Hp) as (resource' & d & p & Hr' & Hd & Hopen & Htext). rewrite Hr in Hr'. injection Hr' as <-.
  assert (slot_history w slot = history (w_net w) (slot_uri (c_endpoint context) resource)) as Eh by (unfold slot_history; by rewrite Hr).
  eapply runs_mono; [apply (reseal_live old new resource w d p); [done|done|by rewrite <-Eh|done]|]. cbn beta.
  intros w' r (Hcl' & Hf & Ha & Ho' & d' & -> & Hc' & Hopen' & Hfp). split_and!; [done..| | |].
  - intros slot' Hne. unfold slot_history. destruct (slot_resource slot') as [resource'|] eqn:Hr'; [|done]. apply Ho'.
    apply (slot_uri_inj slot slot'); congruence.
  - exists resource, d, d', p. split_and!; try done. unfold slot_history. by rewrite Hr.
  - by exists (d_revision d'), p.
Qed.

Lemma pending_same w w' slot : slot_history w' slot = slot_history w slot →
  is_pending w' slot = is_pending w slot ∧ (openable w slot → openable w' slot) ∧ ∀ w2, moved_over w' w2 slot → moved_over w w2 slot.
Proof. intros E. unfold openable, moved_over, is_pending, is_done, slot_kid. by rewrite E. Qed.
Lemma moved_same w w1 w2 slot : slot_history w2 slot = slot_history w1 slot → moved_over w w1 slot → moved_over w w2 slot.
Proof. intros E. unfold moved_over. by rewrite E. Qed.

Lemma move_keys_live artifacts key_slots moved w : clear w → NoDup key_slots →
  (∀ slot, slot ∈ key_slots → is_pending w slot = true ∧ openable w slot) →
  ∃ w' moved', move_keys context old new artifacts key_slots moved w = (w', inr moved') ∧ clear w' ∧ w_fs w' = w_fs w ∧ w_app w' = w_app w ∧
    length moved' = (length moved + length key_slots)%nat ∧
    (∀ slot, slot ∈ key_slots → moved_over w w' slot) ∧ (∀ slot, slot ∉ key_slots → slot_history w' slot = slot_history w slot).
Proof.
  revert moved w. induction key_slots as [|slot key_slots IH]; intros moved w Hcl Hnd Hall; cbn [move_keys].
  { exists w, moved. cbn. rewrite Nat.add_0_r. split_and!; try done. intros slot Hs. by apply not_elem_of_nil in Hs. }
  apply NoDup_cons in Hnd as [Hni Hnd]. destruct (slot_resource_total slot) as [resource Hr]. rewrite Hr.
  destruct (Hall slot) as [Hp Ho]; [by left|]. destruct (reseal context old new resource None w) as [w1 r1] eqn:E.
  destruct (runs_eq _ _ _ _ _ (slot_reseal_live slot resource w Hcl Hp Ho Hr) E) as (Hcl1 & Hf1 & Ha1 & Hs1 & Hm1 & revision & p & -> & _).
  destruct (IH (moved ++ [(resource, revision)]) w1 Hcl1 Hnd) as (w' & moved' & -> & Hcl' & Hf' & Ha' & Hl' & Hm' & Hs').
  { intros s Hin. assert (s ≠ slot) as Hne by congruence. destruct (Hall s) as [Hps Hos]; [by right|].
    destruct (pending_same w w1 s (Hs1 s Hne)) as (-> & Ho' & _). by auto. }
  exists w', moved'. rewrite length_app in Hl'. cbn [length] in *. split_and!; [done|done|congruence|congruence|lia| |].
  - intros s [->|Hin]%elem_of_cons; [eapply moved_same; [by apply Hs'|done]|].
    assert (s ≠ slot) as Hne by congruence. apply (pending_same w w1 s (Hs1 s Hne)). by apply Hm'.
  - intros s [Hne Hnin]%not_elem_of_cons. by rewrite Hs', Hs1.
Qed.

Lemma move_artifacts_live artifacts persisted w : clear w → NoDup artifacts →
  (∀ slot, slot ∈ artifacts → holds_key slot = false ∧ is_pending w slot = true ∧ openable w slot) →
  runs (move_artifacts context old new state_path persist artifacts persisted []) w (fun w' r => clear w' ∧ r = Good [] ∧
    w_app w' = (if persisted || is_empty_slice artifacts then w_app w else persist (w_app w)) ∧
    (∀ slot, slot ∈ artifacts → moved_over w w' slot) ∧ (∀ slot, slot ∉ artifacts → slot_history w' slot = slot_history w slot)).
Proof.
  revert persisted w. induction artifacts as [|slot artifacts IH]; intros persisted w Hcl Hnd Hall; cbn [move_artifacts].
  { apply runs_ret. rewrite orb_true_r. split_and!; try done. intros slot Hs. by apply not_elem_of_nil in Hs. }
  apply NoDup_cons in Hnd as [Hni Hnd]. destruct (Hall slot) as (Hk & Hp & Ho); [by left|]. destruct slot as [kind| |]; [|done..].
  set (slot := SlotArtifact kind) in *. apply runs_bind, runs_lift. cbn [slot slot_resource map_err].
  run_with (slot_reseal_live slot (sync kind) w Hcl Hp Ho eq_refl). intros w1 r1 (Hcl1 & Hf1 & Ha1 & Hs1 & Hm1 & revision & p & -> & Htext).
  destruct (Htext eq_refl) as [text Ht]. apply runs_bind.
  eapply (runs_mono _ _ (fun w' r => clear w' ∧ w_net w' = w_net w1 ∧ w_app w' = (if persisted then w_app w1 else persist (w_app w1)) ∧ r = Good ()));
    [by destruct persisted|].
  intros w2 r2 (Hcl2 & Hn2 & Ha2 & ->). apply runs_bind, runs_lift. unfold text_hash. rewrite Ht. cbn [ok_or mbind result_bind].
  pose proof (record_live "" state_path kind revision (hash text) w2 Hpath Hcl2) as Hrec. revert Hrec. unfold runs at 1. cbv [mbind op_bind].
  intros Hrec. apply runs_bind. unfold runs at 1. destruct (load_state state_path w2) as [w3 [state|e]] eqn:E3; cbn [fst snd];
    [|by destruct Hrec as (_ & _ & _ & ? & _)].
  apply runs_bind. unfold runs at 1. destruct (save_state "" (state_record state kind revision (hash text)) state_path w3) as [w4 r4] eqn:E4.
  cbn [fst snd] in *. destruct Hrec as (Hcl4 & Hn4 & Ha4 & -> & _).
  assert (∀ s, slot_history w4 s = slot_history w1 s) as Hs4 by (intros s; unfold slot_history; by rewrite Hn4, Hn2).
  eapply runs_mono; [apply (IH true w4 Hcl4 Hnd)|].
  { intros s Hin. assert (s ≠ slot) as Hne by congruence. destruct (Hall s) as (Hks & Hps & Hos); [by right|].
    assert (slot_history w4 s = slot_history w s) as E by (rewrite Hs4; by apply Hs1).
    destruct (pending_same w w4 s E) as (-> & Ho' & _). by auto. }
  cbn beta. intros w' r (Hcl' & -> & Ha' & Hm' & Hs'). split_and!; [done|done| | |].
  - rewrite Ha', Ha4, Ha2, Ha1. cbn [is_empty_slice]. by rewrite orb_false_r.
  - intros s [->|Hin]%elem_of_cons; [eapply moved_same; [by rewrite Hs', Hs4|done]|].
    assert (s ≠ slot) as Hne by congruence. assert (slot_history w4 s = slot_history w s) as E by (rewrite Hs4; by apply Hs1).
    apply (pending_same w w4 s E). by apply Hm'.
  - intros s [Hne Hnin]%not_elem_of_cons. by rewrite Hs', Hs4, Hs1.
Qed.

Lemma finish_live artifacts persisted w : clear w → NoDup artifacts →
  (∀ slot, slot ∈ artifacts → holds_key slot = false ∧ is_pending w slot = true ∧ openable w slot) →
  runs (finish context old new state_path persist artifacts persisted) w (fun w' r => r = Good Complete ∧
    (∀ slot, slot ∈ artifacts → moved_over w w' slot) ∧ (∀ slot, slot ∉ artifacts → slot_history w' slot = slot_history w slot) ∧
    w_app w' = (if persisted || negb (is_empty_slice artifacts) then persist (w_app w) else w_app w)).
Proof.
  intros Hcl Hnd Hall. unfold finish. apply runs_bind.
  eapply (runs_mono _ _ (fun w' r => w_net w' = w_net w ∧ w_fs w' = w_fs w ∧ r = Good () ∧ w_app w' = (if persisted then persist (w_app w) else w_app w)));
    [by destruct persisted|]. intros w1 r1 (Hn1 & Hf1 & -> & Ha1).
  assert (∀ s, slot_history w1 s = slot_history w s) as Hs1 by (intros s; unfold slot_history; by rewrite Hn1).
  run_with (move_artifacts_live artifacts persisted w1); [unfold clear; by rewrite Hn1, Hf1|done| |].
  { intros s Hs. destruct (Hall s Hs) as (Hk & Hp & Ho). destruct (pending_same w w1 s (Hs1 s)) as (-> & Ho' & _). auto. }
  intros w2 r2 (_ & -> & Ha2 & Hm2 & Hs2). apply runs_ret. split_and!; [done| |intros s Hs; by rewrite Hs2, Hs1|].
  - intros s Hs. apply (pending_same w w1 s (Hs1 s)). by apply Hm2.
  - rewrite Ha2, Ha1. by destruct persisted, (is_empty_slice artifacts).
Qed.

Lemma slot_all slot : slot ∈ Slot_ALL.
Proof. destruct slot as [[]| |]; set_solver. Qed.
Lemma slot_all_nodup : NoDup Slot_ALL.
Proof. apply (bool_decide_unpack (NoDup Slot_ALL)). vm_compute. exact I. Qed.
Lemma empty_length {A B} (l : list A) (k : list B) : length l = length k → is_empty_slice l = is_empty_slice k.
Proof. by destruct l, k. Qed.

Lemma filter_existsb {A} (f : A → bool) l : negb (is_empty_slice (filter (fun x => f x = true) l)) = existsb f l.
Proof. induction l as [|x l IH]; [done|]. rewrite filter_cons. cbn [existsb]. destruct (f x); [done|exact IH]. Qed.
Lemma existsb_or {A} (f g : A → bool) l : existsb (fun x => f x || g x) l = existsb f l || existsb g l.
Proof. induction l as [|x l IH]; [done|]. cbn [existsb]. rewrite IH. by destruct (f x), (g x), (existsb f l). Qed.
Lemma partition_empty {A} (f : A → bool) l :
  is_empty_slice l = is_empty_slice (filter (fun x => f x = true) l) && is_empty_slice (filter (fun x => f x = false) l).
Proof. destruct l as [|x l]; [done|]. rewrite !filter_cons. destruct (f x); [done|]. cbn. by rewrite andb_false_r. Qed.

(** C26: Nothing in the way, a rotation completes: it adopts the new key if anything is stored under either key, every document under the old key is
    now under the new one with the same content, and every other document is as it was. *)
Theorem rotate_completes (w : World Net R App) :
  clear w → (∀ slot, openable w slot) →
  ∃ w', rotate context old new state_path persist w = (w', Good Complete) ∧
    (∀ slot, is_pending w slot = true → moved_over w w' slot) ∧
    (∀ slot, is_pending w slot = false → slot_history w' slot = slot_history w slot) ∧
    w_app w' = (if existsb (fun slot => is_pending w slot || is_done w slot) Slot_ALL then persist (w_app w) else w_app w).
Proof.
  intros Hcl Hopen. cut (runs (rotate context old new state_path persist) w (fun w' r => r = Good Complete ∧
    (∀ slot, is_pending w slot = true → moved_over w w' slot) ∧ (∀ slot, is_pending w slot = false → slot_history w' slot = slot_history w slot) ∧
    w_app w' = (if existsb (fun slot => is_pending w slot || is_done w slot) Slot_ALL then persist (w_app w) else w_app w))).
  { unfold runs. destruct (rotate context old new state_path persist w) as [w' r]. cbn. intros (-> & ?). by exists w'. }
  unfold rotate, plan. run_with (plan_slots_live Slot_ALL (mkPlan [] [] []) w Hcl). intros w1 r1 (Hcl1 & Hf1 & Ha1 & Hs1 & ->).
  cbn [p_pending p_done p_absent app]. set (pending := filter (fun s => is_pending w s = true) Slot_ALL). set (ready := filter (fun s => is_done w s = true) Slot_ALL).
  assert (∀ s, s ∈ pending ↔ is_pending w s = true) as Hpend by (intros s; unfold pending; rewrite list_elem_of_filter; pose proof (slot_all s); naive_solver).
  unfold runs, run_plan. cbn [p_pending p_done]. set (key_slots := filter (fun s => holds_key s = true) pending). set (artifacts := filter (fun s => holds_key s = false) pending).
  assert (∀ s, s ∈ pending → is_pending w1 s = true ∧ openable w1 s) as Hall1.
  { intros s Hs%Hpend. destruct (pending_same w w1 s (Hs1 s)) as (-> & Ho & _). auto. }
  assert (NoDup pending) as Hnd by apply NoDup_filter, slot_all_nodup.
  destruct (move_keys_live artifacts key_slots [] w1 Hcl1) as (w2 & moved & -> & Hcl2 & Hf2 & Ha2 & Hlen & Hm2 & Hs2);
    [by apply NoDup_filter|intros s [_ Hs]%list_elem_of_filter; by apply Hall1|].
  rewrite (empty_length moved key_slots) by (by rewrite Hlen). set (persisted := negb (is_empty_slice key_slots) || negb (is_empty_slice ready)).
  assert (∀ s, s ∈ artifacts → slot_history w2 s = slot_history w1 s) as Hart by (intros s [Hk _]%list_elem_of_filter; apply Hs2; intros [? _]%list_elem_of_filter; congruence).
  match goal with |- ?G => enough (runs (finish context old new state_path persist artifacts persisted) w2 (fun w' r => r = Good Complete ∧
    (∀ slot, is_pending w slot = true → moved_over w w' slot) ∧ (∀ slot, is_pending w slot = false → slot_history w' slot = slot_history w slot) ∧
    w_app w' = (if existsb (fun slot => is_pending w slot || is_done w slot) Slot_ALL then persist (w_app w) else w_app w))) by done end.
  run_with (finish_live artifacts persisted w2 Hcl2); [by apply NoDup_filter| |].
  { intros s Hs. destruct (pending_same w1 w2 s (Hart s Hs)) as (-> & Ho & _). apply list_elem_of_filter in Hs as [Hk Hs]. destruct (Hall1 s Hs). auto. }
  intros w3 r3 (-> & Hm3 & Hs3 & Ha3). split_and!; [done| | |].
  - intros s Hs%Hpend. apply (pending_same w w1 s (Hs1 s)). destruct (holds_key s) eqn:Hk.
    + eapply moved_same; [|apply Hm2; by apply list_elem_of_filter]. apply Hs3. intros [? _]%list_elem_of_filter. congruence.
    + assert (s ∈ artifacts) as Hin by (by apply list_elem_of_filter). apply (pending_same w1 w2 s (Hart s Hin)). by apply Hm3.
  - intros s Hs. assert (s ∉ pending) as Hn by (rewrite Hpend, Hs; done).
    rewrite Hs3, Hs2, Hs1; [done|..]; intros [_ ?]%list_elem_of_filter; done.
  - rewrite existsb_or, <-!filter_existsb. fold pending ready. rewrite (partition_empty holds_key pending). fold key_slots artifacts.
    rewrite Ha3, Ha2, Ha1. unfold persisted. by destruct (is_empty_slice key_slots), (is_empty_slice artifacts), (is_empty_slice ready).
Qed.
End rotation.
End live.
