(* ===== verification/SyncSample.v ===== *)
(** * A service that keeps the laws

    The parameters of the sync engine instantiated: a cipher that keeps its inputs, codecs that can be run, and a server in the way of the one the repository's
    own tests use ([crates/zode_sync/tests/fake_store/mod.rs]), to which other machines may write before each request.  The laws are proved of them, so the theorems
    that assume them apply, and runs can be computed. *)

From Stdlib Require Import String Ascii.
From stdpp Require Import relations.
From S2P Require Import Prelude Bytes RecoveryKey SyncEnvelope SyncClient SyncFiles SyncEngine SyncRotate SyncSafety.
Local Open Scope N_scope.

(** ** Codecs *)

(** A number as its binary digits and a comma. *)
Fixpoint digits (p : positive) (rest : string) : string :=
  match p with
  | xH => rest
  | xO p => String "0" (digits p rest)
  | xI p => String "1" (digits p rest)
  end.
Definition show (n : N) (rest : string) : string :=
  match n with N0 => String "-" (String "," rest) | Npos p => digits p (String "," rest) end.
Definition show_all (l : list N) : string := foldr show EmptyString l.

Fixpoint unshow (s : string) : option (list N * option N) :=
  match s with
  | EmptyString => Some ([], None)
  | String c s =>
      match unshow s with
      | None => None
      | Some (l, pending) =>
          if Ascii.eqb c "," then Some (match pending with Some n => n :: l | None => l end, Some 1)
          else match pending with
               | Some (Npos p) => if Ascii.eqb c "0" then Some (l, Some (Npos (xO p)))
                                  else if Ascii.eqb c "1" then Some (l, Some (Npos (xI p)))
                                  else if Ascii.eqb c "-" then Some (l, Some 0) else None
               | _ => None
               end
      end
  end.
Definition unshow_all (s : string) : option (list N) :=
  match unshow s with Some (l, pending) => Some (match pending with Some n => n :: l | None => l end) | None => None end.

Lemma unshow_digits p rest l : unshow rest = Some (l, Some 1) → unshow (digits p rest) = Some (l, Some (Npos p)).
Proof. intros Hr. induction p as [p IH|p IH|]; cbn [digits unshow]; [by rewrite IH|by rewrite IH|done]. Qed.
Lemma unshow_show n s l pending : unshow s = Some (l, pending) →
  unshow (show n s) = Some (match pending with Some n => n :: l | None => l end, Some n).
Proof.
  intros Hs. destruct n as [|p]; cbn [show].
  - cbn [unshow]. by rewrite Hs.
  - apply unshow_digits. cbn [unshow]. by rewrite Hs.
Qed.
Lemma unshow_show_all l : unshow_all (show_all l) = Some l.
Proof.
  unfold unshow_all. assert (∃ k pending, unshow (show_all l) = Some (k, pending) ∧ match pending with Some n => n :: k | None => k end = l) as (k & q & -> & Hl).
  { induction l as [|n l (k & q & Hk & Hl)]; [by exists [], None|]. exists l, (Some n). split; [|done]. cbn [show_all foldr]. fold (show_all l).
    rewrite (unshow_show _ _ _ _ Hk). by rewrite Hl. }
  by rewrite Hl.
Qed.

Definition string_of_bytes (l : list N) : string := string_of_list_ascii (Ascii.ascii_of_N <$> l).
Lemma string_of_as_bytes s : string_of_bytes (as_bytes s) = s.
Proof.
  unfold string_of_bytes, as_bytes. rewrite <-list_fmap_compose. rewrite <-(string_of_list_ascii_of_string s) at 2. f_equal.
  induction (list_ascii_of_string s) as [|c l IH]; [done|]. cbn. by rewrite IH, Ascii.ascii_N_embedding.
Qed.

(** Fields of bytes, separated by a number that is no byte. *)
Definition END_FIELD : N := 256.
Definition fields (l : list string) : list N := concat ((fun s => as_bytes s ++ [END_FIELD]) <$> l).
Fixpoint take_field (l : list N) : option (list N * list N) :=
  match l with
  | [] => None
  | x :: l => if x =? END_FIELD then Some ([], l) else '(f, rest) ← take_field l; Some (x :: f, rest)
  end.
Lemma as_bytes_below s : Forall (fun b => b < 256) (as_bytes s).
Proof. unfold as_bytes. apply Forall_fmap, Forall_true. intros c. apply Ascii.N_ascii_bounded. Qed.
Lemma take_field_app s rest : take_field (as_bytes s ++ END_FIELD :: rest) = Some (as_bytes s, rest).
Proof.
  induction (as_bytes_below s) as [|x l Hx _ IH]; [done|]. cbn [app take_field]. rewrite (proj2 (N.eqb_neq x END_FIELD)) by (unfold END_FIELD; lia).
  by rewrite IH.
Qed.

(** ** Cryptography *)
Definition sample_seal (key nonce aad plaintext : list N) : option (list N) := Some (len aad :: aad ++ key ++ plaintext).
Definition sample_open (key nonce aad ciphertext : list N) : option (list N) :=
  match ciphertext with
  | [] => None
  | n :: rest =>
      let '(a, rest) := (take (N.to_nat n) rest, drop (N.to_nat n) rest) in
      if bool_decide (a = aad) && bool_decide (take (length key) rest = key) then Some (drop (length key) rest) else None
  end.
Definition sample_envelope (json : list N) : result string Envelope :=
  match json with
  | [] => Bad "empty"
  | v :: rest =>
      ok_or ('(alg, rest) ← take_field rest; '(kid, rest) ← take_field rest; '(nonce, rest) ← take_field rest; '(ct, rest) ← take_field rest;
             Some (mkEnvelope v (string_of_bytes alg) (string_of_bytes kid) (string_of_bytes nonce) (string_of_bytes ct))) "fields"
  end.
Definition sample_digest (bytes : list N) : list N := take 32 (bytes ++ [len bytes] ++ replicate 32 0).
#[export] Instance sample_crypto : SyncCrypto := {
  sha256 := sample_digest;
  base64_encode := show_all;
  base64_decode := unshow_all;
  aead_seal := sample_seal;
  aead_open := sample_open;
  json_of_envelope e := Good (e_v e :: fields [e_alg e; e_kid e; e_nonce e; e_ct e]);
  envelope_of_json := sample_envelope }.
#[export] Instance sample_rng : Rng N := fun n r => (r + 1, Some (replicate n r)).

Lemma sample_aead key nonce aad aad' plaintext ciphertext : sample_seal key nonce aad plaintext = Some ciphertext →
  sample_open key nonce aad' ciphertext = if bool_decide (aad = aad') then Some plaintext else None.
Proof.
  intros [= <-]. unfold sample_open, len. rewrite Nat2N.id, take_app_length, drop_app_length. case_bool_decide; [|done]. cbn [andb].
  by rewrite take_app_length, bool_decide_true, drop_app_length by done.
Qed.
#[export] Instance sample_crypto_laws : CryptoLaws N.
Proof.
  split.
  - apply unshow_show_all.
  - intros [v alg kid nonce ct] json [= <-]. cbn [envelope_of_json sample_crypto sample_envelope e_v e_alg e_kid e_nonce e_ct].
    unfold fields. cbn [fmap list_fmap concat]. rewrite <-!app_assoc. cbn [app]. rewrite take_field_app. cbn [mbind option_bind]. rewrite take_field_app.
    cbn [mbind option_bind]. rewrite take_field_app. cbn [mbind option_bind]. rewrite take_field_app. cbn [mbind option_bind ok_or].
    by rewrite !string_of_as_bytes.
  - intros bytes. cbn. unfold sample_digest. rewrite length_take, !length_app, length_replicate. cbn [length]. lia.
  - intros n rng rng' bytes [= <- <-]. apply length_replicate.
  - intros key nonce aad p c Hc. cbn. rewrite (sample_aead _ _ _ _ _ _ Hc). by rewrite bool_decide_true.
  - intros key nonce aad aad' p p' c Hc. cbn. rewrite (sample_aead _ _ _ _ _ _ Hc). by case_bool_decide.
Qed.

#[export] Instance sample_text : Utf8Text := fun l => Some (string_of_bytes l).
#[export] Instance sample_text_laws : TextLaws.
Proof. intros s. unfold text_of_bytes, sample_text. by rewrite string_of_as_bytes. Qed.
#[export] Instance sample_diff : LineDiff := fun local remote => ("-" +:+ local +:+ String "010" ("+" +:+ remote))%string.

(** ** The state file *)
#[export] Instance SyncedAt_countable : Countable SyncedAt.
Proof. refine (inj_countable' (fun s => (sy_revision s, sy_local_hash s)) (fun p => mkSyncedAt p.1 p.2) _). by intros []. Defined.
#[export] Instance sample_state_json : StateJson := {
  json_of_state s := Some (show_all [Npos (countable.encode (s : gmap string SyncedAt))]);
  state_of_json raw := match unshow_all raw with Some [Npos p] => countable.decode (A := gmap string SyncedAt) p | _ => None end }.
#[export] Instance sample_state_laws : StateLaws.
Proof.
  intros s raw E. cbn [json_of_state sample_state_json] in E. assert (raw = show_all [Npos (countable.encode (s : gmap string SyncedAt))]) as -> by congruence.
  cbn [state_of_json sample_state_json]. rewrite unshow_show_all. apply countable.decode_encode.
Qed.

(** ** The server *)

(** The writes to a slot, newest first: whether this machine made it, and the blob, [None] for a deletion.  The revision of a document is its place. *)
Definition Slots : Type := gmap string (list (bool * option string)).
Record SampleNet := mkNet { n_slots : Slots; n_script : list (list (string * option string)) }.

Fixpoint rev_str (n : nat) : string := match n with O => "r" | S n => String "i" (rev_str n) end.
Fixpoint writes_of (l : list (bool * option string)) : list Write :=
  match l with
  | [] => []
  | (mine, blob) :: l => mkWrite mine ((fun b => mkDocument b (rev_str (length l))) <$> blob) :: writes_of l
  end.
Definition slot_of (slots : Slots) (u : string) : list (bool * option string) := default [] (slots !! u).
Definition write_slot (slots : Slots) (u : string) (w : bool * option string) : Slots := <[u := w :: slot_of slots u]> slots.
Lemma slot_of_write slots u w u' : slot_of (write_slot slots u w) u' = if decide (u' = u) then w :: slot_of slots u else slot_of slots u'.
Proof.
  unfold write_slot, slot_of. case_decide as Hu; [subst; exact (f_equal (default []) (lookup_insert_eq (M := gmap string) slots u _))|].
  apply (f_equal (default [])), (lookup_insert_ne (M := gmap string)). congruence.
Qed.
#[export] Instance sample_server : SyncServer SampleNet := fun net u => writes_of (slot_of (n_slots net) u).

(** What other machines write before the request is served. *)
Definition other_write (slots : Slots) (w : string * option string) : Slots := write_slot slots w.1 (false, w.2).
Definition interfere (net : SampleNet) : SampleNet :=
  match n_script net with
  | [] => net
  | ws :: script => mkNet (foldl other_write (n_slots net) ws) script
  end.

(** A document travels as its revision, a colon and its blob. *)
Fixpoint split_colon (s : string) : option (string * string) :=
  match s with
  | EmptyString => None
  | String c s => if Ascii.eqb c ":" then Some (EmptyString, s) else '(a, b) ← split_colon s; Some (String c a, b)
  end.
Definition doc_json (d : RemoteDocument) : string := (d_revision d +:+ String ":" (d_blob d))%string.
#[export] Instance sample_wire : WireJson := {
  json_of_put := Some;
  document_of_json body := '(revision, blob) ← split_colon body; Some (blob, revision);
  stored_of_json := Some;
  error_of_json _ := None;
  refusal_of_json _ := None }.

Definition sample_put (q : Request) (net : SampleNet) : SampleNet * option (N * option string) :=
  let slot := slot_of (n_slots net) (q_uri q) in
  let c := current (writes_of slot) in
  let answer := match c with Some d => (409, Some (doc_json d)) | None => (404, Some ""%string) end in
  match precondition_of q with
  | None => (net, Some (412, Some ""%string))
  | Some p =>
      if match p, c with
         | Create, None => true
         | Replace revision, Some d => String.eqb (d_revision d) revision
         | _, _ => false
         end
      then (mkNet (write_slot (n_slots net) (q_uri q) (true, Some (q_body q))) (n_script net), Some (200, Some (rev_str (length slot))))
      else (net, Some answer)
  end.
#[export] Instance sample_http : HttpClient SampleNet := {
  request_ok _ := true;
  http_send q net :=
    let net := interfere net in
    if String.eqb (q_method q) "GET"
    then (net, Some match current (writes_of (slot_of (n_slots net) (q_uri q))) with
                    | Some d => (200, Some (doc_json d))
                    | None => (404, Some ""%string)
                    end)
    else if String.eqb (q_method q) "PUT" then sample_put q net
    else (net, Some (405, Some ""%string)) }.

Lemma rev_str_inj n m : rev_str n = rev_str m → n = m.
Proof. revert m. induction n as [|n IH]; intros [|m]; cbn; try done. intros [= E]. by rewrite (IH _ E). Qed.
Lemma split_colon_rev n blob : split_colon (rev_str n +:+ String ":" blob)%string = Some (rev_str n, blob).
Proof. induction n as [|n IH]; [done|]. cbn [rev_str]. rewrite append_cons. cbn [split_colon]. cbn [Ascii.eqb]. by rewrite IH. Qed.
Lemma writes_revisions l : Forall (fun d => ∃ n, (n < length l)%nat ∧ d_revision d = rev_str n) (documents (writes_of l)) ∧ NoDup (revisions (writes_of l)).
Proof.
  unfold revisions. induction l as [|[mine blob] l [IHf IHn]]; [by split; constructor|]. cbn [writes_of documents].
  assert (Forall (fun d => ∃ n, (n < length ((mine, blob) :: l))%nat ∧ d_revision d = rev_str n) (documents (writes_of l))) as IHf'.
  { eapply Forall_impl; [exact IHf|]. intros d (n & Hn & Hd). exists n. cbn. split; [lia|done]. }
  unfold documents in *. destruct blob as [blob|]; cbn; [|done]. split.
  - constructor; [|done]. exists (length l). split; [lia|done].
  - constructor; [|done]. intros (d & Hd & Hin)%list_elem_of_fmap. rewrite Forall_forall in IHf. destruct (IHf d Hin) as (n & Hn & Hr).
    rewrite Hr in Hd. apply rev_str_inj in Hd. lia.
Qed.
Lemma current_json net u d : current (history (Net := SampleNet) net u) = Some d → document_of_json (doc_json d) = Some (d_blob d, d_revision d).
Proof.
  unfold history, sample_server. destruct (slot_of (n_slots net) u) as [|[mine [blob|]] l]; cbn; [done| |done]. intros [= <-]. unfold doc_json. cbn [d_revision d_blob].
  by rewrite split_colon_rev.
Qed.
Lemma interfere_others net u : others (history net u) (history (interfere net) u).
Proof.
  unfold interfere. destruct (n_script net) as [|ws script]; [apply others_refl|]. unfold history, sample_server. cbn [n_slots].
  generalize (n_slots net) as slots. induction ws as [|[u' blob] ws IH]; intros slots; [apply others_refl|]. cbn [foldl].
  eapply others_trans; [|apply IH]. unfold other_write. cbn [fst snd]. rewrite slot_of_write. case_decide as Hu; [subst|apply others_refl].
  cbn [writes_of]. eexists [_]. split; [done|]. by repeat constructor.
Qed.
#[export] Instance sample_server_laws : ServerLaws SampleNet.
Proof.
  split.
  - intros net u. apply writes_revisions.
  - intros q net net' answer Hm. cbn [http_send sample_http]. rewrite Hm. cbn [String.eqb]. intros [= <- <-]. split; [apply interfere_others|].
    intros status body E. change (writes_of (slot_of (n_slots (interfere net)) (q_uri q))) with (history (interfere net) (q_uri q)) in *.
    destruct (current (history (interfere net) (q_uri q))) as [d|] eqn:Hc; injection E as <- <-; (split; [done|]); [|done].
    intros _ blob revision. rewrite (current_json _ _ _ Hc). intros [= <- <-]. by destruct d.
  - intros q net net' answer blob p Hm [= Hb] Hp. cbn [http_send sample_http]. rewrite Hm. cbn [String.eqb]. intros E.
    unfold sample_put in E. rewrite Hp in E.
    change (writes_of (slot_of (n_slots (interfere net)) (q_uri q))) with (history (interfere net) (q_uri q)) in E.
    assert (∀ status body, (match current (history (interfere net) (q_uri q)) with Some d => (409, Some (doc_json d)) | None => (404, Some ""%string) end) = (status, Some body) →
      success status = false ∧ (status = 404 → current (history (interfere net) (q_uri q)) = None) ∧
      (status = 409 → ∀ blob revision, document_of_json body = Some (blob, revision) → current (history (interfere net) (q_uri q)) = Some (mkDocument blob revision))) as Hans.
    { intros status body Ha. destruct (current (history (interfere net) (q_uri q))) as [d|] eqn:Hc; injection Ha as <- <-; (split; [done|]); (split; [done|]); [|done].
      intros _ b r. rewrite (current_json _ _ _ Hc). intros [= <- <-]. by destruct d. }
    destruct (match p, current _ with Create, None => _ | _, _ => _ end) eqn:Hal; injection E as <- <-; last first.
    { split; [intros; apply interfere_others|]. exists (history (interfere net) (q_uri q)). split; [apply interfere_others|]. left. split; [done|].
      intros status body [= Ha]. by apply Hans. }
    split.
    + intros u Hu. unfold history, sample_server. cbn [n_slots]. rewrite slot_of_write, decide_False by done. apply interfere_others.
    + exists (history (interfere net) (q_uri q)). split; [apply interfere_others|]. right. exists (rev_str (length (slot_of (n_slots (interfere net)) (q_uri q)))).
      split; [|split].
      * unfold history at 1, sample_server. cbn [n_slots]. rewrite slot_of_write, decide_True by done. cbn [writes_of fmap option_fmap option_map]. by rewrite Hb.
      * destruct p as [|revision], (current _) as [d|]; try done. apply String.eqb_eq in Hal. by exists d.
      * intros status body [= <- <-]. split; [done|]. split; [done|]. intros _ r [= <-]. done.
Qed.

(** Without a script nobody else writes. *)
Definition undisturbed (net : SampleNet) : Prop := n_script net = [].
#[export] Instance sample_quiet : QuietServer undisturbed.
Proof.
  assert (∀ net, undisturbed net → interfere net = net) as Hi by (intros net Hq; unfold interfere; by rewrite Hq).
  split; [done|eauto| |].
  - intros q net Hq Hm. cbn [http_send sample_http]. rewrite Hm, (Hi _ Hq). cbn [String.eqb].
    change (writes_of (slot_of (n_slots net) (q_uri q))) with (history net (q_uri q)).
    destruct (current (history net (q_uri q))) as [d|] eqn:Hc.
    + eexists _, _, _. split_and!; [done..|]. by apply (current_json net (q_uri q)).
    + eexists _, _, _. by split_and!.
  - intros q net blob p Hq Hm [= Hb] Hp Hal. cbn [http_send sample_http]. rewrite Hm, (Hi _ Hq). cbn [String.eqb]. unfold sample_put. rewrite Hp.
    change (writes_of (slot_of (n_slots net) (q_uri q))) with (history net (q_uri q)).
    assert (match p, current (history net (q_uri q)) with
            | Create, None => true | Replace revision, Some d => String.eqb (d_revision d) revision | _, _ => false end = true) as ->.
    { destruct p as [|revision]; cbn [allowed] in Hal; [by rewrite Hal|]. destruct Hal as (d & -> & <-). apply String.eqb_refl. }
    eexists _, _, _, _. split_and!; [done..| |].
    + unfold history at 1, sample_server. cbn [n_slots]. rewrite slot_of_write, decide_True by done. cbn [writes_of fmap option_fmap option_map]. by rewrite Hb.
    + intros u Hu. unfold history, sample_server. cbn [n_slots]. by rewrite slot_of_write, decide_False by done.
Qed.
#[export] Instance sample_working : WorkingCrypto N.
Proof. split; intros; cbn; eauto. Qed.

(** * Runs of the sync engine

    The theorems applied to the service of [SyncSample], and two runs in which a rotation does not do what it should. *)

Definition ctx : SyncContext := mkContext (mkEndpoint "https://api" "token" "https://web") "u1".
Definition key_a : list N := replicate 32 1.
Definition key_b : list N := replicate 32 2.
Definition config : Path := ["config"]%string.
Definition state_file : Path := ["config"; "sync_state.json"]%string.
Definition settings : Artifact := mkArtifact Settings ["config"; "settings.json"]%string (Some ["config"; "settings_backup.json"]%string).

Definition new_machine (script : list (list (string * option string))) : World SampleNet N bool :=
  mkWorld (mkFs (<[a_path settings := "mine"%string]> ∅) []) (mkNet ∅ script) 0 false.

(** A document as another machine with the key would store it. *)
Definition sealed (key : list N) (resource : Resource) (text : string) : string :=
  match (encrypt_at (R := N) key "u1" resource (as_bytes text) 9).2 with
  | Good e => match to_blob e with Good blob => blob | Bad _ => "" end
  | Bad _ => ""
  end.
Definition texts (key : list N) (w : World SampleNet N bool) : list (option string) :=
  (fun d => match decrypt_document ctx key Settings (d_blob d) with Good t => Some t | Bad _ => None end) <$> documents (hist ctx w Settings).

(** ** A rotation hides what other machines wrote *)

(** This machine pushed its settings; then another machine pushed "theirs". *)
Definition pushed : World SampleNet N bool := (push_content ctx key_a Settings "mine" state_file (new_machine [])).1.
Definition overtaken : World SampleNet N bool :=
  mkWorld (w_fs pushed) (mkNet (n_slots (w_net pushed)) [[(uri_of ctx Settings, Some (sealed key_a (sync Settings) "theirs"))]]) (w_rng pushed) false.
Definition rotated : World SampleNet N bool := (rotate ctx key_a key_b state_file (fun _ => true) overtaken).1.


(** ** An interrupted rotation undercounts *)

(** The documents that hold keys are under the old key; another machine replaces the second while it is being moved. *)
Definition env_key : Resource := mkResource "sync/env-key" "env-key" None.
Definition contested : World SampleNet N bool :=
  let blob resource := Some (sealed key_a resource "secret") in
  mkWorld (mkFs ∅ []) (mkNet (<[slot_uri (c_endpoint ctx) sharing_key := [(false, blob sharing_key)]]>
                              (<[slot_uri (c_endpoint ctx) env_key := [(false, blob env_key)]]> ∅))
                             [[]; []; []; []; []; []; []; []; [(slot_uri (c_endpoint ctx) env_key, blob env_key)]]) 0 false.
(** The sharing key is put back under the old key, but is not among the slots said to be left. *)
Example interrupted_undercounts :
  let '(w, r) := rotate ctx key_a key_b state_file (fun _ => true) contested in
  r = Good (Interrupted [EnvKey]) ∧ w_app w = false ∧ is_pending ctx key_a key_b w SharingKey = true.
Proof. vm_compute. done. Qed.

(** ** The extension list is not a file *)

(** The artifact of the extension list has no path, so overwriting the server's list through it sends nothing. *)
Lemma extensions_not_overwritten dek paths revision (w : World SampleNet N bool) :
  fs_files (w_fs w) !! [] = None → fs_faults (w_fs w) = [] →
  overwrite_remote ctx dek (for_kind paths Extensions) revision state_file w = (w, Good NothingToPush).
Proof.
  destruct w as [[files faults] net rng app]. cbn [w_fs fs_files fs_faults]. intros Hf ->. unfold overwrite_remote, on_fs, read, read_to_string.
  cbv [mbind op_bind]. cbn [for_kind a_path w_fs next_fault fs_faults fs_files] in *.
  unfold next_fault. cbn [fs_faults fs_files]. change (a_path _) with ([] : Path). unfold Path in *. by rewrite Hf.
Qed.

(** ** The theorems at work *)
Definition first_push : World SampleNet N bool * result SyncError PushOutcome :=
  push_content ctx key_a Settings "mine" state_file (new_machine [[(uri_of ctx Keymap, Some "k"%string)]]).
Lemma no_lost_update_witness :
  let m := mkMachine (App := bool) (new_machine [[(uri_of ctx Keymap, Some "k"%string)]]) [] [] in
  own_writes (seen ctx m Settings) (hist ctx (m_world m) Settings) (hist ctx first_push.1 Settings) ∧ length (hist ctx first_push.1 Settings) = 1%nat.
Proof.
  split; [|vm_compute; reflexivity].
  apply (no_lost_update ctx state_file (mkMachine (new_machine [[(uri_of ctx Keymap, Some "k"%string)]]) [] [])
           (mkMachine (new_machine [[(uri_of ctx Keymap, Some "k"%string)]]) [] [])
           (mkMachine first_push.1 [(Settings, "mine"%string)] (offered Settings (push_offer first_push.2) ++ []))).
  - split_and!; reflexivity.
  - apply rtc_refl.
  - apply (step_push ctx state_file key_a Settings "mine" _ first_push.1 first_push.2). unfold first_push. by destruct (push_content _ _ _ _ _ _).
Defined.

Definition failing : World SampleNet N bool :=
  mkWorld (mkFs (<[a_path settings := "mine"%string]> ∅) [None; None; None; None; None; None; Some (Crash (Some "x"%string))]) (mkNet ∅ []) 0 false.
Lemma apply_remote_safe_witness :
  let w' := (apply_remote settings "theirs" "r" state_file failing).1 in
  applied state_file settings "theirs" "r" failing w' (apply_remote settings "theirs" "r" state_file failing).2 ∧
  fs_files (w_fs w') !! a_path settings = Some "theirs"%string ∧
  fs_files (w_fs w') !! ["config"; "settings_backup.json"]%string = Some "mine"%string.
Proof.
  split; [|vm_compute; done].
  apply (apply_remote_safe state_file settings "theirs" "r" failing).
  - apply (bool_decide_unpack (NoDup _)). vm_compute. exact I.
  - by destruct (apply_remote settings "theirs" "r" state_file failing).
Defined.

Lemma rotate_safe_witness :
  let '(w, r) := rotate ctx key_a key_b state_file (fun _ => true) contested in rot_ok ctx key_a key_b contested w.
Proof.
  destruct (rotate ctx key_a key_b state_file (fun _ => true) contested) as [w r] eqn:E.
  apply (rotate_safe ctx key_a key_b state_file (fun _ => true) contested w r E).
Defined.

(** Settings under the old key, nothing else stored, nobody else writing. *)
Definition settled : World SampleNet N bool := pushed.
Lemma rotate_completes_witness :
  ∃ w, rotate ctx key_a key_b state_file (fun _ => true) settled = (w, Good Complete) ∧ w_app w = true.
Proof.
  destruct (rotate_completes undisturbed ctx key_a key_b state_file (fun _ => true) eq_refl ltac:(done) settled) as (w & E & _ & _ & Ha).
  - split; vm_compute; reflexivity.
  - intros [[]| |]; intros Hp; try (vm_compute in Hp; discriminate Hp).
    eexists (sync Settings), _, _. split; [reflexivity|]. split; [vm_compute; reflexivity|]. split; [vm_compute; reflexivity|]. by eexists.
  - exists w. split; [done|]. rewrite Ha. vm_compute. reflexivity.
Defined.

Lemma envelope_binding_witness :
  let '(rng', r) := encrypt_at (R := N) key_a "u1" (sync Settings) [1; 2; 3] 5 in
  ∃ e, r = Good e ∧ decrypt_at key_a "u1" (sync Settings) e = Good [1; 2; 3] ∧ decrypt_at key_a "u1" (sync Keymap) e = Bad WrongKey.
Proof.
  eexists. split; [vm_compute; reflexivity|]. split; [|vm_compute; reflexivity].
  apply (envelope_binding (R := N) key_a "u1" (sync Settings) [1; 2; 3] 5 6).
  - apply (bool_decide_unpack (_ ∉ _)). vm_compute. exact I.
  - constructor.
  - vm_compute. reflexivity.
Defined.
