(* ===== verification/SyncExtensions.v ===== *)
(** * The extension list: [crates/zode_sync/src/extensions.rs]

    The installed extensions travel as a header and one identifier per line, sorted, so that the line diff of two lists is a diff of extensions. *)

From Stdlib Require Import String Ascii.
From stdpp Require Import sorting.
From S2P Require Import Prelude Bytes SyncEnvelope SyncClient SyncFiles.
Local Open Scope string_scope.

Definition HEADER : string := "# zode-extensions v1".
Definition NEWLINE : string := String "010" EmptyString.

(** The order of strings, by bytes. *)
Definition str_le (a b : string) : Prop := String.leb a b = true.
#[export] Instance str_le_dec : RelDecision str_le.
Proof. intros a b. unfold str_le. apply _. Defined.

(** [Vec::dedup] *)
Fixpoint dedup (l : list string) : list string :=
  match l with
  | x :: ((y :: _) as rest) => if String.eqb x y then dedup rest else x :: dedup rest
  | l => l
  end.
(** Sorted without duplicates, as [sort] and [dedup] leave a vector and a [BTreeSet] iterates. *)
Definition sorted_set (l : list string) : list string := dedup (merge_sort str_le l).

Definition render (installed : list string) : string :=
  let ids := sorted_set installed in
  foldl (fun out id => out +:+ NEWLINE +:+ id) HEADER ids +:+ NEWLINE.

(** [str::trim]: the characters of [char::is_whitespace] as their UTF-8 bytes. *)
Definition bytes_str (l : list nat) : string := string_of_list_ascii (ascii_of_nat <$> l).
Definition WHITESPACE : list string :=
  bytes_str <$> ([[9]; [10]; [11]; [12]; [13]; [32]; [0xC2; 0x85]; [0xC2; 0xA0]; [0xE1; 0x9A; 0x80]] ++
    ((fun b => [0xE2; 0x80; b]) <$> ([0x80; 0x81; 0x82; 0x83; 0x84; 0x85; 0x86; 0x87; 0x88; 0x89; 0x8A; 0xA8; 0xA9; 0xAF])) ++
    [[0xE2; 0x81; 0x9F]; [0xE3; 0x80; 0x80]])%list.
Definition str_rev (s : string) : string := string_of_list_ascii (reverse (list_ascii_of_string s)).

Fixpoint strip_one (prefixes : list string) (s : string) : option string :=
  match prefixes with
  | [] => None
  | p :: prefixes => match str_strip_prefix p s with Some rest => Some rest | None => strip_one prefixes s end
  end.
Fixpoint strip_all (fuel : nat) (prefixes : list string) (s : string) : string :=
  match fuel with
  | O => s
  | S fuel => match strip_one prefixes s with Some rest => strip_all fuel prefixes rest | None => s end
  end.
Definition trim_start (s : string) : string := strip_all (String.length s) WHITESPACE s.
Definition trim_end (s : string) : string := str_rev (strip_all (String.length s) (str_rev <$> WHITESPACE) (str_rev s)).
Definition trim (s : string) : string := trim_end (trim_start s).

Definition parse (stored : string) : option (list string) :=
  match lines stored with
  | [] => None
  | first :: rest =>
      if negb (String.eqb (trim first) HEADER) then None
      else Some (filter (fun line => line ≠ "") (trim <$> rest))
  end.

Record ExtensionComparison := mkComparison { missing : list string; extra : list string }.
(** [BTreeSet::difference] *)
Definition difference (a b : list string) : list string := filter (fun x => x ∉ b) a.
Definition compare (installed stored : list string) : ExtensionComparison :=
  let here := sorted_set installed in
  let there := sorted_set stored in
  mkComparison (difference there here) (difference here there).

(** ** The order *)
Lemma compare_trans_le a b c : String.compare a b ≠ Gt → String.compare b c ≠ Gt → String.compare a c ≠ Gt.
Proof.
  revert b c. induction a as [|x a IH]; intros [|y b] [|z c]; cbn; try done. unfold Ascii.compare.
  destruct (N.compare_spec (N_of_ascii x) (N_of_ascii y)) as [Exy|Hxy|Hxy]; [| |done];
    destruct (N.compare_spec (N_of_ascii y) (N_of_ascii z)) as [Eyz|Hyz|Hyz]; try done.
  - rewrite Exy, Eyz, N.compare_refl. apply IH.
  - rewrite Exy, (proj2 (N.compare_lt_iff _ _) Hyz). done.
  - rewrite <-Eyz, (proj2 (N.compare_lt_iff _ _) Hxy). done.
  - rewrite (proj2 (N.compare_lt_iff (N_of_ascii x) (N_of_ascii z))) by lia. done.
Qed.
#[export] Instance str_le_trans : Transitive str_le.
Proof.
  intros a b c. unfold str_le, String.leb. intros Hab Hbc. pose proof (compare_trans_le a b c) as H.
  destruct (String.compare a b), (String.compare b c), (String.compare a c); try done; exfalso; by apply H.
Qed.
#[export] Instance str_le_antisym : AntiSymm (=) str_le.
Proof. intros a b. apply String.leb_antisym. Qed.
#[export] Instance str_le_total : Total str_le.
Proof. intros a b. apply String.leb_total. Qed.

(** ** Sorted sets *)
Lemma elem_of_dedup x l : x ∈ dedup l ↔ x ∈ l.
Proof.
  induction l as [|y l IH]; [done|]. destruct l as [|z l]; [done|]. change (dedup (y :: z :: l)) with (if String.eqb y z then dedup (z :: l) else y :: dedup (z :: l)).
  destruct (String.eqb_spec y z) as [->|]; [rewrite IH; set_solver|]. rewrite !elem_of_cons, IH, elem_of_cons. done.
Qed.
Lemma dedup_sorted l : StronglySorted str_le l → StronglySorted str_le (dedup l) ∧ NoDup (dedup l).
Proof.
  induction 1 as [|y l Hl [IHs IHn] Hy]; [split; constructor|]. destruct l as [|z l]; [split; [by repeat constructor|apply NoDup_singleton]|].
  change (dedup (y :: z :: l)) with (if String.eqb y z then dedup (z :: l) else y :: dedup (z :: l)).
  destruct (String.eqb_spec y z) as [->|Hne]; [done|]. split.
  - constructor; [done|]. apply Forall_forall. intros x Hx. rewrite elem_of_dedup in Hx. rewrite Forall_forall in Hy. by apply Hy.
  - constructor; [|done]. intros Hin. rewrite elem_of_dedup in Hin. apply elem_of_cons in Hin as [|Hin]; [done|].
    apply Hne, (anti_symm str_le); [by apply (Forall_inv Hy)|]. apply StronglySorted_inv in Hl as [_ Hl]. rewrite Forall_forall in Hl. by apply Hl.
Qed.
Lemma sorted_set_spec l : StronglySorted str_le (sorted_set l) ∧ NoDup (sorted_set l) ∧ ∀ x, x ∈ sorted_set l ↔ x ∈ l.
Proof.
  unfold sorted_set. destruct (dedup_sorted (merge_sort str_le l)) as [Hs Hn]; [apply Sorted_StronglySorted; [apply _|apply Sorted_merge_sort, _]|].
  split; [done|]. split; [done|]. intros x. by rewrite elem_of_dedup, merge_sort_Permutation.
Qed.
Lemma sorted_set_eq l k : (∀ x, x ∈ l ↔ x ∈ k) → sorted_set l = sorted_set k.
Proof.
  intros H. destruct (sorted_set_spec l) as (Hs & Hn & Hm), (sorted_set_spec k) as (Hs' & Hn' & Hm').
  apply (StronglySorted_unique str_le); [done..|]. apply NoDup_Permutation; [done..|]. intros x. by rewrite Hm, Hm'.
Qed.

(** ** Lines *)
Lemma append_assoc a b c : (a +:+ b) +:+ c = a +:+ (b +:+ c).
Proof. induction a as [|x a IH]; [done|]. rewrite !append_cons. by rewrite IH. Qed.
Definition plain (s : string) : Prop := "010"%char ∉ list_ascii_of_string s ∧ "013"%char ∉ list_ascii_of_string s.
Lemma lines_cons c s : c ≠ "010"%char → c ≠ "013"%char →
  lines (String c s) = match lines s with [] => [String c EmptyString] | line :: rest => String c line :: rest end.
Proof. destruct c as [[] [] [] [] [] [] [] []]; intros H1 H2; try done. Qed.
Lemma lines_line s rest : plain s → lines (s +:+ NEWLINE +:+ rest) = s :: lines rest.
Proof.
  induction s as [|c s IH]; [done|]. unfold plain. cbn [list_ascii_of_string]. rewrite !not_elem_of_cons. intros [[H1 H2] [H3 H4]].
  rewrite append_cons, lines_cons by congruence. by rewrite IH.
Qed.
Lemma foldl_append a b ids :
  foldl (fun out id => out +:+ NEWLINE +:+ id) (a +:+ b) ids = a +:+ foldl (fun out id => out +:+ NEWLINE +:+ id) b ids.
Proof. revert b. induction ids as [|id ids IH]; intros b; [done|]. cbn [foldl]. by rewrite !append_assoc, IH. Qed.
Lemma lines_rendered x ids : plain x → Forall plain ids →
  lines (foldl (fun out id => out +:+ NEWLINE +:+ id) x ids +:+ NEWLINE) = x :: ids.
Proof.
  intros Hx Hids. revert x Hx. induction Hids as [|id ids Hid _ IH]; intros x Hx; cbn [foldl].
  - by apply (lines_line x "").
  - rewrite !foldl_append, !append_assoc, lines_line by done. by rewrite IH.
Qed.

(** ** The list *)

(** An identifier that takes a line of its own. *)
Definition identifier (s : string) : Prop := s ≠ "" ∧ plain s ∧ trim s = s.

Lemma identifiers_kept ids : Forall identifier ids → filter (fun line => line ≠ "") (trim <$> ids) = ids.
Proof.
  induction 1 as [|id ids (Hne & _ & Ht) _ IH]; [done|]. rewrite fmap_cons, Ht, filter_cons_True by done. by rewrite IH.
Qed.
Lemma parse_render ids : Forall identifier ids → parse (render ids) = Some (sorted_set ids).
Proof.
  intros H. assert (Forall identifier (sorted_set ids)) as Hs by (rewrite Forall_forall in *; intros x Hx; by apply H, sorted_set_spec).
  unfold parse, render. rewrite lines_rendered; [|by vm_compute; split; intros Hin; repeat (apply elem_of_cons in Hin as [|Hin]; [done|]); apply elem_of_nil in Hin|].
  - replace (trim HEADER) with HEADER by (by vm_compute). rewrite String.eqb_refl. cbn [negb]. by rewrite identifiers_kept.
  - eapply Forall_impl; [exact Hs|]. by intros x (_ & Hp & _).
Qed.
Lemma compare_spec installed stored x :
  (x ∈ missing (compare installed stored) ↔ x ∈ stored ∧ x ∉ installed) ∧ (x ∈ extra (compare installed stored) ↔ x ∈ installed ∧ x ∉ stored).
Proof.
  destruct (sorted_set_spec installed) as (_ & _ & Hi), (sorted_set_spec stored) as (_ & _ & Hs). cbn [compare missing extra]. unfold difference.
  rewrite !list_elem_of_filter, Hi, Hs. tauto.
Qed.

(** The extension list: machines with the same extensions render the same text, whatever the order their stores return; the text is read back as the sorted
    set of the extensions; and comparing with a list read back offers exactly the extensions that are stored and not installed, and names exactly
    those installed and not stored. *)
Theorem extension_list_codec (ids : list string) (H : Forall identifier ids) :
  parse (render ids) = Some (sorted_set ids) ∧
  (∀ l, (∀ x, x ∈ l ↔ x ∈ ids) → render l = render ids) ∧
  ∀ installed, ∃ stored, parse (render ids) = Some stored ∧
    ∀ x, (x ∈ missing (compare installed stored) ↔ x ∈ ids ∧ x ∉ installed) ∧ (x ∈ extra (compare installed stored) ↔ x ∈ installed ∧ x ∉ ids).
Proof.
  split; [by apply parse_render|]. split.
  - intros l Hl. unfold render. by rewrite (sorted_set_eq l ids).
  - intros installed. exists (sorted_set ids). split; [by apply parse_render|]. intros x.
    destruct (sorted_set_spec ids) as (_ & _ & Hs), (compare_spec installed (sorted_set ids) x) as [-> ->]. by rewrite Hs.
Qed.

Lemma extension_list_codec_witness : parse (render ["b/two"; "a/one"; "b/two"]) = Some ["a/one"; "b/two"].
Proof.
  destruct (extension_list_codec ["b/two"; "a/one"; "b/two"]) as [H _]; [|exact H].
  repeat constructor; try done; intros Hin; repeat (apply elem_of_cons in Hin as [|Hin]; [done|]); by apply elem_of_nil in Hin.
Defined.
